(* ===== verification/_CoqProject ===== *)
-Q . S2P
Prelude.v
ReplaySeq.v
Probe.v
DictIndex.v
DictTable.v
DictIndexSpec.v
DictJournal.v
DictReplaySpec.v
DictJournalSpec.v
PyDict.v
PyDictSpec.v
Double.v
Keys.v
KeysSpec.v
Concrete.v
DictProps.v
KeyProps.v
Outcome.v
IntBytes.v
IntArith.v
IntArithSpec.v
IntModular.v
Slices.v
SliceSpec.v
Ranges.v
RangeSpec.v
ConcreteInt.v
IntProps.v
RangeProps.v
SetIndex.v
SetTable.v
SetIndexSpec.v
SetJournal.v
SetJournalSpec.v
PySet.v
PySetSpec.v
SetProps.v
LruLinks.v
LruCache.v
Bytecode.v
Vm.v
VmSpec.v
Passes.v
PassesSpec.v
ExcTable.v
BytecodeProps.v
Classes.v
ClassSpec.v
ClassWalkSpec.v
ClassProps.v
Utf8.v
NanBox.v
StrHeap.v
StrHeapSpec.v
StrRefSpec.v
StrOpsSpec.v
StrBuildSpec.v
StringProps.v
ObjectIdentity.v
Chars.v
LexLiterals.v
LexFStrings.v
Lexer.v
LexBounds.v
LexLayout.v
LexProps.v
Repr.v
ReprSpec.v
TextProps.v
Combinatorics.v
CombinatoricsSpec.v
Itertools.v
ItertoolsSpec.v
Parser.v
ParserEnds.v
Grammar.v
ParserReads.v
ParserComplete.v
ParserSound.v
ParserProps.v
