(* ===== verification/Prelude.v ===== *)
(** * PyRust: a verification library of its core

    PyRust is an interpreter of Python 3.12 in Rust.  Its crates, under
    src/crates, are pyrust-core (values, keys, containers), pyrust-builtins
    (methods of built-in types), pyrust (lexer, parser, compiler to bytecode,
    optimizer, virtual machine, standard-library modules), pyrust-derive and
    the command line.  This development models the parts whose behaviour is
    settled by an algorithm and its data: the containers that reproduce
    CPython's hash tables, the memory of strings, integers and ranges, the
    order of classes, the machine and the passes that rewrite its code, the
    lexer and the parser of expressions, the texts that literals are written
    as, and the iterators of itertools.

    ** The parts

    Dictionaries and sets keep their entries in third-party insertion-ordered
    maps, [IndexMap] and [IndexSet].  Operations that depend on CPython's hash
    tables (the iteration order of sets, the layout of copies, the order in
    which colliding keys call [__eq__]) need the table CPython would have.  It
    is kept as a shadow without the keys' values: an index of slots, probed as
    CPython probes.  The shadow is built on demand; until then a journal of one
    word per deletion, pop or insertion records what would have changed it, and
    materializing the journal replays it, the keys that are gone standing as
    placeholders in an order-statistic treap.

    - ReplaySeq.v: [DictReplaySequence], the treap
      (pyrust-core/src/core/dict_probe_index.rs).
    - Probe.v: the perturbation sequence, and the class [ProbeKey] that keys
      offer to the tables.
    - DictIndex.v: [DictPythonHashIndex]; DictTable.v its abstract table and
      invariant; DictIndexSpec.v and DictReplaySpec.v the refinement in its
      normal and its replay mode.
    - DictJournal.v: [DictMutationJournal]; DictJournalSpec.v proves that
      replay rebuilds the eager table.
    - PyDict.v: [PyDict] (core/prelude.rs); PyDictSpec.v its refinement of an
      eagerly maintained dict; DictProps.v executions of any length, and the
      theorems.
    - SetIndex.v, SetTable.v, SetIndexSpec.v: [PySetProbeSnapshot]
      (core/set_probe_index.rs), its specification and refinement;
      SetJournal.v, SetJournalSpec.v: its journal; PySet.v, PySetSpec.v,
      SetProps.v: [PySet] in the same arrangement.
    - Double.v, Keys.v: doubles, and hashable keys (core/keys.rs, core/value_equality.rs),
      their equality, Python hash and [Hash] stream; KeysSpec.v and KeyProps.v
      their theorems.
    - LruLinks.v, LruCache.v: [functools.lru_cache]
      (pyrust/src/builtin_modules/bodies/functools), a recency list threaded
      through a vector next to a cache dictionary.

    Builtins that may raise return an [outcome], and numbers are machine
    integers as long as they fit.

    - Outcome.v: Python exceptions and values, with the monad of fallible code
      ([Result] in Rust).
    - IntBytes.v: [int.to_bytes] and [int.from_bytes]
      (pyrust-builtins/src/int.rs), model and specification.
    - IntArith.v: the binary operators (runtime/expr/numeric_slots.rs and
      interpreter/helpers) and the fast path of the virtual machine
      (runtime/fast_path/binary_support.rs); IntArithSpec.v their lemmas.
    - IntModular.v: the three-argument [pow]
      (interpreter/helpers/numeric_math.rs,
      builtin_modules/bodies/builtins/numeric_functions.rs).
    - Slices.v, SliceSpec.v: slices of sequences (runtime/slicing.rs,
      runtime/expr/slicing_membership.rs) and [slice.indices]
      (pyrust-builtins/src/slice.rs).
    - Ranges.v, RangeSpec.v: the [range] type and its iterators
      (core/containers.rs, runtime/builtin_methods, runtime/iteration,
      runtime/expr/indexing.rs).  Slicing a range uses the bounds of Slices.v;
      numbers become big integers by the helpers of IntArith.v.
    - IntProps.v, RangeProps.v: the theorems, the latter also on slices.

    A frame of the virtual machine runs a list of instructions; the optimizer
    rewrites that list, and the handlers of exceptions with it.

    - Bytecode.v: the instruction set (bytecode/instruction.rs); Vm.v: the
      dispatch loop of one frame (runtime/vm/execute.rs), over a class [Host]
      of what instructions do to objects; VmSpec.v: lockstep and measured
      simulations between two codes, on those at the end of this file.
    - Passes.v, PassesSpec.v: compaction, jump threading, dead code, exit-block
      inlining, loop inversion and the constant pool (src/optimizer).
    - ExcTable.v: the analysis of active handlers and the exception table built
      from it (optimizer/control_flow), with its simulation.
    - BytecodeProps.v: the theorems.

    Classes keep their bases; their order is computed from these by the C3
    merge, and look-ups follow it, or walk up the single bases.

    - Classes.v: linearization, look-up, tests on bases and class creation
      (interpreter/helpers/class_lookup.rs, class_semantics.rs,
      runtime/attributes/descriptor_support.rs, runtime/classes);
      ClassSpec.v, ClassWalkSpec.v, ClassProps.v their lemmas and theorems.

    A value is one word, a float or a tagged payload in a negative NaN.  Strings
    are short and inline, or blocks of memory with a count of references, or
    slices of other blocks, taken from a pool; lengths and offsets in code
    points are cached behind the header.

    - Utf8.v: counting and finding code points (core/nanbox_strings.rs).
    - NanBox.v: the words, their constructors and readers.
    - StrHeap.v: memory and the operations on string values
      (core/value_constructors.rs, value_access.rs, value_lifecycle.rs);
      StrHeapSpec.v the invariant of memory; StrRefSpec.v, StrOpsSpec.v and
      StrBuildSpec.v what each group of operations does under it;
      StringProps.v runs of operations against strings that are byte lists,
      and the theorems.
    - ObjectIdentity.v: [is] and [id()] (core/object_identity.rs).

    Sources are characters; the lexer makes tokens of them with lines and
    columns, and indentation into tokens.

    - Chars.v: characters, the parsing functions of Rust's library that are
      used on them, and tokens (token.rs); LexLiterals.v: numbers, strings and
      bytes; LexFStrings.v: f-strings; Lexer.v: lines, indentation, names and
      operators (src/lexer).
    - LexBounds.v: how far each of them reads; LexLayout.v: the scan that the
      lexer follows; LexProps.v the theorems.
    - Repr.v: [repr] and [ascii] of strings, [repr] of bytes, [hex], [oct],
      [bin] and [int] of texts (core/value_helpers, builtins/parsing_bytes.rs,
      constructor_support.rs, int_constructor.rs); ReprSpec.v and TextProps.v:
      what the lexer and [int] make of these texts.

    The parser is a state, the tokens and a position in them, and methods that
    read some of them and make a tree or raise a syntax error; the expressions
    in the fields of f-strings go through the lexer and a parser of their own.

    - Parser.v: syntax trees (ast.rs) and the parser of expressions
      (src/parser: expressions.rs, operators.rs, postfix.rs, primaries.rs,
      fstrings.rs, and what they use of statements.rs, control_flow.rs and
      assignment.rs).  A function that a cycle of calls enters again is a field
      of the record [Parsers]; [parsers] ties the cycles with fuel.
    - Grammar.v: the grammar of expressions, without the f-strings, as
      judgements on lists of tokens; ParserReads.v and ParserComplete.v: each
      function reads the sentences of its judgement; ParserSound.v: it returns
      a tree only for the tokens of such a sentence.
    - ParserEnds.v: how much work the tokens of a source are, and how far each
      function reads; ParserProps.v the theorems.

    An iterator is a state and a method that changes it and may raise; methods
    that call other iterators also move these on.

    - Combinatorics.v: the monad of such methods, and the cursors behind
      [product], [combinations] and [permutations]
      (builtin_modules/bodies/itertools/combinatoric_cursors.rs);
      CombinatoricsSpec.v the sequences they run through.
    - Itertools.v: the lazy iterators (builtin_modules/bodies/itertools.rs,
      itertools/native_iterators.rs, groupby_helpers.inc.rs), with the buffer
      that the iterators of a [tee] share; ItertoolsSpec.v their lemmas and
      theorems.

    Concrete.v and ConcreteInt.v hold instances of the interfaces, on which the
    theorems are evaluated.

    ** Conventions

    A definition has the name of the Rust function it translates, prefixed by
    the type where several types have one ([pd_] for [PyDict], [dpi_] for
    [DictPythonHashIndex], [dmj_], [ddm_], [pys_], [sps_], [smj_], [sdm_],
    [drs_]).  Machine integers are [Z], with wrapping ([as_u64], [as_i64]),
    checked ([i64_checked]), saturating and exact ([i64_exact], [i128_exact])
    operations written out; exact operations panic on overflow, as in a build
    with overflow checks.  Code that raises no Python exception returns [res]
    ([Ok], [Panic], [Diverge]); code that may returns [outcome] ([Return],
    [Raise], [Panicked], [OutOfFuel]); code on memory is a state function that
    may also end in a [Fault].  A theorem that code returns excludes panics,
    undefined behaviour and exhausted fuel.

    The fuel of loops: [probe_fuel], 13 steps until the perturbation is used up
    and one per slot after that ([probe_sequence_covers]); [drs_fuel], the
    number of nodes of the treap; [dmj_epoch_fuel], 64 doublings of a table;
    [euclid_fuel], two steps per bit of the modulus ([euclid_total]); the
    square-and-multiply loop, the bits of its exponent; [ldexp_f64], the
    exponent in steps of 512; chains of jumps, the length of the code; work
    lists over code, two steps per instruction; walks over classes, the number
    of classes and two more; the merge, the total length of its lists; offsets,
    the bytes that are left; the loops of the lexer, the characters that are
    left ([lexing_ends]), and one step per line and two more for the whole
    source; the parser, the tokens that are left and those that the sources in
    their f-strings can make, [source_work] ([expression_parsing_ends]);
    iterators that skip values of a source, one more than it has;
    [chain], two steps per source and two more; [advance_tee], two, because an
    iterator that is used while the source runs never calls the source.

    ** Interfaces

    Third-party code is a class with laws: [IndexMap] and [IndexSet] (order of
    insertion, [swap_remove], [shift_remove]), [BigInt], [BigIntArith],
    [BigIntModpow], [BigIntBytes] and [BigIntText] (num-bigint, by the integer
    [bi_Z] of a number), [Libm] (powers and trigonometry), [Allocator]
    (addresses that are fresh and aligned), [Unicode] and [Categories] (tables
    of characters, of which only the classes of ASCII are assumed).  Code of
    the interpreter that is left out is a class too: [ObjectValue] (objects as
    keys) and [Host] (instructions on objects); so is [TokenDebug], the derived
    text of a token in messages.  The sources of iterators are
    sequences of values and exceptions, the functions they are given are
    functions that may raise, and the allocator of index vectors is a test on
    capacities.  The probe tables are proved
    against [ProbeKey], which the keys of Keys.v implement; the passes of the
    optimizer against any [Host]; the round trips of literals against any
    [Unicode].

    ** What the theorems show

    - DictProps.v: every execution answers as an insertion-ordered dict and
      leads to CPython's table ([dict_run_refines]); lookups by hash are
      complete; the journal, the copies and the treap are exact.
      [emptied_dict_rebases_early] exhibits the executions that are excepted,
      where a stale journal gives another table than CPython's.
    - SetProps.v: the same for sets, with the order of snapshots.
    - KeyProps.v: equality of keys is an equivalence; equal keys of all types
      have one hash and one stream.
    - LruCache.v: the cache refines an abstract one under re-entrant calls, and
      evicts the least recently used entry.
    - IntProps.v: bytes of integers, their round trips and argument errors;
      exactness of the operators on every representation, with the limits on
      shifts and exponents; agreement of the fast path; modular powers and
      inverses.
    - RangeProps.v: subscription and assignment of slices against positions as
      Python defines them; a range is the sequence it denotes, for its length,
      membership, index (but of complex numbers), subscription, slices,
      equality, hash and iteration, and is in machine words where these do.
    - BytecodeProps.v: each pass leaves every execution of a frame as it was;
      code with an exception table behaves as the code with a stack of
      handlers.
    - ClassProps.v: a class is created exactly when the C3 merge of the orders
      of its bases does not get stuck, and the error names the bases; the order
      is that of the merge, and extends the orders of the bases where none of
      the classes lists [object] before another base; look-ups follow it.
    - StringProps.v: words and values are inverse; runs of string operations
      answer as operations on byte lists, never touch memory that is not
      theirs, and free all of it; the searches by words and checkpoints find
      what a scan finds.
    - ObjectIdentity.v: two live objects have one id exactly when they are
      identical.
    - LexProps.v: tokens are those of a left-to-right scan, with the lines and
      columns of their characters; lexing ends on every source, and panics only
      on one kind of field; indentation is bounded and closed.
    - TextProps.v: literals written by [repr] and [ascii], and by the compiler
      for strings without lone surrogates, are read back by the lexer; texts of integers are read back by [int], which agrees
      with the lexer on literals.
    - ParserProps.v: every sentence of the grammar is read as its tree, so that
      precedence, associativity and the choices by the next token are those of
      the grammar; a tree is returned only for the tokens of a sentence, and is
      the only one of these tokens; parsing ends from any position in any
      tokens, with a tree or a syntax error.
    - ItertoolsSpec.v: the combinatoric iterators enumerate their tuples in
      lexicographic order, and so do their copies; the iterators of a [tee]
      agree under any interleaving; [islice] reads no further than it must;
      [groupby] hands out the maximal runs; the others compute the list
      functions they are named for.

    Divergences that the proofs met are stated as examples at the end of
    IntProps.v, RangeProps.v, ClassProps.v, LexProps.v, TextProps.v,
    ParserProps.v and ItertoolsSpec.v; the theorems exclude the
    executions they explain by their hypotheses, or state what happens there.

    ** What is not modelled

    Lists, tuples and opaque values, whose memory the Rc of Rust's library
    keeps; the paths taken while a thread is torn down.  Objects with
    user-defined [__eq__], [__hash__] or [__index__] where running them is
    observable; the keys' equality and hashes are functions here, and slice and
    range arguments are already integers.  The floating-point operators are
    defined but nothing is proved of their rounding, nor of true division, nor
    of the texts of floats.  Of the virtual machine, what instructions do to
    objects, calls, which run inside the host, tracebacks and inline caches; of
    the optimizer, the passes that need the effect of instructions on
    registers.  Of classes, namespaces, descriptors and metaclass calls.  Of
    iterators, values that own iterators, so that reclaiming the buffer of a
    [tee] drops none of its own, the parsing of their arguments and subclasses
    of StopIteration.  [int] of objects, with their [__int__] and [__index__]; the other methods of
    built-in types.  Statements and patterns in the parser, the compiler and the
    other modules of the standard library. *)

From stdpp Require Export base tactics numbers list option sets list_numbers.
From Stdlib Require Export ZArith Lia.

#[global] Open Scope Z_scope.
#[global] Open Scope stdpp_scope.

(** ** Outcomes of Rust code

    [Ok] is a normal return.  [Panic] is an unwinding panic: a failed
    [expect], an out-of-bounds index, an arithmetic overflow, a failed
    [assert!] or (as in a debug build) a failed [debug_assert!].  [Diverge]
    is the model running out of the fuel given to a loop or a recursion. *)
Inductive res (A : Type) : Type :=
  | Ok (a : A)
  | Panic
  | Diverge.
Arguments Ok {A} _.
Arguments Panic {A}.
Arguments Diverge {A}.

#[export] Instance res_ret : MRet res := @Ok.
#[export] Instance res_bind : MBind res := λ A B f m,
  match m with
  | Ok a => f a
  | Panic => Panic
  | Diverge => Diverge
  end.

(** [debug_assert!(b)] and [assert!(b)]. *)
Definition rassert (b : bool) : res unit := if b then Ok tt else Panic.

(** [o.expect(..)]. *)
Definition expect {A} (o : option A) : res A :=
  match o with Some a => Ok a | None => Panic end.

(** The outcome as an option: what a caller that needs the value gets. *)
Definition res_to_option {A} (m : res A) : option A :=
  match m with Ok a => Some a | _ => None end.

(** A loop body run over a list, threading a state that the closure mutates. *)
Fixpoint rfold {A S} (f : S → A → res S) (s : S) (l : list A) : res S :=
  match l with
  | [] => Ok s
  | x :: l => s' ← f s x; rfold f s' l
  end.

(** ** Vectors: [Vec<T>] indexed with bounds checks *)

Definition vnth {A} (v : list A) (i : nat) : res A := expect (v !! i).

Definition vmod {A} (v : list A) (i : nat) (f : A → A) : res (list A) :=
  match v !! i with
  | Some x => Ok (<[i := f x]> v)
  | None => Panic
  end.

(** [iter.count()] of the elements that pass a test. *)
Definition count_if {A} (p : A → bool) (v : list A) : Z :=
  Z.of_nat (length (filter (λ x, p x = true) v)).

(** [v.len()] as a [usize]. *)
Definition vlen {A} (v : list A) : Z := Z.of_nat (length v).

Definition vset {A} (v : list A) (i : nat) (x : A) : res (list A) :=
  vmod v i (λ _, x).

(** [iter().enumerate()]. *)
Definition enumerate {A} (l : list A) : list (nat * A) := zip (seq 0 (length l)) l.

(** ** Machine integers

    [usize] is 64 bits wide.  A value of an unsigned type is the [Z] in
    [0, 2^64); of a signed type the [Z] in [-2^63, 2^63). *)
Definition two64 : Z := 2 ^ 64.
Definition usize_max : Z := two64 - 1.
Definition u64_range (x : Z) : Prop := 0 ≤ x < two64.
Definition i64_range (x : Z) : Prop := - 2 ^ 63 ≤ x < 2 ^ 63.

(** [x as u64] *)
Definition as_u64 (x : Z) : Z := x mod two64.
(** [x as i64] *)
Definition as_i64 (x : Z) : Z :=
  let y := x mod two64 in if y <? 2 ^ 63 then y else y - two64.

Definition wrapping_add (a b : Z) : Z := as_u64 (a + b).
Definition wrapping_mul (a b : Z) : Z := as_u64 (a * b).
(** [a.rotate_left(n)] on [u64]. *)
Definition rotate_left (a n : Z) : Z :=
  Z.lor (as_u64 (Z.shiftl a n)) (Z.shiftr a (64 - n)).

(** [a - b] on [usize], which overflows to a panic. *)
Definition usize_sub (a b : Z) : res Z := if b <=? a then Ok (a - b) else Panic.
(** [a + b] on [usize], which overflows to a panic. *)
Definition usize_add (a b : Z) : res Z := if a + b <=? usize_max then Ok (a + b) else Panic.
(** [isize::try_from(a)] on a [usize]. *)
Definition isize_try_from (a : Z) : option Z := if a <? 2 ^ 63 then Some a else None.
(** [x.leading_zeros()] on a 64-bit word. *)
Definition leading_zeros (x : Z) : Z := if x =? 0 then 64 else 63 - Z.log2 x.
(** [a.checked_shl(n)]: only the shift amount is checked. *)
Definition checked_shl (a n : Z) : option Z :=
  if n <? 64 then Some (as_u64 (Z.shiftl a n)) else None.
Definition saturating_sub (a b : Z) : Z := Z.max 0 (a - b).
Definition saturating_add (a b : Z) : Z := Z.min usize_max (a + b).
Definition saturating_mul (a b : Z) : Z := Z.min usize_max (a * b).
Definition checked_mul (a b : Z) : option Z :=
  if a * b <=? usize_max then Some (a * b) else None.

(** Arithmetic on [i64]: checked ([None] on overflow) and plain (a panic). *)
Definition i64_in (x : Z) : bool := (- 2 ^ 63 <=? x) && (x <? 2 ^ 63).
Definition i64_checked (x : Z) : option Z := if i64_in x then Some x else None.
Definition i64_exact (x : Z) : res Z := if i64_in x then Ok x else Panic.

(** ** Facts about outcomes *)

Lemma bind_Ok {A B} (m : res A) (f : A → res B) b :
  (m ≫= f) = Ok b ↔ ∃ a, m = Ok a ∧ f a = Ok b.
Proof.
  destruct m; cbn; split; [intros; eauto|intros (? & [= <-] & ?); done|done| |done|];
    intros (? & ? & ?); done.
Qed.

Lemma expect_Ok {A} (o : option A) a : expect o = Ok a ↔ o = Some a.
Proof. destruct o; cbn; split; congruence. Qed.

Lemma vnth_lookup {A} (v : list A) i x : v !! i = Some x → vnth v i = Ok x.
Proof. unfold vnth. by intros ->. Qed.

Lemma vmod_lookup {A} (v : list A) i x f :
  v !! i = Some x → vmod v i f = Ok (<[i := f x]> v).
Proof. unfold vmod. by intros ->. Qed.

Lemma rassert_true b : b = true → rassert b = Ok tt.
Proof. by intros ->. Qed.

Lemma rfold_app {A S} (f : S → A → res S) s l1 l2 :
  rfold f s (l1 ++ l2) = (s' ← rfold f s l1; rfold f s' l2).
Proof.
  revert s. induction l1 as [|x l1 IH]; intros s; cbn; [done|].
  destruct (f s x); cbn; [apply IH|done|done].
Qed.

Lemma rfold_ext {A B S} (f : S → A → res S) (g : S → B → res S) l l' s :
  Forall2 (λ x y, ∀ s, f s x = g s y) l l' → rfold f s l = rfold g s l'.
Proof.
  intros Hf. revert s. induction Hf as [|x y l l' Hxy _ IH]; intros s; [done|]. cbn.
  rewrite Hxy. destruct (g s y); cbn; [apply IH|done..].
Qed.

(** A loop whose body never fails and keeps an invariant that follows the
    visited prefix returns normally with the invariant of the whole list. *)
Lemma rfold_inv {A S} (I : list A → S → Prop) (f : S → A → res S) l s :
  I [] s →
  (∀ l1 x l2 s, l = l1 ++ x :: l2 → I l1 s → ∃ s', f s x = Ok s' ∧ I (l1 ++ [x]) s') →
  ∃ s', rfold f s l = Ok s' ∧ I l s'.
Proof.
  intros H0 Hstep.
  cut (∀ l2 l1 s, l = l1 ++ l2 → I l1 s → ∃ s', rfold f s l2 = Ok s' ∧ I l s').
  { intros H. by apply (H l []). }
  induction l2 as [|x l2 IH]; intros l1 s' Hl HI; cbn.
  - exists s'. rewrite Hl, app_nil_r. done.
  - destruct (Hstep l1 x l2 s' Hl HI) as (s'' & -> & HI'). cbn.
    apply (IH (l1 ++ [x])); [|done]. by rewrite <- app_assoc.
Qed.

Lemma mapM_pure {A B} (f : A → res B) (g : A → B) l :
  (∀ x, x ∈ l → f x = Ok (g x)) → mapM f l = Ok (g <$> l).
Proof.
  induction l as [|x l IH]; intros Hf; [done|]. cbn. rewrite Hf by (by left). cbn.
  rewrite IH; [done|]. intros y Hy. apply Hf. by right.
Qed.

Lemma vlen_fmap {A B} (f : A → B) (v : list A) : vlen (f <$> v) = vlen v.
Proof. unfold vlen. by rewrite length_fmap. Qed.

Lemma vlen_app {A} (v w : list A) : vlen (v ++ w) = vlen v + vlen w.
Proof. unfold vlen. rewrite length_app. lia. Qed.

Lemma vlen_cons {A} (x : A) (v : list A) : vlen (x :: v) = 1 + vlen v.
Proof. unfold vlen. cbn [length]. lia. Qed.

Lemma vlen_nonneg {A} (v : list A) : 0 ≤ vlen v.
Proof. unfold vlen. lia. Qed.

Lemma vset_ok {A} (v : list A) i x y : v !! i = Some y → vset v i x = Ok (<[i := x]> v).
Proof. intros Hi. unfold vset. by erewrite vmod_lookup. Qed.

Lemma enumerate_snoc {A} (l : list A) x : enumerate (l ++ [x]) = enumerate l ++ [(length l, x)].
Proof.
  unfold enumerate. rewrite length_app, Nat.add_1_r, seq_S, Nat.add_0_l.
  rewrite zip_with_app by (by rewrite length_seq). done.
Qed.

Lemma enumerate_length {A} (l : list A) : length (enumerate l) = length l.
Proof. unfold enumerate. rewrite length_zip_with, length_seq. lia. Qed.

Lemma enumerate_lookup {A} (l : list A) i : enumerate l !! i = (λ x, (i, x)) <$> l !! i.
Proof.
  unfold enumerate. destruct (l !! i) as [x|] eqn:Hi; cbn.
  - apply lookup_lt_Some in Hi as Hlt. apply lookup_zip_with_Some. exists i, x. split_and!; [done| |done].
    by apply lookup_seq.
  - apply lookup_ge_None_2. apply lookup_ge_None in Hi. fold (enumerate l). rewrite enumerate_length. lia.
Qed.

(** A map with the index that may fail, element by element. *)
Lemma mapM_enumerate_ok {A B} (f : nat → A → res B) (P : nat → A → B → Prop) l :
  (∀ i x, l !! i = Some x → ∃ y, f i x = Ok y ∧ P i x y) →
  ∃ l', mapM (λ '(i, x), f i x) (enumerate l) = Ok l' ∧ length l' = length l ∧
    ∀ i x, l !! i = Some x → ∃ y, l' !! i = Some y ∧ P i x y.
Proof.
  unfold enumerate. intros Hf.
  enough (Hgen : ∀ a, (∀ i x, l !! i = Some x → ∃ y, f (a + i)%nat x = Ok y ∧ P (a + i)%nat x y) →
    ∃ l', mapM (λ '(i, x), f i x) (zip (seq a (length l)) l) = Ok l' ∧ length l' = length l ∧
      ∀ i x, l !! i = Some x → ∃ y, l' !! i = Some y ∧ P (a + i)%nat x y) by by apply (Hgen 0%nat).
  clear Hf. induction l as [|x l IH]; intros a Hf; [by exists []|].
  destruct (Hf 0%nat x eq_refl) as (y & Hy & HPy). rewrite Nat.add_0_r in Hy, HPy.
  destruct (IH (S a)) as (l' & Hl' & Hlen & HP).
  { intros i z Hi. destruct (Hf (S i) z Hi) as (w & Hw). rewrite Nat.add_succ_r in Hw. by exists w. }
  exists (y :: l'). cbn. rewrite Hy. cbn. cbn in Hl'. rewrite Hl'. cbn. split; [done|]. split; [by rewrite Hlen|].
  intros [|i] z Hi; cbn in Hi.
  - injection Hi as <-. exists y. by rewrite Nat.add_0_r.
  - destruct (HP i z Hi) as (w & Hw & HPw). exists w. by rewrite Nat.add_succ_r.
Qed.

Lemma delete_middle' {A} (l1 l2 : list A) x i : i = length l1 → delete i (l1 ++ x :: l2) = l1 ++ l2.
Proof. intros ->. apply delete_middle. Qed.

Lemma delete_snoc {A} (l : list A) x : delete (length l) (l ++ [x]) = l.
Proof. rewrite delete_take_drop, take_app_length, drop_ge, app_nil_r; [done|rewrite length_app; cbn; lia]. Qed.

Lemma filter_all {A} (P : A → Prop) `{∀ x, Decision (P x)} (l : list A) :
  (∀ x, x ∈ l → P x) → filter P l = l.
Proof.
  intros Hl. induction l as [|x l IH]; [done|]. rewrite filter_cons_True by (apply Hl; by left).
  f_equal. apply IH. intros y Hy. apply Hl. by right.
Qed.

(** *** Counting *)

Lemma count_if_perm {A} (p : A → bool) (v w : list A) : v ≡ₚ w → count_if p v = count_if p w.
Proof. intros Hp. unfold count_if. by rewrite Hp. Qed.

Lemma count_if_app {A} (p : A → bool) l1 l2 : count_if p (l1 ++ l2) = count_if p l1 + count_if p l2.
Proof. unfold count_if. rewrite filter_app, length_app. lia. Qed.

Lemma count_if_cons {A} (p : A → bool) x l : count_if p (x :: l) = (if p x then 1 else 0) + count_if p l.
Proof.
  unfold count_if. rewrite filter_cons. destruct (p x) eqn:Hp; [rewrite decide_True by done|rewrite decide_False by congruence];
    cbn [length]; lia.
Qed.

Lemma count_if_replicate {A} (p : A → bool) n x : p x = false → count_if p (replicate n x) = 0.
Proof. intros Hp. induction n as [|n IH]; [done|]. cbn [replicate]. rewrite count_if_cons, Hp, IH. done. Qed.

Lemma count_if_le {A} (p q : A → bool) l : (∀ x, p x = true → q x = true) → count_if p l ≤ count_if q l.
Proof.
  intros Hpq. induction l as [|x l IH]; [done|]. rewrite !count_if_cons.
  destruct (p x) eqn:Hp; [rewrite Hpq by done; lia|]. destruct (q x); lia.
Qed.

Lemma count_if_insert {A} (p : A → bool) l i x y :
  l !! i = Some x →
  count_if p (<[i := y]> l) = count_if p l - (if p x then 1 else 0) + (if p y then 1 else 0).
Proof.
  intros Hi. pose proof (lookup_lt_Some _ _ _ Hi) as Hlt.
  rewrite insert_take_drop by done. rewrite <- (take_drop_middle l i x Hi) at 3.
  rewrite !count_if_app, !count_if_cons. lia.
Qed.

Lemma count_if_full {A} (p : A → bool) l : (∀ x, x ∈ l → p x = true) → count_if p l = vlen l.
Proof.
  intros Hp. induction l as [|x l IH]; [done|]. rewrite count_if_cons, vlen_cons.
  rewrite Hp by (by left). rewrite IH; [done|]. intros y Hy. apply Hp. by right.
Qed.

(** ** Facts about machine integers *)

Lemma two64_pos : 0 < two64.
Proof. unfold two64. lia. Qed.

Lemma as_u64_range x : u64_range (as_u64 x).
Proof. apply Z.mod_pos_bound, two64_pos. Qed.

Lemma as_u64_id x : u64_range x → as_u64 x = x.
Proof. intros H. apply Z.mod_small, H. Qed.

Lemma as_i64_range x : i64_range (as_i64 x).
Proof.
  unfold i64_range, as_i64. pose proof (as_u64_range x) as H.
  unfold u64_range, as_u64 in H. change two64 with (2 * 2 ^ 63) in *.
  cbv zeta. destruct (Z.ltb_spec (x mod (2 * 2 ^ 63)) (2 ^ 63)); lia.
Qed.

Lemma as_i64_as_u64 x : as_i64 (as_u64 x) = as_i64 x.
Proof. unfold as_i64, as_u64. rewrite Zmod_mod. done. Qed.

Lemma as_u64_as_i64 x : as_u64 (as_i64 x) = as_u64 x.
Proof.
  unfold as_i64, as_u64. cbv zeta.
  destruct (Z.ltb_spec (x mod two64) (2 ^ 63)); [apply Zmod_mod|].
  replace (x mod two64 - two64) with (x mod two64 + (-1) * two64) by lia.
  by rewrite Z_mod_plus_full, Zmod_mod.
Qed.

Lemma as_i64_id x : i64_range x → as_i64 x = x.
Proof.
  unfold i64_range, as_i64. intros H. cbv zeta.
  assert (Ht : two64 = 2 * 2 ^ 63) by reflexivity.
  destruct (Z_lt_dec x 0).
  - assert (Hm : x mod two64 = x + two64).
    { rewrite <- (Z_mod_plus_full x 1 two64), Z.mod_small; lia. }
    rewrite Hm. destruct (Z.ltb_spec (x + two64) (2 ^ 63)); lia.
  - rewrite Z.mod_small by lia. destruct (Z.ltb_spec x (2 ^ 63)); lia.
Qed.

Lemma i64_in_spec x : i64_in x = true ↔ i64_range x.
Proof. unfold i64_in, i64_range. rewrite andb_true_iff, Z.leb_le, Z.ltb_lt. tauto. Qed.

Lemma i64_exact_ok x : i64_range x → i64_exact x = Ok x.
Proof. intros Hx%i64_in_spec. unfold i64_exact. by rewrite Hx. Qed.

Lemma i64_checked_Some x y : i64_checked x = Some y ↔ i64_range x ∧ y = x.
Proof.
  rewrite <- i64_in_spec. unfold i64_checked. destruct (i64_in x); split; intros; naive_solver.
Qed.

Lemma i64_checked_None x : i64_checked x = None ↔ ¬ i64_range x.
Proof. rewrite <- i64_in_spec. unfold i64_checked. destruct (i64_in x); split; intros; naive_solver. Qed.

Lemma usize_sub_ok a b : b ≤ a → usize_sub a b = Ok (a - b).
Proof. intros Hle. unfold usize_sub. by destruct (Z.leb_spec b a); [|lia]. Qed.

Lemma usize_add_ok a b : a + b < two64 → usize_add a b = Ok (a + b).
Proof. intros Hle. unfold usize_add, usize_max. destruct (Z.leb_spec (a + b) (two64 - 1)); [done|lia]. Qed.

Lemma lor_ge a b : 0 ≤ a → 0 ≤ b → a ≤ Z.lor a b.
Proof.
  intros Ha Hb.
  assert (Hd : Z.lor a b - a = Z.ldiff (Z.lor a b) a).
  { apply Z.sub_nocarry_ldiff. Z.bitwise. by destruct (Z.testbit a m), (Z.testbit b m). }
  assert (0 ≤ Z.ldiff (Z.lor a b) a); [|lia].
  apply Z.ldiff_nonneg. left. by apply Z.lor_nonneg.
Qed.

Lemma lor_lt a b n : 0 ≤ n → 0 ≤ a < 2 ^ n → 0 ≤ b < 2 ^ n → Z.lor a b < 2 ^ n.
Proof.
  intros Hn Ha Hb. destruct (Z.eq_dec (Z.lor a b) 0) as [->|Hz]; [lia|].
  assert (0 ≤ Z.lor a b) by (apply Z.lor_nonneg; lia).
  apply Z.log2_lt_cancel. rewrite Z.log2_lor, Z.log2_pow2 by lia.
  destruct (Z.eq_dec n 0) as [->|]; [|apply Z.max_lub_lt].
  - change (2 ^ 0) with 1 in *. replace a with 0 in * by lia. replace b with 0 in * by lia. done.
  - destruct (Z.eq_dec a 0) as [->|]; [cbn; lia|]. apply Z.log2_lt_pow2; lia.
  - destruct (Z.eq_dec b 0) as [->|]; [cbn; lia|]. apply Z.log2_lt_pow2; lia.
Qed.

(** ** Automation *)

(** Reduce one bind whose first computation is known to return. *)
Ltac res_step :=
  match goal with
  | |- context [vnth ?v ?i] =>
      rewrite (vnth_lookup v i _) by eassumption
  | |- context [vmod ?v ?i ?f] =>
      rewrite (vmod_lookup v i _ f) by eassumption
  end; cbn [mbind res_bind mret res_ret].
Ltac res_steps := cbn [mbind res_bind mret res_ret]; repeat res_step.

Ltac inv_ok :=
  repeat match goal with
  | H : (_ ≫= _) = Ok _ |- _ => apply bind_Ok in H as (? & ? & ?)
  | H : expect _ = Ok _ |- _ => apply expect_Ok in H
  end; simplify_eq.

(** Deterministic executions given by a step function, and the diagram by which
    two of them are shown to end together, with related results. *)



Section execution.
Context {A X : Type} (step : A → A + X).

(** Run for at most [fuel] steps. *)
Fixpoint run (fuel : nat) (a : A) : option X :=
  match fuel with
  | O => None
  | S fuel => match step a with inl a => run fuel a | inr o => Some o end
  end.

(** The execution from [a] ends, with result [o]. *)
Definition ends (a : A) (o : X) : Prop := ∃ fuel, run fuel a = Some o.

(** Zero or more, and one or more steps. *)
Inductive steps : A → A → Prop :=
  | steps_refl a : steps a a
  | steps_cons a b c : step a = inl b → steps b c → steps a c.

Lemma run_le n m a o : run n a = Some o → (n ≤ m)%nat → run m a = Some o.
Proof.
  revert m a. induction n as [|n IH]; intros [|m] a Hrun Hle; try done; [lia|].
  cbn in *. destruct (step a); [|done]. apply IH; [done|lia].
Qed.

Lemma ends_det a o1 o2 : ends a o1 → ends a o2 → o1 = o2.
Proof.
  intros [n Hn] [m Hm]. apply run_le with (m := (n + m)%nat) in Hn; [|lia].
  apply run_le with (m := (n + m)%nat) in Hm; [|lia]. congruence.
Qed.

Lemma ends_now a o : step a = inr o → ends a o.
Proof. intros Hs. exists 1%nat. cbn. by rewrite Hs. Qed.

Lemma ends_step a b o : step a = inl b → ends b o → ends a o.
Proof. intros Hs [n Hn]. exists (S n). cbn. by rewrite Hs. Qed.

Lemma ends_steps a b o : steps a b → ends b o → ends a o.
Proof. induction 1; eauto using ends_step. Qed.

Lemma steps_one a b : step a = inl b → steps a b.
Proof. eauto using steps. Qed.

Lemma steps_trans a b c : steps a b → steps b c → steps a c.
Proof. induction 1; eauto using steps. Qed.

(** A run that passes through [b] has less fuel left there. *)
Lemma run_steps a b n o : steps a b → run n a = Some o → ∃ m, (m ≤ n)%nat ∧ run m b = Some o.
Proof.
  intros Hs. revert n. induction Hs as [a|a b c Hab _ IH]; intros n Hn; [by exists n|].
  destruct n as [|n]; [done|]. cbn in Hn. rewrite Hab in Hn.
  destruct (IH n Hn) as (m & Hm & Hr). exists m. split; [lia|done].
Qed.

Lemma run_step_plus a b c n o : step a = inl b → steps b c → run n a = Some o → ∃ m, (m < n)%nat ∧ run m c = Some o.
Proof.
  intros Hab Hbc Hn. destruct n as [|n]; [done|]. cbn in Hn. rewrite Hab in Hn.
  destruct (run_steps _ _ _ _ Hbc Hn) as (m & Hm & Hr). exists m. split; [lia|done].
Qed.

(** A property of configurations that steps preserve. *)
Definition preserved (I : A → Prop) : Prop := ∀ a b, I a → step a = inl b → I b.
End execution.

(** ** Simulation *)

Section simulation.
Context {A X B Y : Type} (step1 : A → A + X) (step2 : B → B + Y).
Context (R : A → B → Prop) (Ro : X → Y → Prop) (measure : A → nat).

(** What one step of the first execution is worth in the second: its last
    step, one or more steps, or, when [measure] decreases, none. *)
Definition matched (a : A) (b : B) : Prop :=
  match step1 a with
  | inr o => ∃ b' p, steps step2 b b' ∧ step2 b' = inr p ∧ Ro o p
  | inl a' =>
      (∃ b1 b', step2 b = inl b1 ∧ steps step2 b1 b' ∧ R a' b') ∨
      (measure a' < measure a)%nat ∧ R a' b
  end.

Hypothesis diagram : ∀ a b, R a b → matched a b.

Lemma simulation_forward a b o : R a b → ends step1 a o → ∃ p, ends step2 b p ∧ Ro o p.
Proof using diagram.
  intros Hab [n Hn]. revert a b Hab Hn. induction n as [|n IH]; intros a b Hab Hn; [done|].
  pose proof (diagram a b Hab) as Hm. unfold matched in Hm. cbn in Hn.
  destruct (step1 a) as [a'|o'].
  - destruct Hm as [(b1 & b' & Hb1 & Hb' & Hr)|[_ Hr]]; [|by apply (IH a')].
    destruct (IH a' b' Hr Hn) as (p & Hp & Ho). exists p. split; [|done].
    apply ends_steps with b'; [|done]. by apply steps_cons with b1.
  - injection Hn as ->. destruct Hm as (b' & p & Hb & Hp & Ho). exists p. split; [|done].
    apply ends_steps with b'; [done|]. by apply ends_now.
Qed.

Lemma simulation_backward a b p : R a b → ends step2 b p → ∃ o, ends step1 a o ∧ Ro o p.
Proof using diagram.
  intros Hab [n Hn]. revert a b Hab Hn.
  induction n as [n IHn] using (well_founded_induction lt_wf). intros a b.
  remember (measure a) as k eqn:Hk. revert a b Hk.
  induction k as [k IHk] using (well_founded_induction lt_wf). intros a b -> Hab Hn.
  pose proof (diagram a b Hab) as Hm. unfold matched in Hm. destruct (step1 a) as [a'|o'] eqn:Hs.
  - destruct Hm as [(b1 & b' & Hb1 & Hb' & Hr)|[Hlt Hr]].
    + destruct (run_step_plus step2 _ _ _ _ _ Hb1 Hb' Hn) as (m & Hmn & Hrun).
      destruct (IHn m Hmn a' b' Hr Hrun) as (o & Ho & Hop). exists o. split; [|done].
      by apply ends_step with a'.
    + destruct (IHk _ Hlt a' b eq_refl Hr Hn) as (o & Ho & Hop). exists o. split; [|done].
      by apply ends_step with a'.
  - destruct Hm as (b' & q & Hb & Hq & Ho). exists o'. split; [by apply ends_now|].
    enough (p = q) as -> by done.
    apply (ends_det step2 b); [by exists n|]. apply ends_steps with b'; [done|]. by apply ends_now.
Qed.
End simulation.

Lemma matched_weaken {A X B Y} (step1 : A → A + X) (step2 : B → B + Y) (R R' : A → B → Prop) Ro measure a b :
  (∀ a' b', step1 a = inl a' → R a' b' → R' a' b') →
  matched step1 step2 R Ro measure a b → matched step1 step2 R' Ro measure a b.
Proof.
  intros HR. unfold matched. destruct (step1 a) as [a'|]; [|done].
  intros [(b1 & b' & ? & ? & ?)|[? ?]]; [left; exists b1, b'; auto|right; auto].
Qed.

(** Two executions end together: each result of one is matched by a related
    result of the other, so that one runs forever exactly when the other does. *)
Definition same_ends {A X B Y} (step1 : A → A + X) (step2 : B → B + Y) (Ro : X → Y → Prop) (a : A) (b : B) : Prop :=
  (∀ o, ends step1 a o → ∃ p, ends step2 b p ∧ Ro o p) ∧
  (∀ p, ends step2 b p → ∃ o, ends step1 a o ∧ Ro o p).

Lemma simulation {A X B Y} (step1 : A → A + X) (step2 : B → B + Y) R Ro measure a b :
  (∀ a b, R a b → matched step1 step2 R Ro measure a b) → R a b → same_ends step1 step2 Ro a b.
Proof. intros Hd Hab. split; intros o Ho; [by eapply simulation_forward|by eapply simulation_backward]. Qed.

Lemma same_ends_trans {A X B Y C W} (s1 : A → A + X) (s2 : B → B + Y) (s3 : C → C + W)
    (R1 : X → Y → Prop) (R2 : Y → W → Prop) (R3 : X → W → Prop) a b c :
  (∀ o p q, R1 o p → R2 p q → R3 o q) →
  same_ends s1 s2 R1 a b → same_ends s2 s3 R2 b c → same_ends s1 s3 R3 a c.
Proof.
  intros HR [Hab Hba] [Hbc Hcb]. split.
  - intros o Ho. destruct (Hab o Ho) as (p & Hp & H1). destruct (Hbc p Hp) as (q & Hq & H2). eauto.
  - intros q Hq. destruct (Hcb q Hq) as (p & Hp & H2). destruct (Hba p Hp) as (o & Ho & H1). eauto.
Qed.
