(* ===== verification/ReplaySeq.v ===== *)
(** The order-statistic sequence used while a deferred mutation journal is
    replayed (crates/pyrust-core/src/core/dict_probe_index.rs,
    [DictReplaySequence]): an implicit treap whose nodes live in a vector and
    are linked by index.  First the operations as the code has them, on the
    node store; then the representation predicate that reads the store as a
    list of keys, and the proof that every operation implements its list
    counterpart without panicking. *)

From S2P Require Import Prelude.

(** ** Data *)

Section data.
Context {K : Type}.

Record DictReplayKey := {
  drk_key : option K;
  drk_python_hash : Z;
  drk_is_str : bool;
  drk_replay_id : Z;
}.

Record DictReplaySequenceNode := {
  drn_key : option DictReplayKey;
  drn_priority : Z;
  drn_left : option nat;
  drn_right : option nat;
  drn_subtree_len : nat;
}.

Record DictReplaySequence := {
  drs_nodes : list DictReplaySequenceNode;
  drs_root : option nat;
}.
End data.
Arguments DictReplayKey : clear implicits.
Arguments DictReplaySequenceNode : clear implicits.
Arguments DictReplaySequence : clear implicits.

(** ** Operations *)

Section operations.
Context {K : Type}.
Implicit Types (nodes : list (DictReplaySequenceNode K)) (k : DictReplayKey K)
  (n : DictReplaySequenceNode K) (s : DictReplaySequence K).

Definition node_set_left (l : option nat) n : DictReplaySequenceNode K :=
  {| drn_key := drn_key n; drn_priority := drn_priority n; drn_left := l;
     drn_right := drn_right n; drn_subtree_len := drn_subtree_len n |}.
Definition node_set_right (r : option nat) n : DictReplaySequenceNode K :=
  {| drn_key := drn_key n; drn_priority := drn_priority n; drn_left := drn_left n;
     drn_right := r; drn_subtree_len := drn_subtree_len n |}.
Definition node_set_len (len : nat) n : DictReplaySequenceNode K :=
  {| drn_key := drn_key n; drn_priority := drn_priority n; drn_left := drn_left n;
     drn_right := drn_right n; drn_subtree_len := len |}.
Definition node_set_key (k : option (DictReplayKey K)) n : DictReplaySequenceNode K :=
  {| drn_key := k; drn_priority := drn_priority n; drn_left := drn_left n;
     drn_right := drn_right n; drn_subtree_len := drn_subtree_len n |}.

Definition drs_with_capacity : DictReplaySequence K :=
  {| drs_nodes := []; drs_root := None |}.

Definition drs_node_len nodes (node : option nat) : res nat :=
  match node with
  | None => Ok 0%nat
  | Some index => n ← vnth nodes index; Ok (drn_subtree_len n)
  end.

Definition drs_len s : res nat := drs_node_len (drs_nodes s) (drs_root s).

(** SplitMix64 of the node index. *)
Definition drs_priority_for (index : nat) : Z :=
  let value := wrapping_add (Z.of_nat index) 0x9e3779b97f4a7c15 in
  let value := wrapping_mul (Z.lxor value (Z.shiftr value 30)) 0xbf58476d1ce4e5b9 in
  let value := wrapping_mul (Z.lxor value (Z.shiftr value 27)) 0x94d049bb133111eb in
  Z.lxor value (Z.shiftr value 31).

Definition drs_allocate_node nodes k : list (DictReplaySequenceNode K) * nat :=
  let index := length nodes in
  (nodes ++ [ {| drn_key := Some k; drn_priority := drs_priority_for index;
                 drn_left := None; drn_right := None; drn_subtree_len := 1 |} ],
   index).

Definition drs_refresh nodes (node : nat) : res (list (DictReplaySequenceNode K)) :=
  n ← vnth nodes node;
  left_len ← drs_node_len nodes (drn_left n);
  right_len ← drs_node_len nodes (drn_right n);
  vmod nodes node (node_set_len (1 + left_len + right_len)).

Fixpoint drs_merge (fuel : nat) nodes (left_ right_ : option nat)
    : res (list (DictReplaySequenceNode K) * option nat) :=
  match fuel with
  | O => Diverge
  | S fuel =>
      match left_, right_ with
      | None, other => Ok (nodes, other)
      | other, None => Ok (nodes, other)
      | Some left_, Some right_ =>
          nl ← vnth nodes left_;
          nr ← vnth nodes right_;
          if drn_priority nr <=? drn_priority nl then
            let left_right := drn_right nl in
            nodes ← vmod nodes left_ (node_set_right None);
            '(nodes, merged) ← drs_merge fuel nodes left_right (Some right_);
            nodes ← vmod nodes left_ (node_set_right merged);
            nodes ← drs_refresh nodes left_;
            Ok (nodes, Some left_)
          else
            let right_left := drn_left nr in
            nodes ← vmod nodes right_ (node_set_left None);
            '(nodes, merged) ← drs_merge fuel nodes (Some left_) right_left;
            nodes ← vmod nodes right_ (node_set_left merged);
            nodes ← drs_refresh nodes right_;
            Ok (nodes, Some right_)
      end
  end.

Fixpoint drs_split (fuel : nat) nodes (root : option nat) (left_len : nat)
    : res (list (DictReplaySequenceNode K) * (option nat * option nat)) :=
  match fuel with
  | O => Diverge
  | S fuel =>
      match root with
      | None => Ok (nodes, (None, None))
      | Some root =>
          n ← vnth nodes root;
          root_left_len ← drs_node_len nodes (drn_left n);
          if (left_len <=? root_left_len)%nat then
            let left_ := drn_left n in
            nodes ← vmod nodes root (node_set_left None);
            '(nodes, (prefix, new_left)) ← drs_split fuel nodes left_ left_len;
            nodes ← vmod nodes root (node_set_left new_left);
            nodes ← drs_refresh nodes root;
            Ok (nodes, (prefix, Some root))
          else
            let right_ := drn_right n in
            nodes ← vmod nodes root (node_set_right None);
            '(nodes, (new_right, suffix)) ←
              drs_split fuel nodes right_ (left_len - root_left_len - 1);
            nodes ← vmod nodes root (node_set_right new_right);
            nodes ← drs_refresh nodes root;
            Ok (nodes, (Some root, suffix))
      end
  end.

(** Every path in the store visits distinct nodes, so the number of nodes
    bounds the depth of a recursion. *)
Definition drs_fuel nodes : nat := S (length nodes).

Definition drs_insert s (index : nat) k : res (DictReplaySequence K) :=
  len ← drs_len s;
  _ ← rassert (index <=? len)%nat;
  '(nodes, (left_, right_)) ←
    drs_split (drs_fuel (drs_nodes s)) (drs_nodes s) (drs_root s) index;
  let '(nodes, node) := drs_allocate_node nodes k in
  '(nodes, with_node) ← drs_merge (drs_fuel nodes) nodes left_ (Some node);
  '(nodes, root) ← drs_merge (drs_fuel nodes) nodes with_node right_;
  Ok {| drs_nodes := nodes; drs_root := root |}.

Definition drs_push s k : res (DictReplaySequence K) :=
  len ← drs_len s; drs_insert s len k.

Definition drs_remove s (index : nat) : res (DictReplaySequence K * DictReplayKey K) :=
  len ← drs_len s;
  _ ← rassert (index <? len)%nat;
  '(nodes, (left_, remainder)) ←
    drs_split (drs_fuel (drs_nodes s)) (drs_nodes s) (drs_root s) index;
  '(nodes, (removed, right_)) ← drs_split (drs_fuel nodes) nodes remainder 1;
  '(nodes, root) ← drs_merge (drs_fuel nodes) nodes left_ right_;
  removed ← expect removed;
  n ← vnth nodes removed;
  _ ← rassert (drn_subtree_len n =? 1)%nat;
  key ← expect (drn_key n);
  nodes ← vmod nodes removed (node_set_key None);
  Ok ({| drs_nodes := nodes; drs_root := root |}, key).

Definition drs_pop s : res (DictReplaySequence K * option (DictReplayKey K)) :=
  len ← drs_len s;
  match len with
  | O => Ok (s, None)
  | S index => '(s, key) ← drs_remove s index; Ok (s, Some key)
  end.

(** The visitor mutates a state it captures; the state is threaded. *)
Fixpoint drs_visit_in_order {St} (fuel : nat) nodes (root : option nat)
    (visit : St → DictReplayKey K → res St) (st : St) : res St :=
  match fuel with
  | O => Diverge
  | S fuel =>
      match root with
      | None => Ok st
      | Some root =>
          n ← vnth nodes root;
          st ← drs_visit_in_order fuel nodes (drn_left n) visit st;
          key ← expect (drn_key n);
          st ← visit st key;
          drs_visit_in_order fuel nodes (drn_right n) visit st
      end
  end.

Definition drs_for_each {St} s (visit : St → DictReplayKey K → res St) (st : St) : res St :=
  drs_visit_in_order (drs_fuel (drs_nodes s)) (drs_nodes s) (drs_root s) visit st.

(** The visitor's captured state is the pair of the remaining [entries] and
    the accumulated [matches]. *)
Definition drs_matches_entries (key_eqb : K → K → bool) s (entries : list K) : res bool :=
  '(entries, matches) ←
    drs_for_each s
      (λ '(entries, matches) replay,
         let next := head entries in
         let here :=
           match drk_key replay, next with
           | Some replayed, Some stored => key_eqb replayed stored
           | _, _ => false
           end in
         Ok (tail entries, matches && here))
      (entries, true);
  Ok (matches && match entries with [] => true | _ => false end).
End operations.

(** ** The tree a store represents *)

Inductive gtree : Type :=
  | GLeaf
  | GNode (i : nat) (l r : gtree).

Fixpoint ids (t : gtree) : list nat :=
  match t with GLeaf => [] | GNode i l r => ids l ++ i :: ids r end.

Definition gsize (t : gtree) : nat := length (ids t).

Lemma gsize_node i l r : gsize (GNode i l r) = (gsize l + S (gsize r))%nat.
Proof. unfold gsize. cbn. by rewrite length_app. Qed.

Definition groot (t : gtree) : option nat :=
  match t with GLeaf => None | GNode i _ _ => Some i end.

Section representation.
Context {K : Type}.
Implicit Types (nodes : list (DictReplaySequenceNode K)) (k : DictReplayKey K)
  (n : DictReplaySequenceNode K) (s : DictReplaySequence K) (t : gtree).

(** Node [i] links to the subtrees, counts them and still holds its key. *)
Fixpoint rep nodes (root : option nat) t : Prop :=
  match t with
  | GLeaf => root = None
  | GNode i l r =>
      root = Some i ∧
      ∃ n, nodes !! i = Some n ∧ is_Some (drn_key n) ∧
           drn_subtree_len n = S (gsize l + gsize r) ∧
           rep nodes (drn_left n) l ∧ rep nodes (drn_right n) r
  end.

Definition payload n : option (DictReplayKey K) * Z := (drn_key n, drn_priority n).

(** The operations relink nodes but touch no key and no priority, and only
    nodes of the trees they are given. *)
Definition relinked (own : list nat) nodes nodes' : Prop :=
  payload <$> nodes' = payload <$> nodes ∧
  ∀ i, i ∉ own → nodes' !! i = nodes !! i.

Definition prio nodes (i : nat) : Z := from_option drn_priority 0 (nodes !! i).

(** Max-heap order on priorities. *)
Fixpoint heap_ordered nodes t : Prop :=
  match t with
  | GLeaf => True
  | GNode i l r =>
      (∀ j, j ∈ ids l ++ ids r → prio nodes j ≤ prio nodes i) ∧
      heap_ordered nodes l ∧ heap_ordered nodes r
  end.

Lemma relinked_refl own nodes : relinked own nodes nodes.
Proof. by split. Qed.

Lemma relinked_trans own1 own2 own nodes1 nodes2 nodes3 :
  relinked own1 nodes1 nodes2 → relinked own2 nodes2 nodes3 →
  own1 ⊆ own → own2 ⊆ own → relinked own nodes1 nodes3.
Proof.
  intros [Hp1 Hf1] [Hp2 Hf2] H1 H2. split; [congruence|].
  intros i Hi. rewrite Hf2, Hf1; [done|set_solver..].
Qed.

Lemma relinked_insert nodes i n n' :
  nodes !! i = Some n → payload n' = payload n →
  relinked [i] nodes (<[i := n']> nodes).
Proof.
  intros Hi Hp. split.
  - rewrite list_fmap_insert, Hp. apply list_insert_id. by rewrite list_lookup_fmap, Hi.
  - intros j Hj. apply list_lookup_insert_ne. set_solver.
Qed.

Lemma relinked_length own nodes nodes' :
  relinked own nodes nodes' → length nodes' = length nodes.
Proof. intros [Hp _]. by rewrite <- (length_fmap payload nodes'), Hp, length_fmap. Qed.

Lemma relinked_payload own nodes nodes' i :
  relinked own nodes nodes' → payload <$> nodes' !! i = payload <$> nodes !! i.
Proof. intros [Hp _]. by rewrite <- !list_lookup_fmap, Hp. Qed.

Lemma relinked_prio own nodes nodes' i :
  relinked own nodes nodes' → prio nodes' i = prio nodes i.
Proof.
  intros H%(relinked_payload own nodes nodes' i). unfold prio.
  unfold payload in H. destruct (nodes' !! i), (nodes !! i); by simplify_eq/=.
Qed.

Lemma relinked_heap own nodes nodes' t :
  relinked own nodes nodes' → heap_ordered nodes t → heap_ordered nodes' t.
Proof.
  intros H. induction t as [|i l IHl r IHr]; cbn; [done|].
  intros (Hi & Hl & Hr). split_and!; [|auto..].
  intros j Hj. rewrite !(relinked_prio own nodes nodes'); auto.
Qed.

Lemma rep_frame nodes nodes' root t :
  (∀ i, i ∈ ids t → nodes' !! i = nodes !! i) → rep nodes root t → rep nodes' root t.
Proof.
  revert root. induction t as [|i l IHl r IHr]; intros root Hf; cbn; [done|].
  intros (-> & n & Hn & Hk & Hlen & Hl & Hr). split; [done|].
  exists n. rewrite Hf by (cbn; set_solver). split_and!; [done..| |].
  - apply IHl; [|done]. intros j Hj. apply Hf. cbn. set_solver.
  - apply IHr; [|done]. intros j Hj. apply Hf. cbn. set_solver.
Qed.

Lemma rep_relinked own nodes nodes' root t :
  relinked own nodes nodes' → (∀ i, i ∈ ids t → i ∉ own) →
  rep nodes root t → rep nodes' root t.
Proof. intros [_ Hf] Hd. apply rep_frame. auto. Qed.

Lemma rep_root nodes root t : rep nodes root t → root = groot t.
Proof. destruct t; cbn; [done|by intros [-> _]]. Qed.

Lemma rep_bound nodes root t i : rep nodes root t → i ∈ ids t → (i < length nodes)%nat.
Proof.
  revert root. induction t as [|j l IHl r IHr]; intros root; cbn; [set_solver|].
  intros (-> & n & Hn & _ & _ & Hl & Hr). rewrite elem_of_app, elem_of_cons.
  intros [Hi|[->|Hi]]; [eauto|by eapply lookup_lt_Some|eauto].
Qed.

Lemma rep_node_len nodes root t :
  rep nodes root t → drs_node_len nodes root = Ok (gsize t).
Proof.
  destruct t as [|i l r]; cbn; [by intros ->|].
  intros (-> & n & Hn & _ & Hlen & _). cbn. res_steps.
  rewrite Hlen. unfold gsize. cbn. rewrite length_app. cbn. f_equal. lia.
Qed.

(** A store has at least as many nodes as a tree in it. *)
Lemma rep_size nodes root t :
  rep nodes root t → NoDup (ids t) → (gsize t ≤ length nodes)%nat.
Proof.
  intros Hrep Hnd. unfold gsize.
  transitivity (length (seq 0 (length nodes))); [|by rewrite length_seq].
  apply submseteq_length, NoDup_submseteq; [done|].
  intros i Hi. apply elem_of_seq. pose proof (rep_bound _ _ _ _ Hrep Hi). lia.
Qed.

(** Putting a child back and refreshing the counter re-establishes the node. *)
Lemma relink nodes i n n1 l r :
  nodes !! i = Some n → payload n1 = payload n → is_Some (drn_key n) →
  rep nodes (drn_left n1) l → rep nodes (drn_right n1) r → i ∉ ids l ++ ids r →
  ∃ nodes2,
    drs_refresh (<[i:=n1]> nodes) i = Ok nodes2 ∧
    rep nodes2 (Some i) (GNode i l r) ∧ relinked [i] nodes nodes2.
Proof.
  intros Hi Hp Hk Hl Hr Hni. set (nodes1 := <[i:=n1]> nodes).
  assert (Hlt : (i < length nodes)%nat) by by eapply lookup_lt_Some.
  assert (Hi1 : nodes1 !! i = Some n1) by by apply list_lookup_insert_eq.
  set (n2 := node_set_len (1 + gsize l + gsize r) n1).
  set (nodes2 := <[i:=n2]> nodes1).
  assert (H01 : relinked [i] nodes nodes1) by by apply (relinked_insert _ _ n).
  assert (H12 : relinked [i] nodes1 nodes2) by by apply (relinked_insert _ _ n1).
  assert (H02 : relinked [i] nodes nodes2) by by eapply (relinked_trans [i] [i]).
  exists nodes2. split_and!; [| |done].
  - unfold drs_refresh. res_steps.
    rewrite (rep_node_len nodes1 (drn_left n1) l), (rep_node_len nodes1 (drn_right n1) r)
      by (eapply rep_relinked; [exact H01|set_solver|done]).
    by apply vmod_lookup.
  - cbn. split; [done|]. exists n2. injection Hp as Hk1 _. split_and!.
    + apply list_lookup_insert_eq. unfold nodes1. by rewrite length_insert.
    + cbn. by rewrite Hk1.
    + done.
    + eapply rep_relinked; [exact H02|set_solver|done].
    + eapply rep_relinked; [exact H02|set_solver|done].
Qed.

Lemma relink_right nodes i n l m r :
  nodes !! i = Some n → is_Some (drn_key n) →
  rep nodes (drn_left n) l → rep nodes m r → i ∉ ids l ++ ids r →
  ∃ nodes2,
    drs_refresh (<[i:=node_set_right m n]> nodes) i = Ok nodes2 ∧
    rep nodes2 (Some i) (GNode i l r) ∧ relinked [i] nodes nodes2.
Proof. intros. by apply (relink nodes i n). Qed.

Lemma relink_left nodes i n m l r :
  nodes !! i = Some n → is_Some (drn_key n) →
  rep nodes m l → rep nodes (drn_right n) r → i ∉ ids l ++ ids r →
  ∃ nodes2,
    drs_refresh (<[i:=node_set_left m n]> nodes) i = Ok nodes2 ∧
    rep nodes2 (Some i) (GNode i l r) ∧ relinked [i] nodes nodes2.
Proof. intros. by apply (relink nodes i n). Qed.
End representation.

(** ** Merge and split *)

(** Carry heap order over a relinking step of the context. *)
Ltac heap_step :=
  match goal with
  | H : relinked _ ?n ?n', H' : heap_ordered ?n ?t |- heap_ordered ?n' ?t =>
      exact (relinked_heap _ _ _ _ H H')
  end.

(** Decide membership and distinctness facts of node sets from the [NoDup]
    facts in the context. *)
Ltac nodup :=
  cbn [ids] in *;
  rewrite ?NoDup_app, ?NoDup_cons in *; destruct_and?; try split_and!;
  first [apply NoDup_nil_2 | assumption | set_solver].

Section merge_split.
Context {K : Type}.
Implicit Types (nodes : list (DictReplaySequenceNode K)) (k : DictReplayKey K)
  (n : DictReplaySequenceNode K) (s : DictReplaySequence K) (t : gtree).

(** What a relinking operation that turns the trees [ts] into [ts'] leaves:
    the same in-order sequence, the rest of the store, and heap order. *)
Definition merges nodes (tl tr : gtree) nodes' t : Prop :=
  rep nodes' (groot t) t ∧ ids t = ids tl ++ ids tr ∧
  relinked (ids tl ++ ids tr) nodes nodes' ∧
  (heap_ordered nodes tl → heap_ordered nodes tr → heap_ordered nodes' t).

(** Detaching a child: the parent keeps the other subtree. *)
Lemma detach nodes i n n' :
  nodes !! i = Some n → payload n' = payload n →
  <[i:=n']> nodes !! i = Some n' ∧ relinked [i] nodes (<[i:=n']> nodes).
Proof.
  intros Hi Hp. split; [|by eapply relinked_insert].
  apply list_lookup_insert_eq. by eapply lookup_lt_Some.
Qed.

Lemma heap_root_le nodes i l r j :
  heap_ordered nodes (GNode i l r) → j ∈ ids (GNode i l r) → prio nodes j ≤ prio nodes i.
Proof.
  cbn. intros (H & _) Hj. destruct (decide (j = i)) as [->|]; [lia|].
  apply H. set_solver.
Qed.

(** The two ways a merge finishes: the left root keeps its left subtree and
    takes the merged rest on its right, or the mirror image. *)
Lemma merges_left nodes nodes1 nodes2 nodes3 i l lr tr t :
  relinked [i] nodes nodes1 → merges nodes1 lr tr nodes2 t →
  relinked [i] nodes2 nodes3 → rep nodes3 (Some i) (GNode i l t) →
  (heap_ordered nodes tr → ∀ j, j ∈ ids tr → prio nodes j ≤ prio nodes i) →
  merges nodes (GNode i l lr) tr nodes3 (GNode i l t).
Proof.
  intros H01 (Hrep & Hids & H12 & Hheap) H23 Hrep3 Hle.
  assert (H03 : relinked (ids (GNode i l lr) ++ ids tr) nodes nodes3).
  { eapply relinked_trans; [exact H01| |set_solver|reflexivity].
    eapply relinked_trans; [exact H12|exact H23|set_solver|set_solver]. }
  split_and!; [exact Hrep3|cbn; by rewrite Hids, <- app_assoc|exact H03|].
  intros HhL HhR. split_and!.
  - rewrite Hids. intros j Hj. rewrite !(relinked_prio _ _ _ _ H03).
    rewrite app_assoc in Hj. apply elem_of_app in Hj as [Hj|Hj]; [|by apply Hle].
    apply (heap_root_le _ _ _ _ _ HhL). set_solver.
  - eapply relinked_heap; [exact H03|apply HhL].
  - eapply relinked_heap; [exact H23|]. apply Hheap.
    + eapply relinked_heap; [exact H01|apply HhL].
    + eapply relinked_heap; [exact H01|apply HhR].
Qed.

Lemma merges_right nodes nodes1 nodes2 nodes3 i tl rl r t :
  relinked [i] nodes nodes1 → merges nodes1 tl rl nodes2 t →
  relinked [i] nodes2 nodes3 → rep nodes3 (Some i) (GNode i t r) →
  (heap_ordered nodes tl → ∀ j, j ∈ ids tl → prio nodes j ≤ prio nodes i) →
  merges nodes tl (GNode i rl r) nodes3 (GNode i t r).
Proof.
  intros H01 (Hrep & Hids & H12 & Hheap) H23 Hrep3 Hle.
  assert (H03 : relinked (ids tl ++ ids (GNode i rl r)) nodes nodes3).
  { eapply relinked_trans; [exact H01| |set_solver|reflexivity].
    eapply relinked_trans; [exact H12|exact H23|set_solver|set_solver]. }
  split_and!; [exact Hrep3|cbn; by rewrite Hids, <- app_assoc|exact H03|].
  intros HhL HhR. split_and!.
  - rewrite Hids. intros j Hj. rewrite !(relinked_prio _ _ _ _ H03).
    rewrite <- app_assoc in Hj. apply elem_of_app in Hj as [Hj|Hj]; [by apply Hle|].
    apply (heap_root_le _ _ _ _ _ HhR). set_solver.
  - eapply relinked_heap; [exact H23|]. apply Hheap.
    + eapply relinked_heap; [exact H01|apply HhL].
    + eapply relinked_heap; [exact H01|apply HhR].
  - eapply relinked_heap; [exact H03|apply HhR].
Qed.

Lemma merge_spec fuel nodes l r tl tr :
  rep nodes l tl → rep nodes r tr → NoDup (ids tl ++ ids tr) →
  (gsize tl + gsize tr < fuel)%nat →
  ∃ nodes' t, drs_merge fuel nodes l r = Ok (nodes', groot t) ∧
              merges nodes tl tr nodes' t.
Proof.
  revert nodes l r tl tr.
  induction fuel as [|fuel IH]; intros nodes l r tl tr Hl Hr Hnd Hfuel; [lia|].
  destruct tl as [|li ll lr]; [|destruct tr as [|ri rl rr]].
  - cbn in Hl. subst l. pose proof (rep_root _ _ _ Hr) as ->. exists nodes, tr.
    split; [done|]. split_and!; [done|done|apply relinked_refl|done].
  - pose proof (rep_root _ _ _ Hl) as ->. cbn in Hr. subst r.
    exists nodes, (GNode li ll lr). cbn -[ids rep]. split; [done|].
    split_and!; [done|cbn; by rewrite app_nil_r|apply relinked_refl|done].
  - destruct Hl as (-> & nl & Hnl & Hlk & Hllen & Hll & Hlr).
    destruct Hr as (-> & nr & Hnr & Hrk & Hrlen & Hrl & Hrr).
    rewrite !gsize_node in Hfuel.
    cbn [drs_merge]. res_steps.
    destruct (Z.leb_spec (drn_priority nr) (drn_priority nl)) as [Hle|Hlt].
    + destruct (detach nodes li nl (node_set_right None nl) Hnl eq_refl) as [Hli H01].
      set (nodes1 := <[li:=_]> nodes) in *.
      destruct (IH nodes1 (drn_right nl) (Some ri) lr (GNode ri rl rr))
        as (nodes2 & t & Hmerge & Hm).
      { eapply rep_relinked; [exact H01|nodup|done]. }
      { eapply rep_relinked; [exact H01|nodup|cbn; eauto 10]. }
      { nodup. }
      { rewrite !gsize_node. lia. }
      rewrite Hmerge. cbn [mbind res_bind].
      pose proof Hm as (Hrep & Hids & H12 & _).
      assert (Hli2 : nodes2 !! li = Some (node_set_right None nl))
        by (rewrite (proj2 H12); [done|nodup]).
      destruct (relink_right nodes2 li _ ll (groot t) t Hli2) as (nodes3 & Hrf & Hrep3 & H23);
        [done| |done|rewrite Hids; nodup|].
      { eapply rep_relinked; [exact H12|nodup|].
        eapply rep_relinked; [exact H01|nodup|done]. }
      res_steps. rewrite Hrf. exists nodes3, (GNode li ll t). split; [done|].
      eapply merges_left; [exact H01|exact Hm|exact H23|exact Hrep3|].
      intros Hh j Hj. pose proof (heap_root_le _ _ _ _ _ Hh Hj).
      unfold prio in *. rewrite Hnl, Hnr in *. cbn in *. lia.
    + destruct (detach nodes ri nr (node_set_left None nr) Hnr eq_refl) as [Hri H01].
      set (nodes1 := <[ri:=_]> nodes) in *.
      destruct (IH nodes1 (Some li) (drn_left nr) (GNode li ll lr) rl)
        as (nodes2 & t & Hmerge & Hm).
      { eapply rep_relinked; [exact H01|nodup|cbn; eauto 10]. }
      { eapply rep_relinked; [exact H01|nodup|done]. }
      { nodup. }
      { rewrite !gsize_node. lia. }
      rewrite Hmerge. cbn [mbind res_bind].
      pose proof Hm as (Hrep & Hids & H12 & _).
      assert (Hri2 : nodes2 !! ri = Some (node_set_left None nr))
        by (rewrite (proj2 H12); [done|nodup]).
      destruct (relink_left nodes2 ri _ (groot t) t rr Hri2) as (nodes3 & Hrf & Hrep3 & H23);
        [done|done| |rewrite Hids; nodup|].
      { eapply rep_relinked; [exact H12|nodup|].
        eapply rep_relinked; [exact H01|nodup|done]. }
      res_steps. rewrite Hrf. exists nodes3, (GNode ri t rr). split; [done|].
      eapply merges_right; [exact H01|exact Hm|exact H23|exact Hrep3|].
      intros Hh j Hj. pose proof (heap_root_le _ _ _ _ _ Hh Hj).
      unfold prio in *. rewrite Hnl, Hnr in *. cbn in *. lia.
Qed.

Definition splits nodes t nodes' t1 t2 : Prop :=
  (rep nodes' (groot t1) t1 ∧ rep nodes' (groot t2) t2) ∧
  ids t = ids t1 ++ ids t2 ∧
  relinked (ids t) nodes nodes' ∧
  (heap_ordered nodes t → heap_ordered nodes' t1 ∧ heap_ordered nodes' t2).

Lemma splits_left nodes nodes1 nodes2 nodes3 i l r t1 t2 :
  relinked [i] nodes nodes1 → splits nodes1 l nodes2 t1 t2 →
  relinked [i] nodes2 nodes3 → rep nodes3 (Some i) (GNode i t2 r) → i ∉ ids t1 →
  splits nodes (GNode i l r) nodes3 t1 (GNode i t2 r).
Proof.
  intros H01 ([Hrep1 Hrep2] & Hids & H12 & Hheap) H23 Hrep3 Hi.
  assert (H03 : relinked (ids (GNode i l r)) nodes nodes3).
  { eapply relinked_trans; [exact H01| |cbn; set_solver|reflexivity].
    eapply relinked_trans; [exact H12|exact H23|cbn; set_solver|cbn; set_solver]. }
  split_and!; [|exact Hrep3|cbn; by rewrite Hids, <- app_assoc|exact H03|].
  { eapply rep_relinked; [exact H23|set_solver|done]. }
  intros (Hle & Hl & Hr).
  destruct Hheap as [Hh1 Hh2]; [heap_step|]. cbn [heap_ordered].
  split_and!.
  - heap_step.
  - intros j Hj. rewrite !(relinked_prio _ _ _ _ H03). apply Hle.
    rewrite Hids. set_solver.
  - heap_step.
  - heap_step.
Qed.

Lemma splits_right nodes nodes1 nodes2 nodes3 i l r t1 t2 :
  relinked [i] nodes nodes1 → splits nodes1 r nodes2 t1 t2 →
  relinked [i] nodes2 nodes3 → rep nodes3 (Some i) (GNode i l t1) → i ∉ ids t2 →
  splits nodes (GNode i l r) nodes3 (GNode i l t1) t2.
Proof.
  intros H01 ([Hrep1 Hrep2] & Hids & H12 & Hheap) H23 Hrep3 Hi.
  assert (H03 : relinked (ids (GNode i l r)) nodes nodes3).
  { eapply relinked_trans; [exact H01| |cbn; set_solver|reflexivity].
    eapply relinked_trans; [exact H12|exact H23|cbn; set_solver|cbn; set_solver]. }
  split_and!; [exact Hrep3| |cbn; by rewrite Hids, <- app_assoc|exact H03|].
  { eapply rep_relinked; [exact H23|set_solver|done]. }
  intros (Hle & Hl & Hr).
  destruct Hheap as [Hh1 Hh2]; [heap_step|]. cbn [heap_ordered].
  split_and!.
  - intros j Hj. rewrite !(relinked_prio _ _ _ _ H03). apply Hle.
    rewrite Hids. set_solver.
  - heap_step.
  - heap_step.
  - heap_step.
Qed.

Lemma split_spec fuel nodes root t m :
  rep nodes root t → NoDup (ids t) → (gsize t < fuel)%nat →
  ∃ nodes' t1 t2,
    drs_split fuel nodes root m = Ok (nodes', (groot t1, groot t2)) ∧
    splits nodes t nodes' t1 t2 ∧ gsize t1 = (m `min` gsize t)%nat.
Proof.
  revert nodes root t m.
  induction fuel as [|fuel IH]; intros nodes root t m Hrep Hnd Hfuel; [lia|].
  destruct t as [|i l r].
  { cbn in Hrep. subst root. exists nodes, GLeaf, GLeaf. split; [done|].
    split; [|cbn; unfold gsize; cbn; lia].
    repeat split; apply relinked_refl. }
  destruct Hrep as (-> & n & Hn & Hk & Hlen & Hl & Hr).
  pose proof (gsize_node i l r) as Hsz.
  cbn [drs_split]. res_steps. rewrite (rep_node_len _ _ _ Hl). cbn [mbind res_bind].
  destruct (Nat.leb_spec m (gsize l)) as [Hle|Hlt].
  - destruct (detach nodes i n (node_set_left None n) Hn eq_refl) as [Hi H01].
    set (nodes1 := <[i:=_]> nodes) in *.
    destruct (IH nodes1 (drn_left n) l m) as (nodes2 & t1 & t2 & Hsplit & Hs & Hsize);
      [eapply rep_relinked; [exact H01|nodup|done]|nodup|lia|].
    rewrite Hsplit. cbn [mbind res_bind].
    pose proof Hs as ([Hrep1 Hrep2] & Hids & H12 & _).
    cbn [ids] in Hnd. rewrite Hids in Hnd.
    assert (Hi2 : nodes2 !! i = Some (node_set_left None n))
      by (rewrite (proj2 H12); [done|rewrite Hids; nodup]).
    destruct (relink_left nodes2 i _ (groot t2) t2 r Hi2) as (nodes3 & Hrf & Hrep3 & H23);
      [done|done| |nodup|].
    { eapply rep_relinked; [exact H12|rewrite Hids; nodup|].
      eapply rep_relinked; [exact H01|nodup|done]. }
    res_steps. rewrite Hrf. exists nodes3, t1, (GNode i t2 r). split; [done|].
    split; [|lia]. eapply splits_left; [exact H01|exact Hs|exact H23|exact Hrep3|nodup].
  - destruct (detach nodes i n (node_set_right None n) Hn eq_refl) as [Hi H01].
    set (nodes1 := <[i:=_]> nodes) in *.
    destruct (IH nodes1 (drn_right n) r (m - gsize l - 1)%nat)
      as (nodes2 & t1 & t2 & Hsplit & Hs & Hsize);
      [eapply rep_relinked; [exact H01|nodup|done]|nodup|lia|].
    rewrite Hsplit. cbn [mbind res_bind].
    pose proof Hs as ([Hrep1 Hrep2] & Hids & H12 & _).
    cbn [ids] in Hnd. rewrite Hids in Hnd.
    assert (Hi2 : nodes2 !! i = Some (node_set_right None n))
      by (rewrite (proj2 H12); [done|rewrite Hids; nodup]).
    destruct (relink_right nodes2 i _ l (groot t1) t1 Hi2) as (nodes3 & Hrf & Hrep3 & H23);
      [done| |done|nodup|].
    { eapply rep_relinked; [exact H12|rewrite Hids; nodup|].
      eapply rep_relinked; [exact H01|nodup|done]. }
    res_steps. rewrite Hrf. exists nodes3, (GNode i l t1), t2. split; [done|].
    split; [|rewrite Hsz, gsize_node; lia].
    eapply splits_right; [exact H01|exact Hs|exact H23|exact Hrep3|nodup].
Qed.
End merge_split.

(** ** The sequence as a list of keys *)

Section as_list.
Context {K : Type}.
Implicit Types (nodes : list (DictReplaySequenceNode K)) (k : DictReplayKey K)
  (n : DictReplaySequenceNode K) (s : DictReplaySequence K) (t : gtree)
  (ks : list (DictReplayKey K)).

Definition holds nodes (own : list nat) ks : Prop :=
  Forall2 (λ i k, drn_key <$> nodes !! i = Some (Some k)) own ks.

(** [s] is a well-linked, heap-ordered treap whose in-order keys are [ks]. *)
Definition drs_rep s ks : Prop :=
  ∃ t, rep (drs_nodes s) (drs_root s) t ∧ NoDup (ids t) ∧
       heap_ordered (drs_nodes s) t ∧ holds (drs_nodes s) (ids t) ks.

Lemma holds_relinked own nodes nodes' js ks :
  relinked own nodes nodes' → holds nodes js ks → holds nodes' js ks.
Proof.
  intros Hr H. eapply Forall2_impl; [exact H|]. intros i k Hk.
  pose proof (relinked_payload _ _ _ i Hr) as Hp. unfold payload in Hp.
  cbn beta in Hk. destruct (nodes !! i), (nodes' !! i); cbn in *; congruence.
Qed.

Lemma holds_frame nodes nodes' js ks :
  (∀ i, i ∈ js → nodes' !! i = nodes !! i) → holds nodes js ks → holds nodes' js ks.
Proof.
  intros Hf H. apply Forall2_same_length_lookup_2; [by eapply Forall2_length|].
  intros j i k Hi Hk. rewrite Hf by by eapply list_elem_of_lookup_2.
  by apply (Forall2_lookup_lr _ _ _ _ _ _ H Hi Hk).
Qed.

Lemma heap_frame nodes nodes' t :
  (∀ i, i ∈ ids t → nodes' !! i = nodes !! i) →
  heap_ordered nodes t → heap_ordered nodes' t.
Proof.
  induction t as [|i l IHl r IHr]; cbn; [done|]. intros Hf (Hle & Hl & Hr).
  split_and!; [|apply IHl; set_solver|apply IHr; set_solver].
  intros j Hj. unfold prio. rewrite !Hf by set_solver. by apply Hle.
Qed.

Lemma holds_split nodes js1 js2 ks i :
  holds nodes (js1 ++ js2) ks → length js1 = i →
  holds nodes js1 (take i ks) ∧ holds nodes js2 (drop i ks).
Proof.
  intros H <-. split; [apply (Forall2_take _ _ _ (length js1)) in H|
    apply (Forall2_drop _ _ _ (length js1)) in H].
  - by rewrite take_app_length in H.
  - by rewrite drop_app_length in H.
Qed.

Lemma drs_rep_with_capacity : drs_rep drs_with_capacity [].
Proof. exists GLeaf. repeat split; constructor. Qed.

Lemma drs_len_spec s ks : drs_rep s ks → drs_len s = Ok (length ks).
Proof.
  intros (t & Hrep & _ & _ & Hh). unfold drs_len.
  rewrite (rep_node_len _ _ _ Hrep). f_equal. by eapply Forall2_length.
Qed.

(** The recursion of [split] and [merge] is bounded by the number of nodes. *)
Lemma drs_split_spec nodes root t m :
  rep nodes root t → NoDup (ids t) →
  ∃ nodes' t1 t2,
    drs_split (drs_fuel nodes) nodes root m = Ok (nodes', (groot t1, groot t2)) ∧
    splits nodes t nodes' t1 t2 ∧ gsize t1 = (m `min` gsize t)%nat.
Proof.
  intros Hrep Hnd. apply split_spec; [done..|].
  pose proof (rep_size _ _ _ Hrep Hnd). unfold drs_fuel. lia.
Qed.

Lemma forest_size nodes tl tr :
  rep nodes (groot tl) tl → rep nodes (groot tr) tr → NoDup (ids tl ++ ids tr) →
  (gsize tl + gsize tr ≤ length nodes)%nat.
Proof.
  intros Hl Hr Hnd. unfold gsize. rewrite <- length_app.
  transitivity (length (seq 0 (length nodes))); [|by rewrite length_seq].
  apply submseteq_length, NoDup_submseteq; [done|].
  intros i Hi. apply elem_of_seq.
  apply elem_of_app in Hi as [Hi|Hi];
    [pose proof (rep_bound _ _ _ _ Hl Hi)|pose proof (rep_bound _ _ _ _ Hr Hi)]; lia.
Qed.

Lemma drs_merge_spec nodes tl tr :
  rep nodes (groot tl) tl → rep nodes (groot tr) tr → NoDup (ids tl ++ ids tr) →
  ∃ nodes' t, drs_merge (drs_fuel nodes) nodes (groot tl) (groot tr) = Ok (nodes', groot t) ∧
              merges nodes tl tr nodes' t.
Proof.
  intros Hl Hr Hnd. apply merge_spec; [done..|].
  pose proof (forest_size _ _ _ Hl Hr Hnd). unfold drs_fuel. lia.
Qed.

Lemma alloc_frame nodes k t :
  rep nodes (groot t) t →
  ∀ i, i ∈ ids t → (drs_allocate_node nodes k).1 !! i = nodes !! i.
Proof.
  intros Hrep i Hi. cbn. apply lookup_app_l. by eapply rep_bound.
Qed.

Lemma drs_insert_spec s ks i k :
  drs_rep s ks → (i ≤ length ks)%nat →
  ∃ s', drs_insert s i k = Ok s' ∧ drs_rep s' (take i ks ++ k :: drop i ks).
Proof.
  intros Hs Hi. pose proof (drs_len_spec _ _ Hs) as Hlen.
  destruct Hs as (t & Hrep & Hnd & Hheap & Hh).
  pose proof (Forall2_length _ _ _ Hh) as Hlks.
  unfold drs_insert. rewrite Hlen. cbn [mbind res_bind].
  rewrite rassert_true by (apply Nat.leb_le; lia). cbn [mbind res_bind].
  destruct (drs_split_spec (drs_nodes s) (drs_root s) t i) as
    (nodes1 & t1 & t2 & -> & ([Hr1 Hr2] & Hids & Hrel1 & Hhp) & Hsz); [done..|].
  cbn [mbind res_bind]. specialize (Hhp Hheap) as [Hh1 Hh2].
  rewrite Hids in Hnd, Hh.
  assert (Hn1 : length (ids t1) = i) by (unfold gsize in Hsz; lia).
  destruct (holds_split _ _ _ _ i (holds_relinked _ _ _ _ _ Hrel1 Hh) Hn1) as [Hk1 Hk2].
  pose proof (alloc_frame nodes1 k t1 Hr1) as Hf1.
  pose proof (alloc_frame nodes1 k t2 Hr2) as Hf2.
  set (node := length nodes1) in *. set (tn := GNode node GLeaf GLeaf).
  cbn [drs_allocate_node fst] in *. fold node in Hf1, Hf2 |- *.
  set (nodes2 := nodes1 ++ _) in *.
  assert (Hfresh : node ∉ ids t1 ++ ids t2).
  { intros [Hin|Hin]%elem_of_app;
      [pose proof (rep_bound _ _ _ _ Hr1 Hin)|pose proof (rep_bound _ _ _ _ Hr2 Hin)];
      unfold node in *; lia. }
  assert (Hnode : nodes2 !! node = Some {| drn_key := Some k; drn_priority := drs_priority_for node;
            drn_left := None; drn_right := None; drn_subtree_len := 1 |}).
  { unfold nodes2. rewrite lookup_app_r, Nat.sub_diag by done. done. }
  destruct (drs_merge_spec nodes2 t1 tn) as (nodes3 & t3 & Hm3 & (Hr3 & Hids3 & Hrel3 & Hhp3)).
  { by apply (rep_frame nodes1). }
  { cbn. split; [done|]. eexists. split; [exact Hnode|]. by repeat split. }
  { unfold tn. nodup. }
  cbn [groot tn] in Hm3. rewrite Hm3. cbn [mbind res_bind].
  assert (Hr2' : rep nodes3 (groot t2) t2).
  { eapply rep_relinked; [exact Hrel3|unfold tn; nodup|]. by apply (rep_frame nodes1). }
  assert (Hnd3 : NoDup (ids t3 ++ ids t2)) by (rewrite Hids3; unfold tn; nodup).
  destruct (drs_merge_spec nodes3 t3 t2 Hr3 Hr2' Hnd3)
    as (nodes4 & t4 & -> & (Hr4 & Hids4 & Hrel4 & Hhp4)).
  eexists. split; [done|]. exists t4. cbn [drs_nodes drs_root].
  rewrite Hids4. split_and!; [done|done| |].
  - apply Hhp4.
    + apply Hhp3; [by apply (heap_frame nodes1)|]. cbn. set_solver.
    + eapply relinked_heap; [exact Hrel3|]. by apply (heap_frame nodes1).
  - eapply holds_relinked; [exact Hrel4|]. eapply holds_relinked; [exact Hrel3|].
    rewrite Hids3, <- app_assoc. cbn [ids tn app].
    apply Forall2_app; [by apply (holds_frame nodes1)|].
    constructor; [by rewrite Hnode|by apply (holds_frame nodes1)].
Qed.

Lemma drs_push_spec s ks k :
  drs_rep s ks → ∃ s', drs_push s k = Ok s' ∧ drs_rep s' (ks ++ [k]).
Proof.
  intros Hs. unfold drs_push. rewrite (drs_len_spec _ _ Hs). cbn [mbind res_bind].
  destruct (drs_insert_spec s ks (length ks) k Hs) as (s' & -> & Hs'); [done|].
  exists s'. by rewrite take_ge, drop_ge in Hs' by done.
Qed.

(** Clearing the key of a node outside a tree leaves the tree alone. *)
Lemma clear_frame nodes (node : nat) n (own : list nat) :
  node ∉ own → ∀ i, i ∈ own → <[node:=node_set_key None n]> nodes !! i = nodes !! i.
Proof. intros Hn i Hi. apply list_lookup_insert_ne. set_solver. Qed.

Lemma gsize_1 t : gsize t = 1%nat → ∃ i, t = GNode i GLeaf GLeaf.
Proof.
  destruct t as [|i l r]; [done|]. rewrite gsize_node. intros H.
  exists i. destruct l, r; rewrite ?gsize_node in H; [done|lia|lia|lia].
Qed.

Lemma drs_remove_spec s ks i :
  drs_rep s ks → (i < length ks)%nat →
  ∃ s' k, drs_remove s i = Ok (s', k) ∧ ks !! i = Some k ∧ drs_rep s' (delete i ks).
Proof.
  intros Hs Hi. pose proof (drs_len_spec _ _ Hs) as Hlen.
  destruct Hs as (t & Hrep & Hnd & Hheap & Hh).
  pose proof (Forall2_length _ _ _ Hh) as Hlks.
  unfold drs_remove. rewrite Hlen. cbn [mbind res_bind].
  rewrite rassert_true by (apply Nat.ltb_lt; lia). cbn [mbind res_bind].
  destruct (drs_split_spec (drs_nodes s) (drs_root s) t i) as
    (nodes1 & t1 & tr & -> & ([Hr1 Hrr] & Hids & Hrel1 & Hhp) & Hsz); [done..|].
  cbn [mbind res_bind]. specialize (Hhp Hheap) as [Hh1 Hhr].
  rewrite Hids in Hnd, Hh, Hlks. unfold gsize in Hsz. rewrite Hids in Hsz.
  rewrite length_app in Hlks, Hsz.
  destruct (drs_split_spec nodes1 (groot tr) tr 1) as
    (nodes2 & tk & t2 & -> & ([Hrk Hr2] & Hids2 & Hrel2 & Hhp2) & Hsz2); [done|nodup|].
  cbn [mbind res_bind]. specialize (Hhp2 Hhr) as [_ Hh2].
  rewrite Hids2 in Hnd, Hh.
  destruct (gsize_1 tk) as [node ->]; [unfold gsize in *; lia|]. cbn [ids groot app] in *.
  assert (Hr1' : rep nodes2 (groot t1) t1)
    by (eapply rep_relinked; [exact Hrel2|rewrite Hids2; nodup|done]).
  destruct (drs_merge_spec nodes2 t1 t2 Hr1' Hr2)
    as (nodes3 & t3 & -> & (Hr3 & Hids3 & Hrel3 & Hhp3)); [nodup|].
  cbn [mbind res_bind expect].
  assert (Hnode : node ∉ ids t3) by (rewrite Hids3; nodup).
  destruct Hrk as (_ & n & Hn & [k Hk] & Hone & _).
  assert (Hn3 : nodes3 !! node = Some n) by (rewrite (proj2 Hrel3); [done|nodup]).
  res_steps. rewrite Hone, Hk. cbn [expect mbind res_bind].
  assert (Hh3 : holds nodes3 (ids t1 ++ node :: ids t2) ks).
  { eapply holds_relinked; [exact Hrel3|]. eapply holds_relinked; [exact Hrel2|].
    by eapply holds_relinked. }
  destruct (holds_split _ _ _ _ i Hh3) as [Hk1 Hk2]; [lia|].
  destruct (drop i ks) as [|k' ks2] eqn:Hdrop; [by apply Forall2_cons_nil_inv in Hk2|].
  apply Forall2_cons_1 in Hk2 as [Hk' Hk2]. rewrite Hn3 in Hk'. cbn in Hk'.
  assert (k' = k) as -> by congruence.
  eexists _, k. split; [done|]. split.
  { rewrite <- (Nat.add_0_r i), <- lookup_drop, Hdrop. done. }
  exists t3. cbn [drs_nodes drs_root]. split_and!.
  - eapply rep_frame; [|exact Hr3]. by apply clear_frame.
  - rewrite Hids3. nodup.
  - eapply heap_frame; [by apply clear_frame|]. apply Hhp3; [heap_step|done].
  - eapply holds_frame; [by apply clear_frame|]. rewrite Hids3, delete_take_drop.
    apply Forall2_app; [done|].
    by rewrite <- Nat.add_1_r, <- drop_drop, Hdrop.
Qed.

Lemma drs_pop_nil s : drs_rep s [] → drs_pop s = Ok (s, None).
Proof. intros Hs. unfold drs_pop. by rewrite (drs_len_spec _ _ Hs). Qed.

Lemma drs_pop_snoc s ks k :
  drs_rep s (ks ++ [k]) → ∃ s', drs_pop s = Ok (s', Some k) ∧ drs_rep s' ks.
Proof.
  intros Hs. unfold drs_pop. rewrite (drs_len_spec _ _ Hs), length_app, Nat.add_1_r.
  cbn [mbind res_bind].
  destruct (drs_remove_spec s (ks ++ [k]) (length ks) Hs) as (s' & k' & -> & Hk & Hs').
  { rewrite length_app. cbn. lia. }
  rewrite lookup_app_r, Nat.sub_diag in Hk by done. injection Hk as <-.
  exists s'. split; [done|].
  by rewrite delete_take_drop, take_app_length, drop_ge, app_nil_r in Hs'
    by (rewrite length_app; cbn; lia).
Qed.

Lemma visit_spec {St} (visit : St → DictReplayKey K → res St) nodes root t ks fuel st :
  rep nodes root t → holds nodes (ids t) ks → (gsize t < fuel)%nat →
  drs_visit_in_order fuel nodes root visit st = rfold visit st ks.
Proof.
  revert root t ks st. induction fuel as [|fuel IH]; intros root t ks st; [lia|].
  destruct t as [|i l r]; [cbn; by intros -> ->%Forall2_nil_inv_l|].
  intros (-> & n & Hn & _ & _ & Hl & Hr) Hh Hf. rewrite gsize_node in Hf.
  cbn [ids] in Hh. apply Forall2_app_inv_l in Hh as (ks1 & ks2' & Hh1 & Hh2 & ->).
  apply Forall2_cons_inv_l in Hh2 as (k & ks2 & Hk & Hh2 & ->).
  cbn [drs_visit_in_order]. res_steps. rewrite rfold_app.
  rewrite (IH _ l ks1) by (done || lia).
  destruct (rfold visit st ks1) as [st'| |]; cbn; [|done..].
  rewrite Hn in Hk. cbn in Hk. injection Hk as ->. cbn.
  destruct (visit st' k) as [st''| |]; cbn; [|done..].
  apply (IH _ r); [done..|lia].
Qed.

Lemma drs_for_each_spec {St} s ks (visit : St → DictReplayKey K → res St) st :
  drs_rep s ks → drs_for_each s visit st = rfold visit st ks.
Proof.
  intros (t & Hrep & Hnd & _ & Hh). apply (visit_spec _ _ _ t); [done..|].
  pose proof (rep_size _ _ _ Hrep Hnd). unfold drs_fuel. lia.
Qed.

Lemma drs_matches_entries_spec (key_eqb : K → K → bool) s ks entries :
  drs_rep s ks →
  drs_matches_entries key_eqb s entries = Ok
    (bool_decide (length ks = length entries) &&
     forallb (λ '(k, e), from_option (λ x : K, key_eqb x e) false (drk_key k)) (zip ks entries)).
Proof.
  intros Hs. unfold drs_matches_entries. rewrite (drs_for_each_spec _ _ _ _ Hs).
  cut (∀ m, (' (entries, matches) ← rfold
     (λ '(entries, matches) (replay : DictReplayKey K),
        Ok (tail entries, matches &&
            match drk_key replay, head entries with
            | Some replayed, Some stored => key_eqb replayed stored
            | _, _ => false
            end)) (entries, m) ks;
    Ok (matches && match entries with [] => true | _ => false end)) = Ok (m &&
    (bool_decide (length ks = length entries) &&
     forallb (λ '(k, e), from_option (λ x : K, key_eqb x e) false (drk_key k)) (zip ks entries)))).
  { intros H. apply (H true). }
  clear Hs. revert entries. induction ks as [|k ks IH]; intros entries m; cbn.
  { destruct entries; cbn; by rewrite ?andb_true_r, ?andb_false_r. }
  rewrite IH. destruct entries as [|e entries]; cbn.
  { destruct (drk_key k); destruct m; cbn; try done; by destruct ks. }
  rewrite (bool_decide_ext (length ks = length entries)
             (S (length ks) = S (length entries))) by lia.
  destruct (drk_key k); cbn; destruct m, (bool_decide _), (forallb _ _); cbn;
    by rewrite ?andb_true_r, ?andb_false_r.
Qed.

(** The replay identities of the live entries are distinct. *)
Definition distinct_ids (es : list (DictReplayKey K)) : Prop := NoDup (drk_replay_id <$> es).

Lemma distinct_ids_eq es i j a b :
  distinct_ids es → es !! i = Some a → es !! j = Some b → drk_replay_id a = drk_replay_id b → i = j.
Proof.
  intros Hd Hi Hj Heq. eapply NoDup_lookup; [exact Hd|..]; rewrite list_lookup_fmap.
  - by rewrite Hi.
  - by rewrite Hj, Heq.
Qed.

Lemma distinct_ids_snoc (rs : list (DictReplayKey K)) r : distinct_ids (rs ++ [r]) → distinct_ids rs.
Proof. unfold distinct_ids. rewrite fmap_app. by intros [? _]%NoDup_app. Qed.
End as_list.
