(* ===== verification/Probe.v ===== *)
(** The perturbation probe sequence shared by the dict and the set shadow
    tables, and the interface that a key type offers to those tables.

    A probe starts at [hash & mask] and continues with
    [slot = 5 * slot + 1 + (perturb >>= 5) & mask].  Once the 64 bits of
    [perturb] are shifted out (13 steps) the sequence is the linear
    congruential generator [5 x + 1] modulo the power-of-two table size, which
    has full period: every slot is reached.  That is what makes the unbounded
    [loop]s of the tables terminate. *)

From S2P Require Import Prelude.

(** ** The key interface

    What the tables need of a key: CPython's hash as the tables see it
    ([py_hash_pykey(key) as u64]), the stored-key equality ([PyKey::eq]) and
    the key-kind tests. *)
Class ProbeKey (K : Type) := {
  pk_hash : K → Z;
  pk_eqb : K → K → bool;
  pk_is_str : K → bool;
  pk_is_object : K → bool;
  pk_contains_object : K → bool;
}.

(** What a client may rely on: equality is an equivalence and equal keys have
    equal hashes. *)
Class ProbeKeyLaws (K : Type) `{ProbeKey K} : Prop := {
  pk_hash_range k : u64_range (pk_hash k);
  pk_eqb_refl k : pk_eqb k k = true;
  pk_eqb_sym a b : pk_eqb a b = true → pk_eqb b a = true;
  pk_eqb_trans a b c : pk_eqb a b = true → pk_eqb b c = true → pk_eqb a c = true;
  pk_eqb_hash a b : pk_eqb a b = true → pk_hash a = pk_hash b;
}.

(** ** The probe sequence *)

Definition PERTURB_SHIFT : Z := 5.

(** [perturb >>= 5; slot.wrapping_mul(5).wrapping_add(perturb).wrapping_add(1) & mask] *)
Definition next_probe (slot perturb mask : Z) : Z * Z :=
  let perturb := Z.shiftr perturb PERTURB_SHIFT in
  (Z.land (wrapping_add (wrapping_add (wrapping_mul slot 5) perturb) 1) mask, perturb).

(** The state after [n] steps from [(slot, perturb)]. *)
Fixpoint probe_state (mask slot perturb : Z) (n : nat) : Z * Z :=
  match n with
  | O => (slot, perturb)
  | S n => let '(slot, perturb) := next_probe slot perturb mask in
           probe_state mask slot perturb n
  end.

Definition probe_start (hash mask : Z) : Z := Z.land hash mask.

(** The [n]-th slot that a probe for [hash] visits. *)
Definition probe_at (hash mask : Z) (n : nat) : Z :=
  (probe_state mask (probe_start hash mask) hash n).1.

(** [loop { body; slot = next_probe(slot, perturb, mask) }], where the body
    either leaves the loop with a result or continues with its state. *)
Fixpoint probe_loop {St A} (fuel : nat) (body : St → Z → res (St + A))
    (mask slot perturb : Z) (st : St) : res A :=
  match fuel with
  | O => Diverge
  | S fuel =>
      r ← body st slot;
      match r with
      | inr a => Ok a
      | inl st =>
          let '(slot, perturb) := next_probe slot perturb mask in
          probe_loop fuel body mask slot perturb st
      end
  end.

(** 13 steps shift [perturb] out, [size] steps visit every slot. *)
Definition probe_fuel (size : nat) : nat := 13 + size.

(** A table of [2 ^ k] slots, [k] small enough for a 64-bit index. *)
Definition table_log (size : nat) (k : Z) : Prop := 0 ≤ k ≤ 63 ∧ Z.of_nat size = 2 ^ k.

(** ** The step modulo the table size *)

Lemma land_mask x k : 0 ≤ k → Z.land x (2 ^ k - 1) = x mod 2 ^ k.
Proof. intros Hk. rewrite <- Z.land_ones, Z.ones_equiv by done. f_equal. Qed.

Lemma table_log_mask size k : table_log size k → Z.of_nat size - 1 = 2 ^ k - 1.
Proof. intros [_ ->]. done. Qed.

Lemma pow2_divides_two64 k : 0 ≤ k ≤ 63 → (2 ^ k | two64).
Proof.
  intros Hk. exists (2 ^ (64 - k)). unfold two64. rewrite <- Z.pow_add_r by lia.
  f_equal. lia.
Qed.

Lemma as_u64_mod_pow2 x k : 0 ≤ k ≤ 63 → as_u64 x mod 2 ^ k = x mod 2 ^ k.
Proof. intros Hk. apply Z.mod_mod_divide, pow2_divides_two64, Hk. Qed.

Lemma as_u64_add_mod x y z k :
  0 ≤ k ≤ 63 → x mod 2 ^ k = y mod 2 ^ k → as_u64 (x + z) mod 2 ^ k = (y + z) mod 2 ^ k.
Proof.
  intros Hk H. rewrite as_u64_mod_pow2 by done.
  by rewrite <- (Z.add_mod_idemp_l x), H, Z.add_mod_idemp_l by lia.
Qed.

Lemma next_probe_mod slot perturb k :
  0 ≤ k ≤ 63 →
  next_probe slot perturb (2 ^ k - 1) =
    ((5 * slot + perturb / 32 + 1) mod 2 ^ k, perturb / 32).
Proof.
  intros Hk. unfold next_probe, PERTURB_SHIFT.
  rewrite Z.shiftr_div_pow2, land_mask by lia. change (2 ^ 5) with 32. cbv zeta. f_equal.
  unfold wrapping_add, wrapping_mul.
  replace (5 * slot + perturb / 32 + 1) with (slot * 5 + perturb / 32 + 1) by lia.
  apply as_u64_add_mod, as_u64_add_mod, as_u64_mod_pow2; done.
Qed.

Lemma probe_state_add mask slot perturb n m :
  probe_state mask slot perturb (n + m) =
    let '(slot, perturb) := probe_state mask slot perturb n in
    probe_state mask slot perturb m.
Proof.
  revert slot perturb. induction n as [|n IH]; intros slot perturb; cbn; [done|].
  destruct (next_probe slot perturb mask) as [s p]. apply IH.
Qed.

Lemma probe_state_perturb k slot perturb n :
  0 ≤ k ≤ 63 → (probe_state (2 ^ k - 1) slot perturb n).2 = perturb / 32 ^ Z.of_nat n.
Proof.
  intros Hk. revert slot perturb. induction n as [|n IH]; intros slot perturb.
  - cbn -[Z.pow Z.div]. by rewrite Z.pow_0_r, Z.div_1_r.
  - cbn [probe_state]. rewrite next_probe_mod by done. rewrite IH.
    assert (H32 : 0 < 32 ^ Z.of_nat n) by (apply Z.pow_pos_nonneg; lia).
    rewrite Z.div_div by lia. f_equal. by rewrite Nat2Z.inj_succ, Z.pow_succ_r by lia.
Qed.

Lemma probe_state_range k slot perturb n :
  0 ≤ k ≤ 63 → 0 ≤ slot < 2 ^ k → 0 ≤ (probe_state (2 ^ k - 1) slot perturb n).1 < 2 ^ k.
Proof.
  intros Hk. revert slot perturb. induction n as [|n IH]; intros slot perturb Hs; cbn [probe_state]; [done|].
  rewrite next_probe_mod by done. apply IH, Z.mod_pos_bound. lia.
Qed.

Lemma probe_start_range hash k :
  0 ≤ k → 0 ≤ probe_start hash (2 ^ k - 1) < 2 ^ k.
Proof. intros Hk. unfold probe_start. rewrite land_mask by done. apply Z.mod_pos_bound. lia. Qed.

Lemma probe_at_range hash size k n :
  table_log size k → 0 ≤ probe_at hash (Z.of_nat size - 1) n < Z.of_nat size.
Proof.
  intros [Hk Hs]. rewrite Hs. apply probe_state_range; [done|]. apply probe_start_range. lia.
Qed.

(** ** Full period of [5 x + 1] modulo a power of two *)

Lemma odd_mul_pow2_divide (k : nat) o p :
  Z.odd o = true → (2 ^ Z.of_nat k | o * p) → (2 ^ Z.of_nat k | p).
Proof.
  intros Ho. revert p. induction k as [|k IH]; intros p Hd; [apply Z.divide_1_l|].
  rewrite Nat2Z.inj_succ, Z.pow_succ_r in Hd |- * by lia.
  assert (Heven : Z.even p = true).
  { destruct Hd as [q Hq]. apply (f_equal Z.even) in Hq.
    rewrite !Z.even_mul, <- !Z.negb_odd, Ho in Hq. cbn in Hq.
    rewrite <- Z.negb_odd, Hq. by destruct (Z.odd q). }
  apply Z.even_spec in Heven as [p' ->].
  apply Z.mul_divide_mono_l, IH. apply (Z.mul_divide_cancel_l _ _ 2); [done|].
  by replace (2 * (o * p')) with (o * (2 * p')) by lia.
Qed.

Lemma odd_mul_pow2_divide' k o p :
  Z.odd o = true → (2 ^ (Z.of_nat k + 2) | o * p) → (2 ^ (Z.of_nat k + 2) | p).
Proof. replace (Z.of_nat k + 2) with (Z.of_nat (k + 2)) by lia. apply odd_mul_pow2_divide. Qed.

Lemma pow5_mod4 n : 0 ≤ n → 5 ^ n mod 4 = 1.
Proof.
  intros Hn. rewrite <- Z.mod_pow_l. change (5 mod 4) with 1. by rewrite Z.pow_1_l by lia.
Qed.

Lemma pow25_mod8 n : 0 ≤ n → 25 ^ n mod 8 = 1.
Proof.
  intros Hn. rewrite <- Z.mod_pow_l. change (25 mod 8) with 1. by rewrite Z.pow_1_l by lia.
Qed.

(** The order of 5 modulo [2 ^ (k + 2)] is a multiple of [2 ^ k]. *)
Lemma pow5_order (k : nat) d :
  0 ≤ d → (2 ^ (Z.of_nat k + 2) | 5 ^ d - 1) → (2 ^ Z.of_nat k | d).
Proof.
  revert d. induction k as [|k IH]; intros d Hd Hdiv; [apply Z.divide_1_l|].
  assert (H8 : (8 | 5 ^ d - 1)).
  { eapply Z.divide_trans; [|exact Hdiv]. change 8 with (2 ^ 3).
    exists (2 ^ Z.of_nat k). rewrite <- Z.pow_add_r by lia. f_equal. lia. }
  destruct (Z.Even_or_Odd d) as [[e ->]|[e ->]].
  - replace (2 ^ Z.of_nat (S k)) with (2 * 2 ^ Z.of_nat k)
      by (rewrite Nat2Z.inj_succ, Z.pow_succ_r; lia).
    apply Z.mul_divide_mono_l, IH; [lia|].
    assert (Hsq : 5 ^ (2 * e) - 1 = (5 ^ e + 1) * (5 ^ e - 1)).
    { rewrite Z.mul_comm, Z.pow_mul_r by lia. change (2 ^ 2) with 4. lia. }
    pose proof (pow5_mod4 e ltac:(lia)) as Hm.
    pose proof (Z.div_mod (5 ^ e) 4 ltac:(lia)) as Hq.
    rewrite Hm in Hq. set (q := 5 ^ e / 4) in *.
    apply (odd_mul_pow2_divide' _ (2 * q + 1)).
    { by rewrite Z.odd_add, Z.odd_mul. }
    apply (Z.mul_divide_cancel_l _ _ 2); [done|].
    replace (2 * ((2 * q + 1) * (5 ^ e - 1))) with (5 ^ (2 * e) - 1) by (rewrite Hsq; nia).
    replace (2 * 2 ^ (Z.of_nat k + 2)) with (2 ^ (Z.of_nat (S k) + 2)); [done|].
    rewrite <- Z.pow_succ_r by lia. f_equal. lia.
  - exfalso. rewrite Z.pow_add_r, Z.pow_mul_r in H8 by lia.
    pose proof (pow25_mod8 e) as Hm. specialize (Hm ltac:(lia)).
    change (5 ^ 2) with 25 in H8. change (5 ^ 1) with 5 in H8.
    destruct H8 as [c Hc]. pose proof (Z.div_mod (25 ^ e) 8). lia.
Qed.

(** [x] is iterated without perturbation: [4 x + 1] is multiplied by 5. *)
Lemma lcg_closed (k : Z) x n :
  0 ≤ k ≤ 63 → 0 ≤ x < 2 ^ k →
  (4 * (probe_state (2 ^ k - 1) x 0 n).1 + 1) mod 2 ^ (k + 2) =
  (5 ^ Z.of_nat n * (4 * x + 1)) mod 2 ^ (k + 2).
Proof.
  intros Hk. revert x. induction n as [|n IH]; intros x Hx; cbn [probe_state].
  - cbn [fst]. f_equal. change (5 ^ Z.of_nat 0) with 1. lia.
  - rewrite next_probe_mod by done. change (0 / 32) with 0. rewrite Z.add_0_r.
    rewrite IH by (apply Z.mod_pos_bound; lia).
    assert (H4 : 4 * ((5 * x + 1) mod 2 ^ k) = (4 * (5 * x + 1)) mod 2 ^ (k + 2)).
    { rewrite Z.pow_add_r, (Z.mul_comm (2 ^ k)) by lia. change (2 ^ 2) with 4.
      rewrite Z.mul_mod_distr_l; lia. }
    rewrite H4, <- Z.mul_mod_idemp_r, Z.add_mod_idemp_l, Z.mul_mod_idemp_r by lia.
    f_equal. rewrite Nat2Z.inj_succ, Z.pow_succ_r by lia. lia.
Qed.

Lemma lcg_injective (k : nat) x i j :
  (k ≤ 63)%nat → 0 ≤ x < 2 ^ Z.of_nat k → (i < j)%nat → Z.of_nat j < 2 ^ Z.of_nat k →
  (probe_state (2 ^ Z.of_nat k - 1) x 0 i).1 ≠ (probe_state (2 ^ Z.of_nat k - 1) x 0 j).1.
Proof.
  intros Hk Hx Hij Hj Heq.
  pose proof (lcg_closed (Z.of_nat k) x i ltac:(lia) Hx) as Hi.
  rewrite Heq, (lcg_closed (Z.of_nat k) x j ltac:(lia) Hx) in Hi.
  assert (Hd : (2 ^ (Z.of_nat k + 2) | 5 ^ Z.of_nat i * (4 * x + 1) * (5 ^ Z.of_nat (j - i) - 1))).
  { apply Z.mod_divide; [lia|].
    replace (5 ^ Z.of_nat i * (4 * x + 1) * (5 ^ Z.of_nat (j - i) - 1))
      with (5 ^ Z.of_nat j * (4 * x + 1) - 5 ^ Z.of_nat i * (4 * x + 1)).
    - by rewrite Zminus_mod, Hi, Z.sub_diag, Z.mod_0_l by lia.
    - replace (Z.of_nat j) with (Z.of_nat i + Z.of_nat (j - i)) by lia.
      rewrite Z.pow_add_r by lia. lia. }
  apply odd_mul_pow2_divide' in Hd.
  - apply pow5_order in Hd; [|lia]. apply Z.divide_pos_le in Hd; lia.
  - rewrite Z.odd_mul, Z.odd_add, Z.odd_mul. cbn [Z.odd andb xorb].
    destruct i; [done|]. rewrite Z.odd_pow by lia. done.
Qed.

Lemma lcg_covers (k : nat) x slot :
  (k ≤ 63)%nat → 0 ≤ x < 2 ^ Z.of_nat k → 0 ≤ slot < 2 ^ Z.of_nat k →
  ∃ n, Z.of_nat n < 2 ^ Z.of_nat k ∧ (probe_state (2 ^ Z.of_nat k - 1) x 0 n).1 = slot.
Proof.
  intros Hk Hx Hslot. set (size := Z.to_nat (2 ^ Z.of_nat k)).
  set (f n := (probe_state (2 ^ Z.of_nat k - 1) x 0 n).1).
  cut (In slot (map f (seq 0 size))).
  { intros (n & Hn & Hin)%in_map_iff. apply in_seq in Hin. exists n. split; [lia|done]. }
  assert (Hnd : List.NoDup (map f (seq 0 size))).
  { apply NoDup_ListNoDup, NoDup_fmap_2_strong; [|apply NoDup_ListNoDup, seq_NoDup].
    intros i j Hi%list_elem_of_In%in_seq Hj%list_elem_of_In%in_seq Hij.
    destruct (lt_eq_lt_dec i j) as [[Hlt|]|Hlt]; [|done|].
    - by destruct (lcg_injective k x i j ltac:(lia) Hx Hlt ltac:(lia)).
    - by destruct (lcg_injective k x j i ltac:(lia) Hx Hlt ltac:(lia)). }
  assert (Hincl : incl (map f (seq 0 size)) (seqZ 0 (2 ^ Z.of_nat k))).
  { intros y (n & <- & _)%in_map_iff. apply list_elem_of_In, elem_of_seqZ.
    pose proof (probe_state_range (Z.of_nat k) x 0 n ltac:(lia) Hx). unfold f. lia. }
  eapply (NoDup_length_incl Hnd) in Hincl.
  - apply Hincl, list_elem_of_In, elem_of_seqZ. lia.
  - rewrite length_map, length_seq, length_seqZ. lia.
Qed.

(** Every slot of the table is visited within [probe_fuel] steps. *)
Lemma probe_covers hash size k slot :
  table_log size k → u64_range hash → 0 ≤ slot < Z.of_nat size →
  ∃ n, (n < probe_fuel size)%nat ∧ probe_at hash (Z.of_nat size - 1) n = slot.
Proof.
  intros [Hk Hsize] Hh Hslot. unfold probe_at. rewrite Hsize.
  pose proof (probe_state_range k (probe_start hash (2 ^ k - 1)) hash 13 Hk
    ltac:(apply probe_start_range; lia)) as Hr.
  pose proof (probe_state_perturb k (probe_start hash (2 ^ k - 1)) hash 13 Hk) as Hp.
  destruct (probe_state (2 ^ k - 1) (probe_start hash (2 ^ k - 1)) hash 13) as [x p] eqn:E.
  cbn in Hr. cbn [snd] in Hp.
  assert (p = 0) as ->.
  { rewrite Hp. apply Z.div_small. unfold u64_range, two64 in Hh.
    change (Z.of_nat 13) with 13. lia. }
  destruct (lcg_covers (Z.to_nat k) x slot) as (n & Hn & Hx);
    rewrite ?Z2Nat.id in * by lia; [lia|done|lia|].
  exists (13 + n)%nat. split; [unfold probe_fuel; lia|].
  rewrite probe_state_add, E. done.
Qed.

(** ** Running a probe loop *)

Lemma probe_loop_from {St A} (I : nat → St → Prop) (Q : A → Prop) N
    (body : St → Z → res (St + A)) mask hash fuel n st :
  I n st → (n ≤ N)%nat → (N - n < fuel)%nat →
  (∀ n st, (n ≤ N)%nat → I n st →
     ∃ r, body st (probe_at hash mask n) = Ok r ∧
       match r with inr a => Q a | inl st' => (n < N)%nat ∧ I (S n) st' end) →
  ∃ a, (let '(slot, perturb) := probe_state mask (probe_start hash mask) hash n in
        probe_loop fuel body mask slot perturb st) = Ok a ∧ Q a.
Proof.
  intros HI Hn Hf Hbody. revert n st HI Hn Hf.
  induction fuel as [|fuel IH]; intros n st HI Hn Hf; [lia|].
  destruct (Hbody n st Hn HI) as (r & Hr & Hres). unfold probe_at in Hr.
  pose proof (probe_state_add mask (probe_start hash mask) hash n 1) as HS.
  destruct (probe_state mask (probe_start hash mask) hash n) as [slot perturb].
  cbn in Hr |- *. rewrite Hr. cbn. destruct r as [st'|a]; [|by eauto].
  destruct Hres as [Hlt HI'].
  destruct (IH (S n) st' HI' ltac:(lia) ltac:(lia)) as (a & Ha & HQ).
  rewrite <- Nat.add_1_r, HS in Ha. cbn in Ha.
  destruct (next_probe slot perturb mask) as [slot' perturb']. eauto.
Qed.

(** A probe loop whose body keeps [I] and leaves by step [N] returns. *)
Lemma probe_loop_run {St A} (I : nat → St → Prop) (Q : A → Prop) N
    (body : St → Z → res (St + A)) mask hash fuel st :
  I 0%nat st → (N < fuel)%nat →
  (∀ n st, (n ≤ N)%nat → I n st →
     ∃ r, body st (probe_at hash mask n) = Ok r ∧
       match r with inr a => Q a | inl st' => (n < N)%nat ∧ I (S n) st' end) →
  ∃ a, probe_loop fuel body mask (probe_start hash mask) hash st = Ok a ∧ Q a.
Proof.
  intros HI Hf Hbody.
  apply (probe_loop_from I Q N body mask hash fuel 0 st HI ltac:(lia) ltac:(lia) Hbody).
Qed.

(** ** Lists of keys *)

Section keys.
Context {K : Type} `{ProbeKeyLaws K}.
Implicit Types ks : list K.

Lemma hash_ok (k : K) : u64_range (pk_hash k).
Proof. apply pk_hash_range. Qed.

Lemma hashes_ok (ks : list K) : Forall (λ k, u64_range (pk_hash k)) ks.
Proof. apply Forall_true, hash_ok. Qed.

(** No two keys are equal. *)
Definition distinct (ks : list K) : Prop :=
  ∀ i j a b, ks !! i = Some a → ks !! j = Some b → pk_eqb a b = true → i = j.

Lemma distinct_snoc ks k :
  distinct ks → Forall (λ k', pk_eqb k' k = false) ks → distinct (ks ++ [k]).
Proof.
  intros Hd Hf i j a b Hi Hj Heq. rewrite Forall_forall in Hf.
  assert (Hnew : ∀ a, a ∈ ks → pk_eqb a k = true → False).
  { intros x Hx He. by rewrite (Hf x Hx) in He. }
  apply lookup_app_Some in Hi as [Hi|[Hil Hi]], Hj as [Hj|[Hjl Hj]].
  - by eapply Hd.
  - apply list_lookup_singleton_Some in Hj as [_ <-]. exfalso.
    apply (Hnew a); [by eapply list_elem_of_lookup_2|done].
  - apply list_lookup_singleton_Some in Hi as [_ <-]. exfalso.
    apply (Hnew b); [by eapply list_elem_of_lookup_2|by apply pk_eqb_sym].
  - apply list_lookup_singleton_Some in Hi as [? _], Hj as [? _]. lia.
Qed.

Lemma distinct_perm ks ks' : ks ≡ₚ ks' → distinct ks' → distinct ks.
Proof.
  intros (_ & f & Hf & Heq)%Permutation_inj Hd i j a b Hi Hj He.
  rewrite Heq in Hi, Hj. apply (inj f). by eapply Hd.
Qed.

Lemma distinct_delete ks i : distinct ks → distinct (delete i ks).
Proof.
  intros Hd a b x y Ha Hb Heq.
  assert (Hsub : ∀ n z, delete i ks !! n = Some z →
    ks !! (if decide (n < i)%nat then n else S n) = Some z).
  { intros n z Hn. destruct (decide (n < i)%nat).
    - by rewrite list_lookup_delete_lt in Hn.
    - by rewrite list_lookup_delete_ge in Hn by lia. }
  pose proof (Hd _ _ x y (Hsub _ _ Ha) (Hsub _ _ Hb) Heq) as Hab.
  destruct (decide (a < i)%nat), (decide (b < i)%nat); lia.
Qed.
End keys.
