(* ===== verification/DictIndex.v ===== *)
(** The compact shadow of CPython's combined-dict key table
    (crates/pyrust-core/src/core/dict_probe_index.rs, [DictPythonHashIndex]):
    a power-of-two vector of slots, probed with perturbation, that index an
    insertion-ordered vector of entries. *)

From S2P Require Import Prelude ReplaySeq Probe.

(** ** Data *)

Inductive DictKeyTableKind := KindUnknown | KindUnicode | KindGeneral.

Definition kind_is_unicode (k : DictKeyTableKind) : bool :=
  match k with KindUnicode => true | _ => false end.

#[export] Instance DictKeyTableKind_eq_dec : EqDecision DictKeyTableKind.
Proof. solve_decision. Defined.

Section data.
Context {K : Type}.

Record DictReplayMetadata := {
  drm_entry_hashes : list Z;
  drm_entry_replay_ids : list Z;
  drm_entry_live : list bool;
}.

Record DictPythonHashIndex := {
  dpi_indices : list Z;
  dpi_entry_keys : list (option K);
  dpi_replay_metadata : option DictReplayMetadata;
  dpi_usable : Z;
  dpi_live_len : Z;
  dpi_unicode_only : bool;
}.
End data.
Arguments DictPythonHashIndex : clear implicits.

Definition DICT_INDEX_EMPTY : Z := -1.
Definition DICT_INDEX_DUMMY : Z := -2.

Definition dict_probe_usable_fraction (table_size : Z) : Z := saturating_mul table_size 2 / 3.

Definition dpi_table_size_for_target (target : Z) : res Z :=
  let adjusted := saturating_sub (Z.lor target 8) 1 in
  let log2_size := 64 - leading_zeros adjusted in
  expect (checked_shl 1 log2_size).

Fixpoint dpi_table_size_loop (fuel : nat) (capacity table_size : Z) : res Z :=
  match fuel with
  | O => Diverge
  | S fuel =>
      if dict_probe_usable_fraction table_size <? capacity then
        table_size ← expect (checked_mul table_size 2);
        dpi_table_size_loop fuel capacity table_size
      else Ok table_size
  end.

(** The table size doubles from 8, so 64 iterations exhaust [usize]. *)
Definition dpi_table_size_for_capacity (capacity : Z) : res Z :=
  if capacity =? 0 then Ok 0 else dpi_table_size_loop 64 capacity 8.

(** [indices[slot] < 0] stops an insertion probe. *)
Definition dpi_insertion_slot (indices : list Z) (python_hash : Z) : res Z :=
  _ ← rassert (negb (vlen indices =? 0));
  mask ← usize_sub (vlen indices) 1;
  probe_loop (probe_fuel (length indices))
    (λ (_ : unit) slot,
       v ← vnth indices (Z.to_nat slot);
       Ok (if v <? 0 then inr slot else inl tt))
    mask (Z.land python_hash mask) python_hash tt.

(** ** Operations *)

Section operations.
Context {K : Type} `{ProbeKey K}.
Implicit Types self : DictPythonHashIndex K.

Definition dpi_default : DictPythonHashIndex K :=
  {| dpi_indices := []; dpi_entry_keys := []; dpi_replay_metadata := None;
     dpi_usable := 0; dpi_live_len := 0; dpi_unicode_only := true |}.

(** Its debug assertion, that the size is a power of two, is left out: the
    sizes it is called with are. *)
Definition dpi_with_table_size (table_size : Z) : DictPythonHashIndex K :=
  if table_size =? 0 then dpi_default
  else
    {| dpi_indices := replicate (Z.to_nat table_size) DICT_INDEX_EMPTY;
       dpi_entry_keys := []; dpi_replay_metadata := None;
       dpi_usable := dict_probe_usable_fraction table_size;
       dpi_live_len := 0; dpi_unicode_only := true |}.

Definition dpi_set_unicode_only (b : bool) self : DictPythonHashIndex K :=
  {| dpi_indices := dpi_indices self; dpi_entry_keys := dpi_entry_keys self;
     dpi_replay_metadata := dpi_replay_metadata self; dpi_usable := dpi_usable self;
     dpi_live_len := dpi_live_len self; dpi_unicode_only := b |}.

Definition dpi_place_without_resize self (key : K) : res (DictPythonHashIndex K) :=
  _ ← rassert (negb (dpi_usable self =? 0));
  _ ← rassert (bool_decide (dpi_replay_metadata self = None));
  slot ← dpi_insertion_slot (dpi_indices self) (pk_hash key);
  entry_index ← expect (isize_try_from (vlen (dpi_entry_keys self)));
  indices ← vset (dpi_indices self) (Z.to_nat slot) entry_index;
  usable ← usize_sub (dpi_usable self) 1;
  live_len ← usize_add (dpi_live_len self) 1;
  Ok {| dpi_indices := indices; dpi_entry_keys := dpi_entry_keys self ++ [Some key];
        dpi_replay_metadata := dpi_replay_metadata self; dpi_usable := usable;
        dpi_live_len := live_len; dpi_unicode_only := dpi_unicode_only self |}.

Definition dpi_place_without_resize_replay self (key : option K) (python_hash replay_id : Z) :
    res (DictPythonHashIndex K) :=
  _ ← rassert (negb (dpi_usable self =? 0));
  slot ← dpi_insertion_slot (dpi_indices self) python_hash;
  replay ← expect (dpi_replay_metadata self);
  let replay :=
    {| drm_entry_hashes := drm_entry_hashes replay ++ [python_hash];
       drm_entry_replay_ids := drm_entry_replay_ids replay ++ [replay_id];
       drm_entry_live := drm_entry_live replay ++ [true] |} in
  entry_index ← expect (isize_try_from (vlen (dpi_entry_keys self)));
  indices ← vset (dpi_indices self) (Z.to_nat slot) entry_index;
  usable ← usize_sub (dpi_usable self) 1;
  live_len ← usize_add (dpi_live_len self) 1;
  Ok {| dpi_indices := indices; dpi_entry_keys := dpi_entry_keys self ++ [key];
        dpi_replay_metadata := Some replay; dpi_usable := usable;
        dpi_live_len := live_len; dpi_unicode_only := dpi_unicode_only self |}.

(** [a.into_iter().zip(b).zip(c).zip(d)]: stops at the shortest. *)
Fixpoint zip4 {A B C D} (a : list A) (b : list B) (c : list C) (d : list D) :
    list (A * B * C * D) :=
  match a, b, c, d with
  | x :: a, y :: b, z :: c, w :: d => (x, y, z, w) :: zip4 a b c d
  | _, _, _, _ => []
  end.

(** Rebuild the table from the live compact entries, in insertion order. *)
Definition dpi_resize self (target : Z) : res (DictPythonHashIndex K) :=
  table_size ← dpi_table_size_for_target target;
  let empty replay :=
    {| dpi_indices := replicate (Z.to_nat table_size) DICT_INDEX_EMPTY;
       dpi_entry_keys := []; dpi_replay_metadata := replay;
       dpi_usable := dict_probe_usable_fraction table_size; dpi_live_len := 0;
       dpi_unicode_only := dpi_unicode_only self |} in
  match dpi_replay_metadata self with
  | Some replay =>
      rfold (λ self '(key, python_hash, replay_id, live),
               if (live : bool) then dpi_place_without_resize_replay self key python_hash replay_id
               else Ok self)
        (empty (Some {| drm_entry_hashes := []; drm_entry_replay_ids := [];
                        drm_entry_live := [] |}))
        (zip4 (dpi_entry_keys self) (drm_entry_hashes replay)
           (drm_entry_replay_ids replay) (drm_entry_live replay))
  | None =>
      rfold dpi_place_without_resize (empty None) (omap id (dpi_entry_keys self))
  end.

Definition dpi_prepare_general_insert self : res (DictPythonHashIndex K) :=
  if dpi_unicode_only self then
    self ← dpi_resize self (saturating_mul (dpi_live_len self) 3);
    Ok (dpi_set_unicode_only false self)
  else Ok self.

Definition dpi_record_inserted self (key : K) : res (DictPythonHashIndex K) :=
  self ← (if dpi_unicode_only self && negb (pk_is_str key)
          then dpi_prepare_general_insert self else Ok self);
  self ← (if dpi_usable self =? 0
          then dpi_resize self (saturating_mul (dpi_live_len self) 3) else Ok self);
  dpi_place_without_resize self key.

Definition dpi_record_inserted_replay self (key : DictReplayKey K) : res (DictPythonHashIndex K) :=
  self ← (if dpi_unicode_only self && negb (drk_is_str key)
          then dpi_prepare_general_insert self else Ok self);
  self ← (if dpi_usable self =? 0
          then dpi_resize self (saturating_mul (dpi_live_len self) 3) else Ok self);
  dpi_place_without_resize_replay self (drk_key key) (drk_python_hash key) (drk_replay_id key).

Definition dpi_from_entries (entries : list K) (initial_table_size : Z)
    (initial_unicode_only current_unicode_only : bool) : res (DictPythonHashIndex K) :=
  let index := dpi_set_unicode_only initial_unicode_only (dpi_with_table_size initial_table_size) in
  index ← rfold dpi_record_inserted index entries;
  if negb current_unicode_only && dpi_unicode_only index
  then dpi_prepare_general_insert index else Ok index.

Definition dpi_entry_is_live self (entry_index : nat) : res bool :=
  match dpi_replay_metadata self with
  | None => key ← vnth (dpi_entry_keys self) entry_index; Ok (bool_decide (is_Some key))
  | Some replay => vnth (drm_entry_live replay) entry_index
  end.

Definition dpi_entry_python_hash self (entry_index : nat) (key : K) : res Z :=
  match dpi_replay_metadata self with
  | None => Ok (pk_hash key)
  | Some replay => vnth (drm_entry_hashes replay) entry_index
  end.

(** The shape of the four lookup loops: an EMPTY slot ends the probe, a live
    entry that [matches_] accepts is a hit. *)
Definition dpi_exact_slot self (key : K) : res (option Z) :=
  if vlen (dpi_indices self) =? 0 then Ok None
  else
    mask ← usize_sub (vlen (dpi_indices self)) 1;
    probe_loop (probe_fuel (length (dpi_indices self)))
      (λ (_ : unit) slot,
         entry_index ← vnth (dpi_indices self) (Z.to_nat slot);
         if entry_index =? DICT_INDEX_EMPTY then Ok (inr None)
         else
           hit ← (if 0 <=? entry_index then
                    live ← dpi_entry_is_live self (Z.to_nat entry_index);
                    if (live : bool) then
                      stored ← vnth (dpi_entry_keys self) (Z.to_nat entry_index);
                      Ok (match stored with Some stored => pk_eqb stored key | None => false end)
                    else Ok false
                  else Ok false);
           Ok (if (hit : bool) then inr (Some slot) else inl tt))
      mask (Z.land (pk_hash key) mask) (pk_hash key) tt.

Definition dpi_replay_slot self (key : DictReplayKey K) : res (option Z) :=
  if vlen (dpi_indices self) =? 0 then Ok None
  else
    mask ← usize_sub (vlen (dpi_indices self)) 1;
    replay ← expect (dpi_replay_metadata self);
    probe_loop (probe_fuel (length (dpi_indices self)))
      (λ (_ : unit) slot,
         entry_index ← vnth (dpi_indices self) (Z.to_nat slot);
         if entry_index =? DICT_INDEX_EMPTY then Ok (inr None)
         else
           hit ← (if 0 <=? entry_index then
                    live ← vnth (drm_entry_live replay) (Z.to_nat entry_index);
                    if (live : bool) then
                      replay_id ← vnth (drm_entry_replay_ids replay) (Z.to_nat entry_index);
                      Ok (replay_id =? drk_replay_id key)
                    else Ok false
                  else Ok false);
           Ok (if (hit : bool) then inr (Some slot) else inl tt))
      mask (Z.land (drk_python_hash key) mask) (drk_python_hash key) tt.

Definition dpi_mark_slot_removed self (slot : Z) : res (DictPythonHashIndex K) :=
  entry_index ← vnth (dpi_indices self) (Z.to_nat slot);
  let entry_index := Z.to_nat (as_u64 entry_index) in
  indices ← vset (dpi_indices self) (Z.to_nat slot) DICT_INDEX_DUMMY;
  entry_keys ← vset (dpi_entry_keys self) entry_index None;
  replay ← match dpi_replay_metadata self with
           | None => Ok None
           | Some replay =>
               entry_live ← vset (drm_entry_live replay) entry_index false;
               Ok (Some {| drm_entry_hashes := drm_entry_hashes replay;
                           drm_entry_replay_ids := drm_entry_replay_ids replay;
                           drm_entry_live := entry_live |})
           end;
  live_len ← usize_sub (dpi_live_len self) 1;
  Ok {| dpi_indices := indices; dpi_entry_keys := entry_keys; dpi_replay_metadata := replay;
        dpi_usable := dpi_usable self; dpi_live_len := live_len;
        dpi_unicode_only := dpi_unicode_only self |}.

(** [PyDict_PopItem] shortens [dk_nentries] past trailing holes. *)
Fixpoint dpi_truncate_loop (fuel : nat) self : res (DictPythonHashIndex K) :=
  match fuel with
  | O => Diverge
  | S fuel =>
      match last (dpi_entry_keys self) with
      | None => Ok self
      | Some _ =>
          let entry_index := (length (dpi_entry_keys self) - 1)%nat in
          live ← dpi_entry_is_live self entry_index;
          if (live : bool) then Ok self
          else
            dpi_truncate_loop fuel
              {| dpi_indices := dpi_indices self;
                 dpi_entry_keys := removelast (dpi_entry_keys self);
                 dpi_replay_metadata :=
                   match dpi_replay_metadata self with
                   | None => None
                   | Some replay =>
                       Some {| drm_entry_hashes := removelast (drm_entry_hashes replay);
                               drm_entry_replay_ids := removelast (drm_entry_replay_ids replay);
                               drm_entry_live := removelast (drm_entry_live replay) |}
                   end;
                 dpi_usable := dpi_usable self; dpi_live_len := dpi_live_len self;
                 dpi_unicode_only := dpi_unicode_only self |}
      end
  end.

Definition dpi_truncate_popped_entries self : res (DictPythonHashIndex K) :=
  dpi_truncate_loop (S (length (dpi_entry_keys self))) self.

(** A lost slot is the failed [debug_assert!(false, ..)]. *)
Definition dpi_record_removed self (key : K) : res (DictPythonHashIndex K) :=
  slot ← dpi_exact_slot self key;
  match slot with
  | Some slot => dpi_mark_slot_removed self slot
  | None => _ ← rassert false; Ok self
  end.

Definition dpi_record_removed_replay self (key : DictReplayKey K) (popped : bool) :
    res (DictPythonHashIndex K) :=
  slot ← dpi_replay_slot self key;
  match slot with
  | Some slot =>
      self ← dpi_mark_slot_removed self slot;
      if popped then dpi_truncate_popped_entries self else Ok self
  | None => _ ← rassert false; Ok self
  end.

Definition dpi_record_popped self (key : K) : res (DictPythonHashIndex K) :=
  self ← dpi_record_removed self key;
  dpi_truncate_popped_entries self.

(** The test of [candidates] and [has_candidate]: the live entry at
    [entry_index], if its key is retained and has the wanted hash. *)
Definition dpi_hash_match self (entry_index : Z) (python_hash : Z) : res (option K) :=
  if 0 <=? entry_index then
    live ← dpi_entry_is_live self (Z.to_nat entry_index);
    if (live : bool) then
      stored ← vnth (dpi_entry_keys self) (Z.to_nat entry_index);
      match stored with
      | Some key =>
          h ← dpi_entry_python_hash self (Z.to_nat entry_index) key;
          Ok (if h =? python_hash then Some key else None)
      | None => Ok None
      end
    else Ok None
  else Ok None.

Definition dpi_candidates self (python_hash : Z) : res (list K) :=
  if vlen (dpi_indices self) =? 0 then Ok []
  else
    mask ← usize_sub (vlen (dpi_indices self)) 1;
    probe_loop (probe_fuel (length (dpi_indices self)))
      (λ (candidates : list K) slot,
         entry_index ← vnth (dpi_indices self) (Z.to_nat slot);
         if entry_index =? DICT_INDEX_EMPTY then Ok (inr candidates)
         else
           key ← dpi_hash_match self entry_index python_hash;
           Ok (inl (match key with Some key => candidates ++ [key] | None => candidates end)))
      mask (Z.land python_hash mask) python_hash [].

Definition dpi_has_candidate self (python_hash : Z) (predicate : K → bool) : res bool :=
  if vlen (dpi_indices self) =? 0 then Ok false
  else
    mask ← usize_sub (vlen (dpi_indices self)) 1;
    probe_loop (probe_fuel (length (dpi_indices self)))
      (λ (_ : unit) slot,
         entry_index ← vnth (dpi_indices self) (Z.to_nat slot);
         if entry_index =? DICT_INDEX_EMPTY then Ok (inr false)
         else
           key ← dpi_hash_match self entry_index python_hash;
           Ok (match key with
               | Some key => if predicate key then inr true else inl tt
               | None => inl tt
               end))
      mask (Z.land python_hash mask) python_hash tt.

Definition dpi_has_object_candidate self (python_hash : Z) : res bool :=
  dpi_has_candidate self python_hash pk_is_object.

Definition dpi_has_dynamic_candidate self (python_hash : Z) : res bool :=
  dpi_has_candidate self python_hash pk_contains_object.

Definition dpi_has_non_object_key self (python_hash : Z) : res bool :=
  cs ← dpi_candidates self python_hash;
  Ok (existsb (λ key, negb (pk_is_object key)) cs).

Definition dpi_copy_preserves_layout self : res bool :=
  _ ← rassert (bool_decide (dpi_replay_metadata self = None));
  Ok (saturating_mul (vlen (dpi_entry_keys self)) 2 / 3 <=? dpi_live_len self).

Definition dpi_sparse_copy_table_size (live_len : Z) : res Z :=
  let estimate := saturating_add (saturating_mul live_len 3) 1 / 2 in
  dpi_table_size_for_target estimate.

Definition dpi_compacted_copy self : res (DictPythonHashIndex K) :=
  _ ← rassert (bool_decide (dpi_replay_metadata self = None));
  table_size ← dpi_sparse_copy_table_size (dpi_live_len self);
  rfold dpi_place_without_resize
    (dpi_set_unicode_only (dpi_unicode_only self) (dpi_with_table_size table_size))
    (omap id (dpi_entry_keys self)).

Definition dpi_begin_replay self : res (DictPythonHashIndex K) :=
  _ ← rassert (bool_decide (dpi_entry_keys self = []));
  _ ← rassert (bool_decide (dpi_replay_metadata self = None));
  Ok {| dpi_indices := dpi_indices self; dpi_entry_keys := dpi_entry_keys self;
        dpi_replay_metadata :=
          Some {| drm_entry_hashes := []; drm_entry_replay_ids := []; drm_entry_live := [] |};
        dpi_usable := dpi_usable self; dpi_live_len := dpi_live_len self;
        dpi_unicode_only := dpi_unicode_only self |}.

Definition dpi_finish_replay self : res (DictPythonHashIndex K) :=
  replay ← expect (dpi_replay_metadata self);
  _ ← rassert (vlen (drm_entry_live replay) =? vlen (dpi_entry_keys self));
  _ ← rassert (forallb (λ '(live, key), negb live || bool_decide (is_Some key))
        (zip (drm_entry_live replay) (dpi_entry_keys self)));
  Ok {| dpi_indices := dpi_indices self; dpi_entry_keys := dpi_entry_keys self;
        dpi_replay_metadata := None; dpi_usable := dpi_usable self;
        dpi_live_len := dpi_live_len self; dpi_unicode_only := dpi_unicode_only self |}.
End operations.
