(* ===== verification/DictTable.v ===== *)
(** The abstract key table that [DictPythonHashIndex] implements, and the
    invariant of its slot vector.

    A [table] is generic in its entries: only their hash matters to the slots.
    The dict shadow uses it with keys (normal mode) and with replay keys
    (while a deferred journal is materialized); both modes refine the same
    total operations [tb_insert], [tb_remove] and [tb_pop], which identify an
    entry by its position among the live entries. *)

From S2P Require Import Prelude ReplaySeq Probe DictIndex.

(** ** The abstract table *)

Section table.
Context {E : Type}.

Record table := {
  tb_indices : list Z;
  tb_ents : list (option E);
  tb_usable : Z;
  tb_unicode : bool;
}.
End table.
Arguments table : clear implicits.

Section operations.
Context {E : Type} (eh : E → Z) (estr : E → bool).
Implicit Types t : table E.

Definition tb_live t : list E := omap id (tb_ents t).

Definition tb_empty (size : Z) (unicode : bool) : table E :=
  {| tb_indices := replicate (Z.to_nat size) DICT_INDEX_EMPTY; tb_ents := [];
     tb_usable := dict_probe_usable_fraction size; tb_unicode := unicode |}.

(** The slot that an insertion probe ends at. *)
Definition insertion_slot (indices : list Z) (h : Z) : nat :=
  Z.to_nat (default 0 (res_to_option (dpi_insertion_slot indices h))).

Definition tb_place t (e : E) : table E :=
  {| tb_indices := <[insertion_slot (tb_indices t) (eh e) := vlen (tb_ents t)]> (tb_indices t);
     tb_ents := tb_ents t ++ [Some e]; tb_usable := tb_usable t - 1;
     tb_unicode := tb_unicode t |}.

Definition target_size (target : Z) : Z :=
  default 0 (res_to_option (dpi_table_size_for_target target)).

(** Rebuild from the live entries, which drops every dummy. *)
Definition tb_rebuild (size : Z) (unicode : bool) (es : list E) : table E :=
  foldl tb_place (tb_empty size unicode) es.

Definition tb_grow (unicode : bool) t : table E :=
  tb_rebuild (target_size (3 * vlen (tb_live t))) unicode (tb_live t).

Definition tb_to_general t : table E :=
  if tb_unicode t then tb_grow false t else t.

Definition tb_insert t (e : E) : table E :=
  let t := if estr e then t else tb_to_general t in
  let t := if tb_usable t =? 0 then tb_grow (tb_unicode t) t else t in
  tb_place t e.

(** The position in [ents] of the [i]-th live entry. *)
Fixpoint live_pos (ents : list (option E)) (i : nat) : nat :=
  match ents, i with
  | Some _ :: ents, S i => S (live_pos ents i)
  | None :: ents, i => S (live_pos ents i)
  | _, _ => O
  end.

Definition tb_remove_at t (p : nat) : table E :=
  {| tb_indices :=
       map (λ v, if v =? Z.of_nat p then DICT_INDEX_DUMMY else v) (tb_indices t);
     tb_ents := <[p := None]> (tb_ents t); tb_usable := tb_usable t;
     tb_unicode := tb_unicode t |}.

Definition tb_remove t (i : nat) : table E := tb_remove_at t (live_pos (tb_ents t) i).

(** Drop the trailing holes. *)
Fixpoint trim (ents : list (option E)) : list (option E) :=
  match ents with
  | [] => []
  | e :: ents =>
      match e, trim ents with
      | None, [] => []
      | e, ents => e :: ents
      end
  end.

Definition tb_trim t : table E :=
  {| tb_indices := tb_indices t; tb_ents := trim (tb_ents t); tb_usable := tb_usable t;
     tb_unicode := tb_unicode t |}.

Definition tb_pop t : table E := tb_trim (tb_remove t (length (tb_live t) - 1)).
End operations.

(** ** The invariant *)

Definition slot_at (indices : list Z) (h : Z) (n : nat) : nat :=
  Z.to_nat (probe_at h (vlen indices - 1) n).

(** The probe for [h] runs through [n] slots without meeting EMPTY. *)
Definition reaches (indices : list Z) (h : Z) (n : nat) : Prop :=
  ∀ m, (m < n)%nat → indices !! slot_at indices h m ≠ Some DICT_INDEX_EMPTY.

Definition sized (indices : list Z) : Prop := ∃ k, 3 ≤ k ∧ table_log (length indices) k.

Definition filled (indices : list Z) : Z :=
  count_if (λ v, negb (v =? DICT_INDEX_EMPTY)) indices.

Record tb_wf {E} (eh : E → Z) (t : table E) : Prop := {
  wf_size : sized (tb_indices t) ∨
    tb_indices t = [] ∧ tb_ents t = [] ∧ tb_usable t = 0;
  wf_usable : 0 ≤ tb_usable t;
  wf_entries : vlen (tb_ents t) + tb_usable t
    ≤ dict_probe_usable_fraction (vlen (tb_indices t));
  wf_filled : filled (tb_indices t) + tb_usable t
    ≤ dict_probe_usable_fraction (vlen (tb_indices t));
  wf_entry s v : tb_indices t !! s = Some v → v = DICT_INDEX_EMPTY ∨ v = DICT_INDEX_DUMMY ∨
    0 ≤ v ∧ ∃ e, tb_ents t !! Z.to_nat v = Some (Some e);
  wf_inj s1 s2 v : 0 ≤ v → tb_indices t !! s1 = Some v → tb_indices t !! s2 = Some v → s1 = s2;
  wf_reach p e : tb_ents t !! p = Some (Some e) →
    ∃ n, reaches (tb_indices t) (eh e) n ∧
      tb_indices t !! slot_at (tb_indices t) (eh e) n = Some (Z.of_nat p);
  wf_hash e : e ∈ tb_live t → u64_range (eh e);
}.

(** ** Table sizes *)

Lemma usable_fraction_bounds size :
  0 ≤ size ≤ 2 ^ 63 →
  2 * size - 2 ≤ 3 * dict_probe_usable_fraction size ≤ 2 * size ∧
  0 ≤ dict_probe_usable_fraction size.
Proof.
  intros Hs. unfold dict_probe_usable_fraction, saturating_mul, usize_max, two64.
  pose proof (Z.mod_pos_bound (Z.min (2 ^ 64 - 1) (size * 2)) 3) as Hm.
  pose proof (Z.div_mod (Z.min (2 ^ 64 - 1) (size * 2)) 3). lia.
Qed.

Lemma sized_bounds indices : sized indices → 8 ≤ vlen indices ≤ 2 ^ 63.
Proof.
  intros (k & Hk & Hl & Hs). unfold vlen. rewrite Hs. change 8 with (2 ^ 3). split;
    apply Z.pow_le_mono_r; lia.
Qed.

(** The least power of two above [(target | 8) - 1]. *)
Lemma table_size_for_target_spec target :
  0 ≤ target < 2 ^ 63 →
  ∃ k, 3 ≤ k ≤ 63 ∧ dpi_table_size_for_target target = Ok (2 ^ k) ∧
    2 ^ (k - 1) ≤ Z.lor target 8 - 1 < 2 ^ k ∧ target ≤ 2 ^ k.
Proof.
  intros Ht. set (a := Z.lor target 8).
  assert (Ha : 8 ≤ a ∧ target ≤ a ∧ a < 2 ^ 63).
  { split_and!.
    - unfold a. rewrite Z.lor_comm. apply lor_ge; lia.
    - apply lor_ge; lia.
    - apply lor_lt; lia. }
  unfold dpi_table_size_for_target, saturating_sub. fold a.
  rewrite (Z.max_r 0) by lia.
  unfold leading_zeros. destruct (Z.eqb_spec (a - 1) 0); [lia|].
  assert (H3 : 2 ≤ Z.log2 (a - 1)) by (change 2 with (Z.log2 7); apply Z.log2_le_mono; lia).
  assert (H63 : Z.log2 (a - 1) < 63) by (apply Z.log2_lt_pow2; lia).
  pose proof (Z.log2_spec (a - 1) ltac:(lia)) as Hl.
  exists (Z.log2 (a - 1) + 1).
  replace (64 - (63 - Z.log2 (a - 1))) with (Z.log2 (a - 1) + 1) by lia.
  unfold checked_shl. destruct (Z.ltb_spec (Z.log2 (a - 1) + 1) 64); [|lia].
  rewrite Z.shiftl_1_l, as_u64_id.
  - replace (Z.log2 (a - 1) + 1 - 1) with (Z.log2 (a - 1)) by lia.
    rewrite <- Z.add_1_r in Hl. cbn [expect]. split_and!; try lia. done.
  - split; [lia|]. apply Z.pow_lt_mono_r; lia.
Qed.

(** ** Probing a well-formed slot vector *)

Lemma slot_at_spec indices h n :
  sized indices →
  probe_at h (vlen indices - 1) n = Z.of_nat (slot_at indices h n) ∧
  (slot_at indices h n < length indices)%nat.
Proof.
  intros (k & Hk & Hl). unfold slot_at, vlen.
  pose proof (probe_at_range h _ k n Hl). lia.
Qed.

Lemma slot_at_length indices1 indices2 h n :
  length indices1 = length indices2 → slot_at indices1 h n = slot_at indices2 h n.
Proof. unfold slot_at, vlen. by intros ->. Qed.

Lemma sized_length indices1 indices2 :
  length indices1 = length indices2 → sized indices1 → sized indices2.
Proof. unfold sized. by intros ->. Qed.

Lemma slot_lookup indices h n :
  sized indices → ∃ v, indices !! slot_at indices h n = Some v.
Proof. intros Hs. apply lookup_lt_is_Some_2. by apply slot_at_spec. Qed.

Lemma filled_cons v indices :
  filled (v :: indices) = (if v =? DICT_INDEX_EMPTY then 0 else 1) + filled indices.
Proof.
  unfold filled, count_if. rewrite filter_cons.
  destruct (v =? DICT_INDEX_EMPTY); cbn [negb]; case_decide; try done; cbn [length]; lia.
Qed.

Lemma filled_bounds indices : 0 ≤ filled indices ≤ vlen indices.
Proof.
  induction indices as [|v indices IH]; [done|].
  rewrite filled_cons. unfold vlen in *. cbn [length]. destruct (_ =? _); lia.
Qed.

Lemma filled_empty indices :
  filled indices < vlen indices → ∃ s, indices !! s = Some DICT_INDEX_EMPTY.
Proof.
  induction indices as [|v indices IH]; [done|].
  rewrite filled_cons. unfold vlen in *. cbn [length]. intros Hlt.
  destruct (Z.eqb_spec v DICT_INDEX_EMPTY) as [->|_]; [by exists 0%nat|].
  destruct IH as [s Hs]; [lia|]. by exists (S s).
Qed.

Lemma filled_insert indices s v : filled (<[s := v]> indices) ≤ filled indices + 1.
Proof.
  revert s. induction indices as [|x indices IH]; intros s; [by destruct s|].
  destruct s as [|s]; change (<[S s := v]> (x :: indices)) with (x :: <[s := v]> indices) ||
    change (<[0%nat := v]> (x :: indices)) with (v :: indices); rewrite !filled_cons.
  - pose proof (filled_bounds indices). destruct (v =? _), (x =? _); lia.
  - specialize (IH s). destruct (x =? _); lia.
Qed.

Lemma filled_map f indices :
  (∀ v, f v = DICT_INDEX_EMPTY ↔ v = DICT_INDEX_EMPTY) → filled (map f indices) = filled indices.
Proof.
  intros Hf. induction indices as [|v indices IH]; [done|].
  cbn [map]. rewrite !filled_cons, IH. specialize (Hf v).
  destruct (Z.eqb_spec (f v) DICT_INDEX_EMPTY), (Z.eqb_spec v DICT_INDEX_EMPTY); tauto || lia.
Qed.

Lemma filled_replicate n : filled (replicate n DICT_INDEX_EMPTY) = 0.
Proof. induction n as [|n IH]; [done|]. cbn [replicate]. by rewrite filled_cons, IH. Qed.

Lemma reaches_0 indices h : reaches indices h 0.
Proof. intros m Hm. lia. Qed.

Lemma reaches_S indices h n v :
  reaches indices h n → indices !! slot_at indices h n = Some v → v ≠ DICT_INDEX_EMPTY →
  reaches indices h (S n).
Proof.
  intros Hr Hv Hne m Hm. destruct (decide (m = n)) as [->|]; [congruence|]. apply Hr. lia.
Qed.

Lemma reaches_fmap f indices h n :
  (∀ v, f v = DICT_INDEX_EMPTY → v = DICT_INDEX_EMPTY) →
  reaches indices h n → reaches (map f indices) h n.
Proof.
  intros Hf Hr m Hm. specialize (Hr m Hm).
  rewrite (slot_at_length _ indices) by apply length_map.
  rewrite list_lookup_fmap. destruct (indices !! slot_at indices h m); cbn; [|done].
  intros [= Hv%Hf]. congruence.
Qed.

Lemma reaches_insert indices s v h n :
  v ≠ DICT_INDEX_EMPTY → reaches indices h n → reaches (<[s := v]> indices) h n.
Proof.
  intros Hv Hr m Hm. specialize (Hr m Hm).
  rewrite (slot_at_length _ indices) by apply length_insert.
  rewrite list_lookup_insert. case_decide; [|done]. congruence.
Qed.

(** A probe that passes no EMPTY and one that ends at EMPTY: the first is
    shorter. *)
Lemma reaches_before indices h n m :
  reaches indices h n → indices !! slot_at indices h m = Some DICT_INDEX_EMPTY → (n ≤ m)%nat.
Proof. intros Hr Hm. destruct (decide (m < n)%nat) as [Hlt|]; [|lia]. by destruct (Hr m Hlt). Qed.

Section probing.
Context (indices : list Z) (h : Z).
Context (Hsized : sized indices) (Hfree : filled indices < vlen indices) (Hh : u64_range h).

(** The probe meets an EMPTY slot within the fuel. *)
Lemma probe_meets_empty :
  ∃ N, (N < probe_fuel (length indices))%nat ∧
    indices !! slot_at indices h N = Some DICT_INDEX_EMPTY.
Proof using Hsized Hfree Hh.
  destruct (filled_empty _ Hfree) as [s Hs].
  pose proof (lookup_lt_Some _ _ _ Hs) as Hlt.
  destruct Hsized as (k & Hk & Hl).
  destruct (probe_covers h (length indices) k (Z.of_nat s) Hl Hh ltac:(lia)) as (N & HN & Hat).
  exists N. split; [done|]. unfold slot_at, vlen. by rewrite Hat, Nat2Z.id.
Qed.

Lemma mask_ok : usize_sub (vlen indices) 1 = Ok (vlen indices - 1).
Proof using Hsized.
  unfold usize_sub. pose proof (sized_bounds _ Hsized).
  by destruct (Z.leb_spec 1 (vlen indices)); [|lia].
Qed.

Lemma nonempty_ok : (vlen indices =? 0) = false.
Proof using Hsized. pose proof (sized_bounds _ Hsized). apply Z.eqb_neq. lia. Qed.

(** An insertion probe ends at the first negative slot. *)
Lemma insertion_slot_spec :
  ∃ n v, dpi_insertion_slot indices h = Ok (Z.of_nat (slot_at indices h n)) ∧
    indices !! slot_at indices h n = Some v ∧ v < 0 ∧ reaches indices h n.
Proof using Hsized Hfree Hh.
  destruct probe_meets_empty as (N & HN & Hat).
  unfold dpi_insertion_slot. rewrite nonempty_ok, mask_ok. cbn [negb rassert mbind res_bind].
  edestruct (probe_loop_run (A := Z)
    (λ n (_ : unit), reaches indices h n)
    (λ slot, ∃ n v, slot = Z.of_nat (slot_at indices h n) ∧
       indices !! slot_at indices h n = Some v ∧ v < 0 ∧ reaches indices h n) N) as (slot & Hr & HQ);
    [apply reaches_0|exact HN| |].
  2: { unfold probe_start in Hr. rewrite Hr. destruct HQ as (n & v & -> & ?). eauto. }
  intros n [] Hn Hr. cbn beta.
  destruct (slot_lookup indices h n Hsized) as [v Hv].
  pose proof (proj1 (slot_at_spec indices h n Hsized)) as Heq.
  rewrite Heq, Nat2Z.id, (vnth_lookup _ _ _ Hv). cbn [mbind res_bind].
  eexists. split; [done|]. destruct (Z.ltb_spec v 0); [by eauto 6|].
  assert (v ≠ DICT_INDEX_EMPTY) by (unfold DICT_INDEX_EMPTY; lia).
  split; [|by eapply reaches_S]. destruct (decide (n = N)) as [->|]; [congruence|lia].
Qed.

(** A lookup loop: [fin] at the first EMPTY, [step] at any other slot. *)
Lemma lookup_loop {St A} (I : nat → St → Prop) (Q : A → Prop)
    (step : St → Z → Z → res (St + A)) (fin : St → A) st :
  I 0%nat st →
  (∀ n st v, reaches indices h n → indices !! slot_at indices h n = Some v →
     v ≠ DICT_INDEX_EMPTY → I n st →
     ∃ r, step st (Z.of_nat (slot_at indices h n)) v = Ok r ∧
       match r with inr a => Q a | inl st => I (S n) st end) →
  (∀ n st, reaches indices h n → indices !! slot_at indices h n = Some DICT_INDEX_EMPTY →
     I n st → Q (fin st)) →
  ∃ a, probe_loop (probe_fuel (length indices))
      (λ st slot, v ← vnth indices (Z.to_nat slot);
                  if v =? DICT_INDEX_EMPTY then Ok (inr (fin st)) else step st slot v)
      (vlen indices - 1) (Z.land h (vlen indices - 1)) h st = Ok a ∧ Q a.
Proof using Hsized Hfree Hh.
  intros HI Hstep Hfin. destruct probe_meets_empty as (N & HN & Hat).
  apply (probe_loop_run (λ n st, reaches indices h n ∧ I n st) Q N);
    [split; [apply reaches_0|done]|done|].
  intros n st' Hn [Hr HI']. cbn beta.
  destruct (slot_lookup indices h n Hsized) as [v Hv].
  pose proof (proj1 (slot_at_spec indices h n Hsized)) as Heq.
  rewrite Heq, Nat2Z.id, (vnth_lookup _ _ _ Hv). cbn [mbind res_bind].
  destruct (decide (v = DICT_INDEX_EMPTY)) as [->|Hne].
  { rewrite Z.eqb_refl. eexists; split; [done|]. by apply (Hfin n).  }
  rewrite (proj2 (Z.eqb_neq _ _) Hne).
  destruct (Hstep n st' v Hr Hv Hne HI') as (r & -> & Hres). exists r. split; [done|].
  destruct r as [st''|a]; [|done]. split; [|split; [by eapply reaches_S|done]].
  destruct (decide (n = N)) as [->|]; [congruence|lia].
Qed.
End probing.

(** ** The operations keep the invariant *)

Section preserve.
Context {E : Type} (eh : E → Z) (estr : E → bool).
Implicit Types t : table E.

Lemma wf_nonempty t : tb_wf eh t → 0 < tb_usable t → sized (tb_indices t).
Proof. intros [[Hs|(_ & _ & Hu)] _ _ _ _ _ _ _]; [done|lia]. Qed.

Lemma wf_live_sized t p e :
  tb_wf eh t → tb_ents t !! p = Some (Some e) → sized (tb_indices t).
Proof. intros [[Hs|(_ & He & _)] _ _ _ _ _ _ _]; [done|]. by rewrite He. Qed.

Lemma wf_free t : tb_wf eh t → sized (tb_indices t) → filled (tb_indices t) < vlen (tb_indices t).
Proof.
  intros Hwf Hs. pose proof (wf_filled _ _ Hwf). pose proof (wf_usable _ _ Hwf).
  pose proof (sized_bounds _ Hs). pose proof (usable_fraction_bounds (vlen (tb_indices t))). lia.
Qed.

Lemma wf_ents_bound t : tb_wf eh t → vlen (tb_ents t) < 2 ^ 63.
Proof.
  intros Hwf. destruct (wf_size _ _ Hwf) as [Hs|(_ & -> & _)]; [|done].
  pose proof (wf_entries _ _ Hwf). pose proof (wf_usable _ _ Hwf).
  pose proof (sized_bounds _ Hs). pose proof (usable_fraction_bounds (vlen (tb_indices t))). lia.
Qed.

Lemma place_slot t h :
  tb_wf eh t → sized (tb_indices t) → u64_range h →
  ∃ n v, dpi_insertion_slot (tb_indices t) h = Ok (Z.of_nat (insertion_slot (tb_indices t) h)) ∧
    insertion_slot (tb_indices t) h = slot_at (tb_indices t) h n ∧
    tb_indices t !! slot_at (tb_indices t) h n = Some v ∧ v < 0 ∧ reaches (tb_indices t) h n.
Proof.
  intros Hwf Hs Hh.
  destruct (insertion_slot_spec _ h Hs (wf_free t Hwf Hs) Hh) as (n & v & Hi & Hv & Hneg & Hr).
  exists n, v. unfold insertion_slot. rewrite Hi. cbn. by rewrite Nat2Z.id.
Qed.

Lemma tb_live_app ents1 ents2 (es : list E) :
  omap id ents1 = es → omap id (ents1 ++ ents2) = es ++ omap id ents2.
Proof. intros <-. apply omap_app. Qed.

Lemma tb_live_place t e : tb_live (tb_place eh t e) = tb_live t ++ [e].
Proof. unfold tb_live, tb_place. cbn [tb_ents]. by rewrite omap_app. Qed.

Lemma tb_place_wf t e :
  tb_wf eh t → 0 < tb_usable t → u64_range (eh e) → tb_wf eh (tb_place eh t e).
Proof.
  intros Hwf Hu Hh. pose proof (wf_nonempty t Hwf Hu) as Hs.
  destruct (place_slot t (eh e) Hwf Hs Hh) as (n & v & _ & Hslot & Hv & Hneg & Hr).
  pose proof (slot_at_spec (tb_indices t) (eh e) n Hs) as [_ Hlt].
  remember (slot_at (tb_indices t) (eh e) n) as i eqn:Hi.
  remember (vlen (tb_ents t)) as p eqn:Hpeq.
  assert (Hp : 0 ≤ p) by (subst p; unfold vlen; lia).
  assert (Hlen : length (<[i := p]> (tb_indices t)) = length (tb_indices t)) by apply length_insert.
  destruct Hwf as [_ Hus Hent Hfill Hentry Hinj Hreach Hhash].
  assert (Hnew : ∀ s, tb_indices t !! s ≠ Some p).
  { intros s Hsp. destruct (Hentry _ _ Hsp) as [?|[?|(_ & e' & He')]];
      [unfold DICT_INDEX_EMPTY, DICT_INDEX_DUMMY in *; lia..|].
    apply lookup_lt_Some in He'. unfold vlen in Hpeq. lia. }
  unfold tb_place. rewrite Hslot, <- Hpeq. split; cbn [tb_indices tb_ents tb_usable].
  - left. by eapply sized_length.
  - lia.
  - unfold vlen in *. rewrite Hlen, length_app. cbn [length]. lia.
  - pose proof (filled_insert (tb_indices t) i p). unfold vlen in *. rewrite Hlen. lia.
  - intros s w. rewrite list_lookup_insert. case_decide as Hc.
    + intros [= <-]. right; right. split; [done|]. exists e.
      rewrite Hpeq. unfold vlen. rewrite Nat2Z.id. by apply list_lookup_middle.
    + intros Hw. destruct (Hentry _ _ Hw) as [?|[?|(? & e' & He')]]; [by auto..|].
      right; right. split; [done|]. exists e'. by apply lookup_app_l_Some.
  - intros s1 s2 w Hw [(<- & <- & _)|[_ H1]]%list_lookup_insert_Some
      [(<- & Hw' & _)|[_ H2]]%list_lookup_insert_Some; [done|..].
    + by destruct (Hnew s2).
    + rewrite <- Hw' in H1. by destruct (Hnew s1).
    + by eapply Hinj.
  - intros q e' Hq. apply lookup_app_Some in Hq as [Hq|[Hge Hq]].
    + destruct (Hreach q e' Hq) as (m & Hm & Hslot'). exists m. split.
      { apply reaches_insert; [unfold DICT_INDEX_EMPTY; lia|done]. }
      rewrite (slot_at_length _ (tb_indices t)) by done.
      rewrite list_lookup_insert_ne; [done|]. intros Heq. rewrite <- Heq in Hslot'.
      rewrite Hv in Hslot'. simplify_eq. lia.
    + destruct (q - length (tb_ents t))%nat eqn:Eq; [|done]. cbn in Hq. injection Hq as <-.
      exists n. split.
      { apply reaches_insert; [unfold DICT_INDEX_EMPTY; lia|done]. }
      rewrite (slot_at_length _ (tb_indices t)) by done. rewrite <- Hi.
      rewrite list_lookup_insert_eq by done. rewrite Hpeq. unfold vlen. repeat f_equal. lia.
  - intros e'. unfold tb_live. cbn [tb_ents]. rewrite omap_app, elem_of_app.
    intros [?|Hin]; [by apply Hhash|]. cbn in Hin. by apply list_elem_of_singleton in Hin as ->.
Qed.

Lemma tb_empty_wf k unicode : 3 ≤ k ≤ 63 → tb_wf eh (tb_empty (2 ^ k) unicode).
Proof.
  intros Hk. pose proof (usable_fraction_bounds (2 ^ k)) as Hf.
  assert (H63 : 2 ^ k ≤ 2 ^ 63) by (apply Z.pow_le_mono_r; lia).
  assert (Hlen : length (replicate (Z.to_nat (2 ^ k)) DICT_INDEX_EMPTY) = Z.to_nat (2 ^ k))
    by apply length_replicate.
  split; unfold tb_empty; cbn [tb_indices tb_ents tb_usable].
  - left. exists k. unfold table_log. rewrite Hlen. lia.
  - lia.
  - unfold vlen. rewrite Hlen, Z2Nat.id by lia. cbn [length]. lia.
  - unfold vlen. rewrite filled_replicate, Hlen, Z2Nat.id by lia. lia.
  - intros s v [-> _]%lookup_replicate. by left.
  - intros s1 s2 v Hv [-> _]%lookup_replicate. done.
  - intros p e. by rewrite lookup_nil.
  - intros e. cbn. by intros ?%not_elem_of_nil.
Qed.

Lemma place_list_wf (es : list E) t :
  tb_wf eh t → vlen es ≤ tb_usable t → Forall (λ e, u64_range (eh e)) es →
  let t' := foldl (tb_place eh) t es in
  tb_wf eh t' ∧ tb_live t' = tb_live t ++ es ∧ tb_ents t' = tb_ents t ++ map Some es ∧
  tb_usable t' = tb_usable t - vlen es ∧ vlen (tb_indices t') = vlen (tb_indices t) ∧
  tb_unicode t' = tb_unicode t.
Proof.
  revert t. induction es as [|e es IH]; intros t Hwf Hle Hall; cbn zeta.
  - cbn. rewrite !app_nil_r. unfold vlen. cbn [length]. split_and!; [done..|lia|done|done].
  - apply Forall_cons in Hall as [He Hall]. unfold vlen in Hle. cbn [length] in Hle.
    destruct (IH (tb_place eh t e)) as (H1 & H2 & H3 & H4 & H5 & H6);
      [apply tb_place_wf; [done|lia|done]|cbn; unfold vlen; lia|done|].
    cbn [foldl]. rewrite H2, H3, H4, H5, H6, tb_live_place.
    cbn [tb_place tb_ents tb_usable tb_indices tb_unicode map]. unfold vlen.
    rewrite <- !app_assoc, length_insert. cbn [length app]. split_and!; [done..|lia|done|done].
Qed.

Lemma rebuild_wf k unicode (es : list E) :
  3 ≤ k ≤ 63 → vlen es ≤ dict_probe_usable_fraction (2 ^ k) →
  Forall (λ e, u64_range (eh e)) es →
  let t := tb_rebuild eh (2 ^ k) unicode es in
  tb_wf eh t ∧ tb_live t = es ∧ tb_ents t = map Some es ∧
  tb_usable t = dict_probe_usable_fraction (2 ^ k) - vlen es ∧ vlen (tb_indices t) = 2 ^ k ∧
  tb_unicode t = unicode.
Proof.
  intros Hk Hle Hall.
  destruct (place_list_wf es (tb_empty (2 ^ k) unicode)) as (H1 & H2 & H3 & H4 & H5 & H6);
    [by apply tb_empty_wf|done|done|].
  cbn zeta. unfold tb_rebuild. split_and!; try done.
  rewrite H5. unfold vlen. cbn. rewrite length_replicate. lia.
Qed.

(** Dicts of at most [2 ^ 60] keys: a [PyKey] is larger than 8 bytes, so no
    vector of keys is longer. *)
Definition small_len (n : Z) : Prop := 0 ≤ n < 2 ^ 60.

(** A table grown for its live entries has room for another one. *)
Lemma target_size_room n :
  small_len n →
  ∃ k, 3 ≤ k ≤ 63 ∧ dpi_table_size_for_target (3 * n) = Ok (2 ^ k) ∧ target_size (3 * n) = 2 ^ k ∧
    n < dict_probe_usable_fraction (2 ^ k).
Proof.
  intros Hn. unfold small_len in Hn.
  destruct (table_size_for_target_spec (3 * n)) as (k & Hk & Heq & Hb & Hge); [lia|].
  exists k. unfold target_size. rewrite Heq. cbn. split_and!; [lia|lia|done|done|].
  assert (H8 : 2 ^ 3 ≤ 2 ^ k ≤ 2 ^ 63) by (split; apply Z.pow_le_mono_r; lia).
  change (2 ^ 3) with 8 in H8. pose proof (usable_fraction_bounds (2 ^ k)). lia.
Qed.

Lemma wf_live_hash t : tb_wf eh t → Forall (λ e, u64_range (eh e)) (tb_live t).
Proof. intros Hwf. apply Forall_forall. intros e He. by apply (wf_hash _ _ Hwf). Qed.

Lemma tb_grow_wf unicode t :
  tb_wf eh t → small_len (vlen (tb_live t)) →
  tb_wf eh (tb_grow eh unicode t) ∧ tb_live (tb_grow eh unicode t) = tb_live t ∧
  tb_ents (tb_grow eh unicode t) = map Some (tb_live t) ∧
  0 < tb_usable (tb_grow eh unicode t) ∧ tb_unicode (tb_grow eh unicode t) = unicode.
Proof.
  intros Hwf Hlen. destruct (target_size_room _ Hlen) as (k & Hk & _ & Heq & Hroom).
  unfold tb_grow. rewrite Heq.
  destruct (rebuild_wf k unicode (tb_live t)) as (H1 & H2 & H3 & H4 & H5 & H6);
    [done|lia|by apply wf_live_hash|].
  split_and!; try done. lia.
Qed.

Lemma tb_to_general_wf t :
  tb_wf eh t → small_len (vlen (tb_live t)) →
  tb_wf eh (tb_to_general eh t) ∧ tb_live (tb_to_general eh t) = tb_live t ∧
  tb_unicode (tb_to_general eh t) = false.
Proof.
  intros Hwf Hlen. unfold tb_to_general. destruct (tb_unicode t) eqn:Hu; [|done].
  destruct (tb_grow_wf false t Hwf Hlen) as (? & ? & _ & _ & ?). done.
Qed.

(** The table just before the placement of a new key. *)
Definition tb_room t (e : E) : table E :=
  let t := if estr e then t else tb_to_general eh t in
  if tb_usable t =? 0 then tb_grow eh (tb_unicode t) t else t.

Lemma tb_insert_room t e : tb_insert eh estr t e = tb_place eh (tb_room t e) e.
Proof. done. Qed.

Lemma tb_room_wf t e :
  tb_wf eh t → small_len (vlen (tb_live t)) →
  tb_wf eh (tb_room t e) ∧ tb_live (tb_room t e) = tb_live t ∧ 0 < tb_usable (tb_room t e) ∧
  tb_unicode (tb_room t e) = tb_unicode t && estr e.
Proof.
  intros Hwf Hlen. unfold tb_room.
  set (t1 := if estr e then t else tb_to_general eh t).
  assert (H1 : tb_wf eh t1 ∧ tb_live t1 = tb_live t ∧ tb_unicode t1 = tb_unicode t && estr e).
  { subst t1. destruct (estr e); [by rewrite andb_true_r|].
    destruct (tb_to_general_wf t Hwf Hlen) as (? & ? & ->). by rewrite andb_false_r. }
  destruct H1 as (Hwf1 & Hl1 & Hu1). destruct (Z.eqb_spec (tb_usable t1) 0) as [H0|Hn0].
  - destruct (tb_grow_wf (tb_unicode t1) t1) as (? & ? & _ & ? & ?); [done|by rewrite Hl1|].
    split_and!; congruence.
  - pose proof (wf_usable _ _ Hwf1). split_and!; [done|done|lia|done].
Qed.

Lemma tb_insert_wf t e :
  tb_wf eh t → small_len (vlen (tb_live t)) → u64_range (eh e) →
  tb_wf eh (tb_insert eh estr t e) ∧ tb_live (tb_insert eh estr t e) = tb_live t ++ [e] ∧
  tb_unicode (tb_insert eh estr t e) = tb_unicode t && estr e.
Proof.
  intros Hwf Hlen Hh. destruct (tb_room_wf t e Hwf Hlen) as (H1 & H2 & H3 & H4).
  rewrite tb_insert_room, tb_live_place, H2. split_and!; [by apply tb_place_wf|done|done].
Qed.

Lemma live_pos_lookup (ents : list (option E)) i e :
  omap id ents !! i = Some e → ents !! live_pos ents i = Some (Some e).
Proof.
  revert i. induction ents as [|[x|] ents IH]; intros i Hi; [done| |by apply IH].
  destruct i as [|i]; cbn in *; [congruence|by apply IH].
Qed.

Lemma live_pos_delete (ents : list (option E)) i e :
  omap id ents !! i = Some e →
  omap id (<[live_pos ents i := None]> ents) = delete i (omap id ents).
Proof.
  revert i. induction ents as [|[x|] ents IH]; intros i Hi; [done| |by apply IH].
  destruct i as [|i]; cbn in *; [done|]. f_equal. by apply IH.
Qed.

Lemma live_pos_lt (ents : list (option E)) i :
  (i < length (omap id ents))%nat → (live_pos ents i < length ents)%nat.
Proof.
  intros [e He]%lookup_lt_is_Some_2. by apply live_pos_lookup, lookup_lt_Some in He.
Qed.

Lemma tb_remove_at_wf t p e :
  tb_wf eh t → tb_ents t !! p = Some (Some e) → tb_wf eh (tb_remove_at t p).
Proof.
  intros Hwf Hp. pose proof (wf_live_sized t p e Hwf Hp) as Hs.
  destruct Hwf as [_ Hus Hent Hfill Hentry Hinj Hreach Hhash].
  pose proof (lookup_lt_Some _ _ _ Hp) as Hlt.
  set (f v := if v =? Z.of_nat p then DICT_INDEX_DUMMY else v).
  assert (Hfe : ∀ v, f v = DICT_INDEX_EMPTY ↔ v = DICT_INDEX_EMPTY).
  { intros v. unfold f, DICT_INDEX_EMPTY, DICT_INDEX_DUMMY.
    destruct (Z.eqb_spec v (Z.of_nat p)); lia. }
  assert (Hlen : length (map f (tb_indices t)) = length (tb_indices t)) by apply length_map.
  assert (Hval : ∀ s w, map f (tb_indices t) !! s = Some w → 0 ≤ w →
    tb_indices t !! s = Some w ∧ w ≠ Z.of_nat p).
  { intros s w. rewrite list_lookup_fmap. destruct (tb_indices t !! s) as [v|]; cbn; [|done].
    intros [= <-]. unfold f, DICT_INDEX_DUMMY. destruct (Z.eqb_spec v (Z.of_nat p)); [lia|done]. }
  unfold tb_remove_at. fold f. split; cbn [tb_indices tb_ents tb_usable].
  - left. by eapply sized_length.
  - done.
  - unfold vlen in *. by rewrite Hlen, length_insert.
  - unfold vlen in *. rewrite Hlen, filled_map; done.
  - intros s w Hw. destruct (decide (0 ≤ w)) as [Hge|Hneg].
    + destruct (Hval s w Hw Hge) as [Hsw Hne]. right; right. split; [done|].
      destruct (Hentry s w Hsw) as [?|[?|(_ & e' & He')]];
        [unfold DICT_INDEX_EMPTY, DICT_INDEX_DUMMY in *; lia..|].
      exists e'. rewrite list_lookup_insert_ne by lia. done.
    + rewrite list_lookup_fmap in Hw. destruct (tb_indices t !! s) as [v|] eqn:Hv; [|done].
      cbn in Hw. injection Hw as <-. unfold f in *.
      destruct (Z.eqb_spec v (Z.of_nat p)); [by right; left|].
      destruct (Hentry s v Hv) as [?|[?|(? & _)]]; [by left|by right; left|lia].
  - intros s1 s2 w Hw H1 H2. apply Hval in H1 as [H1 _], H2 as [H2 _]; [|done..]. by eapply Hinj.
  - intros q e' [(<- & ? & _)|[Hne Hq]]%list_lookup_insert_Some; [done|].
    destruct (Hreach q e' Hq) as (n & Hn & Hslot). exists n. split.
    { apply reaches_fmap; [|done]. intros v. apply Hfe. }
    rewrite (slot_at_length _ (tb_indices t)) by done.
    rewrite list_lookup_fmap, Hslot. cbn. unfold f.
    destruct (Z.eqb_spec (Z.of_nat q) (Z.of_nat p)); [lia|done].
  - intros e' He'. apply Hhash. unfold tb_live in *. cbn [tb_ents] in He'.
    apply list_elem_of_omap in He' as (o & Ho & Heq). cbn in Heq. subst o.
    apply list_elem_of_lookup in Ho as [q [(_ & ? & _)|[_ Hq]]%list_lookup_insert_Some]; [done|].
    apply list_elem_of_omap. exists (Some e'). split; [|done]. by eapply list_elem_of_lookup_2.
Qed.

Lemma tb_remove_wf t i :
  tb_wf eh t → (i < length (tb_live t))%nat →
  tb_wf eh (tb_remove t i) ∧ tb_live (tb_remove t i) = delete i (tb_live t).
Proof.
  intros Hwf [e He]%lookup_lt_is_Some_2. split.
  - eapply tb_remove_at_wf; [done|]. by apply live_pos_lookup.
  - by eapply live_pos_delete.
Qed.

Lemma trim_length (ents : list (option E)) : (length (trim ents) <= length ents)%nat.
Proof.
  induction ents as [|[e|] ents IH]; cbn [trim]; [done| |].
  - cbn [length]. lia.
  - destruct (trim ents); cbn [length] in *; lia.
Qed.

Lemma trim_lookup (ents : list (option E)) p e :
  trim ents !! p = Some (Some e) ↔ ents !! p = Some (Some e).
Proof.
  revert p. induction ents as [|o ents IH]; intros p; [done|].
  cbn [trim]. destruct p as [|p].
  - destruct o, (trim ents); done.
  - change ((o :: ents) !! S p) with (ents !! p). rewrite <- IH.
    destruct o, (trim ents); done.
Qed.

Lemma trim_live (ents : list (option E)) : omap id (trim ents) = omap id ents.
Proof.
  induction ents as [|[e|] ents IH]; cbn [trim]; [done| |].
  - cbn. by rewrite IH.
  - destruct (trim ents); by cbn in *.
Qed.

Lemma trim_last (ents : list (option E)) : last (trim ents) ≠ Some None.
Proof.
  induction ents as [|o ents IH]; cbn [trim]; [done|].
  destruct o, (trim ents) eqn:Ht; cbn in *; try done.
Qed.

Lemma tb_trim_wf t : tb_wf eh t → tb_wf eh (tb_trim t) ∧ tb_live (tb_trim t) = tb_live t.
Proof.
  intros Hwf. split; [|apply trim_live].
  destruct Hwf as [Hs Hus Hent Hfill Hentry Hinj Hreach Hhash].
  split; cbn [tb_trim tb_indices tb_ents tb_usable]; try done.
  - destruct Hs as [?|(? & Hnil & ?)]; [by left|right]. by rewrite Hnil.
  - pose proof (trim_length (tb_ents t)). unfold vlen in *. lia.
  - intros s v Hv. destruct (Hentry s v Hv) as [?|[?|(? & e & He)]]; [by auto..|].
    right; right. split; [done|]. exists e. by apply trim_lookup.
  - intros p e He. apply Hreach. by rewrite <- trim_lookup.
  - intros e. unfold tb_live. cbn [tb_ents tb_trim]. rewrite trim_live. apply Hhash.
Qed.

Lemma tb_pop_wf t :
  tb_wf eh t → tb_live t ≠ [] →
  tb_wf eh (tb_pop t) ∧ tb_live (tb_pop t) = delete (length (tb_live t) - 1)%nat (tb_live t).
Proof.
  intros Hwf Hne. unfold tb_pop.
  destruct (tb_remove_wf t (length (tb_live t) - 1)) as [H1 H2]; [done| |].
  { destruct (tb_live t); [done|cbn; lia]. }
  destruct (tb_trim_wf _ H1) as [? ->]. done.
Qed.
End preserve.
