(* ===== verification/DictIndexSpec.v ===== *)
(** [DictPythonHashIndex] implements the abstract table: every operation of
    DictIndex.v, run on the index that represents a well-formed table, returns
    the index that represents the abstract result. *)

From S2P Require Import Prelude ReplaySeq Probe DictIndex DictTable.

(** ** Lookups in a well-formed table *)

Section lookups.
Context {E : Type} (eh : E → Z) (t : table E) (h : Z).
Context (Hwf : tb_wf eh t) (Hsized : sized (tb_indices t)) (Hh : u64_range h).

(** The live entry that slot value [v] names. *)
Definition entry_at (v : Z) : option E :=
  if 0 <=? v then mjoin (tb_ents t !! Z.to_nat v) else None.

Lemma entry_at_Some v e : entry_at v = Some e ↔ 0 ≤ v ∧ tb_ents t !! Z.to_nat v = Some (Some e).
Proof using Type.
  unfold entry_at. destruct (Z.leb_spec 0 v).
  - destruct (tb_ents t !! Z.to_nat v) as [[x|]|]; cbn; split; intuition congruence.
  - split; [done|lia].
Qed.

(** Every live entry with hash [h] is met before the first EMPTY. *)
Lemma probe_complete N p e :
  tb_indices t !! slot_at (tb_indices t) h N = Some DICT_INDEX_EMPTY →
  tb_ents t !! p = Some (Some e) → eh e = h →
  ∃ n, (n < N)%nat ∧ tb_indices t !! slot_at (tb_indices t) h n = Some (Z.of_nat p).
Proof using Hwf.
  intros HN Hp Heq. destruct (wf_reach _ _ Hwf p e Hp) as (n & Hr & Hn). rewrite Heq in Hr, Hn.
  exists n. split; [|done]. pose proof (reaches_before _ _ _ _ Hr HN).
  destruct (decide (n = N)) as [->|]; [|lia]. rewrite HN in Hn. injection Hn as Hn.
  unfold DICT_INDEX_EMPTY in Hn. lia.
Qed.

(** A search loop finds a slot whose entry passes the test, or shows that no
    entry passes it. *)
Lemma search_loop (test : Z → res bool) (hits : E → bool) :
  (∀ s v, tb_indices t !! s = Some v → v ≠ DICT_INDEX_EMPTY →
     test v = Ok (match entry_at v with Some e => hits e | None => false end)) →
  (∀ e, e ∈ tb_live t → hits e = true → eh e = h) →
  ∃ r, probe_loop (probe_fuel (length (tb_indices t)))
      (λ (_ : unit) slot,
         v ← vnth (tb_indices t) (Z.to_nat slot);
         if v =? DICT_INDEX_EMPTY then Ok (inr None)
         else hit ← test v; Ok (if (hit : bool) then inr (Some slot) else inl tt))
      (vlen (tb_indices t) - 1) (Z.land h (vlen (tb_indices t) - 1)) h tt = Ok r ∧
  match r with
  | Some slot => ∃ s p e, slot = Z.of_nat s ∧ tb_indices t !! s = Some (Z.of_nat p) ∧
      tb_ents t !! p = Some (Some e) ∧ hits e = true
  | None => ∀ p e, tb_ents t !! p = Some (Some e) → hits e = false
  end.
Proof using Hwf Hsized Hh.
  intros Htest Hhash. set (ix := tb_indices t) in *.
  apply (lookup_loop ix h Hsized (wf_free _ t Hwf Hsized) Hh
    (λ n (_ : unit), ∀ m v e, (m < n)%nat → ix !! slot_at ix h m = Some v →
       entry_at v = Some e → hits e = false) _
    (λ _ slot v, hit ← test v; Ok (if (hit : bool) then inr (Some slot) else inl tt)) (λ _, None)).
  - intros m v e Hm. lia.
  - intros n [] v Hr Hv Hne HI. rewrite (Htest _ _ Hv Hne). cbn [mbind res_bind].
    eexists. split; [done|]. destruct (entry_at v) as [e|] eqn:He; [destruct (hits e) eqn:Hit|].
    + apply entry_at_Some in He as [Hge He]. exists (slot_at ix h n), (Z.to_nat v), e.
      rewrite Z2Nat.id by done. done.
    + intros m v' e' Hm Hv' He'. destruct (decide (m = n)) as [->|]; [congruence|].
      apply (HI m v' e'); [lia|done..].
    + intros m v' e' Hm Hv' He'. destruct (decide (m = n)) as [->|]; [congruence|].
      apply (HI m v' e'); [lia|done..].
  - intros n [] Hr Hv HI p e Hp. destruct (hits e) eqn:Hit; [|done]. exfalso.
    assert (Hin : e ∈ tb_live t).
    { apply list_elem_of_omap. exists (Some e). split; [|done]. by eapply list_elem_of_lookup_2. }
    destruct (probe_complete n p e Hv Hp (Hhash e Hin Hit)) as (m & Hm & Hslot).
    rewrite (HI m (Z.of_nat p) e) in Hit; [done|done|done|].
    apply entry_at_Some. rewrite Nat2Z.id. split; [lia|done].
Qed.
End lookups.

Lemma live_lookup {E} (t : table E) p e : tb_ents t !! p = Some (Some e) → e ∈ tb_live t.
Proof.
  intros Hp. apply list_elem_of_omap. exists (Some e). split; [|done].
  by eapply list_elem_of_lookup_2.
Qed.

Lemma live_position {E} (t : table E) i e :
  tb_live t !! i = Some e → tb_ents t !! live_pos (tb_ents t) i = Some (Some e).
Proof. apply live_pos_lookup. Qed.

Lemma ents_live_index {E} (ents : list (option E)) p e :
  ents !! p = Some (Some e) → ∃ i, omap id ents !! i = Some e ∧ p = live_pos ents i.
Proof.
  revert p. induction ents as [|[x|] ents IH]; intros p Hp; [done|..];
    (destruct p as [|p]; [try done|destruct (IH p Hp) as (i & Hi & ->)]).
  - exists 0%nat. cbn in *. split; [congruence|done].
  - by exists (S i).
  - by exists i.
Qed.

(** Marking the slot of an entry is the abstract removal of that entry. *)
Lemma mark_slot_indices {E} (eh : E → Z) (t : table E) s p :
  tb_wf eh t → tb_indices t !! s = Some (Z.of_nat p) →
  <[s := DICT_INDEX_DUMMY]> (tb_indices t) = tb_indices (tb_remove_at t p).
Proof.
  intros Hwf Hs. cbn. apply list_eq. intros j. rewrite list_lookup_fmap.
  destruct (decide (s = j)) as [<-|Hne].
  - rewrite list_lookup_insert_eq by (by eapply lookup_lt_Some). rewrite Hs. cbn.
    by rewrite Z.eqb_refl.
  - rewrite list_lookup_insert_ne by done. destruct (tb_indices t !! j) as [v|] eqn:Hj; [|done].
    cbn. destruct (Z.eqb_spec v (Z.of_nat p)) as [->|]; [|done].
    destruct Hne. eapply (wf_inj _ _ Hwf); [|done..]. lia.
Qed.

Lemma removed_live_len {E} (t : table E) i :
  (i < length (tb_live t))%nat → vlen (tb_live (tb_remove t i)) = vlen (tb_live t) - 1 ∧
  1 ≤ vlen (tb_live t).
Proof.
  intros Hi. unfold tb_live at 1, tb_remove, tb_remove_at. cbn [tb_ents].
  destruct (lookup_lt_is_Some_2 _ _ Hi) as [e He].
  rewrite (live_pos_delete _ i e) by done. unfold vlen. fold (tb_live t).
  rewrite length_delete by done. lia.
Qed.

Lemma isize_try_from_ok a : a < 2 ^ 63 → isize_try_from a = Some a.
Proof. intros Hlt. unfold isize_try_from. by destruct (Z.ltb_spec a (2 ^ 63)); [|lia]. Qed.

Lemma live_le_ents {E} (t : table E) : vlen (tb_live t) ≤ vlen (tb_ents t).
Proof.
  unfold vlen, tb_live. induction (tb_ents t) as [|[e|] ents IH]; cbn [omap list_omap length id] in *;
    [done|cbn; lia..].
Qed.

(** ** Normal mode: entries are keys *)

Section normal.
Context {K : Type} `{ProbeKeyLaws K}.
Implicit Types t : table K.

#[local] Abbreviation wf := (tb_wf (pk_hash (K := K))).

Definition idx_of t : DictPythonHashIndex K :=
  {| dpi_indices := tb_indices t; dpi_entry_keys := tb_ents t; dpi_replay_metadata := None;
     dpi_usable := tb_usable t; dpi_live_len := vlen (tb_live t);
     dpi_unicode_only := tb_unicode t |}.

Lemma eqb_pos_false a : 0 < a → (a =? 0) = false.
Proof. intros Ha. apply Z.eqb_neq. lia. Qed.

Lemma place_refines t k :
  wf t → 0 < tb_usable t →
  dpi_place_without_resize (idx_of t) k = Ok (idx_of (tb_place pk_hash t k)).
Proof.
  intros Hwf Hu. pose proof (wf_nonempty _ t Hwf Hu) as Hs.
  destruct (place_slot _ t (pk_hash k) Hwf Hs (hash_ok k)) as (n & v & Hi & Hslot & Hv & _ & _).
  pose proof (wf_ents_bound _ t Hwf) as Hb. pose proof (live_le_ents t) as Hl.
  unfold dpi_place_without_resize, idx_of.
  cbn [dpi_usable dpi_replay_metadata dpi_indices dpi_entry_keys dpi_live_len dpi_unicode_only].
  rewrite (eqb_pos_false _ Hu), Hi, bool_decide_true by done.
  cbn [negb rassert mbind res_bind]. rewrite (isize_try_from_ok _ Hb), Nat2Z.id, Hslot.
  cbn [expect mbind res_bind]. rewrite (vset_ok _ _ _ _ Hv). cbn [mbind res_bind].
  rewrite usize_sub_ok by lia. cbn [mbind res_bind].
  rewrite usize_add_ok by (unfold two64; lia). cbn [mbind res_bind].
  unfold tb_place. cbn. rewrite <- Hslot. repeat f_equal.
  unfold tb_live, vlen. cbn. rewrite omap_app, length_app. cbn [omap list_omap length id]. lia.
Qed.

Lemma place_list_refines (ks : list K) t :
  wf t → vlen ks ≤ tb_usable t →
  rfold dpi_place_without_resize (idx_of t) ks = Ok (idx_of (foldl (tb_place pk_hash) t ks)).
Proof.
  revert t. induction ks as [|k ks IH]; intros t Hwf Hle; [done|].
  unfold vlen in *. cbn [length] in Hle. cbn [rfold foldl].
  rewrite place_refines by (done || lia). cbn [mbind res_bind].
  apply IH; [apply tb_place_wf; [done|lia|apply hash_ok]|cbn; lia].
Qed.

Lemma set_unicode_idx b t :
  dpi_set_unicode_only b (idx_of t) =
  idx_of {| tb_indices := tb_indices t; tb_ents := tb_ents t; tb_usable := tb_usable t;
            tb_unicode := b |}.
Proof. done. Qed.

Definition set_unicode {E} (b : bool) (t : table E) : table E :=
  {| tb_indices := tb_indices t; tb_ents := tb_ents t; tb_usable := tb_usable t;
     tb_unicode := b |}.

Lemma rebuild_unicode {E} (eh : E → Z) size b b' es :
  set_unicode b (tb_rebuild eh size b' es) = tb_rebuild eh size b es.
Proof.
  unfold tb_rebuild.
  change (tb_empty size b) with (set_unicode b (tb_empty (E := E) size b')).
  generalize (tb_empty (E := E) size b'). induction es as [|e es IH]; intros t; [done|].
  cbn [foldl]. by rewrite IH.
Qed.

Lemma saturating_mul_3 n : small_len n → saturating_mul n 3 = 3 * n.
Proof. unfold small_len, saturating_mul, usize_max, two64. intros ?. lia. Qed.

Lemma resize_refines t :
  wf t → small_len (vlen (tb_live t)) →
  dpi_resize (idx_of t) (saturating_mul (dpi_live_len (idx_of t)) 3) =
    Ok (idx_of (tb_grow pk_hash (tb_unicode t) t)).
Proof.
  intros Hwf Hlen. cbn [dpi_live_len idx_of]. rewrite saturating_mul_3 by done.
  destruct (target_size_room _ Hlen) as (k & Hk & Heq & Hsize & Hroom).
  unfold dpi_resize. rewrite Heq. cbn [mbind res_bind dpi_replay_metadata idx_of].
  unfold tb_grow, tb_rebuild. rewrite Hsize. fold (idx_of t).
  apply (place_list_refines (tb_live t) (tb_empty (2 ^ k) (tb_unicode t)));
    [by apply tb_empty_wf|cbn; lia].
Qed.

Lemma prepare_general_refines t :
  wf t → small_len (vlen (tb_live t)) →
  dpi_prepare_general_insert (idx_of t) = Ok (idx_of (tb_to_general pk_hash t)).
Proof.
  intros Hwf Hlen. unfold dpi_prepare_general_insert, tb_to_general.
  cbn [dpi_unicode_only idx_of]. fold (idx_of t). destruct (tb_unicode t) eqn:Hu; [|done].
  rewrite (resize_refines t Hwf Hlen), Hu. cbn [mbind res_bind].
  rewrite set_unicode_idx. unfold tb_grow. by rewrite <- (rebuild_unicode _ _ false true).
Qed.

Lemma insert_refines t k :
  wf t → small_len (vlen (tb_live t)) →
  dpi_record_inserted (idx_of t) k = Ok (idx_of (tb_insert pk_hash pk_is_str t k)).
Proof.
  intros Hwf Hlen. unfold dpi_record_inserted. rewrite tb_insert_room.
  destruct (tb_room_wf pk_hash pk_is_str t k Hwf Hlen) as (Hwfr & _ & Hur & _).
  assert (H1 : (if dpi_unicode_only (idx_of t) && negb (pk_is_str k)
     then dpi_prepare_general_insert (idx_of t) else Ok (idx_of t)) =
     Ok (idx_of (if pk_is_str k then t else tb_to_general pk_hash t))).
  { destruct (pk_is_str k); [by rewrite andb_false_r|]. rewrite andb_true_r.
    rewrite (prepare_general_refines t Hwf Hlen). unfold tb_to_general. cbn.
    by destruct (tb_unicode t). }
  rewrite H1. cbn [mbind res_bind].
  set (t1 := if pk_is_str k then t else tb_to_general pk_hash t).
  assert (Hwf1 : wf t1 ∧ vlen (tb_live t1) = vlen (tb_live t)).
  { subst t1. destruct (pk_is_str k); [done|].
    destruct (tb_to_general_wf _ t Hwf Hlen) as (? & -> & _). done. }
  destruct Hwf1 as [Hwf1 Hl1].
  assert (H2 : (if dpi_usable (idx_of t1) =? 0
     then dpi_resize (idx_of t1) (saturating_mul (dpi_live_len (idx_of t1)) 3)
     else Ok (idx_of t1)) = Ok (idx_of (tb_room pk_hash pk_is_str t k))).
  { rewrite resize_refines by (done || by rewrite Hl1). unfold tb_room. fold t1. cbn [dpi_usable idx_of].
    by destruct (tb_usable t1 =? 0). }
  rewrite H2. cbn [mbind res_bind]. by apply place_refines.
Qed.

Lemma insert_list_refines (ks : list K) t :
  wf t → small_len (vlen (tb_live t) + vlen ks) →
  rfold dpi_record_inserted (idx_of t) ks =
    Ok (idx_of (foldl (tb_insert pk_hash pk_is_str) t ks)).
Proof.
  revert t. induction ks as [|k ks IH]; intros t Hwf Hlen; [done|].
  assert (Hl : small_len (vlen (tb_live t))) by (unfold small_len, vlen in *; cbn in Hlen; lia).
  cbn [rfold foldl]. rewrite insert_refines by done. cbn [mbind res_bind].
  destruct (tb_insert_wf pk_hash pk_is_str t k Hwf Hl (hash_ok k)) as (Hwf' & Hl' & _).
  apply IH; [done|]. rewrite Hl'. unfold small_len, vlen in *. rewrite length_app. cbn in *. lia.
Qed.

Definition valid_size (size : Z) : Prop := size = 0 ∨ ∃ k, 3 ≤ k ≤ 63 ∧ size = 2 ^ k.

Lemma empty_refines size unicode :
  0 ≤ size →
  dpi_set_unicode_only unicode (dpi_with_table_size (K := K) size) = idx_of (tb_empty size unicode).
Proof.
  intros Hs. unfold dpi_with_table_size, tb_empty. destruct (Z.eqb_spec size 0) as [->|]; done.
Qed.

Lemma empty_wf {E} (eh : E → Z) size unicode : valid_size size → tb_wf eh (tb_empty size unicode).
Proof.
  intros [->|(k & Hk & ->)]; [|by apply tb_empty_wf].
  split; cbn; try done.
  - by right.
  - by intros e ?%not_elem_of_nil.
Qed.

(** The table built by inserting [ks] in order, then converted if the dict's
    kind says so. *)
Definition tb_from {E} (eh : E → Z) (estr : E → bool) (ks : list E) (size : Z)
    (initial_unicode current_unicode : bool) : table E :=
  let t : table E := foldl (tb_insert eh estr) (tb_empty size initial_unicode) ks in
  if current_unicode then t else tb_to_general eh t.

Lemma insert_list_wf {E} (eh : E → Z) estr (es : list E) (t : table E) :
  tb_wf eh t → small_len (vlen (tb_live t) + vlen es) → Forall (λ e, u64_range (eh e)) es →
  tb_wf eh (foldl (tb_insert eh estr) t es) ∧
  tb_live (foldl (tb_insert eh estr) t es) = tb_live t ++ es ∧
  tb_unicode (foldl (tb_insert eh estr) t es) = tb_unicode t && forallb estr es.
Proof.
  revert t. induction es as [|e es IH]; intros t Hwf Hlen Hall; cbn [foldl forallb].
  { by rewrite app_nil_r, andb_true_r. }
  apply Forall_cons in Hall as [He Hall].
  assert (Hl : small_len (vlen (tb_live t))) by (unfold small_len, vlen in *; cbn in Hlen; lia).
  destruct (tb_insert_wf eh estr t e Hwf Hl He) as (Hwf' & Hl' & Hu').
  destruct (IH (tb_insert eh estr t e)) as (? & -> & ->); [done| |done|].
  { rewrite Hl'. unfold small_len, vlen in *. rewrite length_app. cbn in *. lia. }
  rewrite Hl', Hu', <- app_assoc, andb_assoc. done.
Qed.

Lemma tb_from_wf {E} (eh : E → Z) estr (es : list E) size iu cu :
  valid_size size → small_len (vlen es) → Forall (λ e, u64_range (eh e)) es →
  tb_wf eh (tb_from eh estr es size iu cu) ∧ tb_live (tb_from eh estr es size iu cu) = es ∧
  tb_unicode (tb_from eh estr es size iu cu) = iu && forallb estr es && cu.
Proof.
  intros Hsize Hlen Hall.
  destruct (insert_list_wf eh estr es (tb_empty size iu)) as (H1 & H2 & H3);
    [by apply empty_wf|done|done|].
  unfold tb_from. cbn [tb_unicode tb_empty] in H3. destruct cu; [by rewrite andb_true_r|].
  rewrite andb_false_r. destruct (tb_to_general_wf eh _ H1) as (? & -> & ?); [by rewrite H2|done].
Qed.

Lemma from_entries_refines (ks : list K) size iu cu :
  valid_size size → small_len (vlen ks) →
  dpi_from_entries ks size iu cu = Ok (idx_of (tb_from pk_hash pk_is_str ks size iu cu)).
Proof.
  intros Hsize Hlen. unfold dpi_from_entries.
  rewrite empty_refines by (destruct Hsize as [->|(k & ? & ->)]; lia).
  rewrite insert_list_refines by (done || by apply empty_wf).
  cbn [mbind res_bind dpi_unicode_only idx_of]. unfold tb_from.
  destruct (insert_list_wf pk_hash pk_is_str ks (tb_empty size iu)) as (H1 & H2 & H3);
    [by apply empty_wf|done|apply hashes_ok|].
  cbn in H2. set (t := foldl (tb_insert pk_hash pk_is_str) (tb_empty size iu) ks) in *.
  fold (idx_of t).
  destruct cu; [done|]. cbn [negb andb]. rewrite <- prepare_general_refines; [|done|by rewrite H2].
  unfold dpi_prepare_general_insert. cbn [dpi_unicode_only idx_of]. by destruct (tb_unicode t).
Qed.

Lemma live_test t s v (test : K → res bool) (hits : K → bool) :
  wf t → tb_indices t !! s = Some v → v ≠ DICT_INDEX_EMPTY →
  (∀ e, test e = Ok (hits e)) →
  (if 0 <=? v then
     live ← dpi_entry_is_live (idx_of t) (Z.to_nat v);
     if (live : bool) then
       stored ← vnth (dpi_entry_keys (idx_of t)) (Z.to_nat v);
       match stored with Some stored => test stored | None => Ok false end
     else Ok false
   else Ok false) = Ok (match entry_at t v with Some e => hits e | None => false end).
Proof.
  intros Hwf Hv Hne Ht. unfold entry_at.
  destruct (wf_entry _ _ Hwf s v Hv) as [?|[->|(Hge & e & He)]]; [done|done|].
  rewrite (proj2 (Z.leb_le 0 v) Hge).
  cbn [dpi_entry_is_live dpi_replay_metadata idx_of dpi_entry_keys].
  rewrite (vnth_lookup _ _ _ He). cbn [mbind res_bind].
  rewrite bool_decide_true by done. rewrite He. cbn. apply Ht.
Qed.

Lemma exact_slot_search t k :
  wf t →
  ∃ r, dpi_exact_slot (idx_of t) k = Ok r ∧
  match r with
  | Some slot => ∃ s p e, slot = Z.of_nat s ∧ tb_indices t !! s = Some (Z.of_nat p) ∧
      tb_ents t !! p = Some (Some e) ∧ pk_eqb e k = true
  | None => ∀ e, e ∈ tb_live t → pk_eqb e k = false
  end.
Proof.
  intros Hwf. unfold dpi_exact_slot. cbn [dpi_indices idx_of]. fold (idx_of t).
  destruct (wf_size _ _ Hwf) as [Hs|(Hi & He & _)].
  - rewrite nonempty_ok, mask_ok by done. cbn [mbind res_bind].
    destruct (search_loop pk_hash t (pk_hash k) Hwf Hs (hash_ok k)
      (λ v, if 0 <=? v then
          live ← dpi_entry_is_live (idx_of t) (Z.to_nat v);
          if (live : bool) then
            stored ← vnth (dpi_entry_keys (idx_of t)) (Z.to_nat v);
            Ok (match stored with Some stored => pk_eqb stored k | None => false end)
          else Ok false
        else Ok false) (λ e, pk_eqb e k)) as (r & Hr & Hres).
    + intros s v Hv Hne.
      rewrite <- (live_test t s v (λ e, Ok (pk_eqb e k)) (λ e, pk_eqb e k) Hwf Hv Hne) by done.
      destruct (0 <=? v); [|done]. destruct (dpi_entry_is_live _ _) as [[]| |]; [|done..].
      cbn. by destruct (vnth _ _) as [[]| |].
    + intros e _ He. by apply pk_eqb_hash.
    + exists r. split; [exact Hr|]. destruct r; [done|].
      intros e (o & Ho & Heq)%list_elem_of_omap. cbn in Heq. subst o.
      apply list_elem_of_lookup in Ho as [p Hp]. by eapply Hres.
  - rewrite Hi. cbn. eexists. split; [done|]. cbn. intros e. unfold tb_live. rewrite He. cbn.
    by intros ?%not_elem_of_nil.
Qed.

(** A stored key is found at the slot that names its entry. *)
Lemma exact_slot_hit t i k k' :
  wf t → distinct (tb_live t) → tb_live t !! i = Some k' → pk_eqb k' k = true →
  ∃ s, dpi_exact_slot (idx_of t) k = Ok (Some (Z.of_nat s)) ∧
    tb_indices t !! s = Some (Z.of_nat (live_pos (tb_ents t) i)).
Proof.
  intros Hwf Hd Hi Hk. destruct (exact_slot_search t k Hwf) as (r & Hr & Hres).
  destruct r as [slot|].
  - destruct Hres as (s & p & e & -> & Hs & Hp & He). exists s. split; [done|].
    rewrite Hs. do 2 f_equal.
    destruct (ents_live_index (tb_ents t) p e Hp) as (j & Hj & ->).
    f_equal. apply (Hd j i e k'); [done|done|].
    apply (pk_eqb_trans e k k'); [done|by apply pk_eqb_sym].
  - exfalso. rewrite (Hres k') in Hk; [done|]. by eapply list_elem_of_lookup_2.
Qed.

Lemma as_u64_of_nat (n : nat) : Z.of_nat n < two64 → Z.to_nat (as_u64 (Z.of_nat n)) = n.
Proof. intros Hn. rewrite as_u64_id by (split; lia). apply Nat2Z.id. Qed.

Lemma mark_slot_refines t i s :
  wf t → (i < length (tb_live t))%nat →
  tb_indices t !! s = Some (Z.of_nat (live_pos (tb_ents t) i)) →
  dpi_mark_slot_removed (idx_of t) (Z.of_nat s) = Ok (idx_of (tb_remove t i)).
Proof.
  intros Hwf Hi Hs. destruct (removed_live_len t i Hi) as [Hlive Hpos].
  pose proof (live_pos_lt (tb_ents t) i Hi) as Hp.
  pose proof (wf_ents_bound _ t Hwf) as Hb.
  destruct (lookup_lt_is_Some_2 _ _ Hp) as [o Ho].
  unfold dpi_mark_slot_removed. cbn [dpi_indices dpi_entry_keys dpi_replay_metadata dpi_live_len
    dpi_usable dpi_unicode_only idx_of].
  rewrite Nat2Z.id, (vnth_lookup _ _ _ Hs). cbn [mbind res_bind].
  rewrite as_u64_of_nat by (unfold vlen, two64 in *; lia).
  rewrite (vset_ok _ _ _ _ Hs), (vset_ok _ _ _ _ Ho). cbn [mbind res_bind].
  rewrite usize_sub_ok by lia. cbn [mbind res_bind].
  rewrite (mark_slot_indices _ t s _ Hwf Hs), <- Hlive. done.
Qed.

Lemma record_removed_refines t i k k' :
  wf t → distinct (tb_live t) → tb_live t !! i = Some k' → pk_eqb k' k = true →
  dpi_record_removed (idx_of t) k = Ok (idx_of (tb_remove t i)).
Proof.
  intros Hwf Hd Hi Hk. destruct (exact_slot_hit t i k k' Hwf Hd Hi Hk) as (s & Hr & Hs).
  unfold dpi_record_removed. rewrite Hr. cbn [mbind res_bind].
  apply mark_slot_refines; [done| |done]. by eapply lookup_lt_Some.
Qed.

(** [removelast] down to the last live entry is [trim]. *)
Lemma trim_snoc_live {E} (ents : list (option E)) e : trim (ents ++ [Some e]) = ents ++ [Some e].
Proof.
  induction ents as [|o ents IH]; [done|]. cbn [app trim]. rewrite IH. by destruct o, ents.
Qed.

Lemma trim_snoc_dead {E} (ents : list (option E)) : trim (ents ++ [None]) = trim ents.
Proof. induction ents as [|o ents IH]; [done|]. cbn [app trim]. by rewrite IH. Qed.

Definition with_ents {E} (ents : list (option E)) (t : table E) : table E :=
  {| tb_indices := tb_indices t; tb_ents := ents; tb_usable := tb_usable t;
     tb_unicode := tb_unicode t |}.

Lemma truncate_refines t fuel :
  (length (tb_ents t) < fuel)%nat →
  dpi_truncate_loop fuel (idx_of t) = Ok (idx_of (tb_trim t)).
Proof.
  revert t. induction fuel as [|fuel IH]; intros t Hf; [lia|].
  destruct t as [ix ents us u]. unfold tb_trim. cbn [tb_ents] in *.
  destruct ents as [|o ents _] using rev_ind; [done|].
  rewrite length_app in Hf. cbn in Hf.
  cbn [dpi_truncate_loop idx_of dpi_entry_keys tb_ents].
  rewrite last_snoc, length_app. cbn [length].
  unfold dpi_entry_is_live. cbn [dpi_replay_metadata dpi_entry_keys].
  replace (length ents + 1 - 1)%nat with (length ents) by lia.
  erewrite vnth_lookup by (by apply list_lookup_middle). cbn [mbind res_bind].
  destruct o as [k|].
  - rewrite bool_decide_true by done. rewrite trim_snoc_live. done.
  - rewrite bool_decide_false by (by intros [? ?]).
    rewrite trim_snoc_dead, removelast_last.
    cbn [dpi_indices dpi_usable dpi_live_len dpi_unicode_only tb_indices tb_usable tb_unicode].
    specialize (IH {| tb_indices := ix; tb_ents := ents; tb_usable := us; tb_unicode := u |}).
    cbn [tb_ents] in IH. unfold tb_trim in IH. cbn in IH. rewrite <- IH by lia.
    f_equal. unfold idx_of. cbn. f_equal.
    unfold vlen, tb_live. cbn. rewrite omap_app. cbn. by rewrite app_nil_r.
Qed.

Lemma record_popped_refines t k k' :
  wf t → distinct (tb_live t) → last (tb_live t) = Some k' → pk_eqb k' k = true →
  dpi_record_popped (idx_of t) k = Ok (idx_of (tb_pop t)).
Proof.
  intros Hwf Hd Hlast Hk. unfold dpi_record_popped, tb_pop.
  rewrite (record_removed_refines t (length (tb_live t) - 1) k k' Hwf Hd);
    [|by rewrite <- Hlast, last_lookup, <- Nat.sub_1_r|done].
  cbn [mbind res_bind]. apply truncate_refines. cbn. rewrite !length_insert. lia.
Qed.

(** The live key that slot value [v] names, if its hash is [h]. *)
Definition hash_match t (h v : Z) : option K :=
  match entry_at t v with
  | Some e => if pk_hash e =? h then Some e else None
  | None => None
  end.

(** The keys of hash [h] met by the first [n] steps of the probe, in order. *)
Definition probe_seen t (h : Z) (n : nat) : list K :=
  omap (λ m, v ← tb_indices t !! slot_at (tb_indices t) h m; hash_match t h v) (seq 0 n).

Lemma hash_match_refines t h s v :
  wf t → tb_indices t !! s = Some v → v ≠ DICT_INDEX_EMPTY →
  dpi_hash_match (idx_of t) v h = Ok (hash_match t h v).
Proof.
  intros Hwf Hv Hne. unfold dpi_hash_match, hash_match, entry_at.
  destruct (wf_entry _ _ Hwf s v Hv) as [?|[->|(Hge & e & He)]]; [done|done|].
  rewrite (proj2 (Z.leb_le 0 v) Hge).
  cbn [dpi_entry_is_live dpi_replay_metadata idx_of dpi_entry_keys].
  rewrite (vnth_lookup _ _ _ He). cbn [mbind res_bind].
  rewrite bool_decide_true by done. rewrite He. cbn. done.
Qed.

Lemma probe_seen_S t h n v :
  tb_indices t !! slot_at (tb_indices t) h n = Some v →
  probe_seen t h (S n) = probe_seen t h n ++ option_list (hash_match t h v).
Proof.
  intros Hv. unfold probe_seen. rewrite seq_S, omap_app. cbn [omap list_omap Nat.add].
  rewrite Hv. cbn. by destruct (hash_match t h v).
Qed.

Lemma probe_seen_all t h N k :
  wf t → tb_indices t !! slot_at (tb_indices t) h N = Some DICT_INDEX_EMPTY →
  k ∈ probe_seen t h N ↔ k ∈ tb_live t ∧ pk_hash k = h.
Proof.
  intros Hwf HN. unfold probe_seen. rewrite list_elem_of_omap. split.
  - intros (m & _ & Hm). apply bind_Some in Hm as (v & Hv & Hm). unfold hash_match in Hm.
    destruct (entry_at t v) as [e|] eqn:He; [|done].
    destruct (Z.eqb_spec (pk_hash e) h) as [Hh|]; [|done]. injection Hm as <-.
    apply entry_at_Some in He as [_ He]. split; [by eapply live_lookup|done].
  - intros [(o & Ho & Heq)%list_elem_of_omap Hh]. cbn in Heq. subst o.
    apply list_elem_of_lookup in Ho as [p Hp].
    destruct (probe_complete pk_hash t h Hwf N p k HN Hp Hh) as (n & Hlt & Hn).
    exists n. split; [apply elem_of_seq; lia|]. rewrite Hn. cbn. unfold hash_match.
    rewrite (proj2 (entry_at_Some t (Z.of_nat p) k)) by (rewrite Nat2Z.id; split; [lia|done]).
    by rewrite Hh, Z.eqb_refl.
Qed.

Lemma live_nil t : tb_ents t = [] → tb_live t = [].
Proof. unfold tb_live. by intros ->. Qed.

(** The candidates are the keys that the probe meets up to the first EMPTY. *)
Lemma candidates_probe t h :
  wf t → sized (tb_indices t) → u64_range h →
  ∃ N, tb_indices t !! slot_at (tb_indices t) h N = Some DICT_INDEX_EMPTY ∧
    reaches (tb_indices t) h N ∧ dpi_candidates (idx_of t) h = Ok (probe_seen t h N).
Proof.
  intros Hwf Hs Hh. unfold dpi_candidates. cbn [dpi_indices idx_of]. fold (idx_of t).
  rewrite nonempty_ok, mask_ok by done. cbn [mbind res_bind].
  edestruct (lookup_loop (tb_indices t) h Hs (wf_free _ t Hwf Hs) Hh
    (λ n cs, cs = probe_seen t h n)
    (λ cs, ∃ N, tb_indices t !! slot_at (tb_indices t) h N = Some DICT_INDEX_EMPTY ∧
       reaches (tb_indices t) h N ∧ cs = probe_seen t h N)
    (λ cs slot v, key ← dpi_hash_match (idx_of t) v h;
       Ok (inl (match key with Some key => cs ++ [key] | None => cs end))) (λ cs, cs))
    as (cs & Hr & N & HN & HrN & ->); [done|..].
  - intros n cs v Hr Hv Hne ->. rewrite (hash_match_refines t h _ v Hwf Hv Hne).
    cbn [mbind res_bind]. eexists. split; [done|]. cbn beta iota. rewrite (probe_seen_S t h n v Hv).
    destruct (hash_match t h v); cbn; by rewrite ?app_nil_r.
  - intros n cs Hr Hv ->. eauto.
  - exists N. split_and!; [done|done|]. exact Hr.
Qed.

Lemma candidates_spec t h :
  wf t → u64_range h →
  ∃ cs, dpi_candidates (idx_of t) h = Ok cs ∧
    ∀ k, k ∈ cs ↔ k ∈ tb_live t ∧ pk_hash k = h.
Proof.
  intros Hwf Hh. destruct (wf_size _ _ Hwf) as [Hs|(Hi & He & _)].
  - destruct (candidates_probe t h Hwf Hs Hh) as (N & HN & _ & Hr).
    eexists. split; [exact Hr|]. intros k. by apply probe_seen_all.
  - exists []. unfold dpi_candidates. cbn. rewrite Hi. split; [done|].
    intros k. rewrite (live_nil t He). split; [by intros ?%not_elem_of_nil|by intros [?%not_elem_of_nil _]].
Qed.

Lemma has_candidate_spec t h predicate :
  wf t → u64_range h →
  ∃ b, dpi_has_candidate (idx_of t) h predicate = Ok b ∧
    (b = true ↔ ∃ k, k ∈ tb_live t ∧ pk_hash k = h ∧ predicate k = true).
Proof.
  intros Hwf Hh. unfold dpi_has_candidate. cbn [dpi_indices idx_of]. fold (idx_of t).
  destruct (wf_size _ _ Hwf) as [Hs|(Hi & He & _)].
  2: { rewrite Hi. cbn. eexists. split; [done|]. rewrite (live_nil t He). split; [done|].
       by intros (k & ?%not_elem_of_nil & _). }
  rewrite nonempty_ok, mask_ok by done. cbn [mbind res_bind].
  apply (lookup_loop (tb_indices t) h Hs (wf_free _ t Hwf Hs) Hh
    (λ n (_ : unit), ∀ k, k ∈ probe_seen t h n → predicate k = false)
    (λ b : bool, b = true ↔ ∃ k, k ∈ tb_live t ∧ pk_hash k = h ∧ predicate k = true)
    (λ _ slot v, key ← dpi_hash_match (idx_of t) v h;
       Ok (match key with
           | Some key => if predicate key then inr true else inl tt
           | None => inl tt
           end)) (λ _, false)).
  - intros k. by intros ?%not_elem_of_nil.
  - intros n [] v Hr Hv Hne HI. rewrite (hash_match_refines t h _ v Hwf Hv Hne).
    cbn [mbind res_bind]. eexists. split; [done|].
    pose proof (probe_seen_S t h n v Hv) as HS.
    destruct (hash_match t h v) as [k|] eqn:Hm; [destruct (predicate k) eqn:Hp|].
    + split; [|done]. intros _. exists k. unfold hash_match in Hm.
      destruct (entry_at t v) as [e|] eqn:He; [|done].
      destruct (Z.eqb_spec (pk_hash e) h) as [Hhe|]; [|done]. injection Hm as <-.
      apply entry_at_Some in He as [_ He]. split; [by eapply live_lookup|done].
    + cbn beta iota. intros k'. rewrite HS, elem_of_app. intros [?|Hin]; [by apply HI|].
      by apply list_elem_of_singleton in Hin as ->.
    + cbn beta iota. intros k'. rewrite HS, elem_of_app. intros [?|Hin%not_elem_of_nil]; [by apply HI|done].
  - intros n [] Hr Hv HI. split; [done|]. intros (k & Hin & Hhk & Hp).
    rewrite (HI k) in Hp; [done|]. by apply probe_seen_all.
Qed.

(** A sparse copy reinserts the live entries into one presized table. *)
Definition tb_compacted t : table K :=
  tb_rebuild pk_hash
    (default 0 (res_to_option (dpi_sparse_copy_table_size (vlen (tb_live t)))))
    (tb_unicode t) (tb_live t).

Lemma sparse_copy_size n :
  small_len n →
  ∃ k, 3 ≤ k ≤ 63 ∧ dpi_sparse_copy_table_size n = Ok (2 ^ k) ∧
    n ≤ dict_probe_usable_fraction (2 ^ k).
Proof.
  intros Hn. unfold dpi_sparse_copy_table_size. rewrite saturating_mul_3 by done.
  unfold small_len in Hn. unfold saturating_add, usize_max, two64. rewrite Z.min_r by lia.
  pose proof (Z.div_mod (3 * n + 1) 2). pose proof (Z.mod_pos_bound (3 * n + 1) 2).
  destruct (table_size_for_target_spec ((3 * n + 1) / 2)) as (k & Hk & Heq & Hb & Hge); [lia|].
  exists k. split_and!; [lia|lia|done|].
  assert (H8 : 2 ^ 3 ≤ 2 ^ k ≤ 2 ^ 63) by (split; apply Z.pow_le_mono_r; lia).
  change (2 ^ 3) with 8 in H8. pose proof (usable_fraction_bounds (2 ^ k)). lia.
Qed.

Lemma compacted_copy_refines t :
  wf t → small_len (vlen (tb_live t)) →
  dpi_compacted_copy (idx_of t) = Ok (idx_of (tb_compacted t)) ∧ wf (tb_compacted t) ∧
  tb_live (tb_compacted t) = tb_live t.
Proof.
  intros Hwf Hlen. destruct (sparse_copy_size _ Hlen) as (k & Hk & Heq & Hle).
  unfold dpi_compacted_copy, tb_compacted.
  cbn [dpi_replay_metadata dpi_live_len dpi_unicode_only dpi_entry_keys idx_of].
  rewrite bool_decide_true by done. rewrite Heq. cbn [rassert mbind res_bind res_to_option default].
  destruct (rebuild_wf pk_hash k (tb_unicode t) (tb_live t)) as (H1 & H2 & _);
    [done|done|apply hashes_ok|].
  split_and!; [|done|done]. rewrite empty_refines by lia.
  by apply place_list_refines; [apply tb_empty_wf|].
Qed.
End normal.
