(* ===== verification/DictJournal.v ===== *)
(** The deferred mutation journal of a homogeneous dict
    (crates/pyrust-core/src/core/dict_probe_index.rs, [DictDeferredMutation]
    and [DictMutationJournal]): one word of history per deletion or later
    insertion, and the replay that rebuilds the key table from it. *)

From S2P Require Import Prelude ReplaySeq Probe DictIndex.

(** ** Data *)

Definition DICT_MUTATION_KIND_MASK : Z := 3.
Definition DICT_MUTATION_INSERT : Z := 0.
Definition DICT_MUTATION_REMOVE : Z := 1.
Definition DICT_MUTATION_POP : Z := 2.
Definition DICT_MUTATION_IS_STR : Z := 4.
Definition DICT_MUTATION_POSITION_SHIFT : Z := 3.

Record DictDeferredMutation := {
  ddm_python_hash : Z;
  ddm_position_and_flags : Z;
}.

(** [mutations] is a [SmallVec], read here as the list of its elements. *)
Record DictMutationJournal := {
  dmj_mutations : list DictDeferredMutation;
  dmj_non_pop_removals : Z;
  dmj_has_pop : bool;
  dmj_usable : Z;
}.

(** ** A mutation word *)

Definition ddm_inserted : DictDeferredMutation :=
  {| ddm_python_hash := 0; ddm_position_and_flags := DICT_MUTATION_INSERT |}.

Definition ddm_kind (self : DictDeferredMutation) : Z :=
  Z.land (ddm_position_and_flags self) DICT_MUTATION_KIND_MASK.
Definition ddm_position (self : DictDeferredMutation) : Z :=
  Z.shiftr (ddm_position_and_flags self) DICT_MUTATION_POSITION_SHIFT.
Definition ddm_is_str (self : DictDeferredMutation) : bool :=
  negb (Z.land (ddm_position_and_flags self) DICT_MUTATION_IS_STR =? 0).

Definition ddm_removed {K} `{ProbeKey K} (index : Z) (key : K) (popped : bool) :
    res DictDeferredMutation :=
  position ← expect (checked_shl index DICT_MUTATION_POSITION_SHIFT);
  let kind := if popped then DICT_MUTATION_POP else DICT_MUTATION_REMOVE in
  let is_str := (if pk_is_str key then 1 else 0) * DICT_MUTATION_IS_STR in
  Ok {| ddm_python_hash := pk_hash key;
        ddm_position_and_flags := Z.lor (Z.lor position is_str) kind |}.

(** ** The journal *)

(** [while placed < live_len]: one iteration per resize epoch. *)
Fixpoint dmj_epochs (fuel : nat) (live_len usable placed : Z) : res Z :=
  match fuel with
  | O => Diverge
  | S fuel =>
      if placed <? live_len then
        usable ← (if usable =? 0 then
                    current_table_size ← dpi_table_size_for_target (saturating_mul placed 3);
                    usize_sub (dict_probe_usable_fraction current_table_size) placed
                  else Ok usable);
        remaining ← usize_sub live_len placed;
        let batch := Z.min usable remaining in
        placed ← usize_add placed batch;
        usable ← usize_sub usable batch;
        dmj_epochs fuel live_len usable placed
      else Ok usable
  end.

(** Every epoch after the first at least doubles [placed]. *)
Definition dmj_epoch_fuel : nat := 64.

Definition dmj_from_current_entries (initial_table_size live_len : Z) : res DictMutationJournal :=
  usable ← dmj_epochs dmj_epoch_fuel live_len
             (dict_probe_usable_fraction initial_table_size) 0;
  Ok {| dmj_mutations := []; dmj_non_pop_removals := 0; dmj_has_pop := false;
        dmj_usable := usable |}.

Definition dmj_record_inserted (self : DictMutationJournal) (live_len_after : Z) :
    res (DictMutationJournal * option Z) :=
  live_len_before ← usize_sub live_len_after 1;
  '(self, rebased_table_size) ←
    (if dmj_usable self =? 0 then
       table_size ← dpi_table_size_for_target (saturating_mul live_len_before 3);
       usable ← usize_sub (dict_probe_usable_fraction table_size) live_len_before;
       Ok ({| dmj_mutations := []; dmj_non_pop_removals := 0; dmj_has_pop := false;
              dmj_usable := usable |}, Some table_size)
     else Ok (self, None));
  _ ← rassert (negb (dmj_usable self =? 0));
  usable ← usize_sub (dmj_usable self) 1;
  Ok ({| dmj_mutations := if bool_decide (rebased_table_size = None)
                          then dmj_mutations self ++ [ddm_inserted] else dmj_mutations self;
         dmj_non_pop_removals := dmj_non_pop_removals self;
         dmj_has_pop := dmj_has_pop self; dmj_usable := usable |},
      rebased_table_size).

Definition dmj_record_removed {K} `{ProbeKey K} (self : DictMutationJournal) (index : Z)
    (key : K) (popped : bool) : res DictMutationJournal :=
  mutation ← ddm_removed index key popped;
  Ok {| dmj_mutations := dmj_mutations self ++ [mutation];
        dmj_non_pop_removals :=
          if popped then dmj_non_pop_removals self
          else saturating_add (dmj_non_pop_removals self) 1;
        dmj_has_pop := if popped then true else dmj_has_pop self;
        dmj_usable := dmj_usable self |}.

Definition dmj_copy_definitely_preserves_layout (self : DictMutationJournal) (live_len : Z) : bool :=
  let compact_entries_upper := saturating_add live_len (dmj_non_pop_removals self) in
  saturating_mul compact_entries_upper 2 / 3 <=? live_len.

Definition dmj_copy_definitely_compacts_layout (self : DictMutationJournal) (live_len : Z) : bool :=
  if dmj_has_pop self then false
  else
    let compact_entries := saturating_add live_len (dmj_non_pop_removals self) in
    live_len <? saturating_mul compact_entries 2 / 3.

(** ** Materialization *)

Section materialize.
Context {K : Type} `{ProbeKey K}.

(** The current entries, numbered from 0. *)
Definition dmj_initial_state (entries : list K) : res (DictReplaySequence K * Z) :=
  rfold (λ '(state, next_replay_id) key,
           state ← drs_push state
             {| drk_key := Some key; drk_python_hash := pk_hash key;
                drk_is_str := pk_is_str key; drk_replay_id := next_replay_id |};
           Ok (state, wrapping_add next_replay_id 1))
    (drs_with_capacity, 0) entries.

Definition dmj_placeholder (mutation : DictDeferredMutation) (next_replay_id : Z) : DictReplayKey K :=
  {| drk_key := None; drk_python_hash := ddm_python_hash mutation;
     drk_is_str := ddm_is_str mutation; drk_replay_id := next_replay_id |}.

(** One step of the backward loop that undoes the journal. *)
Definition dmj_undo_step
    (st : DictReplaySequence K * Z * list (option (DictReplayKey K)))
    (im : nat * DictDeferredMutation) :
    res (DictReplaySequence K * Z * list (option (DictReplayKey K))) :=
  let '(state, next_replay_id, inserted_keys) := st in
  let '(mutation_index, mutation) := im in
  if ddm_kind mutation =? DICT_MUTATION_INSERT then
    '(state, key) ← drs_pop state;
    key ← expect key;
    inserted_keys ← vset inserted_keys mutation_index (Some key);
    Ok (state, next_replay_id, inserted_keys)
  else if ddm_kind mutation =? DICT_MUTATION_REMOVE then
    state ← drs_insert state (Z.to_nat (ddm_position mutation))
              (dmj_placeholder mutation next_replay_id);
    Ok (state, wrapping_add next_replay_id 1, inserted_keys)
  else if ddm_kind mutation =? DICT_MUTATION_POP then
    state ← drs_push state (dmj_placeholder mutation next_replay_id);
    Ok (state, wrapping_add next_replay_id 1, inserted_keys)
  else Panic.

(** One step of the forward loop that replays the journal on the index. *)
Definition dmj_redo_step
    (st : DictPythonHashIndex K * DictReplaySequence K * list (option (DictReplayKey K)))
    (im : nat * DictDeferredMutation) :
    res (DictPythonHashIndex K * DictReplaySequence K * list (option (DictReplayKey K))) :=
  let '(index, state, inserted_keys) := st in
  let '(mutation_index, mutation) := im in
  if ddm_kind mutation =? DICT_MUTATION_INSERT then
    slot ← vnth inserted_keys mutation_index;
    inserted_keys ← vset inserted_keys mutation_index None;
    key ← expect slot;
    index ← dpi_record_inserted_replay index key;
    state ← drs_push state key;
    Ok (index, state, inserted_keys)
  else if ddm_kind mutation =? DICT_MUTATION_REMOVE then
    '(state, key) ← drs_remove state (Z.to_nat (ddm_position mutation));
    _ ← rassert (drk_python_hash key =? ddm_python_hash mutation);
    index ← dpi_record_removed_replay index key false;
    Ok (index, state, inserted_keys)
  else if ddm_kind mutation =? DICT_MUTATION_POP then
    '(state, key) ← drs_pop state;
    key ← expect key;
    _ ← rassert (drk_python_hash key =? ddm_python_hash mutation);
    index ← dpi_record_removed_replay index key true;
    Ok (index, state, inserted_keys)
  else Panic.

Definition dmj_materialize (self : DictMutationJournal) (entries : list K)
    (initial_table_size : Z) (initial_unicode_only current_unicode_only : bool) :
    res (DictPythonHashIndex K) :=
  '(state, next_replay_id) ← dmj_initial_state entries;
  let inserted_keys := replicate (length (dmj_mutations self)) None in
  '(state, _, inserted_keys) ←
    rfold dmj_undo_step (state, next_replay_id, inserted_keys)
      (reverse (enumerate (dmj_mutations self)));
  index ← dpi_begin_replay
    (dpi_set_unicode_only initial_unicode_only (dpi_with_table_size initial_table_size));
  index ← drs_for_each state dpi_record_inserted_replay index;
  '(index, state, _) ←
    rfold dmj_redo_step (index, state, inserted_keys) (enumerate (dmj_mutations self));
  len ← drs_len state;
  _ ← rassert (len =? length entries)%nat;
  matches_ ← drs_matches_entries pk_eqb state entries;
  _ ← rassert matches_;
  index ← (if negb current_unicode_only && dpi_unicode_only index
           then dpi_prepare_general_insert index else Ok index);
  dpi_finish_replay index.
End materialize.
