(* ===== verification/DictReplaySpec.v ===== *)
(** The replay mode of [DictPythonHashIndex], used while a journal is
    materialized: entries are replay keys, whose key may already be gone.  It
    implements the same abstract table as the normal mode. *)

From S2P Require Import Prelude ReplaySeq Probe DictIndex DictTable DictIndexSpec.

(** ** Tables up to their entries' hash and kind *)

Section shapes.
Context {E F : Type} (eh : E → Z) (estr : E → bool) (fh : F → Z) (fstr : F → bool) (f : E → F).
Context (Hh : ∀ e, fh (f e) = eh e) (Hstr : ∀ e, fstr (f e) = estr e).

Definition tb_map (t : table E) : table F :=
  {| tb_indices := tb_indices t; tb_ents := fmap (M := option) f <$> tb_ents t;
     tb_usable := tb_usable t; tb_unicode := tb_unicode t |}.

Lemma tb_map_live t : tb_live (tb_map t) = f <$> tb_live t.
Proof.
  unfold tb_live. cbn. induction (tb_ents t) as [|[e|] ents IH]; [done|..];
    unfold fmap in *; cbn in *; by rewrite IH.
Qed.

Lemma tb_map_place t e : tb_map (tb_place eh t e) = tb_place fh (tb_map t) (f e).
Proof.
  unfold tb_place, tb_map. cbn. by rewrite fmap_app, Hh, vlen_fmap.
Qed.

Lemma tb_map_places t es : tb_map (foldl (tb_place eh) t es) = foldl (tb_place fh) (tb_map t) (f <$> es).
Proof.
  revert t. induction es as [|e es IH]; intros t; [done|]. cbn. by rewrite IH, tb_map_place.
Qed.

Lemma tb_map_grow u t : tb_map (tb_grow eh u t) = tb_grow fh u (tb_map t).
Proof.
  unfold tb_grow, tb_rebuild. by rewrite tb_map_places, tb_map_live, vlen_fmap.
Qed.

Lemma tb_map_to_general t : tb_map (tb_to_general eh t) = tb_to_general fh (tb_map t).
Proof. unfold tb_to_general. cbn. destruct (tb_unicode t); [apply tb_map_grow|done]. Qed.

Lemma tb_map_insert t e : tb_map (tb_insert eh estr t e) = tb_insert fh fstr (tb_map t) (f e).
Proof.
  unfold tb_insert. rewrite tb_map_place, Hstr.
  assert (H1 : tb_map (if estr e then t else tb_to_general eh t) =
    (if estr e then tb_map t else tb_to_general fh (tb_map t))).
  { destruct (estr e); [done|apply tb_map_to_general]. }
  rewrite <- H1. set (t1 := if estr e then t else _). cbn.
  destruct (tb_usable t1 =? 0); [by rewrite tb_map_grow|done].
Qed.

Lemma tb_map_inserts t es :
  tb_map (foldl (tb_insert eh estr) t es) = foldl (tb_insert fh fstr) (tb_map t) (f <$> es).
Proof.
  revert t. induction es as [|e es IH]; intros t; [done|]. cbn. by rewrite IH, tb_map_insert.
Qed.

Lemma live_pos_map (ents : list (option E)) i :
  live_pos (fmap (M := option) f <$> ents) i = live_pos ents i.
Proof.
  revert i. induction ents as [|[e|] ents IH]; intros i; [done|..]; cbn.
  - destruct i; cbn; [done|]. f_equal. apply IH.
  - f_equal. apply IH.
Qed.

Lemma tb_map_remove t i : tb_map (tb_remove t i) = tb_remove (tb_map t) i.
Proof.
  unfold tb_remove, tb_remove_at, tb_map. cbn. rewrite live_pos_map. f_equal.
  by rewrite list_fmap_insert.
Qed.

Lemma trim_map (ents : list (option E)) :
  trim (fmap (M := option) f <$> ents) = fmap (M := option) f <$> trim ents.
Proof.
  induction ents as [|o ents IH]; [done|].
  rewrite fmap_cons. cbn [trim]. rewrite IH. by destruct o, (trim ents).
Qed.

Lemma tb_map_pop t : tb_map (tb_pop t) = tb_pop (tb_map t).
Proof.
  unfold tb_pop, tb_trim. rewrite tb_map_live, length_fmap, <- tb_map_remove.
  unfold tb_map. cbn. by rewrite trim_map.
Qed.
End shapes.

(** ** Replay mode refines the abstract table *)

Section replay.
Context {K : Type} `{ProbeKeyLaws K}.
Implicit Types t : table (DictReplayKey K).

#[local] Abbreviation rwf := (tb_wf (drk_python_hash (K := K))).
#[local] Abbreviation rplace := (tb_place (drk_python_hash (K := K))).
#[local] Abbreviation rinsert := (tb_insert (drk_python_hash (K := K)) (@drk_is_str K)).

(** A metadata vector holds [f] of every live entry. *)
Definition agrees {X} (f : DictReplayKey K → X) (ents : list (option (DictReplayKey K)))
    (xs : list X) : Prop :=
  Forall2 (λ o x, ∀ e, o = Some e → x = f e) ents xs.

Definition ridx (t : table (DictReplayKey K)) (hashes ids : list Z) : DictPythonHashIndex K :=
  {| dpi_indices := tb_indices t;
     dpi_entry_keys := (λ o, o ≫= drk_key) <$> tb_ents t;
     dpi_replay_metadata := Some
       {| drm_entry_hashes := hashes; drm_entry_replay_ids := ids;
          drm_entry_live := (λ o, bool_decide (is_Some o)) <$> tb_ents t |};
     dpi_usable := tb_usable t; dpi_live_len := vlen (tb_live t);
     dpi_unicode_only := tb_unicode t |}.

Definition replays (idx : DictPythonHashIndex K) (t : table (DictReplayKey K)) : Prop :=
  ∃ hashes ids, idx = ridx t hashes ids ∧
    agrees drk_python_hash (tb_ents t) hashes ∧ agrees drk_replay_id (tb_ents t) ids.

Lemma agrees_snoc {X} (f : DictReplayKey K → X) ents xs e :
  agrees f ents xs → agrees f (ents ++ [Some e]) (xs ++ [f e]).
Proof.
  intros Ha. apply Forall2_app; [done|]. constructor; [|constructor]. congruence.
Qed.

Lemma agrees_kill {X} (f : DictReplayKey K → X) ents xs p :
  agrees f ents xs → agrees f (<[p := None]> ents) xs.
Proof.
  intros Ha. apply Forall2_same_length_lookup_2.
  - rewrite length_insert. by eapply Forall2_length.
  - intros i o x [(_ & <- & _)|[_ Hi]]%list_lookup_insert_Some Hx; [done|].
    by eapply (Forall2_lookup_lr _ _ _ _ _ _ Ha).
Qed.

Lemma agrees_snoc_inv {X} (f : DictReplayKey K → X) ents o xs :
  agrees f (ents ++ [o]) xs → agrees f ents (removelast xs).
Proof.
  intros (xs1 & xs2 & H1 & H2 & ->)%Forall2_app_inv_l.
  apply Forall2_cons_inv_l in H2 as (x & xs3 & _ & ->%Forall2_nil_inv_l & ->).
  by rewrite removelast_last.
Qed.

Lemma agrees_lookup {X} (f : DictReplayKey K → X) ents xs p e :
  agrees f ents xs → ents !! p = Some (Some e) → xs !! p = Some (f e).
Proof.
  intros Ha Hp. destruct (Forall2_lookup_l _ _ _ _ _ Ha Hp) as (x & Hx & Hf).
  rewrite Hx. f_equal. by apply Hf.
Qed.

Lemma place_replays idx t e :
  replays idx t → rwf t → 0 < tb_usable t → u64_range (drk_python_hash e) →
  ∃ idx', dpi_place_without_resize_replay idx (drk_key e) (drk_python_hash e) (drk_replay_id e)
            = Ok idx' ∧ replays idx' (rplace t e).
Proof.
  intros (hashes & ids & -> & Hha & Hia) Hwf Hu Hh.
  pose proof (wf_nonempty _ t Hwf Hu) as Hs.
  destruct (place_slot _ t _ Hwf Hs Hh) as (n & v & Hi & Hslot & Hv & _ & _).
  pose proof (wf_ents_bound _ t Hwf) as Hb. pose proof (live_le_ents t) as Hl.
  unfold dpi_place_without_resize_replay, ridx.
  cbn [dpi_usable dpi_replay_metadata dpi_indices dpi_entry_keys dpi_live_len dpi_unicode_only
    drm_entry_hashes drm_entry_replay_ids drm_entry_live].
  rewrite (eqb_pos_false _ Hu), Hi.
  cbn [negb rassert mbind res_bind expect].
  rewrite vlen_fmap, (isize_try_from_ok _ Hb), Nat2Z.id, Hslot.
  cbn [expect mbind res_bind]. rewrite (vset_ok _ _ _ _ Hv). cbn [mbind res_bind].
  rewrite usize_sub_ok by lia. cbn [mbind res_bind].
  rewrite usize_add_ok by (unfold two64; lia). cbn [mbind res_bind].
  eexists. split; [done|]. exists (hashes ++ [drk_python_hash e]), (ids ++ [drk_replay_id e]).
  split_and!; [|by apply agrees_snoc..].
  unfold ridx, tb_place. cbn. rewrite <- Hslot, !fmap_app. repeat f_equal.
  unfold tb_live, vlen. cbn. rewrite omap_app, length_app. cbn [omap list_omap length id]. lia.
Qed.

Definition rplace_code (idx : DictPythonHashIndex K) (e : DictReplayKey K) :=
  dpi_place_without_resize_replay idx (drk_key e) (drk_python_hash e) (drk_replay_id e).

Lemma place_list_replays es idx t :
  replays idx t → rwf t → vlen es ≤ tb_usable t → Forall (λ e, u64_range (drk_python_hash e)) es →
  ∃ idx', rfold rplace_code idx es = Ok idx' ∧ replays idx' (foldl rplace t es).
Proof.
  revert idx t. induction es as [|e es IH]; intros idx t Hr Hwf Hle Hall; [by eexists|].
  apply Forall_cons in Hall as [He Hall]. unfold vlen in *. cbn [length] in Hle.
  cbn [rfold foldl].
  destruct (place_replays idx t e Hr Hwf ltac:(lia) He) as (idx1 & Heq & Hr1).
  fold (rplace_code idx e) in Heq. rewrite Heq. cbn [mbind res_bind].
  apply IH; [done|apply tb_place_wf; [done|lia|done]|cbn; lia|done].
Qed.

(** The zip of the four vectors visits the live entries. *)
Lemma zip4_live ents hashes ids idx :
  agrees drk_python_hash ents hashes → agrees drk_replay_id ents ids →
  rfold (λ self '(key, python_hash, replay_id, live),
           if (live : bool) then dpi_place_without_resize_replay self key python_hash replay_id
           else Ok self) idx
    (zip4 ((λ o, o ≫= drk_key) <$> ents) hashes ids
       ((λ o, bool_decide (is_Some o)) <$> ents)) =
  rfold rplace_code idx (omap id ents).
Proof.
  revert hashes ids idx. induction ents as [|o ents IH]; intros hashes ids idx Hh Hi.
  { by apply Forall2_nil_inv_l in Hh as ->. }
  apply Forall2_cons_inv_l in Hh as (h & hashes' & Hh & Hhs & ->).
  apply Forall2_cons_inv_l in Hi as (i & ids' & Hi & His & ->).
  rewrite !fmap_cons. cbn [zip4 rfold].
  destruct o as [e|].
  - rewrite bool_decide_true by done. rewrite (Hh e), (Hi e) by done. cbn.
    fold (rplace_code idx e). destruct (rplace_code idx e); cbn; [by apply IH|done..].
  - rewrite bool_decide_false by (by intros [? ?]). cbn. by apply IH.
Qed.

Lemma resize_replays idx t :
  replays idx t → rwf t → small_len (vlen (tb_live t)) →
  ∃ idx', dpi_resize idx (saturating_mul (dpi_live_len idx) 3) = Ok idx' ∧
    replays idx' (tb_grow drk_python_hash (tb_unicode t) t).
Proof.
  intros (hashes & ids & -> & Hha & Hia) Hwf Hlen. cbn [dpi_live_len ridx].
  rewrite saturating_mul_3 by done.
  destruct (target_size_room _ Hlen) as (k & Hk & Heq & Hsize & Hroom).
  unfold dpi_resize. rewrite Heq. cbn [mbind res_bind dpi_replay_metadata ridx].
  cbn [drm_entry_hashes drm_entry_replay_ids drm_entry_live dpi_entry_keys dpi_unicode_only].
  unfold ridx. cbn [dpi_entry_keys dpi_unicode_only]. rewrite zip4_live by done. unfold tb_grow, tb_rebuild. rewrite Hsize.
  apply place_list_replays; [|by apply tb_empty_wf|cbn; lia|by apply wf_live_hash].
  exists [], []. split_and!; [done|constructor..].
Qed.

Lemma replays_set_unicode idx t b :
  replays idx t → replays (dpi_set_unicode_only b idx) (set_unicode b t).
Proof. intros (hashes & ids & -> & ?). by exists hashes, ids. Qed.

Lemma replays_unicode idx t : replays idx t → dpi_unicode_only idx = tb_unicode t.
Proof. by intros (hashes & ids & -> & _). Qed.

Lemma replays_usable idx t : replays idx t → dpi_usable idx = tb_usable t.
Proof. by intros (hashes & ids & -> & _). Qed.

Lemma prepare_general_replays idx t :
  replays idx t → rwf t → small_len (vlen (tb_live t)) →
  ∃ idx', dpi_prepare_general_insert idx = Ok idx' ∧
    replays idx' (tb_to_general drk_python_hash t).
Proof.
  intros Hr Hwf Hlen. unfold dpi_prepare_general_insert, tb_to_general.
  rewrite (replays_unicode _ _ Hr). destruct (tb_unicode t) eqn:Hu; [|by eexists].
  destruct (resize_replays idx t Hr Hwf Hlen) as (idx' & -> & Hr').
  cbn [mbind res_bind]. eexists. split; [done|]. rewrite Hu in Hr'.
  unfold tb_grow in *. rewrite <- (rebuild_unicode _ _ false true). by apply replays_set_unicode.
Qed.

Lemma insert_replays idx t e :
  replays idx t → rwf t → small_len (vlen (tb_live t)) → u64_range (drk_python_hash e) →
  ∃ idx', dpi_record_inserted_replay idx e = Ok idx' ∧ replays idx' (rinsert t e).
Proof.
  intros Hr Hwf Hlen Hh. unfold dpi_record_inserted_replay. rewrite tb_insert_room.
  destruct (tb_room_wf drk_python_hash (@drk_is_str K) t e Hwf Hlen) as (Hwfr & _ & Hur & _).
  set (t1 := if drk_is_str e then t else tb_to_general drk_python_hash t).
  assert (H1 : ∃ idx1, (if dpi_unicode_only idx && negb (drk_is_str e)
     then dpi_prepare_general_insert idx else Ok idx) = Ok idx1 ∧ replays idx1 t1).
  { rewrite (replays_unicode _ _ Hr). subst t1.
    destruct (drk_is_str e); [rewrite andb_false_r; by eexists|]. rewrite andb_true_r.
    destruct (prepare_general_replays idx t Hr Hwf Hlen) as (idx1 & Heq & Hr1).
    destruct (tb_unicode t) eqn:Hu; [by eexists|]. exists idx. split; [done|].
    unfold tb_to_general. by rewrite Hu. }
  destruct H1 as (idx1 & -> & Hr1). cbn [mbind res_bind].
  assert (Hwf1 : rwf t1 ∧ vlen (tb_live t1) = vlen (tb_live t)).
  { subst t1. destruct (drk_is_str e); [done|].
    destruct (tb_to_general_wf _ t Hwf Hlen) as (? & -> & _). done. }
  destruct Hwf1 as [Hwf1 Hl1].
  assert (H2 : ∃ idx2, (if dpi_usable idx1 =? 0
     then dpi_resize idx1 (saturating_mul (dpi_live_len idx1) 3) else Ok idx1) = Ok idx2 ∧
     replays idx2 (tb_room drk_python_hash (@drk_is_str K) t e)).
  { destruct (resize_replays idx1 t1 Hr1 Hwf1 ltac:(by rewrite Hl1)) as (idx2 & Heq & Hr2).
    rewrite (replays_usable _ _ Hr1). unfold tb_room. fold t1.
    destruct (tb_usable t1 =? 0); by eexists. }
  destruct H2 as (idx2 & -> & Hr2). cbn [mbind res_bind]. by apply place_replays.
Qed.

Lemma insert_list_replays es idx t :
  replays idx t → rwf t → small_len (vlen (tb_live t) + vlen es) →
  Forall (λ e, u64_range (drk_python_hash e)) es →
  ∃ idx', rfold dpi_record_inserted_replay idx es = Ok idx' ∧ replays idx' (foldl rinsert t es).
Proof.
  revert idx t. induction es as [|e es IH]; intros idx t Hr Hwf Hlen Hall; [by eexists|].
  apply Forall_cons in Hall as [He Hall].
  assert (Hl : small_len (vlen (tb_live t))) by (unfold small_len, vlen in *; cbn in Hlen; lia).
  cbn [rfold foldl]. destruct (insert_replays idx t e Hr Hwf Hl He) as (idx1 & -> & Hr1).
  cbn [mbind res_bind].
  destruct (tb_insert_wf drk_python_hash (@drk_is_str K) t e Hwf Hl He) as (Hwf' & Hl' & _).
  apply IH; [done|done| |done]. rewrite Hl'. unfold small_len, vlen in *.
  rewrite length_app. cbn in *. lia.
Qed.

Lemma replay_slot_hit idx t i e :
  replays idx t → rwf t → distinct_ids (tb_live t) → tb_live t !! i = Some e →
  ∃ s, dpi_replay_slot idx e = Ok (Some (Z.of_nat s)) ∧
    tb_indices t !! s = Some (Z.of_nat (live_pos (tb_ents t) i)).
Proof.
  intros (hashes & ids & -> & Hha & Hia) Hwf Hd Hi.
  pose proof (live_position t i e Hi) as Hpos.
  pose proof (wf_live_sized _ t _ _ Hwf Hpos) as Hs.
  assert (Hh : u64_range (drk_python_hash e)).
  { apply (wf_hash _ _ Hwf). by eapply list_elem_of_lookup_2. }
  assert (Hone : ∀ e', e' ∈ tb_live t → (drk_replay_id e' =? drk_replay_id e) = true → e' = e).
  { intros e' (j & Hj)%list_elem_of_lookup Heq%Z.eqb_eq.
    pose proof (distinct_ids_eq _ j i e' e Hd Hj Hi Heq) as ->. congruence. }
  unfold dpi_replay_slot, ridx.
  cbn [dpi_indices dpi_replay_metadata expect mbind res_bind].
  rewrite nonempty_ok, mask_ok by done. cbn [mbind res_bind].
  cbn [drm_entry_live drm_entry_replay_ids].
  destruct (search_loop drk_python_hash t (drk_python_hash e) Hwf Hs Hh
    (λ v, if 0 <=? v then
            live ← vnth ((λ o, bool_decide (is_Some o)) <$> tb_ents t) (Z.to_nat v);
            if (live : bool) then
              replay_id ← vnth ids (Z.to_nat v); Ok (replay_id =? drk_replay_id e)
            else Ok false
          else Ok false) (λ e', drk_replay_id e' =? drk_replay_id e)) as (r & Hr & Hres).
  - intros s v Hv Hne. unfold entry_at.
    destruct (wf_entry _ _ Hwf s v Hv) as [?|[->|(Hge & e' & He')]]; [done|done|].
    rewrite (proj2 (Z.leb_le 0 v) Hge), He'.
    rewrite (vnth_lookup ((λ o, bool_decide (is_Some o)) <$> tb_ents t) (Z.to_nat v) true)
      by (by rewrite list_lookup_fmap, He').
    cbn [mbind res_bind].
    rewrite (vnth_lookup _ _ _ (agrees_lookup _ _ _ _ _ Hia He')). done.
  - intros e' Hin Heq. by rewrite (Hone e' Hin Heq).
  - destruct r as [slot|].
    + destruct Hres as (s & p & e' & -> & Hsp & Hp & Heq). exists s. split; [exact Hr|].
      destruct (ents_live_index _ _ _ Hp) as (j & Hj & ->). rewrite Hsp. do 3 f_equal.
      apply Z.eqb_eq in Heq. by apply (distinct_ids_eq (tb_live t) j i e' e).
    + specialize (Hres _ _ Hpos). by rewrite Z.eqb_refl in Hres.
Qed.

Lemma mark_slot_replays idx t i s :
  replays idx t → rwf t → (i < length (tb_live t))%nat →
  tb_indices t !! s = Some (Z.of_nat (live_pos (tb_ents t) i)) →
  ∃ idx', dpi_mark_slot_removed idx (Z.of_nat s) = Ok idx' ∧ replays idx' (tb_remove t i).
Proof.
  intros (hashes & ids & -> & Hha & Hia) Hwf Hi Hs.
  destruct (removed_live_len t i Hi) as [Hlive Hpos].
  pose proof (live_pos_lt (tb_ents t) i Hi) as Hp.
  pose proof (wf_ents_bound _ t Hwf) as Hb.
  destruct (lookup_lt_is_Some_2 _ _ Hp) as [o Ho].
  unfold dpi_mark_slot_removed, ridx. cbn [dpi_indices dpi_entry_keys dpi_replay_metadata
    dpi_live_len dpi_usable dpi_unicode_only drm_entry_live drm_entry_hashes drm_entry_replay_ids].
  rewrite Nat2Z.id, (vnth_lookup _ _ _ Hs). cbn [mbind res_bind].
  rewrite as_u64_of_nat by (unfold vlen, two64 in *; lia).
  rewrite (vset_ok _ _ _ _ Hs). cbn [mbind res_bind].
  erewrite vset_ok by (by rewrite list_lookup_fmap, Ho). cbn [mbind res_bind].
  erewrite vset_ok by (by rewrite list_lookup_fmap, Ho). cbn [mbind res_bind].
  rewrite usize_sub_ok by lia. cbn [mbind res_bind].
  eexists. split; [done|]. exists hashes, ids. split_and!; [|by apply agrees_kill..].
  rewrite (mark_slot_indices _ t s _ Hwf Hs), <- Hlive. unfold ridx. cbn.
  by rewrite !list_fmap_insert.
Qed.

Lemma truncate_replays fuel idx t :
  replays idx t → (length (tb_ents t) < fuel)%nat →
  ∃ idx', dpi_truncate_loop fuel idx = Ok idx' ∧ replays idx' (tb_trim t).
Proof.
  revert idx t. induction fuel as [|fuel IH]; intros idx t (hashes & ids & -> & Hha & Hia) Hf; [lia|].
  destruct t as [ix ents us u]. unfold tb_trim. cbn [tb_ents tb_indices tb_usable tb_unicode] in *.
  destruct ents as [|o ents _] using rev_ind.
  { eexists. split; [done|]. by exists hashes, ids. }
  rewrite length_app in Hf. cbn in Hf.
  unfold ridx. cbn [dpi_truncate_loop dpi_entry_keys tb_ents].
  rewrite !fmap_app, !fmap_cons, !fmap_nil, last_snoc, length_app, length_fmap. cbn [length].
  unfold dpi_entry_is_live.
  cbn [dpi_replay_metadata dpi_entry_keys drm_entry_live drm_entry_hashes drm_entry_replay_ids].
  replace (length ents + 1 - 1)%nat with (length ents) by lia.
  erewrite vnth_lookup by (apply list_lookup_middle; by rewrite length_fmap).
  cbn [mbind res_bind].
  destruct o as [e|].
  - rewrite bool_decide_true by done. rewrite trim_snoc_live. eexists. split; [done|].
    exists hashes, ids. split_and!; [|done..]. unfold ridx. cbn. by rewrite !fmap_app.
  - rewrite bool_decide_false by (by intros [? ?]).
    rewrite trim_snoc_dead, !removelast_last.
    cbn [dpi_indices dpi_usable dpi_live_len dpi_unicode_only tb_indices tb_usable tb_unicode].
    apply (IH _ {| tb_indices := ix; tb_ents := ents; tb_usable := us; tb_unicode := u |});
      [|cbn; lia].
    exists (removelast hashes), (removelast ids). split_and!; [|by eapply agrees_snoc_inv..].
    unfold ridx. cbn. f_equal. unfold vlen, tb_live. cbn. rewrite omap_app. cbn. by rewrite app_nil_r.
Qed.

Lemma removed_replays idx t i e (popped : bool) :
  replays idx t → rwf t → distinct_ids (tb_live t) → tb_live t !! i = Some e →
  (popped = true → i = (length (tb_live t) - 1)%nat) →
  ∃ idx', dpi_record_removed_replay idx e popped = Ok idx' ∧
    replays idx' (if popped then tb_pop t else tb_remove t i).
Proof.
  intros Hr Hwf Hd Hi Hpop.
  destruct (replay_slot_hit idx t i e Hr Hwf Hd Hi) as (s & Hslot & Hs).
  pose proof (lookup_lt_Some _ _ _ Hi) as Hlt.
  destruct (mark_slot_replays idx t i s Hr Hwf Hlt Hs) as (idx1 & Hm & Hr1).
  unfold dpi_record_removed_replay. rewrite Hslot. cbn [mbind res_bind]. rewrite Hm.
  cbn [mbind res_bind]. destruct popped; [|by eexists].
  unfold tb_pop. rewrite <- (Hpop eq_refl). unfold dpi_truncate_popped_entries.
  apply truncate_replays; [done|]. destruct Hr1 as (? & ? & -> & _). cbn.
  rewrite length_fmap. lia.
Qed.

(** Leaving replay mode when every live entry still has its key. *)
Lemma finish_replays idx t (tk : table K) :
  replays idx t →
  tb_indices tk = tb_indices t → tb_usable tk = tb_usable t → tb_unicode tk = tb_unicode t →
  tb_ents tk = (λ o, o ≫= drk_key) <$> tb_ents t →
  (∀ e, e ∈ tb_live t → is_Some (drk_key e)) →
  dpi_finish_replay idx = Ok (idx_of tk).
Proof.
  intros (hashes & ids & -> & _) Hix Hus Hu Hents Hkeys.
  unfold dpi_finish_replay, ridx.
  cbn [dpi_replay_metadata expect mbind res_bind drm_entry_live dpi_entry_keys dpi_indices
    dpi_usable dpi_live_len dpi_unicode_only].
  rewrite !vlen_fmap, Z.eqb_refl. cbn [rassert mbind res_bind].
  rewrite rassert_true; cbn [mbind res_bind].
  - unfold idx_of. rewrite Hix, Hus, Hu, Hents. do 2 f_equal.
    unfold tb_live in *. rewrite Hents. clear Hents Hix Hus Hu.
    induction (tb_ents t) as [|[e|] ents IH]; [done| |].
    + cbn in Hkeys |- *. destruct (Hkeys e) as [k ->]; [by left|]. cbn.
      rewrite !vlen_cons. f_equal. apply IH. intros e' He'. apply Hkeys. by right.
    + cbn in Hkeys |- *. by apply IH.
  - unfold tb_live in Hkeys. clear Hents.
    induction (tb_ents t) as [|[e|] ents IH]; [done| |]; cbn in Hkeys |- *.
    + destruct (Hkeys e) as [k ->]; [by left|].
      cbn. apply IH. intros e' He'. apply Hkeys. by right.
    + by apply IH.
Qed.
End replay.
