(* ===== verification/DictJournalSpec.v ===== *)
(** The deferred journal is exact: replaying it rebuilds the key table that an
    eagerly maintained index would have.

    [history] relates the entries and the table at the start of the journal to
    its mutations and to the current entries and table.  The undo loop turns
    the current entries back into the original sequence (with placeholders for
    deleted keys), the redo loop walks the same path forward on a
    replay-mode index. *)

From S2P Require Import Prelude ReplaySeq Probe DictIndex DictTable DictIndexSpec.
From S2P Require Import DictReplaySpec DictJournal.

(** ** Mutation words *)

Lemma land_shiftl3 x c : Z.land 7 c = c → Z.land (Z.shiftl x 3) c = 0.
Proof.
  intros <-. rewrite Z.land_assoc. change 7 with (Z.ones 3) at 1.
  rewrite Z.land_ones, Z.shiftl_mul_pow2, Z.mod_mul by lia. done.
Qed.

Lemma removed_word {K} `{ProbeKey K} index (key : K) popped :
  0 ≤ index < 2 ^ 61 →
  ∃ m, ddm_removed index key popped = Ok m ∧ ddm_python_hash m = pk_hash key ∧
    ddm_kind m = (if popped then DICT_MUTATION_POP else DICT_MUTATION_REMOVE) ∧
    ddm_position m = index ∧ ddm_is_str m = pk_is_str key.
Proof.
  intros Hi. unfold ddm_removed, checked_shl. cbn [DICT_MUTATION_POSITION_SHIFT Z.ltb Z.compare
    Pos.compare Pos.compare_cont expect mbind res_bind].
  eexists. split; [done|]. cbn [ddm_python_hash]. split; [done|].
  unfold ddm_kind, ddm_position, ddm_is_str. cbn [ddm_position_and_flags].
  unfold DICT_MUTATION_KIND_MASK, DICT_MUTATION_POSITION_SHIFT, DICT_MUTATION_IS_STR,
    DICT_MUTATION_POP, DICT_MUTATION_REMOVE.
  rewrite as_u64_id by (unfold u64_range, two64; rewrite Z.shiftl_mul_pow2; lia).
  rewrite !Z.land_lor_distr_l, !Z.shiftr_lor, !land_shiftl3, Z.shiftr_shiftl_l by done.
  change (3 - 3) with 0. rewrite Z.shiftl_0_r.
  destruct popped, (pk_is_str key); cbn; by rewrite ?Z.lor_0_r.
Qed.

(** ** Histories *)

Section history.
Context {K : Type} `{ProbeKeyLaws K}.

#[local] Abbreviation kinsert := (tb_insert (pk_hash (K := K)) pk_is_str).
#[local] Abbreviation kwf := (tb_wf (pk_hash (K := K))).
#[local] Abbreviation rwf := (tb_wf (drk_python_hash (K := K))).
#[local] Abbreviation rinsert := (tb_insert (drk_python_hash (K := K)) (@drk_is_str K)).

(** [history es0 t0 ms es t]: the journal [ms] leads from the entries [es0]
    with table [t0] to the entries [es] with table [t]. *)
Inductive history (es0 : list K) (t0 : table K) :
    list DictDeferredMutation → list K → table K → Prop :=
  | history_nil : history es0 t0 [] es0 t0
  | history_insert ms es t k :
      history es0 t0 ms es t →
      history es0 t0 (ms ++ [ddm_inserted]) (es ++ [k]) (kinsert t k)
  | history_remove ms es t i k m :
      history es0 t0 ms es t → es !! i = Some k →
      ddm_removed (Z.of_nat i) k false = Ok m →
      history es0 t0 (ms ++ [m]) (delete i es) (tb_remove t i)
  | history_pop ms es t k m :
      history es0 t0 ms (es ++ [k]) t →
      ddm_removed (Z.of_nat (length es)) k true = Ok m →
      history es0 t0 (ms ++ [m]) es (tb_pop t).

(** What a journal may hold without outgrowing its word encodings. *)
Definition journal_fits (es0 : list K) (ms : list DictDeferredMutation) : Prop :=
  small_len (vlen es0 + vlen ms).

Lemma history_live es0 t0 ms es t :
  history es0 t0 ms es t → journal_fits es0 ms → kwf t0 → tb_live t0 = es0 →
  kwf t ∧ tb_live t = es ∧ vlen es ≤ vlen es0 + vlen ms.
Proof.
  intros Hh Hfit Hwf Hl. unfold journal_fits, small_len in Hfit.
  induction Hh as [|ms es t k Hh IH|ms es t i k m Hh IH Hi Hm|ms es t k m Hh IH Hm].
  { split_and!; [done|done|]. pose proof (vlen_nonneg (@nil DictDeferredMutation)). lia. }
  all: rewrite vlen_app in Hfit; rewrite (vlen_app ms); change (vlen [_]) with 1 in *.
  all: pose proof (vlen_nonneg es0); pose proof (vlen_nonneg ms).
  all: destruct IH as (Hwf1 & Hl1 & Hlen); [lia|].
  - destruct (tb_insert_wf pk_hash pk_is_str t k Hwf1) as (? & Heq & _);
      [rewrite Hl1; unfold small_len; pose proof (vlen_nonneg es); lia|apply hash_ok|].
    split_and!; [done|by rewrite Heq, Hl1|]. rewrite vlen_app. change (vlen [_]) with 1. lia.
  - pose proof (lookup_lt_Some _ _ _ Hi) as Hlt.
    destruct (tb_remove_wf pk_hash t i Hwf1) as [? Heq]; [by rewrite Hl1|].
    split_and!; [done|by rewrite Heq, Hl1|]. unfold vlen in *. rewrite length_delete by done. lia.
  - destruct (tb_pop_wf pk_hash t Hwf1) as [? Heq]; [rewrite Hl1; by destruct es|].
    rewrite Hl1, length_app in Heq. cbn in Heq. rewrite Nat.add_sub, delete_snoc in Heq.
    rewrite vlen_app in Hlen. change (vlen [_]) with 1 in Hlen. split_and!; [done|done|lia].
Qed.

(** ** Replay keys that stand for keys *)

(** [r] stands for [k]: same hash and kind, and the key itself if retained. *)
Definition stands_for (r : DictReplayKey K) (k : K) : Prop :=
  drk_python_hash r = pk_hash k ∧ drk_is_str r = pk_is_str k ∧
  ∀ k', drk_key r = Some k' → k' = k.

Definition rshape (r : DictReplayKey K) : Z * bool := (drk_python_hash r, drk_is_str r).
Definition kshape (k : K) : Z * bool := (pk_hash k, pk_is_str k).

(** Two tables with the same slots, of replay keys and of keys. *)
Definition same_shape (tr : table (DictReplayKey K)) (t : table K) : Prop :=
  tb_map rshape tr = tb_map kshape t.

Lemma same_shape_insert tr t r k :
  same_shape tr t → stands_for r k → same_shape (rinsert tr r) (kinsert t k).
Proof.
  intros Hs (Hh & Hstr & _). unfold same_shape.
  rewrite (tb_map_insert drk_python_hash (@drk_is_str K) fst snd rshape) by done.
  rewrite (tb_map_insert pk_hash pk_is_str fst snd kshape) by done.
  rewrite Hs. f_equal. unfold rshape, kshape. congruence.
Qed.

Lemma same_shape_inserts rs ks tr t :
  same_shape tr t → Forall2 stands_for rs ks →
  same_shape (foldl rinsert tr rs) (foldl kinsert t ks).
Proof.
  intros Hs Hf. revert tr t Hs. induction Hf as [|r k rs ks Hrk Hf IH]; intros tr t Hs; [done|].
  cbn. by apply IH, same_shape_insert.
Qed.

Lemma same_shape_remove tr t i : same_shape tr t → same_shape (tb_remove tr i) (tb_remove t i).
Proof. unfold same_shape. intros Hs. by rewrite !tb_map_remove, Hs. Qed.

Lemma same_shape_pop tr t : same_shape tr t → same_shape (tb_pop tr) (tb_pop t).
Proof. unfold same_shape. intros Hs. by rewrite !tb_map_pop, Hs. Qed.

Lemma same_shape_to_general tr t :
  same_shape tr t → same_shape (tb_to_general drk_python_hash tr) (tb_to_general pk_hash t).
Proof.
  unfold same_shape. intros Hs.
  by rewrite !(tb_map_to_general _ fst), Hs.
Qed.

(** ** Undo then redo *)

#[local] Abbreviation keyslots := (list (option (DictReplayKey K))).

(** The replay sequence [state] holds stand-ins [rs] for the entries [es]. *)
Definition ready (ms : list DictDeferredMutation) (es : list K) (state : DictReplaySequence K)
    (rs : list (DictReplayKey K)) (next : Z) (ik : keyslots) : Prop :=
  drs_rep state rs ∧ Forall2 stands_for rs es ∧ distinct_ids rs ∧
  Forall (λ r, drk_replay_id r < next) rs ∧ 0 ≤ next ∧ next + vlen ms < two64 ∧
  (length ms ≤ length ik)%nat.

(** The index [idx] replays a table whose live entries are [rs] and whose
    shape is that of [t]; the sequence holds [rs] as well. *)
Definition redone (idx : DictPythonHashIndex K) (state : DictReplaySequence K)
    (rs : list (DictReplayKey K)) (t : table K) : Prop :=
  ∃ tr, replays idx tr ∧ rwf tr ∧ tb_live tr = rs ∧ same_shape tr t ∧ drs_rep state rs.

(** Undoing [ms] reaches stand-ins for [es0], and redoing it from any index of
    that shape leads back to [rs] and to the shape of [t]. *)
Definition round_trip (es0 : list K) (t0 : table K) (ms : list DictDeferredMutation)
    (t : table K) (state : DictReplaySequence K) (rs : list (DictReplayKey K)) (next : Z)
    (ik : keyslots) : Prop :=
  ∃ state0 rs0 next0 ik0,
    rfold dmj_undo_step (state, next, ik) (reverse (enumerate ms)) = Ok (state0, next0, ik0) ∧
    drs_rep state0 rs0 ∧ Forall2 stands_for rs0 es0 ∧ distinct_ids rs0 ∧
    length ik0 = length ik ∧ (∀ j, (length ms ≤ j)%nat → ik0 !! j = ik !! j) ∧
    ∀ idx0, redone idx0 state0 rs0 t0 →
      ∃ idx state' ik',
        rfold dmj_redo_step (idx0, state0, ik0) (enumerate ms) = Ok (idx, state', ik') ∧
        redone idx state' rs t ∧
        length ik' = length ik ∧ (∀ j, (length ms ≤ j)%nat → ik' !! j = ik !! j).

Lemma round_trip_snoc es0 t0 ms m t t' state state1 rs rs1 next next1 ik ik1 :
  dmj_undo_step (state, next, ik) (length ms, m) = Ok (state1, next1, ik1) →
  length ik1 = length ik → (∀ j, (length ms < j)%nat → ik1 !! j = ik !! j) →
  round_trip es0 t0 ms t state1 rs1 next1 ik1 →
  (∀ idx st iks, redone idx st rs1 t → length iks = length ik →
     iks !! length ms = ik1 !! length ms →
     ∃ idx' st' iks', dmj_redo_step (idx, st, iks) (length ms, m) = Ok (idx', st', iks') ∧
       redone idx' st' rs t' ∧ length iks' = length ik ∧
       ∀ j, (length ms < j)%nat → iks' !! j = iks !! j) →
  round_trip es0 t0 (ms ++ [m]) t' state rs next ik.
Proof.
  intros Hundo Hlen1 Hik1 (state0 & rs0 & next0 & ik0 & Hus & Hrep0 & Hst0 & Hd0 & Hl0 & Hik0 & Hredo)
    Hstep.
  exists state0, rs0, next0, ik0. rewrite enumerate_snoc, reverse_app, reverse_singleton.
  cbn [app rfold]. rewrite Hundo. cbn [mbind res_bind].
  rewrite length_app. cbn [length]. split_and!; [done..|lia| |].
  { intros j Hj. rewrite Hik0 by lia. apply Hik1. lia. }
  intros idx0 Hr0. destruct (Hredo idx0 Hr0) as (idx & st & iks & Hr & Hrd & Hlk & Hiks).
  destruct (Hstep idx st iks Hrd) as (idx' & st' & iks' & Hs & Hrd' & Hlk' & Hiks').
  { lia. } { apply Hiks. lia. }
  exists idx', st', iks'. rewrite rfold_app, Hr. cbn [mbind res_bind rfold].
  rewrite Hs. cbn [mbind res_bind]. split_and!; [done|done|lia|].
  intros j Hj. rewrite Hiks' by lia. rewrite Hiks by lia. apply Hik1. lia.
Qed.

Lemma ddm_inserted_kind : ddm_kind ddm_inserted = DICT_MUTATION_INSERT.
Proof. done. Qed.

Lemma stands_hash r k : stands_for r k → u64_range (drk_python_hash r).
Proof. intros (-> & _). apply pk_hash_range. Qed.

(** Redoing an insertion pushes the key that the undo popped. *)
Lemma redo_insert idx st rs t iks n r k :
  redone idx st rs t → iks !! n = Some (Some r) → stands_for r k → small_len (vlen rs) →
  ∃ idx' st' iks', dmj_redo_step (idx, st, iks) (n, ddm_inserted) = Ok (idx', st', iks') ∧
    redone idx' st' (rs ++ [r]) (kinsert t k) ∧ length iks' = length iks ∧
    ∀ j, (n < j)%nat → iks' !! j = iks !! j.
Proof.
  intros (tr & Hr & Hwf & Hl & Hs & Hrep) Hn Hk Hlen.
  unfold dmj_redo_step. rewrite ddm_inserted_kind, Z.eqb_refl.
  rewrite (vnth_lookup _ _ _ Hn), (vset_ok _ _ _ _ Hn). cbn [expect mbind res_bind].
  rewrite <- Hl in Hlen.
  destruct (insert_replays idx tr r Hr Hwf Hlen (stands_hash r k Hk)) as (idx' & -> & Hr').
  cbn [mbind res_bind].
  destruct (drs_push_spec st rs r Hrep) as (st' & -> & Hrep'). cbn [mbind res_bind].
  destruct (tb_insert_wf drk_python_hash (@drk_is_str K) tr r Hwf Hlen (stands_hash r k Hk))
    as (Hwf' & Hl' & _).
  exists idx', st', (<[n := None]> iks). split; [done|]. split.
  - exists (rinsert tr r). split_and!; [done|done|by rewrite Hl', Hl|by apply same_shape_insert|done].
  - split; [apply length_insert|]. intros j Hj. apply list_lookup_insert_ne. lia.
Qed.

Lemma round_trip_insert es0 t0 ms es t k state rs next ik :
  (∀ state rs next ik, ready ms es state rs next ik → round_trip es0 t0 ms t state rs next ik) →
  small_len (vlen es) →
  ready (ms ++ [ddm_inserted]) (es ++ [k]) state rs next ik →
  round_trip es0 t0 (ms ++ [ddm_inserted]) (kinsert t k) state rs next ik.
Proof.
  intros IH Hlen (Hrep & Hst & Hd & Hids & Hn0 & Hnext & Hik).
  apply Forall2_app_inv_r in Hst as (rs1 & rs2 & Hst1 & Hst2 & ->).
  apply Forall2_cons_inv_r in Hst2 as (r & rs3 & Hr & ->%Forall2_nil_inv_r & ->).
  rewrite length_app in Hik. cbn in Hik. rewrite vlen_app in Hnext. change (vlen [_]) with 1 in Hnext.
  destruct (drs_pop_snoc state rs1 r Hrep) as (state1 & Hpop & Hrep1).
  destruct (lookup_lt_is_Some_2 ik (length ms)) as [o Ho]; [lia|].
  eapply (round_trip_snoc _ _ _ _ t _ _ state1 _ rs1 _ next _ (<[length ms := Some r]> ik)).
  - unfold dmj_undo_step. rewrite ddm_inserted_kind, Z.eqb_refl, Hpop.
    cbn [expect mbind res_bind]. rewrite (vset_ok _ _ _ _ Ho). done.
  - apply length_insert.
  - intros j Hj. apply list_lookup_insert_ne. lia.
  - apply IH. apply Forall_app in Hids as [Hids _].
    split_and!; [done|done|by eapply distinct_ids_snoc|done|done|lia|rewrite length_insert; lia].
  - intros idx st iks Hrd Hl Heq. rewrite list_lookup_insert_eq in Heq by lia. rewrite <- Hl.
    apply redo_insert; [done|done|done|].
    unfold vlen in *. by rewrite (Forall2_length _ _ _ Hst1).
Qed.

(** A placeholder stands for the deleted key its mutation describes. *)
Lemma placeholder_stands m k next :
  ddm_python_hash m = pk_hash k → ddm_is_str m = pk_is_str k →
  stands_for (dmj_placeholder m next) k.
Proof. intros Hh Hs. split_and!; [done|done|]. by intros k'. Qed.

Lemma distinct_ids_insert rs1 rs2 m next :
  distinct_ids (rs1 ++ rs2) → Forall (λ r : DictReplayKey K, drk_replay_id r < next) (rs1 ++ rs2) →
  distinct_ids (rs1 ++ dmj_placeholder m next :: rs2).
Proof.
  unfold distinct_ids. intros Hd Hlt. rewrite <- Permutation_middle, fmap_cons. constructor; [|done].
  cbn. intros (r & Heq & Hr)%list_elem_of_fmap.
  rewrite Forall_forall in Hlt. specialize (Hlt r Hr). lia.
Qed.

Lemma ids_insert rs1 rs2 m next :
  Forall (λ r : DictReplayKey K, drk_replay_id r < next) (rs1 ++ rs2) →
  Forall (λ r, drk_replay_id r < next + 1) (rs1 ++ dmj_placeholder m next :: rs2).
Proof.
  intros Hlt. apply Forall_app in Hlt as [H1 H2].
  apply Forall_app. split; [|constructor; [cbn; lia|]];
    (eapply Forall_impl; [eassumption|]; cbn; intros; lia).
Qed.

Lemma wrapping_succ next : 0 ≤ next → next + 1 < two64 → wrapping_add next 1 = next + 1.
Proof. intros H1 H2. unfold wrapping_add. apply as_u64_id. split; lia. Qed.

(** The redo of a deletion finds the placeholder by its identity. *)
Lemma redo_removed idx tr rs1 i r (popped : bool) t :
  replays idx tr → rwf tr → tb_live tr = rs1 → same_shape tr t → distinct_ids rs1 →
  rs1 !! i = Some r → (popped = true → i = (length rs1 - 1)%nat) →
  ∃ idx' tr', dpi_record_removed_replay idx r popped = Ok idx' ∧
    replays idx' tr' ∧ rwf tr' ∧ tb_live tr' = delete i rs1 ∧
    same_shape tr' (if popped then tb_pop t else tb_remove t i).
Proof.
  intros Hr Hwf Hl Hs Hd Hi Hp. subst rs1. pose proof (lookup_lt_Some _ _ _ Hi) as Hlt.
  destruct (removed_replays idx tr i r popped Hr Hwf Hd Hi Hp) as (idx' & Hrr & Hr').
  exists idx', (if popped then tb_pop tr else tb_remove tr i).
  destruct popped.
  - destruct (tb_pop_wf drk_python_hash tr Hwf) as [? Heq]; [intros Hnil; rewrite Hnil in Hlt; cbn in Hlt; lia|].
    split_and!; [done|done|done| |by apply same_shape_pop]. by rewrite Heq, (Hp eq_refl).
  - destruct (tb_remove_wf drk_python_hash tr i Hwf Hlt) as [? Heq].
    split_and!; [done|done|done|done|by apply same_shape_remove].
Qed.

Lemma round_trip_remove es0 t0 ms es t i k m state rs next ik :
  (∀ state rs next ik, ready ms es state rs next ik → round_trip es0 t0 ms t state rs next ik) →
  es !! i = Some k → Z.of_nat i < 2 ^ 61 → ddm_removed (Z.of_nat i) k false = Ok m →
  ready (ms ++ [m]) (delete i es) state rs next ik →
  round_trip es0 t0 (ms ++ [m]) (tb_remove t i) state rs next ik.
Proof.
  intros IH Hi Hsmall Hm (Hrep & Hst & Hd & Hids & Hn0 & Hnext & Hik).
  destruct (removed_word (Z.of_nat i) k false) as (m' & Hm' & Hh & Hkind & Hpos & Hstr); [lia|].
  rewrite Hm in Hm'. injection Hm' as <-.
  rewrite length_app in Hik. cbn in Hik. rewrite vlen_app in Hnext. change (vlen [_]) with 1 in Hnext.
  pose proof (vlen_nonneg ms). pose proof (Forall2_length _ _ _ Hst) as Hlen.
  pose proof (lookup_lt_Some _ _ _ Hi) as Hlt. rewrite length_delete in Hlen by done.
  set (r := dmj_placeholder m next : DictReplayKey K).
  destruct (drs_insert_spec state rs i r Hrep) as (state1 & Hins & Hrep1); [lia|].
  set (rs1 := take i rs ++ r :: drop i rs) in *.
  assert (Hd1 : distinct_ids rs1) by (apply distinct_ids_insert; rewrite take_drop; done).
  assert (Hr1 : rs1 !! i = Some r) by (apply list_lookup_middle; rewrite length_take; lia).
  assert (Hdel : delete i rs1 = rs).
  { unfold rs1. rewrite delete_middle' by (rewrite length_take; lia). apply take_drop. }
  eapply (round_trip_snoc _ _ _ _ t _ _ state1 _ rs1 _ (next + 1) _ ik).
  - unfold dmj_undo_step. rewrite Hkind, Hpos, Nat2Z.id. cbn [Z.eqb DICT_MUTATION_INSERT
      DICT_MUTATION_REMOVE Pos.eqb]. fold r. rewrite Hins. cbn [mbind res_bind].
    by rewrite wrapping_succ by lia.
  - done.
  - done.
  - apply IH. split_and!; [done| |done|by apply ids_insert; rewrite take_drop|lia|lia|lia].
    rewrite <- (take_drop_middle es i k Hi). rewrite delete_take_drop in Hst.
    apply Forall2_app_inv_r in Hst as (ra & rb & Hra & Hrb & Heq).
    pose proof (Forall2_length _ _ _ Hra) as Hla. rewrite length_take in Hla.
    unfold rs1. rewrite Heq, take_app_length', drop_app_length' by lia.
    apply Forall2_app; [done|]. constructor; [by apply placeholder_stands|done].
  - intros idx st iks (tr & Hr & Hwf & Hl & Hs & Hrs) Hlk _.
    destruct (drs_remove_spec st rs1 i Hrs) as (st' & r' & Hrem & Hr' & Hrep').
    { by eapply lookup_lt_Some. }
    assert (r' = r) as -> by congruence.
    destruct (redo_removed idx tr rs1 i r false t Hr Hwf Hl Hs Hd1 Hr1 ltac:(done))
      as (idx' & tr' & Hrr & Hr'' & Hwf' & Hl' & Hs').
    exists idx', st', iks. unfold dmj_redo_step. rewrite Hkind, Hpos, Nat2Z.id.
    cbn [Z.eqb DICT_MUTATION_INSERT DICT_MUTATION_REMOVE Pos.eqb].
    rewrite Hrem. cbn [mbind res_bind]. rewrite rassert_true by apply Z.eqb_refl.
    cbn [mbind res_bind]. rewrite Hrr. split_and!; [done| |done|done].
    exists tr'. rewrite <- Hdel. done.
Qed.

Lemma round_trip_pop es0 t0 ms es t k m state rs next ik :
  (∀ state rs next ik,
     ready ms (es ++ [k]) state rs next ik → round_trip es0 t0 ms t state rs next ik) →
  vlen es < 2 ^ 61 → ddm_removed (Z.of_nat (length es)) k true = Ok m →
  ready (ms ++ [m]) es state rs next ik →
  round_trip es0 t0 (ms ++ [m]) (tb_pop t) state rs next ik.
Proof.
  intros IH Hsmall Hm (Hrep & Hst & Hd & Hids & Hn0 & Hnext & Hik).
  destruct (removed_word (Z.of_nat (length es)) k true) as (m' & Hm' & Hh & Hkind & _ & Hstr).
  { unfold vlen in Hsmall. lia. }
  rewrite Hm in Hm'. injection Hm' as <-.
  rewrite length_app in Hik. cbn in Hik. rewrite vlen_app in Hnext. change (vlen [_]) with 1 in Hnext.
  pose proof (vlen_nonneg ms).
  set (r := dmj_placeholder m next : DictReplayKey K).
  destruct (drs_push_spec state rs r Hrep) as (state1 & Hins & Hrep1).
  assert (Hd1 : distinct_ids (rs ++ [r])) by (apply distinct_ids_insert; by rewrite app_nil_r).
  assert (Hr1 : (rs ++ [r]) !! length rs = Some r) by by apply list_lookup_middle.
  eapply (round_trip_snoc _ _ _ _ t _ _ state1 _ (rs ++ [r]) _ (next + 1) _ ik).
  - unfold dmj_undo_step. rewrite Hkind. cbn [Z.eqb DICT_MUTATION_INSERT DICT_MUTATION_REMOVE
      DICT_MUTATION_POP Pos.eqb]. fold r. rewrite Hins. cbn [mbind res_bind].
    by rewrite wrapping_succ by lia.
  - done.
  - done.
  - apply IH. split_and!; [done| |done| |lia|lia|lia].
    + apply Forall2_app; [done|]. constructor; [by apply placeholder_stands|constructor].
    + apply ids_insert. by rewrite app_nil_r.
  - intros idx st iks (tr & Hr & Hwf & Hl & Hs & Hrs) Hlk _.
    destruct (drs_pop_snoc st rs r Hrs) as (st' & Hpop & Hrep').
    destruct (redo_removed idx tr (rs ++ [r]) (length rs) r true t Hr Hwf Hl Hs Hd1 Hr1)
      as (idx' & tr' & Hrr & Hr'' & Hwf' & Hl' & Hs').
    { intros _. rewrite length_app. cbn. lia. }
    exists idx', st', iks. unfold dmj_redo_step. rewrite Hkind.
    cbn [Z.eqb DICT_MUTATION_INSERT DICT_MUTATION_REMOVE DICT_MUTATION_POP Pos.eqb].
    rewrite Hpop. cbn [expect mbind res_bind]. rewrite rassert_true by apply Z.eqb_refl.
    cbn [mbind res_bind]. rewrite Hrr. split_and!; [done| |done|done].
    exists tr'. rewrite delete_snoc in Hl'. done.
Qed.

Lemma history_round_trip es0 t0 ms es t :
  history es0 t0 ms es t → journal_fits es0 ms → kwf t0 → tb_live t0 = es0 →
  ∀ state rs next ik, ready ms es state rs next ik → round_trip es0 t0 ms t state rs next ik.
Proof.
  intros Hh Hfit Hwf Hl. unfold journal_fits, small_len in Hfit.
  induction Hh as [|ms es t k Hh IH|ms es t i k m Hh IH Hi Hm|ms es t k m Hh IH Hm];
    intros state rs next ik Hready.
  { destruct Hready as (Hrep & Hst & Hd & _). exists state, rs, next, ik.
    split_and!; [done..|]. intros idx0 Hr0. exists idx0, state, ik. done. }
  all: rewrite vlen_app in Hfit; change (vlen [_]) with 1 in *.
  all: pose proof (vlen_nonneg es0); pose proof (vlen_nonneg ms).
  all: destruct (history_live _ _ _ _ _ Hh) as (Hwf1 & Hl1 & Hlen);
    [unfold journal_fits, small_len; lia|done|done|].
  all: specialize (IH ltac:(lia)).
  - apply (round_trip_insert _ _ _ es); [done| |done]. unfold small_len.
    pose proof (vlen_nonneg es). lia.
  - eapply round_trip_remove; [done..| |done|done].
    apply lookup_lt_Some in Hi. unfold vlen in *. lia.
  - eapply round_trip_pop; [done| |done|done]. rewrite vlen_app in Hlen.
    change (vlen [_]) with 1 in Hlen. lia.
Qed.

(** ** Materialization *)

Definition replay_key (k : K) (id : Z) : DictReplayKey K :=
  {| drk_key := Some k; drk_python_hash := pk_hash k; drk_is_str := pk_is_str k;
     drk_replay_id := id |}.

Fixpoint numbered (next : Z) (es : list K) : list (DictReplayKey K) :=
  match es with
  | [] => []
  | k :: es => replay_key k next :: numbered (next + 1) es
  end.

Lemma numbered_key next es : Forall2 (λ r k, drk_key r = Some k) (numbered next es) es.
Proof. revert next. induction es as [|k es IH]; intros next; constructor; [done|apply IH]. Qed.

Lemma numbered_stands next es : Forall2 stands_for (numbered next es) es.
Proof.
  revert next. induction es as [|k es IH]; intros next; constructor; [|apply IH].
  split_and!; [done|done|]. cbn. congruence.
Qed.

Lemma numbered_ids next es :
  Forall (λ r, next ≤ drk_replay_id r < next + vlen es) (numbered next es) ∧
  distinct_ids (numbered next es).
Proof.
  revert next. induction es as [|k es IH]; intros next; [split; constructor|].
  destruct (IH (next + 1)) as [Hr Hd]. rewrite vlen_cons. cbn [numbered]. split.
  - constructor; [cbn; pose proof (vlen_nonneg es); lia|].
    eapply Forall_impl; [exact Hr|]. cbn. intros; lia.
  - unfold distinct_ids. rewrite fmap_cons. constructor; [|exact Hd].
    cbn. intros (r & Heq & Hin)%list_elem_of_fmap.
    rewrite Forall_forall in Hr. specialize (Hr r Hin). lia.
Qed.

Lemma initial_state_spec es state rs next :
  drs_rep state rs → 0 ≤ next → next + vlen es < two64 →
  ∃ state', rfold (λ '(state, next_replay_id) key,
       state ← drs_push state (replay_key key next_replay_id);
       Ok (state, wrapping_add next_replay_id 1)) (state, next) es = Ok (state', next + vlen es) ∧
    drs_rep state' (rs ++ numbered next es).
Proof.
  revert state rs next. induction es as [|k es IH]; intros state rs next Hrep Hn Hlt.
  { exists state. cbn. rewrite app_nil_r, Z.add_0_r. done. }
  rewrite vlen_cons in Hlt. pose proof (vlen_nonneg es).
  destruct (drs_push_spec state rs (replay_key k next) Hrep) as (state1 & Hp & Hrep1).
  cbn [rfold]. rewrite Hp. cbn [mbind res_bind]. rewrite wrapping_succ by lia.
  destruct (IH state1 _ (next + 1) Hrep1) as (state' & -> & Hrep'); [lia..|].
  exists state'. rewrite vlen_cons. split; [do 2 f_equal; lia|].
  by rewrite <- app_assoc in Hrep'.
Qed.

(** The shape and the live entries determine the entries. *)
Lemma shape_ents (enr : list (option (DictReplayKey K))) (en : list (option K)) :
  (fmap (M := option) rshape <$> enr) = (fmap (M := option) kshape <$> en) →
  Forall2 (λ r k, drk_key r = Some k) (omap id enr) (omap id en) →
  en = (λ o, o ≫= drk_key) <$> enr.
Proof.
  revert en. induction enr as [|o enr IH]; intros en Hs Hl; destruct en as [|o' en]; try done.
  rewrite !fmap_cons in Hs. injection Hs as Ho Hs. rewrite fmap_cons.
  destruct o as [r|], o' as [k|]; try done; cbn in Hl |- *.
  - apply Forall2_cons in Hl as [-> Hl]. f_equal. by apply IH.
  - f_equal. by apply IH.
Qed.

Lemma finish_shape idx tr t :
  replays idx tr → same_shape tr t →
  Forall2 (λ r k, drk_key r = Some k) (tb_live tr) (tb_live t) →
  dpi_finish_replay idx = Ok (idx_of t).
Proof.
  intros Hr Hs Hl. unfold same_shape, tb_map in Hs. injection Hs as Hix Hen Hus Hu.
  apply (finish_replays idx tr t Hr); [done..|by apply shape_ents|].
  intros r Hin. apply list_elem_of_lookup in Hin as [i Hi].
  destruct (Forall2_lookup_l _ _ _ _ _ Hl Hi) as (k & _ & Hk). by exists k.
Qed.

Lemma numbered_matches next es :
  forallb (λ '(r, e), from_option (λ x : K, pk_eqb x e) false (drk_key r))
    (zip (numbered next es) es) = true.
Proof.
  revert next. induction es as [|k es IH]; intros next; [done|]. cbn.
  rewrite pk_eqb_refl. cbn. apply IH.
Qed.

(** The live entries and size of a table after the final conversion. *)
Lemma final_convert idx tr t (cu : bool) :
  replays idx tr → rwf tr → small_len (vlen (tb_live tr)) → same_shape tr t →
  ∃ idx' tr', (if negb cu && dpi_unicode_only idx then dpi_prepare_general_insert idx
               else Ok idx) = Ok idx' ∧
    replays idx' tr' ∧ tb_live tr' = tb_live tr ∧
    same_shape tr' (if cu then t else tb_to_general pk_hash t).
Proof.
  intros Hr Hwf Hlen Hs. destruct cu; [by exists idx, tr|]. cbn [negb andb].
  rewrite (replays_unicode _ _ Hr).
  destruct (prepare_general_replays idx tr Hr Hwf Hlen) as (idx' & Hp & Hr').
  destruct (tb_to_general_wf _ tr Hwf Hlen) as (_ & Hl & _).
  destruct (tb_unicode tr) eqn:Hu.
  - exists idx', (tb_to_general drk_python_hash tr).
    split_and!; [done|done|done|by apply same_shape_to_general].
  - exists idx, tr. split_and!; [done|done|done|].
    assert (Hut : tb_unicode t = false).
    { unfold same_shape, tb_map in Hs. injection Hs as _ _ _ Hu'. congruence. }
    unfold tb_to_general. by rewrite Hut.
Qed.

Lemma history_live_final es0 t0 ms es t (cu : bool) :
  history es0 t0 ms es t → journal_fits es0 ms → kwf t0 → tb_live t0 = es0 →
  tb_live (if cu then t else tb_to_general pk_hash t) = es.
Proof.
  intros Hh Hfit Hwf Hl. destruct (history_live _ _ _ _ _ Hh Hfit Hwf Hl) as (Hwf' & Hl' & Hlen).
  destruct cu; [done|]. destruct (tb_to_general_wf pk_hash t Hwf') as (_ & -> & _); [|done].
  rewrite Hl'. unfold journal_fits, small_len in *. pose proof (vlen_nonneg es). lia.
Qed.

Lemma begin_replays size iu :
  0 ≤ size →
  ∃ idx, dpi_begin_replay (dpi_set_unicode_only iu (dpi_with_table_size (K := K) size)) = Ok idx ∧
    replays idx (tb_empty size iu).
Proof.
  intros Hs. rewrite empty_refines by done. eexists. split; [done|]. exists [], [].
  split_and!; [done|constructor..].
Qed.

Lemma valid_size_nonneg size : valid_size size → 0 ≤ size.
Proof. intros [->|(k & Hk & ->)]; lia. Qed.

Lemma stands_hashes rs es :
  Forall2 stands_for rs es → Forall (λ r, u64_range (drk_python_hash r)) rs.
Proof.
  intros Hf. apply Forall_forall. intros r (i & Hi)%list_elem_of_lookup.
  destruct (Forall2_lookup_l _ _ _ _ _ Hf Hi) as (k & _ & Hk). by eapply stands_hash.
Qed.

(** Replaying the original sequence gives a table of the original shape. *)
Lemma replay_base state0 rs0 es0 size iu :
  valid_size size → small_len (vlen es0) → drs_rep state0 rs0 → Forall2 stands_for rs0 es0 →
  ∃ idx idx0, dpi_begin_replay (dpi_set_unicode_only iu (dpi_with_table_size size)) = Ok idx ∧
    drs_for_each state0 dpi_record_inserted_replay idx = Ok idx0 ∧
    redone idx0 state0 rs0 (foldl kinsert (tb_empty size iu) es0).
Proof.
  intros Hsize Hlen Hrep Hst.
  destruct (begin_replays size iu (valid_size_nonneg _ Hsize)) as (idx & Hb & Hr).
  assert (Hlen' : vlen rs0 = vlen es0) by (unfold vlen; by rewrite (Forall2_length _ _ _ Hst)).
  pose proof (stands_hashes _ _ Hst) as Hh.
  assert (Hfit : small_len (vlen (tb_live (tb_empty (E := DictReplayKey K) size iu)) + vlen rs0))
    by (rewrite Hlen'; done).
  destruct (insert_list_replays rs0 idx (tb_empty size iu) Hr (empty_wf _ _ _ Hsize) Hfit Hh)
    as (idx0 & Hi & Hr0).
  destruct (insert_list_wf drk_python_hash (@drk_is_str K) rs0 (tb_empty size iu)
    (empty_wf _ _ _ Hsize) Hfit Hh) as (Hwf & Hl & _).
  exists idx, idx0. split; [done|]. split; [by rewrite (drs_for_each_spec _ _ _ _ Hrep)|].
  exists (foldl rinsert (tb_empty size iu) rs0). split_and!; [done|done|done| |done].
  by apply same_shape_inserts.
Qed.

(** Materializing a journal yields the eager index. *)
Lemma materialize_eager j es0 es t size iu (cu : bool) :
  valid_size size → journal_fits es0 (dmj_mutations j) →
  history es0 (foldl kinsert (tb_empty size iu) es0) (dmj_mutations j) es t →
  dmj_materialize j es size iu cu = Ok (idx_of (if cu then t else tb_to_general pk_hash t)).
Proof.
  intros Hsize Hfit Hh. set (ms := dmj_mutations j) in *.
  set (t0 := foldl kinsert (tb_empty size iu) es0) in *.
  assert (Hfit' := Hfit). unfold journal_fits, small_len in Hfit.
  pose proof (vlen_nonneg ms). pose proof (vlen_nonneg es0).
  assert (Hs0 : small_len (vlen es0)) by (unfold small_len; lia).
  destruct (insert_list_wf pk_hash pk_is_str es0 (tb_empty size iu) (empty_wf _ _ _ Hsize) Hs0
    (hashes_ok es0)) as (Hwf0 & Hl0 & _). fold t0 in Hwf0, Hl0.
  destruct (history_live _ _ _ _ _ Hh Hfit' Hwf0 Hl0) as (Hwf & Hl & Hlen).
  pose proof (history_live_final _ _ _ _ _ cu Hh Hfit' Hwf0 Hl0) as Hlf.
  destruct (initial_state_spec es drs_with_capacity [] 0 drs_rep_with_capacity)
    as (state & Hinit & Hrep); [lia|unfold two64; lia|].
  destruct (numbered_ids 0 es) as [Hids Hd].
  destruct (history_round_trip _ _ _ _ _ Hh Hfit' Hwf0 Hl0 state (numbered 0 es) (0 + vlen es)
    (replicate (length ms) None)) as
    (state0 & rs0 & next0 & ik0 & Hu & Hrep0 & Hst0 & _ & _ & _ & Hredo).
  { split_and!; [done|apply numbered_stands|done| |pose proof (vlen_nonneg es); lia|
      unfold two64; lia|by rewrite length_replicate].
    eapply Forall_impl; [exact Hids|]. cbn. intros; lia. }
  destruct (replay_base state0 rs0 es0 size iu Hsize Hs0 Hrep0 Hst0) as (idx & idx0 & Hb & Hi & Hr0).
  destruct (Hredo idx0 Hr0) as (idx1 & state1 & ik1 & Hr & (tr & Hrt & Hwft & Hlt & Hs & Hrep1) & _).
  destruct (final_convert idx1 tr t cu Hrt Hwft) as (idx2 & tr2 & Hc & Hr2 & Hl2 & Hs2).
  { rewrite Hlt. unfold small_len, vlen in *.
    rewrite (Forall2_length _ _ _ (numbered_stands 0 es)). lia. }
  { done. }
  unfold dmj_materialize, dmj_initial_state. fold ms. unfold replay_key in Hinit.
  rewrite Hinit. cbn [mbind res_bind]. rewrite Hu. cbn [mbind res_bind].
  rewrite Hb. cbn [mbind res_bind]. rewrite Hi. cbn [mbind res_bind].
  rewrite Hr. cbn [mbind res_bind]. rewrite (drs_len_spec _ _ Hrep1). cbn [mbind res_bind].
  pose proof (Forall2_length _ _ _ (numbered_stands 0 es)) as Hnl.
  rewrite Hnl, rassert_true by apply Nat.eqb_refl. cbn [mbind res_bind].
  rewrite (drs_matches_entries_spec pk_eqb _ _ es Hrep1), bool_decide_true by done.
  rewrite numbered_matches. cbn [andb rassert mbind res_bind]. rewrite Hc. cbn [mbind res_bind].
  apply (finish_shape idx2 tr2 _ Hr2 Hs2). rewrite Hl2, Hlt, Hlf. apply numbered_key.
Qed.

(** ** The remaining capacity is tracked without the table *)

#[local] Abbreviation kplace := (tb_place (pk_hash (K := K))).
#[local] Abbreviation kgrow := (tb_grow (pk_hash (K := K))).

(** Inserting [ks] into [t] converts no unicode table. *)
Definition no_conversion (t : table K) (ks : list K) : Prop :=
  tb_unicode t = true → Forall (λ k, pk_is_str k = true) ks.

Lemma insert_no_conversion t k :
  no_conversion t [k] →
  kinsert t k = kplace (if tb_usable t =? 0 then kgrow (tb_unicode t) t else t) k.
Proof.
  intros Hn. unfold tb_insert, tb_to_general. destruct (tb_unicode t) eqn:Hu.
  - pose proof (Forall_inv (Hn Hu)) as Hk. cbn beta in Hk. by rewrite Hk, Hu.
  - destruct (pk_is_str k); by rewrite Hu.
Qed.

Lemma no_conversion_cons t k ks : no_conversion t (k :: ks) → no_conversion t [k] ∧ no_conversion t ks.
Proof.
  unfold no_conversion. intros Hn.
  split; intros Hu; specialize (Hn Hu); inversion Hn; subst; [by constructor|done].
Qed.

Lemma inserts_as_places ks t :
  no_conversion t ks → vlen ks ≤ tb_usable t → foldl kinsert t ks = foldl kplace t ks.
Proof.
  revert t. induction ks as [|k ks IH]; intros t Hn Hle; [done|].
  apply no_conversion_cons in Hn as [Hk Hks]. rewrite vlen_cons in Hle.
  pose proof (vlen_nonneg ks). cbn [foldl]. rewrite insert_no_conversion by done.
  rewrite eqb_pos_false by lia. apply IH; [done|cbn; lia].
Qed.

Lemma inserts_grow k ks t :
  no_conversion t [k] → kwf t → small_len (vlen (tb_live t)) → tb_usable t = 0 →
  foldl kinsert t (k :: ks) = foldl kinsert (kgrow (tb_unicode t) t) (k :: ks).
Proof.
  intros Hn Hwf Hlen Hz. destruct (tb_grow_wf pk_hash (tb_unicode t) t Hwf Hlen)
    as (_ & _ & _ & Hpos & Hu). cbn [foldl]. f_equal.
  rewrite (insert_no_conversion t k Hn), Hz, Z.eqb_refl.
  rewrite insert_no_conversion by (unfold no_conversion; by rewrite Hu).
  by rewrite eqb_pos_false by done.
Qed.

(** One epoch: place as many keys as the (possibly regrown) table holds. *)
Lemma one_epoch t ks (n : nat) :
  kwf t → no_conversion t ks → 0 < tb_usable t → Z.of_nat n ≤ tb_usable t →
  foldl kinsert t ks = foldl kinsert (foldl kplace t (take n ks)) (drop n ks) ∧
  kwf (foldl kplace t (take n ks)) ∧
  no_conversion (foldl kplace t (take n ks)) (drop n ks) ∧
  vlen (tb_live (foldl kplace t (take n ks))) = vlen (tb_live t) + vlen (take n ks) ∧
  tb_usable (foldl kplace t (take n ks)) = tb_usable t - vlen (take n ks).
Proof.
  intros Hwf Hn Hu Hle.
  assert (Hlen : vlen (take n ks) ≤ tb_usable t) by (unfold vlen; rewrite length_take; lia).
  assert (Hn12 : no_conversion t (take n ks) ∧ no_conversion t (drop n ks)).
  { unfold no_conversion. split; intros Hut; [apply Forall_take|apply Forall_drop]; auto. }
  destruct (place_list_wf pk_hash (take n ks) t Hwf Hlen (hashes_ok _))
    as (Hwf' & Hl & _ & Hus & _ & Huni).
  split_and!; [|done| |by rewrite Hl, vlen_app|done].
  - rewrite <- (take_drop n ks) at 1. rewrite foldl_app, (inserts_as_places (take n ks)); [done|tauto|done].
  - unfold no_conversion. rewrite Huni. apply Hn12.
Qed.

(** The table when an epoch starts. *)
Definition epoch_table (t : table K) : table K :=
  if tb_usable t =? 0 then kgrow (tb_unicode t) t else t.

Lemma epoch_unfold fuel t live :
  kwf t → small_len (vlen (tb_live t)) → small_len live → vlen (tb_live t) < live →
  let u := tb_usable (epoch_table t) in
  let batch := Z.min u (live - vlen (tb_live t)) in
  0 < u →
  dmj_epochs (S fuel) live (tb_usable t) (vlen (tb_live t)) =
  dmj_epochs fuel live (u - batch) (vlen (tb_live t) + batch).
Proof.
  intros Hwf Hs Hsl Hlt u batch Hu. cbn [dmj_epochs].
  destruct (Z.ltb_spec (vlen (tb_live t)) live) as [_|]; [|lia].
  assert (Hus : (if tb_usable t =? 0 then
      current_table_size ← dpi_table_size_for_target (saturating_mul (vlen (tb_live t)) 3);
      usize_sub (dict_probe_usable_fraction current_table_size) (vlen (tb_live t))
    else Ok (tb_usable t)) = Ok u).
  { subst u. unfold epoch_table. destruct (tb_usable t =? 0); [|done].
    rewrite saturating_mul_3 by done.
    destruct (target_size_room _ Hs) as (k & Hk & Heq & Hsize & Hroom). rewrite Heq.
    cbn [mbind res_bind]. unfold tb_grow. rewrite Hsize, usize_sub_ok by lia.
    destruct (rebuild_wf pk_hash k (tb_unicode t) (tb_live t)) as (_ & _ & _ & -> & _);
      [done|lia|apply hashes_ok|done]. }
  rewrite Hus. cbn [mbind res_bind]. unfold small_len in *.
  rewrite usize_sub_ok by lia. cbn [mbind res_bind]. fold batch.
  rewrite usize_add_ok by (unfold two64; lia). cbn [mbind res_bind].
  by rewrite usize_sub_ok by lia.
Qed.

Lemma epoch_step fuel t ks :
  kwf t → no_conversion t ks → ks ≠ [] → small_len (vlen (tb_live t) + vlen ks) →
  ∃ t' ks', foldl kinsert t ks = foldl kinsert t' ks' ∧ kwf t' ∧ no_conversion t' ks' ∧
    (length ks' < length ks)%nat ∧
    vlen (tb_live t') + vlen ks' = vlen (tb_live t) + vlen ks ∧
    (ks' = [] ∨ tb_usable t' = 0 ∧
       vlen (tb_live t') = vlen (tb_live t) + tb_usable (epoch_table t)) ∧
    dmj_epochs (S fuel) (vlen (tb_live t) + vlen ks) (tb_usable t) (vlen (tb_live t)) =
    dmj_epochs fuel (vlen (tb_live t') + vlen ks') (tb_usable t') (vlen (tb_live t')).
Proof.
  intros Hwf Hn Hne Hsmall. destruct ks as [|k ks0]; [done|]. clear Hne.
  remember (k :: ks0) as ks eqn:Hks.
  pose proof (vlen_nonneg (tb_live t)) as H1. pose proof (vlen_nonneg ks0) as H2.
  assert (Hl : vlen ks = 1 + vlen ks0) by (subst; apply vlen_cons).
  assert (Hs : small_len (vlen (tb_live t))) by (unfold small_len in *; lia).
  set (t1 := epoch_table t).
  assert (Ht1 : kwf t1 ∧ tb_live t1 = tb_live t ∧ 0 < tb_usable t1 ∧ tb_unicode t1 = tb_unicode t ∧
    foldl kinsert t ks = foldl kinsert t1 ks).
  { unfold t1, epoch_table. destruct (Z.eqb_spec (tb_usable t) 0) as [Hz|Hz].
    - destruct (tb_grow_wf pk_hash (tb_unicode t) t Hwf Hs) as (? & ? & _ & ? & ?).
      split_and!; try done. subst ks. apply inserts_grow; [|done..].
      by apply (no_conversion_cons t k ks0).
    - pose proof (wf_usable _ _ Hwf). split_and!; try done; lia. }
  destruct Ht1 as (Hwf1 & Hl1 & Hu1 & Hun1 & Hfold).
  set (n := Z.to_nat (Z.min (tb_usable t1) (vlen ks))).
  assert (Hn1 : no_conversion t1 ks) by (unfold no_conversion; by rewrite Hun1).
  destruct (one_epoch t1 ks n Hwf1 Hn1 Hu1 ltac:(lia)) as (Hf & Hwf' & Hn' & Hlv & Hus).
  assert (Hntake : vlen (take n ks) = Z.min (tb_usable t1) (vlen ks)).
  { unfold vlen at 1. rewrite length_take. unfold vlen in *. lia. }
  assert (Hndrop : vlen (drop n ks) = vlen ks - Z.min (tb_usable t1) (vlen ks)).
  { unfold vlen at 1. rewrite length_drop. unfold vlen in *. lia. }
  eexists _, _. split; [rewrite Hfold; exact Hf|].
  split_and!; [done|done| | | |].
  - unfold vlen in *. lia.
  - rewrite Hlv, Hl1, Hntake, Hndrop. lia.
  - rewrite Hlv, Hus, Hl1, Hntake. destruct (Z.le_gt_cases (vlen ks) (tb_usable t1)) as [Hle|Hgt].
    + left. apply length_zero_iff_nil. unfold vlen in *. lia.
    + right. lia.
  - rewrite Hlv, Hus, Hl1, Hntake, Hndrop.
    rewrite (epoch_unfold fuel t (vlen (tb_live t) + vlen ks)) by (done || fold t1; lia).
    fold t1. f_equal; lia.
Qed.

(** Once the initial capacity is used up, [placed] doubles at every epoch. *)
Lemma grown_usable t :
  kwf t → small_len (vlen (tb_live t)) → tb_usable t = 0 →
  vlen (tb_live t) ≤ tb_usable (epoch_table t).
Proof.
  intros Hwf Hs Hz. unfold epoch_table. rewrite Hz. cbn. unfold tb_grow.
  unfold small_len in Hs.
  destruct (table_size_for_target_spec (3 * vlen (tb_live t))) as (k & Hk & Heq & Hb & Hge); [lia|].
  assert (target_size (3 * vlen (tb_live t)) = 2 ^ k) as -> by (unfold target_size; by rewrite Heq).
  assert (H8 : 2 ^ 3 ≤ 2 ^ k ≤ 2 ^ 63) by (split; apply Z.pow_le_mono_r; lia).
  change (2 ^ 3) with 8 in H8. pose proof (usable_fraction_bounds (2 ^ k)).
  destruct (rebuild_wf pk_hash k (tb_unicode t) (tb_live t)) as (_ & _ & _ & -> & _);
    [lia|lia|apply hashes_ok|lia].
Qed.

Lemma epochs_spec fuel t ks :
  kwf t → no_conversion t ks → small_len (vlen (tb_live t) + vlen ks) →
  (ks = [] ∨ tb_usable t = 0 ∧ vlen (tb_live t) + vlen ks ≤ vlen (tb_live t) * 2 ^ Z.of_nat fuel) →
  dmj_epochs (S fuel) (vlen (tb_live t) + vlen ks) (tb_usable t) (vlen (tb_live t)) =
    Ok (tb_usable (foldl kinsert t ks)).
Proof.
  revert t ks. induction fuel as [|fuel IH]; intros t ks Hwf Hn Hsmall Hor.
  all: destruct (decide (ks = [])) as [->|Hne].
  1, 3: cbn [dmj_epochs foldl]; change (vlen []) with 0;
    by destruct (Z.ltb_spec (vlen (tb_live t)) (vlen (tb_live t) + 0)); [lia|].
  - destruct Hor as [|[_ Hle]]; [done|]. change (2 ^ Z.of_nat 0) with 1 in Hle.
    destruct ks; [done|]. rewrite vlen_cons in Hle. pose proof (vlen_nonneg ks). lia.
  - destruct Hor as [|[Hz Hle]]; [done|].
    destruct (epoch_step (S fuel) t ks Hwf Hn Hne Hsmall)
      as (t' & ks' & -> & Hwf' & Hn' & Hlt & Hsum & Hor' & ->).
    apply IH; [done|done|by rewrite Hsum|].
    destruct Hor' as [|[Hz' Hl']]; [by left|right]. split; [done|].
    assert (Hs : small_len (vlen (tb_live t))).
    { pose proof (vlen_nonneg ks). pose proof (vlen_nonneg (tb_live t)). unfold small_len in *. lia. }
    pose proof (grown_usable t Hwf Hs Hz). rewrite Hsum.
    rewrite Nat2Z.inj_succ, Z.pow_succ_r in Hle by lia.
    transitivity (vlen (tb_live t) * (2 * 2 ^ Z.of_nat fuel)); [done|].
    rewrite Z.mul_assoc. apply Z.mul_le_mono_nonneg_r; [lia|]. lia.
Qed.

Lemma epochs_from_empty t ks :
  kwf t → tb_live t = [] → no_conversion t ks → small_len (vlen ks) →
  dmj_epochs dmj_epoch_fuel (vlen ks) (tb_usable t) 0 = Ok (tb_usable (foldl kinsert t ks)).
Proof.
  intros Hwf Hl Hn Hsmall. unfold dmj_epoch_fuel.
  destruct (decide (ks = [])) as [->|Hne]; [done|].
  destruct (epoch_step 63 t ks Hwf Hn Hne) as (t' & ks' & -> & Hwf' & Hn' & Hlt & Hsum & Hor & Heq);
    [by rewrite Hl|].
  rewrite Hl in Heq. change (vlen []) with 0 in Heq. cbn [Z.add] in Heq.
  rewrite Z.add_0_l in Heq. rewrite Heq.
  rewrite Hl in Hsum. change (vlen []) with 0 in Hsum.
  apply epochs_spec; [done|done|by rewrite Hsum|].
  destruct Hor as [|[Hz Hl']]; [by left|right]. split; [done|].
  rewrite Hl in Hl'. change (vlen []) with 0 in Hl'.
  unfold small_len in Hsmall. rewrite Hsum, Hl'.
  assert (Hpos : vlen ks' < vlen ks) by (unfold vlen; lia).
  assert (1 ≤ tb_usable (epoch_table t)) by lia. change (2 ^ Z.of_nat 62) with (2 ^ 62). lia.
Qed.

(** ** Holes of the compact entries *)

Definition holes_ok (j : DictMutationJournal) (es : list K) (t : table K) : Prop :=
  0 ≤ dmj_non_pop_removals j ≤ vlen (dmj_mutations j) ∧
  vlen (tb_ents t) ≤ vlen es + dmj_non_pop_removals j ∧
  (dmj_has_pop j = false → vlen (tb_ents t) = vlen es + dmj_non_pop_removals j).

Lemma places_ents ks (t : table K) : vlen (tb_ents (foldl kplace t ks)) = vlen (tb_ents t) + vlen ks.
Proof.
  revert t. induction ks as [|k ks IH]; intros t; cbn [foldl]; [change (vlen []) with 0; lia|].
  rewrite IH, vlen_cons. cbn [tb_place tb_ents]. rewrite vlen_app. change (vlen [_]) with 1. lia.
Qed.

Lemma grow_ents u t : vlen (tb_ents (kgrow u t)) = vlen (tb_live t).
Proof. unfold tb_grow, tb_rebuild. by rewrite places_ents. Qed.

(** A table that only ever grew has no hole. *)
Lemma inserts_no_holes ks t :
  kwf t → small_len (vlen (tb_live t) + vlen ks) → vlen (tb_ents t) = vlen (tb_live t) →
  vlen (tb_ents (foldl kinsert t ks)) = vlen (tb_live t) + vlen ks.
Proof.
  revert t. induction ks as [|k ks IH]; intros t Hwf Hlen Heq; cbn [foldl].
  { change (vlen []) with 0. lia. }
  rewrite vlen_cons in Hlen |- *. pose proof (vlen_nonneg ks). pose proof (vlen_nonneg (tb_live t)).
  assert (Hl : small_len (vlen (tb_live t))) by (unfold small_len in *; lia).
  destruct (tb_insert_wf pk_hash pk_is_str t k Hwf Hl (hash_ok k)) as (Hwf' & Hl' & _).
  assert (He : vlen (tb_ents (kinsert t k)) = vlen (tb_live t) + 1).
  { rewrite tb_insert_room. cbn [tb_place tb_ents]. rewrite vlen_app. change (vlen [_]) with 1.
    f_equal. unfold tb_room. set (t1 := if pk_is_str k then t else _).
    assert (Ht1 : vlen (tb_ents t1) = vlen (tb_live t) ∧ tb_live t1 = tb_live t).
    { subst t1. destruct (pk_is_str k); [done|].
      destruct (tb_to_general_wf pk_hash t Hwf Hl) as (_ & Hlg & _). split; [|done].
      unfold tb_to_general. destruct (tb_unicode t); [apply grow_ents|done]. }
    destruct Ht1 as [He1 Hl1]. destruct (tb_usable t1 =? 0); [by rewrite grow_ents, Hl1|done]. }
  rewrite IH; [rewrite Hl', vlen_app; change (vlen [_]) with 1; lia|done| |];
    rewrite Hl', vlen_app; change (vlen [k]) with 1; [unfold small_len in *|]; lia.
Qed.

Lemma no_live_trim {E} (ents : list (option E)) : omap id ents = [] → ents ≠ [] → last ents = Some None.
Proof.
  induction ents as [|[e|] ents IH]; intros Hl Hne; [done|done|].
  cbn in Hl. destruct ents as [|o ents]; [done|]. by rewrite last_cons_cons, IH.
Qed.

Lemma trim_shorter {E} (ents : list (option E)) i :
  (S i = length (omap id ents))%nat →
  (length (trim (<[live_pos ents i := None]> ents)) < length ents)%nat.
Proof.
  revert i. induction ents as [|[e|] ents IH]; intros i Hi; [done| |].
  - destruct i as [|i]; cbn in Hi |- *.
    + pose proof (trim_length ents). destruct (trim ents) eqn:Ht; cbn in *; [lia|].
      exfalso. assert (Hn : omap id (trim ents) = []) by (rewrite trim_live; by apply length_zero_iff_nil; lia).
      rewrite Ht in Hn. pose proof (trim_last ents) as Hlast. rewrite Ht in Hlast.
      by apply Hlast, no_live_trim.
    + specialize (IH i ltac:(lia)). unfold insert in IH.
      destruct (trim _); cbn in *; lia.
  - cbn in Hi |- *. specialize (IH i Hi). unfold insert in IH. destruct (trim _); cbn in *; lia.
Qed.

(** ** The journal invariant *)

(** The journal [j] with the baseline [(size, iu)] describes the entries [es]
    and the eager table [t]. *)
Definition journals (j : DictMutationJournal) (es : list K) (size : Z) (iu : bool)
    (t : table K) : Prop :=
  valid_size size ∧ dmj_usable j = tb_usable t ∧ holes_ok j es t ∧
  ∃ es0, journal_fits es0 (dmj_mutations j) ∧
    history es0 (foldl kinsert (tb_empty size iu) es0) (dmj_mutations j) es t.

Lemma journals_materialize j es size iu t (cu : bool) :
  journals j es size iu t →
  dmj_materialize j es size iu cu = Ok (idx_of (if cu then t else tb_to_general pk_hash t)).
Proof. intros (Hsize & _ & _ & es0 & Hfit & Hh). by eapply materialize_eager. Qed.

Lemma base_wf es size iu :
  valid_size size → small_len (vlen es) →
  let t := foldl kinsert (tb_empty size iu) es in
  kwf t ∧ tb_live t = es ∧ tb_unicode t = iu && forallb pk_is_str es.
Proof.
  intros Hsize Hlen.
  apply (insert_list_wf pk_hash pk_is_str es (tb_empty size iu) (empty_wf _ _ _ Hsize) Hlen
    (hashes_ok es)).
Qed.

Lemma journals_live j es size iu t : journals j es size iu t → kwf t ∧ tb_live t = es.
Proof.
  intros (Hsize & _ & _ & es0 & Hfit & Hh).
  assert (Hs0 : small_len (vlen es0)).
  { unfold journal_fits, small_len in *. pose proof (vlen_nonneg (dmj_mutations j)).
    pose proof (vlen_nonneg es0). lia. }
  destruct (base_wf es0 size iu Hsize Hs0) as (Hwf0 & Hl0 & _).
  destruct (history_live _ _ _ _ _ Hh Hfit Hwf0 Hl0) as (? & ? & _). done.
Qed.

(** A unicode table holds only strings. *)
Lemma history_kinds es0 t0 ms es t :
  history es0 t0 ms es t → journal_fits es0 ms → kwf t0 → tb_live t0 = es0 →
  (tb_unicode t0 = true → Forall (λ k, pk_is_str k = true) es0) →
  tb_unicode t = true → Forall (λ k, pk_is_str k = true) es.
Proof.
  intros Hh Hfit Hwf Hl Hb. unfold journal_fits, small_len in Hfit.
  induction Hh as [|ms es t k Hh IH|ms es t i k m Hh IH Hi Hm|ms es t k m Hh IH Hm]; [done|..].
  all: rewrite vlen_app in Hfit; change (vlen [_]) with 1 in Hfit.
  all: pose proof (vlen_nonneg es0); pose proof (vlen_nonneg ms).
  all: specialize (IH ltac:(lia)).
  - destruct (history_live _ _ _ _ _ Hh) as (Hwf1 & Hl1 & Hlen);
      [unfold journal_fits, small_len; lia|done|done|].
    destruct (tb_insert_wf pk_hash pk_is_str t k Hwf1) as (_ & _ & ->);
      [rewrite Hl1; unfold small_len; pose proof (vlen_nonneg es); lia|apply hash_ok|].
    intros [Hu Hk]%andb_true_iff. apply Forall_app. split; [by apply IH|by constructor].
  - intros Hu. specialize (IH Hu). rewrite delete_take_drop. apply Forall_app.
    split; [by apply Forall_take|by apply Forall_drop].
  - intros Hu. specialize (IH Hu). by apply Forall_app in IH as [? _].
Qed.

Lemma base_kinds es size iu :
  valid_size size → small_len (vlen es) →
  tb_unicode (foldl kinsert (tb_empty size iu) es) = true → Forall (λ k, pk_is_str k = true) es.
Proof.
  intros Hsize Hlen. destruct (base_wf es size iu Hsize Hlen) as (_ & _ & ->).
  intros [_ Hall]%andb_true_iff. rewrite forallb_forall in Hall.
  apply Forall_forall. intros k Hk. by apply Hall, list_elem_of_In.
Qed.

Lemma journals_kinds j es size iu t :
  journals j es size iu t → tb_unicode t = true → Forall (λ k, pk_is_str k = true) es.
Proof.
  intros (Hsize & _ & _ & es0 & Hfit & Hh).
  assert (Hs0 : small_len (vlen es0)).
  { unfold journal_fits, small_len in *. pose proof (vlen_nonneg (dmj_mutations j)).
    pose proof (vlen_nonneg es0). lia. }
  destruct (base_wf es0 size iu Hsize Hs0) as (Hwf0 & Hl0 & _).
  apply (history_kinds _ _ _ _ _ Hh Hfit Hwf0 Hl0). by apply base_kinds.
Qed.

(** The baseline [(size, iu)] with [es] converts no table, or is the same as
    one that does not. *)
Definition settled (size : Z) (iu : bool) (es : list K) : Prop :=
  ∃ iu', foldl kinsert (tb_empty size iu) es = foldl kinsert (tb_empty size iu') es ∧
    (iu' = true → Forall (λ k, pk_is_str k = true) es).

(** A journal opened before the first deletion. *)
Lemma journals_open es size iu :
  valid_size size → small_len (vlen es) → settled size iu es →
  ∃ j, dmj_from_current_entries size (vlen es) = Ok j ∧
    journals j es size iu (foldl kinsert (tb_empty size iu) es).
Proof.
  intros Hsize Hlen (iu' & Heq & Hstr). unfold dmj_from_current_entries.
  pose proof (epochs_from_empty (tb_empty size iu') es (empty_wf _ _ _ Hsize) eq_refl Hstr Hlen) as He.
  cbn [tb_usable tb_empty] in He. rewrite He. cbn [mbind res_bind].
  eexists. split; [done|]. split_and!; [done|by rewrite Heq| |].
  { pose proof (inserts_no_holes es (tb_empty size iu) (empty_wf _ _ _ Hsize) Hlen eq_refl) as Hnh.
    unfold holes_ok. rewrite Hnh. cbn. change (vlen []) with 0. split_and!; lia. }
  exists es. split; [|constructor]. unfold journal_fits. cbn.
  change (vlen []) with 0. by rewrite Z.add_0_r.
Qed.

Lemma history_base_len es0 t0 ms es t :
  history es0 t0 ms es t → vlen es0 ≤ vlen es + vlen ms.
Proof.
  induction 1 as [|ms es t k Hh IH|ms es t i k m Hh IH Hi Hm|ms es t k m Hh IH Hm].
  { change (vlen []) with 0. lia. }
  all: rewrite (vlen_app ms); change (vlen [_]) with 1.
  - rewrite vlen_app. change (vlen [_]) with 1. lia.
  - unfold vlen in *. rewrite length_delete by done. lia.
  - rewrite vlen_app in IH. change (vlen [_]) with 1 in IH. lia.
Qed.

(** The journal can take one more mutation. *)
Definition journal_room (j : DictMutationJournal) (es : list K) : Prop :=
  small_len (vlen es + 2 * vlen (dmj_mutations j) + 2).

Lemma journal_room_fits j es es0 t0 m t :
  journal_room j es → history es0 t0 (dmj_mutations j) es t →
  journal_fits es0 (dmj_mutations j ++ [m]).
Proof.
  intros Hroom Hh. pose proof (history_base_len _ _ _ _ _ Hh).
  unfold journal_room, journal_fits, small_len in *. rewrite vlen_app. change (vlen [_]) with 1.
  pose proof (vlen_nonneg es0). pose proof (vlen_nonneg (dmj_mutations j)). lia.
Qed.

(** An insertion that keeps the table is one more mutation. *)
Lemma journals_insert j es size iu t k :
  journals j es size iu t → no_conversion t [k] → journal_room j es → tb_usable t ≠ 0 →
  ∃ j', dmj_record_inserted j (vlen es + 1) = Ok (j', None) ∧
    journals j' (es ++ [k]) size iu (kinsert t k).
Proof.
  intros Hj Hn Hroom Hnz. destruct (journals_live _ _ _ _ _ Hj) as [Hwf Hl].
  destruct Hj as (Hsize & Hu & Hho & es0 & Hfit & Hh).
  pose proof (wf_usable _ _ Hwf). pose proof (vlen_nonneg es).
  unfold dmj_record_inserted. rewrite usize_sub_ok by lia. cbn [mbind res_bind].
  rewrite Hu, (proj2 (Z.eqb_neq _ _) Hnz). cbn [mbind res_bind].
  rewrite Hu, (proj2 (Z.eqb_neq _ _) Hnz). cbn [negb rassert mbind res_bind].
  rewrite usize_sub_ok by lia. cbn [mbind res_bind]. rewrite bool_decide_true by done.
  eexists. split; [done|]. split_and!; [done| | |].
  - cbn [dmj_usable]. rewrite (insert_no_conversion t k Hn), (proj2 (Z.eqb_neq _ _) Hnz). done.
  - destruct Hho as (Hn1 & Hn2 & Hn3). rewrite (insert_no_conversion t k Hn),
      (proj2 (Z.eqb_neq _ _) Hnz). unfold holes_ok.
    cbn [dmj_non_pop_removals dmj_mutations dmj_has_pop tb_place tb_ents].
    rewrite !vlen_app. change (vlen [_]) with 1. change (vlen [Some k]) with 1.
    change (vlen [k]) with 1. split_and!; [lia|lia|lia|]. intros Hp. specialize (Hn3 Hp). lia.
  - exists es0. cbn [dmj_mutations]. split; [by eapply journal_room_fits|].
    by constructor.
Qed.

(** An insertion into a full table starts a new baseline: the resize drops
    every dummy, so the earlier mutations are no longer observable. *)
Lemma journals_rebase j es size iu t k :
  journals j es size iu t → no_conversion t (es ++ [k]) → journal_room j es → tb_usable t = 0 →
  ∃ j' size', dmj_record_inserted j (vlen es + 1) = Ok (j', Some size') ∧
    journals j' (es ++ [k]) size' (tb_unicode t) (kinsert t k).
Proof.
  intros Hj Hn Hroom Hz. destruct (journals_live _ _ _ _ _ Hj) as [Hwf Hl].
  destruct Hj as (Hsize & Hu & Hho & es0 & Hfit & Hh).
  pose proof (vlen_nonneg es). pose proof (vlen_nonneg (dmj_mutations j)).
  assert (Hs : small_len (vlen es)) by (unfold journal_room, small_len in *; lia).
  destruct (target_size_room (vlen es) Hs) as (b & Hb & Heq & Hsz & Hroomb).
  unfold dmj_record_inserted. rewrite usize_sub_ok by lia. cbn [mbind res_bind].
  replace (vlen es + 1 - 1) with (vlen es) by lia.
  rewrite Hu, Hz, saturating_mul_3, Heq by done. cbn [Z.eqb mbind res_bind].
  rewrite usize_sub_ok by lia. cbn [mbind res_bind dmj_usable].
  rewrite (proj2 (Z.eqb_neq _ _)) by lia. cbn [negb rassert mbind res_bind].
  rewrite usize_sub_ok by lia. cbn [mbind res_bind]. rewrite bool_decide_false by done.
  eexists _, (2 ^ b). split; [done|].
  assert (Hnk : no_conversion t [k]).
  { intros Hun. specialize (Hn Hun). by apply Forall_app in Hn as [_ Hk]. }
  assert (Hins : kinsert t k = foldl kinsert (tb_empty (2 ^ b) (tb_unicode t)) (es ++ [k])).
  { rewrite (insert_no_conversion t k Hnk), Hz, Z.eqb_refl. unfold tb_grow, tb_rebuild.
    rewrite Hl, Hsz, inserts_as_places; [by rewrite foldl_app|exact Hn|].
    rewrite vlen_app. change (vlen [_]) with 1. cbn [tb_usable tb_empty]. lia. }
  split_and!; [right; by exists b| | |].
  - cbn [dmj_usable]. rewrite (insert_no_conversion t k Hnk), Hz, Z.eqb_refl.
    unfold tb_grow. rewrite Hl, Hsz.
    destruct (rebuild_wf pk_hash b (tb_unicode t) es) as (_ & _ & _ & Hus & _);
      [done|lia|apply hashes_ok|]. cbn [tb_place tb_usable]. by rewrite Hus.
  - rewrite (insert_no_conversion t k Hnk), Hz, Z.eqb_refl. unfold holes_ok.
    cbn [dmj_non_pop_removals dmj_mutations dmj_has_pop tb_place tb_ents].
    rewrite !vlen_app, grow_ents, Hl. change (vlen [Some k]) with 1. change (vlen [k]) with 1.
    change (vlen []) with 0. split_and!; lia.
  - exists (es ++ [k]). split.
    + unfold journal_fits, journal_room, small_len in *. cbn [dmj_mutations].
      rewrite vlen_app. change (vlen [_]) with 1. change (vlen []) with 0. lia.
    + rewrite Hins. constructor.
Qed.

Lemma saturating_add_1 a : a < 2 ^ 60 → saturating_add a 1 = a + 1.
Proof. unfold saturating_add, usize_max, two64. lia. Qed.

Lemma journals_remove j es size iu t i k :
  journals j es size iu t → journal_room j es → es !! i = Some k →
  ∃ j', dmj_record_removed j (Z.of_nat i) k false = Ok j' ∧
    journals j' (delete i es) size iu (tb_remove t i).
Proof.
  intros (Hsize & Hu & Hho & es0 & Hfit & Hh) Hroom Hi.
  pose proof (lookup_lt_Some _ _ _ Hi) as Hlt. pose proof (vlen_nonneg (dmj_mutations j)).
  destruct (removed_word (Z.of_nat i) k false) as (m & Hm & _).
  { unfold journal_room, small_len, vlen in *. lia. }
  unfold dmj_record_removed. rewrite Hm. cbn [mbind res_bind]. eexists. split; [done|].
  split_and!; [done|done| |].
  { destruct Hho as (Hn1 & Hn2 & Hn3). unfold holes_ok.
    cbn [dmj_non_pop_removals dmj_mutations dmj_has_pop tb_remove tb_remove_at tb_ents].
    rewrite vlen_app. change (vlen [_]) with 1. rewrite saturating_add_1
      by (unfold journal_room, small_len in *; pose proof (vlen_nonneg es); lia).
    unfold vlen in *. rewrite length_insert, length_delete by done.
    split_and!; [lia|lia|lia|]. intros Hp. specialize (Hn3 Hp). lia. }
  exists es0. cbn [dmj_mutations].
  split; [by eapply journal_room_fits|]. by eapply history_remove.
Qed.

Lemma journals_pop j es size iu t k :
  journals j (es ++ [k]) size iu t → journal_room j (es ++ [k]) →
  ∃ j', dmj_record_removed j (vlen es) k true = Ok j' ∧ journals j' es size iu (tb_pop t).
Proof.
  intros Hj Hroom. destruct (journals_live _ _ _ _ _ Hj) as [Hwf Hl].
  destruct Hj as (Hsize & Hu & Hho & es0 & Hfit & Hh). pose proof (vlen_nonneg (dmj_mutations j)).
  destruct (removed_word (vlen es) k true) as (m & Hm & _).
  { unfold journal_room, small_len in *. rewrite vlen_app in Hroom. unfold vlen in *. cbn in Hroom. lia. }
  unfold dmj_record_removed. rewrite Hm. cbn [mbind res_bind]. eexists. split; [done|].
  split_and!; [done|done| |].
  { destruct Hho as (Hn1 & Hn2 & Hn3). unfold holes_ok.
    cbn [dmj_non_pop_removals dmj_mutations dmj_has_pop tb_pop tb_trim tb_remove tb_remove_at tb_ents].
    rewrite vlen_app in Hn2. rewrite vlen_app. change (vlen [_]) with 1 in *.
    split_and!; [lia|lia| |done]. rewrite Hl, length_app, Nat.add_sub.
    assert (Hts : (length (trim (<[live_pos (tb_ents t) (length es) := None]> (tb_ents t)))
      < length (tb_ents t))%nat).
    { apply trim_shorter. fold (tb_live t). rewrite Hl, length_app. cbn. lia. }
    unfold vlen in *. lia. }
  exists es0. cbn [dmj_mutations].
  split; [by eapply journal_room_fits|]. by eapply history_pop.
Qed.

(** The number of mutations after an insertion. *)
Lemma rebased_empty j n j' size :
  dmj_record_inserted j n = Ok (j', Some size) → dmj_mutations j' = [].
Proof.
  unfold dmj_record_inserted. intros (b & _ & Hr)%bind_Ok.
  apply bind_Ok in Hr as ([j1 o] & H1 & Hr).
  destruct (dmj_usable j =? 0).
  - apply bind_Ok in H1 as (s & _ & H1). apply bind_Ok in H1 as (u & _ & [= <- <-]).
    apply bind_Ok in Hr as (? & _ & Hr). apply bind_Ok in Hr as (? & _ & [= <- _]). done.
  - injection H1 as <- <-. apply bind_Ok in Hr as (? & _ & Hr). by apply bind_Ok in Hr as (? & _ & ?).
Qed.

Lemma inserted_len j n j' :
  dmj_record_inserted j n = Ok (j', None) →
  vlen (dmj_mutations j') = vlen (dmj_mutations j) + 1.
Proof.
  unfold dmj_record_inserted. intros (b & _ & Hr)%bind_Ok.
  apply bind_Ok in Hr as ([j1 o] & H1 & Hr).
  destruct (dmj_usable j =? 0).
  - apply bind_Ok in H1 as (s & _ & H1). apply bind_Ok in H1 as (u & _ & [= <- <-]).
    apply bind_Ok in Hr as (? & _ & Hr). by apply bind_Ok in Hr as (? & _ & ?).
  - injection H1 as <- <-. apply bind_Ok in Hr as (? & _ & Hr).
    apply bind_Ok in Hr as (? & _ & [= <-]). cbn [dmj_mutations]. by rewrite vlen_app.
Qed.

Lemma removed_len j n k popped j' :
  dmj_record_removed j n k popped = Ok j' → vlen (dmj_mutations j') = vlen (dmj_mutations j) + 1.
Proof.
  unfold dmj_record_removed. intros (m & _ & [= <-])%bind_Ok. cbn [dmj_mutations]. by rewrite vlen_app.
Qed.

(** ** Copying without materializing *)

Lemma copy_layout_exact (t : table K) :
  vlen (tb_ents t) < 2 ^ 63 →
  dpi_copy_preserves_layout (idx_of t) = Ok (2 * vlen (tb_ents t) / 3 <=? vlen (tb_live t)).
Proof.
  intros Hlt. unfold dpi_copy_preserves_layout. cbn [dpi_replay_metadata dpi_entry_keys dpi_live_len idx_of].
  rewrite bool_decide_true by done. cbn [rassert mbind res_bind].
  pose proof (vlen_nonneg (tb_ents t)). unfold saturating_mul, usize_max, two64.
  do 2 f_equal. f_equal. lia.
Qed.

(** The estimates made from the journal alone agree with the replayed index. *)
Lemma journal_copy_estimates j es size iu t :
  journals j es size iu t → journal_room j es →
  (dmj_copy_definitely_preserves_layout j (vlen es) = true →
     dpi_copy_preserves_layout (idx_of t) = Ok true) ∧
  (dmj_copy_definitely_compacts_layout j (vlen es) = true →
     dpi_copy_preserves_layout (idx_of t) = Ok false).
Proof.
  intros Hj Hroom. destruct (journals_live _ _ _ _ _ Hj) as [Hwf Hl].
  destruct Hj as (_ & _ & (Hn1 & Hn2 & Hn3) & _). pose proof (vlen_nonneg es).
  unfold journal_room, small_len in Hroom. pose proof (wf_ents_bound _ _ Hwf) as Hb.
  unfold dmj_copy_definitely_preserves_layout, dmj_copy_definitely_compacts_layout.
  rewrite copy_layout_exact, Hl by done.
  assert (Hsat : saturating_mul (saturating_add (vlen es) (dmj_non_pop_removals j)) 2 =
    2 * (vlen es + dmj_non_pop_removals j)).
  { unfold saturating_mul, saturating_add, usize_max, two64. lia. }
  rewrite Hsat. split.
  - intros Hle%Z.leb_le. f_equal. apply Z.leb_le.
    etransitivity; [|exact Hle]. apply Z.div_le_mono; lia.
  - destruct (dmj_has_pop j); [done|]. intros Hlt%Z.ltb_lt. f_equal. apply Z.leb_gt.
    by rewrite (Hn3 eq_refl).
Qed.
End history.
