(* ===== verification/PyDict.v ===== *)
(** The insertion-ordered backing store of a Python [dict]
    (crates/pyrust-core/src/core/prelude.rs, [PyDict]): an [IndexMap] with
    counts of the keys that need Python-level equality, a structural version,
    and either no probe history, a deferred journal, or an active shadow of
    CPython's key table. *)

From S2P Require Import Prelude ReplaySeq Probe DictIndex DictJournal.

(** ** The entries: an [IndexMap]

    [IndexMap] is a third-party crate.  The model takes its operations as a
    parameter; [im_entries] is its iteration order, and the laws are its
    documented behaviour. *)
Class IndexMap (K V M : Type) := {
  im_entries : M → list (K * V);
  im_empty : M;
  im_get_index_of : M → K → option nat;
  im_insert_full : M → K → V → M * (nat * option V);
  im_shift_remove_index : M → nat → M * option (K * V);
  im_swap_remove_index : M → nat → M * option (K * V);
  im_pop : M → M * option (K * V);
  im_retain : M → (K → V → bool * V) → M;
  im_move_index : M → nat → nat → res M;
}.

(** [Vec::swap_remove]. *)
Definition swap_delete {A} (i : nat) (l : list A) : list A :=
  match last l with
  | Some x => if (i =? length l - 1)%nat then removelast l else <[i := x]> (removelast l)
  | None => l
  end.

Class IndexMapLaws (K V M : Type) `{ProbeKey K} `{IndexMap K V M} : Prop := {
  im_entries_empty : im_entries im_empty = [];
  im_get_index_of_Some m k i :
    im_get_index_of m k = Some i ↔
    ∃ k' v, im_entries m !! i = Some (k', v) ∧ pk_eqb k' k = true ∧
      ∀ j k2 v2, im_entries m !! j = Some (k2, v2) → pk_eqb k2 k = true → (i ≤ j)%nat;
  im_insert_full_new m k v :
    im_get_index_of m k = None →
    (im_insert_full m k v).2 = (length (im_entries m), None) ∧
    im_entries (im_insert_full m k v).1 = im_entries m ++ [(k, v)];
  im_insert_full_old m k v i k' v' :
    im_get_index_of m k = Some i → im_entries m !! i = Some (k', v') →
    (im_insert_full m k v).2 = (i, Some v') ∧
    im_entries (im_insert_full m k v).1 = <[i := (k', v)]> (im_entries m);
  im_shift_remove_index_spec m i :
    (im_shift_remove_index m i).2 = im_entries m !! i ∧
    im_entries (im_shift_remove_index m i).1 = delete i (im_entries m);
  im_swap_remove_index_spec m i :
    (i < length (im_entries m))%nat →
    (im_swap_remove_index m i).2 = im_entries m !! i ∧
    im_entries (im_swap_remove_index m i).1 = swap_delete i (im_entries m);
  im_pop_spec m :
    (im_pop m).2 = last (im_entries m) ∧ im_entries (im_pop m).1 = removelast (im_entries m);
  im_retain_spec m f :
    im_entries (im_retain m f) =
      omap (λ '(k, v), if (f k v).1 then Some (k, (f k v).2) else None) (im_entries m);
  im_move_index_spec m from to e :
    im_entries m !! from = Some e → (to < length (im_entries m))%nat →
    ∃ m', im_move_index m from to = Ok m' ∧
      im_entries m' = take to (delete from (im_entries m)) ++ e :: drop to (delete from (im_entries m));
}.

Definition POISONED_OBJECT_KEY_COUNT : Z := usize_max.

(** ** Data *)

Record PyDict (K M : Type) := {
  pd_entries : M;
  pd_live_object_key_count : Z;
  pd_live_dynamic_key_count : Z;
  pd_structural_version : Z;
  pd_python_hash_index : option (DictPythonHashIndex K);
  pd_python_hash_mutation_journal : option DictMutationJournal;
  pd_python_hash_initial_table_size : Z;
  pd_python_hash_initial_table_kind : DictKeyTableKind;
  pd_python_key_table_kind : DictKeyTableKind;
}.
Arguments pd_entries {K M} _.
Arguments pd_live_object_key_count {K M} _.
Arguments pd_live_dynamic_key_count {K M} _.
Arguments pd_structural_version {K M} _.
Arguments pd_python_hash_index {K M} _.
Arguments pd_python_hash_mutation_journal {K M} _.
Arguments pd_python_hash_initial_table_size {K M} _.
Arguments pd_python_hash_initial_table_kind {K M} _.
Arguments pd_python_key_table_kind {K M} _.

Section operations.
Context {K V M : Type} `{ProbeKey K} `{IndexMap K V M}.
Implicit Types self : PyDict K M.

(** [entries.keys()] *)
Definition pd_keys (m : M) : list K := (im_entries m).*1.
Definition pd_len (m : M) : Z := vlen (im_entries m).

(** *** Field updates *)

Definition pd_set_entries (entries : M) self : PyDict K M :=
  {| pd_entries := entries;
     pd_live_object_key_count := pd_live_object_key_count self;
     pd_live_dynamic_key_count := pd_live_dynamic_key_count self;
     pd_structural_version := pd_structural_version self;
     pd_python_hash_index := pd_python_hash_index self;
     pd_python_hash_mutation_journal := pd_python_hash_mutation_journal self;
     pd_python_hash_initial_table_size := pd_python_hash_initial_table_size self;
     pd_python_hash_initial_table_kind := pd_python_hash_initial_table_kind self;
     pd_python_key_table_kind := pd_python_key_table_kind self |}.

Definition pd_set_counts (objects dynamics : Z) self : PyDict K M :=
  {| pd_entries := pd_entries self;
     pd_live_object_key_count := objects;
     pd_live_dynamic_key_count := dynamics;
     pd_structural_version := pd_structural_version self;
     pd_python_hash_index := pd_python_hash_index self;
     pd_python_hash_mutation_journal := pd_python_hash_mutation_journal self;
     pd_python_hash_initial_table_size := pd_python_hash_initial_table_size self;
     pd_python_hash_initial_table_kind := pd_python_hash_initial_table_kind self;
     pd_python_key_table_kind := pd_python_key_table_kind self |}.

Definition pd_set_history (index : option (DictPythonHashIndex K))
    (journal : option DictMutationJournal) self : PyDict K M :=
  {| pd_entries := pd_entries self;
     pd_live_object_key_count := pd_live_object_key_count self;
     pd_live_dynamic_key_count := pd_live_dynamic_key_count self;
     pd_structural_version := pd_structural_version self;
     pd_python_hash_index := index;
     pd_python_hash_mutation_journal := journal;
     pd_python_hash_initial_table_size := pd_python_hash_initial_table_size self;
     pd_python_hash_initial_table_kind := pd_python_hash_initial_table_kind self;
     pd_python_key_table_kind := pd_python_key_table_kind self |}.

Definition pd_set_tables (size : Z) (initial current : DictKeyTableKind) self : PyDict K M :=
  {| pd_entries := pd_entries self;
     pd_live_object_key_count := pd_live_object_key_count self;
     pd_live_dynamic_key_count := pd_live_dynamic_key_count self;
     pd_structural_version := pd_structural_version self;
     pd_python_hash_index := pd_python_hash_index self;
     pd_python_hash_mutation_journal := pd_python_hash_mutation_journal self;
     pd_python_hash_initial_table_size := size;
     pd_python_hash_initial_table_kind := initial;
     pd_python_key_table_kind := current |}.

Definition pd_bump_structural_version self : PyDict K M :=
  {| pd_entries := pd_entries self;
     pd_live_object_key_count := pd_live_object_key_count self;
     pd_live_dynamic_key_count := pd_live_dynamic_key_count self;
     pd_structural_version := wrapping_add (pd_structural_version self) 1;
     pd_python_hash_index := pd_python_hash_index self;
     pd_python_hash_mutation_journal := pd_python_hash_mutation_journal self;
     pd_python_hash_initial_table_size := pd_python_hash_initial_table_size self;
     pd_python_hash_initial_table_kind := pd_python_hash_initial_table_kind self;
     pd_python_key_table_kind := pd_python_key_table_kind self |}.

(** *** Constructors *)

Definition pd_with_capacity_and_hasher (capacity : Z) : res (PyDict K M) :=
  size ← dpi_table_size_for_capacity capacity;
  let initial_kind := if capacity =? 0 then KindUnicode else KindUnknown in
  Ok {| pd_entries := im_empty; pd_live_object_key_count := 0; pd_live_dynamic_key_count := 0;
        pd_structural_version := 0; pd_python_hash_index := None;
        pd_python_hash_mutation_journal := None;
        pd_python_hash_initial_table_size := size;
        pd_python_hash_initial_table_kind := initial_kind;
        pd_python_key_table_kind := initial_kind |}.

Definition kind_of_unicode (unicode_only : bool) : DictKeyTableKind :=
  if unicode_only then KindUnicode else KindGeneral.

Definition pd_with_capacity_and_known_key_kind (capacity : Z) (unicode_only : bool) :
    res (PyDict K M) :=
  dict ← pd_with_capacity_and_hasher capacity;
  if capacity <=? dict_probe_usable_fraction 8 then Ok dict
  else
    let kind := kind_of_unicode unicode_only in
    Ok (pd_set_tables (pd_python_hash_initial_table_size dict) kind kind dict).

Definition pd_with_fromkeys_fast_path (capacity : Z) (unicode_only : bool) : res (PyDict K M) :=
  dict ← pd_with_capacity_and_hasher capacity;
  let estimate := saturating_add (saturating_mul capacity 3) 1 / 2 in
  size ← dpi_table_size_for_target estimate;
  let kind := kind_of_unicode unicode_only in
  Ok (pd_set_tables size kind kind dict).

Definition pd_default : res (PyDict K M) := pd_with_capacity_and_hasher 0.

(** *** Queries *)

Definition pd_may_have_non_object_key self : bool :=
  (pd_live_object_key_count self =? POISONED_OBJECT_KEY_COUNT)
  || (pd_live_object_key_count self <? pd_len (pd_entries self)).

Definition pd_may_have_object_key self : bool := negb (pd_live_object_key_count self =? 0).

Definition pd_may_have_dynamic_key self : bool := negb (pd_live_dynamic_key_count self =? 0).

Definition pd_may_have_non_dynamic_key self : bool :=
  (pd_live_dynamic_key_count self =? POISONED_OBJECT_KEY_COUNT)
  || (pd_live_dynamic_key_count self <? pd_len (pd_entries self)).

Definition pd_python_hash_candidates self (python_hash : Z) : res (option (list K)) :=
  match pd_python_hash_index self with
  | Some index => cs ← dpi_candidates index python_hash; Ok (Some cs)
  | None => Ok None
  end.

Definition pd_python_hash_has_object_candidate self (python_hash : Z) : res bool :=
  match pd_python_hash_index self with
  | Some index => dpi_has_object_candidate index python_hash
  | None => Ok false
  end.

Definition pd_python_hash_has_dynamic_candidate self (python_hash : Z) : res bool :=
  match pd_python_hash_index self with
  | Some index => dpi_has_dynamic_candidate index python_hash
  | None => Ok false
  end.

Definition pd_has_non_object_python_hash self (python_hash : Z) : res bool :=
  match pd_python_hash_index self with
  | Some index => dpi_has_non_object_key index python_hash
  | None => Ok false
  end.

Definition pd_metadata_is_precise self : bool :=
  negb (pd_live_object_key_count self =? POISONED_OBJECT_KEY_COUNT)
  && negb (pd_live_dynamic_key_count self =? POISONED_OBJECT_KEY_COUNT).

Definition pd_requires_python_hash_index self : bool :=
  pd_metadata_is_precise self
  && ((pd_live_object_key_count self <? pd_live_dynamic_key_count self)
      || (negb (pd_live_object_key_count self =? 0)
          && (pd_live_object_key_count self <? pd_len (pd_entries self)))).

(** [DictPythonHashIndex::from_entries] with this dict's table parameters. *)
Definition pd_index_from_entries (size : Z) self : res (DictPythonHashIndex K) :=
  dpi_from_entries (pd_keys (pd_entries self)) size
    (kind_is_unicode (pd_python_hash_initial_table_kind self))
    (kind_is_unicode (pd_python_key_table_kind self)).

Definition pd_materialize (journal : DictMutationJournal) self : res (DictPythonHashIndex K) :=
  dmj_materialize journal (pd_keys (pd_entries self)) (pd_python_hash_initial_table_size self)
    (kind_is_unicode (pd_python_hash_initial_table_kind self))
    (kind_is_unicode (pd_python_key_table_kind self)).

(** *** History maintenance *)

Definition pd_repair_poisoned_metadata self : res (PyDict K M) :=
  if pd_metadata_is_precise self then Ok self
  else
    let keys := pd_keys (pd_entries self) in
    let self := pd_set_counts (count_if pk_is_object keys) (count_if pk_contains_object keys) self in
    let self := pd_set_history (pd_python_hash_index self) None self in
    index ← (if pd_requires_python_hash_index self
             then index ← pd_index_from_entries 0 self; Ok (Some index)
             else Ok None);
    Ok (pd_set_history index None self).

Definition pd_ensure_python_hash_index self : res (PyDict K M) :=
  self ← pd_repair_poisoned_metadata self;
  match pd_python_hash_index self with
  | Some _ => Ok self
  | None =>
      index ← match pd_python_hash_mutation_journal self with
              | Some journal => pd_materialize journal self
              | None => pd_index_from_entries (pd_python_hash_initial_table_size self) self
              end;
      Ok (pd_set_history (Some index) None self)
  end.

(** The Unicode to General transition, made before the key is looked up. *)
Definition pd_convert_to_general self : res (PyDict K M) :=
  let self := pd_set_tables (pd_python_hash_initial_table_size self)
                (pd_python_hash_initial_table_kind self) KindGeneral self in
  if pd_len (pd_entries self) =? 0 then
    Ok (pd_set_tables 8 (pd_python_hash_initial_table_kind self)
          (pd_python_key_table_kind self) self)
  else
    self ← pd_ensure_python_hash_index self;
    index ← expect (pd_python_hash_index self);
    index ← dpi_prepare_general_insert index;
    Ok (pd_bump_structural_version
          (pd_set_history (Some index) (pd_python_hash_mutation_journal self) self)).

Definition pd_prepare_python_insert self (key : K) : res (PyDict K M) :=
  self ← pd_repair_poisoned_metadata self;
  match pd_python_key_table_kind self with
  | KindGeneral => Ok self
  | KindUnknown =>
      _ ← rassert (pd_len (pd_entries self) =? 0);
      let kind := kind_of_unicode (pk_is_str key) in
      Ok (pd_set_tables (pd_python_hash_initial_table_size self) kind kind self)
  | KindUnicode => if pk_is_str key then Ok self else pd_convert_to_general self
  end.

Definition pd_record_inserted_index self (entry_index : nat) (is_object is_dynamic : bool) :
    res (PyDict K M) :=
  let self := pd_set_counts
    (if is_object then saturating_add (pd_live_object_key_count self) 1
     else pd_live_object_key_count self)
    (if is_dynamic then saturating_add (pd_live_dynamic_key_count self) 1
     else pd_live_dynamic_key_count self) self in
  let self := pd_bump_structural_version self in
  match pd_python_hash_index self with
  | Some index =>
      entry ← vnth (im_entries (pd_entries self)) entry_index;
      index ← dpi_record_inserted index entry.1;
      Ok (pd_set_history (Some index) (pd_python_hash_mutation_journal self) self)
  | None =>
      self ← match pd_python_hash_mutation_journal self with
             | Some journal =>
                 '(journal, rebased_table_size) ←
                   dmj_record_inserted journal (pd_len (pd_entries self));
                 let self := pd_set_history (pd_python_hash_index self) (Some journal) self in
                 match rebased_table_size with
                 | Some table_size =>
                     Ok (pd_set_tables table_size (pd_python_key_table_kind self)
                           (pd_python_key_table_kind self) self)
                 | None => Ok self
                 end
             | None => Ok self
             end;
      if is_dynamic || negb (pd_live_object_key_count self =? 0) then
        if negb (pd_requires_python_hash_index self) then Ok self
        else pd_ensure_python_hash_index self
      else Ok self
  end.

Definition pd_prepare_removal_history self : res (PyDict K M) :=
  match pd_python_hash_index self, pd_python_hash_mutation_journal self with
  | None, None =>
      journal ← dmj_from_current_entries (pd_python_hash_initial_table_size self)
                  (pd_len (pd_entries self));
      Ok (pd_set_history None (Some journal) self)
  | _, _ => Ok self
  end.

Definition pd_record_removed_metadata self (key : K) : res (PyDict K M) :=
  objects ← (if pk_is_object key then usize_sub (pd_live_object_key_count self) 1
             else Ok (pd_live_object_key_count self));
  dynamics ← (if pk_contains_object key then usize_sub (pd_live_dynamic_key_count self) 1
              else Ok (pd_live_dynamic_key_count self));
  Ok (pd_bump_structural_version (pd_set_counts objects dynamics self)).

Definition pd_record_removed_key self (entry_index : Z) (key : K) (popped : bool) :
    res (PyDict K M) :=
  self ← match pd_python_hash_index self with
         | Some index =>
             index ← (if popped then dpi_record_popped index key
                      else dpi_record_removed index key);
             Ok (pd_set_history (Some index) (pd_python_hash_mutation_journal self) self)
         | None =>
             journal ← expect (pd_python_hash_mutation_journal self);
             journal ← dmj_record_removed journal entry_index key popped;
             Ok (pd_set_history None (Some journal) self)
         end;
  pd_record_removed_metadata self key.

(** *** Mutations *)

Definition pd_insert self (key : K) (value : V) : res (PyDict K M * option V) :=
  let is_object := pk_is_object key in
  let is_dynamic := pk_contains_object key in
  self ← pd_prepare_python_insert self key;
  let '(entries, (entry_index, replaced)) := im_insert_full (pd_entries self) key value in
  let self := pd_set_entries entries self in
  match replaced with
  | None =>
      self ← pd_record_inserted_index self entry_index is_object is_dynamic;
      Ok (self, None)
  | Some old => Ok (self, Some old)
  end.

Definition pd_extend self (entries : list (K * V)) : res (PyDict K M) :=
  rfold (λ self '(key, value), '(self, _) ← pd_insert self key value; Ok self) self entries.

Definition pd_from_iter (entries : list (K * V)) : res (PyDict K M) :=
  dict ← pd_default; pd_extend dict entries.

Definition pd_clear self : PyDict K M :=
  let changed := negb (pd_len (pd_entries self) =? 0) in
  let self := pd_set_entries im_empty self in
  let self := pd_set_counts 0 0 self in
  let self := pd_set_history None None self in
  let self := pd_set_tables 0 KindUnicode KindUnicode self in
  if changed then pd_bump_structural_version self else self.

Definition pd_shift_remove_index self (index : nat) : res (PyDict K M * option (K * V)) :=
  self ← pd_repair_poisoned_metadata self;
  match im_entries (pd_entries self) !! index with
  | None => Ok (self, None)
  | Some _ =>
      self ← pd_prepare_removal_history self;
      let '(entries, removed) := im_shift_remove_index (pd_entries self) index in
      let self := pd_set_entries entries self in
      match removed with
      | None => Ok (self, None)
      | Some removed =>
          self ← pd_record_removed_key self (Z.of_nat index) removed.1 false;
          Ok (self, Some removed)
      end
  end.

Definition pd_shift_remove self (key : K) : res (PyDict K M * option V) :=
  self ← pd_repair_poisoned_metadata self;
  match im_get_index_of (pd_entries self) key with
  | None => Ok (self, None)
  | Some index =>
      self ← pd_prepare_removal_history self;
      let '(entries, removed) := im_shift_remove_index (pd_entries self) index in
      let self := pd_set_entries entries self in
      match removed with
      | None => Ok (self, None)
      | Some (stored_key, value) =>
          self ← pd_record_removed_key self (Z.of_nat index) stored_key false;
          Ok (self, Some value)
      end
  end.

Definition pd_swap_remove self (key : K) : res (PyDict K M * option V) :=
  self ← pd_repair_poisoned_metadata self;
  match im_get_index_of (pd_entries self) key with
  | None => Ok (self, None)
  | Some index =>
      self ← pd_ensure_python_hash_index self;
      let '(entries, removed) := im_swap_remove_index (pd_entries self) index in
      let self := pd_set_entries entries self in
      match removed with
      | None => Ok (self, None)
      | Some (stored_key, value) =>
          self ← pd_record_removed_key self (Z.of_nat index) stored_key false;
          Ok (self, Some value)
      end
  end.

Definition pd_pop self : res (PyDict K M * option (K * V)) :=
  self ← pd_repair_poisoned_metadata self;
  if pd_len (pd_entries self) =? 0 then Ok (self, None)
  else
    let index := pd_len (pd_entries self) - 1 in
    self ← pd_prepare_removal_history self;
    let '(entries, removed) := im_pop (pd_entries self) in
    let self := pd_set_entries entries self in
    match removed with
    | None => Ok (self, None)
    | Some removed =>
        self ← pd_record_removed_key self index removed.1 true;
        Ok (self, Some removed)
    end.

(** [keep] may replace the value it is shown. *)
Definition pd_retain self (keep : K → V → bool * V) : res (PyDict K M) :=
  self ← pd_repair_poisoned_metadata self;
  let had_history := bool_decide (is_Some (pd_python_hash_index self))
                     || bool_decide (is_Some (pd_python_hash_mutation_journal self)) in
  self ← pd_ensure_python_hash_index self;
  let removed_keys :=
    (filter (λ '(k, v), (keep k v).1 = false) (im_entries (pd_entries self))).*1 in
  let removed_object_count := count_if pk_is_object removed_keys in
  let removed_dynamic_count := count_if pk_contains_object removed_keys in
  let self := pd_set_entries (im_retain (pd_entries self) keep) self in
  if vlen removed_keys =? 0 then
    if negb had_history
    then Ok (pd_set_history None (pd_python_hash_mutation_journal self) self)
    else Ok self
  else
    index ← expect (pd_python_hash_index self);
    index ← rfold dpi_record_removed index removed_keys;
    let self := pd_set_history (Some index) (pd_python_hash_mutation_journal self) self in
    objects ← usize_sub (pd_live_object_key_count self) removed_object_count;
    dynamics ← usize_sub (pd_live_dynamic_key_count self) removed_dynamic_count;
    Ok (pd_bump_structural_version (pd_set_counts objects dynamics self)).

Definition pd_move_index self (from to : nat) : res (PyDict K M) :=
  self ← pd_ensure_python_hash_index self;
  entries ← im_move_index (pd_entries self) from to;
  Ok (pd_set_entries entries self).

(** [DerefMut]: handing out the raw map poisons every derived fact.  [mutate]
    is what the caller does with the map. *)
Definition pd_deref_mut self (mutate : M → M) : PyDict K M :=
  let self := pd_set_counts POISONED_OBJECT_KEY_COUNT POISONED_OBJECT_KEY_COUNT self in
  let self := pd_set_history None None self in
  let self := pd_set_tables 0 KindGeneral KindGeneral self in
  let self := pd_bump_structural_version self in
  pd_set_entries (mutate (pd_entries self)) self.

(** *** [Clone] *)

(** The shadow of the copy, before the layout is checked; the copied journal;
    the table size of a sparse copy that needs no slot replay. *)
Definition pd_clone_history self (metadata_was_precise shadow_required : bool) :
    res (option (DictPythonHashIndex K) * option DictMutationJournal * option Z) :=
  if metadata_was_precise then
    match pd_python_hash_index self, pd_python_hash_mutation_journal self with
    | Some index, _ => Ok (Some index, None, None)
    | None, Some journal =>
        if dmj_copy_definitely_preserves_layout journal (pd_len (pd_entries self)) then
          Ok (None, Some journal, None)
        else if dmj_copy_definitely_compacts_layout journal (pd_len (pd_entries self)) then
          size ← dpi_sparse_copy_table_size (pd_len (pd_entries self));
          Ok (None, None, Some size)
        else index ← pd_materialize journal self; Ok (Some index, None, None)
    | None, None =>
        if shadow_required then
          index ← pd_index_from_entries (pd_python_hash_initial_table_size self) self;
          Ok (Some index, None, None)
        else Ok (None, None, None)
    end
  else if shadow_required then
    index ← dpi_from_entries (pd_keys (pd_entries self)) 0 false false;
    Ok (Some index, None, None)
  else Ok (None, None, None).

Definition pd_clone_layout (index : DictPythonHashIndex K) : res (DictPythonHashIndex K) :=
  preserves ← dpi_copy_preserves_layout index;
  if (preserves : bool) then Ok index else dpi_compacted_copy index.

Definition pd_clone self : res (PyDict K M) :=
  let keys := pd_keys (pd_entries self) in
  if pd_len (pd_entries self) =? 0 then
    Ok {| pd_entries := pd_entries self; pd_live_object_key_count := 0;
          pd_live_dynamic_key_count := 0;
          pd_structural_version := pd_structural_version self;
          pd_python_hash_index := None; pd_python_hash_mutation_journal := None;
          pd_python_hash_initial_table_size := 0;
          pd_python_hash_initial_table_kind := KindUnicode;
          pd_python_key_table_kind := KindUnicode |}
  else
    let precise := negb (pd_live_object_key_count self =? POISONED_OBJECT_KEY_COUNT) in
    let objects := if precise then pd_live_object_key_count self
                   else count_if pk_is_object keys in
    let dynamics := if precise then pd_live_dynamic_key_count self
                    else count_if pk_contains_object keys in
    let shadow_required := (objects <? dynamics)
      || (negb (objects =? 0) && (objects <? pd_len (pd_entries self))) in
    '(source, journal, compacted) ← pd_clone_history self precise shadow_required;
    index ← match source with
            | Some index => index ← pd_clone_layout index; Ok (Some index)
            | None => Ok None
            end;
    let current_kind :=
      if precise then
        match index with
        | Some index => kind_of_unicode (dpi_unicode_only index)
        | None => pd_python_key_table_kind self
        end
      else KindGeneral in
    Ok {| pd_entries := pd_entries self; pd_live_object_key_count := objects;
          pd_live_dynamic_key_count := dynamics;
          pd_structural_version := pd_structural_version self;
          pd_python_hash_index := index; pd_python_hash_mutation_journal := journal;
          pd_python_hash_initial_table_size :=
            default (if precise then pd_python_hash_initial_table_size self else 0) compacted;
          pd_python_hash_initial_table_kind :=
            if bool_decide (is_Some compacted) then current_kind
            else if precise then pd_python_hash_initial_table_kind self else KindGeneral;
          pd_python_key_table_kind := current_kind |}.
End operations.

(** ** A list of entries is an [IndexMap]

    The instance used to evaluate the model on concrete dicts. *)
Section list_map.
Context {K V : Type} `{ProbeKey K}.

Fixpoint lm_index_of (m : list (K * V)) (k : K) : option nat :=
  match m with
  | [] => None
  | (k', _) :: m => if pk_eqb k' k then Some 0%nat else S <$> lm_index_of m k
  end.

#[export] Instance list_index_map : IndexMap K V (list (K * V)) := {
  im_entries m := m;
  im_empty := [];
  im_get_index_of := lm_index_of;
  im_insert_full m k v :=
    match lm_index_of m k with
    | Some i =>
        match m !! i with
        | Some (k', v') => (<[i := (k', v)]> m, (i, Some v'))
        | None => (m, (i, None))
        end
    | None => (m ++ [(k, v)], (length m, None))
    end;
  im_shift_remove_index m i := (delete i m, m !! i);
  im_swap_remove_index m i := (swap_delete i m, m !! i);
  im_pop m := (removelast m, last m);
  im_retain m f := omap (λ '(k, v), if (f k v).1 then Some (k, (f k v).2) else None) m;
  im_move_index m from to :=
    match m !! from with
    | Some e => if (to <? length m)%nat
                then let m := delete from m in Ok (take to m ++ e :: drop to m) else Panic
    | None => Panic
    end;
}.

Lemma lm_index_of_Some (m : list (K * V)) k i :
  lm_index_of m k = Some i ↔
  ∃ k' v, m !! i = Some (k', v) ∧ pk_eqb k' k = true ∧
    ∀ j k2 v2, m !! j = Some (k2, v2) → pk_eqb k2 k = true → (i ≤ j)%nat.
Proof.
  revert i. induction m as [|[k1 v1] m IH]; intros i; cbn [lm_index_of].
  { split; [done|]. by intros (? & ? & Hi & _). }
  destruct (pk_eqb k1 k) eqn:He.
  - split.
    + intros [= <-]. exists k1, v1. split_and!; [done|done|]. intros; lia.
    + intros (k' & v & Hi & Hk & Hmin). f_equal. specialize (Hmin 0%nat k1 v1 eq_refl He). lia.
  - split.
    + intros (j & Hj & ->)%fmap_Some. apply IH in Hj as (k' & v & Hi & Hk & Hmin).
      exists k', v. split_and!; [done|done|]. intros [|j'] k2 v2 H2 He2; [cbn in H2; congruence|].
      apply le_n_S. by eapply Hmin.
    + intros (k' & v & Hi & Hk & Hmin). destruct i as [|i]; [cbn in Hi; congruence|].
      cbn in Hi. apply fmap_Some. exists i. split; [|done]. apply IH.
      exists k', v. split_and!; [done|done|]. intros j k2 v2 H2 He2.
      specialize (Hmin (S j) k2 v2 H2 He2). lia.
Qed.

#[export] Instance list_index_map_laws : IndexMapLaws K V (list (K * V)).
Proof.
  split; try done.
  - apply lm_index_of_Some.
  - intros m k v Hn. cbn in *. by rewrite Hn.
  - intros m k v i k' v' Hi Hm. cbn in *. by rewrite Hi, Hm.
  - intros m from to e Hf Ht. cbn [im_move_index list_index_map im_entries] in *. rewrite Hf, (proj2 (Nat.ltb_lt _ _) Ht). by eexists.
Qed.
End list_map.
