(* ===== verification/PyDictSpec.v ===== *)
(** [PyDict] refines a dict whose key table is always up to date.

    The abstract state is the list of entries and the eager table [t] of
    DictTable.v.  [pd_rep] says how a dict stores that table: as the active
    shadow, as a deferred journal, or not at all, when the entries and the
    initial table parameters determine it. *)

From S2P Require Import Prelude ReplaySeq Probe DictIndex DictTable DictIndexSpec.
From S2P Require Import DictReplaySpec DictJournal DictJournalSpec PyDict.

Section refinement.
Context {K V M : Type} `{HPK : ProbeKey K} `{HL : !ProbeKeyLaws K} `{HIM : IndexMap K V M}
  `{HML : !IndexMapLaws K V M}.
Implicit Types (d : PyDict K M) (t : table K).

#[local] Abbreviation kinsert := (tb_insert (pk_hash (K := K)) pk_is_str).
#[local] Abbreviation kwf := (tb_wf (pk_hash (K := K))).
#[local] Abbreviation general := (tb_to_general (pk_hash (K := K))).
#[local] Abbreviation keys := (λ d, pd_keys (pd_entries d)).
#[local] Abbreviation base d := (foldl kinsert
  (tb_empty (pd_python_hash_initial_table_size d)
     (kind_is_unicode (pd_python_hash_initial_table_kind d)))).

(** How the history fields encode the table [t]. *)
Definition pd_history d (t : table K) : Prop :=
  match pd_python_hash_index d, pd_python_hash_mutation_journal d with
  | Some index, None => index = idx_of t ∧ tb_live t ≡ₚ pd_keys (pd_entries d)
  | None, Some j =>
      journals j (pd_keys (pd_entries d)) (pd_python_hash_initial_table_size d)
        (kind_is_unicode (pd_python_hash_initial_table_kind d)) t
  | None, None =>
      t = foldl kinsert
            (tb_empty (pd_python_hash_initial_table_size d)
               (kind_is_unicode (pd_python_hash_initial_table_kind d)))
            (pd_keys (pd_entries d)) ∧
      settled (pd_python_hash_initial_table_size d)
        (kind_is_unicode (pd_python_hash_initial_table_kind d)) (pd_keys (pd_entries d))
  | Some _, Some _ => False
  end.

(** The number of deferred mutations. *)
Definition journal_len d : Z :=
  match pd_python_hash_mutation_journal d with Some j => vlen (dmj_mutations j) | None => 0 end.

(** [n] more words of history fit. *)
Definition pd_room d (n : Z) : Prop :=
  small_len (vlen (pd_keys (pd_entries d)) + 2 * journal_len d + n).

Record pd_rep d (t : table K) : Prop := {
  rep_objects : pd_live_object_key_count d = count_if pk_is_object (pd_keys (pd_entries d));
  rep_dynamics : pd_live_dynamic_key_count d = count_if pk_contains_object (pd_keys (pd_entries d));
  rep_distinct : distinct (pd_keys (pd_entries d));
  rep_size : valid_size (pd_python_hash_initial_table_size d);
  rep_kind : pd_python_key_table_kind d = kind_of_unicode (tb_unicode t);
  rep_room : pd_room d 2;
  rep_wf : kwf t;
  rep_history : pd_history d t;
}.

(** ** Helper facts *)

Lemma count_if_bounds {A} (p : A → bool) (v : list A) : 0 ≤ count_if p v ≤ vlen v.
Proof. unfold count_if, vlen. pose proof (length_filter (λ x, p x = true) v). lia. Qed.

Lemma count_if_one {A} (p : A → bool) (x : A) : count_if p [x] = if p x then 1 else 0.
Proof. unfold count_if. rewrite filter_cons. by destruct (p x). Qed.

Lemma pd_len_keys (m : M) : pd_len m = vlen (pd_keys m).
Proof. unfold pd_len, pd_keys. by rewrite vlen_fmap. Qed.

Lemma journal_len_nonneg d : 0 ≤ journal_len d.
Proof. unfold journal_len. destruct (pd_python_hash_mutation_journal d); [apply vlen_nonneg|lia]. Qed.

Lemma rep_small d t : pd_rep d t → small_len (vlen (pd_keys (pd_entries d)) + 2).
Proof.
  intros Hr. pose proof (rep_room _ _ Hr). pose proof (journal_len_nonneg d).
  pose proof (vlen_nonneg (pd_keys (pd_entries d))). unfold pd_room, small_len in *. lia.
Qed.

Lemma precise_ok d t : pd_rep d t → pd_metadata_is_precise d = true.
Proof.
  intros Hr. unfold pd_metadata_is_precise, POISONED_OBJECT_KEY_COUNT.
  rewrite (rep_objects _ _ Hr), (rep_dynamics _ _ Hr). pose proof (rep_small _ _ Hr) as Hs.
  unfold small_len, usize_max, two64 in *.
  pose proof (count_if_bounds pk_is_object (pd_keys (pd_entries d))).
  pose proof (count_if_bounds pk_contains_object (pd_keys (pd_entries d))).
  by rewrite !(proj2 (Z.eqb_neq _ _)) by lia.
Qed.

Lemma repair_ok d t : pd_rep d t → pd_repair_poisoned_metadata d = Ok d.
Proof. intros Hr. unfold pd_repair_poisoned_metadata. by rewrite (precise_ok d t Hr). Qed.

Lemma kind_unicode_id b : kind_is_unicode (kind_of_unicode b) = b.
Proof. by destruct b. Qed.

Lemma general_id t : tb_unicode t = false → general t = t.
Proof. unfold tb_to_general. by intros ->. Qed.

Lemma converted t (cu : bool) :
  cu = tb_unicode t → (if cu then t else general t) = t.
Proof. intros ->. destruct (tb_unicode t) eqn:Hu; [done|by apply general_id]. Qed.

Lemma rep_live_len d t : pd_rep d t → vlen (tb_live t) = vlen (pd_keys (pd_entries d)).
Proof.
  intros Hr. pose proof (rep_history _ _ Hr) as Hh. unfold pd_history in Hh.
  destruct (pd_python_hash_index d), (pd_python_hash_mutation_journal d); [done|..].
  - destruct Hh as [_ Hp]. unfold vlen. by rewrite Hp.
  - by apply journals_live in Hh as [_ ->].
  - destruct Hh as [-> _]. destruct (base_wf (pd_keys (pd_entries d)) (pd_python_hash_initial_table_size d)
      (kind_is_unicode (pd_python_hash_initial_table_kind d))) as (_ & -> & _); [apply Hr| |done].
    pose proof (rep_small _ _ Hr). pose proof (vlen_nonneg (pd_keys (pd_entries d))).
    unfold small_len in *. lia.
Qed.

Lemma rep_live_small d t : pd_rep d t → small_len (vlen (tb_live t)).
Proof.
  intros Hr. rewrite (rep_live_len d t Hr). pose proof (rep_small _ _ Hr).
  pose proof (vlen_nonneg (pd_keys (pd_entries d))). unfold small_len in *. lia.
Qed.

(** ** Activating the shadow *)

(** With current kind [kind], the lazily built index is the table converted to
    that kind. *)
Lemma build_index d t (cu : bool) :
  pd_rep d t → pd_python_hash_index d = None →
  match pd_python_hash_mutation_journal d with
  | Some j => dmj_materialize j (pd_keys (pd_entries d)) (pd_python_hash_initial_table_size d)
                (kind_is_unicode (pd_python_hash_initial_table_kind d)) cu
  | None => dpi_from_entries (pd_keys (pd_entries d)) (pd_python_hash_initial_table_size d)
              (kind_is_unicode (pd_python_hash_initial_table_kind d)) cu
  end = Ok (idx_of (if cu then t else general t)) ∧ tb_live t = pd_keys (pd_entries d).
Proof.
  intros Hr Hi. pose proof (rep_history _ _ Hr) as Hh. unfold pd_history in Hh. rewrite Hi in Hh.
  pose proof (rep_small _ _ Hr) as Hs. pose proof (vlen_nonneg (pd_keys (pd_entries d))).
  assert (Hs' : small_len (vlen (pd_keys (pd_entries d)))) by (unfold small_len in *; lia).
  destruct (pd_python_hash_mutation_journal d) as [j|].
  - split; [by eapply journals_materialize|]. by apply journals_live in Hh as [_ ->].
  - destruct Hh as [-> _]. split.
    + rewrite from_entries_refines by (done || apply Hr). done.
    + by apply (base_wf _ _ _ (rep_size _ _ Hr) Hs').
Qed.

Lemma ensure_refines d t :
  pd_rep d t →
  ∃ d', pd_ensure_python_hash_index d = Ok d' ∧ pd_rep d' t ∧ pd_python_hash_index d' = Some (idx_of t) ∧
    pd_python_hash_mutation_journal d' = None ∧ pd_entries d' = pd_entries d ∧
    pd_structural_version d' = pd_structural_version d.
Proof.
  intros Hr. unfold pd_ensure_python_hash_index. rewrite (repair_ok d t Hr). cbn [mbind res_bind].
  pose proof (rep_history _ _ Hr) as Hh. unfold pd_history in Hh.
  destruct (pd_python_hash_index d) as [i|] eqn:Hi.
  { destruct (pd_python_hash_mutation_journal d) eqn:Hj; [done|]. destruct Hh as [-> Hp].
    exists d. done. }
  destruct (build_index d t (kind_is_unicode (pd_python_key_table_kind d)) Hr Hi) as [Hb Hl].
  rewrite converted in Hb by (by rewrite (rep_kind _ _ Hr), kind_unicode_id).
  exists (pd_set_history (Some (idx_of t)) None d). split_and!; try done.
  - unfold pd_materialize, pd_index_from_entries.
    destruct (pd_python_hash_mutation_journal d); by rewrite Hb.
  - pose proof (rep_small d t Hr) as Hs. destruct Hr. split; try done; cbn.
    + unfold pd_room, journal_len. cbn. by rewrite Z.add_0_r.
    + unfold pd_history. cbn. by rewrite Hl.
Qed.

(** ** Insertion *)

Lemma insert_general t k :
  kwf t → small_len (vlen (tb_live t)) → pk_is_str k = false →
  kinsert (general t) k = kinsert t k.
Proof.
  intros Hwf Hs Hk. destruct (tb_to_general_wf pk_hash t Hwf Hs) as (_ & _ & Hu).
  unfold tb_insert. rewrite Hk. by rewrite (general_id (general t)).
Qed.

Lemma empty_general size unicode k :
  pk_is_str k = false → kinsert (tb_empty size unicode) k = kinsert (tb_empty size false) k ∨
    unicode = true ∧ kinsert (tb_empty size unicode) k = kinsert (tb_empty 8 false) k.
Proof.
  intros Hk. destruct unicode; [right; split; [done|]|by left].
  unfold tb_insert. rewrite Hk. reflexivity.
Qed.

(** The state between [prepare_python_insert] and the insertion of [k]. *)
Record pd_ready d (t : table K) (k : K) : Prop := {
  ready_objects : pd_live_object_key_count d = count_if pk_is_object (pd_keys (pd_entries d));
  ready_dynamics : pd_live_dynamic_key_count d = count_if pk_contains_object (pd_keys (pd_entries d));
  ready_distinct : distinct (pd_keys (pd_entries d));
  ready_size : valid_size (pd_python_hash_initial_table_size d);
  ready_kind : pd_python_key_table_kind d = kind_of_unicode (tb_unicode t && pk_is_str k);
  ready_room : pd_room d 2;
  ready_wf : kwf t;
  ready_len : vlen (tb_live t) = vlen (pd_keys (pd_entries d));
  ready_history :
    match pd_python_hash_index d, pd_python_hash_mutation_journal d with
    | Some index, None => ∃ t1, index = idx_of t1 ∧ kwf t1 ∧ kinsert t1 k = kinsert t k ∧
        tb_live t1 ≡ₚ pd_keys (pd_entries d) ∧ tb_live t ≡ₚ pd_keys (pd_entries d)
    | None, Some j =>
        journals j (pd_keys (pd_entries d)) (pd_python_hash_initial_table_size d)
          (kind_is_unicode (pd_python_hash_initial_table_kind d)) t ∧
        no_conversion t [k]
    | None, None =>
        kinsert t k = foldl kinsert
          (tb_empty (pd_python_hash_initial_table_size d)
             (kind_is_unicode (pd_python_hash_initial_table_kind d)))
          (pd_keys (pd_entries d) ++ [k]) ∧
        settled (pd_python_hash_initial_table_size d)
          (kind_is_unicode (pd_python_hash_initial_table_kind d)) (pd_keys (pd_entries d) ++ [k])
    | Some _, Some _ => False
    end;
}.

(** The dict is not in the state where a General key would be prepared on an
    emptied dict that still holds a deferred journal. *)
Definition convert_safe d (k : K) : Prop :=
  pd_keys (pd_entries d) = [] → pd_python_hash_index d = None →
  pd_python_hash_mutation_journal d = None ∨ pd_python_key_table_kind d = KindGeneral ∨
  pk_is_str k = true.

Lemma base_unicode d t :
  pd_rep d t → pd_python_hash_index d = None →
  tb_unicode t = true → Forall (λ k, pk_is_str k = true) (pd_keys (pd_entries d)).
Proof.
  intros Hr Hi. pose proof (rep_history _ _ Hr) as Hh. unfold pd_history in Hh. rewrite Hi in Hh.
  destruct (pd_python_hash_mutation_journal d) as [j|]; [by eapply journals_kinds|].
  destruct Hh as [-> _]. apply base_kinds; [apply Hr|]. pose proof (rep_small d _ Hr).
  pose proof (vlen_nonneg (pd_keys (pd_entries d))). unfold small_len in *. lia.
Qed.

Lemma rep_ready d t k :
  pd_rep d t → (tb_unicode t = true → pk_is_str k = true) → pd_ready d t k.
Proof.
  intros Hr Hk. pose proof (rep_live_len d t Hr) as Hlen. pose proof (base_unicode d t Hr) as Hbu.
  pose proof (rep_history _ _ Hr) as Hh. unfold pd_history in Hh.
  destruct Hr as [Ho Hd Hdist Hsize Hkind Hroom Hwf _]. split; try done.
  - rewrite Hkind. destruct (tb_unicode t); [by rewrite Hk|done].
  - destruct (pd_python_hash_index d), (pd_python_hash_mutation_journal d) as [j|]; [done|..].
    + destruct Hh as [-> Hp]. by exists t.
    + split; [done|]. intros Hu. constructor; [by apply Hk|constructor].
    + destruct Hh as [Ht (iu' & Heq & Hstr)]. rewrite foldl_app. split; [by rewrite Ht|].
      destruct (tb_unicode t) eqn:Hu.
      * exists (kind_is_unicode (pd_python_hash_initial_table_kind d)). split; [done|].
        intros _. apply Forall_app. split; [by apply Hbu|constructor; [by apply Hk|constructor]].
      * exists iu'. rewrite !foldl_app, Heq. split; [done|]. intros Hiu. exfalso.
        rewrite Ht, Heq in Hu. specialize (Hstr Hiu).
        assert (Hsm : small_len (vlen (pd_keys (pd_entries d)))).
        { pose proof (journal_len_nonneg d). pose proof (vlen_nonneg (pd_keys (pd_entries d))).
          unfold pd_room, small_len in *. lia. }
        destruct (base_wf (pd_keys (pd_entries d)) _ iu' Hsize Hsm) as (_ & _ & Hub).
        rewrite Hu, Hiu in Hub. cbn in Hub.
        assert (Hall : forallb pk_is_str (pd_keys (pd_entries d)) = true); [|congruence].
        apply forallb_forall. intros x Hx%list_elem_of_In. rewrite Forall_forall in Hstr.
        by apply Hstr.
Qed.

(** The conversion of a non-empty dict rebuilds the table. *)
Lemma convert_nonempty d t :
  pd_rep d t → tb_unicode t = true → pd_keys (pd_entries d) ≠ [] →
  ∃ d', pd_convert_to_general d = Ok d' ∧ pd_rep d' (general t) ∧ pd_entries d' = pd_entries d ∧
    pd_python_hash_index d' = Some (idx_of (general t)) ∧
    pd_python_hash_mutation_journal d' = None.
Proof.
  intros Hr Hu Hne. unfold pd_convert_to_general.
  set (d1 := pd_set_tables _ _ KindGeneral d).
  assert (Hlen : (pd_len (pd_entries d1) =? 0) = false).
  { cbn. rewrite pd_len_keys. unfold vlen. destruct (pd_keys (pd_entries d)); [done|].
    apply Z.eqb_neq. cbn. lia. }
  rewrite Hlen. unfold pd_ensure_python_hash_index, pd_repair_poisoned_metadata.
  change (pd_metadata_is_precise d1) with (pd_metadata_is_precise d).
  rewrite (precise_ok d t Hr). cbn [mbind res_bind].
  pose proof (rep_live_small d t Hr) as Hs. pose proof (rep_wf _ _ Hr) as Hwf.
  destruct (tb_to_general_wf pk_hash t Hwf Hs) as (Hwfg & Hlg & Hug).
  pose proof (rep_history _ _ Hr) as Hh. unfold pd_history in Hh.
  set (d2 := pd_bump_structural_version (pd_set_history (Some (idx_of (general t))) None d1)).
  assert (Hrep : tb_live t ≡ₚ pd_keys (pd_entries d) → pd_rep d2 (general t)).
  { intros Hp. pose proof (rep_small d t Hr). destruct Hr. split; try done; cbn.
    - by rewrite Hug.
    - unfold pd_room, journal_len. cbn. by rewrite Z.add_0_r.
    - unfold pd_history. cbn. by rewrite Hlg. }
  exists d2. change (pd_python_hash_index d1) with (pd_python_hash_index d).
  destruct (pd_python_hash_index d) as [i|] eqn:Hi.
  - destruct (pd_python_hash_mutation_journal d) eqn:Hj; [done|]. destruct Hh as [-> Hp].
    cbn [mbind res_bind]. change (pd_python_hash_index d1) with (pd_python_hash_index d).
    rewrite Hi. cbn [expect mbind res_bind]. rewrite prepare_general_refines by done.
    cbn [mbind res_bind]. split_and!; [|by apply Hrep|done..].
    change (pd_python_hash_mutation_journal d1) with (pd_python_hash_mutation_journal d).
    by rewrite Hj.
  - destruct (build_index d t false Hr Hi) as [Hb Hl].
    assert (Hm : match pd_python_hash_mutation_journal d1 with
      | Some journal => pd_materialize journal d1
      | None => pd_index_from_entries (pd_python_hash_initial_table_size d1) d1
      end = Ok (idx_of (general t))).
    { unfold pd_materialize, pd_index_from_entries. cbn.
      destruct (pd_python_hash_mutation_journal d); exact Hb. }
    rewrite Hm. cbn [mbind res_bind pd_set_history pd_python_hash_index expect].
    rewrite prepare_general_refines by (done || by rewrite Hlg).
    rewrite (general_id (general t)) by done. cbn [mbind res_bind].
    split_and!; [done|apply Hrep; by rewrite Hl|done..].
Qed.

Lemma converted_ready d d' t k :
  pd_rep d t → pk_is_str k = false → pd_rep d' (general t) →
  pd_entries d' = pd_entries d → pd_python_hash_index d' = Some (idx_of (general t)) →
  pd_python_hash_mutation_journal d' = None → pd_ready d' t k.
Proof.
  intros Hr Hk Hr' He Hi Hj.
  pose proof (rep_live_small d t Hr) as Hs. pose proof (rep_wf _ _ Hr) as Hwf.
  destruct (tb_to_general_wf pk_hash t Hwf Hs) as (Hwfg & Hlg & Hug).
  pose proof (rep_history _ _ Hr') as Hh. unfold pd_history in Hh. rewrite Hi, Hj, Hlg in Hh.
  pose proof (rep_live_len d t Hr) as Hll. destruct Hh as [_ Hp].
  destruct Hr' as [Ho Hd Hdist Hsize Hkind Hroom _ _]. split; try done.
  - by rewrite Hkind, Hug, Hk, andb_false_r.
  - by rewrite He.
  - rewrite Hi, Hj. exists (general t). rewrite Hlg. split_and!; try done. by apply insert_general.
Qed.

(** On an empty dict only the table parameters change. *)
Lemma convert_empty d t k :
  pd_rep d t → tb_unicode t = true → pd_keys (pd_entries d) = [] → pk_is_str k = false →
  convert_safe d k →
  ∃ d', pd_convert_to_general d = Ok d' ∧ pd_ready d' t k ∧ pd_entries d' = pd_entries d.
Proof.
  intros Hr Hu He Hk Hsafe. unfold pd_convert_to_general.
  set (d1 := pd_set_tables _ _ KindGeneral d).
  assert (Hlen : (pd_len (pd_entries d1) =? 0) = true).
  { cbn. rewrite pd_len_keys, He. done. }
  rewrite Hlen. eexists. split; [done|]. split; [|done].
  pose proof (rep_history _ _ Hr) as Hh. unfold pd_history in Hh.
  pose proof (rep_live_len d t Hr) as Hll. pose proof (rep_kind _ _ Hr) as Hkd.
  unfold convert_safe in Hsafe. specialize (Hsafe He).
  destruct Hr as [Ho Hd Hdist Hsize Hkind Hroom Hwf _].
  split; try done; cbn; [right; exists 3; done|by rewrite Hk, andb_false_r|].
  destruct (pd_python_hash_index d), (pd_python_hash_mutation_journal d) as [j|]; [done|..].
  - destruct Hh as [-> Hp]. by exists t.
  - destruct (Hsafe eq_refl) as [|[Hg|]]; [done| |congruence]. rewrite Hu in Hkind. cbn in Hkind. congruence.
  - destruct Hh as [Ht _]. rewrite He in *. cbn [foldl app] in *.
    assert (Hiu : kind_is_unicode (pd_python_hash_initial_table_kind d) = true) by (by rewrite Ht in Hu).
    rewrite Hiu in *. split.
    + rewrite Ht. unfold tb_insert. by rewrite Hk.
    + exists false. split; [|done]. cbn [foldl]. unfold tb_insert. by rewrite Hk.
Qed.

Lemma prepare_ready d t k :
  pd_rep d t → convert_safe d k →
  ∃ d', pd_prepare_python_insert d k = Ok d' ∧ pd_ready d' t k ∧ pd_entries d' = pd_entries d ∧
    (pd_keys (pd_entries d) ≠ [] → pd_rep d' (if pk_is_str k then t else general t)).
Proof.
  intros Hr Hsafe. unfold pd_prepare_python_insert. rewrite (repair_ok d t Hr). cbn [mbind res_bind].
  rewrite (rep_kind _ _ Hr). unfold kind_of_unicode. destruct (tb_unicode t) eqn:Hu.
  - destruct (pk_is_str k) eqn:Hk.
    { exists d. split_and!; [done|by apply rep_ready|done|done]. }
    destruct (decide (pd_keys (pd_entries d) = [])) as [He|Hne].
    + destruct (convert_empty d t k Hr Hu He Hk Hsafe) as (d' & ? & ? & ?). by exists d'.
    + destruct (convert_nonempty d t Hr Hu Hne) as (d' & Hc & Hr' & Heq & Hi & Hj). exists d'.
      split_and!; [done|by eapply converted_ready|done|done].
  - exists d. split_and!; [done|apply rep_ready; [done|congruence]|done|].
    intros _. rewrite general_id by done. by destruct (pk_is_str k).
Qed.

(** Preparing never lengthens the journal. *)
Lemma ready_journal d d' t k :
  pd_rep d t → pd_prepare_python_insert d k = Ok d' →
  journal_len d' ≤ journal_len d.
Proof.
  intros Hr. unfold pd_prepare_python_insert. rewrite (repair_ok d t Hr). cbn [mbind res_bind].
  pose proof (journal_len_nonneg d).
  destruct (pd_python_key_table_kind d).
  - intros (? & _ & [= <-])%bind_Ok. done.
  - destruct (pk_is_str k); [by intros [= <-]|]. unfold pd_convert_to_general.
    destruct (_ =? 0); [by intros [= <-]|].
    intros (d2 & H2 & Hc)%bind_Ok. apply bind_Ok in Hc as (i & _ & Hc).
    apply bind_Ok in Hc as (i' & _ & [= <-]).
    unfold journal_len at 1. cbn. fold (journal_len d2).
    unfold pd_ensure_python_hash_index, pd_repair_poisoned_metadata in H2.
    match type of H2 with context [pd_metadata_is_precise ?x] =>
      change (pd_metadata_is_precise x) with (pd_metadata_is_precise d) in H2 end.
    rewrite (precise_ok d t Hr) in H2. cbn [mbind res_bind] in H2.
    change (pd_python_hash_index (pd_set_tables _ _ _ d)) with (pd_python_hash_index d) in H2.
    destruct (pd_python_hash_index d).
    + injection H2 as <-. done.
    + apply bind_Ok in H2 as (i2 & _ & [= <-]). done.
  - by intros [= <-].
Qed.

Lemma prepare_room d d1 t k :
  pd_rep d t → pd_prepare_python_insert d k = Ok d1 → pd_entries d1 = pd_entries d →
  pd_room d 5 → pd_room d1 5.
Proof.
  intros Hr Hp He Hroom. pose proof (ready_journal d d1 t k Hr Hp). unfold pd_room, small_len in *.
  pose proof (journal_len_nonneg d1). pose proof (vlen_nonneg (pd_keys (pd_entries d))).
  rewrite He. lia.
Qed.

(** The dict after the entry is added, before the history is updated. *)
Definition pd_grown d (m : M) (k : K) : PyDict K M :=
  pd_bump_structural_version
    (pd_set_counts (pd_live_object_key_count d + (if pk_is_object k then 1 else 0))
       (pd_live_dynamic_key_count d + (if pk_contains_object k then 1 else 0))
       (pd_set_entries m d)).

(** The record fields that every insertion into a ready dict establishes. *)
Lemma grown_rep d t k m index journal size kind :
  pd_ready d t k → pd_keys m = pd_keys (pd_entries d) ++ [k] →
  Forall (λ k', pk_eqb k' k = false) (pd_keys (pd_entries d)) → valid_size size →
  let d' := pd_set_tables size kind (pd_python_key_table_kind d)
              (pd_set_history index journal (pd_grown d m k)) in
  pd_room d' 2 → pd_history d' (kinsert t k) → pd_rep d' (kinsert t k).
Proof.
  intros Hr Hm Hf Hsize d' Hroom Hh.
  assert (Hs : small_len (vlen (tb_live t))).
  { rewrite (ready_len _ _ _ Hr). pose proof (ready_room _ _ _ Hr). pose proof (journal_len_nonneg d).
    pose proof (vlen_nonneg (pd_keys (pd_entries d))). unfold pd_room, small_len in *. lia. }
  destruct (tb_insert_wf pk_hash pk_is_str t k (ready_wf _ _ _ Hr) Hs (hash_ok k)) as (Hwf & _ & Hu).
  split; cbn -[count_if pd_keys tb_insert]; try done.
  - rewrite Hm, count_if_app, count_if_one, (ready_objects _ _ _ Hr). done.
  - rewrite Hm, count_if_app, count_if_one, (ready_dynamics _ _ _ Hr). done.
  - rewrite Hm. apply distinct_snoc; [apply Hr|done].
  - by rewrite Hu, (ready_kind _ _ _ Hr).
Qed.

Lemma saturating_add_count a (b : bool) :
  0 ≤ a < 2 ^ 60 → (if b then saturating_add a 1 else a) = a + (if b then 1 else 0).
Proof. intros Ha. destruct b; [apply saturating_add_1; lia|lia]. Qed.

Lemma settled_base_wf d t k :
  pd_ready d t k → small_len (vlen (tb_live t)).
Proof.
  intros Hr. rewrite (ready_len _ _ _ Hr). pose proof (ready_room _ _ _ Hr).
  pose proof (journal_len_nonneg d). pose proof (vlen_nonneg (pd_keys (pd_entries d))).
  unfold pd_room, small_len in *. lia.
Qed.

(** The journal step of an insertion. *)
Lemma journal_step d t k j m :
  pd_ready d t k → pd_python_hash_index d = None → pd_python_hash_mutation_journal d = Some j →
  pd_keys m = pd_keys (pd_entries d) ++ [k] →
  Forall (λ k', pk_eqb k' k = false) (pd_keys (pd_entries d)) → pd_room d 5 →
  ∃ j' r, dmj_record_inserted j (pd_len m) = Ok (j', r) ∧
    pd_rep (match r with
            | Some size => pd_set_tables size (pd_python_key_table_kind d)
                (pd_python_key_table_kind d) (pd_set_history None (Some j') (pd_grown d m k))
            | None => pd_set_history None (Some j') (pd_grown d m k)
            end) (kinsert t k).
Proof.
  intros Hr Hi Hj Hm Hf Hroom. pose proof (ready_history _ _ _ Hr) as Hh. rewrite Hi, Hj in Hh.
  destruct Hh as [Hjs Hn]. pose proof (journals_live _ _ _ _ _ Hjs) as [Hwf Hl].
  unfold pd_room, journal_len in Hroom. rewrite Hj in Hroom.
  pose proof (vlen_nonneg (dmj_mutations j)). pose proof (vlen_nonneg (pd_keys (pd_entries d))).
  assert (Hjr : journal_room j (pd_keys (pd_entries d))) by (unfold journal_room, small_len in *; lia).
  rewrite pd_len_keys, Hm, vlen_app. change (vlen [k]) with 1.
  destruct (decide (tb_usable t = 0)) as [Hz|Hnz].
  - destruct (journals_rebase j _ _ _ t k Hjs) as (j' & size' & Hrec & Hj'); [|done..|].
    { intros Hu. apply Forall_app. split; [by eapply journals_kinds|by apply Hn]. }
    exists j', (Some size'). split; [done|].
    assert (Hmu : dmj_mutations j' = []) by (by eapply rebased_empty).
    apply grown_rep; [done|done|done|by destruct Hj'| |].
    + unfold pd_room, journal_len, small_len in *. cbn -[pd_keys tb_insert]. rewrite Hm, vlen_app, Hmu.
      change (vlen [k]) with 1. change (vlen []) with 0. lia.
    + unfold pd_history. cbn -[pd_keys tb_insert]. rewrite Hm. rewrite (ready_kind _ _ _ Hr), kind_unicode_id.
      replace (tb_unicode t && pk_is_str k) with (tb_unicode t); [done|].
      destruct (tb_unicode t) eqn:Hu; [|done]. specialize (Hn Hu). by apply Forall_inv in Hn as ->.
  - destruct (journals_insert j _ _ _ t k Hjs Hn Hjr Hnz) as (j' & Hrec & Hj').
    exists j', None. split; [done|].
    assert (Hmu : vlen (dmj_mutations j') = vlen (dmj_mutations j) + 1) by (by eapply inserted_len).
    apply (grown_rep d t k m None (Some j') (pd_python_hash_initial_table_size d)
      (pd_python_hash_initial_table_kind d)); [done|done|done|apply Hr| |].
    + unfold pd_room, journal_len, small_len in *. cbn -[pd_keys tb_insert]. rewrite Hm, vlen_app, Hmu.
      change (vlen [k]) with 1. lia.
    + unfold pd_history. cbn -[pd_keys tb_insert]. by rewrite Hm.
Qed.

(** The history update of a new entry, without the final activation. *)
Lemma record_refines d t k m v :
  pd_ready d t k → pd_keys m = pd_keys (pd_entries d) ++ [k] →
  im_entries m !! length (im_entries (pd_entries d)) = Some (k, v) →
  Forall (λ k', pk_eqb k' k = false) (pd_keys (pd_entries d)) → pd_room d 5 →
  ∃ d', pd_record_inserted_index (pd_set_entries m d) (length (im_entries (pd_entries d)))
          (pk_is_object k) (pk_contains_object k) = Ok d' ∧
    pd_rep d' (kinsert t k) ∧ pd_entries d' = m.
Proof.
  intros Hr Hm Hk Hf Hroom. unfold pd_record_inserted_index.
  cbn [pd_set_entries pd_live_object_key_count pd_live_dynamic_key_count].
  assert (Hb : vlen (pd_keys (pd_entries d)) < 2 ^ 60).
  { pose proof (journal_len_nonneg d). unfold pd_room, small_len in *. lia. }
  pose proof (count_if_bounds pk_is_object (pd_keys (pd_entries d))).
  pose proof (count_if_bounds pk_contains_object (pd_keys (pd_entries d))).
  rewrite (saturating_add_count (pd_live_object_key_count d)) by (rewrite (ready_objects _ _ _ Hr); lia).
  rewrite (saturating_add_count (pd_live_dynamic_key_count d)) by (rewrite (ready_dynamics _ _ _ Hr); lia).
  fold (pd_grown d m k). cbv zeta.
  pose proof (settled_base_wf d t k Hr) as Hsm. pose proof (ready_history _ _ _ Hr) as Hh.
  change (pd_python_hash_index (pd_grown d m k)) with (pd_python_hash_index d).
  change (pd_python_hash_mutation_journal (pd_grown d m k)) with (pd_python_hash_mutation_journal d).
  change (pd_entries (pd_grown d m k)) with m.
  destruct (pd_python_hash_index d) as [i|] eqn:Hi.
  { destruct (pd_python_hash_mutation_journal d) eqn:Hj; [done|].
    destruct Hh as (t1 & -> & Hwf1 & Heq & Hp1 & Hp).
    rewrite (vnth_lookup _ _ _ Hk). cbn [mbind res_bind fst].
    rewrite insert_refines; [|done|unfold vlen in *; by rewrite Hp1, <- Hp].
    cbn [mbind res_bind]. rewrite Heq. eexists. split; [done|]. split; [|done].
    apply (grown_rep d t k m (Some (idx_of (kinsert t k))) None
      (pd_python_hash_initial_table_size d) (pd_python_hash_initial_table_kind d));
      [done|done|done|apply Hr| |].
    - unfold pd_room, journal_len, small_len in *. rewrite Hj in Hroom. cbn -[pd_keys].
      pose proof (vlen_nonneg (pd_keys (pd_entries d))).
      rewrite Hm, vlen_app. change (vlen [k]) with 1. lia.
    - unfold pd_history. cbn -[pd_keys tb_insert]. split; [done|].
      destruct (tb_insert_wf pk_hash pk_is_str t k (ready_wf _ _ _ Hr) Hsm (hash_ok k)) as (_ & -> & _).
      by rewrite Hm, Hp. }
  assert (Hlazy : ∀ d2, pd_rep d2 (kinsert t k) → pd_entries d2 = m → ∃ d',
    (if pk_contains_object k || negb (pd_live_object_key_count d2 =? 0)
     then if negb (pd_requires_python_hash_index d2) then Ok d2 else pd_ensure_python_hash_index d2
     else Ok d2) = Ok d' ∧ pd_rep d' (kinsert t k) ∧ pd_entries d' = m).
  { intros d2 Hr2 He2. destruct (_ || _); [|by exists d2]. destruct (negb _); [by exists d2|].
    destruct (ensure_refines d2 _ Hr2) as (d' & -> & Hr' & _ & _ & He' & _).
    exists d'. by rewrite He', He2. }
  destruct (pd_python_hash_mutation_journal d) as [j|] eqn:Hj.
  - destruct (journal_step d t k j m Hr Hi Hj Hm Hf Hroom) as (j' & r & Hrec & Hrep).
    rewrite Hrec. cbn [mbind res_bind]. destruct r; cbn [mbind res_bind]; by apply Hlazy.
  - cbn [mbind res_bind]. apply Hlazy; [|done]. destruct Hh as [Ht Hset].
    assert (Heq : pd_grown d m k = pd_set_history None None (pd_grown d m k))
      by (unfold pd_grown, pd_bump_structural_version, pd_set_history, pd_set_counts, pd_set_entries; cbn; by rewrite Hi, Hj).
    rewrite Heq. apply (grown_rep d t k m None None
      (pd_python_hash_initial_table_size d) (pd_python_hash_initial_table_kind d));
      [done|done|done|apply Hr| |].
    + unfold pd_room, journal_len, small_len in *. rewrite Hj in Hroom. cbn -[pd_keys].
      pose proof (vlen_nonneg (pd_keys (pd_entries d))).
      rewrite Hm, vlen_app. change (vlen [k]) with 1. lia.
    + unfold pd_history. cbn -[pd_keys tb_insert]. by rewrite Hm.
Qed.

Lemma index_of_keys (m : M) k i :
  im_get_index_of m k = Some i → ∃ k' v, im_entries m !! i = Some (k', v) ∧ pk_eqb k' k = true.
Proof. intros (k' & v & Hi & Hk & _)%im_get_index_of_Some. by exists k', v. Qed.

Lemma index_of_fresh (m : M) k :
  im_get_index_of m k = None → Forall (λ k', pk_eqb k' k = false) (pd_keys m).
Proof.
  intros Hn. apply Forall_forall. intros x Hx. destruct (pk_eqb x k) eqn:He; [|done]. exfalso.
  apply list_elem_of_lookup in Hx as [i Hi].
  (* the first matching index *)
  assert (Hex : ∃ i k' v, im_entries m !! i = Some (k', v) ∧ pk_eqb k' k = true ∧
    ∀ j k2 v2, im_entries m !! j = Some (k2, v2) → pk_eqb k2 k = true → (i ≤ j)%nat).
  { unfold pd_keys in Hi. clear Hn. revert i Hi.
    induction (im_entries m) as [|[k1 v1] l IH]; intros i Hi; [done|].
    destruct (pk_eqb k1 k) eqn:H1.
    { exists 0%nat, k1, v1. split_and!; [done|done|]. intros; lia. }
    destruct i as [|i]; [cbn in Hi; congruence|]. cbn in Hi.
    destruct (IH i Hi) as (i' & k' & v & Hi' & Hk' & Hmin). exists (S i'), k', v.
    split_and!; [done|done|]. intros [|j] k2 v2 H2 He2; [cbn in H2; congruence|].
    apply le_n_S. by eapply Hmin. }
  destruct Hex as (i' & k' & v & Hall). assert (im_get_index_of m k = Some i'); [|congruence].
  apply im_get_index_of_Some. by exists k', v.
Qed.

(** Inserting a new key is the abstract insertion. *)
Lemma insert_new d t k v :
  pd_rep d t → convert_safe d k → pd_room d 5 →
  im_get_index_of (pd_entries d) k = None →
  ∃ d', pd_insert d k v = Ok (d', None) ∧ pd_rep d' (kinsert t k) ∧
    im_entries (pd_entries d') = im_entries (pd_entries d) ++ [(k, v)].
Proof.
  intros Hr Hsafe Hroom Hn. unfold pd_insert.
  destruct (prepare_ready d t k Hr Hsafe) as (d1 & Hp & Hr1 & He1 & _).
  rewrite Hp. cbn [mbind res_bind].
  destruct (im_insert_full_new (pd_entries d) k v Hn) as [H2 H1].
  rewrite He1. destruct (im_insert_full (pd_entries d) k v) as [m [i r]]. cbn in H1, H2.
  injection H2 as -> ->. rewrite <- He1.
  destruct (record_refines d1 t k m v Hr1) as (d' & Hrec & Hr' & He').
  - unfold pd_keys. by rewrite H1, He1, fmap_app.
  - rewrite H1, He1. by apply list_lookup_middle.
  - rewrite He1. by apply index_of_fresh.
  - by eapply prepare_room.
  - exists d'. rewrite Hrec. cbn [mbind res_bind]. split_and!; [done|done|by rewrite He', H1, He1].
Qed.

Lemma rep_same_keys d t m :
  pd_rep d t → pd_keys m = pd_keys (pd_entries d) → pd_rep (pd_set_entries m d) t.
Proof.
  intros [Ho Hd Hdist Hsize Hkind Hroom Hwf Hh] Hm.
  split; unfold pd_room, pd_history in *; cbn -[pd_keys]; rewrite ?Hm; done.
Qed.

(** Inserting an equal key replaces the value; a table of strings is still
    converted when the key is not a string. *)
Lemma insert_old d t k v i k' v' :
  pd_rep d t → convert_safe d k →
  im_get_index_of (pd_entries d) k = Some i → im_entries (pd_entries d) !! i = Some (k', v') →
  ∃ d', pd_insert d k v = Ok (d', Some v') ∧
    pd_rep d' (if pk_is_str k then t else general t) ∧
    im_entries (pd_entries d') = <[i := (k', v)]> (im_entries (pd_entries d)).
Proof.
  intros Hr Hsafe Hi Hk. unfold pd_insert.
  destruct (prepare_ready d t k Hr Hsafe) as (d1 & Hp & _ & He1 & Hr1).
  rewrite Hp. cbn [mbind res_bind].
  destruct (im_insert_full_old (pd_entries d) k v i k' v' Hi Hk) as [H2 H1].
  rewrite He1. destruct (im_insert_full (pd_entries d) k v) as [m [i' r]]. cbn in H1, H2.
  injection H2 as -> ->. eexists. split; [done|]. split; [|done].
  apply rep_same_keys.
  - apply Hr1. unfold pd_keys. intros Hnil%fmap_nil_inv. by rewrite Hnil in Hk.
  - unfold pd_keys. rewrite H1, He1. apply list_eq. intros j. rewrite !list_lookup_fmap.
    destruct (decide (i = j)) as [<-|Hne].
    + rewrite list_lookup_insert_eq by (by eapply lookup_lt_Some). by rewrite Hk.
    + by rewrite list_lookup_insert_ne.
Qed.

(** ** Removal *)

Lemma count_if_delete {A} (p : A → bool) (v : list A) i x :
  v !! i = Some x → count_if p v = (if p x then 1 else 0) + count_if p (delete i v).
Proof.
  intros Hi. rewrite <- (count_if_one p x), <- count_if_app.
  by apply count_if_perm, delete_Permutation.
Qed.

Lemma perm_delete {A} (v w : list A) i j x :
  v ≡ₚ w → v !! i = Some x → w !! j = Some x → delete i v ≡ₚ delete j w.
Proof.
  intros Hp Hi Hj. apply (Permutation_cons_inv (a := x)).
  etransitivity; [symmetry; by apply delete_Permutation|].
  etransitivity; [exact Hp|by apply delete_Permutation].
Qed.

(** A deletion always has a history to record itself in. *)
Lemma prepare_removal_ok d t :
  pd_rep d t →
  ∃ d', pd_prepare_removal_history d = Ok d' ∧ pd_rep d' t ∧ pd_entries d' = pd_entries d ∧
    pd_structural_version d' = pd_structural_version d ∧ journal_len d' = journal_len d ∧
    (is_Some (pd_python_hash_index d') ∨ is_Some (pd_python_hash_mutation_journal d')).
Proof.
  intros Hr. unfold pd_prepare_removal_history.
  destruct (pd_python_hash_index d) as [i|] eqn:Hi; [exists d; rewrite Hi; eauto 8|].
  destruct (pd_python_hash_mutation_journal d) as [j|] eqn:Hj; [exists d; rewrite Hj; eauto 8|].
  pose proof (rep_small d t Hr) as Hs. pose proof (vlen_nonneg (pd_keys (pd_entries d))).
  assert (Hs' : small_len (vlen (pd_keys (pd_entries d)))) by (unfold small_len in *; lia).
  destruct Hr as [Ho Hd Hdist Hsize Hkind Hroom Hwf Hh]. unfold pd_history in Hh.
  rewrite Hi, Hj in Hh. destruct Hh as [Ht Hset].
  destruct (journals_open _ _ _ Hsize Hs' Hset) as (j & Ho' & Hjs).
  rewrite pd_len_keys, Ho'. cbn [mbind res_bind].
  assert (Hmu : dmj_mutations j = []).
  { unfold dmj_from_current_entries in Ho'. apply bind_Ok in Ho' as (? & _ & [= <-]). done. }
  assert (Hjl : journal_len (pd_set_history None (Some j) d) = journal_len d).
  { unfold journal_len. cbn. by rewrite Hj, Hmu. }
  eexists. split; [done|]. split_and!; [|done|done|done|right; by eexists].
  split; try done; [unfold pd_room in *; by rewrite Hjl|].
  unfold pd_history. cbn -[pd_keys tb_insert]. by rewrite Ht.
Qed.

Lemma removed_metadata_ok d i k :
  pd_live_object_key_count d = count_if pk_is_object (pd_keys (pd_entries d)) →
  pd_live_dynamic_key_count d = count_if pk_contains_object (pd_keys (pd_entries d)) →
  pd_keys (pd_entries d) !! i = Some k →
  ∀ d1, pd_live_object_key_count d1 = pd_live_object_key_count d →
    pd_live_dynamic_key_count d1 = pd_live_dynamic_key_count d →
  pd_record_removed_metadata d1 k = Ok (pd_bump_structural_version
    (pd_set_counts (count_if pk_is_object (delete i (pd_keys (pd_entries d))))
       (count_if pk_contains_object (delete i (pd_keys (pd_entries d)))) d1)).
Proof.
  intros Ho Hd Hk d1 H1 H2. unfold pd_record_removed_metadata. rewrite H1, H2, Ho, Hd.
  rewrite (count_if_delete pk_is_object _ _ _ Hk), (count_if_delete pk_contains_object _ _ _ Hk).
  pose proof (count_if_bounds pk_is_object (delete i (pd_keys (pd_entries d)))).
  pose proof (count_if_bounds pk_contains_object (delete i (pd_keys (pd_entries d)))).
  destruct (pk_is_object k), (pk_contains_object k); cbn [mbind res_bind];
    rewrite ?usize_sub_ok by lia; cbn [mbind res_bind];
    repeat f_equal; lia.
Qed.

(** The table after a removal. *)
Definition removed_table (popped : bool) t (pos : nat) : table K :=
  if popped then tb_trim (tb_remove t pos) else tb_remove t pos.

Lemma removed_table_wf popped t pos :
  kwf t → (pos < length (tb_live t))%nat →
  kwf (removed_table popped t pos) ∧ tb_live (removed_table popped t pos) = delete pos (tb_live t).
Proof.
  intros Hwf Hlt. destruct (tb_remove_wf pk_hash t pos Hwf Hlt) as [Hwf' Hl].
  destruct popped; [|done]. unfold removed_table.
  destruct (tb_trim_wf pk_hash _ Hwf') as [? ->]. done.
Qed.

(** The history step of a removal. *)
Lemma removal_step d t m i k popped :
  pd_rep d t → is_Some (pd_python_hash_index d) ∨ is_Some (pd_python_hash_mutation_journal d) →
  pd_keys (pd_entries d) !! i = Some k → pd_keys m = delete i (pd_keys (pd_entries d)) →
  (popped = true → i = (length (pd_keys (pd_entries d)) - 1)%nat) → pd_room d 5 →
  ∃ d' pos, pd_record_removed_key (pd_set_entries m d) (Z.of_nat i) k popped = Ok d' ∧
    tb_live t !! pos = Some k ∧ pd_rep d' (removed_table popped t pos) ∧ pd_entries d' = m.
Proof.
  intros Hr Hhist Hk Hm Hpop Hroom. pose proof (rep_live_len d t Hr) as Hll.
  destruct Hr as [Ho Hd Hdist Hsize Hkind Hroom2 Hwf Hh]. unfold pd_history in Hh.
  pose proof (removed_metadata_ok d i k Ho Hd Hk) as Hmeta.
  pose proof (lookup_lt_Some _ _ _ Hk) as Hlt.
  assert (Hfin : ∀ index journal pos,
    tb_live t !! pos = Some k →
    pd_room (pd_set_history index journal (pd_set_entries m d)) 2 →
    pd_history (pd_set_history index journal (pd_set_entries m d)) (removed_table popped t pos) →
    pd_rep (pd_bump_structural_version
      (pd_set_counts (count_if pk_is_object (delete i (pd_keys (pd_entries d))))
         (count_if pk_contains_object (delete i (pd_keys (pd_entries d))))
         (pd_set_history index journal (pd_set_entries m d)))) (removed_table popped t pos)).
  { intros index journal pos Hpos Hrm Hhm.
    destruct (removed_table_wf popped t pos Hwf) as [Hwf' _]; [by eapply lookup_lt_Some|].
    split; cbn -[pd_keys count_if removed_table]; rewrite ?Hm; try done.
    - by apply distinct_delete.
    - rewrite Hkind. by destruct popped. }
  assert (Hdl : vlen (delete i (pd_keys (pd_entries d))) = vlen (pd_keys (pd_entries d)) - 1).
  { unfold vlen. rewrite length_delete by done. lia. }
  unfold pd_record_removed_key. cbn [pd_set_entries pd_python_hash_index pd_python_hash_mutation_journal].
  unfold pd_room, small_len in Hroom.
  destruct (pd_python_hash_index d) as [idx|] eqn:Hi; [|destruct (pd_python_hash_mutation_journal d) as [j|] eqn:Hj].
  - destruct (pd_python_hash_mutation_journal d) as [|] eqn:Hj; [done|]. destruct Hh as [-> Hp].
    destruct (list_elem_of_lookup_1 (tb_live t) k) as [pos Hpos].
    { rewrite Hp. by eapply list_elem_of_lookup_2. }
    pose proof (distinct_perm _ _ Hp Hdist) as Hdt.
    assert (Hrec : (if popped then dpi_record_popped (idx_of t) k else dpi_record_removed (idx_of t) k) =
      Ok (idx_of (removed_table popped t pos))).
    { unfold dpi_record_popped.
      rewrite (record_removed_refines t pos k k Hwf Hdt Hpos) by apply pk_eqb_refl.
      destruct popped; [|done]. cbn [mbind res_bind]. apply truncate_refines. cbn. lia. }
    rewrite Hrec. cbn [mbind res_bind]. rewrite Hmeta by done.
    eexists _, pos. split; [done|]. split_and!; [done| |done]. apply Hfin; [done|..].
    + unfold pd_room, journal_len, small_len in *. rewrite Hj in Hroom; cbn -[pd_keys]. cbn -[pd_keys] in Hroom.
      rewrite Hm, Hdl. pose proof (vlen_nonneg (delete i (pd_keys (pd_entries d)))). lia.
    + unfold pd_history. cbn -[pd_keys removed_table]. split; [done|].
      destruct (removed_table_wf popped t pos Hwf) as [_ ->]; [by eapply lookup_lt_Some|].
      rewrite Hm. by apply (perm_delete _ _ _ _ k).
  - pose proof (journals_live _ _ _ _ _ Hh) as [_ Hl]. cbn [expect mbind res_bind].
    assert (Hjr : journal_room j (pd_keys (pd_entries d))).
    { unfold journal_room, journal_len, small_len in *. rewrite Hj in Hroom.
      pose proof (vlen_nonneg (dmj_mutations j)). pose proof (vlen_nonneg (pd_keys (pd_entries d))). lia. }
    assert (Hstep : ∃ j', dmj_record_removed j (Z.of_nat i) k popped = Ok j' ∧
      journals j' (delete i (pd_keys (pd_entries d))) (pd_python_hash_initial_table_size d)
        (kind_is_unicode (pd_python_hash_initial_table_kind d)) (removed_table popped t i)).
    { destruct popped; [|by eapply journals_remove].
      specialize (Hpop eq_refl). destruct (pd_keys (pd_entries d)) as [|x ks _] using rev_ind; [done|].
      rewrite length_app, Nat.add_sub in Hpop. subst i. rewrite delete_snoc.
      rewrite lookup_app_r, Nat.sub_diag in Hk by lia. injection Hk as ->.
      destruct (journals_pop j ks _ _ t k Hh Hjr) as (j' & Hrec & Hj'). exists j'.
      split; [exact Hrec|]. unfold tb_pop in Hj'. rewrite Hl, length_app, Nat.add_sub in Hj'. done. }
    destruct Hstep as (j' & Hrec & Hj'). rewrite Hrec. cbn [mbind res_bind].
    rewrite Hmeta by done. eexists _, i. split; [done|].
    split_and!; [by rewrite Hl| |done]. apply Hfin; [by rewrite Hl|..].
    + assert (Hmu : vlen (dmj_mutations j') = vlen (dmj_mutations j) + 1) by (by eapply removed_len).
      unfold pd_room, journal_len, small_len in *. rewrite Hj in Hroom; cbn -[pd_keys]. cbn -[pd_keys] in Hroom.
      rewrite Hm, Hdl, Hmu. pose proof (vlen_nonneg (delete i (pd_keys (pd_entries d)))).
      pose proof (vlen_nonneg (dmj_mutations j)). lia.
    + unfold pd_history. cbn -[pd_keys removed_table]. by rewrite Hm.
  - destruct Hhist as [[? ?]|[? ?]]; done.
Qed.

Lemma keys_lookup (m : M) i k v : im_entries m !! i = Some (k, v) → pd_keys m !! i = Some k.
Proof. intros Hi. unfold pd_keys. by rewrite list_lookup_fmap, Hi. Qed.

Lemma keys_delete (m m' : M) i :
  im_entries m' = delete i (im_entries m) → pd_keys m' = delete i (pd_keys m).
Proof. intros He. unfold pd_keys. by rewrite He, list_fmap_delete. Qed.

Lemma removal_room d d' :
  pd_entries d' = pd_entries d → journal_len d' = journal_len d → pd_room d 5 → pd_room d' 5.
Proof. unfold pd_room. by intros -> ->. Qed.

(** Deleting the entry at a position. *)
Lemma shift_remove_index_refines d t i k v :
  pd_rep d t → pd_room d 5 → im_entries (pd_entries d) !! i = Some (k, v) →
  ∃ d' pos, pd_shift_remove_index d i = Ok (d', Some (k, v)) ∧
    tb_live t !! pos = Some k ∧ pd_rep d' (tb_remove t pos) ∧
    im_entries (pd_entries d') = delete i (im_entries (pd_entries d)).
Proof.
  intros Hr Hroom Hi. unfold pd_shift_remove_index. rewrite (repair_ok d t Hr).
  cbn [mbind res_bind]. rewrite Hi.
  destruct (prepare_removal_ok d t Hr) as (d1 & -> & Hr1 & He1 & _ & Hj1 & Hh1). cbn [mbind res_bind].
  rewrite He1. destruct (im_shift_remove_index_spec (pd_entries d) i) as [H2 H1].
  destruct (im_shift_remove_index (pd_entries d) i) as [m r]. cbn in H1, H2. rewrite H2, Hi.
  destruct (removal_step d1 t m i k false Hr1 Hh1) as (d' & pos & Hrec & Hpos & Hr' & He').
  - rewrite He1. by eapply keys_lookup.
  - rewrite He1. by apply keys_delete.
  - done.
  - by eapply removal_room.
  - cbn [fst]. rewrite Hrec. cbn [mbind res_bind]. exists d', pos. by rewrite He', H1.
Qed.

Lemma shift_remove_refines d t k i k' v :
  pd_rep d t → pd_room d 5 → im_get_index_of (pd_entries d) k = Some i →
  im_entries (pd_entries d) !! i = Some (k', v) →
  ∃ d' pos, pd_shift_remove d k = Ok (d', Some v) ∧
    tb_live t !! pos = Some k' ∧ pd_rep d' (tb_remove t pos) ∧
    im_entries (pd_entries d') = delete i (im_entries (pd_entries d)).
Proof.
  intros Hr Hroom Hix Hi. unfold pd_shift_remove. rewrite (repair_ok d t Hr).
  cbn [mbind res_bind]. rewrite Hix.
  destruct (prepare_removal_ok d t Hr) as (d1 & -> & Hr1 & He1 & _ & Hj1 & Hh1). cbn [mbind res_bind].
  rewrite He1. destruct (im_shift_remove_index_spec (pd_entries d) i) as [H2 H1].
  destruct (im_shift_remove_index (pd_entries d) i) as [m r]. cbn in H1, H2. rewrite H2, Hi.
  destruct (removal_step d1 t m i k' false Hr1 Hh1) as (d' & pos & Hrec & Hpos & Hr' & He').
  - rewrite He1. by eapply keys_lookup.
  - rewrite He1. by apply keys_delete.
  - done.
  - by eapply removal_room.
  - rewrite Hrec. cbn [mbind res_bind]. exists d', pos. by rewrite He', H1.
Qed.

Lemma shift_remove_missing d t k :
  pd_rep d t → im_get_index_of (pd_entries d) k = None → pd_shift_remove d k = Ok (d, None).
Proof.
  intros Hr Hix. unfold pd_shift_remove. rewrite (repair_ok d t Hr). cbn [mbind res_bind].
  by rewrite Hix.
Qed.

Lemma removelast_delete {A} (l : list A) : removelast l = delete (length l - 1)%nat l.
Proof.
  destruct l as [|x l _] using rev_ind; [done|].
  by rewrite removelast_last, length_app, Nat.add_sub, delete_snoc.
Qed.

(** [popitem] also shortens the compact entries past trailing holes. *)
Lemma pop_refines d t k v :
  pd_rep d t → pd_room d 5 → last (im_entries (pd_entries d)) = Some (k, v) →
  ∃ d' pos, pd_pop d = Ok (d', Some (k, v)) ∧
    tb_live t !! pos = Some k ∧ pd_rep d' (tb_trim (tb_remove t pos)) ∧
    im_entries (pd_entries d') = removelast (im_entries (pd_entries d)).
Proof.
  intros Hr Hroom Hlast. unfold pd_pop. rewrite (repair_ok d t Hr). cbn [mbind res_bind].
  rewrite last_lookup, <- Nat.sub_1_r in Hlast.
  pose proof (lookup_lt_Some _ _ _ Hlast) as Hlt.
  assert (Hne : (pd_len (pd_entries d) =? 0) = false).
  { apply Z.eqb_neq. unfold pd_len, vlen. lia. }
  rewrite Hne.
  destruct (prepare_removal_ok d t Hr) as (d1 & -> & Hr1 & He1 & _ & Hj1 & Hh1). cbn [mbind res_bind].
  rewrite He1. destruct (im_pop_spec (pd_entries d)) as [H2 H1].
  destruct (im_pop (pd_entries d)) as [m r]. cbn in H1, H2.
  rewrite H2, last_lookup, <- Nat.sub_1_r, Hlast.
  set (i := (length (im_entries (pd_entries d)) - 1)%nat) in *.
  assert (Hiz : pd_len (pd_entries d) - 1 = Z.of_nat i) by (unfold pd_len, vlen, i; lia).
  destruct (removal_step d1 t m i k true Hr1 Hh1) as (d' & pos & Hrec & Hpos & Hr' & He').
  - rewrite He1. by eapply keys_lookup.
  - rewrite He1. apply keys_delete. by rewrite H1, removelast_delete.
  - intros _. rewrite He1. unfold pd_keys. by rewrite length_fmap.
  - by eapply removal_room.
  - cbn [fst]. rewrite Hiz, Hrec. cbn [mbind res_bind]. exists d', pos.
    split_and!; [done|done|exact Hr'|by rewrite He', H1].
Qed.

(** ** Clearing and copying *)

Lemma fresh_rep (m : M) version :
  im_entries m = [] →
  pd_rep {| pd_entries := m; pd_live_object_key_count := 0; pd_live_dynamic_key_count := 0;
            pd_structural_version := version; pd_python_hash_index := None;
            pd_python_hash_mutation_journal := None; pd_python_hash_initial_table_size := 0;
            pd_python_hash_initial_table_kind := KindUnicode;
            pd_python_key_table_kind := KindUnicode |} (tb_empty 0 true).
Proof.
  intros Hm. assert (Hk : pd_keys m = []) by (unfold pd_keys; by rewrite Hm).
  split; unfold pd_room, pd_history; cbn -[pd_keys tb_empty]; rewrite ?Hk; try done.
  - by left.
  - by apply empty_wf; left.
  - split; [done|]. by exists true.
Qed.

Lemma clear_refines d : pd_rep (pd_clear d) (tb_empty 0 true).
Proof. unfold pd_clear. destruct (negb _); apply fresh_rep; apply im_entries_empty. Qed.

(** What [PyDict_Copy] makes of the table: the same layout when it is dense
    enough, else the live entries reinserted. *)
Definition cloned_table t : table K :=
  if 2 * vlen (tb_ents t) / 3 <=? vlen (tb_live t) then t else tb_compacted t.

Lemma clone_layout t :
  kwf t → small_len (vlen (tb_live t)) → pd_clone_layout (idx_of t) = Ok (idx_of (cloned_table t)).
Proof.
  intros Hwf Hs. unfold pd_clone_layout, cloned_table.
  rewrite copy_layout_exact by (by apply wf_ents_bound with (eh := pk_hash)). cbn [mbind res_bind].
  destruct (_ <=? _); [done|]. by apply compacted_copy_refines.
Qed.

Lemma cloned_table_wf t :
  kwf t → small_len (vlen (tb_live t)) →
  kwf (cloned_table t) ∧ tb_live (cloned_table t) = tb_live t ∧
  tb_unicode (cloned_table t) = tb_unicode t.
Proof.
  intros Hwf Hs. unfold cloned_table. destruct (_ <=? _); [done|].
  destruct (compacted_copy_refines t Hwf Hs) as (_ & Hwf' & Hl). split_and!; [done|done|].
  destruct (sparse_copy_size _ Hs) as (k & Hk & Heq & Hle). unfold tb_compacted.
  rewrite Heq. cbn [res_to_option default].
  by apply (rebuild_wf pk_hash k (tb_unicode t) (tb_live t) Hk Hle (hashes_ok _)).
Qed.

Lemma journal_clone_table d t j :
  pd_rep d t → pd_python_hash_index d = None → pd_python_hash_mutation_journal d = Some j →
  (dmj_copy_definitely_preserves_layout j (vlen (pd_keys (pd_entries d))) = true →
     cloned_table t = t) ∧
  (dmj_copy_definitely_compacts_layout j (vlen (pd_keys (pd_entries d))) = true →
     cloned_table t = tb_compacted t).
Proof.
  intros Hr Hi Hj. pose proof (rep_history _ _ Hr) as Hh. unfold pd_history in Hh. rewrite Hi, Hj in Hh.
  pose proof (rep_room _ _ Hr) as Hroom. unfold pd_room, journal_len in Hroom. rewrite Hj in Hroom.
  destruct (journal_copy_estimates j _ _ _ t Hh) as [H1 H2].
  { unfold journal_room, small_len in *. lia. }
  rewrite copy_layout_exact in H1, H2 by (by apply wf_ents_bound with (eh := pk_hash), Hr).
  unfold cloned_table. split; intros He; [specialize (H1 He)|specialize (H2 He)].
  - by injection H1 as ->.
  - by injection H2 as ->.
Qed.

Lemma plain_clone_table d t :
  pd_rep d t → pd_python_hash_index d = None → pd_python_hash_mutation_journal d = None →
  cloned_table t = t.
Proof.
  intros Hr Hi Hj. pose proof (rep_history _ _ Hr) as Hh. unfold pd_history in Hh. rewrite Hi, Hj in Hh.
  destruct Hh as [-> _]. pose proof (rep_small d _ Hr) as Hs.
  pose proof (vlen_nonneg (pd_keys (pd_entries d))).
  assert (Hs' : small_len (vlen (pd_keys (pd_entries d)))) by (unfold small_len in *; lia).
  pose proof (rep_size _ _ Hr) as Hsize.
  unfold cloned_table.
  rewrite (inserts_no_holes (pd_keys (pd_entries d)) (tb_empty _ _) (empty_wf _ _ _ Hsize) Hs' eq_refl).
  destruct (base_wf (pd_keys (pd_entries d)) (pd_python_hash_initial_table_size d)
    (kind_is_unicode (pd_python_hash_initial_table_kind d)) Hsize Hs') as (_ & -> & _).
  change (vlen (tb_live (tb_empty _ _))) with 0. rewrite Z.add_0_l.
  assert (Hle : 2 * vlen (pd_keys (pd_entries d)) / 3 ≤ vlen (pd_keys (pd_entries d))).
  { apply Z.div_le_upper_bound; lia. }
  by rewrite (proj2 (Z.leb_le _ _) Hle).
Qed.

(** The sparse copy of a journaled dict stores no history: its entries and the
    presized table determine the layout. *)
Lemma compacted_base d t :
  pd_rep d t → pd_python_hash_index d = None →
  ∃ size, dpi_sparse_copy_table_size (vlen (pd_keys (pd_entries d))) = Ok size ∧ valid_size size ∧
    tb_compacted t = foldl kinsert (tb_empty size (tb_unicode t)) (pd_keys (pd_entries d)) ∧
    settled size (tb_unicode t) (pd_keys (pd_entries d)).
Proof.
  intros Hr Hi. destruct (build_index d t true Hr Hi) as [_ Hl].
  pose proof (rep_live_small d t Hr) as Hs. rewrite Hl in Hs.
  destruct (sparse_copy_size _ Hs) as (k & Hk & Heq & Hle).
  exists (2 ^ k). split; [done|]. split; [right; by exists k|].
  pose proof (base_unicode d t Hr Hi) as Hstr. split; [|by exists (tb_unicode t)].
  unfold tb_compacted, tb_rebuild. rewrite Hl, Heq. cbn [res_to_option default].
  rewrite inserts_as_places; [done|exact Hstr|exact Hle].
Qed.

Lemma cloned_kind d t : pd_rep d t → kwf t → 
  pd_python_key_table_kind d = kind_of_unicode (tb_unicode (cloned_table t)).
Proof. intros Hr Hwf. destruct (cloned_table_wf t Hwf (rep_live_small d t Hr)) as (_ & _ & ->). apply Hr. Qed.

(** The record that [clone] builds from its parts represents the copy. *)
Lemma clone_rep d t index journal size initial :
  pd_rep d t → valid_size size →
  journal = None ∨ journal = pd_python_hash_mutation_journal d →
  let d' := {| pd_entries := pd_entries d;
    pd_live_object_key_count := pd_live_object_key_count d;
    pd_live_dynamic_key_count := pd_live_dynamic_key_count d;
    pd_structural_version := pd_structural_version d;
    pd_python_hash_index := index; pd_python_hash_mutation_journal := journal;
    pd_python_hash_initial_table_size := size; pd_python_hash_initial_table_kind := initial;
    pd_python_key_table_kind := kind_of_unicode (tb_unicode t) |} in
  pd_history d' (cloned_table t) → pd_rep d' (cloned_table t).
Proof.
  intros Hr Hsize Hj d' Hh. pose proof (rep_live_small d t Hr) as Hs.
  destruct (cloned_table_wf t (rep_wf _ _ Hr) Hs) as (Hwf & _ & Hu).
  pose proof (rep_small d t Hr) as Hsm. destruct Hr. split; try done.
  - cbn. by rewrite Hu.
  - unfold pd_room, journal_len. cbn. destruct Hj as [-> | ->]; [|done].
    unfold small_len in *. lia.
Qed.

Lemma clone_refines d t :
  pd_rep d t → pd_keys (pd_entries d) ≠ [] →
  ∃ d', pd_clone d = Ok d' ∧ pd_rep d' (cloned_table t) ∧ pd_entries d' = pd_entries d.
Proof.
  intros Hr Hne. unfold pd_clone.
  assert (Hlen : (pd_len (pd_entries d) =? 0) = false).
  { apply Z.eqb_neq. rewrite pd_len_keys. unfold vlen. destruct (pd_keys _); [done|cbn; lia]. }
  pose proof (precise_ok d t Hr) as Hprec. unfold pd_metadata_is_precise in Hprec.
  apply andb_true_iff in Hprec as [Hprec _]. rewrite Hlen, Hprec.
  pose proof (rep_live_small d t Hr) as Hs. pose proof (rep_wf _ _ Hr) as Hwf.
  destruct (cloned_table_wf t Hwf Hs) as (_ & Hcl & Hcu).
  pose proof (rep_kind _ _ Hr) as Hkind. pose proof (rep_size _ _ Hr) as Hsize.
  set (req := _ || _). unfold pd_clone_history.
  (* an index becomes the index of the copy *)
  assert (Hidx : tb_live t ≡ₚ pd_keys (pd_entries d) → ∃ d',
    (index ← (index ← pd_clone_layout (idx_of t); Ok (Some index));
     let current_kind := match index with
       | Some index => kind_of_unicode (dpi_unicode_only index)
       | None => pd_python_key_table_kind d end in
     Ok {| pd_entries := pd_entries d;
           pd_live_object_key_count := pd_live_object_key_count d;
           pd_live_dynamic_key_count := pd_live_dynamic_key_count d;
           pd_structural_version := pd_structural_version d;
           pd_python_hash_index := index; pd_python_hash_mutation_journal := None;
           pd_python_hash_initial_table_size := pd_python_hash_initial_table_size d;
           pd_python_hash_initial_table_kind := pd_python_hash_initial_table_kind d;
           pd_python_key_table_kind := current_kind |}) = Ok d' ∧
    pd_rep d' (cloned_table t) ∧ pd_entries d' = pd_entries d).
  { intros Hp. rewrite clone_layout by done. cbn [mbind res_bind].
    eexists. split; [done|]. split; [|done]. cbn [dpi_unicode_only idx_of]. rewrite Hcu.
    apply clone_rep; [done|done|by left|]. unfold pd_history. cbn -[pd_keys cloned_table].
    by rewrite Hcl. }
  pose proof (rep_history _ _ Hr) as Hh. unfold pd_history in Hh.
  destruct (pd_python_hash_index d) as [i|] eqn:Hi.
  { destruct (pd_python_hash_mutation_journal d) eqn:Hj; [done|]. destruct Hh as [-> Hp].
    by apply Hidx. }
  destruct (build_index d t (kind_is_unicode (pd_python_key_table_kind d)) Hr Hi) as [Hb Hl].
  rewrite converted in Hb by (by rewrite Hkind, kind_unicode_id).
  unfold pd_materialize, pd_index_from_entries. rewrite pd_len_keys.
  destruct (pd_python_hash_mutation_journal d) as [j|] eqn:Hj.
  - destruct (journal_clone_table d t j Hr Hi Hj) as [Hpres Hcomp].
    destruct (dmj_copy_definitely_preserves_layout j (vlen (pd_keys (pd_entries d)))) eqn:H1.
    + cbn [mbind res_bind default]. rewrite Hkind. eexists. split; [done|]. split; [|done].
      apply clone_rep; [done|done|by right; rewrite Hj|]. unfold pd_history. cbn -[pd_keys cloned_table].
      by rewrite Hpres.
    + destruct (dmj_copy_definitely_compacts_layout j (vlen (pd_keys (pd_entries d)))) eqn:H2.
      * destruct (compacted_base d t Hr Hi) as (size & -> & Hv & Ht & Hset).
        cbn [mbind res_bind default]. rewrite Hkind. eexists. split; [done|]. split; [|done].
        rewrite bool_decide_true by done.
        apply clone_rep; [done|done|by left|]. unfold pd_history. cbn -[pd_keys cloned_table tb_insert].
        rewrite kind_unicode_id, (Hcomp eq_refl). done.
      * rewrite Hb. cbn [mbind res_bind]. apply Hidx. by rewrite Hl.
  - destruct req.
    + rewrite Hb. cbn [mbind res_bind]. apply Hidx. by rewrite Hl.
    + cbn [mbind res_bind default]. rewrite Hkind. eexists. split; [done|]. split; [|done].
      apply clone_rep; [done|done|by left|]. unfold pd_history. cbn -[pd_keys cloned_table tb_insert].
      by rewrite (plain_clone_table d t Hr Hi Hj).
Qed.
End refinement.
