(* ===== verification/Double.v ===== *)
(** The [f64] operations of Rust that the interpreter uses, over the
    specification of IEEE-754 binary64 in the Standard Library.  NaNs carry no
    payload here. *)

From Stdlib Require Floats.SpecFloat.
From S2P Require Import Prelude.

Abbreviation f64 := SpecFloat.spec_float.
Abbreviation d_zero s := (SpecFloat.S754_zero s).
Abbreviation d_inf s := (SpecFloat.S754_infinity s).
Abbreviation d_nan := SpecFloat.S754_nan.
Abbreviation d_fin s m e := (SpecFloat.S754_finite s m e).

Definition f64_prec : Z := 53.
Definition f64_emax : Z := 1024.

Definition d_add : f64 → f64 → f64 := SpecFloat.SFadd f64_prec f64_emax.
Definition d_sub : f64 → f64 → f64 := SpecFloat.SFsub f64_prec f64_emax.
Definition d_mul : f64 → f64 → f64 := SpecFloat.SFmul f64_prec f64_emax.
Definition d_div : f64 → f64 → f64 := SpecFloat.SFdiv f64_prec f64_emax.
Definition d_neg : f64 → f64 := SpecFloat.SFopp.
Definition d_abs : f64 → f64 := SpecFloat.SFabs.
Definition d_eqb : f64 → f64 → bool := SpecFloat.SFeqb.
Definition d_ltb : f64 → f64 → bool := SpecFloat.SFltb.

(** [m * 2 ^ e] rounded to nearest, ties to even; a zero has the sign [s]. *)
Definition d_round (m e : Z) (s : bool) : f64 := SpecFloat.binary_normalize f64_prec f64_emax m e s.

(** [n as f64] on an integer type. *)
Definition d_of_int (n : Z) : f64 := d_round n 0 false.

Definition d_sign (x : f64) : bool :=
  match x with d_zero s | d_inf s | d_fin s _ _ => s | _ => false end.
Definition d_is_nan (x : f64) : bool := match x with d_nan => true | _ => false end.
Definition d_is_finite (x : f64) : bool := match x with d_zero _ | d_fin _ _ _ => true | _ => false end.
Definition d_copysign (x y : f64) : f64 := if eqb (d_sign x) (d_sign y) then x else d_neg x.

(** [x.signum()], whose zeros count as signed. *)
Definition d_signum (x : f64) : f64 := if d_is_nan x then d_nan else d_of_int (if d_sign x then -1 else 1).

Definition signed_mantissa (s : bool) (m : positive) : Z := if s then Z.neg m else Z.pos m.

(** [a % b]: the exact remainder of C's [fmod], with the sign of [a]. *)
Definition d_rem (a b : f64) : f64 :=
  match a, b with
  | d_nan, _ | _, d_nan | d_inf _, _ | _, d_zero _ => d_nan
  | d_zero _, _ | _, d_inf _ => a
  | d_fin sa ma ea, d_fin _ mb eb =>
      let e := Z.min ea eb in
      let r := Z.rem (Z.shiftl (signed_mantissa sa ma) (ea - e)) (Z.shiftl (Z.pos mb) (eb - e)) in
      d_round r e sa
  end.

Definition d_floor (x : f64) : f64 :=
  match x with
  | d_fin s m e => if 0 <=? e then x else d_round (Z.shiftr (signed_mantissa s m) (- e)) 0 s
  | _ => x
  end.

Definition d_one : f64 := d_of_int 1.
Definition d_half : f64 := d_round 1 (-1) false.

(** The functions of the platform's mathematical library. *)
Class Libm := {
  powf : f64 → f64 → f64;
  d_sin : f64 → f64;
  d_cos : f64 → f64;
}.

(** IEEE-754 binary64 values as the key code uses them: by bit pattern.

    The numeric value of a finite double is an integer multiple of
    [2 ^ -1074]; [FFin n] is the value [n / 2 ^ 1074], so comparisons and
    integrality are exact integer facts. *)


Definition f64_sign (bits : Z) : bool := Z.testbit bits 63.
Definition f64_exponent (bits : Z) : Z := Z.land (Z.shiftr bits 52) 0x7ff.
Definition f64_mantissa (bits : Z) : Z := Z.land bits 0xfffffffffffff.

(** [2 ^ 1074] *)
Definition f64_scale : Z := Z.shiftl 1 1074.

Inductive fval := FNaN | FInf (negative : bool) | FFin (n : Z).

(** [f64::from_bits] *)
Definition f64_val (bits : Z) : fval :=
  if f64_exponent bits =? 0x7ff then
    if f64_mantissa bits =? 0 then FInf (f64_sign bits) else FNaN
  else
    let m := if f64_exponent bits =? 0 then f64_mantissa bits
             else Z.shiftl (f64_mantissa bits + 2 ^ 52) (f64_exponent bits - 1) in
    FFin (if f64_sign bits then - m else m).

(** [==], [<] and [<=] on doubles. *)
Definition fval_eqb (a b : fval) : bool :=
  match a, b with
  | FInf s, FInf s' => eqb s s'
  | FFin n, FFin m => n =? m
  | _, _ => false
  end.

Definition fval_ltb (a b : fval) : bool :=
  match a, b with
  | FInf true, FInf false | FInf true, FFin _ | FFin _, FInf false => true
  | FFin n, FFin m => n <? m
  | _, _ => false
  end.

Definition fval_leb (a b : fval) : bool := fval_ltb a b || fval_eqb a b.

Definition f_is_nan (f : fval) : bool := match f with FNaN => true | _ => false end.
Definition f_is_infinite (f : fval) : bool := match f with FInf _ => true | _ => false end.
Definition f_is_finite (f : fval) : bool := match f with FFin _ => true | _ => false end.

Definition f_zero : fval := FFin 0.
(** [i as f64] for an integer that is exactly representable. *)
Definition f_of_int (i : Z) : fval := FFin (i * f64_scale).

(** [f.fract() == 0.0]: the fraction of an infinity or a NaN is NaN. *)
Definition f_fract_is_zero (f : fval) : bool :=
  match f with FFin n => Z.rem n f64_scale =? 0 | _ => false end.

(** [f == f.trunc()] *)
Definition f_eq_trunc (f : fval) : bool :=
  match f with
  | FFin n => n =? Z.quot n f64_scale * f64_scale
  | FInf _ => true
  | FNaN => false
  end.

(** [f as i64], which saturates and sends NaN to 0. *)
Definition f_as_i64 (f : fval) : Z :=
  match f with
  | FFin n => Z.max (- 2 ^ 63) (Z.min (2 ^ 63 - 1) (Z.quot n f64_scale))
  | FInf true => - 2 ^ 63
  | FInf false => 2 ^ 63 - 1
  | FNaN => 0
  end.

(** ** Facts *)

Lemma f64_scale_pos : 0 < f64_scale.
Proof. vm_compute. done. Qed.

Lemma f64_exponent_range bits : 0 ≤ f64_exponent bits < 2048.
Proof.
  unfold f64_exponent. change 0x7ff with (Z.ones 11). rewrite Z.land_ones by lia.
  apply Z.mod_pos_bound. lia.
Qed.

Lemma f64_mantissa_range bits : 0 ≤ f64_mantissa bits < 2 ^ 52.
Proof.
  unfold f64_mantissa. change 0xfffffffffffff with (Z.ones 52). rewrite Z.land_ones by lia.
  apply Z.mod_pos_bound. lia.
Qed.

Lemma fval_eqb_eq a b : fval_eqb a b = true ↔ a = b ∧ a ≠ FNaN.
Proof.
  destruct a as [|s|n], b as [|s'|m]; cbn; try (split; [done|intros [? ?]; congruence]).
  - rewrite eqb_true_iff. split; [intros ->; done|intros [? _]; congruence].
  - rewrite Z.eqb_eq. split; [intros ->; done|intros [? _]; congruence].
Qed.

Lemma rem_zero_quot n : Z.rem n f64_scale = 0 ↔ n = Z.quot n f64_scale * f64_scale.
Proof. pose proof (Z.quot_rem' n f64_scale). pose proof f64_scale_pos. lia. Qed.

(** An integral value is a multiple of the scale. *)
Lemma fract_zero_int n : f_fract_is_zero (FFin n) = true ↔ ∃ z, n = z * f64_scale.
Proof.
  cbn. rewrite Z.eqb_eq, rem_zero_quot. split; [by eexists|].
  intros [z ->]. rewrite Z.quot_mul; [done|]. pose proof f64_scale_pos. lia.
Qed.

Lemma eq_trunc_int n : f_eq_trunc (FFin n) = true ↔ ∃ z, n = z * f64_scale.
Proof. cbn. rewrite Z.eqb_eq, <- rem_zero_quot, <- Z.eqb_eq. apply fract_zero_int. Qed.

Lemma quot_scale z : Z.quot (z * f64_scale) f64_scale = z.
Proof. apply Z.quot_mul. pose proof f64_scale_pos. lia. Qed.

Lemma scale_inj a b : a * f64_scale = b * f64_scale → a = b.
Proof. pose proof f64_scale_pos. nia. Qed.
