(* ===== verification/Keys.v ===== *)
(** Hashable keys (crates/pyrust-core/src/core/keys.rs and the float helpers
    of value_equality.rs): the key type, its equality, its [Hash] stream and
    the CPython-compatible Python hash. *)

From S2P Require Import Prelude Probe Double.

(** ** Third-party and unmodelled types

    [BigInt] (crate num-bigint) by its documented meaning as an integer, and
    the [Value] inside an [Object] key by the two tests the equality makes. *)
Class BigInt (B : Type) := {
  bi_Z : B → Z;
  bi_from_i64 : Z → B;
  bi_eqb : B → B → bool;
  bi_rem : B → B → B;
  bi_to_i64 : B → option Z;
  bi_from_f64 : fval → option B;
}.

Class BigIntLaws (B : Type) `{BigInt B} : Prop := {
  bi_from_i64_Z i : bi_Z (bi_from_i64 i) = i;
  bi_eqb_Z a b : bi_eqb a b = (bi_Z a =? bi_Z b);
  bi_rem_Z a b : bi_Z b ≠ 0 → bi_Z (bi_rem a b) = Z.rem (bi_Z a) (bi_Z b);
  bi_to_i64_Z a : bi_to_i64 a =
    if (- 2 ^ 63 <=? bi_Z a) && (bi_Z a <? 2 ^ 63) then Some (bi_Z a) else None;
  (* truncation towards zero; [None] for NaN and the infinities *)
  bi_from_f64_Z f : bi_Z <$> bi_from_f64 f =
    match f with FFin n => Some (Z.quot n f64_scale) | _ => None end;
}.

Class ObjectValue (V : Type) := {
  ov_is_generator : V → bool;
  ov_identical : V → V → bool;
  ov_eqb : V → V → bool;
  ov_hash : V → Z;
}.

(** [ov_hash] is the Python-level [__hash__] that the runtime stores in the
    key; equal objects are required to have equal hashes. *)
Definition ov_same {V} `{ObjectValue V} (a b : V) : bool :=
  (ov_is_generator a && ov_identical a b) || ov_eqb a b.

Class ObjectValueLaws (V : Type) `{ObjectValue V} : Prop := {
  ov_refl a : ov_same a a = true;
  ov_sym a b : ov_same a b = true → ov_same b a = true;
  ov_trans a b c : ov_same a b = true → ov_same b c = true → ov_same a c = true;
  ov_same_hash a b : ov_same a b = true → ov_hash a = ov_hash b;
  ov_hash_range a : u64_range (ov_hash a);
}.

(** ** Keys *)

Section keys.
Context {B V : Type}.

(** [Float] and [Complex] hold bit patterns, [Str] and [Bytes] their bytes.  A
    [FrozenSet] is an [Rc]: its address, its items in insertion order and the
    hash cached at construction. *)
Inductive PyKey : Type :=
  | KInt (i : Z)
  | KBigInt (n : B)
  | KFloat (bits : Z)
  | KStr (utf8 : list Z)
  | KBool (b : bool)
  | KNone
  | KEllipsis
  | KFrozenSet (addr : Z) (items : list PyKey) (py_hash : Z)
  | KTuple (items : list PyKey)
  | KBytes (bytes : list Z)
  | KComplex (re im : Z)
  | KObject (hash : Z) (value : V).
End keys.
Arguments PyKey : clear implicits.

Section operations.
Context {B V : Type} `{BigInt B} `{ObjectValue V}.
(** The addresses of the [NONE_SENTINEL] and [ELLIPSIS_SENTINEL] statics. *)
Context (none_addr ellipsis_addr : Z).
#[local] Abbreviation key := (PyKey B V).

Definition bool_int (b : bool) : Z := if b then 1 else 0.

(** *** Float helpers *)

Definition float_bits_as_exact_i64 (bits : Z) : option Z :=
  let f := f64_val bits in
  if negb (f_is_finite f) || negb (f_fract_is_zero f) then None
  else
    let min_f := f_of_int (- 2 ^ 63) in
    let max_exclusive := f_of_int (2 ^ 63) in
    if fval_leb min_f f && fval_ltb f max_exclusive then Some (f_as_i64 f) else None.

Definition is_some_and {A} (o : option A) (p : A → bool) : bool :=
  match o with Some a => p a | None => false end.

Definition int_float_eq (i : Z) (f : fval) : bool :=
  if negb (f_is_finite f) || negb (f_eq_trunc f) then false
  else
    if fval_ltb f (f_of_int (- 2 ^ 63)) || fval_leb (f_of_int (2 ^ 63)) f then false
    else f_as_i64 f =? i.

Definition bigint_float_eq (big : B) (f : fval) : bool :=
  if negb (f_is_finite f) || negb (f_eq_trunc f) then false
  else
    match bi_from_f64 f with
    | Some f_as_bigint => bi_eqb f_as_bigint big
    | None => false
    end.

(** *** Python hashes *)

Definition PY_HASH_MODULUS : Z := Z.shiftl 1 61 - 1.

(** -1 is CPython's error return and is never a hash. *)
Definition remap (raw : Z) : Z := if raw =? -1 then -2 else raw.

Definition hash_int (v : Z) : Z := remap (Z.rem v PY_HASH_MODULUS).

Definition pykey_hash_bigint (n : B) : res Z :=
  let modulus := bi_from_i64 PY_HASH_MODULUS in
  let reduced := bi_rem n modulus in
  raw ← expect (bi_to_i64 reduced);
  Ok (remap raw).

Definition rotate_right4 (x : Z) : Z := Z.lor (Z.shiftr x 4) (as_u64 (Z.shiftl x 60)).

Definition py_hash_nan (bits : Z) : Z := remap (as_i64 (rotate_right4 bits)).

(** The Mersenne reduction of a non-zero finite double:
    [m * 2 ^ e mod (2 ^ 61 - 1)] with the sign of the value. *)
Definition float_reduce (bits : Z) : Z :=
  let sign := if fval_ltb (f64_val bits) f_zero then -1 else 1 in
  let biased_exp := f64_exponent bits in
  let mantissa_bits := f64_mantissa bits in
  let '(m, e) := if biased_exp =? 0 then (mantissa_bits, -1074)
                 else (Z.lor mantissa_bits (Z.shiftl 1 52), biased_exp - 1023 - 52) in
  let h := if 0 <=? e then
             let shift := e mod 61 in (m * Z.shiftl 1 shift) mod PY_HASH_MODULUS
           else
             let neg_e_mod := (- e) mod 61 in
             let inv_shift := if neg_e_mod =? 0 then 0 else 61 - neg_e_mod in
             (m * Z.shiftl 1 inv_shift) mod PY_HASH_MODULUS in
  remap (h * sign).

(** [hash_float_as_u64] inside [py_hash_complex]. *)
Definition hash_float_as_u64 (bits : Z) : Z :=
  let v := f64_val bits in
  if f_is_nan v then as_u64 (py_hash_nan bits)
  else if f_is_infinite v then
    if fval_ltb f_zero v then 314159 else as_u64 (-314159)
  else if fval_eqb v f_zero then 0
  else as_u64 (float_reduce bits).

Definition py_hash_complex (re im : Z) : Z :=
  let hash_re := hash_float_as_u64 re in
  let hash_im := hash_float_as_u64 im in
  let combined := wrapping_add hash_re (wrapping_mul 1000003 hash_im) in
  remap (as_i64 combined).

(** The [Float] arm of [py_hash_pykey]. *)
Definition py_hash_float (bits : Z) : Z :=
  let f := f64_val bits in
  if f_is_nan f then py_hash_nan bits
  else if f_is_infinite f then (if fval_ltb f_zero f then 314159 else -314159)
  else if fval_eqb f f_zero then 0
  else match float_bits_as_exact_i64 bits with
       | Some i => hash_int i
       | None => float_reduce bits
       end.

(** [py_hash_none] and [py_hash_ellipsis]. *)
Definition py_hash_sentinel (addr : Z) : Z :=
  let addr := Z.shiftr addr 4 in
  let h := Z.rem (as_i64 addr) PY_HASH_MODULUS in
  if (h =? 0) || (h =? -1) then 2654435761 else h.

Definition fnv1a (bytes : list Z) : Z :=
  fold_left (λ h b, wrapping_mul (Z.lxor h b) 1099511628211) bytes 14695981039346656037.

Definition frozenset_shuffle_bits (h : Z) : Z :=
  let shuffled := Z.lxor (Z.lxor h 89869747) (as_u64 (Z.shiftl h 16)) in
  wrapping_mul shuffled 3644798167.

Definition PRIME1 : Z := 11400714785074694791.
Definition PRIME2 : Z := 14029467366897019727.
Definition PRIME5 : Z := 2870177450012600261.

Definition xxstep (acc lane : Z) : Z :=
  let acc := wrapping_add acc (wrapping_mul lane PRIME2) in
  let acc := rotate_left acc 31 in
  wrapping_mul acc PRIME1.

(** [acc] after all items, [n] of them. *)
Definition tuple_hash_finish (acc n : Z) : Z :=
  let acc := wrapping_add acc (Z.lxor n (Z.lxor PRIME5 3527539)) in
  let acc := if acc =? usize_max then 1546275796 else acc in
  as_i64 acc.

Fixpoint py_hash_pykey (k : key) : res Z :=
  match k with
  | KInt v => Ok (hash_int v)
  | KBool b => Ok (bool_int b)
  | KBigInt n => pykey_hash_bigint n
  | KFloat bits => Ok (py_hash_float bits)
  | KStr s => Ok (as_i64 (fnv1a s))
  | KNone => Ok (py_hash_sentinel none_addr)
  | KEllipsis => Ok (py_hash_sentinel ellipsis_addr)
  | KTuple items =>
      acc ← (fix go (acc : Z) (items : list key) : res Z :=
               match items with
               | [] => Ok acc
               | item :: items =>
                   h ← py_hash_pykey item;
                   go (xxstep acc (as_u64 h)) items
               end) PRIME5 items;
      Ok (tuple_hash_finish acc (vlen items))
  | KFrozenSet _ _ py_hash => Ok py_hash
  | KBytes b => Ok (remap (as_i64 (fnv1a b)))
  | KComplex re im =>
      if fval_eqb (f64_val im) f_zero then Ok (py_hash_float re) else Ok (py_hash_complex re im)
  | KObject hash _ => Ok (as_i64 hash)
  end.

(** The scramble after the items are folded in. *)
Definition frozenset_hash_finish (h n : Z) : Z :=
  let h := Z.lxor h (wrapping_mul (n + 1) 1927868237) in
  let h := Z.lxor h (Z.lxor (Z.shiftr h 11) (Z.shiftr h 25)) in
  let h := wrapping_add (wrapping_mul h 69069) 907133923 in
  let result := as_i64 h in
  if result =? -1 then 590923713 else result.

Definition py_hash_frozenset_items (items : list key) : res Z :=
  h ← rfold (λ h item, ih ← py_hash_pykey item; Ok (Z.lxor h (frozenset_shuffle_bits (as_u64 ih))))
        0 items;
  Ok (frozenset_hash_finish h (vlen items)).

(** [FrozenSetKey::new], at a fresh address. *)
Definition frozenset_key_new (addr : Z) (items : list key) : res key :=
  py_hash ← py_hash_frozenset_items items; Ok (KFrozenSet addr items py_hash).

(** *** Equality *)

Definition real_valued_complex_eq (re im : Z) (other : key) : bool :=
  if negb (fval_eqb (f64_val im) f_zero) then false
  else
    match other with
    | KFloat bits => fval_eqb (f64_val re) (f64_val bits)
    | KInt i => is_some_and (float_bits_as_exact_i64 re) (λ fi, fi =? i)
    | KBool b => is_some_and (float_bits_as_exact_i64 re) (λ fi, fi =? bool_int b)
    | KBigInt n => bigint_float_eq n (f64_val re)
    | _ => false
    end.

Fixpoint list_eqb {A} (eqb : A → A → bool) (a b : list A) : bool :=
  match a, b with
  | [], [] => true
  | x :: a, y :: b => eqb x y && list_eqb eqb a b
  | _, _ => false
  end.

(** [IndexSet]'s equality: equal length, and every element of one is
    contained in the other. *)
Definition indexset_eqb {A} (eqb : A → A → bool) (a b : list A) : bool :=
  (length a =? length b)%nat && forallb (λ x, existsb (λ y, eqb x y) b) a.

Definition f64_same (a b : Z) : bool := fval_eqb (f64_val a) (f64_val b) || (a =? b).

Fixpoint pykey_eqb (a b : key) {struct a} : bool :=
  match a, b with
  | KInt a, KInt b => a =? b
  | KBool a, KBool b => eqb a b
  | KBool a, KInt b | KInt b, KBool a => b =? bool_int a
  | KFloat a, KFloat b => (a =? b) || fval_eqb (f64_val a) (f64_val b)
  | KFloat bits, KInt i | KInt i, KFloat bits =>
      is_some_and (float_bits_as_exact_i64 bits) (λ fi, fi =? i)
  | KFloat bits, KBool b | KBool b, KFloat bits =>
      is_some_and (float_bits_as_exact_i64 bits) (λ fi, fi =? bool_int b)
  | KBigInt a, KInt b | KInt b, KBigInt a => bi_eqb a (bi_from_i64 b)
  | KBigInt a, KBigInt b => bi_eqb a b
  | KFloat bits, KBigInt n | KBigInt n, KFloat bits => bigint_float_eq n (f64_val bits)
  | KStr a, KStr b => list_eqb Z.eqb a b
  | KNone, KNone => true
  | KEllipsis, KEllipsis => true
  | KFrozenSet addr_a items_a _, KFrozenSet addr_b items_b _ =>
      (addr_a =? addr_b)
      || ((length items_a =? length items_b)%nat
          && forallb (λ x, existsb (λ y, pykey_eqb x y) items_b) items_a)
  | KTuple a, KTuple b =>
      (fix go (a b : list key) : bool :=
         match a, b with
         | [], [] => true
         | x :: a, y :: b => pykey_eqb x y && go a b
         | _, _ => false
         end) a b
  | KBytes a, KBytes b => list_eqb Z.eqb a b
  | KComplex ar ai, KComplex br bi => f64_same ar br && f64_same ai bi
  | KComplex re im, other | other, KComplex re im => real_valued_complex_eq re im other
  | KObject _ a, KObject _ b => ov_same a b
  | _, _ => false
  end.

(** *** The [Hash] implementation

    What is fed to the hasher: one element per [write] call of the standard
    library's [Hash] implementations. *)
Inductive hwrite :=
  | WriteU8 (x : Z)
  | WriteI64 (x : Z)
  | WriteU64 (x : Z)
  | WriteUsize (x : Z)
  | Write (bytes : list Z).

(** [str::hash] ends with a 0xff byte, [[u8]::hash] starts with the length. *)
Definition hash_str (s : list Z) : list hwrite := [Write s; WriteU8 0xff].
Definition hash_slice (b : list Z) : list hwrite := [WriteUsize (vlen b); Write b].

Definition hash_float_bits (bits : Z) : res (list hwrite) :=
  match float_bits_as_exact_i64 bits with
  | Some i => Ok [WriteU8 0; WriteI64 i]
  | None =>
      let f := f64_val bits in
      if f_is_finite f && f_fract_is_zero f then
        match bi_from_f64 f with
        | Some big => h ← pykey_hash_bigint big; Ok [WriteU8 1; WriteI64 h]
        | None => Ok [WriteU8 1; WriteU64 bits]
        end
      else Ok [WriteU8 1; WriteU64 bits]
  end.

Definition hash_complex_key (re im : Z) : res (list hwrite) :=
  if fval_eqb (f64_val im) f_zero then hash_float_bits re
  else Ok [WriteU64 (as_u64 (py_hash_complex re im))].

Fixpoint pykey_hash (k : key) : res (list hwrite) :=
  match k with
  | KInt v => Ok [WriteU8 0; WriteI64 v]
  | KBool b => Ok [WriteU8 0; WriteI64 (bool_int b)]
  | KFloat bits => hash_float_bits bits
  | KBigInt n =>
      match bi_to_i64 n with
      | Some i => Ok [WriteU8 0; WriteI64 i]
      | None => h ← pykey_hash_bigint n; Ok [WriteU8 1; WriteI64 h]
      end
  | KStr s => Ok (WriteU8 2 :: hash_str s)
  | KNone => Ok [WriteU64 (as_u64 (py_hash_sentinel none_addr))]
  | KEllipsis => Ok [WriteU64 (as_u64 (py_hash_sentinel ellipsis_addr))]
  | KFrozenSet _ _ py_hash => Ok [WriteU8 4; WriteI64 py_hash]
  | KTuple items =>
      ws ← (fix go (items : list key) : res (list hwrite) :=
              match items with
              | [] => Ok []
              | k :: items => w ← pykey_hash k; ws ← go items; Ok (w ++ ws)
              end) items;
      Ok (WriteU8 5 :: WriteUsize (vlen items) :: ws)
  | KBytes b => Ok (WriteU8 6 :: hash_slice b)
  | KComplex re im => hash_complex_key re im
  | KObject hash _ => Ok [WriteU64 hash]
  end.

(** [StrKey]: a borrowed string that probes like [PyKey::Str]. *)
Definition strkey_hash (s : list Z) : list hwrite := WriteU8 2 :: hash_str s.
Definition strkey_equivalent (s : list Z) (k : key) : bool :=
  match k with KStr s' => list_eqb Z.eqb s' s | _ => false end.

Fixpoint pykey_contains_object (k : key) : bool :=
  match k with
  | KObject _ _ => true
  | KTuple items => existsb pykey_contains_object items
  | KFrozenSet _ items _ => existsb pykey_contains_object items
  | _ => false
  end.
End operations.
