(* ===== verification/KeysSpec.v ===== *)
(** The value of a double determines its Python hash: the closed form of the
    Mersenne reduction, and the injectivity of the decoding.

    Key equality is an equivalence that both hashes respect.

    Numeric keys (int, bool, big int, float, complex) are compared through
    their class, a canonical value; containers by induction on the key. *)

From S2P Require Import Prelude Probe Double Keys.

(** ** The Mersenne prime [2 ^ 61 - 1] *)

#[local] Abbreviation P := PY_HASH_MODULUS.

Lemma modulus_pos : 0 < P.
Proof. done. Qed.

Lemma pow2_61 : 2 ^ 61 mod P = 1.
Proof. done. Qed.

Lemma pow2_mersenne a : 0 ≤ a → 2 ^ a mod P = 2 ^ (a mod 61) mod P.
Proof.
  intros Ha. rewrite (Z.div_mod a 61) at 1 by lia.
  pose proof (Z.mod_pos_bound a 61). assert (0 ≤ a / 61) by (apply Z.div_pos; lia).
  rewrite Z.pow_add_r, Z.pow_mul_r, <- Z.mul_mod_idemp_l by (try done; lia).
  rewrite <- Z.mod_pow_l, pow2_61, Z.pow_1_l by done. by rewrite Z.mul_1_l.
Qed.

(** ** The hash of a value [n / 2 ^ 1074] *)

Definition val_hash (n : Z) : Z := remap (Z.sgn n * ((Z.abs n * 2 ^ 24) mod P)).

Lemma rem_sgn v m : 0 < m → Z.rem v m = Z.sgn v * (Z.abs v mod m).
Proof. intros Hm. rewrite Z.rem_mod by lia. by rewrite (Z.abs_eq m) by lia. Qed.

(** An integer hashes as its value does. *)
Lemma hash_int_val v : hash_int v = val_hash (v * f64_scale).
Proof.
  unfold hash_int, val_hash. f_equal. rewrite rem_sgn by done.
  pose proof f64_scale_pos. rewrite Z.sgn_mul, (Z.sgn_pos f64_scale), Z.mul_1_r by done. f_equal.
  rewrite Z.abs_mul, (Z.abs_eq f64_scale), <- Z.mul_assoc by lia.
  rewrite <- Z.mul_mod_idemp_r by done.
  change ((f64_scale * 2 ^ 24) mod P) with 1. by rewrite Z.mul_1_r.
Qed.

(** The code's shift is the exponent modulo 61, for either sign. *)
Lemma neg_shift e :
  e < 0 → (if (- e) mod 61 =? 0 then 0 else 61 - (- e) mod 61) = e mod 61.
Proof.
  intros He. destruct (Z.eqb_spec ((- e) mod 61) 0); Z.div_mod_to_equations; lia.
Qed.

(** Scaling [m * 2 ^ e] by [2 ^ 1098], a power of [2 ^ 61]. *)
Lemma reduce_mod m e :
  -1074 ≤ e →
  (m * 2 ^ (e mod 61)) mod P = (m * 2 ^ (e + 1098)) mod P.
Proof.
  intros He. rewrite <- Z.mul_mod_idemp_r, <- (Z.mul_mod_idemp_r m (2 ^ (e + 1098))) by done.
  rewrite (pow2_mersenne (e + 1098)), (pow2_mersenne (e mod 61)) by (pose proof (Z.mod_pos_bound e 61); lia).
  rewrite Z.mod_mod by done. do 3 f_equal.
  change 1098 with (18 * 61). by rewrite Z.mod_add.
Qed.

Lemma lor_implicit_bit m : 0 ≤ m < 2 ^ 52 → Z.lor m (Z.shiftl 1 52) = m + 2 ^ 52.
Proof.
  intros Hm. rewrite Z.shiftl_1_l. pose proof (Z.add_lor_land m (2 ^ 52)) as Ha.
  assert (Hl : Z.land m (2 ^ 52) = 0).
  { apply Z.bits_inj'. intros i Hi. rewrite Z.land_spec, Z.bits_0, Z.pow2_bits_eqb by lia.
    destruct (Z.eqb_spec 52 i) as [<-|]; [|by rewrite andb_false_r].
    rewrite (Z.bits_above_log2 m 52); [done|lia|].
    destruct (decide (m = 0)) as [->|]; [done|]. apply Z.log2_lt_pow2; lia. }
  rewrite Hl in Ha. lia.
Qed.

(** The magnitude of a finite double, in units of [2 ^ -1074]. *)
Definition f64_mag (bits : Z) : Z :=
  if f64_exponent bits =? 0 then f64_mantissa bits
  else Z.shiftl (f64_mantissa bits + 2 ^ 52) (f64_exponent bits - 1).

Lemma f64_mag_nonneg bits : 0 ≤ f64_mag bits.
Proof.
  unfold f64_mag. pose proof (f64_mantissa_range bits). destruct (_ =? _); [lia|].
  apply Z.shiftl_nonneg. lia.
Qed.

Lemma f64_val_finite bits n :
  f64_val bits = FFin n →
  f64_exponent bits < 2047 ∧ n = (if f64_sign bits then - f64_mag bits else f64_mag bits) ∧
  Z.abs n = f64_mag bits.
Proof.
  unfold f64_val. fold (f64_mag bits). pose proof (f64_exponent_range bits).
  pose proof (f64_mag_nonneg bits).
  destruct (Z.eqb_spec (f64_exponent bits) 0x7ff); [by destruct (_ =? _)|].
  intros [= <-]. destruct (f64_sign bits); lia.
Qed.

(** The Mersenne reduction depends on the value only. *)
Lemma float_reduce_val bits n :
  f64_val bits = FFin n → n ≠ 0 → float_reduce bits = val_hash n.
Proof.
  intros Hv Hn0. destruct (f64_val_finite bits n Hv) as (Hexp & Hn & Habs).
  pose proof (f64_exponent_range bits) as Her. pose proof (f64_mantissa_range bits) as Hmr.
  unfold float_reduce, val_hash. rewrite Hv, Habs.
  assert (Hsgn : Z.sgn n = if fval_ltb (FFin n) f_zero then -1 else 1).
  { cbn. destruct (Z.ltb_spec n 0); [rewrite Z.sgn_neg|rewrite Z.sgn_pos]; lia. }
  rewrite Hsgn, Z.mul_comm. f_equal. f_equal.
  set (ex := f64_exponent bits) in *.
  set (m := if ex =? 0 then f64_mantissa bits else f64_mantissa bits + 2 ^ 52).
  set (e := if ex =? 0 then -1074 else ex - 1023 - 52).
  assert (Hme : (if ex =? 0 then (f64_mantissa bits, -1074)
    else (Z.lor (f64_mantissa bits) (Z.shiftl 1 52), ex - 1023 - 52)) = (m, e)).
  { unfold m, e. destruct (ex =? 0); [done|]. by rewrite lor_implicit_bit. }
  rewrite Hme.
  assert (Hmag : f64_mag bits * 2 ^ 24 = m * 2 ^ (e + 1098)).
  { unfold f64_mag. fold ex. unfold m, e. destruct (Z.eqb_spec ex 0); [done|].
    rewrite Z.shiftl_mul_pow2, <- Z.mul_assoc, <- Z.pow_add_r by lia. do 2 f_equal. lia. }
  assert (He : -1074 ≤ e) by (unfold e; destruct (Z.eqb_spec ex 0); lia).
  rewrite Hmag, <- reduce_mod by done.
  destruct (Z.leb_spec 0 e) as [|Hneg]; [by rewrite Z.shiftl_1_l|].
  by rewrite Z.shiftl_1_l, neg_shift by done.
Qed.

(** ** Classes of doubles *)

(** A double up to the equality of a dict: numbers by value, NaNs by bits. *)
Inductive fclass := CNum (n : Z) | CInf (negative : bool) | CNaN (bits : Z).

Definition fclass_of (bits : Z) : fclass :=
  match f64_val bits with FNaN => CNaN bits | FInf s => CInf s | FFin n => CNum n end.

Lemma f64_same_class a b : f64_same a b = true ↔ fclass_of a = fclass_of b.
Proof.
  unfold f64_same. rewrite orb_true_iff, Z.eqb_eq, fval_eqb_eq. unfold fclass_of.
  destruct (f64_val a) eqn:Ha, (f64_val b) eqn:Hb; split; intros Hx;
    try (destruct Hx as [[Hx Hy]|Hx]; congruence); try congruence.
  all: try (left; split; congruence).
  right. congruence.
Qed.

Definition class_hash (c : fclass) : Z :=
  match c with
  | CNum n => val_hash n
  | CInf s => if s then -314159 else 314159
  | CNaN bits => py_hash_nan bits
  end.

Lemma in_i64_bounds n z :
  n = z * f64_scale →
  (fval_leb (f_of_int (- 2 ^ 63)) (FFin n) && fval_ltb (FFin n) (f_of_int (2 ^ 63)) = true ↔ i64_range z).
Proof.
  intros ->. unfold fval_leb, f_of_int, i64_range. cbn [fval_ltb fval_eqb].
  pose proof f64_scale_pos as Hs.
  rewrite andb_true_iff, orb_true_iff, !Z.ltb_lt, Z.eqb_eq. split.
  - intros [Hl Hu]. split; [|by apply Z.mul_lt_mono_pos_r in Hu].
    destruct Hl as [Hl|Hl]; [apply Z.mul_lt_mono_pos_r in Hl; lia|apply scale_inj in Hl; lia].
  - intros [Hl Hu]. split; [|by apply Z.mul_lt_mono_pos_r].
    destruct (Z.eq_dec z (- 2 ^ 63)) as [->|]; [by right|left; apply Z.mul_lt_mono_pos_r; lia].
Qed.

Lemma f_as_i64_int z : i64_range z → f_as_i64 (FFin (z * f64_scale)) = z.
Proof. intros Hz. unfold f_as_i64. rewrite quot_scale. unfold i64_range in Hz. lia. Qed.

(** [float_bits_as_exact_i64] recognizes exactly the [i64] values. *)
Lemma exact_i64_spec bits i :
  float_bits_as_exact_i64 bits = Some i ↔ f64_val bits = FFin (i * f64_scale) ∧ i64_range i.
Proof.
  unfold float_bits_as_exact_i64. destruct (f64_val bits) as [|s|n]; cbn [f_is_finite negb orb];
    try (split; [done|by intros [? _]]).
  destruct (f_fract_is_zero (FFin n)) eqn:Hf; cbn [negb].
  - apply fract_zero_int in Hf as [z ->].
    pose proof (in_i64_bounds (z * f64_scale) z eq_refl) as Hb.
    destruct (_ && _).
    + assert (Hz : i64_range z) by (by apply Hb). rewrite f_as_i64_int by done. split.
      * intros [= <-]. done.
      * intros [[= Heq%scale_inj] _]. congruence.
    + split; [done|]. intros [[= Heq%scale_inj] Hr]. subst z. apply Hb in Hr. done.
  - split; [done|]. intros [[= ->] _].
    assert (f_fract_is_zero (FFin (i * f64_scale)) = true) by (apply fract_zero_int; by exists i).
    congruence.
Qed.

Lemma int_float_eq_spec i f : i64_range i → int_float_eq i f = true ↔ f = FFin (i * f64_scale).
Proof.
  intros Hi. unfold int_float_eq. destruct f as [|s|n]; cbn [f_is_finite negb orb];
    try (split; done).
  destruct (f_eq_trunc (FFin n)) eqn:Ht; cbn [negb].
  - apply eq_trunc_int in Ht as [z ->].
    pose proof (in_i64_bounds (z * f64_scale) z eq_refl) as Hb.
    assert (Hneg : fval_ltb (FFin (z * f64_scale)) (f_of_int (- 2 ^ 63))
      || fval_leb (f_of_int (2 ^ 63)) (FFin (z * f64_scale)) =
      negb (fval_leb (f_of_int (- 2 ^ 63)) (FFin (z * f64_scale))
            && fval_ltb (FFin (z * f64_scale)) (f_of_int (2 ^ 63)))).
    { unfold fval_leb, f_of_int. cbn [fval_ltb fval_eqb].
      set (a := z * f64_scale). set (lo := - 2 ^ 63 * f64_scale). set (hi := 2 ^ 63 * f64_scale).
      destruct (Z.ltb_spec a lo), (Z.ltb_spec hi a), (Z.eqb_spec hi a), (Z.ltb_spec lo a),
        (Z.eqb_spec lo a), (Z.ltb_spec a hi); cbn; try done; exfalso; unfold lo, hi in *;
        pose proof f64_scale_pos; lia. }
    rewrite Hneg. destruct (_ && _); cbn [negb].
    + assert (Hz : i64_range z) by (by apply Hb). rewrite f_as_i64_int, Z.eqb_eq by done.
      split; [by intros ->|]. intros [= Heq%scale_inj]. done.
    + split; [done|]. intros [= Heq%scale_inj]. subst z. by apply Hb in Hi.
  - split; [done|]. intros [= ->].
    assert (f_eq_trunc (FFin (i * f64_scale)) = true) by (apply eq_trunc_int; by exists i).
    congruence.
Qed.

(** Both float hash functions compute the hash of the class. *)
Lemma py_hash_float_class bits : py_hash_float bits = class_hash (fclass_of bits).
Proof.
  unfold py_hash_float, fclass_of. destruct (f64_val bits) as [|s|n] eqn:Hv; cbn [f_is_nan f_is_infinite].
  - done.
  - by destruct s.
  - cbn [fval_eqb f_zero class_hash]. destruct (Z.eqb_spec n 0) as [->|Hn]; [done|].
    destruct (float_bits_as_exact_i64 bits) as [i|] eqn:He.
    + apply exact_i64_spec in He as [Heq _]. rewrite hash_int_val. congruence.
    + by apply float_reduce_val.
Qed.

Lemma hash_float_as_u64_class bits : hash_float_as_u64 bits = as_u64 (class_hash (fclass_of bits)).
Proof.
  unfold hash_float_as_u64, fclass_of.
  destruct (f64_val bits) as [|s|n] eqn:Hv; cbn [f_is_nan f_is_infinite].
  - done.
  - by destruct s.
  - cbn [fval_eqb f_zero class_hash]. destruct (Z.eqb_spec n 0) as [->|Hn]; [done|].
    by rewrite (float_reduce_val bits n).
Qed.

(** ** A non-zero number has one representation *)

Lemma f64_decompose bits :
  u64_range bits →
  bits = (if f64_sign bits then 2 ^ 63 else 0) + f64_exponent bits * 2 ^ 52 + f64_mantissa bits.
Proof.
  intros Hb. unfold u64_range, two64 in Hb. unfold f64_sign, f64_exponent, f64_mantissa.
  change 0x7ff with (Z.ones 11). change 0xfffffffffffff with (Z.ones 52).
  rewrite !Z.land_ones, Z.shiftr_div_pow2, Z.testbit_odd, Z.shiftr_div_pow2 by lia.
  assert (Hodd : (if Z.odd (bits / 2 ^ 63) then 2 ^ 63 else 0) = bits / 2 ^ 63 * 2 ^ 63).
  { assert (Hr : 0 ≤ bits / 2 ^ 63 < 2).
    { split; [apply Z.div_pos; lia|apply Z.div_lt_upper_bound; lia]. }
    destruct (Z.eq_dec (bits / 2 ^ 63) 0) as [->|]; [done|].
    replace (bits / 2 ^ 63) with 1 by lia. done. }
  rewrite Hodd.
  pose proof (Z.div_mod bits (2 ^ 52) ltac:(lia)) as H1.
  pose proof (Z.div_mod (bits / 2 ^ 52) (2 ^ 11) ltac:(lia)) as H2.
  rewrite Z.div_div in H2 by lia. change (2 ^ 52 * 2 ^ 11) with (2 ^ 63) in H2. lia.
Qed.

Lemma f64_mag_exponent bits :
  f64_exponent bits = if f64_mag bits <? 2 ^ 52 then 0 else Z.log2 (f64_mag bits) - 51.
Proof.
  pose proof (f64_mantissa_range bits). pose proof (f64_exponent_range bits).
  unfold f64_mag. destruct (Z.eqb_spec (f64_exponent bits) 0) as [->|].
  - by destruct (Z.ltb_spec (f64_mantissa bits) (2 ^ 52)); [|lia].
  - rewrite Z.log2_shiftl by lia.
    assert (Hl : Z.log2 (f64_mantissa bits + 2 ^ 52) = 52).
    { apply Z.log2_unique; [lia|]. change (2 ^ Z.succ 52) with (2 * 2 ^ 52). lia. }
    rewrite Hl. destruct (Z.ltb_spec (Z.shiftl (f64_mantissa bits + 2 ^ 52) (f64_exponent bits - 1)) (2 ^ 52)) as [Hlt|].
    + exfalso. rewrite Z.shiftl_mul_pow2 in Hlt by lia.
      assert (1 ≤ 2 ^ (f64_exponent bits - 1)) by (apply (Z.pow_le_mono_r 2 0); lia). nia.
    + lia.
Qed.

Lemma f64_val_inj a b :
  u64_range a → u64_range b → f64_val a = f64_val b → f64_val a ≠ FNaN → f64_val a ≠ FFin 0 → a = b.
Proof.
  intros Ha Hb Heq Hnan Hzero.
  pose proof (f64_decompose a Ha) as Hda. pose proof (f64_decompose b Hb) as Hdb.
  destruct (f64_val a) as [|s|n] eqn:Hva; [done|..]; symmetry in Heq.
  - unfold f64_val in Hva, Heq.
    destruct (Z.eqb_spec (f64_exponent a) 0x7ff) as [Hea|]; [|done].
    destruct (Z.eqb_spec (f64_exponent b) 0x7ff) as [Heb|]; [|done].
    destruct (Z.eqb_spec (f64_mantissa a) 0) as [Hma|]; [|done].
    destruct (Z.eqb_spec (f64_mantissa b) 0) as [Hmb|]; [|done].
    rewrite Hda, Hdb, Hea, Heb, Hma, Hmb. by replace (f64_sign b) with (f64_sign a) by congruence.
  - destruct (f64_val_finite a n Hva) as (_ & Hna & Haa).
    destruct (f64_val_finite b n Heq) as (_ & Hnb & Hab).
    assert (Hmag : f64_mag a = f64_mag b) by congruence.
    assert (Hexp : f64_exponent a = f64_exponent b) by (rewrite !f64_mag_exponent; by rewrite Hmag).
    assert (Hsign : f64_sign a = f64_sign b).
    { assert (f64_mag a ≠ 0) by (intros Hz; apply Hzero; f_equal; lia).
      rewrite Hna in Hnb. destruct (f64_sign a), (f64_sign b); try done; lia. }
    assert (Hman : f64_mantissa a = f64_mantissa b).
    { unfold f64_mag in Hmag. rewrite <- Hexp in Hmag.
      destruct (Z.eqb_spec (f64_exponent a) 0); [done|].
      pose proof (f64_exponent_range a). rewrite !Z.shiftl_mul_pow2 in Hmag by lia.
      apply Z.mul_cancel_r in Hmag; [lia|]. apply Z.pow_nonzero; lia. }
    rewrite Hda, Hdb, Hsign, Hexp, Hman. done.
Qed.

(** * Key equality *)


#[local] Opaque f64_scale.
#[local] Arguments Z.mul : simpl never.

(** ** Matching two sets of equal size *)

Section matching.
Context {A C : Type} (R : A → C → Prop) (la : list A) (lb : list C).
Context (Hlen : length la = length lb).
Context (Hex : ∀ x, x ∈ la → ∃ y, y ∈ lb ∧ R x y).
Context (Hinj : ∀ i j x x' y, la !! i = Some x → la !! j = Some x' → y ∈ lb →
  R x y → R x' y → i = j).

(** An injective assignment of positions is a permutation of [lb]. *)
Lemma match_positions :
  ∃ ps, Forall2 (λ x p, ∃ y, lb !! p = Some y ∧ R x y) la ps ∧ ps ≡ₚ seq 0 (length lb).
Proof using Hlen Hex Hinj.
  assert (Hps : ∃ ps, Forall2 (λ x p, ∃ y, lb !! p = Some y ∧ R x y) la ps).
  { clear Hinj Hlen. induction la as [|x l IH]; [exists []; constructor|].
    destruct IH as [ps Hps]; [intros x' Hx'; apply Hex; by right|].
    destruct (Hex x) as (y & Hy & Hr); [by left|].
    apply list_elem_of_lookup in Hy as [p Hp]. exists (p :: ps). constructor; eauto. }
  destruct Hps as [ps Hps]. exists ps. split; [done|].
  pose proof (Forall2_length _ _ _ Hps) as Hl.
  assert (Hnd : NoDup ps).
  { apply NoDup_alt. intros i j p Hi Hj.
    destruct (Forall2_lookup_r _ _ _ _ _ Hps Hi) as (x & Hx & y & Hy & Hr).
    destruct (Forall2_lookup_r _ _ _ _ _ Hps Hj) as (x' & Hx' & y' & Hy' & Hr').
    assert (y' = y) as -> by congruence.
    eapply Hinj; [exact Hx|exact Hx'| |exact Hr|exact Hr']. by eapply list_elem_of_lookup_2. }
  assert (Hsub : ∀ p, p ∈ ps → p ∈ seq 0 (length lb)).
  { intros p Hp. apply list_elem_of_lookup in Hp as [i Hi].
    destruct (Forall2_lookup_r _ _ _ _ _ Hps Hi) as (x & _ & y & Hy & _).
    apply elem_of_seq. apply lookup_lt_Some in Hy. lia. }
  apply submseteq_length_Permutation; [by apply NoDup_submseteq|].
  rewrite length_seq. lia.
Qed.

(** Both sides list related elements, up to the order of [lb]. *)
Lemma match_permutation : ∃ lb', lb' ≡ₚ lb ∧ Forall2 R la lb'.
Proof using Hlen Hex Hinj.
  destruct match_positions as (ps & Hps & Hperm).
  exists (omap (λ p, lb !! p) ps). split.
  - rewrite Hperm. clear. induction lb as [|y l IH] using rev_ind; [done|].
    rewrite length_app, Nat.add_1_r, seq_S, omap_app, Nat.add_0_l. cbn [omap list_omap].
    rewrite (list_lookup_middle l [] y _ eq_refl).
    replace (omap (λ p, (l ++ [y]) !! p) (seq 0 (length l))) with (omap (λ p, l !! p) (seq 0 (length l))).
    + by rewrite IH.
    + assert (Hin : Forall (λ p, (p < length l)%nat) (seq 0 (length l))).
      { apply Forall_forall. intros p Hp%elem_of_seq. lia. }
      revert Hin. generalize (seq 0 (length l)). intros ps Hin.
      induction Hin as [|p ps Hp _ IHp]; [done|].
      cbn. rewrite lookup_app_l by done. destruct (l !! p); [f_equal|]; exact IHp.
  - clear -Hps. induction Hps as [|x p l ps (y & Hy & Hr) Hps IH]; [constructor|].
    cbn. rewrite Hy. by constructor.
Qed.
End matching.

(** ** Induction on keys *)

Section induction.
Context {B V : Type} (Q : PyKey B V → Prop).
Context (Hint : ∀ i, Q (KInt i)) (Hbig : ∀ n, Q (KBigInt n)) (Hfloat : ∀ b, Q (KFloat b))
  (Hstr : ∀ s, Q (KStr s)) (Hbool : ∀ b, Q (KBool b)) (Hnone : Q KNone) (Hell : Q KEllipsis)
  (Hset : ∀ a items h, Forall Q items → Q (KFrozenSet a items h))
  (Htuple : ∀ items, Forall Q items → Q (KTuple items)) (Hbytes : ∀ b, Q (KBytes b))
  (Hcomplex : ∀ re im, Q (KComplex re im)) (Hobject : ∀ h v, Q (KObject h v)).

Fixpoint pykey_induction (k : PyKey B V) : Q k :=
  let fix all (items : list (PyKey B V)) : Forall Q items :=
    match items with
    | [] => Forall_nil_2 _
    | k :: items => Forall_cons_2 _ _ _ (pykey_induction k) (all items)
    end in
  match k with
  | KInt i => Hint i | KBigInt n => Hbig n | KFloat b => Hfloat b | KStr s => Hstr s
  | KBool b => Hbool b | KNone => Hnone | KEllipsis => Hell
  | KFrozenSet a items h => Hset a items h (all items)
  | KTuple items => Htuple items (all items)
  | KBytes b => Hbytes b | KComplex re im => Hcomplex re im | KObject h v => Hobject h v
  end.
End induction.

(** ** Well-formed keys *)

Section spec.
Context {B V : Type} `{HB : BigInt B} `{HBL : !BigIntLaws B} `{HV : ObjectValue V}
  `{HVL : !ObjectValueLaws V}.
Context (none_addr ellipsis_addr : Z).
(** The heap of frozenset keys: what each [Rc] address holds. *)
Context (heap : Z → list (PyKey B V) * Z).
#[local] Abbreviation key := (PyKey B V).
#[local] Abbreviation hash_of := (py_hash_pykey (B := B) (V := V) none_addr ellipsis_addr).

#[local] Abbreviation stream_of := (pykey_hash (B := B) (V := V) none_addr ellipsis_addr).

(** No two items are equal. *)
Definition keys_distinct (items : list key) : Prop :=
  ∀ i j a b, items !! i = Some a → items !! j = Some b → pykey_eqb a b = true → i = j.

Fixpoint wf_key (k : key) : Prop :=
  match k with
  | KInt i => i64_range i
  (* [Value::to_key] makes a big key only for what does not fit an [i64] *)
  | KBigInt n => ¬ i64_range (bi_Z n)
  | KFloat bits => u64_range bits
  | KComplex re im => u64_range re ∧ u64_range im
  | KFrozenSet addr items h =>
      heap addr = (items, h) ∧ py_hash_frozenset_items none_addr ellipsis_addr items = Ok h ∧
      keys_distinct items ∧ foldr (λ x P, wf_key x ∧ P) True items
  | KTuple items => foldr (λ x P, wf_key x ∧ P) True items
  | KObject h v => h = ov_hash v
  | _ => True
  end.

Lemma wf_items (items : list key) : foldr (λ x P, wf_key x ∧ P) True items ↔ Forall wf_key items.
Proof. induction items as [|x items IH]; cbn; [done|]. rewrite IH. by rewrite Forall_cons. Qed.

(** ** Numeric classes *)

Inductive nclass := NReal (c : fclass) | NComplex (re im : fclass).

Definition is_nan_class (c : fclass) : bool := match c with CNaN _ => true | _ => false end.

(** A complex with a zero imaginary part is real, unless its real part is NaN. *)
Definition complex_class (re im : fclass) : nclass :=
  match im with
  | CNum 0 => if is_nan_class re then NComplex re im else NReal re
  | _ => NComplex re im
  end.

Definition num_class (k : key) : option nclass :=
  match k with
  | KInt i => Some (NReal (CNum (i * f64_scale)))
  | KBool b => Some (NReal (CNum (bool_int b * f64_scale)))
  | KBigInt n => Some (NReal (CNum (bi_Z n * f64_scale)))
  | KFloat bits => Some (NReal (fclass_of bits))
  | KComplex re im => Some (complex_class (fclass_of re) (fclass_of im))
  | _ => None
  end.

Lemma bigint_float_eq_spec n f : bigint_float_eq n f = true ↔ f = FFin (bi_Z n * f64_scale).
Proof using HBL.
  unfold bigint_float_eq. destruct f as [|s|m]; cbn [f_is_finite negb orb]; try (split; done).
  destruct (f_eq_trunc (FFin m)) eqn:Ht; cbn [negb].
  - apply eq_trunc_int in Ht as [z ->]. pose proof (bi_from_f64_Z (FFin (z * f64_scale))) as Hb.
    cbn in Hb. destruct (bi_from_f64 (FFin (z * f64_scale))) as [b|]; [|done].
    injection Hb as Hb. rewrite quot_scale in Hb. rewrite bi_eqb_Z, Z.eqb_eq, Hb.
    split; [by intros ->|]. intros [= Heq%scale_inj]. done.
  - split; [done|]. intros [= ->].
    assert (f_eq_trunc (FFin (bi_Z n * f64_scale)) = true) by (apply eq_trunc_int; by eexists).
    congruence.
Qed.

Lemma class_of_num bits n : fclass_of bits = CNum n ↔ f64_val bits = FFin n.
Proof. unfold fclass_of. destruct (f64_val bits); split; congruence. Qed.

Lemma exact_i64_class bits i :
  i64_range i →
  is_some_and (float_bits_as_exact_i64 bits) (λ fi, fi =? i) = true ↔
  fclass_of bits = CNum (i * f64_scale).
Proof.
  intros Hi. rewrite class_of_num. destruct (float_bits_as_exact_i64 bits) as [fi|] eqn:He; cbn.
  - apply exact_i64_spec in He as [Hv Hr]. rewrite Z.eqb_eq, Hv.
    split; [by intros ->|]. intros [= Heq%scale_inj]. done.
  - split; [done|]. intros Hv. assert (float_bits_as_exact_i64 bits = Some i); [|congruence].
    by apply exact_i64_spec.
Qed.

Lemma val_eqb_class a b :
  fval_eqb (f64_val a) (f64_val b) = true ↔ fclass_of a = fclass_of b ∧ is_nan_class (fclass_of a) = false.
Proof.
  rewrite fval_eqb_eq. unfold fclass_of.
  destruct (f64_val a), (f64_val b); cbn; split; intros [? ?]; try congruence; split; congruence.
Qed.

Lemma zero_class im : fval_eqb (f64_val im) f_zero = true ↔ fclass_of im = CNum 0.
Proof. rewrite fval_eqb_eq, class_of_num. split; [by intros [-> _]|intros ->; done]. Qed.

Lemma bool_int_range b : i64_range (bool_int b).
Proof. destruct b; done. Qed.

(** A complex class is real with class [c] exactly when the code's test for a
    real-valued complex succeeds. *)
Lemma complex_real re im c :
  complex_class (fclass_of re) (fclass_of im) = NReal c ↔
  fval_eqb (f64_val im) f_zero = true ∧ fclass_of re = c ∧ is_nan_class c = false.
Proof.
  rewrite zero_class. unfold complex_class. destruct (fclass_of im) as [n| |].
  - destruct n; [|split; [done|by intros [? _]]..].
    destruct (is_nan_class (fclass_of re)) eqn:Hn.
    + split; [done|]. intros (_ & <- & Hc). congruence.
    + split; [intros [= <-]; done|]. by intros (_ & -> & _).
  - split; [done|by intros [? _]].
  - split; [done|by intros [? _]].
Qed.

Lemma real_valued_spec re im other c :
  num_class other = Some (NReal c) → wf_key other → (∀ r i, other ≠ KComplex r i) →
  real_valued_complex_eq re im other = true ↔
  complex_class (fclass_of re) (fclass_of im) = NReal c.
Proof using HBL.
  intros Hc Hwf Hnc. rewrite complex_real. unfold real_valued_complex_eq.
  destruct (fval_eqb (f64_val im) f_zero); cbn [negb]; [|split; [done|by intros [? _]]].
  destruct other; cbn [num_class wf_key] in Hc, Hwf; try discriminate Hc.
  - injection Hc as <-. rewrite exact_i64_class by done. cbn. tauto.
  - injection Hc as <-. rewrite bigint_float_eq_spec, <- class_of_num. cbn. tauto.
  - injection Hc as <-. rewrite val_eqb_class. split; [intros [-> ?]; done|].
    intros (_ & -> & ?). done.
  - injection Hc as <-. rewrite exact_i64_class by apply bool_int_range. cbn. tauto.
  - by destruct (Hnc re0 im0).
Qed.

(** *** Equality of numeric keys *)

Lemma complex_class_inj re im re' im' :
  f64_same re re' && f64_same im im' = true ↔
  complex_class (fclass_of re) (fclass_of im) = complex_class (fclass_of re') (fclass_of im').
Proof.
  rewrite andb_true_iff, !f64_same_class. split; [by intros [-> ->]|]. unfold complex_class.
  destruct (fclass_of im) as [[]| |], (fclass_of im') as [[]| |];
    repeat (destruct (is_nan_class _)); intros Heq; split; congruence.
Qed.

Lemma eqb_float_float a b :
  (a =? b) || fval_eqb (f64_val a) (f64_val b) = true ↔ fclass_of a = fclass_of b.
Proof. rewrite <- f64_same_class. unfold f64_same. by rewrite orb_comm. Qed.

Lemma real_class_eq (c d : fclass) : Some (NReal c) = Some (NReal d) ↔ c = d.
Proof. split; congruence. Qed.

Lemma num_scale (x y : Z) : CNum (x * f64_scale) = CNum (y * f64_scale) ↔ x = y.
Proof. split; [intros [= Heq%scale_inj]; done|by intros ->]. Qed.

Lemma real_valued_class re im other :
  wf_key other → (∀ r i, other ≠ KComplex r i) →
  real_valued_complex_eq re im other = true ↔
  Some (complex_class (fclass_of re) (fclass_of im)) = num_class other.
Proof using HBL.
  intros Hwf Hnc. destruct (num_class other) as [[c|r i]|] eqn:Hc.
  - rewrite (real_valued_spec re im other c) by done. split; congruence.
  - destruct other; cbn [num_class] in Hc; try discriminate Hc. by destruct (Hnc re0 im0).
  - split; [|done]. unfold real_valued_complex_eq. destruct (negb _); [done|].
    destruct other; cbn [num_class] in Hc; try discriminate Hc; done.
Qed.

Lemma class_comm (c d : fclass) (P : Prop) : (P ↔ c = d) → (P ↔ Some (NReal d) = Some (NReal c)).
Proof. intros ->. rewrite real_class_eq. split; congruence. Qed.

(** A numeric key equals exactly the keys of its class. *)
Lemma num_eqb a b :
  wf_key a → wf_key b → is_Some (num_class a) →
  pykey_eqb a b = true ↔ num_class a = num_class b.
Proof using HBL.
  assert (Hif : ∀ i bits, i64_range i →
    is_some_and (float_bits_as_exact_i64 bits) (λ fi, fi =? i) = true ↔
    CNum (i * f64_scale) = fclass_of bits).
  { intros i bits Hi. rewrite exact_i64_class by done. split; congruence. }
  assert (Hbf : ∀ n bits, bigint_float_eq n (f64_val bits) = true ↔
    CNum (bi_Z n * f64_scale) = fclass_of bits).
  { intros n bits. rewrite bigint_float_eq_spec, <- class_of_num. split; congruence. }
  pose proof bool_int_range as Hb01.
  destruct a, b; cbn [num_class wf_key]; intros Ha Hb [c Hc]; try discriminate Hc; clear c Hc;
    cbn [pykey_eqb]; try (split; discriminate);
    try (rewrite real_valued_class by done; cbn [num_class]; (done || (split; congruence)));
    try (rewrite complex_class_inj; split; congruence); rewrite real_class_eq;
    rewrite ?Hif, ?Hbf, ?bi_eqb_Z, ?bi_from_i64_Z, ?num_scale, ?Z.eqb_eq by done;
    try (split; congruence).
  - split; [done|]. intros Heq. by destruct Ha; rewrite Heq.
  - by rewrite eqb_float_float.
  - split; [done|]. intros Heq. by destruct Hb; rewrite <- Heq.
  - rewrite eqb_true_iff. destruct b0, b; cbn; split; congruence || lia.
Qed.

Lemma num_eqb_none a b :
  wf_key b → wf_key a → num_class a = None → is_Some (num_class b) → pykey_eqb a b = false.
Proof.
  intros _ _. destruct a, b; cbn [num_class]; intros Ha [c Hc]; try discriminate Hc; try discriminate Ha; try done;
    cbn [pykey_eqb]; unfold real_valued_complex_eq; by destruct (negb _).
Qed.

(** *** Equality of the other keys *)

Lemma list_eqb_Forall2 {A} (eqb : A → A → bool) (a b : list A) :
  list_eqb eqb a b = true ↔ Forall2 (λ x y, eqb x y = true) a b.
Proof.
  revert b. induction a as [|x a IH]; intros [|y b]; cbn; split; intros Hx;
    try discriminate Hx; try (by inversion Hx); try constructor.
  - by apply andb_true_iff in Hx as [Hx _].
  - apply IH. by apply andb_true_iff in Hx as [_ Hx].
  - inversion Hx; subst. apply andb_true_iff. split; [done|]. by apply IH.
Qed.

Lemma bytes_eqb (a b : list Z) : list_eqb Z.eqb a b = true ↔ a = b.
Proof.
  rewrite list_eqb_Forall2. split.
  - intros Hab. induction Hab as [|x y a b Hxy%Z.eqb_eq _ IH]; congruence.
  - intros <-. induction a; constructor; [apply Z.eqb_refl|done].
Qed.

Lemma tuple_eqb (a b : list key) :
  pykey_eqb (KTuple a) (KTuple b) = true ↔ Forall2 (λ x y, pykey_eqb x y = true) a b.
Proof.
  rewrite <- list_eqb_Forall2. cbn [pykey_eqb].
  enough (Heq : ∀ l, (fix go (a b : list key) : bool :=
         match a, b with
         | [], [] => true
         | x :: a, y :: b => pykey_eqb x y && go a b
         | _, _ => false
         end) a l = list_eqb pykey_eqb a l) by (by rewrite Heq).
  clear. induction a as [|x a IH]; intros [|y b]; try done. cbn [list_eqb]. by rewrite IH.
Qed.

(** Each item of the first list has an equal one in the second, of the same
    length: what [IndexSet] compares. *)
Definition set_match (a b : list key) : Prop :=
  length a = length b ∧ ∀ x, x ∈ a → ∃ y, y ∈ b ∧ pykey_eqb x y = true.

Lemma items_match (a b : list key) :
  (length a =? length b)%nat && forallb (λ x, existsb (λ y, pykey_eqb x y) b) a = true ↔ set_match a b.
Proof.
  rewrite andb_true_iff, Nat.eqb_eq, forallb_forall. apply and_iff_compat_l.
  split; intros Hm x Hx.
  - apply list_elem_of_In in Hx. apply Hm, existsb_exists in Hx as (y & Hy & Heq).
    exists y. by rewrite list_elem_of_In.
  - apply list_elem_of_In in Hx. destruct (Hm x Hx) as (y & Hy%list_elem_of_In & Heq).
    apply existsb_exists. eauto.
Qed.

Lemma key_refl k : wf_key k → pykey_eqb k k = true.
Proof using HBL HVL.
  induction k using pykey_induction; intros Hwf;
    try (apply num_eqb; [done|done|by eexists|done]); try done.
  - by apply bytes_eqb.
  - cbn [pykey_eqb]. by rewrite Z.eqb_refl.
  - apply tuple_eqb. cbn [wf_key] in Hwf. apply wf_items in Hwf.
    induction Hwf as [|x items Hx _ IH]; constructor; inversion H; subst; eauto.
  - by apply bytes_eqb.
  - apply ov_refl.
Qed.

(** The address shortcut agrees with comparing the items. *)
Lemma set_eqb addr items h addr' items' h' :
  wf_key (KFrozenSet addr items h) → wf_key (KFrozenSet addr' items' h') →
  pykey_eqb (KFrozenSet addr items h) (KFrozenSet addr' items' h') = true ↔ set_match items items'.
Proof using HBL HVL.
  cbn [wf_key]. intros (Ha & _ & _ & Hwf) (Ha' & _). apply wf_items in Hwf. cbn [pykey_eqb].
  rewrite orb_true_iff, items_match. split; [|by right]. intros [Heq%Z.eqb_eq|]; [|done].
  assert (items' = items) as -> by congruence.
  split; [done|]. intros x Hx. exists x. split; [done|]. rewrite Forall_forall in Hwf.
  by apply key_refl, Hwf.
Qed.

(** A key equal to a numeric key is numeric, of the same class. *)
Lemma num_class_eq a b : wf_key a → wf_key b → pykey_eqb a b = true → num_class a = num_class b.
Proof using HBL.
  intros Ha Hb Heq. destruct (num_class a) as [c|] eqn:Hc.
  - rewrite <- Hc. apply num_eqb; [done..|by eexists|done].
  - destruct (num_class b) as [d|] eqn:Hd; [|done].
    by rewrite num_eqb_none in Heq by (done || by eexists).
Qed.

Lemma Forall_wf (items : list key) x : Forall wf_key items → x ∈ items → wf_key x.
Proof. rewrite Forall_forall. eauto. Qed.

Lemma key_trans a b c :
  wf_key a → wf_key b → wf_key c → pykey_eqb a b = true → pykey_eqb b c = true →
  pykey_eqb a c = true.
Proof using HBL HVL.
  revert b c. induction a using pykey_induction; intros b' c' Ha Hb Hc Hab Hbc;
    pose proof (num_class_eq _ _ Ha Hb Hab) as Hn1; pose proof (num_class_eq _ _ Hb Hc Hbc) as Hn2;
    try (apply num_eqb; [done|done|by eexists|congruence]);
    destruct b'; try discriminate Hn1; try discriminate Hab;
    destruct c'; try discriminate Hn2; try discriminate Hbc; try done.
  - apply bytes_eqb in Hab, Hbc. apply bytes_eqb. congruence.
  - rewrite set_eqb in Hab, Hbc |- * by done. destruct Hab as [Hl1 Hm1], Hbc as [Hl2 Hm2].
    split; [lia|]. intros x Hx. destruct (Hm1 x Hx) as (y & Hy & Hxy).
    destruct (Hm2 y Hy) as (z & Hz & Hyz). exists z. split; [done|].
    destruct Ha as (_ & _ & _ & Ha), Hb as (_ & _ & _ & Hb), Hc as (_ & _ & _ & Hc).
    apply wf_items in Ha, Hb, Hc. rewrite Forall_forall in H.
    eapply (H x Hx y z); eauto using Forall_wf.
  - rewrite tuple_eqb in Hab, Hbc |- *. cbn [wf_key] in Ha, Hb, Hc. rewrite wf_items in Ha, Hb, Hc.
    clear Hn1 Hn2.
    rename items0 into items', items1 into items''. revert items' items'' Hb Hc Hab Hbc.
    induction H as [|x items Hx _ IH]; intros [|y items'] [|z items''] Hb Hc Hab Hbc;
      inversion Hab; subst; inversion Hbc; subst; constructor; inversion Ha; subst; inversion Hb; subst;
      inversion Hc; subst; [by eapply (Hx y z)|by apply (IH H5 items')].
  - apply bytes_eqb in Hab, Hbc. apply bytes_eqb. congruence.
  - cbn [pykey_eqb] in *. by eapply ov_trans.
Qed.

(** In sets of distinct keys, equal items are matched one to one: the matching
    is a reordering of the second set. *)
Lemma set_match_perm (la lb : list key) :
  Forall wf_key la → Forall wf_key lb → keys_distinct la →
  (∀ x y, x ∈ la → y ∈ lb → pykey_eqb x y = true → pykey_eqb y x = true) →
  set_match la lb →
  ∃ lb', lb' ≡ₚ lb ∧ Forall2 (λ x y, pykey_eqb x y = true) la lb'.
Proof using HBL HVL.
  intros Ha Hb Hd Hsym [Hlen Hm]. apply match_permutation; [done..|].
  intros i j x x' y Hi Hj Hy Hxy Hx'y. apply (Hd i j x x' Hi Hj).
  apply list_elem_of_lookup_2 in Hi, Hj.
  eapply key_trans; [..|exact Hxy|by apply Hsym]; eauto using Forall_wf.
Qed.

Lemma key_sym a b :
  wf_key a → wf_key b → pykey_eqb a b = true → pykey_eqb b a = true.
Proof using HBL HVL.
  revert b. induction a using pykey_induction; intros b' Ha Hb Hab;
    pose proof (num_class_eq _ _ Ha Hb Hab) as Hn1;
    try (apply num_eqb; [done|done|rewrite <- Hn1; by eexists|congruence]);
    destruct b'; try discriminate Hn1; try discriminate Hab; try done.
  - apply bytes_eqb in Hab. by apply bytes_eqb.
  - rewrite set_eqb in Hab |- * by done.
    destruct Ha as (_ & _ & Hd & Ha), Hb as (_ & _ & _ & Hb).
    apply wf_items in Ha, Hb. rewrite Forall_forall in H.
    assert (Hs : ∀ x y, x ∈ items → y ∈ items0 → pykey_eqb x y = true → pykey_eqb y x = true)
      by (intros x y Hx Hy; apply (H x Hx); eauto using Forall_wf).
    destruct (set_match_perm items items0) as (lb & Hp & Hf); [done..|].
    split; [by destruct Hab|]. intros y Hy. pose proof Hy as Hyl. rewrite <- Hp in Hyl.
    apply list_elem_of_lookup in Hyl as [p Hyp].
    destruct (Forall2_lookup_r _ _ _ _ _ Hf Hyp) as (x & Hx%list_elem_of_lookup_2 & Hxy).
    exists x. split; [done|]. by apply Hs.
  - rewrite tuple_eqb in Hab |- *. cbn [wf_key] in Ha, Hb. rewrite wf_items in Ha, Hb.
    clear Hn1.
    rename items0 into items'. revert items' Hb Hab.
    induction H as [|x items Hx _ IH]; intros [|y items'] Hb Hab;
      inversion Hab; subst; constructor; inversion Ha; subst; inversion Hb; subst; eauto.
  - apply bytes_eqb in Hab. by apply bytes_eqb.
  - cbn [pykey_eqb] in *. by apply ov_sym.
Qed.

(** *** The Python hash *)

Lemma bigint_hash_spec n : pykey_hash_bigint n = Ok (hash_int (bi_Z n)).
Proof using HBL.
  unfold pykey_hash_bigint. rewrite bi_to_i64_Z, bi_rem_Z, bi_from_i64_Z
    by (by rewrite bi_from_i64_Z).
  pose proof (Z.rem_bound_abs (bi_Z n) PY_HASH_MODULUS) as Hr.
  assert (Hm : Z.abs PY_HASH_MODULUS < 2 ^ 63) by done.
  assert (Hb : (- 2 ^ 63 <=? Z.rem (bi_Z n) PY_HASH_MODULUS)
    && (Z.rem (bi_Z n) PY_HASH_MODULUS <? 2 ^ 63) = true).
  { specialize (Hr ltac:(done)). apply andb_true_iff. rewrite Z.leb_le, Z.ltb_lt. lia. }
  rewrite Hb. done.
Qed.

Definition nclass_hash (c : nclass) : Z :=
  match c with
  | NReal c => class_hash c
  | NComplex re im =>
      match im with
      | CNum 0 => class_hash re
      | _ => remap (as_i64 (wrapping_add (as_u64 (class_hash re))
               (wrapping_mul 1000003 (as_u64 (class_hash im)))))
      end
  end.

(** Numeric keys of one class have one hash: [hash(1) == hash(1.0) ==
    hash(True) == hash(1+0j)]. *)
Lemma py_hash_num k c : num_class k = Some c → hash_of k = Ok (nclass_hash c).
Proof using HBL.
  destruct k; cbn [num_class]; intros Hc; try discriminate Hc; apply (inj Some) in Hc as <-; cbn [py_hash_pykey].
  - by rewrite hash_int_val.
  - by rewrite bigint_hash_spec, hash_int_val.
  - by rewrite py_hash_float_class.
  - unfold nclass_hash, class_hash. rewrite <- hash_int_val. by destruct b.
  - destruct (fval_eqb (f64_val im) f_zero) eqn:Hz.
    + rewrite py_hash_float_class. apply zero_class in Hz. unfold complex_class. rewrite Hz.
      by destruct (is_nan_class _).
    + unfold py_hash_complex. rewrite !hash_float_as_u64_class. unfold complex_class.
      destruct (fclass_of im) as [[]| |] eqn:Hi; try done.
      assert (fval_eqb (f64_val im) f_zero = true) by (by apply zero_class). congruence.
Qed.

Definition tuple_step (acc : Z) (item : key) : res Z :=
  h ← hash_of item; Ok (xxstep acc (as_u64 h)).

Lemma py_hash_tuple items :
  hash_of (KTuple items) =
  (acc ← rfold tuple_step PRIME5 items; Ok (tuple_hash_finish acc (vlen items))).
Proof.
  cbn [py_hash_pykey].
  enough (Heq : ∀ acc, (fix go (acc : Z) (items : list key) : res Z :=
               match items with
               | [] => Ok acc
               | item :: items =>
                   h ← hash_of item;
                   go (xxstep acc (as_u64 h)) items
               end) acc items = rfold tuple_step acc items) by (by rewrite Heq).
  induction items as [|x items IH]; intros acc; [done|]. cbn [rfold].
  assert (Hs : tuple_step acc x = (h ← hash_of x; Ok (xxstep acc (as_u64 h)))) by done. rewrite Hs.
  destruct (hash_of x); cbn [mbind res_bind]; [|done..]. apply IH.
Qed.

(** The hash of a set from the hashes of its items. *)
Definition shuffled (hs : list Z) : Z :=
  foldr (λ h acc, Z.lxor acc (frozenset_shuffle_bits (as_u64 h))) 0 hs.

Lemma frozenset_items_hash (items : list key) hs :
  Forall2 (λ x h, hash_of x = Ok h) items hs →
  py_hash_frozenset_items none_addr ellipsis_addr items =
  Ok (frozenset_hash_finish (shuffled hs) (vlen items)).
Proof.
  intros Hf. unfold py_hash_frozenset_items.
  enough (Heq : ∀ acc, rfold (λ h item, ih ← hash_of item; Ok (Z.lxor h (frozenset_shuffle_bits (as_u64 ih))))
      acc items = Ok (Z.lxor acc (shuffled hs))) by (by rewrite Heq).
  induction Hf as [|x h items hs Hx Hf IH]; intros acc; cbn [rfold shuffled foldr].
  - by rewrite Z.lxor_0_r.
  - rewrite Hx. cbn [mbind res_bind]. rewrite IH. f_equal. fold (shuffled hs).
    rewrite Z.lxor_assoc. f_equal. apply Z.lxor_comm.
Qed.

Lemma shuffled_perm hs hs' : hs ≡ₚ hs' → shuffled hs = shuffled hs'.
Proof.
  induction 1 as [|h hs hs' _ IH|h h' hs|]; cbn; [done|by fold (shuffled hs) (shuffled hs'); rewrite IH| |congruence].
  rewrite !Z.lxor_assoc. f_equal. apply Z.lxor_comm.
Qed.

(** *** The Python hash is total and respects equality *)

Lemma remap_range h : i64_range h → i64_range (remap h).
Proof. unfold remap. destruct (Z.eqb_spec h (-1)); [done|done]. Qed.

Lemma class_hash_range c : i64_range (class_hash c).
Proof.
  destruct c as [n|s|bits]; cbn [class_hash].
  - apply remap_range. pose proof (Z.mod_pos_bound (Z.abs n * 2 ^ 24) PY_HASH_MODULUS ltac:(done)) as Hm.
    assert (PY_HASH_MODULUS < 2 ^ 63) by done. unfold i64_range.
    destruct (Z.sgn_spec n) as [[_ ->] | [[_ ->] | [_ ->]]]; lia.
  - by destruct s.
  - apply remap_range, as_i64_range.
Qed.

Lemma sentinel_range addr : i64_range (py_hash_sentinel addr).
Proof.
  unfold py_hash_sentinel. destruct (_ || _); [done|].
  pose proof (Z.rem_bound_abs (as_i64 (Z.shiftr addr 4)) PY_HASH_MODULUS ltac:(done)) as Hr.
  assert (Z.abs PY_HASH_MODULUS < 2 ^ 63) by done. unfold i64_range. lia.
Qed.

Lemma frozenset_finish_range h n : i64_range (frozenset_hash_finish h n).
Proof. unfold frozenset_hash_finish. cbv zeta. destruct (_ =? _); [done|apply as_i64_range]. Qed.

Lemma tuple_finish_range acc n : i64_range (tuple_hash_finish acc n).
Proof. apply as_i64_range. Qed.

Lemma nclass_hash_range c : i64_range (nclass_hash c).
Proof.
  destruct c as [c|re im]; cbn [nclass_hash]; [apply class_hash_range|].
  destruct im as [[]| |]; try apply class_hash_range; apply remap_range, as_i64_range.
Qed.

Lemma key_hash_total k : wf_key k → ∃ h, hash_of k = Ok h ∧ i64_range h.
Proof using HBL.
  induction k using pykey_induction; intros Hwf;
    try (eexists; split; [by apply py_hash_num|apply nclass_hash_range]);
    try (eexists; split; [reflexivity|apply as_i64_range || apply sentinel_range]).
  - destruct Hwf as (_ & Hh & _ & Hwf). apply wf_items in Hwf.
    exists h. split; [done|]. assert (Hhs : ∃ hs, Forall2 (λ x h, hash_of x = Ok h) items hs).
    { clear -H Hwf. induction H as [|x items Hx _ IH]; [by exists []|].
      inversion Hwf; subst. destruct Hx as (hx & Hx & _); [done|]. destruct IH as [hs IH]; [done|].
      exists (hx :: hs). by constructor. }
    destruct Hhs as [hs Hhs]. rewrite (frozenset_items_hash _ _ Hhs) in Hh. injection Hh as <-.
    apply frozenset_finish_range.
  - rewrite py_hash_tuple. cbn [wf_key] in Hwf. apply wf_items in Hwf.
    assert (Hacc : ∀ acc, ∃ acc', rfold tuple_step acc items = Ok acc').
    { induction H as [|x items Hx _ IH]; intros acc; [by eexists|]. cbn [rfold].
      inversion Hwf; subst. destruct Hx as (hx & Hx & _); [done|].
      assert (Hs : tuple_step acc x = Ok (xxstep acc (as_u64 hx))) by (unfold tuple_step; by rewrite Hx).
      rewrite Hs. cbn [mbind res_bind]. by apply IH. }
    destruct (Hacc PRIME5) as [acc ->]. eexists. split; [reflexivity|]. apply tuple_finish_range.
  - eexists. split; [reflexivity|]. apply remap_range, as_i64_range.
Qed.

Lemma key_eq_hash a b :
  wf_key a → wf_key b → pykey_eqb a b = true → hash_of a = hash_of b.
Proof using HBL HVL.
  revert b. induction a using pykey_induction; intros b' Ha Hb Hab;
    pose proof (num_class_eq _ _ Ha Hb Hab) as Hn1;
    try (erewrite !py_hash_num; [reflexivity|by rewrite <- Hn1|reflexivity]);
    destruct b'; try discriminate Hn1; try discriminate Hab; try done.
  - apply bytes_eqb in Hab. congruence.
  - pose proof Hab as Hm. rewrite set_eqb in Hm by done.
    destruct Ha as (_ & Hh & Hd & Ha), Hb as (_ & Hh' & _ & Hb). cbn [py_hash_pykey].
    apply wf_items in Ha, Hb. rewrite Forall_forall in H.
    destruct (set_match_perm items items0) as (lb & Hp & Hf); [done..| |done|].
    { intros x y Hx Hy. apply key_sym; eauto using Forall_wf. }
    assert (Hhs : ∃ hs, Forall2 (λ x h, hash_of x = Ok h) items hs ∧ Forall2 (λ x h, hash_of x = Ok h) lb hs).
    { assert (Hlb : Forall wf_key lb) by (by rewrite Hp).
      clear -H Ha Hlb Hf HBL. induction Hf as [|x y l lb Hxy Hf IH]; [by exists []|].
      inversion Ha; subst. inversion Hlb; subst.
      destruct IH as (hs & IH1 & IH2); [intros z Hz; apply H; by right|done|done|].
      destruct (key_hash_total x) as (hx & Hx & _); [done|].
      exists (hx :: hs). split; constructor; [done|done| |done].
      rewrite <- Hx. symmetry. apply H; [by left|done..]. }
    destruct Hhs as (hs & Hhs1 & Hhs2).
    destruct (Permutation_Forall2 Hp Hhs2) as (hs' & Hps & Hhs3).
    rewrite (frozenset_items_hash _ _ Hhs1) in Hh. rewrite (frozenset_items_hash _ _ Hhs3) in Hh'.
    destruct Hm as [Hl _]. unfold vlen in Hh, Hh'. rewrite Hl, (shuffled_perm _ _ Hps) in Hh.
    congruence.
  - rewrite tuple_eqb in Hab. rewrite !py_hash_tuple. cbn [wf_key] in Ha, Hb. rewrite wf_items in Ha, Hb.
    clear Hn1. unfold vlen. rewrite (Forall2_length _ _ _ Hab).
    enough (Heq : ∀ acc, rfold tuple_step acc items = rfold tuple_step acc items0) by (by rewrite Heq).
    rename items0 into items'. revert items' Hb Hab.
    induction H as [|x items Hx _ IH]; intros [|y items'] Hb Hab acc; inversion Hab; subst; [done|].
    inversion Ha; subst. inversion Hb; subst. cbn [rfold].
    assert (Hs : tuple_step acc x = tuple_step acc y).
    { unfold tuple_step. by rewrite (Hx y). }
    rewrite Hs. destruct (tuple_step acc y); cbn [mbind res_bind]; [|done..]. by apply IH.
  - apply bytes_eqb in Hab. congruence.
  - cbn [pykey_eqb py_hash_pykey] in *. cbn [wf_key] in Ha, Hb. subst. by rewrite (ov_same_hash _ _ Hab).
Qed.

(** The hash of a set does not depend on the order of its items. *)
Lemma frozenset_order (items items' : list key) :
  Forall wf_key items → items ≡ₚ items' →
  py_hash_frozenset_items none_addr ellipsis_addr items =
  py_hash_frozenset_items none_addr ellipsis_addr items'.
Proof using HBL.
  intros Hwf Hp. assert (Hhs : ∃ hs, Forall2 (λ x h, hash_of x = Ok h) items hs).
  { clear Hp. induction Hwf as [|x items Hx _ [hs IH]]; [by exists []|].
    destruct (key_hash_total x Hx) as (h & Hh & _). exists (h :: hs). by constructor. }
  destruct Hhs as [hs Hhs]. destruct (Permutation_Forall2 Hp Hhs) as (hs' & Hps & Hhs').
  rewrite (frozenset_items_hash _ _ Hhs), (frozenset_items_hash _ _ Hhs'), (shuffled_perm _ _ Hps).
  do 2 f_equal. unfold vlen. by rewrite Hp.
Qed.

(** *** The [Hash] stream *)

Definition int_stream (z : Z) : list hwrite :=
  if (- 2 ^ 63 <=? z) && (z <? 2 ^ 63) then [WriteU8 0; WriteI64 z]
  else [WriteU8 1; WriteI64 (hash_int z)].

(** What a real number feeds to the hasher: its integer value when it has one,
    else the bits of the only double of that value. *)
Definition real_stream (c : fclass) (ws : list hwrite) : Prop :=
  (∃ z, c = CNum (z * f64_scale) ∧ ws = int_stream z) ∨
  (∃ bits, u64_range bits ∧ fclass_of bits = c ∧ (∀ z, c ≠ CNum (z * f64_scale)) ∧
     ws = [WriteU8 1; WriteU64 bits]).

Lemma real_stream_fun c ws ws' : real_stream c ws → real_stream c ws' → ws = ws'.
Proof.
  intros [(z & Hz & ->) | (bits & Hr & Hc & Hn & ->)] [(z' & Hz' & ->) | (bits' & Hr' & Hc' & Hn' & ->)].
  - rewrite Hz in Hz'. by apply num_scale in Hz' as ->.
  - by destruct (Hn' z).
  - by destruct (Hn z').
  - enough (bits = bits') by congruence. subst c.
    assert (Hz : f64_val bits ≠ FFin 0).
    { intros Hz. apply (Hn 0). by apply class_of_num. }
    unfold fclass_of in Hc'. destruct (f64_val bits) eqn:Hb, (f64_val bits') eqn:Hb'; try congruence;
      apply f64_val_inj; congruence.
Qed.

Lemma in_i64 z : (- 2 ^ 63 <=? z) && (z <? 2 ^ 63) = true ↔ i64_range z.
Proof. rewrite andb_true_iff, Z.leb_le, Z.ltb_lt. done. Qed.

Lemma hash_float_stream bits :
  u64_range bits → ∃ ws, hash_float_bits (B := B) bits = Ok ws ∧ real_stream (fclass_of bits) ws.
Proof using HBL.
  intros Hr. unfold hash_float_bits. destruct (float_bits_as_exact_i64 bits) as [i|] eqn:He.
  - apply exact_i64_spec in He as [Hv Hi]. eexists. split; [done|]. left. exists i.
    split; [by apply class_of_num|]. unfold int_stream. by rewrite (proj2 (in_i64 i) Hi).
  - destruct (f_is_finite (f64_val bits) && f_fract_is_zero (f64_val bits)) eqn:Hf.
    + apply andb_true_iff in Hf as [Hfin Hf].
      destruct (f64_val bits) as [|s|n] eqn:Hv; [done..|].
      apply fract_zero_int in Hf as [z ->]. pose proof (bi_from_f64_Z (FFin (z * f64_scale))) as Hb.
      cbn in Hb. destruct (bi_from_f64 (FFin (z * f64_scale))) as [big|]; [|done].
      injection Hb as Hb. rewrite quot_scale in Hb. rewrite bigint_hash_spec. eexists. split; [done|].
      left. exists z. split; [by apply class_of_num|]. unfold int_stream.
      destruct (_ && _) eqn:Hi; [|by rewrite Hb].
      apply in_i64 in Hi. assert (float_bits_as_exact_i64 bits = Some z); [|congruence].
      by apply exact_i64_spec.
    + eexists. split; [done|]. right. exists bits. split; [done|]. split; [done|]. split; [|done].
      intros z Hz. apply class_of_num in Hz. rewrite Hz in Hf.
      assert (Ht : f_fract_is_zero (FFin (z * f64_scale)) = true) by (apply fract_zero_int; by eexists).
      by rewrite Ht in Hf.
Qed.

Lemma real_key_stream k c :
  wf_key k → num_class k = Some (NReal c) →
  ∃ ws, stream_of k = Ok ws ∧ real_stream c ws.
Proof using HBL.
  intros Hwf Hc. assert (Hint : ∀ z, i64_range z → real_stream (CNum (z * f64_scale)) [WriteU8 0; WriteI64 z]).
  { intros z Hz. left. exists z. split; [done|]. unfold int_stream. by rewrite (proj2 (in_i64 z) Hz). }
  destruct k; cbn [num_class] in Hc; try discriminate Hc; apply (inj Some) in Hc;
    cbn [pykey_hash wf_key] in *.
  - assert (c = CNum (i * f64_scale)) as -> by congruence. eauto.
  - assert (c = CNum (bi_Z n * f64_scale)) as -> by congruence. rewrite bi_to_i64_Z.
    destruct (_ && _) eqn:Hi; [by apply in_i64 in Hi|]. rewrite bigint_hash_spec.
    eexists. split; [done|]. left. exists (bi_Z n). split; [done|]. unfold int_stream. by rewrite Hi.
  - assert (c = fclass_of bits) as -> by congruence. by apply hash_float_stream.
  - assert (c = CNum (bool_int b * f64_scale)) as -> by congruence. eauto using bool_int_range.
  - apply complex_real in Hc as (Hz & <- & _). unfold hash_complex_key. rewrite Hz.
    apply hash_float_stream, Hwf.
Qed.

Lemma complex_key_stream re im re' im' :
  wf_key (KComplex re im) → wf_key (KComplex re' im') →
  fclass_of re = fclass_of re' → fclass_of im = fclass_of im' →
  hash_complex_key (B := B) re im = hash_complex_key re' im'.
Proof using HBL.
  intros [Hre _] [Hre' _] Her Hei. unfold hash_complex_key.
  assert (Hz : fval_eqb (f64_val im) f_zero = fval_eqb (f64_val im') f_zero).
  { apply eq_true_iff_eq. rewrite !zero_class. by rewrite Hei. }
  rewrite Hz. destruct (fval_eqb (f64_val im') f_zero).
  - destruct (hash_float_stream re Hre) as (ws & -> & Hs).
    destruct (hash_float_stream re' Hre') as (ws' & -> & Hs').
    rewrite Her in Hs. f_equal. by eapply real_stream_fun.
  - unfold py_hash_complex. by rewrite !hash_float_as_u64_class, Her, Hei.
Qed.

Lemma pykey_hash_tuple items :
  stream_of (KTuple items) =
  (ws ← rfold (λ ws k, w ← stream_of k; Ok (ws ++ w)) [] items;
   Ok (WriteU8 5 :: WriteUsize (vlen items) :: ws)).
Proof.
  cbn [pykey_hash].
  enough (Heq : ∀ acc, rfold (λ ws k, w ← stream_of k; Ok (ws ++ w)) acc items =
      (ws ← (fix go (items : list key) : res (list hwrite) :=
              match items with
              | [] => Ok []
              | k :: items => w ← stream_of k; ws ← go items; Ok (w ++ ws)
              end) items; Ok (acc ++ ws))).
  { rewrite Heq. by destruct ((fix go (items : list key) : res (list hwrite) := _) items). }
  induction items as [|x items IH]; intros acc; cbn [rfold mbind res_bind]; [by rewrite app_nil_r|].
  destruct (stream_of x) as [w| |]; cbn [mbind res_bind]; [|done..].
  rewrite IH. destruct ((fix go (items : list key) : res (list hwrite) := _) items);
    cbn [mbind res_bind]; [by rewrite app_assoc|done..].
Qed.

(** The [Hash] + [Eq] contract: equal keys feed the same data to the hasher. *)
Lemma key_eq_stream a b :
  wf_key a → wf_key b → pykey_eqb a b = true →
  stream_of a = stream_of b.
Proof using HBL HVL.
  revert b. induction a using pykey_induction; intros b' Ha Hb Hab;
    pose proof (num_class_eq _ _ Ha Hb Hab) as Hn;
    try (destruct (num_class b') as [[c|cre cim]|] eqn:Hc; cbn [num_class] in Hn; [|discriminate Hn..];
      destruct (real_key_stream _ c Ha Hn) as (ws & -> & Hs), (real_key_stream b' c Hb Hc) as (ws' & -> & Hs');
      f_equal; by eapply real_stream_fun);
    try (destruct b'; try discriminate Hn; try discriminate Hab; try done;
      apply bytes_eqb in Hab; congruence).
  - pose proof (key_eq_hash _ _ Ha Hb Hab) as Hh.
    destruct b'; try discriminate Hn; try discriminate Hab. cbn [py_hash_pykey pykey_hash] in *. congruence.
  - destruct b' as [| | | | | | | |items'| | |]; try discriminate Hn; try discriminate Hab.
    rewrite tuple_eqb in Hab. rewrite !pykey_hash_tuple. cbn [wf_key] in Ha, Hb. rewrite wf_items in Ha, Hb.
    unfold vlen. rewrite (Forall2_length _ _ _ Hab). clear Hn.
    enough (Heq : ∀ acc, rfold (λ ws k, w ← stream_of k; Ok (ws ++ w)) acc items =
      rfold (λ ws k, w ← stream_of k; Ok (ws ++ w)) acc items') by (by rewrite Heq).
    revert items' Hb Hab.
    induction H as [|x items Hx _ IH]; intros [|y items'] Hb Hab acc; inversion Hab; subst; [done|].
    inversion Ha; subst. inversion Hb; subst. cbn [rfold]. rewrite (Hx y) by done.
    destruct (stream_of y); cbn [mbind res_bind]; [|done..]. by apply IH.
  - destruct (num_class b') as [[c|cre cim]|] eqn:Hc; cbn [num_class] in Hn; [| |discriminate Hn].
    + destruct (real_key_stream _ c Ha Hn) as (ws & -> & Hs), (real_key_stream b' c Hb Hc) as (ws' & -> & Hs').
      f_equal; by eapply real_stream_fun.
    + destruct b'; try discriminate Hc. cbn [num_class] in Hc.
      apply complex_key_stream; [done..| |]; apply (inj Some) in Hn, Hc;
        rewrite <- Hc in Hn; apply complex_class_inj, andb_true_iff in Hn as [H1%f64_same_class H2%f64_same_class];
        done.
  - destruct b'; try discriminate Hn; try discriminate Hab. cbn [pykey_eqb pykey_hash wf_key] in *.
    subst. by rewrite (ov_same_hash _ _ Hab).
Qed.

(** A borrowed string finds exactly the keys that an owned [Str] key would. *)
Lemma strkey_contract s k :
  strkey_hash s = [WriteU8 2] ++ hash_str s ∧ stream_of (KStr s) = Ok (strkey_hash s) ∧
  strkey_equivalent s k = pykey_eqb (KStr s) k.
Proof.
  split_and!; [done|done|]. destruct k; try done.
  - cbn [strkey_equivalent pykey_eqb]. apply eq_true_iff_eq. rewrite !bytes_eqb. done.
  - cbn [strkey_equivalent pykey_eqb]. unfold real_valued_complex_eq. by destruct (negb _).
Qed.

(** *** Keys for the probe tables *)

Record good_key := { gk_key : key; gk_wf : wf_key gk_key }.

Definition is_str_key (k : key) : bool := match k with KStr _ => true | _ => false end.
Definition is_object_key (k : key) : bool := match k with KObject _ _ => true | _ => false end.

#[export] Instance good_probe_key : ProbeKey good_key := {
  pk_hash k := from_option as_u64 0 (res_to_option (hash_of (gk_key k)));
  pk_eqb a b := pykey_eqb (gk_key a) (gk_key b);
  pk_is_str k := is_str_key (gk_key k);
  pk_is_object k := is_object_key (gk_key k);
  pk_contains_object k := pykey_contains_object (gk_key k);
}.

#[export] Instance good_probe_key_laws : ProbeKeyLaws good_key.
Proof using HBL HVL.
  split.
  - intros [k Hk]. cbn. destruct (key_hash_total k Hk) as (h & -> & _). apply as_u64_range.
  - intros [k Hk]. by apply key_refl.
  - intros [a Ha] [b Hb]. by apply key_sym.
  - intros [a Ha] [b Hb] [c Hc]. by apply key_trans.
  - intros [a Ha] [b Hb] Heq. cbn. by rewrite (key_eq_hash a b).
Qed.
End spec.
