(* ===== verification/Concrete.v ===== *)
(** Concrete instances of the interfaces, on which the theorems that assume
    them are evaluated: a small key type with two equal keys of different
    kinds, integers as [BigInt], numbered objects. *)

From S2P Require Import Prelude Probe Double Keys.

(** ** A key type for the probe tables

    Keys are integers or strings numbered by an integer; an integer key is
    equal to the object key of the same number, as a Python [int] and an
    instance of a subclass are. *)
Inductive ckey : Type :=
  | CInt (n : Z)
  | CStr (n : Z)
  | CObj (n : Z).

Definition ckey_class (k : ckey) : bool * Z :=
  match k with CInt n => (false, n) | CStr n => (true, n) | CObj n => (false, n) end.

Definition ckey_eqb (a b : ckey) : bool := bool_decide (ckey_class a = ckey_class b).

#[export] Instance ckey_probe : ProbeKey ckey := {
  pk_hash k := as_u64 (ckey_class k).2;
  pk_eqb := ckey_eqb;
  pk_is_str k := (ckey_class k).1;
  pk_is_object k := match k with CObj _ => true | _ => false end;
  pk_contains_object k := match k with CObj _ => true | _ => false end;
}.

#[export] Instance ckey_laws : ProbeKeyLaws ckey.
Proof.
  split; cbn; unfold ckey_eqb; intros *; rewrite ?bool_decide_eq_true; try congruence.
  apply as_u64_range.
Qed.

(** ** Integers are a [BigInt] *)

#[export] Instance Z_bigint : BigInt Z := {
  bi_Z z := z;
  bi_from_i64 z := z;
  bi_eqb := Z.eqb;
  bi_rem := Z.rem;
  bi_to_i64 z := if (- 2 ^ 63 <=? z) && (z <? 2 ^ 63) then Some z else None;
  bi_from_f64 f := match f with FFin n => Some (Z.quot n f64_scale) | _ => None end;
}.

#[export] Instance Z_bigint_laws : BigIntLaws Z.
Proof. split; try done. intros f. by destruct f. Qed.

(** ** Objects named by a number, with that number as hash *)

#[export] Instance N_object : ObjectValue N := {
  ov_is_generator v := N.even v;
  ov_identical := N.eqb;
  ov_eqb := N.eqb;
  ov_hash v := as_u64 (Z.of_N v);
}.

#[export] Instance N_object_laws : ObjectValueLaws N.
Proof.
  assert (Hs : ∀ a b : N, ov_same a b = true ↔ a = b).
  { intros a b. unfold ov_same. cbn. rewrite orb_true_iff, andb_true_iff, !N.eqb_eq. tauto. }
  split; intros *; rewrite ?Hs; try congruence.
  apply as_u64_range.
Qed.
