(* ===== verification/DictProps.v ===== *)
(** Whole executions of a dict: the operations as data, an interpreter of
    sequences of them, the entries a Python dict must have, the eager table
    CPython would have, and the simulation of the one by the other. *)

From S2P Require Import Prelude Probe DictIndex DictTable DictIndexSpec.
From S2P Require Import DictReplaySpec DictJournal DictJournalSpec PyDict PyDictSpec.

Section trace.
Context {K V M : Type} `{HPK : ProbeKey K} `{HL : !ProbeKeyLaws K} `{HIM : IndexMap K V M}
  `{HML : !IndexMapLaws K V M}.
Implicit Types (d : PyDict K M) (t : table K).

(** ** Operations *)

(** [DRead] is any use of the probe order, which activates the shadow. *)
Inductive dict_op : Type :=
  | DInsert (k : K) (v : V)
  | DShiftRemove (k : K)
  | DPop
  | DClear
  | DRead.

Inductive dict_result : Type :=
  | RNone
  | RValue (v : V)
  | RItem (k : K) (v : V).

Definition pd_exec d (op : dict_op) : res (PyDict K M * dict_result) :=
  match op with
  | DInsert k v => '(d, old) ← pd_insert d k v;
                   Ok (d, match old with Some v => RValue v | None => RNone end)
  | DShiftRemove k => '(d, old) ← pd_shift_remove d k;
                      Ok (d, match old with Some v => RValue v | None => RNone end)
  | DPop => '(d, old) ← pd_pop d;
            Ok (d, match old with Some (k, v) => RItem k v | None => RNone end)
  | DClear => Ok (pd_clear d, RNone)
  | DRead => d ← pd_ensure_python_hash_index d; Ok (d, RNone)
  end.

Fixpoint pd_run d (ops : list dict_op) : res (PyDict K M * list dict_result) :=
  match ops with
  | [] => Ok (d, [])
  | op :: ops =>
      '(d, r) ← pd_exec d op;
      '(d, rs) ← pd_run d ops;
      Ok (d, r :: rs)
  end.

(** ** What they mean

    [ds_entries]: the items in insertion order.  [ds_table]: the table kept up
    to date by every operation.  [ds_removed]: whether something was removed
    since the dict was last new. *)
Record dict_state := {
  ds_entries : list (K * V);
  ds_table : table K;
  ds_removed : bool;
}.

Definition ds_start : dict_state :=
  {| ds_entries := []; ds_table := tb_empty 0 true; ds_removed := false |}.

(** The position of a key among the live entries of the table. *)
Definition tb_position t (k : K) : nat :=
  match list_find (λ k', pk_eqb k' k = true) (tb_live t) with Some (i, _) => i | None => 0 end.

Definition ds_step (s : dict_state) (op : dict_op) : dict_state * dict_result :=
  let es := ds_entries s in
  let t := ds_table s in
  match op with
  | DInsert k v =>
      match lm_index_of es k with
      | Some i =>
          match es !! i with
          | Some (k', v') =>
              ({| ds_entries := <[i := (k', v)]> es;
                  ds_table := if pk_is_str k then t else tb_to_general pk_hash t;
                  ds_removed := ds_removed s |}, RValue v')
          | None => (s, RNone)
          end
      | None => ({| ds_entries := es ++ [(k, v)]; ds_table := tb_insert pk_hash pk_is_str t k;
                    ds_removed := ds_removed s |}, RNone)
      end
  | DShiftRemove k =>
      match lm_index_of es k with
      | Some i =>
          match es !! i with
          | Some (k', v') =>
              ({| ds_entries := delete i es; ds_table := tb_remove t (tb_position t k');
                  ds_removed := true |}, RValue v')
          | None => (s, RNone)
          end
      | None => (s, RNone)
      end
  | DPop =>
      match last es with
      | Some (k, v) =>
          ({| ds_entries := removelast es; ds_table := tb_trim (tb_remove t (tb_position t k));
              ds_removed := true |}, RItem k v)
      | None => (s, RNone)
      end
  | DClear => (ds_start, RNone)
  | DRead => (s, RNone)
  end.

Fixpoint ds_run (s : dict_state) (ops : list dict_op) : dict_state * list dict_result :=
  match ops with
  | [] => (s, [])
  | op :: ops =>
      let '(s, r) := ds_step s op in
      let '(s, rs) := ds_run s ops in
      (s, r :: rs)
  end.

(** The executions on which the table is exact: none inserts a key that is not
    a string into a table of strings that removals have emptied. *)
Definition ds_safe (s : dict_state) (op : dict_op) : bool :=
  match op with
  | DInsert k _ =>
      pk_is_str k || negb (tb_unicode (ds_table s)) || negb (ds_removed s)
      || negb (length (ds_entries s) =? 0)%nat
  | _ => true
  end.

Fixpoint ds_all_safe (s : dict_state) (ops : list dict_op) : bool :=
  match ops with
  | [] => true
  | op :: ops => ds_safe s op && ds_all_safe (ds_step s op).1 ops
  end.

(** ** The simulation *)

(** The room the history has used. *)
Definition pd_cost d : Z := vlen (pd_keys (pd_entries d)) + 2 * journal_len d.

Record dict_sim d (s : dict_state) : Prop := {
  dsim_entries : im_entries (pd_entries d) = ds_entries s;
  dsim_rep : pd_rep d (ds_table s);
  dsim_fresh : ds_removed s = false → pd_python_hash_mutation_journal d = None;
}.

Lemma index_of_entries (m : M) k : im_get_index_of m k = lm_index_of (im_entries m) k.
Proof.
  apply option_eq. intros i. by rewrite im_get_index_of_Some, lm_index_of_Some.
Qed.

Lemma position_of t pos k :
  distinct (tb_live t) → tb_live t !! pos = Some k → tb_position t k = pos.
Proof.
  intros Hd Hpos. unfold tb_position.
  destruct (list_find _ _) as [[i k']|] eqn:Hf.
  - apply list_find_Some in Hf as (Hi & He & _). by eapply Hd.
  - apply list_find_None, Forall_lookup_1 with (i := pos) (x := k) in Hf; [|done].
    exfalso. apply Hf, pk_eqb_refl.
Qed.

Lemma rep_live_distinct d t : pd_rep d t → distinct (tb_live t).
Proof.
  intros Hr. apply distinct_perm with (pd_keys (pd_entries d)); [|apply (rep_distinct _ _ Hr)].
  pose proof (rep_history _ _ Hr) as Hh. unfold pd_history in Hh.
  destruct (pd_python_hash_index d), (pd_python_hash_mutation_journal d); [done|..].
  - apply Hh.
  - by apply journals_live in Hh as [_ ->].
  - destruct Hh as [-> _]. pose proof (rep_small _ _ Hr). pose proof (vlen_nonneg (pd_keys (pd_entries d))).
    destruct (base_wf (pd_keys (pd_entries d)) (pd_python_hash_initial_table_size d)
      (kind_is_unicode (pd_python_hash_initial_table_kind d))) as (_ & -> & _); [apply Hr| |done].
    unfold small_len in *. lia.
Qed.

(** *** The room an operation uses *)

(** The journal after a step that may drop it and adds at most [n] words. *)
Definition journal_within (n : Z) d d' : Prop :=
  journal_len d' ≤ journal_len d + n ∧
  (pd_python_hash_mutation_journal d = None → pd_python_hash_mutation_journal d' = None).

Lemma within_dropped n d d' :
  0 ≤ n →
  pd_python_hash_mutation_journal d' = pd_python_hash_mutation_journal d ∨
  pd_python_hash_mutation_journal d' = None → journal_within n d d'.
Proof.
  intros Hn. unfold journal_within. pose proof (journal_len_nonneg d). unfold journal_len in *.
  intros [-> | ->]; (split; [lia|done]).
Qed.

Lemma within_trans n m d1 d2 d3 :
  journal_within n d1 d2 → journal_within m d2 d3 → journal_within (n + m) d1 d3.
Proof. intros [? ?] [? ?]. split; [lia|tauto]. Qed.

Lemma repair_within d d' : pd_repair_poisoned_metadata d = Ok d' → journal_within 0 d d'.
Proof.
  unfold pd_repair_poisoned_metadata. destruct (pd_metadata_is_precise d).
  - intros [= <-]. apply within_dropped; [done|by left].
  - intros (i & _ & [= <-])%bind_Ok. apply within_dropped; [done|by right].
Qed.

Lemma ensure_within d d' : pd_ensure_python_hash_index d = Ok d' → journal_within 0 d d'.
Proof.
  intros (d1 & Hrep & Hd)%bind_Ok. apply repair_within in Hrep.
  destruct (pd_python_hash_index d1).
  - by injection Hd as <-.
  - apply bind_Ok in Hd as (i & _ & [= <-]).
    apply (within_trans 0 0 _ d1); [done|]. apply within_dropped; [done|by right].
Qed.

Lemma prepare_within d k d' : pd_prepare_python_insert d k = Ok d' → journal_within 0 d d'.
Proof.
  intros (d1 & Hrep & Hd)%bind_Ok. apply repair_within in Hrep.
  apply (within_trans 0 0 _ d1); [done|]. clear Hrep.
  destruct (pd_python_key_table_kind d1).
  - apply bind_Ok in Hd as (? & _ & [= <-]). apply within_dropped; [done|by left].
  - destruct (pk_is_str k); [injection Hd as <-; apply within_dropped; [done|by left]|].
    unfold pd_convert_to_general in Hd.
    destruct (_ =? 0); [injection Hd as <-; apply within_dropped; [done|by left]|].
    apply bind_Ok in Hd as (d2 & He & Hd). apply bind_Ok in Hd as (? & _ & Hd).
    apply bind_Ok in Hd as (? & _ & [= <-]). apply ensure_within in He as [Hl Hn].
    by split.
  - injection Hd as <-. apply within_dropped; [done|by left].
Qed.

Lemma record_inserted_len j n j' r :
  dmj_record_inserted j n = Ok (j', r) → vlen (dmj_mutations j') ≤ vlen (dmj_mutations j) + 1.
Proof.
  intros (b & _ & Hr)%bind_Ok. apply bind_Ok in Hr as ([j1 r1] & H1 & Hr).
  apply bind_Ok in Hr as (? & _ & Hr). apply bind_Ok in Hr as (u & _ & [= <- <-]). cbn.
  pose proof (vlen_nonneg (dmj_mutations j)).
  destruct (_ =? 0).
  - apply bind_Ok in H1 as (? & _ & H1). apply bind_Ok in H1 as (? & _ & [= <- <-]).
    rewrite bool_decide_eq_false_2 by done. change (vlen []) with 0. cbn. change (vlen []) with 0. lia.
  - injection H1 as <- <-. rewrite bool_decide_eq_true_2, vlen_app by done. done.
Qed.

Lemma recorded_within d i o c d' : pd_record_inserted_index d i o c = Ok d' → journal_within 1 d d'.
Proof.
  unfold pd_record_inserted_index. set (d1 := pd_bump_structural_version _). cbv zeta.
  assert (H1 : pd_python_hash_mutation_journal d1 = pd_python_hash_mutation_journal d) by done.
  destruct (pd_python_hash_index d1).
  - intros (? & _ & Hd)%bind_Ok. apply bind_Ok in Hd as (? & _ & [= <-]).
    apply within_dropped; [done|by left].
  - intros (d2 & H2 & Hd)%bind_Ok. apply (within_trans 1 0 _ d2).
    + rewrite H1 in H2. destruct (pd_python_hash_mutation_journal d) as [j|] eqn:Hj.
      * apply bind_Ok in H2 as ([j' r] & Hrec & H2). apply record_inserted_len in Hrec.
        unfold journal_within, journal_len. rewrite Hj.
        destruct r; injection H2 as <-; cbn; (split; [lia|done]).
      * injection H2 as <-. apply within_dropped; [done|left; by rewrite H1].
    + destruct (_ || _); [destruct (negb _)|]; try (injection Hd as <-; apply within_dropped; [done|by left]).
      by apply ensure_within.
Qed.

Lemma insert_within d k v d' r : pd_insert d k v = Ok (d', r) → journal_within 1 d d'.
Proof.
  intros (d1 & Hp & Hd)%bind_Ok. apply prepare_within in Hp. apply (within_trans 0 1 _ d1); [done|].
  destruct (im_insert_full (pd_entries d1) k v) as [m [i [old|]]].
  - injection Hd as <- <-. apply within_dropped; [done|by left].
  - apply bind_Ok in Hd as (d2 & Hrec & [= <- <-]). by apply recorded_within in Hrec.
Qed.

Lemma removal_prepared_len d d' : pd_prepare_removal_history d = Ok d' → journal_len d' = journal_len d.
Proof.
  unfold pd_prepare_removal_history.
  destruct (pd_python_hash_index d); [by intros [= <-]|].
  destruct (pd_python_hash_mutation_journal d) eqn:Hj; [by intros [= <-]|].
  intros (j & Ho & [= <-])%bind_Ok. unfold journal_len. rewrite Hj. cbn.
  by apply bind_Ok in Ho as (? & _ & [= <-]).
Qed.

Lemma record_removed_len d i k popped d' :
  pd_record_removed_key d i k popped = Ok d' → journal_len d' ≤ journal_len d + 1.
Proof.
  intros (d1 & H1 & Hd)%bind_Ok.
  assert (Hj : journal_len d' = journal_len d1).
  { apply bind_Ok in Hd as (? & _ & Hd). by apply bind_Ok in Hd as (? & _ & [= <-]). }
  rewrite Hj. destruct (pd_python_hash_index d).
  - apply bind_Ok in H1 as (? & _ & [= <-]). unfold journal_len. cbn. lia.
  - apply bind_Ok in H1 as (j & Hsome%expect_Ok & H1). apply bind_Ok in H1 as (j' & Hr & [= <-]).
    apply bind_Ok in Hr as (w & _ & [= <-]). unfold journal_len. rewrite Hsome. cbn.
    rewrite vlen_app. done.
Qed.

Lemma repaired_len d d' : pd_repair_poisoned_metadata d = Ok d' → journal_len d' ≤ journal_len d.
Proof. intros [Hl _]%repair_within. lia. Qed.

(** Inversion of the removals, down to the step that records them. *)
Lemma removal_len d op d' r :
  (op = DPop ∨ ∃ k, op = DShiftRemove k) → pd_exec d op = Ok (d', r) → journal_len d' ≤ journal_len d + 1.
Proof.
  intros Hop Hx.
  assert (Hstep : ∀ d1 d2 m i k b d3, pd_repair_poisoned_metadata d = Ok d1 →
    pd_prepare_removal_history d1 = Ok d2 →
    pd_record_removed_key (pd_set_entries m d2) i k b = Ok d3 → journal_len d3 ≤ journal_len d + 1).
  { intros d1 d2 m i k b d3 H1%repaired_len H2%removal_prepared_len H3%record_removed_len.
    change (journal_len (pd_set_entries m d2)) with (journal_len d2) in H3. lia. }
  destruct Hop as [-> | [k ->]]; apply bind_Ok in Hx as ([d'' o] & Hx & [= <- _]);
    apply bind_Ok in Hx as (d1 & H1 & Hx).
  - destruct (_ =? 0); [injection Hx as <- _; apply repaired_len in H1; lia|].
    apply bind_Ok in Hx as (d2 & H2 & Hx). destruct (im_pop _) as [m [p|]].
    + apply bind_Ok in Hx as (d3 & H3 & [= <- _]). by eapply Hstep.
    + injection Hx as <- _. change (journal_len d2 ≤ journal_len d + 1).
      apply removal_prepared_len in H2. apply repaired_len in H1. lia.
  - destruct (im_get_index_of _ k) as [i|]; [|injection Hx as <- _; apply repaired_len in H1; lia].
    apply bind_Ok in Hx as (d2 & H2 & Hx). destruct (im_shift_remove_index _ i) as [m [[k' v]|]].
    + apply bind_Ok in Hx as (d3 & H3 & [= <- _]). by eapply Hstep.
    + injection Hx as <- _. change (journal_len d2 ≤ journal_len d + 1).
      apply removal_prepared_len in H2. apply repaired_len in H1. lia.
Qed.

Lemma exec_len d op d' r : pd_exec d op = Ok (d', r) → journal_len d' ≤ journal_len d + 1.
Proof.
  intros Hx. pose proof (journal_len_nonneg d). destruct op.
  - apply bind_Ok in Hx as ([d'' o] & Hx & [= <- _]). by apply insert_within in Hx as [? _].
  - eapply removal_len; [|done]. right. by eexists.
  - eapply removal_len; [|done]. by left.
  - injection Hx as <- _. assert (Hz : journal_len (pd_clear d) = 0); [|lia].
    unfold pd_clear. by destruct (negb _).
  - apply bind_Ok in Hx as (d'' & Hx & [= <- _]). apply ensure_within in Hx as [? _]. lia.
Qed.

(** *** One step *)

Lemma sim_index d s k : dict_sim d s → im_get_index_of (pd_entries d) k = lm_index_of (ds_entries s) k.
Proof. intros Hs. by rewrite index_of_entries, (dsim_entries _ _ Hs). Qed.

Lemma safe_convert d s k v : dict_sim d s → ds_safe s (DInsert k v) = true → convert_safe d k.
Proof.
  intros [He Hr Hf] Hs Hnil Hi. cbn in Hs. apply orb_true_iff in Hs as [Hs|Hs].
  - apply orb_true_iff in Hs as [Hs|Hs]; [apply orb_true_iff in Hs as [Hs|Hs]; [by right; right|]|].
    + right. left. rewrite (rep_kind _ _ Hr). by destruct (tb_unicode _).
    + left. apply Hf. by destruct (ds_removed s).
  - unfold pd_keys in Hnil. rewrite He in Hnil. apply fmap_nil_inv in Hnil. by rewrite Hnil in Hs.
Qed.

Lemma insert_step d s k v :
  dict_sim d s → pd_room d 5 → ds_safe s (DInsert k v) = true →
  ∃ d', pd_exec d (DInsert k v) = Ok (d', (ds_step s (DInsert k v)).2) ∧
        dict_sim d' (ds_step s (DInsert k v)).1.
Proof.
  intros Hsim Hroom Hsafe. pose proof (safe_convert d s k v Hsim Hsafe) as Hconv.
  pose proof (sim_index d s k Hsim) as Hix. destruct Hsim as [He Hr Hf]. cbn [pd_exec ds_step].
  destruct (lm_index_of (ds_entries s) k) as [i|] eqn:Hl.
  - pose proof Hl as (k' & v' & Hi & _)%lm_index_of_Some. rewrite Hi. rewrite <- He in Hi.
    destruct (insert_old d _ k v i k' v' Hr Hconv Hix Hi) as (d' & Hins & Hr' & He').
    rewrite Hins. cbn [mbind res_bind fst snd]. exists d'. split; [done|]. split; cbn; [by rewrite He', He|done|].
    intros Hrem. apply insert_within in Hins as [_ Hn]. apply Hn, Hf, Hrem.
  - destruct (insert_new d _ k v Hr Hconv Hroom Hix) as (d' & Hins & Hr' & He').
    rewrite Hins. cbn [mbind res_bind fst snd]. exists d'. split; [done|]. split; cbn; [by rewrite He', He|done|].
    intros Hrem. apply insert_within in Hins as [_ Hn]. apply Hn, Hf, Hrem.
Qed.

Lemma exec_step d s op :
  dict_sim d s → pd_room d 5 → ds_safe s op = true →
  ∃ d', pd_exec d op = Ok (d', (ds_step s op).2) ∧ dict_sim d' (ds_step s op).1.
Proof.
  intros Hsim Hroom Hsafe. destruct op as [k v|k| | |]; [by apply insert_step|..];
    pose proof Hsim as [He Hr Hf]; cbn [pd_exec ds_step]; pose proof (rep_live_distinct _ _ Hr) as Hd.
  - pose proof (sim_index d s k Hsim) as Hix. destruct (lm_index_of (ds_entries s) k) as [i|] eqn:Hl.
    + pose proof Hl as (k' & v' & Hi & _)%lm_index_of_Some. rewrite Hi. rewrite <- He in Hi.
      destruct (shift_remove_refines d _ k i k' v' Hr Hroom Hix Hi) as (d' & pos & -> & Hpos & Hr' & He').
      cbn [mbind res_bind fst snd]. exists d'. split; [done|]. rewrite (position_of _ _ _ Hd Hpos).
      split; cbn; [by rewrite He', He|done|done].
    + rewrite (shift_remove_missing d _ k Hr Hix). by exists d.
  - destruct (last (ds_entries s)) as [[k v]|] eqn:Hl.
    + rewrite <- He in Hl. destruct (pop_refines d _ k v Hr Hroom Hl) as (d' & pos & -> & Hpos & Hr' & He').
      cbn [mbind res_bind fst snd]. exists d'. split; [done|]. rewrite (position_of _ _ _ Hd Hpos).
      split; cbn; [by rewrite He', He|done|done].
    + apply last_None in Hl. unfold pd_pop. rewrite (repair_ok d _ Hr). cbn [mbind res_bind].
      unfold pd_len. rewrite He, Hl. by exists d.
  - eexists. split; [done|]. split; [|apply clear_refines|].
    + unfold pd_clear. destruct (negb _); apply im_entries_empty.
    + unfold pd_clear. by destruct (negb _).
  - destruct (ensure_refines d _ Hr) as (d' & -> & Hr' & _ & Hj & He' & _). cbn [mbind res_bind].
    exists d'. split; [done|]. split; [by rewrite He'|done|done].
Qed.

Lemma step_entries s op : vlen (ds_entries (ds_step s op).1) ≤ vlen (ds_entries s) + 1.
Proof.
  pose proof (vlen_nonneg (ds_entries s)). destruct op as [k v|k| | |]; cbn [ds_step].
  - destruct (lm_index_of _ k) as [i|]; cbn; [|rewrite vlen_app; done].
    destruct (ds_entries s !! i) as [[k' v']|]; cbn; [|lia]. unfold vlen. rewrite length_insert. lia.
  - destruct (lm_index_of _ k) as [i|]; cbn; [|lia].
    destruct (ds_entries s !! i) as [[k' v']|] eqn:Hi; cbn; [|lia].
    unfold vlen in *. rewrite length_delete by (rewrite Hi; eauto). lia.
  - destruct (last _) as [[k v]|]; cbn; [|lia]. rewrite removelast_delete. unfold vlen.
    destruct (ds_entries s) as [|x l _] using rev_ind; [cbn; lia|].
    rewrite length_app, Nat.add_sub. cbn. rewrite delete_snoc. lia.
  - unfold vlen. cbn. lia.
  - cbn. lia.
Qed.

Lemma run_sim ops d s :
  dict_sim d s → small_len (pd_cost d + 3 * vlen ops + 5) → ds_all_safe s ops = true →
  ∃ d', pd_run d ops = Ok (d', (ds_run s ops).2) ∧ dict_sim d' (ds_run s ops).1.
Proof.
  revert d s. induction ops as [|op ops IH]; intros d s Hsim Hcost Hsafe; [by exists d|].
  cbn [ds_all_safe] in Hsafe. apply andb_true_iff in Hsafe as [Hop Hsafe].
  rewrite vlen_cons in Hcost. pose proof (vlen_nonneg ops) as Hops.
  assert (Hc0 : 0 ≤ pd_cost d).
  { unfold pd_cost. pose proof (journal_len_nonneg d). pose proof (vlen_nonneg (pd_keys (pd_entries d))). lia. }
  destruct (exec_step d s op Hsim) as (d1 & Hx & Hsim1).
  { unfold pd_room, pd_cost, small_len in *. lia. }
  { done. }
  assert (Hc : pd_cost d1 ≤ pd_cost d + 3).
  { pose proof (exec_len _ _ _ _ Hx). pose proof (step_entries s op). unfold pd_cost, pd_keys.
    rewrite !vlen_fmap, (dsim_entries _ _ Hsim), (dsim_entries _ _ Hsim1). lia. }
  assert (Hc1 : 0 ≤ pd_cost d1).
  { unfold pd_cost. pose proof (journal_len_nonneg d1). pose proof (vlen_nonneg (pd_keys (pd_entries d1))). lia. }
  cbn [pd_run ds_run]. rewrite Hx. cbn [mbind res_bind].
  destruct (ds_step s op) as [s1 r]. cbn [fst snd] in *.
  destruct (IH d1 s1 Hsim1) as (d2 & -> & Hsim2); [unfold small_len in *; lia|done|].
  cbn [mbind res_bind]. destruct (ds_run s1 ops) as [s2 rs]. by exists d2.
Qed.

Lemma default_sim : ∃ d, pd_default = Ok d ∧ dict_sim d ds_start ∧ pd_cost d = 0.
Proof.
  eexists. split; [reflexivity|]. split; [split; cbn; [apply im_entries_empty| |done]|].
  - apply fresh_rep, im_entries_empty.
  - unfold pd_cost, journal_len, pd_keys. cbn. by rewrite im_entries_empty.
Qed.

(** An execution from a new dict. *)
Lemma run_from_default ops :
  vlen ops < 2 ^ 58 → ds_all_safe ds_start ops = true →
  ∃ d0 d, pd_default = Ok d0 ∧ pd_run d0 ops = Ok (d, (ds_run ds_start ops).2) ∧
    dict_sim d (ds_run ds_start ops).1.
Proof.
  intros Hlen Hsafe. destruct default_sim as (d0 & Hd0 & Hsim & Hc).
  destruct (run_sim ops d0 ds_start Hsim) as (d & Hrun & Hsim'); [|done|by exists d0, d].
  rewrite Hc. pose proof (vlen_nonneg ops). unfold small_len. lia.
Qed.

End trace.

(** What the dict promises: the properties of [PyDict], of its deferred
    journal and of its probe table, each with a concrete instance. *)

From S2P Require Import ReplaySeq.
From S2P Require Import Concrete.

#[local] Abbreviation cdict := (PyDict ckey (list (ckey * nat))).

(** A short execution used by several witnesses: insertions, an equal key, a
    deletion, a pop and a conversion to a general table. *)
Definition demo_ops : list (dict_op (K := ckey) (V := nat)) :=
  [DInsert (CStr 1) 10%nat; DInsert (CStr 2) 20%nat; DShiftRemove (CStr 1);
   DInsert (CStr 3) 5%nat; DPop; DInsert (CInt 9) 7%nat; DInsert (CObj 9) 8%nat].

(** C1: Every execution of dict operations from a new dict returns without a
    panic, gives the answers of an insertion-ordered dict and leaves its
    entries; activating the probe index afterwards gives exactly the table
    that CPython would have kept up to date eagerly.  The executions excluded
    are those of [emptied_dict_rebases_early]. *)
Theorem dict_run_refines {K V M} `{ProbeKey K} `{!ProbeKeyLaws K} `{IndexMap K V M} `{!IndexMapLaws K V M}
    (ops : list (dict_op (K := K) (V := V))) :
  vlen ops < 2 ^ 58 → ds_all_safe ds_start ops = true →
  ∃ d0 (d d' : PyDict K M),
    pd_default = Ok d0 ∧ pd_run d0 ops = Ok (d, (ds_run ds_start ops).2) ∧
    im_entries (pd_entries d) = ds_entries (ds_run ds_start ops).1 ∧
    pd_ensure_python_hash_index d = Ok d' ∧ pd_entries d' = pd_entries d ∧
    pd_python_hash_index d' = Some (idx_of (ds_table (ds_run ds_start ops).1)).
Proof.
  intros Hlen Hsafe. destruct (run_from_default ops Hlen Hsafe) as (d0 & d & Hd0 & Hrun & Hsim').
  destruct (ensure_refines d _ (dsim_rep _ _ Hsim')) as (d' & He & _ & Hi & _ & Hen & _).
  exists d0, d, d'. split_and!; try done. apply (dsim_entries _ _ Hsim').
Qed.

Lemma dict_run_refines_witness :
  ∃ d0 (d d' : cdict),
    pd_default = Ok d0 ∧ pd_run d0 demo_ops = Ok (d, (ds_run ds_start demo_ops).2) ∧
    im_entries (pd_entries d) = ds_entries (ds_run ds_start demo_ops).1 ∧
    pd_ensure_python_hash_index d = Ok d' ∧ pd_entries d' = pd_entries d ∧
    pd_python_hash_index d' = Some (idx_of (ds_table (ds_run ds_start demo_ops).1)).
Proof. apply dict_run_refines; [reflexivity|vm_compute; reflexivity]. Defined.

(** A dict of strings emptied by deletions keeps its journal when an
    integer key converts it, with the stale count of usable slots: after three
    such keys its table has 16 slots, while the same dict with its probe index
    active converts to a table of 8. *)
Theorem emptied_dict_rebases_early :
  let ops : list (dict_op (K := ckey) (V := nat)) :=
    [DInsert (CStr 1) 0%nat; DInsert (CStr 2) 0%nat; DInsert (CStr 3) 0%nat;
     DShiftRemove (CStr 1); DShiftRemove (CStr 2); DShiftRemove (CStr 3)] in
  let more := [DInsert (CInt 1) 0%nat; DInsert (CInt 2) 0%nat; DInsert (CInt 3) 0%nat; DRead] in
  let slots (m : res (cdict * list (dict_result (K := ckey) (V := nat)))) :=
    '(d, _) ← m; i ← expect (pd_python_hash_index d); Ok (vlen (dpi_indices i)) in
  slots (d ← pd_default; pd_run d (ops ++ more)) = Ok 16 ∧
  slots (d ← pd_default; pd_run d (ops ++ DRead :: more)) = Ok 8.
Proof. vm_compute. split; reflexivity. Qed.

(** C3: After any such execution a lookup by hash finds exactly the keys of the
    dict that have this hash. *)
Theorem dict_candidates_complete {K V M} `{ProbeKey K} `{!ProbeKeyLaws K} `{IndexMap K V M}
    `{!IndexMapLaws K V M} (ops : list (dict_op (K := K) (V := V))) h :
  vlen ops < 2 ^ 58 → ds_all_safe ds_start ops = true → u64_range h →
  ∃ d0 (d d' : PyDict K M) rs cs,
    pd_default = Ok d0 ∧ pd_run d0 ops = Ok (d, rs) ∧ pd_ensure_python_hash_index d = Ok d' ∧
    pd_python_hash_candidates d' h = Ok (Some cs) ∧
    ∀ k, k ∈ cs ↔ k ∈ (ds_entries (ds_run ds_start ops).1).*1 ∧ pk_hash k = h.
Proof.
  intros Hlen Hsafe Hh. destruct (run_from_default ops Hlen Hsafe) as (d0 & d & Hd0 & Hrun & Hsim').
  pose proof (dsim_rep _ _ Hsim') as Hr.
  destruct (ensure_refines d _ Hr) as (d' & He & Hr' & Hi & Hj & Hen & _).
  destruct (candidates_spec _ h (rep_wf _ _ Hr) Hh) as (cs & Hcs & Hin).
  exists d0, d, d', (ds_run ds_start ops).2, cs. unfold pd_python_hash_candidates. rewrite Hi, Hcs.
  split_and!; try done. intros k. rewrite Hin, <- (dsim_entries _ _ Hsim').
  pose proof (rep_history _ _ Hr') as Hp. unfold pd_history in Hp. rewrite Hi, Hj, Hen in Hp.
  destruct Hp as [_ Hp]. by rewrite Hp.
Qed.

Lemma dict_candidates_complete_witness :
  ∃ d0 (d d' : cdict) rs cs,
    pd_default = Ok d0 ∧ pd_run d0 demo_ops = Ok (d, rs) ∧ pd_ensure_python_hash_index d = Ok d' ∧
    pd_python_hash_candidates d' 9 = Ok (Some cs) ∧
    ∀ k, k ∈ cs ↔ k ∈ (ds_entries (ds_run ds_start demo_ops).1).*1 ∧ pk_hash k = 9.
Proof. apply dict_candidates_complete; [reflexivity|vm_compute; reflexivity|by split]. Defined.

(** C4: The table rebuilt from a deferred journal is the one every deferred
    mutation would have led to, had it been applied at once: deletions, pops
    and insertions replayed from the entries as they were when the journal was
    opened. *)
Theorem journal_materializes_eagerly {K} `{ProbeKey K} `{!ProbeKeyLaws K}
    (j : DictMutationJournal) es0 es (t : table K) size iu cu :
  valid_size size → journal_fits es0 (dmj_mutations j) →
  history es0 (foldl (tb_insert pk_hash pk_is_str) (tb_empty size iu) es0) (dmj_mutations j) es t →
  dmj_materialize j es size iu cu = Ok (idx_of (if cu then t else tb_to_general pk_hash t)).
Proof. apply materialize_eager. Qed.

Lemma journal_materializes_eagerly_witness :
  ∃ m, ddm_removed 0 (CStr 1) false = Ok m ∧
    dmj_materialize {| dmj_mutations := [m]; dmj_non_pop_removals := 1; dmj_has_pop := false;
                       dmj_usable := 3 |} [CStr 2] 0 true true =
    Ok (idx_of (tb_remove (foldl (tb_insert pk_hash pk_is_str) (tb_empty 0 true) [CStr 1; CStr 2]) 0)).
Proof.
  eexists. split; [reflexivity|].
  eapply (journal_materializes_eagerly _ [CStr 1; CStr 2] [CStr 2] _ 0 true true); [by left|by split|].
  by apply (history_remove _ _ [] [CStr 1; CStr 2] _ 0 (CStr 1)); [constructor|..].
Defined.

(** The estimates that spare a copy the rebuilt table are never wrong: a
    journal said to preserve the layout does, one said to compact it does. *)
Theorem journal_copy_estimates_sound {K} `{ProbeKey K} `{!ProbeKeyLaws K}
    (j : DictMutationJournal) es size iu (t : table K) :
  journals j es size iu t → journal_room j es →
  (dmj_copy_definitely_preserves_layout j (vlen es) = true →
   dpi_copy_preserves_layout (idx_of t) = Ok true) ∧
  (dmj_copy_definitely_compacts_layout j (vlen es) = true →
   dpi_copy_preserves_layout (idx_of t) = Ok false).
Proof. apply journal_copy_estimates. Qed.

Lemma journal_copy_estimates_sound_witness :
  let es := [CStr 1; CStr 2] in
  let t := foldl (tb_insert pk_hash pk_is_str) (tb_empty 0 true) es in
  ∃ j, dmj_from_current_entries 0 2 = Ok j ∧
    (dmj_copy_definitely_preserves_layout j 2 = true → dpi_copy_preserves_layout (idx_of t) = Ok true) ∧
    (dmj_copy_definitely_compacts_layout j 2 = true → dpi_copy_preserves_layout (idx_of t) = Ok false).
Proof.
  intros es t. destruct (journals_open es 0 true) as (j & Ho & Hj); [by left|by split|exists true; split; [done|]|].
  { intros _. by repeat constructor. }
  exists j. split; [exact Ho|]. apply (journal_copy_estimates_sound j es 0 true t Hj).
  apply bind_Ok in Ho as (u & _ & [= <-]). by split.
Defined.

(** Copying a non-empty dict, after any such execution, gives the entries
    and the table of [PyDict_Copy]: the same layout when it is dense enough,
    otherwise the live entries inserted anew. *)
Theorem clone_copies_layout {K V M} `{ProbeKey K} `{!ProbeKeyLaws K} `{IndexMap K V M}
    `{!IndexMapLaws K V M} (ops : list (dict_op (K := K) (V := V))) :
  vlen ops < 2 ^ 58 → ds_all_safe ds_start ops = true → ds_entries (ds_run ds_start ops).1 ≠ [] →
  ∃ d0 (d d1 d' : PyDict K M),
    pd_default = Ok d0 ∧ pd_run d0 ops = Ok (d, (ds_run ds_start ops).2) ∧
    pd_clone d = Ok d1 ∧ pd_entries d1 = pd_entries d ∧
    pd_ensure_python_hash_index d1 = Ok d' ∧
    pd_python_hash_index d' = Some (idx_of (cloned_table (ds_table (ds_run ds_start ops).1))).
Proof.
  intros Hlen Hsafe Hne. destruct (run_from_default ops Hlen Hsafe) as (d0 & d & Hd0 & Hrun & Hsim').
  destruct (clone_refines d _ (dsim_rep _ _ Hsim')) as (d1 & Hcl & Hr1 & He1).
  { unfold pd_keys. rewrite (dsim_entries _ _ Hsim'). by intros Hn%fmap_nil_inv. }
  destruct (ensure_refines d1 _ Hr1) as (d' & He & _ & Hi & _).
  by exists d0, d, d1, d'.
Qed.

Lemma clone_copies_layout_witness :
  ∃ d0 (d d1 d' : cdict),
    pd_default = Ok d0 ∧ pd_run d0 demo_ops = Ok (d, (ds_run ds_start demo_ops).2) ∧
    pd_clone d = Ok d1 ∧ pd_entries d1 = pd_entries d ∧
    pd_ensure_python_hash_index d1 = Ok d' ∧
    pd_python_hash_index d' = Some (idx_of (cloned_table (ds_table (ds_run ds_start demo_ops).1))).
Proof. apply clone_copies_layout; [reflexivity|vm_compute; reflexivity|by vm_compute]. Defined.

(** The probe sequence of any hash visits every slot of a table of a power
    of two slots, within the fuel the lookups are given. *)
Theorem probe_sequence_covers hash size k slot :
  table_log size k → u64_range hash → 0 ≤ slot < Z.of_nat size →
  ∃ n, (n < probe_fuel size)%nat ∧ probe_at hash (Z.of_nat size - 1) n = slot.
Proof. apply probe_covers. Qed.

Lemma probe_sequence_covers_witness :
  ∃ n, (n < probe_fuel 8)%nat ∧ probe_at 12345678901234567890 (Z.of_nat 8 - 1) n = 5.
Proof. apply (probe_sequence_covers _ _ 3); by vm_compute. Defined.

(** The size chosen for a table is a power of two of at least eight slots
    that reaches the requested size, and no overflow occurs. *)
Theorem table_size_is_power_of_two target :
  0 ≤ target < 2 ^ 63 →
  ∃ k, 3 ≤ k ≤ 63 ∧ dpi_table_size_for_target target = Ok (2 ^ k) ∧
    2 ^ (k - 1) ≤ Z.lor target 8 - 1 < 2 ^ k ∧ target ≤ 2 ^ k.
Proof. apply table_size_for_target_spec. Qed.

Lemma table_size_is_power_of_two_witness :
  ∃ k, 3 ≤ k ≤ 63 ∧ dpi_table_size_for_target 100 = Ok (2 ^ k) ∧
    2 ^ (k - 1) ≤ Z.lor 100 8 - 1 < 2 ^ k ∧ 100 ≤ 2 ^ k.
Proof. apply table_size_is_power_of_two. by vm_compute. Defined.

(** C10: The replay sequence, a treap in an arena, is a list: its length, the
    in-order visit, insertion at a position, removal at any position, and
    pushing and popping at the end are those of lists, and never run out of
    fuel. *)
Theorem replay_sequence_is_list {K St} (s : DictReplaySequence K) ks k (visit : St → DictReplayKey K → res St) st :
  drs_rep s ks →
  drs_len s = Ok (length ks) ∧
  drs_for_each s visit st = rfold visit st ks ∧
  (∀ i, (i ≤ length ks)%nat → ∃ s', drs_insert s i k = Ok s' ∧ drs_rep s' (take i ks ++ k :: drop i ks)) ∧
  (∀ i x, ks !! i = Some x → ∃ s', drs_remove s i = Ok (s', x) ∧ drs_rep s' (delete i ks)) ∧
  (∃ s', drs_push s k = Ok s' ∧ drs_rep s' (ks ++ [k])) ∧
  (ks = [] → drs_pop s = Ok (s, None)) ∧
  (∀ ks' x, ks = ks' ++ [x] → ∃ s', drs_pop s = Ok (s', Some x) ∧ drs_rep s' ks').
Proof.
  intros Hr. split_and!.
  - by apply drs_len_spec.
  - by apply drs_for_each_spec.
  - intros i Hi. by apply drs_insert_spec.
  - intros i x Hx. destruct (drs_remove_spec s ks i Hr) as (s' & x' & Hrem & Hx' & Hr'); [by eapply lookup_lt_Some|].
    simplify_eq. by exists s'.
  - by apply drs_push_spec.
  - intros ->. by apply drs_pop_nil.
  - intros ks' x ->. by apply drs_pop_snoc.
Qed.

(** Two keys, pushed one after the other. *)
Definition sample_replay_key (n : Z) : DictReplayKey ckey :=
  {| drk_key := Some (CInt n); drk_python_hash := n; drk_is_str := false; drk_replay_id := 0 |}.
Definition sample_sequence : DictReplaySequence ckey :=
  match s ← drs_push drs_with_capacity (sample_replay_key 1); drs_push s (sample_replay_key 2) with
  | Ok s => s
  | _ => drs_with_capacity
  end.

Lemma sample_sequence_rep : drs_rep sample_sequence [sample_replay_key 1; sample_replay_key 2].
Proof.
  unfold sample_sequence. destruct (drs_push_spec (K := ckey) drs_with_capacity [] (sample_replay_key 1)) as (s1 & -> & H1); [apply drs_rep_with_capacity|].
  cbn [mbind res_bind]. by destruct (drs_push_spec s1 _ (sample_replay_key 2) H1) as (s2 & -> & H2).
Qed.

Lemma replay_sequence_is_list_witness :
  drs_for_each sample_sequence (λ n _, Ok (S n)) 0%nat = Ok 2%nat ∧
  (∃ s', drs_remove sample_sequence 0 = Ok (s', sample_replay_key 1) ∧ drs_rep s' [sample_replay_key 2]).
Proof.
  destruct (replay_sequence_is_list sample_sequence [sample_replay_key 1; sample_replay_key 2] (sample_replay_key 3) (λ n _, Ok (S n)) 0%nat
    sample_sequence_rep) as (_ & Hvisit & _ & Hremove & _).
  split; [exact Hvisit|]. exact (Hremove 0%nat _ eq_refl).
Defined.

(** The packed word of a deferred deletion decodes to the position, kind,
    hash and string flag it was made of. *)
Theorem mutation_word_round_trip {K} `{ProbeKey K} index (key : K) popped :
  0 ≤ index < 2 ^ 61 →
  ∃ m, ddm_removed index key popped = Ok m ∧ ddm_python_hash m = pk_hash key ∧
    ddm_kind m = (if popped then DICT_MUTATION_POP else DICT_MUTATION_REMOVE) ∧
    ddm_position m = index ∧ ddm_is_str m = pk_is_str key.
Proof. apply removed_word. Qed.

Lemma mutation_word_round_trip_witness :
  ∃ m, ddm_removed 1000 (CStr 7) true = Ok m ∧ ddm_python_hash m = pk_hash (CStr 7) ∧
    ddm_kind m = DICT_MUTATION_POP ∧ ddm_position m = 1000 ∧ ddm_is_str m = pk_is_str (CStr 7).
Proof. apply (mutation_word_round_trip 1000 (CStr 7) true). by vm_compute. Defined.
