(* ===== verification/KeyProps.v ===== *)
(** What hashable keys promise: equality is an equivalence, and equal keys,
    of whatever types, have one Python hash and one [Hash] stream. *)

From S2P Require Import Prelude Probe Double Keys KeysSpec PyDict PyDictSpec DictProps Concrete.

(** The doubles 1.0, -2.5 and 2.0 ** 70 and some keys made of them. *)
Definition bits_one : Z := 0x3ff0000000000000.
Definition bits_big : Z := 0x4450000000000000.

#[local] Abbreviation ikey := (PyKey Z N).
#[local] Abbreviation no_heap := (λ _ : Z, (@nil ikey, 0)).

(** C18: The equality of keys is reflexive, symmetric and transitive: across
    ints, bools, big ints, floats and complex numbers, NaNs by identity, tuples
    and frozensets of them. *)
Theorem key_equality_is_equivalence {B V} `{BigInt B} `{!BigIntLaws B} `{ObjectValue V} `{!ObjectValueLaws V}
    none_addr ellipsis_addr heap (a b c : PyKey B V) :
  wf_key none_addr ellipsis_addr heap a → wf_key none_addr ellipsis_addr heap b →
  wf_key none_addr ellipsis_addr heap c →
  pykey_eqb a a = true ∧ pykey_eqb a b = pykey_eqb b a ∧
  (pykey_eqb a b = true → pykey_eqb b c = true → pykey_eqb a c = true).
Proof.
  intros Ha Hb Hc. split; [by eapply key_refl|]. split; [|by eapply key_trans].
  apply eq_true_iff_eq. split; by eapply key_sym.
Qed.

Lemma key_equality_is_equivalence_witness :
  let a : ikey := KInt 1 in let b := KFloat bits_one in let c := KComplex bits_one 0 in
  pykey_eqb a a = true ∧ pykey_eqb a b = pykey_eqb b a ∧
  (pykey_eqb a b = true → pykey_eqb b c = true → pykey_eqb a c = true).
Proof. intros a b c. apply (key_equality_is_equivalence 16 32 no_heap); by repeat split. Defined.

(** C19: Every well-formed key has a hash in the range of an [i64], and equal
    keys have equal hashes. *)
Theorem equal_keys_hash_equal {B V} `{BigInt B} `{!BigIntLaws B} `{ObjectValue V} `{!ObjectValueLaws V}
    none_addr ellipsis_addr heap (a b : PyKey B V) :
  wf_key none_addr ellipsis_addr heap a → wf_key none_addr ellipsis_addr heap b →
  ∃ h, py_hash_pykey none_addr ellipsis_addr a = Ok h ∧ i64_range h ∧
    (pykey_eqb a b = true → py_hash_pykey none_addr ellipsis_addr b = Ok h).
Proof.
  intros Ha Hb. destruct (key_hash_total none_addr ellipsis_addr heap a Ha) as (h & Hh & Hr).
  exists h. split_and!; [done|by apply Hr..|]. intros Heq. rewrite <- Hh. symmetry. by eapply key_eq_hash.
Qed.

Lemma equal_keys_hash_equal_witness :
  let a : ikey := KTuple [KBigInt (2 ^ 70); KStr [97]] in let b := KTuple [KFloat bits_big; KStr [97]] in
  ∃ h, py_hash_pykey 16 32 a = Ok h ∧ i64_range h ∧
    (pykey_eqb a b = true → py_hash_pykey 16 32 b = Ok h).
Proof.
  intros a b. apply (equal_keys_hash_equal 16 32 no_heap); repeat split; try done.
  cbn. unfold i64_range. lia.
Defined.

(** Equal keys feed the Rust hasher the same stream: the contract between
    [Hash] and [Eq] on which the hash maps rely. *)
Theorem equal_keys_stream_equal {B V} `{BigInt B} `{!BigIntLaws B} `{ObjectValue V} `{!ObjectValueLaws V}
    none_addr ellipsis_addr heap (a b : PyKey B V) :
  wf_key none_addr ellipsis_addr heap a → wf_key none_addr ellipsis_addr heap b →
  pykey_eqb a b = true → pykey_hash none_addr ellipsis_addr a = pykey_hash none_addr ellipsis_addr b.
Proof. by apply key_eq_stream. Qed.

Lemma equal_keys_stream_equal_witness :
  pykey_eqb (KBool true : ikey) (KFloat bits_one) = true ∧
  pykey_hash 16 32 (KBool true : ikey) = pykey_hash 16 32 (KFloat bits_one : ikey).
Proof.
  split; [by vm_compute|]. apply (equal_keys_stream_equal 16 32 no_heap); [by repeat split..|by vm_compute].
Defined.

(** The hash of a frozenset does not depend on the order of its items. *)
Theorem frozenset_hash_unordered {B V} `{BigInt B} `{!BigIntLaws B} `{ObjectValue V}
    none_addr ellipsis_addr heap (items items' : list (PyKey B V)) :
  Forall (wf_key none_addr ellipsis_addr heap) items → items ≡ₚ items' →
  py_hash_frozenset_items none_addr ellipsis_addr items =
  py_hash_frozenset_items none_addr ellipsis_addr items'.
Proof. by apply frozenset_order. Qed.

Lemma frozenset_hash_unordered_witness :
  py_hash_frozenset_items 16 32 [KInt 1 : ikey; KStr [98]; KNone] =
  py_hash_frozenset_items 16 32 [KStr [98] : ikey; KInt 1; KNone].
Proof.
  apply (frozenset_hash_unordered 16 32 no_heap); [by repeat constructor|apply perm_swap].
Defined.

(** A double equals an [i64] exactly when it has the value of it, however
    large, and then [_Py_HashDouble] of the one is the hash of the other. *)
Theorem int_float_agree i bits :
  i64_range i →
  (int_float_eq i (f64_val bits) = true ↔ f64_val bits = FFin (i * f64_scale)) ∧
  (f64_val bits = FFin (i * f64_scale) → py_hash_float bits = hash_int i).
Proof.
  intros Hi. split; [by apply int_float_eq_spec|]. intros Hv.
  rewrite py_hash_float_class. unfold fclass_of. rewrite Hv. unfold class_hash. by rewrite hash_int_val.
Qed.

Lemma int_float_agree_witness :
  (int_float_eq 1 (f64_val bits_one) = true ↔ f64_val bits_one = FFin (1 * f64_scale)) ∧
  (f64_val bits_one = FFin (1 * f64_scale) → py_hash_float bits_one = hash_int 1).
Proof. apply int_float_agree. by split. Defined.

(** In a dict, keys of different types that are equal are one key: the
    second insertion replaces the value and keeps the first key. *)
Theorem equal_keys_are_one_entry {B V W} `{BigInt B} `{!BigIntLaws B} `{ObjectValue V} `{!ObjectValueLaws V}
    none_addr ellipsis_addr heap (a b : good_key (B := B) (V := V) none_addr ellipsis_addr heap) (v w : W) :
  pykey_eqb (gk_key _ _ _ a) (gk_key _ _ _ b) = true →
  ∃ d0 d : PyDict _ (list (_ * W)),
    pd_default = Ok d0 ∧ pd_run d0 [DInsert a v; DInsert b w] = Ok (d, [RNone; RValue v]) ∧
    im_entries (pd_entries d) = [(a, w)].
Proof.
  intros Heq. assert (Hix : lm_index_of [(a, v)] b = Some 0%nat).
  { cbn [lm_index_of]. assert (Hpk : pk_eqb a b = true) by exact Heq. by rewrite Hpk. }
  destruct (run_from_default (M := list (_ * W)) [DInsert a v; DInsert b w]) as (d0 & d & Hd0 & Hrun & Hsim).
  - done.
  - cbn [ds_all_safe ds_safe ds_start ds_step ds_entries ds_removed lm_index_of negb length Nat.eqb fst app].
    by rewrite !orb_true_r.
  - exists d0, d. pose proof (dsim_entries _ _ Hsim) as He.
    cbn [ds_run ds_step ds_start ds_entries ds_table lm_index_of app fst snd] in He, Hrun.
    cbn [lm_index_of] in Hix. rewrite Hix in He, Hrun. cbn in He, Hrun. done.
Qed.

Lemma equal_keys_are_one_entry_witness :
  ∃ a b : good_key (B := Z) (V := N) 16 32 no_heap,
    gk_key _ _ _ a = KInt 1 ∧ gk_key _ _ _ b = KFloat bits_one ∧
    ∃ d0 d : PyDict _ (list (_ * nat)),
      pd_default = Ok d0 ∧ pd_run d0 [DInsert a 5%nat; DInsert b 6%nat] = Ok (d, [RNone; RValue 5%nat]) ∧
      im_entries (pd_entries d) = [(a, 6%nat)].
Proof.
  assert (Ha : wf_key 16 32 no_heap (KInt 1 : ikey)) by done.
  assert (Hb : wf_key 16 32 no_heap (KFloat bits_one : ikey)) by done.
  exists {| gk_key := _; gk_wf := Ha |}, {| gk_key := _; gk_wf := Hb |}. split; [done|]. split; [done|].
  apply equal_keys_are_one_entry. by vm_compute.
Defined.
