(* ===== verification/Outcome.v ===== *)
(** Code that may raise a Python exception: the errors of
    crates/pyrust-core/src/core/errors.rs that the modelled builtins construct,
    the [Result] monad over them, and the Python values those builtins tell
    apart by their kind. *)

From stdpp Require Export strings pretty.
From S2P Require Import Prelude Keys Double.

(** ** Errors and results *)

(** The variants of [PyError] without an interpreter object in them. *)
Inductive PyError : Type :=
  | Lex (message : string)
  | Parse (message : string)
  | Runtime (message : string)
  | Named (class_name message : string).

(** What a Rust function of type [Result<A>] does: return [Ok], return [Err],
    unwind with a panic, or outlast the fuel of the model. *)
Inductive outcome (A : Type) : Type :=
  | Return (a : A)
  | Raise (e : PyError)
  | Panicked
  | OutOfFuel.
Arguments Return {A} _.
Arguments Raise {A} _.
Arguments Panicked {A}.
Arguments OutOfFuel {A}.

#[export] Instance outcome_ret : MRet outcome := @Return.
#[export] Instance outcome_bind : MBind outcome := λ A B f m,
  match m with
  | Return a => f a
  | Raise e => Raise e
  | Panicked => Panicked
  | OutOfFuel => OutOfFuel
  end.

#[export] Instance outcome_fmap : FMap outcome := λ A B f m, a ← m; Return (f a).

(** A computation that raises no exception, inside one that may. *)
Definition lift {A} (m : res A) : outcome A :=
  match m with Ok a => Return a | Panic => Panicked | Diverge => OutOfFuel end.

(** [for x in l] with a body that updates locals and may return an error. *)
Fixpoint ofold {A S} (f : S → A → outcome S) (s : S) (l : list A) : outcome S :=
  match l with
  | [] => Return s
  | x :: l => s' ← f s x; ofold f s' l
  end.

Lemma ofold_app {A S} (f : S → A → outcome S) s l1 l2 :
  ofold f s (l1 ++ l2) = (s' ← ofold f s l1; ofold f s' l2).
Proof. revert s. induction l1 as [|x l1 IH]; intros s; [done|]. cbn. by destruct (f s x); cbn. Qed.

Lemma obind_Return {A B} (m : outcome A) (f : A → outcome B) b :
  (m ≫= f) = Return b ↔ ∃ a, m = Return a ∧ f a = Return b.
Proof. destruct m; cbn; naive_solver. Qed.

Lemma lift_Ok {A} (m : res A) a : m = Ok a → lift m = Return a.
Proof. by intros ->. Qed.

Definition TypeError (message : string) : PyError := Named "TypeError" message.
Definition ValueError (message : string) : PyError := Named "ValueError" message.
Definition OverflowError (message : string) : PyError := Named "OverflowError" message.

(** ** Python values, by kind

    [VOther] stands for every kind the modelled builtins only name in an error
    message; its argument is what [builtin_type_name] gives for it. *)
Inductive Value (B : Type) : Type :=
  | VNone
  | VBool (b : bool)
  | VInt (n : Z)
  | VBigInt (n : B)
  | VFloat (f : f64)
  | VComplex (re im : f64)
  | VStr (s : string)
  | VBytes (bs : list Z)
  | VOther (type_name : string).
Arguments VNone {B}.
Arguments VBool {B} _.
Arguments VInt {B} _.
Arguments VBigInt {B} _.
Arguments VFloat {B} _.
Arguments VComplex {B} _ _.
Arguments VStr {B} _.
Arguments VBytes {B} _.
Arguments VOther {B} _.

Definition builtin_type_name {B} (v : Value B) : string :=
  match v with
  | VNone => "NoneType"
  | VBool _ => "bool"
  | VInt _ | VBigInt _ => "int"
  | VFloat _ => "float"
  | VComplex _ _ => "complex"
  | VStr _ => "str"
  | VBytes _ => "bytes"
  | VOther type_name => type_name
  end.

(** The integer a value of type [int] or [bool] stands for. *)
Definition int_value {B} `{BigInt B} (v : Value B) : option Z :=
  match v with
  | VBool b => Some (bool_int b)
  | VInt n => Some n
  | VBigInt n => Some (bi_Z n)
  | _ => None
  end.

(** The ranges of the machine types inside a value. *)
Definition byte_range (b : Z) : Prop := 0 ≤ b < 256.

(** A big integer is never one that an [i64] holds: the kind of a value shows
    a number that fits as [Int], however it is stored. *)
Definition value_wf {B} `{BigInt B} (v : Value B) : Prop :=
  match v with
  | VInt n => i64_range n
  | VBigInt n => ¬ i64_range (bi_Z n)
  | VBytes bs => Forall byte_range bs
  | _ => True
  end.

(** [Value::bigint], by the kind of its result. *)
Definition value_bigint {B} `{BigInt B} (n : B) : Value B :=
  match bi_to_i64 n with Some i => VInt i | None => VBigInt n end.

(** [value_from_bigint]: a plain [Int] when it fits in an [i64]. *)
Definition value_from_bigint {B} `{BigInt B} (n : B) : Value B :=
  match bi_to_i64 n with Some i => VInt i | None => value_bigint n end.

Lemma value_from_bigint_eq {B} `{BigInt B} (n : B) : value_from_bigint n = value_bigint n.
Proof. unfold value_from_bigint, value_bigint. by destruct (bi_to_i64 n). Qed.

Lemma value_bigint_spec {B} `{BigInt B} `{!BigIntLaws B} (n : B) :
  value_wf (value_bigint n) ∧ int_value (value_bigint n) = Some (bi_Z n).
Proof.
  unfold value_bigint. rewrite bi_to_i64_Z.
  destruct (Z.leb_spec (- 2 ^ 63) (bi_Z n)), (Z.ltb_spec (bi_Z n) (2 ^ 63)); cbn;
    (split_and?; unfold i64_range; try done; lia).
Qed.

Lemma value_from_bigint_spec {B} `{BigInt B} `{!BigIntLaws B} (n : B) :
  value_wf (value_from_bigint n) ∧ int_value (value_from_bigint n) = Some (bi_Z n).
Proof. rewrite value_from_bigint_eq. apply value_bigint_spec. Qed.
