(* ===== verification/IntBytes.v ===== *)
(** [int.to_bytes] and [int.from_bytes]
    (crates/pyrust-builtins/src/int.rs): argument parsing, the machine-integer
    and the big-integer paths; then the byte-level specification they meet. *)

From S2P Require Import Outcome Prelude Keys.

(** ** Little-endian and two's-complement readings of bytes *)

Fixpoint le_value (bs : list Z) : Z :=
  match bs with [] => 0 | b :: bs => b + 256 * le_value bs end.

Definition le_signed (bs : list Z) : Z :=
  let n := le_value bs in
  if 256 ^ vlen bs <=? 2 * n then n - 256 ^ vlen bs else n.

(** The [len] low bytes of an integer, in two's complement when negative. *)
Fixpoint le_encode (len : nat) (n : Z) : list Z :=
  match len with O => [] | S len => n mod 256 :: le_encode len (n / 256) end.

(** The byte conversions of num-bigint, by their documentation: the shortest
    representation of a number, and the number a representation stands for. *)
Class BigIntBytes (B : Type) := {
  bi_to_bytes_le : B → list Z;          (* of the magnitude *)
  bi_to_signed_bytes_le : B → list Z;
  bi_from_bytes_le : list Z → B;        (* with [Sign::Plus] *)
  bi_from_bytes_be : list Z → B;
  bi_from_signed_bytes_le : list Z → B;
  bi_from_signed_bytes_be : list Z → B;
}.

Class BigIntBytesLaws (B : Type) `{BigInt B} `{BigIntBytes B} : Prop := {
  bi_to_bytes_range n : Forall byte_range (bi_to_bytes_le n);
  bi_to_bytes_value n : le_value (bi_to_bytes_le n) = Z.abs (bi_Z n);
  bi_to_bytes_shortest n bs : bi_Z n ≠ 0 → Forall byte_range bs →
    le_value bs = Z.abs (bi_Z n) → vlen (bi_to_bytes_le n) ≤ vlen bs;
  bi_to_signed_bytes_range n : Forall byte_range (bi_to_signed_bytes_le n);
  bi_to_signed_bytes_value n : le_signed (bi_to_signed_bytes_le n) = bi_Z n;
  bi_to_signed_bytes_shortest n bs : bi_Z n ≠ 0 → Forall byte_range bs →
    le_signed bs = bi_Z n → vlen (bi_to_signed_bytes_le n) ≤ vlen bs;
  bi_from_bytes_le_Z bs : Forall byte_range bs → bi_Z (bi_from_bytes_le bs) = le_value bs;
  bi_from_bytes_be_Z bs : Forall byte_range bs → bi_Z (bi_from_bytes_be bs) = le_value (reverse bs);
  bi_from_signed_bytes_le_Z bs :
    Forall byte_range bs → bi_Z (bi_from_signed_bytes_le bs) = le_signed bs;
  bi_from_signed_bytes_be_Z bs :
    Forall byte_range bs → bi_Z (bi_from_signed_bytes_be bs) = le_signed (reverse bs);
}.

(** ** Arguments

    The keyword arguments are a [PyDict] walked in insertion order; a key that
    is not a string is skipped, and a string without UTF-8 reads as empty. *)
Inductive kw_name : Type :=
  | KwStr (s : option string)
  | KwOther.

Section int_bytes.
Context {B : Type} `{BigInt B} `{BigIntBytes B}.
Implicit Types (args : list (Value B)) (kw : list (kw_name * Value B)).

Definition given_count (n : nat) : string := " (" +:+ pretty n +:+ " given)".

(** The locals [length_val] (or [bytes_val]), [byteorder_val], [signed_val]. *)
Definition arg_locals : Type := option (Value B) * option (Value B) * option (Value B).

Definition by_name_and_position (f name : string) (position : nat) : PyError :=
  TypeError ("argument for " +:+ f +:+ "() given by name ('" +:+ name +:+ "') and position ("
             +:+ pretty position +:+ ")").

(** One iteration of the keyword loop of [f], whose first parameter is [first]. *)
Definition keyword_step (f first : string) (locals : arg_locals) (kv : kw_name * Value B) :
    outcome arg_locals :=
  let '(first_val, byteorder_val, signed_val) := locals in
  match kv.1 with
  | KwOther => Return locals
  | KwStr s =>
      let name := default EmptyString s in
      if decide (name = first) then
        match first_val with
        | Some _ => Raise (by_name_and_position f first 1)
        | None => Return (Some kv.2, byteorder_val, signed_val)
        end
      else if decide (name = "byteorder") then
        match byteorder_val with
        | Some _ => Raise (by_name_and_position f "byteorder" 2)
        | None => Return (first_val, Some kv.2, signed_val)
        end
      else if decide (name = "signed") then Return (first_val, byteorder_val, Some kv.2)
      else Raise (TypeError (f +:+ "() got an unexpected keyword argument '" +:+ name +:+ "'"))
  end.

Definition bind_arguments (f first : string) args kw : outcome arg_locals :=
  if (2 <? length args)%nat then
    Raise (TypeError (f +:+ "() takes at most 2 positional arguments" +:+ given_count (length args)))
  else ofold (keyword_step f first) (args !! 0%nat, args !! 1%nat, None) kw.

Definition parse_length (length_val : option (Value B)) : outcome Z :=
  match length_val with
  | None => Return 1
  | Some (VInt n) =>
      if n <? 0 then Raise (ValueError "length argument must be non-negative") else Return n
  | Some (VBigInt _) => Raise (OverflowError "Python int too large to convert to C ssize_t")
  | Some (VBool b) => Return (bool_int b)
  | Some v =>
      Raise (TypeError ("'" +:+ builtin_type_name v +:+ "' object cannot be interpreted as an integer"))
  end.

Definition parse_byteorder (f : string) (byteorder_val : option (Value B)) : outcome bool :=
  match byteorder_val with
  | None => Return true
  | Some (VStr s) =>
      if decide (s = "big") then Return true
      else if decide (s = "little") then Return false
      else Raise (ValueError "byteorder must be either 'little' or 'big'")
  | Some v =>
      Raise (TypeError (f +:+ "() argument 'byteorder' must be str, not " +:+ builtin_type_name v))
  end.

Definition parse_signed (f : string) (signed_val : option (Value B)) : outcome bool :=
  match signed_val with
  | None => Return false
  | Some (VBool b) => Return b
  | Some (VInt n) => Return (negb (n =? 0))
  | Some v =>
      Raise (TypeError (f +:+ "() argument 'signed' must be a bool, not '" +:+ builtin_type_name v
                        +:+ "'"))
  end.

(** ** [int.to_bytes] *)

(** [for (i, dst) in buf.iter_mut().enumerate()]: the source bytes, then the
    fill byte. *)
Definition fill_bytes (src : list Z) (bound : nat) (fill : Z) (buf : list Z) : res (list Z) :=
  mapM (λ x : nat * Z, if (x.1 <? bound)%nat then vnth src x.1 else Ok fill) (enumerate buf).

(** [u64::to_le_bytes] *)
Definition to_le_bytes (n : Z) : list Z :=
  (λ i : nat, Z.land (Z.shiftr n (8 * Z.of_nat i)) 255) <$> seq 0 8.

Definition byte_order (big_endian : bool) (buf : list Z) : list Z :=
  if big_endian then reverse buf else buf.

Definition too_big : PyError := OverflowError "int too big to convert".
Definition negative_to_unsigned : PyError := OverflowError "can't convert negative int to unsigned".

(** [vec![0u8; length]]: an allocation failure is not modelled. *)
Definition zero_bytes (length : Z) : list Z := replicate (Z.to_nat length) 0.

Definition i64_fits_signed (n length : Z) : bool :=
  let max_pos := as_i64 (Z.shiftl 1 (8 * length - 1)) - 1 in
  let min_neg := - as_i64 (Z.shiftl 1 (8 * length - 1)) in
  negb ((max_pos <? n) || (n <? min_neg)).

Definition int_i64_to_bytes (n length : Z) (big_endian signed : bool) : outcome (list Z) :=
  if negb signed && (n <? 0) then Raise negative_to_unsigned
  else
    let buf := zero_bytes length in
    if n =? 0 then Return buf
    else if signed then
      if length =? 0 then Raise too_big
      else
        let n_bytes := to_le_bytes (as_u64 n) in
        if (length <? 8) && negb (i64_fits_signed n length) then Raise too_big
        else
          let sign_fill := if n <? 0 then 255 else 0 in
          buf ← lift (fill_bytes n_bytes 8 sign_fill buf);
          Return (byte_order big_endian buf)
    else
      let n := as_u64 n in
      let n_bytes := to_le_bytes n in
      if (length =? 0) || ((length <? 8) && (as_u64 (Z.shiftl 1 (8 * length)) <=? n)) then
        Raise too_big
      else
        buf ← lift (fill_bytes n_bytes 8 0 buf);
        Return (byte_order big_endian buf).

Definition bigint_to_bytes (n : B) (len : Z) (big_endian signed : bool) : outcome (list Z) :=
  if negb signed && (bi_Z n <? 0) then Raise negative_to_unsigned
  else if bi_Z n =? 0 then Return (zero_bytes len)
  else
    let buf := zero_bytes len in
    if signed then
      let le_bytes := bi_to_signed_bytes_le n in
      if len <? vlen le_bytes then Raise too_big
      else
        let sign_byte := if bi_Z n <? 0 then 255 else 0 in
        buf ← lift (fill_bytes le_bytes (length le_bytes) sign_byte buf);
        Return (byte_order big_endian buf)
    else
      let le_bytes := bi_to_bytes_le n in
      if len <? vlen le_bytes then Raise too_big
      else
        buf ← lift (fill_bytes le_bytes (length le_bytes) 0 buf);
        Return (byte_order big_endian buf).

Definition int_to_bytes (receiver : Value B) args kw : outcome (Value B) :=
  '(length_val, byteorder_val, signed_val) ← bind_arguments "to_bytes" "length" args kw;
  length ← parse_length length_val;
  big_endian ← parse_byteorder "to_bytes" byteorder_val;
  signed ← parse_signed "to_bytes" signed_val;
  match receiver with
  | VBool b => VBytes <$> int_i64_to_bytes (bool_int b) length big_endian signed
  | VInt n => VBytes <$> int_i64_to_bytes n length big_endian signed
  | VBigInt b => VBytes <$> bigint_to_bytes b length big_endian signed
  | _ =>
      Raise (TypeError ("descriptor 'to_bytes' for 'int' objects doesn't apply to a '"
                        +:+ builtin_type_name receiver +:+ "' object"))
  end.

(** ** [int.from_bytes] *)

Definition bytes_to_bigint (data : list Z) (big_endian signed : bool) : B :=
  if signed then
    if big_endian then bi_from_signed_bytes_be data else bi_from_signed_bytes_le data
  else
    if big_endian then bi_from_bytes_be data else bi_from_bytes_le data.

Definition int_from_bytes args kw : outcome (Value B) :=
  '(bytes_val, byteorder_val, signed_val) ← bind_arguments "from_bytes" "bytes" args kw;
  bytes_v ← match bytes_val with
            | None => Raise (TypeError "from_bytes() missing required argument: 'bytes'")
            | Some v => Return v
            end;
  data ← match bytes_v with
         | VBytes b => Return b
         | v => Raise (TypeError
             ("from_bytes() argument 'bytes' must be a bytes-like object, not '"
              +:+ builtin_type_name v +:+ "'"))
         end;
  big_endian ← parse_byteorder "from_bytes" byteorder_val;
  signed ← parse_signed "from_bytes" signed_val;
  match data with
  | [] => Return (VInt 0)
  | _ => Return (value_from_bigint (bytes_to_bigint data big_endian signed))
  end.
End int_bytes.

(** ** Specification *)

(** The integers that [len] bytes can hold. *)
Definition fits_bytes (signed : bool) (len n : Z) : Prop :=
  if signed then - 256 ^ len ≤ 2 * n < 256 ^ len else 0 ≤ n < 256 ^ len.

#[export] Instance fits_bytes_dec signed len n : Decision (fits_bytes signed len n).
Proof. destruct signed; apply _. Defined.

Definition int_encode (n len : Z) (big_endian signed : bool) : outcome (list Z) :=
  if decide (fits_bytes signed len n) then Return (byte_order big_endian (le_encode (Z.to_nat len) n))
  else Raise (if negb signed && (n <? 0) then negative_to_unsigned else too_big).

Definition int_decode (data : list Z) (big_endian signed : bool) : Z :=
  if signed then le_signed (byte_order big_endian data) else le_value (byte_order big_endian data).

(** ** Lists of bytes as integers *)

Lemma le_encode_length len n : length (le_encode len n) = len.
Proof. revert n. induction len; intros n; cbn; auto. Qed.

Lemma le_encode_range len n : Forall byte_range (le_encode len n).
Proof.
  revert n. induction len as [|len IH]; intros n; constructor; [|apply IH].
  unfold byte_range. apply Z.mod_pos_bound. lia.
Qed.

Lemma le_value_encode len n : le_value (le_encode len n) = n mod 256 ^ Z.of_nat len.
Proof.
  revert n. induction len as [|len IH]; intros n; cbn [le_encode le_value].
  { by rewrite Z.mod_1_r. }
  rewrite IH, Nat2Z.inj_succ, Z.pow_succ_r by lia. by rewrite Z.rem_mul_r by lia.
Qed.

Lemma le_value_range bs : Forall byte_range bs → 0 ≤ le_value bs < 256 ^ vlen bs.
Proof.
  induction 1 as [|b bs Hb _ IH]; [done|]. cbn [le_value].
  rewrite vlen_cons, Z.pow_add_r, Z.pow_1_r by (pose proof (vlen_nonneg bs); lia).
  unfold byte_range in Hb. lia.
Qed.

Lemma le_encode_value n bs :
  Forall byte_range bs → n mod 256 ^ vlen bs = le_value bs → le_encode (length bs) n = bs.
Proof.
  intros Hbs. revert n. induction Hbs as [|b bs Hb Hbs IH]; intros n Hn; [done|].
  cbn [length le_encode le_value] in *. unfold byte_range in Hb.
  pose proof (vlen_nonneg bs). rewrite vlen_cons, Z.pow_add_r, Z.pow_1_r, Z.rem_mul_r in Hn by lia.
  pose proof (Z.mod_pos_bound n 256 ltac:(lia)).
  pose proof (Z.mod_pos_bound (n / 256) (256 ^ vlen bs) ltac:(lia)).
  pose proof (le_value_range bs Hbs).
  f_equal; [lia|]. apply IH. lia.
Qed.

Lemma le_encode_lookup len n i :
  (i < len)%nat → le_encode len n !! i = Some (n / 256 ^ Z.of_nat i mod 256).
Proof.
  revert n i. induction len as [|len IH]; intros n [|i] Hi; [lia..|by rewrite Z.div_1_r|].
  cbn [le_encode lookup list_lookup]. rewrite IH by lia.
  by rewrite Nat2Z.inj_succ, Z.pow_succ_r, Z.div_div by lia.
Qed.

Lemma le_signed_spec bs :
  Forall byte_range bs → - 256 ^ vlen bs ≤ 2 * le_signed bs < 256 ^ vlen bs
    ∧ le_signed bs mod 256 ^ vlen bs = le_value bs.
Proof.
  intros Hbs. pose proof (le_value_range bs Hbs). unfold le_signed.
  destruct (Z.leb_spec (256 ^ vlen bs) (2 * le_value bs)); (split; [lia|]).
  - rewrite <- (Z_mod_plus_full _ 1), Z.mod_small; lia.
  - by apply Z.mod_small.
Qed.

Lemma le_signed_encode len n :
  - 256 ^ Z.of_nat len ≤ 2 * n < 256 ^ Z.of_nat len → le_signed (le_encode len n) = n.
Proof.
  intros Hn. unfold le_signed, vlen. rewrite le_value_encode, le_encode_length.
  destruct (Z_lt_dec n 0).
  - rewrite <- (Z_mod_plus_full n 1), Z.mul_1_l, Z.mod_small by lia.
    destruct (Z.leb_spec (256 ^ Z.of_nat len) (2 * (n + 256 ^ Z.of_nat len))); lia.
  - rewrite Z.mod_small by lia. destruct (Z.leb_spec (256 ^ Z.of_nat len) (2 * n)); lia.
Qed.

(** The bytes past the end of a two's-complement representation. *)
Lemma sign_extension n k i :
  (k ≤ i)%nat → - 256 ^ Z.of_nat k ≤ n < 256 ^ Z.of_nat k →
  n / 256 ^ Z.of_nat i mod 256 = if n <? 0 then 255 else 0.
Proof.
  intros Hi Hn. assert (256 ^ Z.of_nat k ≤ 256 ^ Z.of_nat i) by (apply Z.pow_le_mono_r; lia).
  destruct (Z.ltb_spec n 0).
  - replace (n / 256 ^ Z.of_nat i) with (-1); [done|].
    apply (Zdiv_unique _ _ _ (n + 256 ^ Z.of_nat i)); lia.
  - by rewrite Z.div_small by lia.
Qed.

Lemma to_le_bytes_encode n : 0 ≤ n < two64 → to_le_bytes n = le_encode 8 n.
Proof.
  intros Hn. apply list_eq. intros i. unfold to_le_bytes. rewrite list_lookup_fmap.
  destruct (decide (i < 8)%nat) as [Hi|Hi].
  - rewrite lookup_seq_lt, le_encode_lookup by lia. cbn [fmap option_fmap option_map].
    rewrite Z.shiftr_div_pow2 by lia. change 255 with (Z.ones 8). rewrite Z.land_ones by lia.
    by rewrite Z.pow_mul_r by lia.
  - rewrite lookup_ge_None_2 by (rewrite length_seq; lia).
    by rewrite lookup_ge_None_2 by (rewrite le_encode_length; lia).
Qed.

Lemma le_encode_as_u64 n : le_encode 8 (as_u64 n) = le_encode 8 n.
Proof.
  assert (Hm : ∀ m, n mod 256 ^ 8 = m mod 256 ^ 8 → le_encode 8 m = le_encode 8 n).
  { intros m Hm. rewrite <- (le_encode_length 8 n) at 1.
    apply le_encode_value; [apply le_encode_range|].
    unfold vlen. by rewrite le_value_encode, le_encode_length. }
  apply Hm. unfold as_u64. change (256 ^ 8) with two64. by rewrite Zmod_mod.
Qed.

(** ** The two encoding paths *)

Lemma fill_bytes_encode src n fill len :
  le_encode (length src) n = src →
  (∀ i, (length src ≤ i)%nat → n / 256 ^ Z.of_nat i mod 256 = fill) →
  fill_bytes src (length src) fill (zero_bytes len) = Ok (le_encode (Z.to_nat len) n).
Proof.
  intros Hsrc Hfill. unfold fill_bytes, zero_bytes, enumerate. rewrite length_replicate.
  rewrite (mapM_pure _ (λ x : nat * Z, n / 256 ^ Z.of_nat x.1 mod 256)).
  - f_equal. apply list_eq. intros i. rewrite list_lookup_fmap.
    destruct (decide (i < Z.to_nat len)%nat).
    + rewrite lookup_zip_with, lookup_seq_lt, lookup_replicate_2, le_encode_lookup by lia. done.
    + rewrite (lookup_ge_None_2 (le_encode _ _)) by (rewrite le_encode_length; lia).
      rewrite lookup_ge_None_2; [done|]. rewrite length_zip_with, length_seq. lia.
  - intros x _. destruct (Nat.ltb_spec x.1 (length src)); [|by rewrite Hfill].
    apply vnth_lookup. rewrite <- Hsrc at 1. by apply le_encode_lookup.
Qed.

Lemma i64_fits_signed_spec n len :
  0 < len < 8 → i64_fits_signed n len = bool_decide (fits_bytes true len n).
Proof.
  intros Hlen. unfold i64_fits_signed. rewrite Z.shiftl_1_l.
  assert (Hp : 256 ^ len = 2 * 2 ^ (8 * len - 1)).
  { change 256 with (2 ^ 8). rewrite <- Z.pow_mul_r, <- Z.pow_succ_r by lia. f_equal. lia. }
  rewrite as_i64_id.
  - assert (Hf : fits_bytes true len n ↔ - (2 * 2 ^ (8 * len - 1)) ≤ 2 * n < 2 * 2 ^ (8 * len - 1))
      by (unfold fits_bytes; by rewrite Hp).
    rewrite (bool_decide_ext _ _ Hf). generalize (2 ^ (8 * len - 1)). intros p.
    destruct (Z.ltb_spec (p - 1) n), (Z.ltb_spec n (- p)); cbn; symmetry;
      rewrite ?bool_decide_eq_true, ?bool_decide_eq_false; lia.
  - unfold i64_range. assert (2 ^ (8 * len - 1) < 2 ^ 63) by (apply Z.pow_lt_mono_r; lia). lia.
Qed.

Lemma fits_monotone signed len len' n :
  0 ≤ len ≤ len' → fits_bytes signed len n → fits_bytes signed len' n.
Proof.
  intros Hl. assert (256 ^ len ≤ 256 ^ len') by (apply Z.pow_le_mono_r; lia).
  unfold fits_bytes. destruct signed; lia.
Qed.

Lemma int_encode_zero len big_endian signed :
  0 ≤ len → int_encode 0 len big_endian signed = Return (zero_bytes len).
Proof.
  intros Hlen. unfold int_encode, zero_bytes. rewrite decide_True.
  - assert (He : ∀ k, le_encode k 0 = replicate k 0).
    { induction k as [|k IH]; [done|]. cbn [le_encode replicate]. by rewrite <- IH. }
    rewrite He. destruct big_endian; [|done]. cbn. by rewrite reverse_replicate.
  - assert (0 < 256 ^ len) by (apply Z.pow_pos_nonneg; lia). unfold fits_bytes. destruct signed; lia.
Qed.

(** The test of the unsigned branch. *)
Lemma i64_fits_unsigned n len :
  0 ≤ n < 2 ^ 63 → 0 ≤ len → n ≠ 0 →
  (len =? 0) || ((len <? 8) && (as_u64 (Z.shiftl 1 (8 * len)) <=? n)) =
  negb (bool_decide (fits_bytes false len n)).
Proof.
  intros Hn Hlen Hz. unfold fits_bytes. rewrite Z.shiftl_1_l.
  replace (2 ^ (8 * len)) with (256 ^ len) by (rewrite Z.pow_mul_r by lia; done).
  destruct (Z.eqb_spec len 0) as [->|]; cbn [orb].
  { rewrite bool_decide_false; [done|]. rewrite Z.pow_0_r. lia. }
  destruct (Z.ltb_spec len 8); cbn [andb].
  - assert (256 ^ len < two64) by (apply (Z.pow_lt_mono_r 256 len 8); lia).
    unfold as_u64. rewrite Z.mod_small by (pose proof (Z.pow_nonneg 256 len); lia).
    destruct (Z.leb_spec (256 ^ len) n); [rewrite bool_decide_false|rewrite bool_decide_true]; lia || done.
  - assert (256 ^ 8 ≤ 256 ^ len) by (apply Z.pow_le_mono_r; lia).
    rewrite bool_decide_true; [done|]. change (256 ^ 8) with (2 ^ 64) in *. lia.
Qed.

Lemma i64_bytes_fill n len fill :
  i64_range n → fill = (if n <? 0 then 255 else 0) →
  fill_bytes (to_le_bytes (as_u64 n)) 8 fill (zero_bytes len) = Ok (le_encode (Z.to_nat len) n).
Proof.
  intros Hn ->. rewrite to_le_bytes_encode, le_encode_as_u64 by apply as_u64_range.
  apply (fill_bytes_encode (le_encode 8 n)); [done|]. intros i Hi.
  apply (sign_extension n 8); [done|]. change (256 ^ Z.of_nat 8) with (2 ^ 64). unfold i64_range in Hn. lia.
Qed.

Lemma int_i64_to_bytes_spec n len big_endian signed :
  i64_range n → 0 ≤ len → int_i64_to_bytes n len big_endian signed = int_encode n len big_endian signed.
Proof.
  intros Hn Hlen. unfold int_i64_to_bytes.
  destruct (Z.eqb_spec n 0) as [->|Hz]; [by destruct signed; cbn; rewrite int_encode_zero|].
  unfold int_encode. destruct signed; cbn [negb andb].
  - rewrite (i64_bytes_fill n len _ Hn eq_refl). destruct (Z.eqb_spec len 0) as [->|].
    { rewrite decide_False; [done|]. unfold fits_bytes. rewrite Z.pow_0_r. lia. }
    destruct (Z.ltb_spec len 8); cbn [andb].
    + rewrite i64_fits_signed_spec by lia. by case_bool_decide; case_decide.
    + rewrite decide_True; [done|]. apply (fits_monotone true 8); [lia|].
      unfold fits_bytes. change (256 ^ 8) with (2 * 2 ^ 63). unfold i64_range in Hn. lia.
  - destruct (Z.ltb_spec n 0).
    { rewrite decide_False; [done|]. unfold fits_bytes. lia. }
    assert (Hu : as_u64 n = n).
    { unfold as_u64, two64. apply Z.mod_small. unfold i64_range in Hn. lia. }
    assert (Hf := i64_bytes_fill n len 0 Hn). rewrite Hu in *.
    rewrite Hf by (by destruct (Z.ltb_spec n 0); [lia|]).
    rewrite i64_fits_unsigned by (unfold i64_range in Hn; lia). by case_bool_decide; case_decide.
Qed.

Section big_paths.
Context {B : Type} `{BigInt B} `{!BigIntLaws B} `{BigIntBytes B} `{!BigIntBytesLaws B}.

(** The shortest representation decides whether a number fits. *)
Lemma unsigned_fits (n : B) len :
  0 < bi_Z n → 0 ≤ len → (len <? vlen (bi_to_bytes_le n)) = negb (bool_decide (fits_bytes false len (bi_Z n))).
Proof.
  intros Hn Hlen. assert (Hv := bi_to_bytes_value n). rewrite Z.abs_eq in Hv by lia.
  pose proof (le_value_range _ (bi_to_bytes_range n)).
  destruct (Z.ltb_spec len (vlen (bi_to_bytes_le n))) as [Hl|Hl].
  - rewrite bool_decide_false; [done|]. intros Hfit. unfold fits_bytes in Hfit.
    assert (Hs : vlen (bi_to_bytes_le n) ≤ vlen (le_encode (Z.to_nat len) (bi_Z n))).
    { apply bi_to_bytes_shortest; [lia|apply le_encode_range|].
      rewrite le_value_encode, Z2Nat.id, Z.mod_small; lia. }
    unfold vlen in Hs at 2. rewrite le_encode_length in Hs. lia.
  - rewrite bool_decide_true; [done|]. unfold fits_bytes. rewrite Hv in *.
    assert (256 ^ vlen (bi_to_bytes_le n) ≤ 256 ^ len) by (apply Z.pow_le_mono_r; lia). lia.
Qed.

Lemma signed_fits (n : B) len :
  bi_Z n ≠ 0 → 0 ≤ len →
  (len <? vlen (bi_to_signed_bytes_le n)) = negb (bool_decide (fits_bytes true len (bi_Z n))).
Proof.
  intros Hn Hlen. assert (Hv := bi_to_signed_bytes_value n).
  destruct (le_signed_spec _ (bi_to_signed_bytes_range n)) as [Hr _]. rewrite Hv in Hr.
  destruct (Z.ltb_spec len (vlen (bi_to_signed_bytes_le n))) as [Hl|Hl].
  - rewrite bool_decide_false; [done|]. intros Hfit. unfold fits_bytes in Hfit.
    assert (Hs : vlen (bi_to_signed_bytes_le n) ≤ vlen (le_encode (Z.to_nat len) (bi_Z n))).
    { apply bi_to_signed_bytes_shortest; [done|apply le_encode_range|].
      apply le_signed_encode. rewrite Z2Nat.id; lia. }
    unfold vlen in Hs at 2. rewrite le_encode_length in Hs. lia.
  - rewrite bool_decide_true; [done|]. apply (fits_monotone true (vlen (bi_to_signed_bytes_le n))); [|done].
    pose proof (vlen_nonneg (bi_to_signed_bytes_le n)). lia.
Qed.

Lemma unsigned_fill (n : B) len :
  0 ≤ bi_Z n →
  fill_bytes (bi_to_bytes_le n) (length (bi_to_bytes_le n)) 0 (zero_bytes len) =
  Ok (le_encode (Z.to_nat len) (bi_Z n)).
Proof.
  intros Hn. assert (Hv := bi_to_bytes_value n). rewrite Z.abs_eq in Hv by lia.
  pose proof (le_value_range _ (bi_to_bytes_range n)).
  apply fill_bytes_encode.
  - apply le_encode_value; [apply bi_to_bytes_range|]. rewrite Z.mod_small; lia.
  - intros i Hi. rewrite (sign_extension _ (length (bi_to_bytes_le n))) by (done || (fold (vlen (bi_to_bytes_le n)); lia)).
    destruct (Z.ltb_spec (bi_Z n) 0); [lia|done].
Qed.

Lemma signed_fill (n : B) len :
  fill_bytes (bi_to_signed_bytes_le n) (length (bi_to_signed_bytes_le n))
    (if bi_Z n <? 0 then 255 else 0) (zero_bytes len) = Ok (le_encode (Z.to_nat len) (bi_Z n)).
Proof.
  assert (Hv := bi_to_signed_bytes_value n).
  destruct (le_signed_spec _ (bi_to_signed_bytes_range n)) as [Hr Hm]. rewrite Hv in *.
  apply fill_bytes_encode.
  - by apply le_encode_value; [apply bi_to_signed_bytes_range|].
  - intros i Hi. apply (sign_extension _ (length (bi_to_signed_bytes_le n))); [done|].
    fold (vlen (bi_to_signed_bytes_le n)). lia.
Qed.

Lemma bigint_to_bytes_spec (n : B) len big_endian signed :
  0 ≤ len → bigint_to_bytes n len big_endian signed = int_encode (bi_Z n) len big_endian signed.
Proof.
  intros Hlen. unfold bigint_to_bytes.
  destruct (Z.eqb_spec (bi_Z n) 0) as [Hz|Hz].
  { rewrite Hz. destruct signed; cbn; by rewrite int_encode_zero. }
  unfold int_encode. destruct signed; cbn [negb andb].
  - rewrite signed_fits, signed_fill by done. by case_bool_decide; case_decide.
  - destruct (Z.ltb_spec (bi_Z n) 0).
    { rewrite decide_False; [done|]. unfold fits_bytes. lia. }
    rewrite unsigned_fits, unsigned_fill by lia. by case_bool_decide; case_decide.
Qed.

(** ** Decoding *)

Lemma bytes_to_bigint_spec data big_endian signed :
  Forall byte_range data →
  bi_Z (bytes_to_bigint (B := B) data big_endian signed) = int_decode data big_endian signed.
Proof.
  intros Hd. unfold bytes_to_bigint, int_decode.
  destruct signed, big_endian; cbn [byte_order];
    auto using bi_from_signed_bytes_be_Z, bi_from_signed_bytes_le_Z, bi_from_bytes_be_Z, bi_from_bytes_le_Z.
Qed.

Lemma byte_order_involutive big_endian bs : byte_order big_endian (byte_order big_endian bs) = bs.
Proof. destruct big_endian; cbn; [apply reverse_involutive|done]. Qed.

Lemma byte_order_length big_endian bs : length (byte_order big_endian bs) = length bs.
Proof. destruct big_endian; cbn; [apply length_reverse|done]. Qed.

Lemma byte_order_range big_endian bs : Forall byte_range bs → Forall byte_range (byte_order big_endian bs).
Proof. destruct big_endian; cbn; [by apply Forall_reverse|done]. Qed.

Lemma int_decode_encode n len big_endian signed :
  0 ≤ len → fits_bytes signed len n →
  int_decode (byte_order big_endian (le_encode (Z.to_nat len) n)) big_endian signed = n.
Proof.
  intros Hlen Hfit. unfold int_decode, fits_bytes in *. rewrite byte_order_involutive.
  destruct signed.
  - apply le_signed_encode. by rewrite Z2Nat.id.
  - by rewrite le_value_encode, Z2Nat.id, Z.mod_small.
Qed.

Lemma int_encode_decode data big_endian signed :
  Forall byte_range data →
  int_encode (int_decode data big_endian signed) (vlen data) big_endian signed = Return data.
Proof.
  intros Hd. assert (Hb := byte_order_range big_endian _ Hd).
  assert (Hl : vlen (byte_order big_endian data) = vlen data) by (unfold vlen; by rewrite byte_order_length).
  pose proof (le_value_range _ Hb). destruct (le_signed_spec _ Hb) as [Hr Hm].
  unfold int_encode. rewrite decide_True by (unfold fits_bytes, int_decode; rewrite <- Hl; by destruct signed).
  f_equal. rewrite <- (byte_order_involutive big_endian data) at 3. f_equal.
  unfold vlen. rewrite Nat2Z.id, <- (byte_order_length big_endian data).
  apply le_encode_value; [done|]. unfold int_decode. destruct signed; [done|]. by apply Z.mod_small.
Qed.
End big_paths.

(** ** Calls *)

(** A call that neither panics nor outlasts its fuel. *)
Definition defined {A} (m : outcome A) : Prop :=
  match m with Return _ | Raise _ => True | Panicked | OutOfFuel => False end.

Lemma defined_bind {A C} (m : outcome A) (f : A → outcome C) :
  defined m → (∀ a, m = Return a → defined (f a)) → defined (m ≫= f).
Proof. destruct m; cbn; auto. Qed.

Lemma defined_ofold {A S} (f : S → A → outcome S) s l :
  (∀ s x, defined (f s x)) → defined (ofold f s l).
Proof.
  intros Hf. revert s. induction l as [|x l IH]; intros s; [done|]. by apply defined_bind; auto.
Qed.

Section calls.
Context {B : Type} `{BigInt B} `{!BigIntLaws B} `{BigIntBytes B} `{!BigIntBytesLaws B}.
Implicit Types (v : Value B) (args : list (Value B)) (kw : list (kw_name * Value B)).

Definition order_value (big_endian : bool) : Value B :=
  VStr (if big_endian then "big" else "little")%string.
Definition signed_kw (signed : bool) : kw_name * Value B := (KwStr (Some "signed"%string), VBool signed).

Lemma bind_two f first a b signed :
  first ≠ "signed"%string →
  bind_arguments f first [a; b] [signed_kw signed] = Return (Some a, Some b, Some (VBool signed)).
Proof. intros Hf. unfold bind_arguments. cbn. by rewrite decide_False. Qed.

Lemma parse_order f big_endian : parse_byteorder f (Some (order_value big_endian)) = Return big_endian.
Proof. by destruct big_endian. Qed.

Lemma int_to_bytes_call v n len big_endian signed :
  value_wf v → int_value v = Some n → 0 ≤ len →
  int_to_bytes v [VInt len; order_value big_endian] [signed_kw signed] =
  VBytes <$> int_encode n len big_endian signed.
Proof.
  intros Hwf Hv Hlen. unfold int_to_bytes. rewrite bind_two by done. cbn [mbind outcome_bind].
  cbn [parse_length]. destruct (Z.ltb_spec len 0); [lia|]. cbn [mbind outcome_bind].
  rewrite parse_order. cbn [mbind outcome_bind parse_signed].
  destruct v as [|b|i|i| | | | |]; cbn in Hv; simplify_eq; f_equal.
  - apply int_i64_to_bytes_spec; [|done]. destruct b; done.
  - by apply int_i64_to_bytes_spec.
  - by apply bigint_to_bytes_spec.
Qed.

Lemma int_from_bytes_call data big_endian signed :
  Forall byte_range data →
  ∃ v, int_from_bytes [VBytes data; order_value big_endian] [signed_kw signed] = Return v ∧
    value_wf v ∧ int_value v = Some (int_decode data big_endian signed).
Proof.
  intros Hd. unfold int_from_bytes. rewrite bind_two by done. cbn [mbind outcome_bind].
  rewrite parse_order. cbn [mbind outcome_bind parse_signed]. destruct data as [|b data].
  { eexists. split; [done|]. by destruct signed, big_endian. }
  eexists. split; [done|].
  destruct (value_from_bigint_spec (bytes_to_bigint (B := B) (b :: data) big_endian signed)) as (Hwf & Hv).
  split_and!; [done..|]. by rewrite Hv, bytes_to_bigint_spec.
Qed.

(** Binding by position and by name is the same. *)
Lemma bind_by_name f first a b kw :
  first ≠ "byteorder"%string →
  bind_arguments f first [a; b] kw =
  bind_arguments f first [] ((KwStr (Some first), a) :: (KwStr (Some "byteorder"%string), b) :: kw).
Proof.
  intros Hf. unfold bind_arguments. cbn. rewrite (decide_True (P := first = first)) by done. cbn.
  by rewrite decide_False.
Qed.

Lemma parse_length_nonneg (o : option (Value B)) n : parse_length o = Return n → 0 ≤ n.
Proof.
  destruct o as [[]|]; cbn; try done; [| |by intros [= <-]].
  - intros [= <-]. by destruct b.
  - destruct (Z.ltb_spec n0 0); [done|]. by intros [= <-].
Qed.

Lemma keyword_step_defined f first locals kv : defined (keyword_step (B := B) f first locals kv).
Proof.
  destruct locals as [[first_val byteorder_val] signed_val], kv as [[s|] v]; [|done]. cbn.
  repeat case_decide; destruct first_val, byteorder_val; done.
Qed.

Lemma bind_arguments_defined f first args kw : defined (bind_arguments f first args kw).
Proof.
  unfold bind_arguments. case_match; [done|]. apply defined_ofold. intros. apply keyword_step_defined.
Qed.

Lemma parse_defined f (o : option (Value B)) :
  defined (parse_length o) ∧ defined (parse_byteorder f o) ∧ defined (parse_signed f o).
Proof.
  destruct o as [[]|]; cbn; split_and?; try done; repeat case_match; done.
Qed.

Lemma int_encode_defined n len big_endian signed : defined (int_encode n len big_endian signed).
Proof. unfold int_encode. by case_decide. Qed.

Lemma int_to_bytes_defined v args kw : value_wf v → defined (int_to_bytes v args kw).
Proof.
  intros Hwf. unfold int_to_bytes.
  apply defined_bind; [apply bind_arguments_defined|]. intros [[length_val byteorder_val] signed_val] _.
  apply defined_bind; [apply (parse_defined EmptyString)|]. intros len Hlen%parse_length_nonneg.
  apply defined_bind; [apply parse_defined|]. intros big_endian _.
  apply defined_bind; [apply parse_defined|]. intros signed _.
  destruct v as [|b|n|n| | | | |]; try done; unfold fmap, outcome_fmap; apply defined_bind; try done.
  - rewrite int_i64_to_bytes_spec by (done || by destruct b). apply int_encode_defined.
  - rewrite int_i64_to_bytes_spec by done. apply int_encode_defined.
  - rewrite bigint_to_bytes_spec by done. apply int_encode_defined.
Qed.

Lemma int_from_bytes_defined args kw : defined (int_from_bytes args kw).
Proof.
  unfold int_from_bytes.
  apply defined_bind; [apply bind_arguments_defined|]. intros [[bytes_val byteorder_val] signed_val] _.
  apply defined_bind; [by destruct bytes_val|]. intros bytes_v _.
  apply defined_bind; [by destruct bytes_v|]. intros data _.
  apply defined_bind; [apply parse_defined|]. intros big_endian _.
  apply defined_bind; [apply parse_defined|]. intros signed _. by destruct data.
Qed.
End calls.
