(* ===== verification/IntArith.v ===== *)
(** Integer arithmetic of the interpreter: the numeric slots behind the binary
    operators (crates/pyrust/src/interpreter/runtime/expr/numeric_slots.rs),
    their helpers in interpreter/helpers, and the fast path of the virtual
    machine (runtime/fast_path/binary_support.rs, [int_int_fast]). *)

From S2P Require Import Outcome Prelude Double Keys.

(** The arithmetic of num-bigint, by its documentation: exact integers,
    division truncated towards zero, shifts that round down, bit operations in
    two's complement. *)
Class BigIntArith (B : Type) := {
  bi_add : B → B → B;
  bi_sub : B → B → B;
  bi_mul : B → B → B;
  bi_quot : B → B → B;
  bi_pow : B → Z → B;
  bi_and : B → B → B;
  bi_or : B → B → B;
  bi_xor : B → B → B;
  bi_shl : B → Z → B;
  bi_shr : B → Z → B;
  bi_neg : B → B;
  bi_bits : B → Z;                      (* of the magnitude; 0 for zero *)
  bi_to_u64_digits : B → list Z;        (* of the magnitude *)
  bi_to_f64 : B → option f64;
}.

Class BigIntArithLaws (B : Type) `{BigInt B} `{BigIntArith B} : Prop := {
  bi_add_Z a b : bi_Z (bi_add a b) = bi_Z a + bi_Z b;
  bi_sub_Z a b : bi_Z (bi_sub a b) = bi_Z a - bi_Z b;
  bi_mul_Z a b : bi_Z (bi_mul a b) = bi_Z a * bi_Z b;
  bi_quot_Z a b : bi_Z b ≠ 0 → bi_Z (bi_quot a b) = Z.quot (bi_Z a) (bi_Z b);
  bi_pow_Z a n : 0 ≤ n → bi_Z (bi_pow a n) = bi_Z a ^ n;
  bi_and_Z a b : bi_Z (bi_and a b) = Z.land (bi_Z a) (bi_Z b);
  bi_or_Z a b : bi_Z (bi_or a b) = Z.lor (bi_Z a) (bi_Z b);
  bi_xor_Z a b : bi_Z (bi_xor a b) = Z.lxor (bi_Z a) (bi_Z b);
  bi_shl_Z a n : 0 ≤ n → bi_Z (bi_shl a n) = Z.shiftl (bi_Z a) n;
  bi_shr_Z a n : 0 ≤ n → bi_Z (bi_shr a n) = Z.shiftr (bi_Z a) n;
  bi_neg_Z a : bi_Z (bi_neg a) = - bi_Z a;
  bi_bits_Z a : bi_bits a = if bi_Z a =? 0 then 0 else Z.log2 (Z.abs (bi_Z a)) + 1;
  bi_digits_zero n : bi_Z n = 0 → bi_to_u64_digits n = [];
  bi_digits_one n : 0 < bi_Z n < two64 → bi_to_u64_digits n = [bi_Z n];
  bi_digits_many n : two64 ≤ bi_Z n → (2 ≤ length (bi_to_u64_digits n))%nat;
}.

Inductive BinaryOp : Type :=
  | Add | Sub | Mul | MatMul | Div | FloorDiv | Mod | Pow
  | BitAnd | BitOr | BitXor | LShift | RShift
  | OpEq | Ne | OpLt | Le | OpGt | Ge | And | Or | In | NotIn | Is | IsNot.

Definition ZeroDivisionError (message : string) : PyError := Named "ZeroDivisionError" message.

(** ** Helpers on machine integers *)

(** [a.wrapping_rem(b)], which panics on a zero divisor. *)
Definition wrapping_rem (a b : Z) : res Z := if b =? 0 then Panic else Ok (Z.rem a b).

Definition py_mod_i64 (a b : Z) : res Z :=
  remainder ← wrapping_rem a b;
  if ((0 <? remainder) && (b <? 0)) || ((remainder <? 0) && (0 <? b)) then
    i64_exact (remainder + b)
  else Ok remainder.

(** [a.checked_div(b)] *)
Definition i64_checked_div (a b : Z) : option Z :=
  if b =? 0 then None else i64_checked (Z.quot a b).

(** [a.wrapping_shl(n)] and [a.wrapping_shr(n)] with a count below 64. *)
Definition i64_wrapping_shl (a n : Z) : Z := as_i64 (Z.shiftl a n).
Definition i64_shr (a n : Z) : Z := Z.shiftr a n.

Section arith.
Context {B : Type} `{BigInt B} `{BigIntArith B} `{Libm}.
Implicit Types (v lhs rhs : Value B).

Definition bigint_divmod_floor (a b : B) : res (B * B) :=
  if bi_Z b =? 0 then Panic
  else
    let q := bi_quot a b in
    let r := bi_rem a b in
    Ok (if negb (bi_Z r =? 0) && negb (Z.sgn (bi_Z r) =? Z.sgn (bi_Z b))
        then (bi_sub q (bi_from_i64 1), bi_add r b)
        else (q, r)).

Definition int_pow_promoting (a b : Z) : outcome (Value B) :=
  _ ← lift (rassert (0 <=? b));
  Return (if b <? 2 ^ 32 then
            match i64_checked (a ^ b) with
            | Some r => VInt r
            | None => value_bigint (bi_pow (bi_from_i64 a) b)
            end
          else value_bigint (bi_pow (bi_from_i64 a) b)).

Definition value_to_bigint v : option B :=
  match v with
  | VInt n => Some (bi_from_i64 n)
  | VBigInt b => Some b
  | VBool b => Some (bi_from_i64 (bool_int b))
  | _ => None
  end.

Definition bigint_to_float_or_overflow (b : B) : outcome f64 :=
  match bi_to_f64 b with
  | Some f => if d_is_finite f then Return f
              else Raise (OverflowError "int too large to convert to float")
  | None => Raise (OverflowError "int too large to convert to float")
  end.

(** ** Numeric slots *)

Inductive NumericSlot : Type :=
  | SInt (n : Z)
  | SFloat (f : f64)
  | SBigInt (b : B).

Definition numeric_slot v : option NumericSlot :=
  match v with
  | VInt n => Some (SInt n)
  | VBool b => Some (SInt (bool_int b))
  | VFloat f => Some (SFloat f)
  | VBigInt b => Some (SBigInt b)
  | _ => None
  end.

Definition slot_to_float (s : NumericSlot) : outcome f64 :=
  match s with
  | SInt n => Return (d_of_int n)
  | SFloat f => Return f
  | SBigInt b => bigint_to_float_or_overflow b
  end.

(** The [unreachable!] of a float slot is a panic. *)
Definition slot_to_bigint (s : NumericSlot) : res B :=
  match s with
  | SInt n => Ok (bi_from_i64 n)
  | SBigInt b => Ok b
  | SFloat _ => Panic
  end.

Definition collapse_bigint v : Value B :=
  match v with
  | VBigInt b => match bi_to_i64 b with Some n => VInt n | None => v end
  | _ => v
  end.

(** The common shape of [nb_add], [nb_sub] and [nb_mul]: [checked] is the
    checked machine operation, [exact] and [float] the other two. *)
Definition nb_linear (checked : Z → Z → option Z) (exact : B → B → B) (float : f64 → f64 → f64)
    (self r : NumericSlot) : outcome (Value B) :=
  match self, r with
  | SInt a, SInt b =>
      Return (match checked a b with
              | Some s => VInt s
              | None => value_bigint (exact (bi_from_i64 a) (bi_from_i64 b))
              end)
  | SInt a, SFloat b => Return (VFloat (float (d_of_int a) b))
  | SFloat a, SInt b => Return (VFloat (float a (d_of_int b)))
  | SFloat a, SFloat b => Return (VFloat (float a b))
  | SBigInt a, SBigInt b => Return (value_bigint (exact a b))
  | SBigInt a, SInt b => Return (value_bigint (exact a (bi_from_i64 b)))
  | SInt a, SBigInt b => Return (value_bigint (exact (bi_from_i64 a) b))
  | SBigInt a, SFloat b => a ← bigint_to_float_or_overflow a; Return (VFloat (float a b))
  | SFloat a, SBigInt b => b ← bigint_to_float_or_overflow b; Return (VFloat (float a b))
  end.

Definition nb_add (self : NumericSlot) rhs : option (outcome (Value B)) :=
  nb_linear (λ a b, i64_checked (a + b)) bi_add d_add self <$> numeric_slot rhs.
Definition nb_sub (self : NumericSlot) rhs : option (outcome (Value B)) :=
  nb_linear (λ a b, i64_checked (a - b)) bi_sub d_sub self <$> numeric_slot rhs.
Definition nb_mul (self : NumericSlot) rhs : option (outcome (Value B)) :=
  nb_linear (λ a b, i64_checked (a * b)) bi_mul d_mul self <$> numeric_slot rhs.

(** ** True division *)

Definition STEP : Z := 512.

(** The two loops that bring the exponent within [STEP] of zero. *)
Fixpoint ldexp_steps (fuel : nat) (m : f64) (exp : Z) : res (f64 * Z) :=
  match fuel with
  | O => Diverge
  | S fuel =>
      if STEP <? exp then ldexp_steps fuel (d_mul m (d_round 1 STEP false)) (exp - STEP)
      else if exp <? - STEP then ldexp_steps fuel (d_div m (d_round 1 STEP false)) (exp + STEP)
      else Ok (m, exp)
  end.

Definition ldexp_f64 (m : f64) (exp : Z) : res f64 :=
  if d_eqb m (d_zero false) || negb (d_is_finite m) then Ok m
  else
    '(m, exp) ← ldexp_steps (Z.to_nat (Z.abs exp / STEP) + 1) m exp;
    Ok (d_mul m (d_round 1 exp false)).

Definition magnitude (b : B) : B := if bi_Z b <? 0 then bi_neg b else b.

Definition MANT_DIG : Z := 53.
Definition MIN_EXP : Z := -1021.
Definition MAX_EXP : Z := 1024.
Definition SUBNORMAL_LSB : Z := MIN_EXP - MANT_DIG.

(** The quotient of two magnitudes, truncated at the exponent [shift], and
    whether anything was cut off. *)
Definition scaled_quotient (a b : B) (shift : Z) : B * bool :=
  if shift <=? 0 then
    let scaled := bi_shl a (- shift) in
    (bi_quot scaled b, negb (bi_Z (bi_rem scaled b) =? 0))
  else
    let scaled_b := bi_shl b shift in
    (bi_quot a scaled_b, negb (bi_Z (bi_rem a scaled_b) =? 0)).

(** Drop the low bits of [x], rounding half to even. *)
Definition round_bits (x : B) (drop : Z) (inexact : bool) : B :=
  let low := bi_and x (bi_sub (bi_shl (bi_from_i64 1) drop) (bi_from_i64 1)) in
  let x := bi_shr x drop in
  let half := bi_shl (bi_from_i64 1) (drop - 1) in
  let round_up :=
    (bi_Z half <? bi_Z low)
    || ((bi_Z low =? bi_Z half) && ((bi_Z (bi_and x (bi_from_i64 1)) =? 1) || inexact)) in
  if round_up then bi_add x (bi_from_i64 1) else x.

Definition division_overflow : PyError :=
  OverflowError "integer division result too large for a float".

Definition bigint_true_divide (num den : B) : outcome f64 :=
  if bi_Z den =? 0 then Raise (ZeroDivisionError "division by zero")
  else
    let negate := xorb (bi_Z num <? 0) (bi_Z den <? 0) in
    if bi_Z num =? 0 then Return (d_zero negate)
    else
      let a := magnitude num in
      let b := magnitude den in
      let diff := bi_bits a - bi_bits b in
      if MAX_EXP <? diff then Raise division_overflow
      else if diff <? SUBNORMAL_LSB - 1 then Return (d_zero negate)
      else
        let l0 := Z.max ((diff - 1) - (MANT_DIG - 1)) SUBNORMAL_LSB in
        let shift := l0 - 2 in
        let '(x, inexact) := scaled_quotient a b shift in
        if bi_Z x =? 0 then Return (d_zero negate)
        else
          let e := (bi_bits x - 1) + shift in
          let l := Z.max (e - (MANT_DIG - 1)) SUBNORMAL_LSB in
          let drop := l - shift in
          let x := round_bits x drop inexact in
          match bi_to_f64 x with
          | Some mantissa =>
              if d_is_finite mantissa then
                result ← lift (ldexp_f64 mantissa l);
                if d_is_finite result then Return (if negate then d_neg result else result)
                else Raise division_overflow
              else Raise division_overflow
          | None => Raise division_overflow
          end.

Definition nb_div_slots (self r : NumericSlot) : outcome (Value B) :=
  match self, r with
  | SInt a, SInt b =>
      if b =? 0 then Raise (ZeroDivisionError "division by zero")
      else if (Z.abs a <? Z.shiftl 1 53) && (Z.abs b <? Z.shiftl 1 53) then
        Return (VFloat (d_div (d_of_int a) (d_of_int b)))
      else VFloat <$> bigint_true_divide (bi_from_i64 a) (bi_from_i64 b)
  | SInt _, SBigInt _ | SBigInt _, SInt _ | SBigInt _, SBigInt _ =>
      a ← lift (slot_to_bigint self);
      b ← lift (slot_to_bigint r);
      VFloat <$> bigint_true_divide a b
  | _, _ =>
      a ← slot_to_float self;
      b ← slot_to_float r;
      if d_eqb b (d_zero false) then Raise (ZeroDivisionError "float division by zero")
      else Return (VFloat (d_div a b))
  end.

Definition nb_div (self : NumericSlot) rhs : option (outcome (Value B)) :=
  nb_div_slots self <$> numeric_slot rhs.

(** ** Floor division and modulo *)

Definition float_divmod (a b : f64) : f64 * f64 :=
  let mod_ := d_rem a b in
  let div := d_div (d_sub a mod_) b in
  let '(mod_, div) :=
    if negb (d_eqb mod_ (d_zero false)) then
      if negb (eqb (d_ltb b (d_zero false)) (d_ltb mod_ (d_zero false))) then
        (d_add mod_ b, d_sub div d_one)
      else (mod_, div)
    else (d_copysign (d_zero false) b, div) in
  let floordiv :=
    if negb (d_eqb div (d_zero false)) then
      let fl := d_floor div in
      if d_ltb d_half (d_sub div fl) then d_add fl d_one else fl
    else d_copysign (d_zero false) (d_div a b) in
  (floordiv, mod_).

Definition nb_floordiv_slots (self r : NumericSlot) : outcome (Value B) :=
  match self, r with
  | SInt a, SInt b =>
      if b =? 0 then Raise (ZeroDivisionError "integer division or modulo by zero")
      else
        modulo ← lift (py_mod_i64 a b);
        match i64_checked (a - modulo) ≫= λ a_adj, i64_checked_div a_adj b with
        | Some q => Return (VInt q)
        | None =>
            '(q, _) ← lift (bigint_divmod_floor (bi_from_i64 a) (bi_from_i64 b));
            Return (value_bigint q)
        end
  | SBigInt _, SInt _ | SBigInt _, SBigInt _ | SInt _, SBigInt _ =>
      a ← lift (slot_to_bigint self);
      b ← lift (slot_to_bigint r);
      if bi_Z b =? 0 then Raise (ZeroDivisionError "integer division or modulo by zero")
      else '(q, _) ← lift (bigint_divmod_floor a b); Return (value_bigint q)
  | _, _ =>
      a ← slot_to_float self;
      b ← slot_to_float r;
      if d_eqb b (d_zero false) then Raise (ZeroDivisionError "float floor division by zero")
      else Return (VFloat (float_divmod a b).1)
  end.

Definition nb_floordiv (self : NumericSlot) rhs : option (outcome (Value B)) :=
  nb_floordiv_slots self <$> numeric_slot rhs.

(** The remainder of [float_rem]. *)
Definition float_rem (a b : f64) : f64 :=
  let rem := d_rem a b in
  if d_eqb rem (d_zero false) then d_copysign rem b
  else if negb (d_eqb (d_signum rem) (d_signum b)) then d_add rem b
  else rem.

Definition nb_mod_slots (self r : NumericSlot) : outcome (Value B) :=
  match self, r with
  | SInt a, SInt b =>
      if b =? 0 then Raise (ZeroDivisionError "integer modulo by zero")
      else VInt <$> lift (py_mod_i64 a b)
  | SBigInt _, SInt _ | SBigInt _, SBigInt _ | SInt _, SBigInt _ =>
      a ← lift (slot_to_bigint self);
      b ← lift (slot_to_bigint r);
      if bi_Z b =? 0 then Raise (ZeroDivisionError "integer modulo by zero")
      else '(_, rem) ← lift (bigint_divmod_floor a b); Return (value_bigint rem)
  | _, _ =>
      a ← slot_to_float self;
      b ← slot_to_float r;
      if d_eqb b (d_zero false) then Raise (ZeroDivisionError "float modulo")
      else Return (VFloat (float_rem a b))
  end.

Definition nb_mod (self : NumericSlot) rhs : option (outcome (Value B)) :=
  nb_mod_slots self <$> numeric_slot rhs.

(** ** Power *)

Definition PI : f64 := d_round 7074237752028440 (-51) false.

Definition float_pow (a b : f64) : outcome (Value B) :=
  if d_eqb a (d_zero false) && d_ltb b (d_zero false) && d_is_finite b then
    Raise (ZeroDivisionError "0.0 cannot be raised to a negative power")
  else
    let result := powf a b in
    if d_ltb a (d_zero false) && d_is_nan result then
      let abs_val := powf (d_abs a) b in
      let angle := d_mul PI b in
      Return (VComplex (d_mul abs_val (d_cos angle)) (d_mul abs_val (d_sin angle)))
    else Return (VFloat result).

(** The exponent [b] of an integer power, by its base-2^64 digits. *)
Definition big_exponent_pow (a : B) (b : B) : outcome (Value B) :=
  match bi_to_u64_digits b with
  | [exp] => Return (value_bigint (bi_pow a exp))
  | [] => Return (VInt 1)
  | _ => Raise (OverflowError "exponent too large for ** to compute")
  end.

Definition nb_pow_slots (self r : NumericSlot) : outcome (Value B) :=
  let floats :=
    a ← slot_to_float self;
    b ← slot_to_float r;
    float_pow a b in
  match self, r with
  | SInt a, SInt b => if 0 <=? b then int_pow_promoting a b else floats
  | SBigInt a, SInt b => if 0 <=? b then Return (value_bigint (bi_pow a b)) else floats
  | SInt a, SBigInt b => if 0 <=? bi_Z b then big_exponent_pow (bi_from_i64 a) b else floats
  | SBigInt a, SBigInt b => if 0 <=? bi_Z b then big_exponent_pow a b else floats
  | _, _ => floats
  end.

Definition nb_pow (self : NumericSlot) rhs : option (outcome (Value B)) :=
  nb_pow_slots self <$> numeric_slot rhs.

(** ** Shifts and bit operations *)

Inductive ShiftCount : Type :=
  | Fits (n : Z)
  | Saturated.

Definition MAX_SHIFT : Z := Z.shiftl 1 30.

Definition shift_count v : outcome ShiftCount :=
  match value_to_bigint v with
  | None => Raise (TypeError EmptyString)
  | Some big =>
      if bi_Z big <? 0 then Raise (ValueError "negative shift count")
      else if bi_Z big =? 0 then Return (Fits 0)
      else Return (if bi_Z big <? two64 then Fits (bi_Z big) else Saturated)
  end.

Definition too_many_digits : PyError := OverflowError "too many digits in integer".

Definition slot_lshift (lhs : NumericSlot) rhs : outcome (Value B) :=
  a ← lift (slot_to_bigint lhs);
  count ← shift_count rhs;
  match count with
  | Fits n =>
      if (MAX_SHIFT <? n) && negb (bi_Z a =? 0) then Raise too_many_digits
      else Return (collapse_bigint (value_bigint (bi_shl a n)))
  | Saturated => if bi_Z a =? 0 then Return (VInt 0) else Raise too_many_digits
  end.

Definition slot_rshift (lhs : NumericSlot) rhs : outcome (Value B) :=
  a ← lift (slot_to_bigint lhs);
  count ← shift_count rhs;
  match count with
  | Fits n => Return (collapse_bigint (value_bigint (bi_shr a n)))
  | Saturated => Return (VInt (if bi_Z a <? 0 then -1 else 0))
  end.

Definition is_float_slot (s : NumericSlot) : bool := match s with SFloat _ => true | _ => false end.

(** A float operand is no operand of a shift or bit operation. *)
Definition nb_integral (self : NumericSlot) rhs (op : outcome (Value B)) : option (outcome (Value B)) :=
  r ← numeric_slot rhs;
  if is_float_slot self || is_float_slot r then None else Some op.

Definition nb_lshift (self : NumericSlot) rhs : option (outcome (Value B)) :=
  nb_integral self rhs (slot_lshift self rhs).
Definition nb_rshift (self : NumericSlot) rhs : option (outcome (Value B)) :=
  nb_integral self rhs (slot_rshift self rhs).

Definition nb_bitwise (op : B → B → B) (self : NumericSlot) rhs : option (outcome (Value B)) :=
  r ← numeric_slot rhs;
  if is_float_slot self || is_float_slot r then None
  else Some (a ← lift (slot_to_bigint self);
             b ← lift (slot_to_bigint r);
             Return (collapse_bigint (value_bigint (op a b)))).

Definition nb_and : NumericSlot → Value B → option (outcome (Value B)) := nb_bitwise bi_and.
Definition nb_or : NumericSlot → Value B → option (outcome (Value B)) := nb_bitwise bi_or.
Definition nb_xor : NumericSlot → Value B → option (outcome (Value B)) := nb_bitwise bi_xor.

Definition dispatch_numeric_binop (op : BinaryOp) lhs rhs : option (outcome (Value B)) :=
  l ← numeric_slot lhs;
  match op with
  | Add => nb_add l rhs
  | Sub => nb_sub l rhs
  | Mul => nb_mul l rhs
  | Div => nb_div l rhs
  | FloorDiv => nb_floordiv l rhs
  | Mod => nb_mod l rhs
  | Pow => nb_pow l rhs
  | LShift => nb_lshift l rhs
  | RShift => nb_rshift l rhs
  | BitAnd => nb_and l rhs
  | BitOr => nb_or l rhs
  | BitXor => nb_xor l rhs
  | _ => None
  end.

(** ** The fast path of the virtual machine

    [None] sends the operands to the general path. *)
Definition int_int_fast (a b : Z) (op : BinaryOp) : res (option (Value B)) :=
  match op with
  | Add => Ok (VInt <$> i64_checked (a + b))
  | Sub => Ok (VInt <$> i64_checked (a - b))
  | Mul => Ok (VInt <$> i64_checked (a * b))
  | Mod => if b =? 0 then Ok None else m ← py_mod_i64 a b; Ok (Some (VInt m))
  | FloorDiv =>
      if b =? 0 then Ok None
      else
        m ← py_mod_i64 a b;
        Ok (VInt <$> (i64_checked (a - m) ≫= λ d, i64_checked_div d b))
  | Div =>
      Ok (if negb (b =? 0) && (Z.abs a <? Z.shiftl 1 53) && (Z.abs b <? Z.shiftl 1 53) then
            Some (VFloat (d_div (d_of_int a) (d_of_int b)))
          else None)
  | BitAnd => Ok (Some (VInt (Z.land a b)))
  | BitOr => Ok (Some (VInt (Z.lor a b)))
  | BitXor => Ok (Some (VInt (Z.lxor a b)))
  | LShift =>
      Ok (if b <? 0 then None
          else if 64 <=? b then None
          else
            let r := i64_wrapping_shl a b in
            if i64_shr r b =? a then Some (VInt r) else None)
  | RShift =>
      Ok (if b <? 0 then None
          else if 64 <=? b then Some (VInt (if a <? 0 then -1 else 0))
          else Some (VInt (i64_shr a b)))
  | OpEq => Ok (Some (VBool (a =? b)))
  | Ne => Ok (Some (VBool (negb (a =? b))))
  | OpLt => Ok (Some (VBool (a <? b)))
  | Le => Ok (Some (VBool (a <=? b)))
  | OpGt => Ok (Some (VBool (b <? a)))
  | Ge => Ok (Some (VBool (b <=? a)))
  | _ => Ok None
  end.
End arith.
