(* ===== verification/IntArithSpec.v ===== *)
(** Integer arithmetic is exact: every slot computes the integer operation, on
    machine integers, big integers and any mix of them, and the fast path of
    the virtual machine agrees with the slots. *)

From S2P Require Import Outcome Prelude Double Keys IntArith.

(** ** Reference semantics: operators on unbounded integers

    The result, an error where Python defines none, or an error where the result
    exists and is refused for its size; the power with a negative exponent is
    that of the operands' floats. *)
Inductive expected : Type :=
  | Exactly (z : Z)
  | Undefined (e : PyError)
  | TooLarge (e : PyError)
  | PowerOfFloats.

Definition int_operators : list BinaryOp := [Add; Sub; Mul; FloorDiv; Mod; Pow; LShift; RShift; BitAnd; BitOr; BitXor].

Definition int_op (op : BinaryOp) (a b : Z) : option expected :=
  match op with
  | Add => Some (Exactly (a + b))
  | Sub => Some (Exactly (a - b))
  | Mul => Some (Exactly (a * b))
  | FloorDiv =>
      Some (if b =? 0 then Undefined (ZeroDivisionError "integer division or modulo by zero") else Exactly (a / b))
  | Mod => Some (if b =? 0 then Undefined (ZeroDivisionError "integer modulo by zero") else Exactly (a mod b))
  | Pow =>
      Some (if b <? 0 then PowerOfFloats
            else if b <? two64 then Exactly (a ^ b)
            else TooLarge (OverflowError "exponent too large for ** to compute"))
  | LShift =>
      Some (if b <? 0 then Undefined (ValueError "negative shift count")
            else if (MAX_SHIFT <? b) && negb (a =? 0) then TooLarge too_many_digits
            else Exactly (a * 2 ^ b))
  | RShift => Some (if b <? 0 then Undefined (ValueError "negative shift count") else Exactly (a / 2 ^ b))
  | BitAnd => Some (Exactly (Z.land a b))
  | BitOr => Some (Exactly (Z.lor a b))
  | BitXor => Some (Exactly (Z.lxor a b))
  | _ => None
  end.

(** ** Machine helpers *)

Lemma rem_bounds a b : b ≠ 0 →
  a = b * Z.quot a b + Z.rem a b ∧ Z.abs (Z.rem a b) < Z.abs b ∧ (0 ≤ a → 0 ≤ Z.rem a b) ∧
  (a ≤ 0 → Z.rem a b ≤ 0).
Proof.
  intros Hb. split_and!; [by apply Z.quot_rem| |by apply Z.rem_nonneg|by apply Z.rem_nonpos].
  pose proof (Z.rem_bound_abs a b Hb). lia.
Qed.

(** The floor quotient and remainder from the truncated ones. *)
Lemma floor_adjust a b : b ≠ 0 →
  let q := Z.quot a b in let r := Z.rem a b in
  if ((0 <? r) && (b <? 0)) || ((r <? 0) && (0 <? b)) then a / b = q - 1 ∧ a mod b = r + b
  else a / b = q ∧ a mod b = r.
Proof.
  intros Hb q r. destruct (rem_bounds a b Hb) as (Hq & Hr & _). fold q r in Hq, Hr.
  assert (Hu : ∀ q' r', 0 ≤ r' < b ∨ b < r' ≤ 0 → a = b * q' + r' → a / b = q' ∧ a mod b = r').
  { intros q' r' Hr' Ha. split; symmetry; [by apply (Z.div_unique a b q' r')|by apply (Z.mod_unique a b q' r')]. }
  destruct (Z.ltb_spec 0 r), (Z.ltb_spec b 0), (Z.ltb_spec r 0), (Z.ltb_spec 0 b); cbn;
    try lia; apply Hu; lia.
Qed.

Lemma i64_mod_range a b : i64_range b → b ≠ 0 → i64_range (a mod b).
Proof.
  intros Hb Hz. unfold i64_range in *. pose proof (Z.mod_bound_or a b Hz). lia.
Qed.

Lemma py_mod_i64_spec a b : i64_range b → b ≠ 0 → py_mod_i64 a b = Ok (a mod b).
Proof.
  intros Hr Hb. unfold py_mod_i64, wrapping_rem. destruct (Z.eqb_spec b 0); [done|].
  cbn [mbind res_bind]. pose proof (floor_adjust a b Hb) as Ha. cbv zeta in Ha.
  destruct (_ || _); destruct Ha as [_ Hm]; rewrite Hm; [|done].
  rewrite <- Hm. apply i64_exact_ok. by apply i64_mod_range.
Qed.

Section spec.
Context {B : Type} `{BigInt B} `{!BigIntLaws B} `{BigIntArith B} `{!BigIntArithLaws B} `{Libm}.

Lemma bigint_divmod_floor_spec (a b : B) : bi_Z b ≠ 0 →
  ∃ q r, bigint_divmod_floor a b = Ok (q, r) ∧ bi_Z q = bi_Z a / bi_Z b ∧ bi_Z r = bi_Z a mod bi_Z b.
Proof.
  intros Hb. unfold bigint_divmod_floor. destruct (Z.eqb_spec (bi_Z b) 0); [done|].
  rewrite bi_rem_Z by done. pose proof (floor_adjust (bi_Z a) (bi_Z b) Hb) as Ha. cbv zeta in Ha.
  set (r := Z.rem _ _) in *.
  assert (Hc : negb (r =? 0) && negb (Z.sgn r =? Z.sgn (bi_Z b)) =
               ((0 <? r) && (bi_Z b <? 0)) || ((r <? 0) && (0 <? bi_Z b))).
  { destruct (Z.sgn_spec r) as [[? ->]|[[? ->]|[? ->]]], (Z.sgn_spec (bi_Z b)) as [[? ->]|[[? ->]|[? ->]]];
      destruct (Z.eqb_spec r 0), (Z.ltb_spec 0 r), (Z.ltb_spec r 0), (Z.ltb_spec (bi_Z b) 0),
        (Z.ltb_spec 0 (bi_Z b)); cbn; done || lia. }
  rewrite Hc. destruct (_ || _); destruct Ha as [Hq Hm]; do 2 eexists; (split; [done|]).
  - by rewrite bi_sub_Z, bi_add_Z, bi_from_i64_Z, bi_quot_Z, bi_rem_Z by done.
  - by rewrite bi_quot_Z, bi_rem_Z by done.
Qed.

(** ** What a slot may return *)

(** [m] is the integer [z], in some representation, or raises [e]. *)
Definition int_result (m : outcome (Value B)) (r : Z + PyError) : Prop :=
  match r with
  | inl z => ∃ v, m = Return v ∧ value_wf v ∧ int_value v = Some z
  | inr e => m = Raise e
  end.

(** The float of an integer value: nearest to a machine integer, and what the
    library makes of a big one, unless that is too large. *)
Definition int_to_float (v : Value B) : outcome f64 :=
  match v with
  | VBigInt n => bigint_to_float_or_overflow n
  | _ => Return (d_of_int (default 0 (int_value v)))
  end.

(** [m] is as expected for the operands [lhs] and [rhs]. *)
Definition as_expected (lhs rhs : Value B) (m : outcome (Value B)) (r : expected) : Prop :=
  match r with
  | Exactly z => int_result m (inl z)
  | Undefined e | TooLarge e => m = Raise e
  | PowerOfFloats => m = (x ← int_to_float lhs; y ← int_to_float rhs; float_pow x y)
  end.

Lemma int_result_int z : i64_range z → int_result (Return (VInt z)) (inl z).
Proof. intros Hz. eexists. split; [done|]. split; [exact Hz|done]. Qed.

Lemma int_result_big (n : B) z : bi_Z n = z → int_result (Return (value_bigint n)) (inl z).
Proof. intros <-. eexists. split; [done|]. apply value_bigint_spec. Qed.

(** The kind of a value is already collapsed. *)
Lemma collapse_bigint_eq (n : B) : collapse_bigint (value_bigint n) = value_bigint n.
Proof. unfold value_bigint. destruct (bi_to_i64 n) as [i|] eqn:Hn; [done|]. unfold collapse_bigint. by rewrite Hn. Qed.

Lemma int_result_collapse (n : B) z :
  bi_Z n = z → int_result (Return (collapse_bigint (value_bigint n))) (inl z).
Proof. rewrite collapse_bigint_eq. apply int_result_big. Qed.

(** The slot of an integer value. *)
Definition slot_Z (s : NumericSlot (B := B)) : option Z :=
  match s with SInt n => Some n | SBigInt n => Some (bi_Z n) | SFloat _ => None end.

Lemma int_slot v z : value_wf v → int_value v = Some z →
  ∃ s, numeric_slot v = Some s ∧ slot_Z s = Some z ∧ (∀ n, s = SInt n → i64_range n) ∧
    (∃ n : B, value_to_bigint v = Some n ∧ bi_Z n = z) ∧ slot_to_float s = int_to_float v.
Proof.
  intros Hwf Hv. destruct v; cbn in Hv; simplify_eq; eexists; (split; [done|]); (split; [done|]).
  - split; [by intros ? [= <-]; destruct b|]. split; [|done]. eexists. split; [done|]. by rewrite bi_from_i64_Z.
  - split; [by intros ? [= <-]|]. split; [|done]. eexists. split; [done|]. by rewrite bi_from_i64_Z.
  - split; [done|]. split; [|done]. by eexists.
Qed.

Lemma slot_to_bigint_spec s z : slot_Z s = Some z → ∃ n : B, slot_to_bigint s = Ok n ∧ bi_Z n = z.
Proof.
  destruct s; cbn; intros [= <-]; eexists; (split; [done|]); [by rewrite bi_from_i64_Z|done].
Qed.

(** ** The slots *)

Lemma nb_linear_spec (zop : Z → Z → Z) (exact : B → B → B) float s r a b :
  (∀ m n, bi_Z (exact m n) = zop (bi_Z m) (bi_Z n)) →
  slot_Z s = Some a → slot_Z r = Some b →
  int_result (nb_linear (λ a b, i64_checked (zop a b)) exact float s r) (inl (zop a b)).
Proof.
  intros He Hs Hr. destruct s as [m| |m], r as [n| |n]; cbn in Hs, Hr; simplify_eq; cbn;
    try (apply int_result_big; by rewrite He, ?bi_from_i64_Z).
  destruct (i64_checked (zop a b)) as [s|] eqn:Hc.
  - apply i64_checked_Some in Hc as [Hi ->]. by apply int_result_int.
  - apply int_result_big. by rewrite He, !bi_from_i64_Z.
Qed.

(** The two integer operands of a slot whose case is not int with int. *)
Lemma slots_to_bigint s r a b :
  slot_Z s = Some a → slot_Z r = Some b →
  ∃ m n : B, slot_to_bigint s = Ok m ∧ slot_to_bigint r = Ok n ∧ bi_Z m = a ∧ bi_Z n = b.
Proof.
  intros (m & -> & Hm)%slot_to_bigint_spec (n & -> & Hn)%slot_to_bigint_spec. eauto 6.
Qed.

Lemma big_floordiv_spec (m n : B) :
  bi_Z n ≠ 0 →
  int_result ('(q, _) ← lift (bigint_divmod_floor m n); Return (value_bigint q)) (inl (bi_Z m / bi_Z n)).
Proof.
  intros Hn. destruct (bigint_divmod_floor_spec m n Hn) as (q & r & -> & Hq & _). by apply int_result_big.
Qed.

Lemma big_mod_spec (m n : B) :
  bi_Z n ≠ 0 →
  int_result ('(_, r) ← lift (bigint_divmod_floor m n); Return (value_bigint r)) (inl (bi_Z m mod bi_Z n)).
Proof.
  intros Hn. destruct (bigint_divmod_floor_spec m n Hn) as (q & r & -> & _ & Hr). by apply int_result_big.
Qed.

Lemma i64_floor_quot a b : i64_range b → b ≠ 0 →
  match i64_checked (a - a mod b) ≫= λ d, i64_checked_div d b with
  | Some q => i64_range q ∧ q = a / b
  | None => True
  end.
Proof.
  intros Hb Hz. destruct (i64_checked (a - a mod b)) as [d|] eqn:Hd; [|done].
  apply i64_checked_Some in Hd as [_ ->]. cbn. unfold i64_checked_div.
  destruct (Z.eqb_spec b 0); [done|].
  replace (a - a mod b) with (a / b * b) by (pose proof (Z.div_mod a b); lia).
  rewrite Z.quot_mul by done. destruct (i64_checked (a / b)) as [q|] eqn:Hq; [|done].
  by apply i64_checked_Some in Hq as [? ->].
Qed.

Lemma nb_floordiv_spec s r a b :
  slot_Z s = Some a → slot_Z r = Some b → (∀ n, r = SInt n → i64_range n) →
  int_result (nb_floordiv_slots s r)
    (if b =? 0 then inr (ZeroDivisionError "integer division or modulo by zero") else inl (a / b)).
Proof.
  intros Hs Hr Hi. destruct (slots_to_bigint s r a b Hs Hr) as (m & n & Hm & Hn & Ha & Hb).
  assert (Hbig : s = SInt a ∧ r = SInt b ∨ nb_floordiv_slots s r =
    if bi_Z n =? 0 then Raise (ZeroDivisionError "integer division or modulo by zero")
    else '(q, _) ← lift (bigint_divmod_floor m n); Return (value_bigint q)).
  { destruct s, r; try done; cbn in Hs, Hr; injection Hs as <-; injection Hr as <-; [by left|..];
      right; injection Hm as <-; by injection Hn as <-. }
  destruct Hbig as [[-> ->]| ->].
  - cbn [nb_floordiv_slots]. destruct (Z.eqb_spec b 0) as [|Hz]; [done|].
    rewrite py_mod_i64_spec by auto. cbn [lift mbind outcome_bind].
    pose proof (i64_floor_quot a b (Hi b eq_refl) Hz) as Hq.
    destruct (i64_checked (a - a mod b) ≫= _) as [q|].
    + destruct Hq as [? ->]. by apply int_result_int.
    + injection Hm as ->. injection Hn as ->. rewrite <- Ha, <- Hb.
      apply big_floordiv_spec. by rewrite Hb.
  - rewrite Hb. destruct (Z.eqb_spec b 0); [done|]. rewrite <- Ha, <- Hb.
    apply big_floordiv_spec. by rewrite Hb.
Qed.

Lemma nb_mod_spec s r a b :
  slot_Z s = Some a → slot_Z r = Some b → (∀ n, r = SInt n → i64_range n) →
  int_result (nb_mod_slots s r)
    (if b =? 0 then inr (ZeroDivisionError "integer modulo by zero") else inl (a mod b)).
Proof.
  intros Hs Hr Hi. destruct (slots_to_bigint s r a b Hs Hr) as (m & n & Hm & Hn & Ha & Hb).
  assert (Hbig : s = SInt a ∧ r = SInt b ∨ nb_mod_slots s r =
    if bi_Z n =? 0 then Raise (ZeroDivisionError "integer modulo by zero")
    else '(_, r) ← lift (bigint_divmod_floor m n); Return (value_bigint r)).
  { destruct s, r; try done; cbn in Hs, Hr; injection Hs as <-; injection Hr as <-; [by left|..];
      right; injection Hm as <-; by injection Hn as <-. }
  destruct Hbig as [[-> ->]| ->].
  - cbn [nb_mod_slots]. destruct (Z.eqb_spec b 0) as [|Hz]; [done|].
    rewrite py_mod_i64_spec by auto. apply int_result_int. apply i64_mod_range; auto.
  - rewrite Hb. destruct (Z.eqb_spec b 0); [done|]. rewrite <- Ha, <- Hb.
    apply big_mod_spec. by rewrite Hb.
Qed.

Lemma int_pow_promoting_spec a b : 0 ≤ b → int_result (int_pow_promoting a b) (inl (a ^ b)).
Proof.
  intros Hb. unfold int_pow_promoting. rewrite rassert_true by lia. cbn [lift mbind outcome_bind].
  destruct (b <? 2 ^ 32).
  - destruct (i64_checked (a ^ b)) as [r|] eqn:Hr.
    + apply i64_checked_Some in Hr as [? ->]. by apply int_result_int.
    + apply int_result_big. by rewrite bi_pow_Z, bi_from_i64_Z.
  - apply int_result_big. by rewrite bi_pow_Z, bi_from_i64_Z.
Qed.

Lemma big_exponent_pow_spec (m n : B) : 0 ≤ bi_Z n →
  int_result (big_exponent_pow m n)
    (if bi_Z n <? two64 then inl (bi_Z m ^ bi_Z n)
     else inr (OverflowError "exponent too large for ** to compute")).
Proof.
  intros Hn. unfold big_exponent_pow. destruct (Z.ltb_spec (bi_Z n) two64).
  - destruct (Z.eq_dec (bi_Z n) 0) as [Hz|].
    + rewrite bi_digits_zero, Hz by done. by apply int_result_int.
    + rewrite bi_digits_one by lia. apply int_result_big. by rewrite bi_pow_Z.
  - pose proof (bi_digits_many n ltac:(done)) as Hd.
    by destruct (bi_to_u64_digits n) as [|? [|? ?]]; [cbn in Hd; lia..|].
Qed.

Lemma nb_pow_spec s r a b :
  slot_Z s = Some a → slot_Z r = Some b → 0 ≤ b → (∀ n, r = SInt n → i64_range n) →
  int_result (nb_pow_slots s r)
    (if b <? two64 then inl (a ^ b) else inr (OverflowError "exponent too large for ** to compute")).
Proof.
  intros Hs Hr Hb Hi. destruct r as [n| |n]; cbn in Hr; simplify_eq.
  - replace (b <? two64) with true.
    2: { symmetry. apply Z.ltb_lt. specialize (Hi b eq_refl). unfold i64_range, two64 in *. lia. }
    destruct s as [m| |m]; cbn in Hs; simplify_eq; cbn; (destruct (Z.leb_spec 0 b); [|lia]).
    + by apply int_pow_promoting_spec.
    + apply int_result_big. by rewrite bi_pow_Z.
  - destruct s as [m| |m]; cbn in Hs; simplify_eq; cbn; (destruct (Z.leb_spec 0 (bi_Z n)); [|lia]).
    + pose proof (big_exponent_pow_spec (bi_from_i64 a) n Hb) as Hp. by rewrite bi_from_i64_Z in Hp.
    + by apply big_exponent_pow_spec.
Qed.

Lemma shift_count_spec v (n : B) : value_to_bigint v = Some n →
  shift_count v =
    if bi_Z n <? 0 then Raise (ValueError "negative shift count")
    else Return (if bi_Z n <? two64 then Fits (bi_Z n) else Saturated).
Proof.
  intros Hv. unfold shift_count. rewrite Hv. destruct (bi_Z n <? 0); [done|].
  by destruct (Z.eqb_spec (bi_Z n) 0) as [->|].
Qed.

Lemma slot_lshift_spec s v a (n : B) :
  slot_Z s = Some a → value_to_bigint v = Some n →
  int_result (slot_lshift s v)
    (if bi_Z n <? 0 then inr (ValueError "negative shift count")
     else if (MAX_SHIFT <? bi_Z n) && negb (a =? 0) then inr too_many_digits
     else inl (a * 2 ^ bi_Z n)).
Proof.
  intros (m & Hm & Ha)%slot_to_bigint_spec Hv. unfold slot_lshift.
  rewrite Hm, (shift_count_spec v n Hv). cbn [lift mbind outcome_bind].
  destruct (Z.ltb_spec (bi_Z n) 0); [done|]. cbn [mbind outcome_bind].
  destruct (Z.ltb_spec (bi_Z n) two64) as [Hlt|Hge]; cbn [mbind outcome_bind]; rewrite Ha.
  - destruct ((MAX_SHIFT <? bi_Z n) && negb (a =? 0)); [done|]. apply int_result_collapse.
    by rewrite bi_shl_Z, Z.shiftl_mul_pow2, Ha by done.
  - replace (MAX_SHIFT <? bi_Z n) with true by (symmetry; apply Z.ltb_lt; by apply (Z.lt_le_trans _ two64)).
    destruct (Z.eqb_spec a 0) as [->|]; cbn; [by apply int_result_int|done].
Qed.

Lemma slot_rshift_spec s v a (n : B) :
  slot_Z s = Some a → value_to_bigint v = Some n →
  Z.log2 (Z.abs a) < two64 →
  int_result (slot_rshift s v)
    (if bi_Z n <? 0 then inr (ValueError "negative shift count") else inl (a / 2 ^ bi_Z n)).
Proof.
  intros Hs Hv Hsize. destruct (slot_to_bigint_spec s a Hs) as (m & Hm & Ha). unfold slot_rshift.
  rewrite Hm, (shift_count_spec v n Hv). cbn [lift mbind outcome_bind].
  destruct (Z.ltb_spec (bi_Z n) 0); [done|]. cbn [mbind outcome_bind].
  destruct (Z.ltb_spec (bi_Z n) two64) as [Hlt|Hge]; cbn [mbind outcome_bind].
  - apply int_result_collapse. by rewrite bi_shr_Z, Z.shiftr_div_pow2, Ha by done.
  - rewrite Ha. assert (Z.abs a < 2 ^ bi_Z n).
    { destruct (Z.eq_dec a 0) as [->|]; [by apply Z.pow_pos_nonneg|].
      apply Z.log2_lt_pow2; [lia|]. by apply (Z.lt_le_trans _ two64). }
    replace (a / 2 ^ bi_Z n) with (if a <? 0 then -1 else 0); [by destruct (a <? 0); apply int_result_int|].
    destruct (Z.ltb_spec a 0); symmetry; [|apply Z.div_small; lia].
    symmetry. apply (Zdiv_unique _ _ _ (a + 2 ^ bi_Z n)); lia.
Qed.

Lemma nb_bitwise_spec (op : B → B → B) (zop : Z → Z → Z) s v a b :
  (∀ m n, bi_Z (op m n) = zop (bi_Z m) (bi_Z n)) →
  slot_Z s = Some a → value_wf v → int_value v = Some b →
  ∃ m, nb_bitwise op s v = Some m ∧ int_result m (inl (zop a b)).
Proof.
  intros Ho Hs Hwf Hv. destruct (int_slot v b Hwf Hv) as (r & Hr & Hrb & _). unfold nb_bitwise.
  rewrite Hr. cbn [mbind option_bind].
  destruct (slots_to_bigint s r a b Hs Hrb) as (m & n & Hm & Hn & Ha & Hb).
  replace (is_float_slot s || is_float_slot r) with false by (by destruct s, r).
  eexists. split; [done|]. rewrite Hm, Hn. cbn [lift mbind outcome_bind].
  apply int_result_collapse. by rewrite Ho, Ha, Hb.
Qed.

(** A power with a negative exponent. *)
Lemma nb_pow_negative s r a b :
  slot_Z s = Some a → slot_Z r = Some b → b < 0 →
  nb_pow_slots s r = (x ← slot_to_float s; y ← slot_to_float r; float_pow x y).
Proof.
  intros Hs Hr Hb. destruct s as [m| |m], r as [n| |n]; cbn in Hs, Hr; simplify_eq; cbn [nb_pow_slots];
    by rewrite (proj2 (Z.leb_gt 0 _)) by done.
Qed.

(** Every slot, on operands that are integers. *)
Lemma dispatch_spec op lhs rhs a b :
  value_wf lhs → value_wf rhs → int_value lhs = Some a → int_value rhs = Some b →
  (op = RShift → Z.log2 (Z.abs a) < two64) → op ∈ int_operators →
  ∃ r m, int_op op a b = Some r ∧ dispatch_numeric_binop op lhs rhs = Some m ∧ as_expected lhs rhs m r.
Proof.
  intros Hwl Hwr Hl Hr Hsize Hop.
  destruct (int_slot lhs a Hwl Hl) as (s & Hs & Hsa & Hsi & _ & Hsf).
  destruct (int_slot rhs b Hwr Hr) as (t & Ht & Htb & Hti & (n & Hn & Hnb) & Htf).
  assert (Hints : is_float_slot s || is_float_slot t = false) by (by destruct s, t).
  unfold dispatch_numeric_binop. rewrite Hs. cbn [mbind option_bind].
  unfold int_operators in Hop. rewrite !elem_of_cons, elem_of_nil in Hop.
  destruct Hop as [->|[->|[->|[->|[->|[->|[->|[->|[->|[->|[->|[]]]]]]]]]]]]; cbn [int_op].
  - unfold nb_add. rewrite Ht. do 2 eexists. do 2 (split; [done|]). apply (nb_linear_spec Z.add); auto using bi_add_Z.
  - unfold nb_sub. rewrite Ht. do 2 eexists. do 2 (split; [done|]). apply (nb_linear_spec Z.sub); auto using bi_sub_Z.
  - unfold nb_mul. rewrite Ht. do 2 eexists. do 2 (split; [done|]). apply (nb_linear_spec Z.mul); auto using bi_mul_Z.
  - unfold nb_floordiv. rewrite Ht. do 2 eexists. do 2 (split; [done|]).
    pose proof (nb_floordiv_spec s t a b Hsa Htb Hti) as Hm. by destruct (b =? 0).
  - unfold nb_mod. rewrite Ht. do 2 eexists. do 2 (split; [done|]).
    pose proof (nb_mod_spec s t a b Hsa Htb Hti) as Hm. by destruct (b =? 0).
  - unfold nb_pow. rewrite Ht. do 2 eexists. do 2 (split; [done|]). destruct (Z.ltb_spec b 0).
    + cbn [as_expected]. rewrite <- Hsf, <- Htf. by apply (nb_pow_negative s t a b).
    + pose proof (nb_pow_spec s t a b Hsa Htb ltac:(done) Hti) as Hm. by destruct (b <? two64).
  - unfold nb_lshift, nb_integral. rewrite Ht. cbn [mbind option_bind]. rewrite Hints. do 2 eexists. do 2 (split; [done|]).
    pose proof (slot_lshift_spec s rhs a n Hsa Hn) as Hm. rewrite Hnb in Hm. destruct (b <? 0); [done|]. by destruct (_ && _).
  - unfold nb_rshift, nb_integral. rewrite Ht. cbn [mbind option_bind]. rewrite Hints. do 2 eexists. do 2 (split; [done|]).
    pose proof (slot_rshift_spec s rhs a n Hsa Hn (Hsize eq_refl)) as Hm. rewrite Hnb in Hm. by destruct (b <? 0).
  - destruct (nb_bitwise_spec bi_and Z.land s rhs a b) as (m & Hm & Hi); auto using bi_and_Z. by do 2 eexists.
  - destruct (nb_bitwise_spec bi_or Z.lor s rhs a b) as (m & Hm & Hi); auto using bi_or_Z. by do 2 eexists.
  - destruct (nb_bitwise_spec bi_xor Z.lxor s rhs a b) as (m & Hm & Hi); auto using bi_xor_Z. by do 2 eexists.
Qed.

(** ** The fast path *)

Lemma wrapping_shl_exact a n :
  0 ≤ n < 64 → i64_shr (i64_wrapping_shl a n) n = a → i64_wrapping_shl a n = a * 2 ^ n.
Proof.
  unfold i64_shr, i64_wrapping_shl. intros Hn. rewrite Z.shiftr_div_pow2, Z.shiftl_mul_pow2 by lia.
  set (r := as_i64 (a * 2 ^ n)). intros Ha.
  assert (Hm : r mod 2 ^ n = 0).
  { assert (Hr : ∃ k, r = a * 2 ^ n + k * two64).
    { unfold r, as_i64. exists (- (a * 2 ^ n / two64) - (if (a * 2 ^ n) mod two64 <? 2 ^ 63 then 0 else 1)).
      pose proof (Z.div_mod (a * 2 ^ n) two64 ltac:(done)). cbv zeta.
      destruct (Z.ltb_spec ((a * 2 ^ n) mod two64) (2 ^ 63)); lia. }
    destruct Hr as [k ->]. assert (Ht : two64 = 2 ^ (64 - n) * 2 ^ n).
    { rewrite <- Z.pow_add_r by lia. unfold two64. f_equal. lia. }
    rewrite Ht, Z.mul_assoc, <- Z.mul_add_distr_r. apply Z_mod_mult. }
  pose proof (Z.div_mod r (2 ^ n) ltac:(by apply Z.pow_nonzero; lia)). lia.
Qed.

Lemma i64_shr_range a n : i64_range a → 0 ≤ n → i64_range (Z.shiftr a n).
Proof.
  intros Ha Hn. rewrite Z.shiftr_div_pow2 by done. unfold i64_range in *.
  assert (0 < 2 ^ n) by (by apply Z.pow_pos_nonneg).
  split; [apply Z.div_le_lower_bound; nia|apply Z.div_lt_upper_bound; nia].
Qed.

(** Bit operations stay within [n] bits: a number is an [i64] when all its bits
    from 63 on are equal. *)
Lemma i64_bits a : i64_range a ↔ Z.shiftr a 63 = 0 ∨ Z.shiftr a 63 = -1.
Proof.
  rewrite Z.shiftr_div_pow2 by done. unfold i64_range.
  pose proof (Z.div_mod a (2 ^ 63) ltac:(done)). pose proof (Z.mod_pos_bound a (2 ^ 63) ltac:(done)). lia.
Qed.

Lemma i64_bitwise a b : i64_range a → i64_range b →
  i64_range (Z.land a b) ∧ i64_range (Z.lor a b) ∧ i64_range (Z.lxor a b).
Proof.
  rewrite !i64_bits, Z.shiftr_land, Z.shiftr_lor, Z.shiftr_lxor. intros [-> | ->] [-> | ->]; cbn; auto.
Qed.

Lemma collapse_i64 (n : B) z : bi_Z n = z → i64_range z → collapse_bigint (value_bigint n) = VInt z.
Proof.
  intros <- Hz. rewrite collapse_bigint_eq. unfold value_bigint. rewrite bi_to_i64_Z.
  apply i64_in_spec in Hz. unfold i64_in in Hz. by rewrite Hz.
Qed.

Lemma nb_bitwise_i64 (op : B → B → B) (zop : Z → Z → Z) a b :
  (∀ m n, bi_Z (op m n) = zop (bi_Z m) (bi_Z n)) → i64_range (zop a b) →
  nb_bitwise op (SInt a) (VInt b) = Some (Return (VInt (zop a b))).
Proof.
  intros Ho Hr. unfold nb_bitwise. cbn. do 2 f_equal. apply collapse_i64; [|done].
  by rewrite Ho, !bi_from_i64_Z.
Qed.

(** A shift whose count is a machine integer below 64. *)
Lemma small_shift_count b : 0 ≤ b < 64 → shift_count (VInt b : Value B) = Return (Fits b).
Proof.
  intros Hb. rewrite (shift_count_spec _ (bi_from_i64 b)) by done. rewrite bi_from_i64_Z.
  destruct (Z.ltb_spec b 0); [lia|]. destruct (Z.ltb_spec b two64); [done|]. unfold two64 in *. lia.
Qed.

Definition is_comparison (op : BinaryOp) : bool :=
  match op with OpEq | Ne | OpLt | Le | OpGt | Ge => true | _ => false end.

Lemma fast_shift_agrees a b v :
  i64_range a → i64_range b →
  (int_int_fast a b LShift = Ok (Some v) → dispatch_numeric_binop LShift (VInt a) (VInt b) = Some (Return v)) ∧
  (int_int_fast a b RShift = Ok (Some v) → dispatch_numeric_binop RShift (VInt a) (VInt b) = Some (Return v)).
Proof.
  intros Ha Hb. unfold int_int_fast, dispatch_numeric_binop, nb_lshift, nb_rshift, nb_integral.
  cbn [numeric_slot mbind option_bind is_float_slot orb]. unfold slot_lshift, slot_rshift.
  cbn [slot_to_bigint lift mbind outcome_bind]. destruct (Z.ltb_spec b 0); [done|].
  destruct (Z.leb_spec 64 b).
  - split; [done|]. intros [= <-]. rewrite (shift_count_spec _ (bi_from_i64 b)), !bi_from_i64_Z by done.
    destruct (Z.ltb_spec b 0); [lia|]. cbn [mbind outcome_bind]. destruct (b <? two64); [|done].
    do 2 f_equal. apply collapse_i64; [|by destruct (a <? 0)].
    rewrite bi_shr_Z, bi_from_i64_Z, Z.shiftr_div_pow2 by done.
    assert (2 ^ 63 ≤ 2 ^ b) by (apply Z.pow_le_mono_r; lia). unfold i64_range in Ha.
    destruct (Z.ltb_spec a 0); [|apply Z.div_small; lia].
    symmetry. apply (Zdiv_unique _ _ _ (a + 2 ^ b)); lia.
  - rewrite small_shift_count by lia. cbn [mbind outcome_bind]. split; intros Hv.
    + destruct (Z.eqb_spec (i64_shr (i64_wrapping_shl a b) b) a) as [He|]; [|done].
      injection Hv as <-. destruct (Z.ltb_spec MAX_SHIFT b) as [Hm|].
      { assert (64 ≤ MAX_SHIFT) by done. lia. }
      cbn [andb]. do 2 f_equal. apply collapse_i64; [|apply as_i64_range].
      rewrite bi_shl_Z, bi_from_i64_Z, Z.shiftl_mul_pow2 by lia. by rewrite wrapping_shl_exact.
    + injection Hv as <-. do 2 f_equal. apply collapse_i64; [by rewrite bi_shr_Z, bi_from_i64_Z|].
      by apply i64_shr_range.
Qed.

Lemma fast_path_agrees a b op :
  i64_range a → i64_range b →
  ∃ o, int_int_fast a b op = Ok o ∧
    ∀ v, o = Some v → is_comparison op = false →
      dispatch_numeric_binop op (VInt a) (VInt b) = Some (Return v).
Proof.
  intros Ha Hb. destruct (i64_bitwise a b Ha Hb) as (Hand & Hor & Hxor).
  destruct op; cbn [int_int_fast]; try (by eexists);
    try (eexists; split; [done|]; intros v Hv _; cbn; destruct (i64_checked _); [by injection Hv as <-|done]);
    try (eexists; split; [done|]; intros v [= <-] _; apply nb_bitwise_i64;
         auto using bi_and_Z, bi_or_Z, bi_xor_Z).
  - eexists. split; [done|]. intros v Hv _. cbn. destruct (Z.eqb_spec b 0); [done|]. cbn [negb andb] in Hv.
    destruct ((_ <? _) && (_ <? _)); [by injection Hv as <-|done].
  - cbn. destruct (Z.eqb_spec b 0); [by eexists|]. rewrite py_mod_i64_spec by done. cbn [lift mbind res_bind outcome_bind].
    eexists. split; [done|]. intros v Hv _. destruct (i64_checked _ ≫= _); [by injection Hv as <-|done].
  - cbn. destruct (Z.eqb_spec b 0); [by eexists|]. rewrite py_mod_i64_spec by done. cbn [lift mbind res_bind].
    eexists. split; [done|]. by intros v [= <-] _.
  - eexists. split; [done|]. intros v Hv _. apply (fast_shift_agrees a b v Ha Hb). by rewrite <- Hv.
  - eexists. split; [done|]. intros v Hv _. apply (fast_shift_agrees a b v Ha Hb). by rewrite <- Hv.
Qed.
End spec.
