(* ===== verification/IntModular.v ===== *)
(** Modular powers and inverses: [modpow_i64], [modinv_i64], [modinv_bigint]
    (crates/pyrust/src/interpreter/helpers/numeric_math.rs) and the
    three-argument [pow] built on them
    (crates/pyrust/src/builtin_modules/bodies/builtins/numeric_functions.rs). *)

From Stdlib Require Import Znumtheory.
From S2P Require Import Outcome Prelude Double Keys IntArith.

(** [BigInt::modpow], by its documentation: rounds like [mod_floor], panics on
    a negative exponent or a zero modulus. *)
Class BigIntModpow (B : Type) := { bi_modpow : B → B → B → B }.

Class BigIntModpowLaws (B : Type) `{BigInt B} `{BigIntModpow B} : Prop := {
  bi_modpow_Z a n m : 0 ≤ bi_Z n → bi_Z m ≠ 0 →
    bi_Z (bi_modpow a n m) = bi_Z a ^ bi_Z n mod bi_Z m;
}.

(** ** Arithmetic on [i128], which panics on overflow *)
Definition i128_exact (x : Z) : res Z :=
  if (- 2 ^ 127 <=? x) && (x <? 2 ^ 127) then Ok x else Panic.
(** [x as i64] of an [i128] *)
Definition i128_as_i64 (x : Z) : Z := as_i64 x.

(** ** [modpow_i64] *)

(** [(x % m + m) % m] *)
Definition i128_reduce (x m : Z) : res Z :=
  s ← i128_exact (Z.rem x m + m);
  Ok (Z.rem s m).

(** The square-and-multiply loop; [exp] is a [u64]. *)
Fixpoint modpow_loop (fuel : nat) (m result base exp : Z) : res Z :=
  match fuel with
  | O => Diverge
  | S fuel =>
      if 0 <? exp then
        result ← (if exp mod 2 =? 1 then
                    p ← i128_exact (result * base);
                    Ok (Z.rem p m)
                  else Ok result);
        sq ← i128_exact (base * base);
        modpow_loop fuel m result (Z.rem sq m) (Z.shiftr exp 1)
      else Ok result
  end.

Definition modpow_i64 (base exp modulus : Z) : res Z :=
  if modulus =? 1 then Ok 0
  else if modulus =? 0 then Panic   (* remainder by zero *)
  else
    base ← i128_reduce base modulus;
    result ← modpow_loop 65 modulus 1 base exp;
    Ok (i128_as_i64 result).

(** ** [modinv_i64] *)

Fixpoint modinv_loop (fuel : nat) (old_r r old_s s : Z) : res (Z * Z) :=
  match fuel with
  | O => Diverge
  | S fuel =>
      if r =? 0 then Ok (old_r, old_s)
      else
        let quotient := Z.quot old_r r in
        qr ← i128_exact (quotient * r);
        tmp_r ← i128_exact (old_r - qr);
        qs ← i128_exact (quotient * s);
        tmp_s ← i128_exact (old_s - qs);
        modinv_loop fuel r tmp_r s tmp_s
  end.

(** Enough iterations for Euclid's algorithm on operands up to [m]. *)
Definition euclid_fuel (m : Z) : nat := Z.to_nat (2 * Z.log2 m + 4).

Definition modinv_i64 (value modulus : Z) : res (option Z) :=
  let m := Z.abs modulus in
  if m =? 0 then Ok None
  else
    v ← i128_reduce value m;
    '(old_r, old_s) ← modinv_loop (euclid_fuel m) v m 1 0;
    if negb (old_r =? 1) then Ok None
    else
      result ← i128_reduce old_s m;
      Ok (Some (i128_as_i64 result)).

Section big.
Context {B : Type} `{BigInt B} `{BigIntArith B} `{BigIntModpow B}.

Definition bi_reduce (x m : B) : B := bi_rem (bi_add (bi_rem x m) m) m.

Fixpoint modinv_big_loop (fuel : nat) (old_r r old_s s : B) : res (B * B) :=
  match fuel with
  | O => Diverge
  | S fuel =>
      if bi_eqb r (bi_from_i64 0) then Ok (old_r, old_s)
      else
        let quotient := bi_quot old_r r in
        modinv_big_loop fuel r (bi_sub old_r (bi_mul quotient r))
          s (bi_sub old_s (bi_mul quotient s))
  end.

Definition modinv_bigint (value modulus : B) : res (option B) :=
  let m := if bi_Z modulus <? 0 then bi_neg modulus else modulus in
  if bi_Z m =? 0 then Panic   (* remainder by zero *)
  else
    let v := bi_reduce value m in
    '(old_r, old_s) ← modinv_big_loop (euclid_fuel (bi_Z m)) v m (bi_from_i64 1) (bi_from_i64 0);
    if negb (bi_eqb old_r (bi_from_i64 1)) then Ok None
    else Ok (Some (bi_reduce old_s m)).

(** [BigInt::modpow] panics on the arguments its callers exclude. *)
Definition modpow_bigint (base exp modulus : B) : res (Value B) :=
  if (bi_Z exp <? 0) || (bi_Z modulus =? 0) then Panic
  else Ok (value_from_bigint (bi_modpow base exp modulus)).

(** ** The three-argument [pow] on built-in arguments *)

Definition three_arg_type_error : PyError :=
  TypeError "pow() 3rd argument not allowed unless all arguments are integers".
Definition not_invertible : PyError := ValueError "base is not invertible for the given modulus".
Definition zero_modulus : PyError := ValueError "pow() 3rd argument cannot be 0".

Definition is_bigint (v : Value B) : bool := match v with VBigInt _ => true | _ => false end.

Definition as_bigint_arg (v : Value B) : outcome B :=
  match value_to_bigint v with Some n => Return n | None => Raise three_arg_type_error end.

Definition as_i64_arg (v : Value B) : outcome Z :=
  match v with
  | VInt n => Return n
  | VBool b => Return (bool_int b)
  | _ => Raise three_arg_type_error
  end.

(** [match powered.kind()], whose other arms are [unreachable!]. *)
Definition powered_bigint (powered : Value B) : outcome B :=
  match powered with
  | VInt v => Return (bi_from_i64 v)
  | VBigInt b => Return b
  | _ => Panicked
  end.

(** The arm taken when some argument is a [BigInt]. *)
Definition pow_mod_big (base_val exp_val mod_val : Value B) : outcome (Value B) :=
  base_big ← as_bigint_arg base_val;
  exp_big ← as_bigint_arg exp_val;
  mod_big ← as_bigint_arg mod_val;
  if bi_Z mod_big =? 0 then Raise zero_modulus
  else if bi_Z exp_big <? 0 then
    let abs_exp := bi_neg exp_big in
    let abs_mod := if bi_Z mod_big <? 0 then bi_neg mod_big else mod_big in
    powered ← lift (modpow_bigint base_big abs_exp abs_mod);
    powered_big ← powered_bigint powered;
    inv ← lift (modinv_bigint powered_big abs_mod);
    match inv with
    | None => Raise not_invertible
    | Some inv =>
        Return (value_from_bigint
          (if (bi_Z mod_big <? 0) && negb (bi_eqb inv (bi_from_i64 0)) then bi_sub inv abs_mod else inv))
    end
  else lift (modpow_bigint base_big exp_big mod_big).

(** The [i64] arm. *)
Definition pow_mod_i64 (base_val exp_val mod_val : Value B) : outcome (Value B) :=
  base ← as_i64_arg base_val;
  exp ← as_i64_arg exp_val;
  modulus ← as_i64_arg mod_val;
  if modulus =? 0 then Raise zero_modulus
  else if exp <? 0 then
    powered ← lift (modpow_i64 base (Z.abs exp) modulus);
    inv ← lift (modinv_i64 powered modulus);
    match inv with
    | None => Raise not_invertible
    | Some inv =>
        result ← lift (if (modulus <? 0) && negb (inv =? 0) then
                         i64_exact (inv - as_i64 (Z.abs modulus))
                       else Ok inv);
        Return (VInt result)
    end
  else
    result ← lift (modpow_i64 base (as_u64 exp) modulus);
    Return (VInt result).

Definition pow_mod (base_val exp_val mod_val : Value B) : outcome (Value B) :=
  if is_bigint base_val || is_bigint exp_val || is_bigint mod_val then
    pow_mod_big base_val exp_val mod_val
  else pow_mod_i64 base_val exp_val mod_val.
End big.

(** Modular powers and inverses compute what they should, and Euclid's loop
    ends within its fuel without overflowing an [i128]. *)

From S2P Require Import IntArithSpec.

Lemma i128_exact_ok x : Z.abs x < 2 ^ 127 → i128_exact x = Ok x.
Proof.
  intros Hx. unfold i128_exact.
  by destruct (Z.leb_spec (- 2 ^ 127) x), (Z.ltb_spec x (2 ^ 127)); cbn; [|lia..].
Qed.

(** ** Congruence *)

Lemma rem_congruent x m : m ≠ 0 → (m | Z.rem x m - x).
Proof. intros Hm. destruct (rem_bounds x m Hm) as (Hq & _). exists (- Z.quot x m). lia. Qed.

Lemma big_reduce_mod x m : 0 < m → Z.rem (Z.rem x m + m) m = x mod m.
Proof.
  intros Hm. destruct (rem_bounds x m ltac:(lia)) as (Hq & Hr & _).
  rewrite Z.rem_mod_nonneg by lia. symmetry. apply Z.mod_unique with (x / m - Z.quot x m + 1).
  - left. apply Z.mod_pos_bound. lia.
  - pose proof (Z.div_mod x m). lia.
Qed.

Lemma i128_reduce_spec x m : 0 < m ≤ 2 ^ 64 → i128_reduce x m = Ok (x mod m).
Proof.
  intros Hm. unfold i128_reduce. destruct (rem_bounds x m ltac:(lia)) as (_ & Hr & _).
  rewrite i128_exact_ok by lia. cbn [mbind res_bind]. by rewrite big_reduce_mod by lia.
Qed.

(** With a divisor of any sign the reduction is still congruent and small. *)
Lemma i128_reduce_congruent x m : m ≠ 0 → Z.abs m ≤ 2 ^ 64 →
  ∃ y, i128_reduce x m = Ok y ∧ (m | y - x) ∧ Z.abs y < Z.abs m.
Proof.
  intros Hm Hs. unfold i128_reduce. destruct (rem_bounds x m Hm) as (_ & Hr & _).
  rewrite i128_exact_ok by lia. eexists. split; [done|].
  destruct (rem_bounds (Z.rem x m + m) m Hm) as (_ & Hr' & _). split; [|done].
  replace (_ - x) with ((Z.rem (Z.rem x m + m) m - (Z.rem x m + m)) + ((Z.rem x m - x) + m)) by lia.
  apply Z.divide_add_r; [by apply rem_congruent|].
  apply Z.divide_add_r; [by apply rem_congruent|apply Z.divide_refl].
Qed.

Lemma divide_mul_congruent m a b c : (m | a - b) → (m | a * c - b * c).
Proof. intros H. rewrite <- Z.mul_sub_distr_r. by apply Z.divide_mul_l. Qed.

Lemma divide_trans_sub m a b c : (m | a - b) → (m | b - c) → (m | a - c).
Proof. intros H1 H2. replace (a - c) with ((a - b) + (b - c)) by lia. by apply Z.divide_add_r. Qed.

Lemma divide_pow_congruent m a b n : 0 ≤ n → (m | a - b) → (m | a ^ n - b ^ n).
Proof.
  intros Hn Hd. pattern n. apply natlike_ind; [..|done].
  - rewrite !Z.pow_0_r. by exists 0.
  - intros k Hk IH. rewrite !Z.pow_succ_r by done. apply (divide_trans_sub _ _ (b * a ^ k)).
    + by apply divide_mul_congruent.
    + rewrite (Z.mul_comm b (a ^ k)), (Z.mul_comm b (b ^ k)). by apply divide_mul_congruent.
Qed.

Lemma congruent_mod m a b : m ≠ 0 → (m | a - b) → a mod m = b mod m.
Proof.
  intros Hm [k Hk]. replace a with (b + k * m) by lia. by apply Z_mod_plus_full.
Qed.

(** ** Square and multiply *)

Lemma modpow_loop_spec n m result base exp :
  m ≠ 0 → Z.abs m ≤ 2 ^ 63 → Z.abs result ≤ Z.abs m → Z.abs base ≤ Z.abs m → 0 ≤ exp < 2 ^ Z.of_nat n →
  ∃ r, modpow_loop (S n) m result base exp = Ok r ∧ (m | r - result * base ^ exp) ∧ Z.abs r ≤ Z.abs m ∧
    (0 ≤ result < Z.abs m → 0 ≤ base → 0 ≤ r < Z.abs m).
Proof.
  intros Hm Hm63. revert result base exp.
  induction n as [|n IH]; intros result base exp Hr Hb He.
  { replace exp with 0 by (change (2 ^ Z.of_nat 0) with 1 in He; lia).
    cbn. exists result. split_and!; [done| |done..]. rewrite Z.mul_1_r, Z.sub_diag. by exists 0. }
  rewrite Nat2Z.inj_succ, Z.pow_succ_r in He by lia. remember (S n) as fuel eqn:Hfuel. cbn [modpow_loop].
  destruct (Z.ltb_spec 0 exp) as [Hpos|].
  2: { replace exp with 0 by lia. exists result. split_and!; [done| |done..].
       rewrite Z.mul_1_r, Z.sub_diag. by exists 0. }
  assert (Hsmall : ∀ x y, Z.abs x ≤ Z.abs m → Z.abs y ≤ Z.abs m → i128_exact (x * y) = Ok (x * y)).
  { intros x y Hx Hy. apply i128_exact_ok. rewrite Z.abs_mul. nia. }
  set (result' := if exp mod 2 =? 1 then Z.rem (result * base) m else result).
  assert (Hstep : (if exp mod 2 =? 1 then p ← i128_exact (result * base); Ok (Z.rem p m) else Ok result)
                  = Ok result').
  { unfold result'. destruct (exp mod 2 =? 1); [|done]. by rewrite Hsmall. }
  rewrite Hstep, Hsmall by done. cbn [mbind res_bind]. rewrite Z.shiftr_div_pow2, Z.pow_1_r by done.
  destruct (rem_bounds (result * base) m Hm) as (_ & Hrb & Hrn & _).
  destruct (rem_bounds (base * base) m Hm) as (_ & Hbb & Hbn & _).
  pose proof (Z.div_mod exp 2 ltac:(done)) as Hdm. pose proof (Z.mod_pos_bound exp 2 ltac:(done)).
  destruct (IH result' (Z.rem (base * base) m) (exp / 2)) as (r & Hr1 & Hr2 & Hr3 & Hr4).
  - unfold result'. destruct (exp mod 2 =? 1); lia.
  - lia.
  - split; [apply Z.div_pos; lia|]. apply Z.div_lt_upper_bound; lia.
  - exists r. split; [done|]. split; [|split; [done|]].
    + apply (divide_trans_sub _ _ _ _ Hr2).
      assert (Hsq : (m | Z.rem (base * base) m ^ (exp / 2) - (base * base) ^ (exp / 2))).
      { apply divide_pow_congruent; [apply Z.div_pos; lia|by apply rem_congruent]. }
      apply (divide_trans_sub _ _ (result' * (base * base) ^ (exp / 2))).
      { rewrite !(Z.mul_comm result'). by apply divide_mul_congruent. }
      assert (He2 : base ^ exp = (base * base) ^ (exp / 2) * base ^ (exp mod 2)).
      { rewrite Hdm at 1. rewrite Z.pow_add_r, Z.pow_mul_r, Z.pow_2_r by (lia || (apply Z.mul_nonneg_nonneg; [done|apply Z.div_pos; lia])).
        done. }
      rewrite He2. unfold result'. destruct (Z.eqb_spec (exp mod 2) 1) as [->|].
      * rewrite Z.pow_1_r. replace (result * ((base * base) ^ (exp / 2) * base))
          with (result * base * (base * base) ^ (exp / 2)) by lia.
        apply divide_mul_congruent. by apply rem_congruent.
      * replace (exp mod 2) with 0 by lia. rewrite Z.pow_0_r, Z.mul_1_r, Z.sub_diag. by exists 0.
    + intros Hres Hbase. apply Hr4; [|apply Hbn; nia].
      unfold result'. destruct (exp mod 2 =? 1); [|done]. split; [apply Hrn; nia|lia].
Qed.

Lemma modpow_i64_spec base exp m :
  1 < m ≤ 2 ^ 63 - 1 → 0 ≤ exp < two64 → modpow_i64 base exp m = Ok (base ^ exp mod m).
Proof.
  intros Hm He. unfold modpow_i64.
  destruct (Z.eqb_spec m 1); [lia|]. destruct (Z.eqb_spec m 0); [lia|].
  rewrite i128_reduce_spec by lia. cbn [mbind res_bind].
  pose proof (Z.mod_pos_bound base m ltac:(lia)).
  destruct (modpow_loop_spec 64 m 1 (base mod m) exp) as (r & -> & Hd & _ & Hr); [lia..|done|].
  specialize (Hr ltac:(lia) ltac:(lia)). cbn [mbind res_bind]. unfold i128_as_i64.
  rewrite as_i64_id by (unfold i64_range; lia). f_equal.
  rewrite Z.mul_1_l in Hd. apply (congruent_mod m) in Hd; [|lia].
  rewrite Z.mod_small in Hd by lia. rewrite Hd. apply congruent_mod; [lia|].
  apply divide_pow_congruent; [lia|]. exists (- (base / m)). pose proof (Z.div_mod base m). lia.
Qed.

(** ** The extended Euclidean loop *)

(** The invariant: Bezout coefficients of alternating signs, whose weighted sum
    stays [m]. *)
Record euclid_inv (v m old_r r old_s s : Z) : Prop := {
  ei_old_r : 0 ≤ old_r ≤ m;
  ei_r : 0 ≤ r ≤ m;
  ei_old_cong : (m | old_r - old_s * v);
  ei_cong : (m | r - s * v);
  ei_gcd : Z.gcd old_r r = Z.gcd v m;
  ei_sum : Z.abs old_s * r + Z.abs s * old_r = m;
  ei_signs : old_s * s ≤ 0;
}.

Lemma euclid_start v m : 0 ≤ v < m → euclid_inv v m v m 1 0.
Proof.
  intros Hv. split; try lia.
  - rewrite Z.mul_1_l, Z.sub_diag. by exists 0.
  - rewrite Z.mul_0_l, Z.sub_0_r. apply Z.divide_refl.
Qed.

Lemma euclid_step v m old_r r old_s s :
  0 < m → euclid_inv v m old_r r old_s s → r ≠ 0 →
  let q := Z.quot old_r r in
  euclid_inv v m r (old_r - q * r) s (old_s - q * s) ∧
  old_r - q * r = old_r mod r ∧ 0 ≤ q * r ≤ m ∧ Z.abs (q * s) ≤ m ∧ Z.abs (old_s - q * s) ≤ m.
Proof.
  intros Hm [Ho Hr Hoc Hc Hg Hs Hsg] Hz q.
  assert (Hq : q = old_r / r) by (apply Z.quot_div_nonneg; lia).
  pose proof (Z.div_mod old_r r Hz) as Hdm. pose proof (Z.mod_pos_bound old_r r ltac:(lia)) as Hb.
  rewrite <- Hq in Hdm. assert (Hq0 : 0 ≤ q) by (rewrite Hq; apply Z.div_pos; lia).
  assert (Hr' : old_r - q * r = old_r mod r) by lia. rewrite Hr'.
  assert (Habs : Z.abs (old_s - q * s) = Z.abs old_s + q * Z.abs s).
  { destruct (Z.abs_spec old_s) as [[? ->]|[? ->]], (Z.abs_spec s) as [[? ->]|[? ->]],
      (Z.abs_spec (old_s - q * s)) as [[? ->]|[? ->]]; nia. }
  assert (Hsum : Z.abs s * (old_r mod r) + Z.abs (old_s - q * s) * r = m).
  { rewrite Habs. rewrite Hdm in Hs at 1. lia. }
  assert (Hsb : Z.abs (old_s - q * s) ≤ m).
  { assert (0 ≤ Z.abs s * (old_r mod r)) by (apply Z.mul_nonneg_nonneg; lia).
    assert (Z.abs (old_s - q * s) * 1 ≤ Z.abs (old_s - q * s) * r) by (apply Z.mul_le_mono_nonneg_l; lia).
    lia. }
  assert (0 ≤ q * (s * s)) by (apply Z.mul_nonneg_nonneg; [done|apply Z.square_nonneg]).
  split; [|split_and!; [done|lia|lia|rewrite Z.abs_mul, (Z.abs_eq q) by done; lia|done]].
  split; try lia; try done.
  - rewrite <- Hr'. replace (old_r - q * r - (old_s - q * s) * v)
      with ((old_r - old_s * v) - q * (r - s * v)) by lia.
    apply Z.divide_sub_r; [done|]. by apply Z.divide_mul_r.
  - by rewrite Z.gcd_comm, Z.gcd_mod, Z.gcd_comm.
Qed.

(** The loop over unbounded integers, to which both versions are compared. *)
Fixpoint euclid (fuel : nat) (old_r r old_s s : Z) : option (Z * Z) :=
  match fuel with
  | O => None
  | S fuel =>
      if r =? 0 then Some (old_r, old_s)
      else let q := Z.quot old_r r in euclid fuel r (old_r - q * r) s (old_s - q * s)
  end.

Lemma modinv_loop_euclid v m fuel old_r r old_s s g x :
  0 < m ≤ 2 ^ 63 → euclid_inv v m old_r r old_s s →
  euclid fuel old_r r old_s s = Some (g, x) → modinv_loop fuel old_r r old_s s = Ok (g, x).
Proof.
  intros Hm. revert old_r r old_s s. induction fuel as [|fuel IH]; intros old_r r old_s s Hi; [done|].
  cbn [euclid modinv_loop]. destruct (Z.eqb_spec r 0) as [|Hz]; [by intros [= <- <-]|].
  destruct (euclid_step v m old_r r old_s s ltac:(lia) Hi Hz) as (Hi' & Hr & Hqr & Hqs & Hs').
  pose proof (ei_r _ _ _ _ _ _ Hi'). pose proof (ei_old_r _ _ _ _ _ _ Hi).
  repeat (rewrite i128_exact_ok by lia; cbn [mbind res_bind]). by apply IH.
Qed.

Lemma euclid_result v m fuel old_r r old_s s g x :
  0 < m → euclid_inv v m old_r r old_s s → euclid fuel old_r r old_s s = Some (g, x) →
  g = Z.gcd v m ∧ (m | g - x * v).
Proof.
  intros Hm. revert old_r r old_s s. induction fuel as [|fuel IH]; intros old_r r old_s s Hi; [done|].
  cbn [euclid]. destruct (Z.eqb_spec r 0) as [->|Hz].
  - intros [= <- <-]. destruct Hi. rewrite Z.gcd_0_r, Z.abs_eq in ei_gcd0 by lia. done.
  - apply IH. by apply euclid_step.
Qed.

(** Two consecutive remainders at least halve. *)
Lemma euclid_ends n old_r r old_s s :
  0 ≤ r ≤ old_r → old_r * r < 2 ^ Z.of_nat n → is_Some (euclid (S n) old_r r old_s s).
Proof.
  revert old_r r old_s s. induction n as [|n IH]; intros old_r r old_s s Hr Hp.
  { replace r with 0 by (change (2 ^ Z.of_nat 0) with 1 in Hp; nia). done. }
  remember (S n) as fuel eqn:Hf. cbn [euclid]. destruct (Z.eqb_spec r 0) as [|Hz]; [done|]. subst fuel.
  rewrite Nat2Z.inj_succ, Z.pow_succ_r in Hp by lia.
  assert (Hq : Z.quot old_r r = old_r / r) by (apply Z.quot_div_nonneg; lia). cbv zeta. rewrite Hq.
  pose proof (Z.div_mod old_r r Hz). pose proof (Z.mod_pos_bound old_r r ltac:(lia)).
  replace (old_r - old_r / r * r) with (old_r mod r) by lia.
  assert (1 ≤ old_r / r) by (apply Z.div_le_lower_bound; lia).
  apply IH; [lia|]. nia.
Qed.

Lemma euclid_total v m : 0 ≤ v < m → is_Some (euclid (euclid_fuel m) v m 1 0).
Proof.
  intros Hv. unfold euclid_fuel. pose proof (Z.log2_nonneg m).
  pose proof (Z.log2_spec m ltac:(lia)) as [_ Hl]. rewrite Z.pow_succ_r in Hl by done.
  replace (Z.to_nat (2 * Z.log2 m + 4)) with (S (S (Z.to_nat (2 * Z.log2 m + 2)))) by lia.
  remember (S (Z.to_nat (2 * Z.log2 m + 2))) as fuel eqn:Hf. cbn [euclid].
  destruct (Z.eqb_spec m 0); [lia|]. rewrite Z.quot_small by lia. subst fuel.
  rewrite Z.mul_0_l, Z.sub_0_r. apply euclid_ends; [lia|].
  rewrite Z2Nat.id, Z.pow_add_r, Z.pow_mul_r, Z.mul_comm by lia.
  replace ((2 ^ 2) ^ Z.log2 m) with (2 ^ Z.log2 m * 2 ^ Z.log2 m); [nia|].
  rewrite <- Z.pow_mul_r, <- Z.pow_add_r by lia. f_equal. lia.
Qed.

(** ** Inverses *)

Definition inverse_result (value m : Z) (o : option Z) : Prop :=
  match o with
  | Some x => 0 ≤ x < m ∧ (m | x * value - 1)
  | None => Z.gcd value m ≠ 1
  end.

Lemma congruent_gcd m a b : m ≠ 0 → (m | a - b) → Z.gcd a m = Z.gcd b m.
Proof.
  intros Hm Hd. rewrite (Z.gcd_comm a), (Z.gcd_comm b), <- (Z.gcd_mod a), <- (Z.gcd_mod b) by done.
  by rewrite (congruent_mod m a b).
Qed.

Lemma mod_congruent a m : m ≠ 0 → (m | a mod m - a).
Proof. intros Hm. exists (- (a / m)). pose proof (Z.div_mod a m Hm). lia. Qed.

(** What Euclid's loop on [value mod m] says about [value]. *)
Lemma euclid_inverse value m g x :
  0 < m → euclid (euclid_fuel m) (value mod m) m 1 0 = Some (g, x) →
  inverse_result value m (if g =? 1 then Some (x mod m) else None).
Proof.
  intros Hm He. pose proof (Z.mod_pos_bound value m Hm) as Hv.
  destruct (euclid_result _ _ _ _ _ _ _ _ _ Hm (euclid_start _ m Hv) He) as [Hg Hx].
  rewrite (congruent_gcd m _ value ltac:(lia) (mod_congruent value m ltac:(lia))) in Hg.
  destruct (Z.eqb_spec g 1) as [->|]; cbn; [|congruence].
  split; [by apply Z.mod_pos_bound|].
  apply (divide_trans_sub _ _ (x * value)).
  { apply divide_mul_congruent, mod_congruent. lia. }
  apply (divide_trans_sub _ _ (x * (value mod m))).
  - rewrite !(Z.mul_comm x). apply divide_mul_congruent.
    rewrite <- (Z.opp_involutive (value - _)). apply Z.divide_opp_r.
    replace (- (value - value mod m)) with (value mod m - value) by lia. apply mod_congruent. lia.
  - rewrite <- (Z.opp_involutive (_ - 1)). apply Z.divide_opp_r.
    by replace (- (x * (value mod m) - 1)) with (1 - x * (value mod m)) by lia.
Qed.

Lemma modinv_i64_spec value modulus :
  i64_range modulus → modulus ≠ 0 →
  ∃ o, modinv_i64 value modulus = Ok o ∧ inverse_result value (Z.abs modulus) o.
Proof.
  intros Hr Hz. unfold i64_range in Hr. set (m := Z.abs modulus).
  assert (Hm : 0 < m ≤ 2 ^ 63) by lia. unfold modinv_i64. fold m.
  destruct (Z.eqb_spec m 0); [lia|]. rewrite i128_reduce_spec by lia. cbn [mbind res_bind].
  pose proof (Z.mod_pos_bound value m ltac:(lia)) as Hv.
  destruct (euclid_total _ _ Hv) as [[g x] He].
  rewrite (modinv_loop_euclid _ _ _ _ _ _ _ _ _ Hm (euclid_start _ _ Hv) He). cbn [mbind res_bind].
  exists (if g =? 1 then Some (x mod m) else None). split; [|apply euclid_inverse; [lia|done]].
  destruct (g =? 1); cbn [negb]; [|done]. rewrite i128_reduce_spec by lia. cbn [mbind res_bind].
  pose proof (Z.mod_pos_bound x m ltac:(lia)). unfold i128_as_i64. rewrite as_i64_id; [done|unfold i64_range; lia].
Qed.

Section big.
Context {B : Type} `{BigInt B} `{!BigIntLaws B} `{BigIntArith B} `{!BigIntArithLaws B} `{BigIntModpow B}
  `{!BigIntModpowLaws B}.

Lemma bi_reduce_Z (x m : B) : 0 < bi_Z m → bi_Z (bi_reduce x m) = bi_Z x mod bi_Z m.
Proof.
  intros Hm. unfold bi_reduce. rewrite bi_rem_Z, bi_add_Z, bi_rem_Z by lia. by apply big_reduce_mod.
Qed.

Lemma modinv_big_loop_euclid fuel (old_r r old_s s : B) g x :
  euclid fuel (bi_Z old_r) (bi_Z r) (bi_Z old_s) (bi_Z s) = Some (g, x) →
  ∃ g' x', modinv_big_loop fuel old_r r old_s s = Ok (g', x') ∧ bi_Z g' = g ∧ bi_Z x' = x.
Proof.
  revert old_r r old_s s. induction fuel as [|fuel IH]; intros old_r r old_s s; [done|].
  cbn [euclid modinv_big_loop]. rewrite bi_eqb_Z, bi_from_i64_Z.
  destruct (Z.eqb_spec (bi_Z r) 0); [intros [= <- <-]; eauto|]. intros He. apply IH.
  by rewrite !bi_sub_Z, !bi_mul_Z, !bi_quot_Z by done.
Qed.

Lemma modinv_bigint_spec (value modulus : B) :
  bi_Z modulus ≠ 0 →
  ∃ o, modinv_bigint value modulus = Ok o ∧ inverse_result (bi_Z value) (Z.abs (bi_Z modulus)) (bi_Z <$> o).
Proof.
  intros Hz. unfold modinv_bigint.
  set (m := if bi_Z modulus <? 0 then bi_neg modulus else modulus).
  assert (Hm : bi_Z m = Z.abs (bi_Z modulus)).
  { unfold m. destruct (Z.ltb_spec (bi_Z modulus) 0); rewrite ?bi_neg_Z; lia. }
  clearbody m. destruct (Z.eqb_spec (bi_Z m) 0); [lia|]. assert (Hpos : 0 < bi_Z m) by lia.
  pose proof (Z.mod_pos_bound (bi_Z value) (bi_Z m) Hpos) as Hv.
  destruct (euclid_total _ _ Hv) as [[g x] He].
  pose proof (euclid_inverse (bi_Z value) (bi_Z m) g x Hpos He) as Hi.
  rewrite <- (bi_reduce_Z value m), <- (bi_from_i64_Z 1), <- (bi_from_i64_Z 0) in He by lia.
  destruct (modinv_big_loop_euclid _ _ _ _ _ _ _ He) as (g' & x' & -> & Hg & Hx). cbn [mbind res_bind].
  rewrite bi_eqb_Z, bi_from_i64_Z, Hg, <- Hm.
  exists (if g =? 1 then Some (bi_reduce x' m) else None). split; [by destruct (g =? 1)|].
  destruct (g =? 1); [|done]. cbn [fmap option_fmap option_map]. by rewrite bi_reduce_Z, Hx by lia.
Qed.

(** ** The three-argument [pow] *)

Definition returns_int (o : outcome (Value B)) (z : Z) : Prop :=
  ∃ v, o = Return v ∧ value_wf v ∧ int_value v = Some z.

(** What Python promises of [pow(b, e, m)]: the floor remainder, which has the
    sign of [m]; for a negative exponent the power of an inverse of [b]. *)
Definition pow_mod_result (b e m : Z) (o : outcome (Value B)) : Prop :=
  if m =? 0 then o = Raise zero_modulus
  else if 0 <=? e then returns_int o (b ^ e mod m)
  else if Z.gcd (b ^ (- e)) m =? 1 then
    ∃ x, returns_int o x ∧ x mod m = x ∧ (m | x * b ^ (- e) - 1)
  else o = Raise not_invertible.

Lemma modpow_i64_congruent base exp m :
  i64_range m → m ≠ 0 → 0 ≤ exp < two64 →
  ∃ r, modpow_i64 base exp m = Ok r ∧ (m | r - base ^ exp).
Proof.
  unfold i64_range. intros Hm Hz He. unfold modpow_i64.
  destruct (Z.eqb_spec m 1) as [->|]; [exists 0; split; [done|apply Z.divide_1_l]|].
  destruct (Z.eqb_spec m 0); [done|].
  destruct (i128_reduce_congruent base m Hz ltac:(lia)) as (y & -> & Hy & Hyb). cbn [mbind res_bind].
  destruct (modpow_loop_spec 64 m 1 y exp) as (r & -> & Hd & Hr & Hr'); [done|lia..|done|].
  cbn [mbind res_bind]. eexists. split; [done|]. unfold i128_as_i64.
  assert (Hr63 : as_i64 r = r ∨ m = - 2 ^ 63 ∧ r = 2 ^ 63).
  { destruct (Z.eq_dec r (2 ^ 63)); [right; lia|]. left. apply as_i64_id. unfold i64_range. lia. }
  apply (divide_trans_sub _ _ r).
  { destruct Hr63 as [->|[-> ->]]; [rewrite Z.sub_diag; by exists 0|]. by exists 2. }
  apply (divide_trans_sub _ _ _ _ Hd). rewrite Z.mul_1_l. by apply divide_pow_congruent; [lia|].
Qed.

Lemma abs_divide m a : (m | a) ↔ (Z.abs m | a).
Proof. symmetry. apply Z.divide_abs_l. Qed.

(** The inverse of a residue [p] of the power, adjusted to the sign of [m]. *)
Lemma inverse_adjusted p b e m o :
  m ≠ 0 → (m | p - b ^ (- e)) → inverse_result p (Z.abs m) o →
  match o with
  | Some x =>
      Z.gcd (b ^ (- e)) m = 1 ∧
      let y := if (m <? 0) && negb (x =? 0) then x - Z.abs m else x in
      y mod m = y ∧ (m | y * b ^ (- e) - 1)
  | None => Z.gcd (b ^ (- e)) m ≠ 1
  end.
Proof.
  intros Hm Hp Ho. rewrite <- (congruent_gcd m p (b ^ (- e)) Hm Hp), <- (Z.gcd_abs_r p m).
  destruct o as [x|]; [|done]. destruct Ho as [Hx Hd]. rewrite <- abs_divide in Hd. split.
  { apply Z.bezout_1_gcd. destruct Hd as [k Hk]. exists x, (- k * Z.sgn m).
    pose proof (Z.sgn_abs m). pose proof (Z.abs_sgn m). nia. }
  intros y. split.
  - unfold y. destruct (Z.ltb_spec m 0), (Z.eqb_spec x 0); cbn; symmetry;
      [by subst x; rewrite Z.mod_0_l|apply Z.mod_unique with 0; lia|subst x; by rewrite Z.mod_0_l|].
    apply Z.mod_unique with 0; lia.
  - apply (divide_trans_sub _ _ (y * p)).
    { rewrite !(Z.mul_comm y). apply divide_mul_congruent. rewrite <- Z.divide_opp_r.
      by replace (- (b ^ (- e) - p)) with (p - b ^ (- e)) by lia. }
    apply (divide_trans_sub _ _ (x * p)); [|done]. apply divide_mul_congruent. unfold y.
    destruct (_ && _); [|rewrite Z.sub_diag; by exists 0].
    replace (x - Z.abs m - x) with (- Z.abs m) by lia. rewrite Z.divide_opp_r.
    apply Z.divide_abs_r, Z.divide_refl.
Qed.

Lemma returns_int_from_bigint (n : B) z : bi_Z n = z → returns_int (Return (value_from_bigint n)) z.
Proof.
  intros <-. destruct (value_from_bigint_spec n) as (Hwf & Hv). by eexists.
Qed.

Lemma powered_bigint_spec (n : B) :
  ∃ p, powered_bigint (value_from_bigint n) = Return p ∧ bi_Z p = bi_Z n.
Proof.
  rewrite value_from_bigint_eq. unfold value_bigint. rewrite bi_to_i64_Z. destruct (_ && _); cbn; eauto.
  eexists. split; [done|]. by rewrite bi_from_i64_Z.
Qed.

Lemma pow_mod_big_spec base_val exp_val mod_val b e m :
  int_value base_val = Some b → int_value exp_val = Some e → int_value mod_val = Some m →
  pow_mod_result b e m (pow_mod_big base_val exp_val mod_val).
Proof.
  intros Hb He Hm.
  assert (Harg : ∀ (v : Value B) z, int_value v = Some z → ∃ n, as_bigint_arg v = Return n ∧ bi_Z n = z).
  { intros v z Hv. unfold as_bigint_arg.
    destruct v; cbn in *; simplify_eq; eexists; (split; [done|]); by rewrite ?bi_from_i64_Z. }
  destruct (Harg _ _ Hb) as (b' & Hb' & <-), (Harg _ _ He) as (e' & He' & <-), (Harg _ _ Hm) as (m' & Hm' & <-).
  unfold pow_mod_big, pow_mod_result. rewrite Hb', He', Hm'. cbn [mbind outcome_bind].
  destruct (Z.eqb_spec (bi_Z m') 0) as [|Hz]; [done|].
  unfold modpow_bigint.
  destruct (Z.ltb_spec (bi_Z e') 0), (Z.leb_spec 0 (bi_Z e')); try lia; cbn [orb].
  2: { destruct (Z.eqb_spec (bi_Z m') 0); [done|]. apply returns_int_from_bigint. by rewrite bi_modpow_Z. }
  set (am := if bi_Z m' <? 0 then bi_neg m' else m').
  assert (Ham : bi_Z am = Z.abs (bi_Z m')).
  { unfold am. destruct (Z.ltb_spec (bi_Z m') 0); rewrite ?bi_neg_Z; lia. }
  clearbody am. rewrite !bi_neg_Z. destruct (Z.ltb_spec (- bi_Z e') 0); [lia|].
  destruct (Z.eqb_spec (bi_Z am) 0); [lia|]. cbn [orb lift mbind outcome_bind].
  set (p := bi_modpow b' (bi_neg e') am).
  assert (Hp : bi_Z p = bi_Z b' ^ (- bi_Z e') mod Z.abs (bi_Z m')).
  { unfold p. by rewrite bi_modpow_Z, bi_neg_Z, Ham by (rewrite ?bi_neg_Z; lia). }
  clearbody p.
  destruct (powered_bigint_spec p) as (p' & -> & Hp'). cbn [mbind outcome_bind].
  destruct (modinv_bigint_spec p' am) as (o & -> & Ho); [lia|]. cbn [lift mbind outcome_bind].
  rewrite Ham, Z.abs_idemp in Ho.
  pose proof (inverse_adjusted (bi_Z p') (bi_Z b') (bi_Z e') (bi_Z m') (bi_Z <$> o) Hz) as Ha.
  rewrite Hp', Hp in Ha, Ho.
  assert (Hc : (bi_Z m' | bi_Z b' ^ (- bi_Z e') mod Z.abs (bi_Z m') - bi_Z b' ^ (- bi_Z e'))).
  { apply abs_divide, mod_congruent. lia. }
  specialize (Ha Hc Ho). destruct o as [inv|]; cbn [fmap option_fmap option_map] in Ha.
  - destruct Ha as [-> Ha]. cbn [Z.eqb Pos.eqb]. eexists. split; [by apply returns_int_from_bigint|].
    rewrite bi_eqb_Z, bi_from_i64_Z. cbv zeta in Ha.
    destruct ((bi_Z m' <? 0) && negb (bi_Z inv =? 0)); [|done]. by rewrite bi_sub_Z, Ham.
  - destruct (Z.eqb_spec (Z.gcd (bi_Z b' ^ (- bi_Z e')) (bi_Z m')) 1); done.
Qed.

Lemma as_i64_arg_spec (v : Value B) z :
  value_wf v → is_bigint v = false → int_value v = Some z → as_i64_arg v = Return z ∧ i64_range z.
Proof.
  intros Hwf Hb Hv. destruct v; cbn in *; simplify_eq; split; try done. by destruct b.
Qed.

(** On machine integers the remainder of a non-negative power is the floor
    remainder for a positive modulus only. *)
Lemma pow_mod_i64_spec base_val exp_val mod_val b e m :
  value_wf base_val → value_wf exp_val → value_wf mod_val →
  is_bigint base_val = false → is_bigint exp_val = false → is_bigint mod_val = false →
  int_value base_val = Some b → int_value exp_val = Some e → int_value mod_val = Some m →
  (0 ≤ m ∨ e < 0 ∧ m ≠ - 2 ^ 63) →
  pow_mod_result b e m (pow_mod_i64 base_val exp_val mod_val).
Proof.
  intros Hbw Hew Hmw Hbb Heb Hmb Hb He Hm Hsafe.
  destruct (as_i64_arg_spec _ _ Hbw Hbb Hb) as [Hb' Hbr], (as_i64_arg_spec _ _ Hew Heb He) as [He' Her],
    (as_i64_arg_spec _ _ Hmw Hmb Hm) as [Hm' Hmr].
  unfold pow_mod_i64, pow_mod_result. rewrite Hb', He', Hm'. cbn [mbind outcome_bind].
  assert (Hr := Hmr). unfold i64_range in Her, Hr.
  destruct (Z.eqb_spec m 0) as [|Hz]; [done|].
  destruct (Z.ltb_spec e 0), (Z.leb_spec 0 e); try lia.
  - destruct (modpow_i64_congruent b (Z.abs e) m Hmr Hz) as (p & -> & Hp); [unfold two64; lia|].
    cbn [lift mbind outcome_bind].
    destruct (modinv_i64_spec p m Hmr Hz) as (o & -> & Ho). cbn [lift mbind outcome_bind].
    rewrite Z.abs_neq in Hp by lia. pose proof (inverse_adjusted p b e m o Hz Hp Ho) as Ha.
    destruct o as [inv|]; [|by destruct (Z.eqb_spec (Z.gcd (b ^ (- e)) m) 1)].
    destruct Ho as [Hi _], Ha as [-> Ha]. cbn [Z.eqb Pos.eqb]. eexists. split; [|exact Ha].
    rewrite (as_i64_id (Z.abs m)) by (unfold i64_range; lia).
    destruct ((m <? 0) && negb (inv =? 0)); [rewrite i64_exact_ok by (unfold i64_range; lia)|];
      cbn [lift mbind outcome_bind]; (eexists; split; [done|]); cbn; unfold i64_range; (split; [lia|done]).
  - replace (as_u64 e) with e by (symmetry; apply Z.mod_small; unfold two64; lia).
    assert (Hpow : modpow_i64 b e m = Ok (b ^ e mod m)).
    { destruct (Z.eq_dec m 1) as [->|]; [by rewrite Z.mod_1_r|].
      apply modpow_i64_spec; unfold two64; lia. }
    rewrite Hpow. eexists. split; [done|]. split; [|done]. by apply i64_mod_range.
Qed.

Lemma pow_mod_spec base_val exp_val mod_val b e m :
  value_wf base_val → value_wf exp_val → value_wf mod_val →
  int_value base_val = Some b → int_value exp_val = Some e → int_value mod_val = Some m →
  (is_bigint base_val || is_bigint exp_val || is_bigint mod_val = true ∨ 0 ≤ m ∨ e < 0 ∧ m ≠ - 2 ^ 63) →
  pow_mod_result b e m (pow_mod base_val exp_val mod_val).
Proof.
  intros Hbw Hew Hmw Hb He Hm Hsafe. unfold pow_mod.
  destruct (is_bigint base_val) eqn:Hbb; [by apply pow_mod_big_spec|].
  destruct (is_bigint exp_val) eqn:Heb; [by apply pow_mod_big_spec|].
  destruct (is_bigint mod_val) eqn:Hmb; [by apply pow_mod_big_spec|].
  cbn [orb]. apply pow_mod_i64_spec; try done. by destruct Hsafe.
Qed.
End big.
