(* ===== verification/Slices.v ===== *)
(** Slices and indices of built-in sequences: bound resolution and the extended
    slice operations (crates/pyrust/src/interpreter/runtime/slicing.rs,
    expr/slicing_membership.rs, expr/slicing_fast.rs,
    interpreter/helpers/numeric_basics.rs) and [slice.indices]
    (crates/pyrust-builtins/src/slice.rs). *)

From S2P Require Import Outcome Prelude Double Keys IntArith.

Definition IndexError (message : string) : PyError := Named "IndexError" message.

(** [x.clamp(lo, hi)], which asserts that the bounds are ordered. *)
Definition i64_clamp (x lo hi : Z) : res Z :=
  if lo <=? hi then Ok (Z.max lo (Z.min x hi)) else Panic.

Section slices.
Context {B : Type} `{BigInt B} `{BigIntArith B}.
Implicit Types (v : Value B) (lo hi st : option (Value B)).

Definition i64_min : Z := - 2 ^ 63.
Definition i64_max : Z := 2 ^ 63 - 1.

(** ** Bounds *)

(** An integer clamped to an [i64]; anything else raises [err]. *)
Definition clamped_index (err : PyError) v : outcome Z :=
  match v with
  | VInt i => Return i
  | VBool b => Return (if b then 1 else 0)
  | VBigInt big =>
      Return (match bi_to_i64 big with
              | Some i => i
              | None => if bi_Z big <? 0 then i64_min else i64_max
              end)
  | _ => Raise err
  end.

Definition bad_slice_index : PyError :=
  TypeError "slice indices must be integers or None or have an __index__ method".
Definition zero_step : PyError := ValueError "slice step cannot be zero".

(** The interpreter's [slice_index_from_value]. *)
Definition slice_index_from_value v : outcome Z := clamped_index bad_slice_index v.

Definition is_none (o : option (Value B)) : bool :=
  match o with None | Some VNone => true | _ => false end.

Definition resolve_step st : outcome Z :=
  match st with
  | None | Some VNone => Return 1
  | Some v =>
      s ← slice_index_from_value v;
      if s =? 0 then Raise zero_step else Return s
  end.

(** The closure [normalize]. *)
Definition normalize (len idx : Z) : res Z :=
  if idx <? 0 then i ← i64_exact (idx + len); i64_clamp i 0 len
  else i64_clamp idx 0 len.

Definition resolve_bound (len step default : Z) (o : option (Value B)) : outcome Z :=
  match o with
  | None | Some VNone => Return default
  | Some v =>
      i ← slice_index_from_value v;
      lift (if 0 <? step then normalize len i
            else if i <? 0 then j ← i64_exact (i + len); i64_clamp j (-1) (len - 1)
            else i64_clamp i (-1) (len - 1))
  end.

Definition resolve_slice_bounds (len : Z) lo hi st : outcome (Z * Z * Z) :=
  step ← resolve_step st;
  let start_default := if 0 <? step then 0 else len - 1 in
  let end_default := if 0 <? step then len else -1 in
  start ← resolve_bound len step start_default lo;
  stop ← resolve_bound len step end_default hi;
  Return (start, stop, step).

(** ** The positions of an extended slice *)

(** The loop over [0..count]; the last increment is skipped. *)
Fixpoint collect_targets (count : nat) (len i step : Z) : res (list nat) :=
  match count with
  | O => Ok []
  | S k =>
      let here := if (0 <=? i) && (i <? len) then [Z.to_nat i] else [] in
      i ← (if (k =? 0)%nat then Ok i else i64_exact (i + step));
      rest ← collect_targets k len i step;
      Ok (here ++ rest)
  end.

Definition slice_count (start stop step : Z) : Z :=
  let span := stop - start in
  let count :=
    if 0 <? step then if 0 <? span then Z.quot (span - 1) step + 1 else 0
    else if span <? 0 then Z.quot (span + 1) step + 1
    else 0 in
  Z.max count 0.

Definition slice_target_indices (len start stop step : Z) : res (list nat) :=
  collect_targets (Z.to_nat (slice_count start stop step)) len start step.

(** ** Lists *)

Context {A : Type}.
Implicit Types items new_items : list A.

(** [items[s..e]], [items.splice(s..e, new)] and [items.drain(s..e)] panic on
    a range that is out of order or out of bounds. *)
Definition range_ok (s e len : Z) : bool := (s <=? e) && (e <=? len).

Definition vec_range items (s e : Z) : res (list A) :=
  if range_ok s e (vlen items) then Ok (take (Z.to_nat (e - s)) (drop (Z.to_nat s) items)) else Panic.
Definition vec_splice items (s e : Z) new_items : res (list A) :=
  if range_ok s e (vlen items) then Ok (take (Z.to_nat s) items ++ new_items ++ drop (Z.to_nat e) items)
  else Panic.

(** The list arm of [fast_slice_contiguous]. *)
Definition fast_slice_contiguous items (start stop : Z) : res (list A) :=
  let s := as_u64 start in
  let e := as_u64 (Z.max stop start) in
  vec_range items s e.

(** [eval_slice] on a list, a tuple or bytes, whose bounds [__index__] has
    resolved.  Returning the object itself for a full slice of a tuple is
    returning its items. *)
Definition eval_slice items lo hi st : outcome (list A) :=
  '(start, stop, step) ← resolve_slice_bounds (vlen items) lo hi st;
  if step =? 1 then lift (fast_slice_contiguous items start stop)
  else
    indices ← lift (slice_target_indices (vlen items) start stop step);
    lift (mapM (vnth items) indices).

Definition size_mismatch (new old : nat) : PyError :=
  ValueError ("attempt to assign sequence of size " +:+ pretty new +:+ " to extended slice of size "
              +:+ pretty old).

Definition slice_setitem items lo hi st new_items : outcome (list A) :=
  '(start, stop, step) ← resolve_slice_bounds (vlen items) lo hi st;
  if step =? 1 then lift (vec_splice items (as_u64 start) (as_u64 stop) new_items)
  else
    indices ← lift (slice_target_indices (vlen items) start stop step);
    if negb (length indices =? length new_items)%nat then
      Raise (size_mismatch (length new_items) (length indices))
    else lift (rfold (λ items x, vset items x.1 x.2) items (zip indices new_items)).

Definition slice_delitem items lo hi st : outcome (list A) :=
  '(start, stop, step) ← resolve_slice_bounds (vlen items) lo hi st;
  if step =? 1 then lift (vec_splice items (as_u64 start) (as_u64 stop) [])
  else
    indices ← lift (slice_target_indices (vlen items) start stop step);
    match indices with
    | [] => Return items
    | _ =>
        deleted ← lift (rfold (λ d index, vset d index true) (replicate (length items) false) indices);
        Return ((zip deleted items ≫= λ x, if x.1 : bool then [] else [x.2]))
    end.
End slices.

(** ** A single index *)

Section index.
Context {B : Type} `{BigInt B}.

Definition normalize_index_inner (index : Value B) (len : Z) (label oor_msg : string) : outcome Z :=
  value ← match index with
          | VInt v => Return v
          | VBool b => Return (bool_int b)
          | VBigInt _ => Raise (IndexError "cannot fit 'int' into an index-sized integer")
          | v =>
              Raise (TypeError
                (if decide (label = "string")
                 then "string indices must be integers, not '" +:+ builtin_type_name v +:+ "'"
                 else label +:+ " indices must be integers or slices, not " +:+ builtin_type_name v))
          end;
  value ← lift (if value <? 0 then i64_exact (value + len) else Ok value);
  if (value <? 0) || (len <=? value) then Raise (IndexError oor_msg) else Return value.

Definition normalize_index (index : Value B) (len : Z) (label : string) : outcome Z :=
  normalize_index_inner index len label (label +:+ " index out of range").

Definition normalize_index_write (index : Value B) (len : Z) (label : string) : outcome Z :=
  normalize_index_inner index len label (label +:+ " assignment index out of range").

(** ** [slice.indices] *)

Definition builtins_slice_index (v : Value B) : outcome Z :=
  clamped_index (TypeError ("'" +:+ builtin_type_name v +:+ "' object cannot be interpreted as an integer")) v.
Definition slice_bound_from_value (v : Value B) : outcome Z := clamped_index bad_slice_index v.

Definition clamp_bound (length step : Z) (v : Value B) (default_pos default_neg : Z) : outcome Z :=
  match v with
  | VNone => Return (if 0 <? step then default_pos else default_neg)
  | _ =>
      raw ← slice_bound_from_value v;
      lift (resolved ← (if raw <? 0 then i64_exact (raw + length) else Ok raw);
            if 0 <? step then i64_clamp resolved 0 length else i64_clamp resolved (-1) (length - 1))
  end.

Definition compute_indices (length : Z) (lo hi st : Value B) : outcome (Z * Z * Z) :=
  step ← match st with
         | VNone => Return 1
         | _ => s ← slice_bound_from_value st; if s =? 0 then Raise zero_step else Return s
         end;
  start ← clamp_bound length step lo 0 (length - 1);
  stop ← clamp_bound length step hi length (-1);
  Return (start, stop, step).

(** The method [slice(lo, hi, st).indices(arg)], called with one argument. *)
Definition slice_indices (arg lo hi st : Value B) : outcome (Z * Z * Z) :=
  length ← builtins_slice_index arg;
  if length <? 0 then Raise (ValueError "length should not be negative")
  else compute_indices length lo hi st.
End index.
