(* ===== verification/SliceSpec.v ===== *)
(** Slices as Python defines them, and the proof that the interpreter's bound
    resolution, extended slices, slice assignment and slice deletion compute
    them. *)

From S2P Require Import Outcome Prelude Double Keys IntArith Slices.

(** ** The definition of a slice *)

(** A bound, counted from the end when negative, then brought into the
    sequence. *)
Definition adjust (len step i : Z) : Z :=
  let i := if i <? 0 then i + len else i in
  if 0 <? step then Z.max 0 (Z.min i len) else Z.max (-1) (Z.min i (len - 1)).

Definition adjust_start (len step : Z) (i : option Z) : Z :=
  match i with Some i => adjust len step i | None => if 0 <? step then 0 else len - 1 end.
Definition adjust_stop (len step : Z) (i : option Z) : Z :=
  match i with Some i => adjust len step i | None => if 0 <? step then len else -1 end.

(** Whether the position [x] comes before the bound [stop] of a slice. *)
Definition before_stop (step stop x : Z) : bool := if 0 <? step then x <? stop else stop <? x.

(** The positions [start], [start + step], ... up to [stop]: a slice of a
    sequence of length [len] has at most [len] of them. *)
Definition slice_positions (len : Z) (i j : option Z) (step : Z) : list Z :=
  let start := adjust_start len step i in
  let stop := adjust_stop len step j in
  filter (before_stop step stop) ((λ n, start + n * step) <$> seqZ 0 len).

(** The items of a slice. *)
Definition py_slice {A} (items : list A) (i j : option Z) (step : Z) : list A :=
  omap (λ x, items !! Z.to_nat x) (slice_positions (vlen items) i j step).

(** The integer of a slice argument: [Some None] for an absent one. *)
Definition slice_arg {B} `{BigInt B} (o : option (Value B)) : option (option Z) :=
  match o with
  | None | Some VNone => Some None
  | Some v => Some <$> int_value v
  end.

(** An integer brought into the range of an [i64]. *)
Definition saturate (x : Z) : Z := Z.max i64_min (Z.min x i64_max).

Definition arg_wf {B} `{BigInt B} (o : option (Value B)) : Prop := match o with Some v => value_wf v | None => True end.

(** ** Bounds *)

Section bounds.
Context {B : Type} `{BigInt B} `{!BigIntLaws B}.
Implicit Types (v : Value B) (o : option (Value B)).

Lemma saturate_id x : i64_range x → saturate x = x.
Proof. unfold saturate, i64_range, i64_min, i64_max. lia. Qed.

Lemma saturate_range x : i64_range (saturate x).
Proof. unfold saturate, i64_range, i64_min, i64_max. lia. Qed.

Lemma clamped_index_int err v i :
  value_wf v → int_value v = Some i → clamped_index err v = Return (saturate i).
Proof.
  destruct v as [|[]|n|n| | | | |]; intros Hwf [= <-]; cbn [clamped_index]; try done.
  - by rewrite saturate_id by exact Hwf.
  - rewrite bi_to_i64_Z. unfold saturate, i64_min, i64_max.
    destruct (Z.leb_spec (- 2 ^ 63) (bi_Z n)), (Z.ltb_spec (bi_Z n) (2 ^ 63)); cbn;
      try (destruct (Z.ltb_spec (bi_Z n) 0)); f_equal; lia.
Qed.

Lemma clamped_index_other err v : int_value v = None → clamped_index err v = Raise err.
Proof. by destruct v. Qed.

Lemma i64_clamp_ok x lo hi : lo ≤ hi → i64_clamp x lo hi = Ok (Z.max lo (Z.min x hi)).
Proof. intros Hle. unfold i64_clamp. by destruct (Z.leb_spec lo hi); [|lia]. Qed.

Lemma adjust_saturate len step i : 0 ≤ len < 2 ^ 63 → adjust len step (saturate i) = adjust len step i.
Proof.
  intros Hlen. unfold adjust, saturate, i64_min, i64_max.
  destruct (Z.ltb_spec (Z.max (- 2 ^ 63) (Z.min i (2 ^ 63 - 1))) 0), (Z.ltb_spec i 0), (0 <? step); lia.
Qed.

Lemma adjust_step len s1 s2 i : (0 <? s1) = (0 <? s2) → adjust len s1 i = adjust len s2 i.
Proof. unfold adjust. by intros ->. Qed.

(** What the code does with a present bound, after the clamp of its value. *)
Lemma resolve_bound_adjust len step i : 0 ≤ len < 2 ^ 63 → i64_range i →
  (if 0 <? step then normalize len i
   else if i <? 0 then j ← i64_exact (i + len); i64_clamp j (-1) (len - 1)
   else i64_clamp i (-1) (len - 1)) = Ok (adjust len step i).
Proof.
  intros Hlen Hi. unfold normalize, adjust, i64_range in *.
  destruct (0 <? step), (Z.ltb_spec i 0); try (rewrite i64_exact_ok by (unfold i64_range; lia)); cbn [mbind res_bind];
    rewrite i64_clamp_ok by lia; done.
Qed.

Lemma resolve_bound_spec len step default o :
  0 ≤ len < 2 ^ 63 → arg_wf o →
  resolve_bound len step default o =
  match slice_arg o with
  | Some None => Return default
  | Some (Some i) => Return (adjust len step i)
  | None => Raise bad_slice_index
  end.
Proof.
  intros Hlen Hwf. destruct o as [v|]; [|done].
  assert (Hv : ∀ w, v = w → w ≠ VNone → resolve_bound len step default (Some w) =
    match int_value w with Some i => Return (adjust len step i) | None => Raise bad_slice_index end).
  { intros w -> Hw. unfold resolve_bound, slice_index_from_value.
    destruct (int_value w) as [i|] eqn:Hi.
    - destruct w; try done; erewrite clamped_index_int by eassumption; cbn [mbind outcome_bind];
        rewrite resolve_bound_adjust, adjust_saturate by (done || apply saturate_range); done.
    - destruct w; done. }
  destruct v; try done; rewrite (Hv _ eq_refl) by done; cbn; done.
Qed.

Lemma resolve_step_spec o : arg_wf o →
  resolve_step o =
  match slice_arg o with
  | Some None => Return 1
  | Some (Some s) => if s =? 0 then Raise zero_step else Return (saturate s)
  | None => Raise bad_slice_index
  end.
Proof.
  intros Hwf. destruct o as [v|]; [|done]. unfold resolve_step, slice_index_from_value.
  destruct (int_value v) as [s|] eqn:Hs.
  - assert (Hz : (saturate s =? 0) = (s =? 0)).
    { unfold saturate, i64_min, i64_max. destruct (Z.eqb_spec s 0), (Z.eqb_spec (Z.max (- 2 ^ 63) (Z.min s (2 ^ 63 - 1))) 0); lia. }
    destruct v; try done; erewrite clamped_index_int by eassumption; cbn [mbind outcome_bind slice_arg];
      rewrite Hs, Hz; done.
  - by destruct v.
Qed.

(** The arguments of a slice, before they are adjusted to a length. *)
Definition step_arg st : outcome Z :=
  match slice_arg st with
  | Some None => Return 1
  | Some (Some s) => if s =? 0 then Raise zero_step else Return s
  | None => Raise bad_slice_index
  end.

Definition bound_arg o : outcome (option Z) :=
  match slice_arg o with Some i => Return i | None => Raise bad_slice_index end.

Definition slice_args lo hi st : outcome (option Z * option Z * Z) :=
  step ← step_arg st;
  i ← bound_arg lo;
  j ← bound_arg hi;
  Return (i, j, step).

Lemma saturate_sign s : (0 <? saturate s) = (0 <? s).
Proof.
  unfold saturate, i64_min, i64_max. destruct (Z.ltb_spec 0 (Z.max (- 2 ^ 63) (Z.min s (2 ^ 63 - 1)))), (Z.ltb_spec 0 s); lia.
Qed.

Lemma resolve_slice_bounds_spec len lo hi st :
  0 ≤ len < 2 ^ 63 → arg_wf lo → arg_wf hi → arg_wf st →
  resolve_slice_bounds len lo hi st =
  ('(i, j, step) ← slice_args lo hi st;
   Return (adjust_start len step i, adjust_stop len step j, saturate step)).
Proof.
  intros Hlen Hlo Hhi Hst. unfold resolve_slice_bounds, slice_args, step_arg, bound_arg.
  rewrite resolve_step_spec by done. destruct (slice_arg st) as [[s|]|]; [|..|done]; cbn [mbind outcome_bind].
  - destruct (s =? 0); [done|]. cbn [mbind outcome_bind]. rewrite saturate_sign, !resolve_bound_spec by done.
    unfold adjust_start, adjust_stop.
    destruct (slice_arg lo) as [[i|]|], (slice_arg hi) as [[j|]|]; cbn; try done;
      by rewrite ?(adjust_step len (saturate s) s _ (saturate_sign s)).
  - rewrite !resolve_bound_spec by done. unfold adjust_start, adjust_stop.
    destruct (slice_arg lo) as [[i|]|], (slice_arg hi) as [[j|]|]; cbn; done.
Qed.
End bounds.

(** ** Positions *)

(** The number of positions of a slice whose bounds are adjusted. *)
Lemma slice_count_pos start stop step n : 0 < step → 0 ≤ n →
  (n < slice_count start stop step ↔ start + n * step < stop).
Proof.
  intros Hs Hn. unfold slice_count. destruct (Z.ltb_spec 0 step); [|lia].
  destruct (Z.ltb_spec 0 (stop - start)).
  - rewrite Z.quot_div_nonneg by lia. pose proof (Z.div_mod (stop - start - 1) step ltac:(lia)).
    pose proof (Z.mod_pos_bound (stop - start - 1) step Hs). split; intros; nia.
  - split; intros; nia.
Qed.

Lemma slice_count_neg start stop step n : step < 0 → 0 ≤ n →
  (n < slice_count start stop step ↔ stop < start + n * step).
Proof.
  intros Hs Hn. unfold slice_count. destruct (Z.ltb_spec 0 step); [lia|].
  destruct (Z.ltb_spec (stop - start) 0).
  - replace (Z.quot (stop - start + 1) step) with ((start - stop - 1) / - step).
    2:{ rewrite <- Z.quot_div_nonneg by lia. replace (stop - start + 1) with (- (start - stop - 1)) by lia.
        rewrite <- (Z.opp_involutive step) at 2. by rewrite Z.quot_opp_opp by lia. }
    pose proof (Z.div_mod (start - stop - 1) (- step) ltac:(lia)).
    pose proof (Z.mod_pos_bound (start - stop - 1) (- step) ltac:(lia)). split; intros; nia.
  - split; intros; nia.
Qed.

Lemma slice_count_spec start stop step n : step ≠ 0 → 0 ≤ n →
  (n < slice_count start stop step ↔ before_stop step stop (start + n * step) = true).
Proof.
  intros Hs Hn. unfold before_stop. destruct (Z.ltb_spec 0 step) as [Hp|Hp].
  - rewrite slice_count_pos by done. by rewrite Z.ltb_lt.
  - rewrite slice_count_neg by lia. by rewrite Z.ltb_lt.
Qed.

(** Filtering a range by a condition that holds on an initial segment. *)
Lemma filter_prefix (P : Z → Prop) `{∀ x, Decision (P x)} (f : Z → Z) (len c : Z) :
  0 ≤ c ≤ len → (∀ n, 0 ≤ n < len → (n < c ↔ P (f n))) →
  filter P (f <$> seqZ 0 len) = f <$> seqZ 0 c.
Proof.
  intros Hc HP. replace len with (c + (len - c)) at 1 by lia.
  rewrite seqZ_app, fmap_app, filter_app, (filter_all _ (f <$> seqZ 0 c)) by
    (lia || (intros x (n & -> & Hn%elem_of_seqZ)%list_elem_of_fmap; apply HP; lia)).
  rewrite <- (app_nil_r (f <$> seqZ 0 c)) at 2. f_equal.
  apply elem_of_nil_inv. intros x. rewrite list_elem_of_filter, list_elem_of_fmap.
  intros (Hx & n & -> & Hn%elem_of_seqZ). apply HP in Hx; lia.
Qed.

Lemma collect_targets_spec k len i step :
  i64_range len → (∀ n, 0 ≤ n < Z.of_nat k → 0 ≤ i + n * step < len) →
  collect_targets k len i step = Ok ((λ n, Z.to_nat (i + n * step)) <$> seqZ 0 (Z.of_nat k)).
Proof.
  revert i. induction k as [|k IH]; intros i Hlen Hin; [done|].
  pose proof (Hin 0 ltac:(lia)) as Hi. rewrite Nat2Z.inj_succ, seqZ_cons, Z.pred_succ, fmap_cons by lia.
  cbn [collect_targets].
  destruct (Z.leb_spec 0 i), (Z.ltb_spec i len); cbn [andb]; try lia.
  replace (i + 0 * step) with i by lia. destruct (Nat.eqb_spec k 0) as [->|Hk]; [done|].
  pose proof (Hin 1 ltac:(lia)) as Hnext.
  rewrite i64_exact_ok by (unfold i64_range in *; lia). cbn [mbind res_bind].
  rewrite IH; [|done|]; cbn [mbind res_bind app].
  - do 2 f_equal. rewrite <- (fmap_add_seqZ 1 0), <- list_fmap_compose. apply list_fmap_ext.
    intros ? n _. cbn. f_equal. lia.
  - intros n Hn. specialize (Hin (n + 1)). lia.
Qed.

Lemma before_stop_saturate len start stop step n :
  0 ≤ len < 2 ^ 63 → -1 ≤ stop ≤ len → step ≠ 0 → 0 ≤ n →
  (if 0 <? step then 0 ≤ start else start ≤ len - 1) →
  before_stop step stop (start + n * step) = before_stop (saturate step) stop (start + n * saturate step) ∧
  (before_stop step stop (start + n * step) = true → start + n * step = start + n * saturate step).
Proof.
  intros Hlen Hstop Hs Hn Hstart.
  destruct (decide (saturate step = step)) as [->|Hsat]; [done|].
  unfold before_stop. rewrite saturate_sign. unfold saturate, i64_min, i64_max in *.
  destruct (Z.eq_dec n 0) as [->|Hn0]; [split; intros; done|].
  destruct (Z.ltb_spec 0 step).
  - replace (Z.max (- 2 ^ 63) (Z.min step (2 ^ 63 - 1))) with (2 ^ 63 - 1) by lia.
    split; [|intros; nia]. destruct (Z.ltb_spec (start + n * step) stop), (Z.ltb_spec (start + n * (2 ^ 63 - 1)) stop); nia.
  - replace (Z.max (- 2 ^ 63) (Z.min step (2 ^ 63 - 1))) with (- 2 ^ 63) by lia.
    split; [|intros; nia]. destruct (Z.ltb_spec stop (start + n * step)), (Z.ltb_spec stop (start + n * - 2 ^ 63)); nia.
Qed.

Lemma adjust_start_range len step i : 0 ≤ len →
  if 0 <? step then 0 ≤ adjust_start len step i ≤ len else -1 ≤ adjust_start len step i ≤ len - 1.
Proof.
  intros Hlen. unfold adjust_start, adjust. destruct (0 <? step), i as [i|]; lia.
Qed.

Lemma adjust_stop_range len step i : 0 ≤ len →
  if 0 <? step then 0 ≤ adjust_stop len step i ≤ len else -1 ≤ adjust_stop len step i ≤ len - 1.
Proof.
  intros Hlen. unfold adjust_stop, adjust. destruct (0 <? step), i as [i|]; lia.
Qed.

(** The positions the code walks are those of the definition. *)
Lemma slice_target_indices_spec len i j step :
  0 ≤ len < 2 ^ 63 → step ≠ 0 →
  slice_target_indices len (adjust_start len step i) (adjust_stop len step j) (saturate step) =
  Ok (Z.to_nat <$> slice_positions len i j step).
Proof.
  intros Hlen Hs. unfold slice_target_indices, slice_positions.
  pose proof (adjust_start_range len step i ltac:(lia)) as Hstart.
  pose proof (adjust_stop_range len step j ltac:(lia)) as Hstop.
  set (start := adjust_start len step i) in *. set (stop := adjust_stop len step j) in *.
  clearbody start stop.
  assert (Hs' : saturate step ≠ 0) by (unfold saturate, i64_min, i64_max; lia).
  set (c := slice_count start stop (saturate step)).
  assert (Hc0 : 0 ≤ c) by (unfold c, slice_count; lia).
  assert (Hsat : ∀ n, 0 ≤ n → _) by (intros n Hn; apply (before_stop_saturate len start stop step n);
    [done|destruct (0 <? step); lia|done|done|destruct (0 <? step); lia]).
  assert (Hcount : ∀ n, 0 ≤ n → (n < c ↔ before_stop step stop (start + n * step) = true)).
  { intros n Hn. unfold c. rewrite slice_count_spec by done. by destruct (Hsat n Hn) as [-> _]. }
  assert (Hclen : c ≤ len).
  { destruct (Z.le_gt_cases c len) as [|Hgt]; [done|]. apply Hcount in Hgt; [|lia].
    unfold before_stop in Hgt. destruct (Z.ltb_spec 0 step); apply Z.ltb_lt in Hgt; nia. }
  rewrite (filter_prefix _ _ len c); [|done|intros n Hn; rewrite Hcount by lia; symmetry; apply Is_true_true].
  assert (Heq : ∀ n, 0 ≤ n < c → start + n * step = start + n * saturate step).
  { intros n Hn. apply Hsat; [lia|]. apply Hcount; lia. }
  assert (Hin : ∀ n, 0 ≤ n < c → 0 ≤ start + n * saturate step < len).
  { intros n Hn. rewrite <- Heq by done. assert (Hb : n < c) by lia. apply Hcount in Hb; [|lia].
    unfold before_stop in Hb. destruct (Z.ltb_spec 0 step); apply Z.ltb_lt in Hb; nia. }
  rewrite collect_targets_spec; [|unfold i64_range; lia|intros n Hn; apply Hin; lia].
  rewrite Z2Nat.id, <- list_fmap_compose by done. f_equal. apply list_fmap_ext.
  intros k n Hk. apply lookup_seqZ in Hk as [-> Hk]. cbn. f_equal. symmetry. apply Heq. lia.
Qed.

Lemma slice_positions_elem len i j step x : x ∈ slice_positions len i j step ↔
  ∃ n, 0 ≤ n < len ∧ x = adjust_start len step i + n * step ∧ before_stop step (adjust_stop len step j) x = true.
Proof.
  unfold slice_positions. rewrite list_elem_of_filter, list_elem_of_fmap, Is_true_true. split.
  - intros (Hx & n & -> & Hn%elem_of_seqZ). exists n. split_and?; try done; lia.
  - intros (n & Hn & -> & Hx). split; [done|]. exists n. split; [done|]. apply elem_of_seqZ. lia.
Qed.

Lemma slice_positions_range len i j step x :
  0 ≤ len → step ≠ 0 → x ∈ slice_positions len i j step → 0 ≤ x < len.
Proof.
  intros Hlen Hs (n & Hn & -> & Hx)%slice_positions_elem.
  pose proof (adjust_start_range len step i Hlen). pose proof (adjust_stop_range len step j Hlen).
  unfold before_stop in Hx. destruct (Z.ltb_spec 0 step); apply Z.ltb_lt in Hx; nia.
Qed.

Lemma slice_positions_NoDup len i j step : step ≠ 0 → NoDup (slice_positions len i j step).
Proof.
  intros Hs. apply NoDup_filter, NoDup_fmap_2; [|apply NoDup_seqZ]. intros n m Hnm. nia.
Qed.

(** The positions of a slice of unit step. *)
Lemma slice_positions_unit len i j : 0 ≤ len →
  slice_positions len i j 1 = seqZ (adjust_start len 1 i) (Z.max 0 (adjust_stop len 1 j - adjust_start len 1 i)).
Proof.
  intros Hlen. unfold slice_positions.
  pose proof (adjust_start_range len 1 i Hlen) as Hi. pose proof (adjust_stop_range len 1 j Hlen) as Hj.
  cbn in Hi, Hj. rewrite (filter_prefix _ _ len (Z.max 0 (adjust_stop len 1 j - adjust_start len 1 i))); [|lia|].
  - trans (Z.add (adjust_start len 1 i) <$> seqZ 0 (Z.max 0 (adjust_stop len 1 j - adjust_start len 1 i))).
    + apply list_fmap_ext. intros ? n _. lia.
    + by rewrite fmap_add_seqZ, Z.add_0_r.
  - intros n Hn. cbn. rewrite Is_true_true, Z.ltb_lt. lia.
Qed.

Lemma omap_positions_nat {A} (items : list A) (l : list Z) :
  omap (λ x, items !! Z.to_nat x) l = omap (λ k, items !! k) (Z.to_nat <$> l).
Proof. induction l as [|x l IH]; [done|]. cbn. by destruct (items !! Z.to_nat x); rewrite IH. Qed.

Lemma mapM_vnth {A} (items : list A) (l : list nat) :
  Forall (λ k, (k < length items)%nat) l → mapM (vnth items) l = Ok (omap (λ k, items !! k) l).
Proof.
  induction 1 as [|k l Hk _ IH]; [done|]. destruct (lookup_lt_is_Some_2 _ _ Hk) as [x Hx]. cbn.
  by rewrite (vnth_lookup _ _ _ Hx), Hx, IH.
Qed.

Lemma seq_lookup_take {A} (items : list A) s c : (s + c ≤ length items)%nat →
  omap (λ k, items !! k) (seq s c) = take c (drop s items).
Proof.
  revert s. induction c as [|c IH]; intros s Hc; [done|]. cbn.
  destruct (lookup_lt_is_Some_2 items s) as [x Hx]; [lia|]. rewrite Hx.
  rewrite (drop_S _ _ _ Hx). cbn. by rewrite IH by lia.
Qed.

Lemma slice_positions_bounded {A} (items : list A) i j step : step ≠ 0 →
  Forall (λ k, (k < length items)%nat) (Z.to_nat <$> slice_positions (vlen items) i j step).
Proof.
  intros Hs. apply Forall_fmap, Forall_forall. intros x Hx. cbn. unfold vlen in *.
  apply slice_positions_range in Hx; [lia|lia|done].
Qed.

Section list_slices.
Context {B : Type} `{BigInt B} `{!BigIntLaws B} {A : Type}.
Implicit Types (lo hi st : option (Value B)) (items new_items : list A).

Lemma fast_slice_spec items i j : vlen items < 2 ^ 63 →
  fast_slice_contiguous items (adjust_start (vlen items) 1 i) (adjust_stop (vlen items) 1 j) =
  Ok (py_slice items i j 1).
Proof.
  intros Hlen. pose proof (vlen_nonneg items) as Hl. unfold py_slice.
  rewrite slice_positions_unit by done.
  pose proof (adjust_start_range (vlen items) 1 i Hl) as Hi. pose proof (adjust_stop_range (vlen items) 1 j Hl) as Hj.
  cbn in Hi, Hj. set (s := adjust_start (vlen items) 1 i) in *. set (e := adjust_stop (vlen items) 1 j) in *.
  clearbody s e. unfold fast_slice_contiguous, vec_range, range_ok.
  rewrite !as_u64_id by (unfold u64_range, two64; lia).
  destruct (Z.leb_spec s (Z.max e s)), (Z.leb_spec (Z.max e s) (vlen items)); try lia. cbn [andb]. f_equal.
  rewrite omap_positions_nat. replace (Z.max e s - s) with (Z.max 0 (e - s)) by lia.
  unfold seqZ. rewrite <- list_fmap_compose. unfold vlen in *.
  rewrite (list_fmap_ext _ (λ k, Z.to_nat s + k)%nat) by (intros ? k _; cbn; lia).
  rewrite fmap_add_seq, <- seq_lookup_take by lia. do 2 f_equal. lia.
Qed.

Lemma slice_args_step lo hi st i j step :
  slice_args lo hi st = Return (i, j, step) → step ≠ 0.
Proof.
  unfold slice_args, step_arg, bound_arg. destruct (slice_arg st) as [[s|]|]; [|..|done]; cbn [mbind outcome_bind].
  - destruct (Z.eqb_spec s 0); [done|]. cbn [mbind outcome_bind].
    by destruct (slice_arg lo), (slice_arg hi); intros [= _ _ <-].
  - by destruct (slice_arg lo), (slice_arg hi); intros [= _ _ <-].
Qed.

Lemma saturate_unit step : (saturate step =? 1) = (step =? 1).
Proof. unfold saturate, i64_min, i64_max. destruct (Z.eqb_spec step 1), (Z.eqb_spec (Z.max (- 2 ^ 63) (Z.min step (2 ^ 63 - 1))) 1); lia. Qed.

Lemma eval_slice_spec items lo hi st :
  vlen items < 2 ^ 63 → arg_wf lo → arg_wf hi → arg_wf st →
  eval_slice items lo hi st = ('(i, j, step) ← slice_args lo hi st; Return (py_slice items i j step)).
Proof.
  intros Hlen Hlo Hhi Hst. pose proof (vlen_nonneg items). unfold eval_slice.
  rewrite resolve_slice_bounds_spec by done.
  destruct (slice_args lo hi st) as [[[i j] step]| | |] eqn:Hargs; try done.
  apply slice_args_step in Hargs. cbn [mbind outcome_bind]. rewrite saturate_unit.
  destruct (Z.eqb_spec step 1) as [->|Hs]; [by rewrite fast_slice_spec|].
  rewrite slice_target_indices_spec by done. cbn [lift mbind outcome_bind].
  rewrite mapM_vnth by (by apply slice_positions_bounded). cbn [lift]. unfold py_slice.
  by rewrite omap_positions_nat.
Qed.

(** *** Assignment *)

(** Items replaced one position at a time. *)
Definition assign items (positions : list Z) new_items : list A :=
  foldl (λ l p, <[Z.to_nat p.1 := p.2]> l) items (zip positions new_items).

Lemma assign_length items positions new_items : length (assign items positions new_items) = length items.
Proof.
  unfold assign. generalize (zip positions new_items). intros l. revert items.
  induction l as [|p l IH]; intros items; [done|]. cbn. by rewrite IH, length_insert.
Qed.

Lemma assign_code items l new_items :
  Forall (λ k, (k < length items)%nat) (Z.to_nat <$> l) →
  rfold (λ items x, vset items x.1 x.2) items (zip (Z.to_nat <$> l) new_items) = Ok (assign items l new_items).
Proof.
  revert items new_items. induction l as [|x l IH]; intros items [|y ys]; try done.
  intros [Hx Hl]%Forall_cons. destruct (lookup_lt_is_Some_2 _ _ Hx) as [z Hz]. cbn in Hx, Hz |- *.
  rewrite (vset_ok _ _ _ _ Hz). cbn [mbind res_bind].
  rewrite IH; [done|]. eapply Forall_impl; [exact Hl|]. cbn. intros k. by rewrite length_insert.
Qed.

(** The other positions keep their items. *)
Lemma assign_other items l new_items k :
  (∀ x, x ∈ l → Z.to_nat x ≠ k) → assign items l new_items !! k = items !! k.
Proof.
  unfold assign. revert items new_items. induction l as [|x l IH]; intros items [|y ys] Hk; try done.
  cbn. rewrite IH; [|intros z Hz; apply Hk; by right]. apply list_lookup_insert_ne. cbn. apply Hk. by left.
Qed.

(** Reading the positions back gives what was assigned to them. *)
Lemma assign_read items l new_items :
  NoDup l → Forall (λ x, 0 ≤ x < vlen items) l → length l = length new_items →
  omap (λ x, assign items l new_items !! Z.to_nat x) l = new_items.
Proof.
  intros Hnd. revert items new_items. induction Hnd as [|x l Hx Hnd IH]; intros items [|y ys] Hin; try done.
  apply Forall_cons in Hin as [Hxin Hin]. intros [= Hlen].
  change (assign items (x :: l) (y :: ys)) with (assign (<[Z.to_nat x := y]> items) l ys).
  assert (Hin' : Forall (λ x, 0 ≤ x < vlen (<[Z.to_nat x := y]> items)) l).
  { eapply Forall_impl; [exact Hin|]. cbn. intros z. unfold vlen. by rewrite length_insert. }
  rewrite Forall_forall in Hin. cbn. rewrite assign_other.
  2:{ intros z Hz Heq. apply Hx. replace x with z; [done|]. specialize (Hin z Hz). lia. }
  rewrite list_lookup_insert_eq by (unfold vlen in *; lia). f_equal.
  apply IH; [|done]. eapply Forall_impl; [|]. 1: apply Forall_forall, Hin. cbn. intros z.
  unfold vlen. by rewrite length_insert.
Qed.

Lemma vec_splice_spec items i j new_items : vlen items < 2 ^ 63 →
  let s := adjust_start (vlen items) 1 i in
  let e := adjust_stop (vlen items) 1 j in
  vec_splice items (as_u64 s) (as_u64 e) new_items =
  if s <=? e then Ok (take (Z.to_nat s) items ++ new_items ++ drop (Z.to_nat e) items) else Panic.
Proof.
  intros Hlen s e. pose proof (vlen_nonneg items) as Hl.
  pose proof (adjust_start_range (vlen items) 1 i Hl) as Hi. pose proof (adjust_stop_range (vlen items) 1 j Hl) as Hj.
  cbn in Hi, Hj. fold s in Hi. fold e in Hj. unfold vec_splice, range_ok.
  rewrite !as_u64_id by (unfold u64_range, two64; lia).
  rewrite (proj2 (Z.leb_le e (vlen items))) by lia. by rewrite andb_true_r.
Qed.

(** What [items[i:j:step] = new_items] does.  A slice of unit step with its
    start after its stop unwinds. *)
Definition slice_assigned items new_items (i j : option Z) (step : Z) : outcome (list A) :=
  let start := adjust_start (vlen items) 1 i in
  let stop := adjust_stop (vlen items) 1 j in
  let positions := slice_positions (vlen items) i j step in
  if step =? 1 then
    if start <=? stop then Return (take (Z.to_nat start) items ++ new_items ++ drop (Z.to_nat stop) items)
    else Panicked
  else if decide (length positions = length new_items) then Return (assign items positions new_items)
  else Raise (size_mismatch (length new_items) (length positions)).

Lemma slice_setitem_spec items lo hi st new_items :
  vlen items < 2 ^ 63 → arg_wf lo → arg_wf hi → arg_wf st →
  slice_setitem items lo hi st new_items =
  ('(i, j, step) ← slice_args lo hi st; slice_assigned items new_items i j step).
Proof.
  intros Hlen Hlo Hhi Hst. pose proof (vlen_nonneg items). unfold slice_setitem, slice_assigned.
  rewrite resolve_slice_bounds_spec by done.
  destruct (slice_args lo hi st) as [[[i j] step]| | |] eqn:Hargs; try done.
  apply slice_args_step in Hargs. cbn [mbind outcome_bind]. rewrite saturate_unit.
  destruct (Z.eqb_spec step 1) as [->|Hs].
  { change (saturate 1) with 1. rewrite vec_splice_spec by done. by destruct (_ <=? _). }
  rewrite slice_target_indices_spec by done. cbn [lift mbind outcome_bind]. rewrite length_fmap.
  destruct (Nat.eqb_spec (length (slice_positions (vlen items) i j step)) (length new_items)) as [Heq|Hne];
    cbn [negb]; [|by rewrite decide_False].
  rewrite decide_True by done. rewrite assign_code; [done|]. by apply slice_positions_bounded.
Qed.

(** *** Deletion *)

(** The items whose positions are not in a list. *)
Definition without (items : list A) (positions : list Z) : list A :=
  omap (λ p, if decide (Z.of_nat p.1 ∈ positions) then None else Some p.2) (enumerate items).

Definition slice_deleted items (i j : option Z) (step : Z) : outcome (list A) :=
  let start := adjust_start (vlen items) 1 i in
  let stop := adjust_stop (vlen items) 1 j in
  if (step =? 1) && (stop <? start) then Panicked
  else Return (without items (slice_positions (vlen items) i j step)).

Lemma mark_all (d : list bool) (l : list nat) : Forall (λ k, (k < length d)%nat) l →
  ∃ d', rfold (λ d index, vset d index true) d l = Ok d' ∧ length d' = length d ∧
    ∀ k, d' !! k = if decide (k ∈ l) then (λ _, true) <$> d !! k else d !! k.
Proof.
  intros Hl. revert d Hl. induction l as [|x l IH]; intros d; [by exists d|].
  intros [Hx Hl]%Forall_cons. destruct (lookup_lt_is_Some_2 _ _ Hx) as [b Hb]. cbn [rfold].
  rewrite (vset_ok _ _ _ _ Hb). cbn [mbind res_bind].
  destruct (IH (<[x := true]> d)) as (d' & Hd' & Hlen & Hk); [by rewrite length_insert|].
  exists d'. split_and!; [done|by rewrite Hlen, length_insert|]. intros k. rewrite Hk.
  destruct (decide (k = x)) as [->|Hne].
  - rewrite list_lookup_insert_eq, Hb by done. rewrite (decide_True (P := x ∈ x :: l)) by by left. by case_decide.
  - rewrite list_lookup_insert_ne by done. by rewrite (decide_ext (k ∈ l) (k ∈ x :: l)) by (rewrite elem_of_cons; naive_solver).
Qed.

(** Items numbered from [n], less those whose number satisfies [p]. *)
Definition kept (p : nat → Prop) `{∀ k, Decision (p k)} (n : nat) (l : list A) : list A :=
  omap (λ q, if decide (p q.1) then None else Some q.2) (zip (seq n (length l)) l).

Lemma kept_cons p `{∀ k, Decision (p k)} n x l :
  kept p n (x :: l) = (if decide (p n) then kept p (S n) l else x :: kept p (S n) l).
Proof. unfold kept. cbn. by case_decide. Qed.

Lemma kept_app p `{∀ k, Decision (p k)} n l1 l2 : kept p n (l1 ++ l2) = kept p n l1 ++ kept p (n + length l1) l2.
Proof.
  revert n. induction l1 as [|x l1 IH]; intros n; [by rewrite Nat.add_0_r|].
  cbn [app length]. rewrite !kept_cons, IH, Nat.add_succ_comm. by case_decide.
Qed.

Lemma kept_all p `{∀ k, Decision (p k)} n l :
  (∀ k, (n ≤ k < n + length l)%nat → ¬ p k) → kept p n l = l.
Proof.
  revert n. induction l as [|x l IH]; intros n Hp; [done|]. rewrite kept_cons, decide_False by (apply Hp; cbn; lia).
  f_equal. apply IH. intros k Hk. apply Hp. cbn. lia.
Qed.

Lemma kept_nil p `{∀ k, Decision (p k)} n l :
  (∀ k, (n ≤ k < n + length l)%nat → p k) → kept p n l = [].
Proof.
  revert n. induction l as [|x l IH]; intros n Hp; [done|]. rewrite kept_cons, decide_True by (apply Hp; cbn; lia).
  apply IH. intros k Hk. apply Hp. cbn. lia.
Qed.

Lemma kept_retain p `{∀ k, Decision (p k)} n (d : list bool) l :
  length d = length l → (∀ k, (k < length l)%nat → d !! k = Some (bool_decide (p (n + k)%nat))) →
  (zip d l ≫= λ x, if x.1 : bool then [] else [x.2]) = kept p n l.
Proof.
  revert n d. induction l as [|x l IH]; intros n [|b d]; try done. intros [= Hlen] Hd.
  rewrite kept_cons. pose proof (Hd 0%nat ltac:(cbn; lia)) as Hb. rewrite Nat.add_0_r in Hb. injection Hb as ->.
  rewrite <- (IH (S n) d) by (first [done | intros k Hk; specialize (Hd (S k) ltac:(cbn; lia));
    by rewrite <- Nat.add_succ_comm in Hd]).
  cbn. case_bool_decide; [by rewrite decide_True|by rewrite decide_False].
Qed.

Lemma without_kept items positions : without items positions = kept (λ k, Z.of_nat k ∈ positions) 0 items.
Proof. done. Qed.

Lemma without_nil items : without items [] = items.
Proof. rewrite without_kept. apply kept_all. intros k _. apply not_elem_of_nil. Qed.

(** A run of positions cut out. *)
Lemma without_run items s e : 0 ≤ s → s ≤ e ≤ vlen items →
  without items (seqZ s (e - s)) = take (Z.to_nat s) items ++ drop (Z.to_nat e) items.
Proof.
  intros Hs He. unfold vlen in He. rewrite without_kept.
  rewrite <- (take_drop (Z.to_nat s) items) at 1.
  rewrite <- (take_drop (Z.to_nat (e - s)) (drop (Z.to_nat s) items)) at 1.
  rewrite !kept_app, (kept_all _ 0), (kept_nil _ _ (take _ _)), (kept_all _ _ (drop _ (drop _ _))), drop_drop.
  1: replace (Z.to_nat s + Z.to_nat (e - s))%nat with (Z.to_nat e) by lia; done.
  all: intros k; rewrite !length_take, ?length_drop, elem_of_seqZ; lia.
Qed.

Lemma slice_delitem_spec items lo hi st :
  vlen items < 2 ^ 63 → arg_wf lo → arg_wf hi → arg_wf st →
  slice_delitem items lo hi st =
  ('(i, j, step) ← slice_args lo hi st; slice_deleted items i j step).
Proof.
  intros Hlen Hlo Hhi Hst. pose proof (vlen_nonneg items) as Hl. unfold slice_delitem, slice_deleted.
  rewrite resolve_slice_bounds_spec by done.
  destruct (slice_args lo hi st) as [[[i j] step]| | |] eqn:Hargs; try done.
  apply slice_args_step in Hargs. cbn [mbind outcome_bind]. rewrite saturate_unit.
  destruct (Z.eqb_spec step 1) as [->|Hs]; cbn [andb].
  { change (saturate 1) with 1. rewrite vec_splice_spec by done. cbn [app].
    pose proof (adjust_start_range (vlen items) 1 i Hl) as Hi. pose proof (adjust_stop_range (vlen items) 1 j Hl) as Hj.
    cbn in Hi, Hj. rewrite slice_positions_unit by done.
    destruct (Z.leb_spec (adjust_start (vlen items) 1 i) (adjust_stop (vlen items) 1 j)),
      (Z.ltb_spec (adjust_stop (vlen items) 1 j) (adjust_start (vlen items) 1 i)); try lia; cbn [lift]; [|done].
    by rewrite Z.max_r, without_run by lia. }
  rewrite slice_target_indices_spec by done. cbn [lift mbind outcome_bind].
  pose proof (slice_positions_bounded items i j step Hargs) as Hb.
  destruct (slice_positions (vlen items) i j step) as [|x l] eqn:Hpos; [by rewrite without_nil|].
  rewrite <- Hpos in *. destruct (Z.to_nat <$> slice_positions (vlen items) i j step) as [|k ks] eqn:Hks.
  { by rewrite Hpos in Hks. }
  rewrite <- Hks in *.
  destruct (mark_all (replicate (length items) false) (Z.to_nat <$> slice_positions (vlen items) i j step))
    as (d & -> & Hdlen & Hd).
  { by rewrite length_replicate. }
  rewrite length_replicate in Hdlen. cbn [lift mbind outcome_bind]. rewrite without_kept. f_equal.
  apply kept_retain; [done|]. intros n Hn. rewrite Hd, lookup_replicate_2 by done. cbn.
  assert (Hiff : n ∈ Z.to_nat <$> slice_positions (vlen items) i j step ↔
                 Z.of_nat n ∈ slice_positions (vlen items) i j step).
  { rewrite list_elem_of_fmap. split; [|intros; exists (Z.of_nat n); split; [lia|done]].
    intros (z & -> & Hz). rewrite Z2Nat.id; [done|]. by apply slice_positions_range in Hz as []. }
  case_decide as Hin; [by rewrite bool_decide_true by (by apply Hiff)|by rewrite bool_decide_false by (by rewrite <- Hiff)].
Qed.
End list_slices.

(** ** [slice.indices] *)

Section indices.
Context {B : Type} `{BigInt B}.

(** The method of slice objects resolves bounds as subscription does. *)
Lemma compute_indices_agrees len lo hi st :
  compute_indices len lo hi st = resolve_slice_bounds len (Some lo) (Some hi) (Some st).
Proof.
  assert (Hbound : ∀ v step d1 d2, clamp_bound len step v d1 d2 =
    resolve_bound len step (if 0 <? step then d1 else d2) (Some v)).
  { intros v step d1 d2. unfold resolve_bound, slice_index_from_value, clamp_bound, slice_bound_from_value, normalize.
    destruct v; try done; destruct (clamped_index _ _) as [raw| | |]; try done; cbn [mbind outcome_bind];
      destruct (0 <? step), (raw <? 0); cbn [mbind res_bind]; done. }
  unfold compute_indices, resolve_slice_bounds, resolve_step, slice_bound_from_value, slice_index_from_value.
  destruct st; cbn [mbind outcome_bind]; rewrite ?Hbound; try done;
    destruct (clamped_index _ _) as [s| | |]; try done; cbn [mbind outcome_bind];
    destruct (s =? 0); try done; cbn [mbind outcome_bind]; by rewrite !Hbound.
Qed.
End indices.
