(* ===== verification/Ranges.v ===== *)
(** The [range] type: length, membership, indexing, slicing, equality, hash
    and iteration (crates/pyrust-core/src/core/containers.rs,
    value_constructors.rs and value_equality.rs; in
    crates/pyrust/src/interpreter/runtime, builtin_methods/range.rs and
    bound_ranges.rs, expr/indexing.rs, expr/slicing_membership.rs,
    collection_keys/hashing.rs, the iteration directory and
    fast_path/loop_iteration.rs). *)

From S2P Require Import Outcome Prelude Double Keys IntArith IntModular Slices.

(** ** Machine-word ranges *)

Definition range_len (start stop step : Z) : Z :=
  if step =? 0 then 0
  else if 0 <? step then
    if stop <=? start then 0 else (Z.abs (stop - start) - 1) / step + 1
  else if start <=? stop then 0
  else (Z.abs (start - stop) - 1) / Z.abs step + 1.

Definition i64_range_native_cursor_safe (start stop step : Z) : res bool :=
  let len := range_len start stop step in
  if len =? 0 then Ok true
  else
    offset ← i128_exact ((len - 1) * step);
    last ← i128_exact (start + offset);
    after_last ← i128_exact (last + step);
    Ok ((len <=? i64_max) && (i64_min <=? after_last) && (after_last <=? i64_max) && negb (step =? i64_min)).

Definition i64_range_contains (start stop step x : Z) : bool :=
  if 0 <? step then (start <=? x) && (x <? stop) && (Z.rem (x - start) step =? 0)
  else if step <? 0 then (x <=? start) && (stop <? x) && (Z.rem (x - start) step =? 0)
  else false.

(** The exact value of a double. *)
Definition d_val (f : f64) : fval :=
  match f with
  | d_nan => FNaN
  | d_inf s => FInf s
  | d_zero _ => FFin 0
  | d_fin s m e => FFin (Z.shiftl (signed_mantissa s m) (e + 1074))
  end.

(** An integral finite double in the half-open range of an [i64], cast to it. *)
Definition float_as_i64 (f : fval) : option Z :=
  if f_is_finite f && f_fract_is_zero f && (fval_leb (f_of_int i64_min) f && fval_ltb f (f_of_int (2 ^ 63)))
  then Some (f_as_i64 f) else None.

Section ranges.
Context {B : Type} `{BigInt B} `{BigIntArith B}.
Implicit Types (v : Value B) (lo hi st : option (Value B)).

Inductive PyRange : Type :=
  | Range (start stop step : Z)
  | BigRange (start stop step : B).

(** [Value::range_big] *)
Definition range_big (start stop step : B) : PyRange :=
  match bi_to_i64 start, bi_to_i64 stop, bi_to_i64 step with
  | Some s, Some e, Some st => Range s e st
  | _, _, _ => BigRange start stop step
  end.

(** ** Construction *)

Definition not_an_integer v : PyError :=
  TypeError ("'" +:+ builtin_type_name v +:+ "' object cannot be interpreted as an integer").

Definition coerce_range_arg_big v : outcome B :=
  match value_to_bigint v with Some n => Return n | None => Raise (not_an_integer v) end.

Definition call_range_expanded (args : list (Value B)) : outcome PyRange :=
  if (length args =? 0)%nat then
    Raise (TypeError ("range expected at least 1 argument, got " +:+ pretty (length args)))
  else if (3 <? length args)%nat then
    Raise (TypeError ("range expected at most 3 arguments, got " +:+ pretty (length args)))
  else
    ints ← ofold (λ ints arg, n ← coerce_range_arg_big arg; Return (ints ++ [n])) [] args;
    '(start, stop, step) ← match ints with
      | [stop] => Return (bi_from_i64 0, stop, bi_from_i64 1)
      | [start; stop] => Return (start, stop, bi_from_i64 1)
      | [start; stop; step] => Return (start, stop, step)
      | _ => Panicked
      end;
    if bi_eqb step (bi_from_i64 0) then Raise (ValueError "range() arg 3 must not be zero")
    else Return (range_big start stop step).

(** ** Length and equality *)

Definition bigrange_len (start stop step : B) : B :=
  let zero := bi_from_i64 0 in
  let one := bi_from_i64 1 in
  if bi_Z zero <? bi_Z step then
    if bi_Z start <? bi_Z stop then bi_add (bi_quot (bi_sub (bi_sub stop start) one) step) one else zero
  else if bi_Z step <? bi_Z zero then
    if bi_Z stop <? bi_Z start then bi_add (bi_quot (bi_sub (bi_sub start stop) one) (bi_neg step)) one else zero
  else zero.

Definition bigrange_eq (as_ ao at_ bs bo bt : B) : bool :=
  let la := bigrange_len as_ ao at_ in
  let lb := bigrange_len bs bo bt in
  bi_eqb la lb && ((bi_Z la <? 1) || bi_eqb as_ bs) && ((bi_Z la <? 2) || bi_eqb at_ bt).

Definition range_equal (a b : PyRange) : bool :=
  match a, b with
  | Range as_ ao at_, Range bs bo bt =>
      let la := range_len as_ ao at_ in
      let lb := range_len bs bo bt in
      (la =? lb) && ((la <? 1) || (as_ =? bs)) && ((la <? 2) || (at_ =? bt))
  | BigRange as_ ao at_, BigRange bs bo bt => bigrange_eq as_ ao at_ bs bo bt
  | Range as_ ao at_, BigRange bs bo bt =>
      bigrange_eq (bi_from_i64 as_) (bi_from_i64 ao) (bi_from_i64 at_) bs bo bt
  | BigRange as_ ao at_, Range bs bo bt =>
      bigrange_eq as_ ao at_ (bi_from_i64 bs) (bi_from_i64 bo) (bi_from_i64 bt)
  end.

Definition ssize_overflow : PyError := OverflowError "Python int too large to convert to C ssize_t".

(** [len(r)] *)
Definition range_size (r : PyRange) : outcome Z :=
  match r with
  | Range start stop step =>
      match i64_checked (range_len start stop step) with Some n => Return n | None => Raise ssize_overflow end
  | BigRange start stop step =>
      match bi_to_i64 (bigrange_len start stop step) with Some n => Return n | None => Raise ssize_overflow end
  end.

(** ** Membership *)

Definition range_contains_value (start stop step : Z) v : bool :=
  match v with
  | VInt x => i64_range_contains start stop step x
  | VBool b => i64_range_contains start stop step (bool_int b)
  | VBigInt n => is_some_and (bi_to_i64 n) (i64_range_contains start stop step)
  | VFloat f => is_some_and (float_as_i64 (d_val f)) (i64_range_contains start stop step)
  | _ => false
  end.

Definition bigrange_contains (start stop step x : B) : bool :=
  let in_bounds := if 0 <? bi_Z step then (bi_Z start <=? bi_Z x) && (bi_Z x <? bi_Z stop)
                   else (bi_Z x <=? bi_Z start) && (bi_Z stop <? bi_Z x) in
  in_bounds && (bi_Z (bi_rem (bi_sub x start) step) =? 0).

Definition int_valued_float (f : fval) : option B :=
  if f_is_finite f && f_fract_is_zero f then bi_from_f64 f else None.

Definition bigrange_member (start stop step : B) v : option B :=
  x ← match v with
      | VInt _ | VBool _ | VBigInt _ => value_to_bigint v
      | VFloat f => int_valued_float (d_val f)
      | _ => None
      end;
  if bigrange_contains start stop step x then Some x else None.

(** [v in r] *)
Definition eval_in (r : PyRange) v : bool :=
  match r with
  | Range start stop step =>
      match v with
      | VComplex re im =>
          fval_eqb (d_val im) f_zero && is_some_and (float_as_i64 (d_val re)) (i64_range_contains start stop step)
      | _ => range_contains_value start stop step v
      end
  | BigRange start stop step =>
      is_some_and
        match v with
        | VInt _ | VBool _ | VBigInt _ => value_to_bigint v
        | VFloat f => int_valued_float (d_val f)
        | VComplex re im => if fval_eqb (d_val im) f_zero then int_valued_float (d_val re) else None
        | _ => None
        end
        (bigrange_contains start stop step)
  end.

(** [r.count(v)] *)
Definition range_count (r : PyRange) v : Z :=
  match r with
  | Range start stop step => if range_contains_value start stop step v then 1 else 0
  | BigRange start stop step => if bigrange_member start stop step v is Some _ then 1 else 0
  end.

(** [r.index(v)]; [repr_raw] is the representation of a value in the message. *)
Definition range_index (repr_raw : Value B → string) (r : PyRange) v : outcome (Value B) :=
  let not_in_sequence := Raise (ValueError "sequence.index(x): x not in sequence") in
  let not_in_range := Raise (ValueError (repr_raw v +:+ " is not in range")) in
  match r with
  | Range start stop step =>
      let vi_opt := match v with
                    | VInt x => Some x
                    | VBool b => Some (bool_int b)
                    | VBigInt n => bi_to_i64 n
                    | VFloat f => float_as_i64 (d_val f)
                    | _ => None
                    end in
      match vi_opt with
      | None => not_in_sequence
      | Some vi =>
          if range_contains_value start stop step v then
            let index := Z.quot (vi - start) step in
            match i64_checked index with
            | Some index => Return (VInt index)
            | None => Return (value_from_bigint (bi_from_i64 index))
            end
          else not_in_range
      end
  | BigRange start stop step =>
      let is_int_valued := match v with
                           | VInt _ | VBool _ | VBigInt _ => true
                           | VFloat f => f_is_finite (d_val f) && f_fract_is_zero (d_val f)
                           | _ => false
                           end in
      match bigrange_member start stop step v with
      | Some x => Return (value_from_bigint (bi_quot (bi_sub x start) step))
      | None => if is_int_valued then not_in_range else not_in_sequence
      end
  end.

(** ** Subscription *)

Definition range_out_of_range : PyError := IndexError "range object index out of range".

(** [value.to_i128()] *)
Definition bi_to_i128 (n : B) : option Z :=
  if (- 2 ^ 127 <=? bi_Z n) && (bi_Z n <? 2 ^ 127) then Some (bi_Z n) else None.

(** [r[index]], for an index that [__index__] has resolved. *)
Definition range_getitem (r : PyRange) (index : Value B) : outcome (Value B) :=
  match r with
  | Range start stop step =>
      let len := range_len start stop step in
      i ← match index with
          | VInt v => Return v
          | VBool b => Return (bool_int b)
          | VBigInt value =>
              match bi_to_i128 value with Some value => Return value | None => Raise range_out_of_range end
          | _ => Panicked
          end;
      i ← lift (if i <? 0 then i128_exact (i + len) else Ok i);
      if (i <? 0) || (len <=? i) then Raise range_out_of_range
      else
        lift (offset ← i128_exact (i * step);
              value ← i128_exact (start + offset);
              value ← expect (i64_checked value);
              Ok (VInt value))
  | BigRange start stop step =>
      let len := bigrange_len start stop step in
      i ← lift (expect (value_to_bigint index));
      let i := if bi_Z i <? 0 then bi_add i len else i in
      if (bi_Z i <? 0) || (bi_Z len <=? bi_Z i) then Raise range_out_of_range
      else Return (value_from_bigint (bi_add start (bi_mul i step)))
  end.

(** ** Slices *)

(** The closure [clamp] of [resolve_slice_bounds_big]. *)
Definition clamp_big (idx low high : B) : B :=
  if bi_Z idx <? bi_Z low then low else if bi_Z high <? bi_Z idx then high else idx.

Definition to_big v : outcome B :=
  match value_to_bigint v with Some n => Return n | None => Raise bad_slice_index end.

Definition resolve_slice_bounds_big (len : B) lo hi st : outcome (B * B * B) :=
  let zero := bi_from_i64 0 in
  let one := bi_from_i64 1 in
  step ← match st with
         | None | Some VNone => Return one
         | Some v => s ← to_big v; if bi_eqb s zero then Raise zero_step else Return s
         end;
  let step_pos := 0 <? bi_Z step in
  let len_minus_1 := bi_sub len one in
  let resolve v :=
    i ← to_big v;
    let i := if bi_Z i <? 0 then bi_add i len else i in
    Return (if step_pos then clamp_big i zero len else clamp_big i (bi_neg one) len_minus_1) in
  let start_default := if step_pos then zero else len_minus_1 in
  let end_default := if step_pos then len else bi_neg one in
  start ← match lo with None | Some VNone => Return start_default | Some v => resolve v end;
  stop ← match hi with None | Some VNone => Return end_default | Some v => resolve v end;
  Return (start, stop, step).

Definition i64_checked_mul (a b : Z) : option Z := i64_checked (a * b).
Definition i64_checked_add (a b : Z) : option Z := i64_checked (a + b).

(** The bounds of a range sliced with [sl_start], [sl_stop] and [sl_step]. *)
Definition big_range_slice (r_start r_step sl_start sl_stop sl_step : B) : PyRange :=
  range_big (bi_add r_start (bi_mul sl_start r_step)) (bi_add r_start (bi_mul sl_stop r_step))
    (bi_mul r_step sl_step).

Definition narrow_range_slice (r_start r_step sl_start sl_stop sl_step : Z) : option PyRange :=
  new_start ← (offset ← i64_checked_mul sl_start r_step; i64_checked_add r_start offset);
  new_stop ← (offset ← i64_checked_mul sl_stop r_step; i64_checked_add r_start offset);
  new_step ← i64_checked_mul r_step sl_step;
  Some (Range new_start new_stop new_step).

Definition wide_range_slice (r_start r_step r_len : B) lo hi st : outcome PyRange :=
  '(sl_start, sl_stop, sl_step) ← resolve_slice_bounds_big r_len lo hi st;
  Return (big_range_slice r_start r_step sl_start sl_stop sl_step).

(** [r[lo:hi:st]] *)
Definition range_getslice (r : PyRange) lo hi st : outcome PyRange :=
  match r with
  | Range r_start r_stop r_step =>
      let r_len := range_len r_start r_stop r_step in
      let wide := wide_range_slice (bi_from_i64 r_start) (bi_from_i64 r_step) (bi_from_i64 r_len) lo hi st in
      match i64_checked r_len with
      | Some r_len_narrow =>
          '(sl_start, sl_stop, sl_step) ← resolve_slice_bounds r_len_narrow lo hi st;
          match narrow_range_slice r_start r_step sl_start sl_stop sl_step with
          | Some r => Return r
          | None => wide
          end
      | None => wide
      end
  | BigRange r_start r_stop r_step =>
      wide_range_slice r_start r_step (bigrange_len r_start r_stop r_step) lo hi st
  end.

(** ** Hash *)

Definition py_hash_bigint (n : B) : Z :=
  remap (default 0 (bi_to_i64 (bi_rem n (bi_from_i64 PY_HASH_MODULUS)))).

Definition tuple_hash_cpython (items : list Z) : Z :=
  tuple_hash_finish (foldl (λ acc hash, xxstep acc (as_u64 hash)) PRIME5 items) (vlen items).

(** [hash(r)]; [h_none] is the hash of [None]. *)
Definition range_hash (h_none : Z) (r : PyRange) : Z :=
  match r with
  | Range start stop step =>
      let len := range_len start stop step in
      let h_len := match i64_checked len with Some n => hash_int n | None => py_hash_bigint (bi_from_i64 len) end in
      tuple_hash_cpython [h_len; if 1 <=? len then hash_int start else h_none;
                          if 2 <=? len then hash_int step else h_none]
  | BigRange start stop step =>
      let len := bigrange_len start stop step in
      tuple_hash_cpython [py_hash_bigint len; if 1 <=? bi_Z len then py_hash_bigint start else h_none;
                          if 2 <=? bi_Z len then py_hash_bigint step else h_none]
  end.

(** ** Iteration *)

(** [RangeIter] and [BigRangeIter]; the loop states [IterState::Range] and
    [IterState::BigRange] have the same fields. *)
Inductive RangeCursor : Type :=
  | RangeIter (cur stop step : Z)
  | BigRangeIter (cur stop step : B).

Definition i64_saturating_add (a b : Z) : Z := Z.max i64_min (Z.min (a + b) i64_max).

Definition step_bigrange_iter (cur stop step : B) : option (Value B * RangeCursor) :=
  let exhausted := if 0 <? bi_Z step then bi_Z stop <=? bi_Z cur else bi_Z cur <=? bi_Z stop in
  if exhausted then None
  else Some (value_from_bigint cur, BigRangeIter (bi_add cur step) stop step).

Definition range_exhausted (cur stop step : Z) : bool := if 0 <? step then stop <=? cur else cur <=? stop.

(** One step of an iterator object: [None] once it is exhausted. *)
Definition cursor_next (it : RangeCursor) : option (Value B * RangeCursor) :=
  match it with
  | RangeIter cur stop step =>
      if range_exhausted cur stop step then None
      else Some (VInt cur, RangeIter (i64_saturating_add cur step) stop step)
  | BigRangeIter cur stop step => step_bigrange_iter cur stop step
  end.

(** One step of a [for] loop over a range. *)
Definition loop_next (it : RangeCursor) : option (Value B * RangeCursor) :=
  match it with
  | RangeIter cur stop step =>
      if range_exhausted cur stop step then None
      else Some (VInt cur, RangeIter (default stop (i64_checked_add cur step)) stop step)
  | BigRangeIter cur stop step => step_bigrange_iter cur stop step
  end.

Definition make_i64_range_iterator (start stop step : Z) : res RangeCursor :=
  safe ← i64_range_native_cursor_safe start stop step;
  Ok (if safe : bool then RangeIter start stop step
      else BigRangeIter (bi_from_i64 start) (bi_from_i64 stop) (bi_from_i64 step)).

(** [iter(r)] *)
Definition make_range_iterator (r : PyRange) : res RangeCursor :=
  match r with
  | Range start stop step => make_i64_range_iterator start stop step
  | BigRange start stop step => Ok (BigRangeIter start stop step)
  end.

Definition make_reversed_range_iterator (r : PyRange) : res RangeCursor :=
  match r with
  | Range start stop step =>
      let len := range_len start stop step in
      if len =? 0 then Ok (RangeIter 0 0 1)
      else
        offset ← i128_exact ((len - 1) * step);
        last ← i128_exact (start + offset);
        let reverse_step := - step in
        let reverse_stop := start - step in
        Ok (if i64_in last && i64_in reverse_step && i64_in reverse_stop
            then RangeIter last reverse_stop reverse_step
            else BigRangeIter (bi_from_i64 last) (bi_from_i64 reverse_stop) (bi_from_i64 reverse_step))
  | BigRange start stop step =>
      let len := bigrange_len start stop step in
      let zero := bi_from_i64 0 in
      if bi_eqb len zero then Ok (BigRangeIter zero zero (bi_from_i64 1))
      else
        let last := bi_add start (bi_mul (bi_sub len (bi_from_i64 1)) step) in
        Ok (BigRangeIter last (bi_sub start step) (bi_neg step))
  end.

(** The range arms of [restore_native_iterator_position]; [position] is a
    [usize]. *)
Definition restore_position (it : RangeCursor) (position : Z) : outcome RangeCursor :=
  match it with
  | RangeIter cur stop step =>
      let remaining := range_len cur stop step in
      let consumed := Z.min position remaining in
      if consumed =? remaining then Return (RangeIter stop stop step)
      else
        advanced ← lift (offset ← i128_exact (step * consumed); i128_exact (cur + offset));
        match i64_checked advanced with
        | Some cur => Return (RangeIter cur stop step)
        | None => Raise (Runtime "range iterator position overflow")
        end
  | BigRangeIter cur stop step =>
      let remaining := bigrange_len cur stop step in
      let consumed := bi_from_i64 position in
      Return (if bi_Z remaining <=? bi_Z consumed then BigRangeIter stop stop step
              else BigRangeIter (bi_add cur (bi_mul step consumed)) stop step)
  end.

(** The length hint of an iterator. *)
Definition i128_to_int_value (count : Z) : Value B :=
  match i64_checked count with Some count => VInt count | None => value_bigint (bi_from_i64 count) end.
Definition length_hint (it : RangeCursor) : Value B :=
  match it with
  | RangeIter cur stop step => i128_to_int_value (range_len cur stop step)
  | BigRangeIter cur stop step => value_bigint (bigrange_len cur stop step)
  end.
End ranges.
Arguments PyRange : clear implicits.
Arguments RangeCursor : clear implicits.
