(* ===== verification/RangeSpec.v ===== *)
(** Ranges as the sequences they stand for, and the proof that the operations
    of the [range] type are the operations on those sequences. *)

From S2P Require Import Outcome Prelude Double Keys KeysSpec IntArith IntArithSpec IntModular Slices SliceSpec Ranges.

(** ** The sequence of a range *)

(** The terms [start], [start + step], ... that come before [stop]: there are
    at most [|stop - start|] of them. *)
Definition range_list (start stop step : Z) : list Z :=
  filter (before_stop step stop) ((λ n, start + n * step) <$> seqZ 0 (Z.abs (stop - start))).

Lemma slice_count_nonneg start stop step : 0 ≤ slice_count start stop step.
Proof. unfold slice_count. lia. Qed.

Lemma slice_count_unique start stop step c : step ≠ 0 → 0 ≤ c →
  (∀ n, 0 ≤ n → (n < c ↔ before_stop step stop (start + n * step) = true)) → c = slice_count start stop step.
Proof.
  intros Hs Hc Hn. pose proof (slice_count_nonneg start stop step) as H0.
  pose proof (λ n Hp, slice_count_spec start stop step n Hs Hp) as Hsc.
  destruct (Z.lt_trichotomy c (slice_count start stop step)) as [Hlt|[|Hlt]]; [|done|].
  - apply Hsc in Hlt; [|done]. apply Hn in Hlt; lia.
  - apply Hn in Hlt; [|done]. apply Hsc in Hlt; lia.
Qed.

Lemma slice_count_abs start stop step : step ≠ 0 → slice_count start stop step ≤ Z.abs (stop - start).
Proof.
  intros Hs. destruct (Z.le_gt_cases (slice_count start stop step) (Z.abs (stop - start))) as [|Hgt]; [done|].
  apply slice_count_spec in Hgt; [|lia..]. unfold before_stop in Hgt.
  destruct (Z.ltb_spec 0 step); apply Z.ltb_lt in Hgt; nia.
Qed.

Section sequence.
Context (start stop step : Z) (Hstep : step ≠ 0).

Lemma range_list_count : range_list start stop step = (λ n, start + n * step) <$> seqZ 0 (slice_count start stop step).
Proof.
  unfold range_list. apply filter_prefix.
  - split; [apply slice_count_nonneg|by apply slice_count_abs].
  - intros n Hn. rewrite Is_true_true. apply slice_count_spec; [done|lia].
Qed.

Lemma range_list_length : vlen (range_list start stop step) = slice_count start stop step.
Proof.
  unfold vlen. rewrite range_list_count, length_fmap, length_seqZ. pose proof (slice_count_nonneg start stop step). lia.
Qed.

Lemma range_list_lookup k : (k < length (range_list start stop step))%nat →
  range_list start stop step !! k = Some (start + Z.of_nat k * step).
Proof.
  intros Hk. pose proof range_list_length as Hl. unfold vlen in Hl.
  rewrite range_list_count, list_lookup_fmap. rewrite (proj2 (lookup_seqZ 0 _ k (Z.of_nat k))); [done|]. lia.
Qed.

Lemma range_list_elem x : x ∈ range_list start stop step ↔
  ∃ n, 0 ≤ n ∧ x = start + n * step ∧ before_stop step stop x = true.
Proof.
  rewrite range_list_count, list_elem_of_fmap. split.
  - intros (n & -> & Hn%elem_of_seqZ). exists n. rewrite <- slice_count_spec by lia. lia.
  - intros (n & Hn & -> & Hb). apply slice_count_spec in Hb; [|done..]. exists n. split; [done|]. apply elem_of_seqZ. lia.
Qed.

(** Membership, as interval and divisibility. *)
Lemma range_list_member x : x ∈ range_list start stop step ↔
  (if 0 <? step then start ≤ x < stop else stop < x ≤ start) ∧ Z.rem (x - start) step = 0.
Proof.
  rewrite range_list_elem. unfold before_stop. rewrite Z.rem_divide by done. split.
  - intros (n & Hn & -> & Hb). destruct (Z.ltb_spec 0 step); apply Z.ltb_lt in Hb; (split; [nia|exists n; lia]).
  - intros [Hb [n Hn]]. exists n. destruct (Z.ltb_spec 0 step); rewrite Z.ltb_lt; split_and?; nia.
Qed.

Lemma range_list_unfold : range_list start stop step =
  if before_stop step stop start then start :: range_list (start + step) stop step else [].
Proof.
  destruct (before_stop step stop start) eqn:Hb.
  - rewrite range_list_count. assert (Hc : slice_count start stop step = Z.succ (slice_count (start + step) stop step)).
    { symmetry. apply slice_count_unique; [done|pose proof (slice_count_nonneg (start + step) stop step); lia|].
      intros n Hn. destruct (Z.eq_dec n 0) as [->|Hn0].
      - pose proof (slice_count_nonneg (start + step) stop step). rewrite Z.mul_0_l, Z.add_0_r. split; [done|lia].
      - pose proof (slice_count_spec (start + step) stop step (n - 1) Hstep ltac:(lia)) as Hs.
        replace (start + step + (n - 1) * step) with (start + n * step) in Hs by lia. rewrite <- Hs. lia. }
    rewrite Hc. rewrite seqZ_cons by (pose proof (slice_count_nonneg (start + step) stop step); lia).
    rewrite Z.pred_succ, fmap_cons. f_equal; [lia|].
    unfold range_list. rewrite (filter_prefix _ _ _ (slice_count (start + step) stop step)).
    + rewrite <- (fmap_add_seqZ 1 0), <- list_fmap_compose. apply list_fmap_ext. intros ? n _. cbn. lia.
    + split; [apply slice_count_nonneg|by apply slice_count_abs].
    + intros n Hn. rewrite Is_true_true. apply slice_count_spec; [done|lia].
  - destruct (range_list start stop step) as [|x l] eqn:Hl; [done|].
    pose proof range_list_length as Hlen. rewrite Hl, vlen_cons in Hlen. pose proof (vlen_nonneg l).
    assert (Hc : 0 < slice_count start stop step) by lia. apply slice_count_spec in Hc; [|lia..].
    rewrite Z.mul_0_l, Z.add_0_r in Hc. congruence.
Qed.
End sequence.

Lemma range_list_eq s e t s' e' t' : t ≠ 0 → t' ≠ 0 →
  range_list s e t = range_list s' e' t' ↔
  slice_count s e t = slice_count s' e' t' ∧
  (slice_count s e t < 1 ∨ s = s') ∧ (slice_count s e t < 2 ∨ t = t').
Proof.
  intros Ht Ht'. split.
  - intros Heq. assert (Hc : slice_count s e t = slice_count s' e' t') by (rewrite <- !range_list_length, Heq by done; done).
    pose proof (range_list_length s e t Ht) as Hl. unfold vlen in Hl.
    split; [done|]. assert (Hk : ∀ k : nat, Z.of_nat k < slice_count s e t → s + Z.of_nat k * t = s' + Z.of_nat k * t').
    { intros k Hk. pose proof (range_list_lookup s e t Ht k ltac:(lia)) as H1.
      pose proof (range_list_lookup s' e' t' Ht' k) as H2. rewrite <- Heq, H1 in H2. injection H2; [done|lia]. }
    pose proof (Hk 0%nat) as H0. pose proof (Hk 1%nat) as H1. cbn in H0, H1. lia.
  - intros (Hc & Hs & Hst). rewrite !range_list_count by done. rewrite <- Hc.
    apply list_fmap_ext. intros k n [-> Hk]%lookup_seqZ. nia.
Qed.

Lemma slice_positions_range_list len i j step : 0 ≤ len → step ≠ 0 →
  slice_positions len i j step = range_list (adjust_start len step i) (adjust_stop len step j) step.
Proof.
  intros Hlen Hs. rewrite range_list_count by done. unfold slice_positions.
  pose proof (adjust_start_range len step i Hlen) as Hi. pose proof (adjust_stop_range len step j Hlen) as Hj.
  set (a := adjust_start len step i) in *. set (b := adjust_stop len step j) in *. clearbody a b.
  apply filter_prefix.
  - split; [apply slice_count_nonneg|].
    destruct (Z.le_gt_cases (slice_count a b step) len) as [|Hgt]; [done|].
    apply slice_count_spec in Hgt; [|done..]. unfold before_stop in Hgt.
    destruct (Z.ltb_spec 0 step); apply Z.ltb_lt in Hgt; nia.
  - intros n Hn. rewrite Is_true_true. apply slice_count_spec; [done|lia].
Qed.

(** The image of a range under an affine map is a range. *)
Lemma range_list_affine s t i j k : t ≠ 0 → k ≠ 0 →
  range_list (s + i * t) (s + j * t) (t * k) = (λ x, s + x * t) <$> range_list i j k.
Proof.
  intros Ht Hk. rewrite !range_list_count by nia. rewrite <- list_fmap_compose.
  replace (slice_count (s + i * t) (s + j * t) (t * k)) with (slice_count i j k).
  - apply list_fmap_ext. intros ? n _. cbn. lia.
  - apply slice_count_unique; [nia|apply slice_count_nonneg|]. intros n Hn. rewrite slice_count_spec by done.
    unfold before_stop. destruct (Z.ltb_spec 0 k), (Z.ltb_spec 0 (t * k)); rewrite !Z.ltb_lt; nia.
Qed.

(** Slicing a range by positions. *)
Lemma py_slice_range_list s e t i j k : t ≠ 0 → k ≠ 0 →
  let len := slice_count s e t in
  py_slice (range_list s e t) i j k =
  range_list (s + adjust_start len k i * t) (s + adjust_stop len k j * t) (t * k).
Proof.
  intros Ht Hk len. pose proof (slice_count_nonneg s e t) as Hlen. rewrite range_list_affine by done.
  unfold py_slice. rewrite range_list_length by done. fold len.
  rewrite <- slice_positions_range_list by done.
  pose proof (λ x, slice_positions_range len i j k x Hlen Hk) as Hin.
  induction (slice_positions len i j k) as [|x l IH]; [done|]. cbn.
  pose proof (Hin x ltac:(by left)) as Hx.
  pose proof (range_list_length s e t Ht) as Hl. unfold vlen in Hl. fold len in Hl.
  rewrite range_list_lookup by lia. rewrite Z2Nat.id by lia. cbn. f_equal. apply IH. intros y Hy. apply Hin. by right.
Qed.

Lemma range_list_reverse s e t : t ≠ 0 → 0 < slice_count s e t →
  range_list (s + (slice_count s e t - 1) * t) (s - t) (- t) = reverse (range_list s e t).
Proof.
  intros Ht Hc. set (c := slice_count s e t) in *.
  assert (Hrev : slice_count (s + (c - 1) * t) (s - t) (- t) = c).
  { symmetry. apply slice_count_unique; [lia|lia|]. intros n Hn. unfold before_stop.
    destruct (Z.ltb_spec 0 (- t)); rewrite Z.ltb_lt; nia. }
  pose proof (range_list_length s e t Ht) as Hl.
  pose proof (range_list_length (s + (c - 1) * t) (s - t) (- t) ltac:(lia)) as Hl'. fold c in Hl. rewrite Hrev in Hl'.
  unfold vlen in Hl, Hl'. apply list_eq_same_length with (n := Z.to_nat c).
  { rewrite length_reverse. lia. } { lia. }
  intros k x y Hk. rewrite range_list_lookup by lia. rewrite reverse_lookup by lia.
  rewrite range_list_lookup by lia. intros [= <-] [= <-]. nia.
Qed.

(** ** Lengths *)

Lemma range_len_spec s e t : t ≠ 0 → range_len s e t = slice_count s e t.
Proof.
  intros Ht. unfold range_len, slice_count. destruct (Z.eqb_spec t 0); [done|].
  destruct (Z.ltb_spec 0 t).
  - destruct (Z.leb_spec e s), (Z.ltb_spec 0 (e - s)); try lia.
    rewrite Z.abs_eq, Z.quot_div_nonneg by lia. pose proof (Z.div_pos (e - s - 1) t ltac:(lia) ltac:(lia)). lia.
  - destruct (Z.leb_spec s e), (Z.ltb_spec (e - s) 0); try lia.
    rewrite Z.abs_eq, (Z.abs_neq t) by lia. replace (Z.quot (e - s + 1) t) with ((s - e - 1) / - t).
    + pose proof (Z.div_pos (s - e - 1) (- t) ltac:(lia) ltac:(lia)). lia.
    + rewrite <- Z.quot_div_nonneg by lia. replace (e - s + 1) with (- (s - e - 1)) by lia.
      rewrite <- (Z.opp_involutive t) at 2. by rewrite Z.quot_opp_opp by lia.
Qed.

(** The terms of a machine-word range, and their offsets, fit an [i128]. *)
Lemma slice_count_last s e t n : t ≠ 0 → 0 ≤ n < slice_count s e t →
  Z.min s e ≤ s + n * t ≤ Z.max s e ∧ (if 0 <? t then s + n * t < e else e < s + n * t).
Proof.
  intros Ht [Hn Hc]. apply slice_count_spec in Hc; [|done..]. unfold before_stop in Hc.
  destruct (Z.ltb_spec 0 t); apply Z.ltb_lt in Hc; nia.
Qed.

Lemma i64_term_range s e t n : i64_range s → i64_range e → t ≠ 0 → 0 ≤ n < slice_count s e t →
  i64_range (s + n * t) ∧ - 2 ^ 64 ≤ n * t ≤ 2 ^ 64.
Proof.
  intros Hs He Ht Hn. pose proof (slice_count_last s e t n Ht Hn) as [H1 H2]. unfold i64_range in *. lia.
Qed.

Lemma i64_count_bound s e t : i64_range s → i64_range e → t ≠ 0 → slice_count s e t < 2 ^ 64.
Proof. intros Hs He Ht. pose proof (slice_count_abs s e t Ht). unfold i64_range in *. lia. Qed.

Section big_ranges.
Context {B : Type} `{BigInt B} `{BigIntArith B} `{!BigIntLaws B} `{!BigIntArithLaws B}.
Implicit Types (v : Value B) (lo hi st : option (Value B)) (r : PyRange B) (it : RangeCursor B).

Create Rewrite HintDb bi.
Hint Rewrite bi_from_i64_Z bi_add_Z bi_sub_Z bi_mul_Z bi_neg_Z bi_eqb_Z : bi.
Ltac bi_simp := autorewrite with bi.

Lemma bigrange_len_spec (s e t : B) : bi_Z t ≠ 0 →
  bi_Z (bigrange_len s e t) = slice_count (bi_Z s) (bi_Z e) (bi_Z t).
Proof.
  intros Ht. rewrite <- range_len_spec by done. unfold bigrange_len, range_len. bi_simp.
  destruct (Z.eqb_spec (bi_Z t) 0); [done|]. destruct (Z.ltb_spec 0 (bi_Z t)).
  - destruct (Z.ltb_spec (bi_Z s) (bi_Z e)), (Z.leb_spec (bi_Z e) (bi_Z s)); try lia; bi_simp; [|done].
    rewrite bi_quot_Z by done. bi_simp. rewrite Z.abs_eq, Z.quot_div_nonneg by lia. done.
  - destruct (Z.ltb_spec (bi_Z t) 0); [|lia].
    destruct (Z.ltb_spec (bi_Z e) (bi_Z s)), (Z.leb_spec (bi_Z s) (bi_Z e)); try lia; bi_simp; [|done].
    rewrite bi_quot_Z by (bi_simp; lia). bi_simp. rewrite Z.abs_eq, (Z.abs_neq (bi_Z t)), Z.quot_div_nonneg by lia. done.
Qed.

(** ** Range objects *)

Definition range_Z r : Z * Z * Z :=
  match r with Range s e t => (s, e, t) | BigRange s e t => (bi_Z s, bi_Z e, bi_Z t) end.

(** The sequence a range object stands for. *)
Definition range_vals r : list Z := let '(s, e, t) := range_Z r in range_list s e t.
Definition range_count_Z r : Z := let '(s, e, t) := range_Z r in slice_count s e t.

Definition range_wf r : Prop :=
  match r with
  | Range s e t => i64_range s ∧ i64_range e ∧ i64_range t ∧ t ≠ 0
  | BigRange _ _ t => bi_Z t ≠ 0
  end.

(** Whether a range is in machine words, and whether three integers fit them. *)
Definition is_machine r : bool := match r with Range _ _ _ => true | BigRange _ _ _ => false end.
Definition in_words (p : Z * Z * Z) : bool := i64_in p.1.1 && i64_in p.1.2 && i64_in p.2.

(** In machine words exactly when its bounds and its step fit them. *)
Definition range_canonical r : Prop := is_machine r = in_words (range_Z r).

Lemma range_big_spec (s e t : B) : bi_Z t ≠ 0 →
  range_wf (range_big s e t) ∧ range_Z (range_big s e t) = (bi_Z s, bi_Z e, bi_Z t) ∧ range_canonical (range_big s e t).
Proof.
  intros Ht. unfold range_big, range_canonical, in_words, i64_in. rewrite !bi_to_i64_Z.
  destruct (Z.leb_spec (- 2 ^ 63) (bi_Z s)), (Z.ltb_spec (bi_Z s) (2 ^ 63)),
    (Z.leb_spec (- 2 ^ 63) (bi_Z e)), (Z.ltb_spec (bi_Z e) (2 ^ 63)),
    (Z.leb_spec (- 2 ^ 63) (bi_Z t)), (Z.ltb_spec (bi_Z t) (2 ^ 63)); cbn; (split; [|split; [done|]]); try done;
    unfold i64_range; lia.
Qed.

Lemma range_vals_big (s e t : B) : bi_Z t ≠ 0 →
  range_vals (range_big s e t) = range_list (bi_Z s) (bi_Z e) (bi_Z t).
Proof. intros Ht. unfold range_vals. by rewrite (proj1 (proj2 (range_big_spec s e t Ht))). Qed.

Lemma vals_length r : range_wf r → vlen (range_vals r) = range_count_Z r.
Proof. destruct r; intros Hwf; apply range_list_length; cbn in Hwf; tauto. Qed.

(** ** Construction *)

(** The integers of the arguments of [range]. *)
Definition arg_ints (args : list (Value B)) : option (list Z) := mapM int_value args.

Definition range_of_ints (ints : list Z) : option (Z * Z * Z) :=
  match ints with
  | [e] => Some (0, e, 1)
  | [s; e] => Some (s, e, 1)
  | [s; e; t] => Some (s, e, t)
  | _ => None
  end.

Lemma coerce_range_arg_spec v :
  match int_value v with
  | Some i => ∃ n, coerce_range_arg_big v = Return n ∧ bi_Z n = i
  | None => coerce_range_arg_big v = Raise (not_an_integer v)
  end.
Proof. destruct v; cbn; try done; eexists; (split; [done|]); by rewrite ?bi_from_i64_Z. Qed.

Lemma coerce_all args acc :
  match arg_ints args with
  | Some ints => ∃ bs, ofold (λ ints arg, n ← coerce_range_arg_big arg; Return (ints ++ [n])) acc args = Return (acc ++ bs) ∧
      bi_Z <$> bs = ints
  | None => ∃ v, v ∈ args ∧ int_value v = None ∧
      ofold (λ ints arg, n ← coerce_range_arg_big arg; Return (ints ++ [n])) acc args = Raise (not_an_integer v)
  end.
Proof.
  revert acc. induction args as [|v args IH]; intros acc; cbn.
  { exists []. by rewrite app_nil_r. }
  pose proof (coerce_range_arg_spec v) as Hv. destruct (int_value v) as [i|] eqn:Hi; cbn.
  - destruct Hv as (n & -> & Hn). cbn. specialize (IH (acc ++ [n])). unfold arg_ints in IH.
    destruct (mapM int_value args) as [ints|]; cbn.
    + destruct IH as (bs & -> & Hbs). exists (n :: bs). rewrite <- app_assoc. cbn. by rewrite Hn, Hbs.
    + destruct IH as (w & Hw & Hwi & ->). exists w. split_and!; [by right|done|done].
  - rewrite Hv. exists v. split_and!; [by left|done|done].
Qed.

Lemma call_range_spec args s e t :
  (ints ← arg_ints args; range_of_ints ints) = Some (s, e, t) →
  if t =? 0 then call_range_expanded args = Raise (ValueError "range() arg 3 must not be zero")
  else ∃ r, call_range_expanded args = Return r ∧ range_wf r ∧ range_Z r = (s, e, t) ∧ range_canonical r.
Proof.
  intros Hargs. pose proof (coerce_all args []) as Hc. unfold call_range_expanded.
  destruct (arg_ints args) as [ints|] eqn:Hints; [|done]. cbn in Hargs.
  assert (Hlen : length args = length ints) by (unfold arg_ints in Hints; by apply length_mapM in Hints).
  destruct Hc as (bs & Hfold & Hbs).
  assert (Hl3 : length ints = 1%nat ∨ length ints = 2%nat ∨ length ints = 3%nat).
  { destruct ints as [|? [|? [|? [|]]]]; cbn in Hargs |- *; try done; lia. }
  rewrite Hlen. destruct (Nat.eqb_spec (length ints) 0), (Nat.ltb_spec 3 (length ints)); try lia.
  rewrite Hfold. cbn [mbind outcome_bind app].
  assert (∃ bs' be bt, (match bs with
      | [stop] => Return (bi_from_i64 0, stop, bi_from_i64 1)
      | [start; stop] => Return (start, stop, bi_from_i64 1)
      | [start; stop; step] => Return (start, stop, step)
      | _ => Panicked
      end : outcome (B * B * B)) = Return (bs', be, bt) ∧ bi_Z bs' = s ∧ bi_Z be = e ∧ bi_Z bt = t)
    as (b1 & b2 & b3 & -> & <- & <- & <-).
  { subst ints. destruct bs as [|b1 [|b2 [|b3 [|]]]]; cbn in Hargs; try done; injection Hargs as <- <- <-;
      eexists _, _, _; (split; [done|]); by rewrite ?bi_from_i64_Z. }
  cbn [mbind outcome_bind]. rewrite bi_eqb_Z, bi_from_i64_Z. destruct (Z.eqb_spec (bi_Z b3) 0); [done|].
  eexists. split; [done|]. by apply range_big_spec.
Qed.

(** ** Equality *)

Lemma bigrange_eq_spec (s e t s' e' t' : B) : bi_Z t ≠ 0 → bi_Z t' ≠ 0 →
  bigrange_eq s e t s' e' t' = true ↔
  range_list (bi_Z s) (bi_Z e) (bi_Z t) = range_list (bi_Z s') (bi_Z e') (bi_Z t').
Proof.
  intros Ht Ht'. rewrite range_list_eq by done. unfold bigrange_eq. bi_simp. rewrite !bigrange_len_spec by done.
  rewrite !andb_true_iff, !orb_true_iff, !Z.eqb_eq, !Z.ltb_lt. tauto.
Qed.

Lemma range_equal_spec a b : range_wf a → range_wf b → range_equal a b = true ↔ range_vals a = range_vals b.
Proof.
  destruct a as [s e t|s e t], b as [s' e' t'|s' e' t']; cbn [range_wf]; intros Ha Hb; cbn [range_equal].
  - unfold range_vals, range_Z. rewrite range_list_eq, !range_len_spec by tauto.
    rewrite !andb_true_iff, !orb_true_iff, !Z.eqb_eq, !Z.ltb_lt. tauto.
  - rewrite bigrange_eq_spec by (rewrite ?bi_from_i64_Z; tauto). by rewrite !bi_from_i64_Z.
  - rewrite bigrange_eq_spec by (rewrite ?bi_from_i64_Z; tauto). by rewrite !bi_from_i64_Z.
  - by apply bigrange_eq_spec.
Qed.

(** [len(r)], which must fit a machine word. *)
Lemma range_size_spec r : range_wf r →
  range_size r = if decide (vlen (range_vals r) < 2 ^ 63) then Return (vlen (range_vals r)) else Raise ssize_overflow.
Proof.
  intros Hwf. rewrite vals_length by done. destruct r as [s e t|s e t]; cbn [range_wf] in Hwf; cbn [range_size];
    unfold range_count_Z, range_Z.
  - rewrite range_len_spec by tauto. pose proof (slice_count_nonneg s e t) as Hc. unfold i64_checked.
    case_decide; [by rewrite (proj2 (i64_in_spec _)) by (unfold i64_range; lia)|].
    destruct (i64_in _) eqn:Hin; [|done]. apply i64_in_spec in Hin. unfold i64_range in Hin. lia.
  - rewrite bi_to_i64_Z, bigrange_len_spec by done. pose proof (slice_count_nonneg (bi_Z s) (bi_Z e) (bi_Z t)).
    destruct (Z.leb_spec (- 2 ^ 63) (slice_count (bi_Z s) (bi_Z e) (bi_Z t))),
      (Z.ltb_spec (slice_count (bi_Z s) (bi_Z e) (bi_Z t)) (2 ^ 63)); try lia; cbn [andb]; case_decide; try lia; done.
Qed.

(** ** Membership *)

(** The integer a double is equal to. *)
Definition float_int (f : fval) : option Z :=
  match f with FFin n => if f_fract_is_zero f then Some (Z.quot n f64_scale) else None | _ => None end.

(** The integer a value is equal to. *)
Definition exact_int v : option Z :=
  match v with
  | VFloat f => float_int (d_val f)
  | VComplex re im => if fval_eqb (d_val im) f_zero then float_int (d_val re) else None
  | _ => int_value v
  end.

Lemma float_int_Some f i : float_int f = Some i ↔ f = FFin (i * f64_scale).
Proof.
  destruct f as [| |n]; cbn [float_int]; try (split; congruence).
  destruct (f_fract_is_zero (FFin n)) eqn:Hf.
  - apply fract_zero_int in Hf as [z ->]. rewrite quot_scale. split; [by intros [= ->]|by intros [= ->%scale_inj]].
  - split; [done|]. intros [= ->].
    assert (f_fract_is_zero (FFin (i * f64_scale)) = true) by (apply fract_zero_int; by exists i). congruence.
Qed.

Lemma float_as_i64_spec f : float_as_i64 f = (i ← float_int f; i64_checked i).
Proof.
  unfold float_as_i64. destruct f as [| |n]; try done. cbn [f_is_finite andb float_int].
  destruct (f_fract_is_zero (FFin n)) eqn:Hf; [|done]. apply fract_zero_int in Hf as [z ->].
  pose proof (in_i64_bounds (z * f64_scale) z eq_refl) as Hb. rewrite quot_scale. cbn [mbind option_bind andb].
  unfold i64_min. destruct (_ && _).
  - rewrite f_as_i64_int by (by apply Hb). symmetry. apply i64_checked_Some. split; [by apply Hb|done].
  - symmetry. apply i64_checked_None. intros Hz. by apply Hb in Hz.
Qed.

Lemma int_valued_float_spec f : bi_Z <$> int_valued_float f = float_int f.
Proof.
  unfold int_valued_float. destruct f as [| |n]; try done. cbn [f_is_finite andb float_int].
  destruct (f_fract_is_zero (FFin n)); [|done]. apply (bi_from_f64_Z (FFin n)).
Qed.

Lemma i64_range_contains_spec s e t x : t ≠ 0 → i64_range_contains s e t x = true ↔ x ∈ range_list s e t.
Proof.
  intros Ht. rewrite range_list_member by done. unfold i64_range_contains.
  destruct (Z.ltb_spec 0 t).
  - rewrite !andb_true_iff, Z.leb_le, Z.ltb_lt, Z.eqb_eq. tauto.
  - destruct (Z.ltb_spec t 0); [|lia]. rewrite !andb_true_iff, Z.leb_le, Z.ltb_lt, Z.eqb_eq. tauto.
Qed.

Lemma bigrange_contains_spec (s e t x : B) : bi_Z t ≠ 0 →
  bigrange_contains s e t x = true ↔ bi_Z x ∈ range_list (bi_Z s) (bi_Z e) (bi_Z t).
Proof.
  intros Ht. rewrite range_list_member by done. unfold bigrange_contains. rewrite bi_rem_Z, bi_sub_Z by done.
  destruct (0 <? bi_Z t); rewrite !andb_true_iff, Z.leb_le, Z.ltb_lt, Z.eqb_eq; tauto.
Qed.

Lemma i64_range_member s e t x : i64_range s → i64_range e → t ≠ 0 → x ∈ range_list s e t → i64_range x.
Proof.
  intros Hs He Ht [Hx _]%range_list_member; [|done]. unfold i64_range in *. destruct (0 <? t); lia.
Qed.

(** A check on the integer that a value is equal to. *)
Definition holds_of (o : option Z) (p : Z → Prop) : Prop := match o with Some x => p x | None => False end.

#[global] Instance holds_of_dec o (p : Z → Prop) `{∀ x, Decision (p x)} : Decision (holds_of o p).
Proof. destruct o; apply _. Defined.

Lemma checked_contains s e t o : i64_range s → i64_range e → t ≠ 0 →
  is_some_and (x ← o; i64_checked x) (i64_range_contains s e t) = true ↔
  holds_of o (λ x, x ∈ range_list s e t).
Proof.
  intros Hs He Ht. destruct o as [x|]; [|done]. cbn. unfold i64_checked.
  destruct (i64_in x) eqn:Hx; cbn; [by apply i64_range_contains_spec|].
  split; [done|]. intros Hin. apply i64_range_member in Hin; [|done..]. apply i64_in_spec in Hin. congruence.
Qed.

Lemma big_contains_value (s e t : B) (o : option B) : bi_Z t ≠ 0 →
  is_some_and o (bigrange_contains s e t) = true ↔
  holds_of (bi_Z <$> o) (λ x, x ∈ range_list (bi_Z s) (bi_Z e) (bi_Z t)).
Proof. intros Ht. destruct o as [x|]; [|done]. by apply bigrange_contains_spec. Qed.

Lemma bi_to_i64_checked n : bi_to_i64 n = i64_checked (bi_Z n).
Proof. by rewrite bi_to_i64_Z. Qed.

Lemma value_to_bigint_int v : bi_Z <$> value_to_bigint v = int_value v.
Proof. destruct v; cbn; by rewrite ?bi_from_i64_Z. Qed.

(** What the methods of ranges take to be an integer: not a complex number. *)
Definition method_int v : option Z := match v with VComplex _ _ => None | _ => exact_int v end.

Lemma range_contains_value_spec s e t v : i64_range s → i64_range e → t ≠ 0 →
  range_contains_value s e t v = true ↔ holds_of (method_int v) (λ x, x ∈ range_list s e t).
Proof.
  intros Hs He Ht. destruct v as [|b|x|n|f|re im| | |]; cbn [range_contains_value method_int exact_int int_value holds_of];
    try done; try by apply i64_range_contains_spec.
  - rewrite bi_to_i64_checked. apply (checked_contains s e t (Some (bi_Z n)) Hs He Ht).
  - rewrite float_as_i64_spec. by apply checked_contains.
Qed.

Lemma bigrange_member_spec (s e t : B) v : bi_Z t ≠ 0 →
  match bigrange_member s e t v with
  | Some x => method_int v = Some (bi_Z x) ∧ bi_Z x ∈ range_list (bi_Z s) (bi_Z e) (bi_Z t)
  | None => ¬ holds_of (method_int v) (λ x, x ∈ range_list (bi_Z s) (bi_Z e) (bi_Z t))
  end.
Proof.
  intros Ht. unfold bigrange_member.
  match goal with |- context [mbind ?f ?m] => set (o := m) end.
  assert (Ho : method_int v = bi_Z <$> o).
  { subst o. destruct v; cbn [method_int exact_int]; try done; rewrite ?int_valued_float_spec, ?value_to_bigint_int; done. }
  rewrite Ho. destruct o as [x|]; cbn; [|tauto]. destruct (bigrange_contains s e t x) eqn:Hx.
  - by rewrite bigrange_contains_spec in Hx.
  - rewrite <- bigrange_contains_spec by done. by rewrite Hx.
Qed.

Lemma eval_in_spec r v : range_wf r → eval_in r v = true ↔ holds_of (exact_int v) (λ x, x ∈ range_vals r).
Proof.
  destruct r as [s e t|s e t]; cbn [range_wf]; intros Hwf; cbn [eval_in]; unfold range_vals, range_Z.
  - destruct v as [|b|x|n|f|re im| | |]; try (apply (range_contains_value_spec s e t); tauto).
    cbn [exact_int]. destruct (fval_eqb (d_val im) f_zero); cbn [andb]; [|done].
    rewrite float_as_i64_spec. apply checked_contains; tauto.
  - rewrite big_contains_value by done.
    destruct v as [|b|x|n|f|re im| | |]; cbn [exact_int]; rewrite ?value_to_bigint_int, ?int_valued_float_spec; try done.
    destruct (fval_eqb (d_val im) f_zero); [|done]. by rewrite int_valued_float_spec.
Qed.

Lemma range_count_spec r v : range_wf r →
  range_count r v = if decide (holds_of (method_int v) (λ x, x ∈ range_vals r)) then 1 else 0.
Proof.
  destruct r as [s e t|s e t]; cbn [range_wf]; intros Hwf; cbn [range_count]; unfold range_vals, range_Z.
  - pose proof (range_contains_value_spec s e t v ltac:(tauto) ltac:(tauto) ltac:(tauto)) as Hc.
    destruct (range_contains_value s e t v); case_decide; try done; naive_solver.
  - pose proof (bigrange_member_spec s e t v Hwf) as Hm.
    destruct (bigrange_member s e t v) as [x|]; case_decide as Hd; try done.
    exfalso. apply Hd. by destruct Hm as [-> Hm].
Qed.

(** *** Position of a member *)

Lemma range_position s e t x : t ≠ 0 → x ∈ range_list s e t →
  ∃ k, range_list s e t !! k = Some x ∧ Z.quot (x - s) t = Z.of_nat k ∧ Z.of_nat k < slice_count s e t.
Proof.
  intros Ht Hx. rewrite range_list_count in Hx by done.
  apply list_elem_of_fmap in Hx as (n & -> & Hn%elem_of_seqZ). exists (Z.to_nat n).
  pose proof (range_list_length s e t Ht) as Hl. unfold vlen in Hl.
  split_and!; [|replace (s + n * t - s) with (n * t) by lia; rewrite Z.quot_mul by done|]; try lia.
  rewrite range_list_lookup by lia. do 2 f_equal. lia.
Qed.

(** The error of [index] for a value that is not in the range. *)
Definition index_error (repr_raw : Value B → string) r v : PyError :=
  match r, exact_int v with
  | _, None => ValueError "sequence.index(x): x not in sequence"
  | Range _ _ _, Some x =>
      if i64_in x then ValueError (repr_raw v +:+ " is not in range")
      else ValueError "sequence.index(x): x not in sequence"
  | BigRange _ _ _, Some _ => ValueError (repr_raw v +:+ " is not in range")
  end.

Lemma value_of_int z : ∃ v, (match i64_checked z with Some i => VInt i | None => value_from_bigint (bi_from_i64 z) end : Value B) = v ∧
  value_wf v ∧ int_value v = Some z.
Proof.
  eexists. split; [done|]. destruct (i64_checked z) as [i|] eqn:Hz.
  - apply i64_checked_Some in Hz as [Hz ->]. done.
  - destruct (value_from_bigint_spec (bi_from_i64 z)) as (Hc & Hi). by rewrite bi_from_i64_Z in Hi.
Qed.

(** A value that is the integer [z], in canonical form. *)
Definition is_int v (z : Z) : Prop := value_wf v ∧ int_value v = Some z.

Lemma value_from_bigint_is n : is_int (value_from_bigint n) (bi_Z n).
Proof. by destruct (value_from_bigint_spec n) as (? & ?). Qed.

Definition is_complex v : bool := match v with VComplex _ _ => true | _ => false end.

(** Complex numbers are never found. *)
Lemma range_index_complex repr_raw r v :
  is_complex v = true → range_index repr_raw r v = Raise (ValueError "sequence.index(x): x not in sequence").
Proof. by destruct v, r. Qed.

Lemma range_index_spec repr_raw r v : range_wf r → value_wf v → is_complex v = false →
  if decide (holds_of (exact_int v) (λ x, x ∈ range_vals r)) then
    ∃ w k x, range_index repr_raw r v = Return w ∧ exact_int v = Some x ∧
      is_int w (Z.of_nat k) ∧ range_vals r !! k = Some x
  else range_index repr_raw r v = Raise (index_error repr_raw r v).
Proof.
  intros Hwf' Hv' Hc'. assert (Hexact : exact_int v = method_int v) by (by destruct v). unfold index_error. rewrite Hexact. clear Hc' Hexact. revert Hwf' Hv'.
  destruct r as [s e t|s e t]; cbn [range_wf]; intros Hwf Hv; cbn [range_index]; unfold range_vals, range_Z.
  - match goal with |- context [match ?o with Some vi => _ | None => _ end] => set (vi_opt := o) end.
    assert (Ho : vi_opt = (x ← method_int v; i64_checked x)).
    { subst vi_opt. destruct v as [|[]|x|n|f|re im| | |]; cbn [method_int exact_int int_value mbind option_bind]; try done.
      - symmetry. by apply i64_checked_Some.
      - apply bi_to_i64_checked.
      - apply float_as_i64_spec. }
    rewrite Ho. pose proof (range_contains_value_spec s e t v ltac:(tauto) ltac:(tauto) ltac:(tauto)) as Hc.
    destruct (method_int v) as [x|]; cbn [holds_of mbind option_bind] in Hc |- *; [|done].
    change (i64_checked x) with (if i64_in x then Some x else None). case_decide as Hd.
    + rewrite (proj2 (i64_in_spec x)) by (apply (i64_range_member s e t); tauto).
      rewrite (proj2 Hc Hd). destruct (range_position s e t x ltac:(tauto) Hd) as (k & Hk & -> & _).
      destruct (value_of_int (Z.of_nat k)) as (w & Hw & Hcan). exists w, k, x. split_and!; try done.
      rewrite <- Hw. by destruct (i64_checked _).
    + destruct (i64_in x); [|done]. destruct (range_contains_value s e t v); [tauto|done].
  - pose proof (bigrange_member_spec s e t v Hwf) as Hm. destruct (bigrange_member s e t v) as [x|].
    + destruct Hm as [Hx Hin]. rewrite Hx. cbn. rewrite decide_True by done.
      destruct (range_position _ _ _ _ Hwf Hin) as (k & Hk & Hq & _).
      eexists _, k, (bi_Z x). split_and!; try done. rewrite <- Hq.
      rewrite <- bi_sub_Z, <- bi_quot_Z by done. apply value_from_bigint_is.
    + rewrite decide_False by done.
      destruct v as [|b|x|n|f|re im| | |]; cbn [method_int exact_int int_value]; try done.
      destruct (d_val f) as [| |n]; cbn [f_is_finite f_fract_is_zero float_int andb]; try done.
      by destruct (Z.rem n f64_scale =? 0).
Qed.

(** ** Subscription *)

(** An index, counted from the end when negative. *)
Definition py_index (len i : Z) : option Z :=
  let i := if i <? 0 then i + len else i in
  if (0 <=? i) && (i <? len) then Some i else None.

Lemma py_index_range len i k : py_index len i = Some k → 0 ≤ k < len.
Proof. unfold py_index. destruct (_ && _) eqn:Hk; [|done]. intros [= <-]. lia. Qed.

(** Both forms test the adjusted index. *)
Lemma py_index_test {A} len i (a b : A) :
  let k := if i <? 0 then i + len else i in
  (if (k <? 0) || (len <=? k) then a else b) = match py_index len i with Some _ => b | None => a end.
Proof.
  cbn. unfold py_index. set (k := if i <? 0 then i + len else i). clearbody k.
  destruct (Z.ltb_spec k 0), (Z.leb_spec len k), (Z.leb_spec 0 k), (Z.ltb_spec k len); done || lia.
Qed.

(** The item of a sequence at a Python index, or the error. *)
Definition item_at (l : list Z) (i : Z) (o : outcome (Value B)) : Prop :=
  match py_index (vlen l) i with
  | Some k => ∃ w x, o = Return w ∧ is_int w x ∧ l !! Z.to_nat k = Some x
  | None => o = Raise range_out_of_range
  end.

Lemma i128_exact_in x : - 2 ^ 127 ≤ x < 2 ^ 127 → i128_exact x = Ok x.
Proof.
  intros Hx. unfold i128_exact. by destruct (Z.leb_spec (- 2 ^ 127) x), (Z.ltb_spec x (2 ^ 127)); [|lia..].
Qed.

(** The index of a machine range, before it is counted from the end. *)
Lemma i128_index_spec v i : value_wf v → int_value v = Some i →
  match v with
  | VInt v => Return v
  | VBool b => Return (bool_int b)
  | VBigInt value =>
      match bi_to_i128 value with Some value => Return value | None => Raise range_out_of_range end
  | _ => Panicked
  end = if decide (- 2 ^ 127 ≤ i < 2 ^ 127) then Return i else Raise range_out_of_range.
Proof.
  intros Hv Hi. destruct v as [|b|x|n| | | | |]; try done; injection Hi as <-.
  - rewrite decide_True; [done|]. destruct b; cbn; lia.
  - rewrite decide_True; [done|]. cbn in Hv. unfold i64_range in Hv. lia.
  - unfold bi_to_i128.
    destruct (decide _), (Z.leb_spec (- 2 ^ 127) (bi_Z n)), (Z.ltb_spec (bi_Z n) (2 ^ 127)); try done; lia.
Qed.

Lemma i64_getitem_spec s e t v i : range_wf (Range s e t) → value_wf v → int_value v = Some i →
  item_at (range_vals (Range s e t)) i (range_getitem (Range s e t) v).
Proof.
  intros Hwf Hv Hi. unfold item_at. rewrite vals_length by done. cbn [range_wf] in Hwf.
  unfold range_getitem, range_vals, range_count_Z, range_Z. destruct Hwf as (Hs & He & Ht & Ht0).
  pose proof (i64_count_bound s e t Hs He Ht0) as Hc. pose proof (slice_count_nonneg s e t) as Hc0.
  rewrite range_len_spec, (i128_index_spec v i) by done.
  destruct (decide (- 2 ^ 127 ≤ i < 2 ^ 127)) as [Hib|Hib]; cbn [mbind outcome_bind];
    [|unfold py_index; destruct (Z.ltb_spec i 0); destruct (_ && _) eqn:Hb; try done; lia].
  assert (Hk : lift (if i <? 0 then i128_exact (i + slice_count s e t) else Ok i) =
               Return (if i <? 0 then i + slice_count s e t else i)).
  { destruct (Z.ltb_spec i 0); [|done]. by rewrite i128_exact_in by lia. }
  rewrite Hk. cbn [mbind outcome_bind]. rewrite py_index_test.
  destruct (py_index (slice_count s e t) i) as [k|] eqn:Hp; [|done].
  pose proof (py_index_range _ _ _ Hp) as Hkr. unfold py_index in Hp.
  destruct (_ && _); [|done]. injection Hp as Hp. rewrite Hp.
  destruct (i64_term_range s e t k Hs He Ht0 Hkr) as [Hterm Hoff].
  rewrite i128_exact_ok by lia. cbn [mbind res_bind]. unfold i64_range in *.
  rewrite i128_exact_ok by lia. cbn [mbind res_bind].
  unfold i64_checked. rewrite (proj2 (i64_in_spec _)) by (unfold i64_range; lia).
  cbn. eexists _, _. split_and!; [done|by split|].
  pose proof (range_list_length s e t Ht0) as Hl. unfold vlen in Hl.
  rewrite range_list_lookup by lia. do 2 f_equal. lia.
Qed.

Lemma big_getitem_spec s e t v i : range_wf (BigRange s e t) → value_wf v → int_value v = Some i →
  item_at (range_vals (BigRange s e t)) i (range_getitem (BigRange s e t) v).
Proof.
  intros Hwf Hv Hi. unfold item_at. rewrite vals_length by done. cbn [range_wf] in Hwf.
  unfold range_getitem, range_vals, range_count_Z, range_Z.
  pose proof (value_to_bigint_int v) as Hb. rewrite Hi in Hb.
  destruct (value_to_bigint v) as [b|]; [|done]. injection Hb as Hb. cbn [expect lift mbind outcome_bind].
  set (len := bigrange_len s e t). set (k := if bi_Z b <? 0 then bi_add b len else b).
  assert (Hlen : bi_Z len = slice_count (bi_Z s) (bi_Z e) (bi_Z t)) by (by apply bigrange_len_spec).
  assert (Hk : bi_Z k = if i <? 0 then i + slice_count (bi_Z s) (bi_Z e) (bi_Z t) else i).
  { unfold k. rewrite Hb. destruct (i <? 0); rewrite ?bi_add_Z, ?Hlen; lia. }
  rewrite Hlen, Hk, py_index_test. destruct (py_index _ i) as [j|] eqn:Hp; [|done].
  pose proof (py_index_range _ _ _ Hp) as Hjr. unfold py_index in Hp.
  destruct (_ && _); [|done]. injection Hp as Hp. rewrite Hp in Hk.
  eexists _, _. split_and!; [done|apply value_from_bigint_is|].
  pose proof (range_list_length (bi_Z s) (bi_Z e) (bi_Z t) Hwf) as Hl. unfold vlen in Hl.
  rewrite range_list_lookup by lia. rewrite bi_add_Z, bi_mul_Z, Hk. do 2 f_equal. lia.
Qed.

Lemma range_getitem_spec r v i : range_wf r → value_wf v → int_value v = Some i →
  item_at (range_vals r) i (range_getitem r v).
Proof. destruct r; [apply i64_getitem_spec|apply big_getitem_spec]. Qed.

(** ** Slices *)

Lemma to_big_spec v :
  match int_value v with Some i => ∃ n, to_big v = Return n ∧ bi_Z n = i | None => to_big v = Raise bad_slice_index end.
Proof. destruct v; cbn; try done; eexists; (split; [done|]); by rewrite ?bi_from_i64_Z. Qed.

Lemma clamp_big_Z (x low high : B) : bi_Z low ≤ bi_Z high →
  bi_Z (clamp_big x low high) = Z.max (bi_Z low) (Z.min (bi_Z x) (bi_Z high)).
Proof.
  intros Hle. unfold clamp_big. destruct (Z.ltb_spec (bi_Z x) (bi_Z low)), (Z.ltb_spec (bi_Z high) (bi_Z x)); lia.
Qed.

(** A bound of a slice in big integers. *)
Lemma big_bound_spec (len : B) (step_pos : bool) (step : Z) o (d : B) : 0 ≤ bi_Z len → step_pos = (0 <? step) →
  let resolve v :=
    i ← to_big v;
    let i := if bi_Z i <? 0 then bi_add i len else i in
    Return (if step_pos then clamp_big i (bi_from_i64 0) len
            else clamp_big i (bi_neg (bi_from_i64 1)) (bi_sub len (bi_from_i64 1))) in
  let m := match o with None | Some VNone => Return d | Some v => resolve v end in
  match bound_arg o with
  | Return i => ∃ n, m = Return n ∧ bi_Z n = from_option (adjust (bi_Z len) step) (bi_Z d) i
  | Raise e => m = Raise e
  | _ => False
  end.
Proof.
  intros Hlen -> resolve m.
  assert (Hv : ∀ v, match int_value v with
    | Some i => ∃ n, resolve v = Return n ∧ bi_Z n = adjust (bi_Z len) step i
    | None => resolve v = Raise bad_slice_index end).
  { intros v. subst resolve m. cbn beta. pose proof (to_big_spec v) as Hb. destruct (int_value v) as [i|]; [|by rewrite Hb].
    destruct Hb as (n & -> & Hn). cbn [mbind outcome_bind]. eexists. split; [done|]. unfold adjust.
    destruct (Z.ltb_spec 0 step); rewrite clamp_big_Z; bi_simp; try lia;
      rewrite Hn; destruct (i <? 0); bi_simp; rewrite ?Hn; lia. }
  unfold bound_arg. destruct o as [v|]; [|by exists d]. subst m. cbn [slice_arg]. specialize (Hv v).
  destruct v; try exact Hv. by exists d.
Qed.

Lemma big_step_spec st :
  let m := match st with
           | None | Some VNone => Return (bi_from_i64 1)
           | Some v => s ← to_big v; if bi_eqb s (bi_from_i64 0) then Raise zero_step else Return s
           end in
  match step_arg st with
  | Return k => ∃ c, m = Return c ∧ bi_Z c = k
  | Raise e => m = Raise e
  | _ => False
  end.
Proof.
  intros m. unfold step_arg.
  assert (Hv : ∀ v, match int_value v with
    | Some i => ∃ n, to_big v = Return n ∧ bi_Z n = i ∧
        (n ← to_big v; if bi_eqb n (bi_from_i64 0) then Raise zero_step else Return n) =
        if i =? 0 then Raise zero_step else Return n
    | None => (n ← to_big v; if bi_eqb n (bi_from_i64 0) then Raise zero_step else Return n) = Raise bad_slice_index end).
  { intros v. pose proof (to_big_spec v) as Hb. destruct (int_value v) as [i|]; [|by rewrite Hb].
    destruct Hb as (n & -> & Hn). exists n. split_and!; [done..|]. cbn. bi_simp. by rewrite Hn. }
  destruct st as [v|]; subst m; [|cbn; eexists; split; [done|]; by bi_simp]. specialize (Hv v).
  destruct v; cbn [slice_arg int_value fmap option_fmap option_map]; cbn [int_value] in Hv; try exact Hv.
  all: try (destruct Hv as (n' & Hn & Hz & ->); destruct (_ =? 0); [done|by exists n']).
  eexists. split; [done|]. by bi_simp.
Qed.

Lemma resolve_slice_bounds_big_spec (len : B) lo hi st : 0 ≤ bi_Z len →
  match slice_args lo hi st with
  | Return (i, j, k) => ∃ a b c, resolve_slice_bounds_big len lo hi st = Return (a, b, c) ∧
      bi_Z a = adjust_start (bi_Z len) k i ∧ bi_Z b = adjust_stop (bi_Z len) k j ∧ bi_Z c = k
  | Raise e => resolve_slice_bounds_big len lo hi st = Raise e
  | _ => False
  end.
Proof.
  intros Hlen. unfold slice_args, resolve_slice_bounds_big. pose proof (big_step_spec st) as Hst. cbn zeta in Hst.
  destruct (step_arg st) as [k|e| |]; [destruct Hst as (c & -> & Hc)|by rewrite Hst|done..].
  cbn [mbind outcome_bind]. cbn zeta.
  pose proof (big_bound_spec len (0 <? bi_Z c) k lo (if 0 <? bi_Z c then bi_from_i64 0 else bi_sub len (bi_from_i64 1))
    Hlen ltac:(by rewrite Hc)) as Hlo.
  pose proof (big_bound_spec len (0 <? bi_Z c) k hi (if 0 <? bi_Z c then len else bi_neg (bi_from_i64 1))
    Hlen ltac:(by rewrite Hc)) as Hhi.
  cbn zeta in Hlo, Hhi.
  destruct (bound_arg lo) as [i|e| |]; [destruct Hlo as (a & -> & Ha)|by rewrite Hlo|done..]. cbn [mbind outcome_bind].
  destruct (bound_arg hi) as [j|e| |]; [destruct Hhi as (b & -> & Hb)|by rewrite Hhi|done..]. cbn [mbind outcome_bind].
  exists a, b, c. split_and!; [done|rewrite Ha|rewrite Hb|done]; unfold adjust_start, adjust_stop; rewrite Hc.
  - destruct i; [done|]. cbn. destruct (0 <? k); by bi_simp.
  - destruct j; [done|]. cbn. destruct (0 <? k); by bi_simp.
Qed.

(** The slice of a range is the range over the slice of its sequence. *)
Lemma range_slice_vals s e t i j k a b c : t ≠ 0 → k ≠ 0 →
  let len := slice_count s e t in
  a = adjust_start len k i → b = adjust_stop len k j → c = k →
  range_list (s + a * t) (s + b * t) (t * c) = py_slice (range_list s e t) i j k.
Proof. intros Ht Hk len -> -> ->. by rewrite py_slice_range_list. Qed.

(** The bounds and the step of the slice [i:j:k] of the range of [p], whose own
    step is multiplied by [c]. *)
Definition slice_of (p : Z * Z * Z) (i j : option Z) (k c : Z) : Z * Z * Z :=
  let '(s, e, t) := p in let len := slice_count s e t in
  (s + adjust_start len k i * t, s + adjust_stop len k j * t, t * c).

(** The range [r'] is the slice [i:j:k] of [r], its step multiplied by [c]. *)
Definition is_slice r (i j : option Z) (k c : Z) (r' : PyRange B) : Prop :=
  range_wf r' ∧ range_Z r' = slice_of (range_Z r) i j k c ∧ range_canonical r' ∧ range_vals r' = py_slice (range_vals r) i j k.

Lemma wide_range_slice_spec (s t len : B) e lo hi st r :
  bi_Z t ≠ 0 → bi_Z len = slice_count (bi_Z s) e (bi_Z t) → range_Z r = (bi_Z s, e, bi_Z t) →
  match slice_args lo hi st with
  | Return (i, j, k) => ∃ r', wide_range_slice s t len lo hi st = Return r' ∧ is_slice r i j k k r'
  | Raise err => wide_range_slice s t len lo hi st = Raise err
  | _ => False
  end.
Proof.
  intros Ht Hlen Hr. unfold wide_range_slice.
  pose proof (resolve_slice_bounds_big_spec len lo hi st ltac:(rewrite Hlen; apply slice_count_nonneg)) as Hb.
  destruct (slice_args lo hi st) as [[[i j] k]|err| |] eqn:Hargs; [|by rewrite Hb|done..].
  destruct Hb as (a & b & c & -> & Ha & Hb & Hc). cbn [mbind outcome_bind].
  apply slice_args_step in Hargs. unfold big_range_slice.
  assert (Hstep : bi_Z (bi_mul t c) ≠ 0) by (bi_simp; rewrite Hc; nia).
  eexists. split; [done|]. destruct (range_big_spec (bi_add s (bi_mul a t)) (bi_add s (bi_mul b t)) _ Hstep) as (Hwf & HZ & Hcan).
  split_and!; [done| |done|].
  - rewrite HZ, Hr. bi_simp. cbn. by rewrite Ha, Hb, Hc, Hlen.
  - rewrite range_vals_big by done. bi_simp. unfold range_vals. rewrite Hr. apply range_slice_vals; try done; by rewrite <- Hlen.
Qed.

(** Saturating the step of a slice changes none of its positions. *)
Lemma range_list_saturate len i j k : 0 ≤ len < 2 ^ 63 → k ≠ 0 →
  range_list (adjust_start len k i) (adjust_stop len k j) (saturate k) =
  range_list (adjust_start len k i) (adjust_stop len k j) k.
Proof.
  intros Hlen Hk. assert (Hk' : saturate k ≠ 0) by (unfold saturate, i64_min, i64_max; lia).
  pose proof (adjust_start_range len k i ltac:(lia)) as Hi. pose proof (adjust_stop_range len k j ltac:(lia)) as Hj.
  set (a := adjust_start len k i) in *. set (b := adjust_stop len k j) in *. clearbody a b.
  assert (Hs : ∀ n, 0 ≤ n → _) by (intros n Hn; apply (before_stop_saturate len a b k n);
    [done|destruct (0 <? k); lia|done|done|destruct (0 <? k); lia]).
  rewrite !range_list_count by done.
  assert (Hc : slice_count a b k = slice_count a b (saturate k)).
  { apply slice_count_unique; [done|apply slice_count_nonneg|]. intros n Hn.
    rewrite slice_count_spec by done. by destruct (Hs n Hn) as [-> _]. }
  rewrite <- Hc. apply list_fmap_ext. intros m n [-> Hn]%lookup_seqZ. symmetry.
  apply (proj2 (Hs (0 + Z.of_nat m) ltac:(lia))). apply slice_count_spec; [done|lia|lia].
Qed.

(** Whether the narrow path takes a slice: all its products and sums fit. *)
Definition narrow_fits (s t a b c : Z) : bool := forallb i64_in [a * t; s + a * t; b * t; s + b * t; t * c].

Lemma narrow_range_slice_spec s t a b c :
  narrow_range_slice s t a b c = if narrow_fits s t a b c then Some (Range (s + a * t) (s + b * t) (t * c) : PyRange B) else None.
Proof.
  unfold narrow_range_slice, narrow_fits, i64_checked_mul, i64_checked_add, i64_checked. cbn [forallb].
  destruct (i64_in (a * t)); [|done]. cbn [mbind option_bind andb].
  destruct (i64_in (s + a * t)); [|done]. cbn [mbind option_bind andb].
  destruct (i64_in (b * t)); [|done]. cbn [mbind option_bind andb].
  destruct (i64_in (s + b * t)); [|done]. cbn [mbind option_bind andb]. by destruct (i64_in (t * c)).
Qed.

(** By what the step of a range is multiplied in a slice: where the whole
    computation fits machine words, the step of the slice is one of them. *)
Definition slice_factor r (i j : option Z) (k : Z) : Z :=
  let '(s, e, t) := range_Z r in let len := slice_count s e t in
  if is_machine r && i64_in len && narrow_fits s t (adjust_start len k i) (adjust_stop len k j) (saturate k) then saturate k else k.

Lemma narrow_is_slice s e t i j k :
  let len := slice_count s e t in
  len < 2 ^ 63 → t ≠ 0 → k ≠ 0 → narrow_fits s t (adjust_start len k i) (adjust_stop len k j) (saturate k) = true →
  is_slice (Range s e t) i j k (saturate k)
    (Range (s + adjust_start len k i * t) (s + adjust_stop len k j * t) (t * saturate k)).
Proof.
  intros len Hlen Ht Hk Hfits. pose proof (slice_count_nonneg s e t) as Hnn. unfold narrow_fits in Hfits. cbn [forallb] in Hfits.
  rewrite !andb_true_iff in Hfits. destruct Hfits as (_ & H1 & _ & H2 & H3 & _).
  assert (Hs : saturate k ≠ 0) by (unfold saturate, i64_min, i64_max; lia).
  split_and!; [cbn; rewrite <- !i64_in_spec; split_and!; try done; nia|done| |].
  - unfold range_canonical, in_words. cbn [range_Z is_machine fst snd]. by rewrite H1, H2, H3.
  - change (range_vals (Range s e t)) with (range_list s e t). unfold range_vals, range_Z.
    rewrite py_slice_range_list, !range_list_affine by done. by rewrite range_list_saturate by (done || lia).
Qed.

Lemma range_getslice_spec r lo hi st : range_wf r → arg_wf lo → arg_wf hi → arg_wf st →
  match slice_args lo hi st with
  | Return (i, j, k) => ∃ r', range_getslice r lo hi st = Return r' ∧ is_slice r i j k (slice_factor r i j k) r'
  | Raise err => range_getslice r lo hi st = Raise err
  | _ => False
  end.
Proof.
  intros Hwf Hlo Hhi Hst. destruct r as [s e t|s e t]; cbn [range_wf] in Hwf; unfold range_getslice.
  2: { apply (wide_range_slice_spec _ _ _ (bi_Z e)); [done|by apply bigrange_len_spec|done]. }
  destruct Hwf as (Hs & He & Ht & Ht0). rewrite range_len_spec by done.
  pose proof (wide_range_slice_spec (bi_from_i64 s) (bi_from_i64 t) (bi_from_i64 (slice_count s e t)) e lo hi st (Range s e t)) as Hwide.
  rewrite !bi_from_i64_Z in Hwide. specialize (Hwide Ht0 eq_refl eq_refl).
  unfold slice_factor, range_Z, i64_checked. cbn [is_machine andb]. destruct (i64_in (slice_count s e t)) eqn:Hlen; cbn [andb]; [|exact Hwide].
  apply i64_in_spec in Hlen. pose proof (slice_count_nonneg s e t) as Hnn. unfold i64_range in Hlen.
  rewrite resolve_slice_bounds_spec by (done || lia).
  destruct (slice_args lo hi st) as [[[i j] k]|err| |] eqn:Hargs; [|done|exact Hwide..].
  cbn [mbind outcome_bind]. apply slice_args_step in Hargs. rewrite narrow_range_slice_spec.
  destruct (narrow_fits _ _ _ _ _) eqn:Hfits; [|exact Hwide]. eexists. split; [done|]. apply narrow_is_slice; try done; lia.
Qed.

(** ** Hash *)

Lemma py_hash_bigint_spec n : py_hash_bigint n = hash_int (bi_Z n).
Proof.
  unfold py_hash_bigint, hash_int. rewrite bi_to_i64_checked, bi_rem_Z by (by rewrite bi_from_i64_Z).
  rewrite bi_from_i64_Z. assert (Hm : PY_HASH_MODULUS = 2 ^ 61 - 1) by done.
  pose proof (Z.rem_bound_abs (bi_Z n) PY_HASH_MODULUS ltac:(done)).
  unfold i64_checked. by rewrite (proj2 (i64_in_spec _)) by (unfold i64_range; lia).
Qed.

Lemma range_hash_spec h_none r : range_wf r →
  let '(s, _, t) := range_Z r in let len := range_count_Z r in
  range_hash h_none r = tuple_hash_cpython [hash_int len; if 1 <=? len then hash_int s else h_none;
                                            if 2 <=? len then hash_int t else h_none].
Proof.
  destruct r as [s e t|s e t]; cbn [range_wf range_Z]; intros Hwf; cbn [range_hash]; unfold range_count_Z, range_Z.
  - rewrite range_len_spec by tauto. destruct (i64_checked (slice_count s e t)) as [n|] eqn:Hn.
    + by apply i64_checked_Some in Hn as [_ ->].
    + by rewrite py_hash_bigint_spec, bi_from_i64_Z.
  - by rewrite !py_hash_bigint_spec, bigrange_len_spec.
Qed.

Lemma range_hash_equal h_none a b : range_wf a → range_wf b →
  range_equal a b = true → range_hash h_none a = range_hash h_none b.
Proof.
  intros Ha Hb Heq. apply range_equal_spec in Heq; [|done..].
  pose proof (range_hash_spec h_none a Ha) as Hha. pose proof (range_hash_spec h_none b Hb) as Hhb.
  assert (Hat : range_wf a → (range_Z a).2 ≠ 0) by (destruct a; cbn; tauto).
  assert (Hbt : range_wf b → (range_Z b).2 ≠ 0) by (destruct b; cbn; tauto).
  unfold range_vals, range_count_Z in *. destruct (range_Z a) as [[s e] t], (range_Z b) as [[s' e'] t'].
  apply range_list_eq in Heq; [|by apply Hat|by apply Hbt]. destruct Heq as (Hc & Hs & Ht).
  rewrite Hha, Hhb, <- Hc. generalize tuple_hash_cpython as hash, hash_int as int. intros hash int. do 3 f_equal; [|f_equal].
  - destruct (Z.leb_spec 1 (slice_count s e t)); [|done]. f_equal. lia.
  - destruct (Z.leb_spec 2 (slice_count s e t)); [|done]. f_equal. lia.
Qed.

(** ** Iteration *)

Definition cursor_Z it : Z * Z * Z :=
  match it with RangeIter c e t => (c, e, t) | BigRangeIter c e t => (bi_Z c, bi_Z e, bi_Z t) end.

(** What an iterator has left to yield. *)
Definition cursor_vals it : list Z := let '(c, e, t) := cursor_Z it in range_list c e t.

Definition cursor_wf it : Prop :=
  match it with
  | RangeIter c e t => i64_range c ∧ i64_range e ∧ i64_range t ∧ t ≠ 0
  | BigRangeIter _ _ t => bi_Z t ≠ 0
  end.

(** What one step of an iterator does. *)
Definition yields (next : RangeCursor B → option (Value B * RangeCursor B)) it : Prop :=
  match cursor_vals it with
  | [] => next it = None
  | x :: l => ∃ w it', next it = Some (w, it') ∧ is_int w x ∧ cursor_wf it' ∧ cursor_vals it' = l
  end.

Lemma range_list_nil s e t : t ≠ 0 → before_stop t e s = false → range_list s e t = [].
Proof. intros Ht Hb. rewrite range_list_unfold by done. by rewrite Hb. Qed.

Lemma exhausted_spec c e t : t ≠ 0 → range_exhausted c e t = negb (before_stop t e c).
Proof.
  intros Ht. unfold range_exhausted, before_stop. destruct (0 <? t).
  - destruct (Z.leb_spec e c), (Z.ltb_spec c e); done || lia.
  - destruct (Z.leb_spec c e), (Z.ltb_spec e c); done || lia.
Qed.

(** The cursor after a step that would leave the machine word is past the stop. *)
Lemma range_list_past c e t n : i64_range c → i64_range e → t ≠ 0 →
  n = c + t ∨ (¬ i64_range (c + t) ∧ before_stop t e n = false) →
  range_list n e t = range_list (c + t) e t.
Proof.
  intros Hc He Ht [->|[Hn Hb]]; [done|]. rewrite (range_list_nil n), (range_list_nil (c + t)); [done|done| |done..].
  unfold before_stop, i64_range in *. destruct (Z.ltb_spec 0 t); apply Z.ltb_ge; lia.
Qed.

Lemma i64_step_yields c e t n : i64_range c → i64_range e → i64_range t → t ≠ 0 → i64_range n →
  n = c + t ∨ (¬ i64_range (c + t) ∧ before_stop t e n = false) →
  (λ next, yields next (RangeIter c e t))
    (λ _, if range_exhausted c e t then None else Some (VInt c, RangeIter n e t)).
Proof.
  intros Hc He Ht Ht0 Hn Hnext. unfold yields. change (cursor_vals (RangeIter c e t)) with (range_list c e t).
  rewrite range_list_unfold by done. rewrite exhausted_spec by done. destruct (before_stop t e c); cbn [negb]; [|done].
  eexists _, _. split_and!; [done|done|done..|]. by apply range_list_past.
Qed.

Lemma big_step_yields (c e t : B) : bi_Z t ≠ 0 → yields (λ _, step_bigrange_iter c e t) (BigRangeIter c e t).
Proof.
  intros Ht. unfold yields.
  change (cursor_vals (BigRangeIter c e t)) with (range_list (bi_Z c) (bi_Z e) (bi_Z t)).
  pose proof (exhausted_spec (bi_Z c) (bi_Z e) (bi_Z t) Ht) as Hex. unfold range_exhausted in Hex.
  unfold step_bigrange_iter. rewrite range_list_unfold by done. rewrite Hex.
  destruct (before_stop _ _ _); cbn [negb]; [|done].
  eexists _, _. split_and!; [done|apply value_from_bigint_is|done|]. unfold cursor_vals, cursor_Z. by rewrite bi_add_Z.
Qed.

Lemma cursor_next_yields it : cursor_wf it → yields cursor_next it.
Proof.
  destruct it as [c e t|c e t]; intros Hwf; [|by apply big_step_yields].
  destruct Hwf as (Hc & He & Ht & Ht0).
  apply (i64_step_yields c e t (i64_saturating_add c t) Hc He Ht Ht0); unfold i64_saturating_add, i64_min, i64_max.
  - unfold i64_range. lia.
  - destruct (decide (i64_range (c + t))) as [Hr|Hr]; [left; unfold i64_range in Hr; lia|right; split; [done|]].
    unfold before_stop, i64_range in *. destruct (Z.ltb_spec 0 t); apply Z.ltb_ge; lia.
Qed.

Lemma loop_next_yields it : cursor_wf it → yields loop_next it.
Proof.
  destruct it as [c e t|c e t]; intros Hwf; [|by apply big_step_yields].
  destruct Hwf as (Hc & He & Ht & Ht0).
  assert (Hn : default e (i64_checked_add c t) = c + t ∧ i64_range (c + t) ∨
               default e (i64_checked_add c t) = e ∧ ¬ i64_range (c + t)).
  { unfold i64_checked_add, i64_checked. destruct (i64_in (c + t)) eqn:Hin.
    - left. by apply i64_in_spec in Hin.
    - right. split; [done|]. rewrite <- i64_in_spec. by rewrite Hin. }
  apply (i64_step_yields c e t (default e (i64_checked_add c t)) Hc He Ht Ht0).
  - by destruct Hn as [[-> ?]|[-> ?]].
  - destruct Hn as [[-> ?]|[-> ?]]; [by left|right; split; [done|]].
    unfold before_stop. destruct (0 <? t); apply Z.ltb_ge; lia.
Qed.

(** *** Making an iterator *)

Lemma native_cursor_safe_total s e t : i64_range s → i64_range e → i64_range t → t ≠ 0 →
  ∃ b, i64_range_native_cursor_safe s e t = Ok b.
Proof.
  intros Hs He Ht Ht0. unfold i64_range_native_cursor_safe. rewrite range_len_spec by done.
  pose proof (slice_count_nonneg s e t). destruct (Z.eqb_spec (slice_count s e t) 0); [by eexists|].
  destruct (i64_term_range s e t (slice_count s e t - 1) Hs He Ht0 ltac:(lia)) as [Hterm Hoff]. unfold i64_range in *.
  rewrite !i128_exact_in by lia. cbn [mbind res_bind]. rewrite i128_exact_in by lia. cbn [mbind res_bind].
  rewrite i128_exact_in by lia. by eexists.
Qed.

(** An iterator over a sequence. *)
Definition iterates (m : res (RangeCursor B)) (l : list Z) : Prop :=
  ∃ it, m = Ok it ∧ cursor_wf it ∧ cursor_vals it = l.

Lemma make_range_iterator_spec r : range_wf r → iterates (make_range_iterator r) (range_vals r).
Proof.
  destruct r as [s e t|s e t]; cbn [range_wf]; intros Hwf; cbn [make_range_iterator]; [|by eexists].
  destruct Hwf as (Hs & He & Ht & Ht0). destruct (native_cursor_safe_total s e t Hs He Ht Ht0) as [b Hb].
  unfold make_i64_range_iterator. rewrite Hb. cbn [mbind res_bind]. eexists. split; [done|].
  destruct b; [done|]. split; [cbn; by rewrite bi_from_i64_Z|]. unfold cursor_vals, cursor_Z. by rewrite !bi_from_i64_Z.
Qed.

Lemma make_reversed_range_iterator_spec r : range_wf r →
  iterates (make_reversed_range_iterator r) (reverse (range_vals r)).
Proof.
  intros Hwf. pose proof (vals_length r Hwf) as Hlen. unfold iterates.
  destruct r as [s e t|s e t]; cbn [range_wf] in Hwf; cbn [make_reversed_range_iterator].
  - destruct Hwf as (Hs & He & Ht & Ht0). change (range_vals (Range s e t)) with (range_list s e t) in *.
    change (range_count_Z (Range s e t)) with (slice_count s e t) in Hlen. rewrite range_len_spec by done.
    pose proof (slice_count_nonneg s e t). destruct (Z.eqb_spec (slice_count s e t) 0) as [Hz|Hz].
    { eexists. split; [done|]. split; [done|]. rewrite Hz in Hlen. unfold vlen in Hlen.
      by destruct (range_list s e t); [|cbn in Hlen; lia]. }
    destruct (i64_term_range s e t (slice_count s e t - 1) Hs He Ht0 ltac:(lia)) as [Hterm Hoff]. unfold i64_range in *.
    rewrite i128_exact_in by lia. cbn [mbind res_bind]. rewrite i128_exact_in by lia. cbn [mbind res_bind].
    eexists. split; [done|]. rewrite <- range_list_reverse by (done || lia).
    destruct (_ && _) eqn:Hfit; (split; [|unfold cursor_vals, cursor_Z; by rewrite ?bi_from_i64_Z]).
    + rewrite !andb_true_iff, !i64_in_spec in Hfit. destruct Hfit as [[? ?] ?]. cbn. split_and!; (done || lia).
    + cbn. rewrite bi_from_i64_Z. lia.
  - change (range_vals (BigRange s e t)) with (range_list (bi_Z s) (bi_Z e) (bi_Z t)) in *.
    change (range_count_Z (BigRange s e t)) with (slice_count (bi_Z s) (bi_Z e) (bi_Z t)) in Hlen.
    rewrite bi_eqb_Z, bi_from_i64_Z, bigrange_len_spec by done.
    pose proof (slice_count_nonneg (bi_Z s) (bi_Z e) (bi_Z t)).
    destruct (Z.eqb_spec (slice_count (bi_Z s) (bi_Z e) (bi_Z t)) 0) as [Hz|Hz].
    { eexists. split; [done|]. split; [cbn; by rewrite bi_from_i64_Z|]. rewrite Hz in Hlen. unfold vlen in Hlen.
      destruct (range_list (bi_Z s) (bi_Z e) (bi_Z t)); [|cbn in Hlen; lia].
      unfold cursor_vals, cursor_Z. by rewrite !bi_from_i64_Z. }
    eexists. split; [done|]. rewrite <- range_list_reverse by (done || lia).
    split; [cbn; rewrite bi_neg_Z; lia|]. unfold cursor_vals, cursor_Z. bi_simp. by rewrite bigrange_len_spec.
Qed.

(** *** Positions and hints *)

Lemma range_list_drop c e t n : t ≠ 0 → 0 ≤ n → n ≤ slice_count c e t →
  drop (Z.to_nat n) (range_list c e t) = range_list (c + t * n) e t.
Proof.
  intros Ht Hn Hle. pose proof (range_list_length c e t Ht) as Hl.
  pose proof (range_list_length (c + t * n) e t Ht) as Hl'. unfold vlen in *.
  assert (Hc : slice_count c e t - n = slice_count (c + t * n) e t).
  { apply slice_count_unique; [done|lia|]. intros m Hm. replace (c + t * n + m * t) with (c + (n + m) * t) by lia.
    rewrite <- slice_count_spec by lia. lia. }
  apply list_eq_same_length with (n := Z.to_nat (slice_count c e t - n)).
  { lia. } { rewrite length_drop. lia. }
  intros k x y Hk. rewrite lookup_drop, !range_list_lookup by lia. intros [= <-] [= <-]. nia.
Qed.

Lemma restore_position_spec it n : cursor_wf it → 0 ≤ n →
  ∃ it', restore_position it n = Return it' ∧ cursor_wf it' ∧ cursor_vals it' = drop (Z.to_nat n) (cursor_vals it).
Proof.
  intros Hwf Hn. destruct it as [c e t|c e t]; cbn [cursor_wf] in Hwf; cbn [restore_position].
  - destruct Hwf as (Hc & He & Ht & Ht0). change (cursor_vals (RangeIter c e t)) with (range_list c e t).
    pose proof (range_list_length c e t Ht0) as Hl. unfold vlen in Hl. rewrite range_len_spec by done.
    destruct (Z.eqb_spec (Z.min n (slice_count c e t)) (slice_count c e t)) as [Hm|Hm].
    + eexists. split; [done|]. split; [done|]. unfold cursor_vals, cursor_Z. rewrite drop_ge by lia.
      apply range_list_nil; [done|]. unfold before_stop. destruct (0 <? t); apply Z.ltb_irrefl.
    + destruct (i64_term_range c e t n Hc He Ht0 ltac:(lia)) as [Hterm Hoff].
      rewrite Z.min_l by lia. rewrite (Z.mul_comm t n). unfold i64_range in *.
      rewrite i128_exact_in by lia. cbn [mbind res_bind]. rewrite i128_exact_in by lia. cbn [lift mbind outcome_bind].
      unfold i64_checked. rewrite (proj2 (i64_in_spec _)) by (unfold i64_range; lia).
      eexists. split; [done|]. split; [cbn; unfold i64_range; lia|]. unfold cursor_vals, cursor_Z.
      rewrite range_list_drop by lia. by rewrite (Z.mul_comm t n).
  - change (cursor_vals (BigRangeIter c e t)) with (range_list (bi_Z c) (bi_Z e) (bi_Z t)).
    rewrite bi_from_i64_Z, bigrange_len_spec by done. pose proof (range_list_length (bi_Z c) (bi_Z e) (bi_Z t) Hwf) as Hl.
    unfold vlen in Hl. destruct (Z.leb_spec (slice_count (bi_Z c) (bi_Z e) (bi_Z t)) n); eexists;
      (split; [done|]); (split; [done|]); unfold cursor_vals, cursor_Z.
    + rewrite drop_ge by lia. apply range_list_nil; [done|]. unfold before_stop. destruct (0 <? _); apply Z.ltb_irrefl.
    + bi_simp. by rewrite range_list_drop by lia.
Qed.

Lemma length_hint_spec it : cursor_wf it → int_value (length_hint it) = Some (vlen (cursor_vals it)).
Proof.
  intros Hwf. destruct it as [c e t|c e t]; cbn [cursor_wf] in Hwf; unfold cursor_vals, cursor_Z; cbn [length_hint].
  - rewrite range_list_length, range_len_spec by tauto. unfold i128_to_int_value.
    destruct (i64_checked _) as [n|] eqn:Hn; [by apply i64_checked_Some in Hn as [_ ->]|].
    by rewrite (proj2 (value_bigint_spec _)), bi_from_i64_Z.
  - by rewrite (proj2 (value_bigint_spec _)), range_list_length, bigrange_len_spec.
Qed.

(** *** Whole iterations *)

(** The values of at most [n] steps, and the iterator they leave. *)
Fixpoint take_steps (next : RangeCursor B → option (Value B * RangeCursor B)) (n : nat) it :
    list (Value B) * RangeCursor B :=
  match n with
  | O => ([], it)
  | S n => match next it with
           | None => ([], it)
           | Some (v, it) => let '(vs, it) := take_steps next n it in (v :: vs, it)
           end
  end.

Lemma take_steps_spec next n it : (∀ it, cursor_wf it → yields next it) → cursor_wf it →
  let '(vs, it') := take_steps next n it in
  Forall2 is_int vs (take n (cursor_vals it)) ∧ cursor_wf it' ∧ cursor_vals it' = drop n (cursor_vals it).
Proof.
  intros Hnext. revert it. induction n as [|n IH]; intros it Hwf; [done|]. cbn [take_steps].
  pose proof (Hnext it Hwf) as Hy. unfold yields in Hy. destruct (cursor_vals it) as [|x l] eqn:Hv.
  - rewrite Hy. rewrite Hv. done.
  - destruct Hy as (w & it' & -> & Hw & Hwf' & Hl). specialize (IH it' Hwf').
    destruct (take_steps next n it') as [vs it'']. rewrite Hl in IH. destruct IH as (Hvs & ? & ?).
    split_and!; [by constructor|done|done].
Qed.
End big_ranges.
