(* ===== verification/ConcreteInt.v ===== *)
(** Rocq's integers as an instance of every interface to big integers, on which
    the theorems about integer builtins are evaluated. *)

From S2P Require Import Outcome Prelude Double Keys Concrete IntBytes IntArith IntModular Slices.

(** ** Bytes *)

(** The number of bytes of a magnitude, and of a two's complement. *)
Definition unsigned_len (n : Z) : nat := Z.to_nat (Z.log2 (Z.abs n) / 8 + 1).
Definition signed_len (n : Z) : nat := Z.to_nat ((Z.log2 (if n <? 0 then Z.lnot n else n) + 1) / 8 + 1).

#[export] Instance Z_bigint_bytes : BigIntBytes Z := {
  bi_to_bytes_le n := le_encode (unsigned_len n) (Z.abs n);
  bi_to_signed_bytes_le n := le_encode (signed_len n) n;
  bi_from_bytes_le := le_value;
  bi_from_bytes_be bs := le_value (reverse bs);
  bi_from_signed_bytes_le := le_signed;
  bi_from_signed_bytes_be bs := le_signed (reverse bs);
}.

Lemma pow256 k : 0 ≤ k → 256 ^ k = 2 ^ (8 * k).
Proof. intros Hk. by rewrite Z.pow_mul_r by lia. Qed.

Lemma unsigned_len_fits n : Z.abs n < 256 ^ Z.of_nat (unsigned_len n).
Proof.
  unfold unsigned_len. pose proof (Z.log2_nonneg (Z.abs n)) as Hl.
  pose proof (Z.div_pos _ 8 Hl ltac:(lia)).
  rewrite Z2Nat.id, pow256 by lia. destruct (Z.eq_dec (Z.abs n) 0) as [Hz|];
    [rewrite Hz at 1; apply Z.pow_pos_nonneg; lia|].
  apply Z.log2_lt_pow2; [lia|]. pose proof (Z.div_mod (Z.log2 (Z.abs n)) 8 ltac:(done)).
  pose proof (Z.mod_pos_bound (Z.log2 (Z.abs n)) 8 ltac:(done)). lia.
Qed.

Lemma unsigned_len_least n k : n ≠ 0 → 0 ≤ k → Z.abs n < 256 ^ k → Z.of_nat (unsigned_len n) ≤ k.
Proof.
  intros Hn Hk Hlt. rewrite pow256 in Hlt by done. apply Z.log2_lt_pow2 in Hlt; [|lia].
  unfold unsigned_len. pose proof (Z.log2_nonneg (Z.abs n)) as Hl.
  pose proof (Z.div_pos _ 8 Hl ltac:(lia)). rewrite Z2Nat.id by lia.
  assert (Z.log2 (Z.abs n) / 8 < k) by (apply Z.div_lt_upper_bound; lia). lia.
Qed.

(** A signed number fits [k] bytes when its magnitude, with the negatives
    shifted by one, has [8 * k - 1] bits. *)
Lemma signed_fits_bits n k : 1 ≤ k →
  - 256 ^ k ≤ 2 * n < 256 ^ k ↔ (if n <? 0 then Z.lnot n else n) < 2 ^ (8 * k - 1).
Proof.
  intros Hk. assert (Hp : 256 ^ k = 2 * 2 ^ (8 * k - 1)).
  { rewrite pow256, <- Z.pow_succ_r by lia. f_equal. lia. }
  rewrite Hp. unfold Z.lnot. destruct (Z.ltb_spec n 0); lia.
Qed.

Lemma signed_len_fits n : - 256 ^ Z.of_nat (signed_len n) ≤ 2 * n < 256 ^ Z.of_nat (signed_len n).
Proof.
  set (a := if n <? 0 then Z.lnot n else n).
  assert (Ha : 0 ≤ a) by (unfold a, Z.lnot; destruct (Z.ltb_spec n 0); lia).
  pose proof (Z.log2_nonneg a). pose proof (Z.div_pos (Z.log2 a + 1) 8 ltac:(lia) ltac:(lia)).
  unfold signed_len. fold a. rewrite signed_fits_bits by lia. fold a. rewrite Z2Nat.id by lia.
  pose proof (Z.div_mod (Z.log2 a + 1) 8 ltac:(done)). pose proof (Z.mod_pos_bound (Z.log2 a + 1) 8 ltac:(done)).
  destruct (Z.eq_dec a 0) as [Hz|]; [rewrite Hz at 1; apply Z.pow_pos_nonneg; lia|].
  apply Z.log2_lt_pow2; lia.
Qed.

Lemma signed_len_least n k :
  n ≠ 0 → 0 ≤ k → - 256 ^ k ≤ 2 * n < 256 ^ k → Z.of_nat (signed_len n) ≤ k.
Proof.
  intros Hn Hk Hfit. assert (1 ≤ k) by (destruct (Z.eq_dec k 0) as [->|]; [rewrite Z.pow_0_r in Hfit; lia|lia]).
  rewrite signed_fits_bits in Hfit by done. unfold signed_len.
  set (a := if n <? 0 then Z.lnot n else n) in *.
  assert (Ha : 0 ≤ a) by (unfold a, Z.lnot; destruct (Z.ltb_spec n 0); lia).
  pose proof (Z.log2_nonneg a). pose proof (Z.div_pos (Z.log2 a + 1) 8 ltac:(lia) ltac:(lia)).
  rewrite Z2Nat.id by lia. assert (Z.log2 a < 8 * k - 1).
  { destruct (Z.eq_dec a 0) as [->|]; [cbn; lia|]. apply Z.log2_lt_pow2; lia. }
  assert ((Z.log2 a + 1) / 8 < k) by (apply Z.div_lt_upper_bound; lia). lia.
Qed.

#[export] Instance Z_bigint_bytes_laws : BigIntBytesLaws Z.
Proof.
  split; try done; intros n; try apply le_encode_range; cbn.
  - rewrite le_value_encode, Z.mod_small; [done|]. pose proof (unsigned_len_fits n). lia.
  - intros bs Hn Hbs Hv. unfold vlen at 1. rewrite le_encode_length.
    apply unsigned_len_least; [done|apply vlen_nonneg|]. pose proof (le_value_range bs Hbs). lia.
  - apply le_signed_encode, signed_len_fits.
  - intros bs Hn Hbs Hv. unfold vlen at 1. rewrite le_encode_length.
    apply signed_len_least; [done|apply vlen_nonneg|]. rewrite <- Hv. by apply le_signed_spec.
Qed.

(** ** Arithmetic *)

Fixpoint u64_digits (fuel : nat) (n : Z) : list Z :=
  match fuel with
  | O => []
  | S fuel => if n =? 0 then [] else n mod two64 :: u64_digits fuel (n / two64)
  end.

#[export] Instance Z_bigint_arith : BigIntArith Z := {
  bi_add := Z.add;
  bi_sub := Z.sub;
  bi_mul := Z.mul;
  bi_quot := Z.quot;
  bi_pow := Z.pow;
  bi_and := Z.land;
  bi_or := Z.lor;
  bi_xor := Z.lxor;
  bi_shl := Z.shiftl;
  bi_shr := Z.shiftr;
  bi_neg := Z.opp;
  bi_bits n := if n =? 0 then 0 else Z.log2 (Z.abs n) + 1;
  bi_to_u64_digits n := u64_digits (S (S (Z.to_nat (Z.log2 (Z.abs n))))) (Z.abs n);
  bi_to_f64 n := Some (d_of_int n);
}.

#[export] Instance Z_bigint_arith_laws : BigIntArithLaws Z.
Proof.
  split; try done; cbn [bi_Z Z_bigint bi_to_u64_digits Z_bigint_arith]; intros n Hn.
  - by rewrite Hn.
  - rewrite Z.abs_eq by lia. cbn [u64_digits]. destruct (Z.eqb_spec n 0); [lia|].
    by rewrite Z.mod_small, Z.div_small by lia.
  - rewrite Z.abs_eq by (unfold two64 in Hn; lia). cbn [u64_digits].
    destruct (Z.eqb_spec n 0); [unfold two64 in Hn; lia|].
    destruct (Z.eqb_spec (n / two64) 0) as [Hz|]; [|cbn; lia].
    apply Z.div_small_iff in Hz; [unfold two64 in *; lia|done].
Qed.

#[export] Instance Z_bigint_modpow : BigIntModpow Z := { bi_modpow a n m := a ^ n mod m }.

#[export] Instance Z_bigint_modpow_laws : BigIntModpowLaws Z.
Proof. split. done. Qed.

(** Integer operations never call the mathematical library. *)
#[export] Instance no_libm : Libm := { powf _ _ := d_nan; d_sin _ := d_nan; d_cos _ := d_nan }.

(** Side conditions of a theorem at concrete integers. *)
Ltac concrete :=
  first [ done | unfold value_wf, i64_range, i64_min, i64_max; cbn [bi_Z Z_bigint]; lia
        | repeat constructor; unfold byte_range; lia | by vm_compute ].
