(* ===== verification/IntProps.v ===== *)
(** The theorems about integers: byte conversions, the arithmetic operators and
    the three-argument [pow], with an evaluation of each. *)

From S2P Require Import Outcome Prelude Double Keys Concrete IntBytes IntArith IntArithSpec.
From S2P Require Import IntModular ConcreteInt.

(** ** [int.to_bytes] and [int.from_bytes] *)

Section bytes.
Context {B : Type} `{BigInt B} `{!BigIntLaws B} `{BigIntBytes B} `{!BigIntBytesLaws B}.
Implicit Types v : Value B.

(** C30: [to_bytes] gives the two's complement or unsigned bytes of the number
    in the order asked for, whatever its representation, and raises when they
    do not fit; [from_bytes] gives the number they denote. *)
Theorem int_bytes_correct v n len data big_endian signed :
  value_wf v → int_value v = Some n → 0 ≤ len → Forall byte_range data →
  int_to_bytes v [VInt len; order_value big_endian] [signed_kw signed] =
    VBytes <$> int_encode n len big_endian signed ∧
  ∃ w, int_from_bytes [VBytes data; order_value big_endian] [signed_kw signed] = Return w ∧
    value_wf w ∧ int_value w = Some (int_decode data big_endian signed).
Proof. intros. split; [by apply int_to_bytes_call|by apply int_from_bytes_call]. Qed.

(** [from_bytes] undoes every [to_bytes] that returns, and [to_bytes] with
    the length of some bytes undoes the [from_bytes] of them. *)
Theorem int_bytes_round_trip v n len w data big_endian signed :
  value_wf v → int_value v = Some n → 0 ≤ len →
  int_to_bytes v [VInt len; order_value big_endian] [signed_kw signed] = Return w →
  Forall byte_range data →
  (∃ u, int_from_bytes [w; order_value big_endian] [signed_kw signed] = Return u ∧
     value_wf u ∧ int_value u = Some n) ∧
  (∃ u, int_from_bytes [VBytes data; order_value big_endian] [signed_kw signed] = Return u ∧
     int_to_bytes u [VInt (vlen data); order_value big_endian] [signed_kw signed] = Return (VBytes data)).
Proof.
  intros Hv Hn Hlen Hto Hdata. split.
  - rewrite (int_to_bytes_call v n) in Hto by done. unfold int_encode in Hto.
    destruct (decide (fits_bytes signed len n)) as [Hfit|]; [|done]. injection Hto as <-.
    assert (Hb : Forall byte_range (byte_order big_endian (le_encode (Z.to_nat len) n)))
      by apply byte_order_range, le_encode_range.
    destruct (int_from_bytes_call _ big_endian signed Hb) as (u & Hu & Hcan & Hi).
    exists u. by rewrite int_decode_encode in Hi.
  - destruct (int_from_bytes_call data big_endian signed Hdata) as (u & Hu & Hwf & Hi).
    exists u. split; [done|]. rewrite (int_to_bytes_call u _ _ big_endian signed Hwf Hi (vlen_nonneg data)).
    by rewrite int_encode_decode.
Qed.

(** Whatever the arguments, both methods return or raise, and never panic;
    naming the two arguments is the same as giving them by position. *)
Theorem int_bytes_defined v args kw a b :
  value_wf v →
  defined (int_to_bytes v args kw) ∧ defined (int_from_bytes (B := B) args kw) ∧
  int_to_bytes v [a; b] kw =
    int_to_bytes v [] ((KwStr (Some "length"%string), a) :: (KwStr (Some "byteorder"%string), b) :: kw) ∧
  int_from_bytes [a; b] kw =
    int_from_bytes [] ((KwStr (Some "bytes"%string), a) :: (KwStr (Some "byteorder"%string), b) :: kw).
Proof.
  intros Hv. split_and!; [by apply int_to_bytes_defined|apply int_from_bytes_defined|..].
  - unfold int_to_bytes. by rewrite bind_by_name.
  - unfold int_from_bytes. by rewrite bind_by_name.
Qed.
End bytes.

(** [(-200).to_bytes(2, 'big', signed=True)] *)
Lemma int_bytes_correct_witness :
  int_to_bytes (VInt (B := Z) (-200)) [VInt 2; order_value true] [signed_kw true] = Return (VBytes [255; 56]) ∧
  ∃ w, int_from_bytes (B := Z) [VBytes [255; 56]; order_value true] [signed_kw true] = Return w ∧
    value_wf w ∧ int_value w = Some (-200).
Proof.
  apply (int_bytes_correct (VInt (-200)) (-200) 2 [255; 56] true true); concrete.
Defined.

Lemma int_bytes_round_trip_witness :
  (∃ u : Value Z, int_from_bytes [VBytes [1; 0]; order_value false] [signed_kw false] = Return u ∧
     value_wf u ∧ int_value u = Some 1) ∧
  (∃ u : Value Z, int_from_bytes [VBytes [7; 9; 0]; order_value false] [signed_kw false] = Return u ∧
     int_to_bytes u [VInt 3; order_value false] [signed_kw false] = Return (VBytes [7; 9; 0])).
Proof.
  apply (int_bytes_round_trip (VInt 1) 1 2 (VBytes [1; 0]) [7; 9; 0] false false); concrete.
Defined.

Lemma int_bytes_defined_witness :
  defined (int_to_bytes (VInt (B := Z) 5) [VStr "x"] []) ∧ defined (int_from_bytes (B := Z) [VStr "x"] []) ∧
  int_to_bytes (VInt (B := Z) 5) [VInt 1; VStr "big"] [] =
    int_to_bytes (VInt 5) [] [(KwStr (Some "length"), VInt 1); (KwStr (Some "byteorder"), VStr "big")]%string ∧
  int_from_bytes (B := Z) [VInt 1; VStr "big"] [] =
    int_from_bytes [] [(KwStr (Some "bytes"), VInt 1); (KwStr (Some "byteorder"), VStr "big")]%string.
Proof. apply int_bytes_defined. concrete. Defined.

(** ** Operators *)

(** C33: On integers, however they are represented, the operators [+ - * // %
    << >> & | ^], and [**] with an exponent that is not negative, give the exact
    mathematical result, with floor division and the sign of the divisor.  They
    raise ZeroDivisionError for a divisor of zero and ValueError for a negative
    shift count; results that exist are refused, with OverflowError, for two
    kinds of operands only: a number other than zero is not shifted left by more
    than [MAX_SHIFT] bits, and no number, not even 0, 1 or -1, is raised to a
    power of [2 ^ 64] or more.  With a negative exponent, [**] is the power of
    the two operands' floats, with the errors of floats.  A number shifted right
    has at most [2 ^ 64] bits, as every number in memory, whose limits are not
    modelled. *)
Theorem integer_operators_exact {B} `{BigInt B} `{!BigIntLaws B} `{BigIntArith B} `{!BigIntArithLaws B} `{Libm}
    op (lhs rhs : Value B) a b :
  value_wf lhs → value_wf rhs → int_value lhs = Some a → int_value rhs = Some b →
  (op = RShift → Z.log2 (Z.abs a) < two64) → op ∈ int_operators →
  ∃ r m, int_op op a b = Some r ∧ dispatch_numeric_binop op lhs rhs = Some m ∧ as_expected lhs rhs m r.
Proof. apply dispatch_spec. Qed.

(** [(2^63 - 1) * -2^63]: the product leaves the machine word. *)
Lemma integer_operators_exact_witness :
  ∃ r m, int_op Mul (2 ^ 63 - 1) (- 2 ^ 63) = Some r ∧
    dispatch_numeric_binop Mul (VInt (B := Z) (2 ^ 63 - 1)) (VInt (- 2 ^ 63)) = Some m ∧
    as_expected (VInt (2 ^ 63 - 1)) (VInt (- 2 ^ 63)) m r.
Proof.
  apply (integer_operators_exact Mul _ _ (2 ^ 63 - 1) (- 2 ^ 63)); [concrete..| |by do 2 right; left]. done.
Defined.

(** The fast path of the bytecode loop for two machine integers never
    panics, and when it gives a value it is the one the general dispatch
    gives. *)
Theorem fast_path_equivalent {B} `{BigInt B} `{!BigIntLaws B} `{BigIntArith B} `{!BigIntArithLaws B} `{Libm} a b op :
  i64_range a → i64_range b →
  ∃ o : option (Value B), int_int_fast a b op = Ok o ∧
    ∀ v, o = Some v → is_comparison op = false → dispatch_numeric_binop op (VInt a) (VInt b) = Some (Return v).
Proof. apply fast_path_agrees. Qed.

Lemma fast_path_equivalent_witness :
  ∃ o : option (Value Z), int_int_fast (-7) 2 FloorDiv = Ok o ∧
    ∀ v, o = Some v → is_comparison FloorDiv = false → dispatch_numeric_binop FloorDiv (VInt (-7)) (VInt 2) = Some (Return v).
Proof. apply fast_path_equivalent; concrete. Defined.

(** ** Modular powers *)

(** C34: [pow(b, e, m)] is the power modulo [m], by square-and-multiply on
    128-bit products or on big integers; a negative exponent gives the inverse
    of the power by the extended Euclidean algorithm, which ends within its
    fuel, or raises when there is none.  Machine integers with a negative
    modulus are excepted. *)
Theorem modular_power_correct {B} `{BigInt B} `{!BigIntLaws B} `{BigIntArith B} `{!BigIntArithLaws B}
    `{BigIntModpow B} `{!BigIntModpowLaws B} (base_val exp_val mod_val : Value B) b e m :
  value_wf base_val → value_wf exp_val → value_wf mod_val →
  int_value base_val = Some b → int_value exp_val = Some e → int_value mod_val = Some m →
  (is_bigint base_val || is_bigint exp_val || is_bigint mod_val = true ∨ 0 ≤ m ∨ e < 0 ∧ m ≠ - 2 ^ 63) →
  pow_mod_result b e m (pow_mod base_val exp_val mod_val).
Proof. apply pow_mod_spec. Qed.

(** [pow(3, -2, 7)] *)
Lemma modular_power_correct_witness : pow_mod_result 3 (-2) 7 (pow_mod (VInt (B := Z) 3) (VInt (-2)) (VInt 7)).
Proof.
  apply (modular_power_correct (VInt 3) (VInt (-2)) (VInt 7)); concrete.
Defined.

(** ** Divergences *)

(** [pow(2, 2, -5)] should be -1: the result of machine integers is not brought
    to the sign of the modulus, as that of big integers is. *)
Example pow_negative_modulus_unadjusted :
  pow_mod (VInt (B := Z) 2) (VInt 2) (VInt (-5)) = Return (VInt 4) ∧
  pow_mod (VBigInt (2 ^ 64)) (VInt 2) (VInt (-5)) = Return (VInt (-4)).
Proof. by vm_compute. Qed.

(** [1 ** 2**64] is 1, and is refused for the size of the exponent. *)
Example unit_power_overflows :
  dispatch_numeric_binop Pow (VInt (B := Z) 1) (VBigInt (2 ^ 64)) =
    Some (Raise (OverflowError "exponent too large for ** to compute")).
Proof. by vm_compute. Qed.

(** [0 ** -1] is an error of floats. *)
Example zero_to_a_negative_power :
  dispatch_numeric_binop Pow (VInt (B := Z) 0) (VInt (-1)) = Some (Raise (ZeroDivisionError "0.0 cannot be raised to a negative power")).
Proof. by vm_compute. Qed.

(** [pow(3, -1, -2**63)] overflows the machine word. *)
Example pow_least_modulus_panics : pow_mod (VInt (B := Z) 3) (VInt (-1)) (VInt (- 2 ^ 63)) = Panicked.
Proof. by vm_compute. Qed.
