(* ===== verification/RangeProps.v ===== *)
(** The theorems about slices of lists, tuples and bytes, with an evaluation of
    each.

    The theorems about ranges, with an evaluation of each. *)

From S2P Require Import Outcome Prelude Double Keys Concrete IntArith ConcreteInt Slices SliceSpec Ranges RangeSpec.

Section slices.
Context {B : Type} `{BigInt B} `{!BigIntLaws B} {A : Type}.
Implicit Types (lo hi st : option (Value B)) (items new_items : list A).

(** C35: Slicing gives the items at the positions [start], [start + step], ...
    before [stop], with bounds counted from the end when negative, whatever
    the size of the integers given; the walk over positions never overflows
    and no item is read out of bounds. *)
Theorem slice_correct items lo hi st :
  vlen items < 2 ^ 63 → arg_wf lo → arg_wf hi → arg_wf st →
  eval_slice items lo hi st = ('(i, j, step) ← slice_args lo hi st; Return (py_slice items i j step)).
Proof. apply eval_slice_spec. Qed.

(** Assigning to a slice replaces a contiguous one by the new items and
    raises for an extended one of another length; after an assignment to an
    extended slice, reading it gives the new items and every other position
    keeps its item.  A contiguous slice with its start after its stop
    panics. *)
Theorem slice_assignment_correct items new_items lo hi st i j step :
  vlen items < 2 ^ 63 → arg_wf lo → arg_wf hi → arg_wf st → slice_args lo hi st = Return (i, j, step) →
  let positions := slice_positions (vlen items) i j step in
  slice_setitem items lo hi st new_items = slice_assigned items new_items i j step ∧
  (step ≠ 1 → length positions = length new_items →
   ∃ items', slice_setitem items lo hi st new_items = Return items' ∧ eval_slice items' lo hi st = Return new_items ∧
     length items' = length items ∧ ∀ k, Z.of_nat k ∉ positions → items' !! k = items !! k).
Proof.
  intros Hlen Hlo Hhi Hst Hargs positions.
  assert (Hset : slice_setitem items lo hi st new_items = slice_assigned items new_items i j step)
    by (by rewrite slice_setitem_spec, Hargs).
  split; [done|]. intros Hs Hl. exists (assign items positions new_items).
  pose proof (slice_args_step _ _ _ _ _ _ Hargs) as Hs0. rewrite Hset.
  assert (Hvl : vlen (assign items positions new_items) = vlen items) by (unfold vlen; by rewrite assign_length).
  unfold slice_assigned. fold positions. destruct (Z.eqb_spec step 1); [done|]. rewrite decide_True by done.
  split_and!; [done| |by rewrite assign_length|].
  - rewrite eval_slice_spec, Hargs by (rewrite ?Hvl; done). cbn. f_equal. unfold py_slice. rewrite Hvl. fold positions.
    apply assign_read; [by apply slice_positions_NoDup| |done].
    apply Forall_forall. intros x Hx. eapply slice_positions_range; [apply vlen_nonneg|done|exact Hx].
  - intros k Hk. apply assign_other. intros x Hx <-. apply Hk.
    rewrite Z2Nat.id; [done|]. by apply (slice_positions_range (vlen items) i j step x (vlen_nonneg _) Hs0).
Qed.

(** Deleting a slice keeps, in order, the items whose positions are not
    in it.  A contiguous slice with its start after its stop panics. *)
Theorem slice_deletion_correct items lo hi st :
  vlen items < 2 ^ 63 → arg_wf lo → arg_wf hi → arg_wf st →
  slice_delitem items lo hi st = ('(i, j, step) ← slice_args lo hi st; slice_deleted items i j step).
Proof. apply slice_delitem_spec. Qed.
End slices.

(** [slice.indices] resolves bounds as subscription does, panics included,
    and its triple is the range of the positions of the slice. *)
Theorem slice_indices_positions {B} `{BigInt B} `{!BigIntLaws B} len (lo hi st : Value B) i j step :
  0 ≤ len < 2 ^ 63 → value_wf lo → value_wf hi → value_wf st →
  slice_args (Some lo) (Some hi) (Some st) = Return (i, j, step) →
  slice_indices (VInt len) lo hi st = resolve_slice_bounds len (Some lo) (Some hi) (Some st) ∧
  ∃ a b c, slice_indices (VInt len) lo hi st = Return (a, b, c) ∧
    range_list a b c = slice_positions len i j step.
Proof.
  intros Hlen Hlo Hhi Hst Hargs.
  assert (Hsl : slice_indices (VInt len) lo hi st = resolve_slice_bounds len (Some lo) (Some hi) (Some st)).
  { unfold slice_indices. cbn. destruct (Z.ltb_spec len 0); [lia|]. apply compute_indices_agrees. }
  split; [done|]. rewrite Hsl, resolve_slice_bounds_spec, Hargs by done. cbn.
  eexists _, _, _. split; [done|]. pose proof (slice_args_step _ _ _ _ _ _ Hargs) as Hs.
  by rewrite range_list_saturate, slice_positions_range_list by (done || lia).
Qed.

(** [[0, 1, 2, 3, 4][::-2]], and with a step beyond a machine word. *)
Lemma slice_correct_witness :
  eval_slice [0; 1; 2; 3; 4] None None (Some (VInt (B := Z) (-2))) =
    ('(i, j, step) ← slice_args (B := Z) None None (Some (VInt (-2))); Return (py_slice [0; 1; 2; 3; 4] i j step)) ∧
  eval_slice [0; 1; 2; 3; 4] None None (Some (VInt (B := Z) (-2))) = Return [4; 2; 0] ∧
  eval_slice [0; 1; 2; 3; 4] (Some (VInt (-3))) None (Some (VBigInt (2 ^ 70))) = Return [2].
Proof. split; [apply slice_correct; concrete|by vm_compute]. Defined.

(** [items[3:0:-1] = [7, 8, 9]] *)
Lemma slice_assignment_correct_witness :
  let lo := Some (VInt (B := Z) 3) in let hi := Some (VInt 0) in let st := Some (VInt (-1)) in
  ∃ items', slice_setitem [0; 1; 2; 3; 4] lo hi st [7; 8; 9] = Return items' ∧
    eval_slice items' lo hi st = Return [7; 8; 9] ∧ length items' = 5%nat ∧
    ∀ k, Z.of_nat k ∉ slice_positions 5 (Some 3) (Some 0) (-1) → items' !! k = [0; 1; 2; 3; 4] !! k.
Proof.
  intros lo hi st.
  apply (slice_assignment_correct [0; 1; 2; 3; 4] [7; 8; 9] lo hi st (Some 3) (Some 0) (-1)); concrete.
Defined.

Lemma slice_deletion_correct_witness :
  slice_delitem [0; 1; 2; 3; 4] None None (Some (VInt (B := Z) 2)) =
    ('(i, j, step) ← slice_args (B := Z) None None (Some (VInt 2)); slice_deleted [0; 1; 2; 3; 4] i j step) ∧
  slice_delitem [0; 1; 2; 3; 4] None None (Some (VInt (B := Z) 2)) = Return [1; 3].
Proof. split; [apply slice_deletion_correct; concrete|by vm_compute]. Defined.

(** [slice(None, 2, -1).indices(5)] *)
Lemma slice_indices_positions_witness :
  slice_indices (VInt 5) VNone (VInt (B := Z) 2) (VInt (-1)) =
    resolve_slice_bounds 5 (Some VNone) (Some (VInt 2)) (Some (VInt (B := Z) (-1))) ∧
  ∃ a b c, slice_indices (VInt 5) VNone (VInt (B := Z) 2) (VInt (-1)) = Return (a, b, c) ∧
    range_list a b c = slice_positions 5 None (Some 2) (-1).
Proof. apply slice_indices_positions; concrete. Defined.

(** ** Divergences *)

(** [items[3:1] = [9]] should insert at position 3, and [del items[3:1]] do
    nothing: both give [splice] and [drain] a range that is out of order. *)
Example reversed_unit_slice_panics :
  slice_setitem [0; 1; 2; 3; 4] (Some (VInt (B := Z) 3)) (Some (VInt 1)) None [9] = Panicked ∧
  slice_delitem [0; 1; 2; 3; 4] (Some (VInt (B := Z) 3)) (Some (VInt 1)) None = Panicked ∧
  eval_slice [0; 1; 2; 3; 4] (Some (VInt (B := Z) 3)) (Some (VInt 1)) None = Return [].
Proof. by vm_compute. Qed.

(** * Ranges *)


Section ranges.
Context {B : Type} `{BigInt B} `{BigIntArith B} `{!BigIntLaws B} `{!BigIntArithLaws B}.
Implicit Types (v : Value B) (r : PyRange B).

(** C37: [range(...)] builds a well-formed range of the integers of its
    arguments, in machine words exactly when they fit; [len] is the length of
    its sequence, when that fits a machine word; [in] agrees with the sequence
    on every value equal to an integer.  So does [index], but for complex
    numbers: it finds none of them and raises, even where [in] holds. *)
Theorem range_is_its_sequence repr_raw args s e t v :
  (ints ← arg_ints args; range_of_ints ints) = Some (s, e, t) → t ≠ 0 → value_wf v →
  ∃ r, call_range_expanded args = Return r ∧ range_wf r ∧ range_canonical r ∧ range_vals r = range_list s e t ∧
    range_size r = (if decide (vlen (range_vals r) < 2 ^ 63) then Return (vlen (range_vals r)) else Raise ssize_overflow) ∧
    (eval_in r v = true ↔ holds_of (exact_int v) (λ x, x ∈ range_vals r)) ∧
    if is_complex v then range_index repr_raw r v = Raise (ValueError "sequence.index(x): x not in sequence")
    else if decide (holds_of (exact_int v) (λ x, x ∈ range_vals r)) then
      ∃ w k x, range_index repr_raw r v = Return w ∧ exact_int v = Some x ∧
        is_int w (Z.of_nat k) ∧ range_vals r !! k = Some x
    else range_index repr_raw r v = Raise (index_error repr_raw r v).
Proof.
  intros Hargs Ht Hv. pose proof (call_range_spec args s e t Hargs) as Hc.
  destruct (Z.eqb_spec t 0); [done|]. destruct Hc as (r & Hr & Hwf & HZ & Hcan). exists r.
  split_and!; [done|done|done|unfold range_vals; by rewrite HZ|by apply range_size_spec|by apply eval_in_spec|].
  destruct (is_complex v) eqn:Hv'; [by apply range_index_complex|by apply range_index_spec].
Qed.

(** C38: Subscribing a range gives the item of its sequence, and slicing it the
    range of the slice of its sequence: the bounds are the positions of the
    slice in the range and the step is the product of the steps, in machine
    words exactly when these three fit.  The step of the slice is taken as it
    is, except that where the range is in machine words and its length, the new
    bounds with their offsets and the new step fit them, a step beyond a machine
    word counts as the last one on its side; the items are the same. *)
Theorem range_subscript_correct r v i lo hi st :
  range_wf r → value_wf v → int_value v = Some i → arg_wf lo → arg_wf hi → arg_wf st →
  item_at (range_vals r) i (range_getitem r v) ∧
  match slice_args lo hi st with
  | Return (i, j, k) => ∃ r', range_getslice r lo hi st = Return r' ∧ range_wf r' ∧
      range_Z r' = slice_of (range_Z r) i j k (slice_factor r i j k) ∧ range_canonical r' ∧
      range_vals r' = py_slice (range_vals r) i j k
  | Raise err => range_getslice r lo hi st = Raise err
  | _ => False
  end.
Proof. intros. split; [by apply range_getitem_spec|by apply range_getslice_spec]. Qed.

(** Two ranges are equal exactly when they are the same sequence, and
    equal ranges have equal hashes, across the two representations. *)
Theorem range_equality_correct h_none a b :
  range_wf a → range_wf b →
  (range_equal a b = true ↔ range_vals a = range_vals b) ∧
  (range_equal a b = true → range_hash h_none a = range_hash h_none b).
Proof. intros Ha Hb. split; [by apply range_equal_spec|by apply range_hash_equal]. Qed.

(** C40: Iterator objects and [for] loops yield the sequence of a range in
    order, [reversed] in reverse order, and stop; a cursor never wraps at the
    end of a machine word.  At any point the length hint is the number of
    values left, and restoring a position skips that many. *)
Theorem range_iteration_correct r next n m p :
  range_wf r → next = cursor_next ∨ next = loop_next → 0 ≤ p →
  (∃ it, make_reversed_range_iterator r = Ok it ∧
     Forall2 is_int (take_steps next n it).1 (take n (reverse (range_vals r)))) ∧
  ∃ it, make_range_iterator r = Ok it ∧
    let '(vs, it1) := take_steps next n it in
    Forall2 is_int vs (take n (range_vals r)) ∧
    int_value (length_hint it1) = Some (vlen (drop n (range_vals r))) ∧
    ∃ it2, restore_position it1 p = Return it2 ∧
      Forall2 is_int (take_steps next m it2).1 (take m (drop (Z.to_nat p) (drop n (range_vals r)))).
Proof.
  intros Hwf Hnext Hp.
  assert (Hy : ∀ it, cursor_wf it → yields next it)
    by (destruct Hnext as [-> | ->]; [apply cursor_next_yields|apply loop_next_yields]).
  split.
  - destruct (make_reversed_range_iterator_spec r Hwf) as (it & Hit & Hw & Hvals). exists it. split; [done|].
    pose proof (take_steps_spec next n it Hy Hw) as Ht. rewrite <- Hvals.
    destruct (take_steps next n it). by destruct Ht.
  - destruct (make_range_iterator_spec r Hwf) as (it & Hit & Hw & Hvals). exists it. split; [done|].
    pose proof (take_steps_spec next n it Hy Hw) as Ht. rewrite <- Hvals.
    destruct (take_steps next n it) as [vs it1]. destruct Ht as (Hvs & Hw1 & Hv1). split; [done|].
    rewrite <- Hv1. split; [by apply length_hint_spec|].
    destruct (restore_position_spec it1 p Hw1 Hp) as (it2 & Hr & Hw2 & Hv2). exists it2. split; [done|].
    rewrite <- Hv2. pose proof (take_steps_spec next m it2 Hy Hw2) as Ht2.
    destruct (take_steps next m it2). by destruct Ht2.
Qed.
End ranges.

(** [2.0 in range(0, 10, True)] *)
Lemma range_is_its_sequence_witness :
  let args := [VInt (B := Z) 0; VInt 10; VBool true] in let v : Value Z := VFloat (d_of_int 2) in
  ∃ r, call_range_expanded args = Return r ∧ range_wf r ∧ range_canonical r ∧ range_vals r = range_list 0 10 1 ∧
    range_size r = (if decide (vlen (range_vals r) < 2 ^ 63) then Return (vlen (range_vals r)) else Raise ssize_overflow) ∧
    (eval_in r v = true ↔ holds_of (exact_int v) (λ x, x ∈ range_vals r)) ∧
    if decide (holds_of (exact_int v) (λ x, x ∈ range_vals r)) then
      ∃ w k x, range_index (λ _, "2.0"%string) r v = Return w ∧ exact_int v = Some x ∧ is_int w (Z.of_nat k) ∧ range_vals r !! k = Some x
    else range_index (λ _, "2.0"%string) r v = Raise (index_error (λ _, "2.0"%string) r v).
Proof.
  intros args v. exact (range_is_its_sequence (λ _, "2.0"%string) args 0 10 1 v ltac:(by vm_compute) ltac:(done) I).
Defined.

(** [range(-2**63, 2**63 - 1)[2**63]], and a slice of it. *)
Lemma range_subscript_correct_witness :
  let r := Range (B := Z) (- 2 ^ 63) (2 ^ 63 - 1) 1 in
  item_at (range_vals r) (2 ^ 63) (range_getitem r (VBigInt (2 ^ 63))) ∧
  ∃ r', range_getslice r (Some (VInt 5)) None (Some (VInt (2 ^ 62))) = Return r' ∧ range_wf r' ∧
    range_Z r' = slice_of (range_Z r) (Some 5) None (2 ^ 62) (slice_factor r (Some 5) None (2 ^ 62)) ∧ range_canonical r' ∧
    range_vals r' = py_slice (range_vals r) (Some 5) None (2 ^ 62).
Proof.
  intros r.
  apply (range_subscript_correct r (VBigInt (2 ^ 63)) (2 ^ 63) (Some (VInt 5)) None (Some (VInt (2 ^ 62))));
    [cbn; unfold i64_range; lia|concrete|done|cbn; unfold i64_range; lia|done|cbn; unfold i64_range; lia].
Defined.

(** [range(0, 10, 4) == range(0, 12, 4)] *)
Lemma range_equality_correct_witness :
  let a := Range (B := Z) 0 10 4 in let b := BigRange 0 12 4 in
  (range_equal a b = true ↔ range_vals a = range_vals b) ∧
  (range_equal a b = true → range_hash 0 a = range_hash 0 b) ∧ range_equal a b = true.
Proof.
  intros a b. assert (Ha : range_wf a) by (cbn; unfold i64_range; lia). assert (Hb : range_wf b) by (cbn; lia).
  split; [|split; [|by vm_compute]]; by apply (range_equality_correct 0 a b).
Defined.

(** [range(2**63 - 3, 2**63 - 1, 2)], whose cursor would leave the word. *)
Lemma range_iteration_correct_witness :
  let r := Range (B := Z) (2 ^ 63 - 3) (2 ^ 63 - 1) 2 in
  (∃ it, make_reversed_range_iterator r = Ok it ∧
     Forall2 is_int (take_steps cursor_next 5 it).1 (take 5 (reverse (range_vals r)))) ∧
  ∃ it, make_range_iterator r = Ok it ∧
    let '(vs, it1) := take_steps cursor_next 5 it in
    Forall2 is_int vs (take 5 (range_vals r)) ∧
    int_value (length_hint it1) = Some (vlen (drop 5 (range_vals r))) ∧
    ∃ it2, restore_position it1 1 = Return it2 ∧
      Forall2 is_int (take_steps cursor_next 2 it2).1 (take 2 (drop (Z.to_nat 1) (drop 5 (range_vals r)))).
Proof.
  intros r. apply (range_iteration_correct r cursor_next 5 2 1); [cbn; unfold i64_range; lia|by left|lia].
Defined.

(** ** Divergences *)

(** [range(5)[::2**70]] has the right items, but its step is 2**63 - 1. *)
Example range_slice_clamps_step :
  range_getslice (Range (B := Z) 0 5 1) None None (Some (VBigInt (2 ^ 70))) = Return (Range 0 5 (2 ^ 63 - 1)).
Proof. by vm_compute. Qed.

(** [2+0j in range(5)], but [range(5).count(2+0j)] is 0. *)
Example range_count_ignores_complex :
  eval_in (Range (B := Z) 0 5 1) (VComplex (d_of_int 2) (d_zero false)) = true ∧
  range_count (Range (B := Z) 0 5 1) (VComplex (d_of_int 2) (d_zero false)) = 0.
Proof. by vm_compute. Qed.

(** [2+0j in range(5)], but [range(5).index(2+0j)] raises. *)
Example range_index_ignores_complex :
  eval_in (Range (B := Z) 0 5 1) (VComplex (d_of_int 2) (d_zero false)) = true ∧
  range_index (λ _, "(2+0j)"%string) (Range (B := Z) 0 5 1) (VComplex (d_of_int 2) (d_zero false)) =
    Raise (ValueError "sequence.index(x): x not in sequence").
Proof. by vm_compute. Qed.

(** [range(5)[::2**70]] has a step of 2**63 - 1, but [range(0, 10, 2)[::2**70]]
    one of 2**71. *)
Example range_slice_keeps_step :
  range_getslice (Range (B := Z) 0 10 2) None None (Some (VBigInt (2 ^ 70))) = Return (BigRange 0 10 (2 ^ 71)).
Proof. by vm_compute. Qed.

(** [range(5).index(2**70)] says that an integer is not in the sequence, as for
    a value that is no integer. *)
Example range_index_big_integer_message :
  range_index (λ _, "x"%string) (Range (B := Z) 0 5 1) (VBigInt (2 ^ 70)) =
    Raise (ValueError "sequence.index(x): x not in sequence") ∧
  range_index (λ _, "x"%string) (Range (B := Z) 0 5 1) (VInt 7) = Raise (ValueError "x is not in range").
Proof. by vm_compute. Qed.
