(* ===== verification/SetIndex.v ===== *)
(** The snapshot of CPython's set table
    (crates/pyrust-core/src/core/set_probe_index.rs, [PySetProbeSnapshot]).

    A probe visits a run of up to ten adjacent slots, then jumps by the
    perturbation sequence that the dict table uses too.  Slots hold a replay
    id or one of two sentinels, [hashes] the Python hash of every replay id. *)

From S2P Require Import Prelude Probe.

Definition SET_PROBE_MINSIZE : Z := 8.
Definition SET_PROBE_LINEAR_PROBES : Z := 9.
Definition SET_PROBE_PERTURB_SHIFT : Z := 5.

Record SetProbeEntry := { spe_python_hash : Z; spe_replay_id : Z }.

Definition SET_REPLAY_EMPTY : Z := usize_max.
Definition SET_REPLAY_DUMMY : Z := usize_max - 1.

Record PySetProbeSnapshot := {
  sps_slots : list Z;
  sps_hashes : list Z;
  sps_fill : Z;
  sps_used : Z;
}.

(** ** The probe loop *)

(** [slot..=linear_end] *)
Definition linear_end (slot mask : Z) : Z :=
  if slot + SET_PROBE_LINEAR_PROBES <=? mask then slot + SET_PROBE_LINEAR_PROBES else slot.
Definition linear_block (slot mask : Z) : list Z := seqZ slot (linear_end slot mask - slot + 1).

(** A [for] loop whose body may return from the function. *)
Fixpoint block_loop {St A} (body : St → Z → res (St + A)) (candidate_slots : list Z) (st : St) :
    res (St + A) :=
  match candidate_slots with
  | [] => Ok (inl st)
  | candidate_slot :: candidate_slots =>
      r ← body st candidate_slot;
      match r with
      | inl st => block_loop body candidate_slots st
      | inr a => Ok (inr a)
      end
  end.

Definition set_next_probe (slot perturb mask : Z) : Z * Z :=
  let perturb := Z.shiftr perturb SET_PROBE_PERTURB_SHIFT in
  (Z.land (wrapping_add (wrapping_add (wrapping_mul slot 5) 1) perturb) mask, perturb).

(** [loop { for candidate_slot in slot..=linear_end { body }; advance }] *)
Fixpoint set_probe_loop {St A} (fuel : nat) (body : St → Z → res (St + A))
    (mask slot perturb : Z) (st : St) : res A :=
  match fuel with
  | O => Diverge
  | S fuel =>
      r ← block_loop body (linear_block slot mask) st;
      match r with
      | inr a => Ok a
      | inl st =>
          let '(slot, perturb) := set_next_probe slot perturb mask in
          set_probe_loop fuel body mask slot perturb st
      end
  end.

(** The prologue shared by every probe: [mask], [perturb] and [slot]. *)
Definition sps_probe {St A} (self : PySetProbeSnapshot) (python_hash : Z)
    (body : St → Z → res (St + A)) (st : St) : res A :=
  mask ← usize_sub (vlen (sps_slots self)) 1;
  set_probe_loop (probe_fuel (length (sps_slots self))) body mask
    (Z.land python_hash mask) python_hash st.

(** ** Operations *)

Definition sps_with_table_size (table_size : Z) : res PySetProbeSnapshot :=
  let table_size := Z.max table_size SET_PROBE_MINSIZE in
  _ ← rassert (Z.land table_size (table_size - 1) =? 0);
  Ok {| sps_slots := replicate (Z.to_nat table_size) SET_REPLAY_EMPTY;
        sps_hashes := []; sps_fill := 0; sps_used := 0 |}.

Fixpoint sps_table_size_loop (fuel : nat) (table_size minused : Z) : res Z :=
  match fuel with
  | O => Diverge
  | S fuel =>
      if table_size <=? minused then
        table_size ← expect (checked_mul table_size 2);
        sps_table_size_loop fuel table_size minused
      else Ok table_size
  end.

Definition sps_table_size_for_minused (minused : Z) : res Z :=
  sps_table_size_loop 64 SET_PROBE_MINSIZE minused.

Definition sps_table_size (self : PySetProbeSnapshot) : Z := vlen (sps_slots self).

Definition sps_has_dummies (self : PySetProbeSnapshot) : bool :=
  negb (sps_fill self =? sps_used self).

Definition sps_insertion_slot (self : PySetProbeSnapshot) (python_hash : Z) : res (Z * bool) :=
  sps_probe self python_hash
    (λ (reusable_dummy : option Z) candidate_slot,
       content ← vnth (sps_slots self) (Z.to_nat candidate_slot);
       if content =? SET_REPLAY_EMPTY then
         Ok (inr match reusable_dummy with
                 | Some dummy => (dummy, false)
                 | None => (candidate_slot, true)
                 end)
       else if content =? SET_REPLAY_DUMMY then Ok (inl (Some candidate_slot))
       else Ok (inl reusable_dummy))
    None.

(** [hashes.resize(n, 0)] when [n] exceeds the length. *)
Definition resize_up (v : list Z) (n : nat) : list Z := v ++ replicate (n - length v) 0.

Definition sps_register_entry (self : PySetProbeSnapshot) (entry : SetProbeEntry) :
    res (PySetProbeSnapshot * Z) :=
  let replay_id := spe_replay_id entry in
  _ ← rassert (replay_id <? SET_REPLAY_DUMMY);
  let hashes := if vlen (sps_hashes self) <=? replay_id
                then resize_up (sps_hashes self) (Z.to_nat (replay_id + 1))
                else sps_hashes self in
  hashes ← vset hashes (Z.to_nat replay_id) (spe_python_hash entry);
  Ok ({| sps_slots := sps_slots self; sps_hashes := hashes;
         sps_fill := sps_fill self; sps_used := sps_used self |}, replay_id).

Definition sps_insert_clean_replay_id (self : PySetProbeSnapshot) (replay_id : Z) :
    res PySetProbeSnapshot :=
  python_hash ← vnth (sps_hashes self) (Z.to_nat replay_id);
  sps_probe self python_hash
    (λ (_ : unit) candidate_slot,
       content ← vnth (sps_slots self) (Z.to_nat candidate_slot);
       if content =? SET_REPLAY_EMPTY then
         slots ← vset (sps_slots self) (Z.to_nat candidate_slot) replay_id;
         fill ← usize_add (sps_fill self) 1;
         used ← usize_add (sps_used self) 1;
         Ok (inr {| sps_slots := slots; sps_hashes := sps_hashes self;
                    sps_fill := fill; sps_used := used |})
       else Ok (inl tt))
    tt.

Definition sps_resize (self : PySetProbeSnapshot) (minused : Z) : res PySetProbeSnapshot :=
  new_size ← sps_table_size_for_minused minused;
  if (new_size =? SET_PROBE_MINSIZE) && (vlen (sps_slots self) =? SET_PROBE_MINSIZE)
     && negb (sps_has_dummies self)
  then Ok self
  else
    rfold (λ self replay_id,
             if replay_id <? SET_REPLAY_DUMMY then sps_insert_clean_replay_id self replay_id
             else Ok self)
      {| sps_slots := replicate (Z.to_nat new_size) SET_REPLAY_EMPTY;
         sps_hashes := sps_hashes self; sps_fill := 0; sps_used := 0 |}
      (sps_slots self).

(** The growth rule of [insert] and [finish_difference_update]. *)
Definition sps_grown_minused (used : Z) : Z :=
  if 50000 <? used then saturating_mul used 2 else saturating_mul used 4.

Definition sps_insert (self : PySetProbeSnapshot) (entry : SetProbeEntry) : res PySetProbeSnapshot :=
  let python_hash := spe_python_hash entry in
  '(self, replay_id) ← sps_register_entry self entry;
  '(slot, was_empty) ← sps_insertion_slot self python_hash;
  slots ← vset (sps_slots self) (Z.to_nat slot) replay_id;
  used ← usize_add (sps_used self) 1;
  if negb was_empty then
    Ok {| sps_slots := slots; sps_hashes := sps_hashes self;
          sps_fill := sps_fill self; sps_used := used |}
  else
    fill ← usize_add (sps_fill self) 1;
    let self := {| sps_slots := slots; sps_hashes := sps_hashes self;
                   sps_fill := fill; sps_used := used |} in
    mask ← usize_sub (vlen slots) 1;
    if saturating_mul fill 5 <? saturating_mul mask 3 then Ok self
    else sps_resize self (sps_grown_minused used).

Definition sps_prepare_merge (self : PySetProbeSnapshot) (additional_used : Z) :
    res PySetProbeSnapshot :=
  mask ← usize_sub (vlen (sps_slots self)) 1;
  if saturating_mul mask 3 <=? saturating_mul (saturating_add (sps_fill self) additional_used) 5
  then sps_resize self (saturating_mul (saturating_add (sps_used self) additional_used) 2)
  else Ok self.

Definition sps_finish_difference_update (self : PySetProbeSnapshot) : res PySetProbeSnapshot :=
  mask ← usize_sub (vlen (sps_slots self)) 1;
  if saturating_sub (sps_fill self) (sps_used self) <=? mask / 4 then Ok self
  else sps_resize self (sps_grown_minused (sps_used self)).

Definition sps_remove (self : PySetProbeSnapshot) (python_hash replay_id : Z) :
    res PySetProbeSnapshot :=
  sps_probe self python_hash
    (λ (_ : unit) candidate_slot,
       content ← vnth (sps_slots self) (Z.to_nat candidate_slot);
       if content =? SET_REPLAY_EMPTY then Panic
       else if content =? replay_id then
         slots ← vset (sps_slots self) (Z.to_nat candidate_slot) SET_REPLAY_DUMMY;
         used ← usize_sub (sps_used self) 1;
         Ok (inr {| sps_slots := slots; sps_hashes := sps_hashes self;
                    sps_fill := sps_fill self; sps_used := used |})
       else Ok (inl tt))
    tt.

(** ** Queries against the source set *)

Section queries.
Context {K : Type}.

(** [active_keys], collected: [entries] are the source set's keys in order. *)
Definition sps_active_keys (self : PySetProbeSnapshot) (entries : list K) : res (list K) :=
  rfold (λ keys replay_id,
           if replay_id <? SET_REPLAY_DUMMY then
             key ← expect (entries !! Z.to_nat replay_id);
             Ok (keys ++ [key])
           else Ok keys)
    [] (sps_slots self).

Definition sps_collect_candidate_keys (self : PySetProbeSnapshot) (entries : list K)
    (python_hash : Z) : res (list K) :=
  sps_probe self python_hash
    (λ candidates candidate_slot,
       content ← vnth (sps_slots self) (Z.to_nat candidate_slot);
       if content =? SET_REPLAY_EMPTY then Ok (inr candidates)
       else if content <? SET_REPLAY_DUMMY then
         hash ← vnth (sps_hashes self) (Z.to_nat content);
         if hash =? python_hash then
           key ← expect (entries !! Z.to_nat content);
           Ok (inl (candidates ++ [key]))
         else Ok (inl candidates)
       else Ok (inl candidates))
    [].
End queries.

(** [PartialEq]: the same layout, ids compared by their hashes. *)
Definition sps_slot_eqb (hashes hashes' : list Z) (left_ right_ : Z) : res bool :=
  if ((left_ =? SET_REPLAY_EMPTY) && (right_ =? SET_REPLAY_EMPTY)
      || (left_ =? SET_REPLAY_DUMMY) && (right_ =? SET_REPLAY_DUMMY))%bool then Ok true
  else if (left_ <? SET_REPLAY_DUMMY) && (right_ <? SET_REPLAY_DUMMY) then
    hl ← vnth hashes (Z.to_nat left_);
    hr ← vnth hashes' (Z.to_nat right_);
    Ok (hl =? hr)
  else Ok false.

Fixpoint sps_slots_eqb (hashes hashes' : list Z) (zipped : list (Z * Z)) : res bool :=
  match zipped with
  | [] => Ok true
  | (left_, right_) :: zipped =>
      b ← sps_slot_eqb hashes hashes' left_ right_;
      match b with true => sps_slots_eqb hashes hashes' zipped | false => Ok false end
  end.

Definition sps_eqb (self other : PySetProbeSnapshot) : res bool :=
  if negb (sps_fill self =? sps_fill other) then Ok false
  else if negb (sps_used self =? sps_used other) then Ok false
  else if negb (vlen (sps_slots self) =? vlen (sps_slots other)) then Ok false
  else sps_slots_eqb (sps_hashes self) (sps_hashes other) (zip (sps_slots self) (sps_slots other)).
