(* ===== verification/SetTable.v ===== *)
(** Specification of the set table: a list of slots, with the fill and use
    counts derived from it, over any type of entries that have a hash. *)

From S2P Require Import Prelude Probe SetIndex.

Inductive sslot (E : Type) := SEmpty | SDummy | SLive (e : E).
Arguments SEmpty {E}.
Arguments SDummy {E}.
Arguments SLive {E} e.

(** ** The slots that a probe visits *)

Fixpoint visits_from (fuel : nat) (mask slot perturb : Z) : list Z :=
  match fuel with
  | O => []
  | S fuel =>
      let '(slot', perturb') := set_next_probe slot perturb mask in
      linear_block slot mask ++ visits_from fuel mask slot' perturb'
  end.

Definition visits (hash : Z) (size : nat) : list Z :=
  visits_from (probe_fuel size) (Z.of_nat size - 1) (Z.land hash (Z.of_nat size - 1)) hash.

(** The least power of two above [minused], at least the minimum size. *)
Definition set_size_for (minused : Z) : nat := Z.to_nat (2 ^ Z.max 3 (Z.log2 minused + 1)).

(** [minused] of a table that outgrew its load or collected dummies. *)
Definition s_minused (used : Z) : Z := if 50000 <? used then 2 * used else 4 * used.

Section table.
Context {E : Type} (hash : E → Z).
Implicit Types (t : list (sslot E)) (v : Z) (e : E).

Definition slot_live (s : sslot E) : option E := match s with SLive e => Some e | _ => None end.
Definition slot_nonempty (s : sslot E) : bool := match s with SEmpty => false | _ => true end.
Definition slot_dummy (s : sslot E) : bool := match s with SDummy => true | _ => false end.

Definition s_live t : list E := omap slot_live t.
Definition s_used t : Z := vlen (s_live t).
Definition s_fill t : Z := count_if slot_nonempty t.
Definition s_mask t : Z := vlen t - 1.

Definition s_at t v : option (sslot E) := t !! Z.to_nat v.
Definition is_empty t v : bool := match s_at t v with Some SEmpty => true | _ => false end.
Definition is_dummy t v : bool := match s_at t v with Some SDummy => true | _ => false end.

(** The slots visited before the first empty one, and that one. *)
Fixpoint before_empty t (vs : list Z) : list Z * option Z :=
  match vs with
  | [] => ([], None)
  | v :: vs =>
      if is_empty t v then ([], Some v)
      else (v :: (before_empty t vs).1, (before_empty t vs).2)
  end.

Definition s_prefix t (h : Z) : list Z := (before_empty t (visits h (length t))).1.
Definition s_first_empty t (h : Z) : option Z := (before_empty t (visits h (length t))).2.

(** The last reusable slot on the way. *)
Definition s_last_dummy t (h : Z) : option Z := last (filter (λ v, is_dummy t v = true) (s_prefix t h)).

Definition s_put t v e : list (sslot E) := <[Z.to_nat v := SLive e]> t.

Definition s_place t e : list (sslot E) :=
  match s_first_empty t (hash e) with Some v => s_put t v e | None => t end.

Definition s_empty (size : nat) : list (sslot E) := replicate size SEmpty.

Definition s_resize t (minused : Z) : list (sslot E) :=
  if (set_size_for minused =? 8)%nat && (length t =? 8)%nat && (s_fill t =? s_used t) then t
  else foldl s_place (s_empty (set_size_for minused)) (s_live t).

Definition s_insert t e : list (sslot E) :=
  match s_last_dummy t (hash e) with
  | Some v => s_put t v e
  | None =>
      let t := s_place t e in
      if 5 * s_fill t <? 3 * s_mask t then t else s_resize t (s_minused (s_used t))
  end.

Definition s_merge t (additional_used : Z) : list (sslot E) :=
  if 3 * s_mask t <=? 5 * (s_fill t + additional_used)
  then s_resize t (2 * (s_used t + additional_used)) else t.

Definition s_cleanup t : list (sslot E) :=
  if s_fill t - s_used t <=? s_mask t / 4 then t else s_resize t (s_minused (s_used t)).

Definition s_remove (p : E → bool) t : list (sslot E) :=
  (λ s, match s with SLive e => if p e then SDummy else s | _ => s end) <$> t.

Definition s_candidates t (h : Z) : list E :=
  filter (λ e, hash e = h) (omap (λ v, s_at t v ≫= slot_live) (s_prefix t h)).

(** ** The invariant *)

Definition set_log (size : nat) : Prop := ∃ k, 3 ≤ k ≤ 62 ∧ Z.of_nat size = 2 ^ k.

(** A power-of-two size, each entry on its probe path before any empty slot. *)
Record s_ok t : Prop := {
  sok_log : set_log (length t);
  sok_reach v e : 0 ≤ v → s_at t v = Some (SLive e) → v ∈ s_prefix t (hash e);
  sok_hash e : e ∈ s_live t → u64_range (hash e);
}.

(** Fewer than three fifths of the slots are filled. *)
Definition s_room t : Prop := 5 * s_fill t < 3 * s_mask t.

Definition s_wf t : Prop := s_ok t ∧ s_room t.

(** *** Visits *)

Lemma set_next_probe_eq slot perturb mask : set_next_probe slot perturb mask = next_probe slot perturb mask.
Proof.
  unfold set_next_probe, next_probe, SET_PROBE_PERTURB_SHIFT, PERTURB_SHIFT. cbv zeta. f_equal. f_equal.
  unfold wrapping_add, as_u64. rewrite !Zplus_mod_idemp_l. f_equal. lia.
Qed.

Lemma block_start slot mask : slot ∈ linear_block slot mask.
Proof.
  unfold linear_block, linear_end. apply elem_of_seqZ. unfold SET_PROBE_LINEAR_PROBES.
  destruct (_ <=? _); lia.
Qed.

Lemma block_range slot mask v : 0 ≤ slot ≤ mask → v ∈ linear_block slot mask → 0 ≤ v ≤ mask.
Proof.
  intros Hs Hv. apply elem_of_seqZ in Hv. revert Hv. unfold linear_end, SET_PROBE_LINEAR_PROBES.
  destruct (Z.leb_spec (slot + 9) mask); lia.
Qed.

Lemma visits_from_start fuel mask slot perturb n :
  (n < fuel)%nat → (probe_state mask slot perturb n).1 ∈ visits_from fuel mask slot perturb.
Proof.
  revert slot perturb n. induction fuel as [|fuel IH]; intros slot perturb n Hn; [lia|].
  cbn [visits_from]. rewrite set_next_probe_eq. destruct (next_probe slot perturb mask) as [s p] eqn:Hp.
  apply elem_of_app. destruct n as [|n]; [left; apply block_start|right].
  cbn [probe_state]. rewrite Hp. apply IH. lia.
Qed.

Lemma visits_from_range fuel k slot perturb v :
  0 ≤ k ≤ 63 → 0 ≤ slot < 2 ^ k → v ∈ visits_from fuel (2 ^ k - 1) slot perturb → 0 ≤ v < 2 ^ k.
Proof.
  intros Hk. revert slot perturb. induction fuel as [|fuel IH]; intros slot perturb Hs Hv; [by apply not_elem_of_nil in Hv|].
  cbn [visits_from] in Hv. rewrite set_next_probe_eq, next_probe_mod in Hv by done.
  apply elem_of_app in Hv as [Hv|Hv].
  - apply block_range in Hv; lia.
  - apply IH in Hv; [done|]. apply Z.mod_pos_bound. lia.
Qed.

Lemma set_log_table size : set_log size → ∃ k, table_log size k ∧ 3 ≤ k ≤ 62.
Proof. intros (k & Hk & Hs). exists k. split; [split; [lia|done]|done]. Qed.

Lemma visits_range h size v : set_log size → v ∈ visits h size → 0 ≤ v < Z.of_nat size.
Proof.
  intros (k & Hk & Hs). unfold visits. rewrite Hs. apply visits_from_range; [lia|].
  apply probe_start_range. lia.
Qed.

(** A probe visits every slot. *)
Lemma visits_all h size v : set_log size → u64_range h → 0 ≤ v < Z.of_nat size → v ∈ visits h size.
Proof.
  intros (k & Htl & _)%set_log_table Hh Hv.
  destruct (probe_covers h size k v Htl Hh Hv) as (n & Hn & <-).
  unfold visits, probe_at, probe_start. by apply visits_from_start.
Qed.

(** *** Before the first empty slot *)

Lemma is_empty_spec t v : is_empty t v = true ↔ s_at t v = Some SEmpty.
Proof. unfold is_empty. destruct (s_at t v) as [[]|]; split; congruence. Qed.

Lemma before_empty_split t vs p w :
  before_empty t vs = (p, Some w) →
  ∃ post, vs = p ++ w :: post ∧ s_at t w = Some SEmpty ∧ ∀ v, v ∈ p → is_empty t v = false.
Proof.
  revert p. induction vs as [|v vs IH]; intros p Hb; [done|]. cbn in Hb.
  destruct (is_empty t v) eqn:He.
  - injection Hb as <- <-. exists vs. apply is_empty_spec in He. split_and!; [done|done|].
    intros u Hu. by apply not_elem_of_nil in Hu.
  - destruct (before_empty t vs) as [p' o]. injection Hb as <- ->.
    destruct (IH p' eq_refl) as (post & -> & Hw & Hp). exists post. split_and!; [done|done|].
    intros u [-> |Hu]%elem_of_cons; [done|by apply Hp].
Qed.

Lemma before_empty_some t vs v :
  v ∈ vs → is_empty t v = true → ∃ w, (before_empty t vs).2 = Some w.
Proof.
  induction vs as [|u vs IH]; intros Hv He; [by apply not_elem_of_nil in Hv|]. cbn.
  destruct (is_empty t u) eqn:Hu; [by eexists|]. apply elem_of_cons in Hv as [-> |Hv]; [congruence|].
  by apply IH.
Qed.

(** Filling slots keeps what was before the first empty one. *)
Lemma prefix_mono t t' vs v :
  (∀ w, is_empty t' w = true → is_empty t w = true) →
  v ∈ (before_empty t vs).1 → v ∈ (before_empty t' vs).1.
Proof.
  intros Hmono. induction vs as [|u vs IH]; cbn; [done|].
  destruct (is_empty t u) eqn:Hu; [intros Hv; by apply not_elem_of_nil in Hv|]. cbn.
  destruct (is_empty t' u) eqn:Hu'; [rewrite Hmono in Hu by done; done|]. cbn.
  rewrite !elem_of_cons. intros [-> |Hv]; auto.
Qed.

Lemma prefix_first t t' vs w :
  (∀ u, is_empty t' u = true → is_empty t u = true) → is_empty t' w = false →
  (before_empty t vs).2 = Some w → w ∈ (before_empty t' vs).1.
Proof.
  intros Hmono Hw. induction vs as [|u vs IH]; cbn; [done|].
  destruct (is_empty t u) eqn:Hu; cbn.
  - intros [= ->]. rewrite Hw. by left.
  - intros Hb. destruct (is_empty t' u) eqn:Hu'; [rewrite Hmono in Hu by done; done|]. cbn.
    apply elem_of_cons. auto.
Qed.

Lemma prefix_nonempty t vs v : v ∈ (before_empty t vs).1 → is_empty t v = false ∧ v ∈ vs.
Proof.
  induction vs as [|u vs IH]; cbn; [intros Hv; by apply not_elem_of_nil in Hv|].
  destruct (is_empty t u) eqn:Hu; cbn; [intros Hv; by apply not_elem_of_nil in Hv|].
  intros [-> |Hv]%elem_of_cons; [split; [done|by left]|]. destruct (IH Hv). split; [done|by right].
Qed.

(** *** Counting *)

Lemma s_live_insert t i s e :
  t !! i = Some s → slot_live s = None → s_live (<[i := SLive e]> t) ≡ₚ e :: s_live t.
Proof.
  intros Hi Hs. pose proof (lookup_lt_Some _ _ _ Hi) as Hlt. unfold s_live.
  rewrite insert_take_drop by done. rewrite <- (take_drop_middle t i s Hi) at 3.
  rewrite !omap_app. cbn. rewrite Hs. by rewrite Permutation_middle.
Qed.

Lemma used_le_fill t : s_used t ≤ s_fill t.
Proof.
  unfold s_used, s_fill, s_live. induction t as [|s t IH]; [done|].
  rewrite count_if_cons. destruct s as [| |e]; cbn; [done|lia|].
  rewrite vlen_cons. unfold s_live in IH. lia.
Qed.

Lemma fill_le_length t : s_fill t ≤ vlen t.
Proof.
  unfold s_fill. induction t as [|s t IH]; [done|]. rewrite count_if_cons, vlen_cons. destruct (slot_nonempty s); lia.
Qed.

Lemma some_empty t : s_fill t < vlen t → ∃ v, 0 ≤ v < vlen t ∧ is_empty t v = true.
Proof.
  intros Hf. destruct (decide (Exists (λ s, slot_nonempty s = false) t)) as [He|He].
  - apply Exists_exists in He as (s & Hs & Hn). apply list_elem_of_lookup in Hs as [i Hi].
    exists (Z.of_nat i). pose proof (lookup_lt_Some _ _ _ Hi). split; [unfold vlen; lia|].
    apply is_empty_spec. unfold s_at. rewrite Nat2Z.id, Hi. by destruct s.
  - unfold s_fill in Hf. rewrite count_if_full in Hf; [lia|]. intros s Hs.
    destruct (slot_nonempty s) eqn:Hn; [done|]. destruct He. apply Exists_exists. eauto.
Qed.

Lemma first_empty_some t h :
  set_log (length t) → u64_range h → s_fill t < vlen t →
  ∃ v, s_first_empty t h = Some v ∧ s_at t v = Some SEmpty ∧ 0 ≤ v < vlen t.
Proof.
  intros Hl Hh Hf. destruct (some_empty t Hf) as (w & Hw & He). unfold s_first_empty.
  destruct (before_empty_some t (visits h (length t)) w) as [v Hv]; [by apply visits_all|done|].
  exists v. split; [done|].
  destruct (before_empty t (visits h (length t))) as [p o] eqn:Hb. cbn in Hv. subst o.
  apply before_empty_split in Hb as (post & Heq & Hs & _). split; [done|].
  apply (visits_range h); [done|]. rewrite Heq. set_solver.
Qed.

(** *** Placing an entry *)

Lemma s_at_put t v w e :
  0 ≤ v < vlen t → s_at (s_put t v e) w = if (Z.to_nat w =? Z.to_nat v)%nat then Some (SLive e) else s_at t w.
Proof.
  intros Hv. unfold s_at, s_put. destruct (Nat.eqb_spec (Z.to_nat w) (Z.to_nat v)) as [->|Hne].
  - apply list_lookup_insert_eq. unfold vlen in Hv. lia.
  - by apply list_lookup_insert_ne.
Qed.

Lemma put_mono t v e w : 0 ≤ v < vlen t → is_empty (s_put t v e) w = true → is_empty t w = true.
Proof. intros Hv. unfold is_empty. rewrite s_at_put by done. by destruct (_ =? _)%nat. Qed.

Lemma s_at_range t v s : s_at t v = Some s → 0 ≤ v → 0 ≤ v < vlen t.
Proof. intros Hs%lookup_lt_Some Hv. unfold vlen. lia. Qed.

Lemma s_put_ok t v e s :
  s_ok t → u64_range (hash e) → 0 ≤ v → s_at t v = Some s → slot_live s = None →
  v ∈ s_prefix t (hash e) ∨ s_first_empty t (hash e) = Some v →
  s_ok (s_put t v e) ∧ s_live (s_put t v e) ≡ₚ e :: s_live t.
Proof.
  intros [Hlog Hreach Hhash] He Hv Hs Hn Hp. pose proof (s_at_range _ _ _ Hs Hv) as Hr.
  assert (Hperm : s_live (s_put t v e) ≡ₚ e :: s_live t) by (by eapply s_live_insert).
  assert (Hlen : length (s_put t v e) = length t) by apply length_insert.
  split; [|done]. split.
  - by rewrite Hlen.
  - intros w e' Hw. rewrite s_at_put by done. unfold s_prefix. rewrite Hlen.
    assert (Hold : ∀ h, w ∈ s_prefix t h → w ∈ (before_empty (s_put t v e) (visits h (length t))).1).
    { intros h Hin. apply (prefix_mono t); [|done]. intros u. by apply put_mono. }
    destruct (Nat.eqb_spec (Z.to_nat w) (Z.to_nat v)) as [Heq|]; [|auto].
    intros [= <-]. assert (w = v) as -> by lia. destruct Hp as [Hp|Hp]; [auto|].
    eapply prefix_first; [intros u; by apply put_mono| |exact Hp].
    unfold is_empty. rewrite s_at_put by done. by rewrite Nat.eqb_refl.
  - intros e'. rewrite Hperm. intros [-> |Hin]%elem_of_cons; auto.
Qed.

Lemma s_put_fill t v e s :
  s_at t v = Some s → s_fill (s_put t v e) = s_fill t + (if slot_nonempty s then 0 else 1).
Proof.
  intros Hs. unfold s_fill, s_put. rewrite (count_if_insert _ _ _ s) by done. cbn.
  destruct (slot_nonempty s); lia.
Qed.

Lemma s_put_mask t v e : s_mask (s_put t v e) = s_mask t.
Proof. unfold s_mask, vlen, s_put. by rewrite length_insert. Qed.

Lemma s_used_perm t t' e : s_live t' ≡ₚ e :: s_live t → s_used t' = s_used t + 1.
Proof. intros Hp. unfold s_used, vlen. rewrite Hp. cbn [length]. lia. Qed.

Lemma s_place_ok t e :
  s_ok t → u64_range (hash e) → s_fill t < vlen t →
  s_ok (s_place t e) ∧ s_live (s_place t e) ≡ₚ e :: s_live t ∧
  s_fill (s_place t e) = s_fill t + 1 ∧ length (s_place t e) = length t.
Proof.
  intros Hok He Hf. destruct (first_empty_some t (hash e)) as (v & Hv & Hs & Hr); [apply Hok|done..|].
  unfold s_place. rewrite Hv.
  destruct (s_put_ok t v e SEmpty Hok He) as [Hok' Hp]; [lia|done|done|by right|].
  split_and!; [done|done| |apply length_insert]. by rewrite (s_put_fill _ _ _ _ Hs).
Qed.

(** *** Sizes *)

Lemma set_size_log minused : 0 ≤ minused < 2 ^ 62 → set_log (set_size_for minused).
Proof.
  intros Hm. exists (Z.max 3 (Z.log2 minused + 1)). pose proof (Z.log2_nonneg minused).
  assert (Z.log2 minused < 62).
  { destruct (Z.eq_dec minused 0) as [->|]; [cbn; lia|]. apply Z.log2_lt_pow2; lia. }
  split; [lia|]. unfold set_size_for. rewrite Z2Nat.id; [done|]. apply Z.pow_nonneg. lia.
Qed.

Lemma set_size_gt minused : 0 ≤ minused → minused < Z.of_nat (set_size_for minused) ∧ 8 ≤ Z.of_nat (set_size_for minused).
Proof.
  intros Hm. unfold set_size_for. pose proof (Z.log2_nonneg minused).
  rewrite Z2Nat.id by (apply Z.pow_nonneg; lia). split.
  - destruct (Z.eq_dec minused 0) as [->|]; [done|].
    pose proof (Z.log2_spec minused ltac:(lia)) as [_ Hl].
    eapply Z.lt_le_trans; [exact Hl|]. apply Z.pow_le_mono_r; lia.
  - change 8 with (2 ^ 3). apply Z.pow_le_mono_r; lia.
Qed.

(** *** Rebuilding *)

Lemma s_empty_live size : s_live (s_empty size) = [].
Proof. unfold s_live, s_empty. by induction size. Qed.

Lemma s_empty_ok size : set_log size → s_ok (s_empty size).
Proof.
  intros Hl. split.
  - unfold s_empty. by rewrite length_replicate.
  - intros v e _. unfold s_at, s_empty. intros [? _]%lookup_replicate_1. done.
  - intros e. rewrite s_empty_live. intros Hin. by apply not_elem_of_nil in Hin.
Qed.

Lemma s_empty_fill size : s_fill (s_empty size) = 0.
Proof. by apply count_if_replicate. Qed.

Lemma place_all_ok t es :
  s_ok t → (∀ e, e ∈ es → u64_range (hash e)) → s_fill t + vlen es ≤ vlen t →
  s_ok (foldl s_place t es) ∧ s_live (foldl s_place t es) ≡ₚ es ++ s_live t ∧
  s_fill (foldl s_place t es) = s_fill t + vlen es ∧ length (foldl s_place t es) = length t.
Proof.
  revert t. induction es as [|e es IH]; intros t Hok Hh Hf.
  { cbn. split_and!; [done|done|unfold vlen; cbn; lia|done]. }
  rewrite vlen_cons in *. pose proof (vlen_nonneg es).
  destruct (s_place_ok t e Hok) as (Hok1 & Hp1 & Hf1 & Hl1); [apply Hh; by left|lia|].
  cbn [foldl]. destruct (IH (s_place t e) Hok1) as (Hok2 & Hp2 & Hf2 & Hl2).
  { intros e' He'. apply Hh. by right. }
  { unfold vlen in *. lia. }
  split_and!; [done| |lia|congruence]. rewrite Hp2, Hp1. by rewrite <- Permutation_middle.
Qed.

Lemma s_resize_wf t minused :
  s_ok t → 0 ≤ minused < 2 ^ 62 → 2 * s_used t ≤ minused → s_used t < 2 ^ 62 →
  s_wf (s_resize t minused) ∧ s_live (s_resize t minused) ≡ₚ s_live t.
Proof.
  intros Hok Hm Hu Hs. unfold s_resize. destruct (_ && _) eqn:Hc.
  - apply andb_true_iff in Hc as [[Hc1%Nat.eqb_eq Hc2%Nat.eqb_eq]%andb_true_iff Hc3%Z.eqb_eq].
    split; [|done]. split; [done|]. unfold s_room, s_mask.
    pose proof (set_size_gt minused ltac:(lia)) as [Hgt _]. rewrite Hc1 in Hgt.
    unfold vlen. rewrite Hc2, Hc3. lia.
  - pose proof (set_size_gt minused ltac:(lia)) as [Hgt Hge].
    destruct (place_all_ok (s_empty (set_size_for minused)) (s_live t)) as (Hok' & Hp & Hf & Hl).
    + apply s_empty_ok, set_size_log. lia.
    + apply Hok.
    + rewrite s_empty_fill. unfold vlen at 2, s_empty. rewrite length_replicate.
      fold (s_used t). lia.
    + rewrite s_empty_live, app_nil_r in Hp. split; [|done]. split; [done|].
      unfold s_room, s_mask. rewrite Hf, s_empty_fill. unfold vlen at 2. rewrite Hl.
      unfold s_empty. rewrite length_replicate. fold (s_used t). lia.
Qed.

Lemma s_minused_bounds used : 0 ≤ used < 2 ^ 60 → 2 * used ≤ s_minused used < 2 ^ 62 ∧ 0 ≤ s_minused used.
Proof. unfold s_minused. destruct (50000 <? used); lia. Qed.

Lemma s_used_nonneg t : 0 ≤ s_used t.
Proof. apply vlen_nonneg. Qed.

Lemma room_fill t : s_room t → s_fill t < vlen t.
Proof. unfold s_room, s_mask. pose proof (used_le_fill t). pose proof (s_used_nonneg t). lia. Qed.

(** *** The operations keep the invariant *)

Lemma last_dummy_spec t h v :
  set_log (length t) → s_last_dummy t h = Some v → v ∈ s_prefix t h ∧ s_at t v = Some SDummy ∧ 0 ≤ v.
Proof.
  intros Hlog Hl. unfold s_last_dummy in Hl. apply last_Some_elem_of, list_elem_of_filter in Hl as [Hd Hin].
  split; [done|]. split.
  - unfold is_dummy in Hd. by destruct (s_at t v) as [[]|].
  - apply prefix_nonempty in Hin as [_ Hin]. apply visits_range in Hin; [lia|done].
Qed.

Lemma s_insert_wf t e :
  s_wf t → s_used t < 2 ^ 59 → u64_range (hash e) →
  s_wf (s_insert t e) ∧ s_live (s_insert t e) ≡ₚ e :: s_live t.
Proof.
  intros [Hok Hroom] Hsmall He. pose proof (s_used_nonneg t). unfold s_insert.
  destruct (s_last_dummy t (hash e)) as [v|] eqn:Hd.
  - apply last_dummy_spec in Hd as (Hin & Hs & Hv); [|apply Hok].
    destruct (s_put_ok t v e SDummy Hok He Hv Hs) as [Hok' Hp]; [done|by left|].
    split; [|done]. split; [done|]. unfold s_room in *.
    rewrite s_put_mask, (s_put_fill _ _ _ _ Hs). cbn. lia.
  - destruct (s_place_ok t e Hok He (room_fill t Hroom)) as (Hok' & Hp & Hf & Hl). cbv zeta.
    pose proof (s_used_perm _ _ _ Hp) as Hu.
    destruct (Z.ltb_spec (5 * s_fill (s_place t e)) (3 * s_mask (s_place t e))); [by split|].
    pose proof (s_minused_bounds (s_used (s_place t e))) as Hm.
    destruct (s_resize_wf (s_place t e) (s_minused (s_used (s_place t e))) Hok') as [Hwf Hp']; [lia..|].
    split; [done|]. by rewrite Hp'.
Qed.

Lemma s_merge_wf t n :
  s_wf t → s_used t < 2 ^ 59 → 0 ≤ n < 2 ^ 59 →
  s_wf (s_merge t n) ∧ s_live (s_merge t n) ≡ₚ s_live t.
Proof.
  intros [Hok Hroom] Hsmall Hn. pose proof (s_used_nonneg t). unfold s_merge.
  destruct (_ <=? _); [|done]. apply s_resize_wf; [done|lia..].
Qed.

Lemma s_cleanup_wf t :
  s_wf t → s_used t < 2 ^ 59 → s_wf (s_cleanup t) ∧ s_live (s_cleanup t) ≡ₚ s_live t.
Proof.
  intros [Hok Hroom] Hsmall. pose proof (s_used_nonneg t). unfold s_cleanup.
  destruct (_ <=? _); [done|]. pose proof (s_minused_bounds (s_used t)).
  apply s_resize_wf; [done|lia..].
Qed.

Lemma s_at_remove p t v :
  s_at (s_remove p t) v =
  (λ s, match s with SLive e => if p e then SDummy else s | _ => s end) <$> s_at t v.
Proof. unfold s_at, s_remove. apply list_lookup_fmap. Qed.

Lemma is_empty_remove p t v : is_empty (s_remove p t) v = is_empty t v.
Proof. unfold is_empty. rewrite s_at_remove. destruct (s_at t v) as [[| |e]|]; cbn; try done. by destruct (p e). Qed.

Lemma before_empty_ext t t' vs :
  (∀ v, is_empty t v = is_empty t' v) → before_empty t vs = before_empty t' vs.
Proof. intros He. induction vs as [|v vs IH]; [done|]. cbn. by rewrite He, IH. Qed.

Lemma s_live_remove p t : s_live (s_remove p t) = filter (λ e, p e = false) (s_live t).
Proof.
  unfold s_live, s_remove. induction t as [|[| |e] t IH]; [done|done|done|]. cbn.
  by destruct (p e) eqn:Hp; cbn; rewrite IH; [rewrite decide_False|rewrite decide_True].
Qed.

Lemma s_fill_remove p t : s_fill (s_remove p t) = s_fill t.
Proof.
  unfold s_fill, s_remove. induction t as [|s t IH]; [done|]. rewrite fmap_cons, !count_if_cons, IH.
  f_equal. destruct s as [| |e]; cbn; try done. by destruct (p e).
Qed.

(** Removing leaves dummies, so every other entry stays on its probe path. *)
Lemma s_remove_wf p t : s_wf t → s_wf (s_remove p t).
Proof.
  intros [[Hlog Hreach Hhash] Hroom].
  assert (Hlen : length (s_remove p t) = length t) by apply length_fmap. split; [split|].
  - by rewrite Hlen.
  - intros v e Hv. rewrite s_at_remove. unfold s_prefix. rewrite Hlen.
    rewrite (before_empty_ext _ t) by (intros w; apply is_empty_remove).
    destruct (s_at t v) as [[| |e']|] eqn:Hs; cbn [fmap option_fmap option_map]; try discriminate.
    destruct (p e'); [discriminate|]. intros [= <-]. by apply Hreach.
  - intros e. rewrite s_live_remove. intros [_ Hin]%list_elem_of_filter. auto.
  - unfold s_room, s_mask, vlen. rewrite s_fill_remove, Hlen. done.
Qed.

Lemma s_empty_wf size : set_log size → s_wf (s_empty size).
Proof.
  intros Hl. split; [by apply s_empty_ok|]. unfold s_room, s_mask. rewrite s_empty_fill.
  unfold vlen, s_empty. rewrite length_replicate. destruct Hl as (k & Hk & ->).
  assert (2 ^ 3 ≤ 2 ^ k) by (apply Z.pow_le_mono_r; lia). lia.
Qed.

(** The candidates for a hash are the entries of that hash. *)
Lemma s_candidates_spec t h e : s_wf t → e ∈ s_candidates t h ↔ e ∈ s_live t ∧ hash e = h.
Proof.
  intros [[Hlog Hreach _] _]. unfold s_candidates. rewrite list_elem_of_filter, list_elem_of_omap.
  unfold s_live. rewrite list_elem_of_omap. split.
  - intros [Hh (v & Hv & Hs)]. split; [|done]. destruct (s_at t v) as [s|] eqn:Hat; [|done].
    exists s. split; [|done]. by apply list_elem_of_lookup_2 in Hat.
  - intros [(s & Hs & Hl) Hh]. split; [done|]. apply list_elem_of_lookup in Hs as [i Hi].
    exists (Z.of_nat i). unfold s_at. rewrite Nat2Z.id, Hi. split; [|done].
    destruct s as [| |e']; try done. injection Hl as ->. rewrite <- Hh. apply Hreach; [lia|].
    unfold s_at. by rewrite Nat2Z.id.
Qed.
End table.

(** ** Tables of related entries

    Every decision of the operations depends on the hashes only, so related
    tables stay related. *)

Section relation.
Context {E1 E2 : Type} (h1 : E1 → Z) (h2 : E2 → Z).

Inductive slot_rel (R : E1 → E2 → Prop) : sslot E1 → sslot E2 → Prop :=
  | rel_empty : slot_rel R SEmpty SEmpty
  | rel_dummy : slot_rel R SDummy SDummy
  | rel_live a b : R a b → slot_rel R (SLive a) (SLive b).

Definition tables_rel (R : E1 → E2 → Prop) : list (sslot E1) → list (sslot E2) → Prop :=
  Forall2 (slot_rel R).

Lemma tables_rel_impl (R R' : E1 → E2 → Prop) t1 t2 :
  (∀ a b, R a b → R' a b) → tables_rel R t1 t2 → tables_rel R' t1 t2.
Proof. intros HR Hr. eapply Forall2_impl; [exact Hr|]. intros s1 s2 []; constructor; auto. Qed.

Context (R : E1 → E2 → Prop) (Rhash : ∀ a b, R a b → h1 a = h2 b).
Implicit Types (h v : Z).

Lemma rel_length t1 t2 : tables_rel R t1 t2 → length t1 = length t2.
Proof. apply Forall2_length. Qed.

Lemma rel_at t1 t2 v :
  tables_rel R t1 t2 →
  match s_at t1 v, s_at t2 v with
  | Some s1, Some s2 => slot_rel R s1 s2
  | None, None => True
  | _, _ => False
  end.
Proof.
  intros Hr. unfold s_at. destruct (t1 !! Z.to_nat v) as [s1|] eqn:H1.
  - destruct (Forall2_lookup_l _ _ _ _ _ Hr H1) as (s2 & -> & Hs). done.
  - destruct (t2 !! Z.to_nat v) as [s2|] eqn:H2; [|done].
    destruct (Forall2_lookup_r _ _ _ _ _ Hr H2) as (s1 & ? & _). congruence.
Qed.

Lemma rel_is_empty t1 t2 v : tables_rel R t1 t2 → is_empty t1 v = is_empty t2 v.
Proof.
  intros Hr. pose proof (rel_at t1 t2 v Hr) as Ha. unfold is_empty.
  destruct (s_at t1 v), (s_at t2 v); try done. by destruct Ha.
Qed.

Lemma rel_is_dummy t1 t2 v : tables_rel R t1 t2 → is_dummy t1 v = is_dummy t2 v.
Proof.
  intros Hr. pose proof (rel_at t1 t2 v Hr) as Ha. unfold is_dummy.
  destruct (s_at t1 v), (s_at t2 v); try done. by destruct Ha.
Qed.

Lemma rel_before_empty t1 t2 vs : tables_rel R t1 t2 → before_empty t1 vs = before_empty t2 vs.
Proof.
  intros Hr. induction vs as [|v vs IH]; [done|]. cbn. by rewrite (rel_is_empty _ _ v Hr), IH.
Qed.

Lemma rel_first_empty t1 t2 h : tables_rel R t1 t2 → s_first_empty t1 h = s_first_empty t2 h.
Proof. intros Hr. unfold s_first_empty. by rewrite (rel_length _ _ Hr), (rel_before_empty _ _ _ Hr). Qed.

Lemma rel_prefix t1 t2 h : tables_rel R t1 t2 → s_prefix t1 h = s_prefix t2 h.
Proof. intros Hr. unfold s_prefix. by rewrite (rel_length _ _ Hr), (rel_before_empty _ _ _ Hr). Qed.

Lemma rel_last_dummy t1 t2 h : tables_rel R t1 t2 → s_last_dummy t1 h = s_last_dummy t2 h.
Proof.
  intros Hr. unfold s_last_dummy. rewrite (rel_prefix _ _ h Hr). f_equal.
  apply list_filter_iff. intros v. by rewrite (rel_is_dummy _ _ v Hr).
Qed.

Lemma rel_live_list t1 t2 : tables_rel R t1 t2 → Forall2 R (s_live t1) (s_live t2).
Proof.
  unfold tables_rel, s_live. induction 1 as [|s1 s2 t1 t2 Hs _ IH]; [constructor|].
  destruct Hs; cbn; [done|done|by constructor].
Qed.

Lemma rel_used t1 t2 : tables_rel R t1 t2 → s_used t1 = s_used t2.
Proof. intros Hr. unfold s_used, vlen. by rewrite (Forall2_length _ _ _ (rel_live_list _ _ Hr)). Qed.

Lemma rel_fill t1 t2 : tables_rel R t1 t2 → s_fill t1 = s_fill t2.
Proof.
  unfold tables_rel, s_fill. induction 1 as [|s1 s2 t1 t2 Hs _ IH]; [done|].
  rewrite !count_if_cons, IH. by destruct Hs.
Qed.

Lemma rel_mask t1 t2 : tables_rel R t1 t2 → s_mask t1 = s_mask t2.
Proof. intros Hr. unfold s_mask, vlen. by rewrite (rel_length _ _ Hr). Qed.

Lemma rel_put t1 t2 v a b : tables_rel R t1 t2 → R a b → tables_rel R (s_put t1 v a) (s_put t2 v b).
Proof. intros Hr Hab. apply Forall2_insert; [done|by constructor]. Qed.

Lemma rel_place t1 t2 a b :
  tables_rel R t1 t2 → R a b → tables_rel R (s_place h1 t1 a) (s_place h2 t2 b).
Proof.
  intros Hr Hab. unfold s_place. rewrite (Rhash _ _ Hab), (rel_first_empty _ _ _ Hr).
  destruct (s_first_empty t2 (h2 b)); [by apply rel_put|done].
Qed.

Lemma rel_place_all l1 l2 t1 t2 :
  tables_rel R t1 t2 → Forall2 R l1 l2 →
  tables_rel R (foldl (s_place h1) t1 l1) (foldl (s_place h2) t2 l2).
Proof.
  intros Hr Hl. revert t1 t2 Hr. induction Hl as [|a b l1 l2 Hab _ IH]; intros t1 t2 Hr; [done|].
  cbn. by apply IH, rel_place.
Qed.

Lemma rel_s_empty size : tables_rel R (s_empty size) (s_empty size).
Proof. unfold s_empty. apply Forall2_replicate. constructor. Qed.

Lemma rel_resize t1 t2 n :
  tables_rel R t1 t2 → tables_rel R (s_resize h1 t1 n) (s_resize h2 t2 n).
Proof.
  intros Hr. unfold s_resize. rewrite (rel_length _ _ Hr), (rel_fill _ _ Hr), (rel_used _ _ Hr).
  destruct (_ && _); [done|]. apply rel_place_all; [apply rel_s_empty|by apply rel_live_list].
Qed.

Lemma rel_insert t1 t2 a b :
  tables_rel R t1 t2 → R a b → tables_rel R (s_insert h1 t1 a) (s_insert h2 t2 b).
Proof.
  intros Hr Hab. unfold s_insert. rewrite (Rhash _ _ Hab), (rel_last_dummy _ _ _ Hr).
  destruct (s_last_dummy t2 (h2 b)); [by apply rel_put|].
  pose proof (rel_place _ _ _ _ Hr Hab) as Hp. cbv zeta.
  rewrite (rel_fill _ _ Hp), (rel_mask _ _ Hp), (rel_used _ _ Hp).
  destruct (_ <? _); [done|by apply rel_resize].
Qed.

Lemma rel_merge t1 t2 n : tables_rel R t1 t2 → tables_rel R (s_merge h1 t1 n) (s_merge h2 t2 n).
Proof.
  intros Hr. unfold s_merge. rewrite (rel_fill _ _ Hr), (rel_mask _ _ Hr), (rel_used _ _ Hr).
  destruct (_ <=? _); [by apply rel_resize|done].
Qed.

Lemma rel_cleanup t1 t2 : tables_rel R t1 t2 → tables_rel R (s_cleanup h1 t1) (s_cleanup h2 t2).
Proof.
  intros Hr. unfold s_cleanup. rewrite (rel_fill _ _ Hr), (rel_mask _ _ Hr), (rel_used _ _ Hr).
  destruct (_ <=? _); [done|by apply rel_resize].
Qed.

Lemma rel_remove (R' : E1 → E2 → Prop) p1 p2 t1 t2 :
  tables_rel R t1 t2 → (∀ a b, R a b → p1 a = p2 b) →
  (∀ a b, R a b → p1 a = false → R' a b) →
  tables_rel R' (s_remove p1 t1) (s_remove p2 t2).
Proof.
  intros Hr Hp HR'. unfold tables_rel, s_remove. apply Forall2_fmap.
  eapply Forall2_impl; [exact Hr|]. intros s1 s2 []; [constructor..|].
  rewrite <- (Hp a b) by done. destruct (p1 a) eqn:Ha; constructor. by apply HR'.
Qed.

Lemma rel_candidates t1 t2 h :
  tables_rel R t1 t2 → Forall2 R (s_candidates h1 t1 h) (s_candidates h2 t2 h).
Proof.
  intros Hr. unfold s_candidates. rewrite (rel_prefix _ _ h Hr).
  induction (s_prefix t2 h) as [|v p IH]; [constructor|].
  pose proof (rel_at t1 t2 v Hr) as Ha. cbn.
  destruct (s_at t1 v), (s_at t2 v); try done. destruct Ha as [| |a b Hab]; cbn; try done.
  rewrite (Rhash _ _ Hab). destruct (decide _); [by constructor|done].
Qed.
End relation.
