(* ===== verification/SetIndexSpec.v ===== *)
(** The set snapshot implements the specification table. *)

From S2P Require Import Prelude Probe SetIndex SetTable.

#[local] Abbreviation ehash := spe_python_hash.
#[local] Abbreviation stab := (list (sslot SetProbeEntry)).

(** ** Probe loops *)

Lemma block_loop_app {St A} (body : St → Z → res (St + A)) l1 l2 st :
  block_loop body (l1 ++ l2) st =
  (r ← block_loop body l1 st;
   match r with inl st => block_loop body l2 st | inr a => Ok (inr a) end).
Proof.
  revert st. induction l1 as [|v l1 IH]; intros st; [done|]. cbn.
  destruct (body st v) as [[st'|a]| |]; cbn; [apply IH|done..].
Qed.

Lemma set_probe_loop_flat {St A} (body : St → Z → res (St + A)) fuel mask slot perturb st a :
  block_loop body (visits_from fuel mask slot perturb) st = Ok (inr a) →
  set_probe_loop fuel body mask slot perturb st = Ok a.
Proof.
  revert slot perturb st. induction fuel as [|fuel IH]; intros slot perturb st; [done|].
  cbn [visits_from set_probe_loop]. destruct (set_next_probe slot perturb mask) as [slot' perturb'].
  rewrite block_loop_app. destruct (block_loop body (linear_block slot mask) st) as [[st'|b]| |]; cbn.
  - apply IH.
  - by intros [= ->].
  - done.
  - done.
Qed.

(** A probe that continues through [p1] and leaves at [v]. *)
Lemma sps_probe_exit {St A} self h (body : St → Z → res (St + A)) st st' a p1 v p2 :
  (0 < length (sps_slots self))%nat →
  visits h (length (sps_slots self)) = p1 ++ v :: p2 →
  block_loop body p1 st = Ok (inl st') → body st' v = Ok (inr a) →
  sps_probe self h body st = Ok a.
Proof.
  intros Hlen Hvs H1 Hv. unfold sps_probe.
  assert (Hm : usize_sub (vlen (sps_slots self)) 1 = Ok (Z.of_nat (length (sps_slots self)) - 1)).
  { unfold usize_sub, vlen. by destruct (Z.leb_spec 1 (Z.of_nat (length (sps_slots self)))); [|lia]. }
  rewrite Hm. cbn [mbind res_bind]. apply set_probe_loop_flat.
  unfold visits in Hvs. rewrite Hvs, block_loop_app, H1. cbn [mbind res_bind block_loop].
  by rewrite Hv.
Qed.

#[local] Opaque visits.

(** ** Representation *)

Definition slot_code (s : sslot SetProbeEntry) : Z :=
  match s with
  | SEmpty => SET_REPLAY_EMPTY
  | SDummy => SET_REPLAY_DUMMY
  | SLive e => spe_replay_id e
  end.

Definition live_ids (t : stab) : list Z := spe_replay_id <$> s_live t.

Definition id_ok (e : SetProbeEntry) : Prop := 0 ≤ spe_replay_id e < SET_REPLAY_DUMMY.

Record sps_rep (self : PySetProbeSnapshot) (t : stab) : Prop := {
  sr_slots : sps_slots self = slot_code <$> t;
  sr_hashes e : e ∈ s_live t → sps_hashes self !! Z.to_nat (spe_replay_id e) = Some (ehash e);
  sr_ids e : e ∈ s_live t → id_ok e;
  sr_distinct : NoDup (live_ids t);
  sr_fill : sps_fill self = s_fill t;
  sr_used : sps_used self = s_used t;
}.

Section refinement.
Implicit Types (self : PySetProbeSnapshot) (t : stab) (e : SetProbeEntry).

Lemma rep_length self t : sps_rep self t → length (sps_slots self) = length t.
Proof. intros Hr. rewrite (sr_slots _ _ Hr). apply length_fmap. Qed.

Lemma rep_at self t v s :
  sps_rep self t → s_at t v = Some s → vnth (sps_slots self) (Z.to_nat v) = Ok (slot_code s).
Proof.
  intros Hr Hs. apply vnth_lookup. rewrite (sr_slots _ _ Hr), list_lookup_fmap.
  unfold s_at in Hs. by rewrite Hs.
Qed.

Lemma live_at t v e : s_at t v = Some (SLive e) → e ∈ s_live t.
Proof.
  intros Hs. apply list_elem_of_omap. exists (SLive e). split; [|done]. by eapply list_elem_of_lookup_2.
Qed.

Lemma code_empty self t v s :
  sps_rep self t → s_at t v = Some s → (slot_code s =? SET_REPLAY_EMPTY) = is_empty t v.
Proof.
  intros Hr Hs. unfold is_empty. rewrite Hs. destruct s as [| |e]; [done|done|].
  apply live_at in Hs. destruct (sr_ids _ _ Hr e Hs) as [_ Hid]. cbn.
  apply Z.eqb_neq. unfold SET_REPLAY_DUMMY, SET_REPLAY_EMPTY in *. lia.
Qed.

Lemma code_dummy self t v s :
  sps_rep self t → s_at t v = Some s → (slot_code s =? SET_REPLAY_DUMMY) = is_dummy t v.
Proof.
  intros Hr Hs. unfold is_dummy. rewrite Hs. destruct s as [| |e]; [done|done|].
  apply live_at in Hs. destruct (sr_ids _ _ Hr e Hs) as [_ Hid]. cbn. apply Z.eqb_neq. lia.
Qed.

Lemma code_live self t v s :
  sps_rep self t → s_at t v = Some s →
  (slot_code s <? SET_REPLAY_DUMMY) = bool_decide (is_Some (slot_live s)).
Proof.
  intros Hr Hs. destruct s as [| |e]; [done|done|]. cbn [slot_code slot_live].
  apply live_at in Hs. destruct (sr_ids _ _ Hr e Hs) as [_ Hid].
  by apply Z.ltb_lt.
Qed.

(** The path of a probe in a table that has an empty slot. *)
Lemma probe_path t h :
  set_log (length t) → u64_range h → s_fill t < vlen t →
  ∃ w post, s_first_empty t h = Some w ∧ visits h (length t) = s_prefix t h ++ w :: post ∧
    s_at t w = Some SEmpty ∧ 0 ≤ w < vlen t ∧
    ∀ v, v ∈ s_prefix t h → 0 ≤ v ∧ is_empty t v = false ∧ ∃ s, s_at t v = Some s.
Proof.
  intros Hl Hh Hf. destruct (first_empty_some t h Hl Hh Hf) as (w & Hw & Hs & Hr).
  unfold s_first_empty in Hw. unfold s_prefix, s_first_empty.
  pose proof (before_empty_split t (visits h (length t))) as Hsplit.
  destruct (before_empty t (visits h (length t))) as [p o] eqn:Hb. cbn in Hw |- *. subst o.
  destruct (Hsplit p w eq_refl) as (post & Heq & _ & Hp).
  exists w, post. split_and!; [done|exact Heq|done|lia|lia|]. intros v Hv.
  assert (Hvr : 0 ≤ v < Z.of_nat (length t)).
  { apply (visits_range h); [done|]. rewrite Heq. set_solver. }
  split_and!; [lia|by apply Hp|]. apply lookup_lt_is_Some_2. unfold vlen in Hvr. lia.
Qed.

Lemma rep_pos self t : sps_rep self t → set_log (length t) → (0 < length (sps_slots self))%nat.
Proof.
  intros Hr (k & Hk & Hl). rewrite (rep_length _ _ Hr). assert (0 < 2 ^ k) by lia. lia.
Qed.

(** ** Insertion *)

Definition put_slot t (h : Z) : Z * bool :=
  match s_last_dummy t h with
  | Some v => (v, false)
  | None => (default 0 (s_first_empty t h), true)
  end.

Lemma insertion_slot_refines self t h :
  sps_rep self t → s_wf ehash t → u64_range h → sps_insertion_slot self h = Ok (put_slot t h).
Proof.
  intros Hr [Hok Hroom] Hh. pose proof (rep_length _ _ Hr) as Hlen.
  destruct (probe_path t h) as (w & post & Hw & Hvs & Hsw & Hrw & Hp); [apply Hok|done|by apply room_fill|].
  unfold sps_insertion_slot. eapply (sps_probe_exit _ _ _ _ (s_last_dummy t h)).
  - eapply rep_pos; [done|apply Hok].
  - rewrite Hlen. exact Hvs.
  - unfold s_last_dummy. clear Hvs.
    assert (Hgen : ∀ p st, (∀ v, v ∈ p → 0 ≤ v ∧ is_empty t v = false ∧ ∃ s, s_at t v = Some s) →
      block_loop (λ (reusable_dummy : option Z) candidate_slot,
         content ← vnth (sps_slots self) (Z.to_nat candidate_slot);
         if content =? SET_REPLAY_EMPTY then
           Ok (inr match reusable_dummy with
                   | Some dummy => (dummy, false)
                   | None => (candidate_slot, true)
                   end)
         else if content =? SET_REPLAY_DUMMY then Ok (inl (Some candidate_slot))
         else Ok (inl reusable_dummy)) p st =
      Ok (inl match last (filter (λ v, is_dummy t v = true) p) with Some v => Some v | None => st end)).
    { induction p as [|v p IH]; intros st Hpv; [done|]. cbn [block_loop].
      destruct (Hpv v) as (Hv0 & He & s & Hs); [by left|].
      rewrite (rep_at _ _ _ _ Hr Hs). cbn [mbind res_bind].
      rewrite (code_empty _ _ _ _ Hr Hs), He, (code_dummy _ _ _ _ Hr Hs).
      rewrite filter_cons. destruct (is_dummy t v); cbn [mbind res_bind].
      - rewrite IH by (intros u Hu; apply Hpv; by right). rewrite decide_True, last_cons by done.
        by destruct (last _).
      - rewrite IH by (intros u Hu; apply Hpv; by right). by rewrite decide_False. }
    rewrite Hgen by done. by destruct (last _).
  - rewrite (rep_at _ _ _ _ Hr Hsw). cbn [mbind res_bind]. rewrite Z.eqb_refl.
    unfold put_slot. rewrite Hw. by destruct (s_last_dummy t h).
Qed.

(** Writing an entry whose hash is recorded into a reusable slot. *)
Lemma put_rep self t v e s hashes :
  sps_rep self t → 0 ≤ v → s_at t v = Some s → slot_live s = None →
  id_ok e → spe_replay_id e ∉ live_ids t →
  (∀ e', e' ∈ s_live t → hashes !! Z.to_nat (spe_replay_id e') = Some (ehash e')) →
  hashes !! Z.to_nat (spe_replay_id e) = Some (ehash e) →
  sps_rep {| sps_slots := <[Z.to_nat v := spe_replay_id e]> (sps_slots self);
             sps_hashes := hashes;
             sps_fill := sps_fill self + (if slot_nonempty s then 0 else 1);
             sps_used := sps_used self + 1 |} (s_put t v e).
Proof.
  intros Hr Hv Hs Hn Hid Hfresh Hold Hnew.
  assert (Hp : s_live (s_put t v e) ≡ₚ e :: s_live t) by (by eapply s_live_insert).
  split; cbn [sps_slots sps_hashes sps_fill sps_used].
  - rewrite (sr_slots _ _ Hr). unfold s_put. by rewrite list_fmap_insert.
  - intros e'. rewrite Hp. intros [-> |Hin]%elem_of_cons; auto.
  - intros e'. rewrite Hp. intros [-> |Hin]%elem_of_cons; [done|]. by apply (sr_ids _ _ Hr).
  - unfold live_ids. rewrite Hp, fmap_cons. constructor; [done|]. apply (sr_distinct _ _ Hr).
  - rewrite (sr_fill _ _ Hr). by rewrite (s_put_fill _ _ _ _ Hs).
  - rewrite (sr_used _ _ Hr). by rewrite (s_used_perm _ _ _ Hp).
Qed.

Lemma rep_vset self t v s x :
  sps_rep self t → s_at t v = Some s →
  vset (sps_slots self) (Z.to_nat v) x = Ok (<[Z.to_nat v := x]> (sps_slots self)).
Proof.
  intros Hr Hs. eapply vset_ok. rewrite (sr_slots _ _ Hr), list_lookup_fmap.
  unfold s_at in Hs. by rewrite Hs.
Qed.

Lemma set_log_bound size : set_log size → 8 ≤ Z.of_nat size ≤ 2 ^ 62.
Proof.
  intros (k & Hk & ->). split; [change 8 with (2 ^ 3)|]; apply Z.pow_le_mono_r; lia.
Qed.

Lemma usize_add_small a b : a + b < two64 → usize_add a b = Ok (a + b).
Proof. intros Hab. unfold usize_add, usize_max. destruct (Z.leb_spec (a + b) (two64 - 1)); [done|lia]. Qed.

Lemma log_two64 size : set_log size → Z.of_nat size < two64 - 2.
Proof. intros Hl%set_log_bound. assert (Ht : 2 ^ 62 < two64 - 2) by done. lia. Qed.

(** *** Clean insertion *)

(** A loop that continues over occupied slots. *)
Lemma skip_prefix {St A} t p (body : St → Z → res (St + A)) st :
  (∀ v, v ∈ p → body st v = Ok (inl st)) → block_loop body p st = Ok (inl st).
Proof.
  induction p as [|v p IH]; intros Hb; [done|]. cbn [block_loop].
  rewrite Hb by (by left). cbn [mbind res_bind]. apply IH. intros u Hu. apply Hb. by right.
Qed.

Lemma insert_clean_refines self t e :
  sps_rep self t → s_ok ehash t → s_fill t < vlen t → u64_range (ehash e) →
  id_ok e → spe_replay_id e ∉ live_ids t →
  sps_hashes self !! Z.to_nat (spe_replay_id e) = Some (ehash e) →
  ∃ self', sps_insert_clean_replay_id self (spe_replay_id e) = Ok self' ∧
    sps_rep self' (s_place ehash t e) ∧ sps_hashes self' = sps_hashes self.
Proof.
  intros Hr Hok Hf Hh Hid Hfresh Hrec. pose proof (rep_length _ _ Hr) as Hlen.
  pose proof (log_two64 _ (sok_log _ _ Hok)). pose proof (used_le_fill t). pose proof (s_used_nonneg t).
  destruct (probe_path t (ehash e)) as (w & post & Hw & Hvs & Hsw & Hrw & Hp); [apply Hok|done|done|].
  eexists. split_and!.
  - unfold sps_insert_clean_replay_id. rewrite (vnth_lookup _ _ _ Hrec). cbn [mbind res_bind].
    eapply (sps_probe_exit _ _ _ _ tt).
    + eapply rep_pos; [done|apply Hok].
    + rewrite Hlen. exact Hvs.
    + apply (skip_prefix t). intros v Hv. destruct (Hp v Hv) as (Hv0 & He & s & Hs).
      rewrite (rep_at _ _ _ _ Hr Hs). cbn [mbind res_bind].
      by rewrite (code_empty _ _ _ _ Hr Hs), He.
    + rewrite (rep_at _ _ _ _ Hr Hsw). cbn [mbind res_bind]. rewrite Z.eqb_refl.
      rewrite (rep_vset _ _ _ _ _ Hr Hsw). cbn [mbind res_bind].
      rewrite (sr_fill _ _ Hr), (sr_used _ _ Hr).
      rewrite !usize_add_small by (unfold vlen in *; lia). cbn [mbind res_bind]. reflexivity.
  - unfold s_place. rewrite Hw. rewrite <- (sr_fill _ _ Hr), <- (sr_used _ _ Hr).
    apply (put_rep self t w e SEmpty); [done|lia|done..|apply Hr|done].
  - done.
Qed.

(** *** Sizes *)

Lemma size_loop_spec fuel k minused :
  3 ≤ k → 0 ≤ minused < 2 ^ 62 → Z.log2 minused + 1 < k + Z.of_nat fuel →
  (0 < fuel)%nat →
  sps_table_size_loop fuel (2 ^ k) minused = Ok (2 ^ Z.max k (Z.log2 minused + 1)).
Proof.
  intros Hk Hm. revert k Hk. induction fuel as [|fuel IH]; intros k Hk Hf Hf0; [lia|].
  cbn [sps_table_size_loop]. destruct (Z.leb_spec (2 ^ k) minused) as [Hle|Hgt].
  - assert (Hkl : k ≤ Z.log2 minused) by (apply Z.log2_le_pow2; lia).
    assert (Hl : Z.log2 minused < 62) by (apply Z.log2_lt_pow2; lia).
    assert (Hpow : 2 ^ k * 2 = 2 ^ (k + 1)) by (rewrite Z.pow_add_r; lia).
    assert (2 ^ (k + 1) ≤ 2 ^ 62) by (apply Z.pow_le_mono_r; lia).
    unfold checked_mul. rewrite Hpow.
    destruct (Z.leb_spec (2 ^ (k + 1)) usize_max); [|unfold usize_max, two64 in *; lia].
    cbn [expect mbind res_bind]. rewrite IH by lia. do 2 f_equal. lia.
  - assert (Hl : Z.log2 minused < k).
    { destruct (Z.eq_dec minused 0) as [->|]; [cbn; lia|]. apply Z.log2_lt_pow2; lia. }
    do 2 f_equal. lia.
Qed.

Lemma table_size_for_minused_spec minused :
  0 ≤ minused < 2 ^ 62 → sps_table_size_for_minused minused = Ok (Z.of_nat (set_size_for minused)).
Proof.
  intros Hm. unfold sps_table_size_for_minused. change SET_PROBE_MINSIZE with (2 ^ 3).
  assert (Hl : Z.log2 minused < 62).
  { destruct (Z.eq_dec minused 0) as [->|]; [cbn; lia|]. apply Z.log2_lt_pow2; lia. }
  rewrite size_loop_spec by lia. f_equal. unfold set_size_for. rewrite Z2Nat.id; [done|].
  apply Z.pow_nonneg. lia.
Qed.

(** *** Resizing *)

Lemma empty_rep size hashes :
  sps_rep {| sps_slots := replicate size SET_REPLAY_EMPTY; sps_hashes := hashes;
             sps_fill := 0; sps_used := 0 |} (s_empty size).
Proof.
  assert (Hnil : ∀ e, e ∉ s_live (s_empty (E := SetProbeEntry) size)).
  { intros e. rewrite s_empty_live. apply not_elem_of_nil. }
  split; cbn [sps_slots sps_hashes sps_fill sps_used].
  - unfold s_empty. by rewrite fmap_replicate.
  - intros e He. by destruct (Hnil e).
  - intros e He. by destruct (Hnil e).
  - unfold live_ids. rewrite s_empty_live. constructor.
  - by rewrite s_empty_fill.
  - unfold s_used. by rewrite s_empty_live.
Qed.

Lemma s_live_cons (s : sslot SetProbeEntry) t :
  s_live (s :: t) = (match slot_live s with Some e => [e] | None => [] end) ++ s_live t.
Proof. by destruct s. Qed.

(** The rebuild loop walks the old slots and places the live ones. *)
Lemma rebuild_refines (old : stab) self t :
  sps_rep self t → s_ok ehash t →
  s_fill t + vlen (s_live old) ≤ vlen t →
  (∀ e, e ∈ s_live old → u64_range (ehash e) ∧ id_ok e ∧
     sps_hashes self !! Z.to_nat (spe_replay_id e) = Some (ehash e)) →
  NoDup (spe_replay_id <$> (s_live t ++ s_live old)) →
  ∃ self',
    rfold (λ self replay_id,
             if replay_id <? SET_REPLAY_DUMMY then sps_insert_clean_replay_id self replay_id
             else Ok self) self (slot_code <$> old) = Ok self' ∧
    sps_rep self' (foldl (s_place ehash) t (s_live old)).
Proof.
  revert self t. induction old as [|s old IH]; intros self t Hr Hok Hf Hlive Hnd; [by exists self|].
  rewrite fmap_cons. cbn [rfold]. rewrite s_live_cons in Hf, Hlive, Hnd |- *.
  destruct s as [| |e]; cbn [slot_live slot_code app] in *; [by apply IH|by apply IH|].
  destruct (Hlive e) as (Hh & Hid & Hrec); [by left|].
  rewrite (proj2 (Z.ltb_lt _ _) (proj2 Hid)). cbn [foldl]. rewrite vlen_cons in Hf.
  pose proof (vlen_nonneg (s_live old)).
  destruct (insert_clean_refines self t e) as (self1 & -> & Hr1 & Hhs); [done|done|lia|done|done| |done|].
  { rewrite fmap_app in Hnd. apply NoDup_app in Hnd as (_ & Hd & _). intros Hin.
    apply (Hd _ Hin). by left. }
  cbn [mbind res_bind]. destruct (s_place_ok ehash t e Hok Hh) as (Hok1 & Hp & Hf1 & Hl1); [lia|].
  apply IH; [done|done| | |].
  - unfold vlen in *. lia.
  - intros e' He'. rewrite Hhs. apply Hlive. by right.
  - rewrite <- Permutation_middle in Hnd. by rewrite Hp.
Qed.

Lemma has_dummies_spec self t :
  sps_rep self t → sps_has_dummies self = negb (s_fill t =? s_used t).
Proof. intros Hr. unfold sps_has_dummies. by rewrite (sr_fill _ _ Hr), (sr_used _ _ Hr). Qed.

Lemma s_resize_refines self t minused :
  sps_rep self t → s_ok ehash t → 0 ≤ minused < 2 ^ 62 → 2 * s_used t ≤ minused →
  ∃ self', sps_resize self minused = Ok self' ∧ sps_rep self' (s_resize ehash t minused).
Proof.
  intros Hr Hok Hm Hu. unfold sps_resize, s_resize. rewrite table_size_for_minused_spec by done.
  cbn [mbind res_bind]. unfold vlen. rewrite (rep_length _ _ Hr), (has_dummies_spec _ _ Hr), negb_involutive.
  assert (Hz : ∀ n : nat, (Z.of_nat n =? SET_PROBE_MINSIZE) = (n =? 8)%nat).
  { intros n. unfold SET_PROBE_MINSIZE. destruct (Nat.eqb_spec n 8), (Z.eqb_spec (Z.of_nat n) 8); (done || lia). }
  rewrite !Hz. destruct (_ && _); [by eexists|]. rewrite Nat2Z.id, (sr_slots _ _ Hr).
  pose proof (set_size_gt minused ltac:(lia)) as [Hgt _].
  apply rebuild_refines.
  - apply empty_rep.
  - by apply s_empty_ok, set_size_log.
  - rewrite s_empty_fill. unfold vlen at 2, s_empty. rewrite length_replicate. fold (s_used t).
    pose proof (s_used_nonneg t). lia.
  - intros e He. split_and!; [by apply Hok|by apply (sr_ids _ _ Hr)..|by apply (sr_hashes _ _ Hr)].
  - rewrite s_empty_live. apply (sr_distinct _ _ Hr).
Qed.

(** *** Insertion of a new entry *)

(** The hash table after registering [id]. *)
Definition registered (hashes : list Z) e : list Z :=
  <[Z.to_nat (spe_replay_id e) := ehash e]>
    (if vlen hashes <=? spe_replay_id e
     then resize_up hashes (Z.to_nat (spe_replay_id e + 1)) else hashes).

Lemma resize_up_lookup v n i x : v !! i = Some x → resize_up v n !! i = Some x.
Proof. intros Hi. unfold resize_up. by apply lookup_app_l_Some. Qed.

Lemma registered_lookup hashes e i x :
  0 ≤ spe_replay_id e →
  registered hashes e !! Z.to_nat (spe_replay_id e) = Some (ehash e) ∧
  (hashes !! i = Some x → i ≠ Z.to_nat (spe_replay_id e) → registered hashes e !! i = Some x).
Proof.
  intros Hid. unfold registered. split.
  - apply list_lookup_insert_eq. unfold vlen.
    destruct (Z.leb_spec (Z.of_nat (length hashes)) (spe_replay_id e)); [|lia].
    unfold resize_up. rewrite length_app, length_replicate. lia.
  - intros Hi Hne. rewrite list_lookup_insert_ne by done.
    destruct (_ <=? _); [by apply resize_up_lookup|done].
Qed.

Lemma register_refines self e :
  id_ok e →
  sps_register_entry self e =
  Ok ({| sps_slots := sps_slots self; sps_hashes := registered (sps_hashes self) e;
         sps_fill := sps_fill self; sps_used := sps_used self |}, spe_replay_id e).
Proof.
  intros [Hid0 Hid]. unfold sps_register_entry.
  rewrite rassert_true by (by apply Z.ltb_lt). cbn [mbind res_bind]. unfold registered.
  set (hashes := if _ <=? _ then _ else _).
  assert (Hlt : (Z.to_nat (spe_replay_id e) < length hashes)%nat).
  { subst hashes. unfold vlen. destruct (Z.leb_spec (Z.of_nat (length (sps_hashes self))) (spe_replay_id e)); [|lia].
    unfold resize_up. rewrite length_app, length_replicate. lia. }
  apply lookup_lt_is_Some_2 in Hlt as [x Hx]. by rewrite (vset_ok _ _ _ _ Hx).
Qed.

Lemma registered_rep self t e :
  sps_rep self t → id_ok e → spe_replay_id e ∉ live_ids t →
  sps_rep {| sps_slots := sps_slots self; sps_hashes := registered (sps_hashes self) e;
             sps_fill := sps_fill self; sps_used := sps_used self |} t.
Proof.
  intros Hr Hid Hfresh. destruct Hr as [Hsl Hh Hids Hd Hf Hu]. split; cbn; try done.
  intros e' He'. destruct Hid as [Hid0 _]. destruct (Hids e' He') as [Hid0' _].
  apply registered_lookup; [done|auto|]. intros Heq.
  apply Hfresh. unfold live_ids. apply list_elem_of_fmap. exists e'. split; [lia|done].
Qed.

Lemma sat_mul_ltb a b c d :
  0 ≤ a * b ≤ usize_max → 0 ≤ c * d ≤ usize_max →
  (saturating_mul a b <? saturating_mul c d) = (b * a <? d * c).
Proof.
  intros H1 H2. unfold saturating_mul. rewrite !Z.min_r by lia.
  by rewrite (Z.mul_comm b), (Z.mul_comm d).
Qed.

Lemma grown_minused_eq used : 0 ≤ used < 2 ^ 60 → sps_grown_minused used = s_minused used.
Proof.
  intros Hu. unfold sps_grown_minused, s_minused, saturating_mul.
  assert (Hm : 2 ^ 60 * 4 ≤ usize_max) by done.
  destruct (50000 <? used); rewrite Z.min_r by lia; lia.
Qed.

Lemma rep_mask self t :
  sps_rep self t → set_log (length t) → usize_sub (vlen (sps_slots self)) 1 = Ok (s_mask t).
Proof.
  intros Hr Hl. unfold usize_sub, s_mask, vlen. rewrite (rep_length _ _ Hr).
  pose proof (set_log_bound _ Hl). by destruct (Z.leb_spec 1 (Z.of_nat (length t))); [|lia].
Qed.

Lemma rep_mask' slots t :
  length slots = length t → set_log (length t) → usize_sub (vlen (A := Z) slots) 1 = Ok (s_mask t).
Proof.
  intros Hr Hl. unfold usize_sub, s_mask, vlen. rewrite Hr.
  pose proof (set_log_bound _ Hl). by destruct (Z.leb_spec 1 (Z.of_nat (length t))); [|lia].
Qed.

Lemma s_insert_refines self t e :
  sps_rep self t → s_wf ehash t → s_used t < 2 ^ 59 → u64_range (ehash e) →
  id_ok e → spe_replay_id e ∉ live_ids t →
  ∃ self', sps_insert self e = Ok self' ∧ sps_rep self' (s_insert ehash t e).
Proof.
  intros Hr Hwf Hsmall Hh Hid Hfresh. destruct Hwf as [Hok Hroom].
  pose proof (registered_rep self t e Hr Hid Hfresh) as Hr1. remember (registered (sps_hashes self) e) as hashes eqn:Hhs.
  pose proof (log_two64 _ (sok_log _ _ Hok)). pose proof (set_log_bound _ (sok_log _ _ Hok)).
  pose proof (used_le_fill t). pose proof (s_used_nonneg t). pose proof (room_fill t Hroom) as Hfl.
  assert (Hnew : hashes !! Z.to_nat (spe_replay_id e) = Some (ehash e)).
  { subst hashes. by apply (registered_lookup _ e 0 0), Hid. }
  unfold sps_insert. rewrite register_refines, <- Hhs by done. cbn [mbind res_bind].
  rewrite (insertion_slot_refines _ t) by done. unfold put_slot, s_insert.
  destruct (s_last_dummy t (ehash e)) as [v|] eqn:Hd; cbn [mbind res_bind].
  - apply last_dummy_spec in Hd as (_ & Hs & Hv); [|apply Hok].
    rewrite (rep_vset _ _ _ _ _ Hr1 Hs). cbn [mbind res_bind sps_used sps_fill sps_slots sps_hashes].
    rewrite (sr_used _ _ Hr), (usize_add_small (s_used t)) by (unfold vlen in *; lia). cbn [mbind res_bind negb].
    eexists. split; [done|].
    pose proof (put_rep _ t v e SDummy hashes Hr1 Hv Hs eq_refl Hid Hfresh (sr_hashes _ _ Hr1) Hnew) as Hp.
    cbn in Hp. rewrite Z.add_0_r, (sr_used _ _ Hr) in Hp. exact Hp.
  - destruct (probe_path t (ehash e)) as (w & post & Hw & _ & Hsw & Hrw & _); [apply Hok|done|done|].
    rewrite Hw. cbn [default from_option].
    rewrite (rep_vset _ _ _ _ _ Hr1 Hsw). cbn [mbind res_bind sps_used sps_fill sps_slots sps_hashes negb].
    rewrite (sr_used _ _ Hr), (sr_fill _ _ Hr), !usize_add_small by (unfold vlen in *; lia).
    cbn [mbind res_bind].
    pose proof (put_rep _ t w e SEmpty hashes Hr1 ltac:(lia) Hsw eq_refl Hid Hfresh (sr_hashes _ _ Hr1) Hnew) as Hp.
    cbn [slot_nonempty sps_used sps_fill sps_slots] in Hp. rewrite (sr_used _ _ Hr), (sr_fill _ _ Hr) in Hp.
    destruct (s_place_ok ehash t e Hok Hh Hfl) as (Hok' & Hperm & Hf' & Hl').
    pose proof (s_used_perm _ _ _ Hperm) as Hu'.
    assert (Hpl : s_place ehash t e = s_put t w e) by (unfold s_place; by rewrite Hw).
    rewrite Hpl in *.
    erewrite (rep_mask' _ (s_put t w e)); [|by rewrite !length_insert, (rep_length _ _ Hr)|apply Hok'].
    cbn [mbind res_bind]. rewrite <- Hf', <- Hu'.
    assert (Hmask : s_mask (s_put t w e) = s_mask t) by apply s_put_mask.
    unfold s_room, s_mask, vlen in *.
    assert (Hmax : 3 * 2 ^ 62 + 5 ≤ usize_max) by done.
    rewrite sat_mul_ltb by (rewrite ?Hf'; lia).
    destruct (_ <? _); [eexists; split; [done|by rewrite Hf', Hu']|].
    rewrite grown_minused_eq by lia. pose proof (s_minused_bounds (s_used (s_put t w e)) ltac:(lia)).
    apply s_resize_refines; [by rewrite Hf', Hu'|done|lia|lia].
Qed.

(** *** Merge and difference *)

Lemma sat_le_scaled a b c :
  0 ≤ a ≤ usize_max → 0 ≤ b →
  (a <=? saturating_mul b c) = (a <=? c * b).
Proof.
  intros Ha Hb. unfold saturating_mul. rewrite (Z.mul_comm b c).
  destruct (Z.leb_spec a (Z.min usize_max (c * b))), (Z.leb_spec a (c * b)); (done || lia).
Qed.

Lemma merge_refines self t n :
  sps_rep self t → s_wf ehash t → s_used t < 2 ^ 59 → 0 ≤ n < 2 ^ 59 →
  ∃ self', sps_prepare_merge self n = Ok self' ∧ sps_rep self' (s_merge ehash t n).
Proof.
  intros Hr [Hok Hroom] Hsmall Hn. pose proof (set_log_bound _ (sok_log _ _ Hok)).
  pose proof (used_le_fill t). pose proof (s_used_nonneg t). pose proof (room_fill t Hroom) as Hfl.
  unfold sps_prepare_merge. rewrite (rep_mask self t Hr (sok_log _ _ Hok)). cbn [mbind res_bind].
  unfold s_merge. rewrite (sr_fill _ _ Hr), (sr_used _ _ Hr).
  assert (Hmax : 3 * 2 ^ 62 + 5 ≤ usize_max) by done.
  assert (Hm3 : saturating_mul (s_mask t) 3 = 3 * s_mask t).
  { unfold saturating_mul, s_mask, vlen in *. lia. }
  assert (Hsat : ∀ x, 0 ≤ x ≤ 2 ^ 63 → saturating_add x n = x + n) by (unfold saturating_add; lia).
  rewrite Hm3, !Hsat by (unfold vlen in *; lia).
  rewrite sat_le_scaled by (unfold s_mask, vlen in *; lia).
  destruct (_ <=? _); [|by eexists].
  assert (Hm2 : saturating_mul (s_used t + n) 2 = 2 * (s_used t + n)) by (unfold saturating_mul; lia).
  rewrite Hm2. apply s_resize_refines; [done|done|lia|lia].
Qed.

Lemma cleanup_refines self t :
  sps_rep self t → s_wf ehash t → s_used t < 2 ^ 59 →
  ∃ self', sps_finish_difference_update self = Ok self' ∧ sps_rep self' (s_cleanup ehash t).
Proof.
  intros Hr [Hok Hroom] Hsmall.
  pose proof (used_le_fill t). pose proof (s_used_nonneg t).
  unfold sps_finish_difference_update. rewrite (rep_mask self t Hr (sok_log _ _ Hok)). cbn [mbind res_bind].
  unfold s_cleanup. rewrite (sr_fill _ _ Hr), (sr_used _ _ Hr).
  unfold saturating_sub. rewrite Z.max_r by lia.
  destruct (_ <=? _); [by eexists|]. rewrite grown_minused_eq by lia.
  pose proof (s_minused_bounds (s_used t) ltac:(lia)). apply s_resize_refines; [done|done|lia|lia].
Qed.

(** *** Removal *)

Definition has_id (id : Z) e : bool := spe_replay_id e =? id.

Lemma live_ids_unique t i j e e' :
  NoDup (live_ids t) → t !! i = Some (SLive e) → t !! j = Some (SLive e') →
  spe_replay_id e = spe_replay_id e' → i = j.
Proof.
  unfold live_ids, s_live. revert i j. induction t as [|s t IH]; intros i j Hd Hi Hj Heq; [done|].
  assert (Hin : ∀ k e, t !! k = Some (SLive e) → spe_replay_id e ∈ spe_replay_id <$> omap slot_live t).
  { intros k e0 Hk. apply list_elem_of_fmap. exists e0. split; [done|]. apply list_elem_of_omap.
    exists (SLive e0). split; [by eapply list_elem_of_lookup_2|done]. }
  assert (Hd' : NoDup (spe_replay_id <$> omap slot_live t)).
  { destruct s; cbn in Hd; [done|done|]. by inversion Hd. }
  destruct i as [|i], j as [|j]; [done| | |f_equal; by apply IH]; cbn in Hi, Hj.
  - injection Hi as ->. cbn in Hd. apply NoDup_cons in Hd as [Hd _]. destruct Hd. rewrite Heq. eauto.
  - injection Hj as ->. cbn in Hd. apply NoDup_cons in Hd as [Hd _]. destruct Hd. rewrite <- Heq. eauto.
Qed.

(** Removing the only entry with an id is turning its slot into a dummy. *)
Lemma s_remove_id t v e :
  NoDup (live_ids t) → s_at t v = Some (SLive e) →
  s_remove (has_id (spe_replay_id e)) t = <[Z.to_nat v := SDummy]> t.
Proof.
  intros Hd Hs. unfold s_at in Hs. apply list_eq. intros i. unfold s_remove. rewrite list_lookup_fmap.
  destruct (decide (i = Z.to_nat v)) as [->|Hne].
  - rewrite list_lookup_insert_eq by (by eapply lookup_lt_Some). rewrite Hs. cbn.
    unfold has_id. by rewrite Z.eqb_refl.
  - rewrite list_lookup_insert_ne by done. destruct (t !! i) as [[| |e']|] eqn:Hi; try done. cbn.
    unfold has_id. destruct (Z.eqb_spec (spe_replay_id e') (spe_replay_id e)); [|done].
    destruct Hne. by eapply live_ids_unique.
Qed.

Lemma filter_id_used t e :
  NoDup (live_ids t) → e ∈ s_live t →
  s_used (s_remove (has_id (spe_replay_id e)) t) = s_used t - 1.
Proof.
  intros Hd Hin. pose proof Hin as (s & Hs & He)%list_elem_of_omap.
  apply list_elem_of_lookup in Hs as [i Hi]. destruct s as [| |e']; try done. injection He as ->.
  rewrite (s_remove_id t (Z.of_nat i)); [|done|by unfold s_at; rewrite Nat2Z.id].
  rewrite Nat2Z.id. unfold s_used, s_live. pose proof (lookup_lt_Some _ _ _ Hi).
  rewrite insert_take_drop by done. rewrite <- (take_drop_middle t i _ Hi) at 3.
  rewrite !omap_app. cbn. rewrite !vlen_app, vlen_cons. lia.
Qed.

Lemma remove_refines self t e :
  sps_rep self t → s_wf ehash t → e ∈ s_live t →
  ∃ self', sps_remove self (ehash e) (spe_replay_id e) = Ok self' ∧
    sps_rep self' (s_remove (has_id (spe_replay_id e)) t).
Proof.
  intros Hr [Hok Hroom] Hin. pose proof (rep_length _ _ Hr) as Hlen.
  pose proof (sok_hash _ _ Hok e Hin) as Hh. destruct (sr_ids _ _ Hr e Hin) as [Hid0 Hid].
  destruct (probe_path t (ehash e)) as (w & post & _ & Hvs & _ & _ & Hp); [apply Hok|done|by apply room_fill|].
  pose proof Hin as (s & Hs & He)%list_elem_of_omap. destruct s as [| |e']; try done. injection He as ->.
  apply list_elem_of_lookup in Hs as [i Hi].
  assert (Hat : s_at t (Z.of_nat i) = Some (SLive e)) by (unfold s_at; by rewrite Nat2Z.id).
  pose proof (sok_reach _ _ Hok (Z.of_nat i) e ltac:(lia) Hat) as Hpre.
  apply list_elem_of_split_l in Hpre as (p1 & p2 & Hpeq & Hfirst).
  assert (Hu1 : usize_sub (s_used t) 1 = Ok (s_used t - 1)).
  { assert (1 ≤ s_used t).
    { unfold s_used, vlen. destruct (s_live t); [by apply not_elem_of_nil in Hin|]. cbn [length]. lia. }
    unfold usize_sub. by destruct (Z.leb_spec 1 (s_used t)); [|lia]. }
  eexists. split.
  - unfold sps_remove. eapply (sps_probe_exit _ _ _ _ tt).
    + eapply rep_pos; [done|apply Hok].
    + rewrite Hlen, Hvs, Hpeq, <- app_assoc. reflexivity.
    + apply (skip_prefix t). intros v Hv.
      destruct (Hp v) as (Hv0 & Hve & s & Hs); [rewrite Hpeq; set_solver|].
      rewrite (rep_at _ _ _ _ Hr Hs). cbn [mbind res_bind].
      rewrite (code_empty _ _ _ _ Hr Hs), Hve.
      destruct (Z.eqb_spec (slot_code s) (spe_replay_id e)) as [Heq|]; [|done].
      destruct s as [| |e']; cbn in Heq; [unfold SET_REPLAY_DUMMY, SET_REPLAY_EMPTY in *; lia|lia|].
      destruct Hfirst. pose proof (live_ids_unique t _ _ _ _ (sr_distinct _ _ Hr) Hs Hi Heq).
      by assert (Z.of_nat i = v) as -> by lia.
    + rewrite (rep_at _ _ _ _ Hr Hat). cbn [mbind res_bind].
      rewrite (code_empty _ _ _ _ Hr Hat). unfold is_empty. rewrite Hat. cbn [slot_code].
      rewrite Z.eqb_refl, (rep_vset _ _ _ _ _ Hr Hat). cbn [mbind res_bind].
      rewrite (sr_used _ _ Hr), Hu1. cbn [mbind res_bind]. reflexivity.
  - rewrite Nat2Z.id. split; cbn [sps_slots sps_hashes sps_fill sps_used].
    + rewrite (s_remove_id t (Z.of_nat i)), Nat2Z.id by (done || apply Hr).
      rewrite list_fmap_insert. by rewrite (sr_slots _ _ Hr).
    + intros e'. rewrite s_live_remove. intros [_ He']%list_elem_of_filter. by apply (sr_hashes _ _ Hr).
    + intros e'. rewrite s_live_remove. intros [_ He']%list_elem_of_filter. by apply (sr_ids _ _ Hr).
    + unfold live_ids. rewrite s_live_remove. eapply sublist_NoDup; [apply (sr_distinct _ _ Hr)|].
      apply fmap_sublist, sublist_filter.
    + rewrite s_fill_remove. apply (sr_fill _ _ Hr).
    + rewrite filter_id_used by (done || apply Hr). done.
Qed.

(** *** Queries *)

(** Every id names the entry of a source list [es]. *)
Definition ids_index {K} (es : list K) (key_hash : K → Z) t : Prop :=
  ∀ e, e ∈ s_live t → ∃ k, es !! Z.to_nat (spe_replay_id e) = Some k ∧ ehash e = key_hash k.

Definition source_key {K} (es : list K) e : option K := es !! Z.to_nat (spe_replay_id e).

Lemma active_keys_spec {K} (es : list K) key_hash self t :
  sps_rep self t → ids_index es key_hash t →
  sps_active_keys self es = Ok (omap (source_key es) (s_live t)).
Proof.
  intros Hr Hix. unfold sps_active_keys. rewrite (sr_slots _ _ Hr).
  pose proof (sr_ids _ _ Hr) as Hids. clear Hr.
  match goal with |- rfold ?g _ _ = _ => set (f := g) end.
  enough (Hgen : ∀ acc, rfold f acc (slot_code <$> t) = Ok (acc ++ omap (source_key es) (s_live t)))
    by apply Hgen.
  induction t as [|s t IH]; intros acc; [cbn; by rewrite app_nil_r|].
  rewrite fmap_cons. cbn [rfold]. unfold ids_index in Hix. rewrite s_live_cons in Hix, Hids |- *.
  unfold f at 2.
  destruct s as [| |e]; cbn [slot_live slot_code app] in *; [by apply IH|by apply IH|].
  destruct (Hids e) as [Hid0 Hid]; [by left|]. rewrite (proj2 (Z.ltb_lt _ _) Hid).
  destruct (Hix e) as (k & Hk & _); [by left|]. rewrite Hk. cbn [expect mbind res_bind].
  rewrite IH by (intros e' He'; (apply Hix || apply Hids); by right).
  rewrite <- app_assoc. cbn. unfold source_key at 2. by rewrite Hk.
Qed.

Lemma collect_candidates_spec {K} (es : list K) key_hash self t h :
  sps_rep self t → s_wf ehash t → u64_range h → ids_index es key_hash t →
  sps_collect_candidate_keys self es h = Ok (omap (source_key es) (s_candidates ehash t h)).
Proof.
  intros Hr [Hok Hroom] Hh Hix. pose proof (rep_length _ _ Hr) as Hlen.
  destruct (probe_path t h) as (w & post & _ & Hvs & Hsw & _ & Hp); [apply Hok|done|by apply room_fill|].
  unfold sps_collect_candidate_keys.
  eapply (sps_probe_exit _ _ _ _ (omap (source_key es) (s_candidates ehash t h))).
  - eapply rep_pos; [done|apply Hok].
  - rewrite Hlen. exact Hvs.
  - unfold s_candidates. clear Hvs.
    match goal with |- block_loop ?g _ _ = _ => set (body := g) end.
    enough (Hgen : ∀ p acc, (∀ v, v ∈ p → 0 ≤ v ∧ is_empty t v = false ∧ ∃ s, s_at t v = Some s) →
      block_loop body p acc = Ok (inl (acc ++ omap (source_key es)
        (filter (λ e, ehash e = h) (omap (λ v, s_at t v ≫= slot_live) p))))) by by apply Hgen.
    clear Hp. induction p as [|v p IH]; intros acc Hp; [cbn; by rewrite app_nil_r|].
    cbn [block_loop]. unfold body at 2.
    destruct (Hp v) as (Hv0 & He & s & Hs); [by left|].
    assert (Hp' : ∀ u, u ∈ p → 0 ≤ u ∧ is_empty t u = false ∧ ∃ s, s_at t u = Some s)
      by (intros u Hu; apply Hp; by right).
    rewrite (rep_at _ _ _ _ Hr Hs). cbn [mbind res_bind].
    rewrite (code_empty _ _ _ _ Hr Hs), He, (code_live _ _ _ _ Hr Hs).
    assert (Hom : omap (λ v, s_at t v ≫= slot_live) (v :: p) =
      (match slot_live s with Some e => [e] | None => [] end) ++ omap (λ v, s_at t v ≫= slot_live) p).
    { cbn. rewrite Hs. cbn. by destruct (slot_live s). }
    rewrite Hom. destruct (slot_live s) as [e|] eqn:Hl; cbn [app].
    + rewrite bool_decide_true by (by eexists). destruct s as [| |e']; try done. injection Hl as ->.
      pose proof (live_at _ _ _ Hs) as Hlive. cbn [slot_code].
      rewrite (vnth_lookup _ _ _ (sr_hashes _ _ Hr e Hlive)). cbn [mbind res_bind].
      destruct (Z.eqb_spec (ehash e) h) as [Heq|Hne].
      * destruct (Hix e Hlive) as (k & Hk & _). rewrite Hk. cbn [expect mbind res_bind].
        rewrite IH by done. rewrite filter_cons_True by done. rewrite <- app_assoc. cbn.
        unfold source_key at 2. by rewrite Hk.
      * cbn [mbind res_bind]. rewrite IH by done. by rewrite filter_cons_False by done.
    + rewrite bool_decide_false by (intros [x Hx]; congruence). cbn [mbind res_bind]. by apply IH.
  - rewrite (rep_at _ _ _ _ Hr Hsw). cbn [mbind res_bind]. by rewrite Z.eqb_refl.
Qed.

(** Snapshots compare equal exactly when their tables have the same layout of
    hashes. *)
Definition slot_hash (s : sslot SetProbeEntry) : sslot Z :=
  match s with SEmpty => SEmpty | SDummy => SDummy | SLive e => SLive (ehash e) end.

Lemma slot_eqb_spec self t self' t' v s s' :
  sps_rep self t → sps_rep self' t' → s_at t v = Some s → s_at t' v = Some s' →
  ∃ b, sps_slot_eqb (sps_hashes self) (sps_hashes self') (slot_code s) (slot_code s') = Ok b ∧
    (b = true ↔ slot_hash s = slot_hash s').
Proof.
  intros Hr Hr' Hs Hs'. unfold sps_slot_eqb.
  rewrite (code_empty _ _ _ _ Hr Hs), (code_empty _ _ _ _ Hr' Hs'), (code_dummy _ _ _ _ Hr Hs),
    (code_dummy _ _ _ _ Hr' Hs'), (code_live _ _ _ _ Hr Hs), (code_live _ _ _ _ Hr' Hs').
  unfold is_empty, is_dummy. rewrite Hs, Hs'.
  destruct s as [| |e], s' as [| |e']; cbn; try (by eexists; split; [reflexivity|done]).
  apply live_at in Hs, Hs'. cbn [slot_code].
  rewrite (vnth_lookup _ _ _ (sr_hashes _ _ Hr e Hs)), (vnth_lookup _ _ _ (sr_hashes _ _ Hr' e' Hs')).
  cbn [mbind res_bind]. eexists. split; [reflexivity|]. rewrite Z.eqb_eq. split; congruence.
Qed.

(** *** The empty table *)

Lemma with_table_size_spec size :
  set_log size →
  ∃ self, sps_with_table_size (Z.of_nat size) = Ok self ∧ sps_rep self (s_empty size).
Proof.
  intros Hl. pose proof (set_log_bound _ Hl). destruct Hl as (k & Hk & Hs).
  unfold sps_with_table_size, SET_PROBE_MINSIZE. rewrite Z.max_l by lia.
  rewrite rassert_true.
  - cbn [mbind res_bind]. eexists. split; [done|]. rewrite Nat2Z.id. apply empty_rep.
  - rewrite Hs, land_mask by lia. by rewrite Z.mod_same by lia.
Qed.
End refinement.
