(* ===== verification/SetJournal.v ===== *)
(** The deferred mutation journal of a set
    (crates/pyrust-core/src/core/set_probe_index.rs, [SetDeferredMutation] and
    [SetMutationJournal]). *)

From S2P Require Import Prelude ReplaySeq Probe SetIndex.

(** ** Mutation words *)

Record SetDeferredMutation := { sdm_python_hash : Z; sdm_position_and_kind : Z }.

Definition SET_MUTATION_INSERT : Z := 0.
Definition SET_MUTATION_REMOVE : Z := 1.
Definition SET_MUTATION_MERGE : Z := 2.
Definition SET_MUTATION_DIFFERENCE_CLEANUP : Z := 3.
Definition SET_MUTATION_KIND_MASK : Z := 3.
Definition SET_MUTATION_POSITION_SHIFT : Z := 2.

Definition sdm_inserted : SetDeferredMutation :=
  {| sdm_python_hash := 0; sdm_position_and_kind := SET_MUTATION_INSERT |}.

Definition sdm_removed_hash (position python_hash : Z) : res SetDeferredMutation :=
  shifted ← expect (checked_shl position SET_MUTATION_POSITION_SHIFT);
  Ok {| sdm_python_hash := python_hash;
        sdm_position_and_kind := Z.lor shifted SET_MUTATION_REMOVE |}.

Definition sdm_removed {K} `{ProbeKey K} (position : Z) (key : K) : res SetDeferredMutation :=
  sdm_removed_hash position (pk_hash key).

Definition sdm_merge (additional_used : Z) : SetDeferredMutation :=
  {| sdm_python_hash := additional_used; sdm_position_and_kind := SET_MUTATION_MERGE |}.

Definition sdm_difference_cleanup : SetDeferredMutation :=
  {| sdm_python_hash := 0; sdm_position_and_kind := SET_MUTATION_DIFFERENCE_CLEANUP |}.

Definition sdm_kind (self : SetDeferredMutation) : Z :=
  Z.land (sdm_position_and_kind self) SET_MUTATION_KIND_MASK.
Definition sdm_position (self : SetDeferredMutation) : Z :=
  Z.shiftr (sdm_position_and_kind self) SET_MUTATION_POSITION_SHIFT.

(** ** The journal *)

(** [SetMutationJournal]; its only field is the mutations. *)
Definition SetMutationJournal : Type := list SetDeferredMutation.

Definition smj_record_inserted (self : SetMutationJournal) : SetMutationJournal :=
  self ++ [sdm_inserted].

Definition smj_record_removed {K} `{ProbeKey K} (self : SetMutationJournal) (position : Z) (key : K) :
    res SetMutationJournal :=
  mutation ← sdm_removed position key; Ok (self ++ [mutation]).

Definition smj_record_removed_hash (self : SetMutationJournal) (position python_hash : Z) :
    res SetMutationJournal :=
  mutation ← sdm_removed_hash position python_hash; Ok (self ++ [mutation]).

Definition smj_record_merge (self : SetMutationJournal) (additional_used : Z) : SetMutationJournal :=
  self ++ [sdm_merge additional_used].

Definition smj_record_difference_cleanup (self : SetMutationJournal) : SetMutationJournal :=
  self ++ [sdm_difference_cleanup].

(** [original_len - index - 1] underflows to a panic; [all] stops at the first
    mutation that fails. *)
Fixpoint smj_all_tail_removals (original_len : Z) (indexed : list (nat * SetDeferredMutation)) :
    res bool :=
  match indexed with
  | [] => Ok true
  | (index, mutation) :: indexed =>
      if negb (sdm_kind mutation =? SET_MUTATION_REMOVE) then Ok false
      else
        left_ ← usize_sub original_len (Z.of_nat index);
        expected ← usize_sub left_ 1;
        if sdm_position mutation =? expected
        then smj_all_tail_removals original_len indexed else Ok false
  end.

Definition smj_has_only_tail_removals (self : SetMutationJournal) (live_len : Z) : res bool :=
  let original_len := saturating_add live_len (vlen self) in
  match self with
  | [] => Ok false
  | _ => smj_all_tail_removals original_len (enumerate self)
  end.

(** ** Materialization *)

Section materialize.
Context {K : Type} `{ProbeKey K}.

(** Insert the entries, numbered from 0. *)
Definition sps_insert_entries (table : PySetProbeSnapshot) (entries : list K) :
    res PySetProbeSnapshot :=
  rfold (λ table '(replay_id, key),
           sps_insert table {| spe_python_hash := pk_hash key; spe_replay_id := Z.of_nat replay_id |})
    table (enumerate entries).

Definition smj_materialize_tail_removals (self : SetMutationJournal) (entries : list K)
    (initial_table_size : Z) : res PySetProbeSnapshot :=
  let live_len := vlen entries in
  table ← sps_with_table_size initial_table_size;
  table ← sps_insert_entries table entries;
  table ← rfold (λ table '(reverse_index, mutation),
                   sps_insert table {| spe_python_hash := sdm_python_hash mutation;
                                       spe_replay_id := live_len + Z.of_nat reverse_index |})
            table (enumerate (reverse self));
  table ← rfold (λ table '(mutation_index, mutation),
                   after ← usize_sub (vlen self) (Z.of_nat mutation_index);
                   reverse_index ← usize_sub after 1;
                   sps_remove table (sdm_python_hash mutation) (live_len + reverse_index))
            table (enumerate self);
  _ ← rassert (sps_used table =? live_len);
  Ok table.

(** The current entries, numbered from 0. *)
Definition smj_initial_state (entries : list K) : res (DictReplaySequence K * Z) :=
  rfold (λ '(state, next_replay_id) key,
           state ← drs_push state
             {| drk_key := Some key; drk_python_hash := pk_hash key;
                drk_is_str := false; drk_replay_id := next_replay_id |};
           Ok (state, wrapping_add next_replay_id 1))
    (drs_with_capacity, 0) entries.

(** What the undo pass keeps: the sequence, the next id, the keys popped by
    undone insertions and the ids given to undone removals. *)
Definition smj_undo_state : Type :=
  DictReplaySequence K * Z * list (option (DictReplayKey K)) * list (option Z).

Definition smj_undo_step (st : smj_undo_state) (im : nat * SetDeferredMutation) :
    res smj_undo_state :=
  let '(state, next_replay_id, inserted_keys, removed_replay_ids) := st in
  let '(mutation_index, mutation) := im in
  if sdm_kind mutation =? SET_MUTATION_INSERT then
    '(state, key) ← drs_pop state;
    key ← expect key;
    inserted_keys ← vset inserted_keys mutation_index (Some key);
    Ok (state, next_replay_id, inserted_keys, removed_replay_ids)
  else if sdm_kind mutation =? SET_MUTATION_REMOVE then
    let replay_id := next_replay_id in
    let next_replay_id := wrapping_add next_replay_id 1 in
    state ← drs_insert state (Z.to_nat (sdm_position mutation))
              {| drk_key := None; drk_python_hash := sdm_python_hash mutation;
                 drk_is_str := false; drk_replay_id := replay_id |};
    removed_replay_ids ← vset removed_replay_ids mutation_index (Some replay_id);
    Ok (state, next_replay_id, inserted_keys, removed_replay_ids)
  else if sdm_kind mutation =? SET_MUTATION_MERGE then Ok st
  else if sdm_kind mutation =? SET_MUTATION_DIFFERENCE_CLEANUP then Ok st
  else Panic.

(** The entry of a replay key. *)
Definition replay_entry (key : DictReplayKey K) : SetProbeEntry :=
  {| spe_python_hash := drk_python_hash key; spe_replay_id := drk_replay_id key |}.

Definition smj_redo_step (removed_replay_ids : list (option Z))
    (st : PySetProbeSnapshot * list (option (DictReplayKey K)))
    (im : nat * SetDeferredMutation) :
    res (PySetProbeSnapshot * list (option (DictReplayKey K))) :=
  let '(table, inserted_keys) := st in
  let '(mutation_index, mutation) := im in
  if sdm_kind mutation =? SET_MUTATION_INSERT then
    slot ← vnth inserted_keys mutation_index;
    inserted_keys ← vset inserted_keys mutation_index None;
    key ← expect slot;
    table ← sps_insert table (replay_entry key);
    Ok (table, inserted_keys)
  else if sdm_kind mutation =? SET_MUTATION_REMOVE then
    slot ← vnth removed_replay_ids mutation_index;
    replay_id ← expect slot;
    table ← sps_remove table (sdm_python_hash mutation) replay_id;
    Ok (table, inserted_keys)
  else if sdm_kind mutation =? SET_MUTATION_MERGE then
    table ← sps_prepare_merge table (sdm_python_hash mutation);
    Ok (table, inserted_keys)
  else if sdm_kind mutation =? SET_MUTATION_DIFFERENCE_CLEANUP then
    table ← sps_finish_difference_update table;
    Ok (table, inserted_keys)
  else Panic.

Definition smj_materialize (self : SetMutationJournal) (entries : list K)
    (initial_table_size : Z) : res PySetProbeSnapshot :=
  tail_only ← smj_has_only_tail_removals self (vlen entries);
  match tail_only with
  | true => smj_materialize_tail_removals self entries initial_table_size
  | false =>
      '(state, next_replay_id) ← smj_initial_state entries;
      let inserted_keys := replicate (length self) None in
      let removed_replay_ids := replicate (length self) None in
      '(state, _, inserted_keys, removed_replay_ids) ←
        rfold smj_undo_step (state, next_replay_id, inserted_keys, removed_replay_ids)
          (reverse (enumerate self));
      table ← sps_with_table_size initial_table_size;
      table ← drs_for_each state (λ table key, sps_insert table (replay_entry key)) table;
      '(table, _) ← rfold (smj_redo_step removed_replay_ids) (table, inserted_keys) (enumerate self);
      _ ← rassert (sps_used table =? vlen entries);
      Ok table
  end.
End materialize.
