(* ===== verification/SetJournalSpec.v ===== *)
(** The set journal is exact: materializing it rebuilds the table that an
    eagerly maintained set would have, on both the general path and the
    tail-removal shortcut. *)

From S2P Require Import Prelude ReplaySeq Probe SetIndex SetTable SetIndexSpec SetJournal.

#[local] Abbreviation ehash := spe_python_hash.
#[local] Abbreviation stab := (list (sslot SetProbeEntry)).
#[local] Opaque visits.

(** ** Mutation words *)

Lemma sdm_removed_word position h :
  0 ≤ position < 2 ^ 62 →
  ∃ m, sdm_removed_hash position h = Ok m ∧ sdm_python_hash m = h ∧
    sdm_kind m = SET_MUTATION_REMOVE ∧ sdm_position m = position.
Proof.
  intros Hp. unfold sdm_removed_hash, checked_shl. cbn [SET_MUTATION_POSITION_SHIFT Z.ltb Z.compare
    Pos.compare Pos.compare_cont expect mbind res_bind].
  eexists. split; [done|]. cbn [sdm_python_hash]. split; [done|].
  unfold sdm_kind, sdm_position. cbn [sdm_position_and_kind].
  unfold SET_MUTATION_KIND_MASK, SET_MUTATION_POSITION_SHIFT, SET_MUTATION_REMOVE.
  rewrite as_u64_id by (unfold u64_range, two64; rewrite Z.shiftl_mul_pow2; lia).
  rewrite Z.land_lor_distr_l, Z.shiftr_lor, Z.shiftr_shiftl_l by done.
  change (2 - 2) with 0. change (Z.shiftr 1 2) with 0. rewrite Z.shiftl_0_r, Z.lor_0_r.
  split; [|done]. change 3 with (Z.ones 2) at 1.
  rewrite Z.land_ones, Z.shiftl_mul_pow2, Z.mod_mul by lia. done.
Qed.

Section spec.
Context {K : Type} `{ProbeKeyLaws K}.
Implicit Types (es : list K) (k : K) (rs : list (DictReplayKey K)) (ms : list SetDeferredMutation).

#[local] Abbreviation ktab := (list (sslot K)).
#[local] Abbreviation kwf := (s_wf (pk_hash (K := K))).
#[local] Abbreviation kinsert := (s_insert (pk_hash (K := K))).

(** The entry for key [k]. *)
Definition same_key (k k' : K) : bool := pk_eqb k' k.

(** ** Histories *)

(** [set_history es0 t0 ms es t]: the journal [ms] leads from the elements
    [es0] with table [t0] to the elements [es] with table [t]. *)
Inductive set_history es0 (t0 : ktab) : list SetDeferredMutation → list K → ktab → Prop :=
  | sh_nil : set_history es0 t0 [] es0 t0
  | sh_insert ms es t k :
      set_history es0 t0 ms es t → Forall (λ k', pk_eqb k' k = false) es →
      set_history es0 t0 (ms ++ [sdm_inserted]) (es ++ [k]) (kinsert t k)
  | sh_remove ms es t i k m :
      set_history es0 t0 ms es t → es !! i = Some k →
      sdm_removed (Z.of_nat i) k = Ok m →
      set_history es0 t0 (ms ++ [m]) (delete i es) (s_remove (same_key k) t)
  | sh_merge ms es t n :
      set_history es0 t0 ms es t → 0 ≤ n < 2 ^ 59 →
      set_history es0 t0 (ms ++ [sdm_merge n]) es (s_merge pk_hash t n)
  | sh_cleanup ms es t :
      set_history es0 t0 ms es t →
      set_history es0 t0 (ms ++ [sdm_difference_cleanup]) es (s_cleanup pk_hash t).

Lemma set_history_nil es0 t0 es t : set_history es0 t0 [] es t → es = es0 ∧ t = t0.
Proof.
  remember [] as ms eqn:Hms. destruct 1; [done|..]; by apply app_nil in Hms as [_ ?].
Qed.

Definition set_fits es0 ms : Prop := vlen es0 + vlen ms < 2 ^ 59.

(** The table holds the elements, in slot order. *)
Definition set_live es (t : ktab) : Prop := kwf t ∧ s_live t ≡ₚ es ∧ distinct es.

Lemma set_live_used es t : set_live es t → s_used t = vlen es.
Proof. intros (_ & Hp & _). unfold s_used, vlen. by rewrite Hp. Qed.

Lemma set_live_insert es t k :
  set_live es t → vlen es < 2 ^ 59 → Forall (λ k', pk_eqb k' k = false) es →
  set_live (es ++ [k]) (kinsert t k).
Proof.
  intros Hl Hlen Hf. pose proof (set_live_used _ _ Hl) as Hu. destruct Hl as (Hwf & Hp & Hd).
  destruct (s_insert_wf pk_hash t k Hwf) as [Hwf' Hp']; [lia|apply hash_ok|].
  split_and!; [done| |by apply distinct_snoc]. rewrite Hp', Hp. apply Permutation_cons_append.
Qed.

Lemma filter_delete es i k :
  distinct es → es !! i = Some k → filter (λ k', same_key k k' = false) es = delete i es.
Proof.
  intros Hd Hi. rewrite delete_take_drop.
  assert (Hout : ∀ l : list K, (∀ k', k' ∈ l → pk_eqb k' k = true → False) →
    filter (λ k', same_key k k' = false) l = l).
  { intros l Hl. apply filter_all. intros x Hx. unfold same_key.
    destruct (pk_eqb x k) eqn:Hxk; [|done]. by destruct (Hl x). }
  rewrite <- (take_drop_middle es i k Hi) at 1.
  rewrite filter_app, filter_cons_False by (unfold same_key; by rewrite pk_eqb_refl).
  assert (Hne : ∀ j k', es !! j = Some k' → j ≠ i → pk_eqb k' k = true → False).
  { intros j k' Hj Hne Heq. destruct Hne. by eapply Hd. }
  f_equal; apply Hout; intros k' Hk'; apply list_elem_of_lookup in Hk' as [j Hj].
  - apply lookup_take_Some in Hj as [Hj Hlt]. apply (Hne j k' Hj). lia.
  - rewrite lookup_drop in Hj. apply (Hne _ k' Hj). lia.
Qed.

Lemma filter_perm {A} (P : A → Prop) `{∀ x, Decision (P x)} l l' : l ≡ₚ l' → filter P l ≡ₚ filter P l'.
Proof. by intros ->. Qed.

Lemma set_live_remove es t i k :
  set_live es t → es !! i = Some k → set_live (delete i es) (s_remove (same_key k) t).
Proof.
  intros (Hwf & Hp & Hd) Hi. split_and!; [by apply s_remove_wf| |by apply distinct_delete].
  rewrite s_live_remove, (filter_perm _ _ _ Hp). by rewrite (filter_delete es i).
Qed.

Lemma set_live_merge es t n :
  set_live es t → vlen es < 2 ^ 59 → 0 ≤ n < 2 ^ 59 → set_live es (s_merge pk_hash t n).
Proof.
  intros Hl Hlen Hn. pose proof (set_live_used _ _ Hl) as Hu. destruct Hl as (Hwf & Hp & Hd).
  destruct (s_merge_wf pk_hash t n Hwf) as [Hwf' Hp']; [lia|done|]. split_and!; [done|by rewrite Hp'|done].
Qed.

Lemma set_live_cleanup es t :
  set_live es t → vlen es < 2 ^ 59 → set_live es (s_cleanup pk_hash t).
Proof.
  intros Hl Hlen. pose proof (set_live_used _ _ Hl) as Hu. destruct Hl as (Hwf & Hp & Hd).
  destruct (s_cleanup_wf pk_hash t Hwf) as [Hwf' Hp']; [lia|]. split_and!; [done|by rewrite Hp'|done].
Qed.

Lemma set_history_live es0 t0 ms es t :
  set_history es0 t0 ms es t → set_fits es0 ms → set_live es0 t0 →
  set_live es t ∧ vlen es ≤ vlen es0 + vlen ms.
Proof.
  intros Hh Hfit Hl0. unfold set_fits in Hfit.
  induction Hh as [|ms es t k Hh IH Hf|ms es t i k m Hh IH Hi Hm|ms es t n Hh IH Hn|ms es t Hh IH].
  { split; [done|]. pose proof (vlen_nonneg (@nil SetDeferredMutation)). lia. }
  all: rewrite vlen_app in Hfit; rewrite (vlen_app ms); change (vlen [_]) with 1 in *.
  all: pose proof (vlen_nonneg es0); pose proof (vlen_nonneg ms).
  all: destruct IH as (Hl & Hlen); [lia|].
  - split; [apply set_live_insert; [done|lia|done]|]. rewrite vlen_app. change (vlen [k]) with 1. lia.
  - split; [by apply set_live_remove|]. pose proof (lookup_lt_Some _ _ _ Hi).
    unfold vlen in *. rewrite length_delete by done. lia.
  - split; [apply set_live_merge; [done|lia|done]|lia].
  - split; [apply set_live_cleanup; [done|lia]|lia].
Qed.

(** ** Replaying on a snapshot *)

Definition sstands (r : DictReplayKey K) k : Prop := drk_python_hash r = pk_hash k.

(** The entry of the [i]-th replay key is that of the [i]-th element. *)
Definition paired rs es (e : SetProbeEntry) k : Prop :=
  ∃ i r, rs !! i = Some r ∧ e = replay_entry r ∧ es !! i = Some k.

(** The snapshot is the table [t] with the ids of [rs] for the elements. *)
Definition replayed (table : PySetProbeSnapshot) rs es (t : ktab) : Prop :=
  ∃ tr, sps_rep table tr ∧ s_wf ehash tr ∧ tables_rel (paired rs es) tr t.

Lemma paired_hash rs es e k : Forall2 sstands rs es → paired rs es e k → ehash e = pk_hash k.
Proof.
  intros Hf (i & r & Hr & -> & Hk). destruct (Forall2_lookup_lr _ _ _ _ _ _ Hf Hr Hk). done.
Qed.

Lemma paired_app rs rs' es es' e k :
  length rs = length es → paired rs es e k → paired (rs ++ rs') (es ++ es') e k.
Proof.
  intros Hl (i & r & Hr & -> & Hk). exists i, r.
  split_and!; [by apply lookup_app_l_Some|done|by apply lookup_app_l_Some].
Qed.

Lemma paired_last rs es r k : length rs = length es → paired (rs ++ [r]) (es ++ [k]) (replay_entry r) k.
Proof.
  intros Hl. exists (length rs), r. split_and!; [by apply list_lookup_middle|done|].
  rewrite Hl. by apply list_lookup_middle.
Qed.

Lemma replayed_used rs es t tr :
  tables_rel (paired rs es) tr t → set_live es t → s_used tr = vlen es.
Proof. intros Hrel Hl. rewrite (rel_used _ _ _ Hrel). by apply set_live_used. Qed.

Lemma fresh_id rs r es tr t :
  tables_rel (paired rs es) tr t → distinct_ids (rs ++ [r]) → drk_replay_id r ∉ live_ids tr.
Proof.
  intros Hrel Hd (e & Heq & He)%list_elem_of_fmap.
  apply list_elem_of_lookup in He as [j Hj].
  destruct (Forall2_lookup_l _ _ _ _ _ (rel_live_list _ _ _ Hrel) Hj) as (k & _ & i & r' & Hr' & -> & _).
  cbn in Heq. pose proof (lookup_lt_Some _ _ _ Hr').
  assert (i = length rs); [|lia]. eapply (distinct_ids_eq _ i _ r' r Hd); [|by apply list_lookup_middle|done].
  by apply lookup_app_l_Some.
Qed.

Lemma replay_insert table rs es t r k :
  replayed table rs es t → set_live es t → vlen es < 2 ^ 59 →
  Forall2 sstands rs es → sstands r k → distinct_ids (rs ++ [r]) → id_ok (replay_entry r) →
  ∃ table', sps_insert table (replay_entry r) = Ok table' ∧
    replayed table' (rs ++ [r]) (es ++ [k]) (kinsert t k).
Proof.
  intros (tr & Hrep & Hwf & Hrel) Hl Hlen Hst Hrk Hd Hid.
  pose proof (Forall2_length _ _ _ Hst) as Hll.
  assert (Hh : u64_range (ehash (replay_entry r))) by (cbn; rewrite Hrk; apply hash_ok).
  assert (Hu : s_used tr < 2 ^ 59) by (rewrite (replayed_used rs es t tr) by done; done).
  destruct (s_insert_refines table tr (replay_entry r) Hrep Hwf Hu Hh Hid) as (table' & Hins & Hrep').
  { by eapply fresh_id. }
  exists table'. split; [done|]. exists (s_insert ehash tr (replay_entry r)).
  split_and!; [done|by apply s_insert_wf|].
  assert (Hst' : Forall2 sstands (rs ++ [r]) (es ++ [k])) by (apply Forall2_app; [done|by constructor]).
  apply rel_insert.
  - intros a b. by apply paired_hash.
  - eapply tables_rel_impl; [|exact Hrel]. intros a b. by apply paired_app.
  - by apply paired_last.
Qed.

Lemma lookup_delete_shift {A} (l : list A) i j x :
  l !! j = Some x → j ≠ i → delete i l !! (if decide (j < i)%nat then j else (j - 1)%nat) = Some x.
Proof.
  intros Hj Hne. destruct (decide (j < i)%nat).
  - by rewrite list_lookup_delete_lt.
  - rewrite list_lookup_delete_ge by lia. by replace (S (j - 1)) with j by lia.
Qed.

Lemma replay_remove table rs es t i r k :
  replayed table rs es t → set_live es t → distinct_ids rs → Forall2 sstands rs es →
  rs !! i = Some r → es !! i = Some k →
  ∃ table', sps_remove table (pk_hash k) (drk_replay_id r) = Ok table' ∧
    replayed table' (delete i rs) (delete i es) (s_remove (same_key k) t).
Proof.
  intros (tr & Hrep & Hwf & Hrel) (_ & Hp & Hd) Hids Hst Hr Hk.
  assert (Hin : replay_entry r ∈ s_live tr).
  { assert (Hkl : k ∈ s_live t) by (rewrite Hp; by eapply list_elem_of_lookup_2).
    apply list_elem_of_lookup in Hkl as [j Hj].
    destruct (Forall2_lookup_r _ _ _ _ _ (rel_live_list _ _ _ Hrel) Hj) as (e & He & i' & r' & Hr' & -> & Hk').
    assert (i' = i) as -> by (eapply Hd; [exact Hk'|exact Hk|apply pk_eqb_refl]).
    assert (r' = r) as -> by congruence. by eapply list_elem_of_lookup_2. }
  destruct (remove_refines table tr (replay_entry r) Hrep Hwf Hin) as (table' & Hrem & Hrep').
  assert (Hh : ehash (replay_entry r) = pk_hash k) by (by destruct (Forall2_lookup_lr _ _ _ _ _ _ Hst Hr Hk)).
  exists table'. rewrite <- Hh. split; [done|].
  exists (s_remove (has_id (drk_replay_id r)) tr). split_and!; [done|by apply s_remove_wf|].
  assert (Heqv : ∀ j r' k', rs !! j = Some r' → es !! j = Some k' →
    has_id (drk_replay_id r) (replay_entry r') = bool_decide (j = i) ∧ same_key k k' = bool_decide (j = i)).
  { intros j r' k' Hr' Hk'. unfold has_id, same_key. cbn. split.
    - apply eq_true_iff_eq. rewrite Z.eqb_eq, bool_decide_eq_true. split.
      + intros Heq. by eapply distinct_ids_eq.
      + intros ->. congruence.
    - apply eq_true_iff_eq. rewrite bool_decide_eq_true. split.
      + intros Heq. by eapply Hd.
      + intros ->. assert (k' = k) as -> by congruence. apply pk_eqb_refl. }
  eapply rel_remove; [exact Hrel| |].
  - intros a b (j & r' & Hr' & -> & Hk'). by destruct (Heqv j r' b Hr' Hk') as [-> ->].
  - intros a b (j & r' & Hr' & -> & Hk') Hf. destruct (Heqv j r' b Hr' Hk') as [He _].
    rewrite He in Hf. apply bool_decide_eq_false in Hf.
    exists (if decide (j < i)%nat then j else (j - 1)%nat), r'.
    split_and!; [by apply lookup_delete_shift|done|by apply lookup_delete_shift].
Qed.

Lemma replay_merge table rs es t n :
  replayed table rs es t → set_live es t → vlen es < 2 ^ 59 → 0 ≤ n < 2 ^ 59 →
  Forall2 sstands rs es →
  ∃ table', sps_prepare_merge table n = Ok table' ∧ replayed table' rs es (s_merge pk_hash t n).
Proof.
  intros (tr & Hrep & Hwf & Hrel) Hl Hlen Hn Hst.
  assert (Hu : s_used tr < 2 ^ 59) by (rewrite (replayed_used rs es t tr) by done; done).
  destruct (merge_refines table tr n Hrep Hwf Hu Hn) as (table' & Hm & Hrep').
  exists table'. split; [done|]. exists (s_merge ehash tr n). split_and!; [done|by apply s_merge_wf|].
  apply rel_merge; [|done]. intros a b. by apply paired_hash.
Qed.

Lemma replay_cleanup table rs es t :
  replayed table rs es t → set_live es t → vlen es < 2 ^ 59 → Forall2 sstands rs es →
  ∃ table', sps_finish_difference_update table = Ok table' ∧
    replayed table' rs es (s_cleanup pk_hash t).
Proof.
  intros (tr & Hrep & Hwf & Hrel) Hl Hlen Hst.
  assert (Hu : s_used tr < 2 ^ 59) by (rewrite (replayed_used rs es t tr) by done; done).
  destruct (cleanup_refines table tr Hrep Hwf Hu) as (table' & Hm & Hrep').
  exists table'. split; [done|]. exists (s_cleanup ehash tr). split_and!; [done|by apply s_cleanup_wf|].
  apply rel_cleanup; [|done]. intros a b. by apply paired_hash.
Qed.

(** ** Undo, then redo *)

#[local] Abbreviation keyslots := (list (option (DictReplayKey K))).
#[local] Abbreviation idslots := (list (option Z)).

Definition ids_below (next : Z) rs : Prop := Forall (λ r, 0 ≤ drk_replay_id r < next) rs.

Definition set_ready ms es (state : DictReplaySequence K) rs (next : Z) (ik : keyslots) (rk : idslots) : Prop :=
  drs_rep state rs ∧ Forall2 sstands rs es ∧ distinct_ids rs ∧ ids_below next rs ∧
  0 ≤ next ∧ next + vlen ms < 2 ^ 60 ∧ (length ms ≤ length ik)%nat ∧ (length ms ≤ length rk)%nat.

(** Undoing [ms] reaches stand-ins for [es0]; redoing it from their table
    reaches the table of [es]. *)
Definition set_round_trip es0 (t0 : ktab) ms es (t : ktab) (state : DictReplaySequence K) rs
    (next : Z) (ik : keyslots) (rk : idslots) : Prop :=
  ∃ state0 rs0 next0 ik0 rk0,
    rfold smj_undo_step (state, next, ik, rk) (reverse (enumerate ms)) = Ok (state0, next0, ik0, rk0) ∧
    drs_rep state0 rs0 ∧ Forall2 sstands rs0 es0 ∧ distinct_ids rs0 ∧ ids_below (2 ^ 60) rs0 ∧
    (∀ j, (length ms ≤ j)%nat → ik0 !! j = ik !! j ∧ rk0 !! j = rk !! j) ∧
    ∀ table0, replayed table0 rs0 es0 t0 →
      ∃ table ik',
        rfold (smj_redo_step rk0) (table0, ik0) (enumerate ms) = Ok (table, ik') ∧
        replayed table rs es t ∧ ∀ j, (length ms ≤ j)%nat → ik' !! j = ik !! j.

Lemma set_round_trip_snoc es0 t0 ms m es es' t t' state state1 rs rs1 next next1 ik ik1 rk rk1 :
  smj_undo_step (state, next, ik, rk) (length ms, m) = Ok (state1, next1, ik1, rk1) →
  (∀ j, (length ms < j)%nat → ik1 !! j = ik !! j ∧ rk1 !! j = rk !! j) →
  set_round_trip es0 t0 ms es t state1 rs1 next1 ik1 rk1 →
  (∀ table iks rks, replayed table rs1 es t →
     iks !! length ms = ik1 !! length ms → rks !! length ms = rk1 !! length ms →
     ∃ table' iks', smj_redo_step rks (table, iks) (length ms, m) = Ok (table', iks') ∧
       replayed table' rs es' t' ∧ ∀ j, (length ms < j)%nat → iks' !! j = iks !! j) →
  set_round_trip es0 t0 (ms ++ [m]) es' t' state rs next ik rk.
Proof.
  intros Hundo Hfr (state0 & rs0 & next0 & ik0 & rk0 & Hus & Hrep0 & Hst0 & Hd0 & Hids0 & Hfr0 & Hredo)
    Hstep.
  exists state0, rs0, next0, ik0, rk0. rewrite enumerate_snoc, reverse_app, reverse_singleton.
  cbn [app rfold]. rewrite Hundo. cbn [mbind res_bind].
  rewrite length_app. cbn [length]. split_and!; [done..| |].
  { intros j Hj. destruct (Hfr0 j) as [-> ->]; [lia|]. apply Hfr. lia. }
  intros table0 Hr0. destruct (Hredo table0 Hr0) as (table & iks & Hr & Hrd & Hiks).
  destruct (Hstep table iks rk0 Hrd) as (table' & iks' & Hs & Hrd' & Hiks').
  { apply Hiks. lia. } { apply Hfr0. lia. }
  exists table', iks'. rewrite rfold_app, Hr. cbn [mbind res_bind rfold].
  rewrite Hs. cbn [mbind res_bind]. split_and!; [done|done|].
  intros j Hj. rewrite Hiks' by lia. rewrite Hiks by lia. apply Hfr. lia.
Qed.

Lemma ids_below_ok n rs r : n ≤ 2 ^ 60 → ids_below n rs → r ∈ rs → id_ok (replay_entry r).
Proof.
  unfold ids_below, id_ok. rewrite Forall_forall. intros Hn Hf Hr. specialize (Hf r Hr). cbn.
  assert (2 ^ 60 < SET_REPLAY_DUMMY) by done. lia.
Qed.

Lemma set_round_trip_insert es0 t0 ms es t k state rs next ik rk :
  (∀ state rs next ik rk, set_ready ms es state rs next ik rk →
     set_round_trip es0 t0 ms es t state rs next ik rk) →
  set_live es t → vlen es < 2 ^ 59 →
  set_ready (ms ++ [sdm_inserted]) (es ++ [k]) state rs next ik rk →
  set_round_trip es0 t0 (ms ++ [sdm_inserted]) (es ++ [k]) (kinsert t k) state rs next ik rk.
Proof.
  intros IH Hl Hlen (Hrep & Hst & Hd & Hids & Hn0 & Hnext & Hik & Hrk).
  apply Forall2_app_inv_r in Hst as (rs1 & rs2 & Hst1 & Hst2 & ->).
  apply Forall2_cons_inv_r in Hst2 as (r & rs3 & Hr & ->%Forall2_nil_inv_r & ->).
  rewrite length_app in Hik, Hrk. cbn in Hik, Hrk.
  rewrite vlen_app in Hnext. change (vlen [_]) with 1 in Hnext. pose proof (vlen_nonneg ms).
  destruct (drs_pop_snoc state rs1 r Hrep) as (state1 & Hpop & Hrep1).
  destruct (lookup_lt_is_Some_2 ik (length ms)) as [o Ho]; [lia|].
  assert (Hidr : id_ok (replay_entry r)) by (eapply (ids_below_ok next); [lia|exact Hids|set_solver]).
  eapply (set_round_trip_snoc _ _ _ _ es _ t _ _ state1 _ rs1 _ next _ (<[length ms := Some r]> ik) _ rk).
  - unfold smj_undo_step. change (sdm_kind sdm_inserted) with SET_MUTATION_INSERT.
    rewrite Z.eqb_refl, Hpop. cbn [expect mbind res_bind]. by rewrite (vset_ok _ _ _ _ Ho).
  - intros j Hj. split; [apply list_lookup_insert_ne; lia|done].
  - apply IH. apply Forall_app in Hids as [Hids _].
    split_and!; [done|done|by eapply distinct_ids_snoc|done|done|lia|rewrite length_insert; lia|lia].
  - intros table iks rks Hrd Heq _. rewrite list_lookup_insert_eq in Heq by lia.
    destruct (replay_insert table rs1 es t r k) as (table' & Hins & Hrd'); [done..|].
    exists table', (<[length ms := None]> iks). unfold smj_redo_step.
    change (sdm_kind sdm_inserted) with SET_MUTATION_INSERT. rewrite Z.eqb_refl.
    rewrite (vnth_lookup _ _ _ Heq), (vset_ok _ _ _ _ Heq). cbn [expect mbind res_bind].
    rewrite Hins. split_and!; [done|done|]. intros j Hj. apply list_lookup_insert_ne. lia.
Qed.

(** The placeholder of an undone removal. *)
Definition set_placeholder (m : SetDeferredMutation) (id : Z) : DictReplayKey K :=
  {| drk_key := None; drk_python_hash := sdm_python_hash m; drk_is_str := false; drk_replay_id := id |}.

Lemma set_round_trip_remove es0 t0 ms es t i k m state rs next ik rk :
  (∀ state rs next ik rk, set_ready ms es state rs next ik rk →
     set_round_trip es0 t0 ms es t state rs next ik rk) →
  set_live es t → vlen es < 2 ^ 60 → es !! i = Some k → sdm_removed (Z.of_nat i) k = Ok m →
  set_ready (ms ++ [m]) (delete i es) state rs next ik rk →
  set_round_trip es0 t0 (ms ++ [m]) (delete i es) (s_remove (same_key k) t) state rs next ik rk.
Proof.
  intros IH Hl Hlen Hi Hm (Hrep & Hst & Hd & Hids & Hn0 & Hnext & Hik & Hrk).
  pose proof (lookup_lt_Some _ _ _ Hi) as Hlt.
  destruct (sdm_removed_word (Z.of_nat i) (pk_hash k)) as (m' & Hm' & Hh & Hkind & Hpos).
  { unfold vlen in Hlen. lia. }
  unfold sdm_removed in Hm. rewrite Hm in Hm'. injection Hm' as <-.
  rewrite length_app in Hik, Hrk. cbn in Hik, Hrk.
  rewrite vlen_app in Hnext. change (vlen [_]) with 1 in Hnext. pose proof (vlen_nonneg ms).
  pose proof (Forall2_length _ _ _ Hst) as Hll. rewrite length_delete in Hll by done.
  set (r := set_placeholder m next).
  destruct (drs_insert_spec state rs i r Hrep) as (state1 & Hins & Hrep1); [lia|].
  set (rs1 := take i rs ++ r :: drop i rs) in *.
  assert (Hperm : rs1 ≡ₚ r :: rs) by (unfold rs1; by rewrite <- Permutation_middle, take_drop).
  assert (Hr1 : rs1 !! i = Some r) by (apply list_lookup_middle; rewrite length_take; lia).
  assert (Hdel : delete i rs1 = rs).
  { unfold rs1. rewrite delete_middle' by (rewrite length_take; lia). apply take_drop. }
  assert (Hd1 : distinct_ids rs1).
  { unfold distinct_ids. rewrite Hperm, fmap_cons. constructor; [|done].
    intros (r' & Heq & Hr')%list_elem_of_fmap. cbn in Heq. unfold ids_below in Hids.
    rewrite Forall_forall in Hids. specialize (Hids r' Hr'). lia. }
  assert (Hids1 : ids_below (next + 1) rs1).
  { unfold ids_below. rewrite Hperm. constructor; [cbn; lia|].
    eapply Forall_impl; [exact Hids|]. cbn. intros; lia. }
  assert (Hst1 : Forall2 sstands rs1 es).
  { rewrite <- (take_drop_middle es i k Hi). rewrite delete_take_drop in Hst.
    apply Forall2_app_inv_r in Hst as (ra & rb & Hra & Hrb & Heq).
    pose proof (Forall2_length _ _ _ Hra) as Hla. rewrite length_take in Hla.
    unfold rs1. rewrite Heq, take_app_length', drop_app_length' by lia.
    apply Forall2_app; [done|]. constructor; [exact Hh|done]. }
  destruct (lookup_lt_is_Some_2 rk (length ms)) as [o Ho]; [lia|].
  eapply (set_round_trip_snoc _ _ _ _ es _ t _ _ state1 _ rs1 _ (next + 1) _ ik _ (<[length ms := Some next]> rk)).
  - unfold smj_undo_step. rewrite Hkind, Hpos, Nat2Z.id.
    cbn [Z.eqb SET_MUTATION_INSERT SET_MUTATION_REMOVE Pos.eqb].
    change ({| drk_key := None; drk_python_hash := sdm_python_hash m; drk_is_str := false;
               drk_replay_id := next |}) with r.
    rewrite Hins. cbn [mbind res_bind]. rewrite (vset_ok _ _ _ _ Ho). cbn [mbind res_bind].
    unfold wrapping_add. rewrite as_u64_id by (unfold u64_range, two64; lia). done.
  - intros j Hj. split; [done|apply list_lookup_insert_ne; lia].
  - apply IH. split_and!; [done|done|done|done|lia|lia|lia|rewrite length_insert; lia].
  - intros table iks rks Hrd _ Heq. rewrite list_lookup_insert_eq in Heq by lia.
    destruct (replay_remove table rs1 es t i r k Hrd Hl Hd1 Hst1 Hr1 Hi) as (table' & Hrem & Hrd').
    rewrite Hdel in Hrd'. exists table', iks. unfold smj_redo_step. rewrite Hkind.
    cbn [Z.eqb SET_MUTATION_INSERT SET_MUTATION_REMOVE Pos.eqb].
    rewrite (vnth_lookup _ _ _ Heq). cbn [expect mbind res_bind]. rewrite Hh.
    cbn [drk_replay_id r set_placeholder] in Hrem. rewrite Hrem. done.
Qed.

(** Merge and cleanup words do not change the elements. *)
Lemma set_round_trip_same es0 t0 ms m es t t' state rs next ik rk :
  (∀ state rs next ik rk, set_ready ms es state rs next ik rk →
     set_round_trip es0 t0 ms es t state rs next ik rk) →
  (∀ st, smj_undo_step (K := K) st (length ms, m) = Ok st) →
  (∀ table iks rks, replayed table rs es t → Forall2 sstands rs es →
     ∃ table', smj_redo_step (K := K) rks (table, iks) (length ms, m) = Ok (table', iks) ∧
       replayed table' rs es t') →
  set_ready (ms ++ [m]) es state rs next ik rk →
  set_round_trip es0 t0 (ms ++ [m]) es t' state rs next ik rk.
Proof.
  intros IH Hundo Hredo (Hrep & Hst & Hd & Hids & Hn0 & Hnext & Hik & Hrk).
  rewrite length_app in Hik, Hrk. cbn in Hik, Hrk.
  rewrite vlen_app in Hnext. change (vlen [_]) with 1 in Hnext.
  eapply (set_round_trip_snoc _ _ _ _ es _ t _ _ state _ rs _ next _ ik _ rk); [apply Hundo|done| |].
  - apply IH. split_and!; [done|done|done|done|lia|lia|lia|lia].
  - intros table iks rks Hrd _ _. destruct (Hredo table iks rks Hrd Hst) as (table' & -> & Hrd').
    by exists table', iks.
Qed.

Lemma set_history_round_trip es0 t0 ms es t :
  set_history es0 t0 ms es t → set_fits es0 ms → set_live es0 t0 →
  ∀ state rs next ik rk, set_ready ms es state rs next ik rk →
    set_round_trip es0 t0 ms es t state rs next ik rk.
Proof.
  intros Hh Hfit Hl0. unfold set_fits in Hfit.
  induction Hh as [|ms es t k Hh IH Hf|ms es t i k m Hh IH Hi Hm|ms es t n Hh IH Hn|ms es t Hh IH];
    intros state rs next ik rk Hready.
  { destruct Hready as (Hrep & Hst & Hd & Hids & Hn0 & Hnext & _).
    exists state, rs, next, ik, rk. split_and!; [done..| |done|].
    - eapply Forall_impl; [exact Hids|]. cbn. pose proof (vlen_nonneg (@nil SetDeferredMutation)). intros; lia.
    - intros table0 Hr0. by exists table0, ik. }
  all: rewrite vlen_app in Hfit; change (vlen [_]) with 1 in *.
  all: pose proof (vlen_nonneg es0); pose proof (vlen_nonneg ms).
  all: destruct (set_history_live _ _ _ _ _ Hh) as (Hl & Hlen); [unfold set_fits; lia|done|].
  all: specialize (IH ltac:(lia)).
  - apply set_round_trip_insert; [done|done|lia|done].
  - eapply set_round_trip_remove; [done|done|lia|done..].
  - apply (set_round_trip_same _ _ _ _ _ t); [done|by intros [[[] ?] ?]| |done].
    intros table iks rks Hrd Hst. unfold smj_redo_step.
    change (sdm_kind (sdm_merge n)) with SET_MUTATION_MERGE.
    cbn [Z.eqb SET_MUTATION_INSERT SET_MUTATION_REMOVE SET_MUTATION_MERGE Pos.eqb sdm_python_hash sdm_merge].
    destruct (replay_merge table rs es t n) as (table' & -> & Hrd'); [done|done|lia|done|done|].
    by exists table'.
  - apply (set_round_trip_same _ _ _ _ _ t); [done|by intros [[[] ?] ?]| |done].
    intros table iks rks Hrd Hst. unfold smj_redo_step.
    change (sdm_kind sdm_difference_cleanup) with SET_MUTATION_DIFFERENCE_CLEANUP.
    cbn [Z.eqb SET_MUTATION_INSERT SET_MUTATION_REMOVE SET_MUTATION_MERGE SET_MUTATION_DIFFERENCE_CLEANUP Pos.eqb].
    destruct (replay_cleanup table rs es t) as (table' & -> & Hrd'); [done|done|lia|done|].
    by exists table'.
Qed.

(** ** Building a table from its elements *)

Definition set_replay_key k (id : Z) : DictReplayKey K :=
  {| drk_key := Some k; drk_python_hash := pk_hash k; drk_is_str := false; drk_replay_id := id |}.

(** The elements with their positions, from [next], as ids. *)
Fixpoint set_numbered (next : Z) es : list (DictReplayKey K) :=
  match es with
  | [] => []
  | k :: es => set_replay_key k next :: set_numbered (next + 1) es
  end.

Lemma set_numbered_app next es es' :
  set_numbered next (es ++ es') = set_numbered next es ++ set_numbered (next + vlen es) es'.
Proof.
  revert next. induction es as [|k es IH]; intros next; cbn; [by rewrite Z.add_0_r|].
  rewrite IH, vlen_cons. do 3 f_equal. lia.
Qed.

Lemma set_numbered_lookup next es i k :
  es !! i = Some k → set_numbered next es !! i = Some (set_replay_key k (next + Z.of_nat i)).
Proof.
  revert next i. induction es as [|k' es IH]; intros next [|i] Hi; cbn in Hi |- *; try done.
  - injection Hi as ->. by rewrite Z.add_0_r.
  - rewrite (IH _ _ Hi). do 2 f_equal. lia.
Qed.

Lemma set_numbered_stands next es : Forall2 sstands (set_numbered next es) es.
Proof. revert next. induction es as [|k es IH]; intros next; constructor; [done|apply IH]. Qed.

Lemma set_numbered_ids next es :
  Forall (λ r, next ≤ drk_replay_id r < next + vlen es) (set_numbered next es) ∧
  distinct_ids (set_numbered next es).
Proof.
  revert next. induction es as [|k es IH]; intros next; [split; constructor|].
  destruct (IH (next + 1)) as [Hr Hd]. rewrite vlen_cons. cbn [set_numbered]. split.
  - constructor; [cbn; pose proof (vlen_nonneg es); lia|].
    eapply Forall_impl; [exact Hr|]. cbn. intros; lia.
  - unfold distinct_ids. rewrite fmap_cons. constructor; [|exact Hd].
    cbn. intros (r & Heq & Hin)%list_elem_of_fmap.
    rewrite Forall_forall in Hr. specialize (Hr r Hin). lia.
Qed.

Lemma set_numbered_below es : vlen es < 2 ^ 60 → ids_below (vlen es) (set_numbered 0 es).
Proof.
  intros Hl. eapply Forall_impl; [apply (set_numbered_ids 0 es)|]. cbn. intros; lia.
Qed.

Lemma distinct_fresh es k es' :
  distinct (es ++ k :: es') → Forall (λ k', pk_eqb k' k = false) es ∧ distinct es.
Proof.
  intros Hd. split.
  - apply Forall_forall. intros k' Hk'. apply list_elem_of_lookup in Hk' as [i Hi].
    destruct (pk_eqb k' k) eqn:He; [|done]. pose proof (lookup_lt_Some _ _ _ Hi).
    assert (i = length es); [|lia]. eapply Hd; [by apply lookup_app_l_Some|by apply list_lookup_middle|done].
  - intros i j a b Hi Hj. apply Hd; by apply lookup_app_l_Some.
Qed.

(** The table that inserting [es] into an empty table builds. *)
Definition set_built (size : nat) es : ktab := foldl kinsert (s_empty size) es.

Lemma set_built_live size es :
  set_log size → distinct es → vlen es < 2 ^ 59 → set_live es (set_built size es).
Proof.
  intros Hlog Hd Hlen. unfold set_built. induction es as [|k es IH] using rev_ind.
  - split_and!; [by apply s_empty_wf|cbn [foldl]; by rewrite s_empty_live|done].
  - destruct (distinct_fresh es k [] Hd) as [Hf Hd']. rewrite vlen_app in Hlen. change (vlen [_]) with 1 in Hlen.
    rewrite foldl_app. cbn. apply set_live_insert; [apply IH; [done|lia]|lia|done].
Qed.

Definition insert_replay_key (table : PySetProbeSnapshot) (key : DictReplayKey K) : res PySetProbeSnapshot :=
  sps_insert table (replay_entry key).

Lemma insert_all size es rs table :
  set_log size → distinct es → vlen es < 2 ^ 59 → sps_rep table (s_empty size) →
  Forall2 sstands rs es → distinct_ids rs → ids_below (2 ^ 60) rs →
  ∃ table', rfold insert_replay_key table rs = Ok table' ∧ replayed table' rs es (set_built size es).
Proof.
  intros Hlog Hd Hlen Hrep. revert rs Hd Hlen. induction es as [|k es IH] using rev_ind;
    intros rs Hd Hlen Hst Hids Hbelow.
  { apply Forall2_nil_inv_r in Hst as ->. exists table. split; [done|]. exists (s_empty size).
    split_and!; [done|by apply s_empty_wf|apply rel_s_empty]. }
  apply Forall2_app_inv_r in Hst as (rs1 & rs2 & Hst & Hst2 & ->).
  apply Forall2_cons_inv_r in Hst2 as (r & rs3 & Hrk & ->%Forall2_nil_inv_r & ->).
  destruct (distinct_fresh es k [] Hd) as [Hf Hd'].
  rewrite vlen_app in Hlen. change (vlen [_]) with 1 in Hlen.
  destruct (IH rs1) as (table1 & Hfold & Hr1);
    [done|lia|done|by eapply distinct_ids_snoc|by apply Forall_app in Hbelow as [? _]|].
  rewrite rfold_app, Hfold. cbn [mbind res_bind rfold].
  destruct (replay_insert table1 rs1 es (set_built size es) r k) as (table' & Hins & Hr'); [done| |lia|done|done|done| |].
  { apply set_built_live; [done|done|lia]. }
  { eapply ids_below_ok; [done|exact Hbelow|set_solver]. }
  unfold insert_replay_key at 1. rewrite Hins. exists table'. split; [done|].
  unfold set_built. by rewrite foldl_app.
Qed.

(** ** The tail-removal shortcut *)

Lemma all_tail_spec len start ms :
  Z.of_nat start + vlen ms ≤ len →
  ∃ b, smj_all_tail_removals len (zip (seq start (length ms)) ms) = Ok b ∧
    (b = true → ∀ j m, ms !! j = Some m →
       sdm_kind m = SET_MUTATION_REMOVE ∧ sdm_position m = len - Z.of_nat (start + j) - 1).
Proof.
  revert start. induction ms as [|m ms IH]; intros start Hlen; [by exists true|].
  cbn [length seq]. cbn [smj_all_tail_removals zip zip_with].
  rewrite vlen_cons in Hlen. pose proof (vlen_nonneg ms).
  destruct (Z.eqb_spec (sdm_kind m) SET_MUTATION_REMOVE) as [Hk|]; [|by exists false].
  cbn [negb]. rewrite usize_sub_ok by lia. cbn [mbind res_bind]. rewrite usize_sub_ok by lia.
  cbn [mbind res_bind].
  destruct (Z.eqb_spec (sdm_position m) (len - Z.of_nat start - 1)) as [Hp|]; [|by exists false].
  destruct (IH (S start)) as (b & -> & Hb); [lia|]. exists b. split; [done|].
  intros Hbt [|j] m' Hj; cbn in Hj.
  - injection Hj as <-. split; [done|]. rewrite Nat.add_0_r. done.
  - destruct (Hb Hbt j m' Hj) as [? ->]. split; [done|]. lia.
Qed.

(** All words are removals of what is then the last element. *)
Definition tail_removals ms (live : Z) : Prop :=
  ∀ j m, ms !! j = Some m →
    sdm_kind m = SET_MUTATION_REMOVE ∧ sdm_position m = live + vlen ms - Z.of_nat j - 1.

Lemma has_only_tail_spec ms live :
  0 ≤ live → live + vlen ms < 2 ^ 60 →
  ∃ b, smj_has_only_tail_removals ms live = Ok b ∧ (b = true → tail_removals ms live).
Proof.
  intros Hl Hlen. unfold smj_has_only_tail_removals. unfold saturating_add.
  assert (Hm : 2 ^ 60 < usize_max) by done. rewrite Z.min_r by lia.
  destruct ms as [|m ms]; [by exists false|].
  destruct (all_tail_spec (live + vlen (m :: ms)) 0 (m :: ms)) as (b & Hb & Hs); [lia|].
  exists b. split; [exact Hb|]. intros Hbt j m' Hj. destruct (Hs Hbt j m' Hj) as [? ->]. done.
Qed.

Definition remove_all (t : ktab) (ks : list K) : ktab := foldl (λ t k, s_remove (same_key k) t) t ks.

(** A history of tail removals drops a suffix of the elements. *)
Lemma tail_history es0 t0 ms es t :
  set_history es0 t0 ms es t → set_fits es0 ms → set_live es0 t0 → tail_removals ms (vlen es) →
  ∃ ks, es0 = es ++ ks ∧ Forall2 (λ m k, sdm_python_hash m = pk_hash k) ms (reverse ks) ∧
    t = remove_all t0 (reverse ks).
Proof.
  intros Hh Hfit Hl0 Ht. unfold set_fits in Hfit.
  assert (Hlast : ∀ live ms m, tail_removals (ms ++ [m]) live → sdm_kind m = SET_MUTATION_REMOVE).
  { intros live ms' m Htm. by destruct (Htm (length ms') m) as [? _]; [apply list_lookup_middle|]. }
  induction Hh as [|ms es t k Hh IH Hf|ms es t i k m Hh IH Hi Hm|ms es t n Hh IH Hn|ms es t Hh IH].
  { exists []. rewrite app_nil_r. split_and!; [done|constructor|done]. }
  1, 3, 4: by apply Hlast in Ht.
  rewrite vlen_app in Hfit; change (vlen [_]) with 1 in *.
  pose proof (vlen_nonneg es0); pose proof (vlen_nonneg ms).
  destruct (set_history_live _ _ _ _ _ Hh) as (Hl & Hlen); [unfold set_fits; lia|done|].
  pose proof (lookup_lt_Some _ _ _ Hi) as Hlt.
  destruct (sdm_removed_word (Z.of_nat i) (pk_hash k)) as (m' & Hm' & Hmh & Hkind & Hpos).
  { unfold vlen in *. lia. }
  unfold sdm_removed in Hm. rewrite Hm in Hm'. injection Hm' as <-.
  destruct (Ht (length ms) m) as [_ Hpm]; [by apply list_lookup_middle|].
  rewrite vlen_app in Hpm. change (vlen [_]) with 1 in Hpm. rewrite Hpos in Hpm.
  unfold vlen in Hpm. rewrite length_delete in Hpm by done.
  assert (Hi' : i = (length es - 1)%nat) by lia.
  destruct (exists_last (l := es)) as (es' & k' & ->); [intros ->; done|].
  rewrite length_app in Hi'. cbn in Hi'. rewrite Nat.add_sub in Hi'. subst i.
  rewrite list_lookup_middle in Hi by done. injection Hi as ->. rewrite delete_snoc in *.
  destruct IH as (ks & -> & Hks & ->); [lia| |].
  { intros j m' Hj. destruct (Ht j m') as [? ->]; [by apply lookup_app_l_Some|]. split; [done|].
    rewrite !vlen_app. change (vlen [_]) with 1. lia. }
  exists (k :: ks). rewrite <- app_assoc. split; [done|]. rewrite reverse_cons. split.
  - apply Forall2_app; [done|]. by constructor.
  - unfold remove_all. by rewrite foldl_app.
Qed.

(** The removal loop of the shortcut: the ids count down from the end. *)
Lemma tail_remove_loop es ms ks table t start n :
  replayed table (set_numbered 0 (es ++ ks)) (es ++ ks) t → set_live (es ++ ks) t →
  Forall2 (λ m k, sdm_python_hash m = pk_hash k) ms (reverse ks) →
  n = Z.of_nat start + vlen ms →
  ∃ table',
    rfold (λ table '(mutation_index, mutation),
             after ← usize_sub n (Z.of_nat mutation_index);
             reverse_index ← usize_sub after 1;
             sps_remove table (sdm_python_hash mutation) (vlen es + reverse_index))
      table (zip (seq start (length ms)) ms) = Ok table' ∧
    replayed table' (set_numbered 0 es) es (remove_all t (reverse ks)).
Proof.
  revert ks table t start. induction ms as [|m ms IH]; intros ks table t start Hr Hl Hf Hn.
  { apply Forall2_nil_inv_l in Hf. apply (f_equal reverse) in Hf.
    rewrite reverse_involutive in Hf. subst ks. rewrite app_nil_r in *. by exists table. }
  apply Forall2_cons_inv_l in Hf as (k & ks' & Hm & Hf & Hks). apply (f_equal reverse) in Hks.
  rewrite reverse_involutive, reverse_cons in Hks.
  remember (reverse ks') as ks1 eqn:Hks1.
  assert (Hks' : ks' = reverse ks1) by (subst ks1; by rewrite reverse_involutive). subst ks ks'.
  rewrite app_assoc in Hr, Hl. rewrite vlen_cons in Hn. pose proof (vlen_nonneg ms).
  pose proof (Forall2_length _ _ _ Hf) as Hlen. rewrite length_reverse in Hlen.
  cbn [length seq zip zip_with rfold]. rewrite usize_sub_ok by lia. cbn [mbind res_bind].
  rewrite usize_sub_ok by lia. cbn [mbind res_bind].
  assert (Hlk : (es ++ ks1 ++ [k]) !! length (es ++ ks1) = Some k)
    by (rewrite app_assoc; by apply list_lookup_middle).
  rewrite app_assoc in Hlk.
  destruct (replay_remove _ _ _ _ _ _ _ Hr Hl (proj2 (set_numbered_ids 0 _)) (set_numbered_stands 0 _)
    (set_numbered_lookup 0 _ _ _ Hlk) Hlk) as (table1 & Hrem & Hr1).
  cbn [set_replay_key drk_replay_id] in Hrem.
  replace (vlen es + (n - Z.of_nat start - 1)) with (0 + Z.of_nat (length (es ++ ks1)))
    by (rewrite length_app; unfold vlen in *; lia).
  rewrite Hm, Hrem. cbn [mbind res_bind].
  rewrite delete_snoc in Hr1.
  assert (Hnum : delete (length (es ++ ks1)) (set_numbered 0 ((es ++ ks1) ++ [k])) = set_numbered 0 (es ++ ks1)).
  { rewrite set_numbered_app. cbn [set_numbered].
    rewrite <- (Forall2_length _ _ _ (set_numbered_stands 0 (es ++ ks1))). apply delete_snoc. }
  rewrite Hnum in Hr1.
  destruct (IH ks1 table1 (s_remove (same_key k) t) (S start)) as (table' & Hloop & Hr').
  - done.
  - rewrite <- (delete_snoc (es ++ ks1) k). by apply set_live_remove.
  - done.
  - unfold vlen in *. lia.
  - exists table'. split; [exact Hloop|]. by rewrite reverse_app.
Qed.

(** ** Materialization *)

Lemma enumerate_Forall2 {A B} (R : nat * A → B → Prop) (l : list A) (l' : list B) start :
  length l = length l' →
  (∀ i x y, l !! i = Some x → l' !! i = Some y → R ((start + i)%nat, x) y) →
  Forall2 R (zip (seq start (length l)) l) l'.
Proof.
  revert start l'. induction l as [|x l IH]; intros start [|y l'] Hl HR; try discriminate Hl; [constructor|].
  cbn. constructor.
  - rewrite <- (Nat.add_0_r start). by apply (HR 0%nat).
  - apply IH; [by injection Hl|]. intros i x' y' Hx Hy.
    replace (S start + i)%nat with (start + S i)%nat by lia. by apply (HR (S i)).
Qed.

Lemma insert_entries_eq table es :
  sps_insert_entries table es = rfold insert_replay_key table (set_numbered 0 es).
Proof.
  unfold sps_insert_entries. apply rfold_ext, enumerate_Forall2.
  - by rewrite (Forall2_length _ _ _ (set_numbered_stands 0 es)).
  - intros i k r Hi Hr s'. rewrite (set_numbered_lookup 0 es i k Hi) in Hr. injection Hr as <-. done.
Qed.

Lemma replayed_rep_used table rs es t :
  replayed table rs es t → set_live es t → sps_used table = vlen es.
Proof.
  intros (tr & Hrep & _ & Hrel) Hl. rewrite (sr_used _ _ Hrep). by eapply replayed_used.
Qed.

Lemma materialize_tail es ks ms size :
  set_log size → distinct (es ++ ks) → vlen (es ++ ks) < 2 ^ 59 →
  Forall2 (λ m k, sdm_python_hash m = pk_hash k) ms (reverse ks) →
  ∃ table, smj_materialize_tail_removals ms es (Z.of_nat size) = Ok table ∧
    replayed table (set_numbered 0 es) es (remove_all (set_built size (es ++ ks)) (reverse ks)) ∧
    set_live es (remove_all (set_built size (es ++ ks)) (reverse ks)).
Proof.
  intros Hlog Hd Hlen Hms. pose proof (set_built_live size _ Hlog Hd Hlen) as Hl0.
  assert (Hrev : Forall2 (λ m k, sdm_python_hash m = pk_hash k) (reverse ms) ks).
  { rewrite <- (reverse_involutive ks). by apply Forall2_reverse. }
  unfold smj_materialize_tail_removals.
  destruct (with_table_size_spec size Hlog) as (table0 & -> & Hrep0). cbn [mbind res_bind].
  destruct (insert_all size (es ++ ks) (set_numbered 0 (es ++ ks)) table0) as (table1 & Hins & Hr1); [done..| | | |].
  { apply set_numbered_stands. }
  { apply set_numbered_ids. }
  { eapply Forall_impl; [apply (set_numbered_below (es ++ ks)); lia|]. cbn. intros; lia. }
  rewrite set_numbered_app, rfold_app, Z.add_0_l in Hins. apply bind_Ok in Hins as (table2 & Hi1 & Hi2).
  rewrite insert_entries_eq, Hi1. cbn [mbind res_bind].
  rewrite (rfold_ext _ insert_replay_key _ (set_numbered (vlen es) ks)), Hi2.
  2: { unfold enumerate. apply enumerate_Forall2.
    - rewrite (Forall2_length _ _ _ Hrev). by rewrite (Forall2_length _ _ _ (set_numbered_stands _ ks)).
    - intros i m r Hi Hr s'. destruct (Forall2_lookup_l _ _ _ _ _ Hrev Hi) as (k & Hk & Hh).
      rewrite (set_numbered_lookup _ ks i k Hk) in Hr. injection Hr as <-.
      unfold insert_replay_key. cbn. by rewrite Hh. }
  cbn [mbind res_bind].
  destruct (tail_remove_loop es ms ks table1 (set_built size (es ++ ks)) 0 (vlen ms)) as (table' & Hloop & Hr');
    [done..|].
  unfold enumerate. rewrite Hloop. cbn [mbind res_bind].
  assert (Hlive : set_live es (remove_all (set_built size (es ++ ks)) (reverse ks))).
  { clear -Hl0 H0. revert Hl0. generalize (set_built size (es ++ ks)). induction ks as [|k ks IH] using rev_ind; intros t Hl.
    - by rewrite app_nil_r in Hl.
    - rewrite reverse_snoc. cbn. apply IH. rewrite app_assoc in Hl.
      rewrite <- (delete_snoc (es ++ ks) k). apply set_live_remove; [done|by apply list_lookup_middle]. }
  rewrite rassert_true by (apply Z.eqb_eq; by eapply replayed_rep_used).
  by exists table'.
Qed.

Lemma set_initial_state es state rs next :
  drs_rep state rs → 0 ≤ next → next + vlen es < two64 →
  ∃ state', rfold (λ '(state, next_replay_id) key,
       state ← drs_push state (set_replay_key key next_replay_id);
       Ok (state, wrapping_add next_replay_id 1)) (state, next) es = Ok (state', next + vlen es) ∧
    drs_rep state' (rs ++ set_numbered next es).
Proof.
  revert state rs next. induction es as [|k es IH]; intros state rs next Hrep Hn Hlt.
  { exists state. cbn. rewrite app_nil_r, Z.add_0_r. done. }
  rewrite vlen_cons in Hlt. pose proof (vlen_nonneg es).
  destruct (drs_push_spec state rs (set_replay_key k next) Hrep) as (state1 & Hp & Hrep1).
  cbn [rfold]. rewrite Hp. cbn [mbind res_bind]. unfold wrapping_add at 2. rewrite as_u64_id by (unfold u64_range; lia).
  destruct (IH state1 _ (next + 1) Hrep1) as (state' & -> & Hrep'); [lia..|].
  exists state'. rewrite vlen_cons. split; [do 2 f_equal; lia|].
  by rewrite <- app_assoc in Hrep'.
Qed.

(** The snapshot lays out the elements as the table [t] does, with positions
    in [es] as ids. *)
Definition snapshot_of (table : PySetProbeSnapshot) es (t : ktab) : Prop :=
  replayed table (set_numbered 0 es) es t.

(** Materializing a journal gives the table of its history. *)
Lemma set_materialize_eager es0 ms es t size :
  set_log size → distinct es0 → set_fits es0 ms →
  set_history es0 (set_built size es0) ms es t →
  ∃ table, smj_materialize ms es (Z.of_nat size) = Ok table ∧ snapshot_of table es t.
Proof.
  intros Hlog Hd Hfit Hh. pose proof (vlen_nonneg es0). pose proof (vlen_nonneg ms). pose proof Hfit as Hfit'.
  unfold set_fits in Hfit'.
  assert (Hl0 : set_live es0 (set_built size es0)) by (apply set_built_live; [done|done|lia]).
  destruct (set_history_live _ _ _ _ _ Hh Hfit Hl0) as [Hl Hlen].
  unfold smj_materialize. destruct (has_only_tail_spec ms (vlen es)) as (b & -> & Hb);
    [apply vlen_nonneg|lia|]. cbn [mbind res_bind]. destruct b.
  - destruct (tail_history _ _ _ _ _ Hh Hfit Hl0 (Hb eq_refl)) as (ks & -> & Hms & ->).
    destruct (materialize_tail es ks ms size) as (table & Hm & Hr & _); [done|done|lia|done|]. eauto.
  - unfold smj_initial_state.
    destruct (set_initial_state es drs_with_capacity [] 0 drs_rep_with_capacity) as (state & Hs & Hrep);
      [lia|unfold two64; lia|].
    unfold set_replay_key in Hs. rewrite Hs. cbn [mbind res_bind]. cbn [app] in Hrep.
    destruct (set_history_round_trip _ _ _ _ _ Hh Hfit Hl0 state (set_numbered 0 es) (0 + vlen es)
      (replicate (length ms) None) (replicate (length ms) None))
      as (state0 & rs0 & next0 & ik0 & rk0 & -> & Hrep0 & Hst0 & Hd0 & Hids0 & _ & Hredo).
    { split_and!; [done|apply set_numbered_stands|apply set_numbered_ids| | | |by rewrite length_replicate..].
      - rewrite Z.add_0_l. apply set_numbered_below. lia.
      - pose proof (vlen_nonneg es). lia.
      - lia. }
    cbn [mbind res_bind].
    destruct (with_table_size_spec size Hlog) as (table0 & -> & Hrt0). cbn [mbind res_bind].
    rewrite (drs_for_each_spec _ _ _ _ Hrep0).
    destruct (insert_all size es0 rs0 table0) as (table1 & Hins & Hr1); [done|done|lia|done..|].
    unfold insert_replay_key in Hins. rewrite Hins. cbn [mbind res_bind].
    destruct (Hredo table1 Hr1) as (table & ik' & -> & Hr & _). cbn [mbind res_bind].
    rewrite rassert_true by (apply Z.eqb_eq; by eapply replayed_rep_used). by exists table.
Qed.

(** ** What a client sees of a snapshot *)

Lemma snapshot_index table es tr t :
  sps_rep table tr → tables_rel (paired (set_numbered 0 es) es) tr t →
  ids_index es pk_hash tr ∧ ∀ l l', Forall2 (paired (set_numbered 0 es) es) l l' → omap (source_key es) l = l'.
Proof.
  intros Hrep Hrel.
  assert (Hp : ∀ e k, paired (set_numbered 0 es) es e k →
    es !! Z.to_nat (spe_replay_id e) = Some k ∧ ehash e = pk_hash k).
  { intros e k (i & r & Hr & -> & Hk). rewrite (set_numbered_lookup 0 es i k Hk) in Hr.
    injection Hr as <-. cbn. by rewrite Z.add_0_l, Nat2Z.id. }
  split.
  - intros e He. apply list_elem_of_lookup in He as [j Hj].
    destruct (Forall2_lookup_l _ _ _ _ _ (rel_live_list _ _ _ Hrel) Hj) as (k & _ & Hek).
    exists k. by apply Hp.
  - intros l l' Hf. induction Hf as [|e k l l' Hek _ IH]; [done|]. cbn. unfold source_key at 1.
    destruct (Hp e k Hek) as [-> _]. by rewrite IH.
Qed.

(** [active_keys] enumerates the elements in slot order, and the candidates
    for a hash are those of the table. *)
Lemma snapshot_client table es t h :
  snapshot_of table es t → u64_range h →
  sps_active_keys table es = Ok (s_live t) ∧
  sps_collect_candidate_keys table es h = Ok (s_candidates pk_hash t h).
Proof.
  intros (tr & Hrep & Hwf & Hrel) Hh. destruct (snapshot_index _ _ _ _ Hrep Hrel) as [Hix Hom].
  split.
  - rewrite (active_keys_spec es pk_hash table tr Hrep Hix). f_equal. apply Hom.
    by apply rel_live_list.
  - rewrite (collect_candidates_spec es pk_hash table tr h Hrep Hwf Hh Hix). f_equal. apply Hom.
    apply rel_candidates; [|done]. intros a b. apply paired_hash, set_numbered_stands.
Qed.

Lemma snapshot_shape table es t :
  snapshot_of table es t → sps_table_size table = vlen t ∧
  sps_has_dummies table = negb (s_fill t =? s_used t).
Proof.
  intros (tr & Hrep & Hwf & Hrel). split.
  - unfold sps_table_size, vlen. by rewrite (rep_length _ _ Hrep), (rel_length _ _ _ Hrel).
  - rewrite (has_dummies_spec _ _ Hrep). by rewrite (rel_fill _ _ _ Hrel), (rel_used _ _ _ Hrel).
Qed.
End spec.
