(* ===== verification/PySet.v ===== *)
(** The insertion-ordered backing store of a Python [set]
    (crates/pyrust-core/src/core/prelude.rs, [PySet]): an [IndexSet], the
    initial size of CPython's table and, once something was removed or merged,
    the journal of mutations. *)

From S2P Require Import Prelude Probe SetIndex SetJournal.

(** ** The entries: an [IndexSet]

    [IndexSet] is a third-party crate; its operations are a parameter with
    their documented behaviour as laws. *)

(** [retain] visits the elements in order and threads the closure's state. *)
Fixpoint retain_list {K St} (keep : St → K → St * bool) (st : St) (es : list K) : list K * St :=
  match es with
  | [] => ([], st)
  | k :: es =>
      let '(st, b) := keep st k in
      let '(kept, st) := retain_list keep st es in
      (if b then k :: kept else kept, st)
  end.

Class IndexSet (K M : Type) := {
  is_entries : M → list K;
  is_empty_set : M;
  is_get_index_of : M → K → option nat;
  is_insert_full : M → K → M * (nat * bool);
  is_shift_remove_index : M → nat → M * option K;
  is_retain : ∀ St : Type, (St → K → St * bool) → St → M → M * St;
}.

Class IndexSetLaws (K M : Type) `{ProbeKey K} `{IndexSet K M} : Prop := {
  is_entries_empty : is_entries is_empty_set = [];
  is_get_index_of_Some m k i :
    is_get_index_of m k = Some i ↔
    ∃ k', is_entries m !! i = Some k' ∧ pk_eqb k' k = true ∧
      ∀ j k2, is_entries m !! j = Some k2 → pk_eqb k2 k = true → (i ≤ j)%nat;
  is_insert_full_new m k :
    is_get_index_of m k = None →
    (is_insert_full m k).2 = (length (is_entries m), true) ∧
    is_entries (is_insert_full m k).1 = is_entries m ++ [k];
  is_insert_full_old m k i :
    is_get_index_of m k = Some i →
    (is_insert_full m k).2 = (i, false) ∧ is_entries (is_insert_full m k).1 = is_entries m;
  is_shift_remove_index_spec m i :
    (is_shift_remove_index m i).2 = is_entries m !! i ∧
    is_entries (is_shift_remove_index m i).1 = delete i (is_entries m);
  is_retain_spec St (keep : St → K → St * bool) st m :
    is_entries (is_retain St keep st m).1 = (retain_list keep st (is_entries m)).1 ∧
    (is_retain St keep st m).2 = (retain_list keep st (is_entries m)).2;
}.

(** ** Data *)

Record PySet (M : Type) := {
  pys_entries : M;
  pys_python_hash_initial_table_size : Z;
  pys_python_hash_mutation_journal : option SetMutationJournal;
}.
Arguments pys_entries {M} _.
Arguments pys_python_hash_initial_table_size {M} _.
Arguments pys_python_hash_mutation_journal {M} _.

Section operations.
Context {K M : Type} `{ProbeKey K} `{IndexSet K M}.
Implicit Types self : PySet M.

Definition pys_keys self : list K := is_entries (pys_entries self).
Definition pys_len self : Z := vlen (pys_keys self).

Definition pys_set_entries (entries : M) self : PySet M :=
  {| pys_entries := entries;
     pys_python_hash_initial_table_size := pys_python_hash_initial_table_size self;
     pys_python_hash_mutation_journal := pys_python_hash_mutation_journal self |}.

Definition pys_set_journal (journal : option SetMutationJournal) self : PySet M :=
  {| pys_entries := pys_entries self;
     pys_python_hash_initial_table_size := pys_python_hash_initial_table_size self;
     pys_python_hash_mutation_journal := journal |}.

(** *** Construction *)

(** Capacities do not matter to the model. *)
Definition pys_with_capacity_and_hasher : PySet M :=
  {| pys_entries := is_empty_set; pys_python_hash_initial_table_size := SET_PROBE_MINSIZE;
     pys_python_hash_mutation_journal := None |}.

Definition pys_default : PySet M := pys_with_capacity_and_hasher.

Definition pys_with_python_table_size (table_size : Z) : PySet M :=
  {| pys_entries := is_empty_set;
     pys_python_hash_initial_table_size := Z.max table_size SET_PROBE_MINSIZE;
     pys_python_hash_mutation_journal := None |}.

(** The size that [set_merge] gives an empty destination. *)
Definition pys_merge_table_size (len : Z) : res Z :=
  if saturating_mul (SET_PROBE_MINSIZE - 1) 3 <=? saturating_mul len 5
  then sps_table_size_for_minused (saturating_mul len 2)
  else Ok SET_PROBE_MINSIZE.

Definition pys_with_cpython_dict_capacity (capacity : Z) : res (PySet M) :=
  table_size ← pys_merge_table_size capacity;
  Ok (pys_with_python_table_size table_size).

(** *** Snapshots *)

Definition pys_python_hash_snapshot self : res PySetProbeSnapshot :=
  match pys_python_hash_mutation_journal self with
  | Some journal => smj_materialize journal (pys_keys self) (pys_python_hash_initial_table_size self)
  | None =>
      table ← sps_with_table_size (pys_python_hash_initial_table_size self);
      sps_insert_entries table (pys_keys self)
  end.

(** *** Insertion *)

Definition pys_insert_full self (key : K) : PySet M * (nat * bool) :=
  let '(entries, (index, inserted)) := is_insert_full (pys_entries self) key in
  let self := pys_set_entries entries self in
  let self := match inserted, pys_python_hash_mutation_journal self with
              | true, Some journal => pys_set_journal (Some (smj_record_inserted journal)) self
              | _, _ => self
              end in
  (self, (index, inserted)).

Definition pys_insert self (key : K) : PySet M * bool :=
  let '(self, (_, inserted)) := pys_insert_full self key in (self, inserted).

Definition pys_extend self (keys : list K) : PySet M :=
  foldl (λ self key, (pys_insert self key).1) self keys.

Definition pys_from_iter (keys : list K) : PySet M := pys_extend pys_default keys.

(** *** Provenance *)

Definition pys_prepare_removal_history self : PySet M :=
  match pys_python_hash_mutation_journal self with
  | None => pys_set_journal (Some []) self
  | Some _ => self
  end.

Definition pys_prepare_cpython_merge self (additional_used : Z) : res (PySet M) :=
  if additional_used =? 0 then Ok self
  else
    let self := pys_prepare_removal_history self in
    journal ← expect (pys_python_hash_mutation_journal self);
    Ok (pys_set_journal (Some (smj_record_merge journal additional_used)) self).

Definition pys_finish_cpython_difference_update self : res (PySet M) :=
  let self := pys_prepare_removal_history self in
  journal ← expect (pys_python_hash_mutation_journal self);
  Ok (pys_set_journal (Some (smj_record_difference_cleanup journal)) self).

(** *** Removal *)

Definition pys_shift_remove_index self (index : nat) : res (PySet M * option K) :=
  match pys_keys self !! index with
  | None => Ok (self, None)
  | Some _ =>
      let self := pys_prepare_removal_history self in
      let '(entries, removed) := is_shift_remove_index (pys_entries self) index in
      match removed with
      | None => Ok (pys_set_entries entries self, None)
      | Some removed =>
          let self := pys_set_entries entries self in
          journal ← expect (pys_python_hash_mutation_journal self);
          journal ← smj_record_removed journal (Z.of_nat index) removed;
          Ok (pys_set_journal (Some journal) self, Some removed)
      end
  end.

Definition pys_shift_remove self (key : K) : res (PySet M * bool) :=
  match is_get_index_of (pys_entries self) key with
  | None => Ok (self, false)
  | Some index =>
      '(self, removed) ← pys_shift_remove_index self index;
      Ok (self, bool_decide (is_Some removed))
  end.

Definition pys_pop self : res (PySet M * option K) :=
  match length (pys_keys self) with
  | O => Ok (self, None)
  | S index => pys_shift_remove_index self index
  end.

(** The positions and hashes of what [keep] rejects; [keep] is called once per
    key and is taken without side effects. *)
Definition pys_removals (keep : K → bool) (keys : list K) : list (nat * Z) :=
  omap (λ '(index, key), if keep key then None else Some (index, pk_hash key)) (enumerate keys).

(** The closure given to [IndexSet::retain]: its state is the remaining
    removals and the index. *)
Definition pys_retain_step (st : list (nat * Z) * nat) (_ : K) : (list (nat * Z) * nat) * bool :=
  let '(removals, index) := st in
  let remove := match removals with (position, _) :: _ => (position =? index)%nat | [] => false end in
  ((if remove then tail removals else removals, S index), negb remove).

Definition pys_retain self (keep : K → bool) : res (PySet M) :=
  let removals := pys_removals keep (pys_keys self) in
  match removals with
  | [] => Ok self
  | _ =>
      let self := pys_prepare_removal_history self in
      journal ← expect (pys_python_hash_mutation_journal self);
      journal ← rfold (λ journal '(position, python_hash),
                         smj_record_removed_hash journal (Z.of_nat position) python_hash)
                  journal (reverse removals);
      let self := pys_set_journal (Some journal) self in
      let '(entries, (removals, _)) := is_retain _ pys_retain_step (removals, 0%nat) (pys_entries self) in
      _ ← rassert (bool_decide (removals = []));
      Ok (pys_set_entries entries self)
  end.

Definition pys_clear self : PySet M :=
  {| pys_entries := is_empty_set; pys_python_hash_initial_table_size := SET_PROBE_MINSIZE;
     pys_python_hash_mutation_journal := None |}.

(** *** Copy *)

(** Insert the active keys of a table of [source] into a presized set. *)
Definition pys_copy_active (source : PySet M) (source_table : PySetProbeSnapshot) (table_size : Z) :
    res (PySet M) :=
  keys ← sps_active_keys source_table (pys_keys source);
  Ok (foldl (λ copied key, (pys_insert copied key).1) (pys_with_python_table_size table_size) keys).

Definition pys_cpython_merged_copy (source : PySet M) : res (PySet M) :=
  if pys_len source =? 0 then Ok pys_default
  else
    table_size ← pys_merge_table_size (pys_len source);
    tail_only ← match pys_python_hash_mutation_journal source with
                | Some journal => smj_has_only_tail_removals journal (pys_len source)
                | None => Ok false
                end;
    match tail_only, pys_python_hash_mutation_journal source with
    | true, Some journal =>
        source_table ← smj_materialize_tail_removals journal (pys_keys source)
                         (pys_python_hash_initial_table_size source);
        pys_copy_active source source_table table_size
    | _, _ =>
        source_table ← pys_python_hash_snapshot source;
        if (table_size =? sps_table_size source_table) && negb (sps_has_dummies source_table)
        then Ok source
        else pys_copy_active source source_table table_size
    end.
End operations.

(** ** A list is an [IndexSet] *)

Section list_set.
Context {K : Type} `{ProbeKeyLaws K}.

Fixpoint find_key_index (es : list K) (k : K) : option nat :=
  match es with
  | [] => None
  | k' :: es => if pk_eqb k' k then Some 0%nat else S <$> find_key_index es k
  end.

#[export] Instance list_index_set : IndexSet K (list K) := {
  is_entries := id;
  is_empty_set := [];
  is_get_index_of := find_key_index;
  is_insert_full m k :=
    match find_key_index m k with
    | Some i => (m, (i, false))
    | None => (m ++ [k], (length m, true))
    end;
  is_shift_remove_index m i := (delete i m, m !! i);
  is_retain := λ St keep st m, retain_list keep st m;
}.

Lemma find_key_index_Some es k i :
  find_key_index es k = Some i ↔
  ∃ k', es !! i = Some k' ∧ pk_eqb k' k = true ∧
    ∀ j k2, es !! j = Some k2 → pk_eqb k2 k = true → (i ≤ j)%nat.
Proof.
  revert i. induction es as [|k0 es IH]; intros i; cbn [find_key_index].
  { split; [done|]. by intros (? & ? & _). }
  destruct (pk_eqb k0 k) eqn:He.
  - split.
    + intros [= <-]. exists k0. split_and!; [done|done|lia].
    + intros (k' & _ & _ & Hmin). specialize (Hmin 0%nat k0 eq_refl He). f_equal. lia.
  - rewrite fmap_Some. split.
    + intros (j & Hj & ->). apply IH in Hj as (k' & Hk' & He' & Hmin).
      exists k'. split_and!; [done|done|]. intros [|n] k2 Hn H2; cbn in Hn; [congruence|].
      apply le_n_S. by eapply Hmin.
    + intros (k' & Hi & He' & Hmin). destruct i as [|i]; cbn in Hi; [congruence|].
      exists i. split; [|done]. apply IH. exists k'. split_and!; [done|done|].
      intros j k2 Hj H2. apply le_S_n. by apply (Hmin (S j) k2).
Qed.

#[export] Instance list_index_set_laws : IndexSetLaws K (list K).
Proof.
  split; cbn.
  - done.
  - intros m k i. apply find_key_index_Some.
  - intros m k Hn. by rewrite Hn.
  - intros m k i Hi. by rewrite Hi.
  - done.
  - done.
Qed.
End list_set.
