(* ===== verification/PySetSpec.v ===== *)
(** A [PySet] implements an eagerly maintained CPython set table: its entries
    are the elements in insertion order, and the snapshot it can produce at
    any time is that table. *)

From S2P Require Import Prelude Probe SetIndex SetTable SetIndexSpec SetJournal SetJournalSpec PySet.

#[local] Opaque visits.

Section spec.
Context {K M : Type} `{PK : ProbeKey K} `{PKL : !ProbeKeyLaws K} `{IS : IndexSet K M}
  `{ISL : !IndexSetLaws K M}.
Implicit Types (s : PySet M) (es : list K) (k : K) (n : Z).

#[local] Abbreviation ktab := (list (sslot K)).
#[local] Abbreviation kinsert := (s_insert (pk_hash (K := K))).

(** [set_rep n s t]: after at most [n] recorded operations, the set's
    construction and journal lead to its entries and to the table [t]. *)
Definition set_rep n s (t : ktab) : Prop :=
  ∃ size es0 ms,
    pys_python_hash_initial_table_size s = Z.of_nat size ∧ set_log size ∧ distinct es0 ∧
    set_history es0 (set_built size es0) ms (pys_keys s) t ∧ vlen es0 + vlen ms ≤ n ∧
    match pys_python_hash_mutation_journal s with Some j => j = ms | None => ms = [] end.

Definition set_small n : Prop := n < 2 ^ 59.

Lemma set_rep_live n s t : set_rep n s t → set_small n → set_live (pys_keys s) t ∧ vlen (pys_keys s) ≤ n.
Proof.
  unfold set_small. intros (size & es0 & ms & _ & Hlog & Hd & Hh & Hn & _) Hs.
  pose proof (vlen_nonneg ms).
  destruct (set_history_live _ _ _ _ _ Hh) as [Hl Hlen]; [unfold set_fits; lia|apply set_built_live; [done|done|lia]|].
  split; [done|lia].
Qed.

(** The snapshot is the table, on every path. *)
Lemma snapshot_refines n s t :
  set_rep n s t → set_small n →
  ∃ table, pys_python_hash_snapshot s = Ok table ∧ snapshot_of table (pys_keys s) t.
Proof.
  unfold set_small. intros (size & es0 & ms & Hsize & Hlog & Hd & Hh & Hn & Hj) Hs.
  unfold pys_python_hash_snapshot. rewrite Hsize. pose proof (vlen_nonneg ms).
  destruct (pys_python_hash_mutation_journal s) as [j|]; subst.
  - apply (set_materialize_eager es0); [done|done|unfold set_fits; lia|done].
  - apply set_history_nil in Hh as [Heq ->]. rewrite <- Heq in *.
    destruct (with_table_size_spec size Hlog) as (table0 & -> & Hrep0). cbn [mbind res_bind].
    rewrite insert_entries_eq.
    apply insert_all; [done|done|lia|done|apply set_numbered_stands|apply set_numbered_ids|].
    eapply Forall_impl; [apply (set_numbered_below (pys_keys s)); lia|]. cbn. intros; lia.
Qed.

(** *** Insertion *)

Lemma absent_Forall s k :
  is_get_index_of (pys_entries s) k = None → Forall (λ k', pk_eqb k' k = false) (pys_keys s).
Proof.
  intros Hn. apply Forall_forall. intros k' Hk'. destruct (pk_eqb k' k) eqn:He; [|done].
  assert (Hex : ∃ i, is_get_index_of (pys_entries s) k = Some i); [|by destruct Hex as [? ?]; congruence].
  apply list_elem_of_lookup in Hk' as [j Hj]. unfold pys_keys in Hj.
  induction j as [j IH] using (well_founded_induction lt_wf) in k', Hj, He.
  destruct (decide (Exists (λ k2, pk_eqb k2 k = true) (take j (is_entries (pys_entries s))))) as [Hex|Hno].
  - apply Exists_exists in Hex as (k2 & Hk2 & He2). apply list_elem_of_lookup in Hk2 as [j2 Hj2].
    apply lookup_take_Some in Hj2 as [Hj2 Hlt]. by apply (IH j2 Hlt k2).
  - exists j. apply is_get_index_of_Some. exists k'. split_and!; [done|done|].
    intros i k2 Hi He2. destruct (le_lt_dec j i) as [|Hlt]; [done|]. destruct Hno.
    apply Exists_exists. exists k2. split; [|done].
    apply list_elem_of_lookup. exists i. by apply lookup_take_Some.
Qed.

Lemma set_insert_new n s t k :
  set_rep n s t → set_small (n + 1) → is_get_index_of (pys_entries s) k = None →
  ∃ s', pys_insert_full s k = (s', (length (pys_keys s), true)) ∧
    pys_keys s' = pys_keys s ++ [k] ∧ set_rep (n + 1) s' (kinsert t k).
Proof.
  unfold set_small. intros Hrep Hs Hnone. pose proof (absent_Forall s k Hnone) as Hf.
  destruct (is_insert_full_new _ _ Hnone) as [Hres Hent].
  unfold pys_insert_full. destruct (is_insert_full (pys_entries s) k) as [m' r]. cbn in Hres, Hent. subst r.
  destruct Hrep as (size & es0 & ms & Hsize & Hlog & Hd & Hh & Hn & Hj).
  destruct (pys_python_hash_mutation_journal s) as [j|] eqn:Hjs; subst.
  - cbn [pys_set_entries pys_python_hash_mutation_journal]. rewrite Hjs.
    eexists. split; [done|]. split; [done|]. exists size, es0, (ms ++ [sdm_inserted]).
    unfold pys_keys in *. cbn. rewrite Hent. split_and!; [done|done|done|by constructor| |done].
    rewrite vlen_app. change (vlen [_]) with 1. lia.
  - cbn [pys_set_entries pys_python_hash_mutation_journal]. rewrite Hjs.
    eexists. split; [done|]. split; [done|].
    apply set_history_nil in Hh as [Heqk ->]. rewrite <- Heqk in *.
    exists size, (pys_keys s ++ [k]), []. unfold pys_keys in *. cbn. rewrite Hjs, Hent.
    assert (Heq : set_built size (is_entries (pys_entries s) ++ [k]) =
      kinsert (set_built size (is_entries (pys_entries s))) k).
    { unfold set_built. by rewrite foldl_app. }
    rewrite <- Heq. split_and!; [done|done|by apply distinct_snoc|constructor| |done].
    rewrite vlen_app. change (vlen [k]) with 1. lia.
Qed.

Lemma set_insert_old n s t k i :
  set_rep n s t → is_get_index_of (pys_entries s) k = Some i →
  ∃ s', pys_insert_full s k = (s', (i, false)) ∧ pys_keys s' = pys_keys s ∧ set_rep n s' t.
Proof.
  intros Hrep Hi. destruct (is_insert_full_old _ _ _ Hi) as [Hres Hent].
  unfold pys_insert_full. destruct (is_insert_full (pys_entries s) k) as [m' r]. cbn in Hres, Hent. subst r.
  eexists. split; [done|]. unfold pys_keys. cbn. split; [done|].
  destruct Hrep as (size & es0 & ms & ?). exists size, es0, ms. unfold pys_keys in *. cbn. by rewrite Hent.
Qed.

(** *** The journal *)

Lemma prepare_history_rep n s t :
  set_rep n s t →
  let s' := pys_prepare_removal_history s in
  pys_keys s' = pys_keys s ∧ pys_entries s' = pys_entries s ∧
  ∃ size es0 ms,
    pys_python_hash_initial_table_size s' = Z.of_nat size ∧ set_log size ∧ distinct es0 ∧
    set_history es0 (set_built size es0) ms (pys_keys s) t ∧ vlen es0 + vlen ms ≤ n ∧
    pys_python_hash_mutation_journal s' = Some ms.
Proof.
  intros (size & es0 & ms & Hsize & Hlog & Hd & Hh & Hn & Hj). cbv zeta.
  unfold pys_prepare_removal_history. destruct (pys_python_hash_mutation_journal s) as [j|] eqn:Hjs; subst.
  - split_and!; [done|done|]. by exists size, es0, ms.
  - split_and!; [done|done|]. by exists size, es0, [].
Qed.

Lemma merge_refines_set n s t additional_used :
  set_rep n s t → 0 < additional_used < 2 ^ 59 →
  ∃ s', pys_prepare_cpython_merge s additional_used = Ok s' ∧ pys_keys s' = pys_keys s ∧
    set_rep (n + 1) s' (s_merge pk_hash t additional_used).
Proof.
  intros Hrep Ha. unfold pys_prepare_cpython_merge. destruct (Z.eqb_spec additional_used 0); [lia|].
  destruct (prepare_history_rep n s t Hrep) as (Hk & He & size & es0 & ms & Hsize & Hlog & Hd & Hh & Hn & Hj).
  rewrite Hj. cbn [expect mbind res_bind]. eexists. split; [done|]. split; [done|].
  exists size, es0, (ms ++ [sdm_merge additional_used]). unfold pys_keys. cbn. rewrite He.
  split_and!; [done|done|done|apply sh_merge; [done|lia]| |done].
  rewrite vlen_app. change (vlen [_]) with 1. lia.
Qed.

Lemma cleanup_refines_set n s t :
  set_rep n s t →
  ∃ s', pys_finish_cpython_difference_update s = Ok s' ∧ pys_keys s' = pys_keys s ∧
    set_rep (n + 1) s' (s_cleanup pk_hash t).
Proof.
  intros Hrep. unfold pys_finish_cpython_difference_update.
  destruct (prepare_history_rep n s t Hrep) as (Hk & He & size & es0 & ms & Hsize & Hlog & Hd & Hh & Hn & Hj).
  rewrite Hj. cbn [expect mbind res_bind]. eexists. split; [done|]. split; [done|].
  exists size, es0, (ms ++ [sdm_difference_cleanup]). unfold pys_keys. cbn. rewrite He.
  split_and!; [done|done|done|by apply sh_cleanup| |done].
  rewrite vlen_app. change (vlen [_]) with 1. lia.
Qed.

(** *** Removal *)

Lemma set_remove_refines n s t i k :
  set_rep n s t → set_small n → pys_keys s !! i = Some k →
  ∃ s', pys_shift_remove_index s i = Ok (s', Some k) ∧ pys_keys s' = delete i (pys_keys s) ∧
    set_rep (n + 1) s' (s_remove (same_key k) t).
Proof.
  intros Hrep Hs Hi. destruct (set_rep_live n s t Hrep Hs) as [_ Hlen]. unfold set_small in Hs.
  pose proof (lookup_lt_Some _ _ _ Hi) as Hlt.
  unfold pys_shift_remove_index. rewrite Hi.
  destruct (prepare_history_rep n s t Hrep) as (Hk & He & size & es0 & ms & Hsize & Hlog & Hd & Hh & Hn & Hj).
  rewrite He. destruct (is_shift_remove_index_spec (pys_entries s) i) as [Hres Hent].
  destruct (is_shift_remove_index (pys_entries s) i) as [m' r]. cbn in Hres, Hent. subst r.
  unfold pys_keys in Hi. rewrite Hi. cbn [pys_set_entries pys_python_hash_mutation_journal]. rewrite Hj.
  cbn [expect mbind res_bind].
  destruct (sdm_removed_word (Z.of_nat i) (pk_hash k)) as (m & Hm & _).
  { unfold vlen in Hlen. lia. }
  unfold smj_record_removed, sdm_removed. rewrite Hm. cbn [mbind res_bind].
  eexists. split; [done|]. split; [done|]. exists size, es0, (ms ++ [m]). unfold pys_keys at 1. cbn.
  rewrite Hent. split_and!; [done|done|done|by apply sh_remove| |done].
  rewrite vlen_app. change (vlen [_]) with 1. lia.
Qed.

Lemma set_remove_missing s i :
  pys_keys s !! i = None → pys_shift_remove_index s i = Ok (s, None).
Proof. intros Hi. unfold pys_shift_remove_index. by rewrite Hi. Qed.

Lemma set_shift_remove_refines n s t k :
  set_rep n s t → set_small n →
  match is_get_index_of (pys_entries s) k with
  | None => pys_shift_remove s k = Ok (s, false)
  | Some i => ∃ k' s', pys_keys s !! i = Some k' ∧ pk_eqb k' k = true ∧
      pys_shift_remove s k = Ok (s', true) ∧ pys_keys s' = delete i (pys_keys s) ∧
      set_rep (n + 1) s' (s_remove (same_key k') t)
  end.
Proof.
  intros Hrep Hs. unfold pys_shift_remove. destruct (is_get_index_of (pys_entries s) k) as [i|] eqn:Hi; [|done].
  apply is_get_index_of_Some in Hi as (k' & Hk' & He & _).
  destruct (set_remove_refines n s t i k' Hrep Hs Hk') as (s' & Hr & Hkeys & Hrep').
  exists k', s'. rewrite Hr. cbn [mbind res_bind]. done.
Qed.

Lemma set_pop_refines n s t :
  set_rep n s t → set_small n →
  match last (pys_keys s) with
  | None => pys_pop s = Ok (s, None)
  | Some k => ∃ s', pys_pop s = Ok (s', Some k) ∧ pys_keys s ≡ₚ k :: pys_keys s' ∧
      pys_keys s = pys_keys s' ++ [k] ∧ set_rep (n + 1) s' (s_remove (same_key k) t)
  end.
Proof.
  intros Hrep Hs. unfold pys_pop. destruct (pys_keys s) as [|k es _] eqn:Hes using rev_ind; [done|].
  rewrite last_snoc, length_app, Nat.add_1_r.
  destruct (set_remove_refines n s t (length es) k Hrep Hs) as (s' & Hr & Hk & Hrep').
  { rewrite Hes. by apply list_lookup_middle. }
  rewrite Hes, delete_snoc in Hk. exists s'. rewrite Hr, Hk.
  split_and!; [done|by rewrite Permutation_app_comm|done|done].
Qed.

(** *** Clearing *)

Lemma set_fresh_rep table_size size :
  Z.max table_size SET_PROBE_MINSIZE = Z.of_nat size → set_log size →
  set_rep 0 (pys_with_python_table_size (M := M) table_size) (s_empty size) ∧
  pys_keys (pys_with_python_table_size (M := M) table_size) = [].
Proof.
  intros Hmax Hlog. split.
  - exists size, [], []. unfold pys_keys. cbn. rewrite is_entries_empty.
    split_and!; [done|done|done|constructor|done|done].
  - apply is_entries_empty.
Qed.

Lemma set_log_8 : set_log 8.
Proof. exists 3. done. Qed.

Lemma set_clear_rep s : set_rep 0 (pys_clear s) (s_empty 8) ∧ pys_keys (pys_clear s) = [].
Proof. apply (set_fresh_rep 8 8 eq_refl set_log_8). Qed.

(** *** Retaining *)

Definition kept (keep : K → bool) es : list K := filter (λ k, keep k = true) es.
Definition dropped (keep : K → bool) es : list K := filter (λ k, keep k = false) es.

Lemma removals_snoc keep es k :
  pys_removals keep (es ++ [k]) =
  pys_removals keep es ++ (if keep k then [] else [(length es, pk_hash k)]).
Proof.
  unfold pys_removals. rewrite enumerate_snoc, omap_app. cbn. by destruct (keep k).
Qed.

Lemma kept_snoc keep es k : kept keep (es ++ [k]) = kept keep es ++ (if keep k then [k] else []).
Proof.
  unfold kept. rewrite filter_app. f_equal. rewrite filter_cons. destruct (keep k); [by rewrite decide_True|by rewrite decide_False].
Qed.

Lemma dropped_snoc keep es k : dropped keep (es ++ [k]) = dropped keep es ++ (if keep k then [] else [k]).
Proof.
  unfold dropped. rewrite filter_app. f_equal. rewrite filter_cons. destruct (keep k); [by rewrite decide_False|by rewrite decide_True].
Qed.

Lemma removals_length keep es : length (pys_removals keep es) = length (dropped keep es).
Proof.
  induction es as [|k es IH] using rev_ind; [done|].
  rewrite removals_snoc, dropped_snoc, !length_app, IH. by destruct (keep k).
Qed.

(** Recording the removals from the last to the first position. *)
Lemma retain_history es0 t0 keep es tl ms t :
  set_history es0 t0 ms (es ++ tl) t → vlen es < 2 ^ 60 →
  ∃ ms',
    rfold (λ journal '(position, python_hash),
             smj_record_removed_hash journal (Z.of_nat position) python_hash)
      ms (reverse (pys_removals keep es)) = Ok ms' ∧
    set_history es0 t0 ms' (kept keep es ++ tl) (remove_all t (reverse (dropped keep es))) ∧
    vlen ms' = vlen ms + vlen (dropped keep es).
Proof.
  revert tl ms t. induction es as [|k es IH] using rev_ind; intros tl ms t Hh Hlen.
  { exists ms. split_and!; [done|done|]. unfold dropped, vlen. cbn. lia. }
  rewrite vlen_app in Hlen. change (vlen [k]) with 1 in Hlen. rewrite <- app_assoc in Hh.
  rewrite removals_snoc, kept_snoc, dropped_snoc. destruct (keep k).
  - rewrite !app_nil_r, <- app_assoc. apply IH; [done|lia].
  - rewrite app_nil_r, !reverse_snoc. cbn [rfold].
    destruct (sdm_removed_word (Z.of_nat (length es)) (pk_hash k)) as (m & Hm & _).
    { unfold vlen in Hlen. lia. }
    assert (Hs : smj_record_removed_hash ms (Z.of_nat (length es)) (pk_hash k) = Ok (ms ++ [m]))
      by (unfold smj_record_removed_hash; by rewrite Hm).
    rewrite Hs. cbn [mbind res_bind].
    assert (Hh' : set_history es0 t0 (ms ++ [m]) (es ++ tl) (s_remove (same_key k) t)).
    { rewrite <- (delete_middle' es tl k (length es) eq_refl).
      apply sh_remove; [done|by apply list_lookup_middle|done]. }
    destruct (IH tl (ms ++ [m]) _ Hh') as (ms' & -> & Hh'' & Hl'); [lia|].
    exists ms'. split_and!; [done|done|].
    rewrite Hl', !vlen_app. change (vlen [m]) with 1. change (vlen [k]) with 1. lia.
Qed.

(** The one-pass compaction keeps exactly what [keep] accepts. *)
Lemma retain_list_removals (keep : K → bool) es start :
  let removals := omap (λ '(index, key), if keep key then None else Some (index, pk_hash key))
                    (zip (seq start (length es)) es) in
  retain_list (pys_retain_step (K := K)) (removals, start) es = (kept keep es, ([], (start + length es)%nat)) ∧
  match removals with [] => True | (p, _) :: _ => (start ≤ p)%nat end.
Proof.
  revert start. induction es as [|k es IH]; intros start; cbn zeta in *.
  { cbn. by rewrite Nat.add_0_r. }
  destruct (IH (S start)) as [Hr Hp]. cbn [length seq zip zip_with omap list_omap].
  fold (zip (seq (S start) (length es)) es). unfold kept. rewrite filter_cons.
  destruct (keep k) eqn:Hk.
  - rewrite decide_True by done. cbn [retain_list pys_retain_step].
    change (list_omap _ _ ?f ?l) with (omap f l).
    set (removals := omap _ _) in *.
    assert (Hne : match removals with (position, _) :: _ => (position =? start)%nat | [] => false end = false).
    { destruct removals as [|[p h] l]; [done|]. apply Nat.eqb_neq. lia. }
    rewrite Hne. cbn [negb]. unfold kept in Hr. rewrite Hr. split; [by rewrite <- plus_n_Sm|].
    destruct removals as [|[p h] l]; [done|lia].
  - rewrite decide_False by congruence. cbn [retain_list pys_retain_step]. rewrite Nat.eqb_refl.
    cbn [negb tail]. unfold kept in Hr. rewrite Hr. split; [by rewrite <- plus_n_Sm|done].
Qed.

Lemma set_retain_refines n s t keep :
  set_rep n s t → set_small n →
  ∃ s', pys_retain s keep = Ok s' ∧ pys_keys s' = kept keep (pys_keys s) ∧
    set_rep (n + vlen (dropped keep (pys_keys s))) s' (remove_all t (reverse (dropped keep (pys_keys s)))).
Proof.
  intros Hrep Hs. destruct (set_rep_live n s t Hrep Hs) as [_ Hlen]. unfold set_small in Hs.
  unfold pys_retain. destruct (pys_removals keep (pys_keys s)) as [|r0 rl] eqn:Hrm.
  - pose proof (removals_length keep (pys_keys s)) as Hl. rewrite Hrm in Hl. symmetry in Hl.
    apply length_zero_iff_nil in Hl. exists s. rewrite Hl. split; [done|]. split.
    + unfold kept. symmetry. apply filter_all. intros k Hk.
      destruct (keep k) eqn:Hkk; [done|].
      assert (Hin : k ∈ dropped keep (pys_keys s)) by (by apply list_elem_of_filter).
      rewrite Hl in Hin. by apply not_elem_of_nil in Hin.
    + cbn. by rewrite Z.add_0_r.
  - rewrite <- Hrm. clear r0 rl Hrm.
    destruct (prepare_history_rep n s t Hrep) as (Hk & He & size & es0 & ms & Hsize & Hlog & Hd & Hh & Hn & Hj).
    rewrite Hj. cbn [expect mbind res_bind].
    rewrite <- (app_nil_r (pys_keys s)) in Hh.
    destruct (retain_history _ _ keep _ _ _ _ Hh) as (ms' & -> & Hh' & Hl'); [lia|].
    cbn [mbind res_bind]. rewrite app_nil_r in Hh'.
    destruct (is_retain_spec _ pys_retain_step (pys_removals keep (pys_keys s), 0%nat) (pys_entries s)) as [Hent Hst].
    destruct (retain_list_removals keep (pys_keys s) 0) as [Hr _].
    change (omap _ (zip (seq 0 (length (pys_keys s))) (pys_keys s))) with (pys_removals keep (pys_keys s)) in Hr.
    change (is_entries (pys_entries s)) with (pys_keys s) in Hent, Hst. rewrite Hr in Hent, Hst. cbn [pys_set_journal pys_entries]. rewrite He.
    destruct (is_retain _ _ _ _) as [m' [removals i]]. cbn in Hent, Hst. injection Hst as -> _.
    rewrite rassert_true by done. cbn [mbind res_bind]. eexists. split; [done|].
    match goal with |- pys_keys ?s' = _ ∧ _ => change (pys_keys s') with (is_entries m'); rewrite Hent end.
    split; [done|]. exists size, es0, ms'.
    match goal with |- context [set_history _ _ _ (pys_keys ?s')] =>
      change (pys_keys s') with (is_entries m'); rewrite Hent end.
    split_and!; [done|done|done|done|lia|done].
Qed.

(** *** Extending *)

Lemma set_rep_weaken n m s t : n ≤ m → set_rep n s t → set_rep m s t.
Proof.
  intros Hnm (size & es0 & ms & ? & ? & ? & ? & ? & ?). exists size, es0, ms. split_and!; try done. lia.
Qed.

(** One step of [extend] on the elements and on the table. *)
Definition add_key (st : list K * ktab) k : list K * ktab :=
  if existsb (λ k', pk_eqb k' k) st.1 then st else (st.1 ++ [k], kinsert st.2 k).

Lemma get_index_existsb s k :
  existsb (λ k', pk_eqb k' k) (pys_keys s) = bool_decide (is_Some (is_get_index_of (pys_entries s) k)).
Proof.
  destruct (is_get_index_of (pys_entries s) k) as [i|] eqn:Hi.
  - rewrite bool_decide_true by (by eexists). apply existsb_exists.
    apply is_get_index_of_Some in Hi as (k' & Hk' & He & _). exists k'. split; [|done].
    apply list_elem_of_In. by eapply list_elem_of_lookup_2.
  - rewrite bool_decide_false by (intros [? ?]; congruence). pose proof (absent_Forall s k Hi) as Hf.
    apply not_true_iff_false. intros (k' & Hk' & He)%existsb_exists.
    rewrite Forall_forall in Hf. apply list_elem_of_In in Hk'. rewrite (Hf k' Hk') in He. done.
Qed.

Lemma set_extend_refines ks n s t :
  set_rep n s t → set_small (n + vlen ks) →
  set_rep (n + vlen ks) (pys_extend s ks) (foldl add_key (pys_keys s, t) ks).2 ∧
  pys_keys (pys_extend s ks) = (foldl add_key (pys_keys s, t) ks).1.
Proof.
  revert n s t. induction ks as [|k ks IH]; intros n s t Hrep Hs.
  { cbn. split; [by rewrite Z.add_0_r|done]. }
  rewrite vlen_cons in *. unfold set_small in Hs. pose proof (vlen_nonneg ks).
  unfold pys_extend. cbn [foldl]. fold (pys_extend (pys_insert s k).1 ks).
  unfold add_key at 2 4. cbn [fst snd]. rewrite get_index_existsb. unfold pys_insert.
  replace (n + (1 + vlen ks)) with (n + 1 + vlen ks) in * by lia.
  destruct (is_get_index_of (pys_entries s) k) as [i|] eqn:Hi.
  - destruct (set_insert_old n s t k i Hrep Hi) as (s' & -> & Hk & Hrep'). cbn [fst].
    rewrite bool_decide_true, <- Hk by (by eexists). apply IH; [|done].
    eapply set_rep_weaken; [|done]. lia.
  - destruct (set_insert_new n s t k Hrep) as (s' & -> & Hk & Hrep'); [unfold set_small; lia|done|]. cbn [fst].
    rewrite bool_decide_false, <- Hk by (intros [? ?]; congruence). by apply IH.
Qed.

(** *** Copies *)

Definition no_dummies (t : ktab) : Prop := SDummy ∉ t.

Lemma no_dummies_last t h : no_dummies t → s_last_dummy t h = None.
Proof.
  intros Hn. unfold s_last_dummy.
  destruct (filter (λ v, is_dummy t v = true) (s_prefix t h)) as [|v l] eqn:Hf; [done|].
  assert (Hv : v ∈ filter (λ v, is_dummy t v = true) (s_prefix t h)) by (rewrite Hf; by left).
  apply list_elem_of_filter in Hv as [Hv _]. unfold is_dummy in Hv.
  destruct (s_at t v) as [[]|] eqn:Hs; try done. destruct Hn. by eapply list_elem_of_lookup_2.
Qed.

(** Inserting few enough keys into an empty table is placing them. *)
Lemma clean_build size es :
  set_log size → 5 * vlen es < 3 * (Z.of_nat size - 1) →
  set_built size es = foldl (s_place pk_hash) (s_empty size) es ∧ no_dummies (set_built size es) ∧
  s_ok pk_hash (set_built size es) ∧ s_fill (set_built size es) = vlen es ∧
  length (set_built size es) = size.
Proof.
  intros Hlog. unfold set_built. induction es as [|k es IH] using rev_ind; intros Hroom.
  { cbn [foldl]. split_and!; [done| |by apply s_empty_ok|by rewrite s_empty_fill|by apply length_replicate].
    intros Hin. apply elem_of_replicate in Hin as [? _]. done. }
  rewrite vlen_app in Hroom |- *. change (vlen [k]) with 1 in *.
  destruct IH as (Heq & Hnd & Hok & Hf & Hl); [lia|]. rewrite !foldl_app. cbn [foldl].
  rewrite <- Heq. set (t := foldl kinsert (s_empty size) es) in *.
  destruct (s_place_ok pk_hash t k Hok (hash_ok k)) as (Hok' & _ & Hf' & Hl').
  { unfold vlen at 1. rewrite Hl. lia. }
  assert (Hins : kinsert t k = s_place pk_hash t k).
  { unfold s_insert. rewrite no_dummies_last by done. cbv zeta. rewrite Hf'.
    unfold s_mask, vlen at 1. rewrite Hl', Hl.
    by destruct (Z.ltb_spec (5 * (s_fill t + 1)) (3 * (Z.of_nat size - 1))); [|lia]. }
  rewrite Hins. split_and!; [done| |done|lia|congruence].
  unfold s_place. destruct (s_first_empty t (pk_hash k)) as [v|]; [|done].
  intros (i & Hi)%list_elem_of_lookup. unfold s_put in Hi.
  apply list_lookup_insert_Some in Hi as [(_ & ? & _)|[_ Hi]]; [done|].
  apply Hnd. by eapply list_elem_of_lookup_2.
Qed.

Lemma add_keys_distinct es ks (t : ktab) :
  distinct (es ++ ks) → foldl add_key (es, t) ks = (es ++ ks, foldl kinsert t ks).
Proof.
  revert es t. induction ks as [|k ks IH]; intros es t Hd; [by rewrite app_nil_r|].
  cbn [foldl]. unfold add_key at 2. cbn [fst snd].
  destruct (distinct_fresh es k ks Hd) as [Hf _].
  assert (Hex : existsb (λ k', pk_eqb k' k) es = false).
  { apply not_true_iff_false. intros (k' & Hk' & He)%existsb_exists.
    rewrite Forall_forall in Hf. apply list_elem_of_In in Hk'. by rewrite (Hf k' Hk') in He. }
  rewrite Hex, IH by (by rewrite <- app_assoc). by rewrite <- app_assoc.
Qed.

(** The presized table of CPython's [set_merge] into an empty set. *)
Definition merge_size (len : Z) : nat := if 21 <=? 5 * len then set_size_for (2 * len) else 8.

Lemma merge_size_spec len :
  0 ≤ len < 2 ^ 59 →
  pys_merge_table_size len = Ok (Z.of_nat (merge_size len)) ∧ set_log (merge_size len) ∧
  5 * len < 3 * (Z.of_nat (merge_size len) - 1).
Proof.
  intros Hl. unfold pys_merge_table_size, merge_size, saturating_mul, SET_PROBE_MINSIZE.
  assert (Hm : 2 ^ 59 * 5 < usize_max) by done. rewrite !Z.min_r by lia.
  rewrite (Z.mul_comm len 5), (Z.mul_comm len 2). change ((8 - 1) * 3) with 21.
  destruct (Z.leb_spec 21 (5 * len)).
  - rewrite table_size_for_minused_spec by lia. split_and!; [done|apply set_size_log; lia|].
    destruct (set_size_gt (2 * len)); [lia|]. lia.
  - split_and!; [done|apply set_log_8|]. lia.
Qed.

Lemma copy_active_refines s t table :
  snapshot_of table (pys_keys s) t → set_live (pys_keys s) t → vlen (pys_keys s) < 2 ^ 59 →
  let size := merge_size (vlen (pys_keys s)) in
  ∃ s', pys_copy_active s table (Z.of_nat size) = Ok s' ∧ pys_keys s' = s_live t ∧
    set_rep (vlen (pys_keys s)) s' (foldl (s_place pk_hash) (s_empty size) (s_live t)).
Proof.
  intros Hsnap (Hwf & Hp & Hd) Hlen size. pose proof (vlen_nonneg (pys_keys s)).
  destruct (merge_size_spec (vlen (pys_keys s))) as (_ & Hlog & Hroom); [lia|]. fold size in Hlog, Hroom.
  destruct (snapshot_client table _ t 0 Hsnap) as [Hact _]; [done|].
  unfold pys_copy_active. rewrite Hact. cbn [mbind res_bind].
  assert (Hvl : vlen (s_live t) = vlen (pys_keys s)) by (unfold vlen; by rewrite Hp).
  destruct (set_fresh_rep (Z.of_nat size) size) as [Hrep0 Hk0]; [|done|].
  { pose proof (set_log_bound _ Hlog). unfold SET_PROBE_MINSIZE. lia. }
  destruct (set_extend_refines (s_live t) 0 _ _ Hrep0) as [Hrep Hk]; [unfold set_small; lia|].
  rewrite Hk0, add_keys_distinct in Hrep, Hk by (cbn; by eapply distinct_perm).
  eexists. split; [done|]. cbn [fst snd app] in Hrep, Hk. unfold pys_extend in Hk, Hrep. split; [exact Hk|].
  rewrite Hvl, Z.add_0_l in Hrep. rewrite <- Hvl in Hroom.
  destruct (clean_build size (s_live t) Hlog Hroom) as [Heq _]. unfold set_built in Heq. by rewrite <- Heq.
Qed.

(** Tail removals leave dummies behind. *)
Lemma remove_all_counts (t : ktab) ks :
  s_fill (remove_all t ks) = s_fill t ∧ s_used (remove_all t ks) ≤ s_used t.
Proof.
  revert t. induction ks as [|k ks IH]; intros t; [done|]. cbn.
  destruct (IH (s_remove (same_key k) t)) as [Hf Hu]. rewrite s_fill_remove in Hf. split; [done|].
  etrans; [exact Hu|]. unfold s_used, vlen. rewrite s_live_remove.
  pose proof (length_filter (λ k', same_key k k' = false) (s_live t)). lia.
Qed.

Lemma tail_only_dummies n s t journal :
  set_rep n s t → set_small n → pys_python_hash_mutation_journal s = Some journal →
  ∃ b, smj_has_only_tail_removals journal (vlen (pys_keys s)) = Ok b ∧
    (b = true → s_fill t ≠ s_used t).
Proof.
  intros Hrep Hs Hjs. destruct (set_rep_live n s t Hrep Hs) as [Hl Hlen]. unfold set_small in Hs.
  destruct Hrep as (size & es0 & ms & _ & Hlog & Hd & Hh & Hn & Hj). rewrite Hjs in Hj. subst journal.
  pose proof (vlen_nonneg es0). pose proof (vlen_nonneg ms).
  assert (Hl0 : set_live es0 (set_built size es0)) by (apply set_built_live; [done|done|lia]).
  destruct (has_only_tail_spec ms (vlen (pys_keys s))) as (b & Hb & Ht); [apply vlen_nonneg|lia|].
  exists b. split; [done|]. intros ->. specialize (Ht eq_refl).
  destruct (tail_history _ _ _ _ _ Hh) as (ks & Heq & Hms & ->); [unfold set_fits; lia|done|done|].
  destruct ms as [|m ms]; [done|]. pose proof (Forall2_length _ _ _ Hms) as Hlk. rewrite length_reverse in Hlk.
  destruct (remove_all_counts (set_built size es0) (reverse ks)) as [-> _].
  pose proof (set_live_used _ _ Hl) as Hu. rewrite Hu.
  pose proof (set_live_used _ _ Hl0) as Hu0. pose proof (used_le_fill (set_built size es0)) as Huf.
  assert (Hv : vlen es0 = vlen (pys_keys s) + vlen ks) by (rewrite Heq at 1; apply vlen_app).
  rewrite Hu0, Hv in Huf. unfold vlen in *. cbn in Hlk. lia.
Qed.

(** The merged copy keeps a layout of the right size without dummies, and
    otherwise places the elements in slot order in a presized table. *)
Lemma merged_copy_refines n s t :
  set_rep n s t → set_small n → pys_keys s ≠ [] →
  let size := merge_size (vlen (pys_keys s)) in
  ∃ s', pys_cpython_merged_copy s = Ok s' ∧
    if bool_decide (length t = size ∧ s_fill t = s_used t) then s' = s
    else pys_keys s' = s_live t ∧
      set_rep (vlen (pys_keys s)) s' (foldl (s_place pk_hash) (s_empty size) (s_live t)).
Proof.
  intros Hrep Hs Hne size. destruct (set_rep_live n s t Hrep Hs) as [Hl Hlen].
  pose proof Hs as Hs'. unfold set_small in Hs'. pose proof (vlen_nonneg (pys_keys s)).
  destruct (snapshot_refines n s t Hrep Hs) as (table & Htab & Hsnap).
  destruct (copy_active_refines s t table Hsnap Hl) as (s' & Hcopy & Hk & Hrep'); [lia|]. fold size in Hcopy, Hrep'.
  destruct (merge_size_spec (vlen (pys_keys s))) as (Hms & _); [lia|]. fold size in Hms.
  destruct (snapshot_shape table _ t Hsnap) as [Hsz Hdum].
  unfold pys_cpython_merged_copy, pys_len.
  destruct (Z.eqb_spec (vlen (pys_keys s)) 0) as [Hz|_].
  { destruct Hne. unfold vlen in Hz. apply length_zero_iff_nil. lia. }
  rewrite Hms. cbn [mbind res_bind].
  assert (Hgen : ∃ s', (source_table ← pys_python_hash_snapshot s;
        if (Z.of_nat size =? sps_table_size source_table) && negb (sps_has_dummies source_table)
        then Ok s else pys_copy_active s source_table (Z.of_nat size)) = Ok s' ∧
      if bool_decide (length t = size ∧ s_fill t = s_used t) then s' = s
      else pys_keys s' = s_live t ∧
        set_rep (vlen (pys_keys s)) s' (foldl (s_place pk_hash) (s_empty size) (s_live t))).
  { rewrite Htab. cbn [mbind res_bind]. rewrite Hsz, Hdum, negb_involutive. unfold vlen at 1.
    destruct (Z.eqb_spec (Z.of_nat size) (Z.of_nat (length t))) as [Heq|Hneq];
      destruct (Z.eqb_spec (s_fill t) (s_used t)) as [Hfu|Hfu]; cbn [andb].
    - rewrite bool_decide_true by (split; [lia|done]). by exists s.
    - rewrite bool_decide_false by (by intros [_ ?]). by exists s'.
    - rewrite bool_decide_false by (intros [? _]; lia). by exists s'.
    - rewrite bool_decide_false by (intros [? _]; lia). by exists s'. }
  destruct (pys_python_hash_mutation_journal s) as [journal|] eqn:Hjs; [|exact Hgen].
  destruct (tail_only_dummies n s t journal Hrep Hs Hjs) as (b & Hb & Hd). rewrite Hb. cbn [mbind res_bind].
  destruct b; [|exact Hgen]. rewrite bool_decide_false by (intros [_ ?]; by destruct Hd).
  unfold pys_python_hash_snapshot in Htab. rewrite Hjs in Htab. unfold smj_materialize in Htab.
  rewrite Hb in Htab. cbn [mbind res_bind] in Htab. rewrite Htab. cbn [mbind res_bind]. by exists s'.
Qed.
End spec.
