(* ===== verification/SetProps.v ===== *)
(** Whole executions of a set: the operations as data, an interpreter of
    sequences of them, the elements and the table a CPython set would have,
    and the simulation of the one by the other. *)

From S2P Require Import Prelude Probe SetIndex SetTable SetIndexSpec SetJournal SetJournalSpec PySet PySetSpec.

#[local] Opaque visits.

Section trace.
Context {K M : Type} `{PK : ProbeKey K} `{PKL : !ProbeKeyLaws K} `{IS : IndexSet K M}
  `{ISL : !IndexSetLaws K M}.
Implicit Types (s : PySet M) (k : K).

(** ** Operations *)

(** [SMerge n] prepares for [n] further elements ([set.update] of a dict or a
    set) and [SCleanup] ends an in-place difference. *)
Inductive set_op : Type :=
  | SInsert (k : K)
  | SRemove (k : K)
  | SPop
  | SRetain (keep : K → bool)
  | SExtend (ks : list K)
  | SMerge (n : Z)
  | SCleanup
  | SClear.

Inductive set_result : Type :=
  | SUnit
  | SBool (b : bool)
  | SKey (k : option K).

Definition pys_exec s (op : set_op) : res (PySet M * set_result) :=
  match op with
  | SInsert k => let '(s, b) := pys_insert s k in Ok (s, SBool b)
  | SRemove k => '(s, b) ← pys_shift_remove s k; Ok (s, SBool b)
  | SPop => '(s, k) ← pys_pop s; Ok (s, SKey k)
  | SRetain keep => s ← pys_retain s keep; Ok (s, SUnit)
  | SExtend ks => Ok (pys_extend s ks, SUnit)
  | SMerge n => s ← pys_prepare_cpython_merge s n; Ok (s, SUnit)
  | SCleanup => s ← pys_finish_cpython_difference_update s; Ok (s, SUnit)
  | SClear => Ok (pys_clear s, SUnit)
  end.

Fixpoint pys_run s (ops : list set_op) : res (PySet M * list set_result) :=
  match ops with
  | [] => Ok (s, [])
  | op :: ops =>
      '(s, r) ← pys_exec s op;
      '(s, rs) ← pys_run s ops;
      Ok (s, r :: rs)
  end.

(** ** What they mean: the elements in insertion order and CPython's table *)

#[local] Abbreviation set_state := (list K * list (sslot K))%type.

Definition ss_start : set_state := ([], s_empty 8).

Definition ss_step (st : set_state) (op : set_op) : set_state * set_result :=
  let '(es, t) := st in
  match op with
  | SInsert k => (add_key st k, SBool (negb (existsb (λ k', pk_eqb k' k) es)))
  | SRemove k =>
      match find_key_index es k with
      | Some i =>
          match es !! i with
          | Some k' => ((delete i es, s_remove (same_key k') t), SBool true)
          | None => (st, SBool false)
          end
      | None => (st, SBool false)
      end
  | SPop =>
      match last es with
      | Some k => ((removelast es, s_remove (same_key k) t), SKey (Some k))
      | None => (st, SKey None)
      end
  | SRetain keep => ((kept keep es, remove_all t (reverse (dropped keep es))), SUnit)
  | SExtend ks => (foldl add_key st ks, SUnit)
  | SMerge n => ((es, s_merge pk_hash t n), SUnit)
  | SCleanup => ((es, s_cleanup pk_hash t), SUnit)
  | SClear => (ss_start, SUnit)
  end.

Fixpoint ss_run (st : set_state) (ops : list set_op) : set_state * list set_result :=
  match ops with
  | [] => (st, [])
  | op :: ops =>
      let '(st, r) := ss_step st op in
      let '(st, rs) := ss_run st ops in
      (st, r :: rs)
  end.

(** A merge announces at least one element, and a size that fits. *)
Definition set_op_ok (op : set_op) : Prop :=
  match op with SMerge n => 0 < n < 2 ^ 59 | _ => True end.

Definition set_op_cost (op : set_op) : Z :=
  match op with SExtend ks => 2 * vlen ks | _ => 2 end.

Fixpoint set_cost (ops : list set_op) : Z :=
  match ops with [] => 0 | op :: ops => set_op_cost op + set_cost ops end.

(** ** The simulation *)

(** [m] bounds the words of history and the elements together. *)
Definition set_sim (m : Z) s (st : set_state) : Prop :=
  pys_keys s = st.1 ∧ ∃ n, set_rep n s st.2 ∧ n + vlen st.1 ≤ m.

Lemma set_sim_bounds m s st : set_sim m s st → m < 2 ^ 59 → ∃ n,
  set_rep n s st.2 ∧ n + vlen st.1 ≤ m ∧ 0 ≤ n ∧ 0 ≤ vlen st.1.
Proof.
  intros (Hk & n & Hrep & Hn) Hm. exists n. pose proof (vlen_nonneg st.1). split_and!; try done.
  destruct Hrep as (size & es0 & ms & _ & _ & _ & _ & Hle & _).
  pose proof (vlen_nonneg es0). pose proof (vlen_nonneg ms). lia.
Qed.

Lemma set_index s k : is_get_index_of (pys_entries s) k = find_key_index (pys_keys s) k.
Proof. apply option_eq. intros i. by rewrite is_get_index_of_Some, find_key_index_Some. Qed.

Lemma add_key_len (ks : list K) (st : set_state) : vlen (foldl add_key st ks).1 ≤ vlen st.1 + vlen ks.
Proof.
  revert st. induction ks as [|k ks IH]; intros st; [cbn; unfold vlen; cbn; lia|]. cbn [foldl].
  rewrite vlen_cons. specialize (IH (add_key st k)).
  assert (vlen (add_key st k).1 ≤ vlen st.1 + 1); [|lia].
  unfold add_key. case_match; cbn; [lia|]. rewrite vlen_app. done.
Qed.

Lemma kept_dropped_len (keep : K → bool) es : vlen (kept keep es) + vlen (dropped keep es) = vlen es.
Proof.
  unfold kept, dropped. induction es as [|k es IH]; [done|]. rewrite !filter_cons, vlen_cons.
  destruct (keep k) eqn:Hk; [rewrite decide_True, decide_False by congruence|rewrite decide_False, decide_True by congruence];
    rewrite vlen_cons; lia.
Qed.

Lemma set_insert_step m s st k :
  set_sim m s st → m + 2 < 2 ^ 59 →
  ∃ s', pys_exec s (SInsert k) = Ok (s', (ss_step st (SInsert k)).2) ∧
        set_sim (m + 2) s' (ss_step st (SInsert k)).1.
Proof.
  intros Hsim Hm. destruct (set_sim_bounds m s st Hsim) as (n & Hrep & Hn & H0 & Hl); [lia|].
  destruct Hsim as [Hk _]. destruct st as [es t]. cbn [fst snd] in *.
  cbn [pys_exec ss_step]. unfold add_key. cbn [fst snd].
  rewrite <- Hk, get_index_existsb. unfold pys_insert.
  destruct (is_get_index_of (pys_entries s) k) as [i|] eqn:Hi.
  - rewrite bool_decide_true by (by eexists).
    destruct (set_insert_old n s t k i Hrep Hi) as (s' & -> & Hk' & Hrep').
    exists s'. split; [done|]. split; [done|]. exists n. cbn. rewrite Hk. split; [done|lia].
  - rewrite bool_decide_false by (intros [? ?]; congruence).
    destruct (set_insert_new n s t k Hrep) as (s' & -> & Hk' & Hrep'); [unfold set_small; lia|done|].
    exists s'. split; [done|]. split; [done|]. exists (n + 1). split; [done|]. cbn [fst].
    rewrite vlen_app, Hk. change (vlen [k]) with 1. lia.
Qed.

Lemma set_removal_steps m s st op :
  (op = SPop ∨ ∃ k, op = SRemove k) → set_sim m s st → m + 2 < 2 ^ 59 →
  ∃ s', pys_exec s op = Ok (s', (ss_step st op).2) ∧ set_sim (m + 2) s' (ss_step st op).1.
Proof.
  intros Hop Hsim Hm. destruct (set_sim_bounds m s st Hsim) as (n & Hrep & Hn & H0 & Hl); [lia|].
  assert (Hs : set_small n) by (unfold set_small; lia).
  destruct Hsim as [Hk _]. destruct st as [es t]. cbn [fst snd] in *.
  destruct Hop as [-> | [k ->]]; cbn [pys_exec ss_step].
  - pose proof (set_pop_refines n s t Hrep Hs) as Hpop. rewrite Hk in Hpop.
    destruct (last es) as [k|] eqn:Hlast.
    + destruct Hpop as (s' & -> & _ & Hk' & Hrep'). cbn [mbind res_bind]. exists s'. split; [done|].
      rewrite Hk', removelast_last. split; [done|]. exists (n + 1). split; [done|]. cbn [fst snd].
      rewrite Hk', vlen_app in Hn. change (vlen [k]) with 1 in Hn. lia.
    + rewrite Hpop. cbn [mbind res_bind]. exists s. split; [done|]. split; [done|]. exists n. split; [done|cbn;lia].
  - pose proof (set_shift_remove_refines n s t k Hrep Hs) as Hrem. rewrite set_index, Hk in Hrem.
    destruct (find_key_index es k) as [i|] eqn:Hi.
    + destruct Hrem as (k' & s' & Hi' & _ & -> & Hk' & Hrep'). rewrite Hi'. cbn [mbind res_bind].
      exists s'. split; [done|]. split; [done|]. exists (n + 1). split; [done|]. cbn [fst snd].
      unfold vlen in *. rewrite length_delete by (rewrite Hi'; eauto). lia.
    + rewrite Hrem. cbn [mbind res_bind]. exists s. split; [done|]. split; [done|]. exists n. split; [done|cbn;lia].
Qed.

Lemma set_exec_step m s st op :
  set_sim m s st → set_op_ok op → m + set_op_cost op < 2 ^ 59 →
  ∃ s', pys_exec s op = Ok (s', (ss_step st op).2) ∧ set_sim (m + set_op_cost op) s' (ss_step st op).1.
Proof.
  intros Hsim Hok Hm.
  destruct op as [k|k| |keep|ks|additional| |]; [by apply set_insert_step|apply set_removal_steps; eauto..| | | | |];
    (assert (Hm' : m < 2 ^ 59) by (revert Hm; cbn [set_op_cost]; try pose proof (vlen_nonneg ks); lia));
    destruct (set_sim_bounds m s st Hsim Hm') as (n & Hrep & Hn & H0 & Hl);
    destruct Hsim as [Hk _]; destruct st as [es t]; cbn [fst snd pys_exec ss_step set_op_cost] in *.
  - destruct (set_retain_refines n s t keep Hrep) as (s' & -> & Hk' & Hrep'); [unfold set_small; lia|].
    rewrite Hk in *. cbn [mbind res_bind]. exists s'. split; [done|]. split; [done|]. eexists. split; [done|].
    cbn [fst]. pose proof (kept_dropped_len keep es). lia.
  - pose proof (vlen_nonneg ks).
    destruct (set_extend_refines ks n s t Hrep) as [Hrep' Hk']; [unfold set_small; lia|]. rewrite Hk in *.
    eexists. split; [done|]. split; [done|]. exists (n + vlen ks). split; [done|].
    pose proof (add_key_len ks (es, t)). cbn [fst] in *. lia.
  - destruct (merge_refines_set n s t additional Hrep Hok) as (s' & -> & Hk' & Hrep').
    cbn [mbind res_bind]. exists s'. split; [done|]. split; [cbn; congruence|]. eexists. split; [done|]. cbn. lia.
  - destruct (cleanup_refines_set n s t Hrep) as (s' & -> & Hk' & Hrep').
    cbn [mbind res_bind]. exists s'. split; [done|]. split; [cbn; congruence|]. eexists. split; [done|]. cbn. lia.
  - destruct (set_clear_rep s) as [Hrep' Hk']. eexists. split; [done|]. split; [done|]. exists 0.
    split; [done|]. change (vlen ss_start.1) with 0. lia.
Qed.

Lemma set_cost_nonneg ops : 0 ≤ set_cost ops.
Proof.
  induction ops as [|op ops IH]; cbn [set_cost]; [lia|].
  destruct op as [| | | |ks| | |]; cbn [set_op_cost]; try lia. pose proof (vlen_nonneg ks). lia.
Qed.

Lemma set_run_sim ops m s st :
  set_sim m s st → Forall set_op_ok ops → m + set_cost ops < 2 ^ 59 →
  ∃ s', pys_run s ops = Ok (s', (ss_run st ops).2) ∧ set_sim (m + set_cost ops) s' (ss_run st ops).1.
Proof.
  revert m s st. induction ops as [|op ops IH]; intros m s st Hsim Hok Hm.
  { exists s. cbn. by rewrite Z.add_0_r. }
  apply Forall_cons in Hok as [Hop Hok]. cbn [set_cost] in *. pose proof (set_cost_nonneg ops).
  destruct (set_exec_step m s st op Hsim Hop) as (s1 & Hx & Hsim1); [lia|].
  cbn [pys_run ss_run]. rewrite Hx. cbn [mbind res_bind].
  destruct (ss_step st op) as [st1 r]. cbn [fst snd] in *.
  destruct (IH _ s1 st1 Hsim1 Hok) as (s2 & -> & Hsim2); [lia|]. cbn [mbind res_bind].
  rewrite <- Z.add_assoc in Hsim2. destruct (ss_run st1 ops) as [st2 rs]. by exists s2.
Qed.

Lemma set_default_sim : set_sim 0 pys_default ss_start.
Proof.
  destruct (set_clear_rep pys_default) as [Hrep Hk]. split; [apply is_entries_empty|].
  exists 0. split; [exact Hrep|done].
Qed.

(** An execution from a new set. *)
Lemma set_run_from_default ops :
  Forall set_op_ok ops → set_cost ops < 2 ^ 59 →
  ∃ s n, pys_run pys_default ops = Ok (s, (ss_run ss_start ops).2) ∧
    pys_keys s = (ss_run ss_start ops).1.1 ∧
    set_rep n s (ss_run ss_start ops).1.2 ∧ set_small n ∧ set_live (pys_keys s) (ss_run ss_start ops).1.2 ∧
    ∃ table, pys_python_hash_snapshot s = Ok table ∧
      snapshot_of table (pys_keys s) (ss_run ss_start ops).1.2.
Proof.
  intros Hok Hc. destruct (set_run_sim ops 0 _ _ set_default_sim Hok) as (s & Hrun & Hsim); [lia|].
  pose proof Hsim as [Hk _].
  destruct (set_sim_bounds _ _ _ Hsim) as (n & Hrep & Hn & _ & ?); [lia|].
  assert (Hs : set_small n) by (unfold set_small; lia).
  exists s, n. split_and!; try done; [by eapply set_rep_live|by eapply snapshot_refines].
Qed.

End trace.

(** What the set promises: the properties of [PySet], of its deferred journal
    and of its snapshots, each with a concrete instance. *)

From S2P Require Import Concrete.

#[local] Opaque visits.

#[local] Abbreviation cset := (PySet (list ckey)).

Definition demo_set_ops : list (set_op (K := ckey)) :=
  [SInsert (CInt 1); SExtend [CInt 9; CInt 2; CObj 9]; SRemove (CInt 1); SMerge 3; SInsert (CInt 17);
   SRetain (λ k, negb (pk_is_object k)); SCleanup; SPop].

(** C12: Every execution of set operations from a new set returns without a
    panic, gives the answers of a set and leaves its elements in insertion
    order; the snapshot taken afterwards has the size of CPython's table and
    enumerates the elements in CPython's slot order. *)
Theorem set_run_refines {K M} `{ProbeKey K} `{!ProbeKeyLaws K} `{IndexSet K M} `{!IndexSetLaws K M}
    (ops : list (set_op (K := K))) :
  Forall set_op_ok ops → set_cost ops < 2 ^ 59 →
  ∃ (s : PySet M) table,
    pys_run pys_default ops = Ok (s, (ss_run ss_start ops).2) ∧
    pys_keys s = (ss_run ss_start ops).1.1 ∧
    pys_python_hash_snapshot s = Ok table ∧
    sps_table_size table = vlen (ss_run ss_start ops).1.2 ∧
    sps_active_keys table (pys_keys s) = Ok (s_live (ss_run ss_start ops).1.2).
Proof.
  intros Hok Hc. destruct (set_run_from_default ops Hok Hc) as (s & n & Hrun & Hk & _ & _ & _ & table & Ht & Hs).
  exists s, table. destruct (snapshot_shape _ _ _ Hs) as [Hsz _].
  destruct (snapshot_client _ _ _ 0 Hs) as [Ha _]; [by split|]. done.
Qed.

Lemma set_run_refines_witness :
  ∃ (s : cset) table,
    pys_run pys_default demo_set_ops = Ok (s, (ss_run ss_start demo_set_ops).2) ∧
    pys_keys s = (ss_run ss_start demo_set_ops).1.1 ∧
    pys_python_hash_snapshot s = Ok table ∧
    sps_table_size table = vlen (ss_run ss_start demo_set_ops).1.2 ∧
    sps_active_keys table (pys_keys s) = Ok (s_live (ss_run ss_start demo_set_ops).1.2).
Proof. apply set_run_refines; [by repeat constructor|done]. Defined.

(** After any such execution the candidates found by probing the snapshot
    for a hash are exactly the elements of the set with this hash. *)
Theorem set_candidates_complete {K M} `{ProbeKey K} `{!ProbeKeyLaws K} `{IndexSet K M} `{!IndexSetLaws K M}
    (ops : list (set_op (K := K))) h :
  Forall set_op_ok ops → set_cost ops < 2 ^ 59 → u64_range h →
  ∃ (s : PySet M) table cs rs,
    pys_run pys_default ops = Ok (s, rs) ∧ pys_python_hash_snapshot s = Ok table ∧
    sps_collect_candidate_keys table (pys_keys s) h = Ok cs ∧
    ∀ k, k ∈ cs ↔ k ∈ (ss_run ss_start ops).1.1 ∧ pk_hash k = h.
Proof.
  intros Hok Hc Hh.
  destruct (set_run_from_default ops Hok Hc) as (s & n & Hrun & Hk & _ & _ & Hl & table & Ht & Hs).
  destruct (snapshot_client _ _ _ h Hs Hh) as [_ Hcs]. destruct Hl as (Hwf & Hp & _).
  eexists s, table, _, _. split_and!; [done|done|done|]. intros k.
  rewrite (s_candidates_spec pk_hash _ h k Hwf), Hp. by rewrite Hk.
Qed.

Lemma set_candidates_complete_witness :
  ∃ (s : cset) table cs rs,
    pys_run pys_default demo_set_ops = Ok (s, rs) ∧ pys_python_hash_snapshot s = Ok table ∧
    sps_collect_candidate_keys table (pys_keys s) 9 = Ok cs ∧
    ∀ k, k ∈ cs ↔ k ∈ (ss_run ss_start demo_set_ops).1.1 ∧ pk_hash k = 9.
Proof. apply set_candidates_complete; [by repeat constructor|done|by split]. Defined.

(** The copy [set_merge] makes of a non-empty set shares its layout when
    that has the merged size and no dummies, and otherwise has the elements in
    slot order, in a table they were placed into one after the other. *)
Theorem merged_copy_layout {K M} `{ProbeKey K} `{!ProbeKeyLaws K} `{IndexSet K M} `{!IndexSetLaws K M}
    (ops : list (set_op (K := K))) :
  Forall set_op_ok ops → set_cost ops < 2 ^ 59 → (ss_run ss_start ops).1.1 ≠ [] →
  let t := (ss_run ss_start ops).1.2 in
  let size := merge_size (vlen (ss_run ss_start ops).1.1) in
  ∃ (s s' : PySet M) rs table,
    pys_run pys_default ops = Ok (s, rs) ∧ pys_cpython_merged_copy s = Ok s' ∧
    pys_python_hash_snapshot s' = Ok table ∧
    if bool_decide (length t = size ∧ s_fill t = s_used t) then s' = s
    else pys_keys s' = s_live t ∧
      sps_active_keys table (pys_keys s') = Ok (s_live (foldl (s_place pk_hash) (s_empty size) (s_live t))).
Proof.
  intros Hok Hc Hne t size.
  destruct (set_run_from_default ops Hok Hc) as (s & n & Hrun & Hk & Hrep & Hn & Hl & table & Ht & Hs).
  destruct (merged_copy_refines n s t Hrep Hn) as (s' & Hcopy & Hs'); [by rewrite Hk|].
  rewrite Hk in Hs'. fold size in Hs'. case_bool_decide.
  - subst s'. by eexists s, s, _, table.
  - destruct Hs' as [Hk' Hrep']. destruct (set_rep_live n s t Hrep Hn) as [_ Hlen].
    rewrite Hk in Hlen.
    destruct (snapshot_refines _ s' _ Hrep') as (table' & Ht' & Hsn'); [unfold set_small in *; lia|].
    destruct (snapshot_client _ _ _ 0 Hsn') as [Ha _]; [by split|].
    by eexists s, s', _, table'.
Qed.

Lemma merged_copy_layout_witness :
  let t := (ss_run ss_start demo_set_ops).1.2 in
  let size := merge_size (vlen (ss_run ss_start demo_set_ops).1.1) in
  ∃ (s s' : cset) rs table,
    pys_run pys_default demo_set_ops = Ok (s, rs) ∧ pys_cpython_merged_copy s = Ok s' ∧
    pys_python_hash_snapshot s' = Ok table ∧
    if bool_decide (length t = size ∧ s_fill t = s_used t) then s' = s
    else pys_keys s' = s_live t ∧
      sps_active_keys table (pys_keys s') = Ok (s_live (foldl (s_place pk_hash) (s_empty size) (s_live t))).
Proof. apply (merged_copy_layout demo_set_ops); [by repeat constructor|done|by vm_compute]. Defined.

(** The snapshot rebuilt from a deferred journal lays the elements out as
    the table that applied every insertion, deletion, merge and cleanup at
    once. *)
Theorem set_journal_materializes_eagerly {K} `{ProbeKey K} `{!ProbeKeyLaws K} (es0 : list K) ms es t size :
  set_log size → distinct es0 → set_fits es0 ms → set_history es0 (set_built size es0) ms es t →
  ∃ table, smj_materialize ms es (Z.of_nat size) = Ok table ∧
    sps_table_size table = vlen t ∧ sps_active_keys table es = Ok (s_live t).
Proof.
  intros Hlog Hd Hfit Hh. destruct (set_materialize_eager es0 ms es t size Hlog Hd Hfit Hh) as (table & Hm & Hs).
  exists table. destruct (snapshot_shape _ _ _ Hs) as [Hsz _].
  destruct (snapshot_client _ _ _ 0 Hs) as [Ha _]; [by split|]. done.
Qed.

Lemma set_journal_materializes_eagerly_witness :
  ∃ m, sdm_removed 0 (CInt 5) = Ok m ∧ ∃ table,
    smj_materialize [m] [CInt 6] 8 = Ok table ∧
    sps_table_size table = vlen (s_remove (same_key (CInt 5)) (set_built 8 [CInt 5; CInt 6])) ∧
    sps_active_keys table [CInt 6] = Ok (s_live (s_remove (same_key (CInt 5)) (set_built 8 [CInt 5; CInt 6]))).
Proof.
  eexists. split; [reflexivity|].
  eapply (set_journal_materializes_eagerly [CInt 5; CInt 6] _ [CInt 6] _ 8).
  - apply set_log_8.
  - by apply (distinct_snoc [CInt 5]); [intros [|[|]] [|[|]]|repeat constructor].
  - by vm_compute.
  - by apply (sh_remove _ _ [] [CInt 5; CInt 6] _ 0 (CInt 5)); [constructor|..].
Defined.

(** The packed word of a deferred set deletion decodes to the position,
    the kind and the hash it was made of. *)
Theorem set_mutation_word_round_trip position h :
  0 ≤ position < 2 ^ 62 →
  ∃ m, sdm_removed_hash position h = Ok m ∧ sdm_python_hash m = h ∧
    sdm_kind m = SET_MUTATION_REMOVE ∧ sdm_position m = position.
Proof. apply sdm_removed_word. Qed.

Lemma set_mutation_word_round_trip_witness :
  ∃ m, sdm_removed_hash 77 5 = Ok m ∧ sdm_python_hash m = 5 ∧
    sdm_kind m = SET_MUTATION_REMOVE ∧ sdm_position m = 77.
Proof. by apply set_mutation_word_round_trip. Defined.
