(* ===== verification/LruLinks.v ===== *)
(** The recency list behind a bounded [functools.lru_cache]
    (crates/pyrust/src/builtin_modules/bodies/functools/lru_links.inc.rs):
    a doubly linked list threaded through a vector of nodes, with a stack of
    vacant positions.  The code model, then [lru_rep], the predicate that ties
    the vector to the sequence of live nodes from the least to the most
    recently used, and what every operation does to that sequence. *)

From S2P Require Import Prelude.

Module LruLinks.

Section links.
Context {K : Type}.

(** ** Data *)

Record LruNode := {
  key : K;
  previous : option nat;
  next : option nat;
}.

Record LruLinks := {
  nodes : list (option LruNode);
  free : list nat;
  head : option nat;
  tail : option nat;
}.

Definition default : LruLinks := {| nodes := []; free := []; head := None; tail := None |}.

Definition set_next (n : LruNode) (i : option nat) : LruNode :=
  {| key := key n; previous := previous n; next := i |}.
Definition set_previous (n : LruNode) (i : option nat) : LruNode :=
  {| key := key n; previous := i; next := next n |}.

Definition with_nodes (l : LruLinks) (ns : list (option LruNode)) : LruLinks :=
  {| nodes := ns; free := free l; head := head l; tail := tail l |}.
Definition with_free (l : LruLinks) (f : list nat) : LruLinks :=
  {| nodes := nodes l; free := f; head := head l; tail := tail l |}.
Definition with_head (l : LruLinks) (h : option nat) : LruLinks :=
  {| nodes := nodes l; free := free l; head := h; tail := tail l |}.
Definition with_tail (l : LruLinks) (t : option nat) : LruLinks :=
  {| nodes := nodes l; free := free l; head := head l; tail := t |}.

(** ** Operations *)

(** [if let Some(i) = at && let Some(node) = self.nodes[i].as_mut()
    { f(node) } else { otherwise }]: the index is checked, a vacant position
    takes the [else] branch. *)
Definition update_or (l : LruLinks) (at_ : option nat) (f : LruNode → LruNode)
    (otherwise : LruLinks → LruLinks) : res LruLinks :=
  match at_ with
  | Some i =>
      n ← vnth (nodes l) i;
      match n with
      | Some node => Ok (with_nodes l (<[i := Some (f node)]> (nodes l)))
      | None => Ok (otherwise l)
      end
  | None => Ok (otherwise l)
  end.

(** [self.free.pop()], or a new vacant position at the end. *)
Definition take_position (l : LruLinks) : LruLinks * nat :=
  match last (free l) with
  | Some index => (with_free l (removelast (free l)), index)
  | None => (with_nodes l (nodes l ++ [None]), length (nodes l))
  end.

Definition insert_mru (l : LruLinks) (k : K) : res (LruLinks * nat) :=
  let '(l, index) := take_position l in
  ns ← vset (nodes l) index (Some {| key := k; previous := tail l; next := None |});
  let l := with_nodes l ns in
  l ← update_or l (tail l) (λ node, set_next node (Some index)) (λ l, with_head l (Some index));
  Ok (with_tail l (Some index), index).

Definition promote (l : LruLinks) (index : nat) : res LruLinks :=
  if decide (tail l = Some index) then Ok l
  else
    match mjoin (nodes l !! index) with
    | None => Ok l
    | Some node =>
        let prev := previous node in
        let nxt := next node in
        l ← update_or l prev (λ node, set_next node nxt) (λ l, with_head l nxt);
        l ← update_or l nxt (λ node, set_previous node prev) id;
        l ← update_or l (tail l) (λ node, set_next node (Some index)) id;
        l ← update_or l (Some index)
              (λ node, {| key := key node; previous := tail l; next := None |}) id;
        Ok (with_tail l (Some index))
    end.

Definition remove (l : LruLinks) (index : nat) : res (LruLinks * option K) :=
  match mjoin (nodes l !! index) with
  | None => Ok (l, None)
  | Some node =>
      let l := with_nodes l (<[index := None]> (nodes l)) in
      l ← update_or l (previous node) (λ n, set_next n (next node))
            (λ l, with_head l (next node));
      l ← update_or l (next node) (λ n, set_previous n (previous node))
            (λ l, with_tail l (previous node));
      Ok (with_free l (free l ++ [index]), Some (key node))
  end.

Definition pop_lru (l : LruLinks) : res (LruLinks * option K) :=
  match head l with
  | None => Ok (l, None)
  | Some h => remove l h
  end.

Definition clear (l : LruLinks) : LruLinks :=
  {| nodes := []; free := []; head := None; tail := None |}.

(** ** The sequence a list of nodes represents *)

Definition first_or (s : list (nat * K)) (o : option nat) : option nat :=
  match s with [] => o | (i, _) :: _ => Some i end.
Definition last_or (o : option nat) (s : list (nat * K)) : option nat :=
  match last s with None => o | Some (i, _) => Some i end.

(** [seg ns p s n]: the nodes at the positions of [s], in its order, are
    linked to each other, to [p] before them and to [n] after them. *)
Fixpoint seg (ns : list (option LruNode)) (p : option nat) (s : list (nat * K)) (n : option nat) : Prop :=
  match s with
  | [] => True
  | (i, k) :: s =>
      ns !! i = Some (Some {| key := k; previous := p; next := first_or s n |}) ∧
      seg ns (Some i) s n
  end.

Record lru_rep (l : LruLinks) (s : list (nat * K)) : Prop := {
  lru_seg : seg (nodes l) None s None;
  lru_head : head l = first_or s None;
  lru_tail : tail l = last_or None s;
  lru_positions : s.*1 ++ free l ≡ₚ seq 0 (length (nodes l));
  lru_vacant : ∀ i, i ∈ free l → nodes l !! i = Some None;
}.

(** ** Segments *)

Lemma first_or_app s1 s2 o : first_or (s1 ++ s2) o = first_or s1 (first_or s2 o).
Proof. by destruct s1 as [|[??]?]. Qed.

Lemma last_or_snoc o s i k : last_or o (s ++ [(i, k)]) = Some i.
Proof. unfold last_or. by rewrite last_snoc. Qed.

Lemma last_or_cons o i k s : last_or o ((i, k) :: s) = last_or (Some i) s.
Proof.
  destruct s as [|x s _] using rev_ind; [done|].
  unfold last_or. by rewrite app_comm_cons, !last_snoc.
Qed.

Lemma last_or_app o s1 s2 : last_or o (s1 ++ s2) = last_or (last_or o s1) s2.
Proof.
  destruct s2 as [|[i k] s2 _] using rev_ind; [by rewrite app_nil_r|].
  by rewrite app_assoc, !last_or_snoc.
Qed.

Lemma seg_app ns p s1 s2 n :
  seg ns p (s1 ++ s2) n ↔ seg ns p s1 (first_or s2 n) ∧ seg ns (last_or p s1) s2 n.
Proof.
  revert p. induction s1 as [|[i k] s1 IH]; intros p; [cbn; tauto|].
  cbn [app seg]. rewrite IH, first_or_app, last_or_cons. tauto.
Qed.

Lemma seg_ext ns ns' p s n :
  (∀ i, i ∈ s.*1 → ns' !! i = ns !! i) → seg ns p s n → seg ns' p s n.
Proof.
  revert p. induction s as [|[i k] s IH]; intros p He; [done|]. intros [Hi Hs].
  split; [rewrite He by (left); done|]. apply IH; [|done]. intros j Hj. apply He. by right.
Qed.

Lemma seg_lookup ns p s1 i k s2 n :
  seg ns p (s1 ++ (i, k) :: s2) n →
  ns !! i = Some (Some {| key := k; previous := last_or p s1; next := first_or s2 n |}).
Proof. rewrite seg_app. by intros (_ & Hi & _). Qed.

(** What two updates of links leave alone: the vector keeps its length and the
    positions outside the segment their nodes. *)
Definition same_outside (s : list (nat * K)) (ns ns' : list (option LruNode)) : Prop :=
  length ns' = length ns ∧ ∀ j, j ∉ s.*1 → ns' !! j = ns !! j.

Lemma update_node l i node f other :
  nodes l !! i = Some (Some node) →
  update_or l (Some i) f other = Ok (with_nodes l (<[i := Some (f node)]> (nodes l))).
Proof. intros Hi. unfold update_or. by rewrite (vnth_lookup _ _ _ Hi). Qed.

(** Redirecting the link out of the end of a segment. *)
Lemma update_last l p s n n' other :
  seg (nodes l) p s n → NoDup s.*1 →
  (s = [] → p = None) →
  ∃ ns, update_or l (last_or p s) (λ node, set_next node n') other =
          Ok (if s is [] then other l else with_nodes l ns) ∧
        seg ns p s n' ∧ same_outside s (nodes l) ns.
Proof.
  intros Hs Hnd Hp. destruct s as [|[i k] s _] using rev_ind.
  { exists (nodes l). rewrite Hp by done. done. }
  rewrite last_or_snoc.
  pose proof (seg_lookup _ _ _ _ _ [] _ Hs) as Hi.
  rewrite (update_node _ _ _ _ _ Hi). eexists. split; [by destruct s as [|[??]?]|].
  rewrite fmap_app in Hnd. apply NoDup_app in Hnd as (Hnd & Hdis & _).
  apply seg_app in Hs as [Hs _]. split.
  - apply seg_app. split.
    + eapply seg_ext; [|exact Hs]. intros j Hj. apply list_lookup_insert_ne.
      intros ->. apply (Hdis j Hj). cbn. by left.
    + split; [|done]. apply list_lookup_insert_eq. by eapply lookup_lt_Some.
  - split; [by rewrite length_insert|]. intros j Hj. apply list_lookup_insert_ne.
    intros ->. apply Hj. rewrite fmap_app. apply elem_of_app. right. cbn. by left.
Qed.

(** Redirecting the link into the start of a segment. *)
Lemma update_first l p p' s n other :
  seg (nodes l) p s n → NoDup s.*1 →
  (s = [] → n = None) →
  ∃ ns, update_or l (first_or s n) (λ node, set_previous node p') other =
          Ok (if s is [] then other l else with_nodes l ns) ∧
        seg ns p' s n ∧ same_outside s (nodes l) ns.
Proof.
  intros Hs Hnd Hn. destruct s as [|[i k] s].
  { exists (nodes l). rewrite Hn by done. done. }
  destruct Hs as [Hi Hs]. cbn [first_or]. rewrite (update_node _ _ _ _ _ Hi).
  eexists. split; [done|]. cbn in Hnd. apply NoDup_cons in Hnd as [Hni Hnd]. split.
  - split; [apply list_lookup_insert_eq; by eapply lookup_lt_Some|].
    eapply seg_ext; [|exact Hs]. intros j Hj. apply list_lookup_insert_ne. by intros ->.
  - split; [by rewrite length_insert|]. intros j Hj. apply list_lookup_insert_ne.
    intros ->. apply Hj. cbn. by left.
Qed.

(** ** What each operation does to the represented sequence *)

Lemma lru_rep_NoDup l s : lru_rep l s → NoDup s.*1 ∧ NoDup (free l) ∧ ∀ i, i ∈ s.*1 → i ∉ free l.
Proof.
  intros Hr. pose proof (NoDup_seq 0 (length (nodes l))) as Hnd.
  rewrite <- (lru_positions _ _ Hr) in Hnd. apply NoDup_app in Hnd. tauto.
Qed.

Lemma lru_rep_position l s i :
  lru_rep l s → i ∈ s.*1 ∨ i ∈ free l ↔ (i < length (nodes l))%nat.
Proof. intros Hr. rewrite <- elem_of_app, (lru_positions _ _ Hr), elem_of_seq. lia. Qed.

Lemma lru_rep_live l s i node :
  lru_rep l s → nodes l !! i = Some (Some node) → i ∈ s.*1.
Proof.
  intros Hr Hi. pose proof (lookup_lt_Some _ _ _ Hi) as Hlt.
  apply (lru_rep_position _ _ _ Hr) in Hlt as [|Hf]; [done|].
  pose proof (lru_vacant _ _ Hr _ Hf). congruence.
Qed.

Lemma default_rep : lru_rep default [].
Proof. split; try done. by intros i Hi%elem_of_nil. Qed.

Lemma clear_rep l : lru_rep (clear l) [].
Proof. apply default_rep. Qed.

(** The position an insertion writes is vacant, and it is a fresh one exactly
    when every position is live. *)
Lemma take_position_spec l s :
  lru_rep l s →
  ∃ ns f index,
    take_position l = ({| nodes := ns; free := f; head := head l; tail := tail l |}, index) ∧
    ns !! index = Some None ∧ (index ∉ s.*1) ∧
    index :: s.*1 ++ f ≡ₚ seq 0 (length ns) ∧
    seg ns None s None ∧
    (∀ i, i ∈ f → ns !! i = Some None) ∧
    length ns = (length (nodes l) + (if free l is [] then 1 else 0))%nat.
Proof.
  intros Hr. pose proof (lru_rep_NoDup _ _ Hr) as (Hnd & _ & Hdis).
  pose proof (lru_positions _ _ Hr) as Hp. unfold take_position.
  destruct (free l) as [|x f _] eqn:Hf using rev_ind; cbn [last].
  - eexists _, [], (length (nodes l)). split; [by rewrite <- Hf|].
    assert (Hfresh : length (nodes l) ∉ s.*1).
    { intros Hin. apply or_introl with (B := length (nodes l) ∈ free l) in Hin.
      apply (lru_rep_position _ _ _ Hr) in Hin. lia. }
    split_and!; [by rewrite lookup_app_r, Nat.sub_diag by done|done| | | |].
    + rewrite length_app, Nat.add_1_r, seq_S, <- Hp. apply Permutation_cons_append.
    + eapply seg_ext; [|apply (lru_seg _ _ Hr)]. intros i Hi. apply lookup_app_l.
      apply (lru_rep_position _ _ _ Hr). by left.
    + by intros i Hi%elem_of_nil.
    + rewrite length_app. cbn. lia.
  - rewrite last_snoc, removelast_last. exists (nodes l), f, x. split; [done|].
    assert (Hx : x ∈ free l) by (rewrite Hf; apply elem_of_app; right; by left).
    split_and!; [by apply (lru_vacant _ _ Hr)|intros Hin; apply (Hdis x Hin); by rewrite <- Hf| | | |].
    + rewrite <- Hp. by rewrite Permutation_middle, (Permutation_app_comm f [x]).
    + apply (lru_seg _ _ Hr).
    + intros i Hi. apply (lru_vacant _ _ Hr). rewrite Hf. apply elem_of_app. by left.
    + destruct f; cbn; lia.
Qed.

(** A new key goes to the most recently used end. *)
Lemma insert_mru_spec l s k :
  lru_rep l s →
  ∃ l' index, insert_mru l k = Ok (l', index) ∧ (index ∉ s.*1) ∧ lru_rep l' (s ++ [(index, k)]) ∧
    length (nodes l') = (length (nodes l) + (if free l is [] then 1 else 0))%nat.
Proof.
  intros Hr. pose proof (lru_rep_NoDup _ _ Hr) as (Hnd & _).
  destruct (take_position_spec _ _ Hr) as (ns & f & i & Htake & Hi & His & Hp & Hseg & Hvac & Hlen).
  unfold insert_mru. rewrite Htake. cbn [nodes tail]. rewrite (vset_ok _ _ _ _ Hi).
  set (node := {| key := k; previous := tail l; next := None |}). set (ns1 := <[i := Some node]> ns).
  cbn -[update_or].
  assert (Hseg1 : seg ns1 None s None).
  { eapply seg_ext; [|exact Hseg]. intros j Hj. apply list_lookup_insert_ne. by intros ->. }
  destruct (update_last {| nodes := ns1; free := f; head := head l; tail := tail l |} None s None (Some i)
    (λ l, with_head l (Some i))) as (ns2 & Hup & Hseg2 & Hlen2 & Hsame); [done..|].
  cbn [nodes] in Hlen2, Hsame. rewrite <- (lru_tail _ _ Hr) in Hup.
  unfold with_nodes at 1. cbn [nodes free head tail]. rewrite Hup.
  cbn [mbind res_bind].
  eexists _, i. split; [done|]. split; [done|].
  assert (Hlen1 : length ns1 = length ns) by apply length_insert.
  assert (Hi2 : ns2 !! i = Some (Some node)).
  { rewrite Hsame by done. apply list_lookup_insert_eq. by eapply lookup_lt_Some. }
  assert (Hnil : s = [] → ns1 = ns2).
  { intros ->. apply list_eq. intros j. symmetry. apply Hsame. by intros Hj%elem_of_nil. }
  assert (Hf : ∀ j, j ∈ f → ns2 !! j = Some None).
  { intros j Hj. pose proof (NoDup_seq 0 (length ns)) as Hall. rewrite <- Hp in Hall.
    apply NoDup_cons in Hall as [Hif Hall]. apply NoDup_app in Hall as (_ & Hdis & _).
    rewrite Hsame by (intros Hs; by apply (Hdis j Hs)).
    unfold ns1. rewrite list_lookup_insert_ne; [by apply Hvac|].
    intros ->. apply Hif, elem_of_app. by right. }
  assert (Hend : seg ns2 None (s ++ [(i, k)]) None).
  { apply seg_app. split; [done|]. split; [|done]. by rewrite Hi2, <- (lru_tail _ _ Hr). }
  assert (Hpos : (s ++ [(i, k)]).*1 ++ f ≡ₚ seq 0 (length ns2)).
  { rewrite Hlen2, Hlen1, <- Hp, fmap_app, <- app_assoc. cbn. by rewrite <- Permutation_middle. }
  split; [|destruct s as [|[??]?]; cbn; lia].
  destruct s as [|[i0 k0] s]; [rewrite (Hnil eq_refl) in *|]; split; cbn; try done.
  - apply (lru_head _ _ Hr).
  - by rewrite app_comm_cons, last_or_snoc.
Qed.

(** Linking the neighbours of a node to each other. *)
Lemma unlink_spec l s1 i s2 other :
  seg (nodes l) None s1 (Some i) → seg (nodes l) (Some i) s2 None → NoDup (s1 ++ s2).*1 →
  ∃ ns,
    let l' := {| nodes := ns; free := free l; tail := tail l;
                 head := if s1 is [] then first_or s2 None else head l |} in
    (l ← update_or l (last_or None s1) (λ n, set_next n (first_or s2 None))
           (λ l, with_head l (first_or s2 None));
     update_or l (first_or s2 None) (λ n, set_previous n (last_or None s1)) other) =
    Ok (if s2 is [] then other l' else l') ∧
    seg ns None (s1 ++ s2) None ∧ same_outside (s1 ++ s2) (nodes l) ns.
Proof.
  intros Hs1 Hs2 Hnd. rewrite fmap_app in Hnd. apply NoDup_app in Hnd as (Hnd1 & Hdis & Hnd2).
  destruct (update_last l None s1 (Some i) (first_or s2 None)
    (λ l, with_head l (first_or s2 None))) as (ns1 & Hup1 & Hseg1 & Hlen1 & Hsame1); [done..|].
  set (l1 := {| nodes := ns1; free := free l; tail := tail l;
                head := if s1 is [] then first_or s2 None else head l |}).
  assert (Hl1 : (if s1 is [] then with_head l (first_or s2 None) else with_nodes l ns1) = l1).
  { unfold l1, with_head, with_nodes. destruct s1; [|done]. f_equal.
    apply list_eq. intros j. symmetry. apply Hsame1. by intros Hj%elem_of_nil. }
  destruct (update_first l1 (Some i) (last_or None s1) s2 None other)
    as (ns2 & Hup2 & Hseg2 & Hlen2 & Hsame2); [|done..|].
  { eapply seg_ext; [|exact Hs2]. intros j Hj. apply Hsame1. intros Hj1. by apply (Hdis j). }
  cbn [nodes l1] in Hlen2, Hsame2. exists ns2. cbv zeta. rewrite Hup1. cbn [mbind res_bind].
  rewrite Hl1, Hup2. split; [|split; [|split; [lia|]]].
  - destruct s2; [|done]. do 2 f_equal. unfold l1. f_equal.
    apply list_eq. intros j. symmetry. apply Hsame2. by intros Hj%elem_of_nil.
  - apply seg_app. split; [|done]. eapply seg_ext; [|exact Hseg1].
    intros j Hj. apply Hsame2. by apply Hdis.
  - intros j Hj. rewrite fmap_app, elem_of_app in Hj. rewrite Hsame2, Hsame1 by tauto. done.
Qed.

(** Taking out the node of a live position. *)
Lemma remove_spec l s1 i k s2 :
  lru_rep l (s1 ++ (i, k) :: s2) →
  ∃ l', remove l i = Ok (l', Some k) ∧ lru_rep l' (s1 ++ s2) ∧ length (nodes l') = length (nodes l).
Proof.
  intros Hr. pose proof (lru_rep_NoDup _ _ Hr) as (Hnd & _ & Hdis).
  pose proof (seg_lookup _ _ _ _ _ _ _ (lru_seg _ _ Hr)) as Hi.
  pose proof (lru_seg _ _ Hr) as Hseg. apply seg_app in Hseg as (Hs1 & _ & Hs2).
  rewrite fmap_app, fmap_cons in Hnd. cbn [fst] in Hnd.
  pose proof Hnd as Hnd'. rewrite <- Permutation_middle in Hnd'. apply NoDup_cons in Hnd' as [Hii Hnd'].
  unfold remove. rewrite Hi. cbn [mjoin option_join].
  destruct (unlink_spec (with_nodes l (<[i := None]> (nodes l))) s1 i s2
    (λ l, with_tail l (last_or None s1))) as (ns & Hun & Hseg & Hlen & Hsame).
  { eapply seg_ext; [|exact Hs1]. intros j Hj. apply list_lookup_insert_ne.
    intros ->. apply Hii, elem_of_app. by left. }
  { eapply seg_ext; [|exact Hs2]. intros j Hj. apply list_lookup_insert_ne.
    intros ->. apply Hii, elem_of_app. by right. }
  { by rewrite fmap_app. }
  cbn [previous next key]. cbn [nodes with_nodes free head tail] in Hlen, Hsame, Hun.
  apply bind_Ok in Hun as (l1 & Hup1 & Hup2). rewrite length_insert in Hlen.
  rewrite Hup1. cbn [mbind res_bind]. rewrite Hup2. cbn [mbind res_bind].
  eexists. split; [done|].
  assert (Hpos : (s1 ++ s2).*1 ++ free l ++ [i] ≡ₚ seq 0 (length ns)).
  { rewrite Hlen, <- (lru_positions _ _ Hr), !fmap_app, fmap_cons. solve_Permutation. }
  assert (Hvac : ∀ j, j ∈ free l ++ [i] → ns !! j = Some None).
  { intros j Hj. rewrite elem_of_app, list_elem_of_singleton in Hj. rewrite Hsame.
    - destruct Hj as [Hj | ->]; [|apply list_lookup_insert_eq; by eapply lookup_lt_Some].
      rewrite list_lookup_insert_ne; [by apply (lru_vacant _ _ Hr)|].
      intros ->. apply (Hdis j); [|done]. rewrite fmap_app. apply elem_of_app. right. by left.
    - intros Hs. destruct Hj as [Hj | ->]; [|by rewrite fmap_app in Hs].
      apply (Hdis j); [|done]. rewrite !fmap_app, elem_of_app in *. rewrite fmap_cons, elem_of_cons. tauto. }
  split; [|by destruct s2].
  assert (Hh : (if s1 is [] then first_or s2 None else head l) = first_or (s1 ++ s2) None).
  { rewrite (lru_head _ _ Hr), !first_or_app. by destruct s1 as [|[??]?]. }
  destruct s2 as [|x s2]; split; cbn [nodes free head tail with_free with_tail]; try done.
  - by rewrite app_nil_r.
  - rewrite (lru_tail _ _ Hr), !last_or_app, !last_or_cons. destruct x. by rewrite !last_or_cons.
Qed.

(** A position that holds no node is left alone. *)
Lemma remove_vacant l s i : lru_rep l s → i ∉ s.*1 → remove l i = Ok (l, None).
Proof.
  intros Hr Hi. unfold remove. destruct (nodes l !! i) as [[node|]|] eqn:Hn; [|done..].
  by pose proof (lru_rep_live _ _ _ _ Hr Hn).
Qed.

Lemma pop_lru_spec l i k s :
  lru_rep l ((i, k) :: s) →
  ∃ l', pop_lru l = Ok (l', Some k) ∧ lru_rep l' s ∧ length (nodes l') = length (nodes l).
Proof.
  intros Hr. unfold pop_lru. rewrite (lru_head _ _ Hr). apply (remove_spec l [] i k s Hr).
Qed.

Lemma pop_lru_empty l : lru_rep l [] → pop_lru l = Ok (l, None).
Proof. intros Hr. unfold pop_lru. by rewrite (lru_head _ _ Hr). Qed.

Lemma promote_vacant l s i : lru_rep l s → i ∉ s.*1 → promote l i = Ok l.
Proof.
  intros Hr Hi. unfold promote. case_decide; [done|].
  destruct (nodes l !! i) as [[node|]|] eqn:Hn; [|done..].
  by pose proof (lru_rep_live _ _ _ _ Hr Hn).
Qed.

(** A use moves the node to the most recently used end. *)
Lemma promote_spec l s1 i k s2 :
  lru_rep l (s1 ++ (i, k) :: s2) →
  ∃ l', promote l i = Ok l' ∧ lru_rep l' (s1 ++ s2 ++ [(i, k)]) ∧ length (nodes l') = length (nodes l).
Proof.
  intros Hr. pose proof (lru_rep_NoDup _ _ Hr) as (Hnd & _ & Hdis).
  rewrite fmap_app, fmap_cons in Hnd. cbn [fst] in Hnd.
  pose proof Hnd as Hnd'. rewrite <- Permutation_middle in Hnd'. apply NoDup_cons in Hnd' as [Hii Hnd'].
  rewrite <- fmap_app in Hii, Hnd'.
  pose proof (lru_tail _ _ Hr) as Htail. rewrite last_or_app, last_or_cons in Htail.
  unfold promote. case_decide as Hmru.
  { exists l. rewrite Htail in Hmru. destruct s2 as [|[j kj] s2 _] using rev_ind; [done|exfalso].
    rewrite last_or_snoc in Hmru. injection Hmru as ->. apply Hii.
    rewrite app_assoc, fmap_app. apply elem_of_app. right. by left. }
  destruct (decide (s2 = [])) as [->|Hs2]; [by rewrite Htail in Hmru|].
  pose proof (seg_lookup _ _ _ _ _ _ _ (lru_seg _ _ Hr)) as Hi. rewrite Hi.
  cbn [mjoin option_join previous next].
  pose proof (lru_seg _ _ Hr) as Hseg. apply seg_app in Hseg as (Hsg1 & _ & Hsg2).
  destruct (unlink_spec l s1 i s2 id Hsg1 Hsg2 Hnd') as (ns & Hun & Hseg & Hlen & Hsame).
  apply bind_Ok in Hun as (l1 & Hup1 & Hup2). rewrite Hup1. cbn [mbind res_bind]. rewrite Hup2.
  cbn [mbind res_bind]. destruct s2 as [|x s2']; [done|]. cbv match. set (s2 := x :: s2') in *.
  match goal with |- context [update_or ?l2 (tail ?l2)] => set (l2' := l2) end.
  assert (Ht2 : tail l2' = last_or None (s1 ++ s2)).
  { cbn [tail l2']. rewrite Htail. unfold s2. destruct x as [j kj].
    by rewrite last_or_app, !last_or_cons. }
  destruct (update_last l2' None (s1 ++ s2) None (Some i) id) as (ns3 & Hup3 & Hseg3 & Hlen3 & Hsame3);
    [done..|].
  rewrite Ht2, Hup3. cbn [mbind res_bind].
  assert (Hif : (if s1 ++ s2 is [] then id l2' else with_nodes l2' ns3) = with_nodes l2' ns3).
  { by destruct s1. }
  rewrite Hif. cbn [nodes l2'] in Hlen3, Hsame3.
  erewrite update_node by (cbn [nodes with_nodes]; rewrite Hsame3, Hsame by done; exact Hi).
  cbn [mbind res_bind key tail with_nodes nodes l2'].
  eexists. split; [done|]. cbn [nodes with_tail with_nodes]. rewrite length_insert. split; [|lia].
  rewrite app_assoc. split; cbn [nodes free head tail with_tail with_nodes].
  - apply seg_app. split.
    + eapply seg_ext; [|exact Hseg3]. intros j Hj. apply list_lookup_insert_ne. by intros ->.
    + split; [|done]. rewrite list_lookup_insert_eq; [by rewrite <- Ht2|].
      rewrite Hlen3, Hlen. by eapply lookup_lt_Some.
  - unfold l2'. cbn [head]. rewrite (lru_head _ _ Hr), !first_or_app. unfold s2.
    by destruct s1 as [|[??]?], x.
  - by rewrite last_or_snoc.
  - rewrite length_insert, Hlen3, Hlen, <- (lru_positions _ _ Hr), !fmap_app, fmap_cons. cbn. solve_Permutation.
  - intros j Hj. assert (Hjs : j ∉ (s1 ++ (i, k) :: s2).*1) by (intros Hs; by apply (Hdis j)).
    rewrite fmap_app, fmap_cons, elem_of_app, elem_of_cons in Hjs. cbn [fst] in Hjs.
    rewrite list_lookup_insert_ne by (intros <-; tauto).
    rewrite Hsame3, Hsame by (rewrite fmap_app, elem_of_app; tauto). by apply (lru_vacant _ _ Hr).
Qed.

End links.

Arguments LruNode : clear implicits.
Arguments LruLinks : clear implicits.

End LruLinks.
