(* ===== verification/LruCache.v ===== *)
(** The wrapper of [functools.lru_cache]
    (crates/pyrust/src/builtin_modules/bodies/functools.rs,
    [_lru_cache_wrapper], and functools/lru_cache.inc.rs): the cache
    dictionary, the recency list and the counters, with the calls a wrapped
    function makes back into its own wrapper.  Then an abstract cache, a
    sequence of bindings from the least to the most recently used, and the
    simulation of the wrapper by it. *)

From stdpp Require Import fin_maps gmap.
From S2P Require Import Prelude LruLinks.
Import LruLinks.

Section lru_cache.

(** The cache is a dictionary whose order is private (eviction uses
    [swap_remove]): any finite map. *)
Context {K V : Type} `{FinMap K M}.

(** ** State *)

(** What the dictionary stores: the bare result without a bound, a tuple of
    the result and the position of its node with one. *)
Inductive cache_entry : Type :=
  | Plain (value : V)
  | Linked (value : V) (node_id : Z).

Record lru_wrapper := {
  w_maxsize : option Z;
  w_cache : M cache_entry;
  w_links : LruLinks K;
  w_hits : Z;
  w_misses : Z;
}.

Definition make_lru_wrapper (maxsize : option Z) : lru_wrapper :=
  {| w_maxsize := maxsize; w_cache := ∅; w_links := default; w_hits := 0; w_misses := 0 |}.

Definition set_store (w : lru_wrapper) (c : M cache_entry) (l : LruLinks K) : lru_wrapper :=
  {| w_maxsize := w_maxsize w; w_cache := c; w_links := l; w_hits := w_hits w; w_misses := w_misses w |}.

Definition bump_hits (w : lru_wrapper) : lru_wrapper :=
  {| w_maxsize := w_maxsize w; w_cache := w_cache w; w_links := w_links w;
     w_hits := as_i64 (w_hits w + 1); w_misses := w_misses w |}.
Definition bump_misses (w : lru_wrapper) : lru_wrapper :=
  {| w_maxsize := w_maxsize w; w_cache := w_cache w; w_links := w_links w;
     w_hits := w_hits w; w_misses := as_i64 (w_misses w + 1) |}.

(** What a use of the wrapper gives. *)
Inductive outcome : Type :=
  | Returned (v : V)
  | Raised
  | Internal
  | Cleared
  | Info (hits misses : Z) (maxsize : option Z) (currsize : Z).

(** ** Operations *)

(** [None] is the internal error of a malformed entry. *)
Definition decode_cache_entry (entry : cache_entry) (bounded : bool) : option (V * option nat) :=
  match entry, bounded with
  | Plain v, false => Some (v, None)
  | Plain v, true => None
  | Linked v i, true => if 0 <=? i then Some (v, Some (Z.to_nat (as_u64 i))) else None
  | Linked v i, false => None
  end.

Definition insert_cache (w : lru_wrapper) (key : K) (value : V) : res lru_wrapper :=
  match w_cache w !! key with
  | Some _ => Ok w
  | None =>
      match w_maxsize w with
      | None => Ok (set_store w (<[key := Plain value]> (w_cache w)) (w_links w))
      | Some maxsize =>
          _ ← rassert (0 <? maxsize);
          w ← (if as_u64 maxsize <=? Z.of_nat (size (w_cache w)) then
                 '(links, evicted) ← pop_lru (w_links w);
                 Ok (match evicted with
                     | Some evicted => set_store w (delete evicted (w_cache w)) links
                     | None => set_store w (w_cache w) links
                     end)
               else Ok w);
          '(links, node_id) ← insert_mru (w_links w) key;
          Ok (set_store w (<[key := Linked value (as_i64 (Z.of_nat node_id))]> (w_cache w)) links)
      end
  end.

(** [__call__], with the key built from the arguments ([None] when building it
    raises), the effect on the wrapper of running the wrapped function
    ([call_function_expanded]) and what the function gives ([None] when it
    raises). *)
Definition lru_call (w : lru_wrapper) (key : option K) (run : lru_wrapper → res lru_wrapper)
    (result : option V) : res (lru_wrapper * outcome) :=
  if decide (w_maxsize w = Some 0) then
    w ← run (bump_misses w);
    Ok (w, match result with Some v => Returned v | None => Raised end)
  else
    match key with
    | None => Ok (w, Raised)
    | Some key =>
        match w_cache w !! key with
        | Some entry =>
            match decode_cache_entry entry (bool_decide (is_Some (w_maxsize w))) with
            | None => Ok (w, Internal)
            | Some (value, node_id) =>
                w ← (match node_id with
                     | Some node_id =>
                         if decide (w_maxsize w = Some 1) then Ok w
                         else links ← promote (w_links w) node_id;
                              Ok (set_store w (w_cache w) links)
                     | None => Ok w
                     end);
                Ok (bump_hits w, Returned value)
            end
        | None =>
            w ← run (bump_misses w);
            match result with
            | None => Ok (w, Raised)
            | Some v => w ← insert_cache w key v; Ok (w, Returned v)
            end
        end
    end.

Definition cache_clear (w : lru_wrapper) : lru_wrapper :=
  {| w_maxsize := w_maxsize w; w_cache := ∅; w_links := clear (w_links w); w_hits := 0; w_misses := 0 |}.

Definition cache_info (w : lru_wrapper) : outcome :=
  Info (w_hits w) (w_misses w) (w_maxsize w) (Z.of_nat (size (w_cache w))).

(** A use of the wrapper: a call carries the uses the wrapped function makes
    of the wrapper while it runs, in their order. *)
Inductive action : Type :=
  | Call (key : option K) (body : list action) (result : option V)
  | CacheClear
  | CacheInfo.

Fixpoint exec (w : lru_wrapper) (a : action) : res (lru_wrapper * outcome) :=
  match a with
  | Call key body result =>
      lru_call w key
        (λ w, (fix run (w : lru_wrapper) (l : list action) : res lru_wrapper :=
                 match l with
                 | [] => Ok w
                 | a :: l => '(w, _) ← exec w a; run w l
                 end) w body) result
  | CacheClear => Ok (cache_clear w, Cleared)
  | CacheInfo => Ok (w, cache_info w)
  end.

(** A sequence of uses, with what each gave. *)
Fixpoint exec_all (w : lru_wrapper) (l : list action) : res (lru_wrapper * list outcome) :=
  match l with
  | [] => Ok (w, [])
  | a :: l =>
      '(w, o) ← exec w a;
      '(w, os) ← exec_all w l;
      Ok (w, o :: os)
  end.

(** ** The abstract cache *)

Record lru_spec := {
  s_bindings : list (K * V);
  s_hits : Z;
  s_misses : Z;
}.

Definition s_with (s : lru_spec) (b : list (K * V)) : lru_spec :=
  {| s_bindings := b; s_hits := s_hits s; s_misses := s_misses s |}.
Definition s_hit (s : lru_spec) : lru_spec :=
  {| s_bindings := s_bindings s; s_hits := as_i64 (s_hits s + 1); s_misses := s_misses s |}.
Definition s_miss (s : lru_spec) : lru_spec :=
  {| s_bindings := s_bindings s; s_hits := s_hits s; s_misses := as_i64 (s_misses s + 1) |}.

Definition s_find (b : list (K * V)) (k : K) : option V := (list_to_map b : M V) !! k.
Definition s_drop (k : K) (b : list (K * V)) : list (K * V) := filter (λ p, p.1 ≠ k) b.

(** A binding that is used or made goes to the recent end; making one in a
    full cache drops the least recent one. *)
Definition s_use (maxsize : option Z) (k : K) (v : V) (b : list (K * V)) : list (K * V) :=
  match maxsize with None => b | Some _ => s_drop k b ++ [(k, v)] end.
Definition s_make (maxsize : option Z) (k : K) (v : V) (b : list (K * V)) : list (K * V) :=
  match s_find b k with
  | Some _ => b
  | None =>
      match maxsize with
      | None => b ++ [(k, v)]
      | Some m => (if m <=? vlen b then drop 1 b else b) ++ [(k, v)]
      end
  end.

Definition s_call (maxsize : option Z) (s : lru_spec) (key : option K) (run : lru_spec → lru_spec)
    (result : option V) : lru_spec * outcome :=
  let given := match result with Some v => Returned v | None => Raised end in
  if decide (maxsize = Some 0) then (run (s_miss s), given)
  else
    match key with
    | None => (s, Raised)
    | Some k =>
        match s_find (s_bindings s) k with
        | Some v => (s_hit (s_with s (s_use maxsize k v (s_bindings s))), Returned v)
        | None =>
            let s := run (s_miss s) in
            (match result with
             | Some v => s_with s (s_make maxsize k v (s_bindings s))
             | None => s
             end, given)
        end
    end.

Definition s_start : lru_spec := {| s_bindings := []; s_hits := 0; s_misses := 0 |}.

Fixpoint s_exec (maxsize : option Z) (s : lru_spec) (a : action) : lru_spec * outcome :=
  match a with
  | Call key body result =>
      s_call maxsize s key
        (λ s, (fix run (s : lru_spec) (l : list action) : lru_spec :=
                 match l with
                 | [] => s
                 | a :: l => run (s_exec maxsize s a).1 l
                 end) s body) result
  | CacheClear => (s_start, Cleared)
  | CacheInfo => (s, Info (s_hits s) (s_misses s) maxsize (vlen (s_bindings s)))
  end.

Fixpoint s_exec_all (maxsize : option Z) (s : lru_spec) (l : list action) : lru_spec * list outcome :=
  match l with
  | [] => (s, [])
  | a :: l =>
      let '(s, o) := s_exec maxsize s a in
      let '(s, os) := s_exec_all maxsize s l in
      (s, o :: os)
  end.

(** ** The simulation *)

#[local] Abbreviation slots := (list (nat * (K * V))).

Definition keys_of (t : slots) : list K := t.*2.*1.
Definition link_seq (t : slots) : list (nat * K) := (λ x, (x.1, x.2.1)) <$> t.
Definition linked_map (t : slots) : M cache_entry :=
  list_to_map ((λ x, (x.2.1, Linked x.2.2 (Z.of_nat x.1))) <$> t).
Definition plain_map (b : list (K * V)) : M cache_entry :=
  list_to_map ((λ p, (p.1, Plain p.2)) <$> b).

Record lru_sim (w : lru_wrapper) (s : lru_spec) : Prop := {
  sim_hits : w_hits w = s_hits s;
  sim_misses : w_misses w = s_misses s;
  sim_keys : NoDup (s_bindings s).*1;
  sim_store :
    match w_maxsize w with
    | None => w_cache w = plain_map (s_bindings s)
    | Some m =>
        0 ≤ m < 2 ^ 63 ∧ vlen (s_bindings s) ≤ m ∧ vlen (nodes (w_links w)) ≤ m ∧
        ∃ t : slots, s_bindings s = t.*2 ∧ lru_rep (w_links w) (link_seq t) ∧
                     w_cache w = linked_map t
    end;
}.

Lemma linked_fst (t : slots) :
  ((λ x, (x.2.1, Linked x.2.2 (Z.of_nat x.1))) <$> t).*1 = keys_of t.
Proof. unfold keys_of. rewrite <- !list_fmap_compose. done. Qed.

Lemma plain_fst (b : list (K * V)) : ((λ p, (p.1, Plain p.2)) <$> b).*1 = b.*1.
Proof. rewrite <- list_fmap_compose. done. Qed.

Lemma linked_map_perm t1 t2 : NoDup (keys_of t1) → t1 ≡ₚ t2 → linked_map t1 = linked_map t2.
Proof. intros Hnd Hp. apply list_to_map_proper; [by rewrite linked_fst|by rewrite Hp]. Qed.

Lemma linked_map_snoc t i k v :
  NoDup (keys_of (t ++ [(i, (k, v))])) →
  linked_map (t ++ [(i, (k, v))]) = <[k := Linked v (Z.of_nat i)]> (linked_map t).
Proof.
  intros Hnd. rewrite (linked_map_perm _ ((i, (k, v)) :: t) Hnd) by solve_Permutation. done.
Qed.

Lemma linked_map_tail t i k v :
  NoDup (keys_of ((i, (k, v)) :: t)) → delete k (linked_map ((i, (k, v)) :: t)) = linked_map t.
Proof.
  intros [Hk _]%NoDup_cons. unfold linked_map. rewrite fmap_cons. cbn [list_to_map fst snd].
  apply delete_insert_id. apply not_elem_of_list_to_map_1. by rewrite linked_fst.
Qed.

Lemma linked_map_size t : NoDup (keys_of t) → size (linked_map t) = length t.
Proof. intros Hnd. unfold linked_map. rewrite map_size_list_to_map, length_fmap; by rewrite ?linked_fst. Qed.

Lemma plain_map_size b : NoDup b.*1 → size (plain_map b) = length b.
Proof. intros Hnd. unfold plain_map. rewrite map_size_list_to_map, length_fmap; by rewrite ?plain_fst. Qed.

Lemma keys_app t1 t2 : keys_of (t1 ++ t2) = keys_of t1 ++ keys_of t2.
Proof. unfold keys_of. by rewrite !fmap_app. Qed.

(** A key is either absent or at exactly one place. *)
Lemma binding_cases (b : list (K * V)) k :
  NoDup b.*1 →
  ((k ∉ b.*1) ∧ s_find b k = None) ∨
  ∃ b1 v b2, b = b1 ++ (k, v) :: b2 ∧ (k ∉ b1.*1) ∧ (k ∉ b2.*1) ∧ s_find b k = Some v.
Proof.
  intros Hnd. destruct (decide (k ∈ b.*1)) as [Hk|Hk].
  - right. apply list_elem_of_fmap in Hk as ([k' v] & -> & Hin).
    pose proof Hin as (b1 & b2 & ->)%list_elem_of_split. exists b1, v, b2. cbn [fst].
    split; [done|]. rewrite fmap_app, fmap_cons in Hnd. apply NoDup_app in Hnd as (_ & Hd & Hnd).
    apply NoDup_cons in Hnd as [Hk2 _]. split_and!; [|done|].
    + intros Hk1. apply (Hd _ Hk1). by left.
    + unfold s_find. apply elem_of_list_to_map_1'; [|done].
      intros v' [Hin'|[[= <-]|Hin']%elem_of_cons]%elem_of_app; [|done|].
      * exfalso. apply (Hd k'); [|by left]. by apply (list_elem_of_fmap_2 fst _ (k', v')).
      * exfalso. apply Hk2. by apply (list_elem_of_fmap_2 fst _ (k', v')).
  - left. split; [done|]. by apply not_elem_of_list_to_map_1.
Qed.

Lemma s_drop_split b1 k v b2 :
  k ∉ b1.*1 → k ∉ b2.*1 → s_drop k (b1 ++ (k, v) :: b2) = b1 ++ b2.
Proof.
  intros Hb1 Hb2. unfold s_drop. rewrite filter_app, filter_cons_False by (cbn; by intros Hn).
  rewrite !filter_all; [done| |].
  - intros [k' v'] Hin Heq. cbn in Heq. subst. apply Hb2. by apply (list_elem_of_fmap_2 fst _ (k, v')).
  - intros [k' v'] Hin Heq. cbn in Heq. subst. apply Hb1. by apply (list_elem_of_fmap_2 fst _ (k, v')).
Qed.

(** The stored entry of a key, read off the slots. *)
Lemma linked_lookup_None t k : k ∉ keys_of t → linked_map t !! k = None.
Proof. intros Hk. apply not_elem_of_list_to_map_1. by rewrite linked_fst. Qed.

Lemma linked_lookup_Some t1 i k v t2 :
  NoDup (keys_of (t1 ++ (i, (k, v)) :: t2)) →
  linked_map (t1 ++ (i, (k, v)) :: t2) !! k = Some (Linked v (Z.of_nat i)).
Proof.
  intros Hnd. rewrite (linked_map_perm _ ((i, (k, v)) :: t1 ++ t2) Hnd) by solve_Permutation.
  apply lookup_insert_eq.
Qed.

Lemma plain_lookup b k : plain_map b !! k = Plain <$> s_find b k.
Proof.
  unfold plain_map, s_find. induction b as [|[k' v] b IH]; cbn; [by rewrite !lookup_empty|].
  destruct (decide (k' = k)) as [->|Hne]; [by rewrite !lookup_insert_eq|].
  by rewrite !lookup_insert_ne.
Qed.

Lemma sim_find_None w s k :
  lru_sim w s → w_cache w !! k = None ↔ s_find (s_bindings s) k = None.
Proof.
  intros [_ _ Hnd Hst]. destruct (w_maxsize w) as [m|].
  - destruct Hst as (_ & _ & _ & t & Hb & _ & ->). rewrite Hb in *.
    destruct (binding_cases t.*2 k Hnd) as [[Hk Hf]|(b1 & v & b2 & Hb' & _ & _ & Hf)].
    + by rewrite Hf, linked_lookup_None.
    + rewrite Hf. apply fmap_app_inv in Hb' as (t1 & t2 & -> & Hb2 & ->).
      symmetry in Hb2. apply fmap_cons_inv in Hb2 as ([i [k' v']] & t2' & [= <- <-] & -> & ->).
      by rewrite linked_lookup_Some.
  - rewrite Hst, plain_lookup. by destruct (s_find _ k).
Qed.

(** Room for one more binding. *)
Lemma evict_sim w s m :
  lru_sim w s → w_maxsize w = Some m → 0 < m →
  ∃ w',
    (if as_u64 m <=? Z.of_nat (size (w_cache w)) then
       '(links, evicted) ← pop_lru (w_links w);
       Ok (match evicted with
           | Some evicted => set_store w (delete evicted (w_cache w)) links
           | None => set_store w (w_cache w) links
           end)
     else Ok w) = Ok w' ∧ w_maxsize w' = Some m ∧
    lru_sim w' (s_with s (if m <=? vlen (s_bindings s) then drop 1 (s_bindings s) else s_bindings s)) ∧
    vlen (if m <=? vlen (s_bindings s) then drop 1 (s_bindings s) else s_bindings s) < m.
Proof.
  intros [Hh Hm Hnd Hst] Hmax Hpos. rewrite Hmax in Hst.
  destruct Hst as (Hr & Hle & Hnodes & t & Hb & Hrep & Hc).
  rewrite as_u64_id by (unfold u64_range, two64; lia).
  rewrite Hc, linked_map_size by (unfold keys_of; by rewrite <- Hb).
  assert (Hlen : Z.of_nat (length t) = vlen (s_bindings s)) by (rewrite Hb; by rewrite vlen_fmap).
  rewrite Hlen. destruct (Z.leb_spec m (vlen (s_bindings s))) as [Hfull|Hroom].
  - destruct t as [|[i [k v]] t]; [unfold vlen in *; cbn in *; lia|].
    destruct (pop_lru_spec _ _ _ _ Hrep) as (l' & Hpop & Hrep' & Hlen'). rewrite Hpop. cbn [mbind res_bind].
    eexists. split; [done|]. split; [done|]. rewrite Hb in *.
    assert (Hvl : vlen t.*2 < m) by (unfold vlen in *; cbn in Hle |- *; lia).
    split; [|exact Hvl]. rewrite linked_map_tail by exact Hnd.
    cbn in Hnd. apply NoDup_cons in Hnd as [_ Hnd]. split; [done..|].
    cbn [w_maxsize w_links w_cache set_store]. rewrite Hmax.
    unfold vlen in *. rewrite Hlen'.
    split_and!; [lia|lia|exact (Z.lt_le_incl _ _ Hvl)|lia|]. by exists t.
  - exists w. split; [done|]. split; [done|]. split; [|lia].
    split; [done..|]. rewrite Hmax. split_and!; [lia|lia|done|done|]. by exists t.
Qed.

Lemma keys_snoc (b : list (K * V)) k v : NoDup b.*1 → k ∉ b.*1 → NoDup (b ++ [(k, v)]).*1.
Proof.
  intros Hnd Hk. rewrite fmap_app. apply NoDup_app. split; [done|]. split; [|apply NoDup_singleton].
  by intros k' Hk' ->%list_elem_of_singleton.
Qed.

Lemma plain_map_snoc b k v :
  NoDup (b ++ [(k, v)]).*1 → plain_map (b ++ [(k, v)]) = <[k := Plain v]> (plain_map b).
Proof.
  intros Hnd. unfold plain_map.
  rewrite (list_to_map_proper _ ((λ p, (p.1, Plain p.2)) <$> ((k, v) :: b)));
    [done|by rewrite plain_fst|]. by rewrite (Permutation_app_comm b).
Qed.

(** A fresh binding put into a cache that has room for it. *)
Lemma insert_linked_sim w s m k v :
  lru_sim w s → w_maxsize w = Some m → vlen (s_bindings s) < m → k ∉ (s_bindings s).*1 →
  ∃ links i, insert_mru (w_links w) k = Ok (links, i) ∧
    lru_sim (set_store w (<[k := Linked v (as_i64 (Z.of_nat i))]> (w_cache w)) links)
      (s_with s (s_bindings s ++ [(k, v)])).
Proof.
  intros [Hh Hm Hnd Hst] Hmax Hroom Hk. rewrite Hmax in Hst.
  destruct Hst as (Hr & _ & Hnodes & t & Hb & Hrep & Hc).
  destruct (insert_mru_spec _ _ k Hrep) as (l' & i & Hins & Hi & Hrep' & Hlen').
  exists l', i. split; [done|].
  pose proof (Permutation_length (lru_positions _ _ Hrep)) as Hpos.
  rewrite length_app, length_fmap, length_seq in Hpos. unfold link_seq in Hpos.
  rewrite length_fmap in Hpos.
  assert (Hbl : vlen (s_bindings s) = Z.of_nat (length t)) by (by rewrite Hb, vlen_fmap).
  assert (Hlm : vlen (nodes l') ≤ m).
  { unfold vlen in *. rewrite Hlen'. destruct (free (w_links w)); cbn in *; lia. }
  assert (Hil : Z.of_nat i < vlen (nodes l')).
  { unfold vlen. assert (i < length (nodes l'))%nat; [|lia].
    apply (lru_rep_position _ _ _ Hrep'). left. rewrite fmap_app. apply elem_of_app. right. by left. }
  rewrite as_i64_id by (unfold i64_range; lia).
  pose proof (keys_snoc _ k v Hnd Hk) as Hnd2.
  split; [done..|]. cbn [w_maxsize w_links w_cache set_store s_bindings s_with]. rewrite Hmax.
  split_and!; [lia|lia|rewrite vlen_app; unfold vlen in *; cbn; lia|done|].
  exists (t ++ [(i, (k, v))]). rewrite Hb in *. split_and!.
  - by rewrite fmap_app.
  - unfold link_seq. by rewrite fmap_app.
  - rewrite Hc, linked_map_snoc; [done|]. unfold keys_of. by rewrite fmap_app.
Qed.

Lemma insert_cache_sim w s k v :
  lru_sim w s → w_maxsize w ≠ Some 0 →
  ∃ w', insert_cache w k v = Ok w' ∧ w_maxsize w' = w_maxsize w ∧
    lru_sim w' (s_with s (s_make (w_maxsize w) k v (s_bindings s))).
Proof.
  intros Hsim Hnz. unfold insert_cache, s_make.
  destruct (w_cache w !! k) eqn:Hk.
  { exists w. destruct (s_find _ k) eqn:Hf; [by destruct s|].
    apply (sim_find_None _ _ _ Hsim) in Hf. congruence. }
  apply (sim_find_None _ _ _ Hsim) in Hk as Hf. rewrite Hf.
  assert (Hkb : k ∉ (s_bindings s).*1).
  { destruct (binding_cases _ k (sim_keys _ _ Hsim)) as [[? _]|(? & ? & ? & _ & _ & _ & Hf')];
      [done|congruence]. }
  pose proof Hsim as [Hh Hm Hnd Hst].
  destruct (w_maxsize w) as [m|] eqn:Hmax.
  - assert (Hpos : 0 < m) by (destruct Hst as (? & _); destruct (decide (m = 0)) as [->|]; [done|lia]).
    rewrite rassert_true by lia. cbn [mbind res_bind].
    destruct (evict_sim w s m Hsim Hmax Hpos) as (w1 & -> & Hmax1 & Hsim1 & Hroom).
    cbn [mbind res_bind]. set (b := if m <=? _ then _ else _) in *.
    destruct (insert_linked_sim w1 _ m k v Hsim1 Hmax1 Hroom) as (l' & i & -> & Hsim2).
    { cbn. unfold b. case_match; [|done]. rewrite fmap_drop. intros Hin.
      by apply subseteq_drop in Hin. }
    eexists. split; [done|]. split; [done|exact Hsim2].
  - eexists. split; [done|]. split; [done|].
    pose proof (keys_snoc _ k v Hnd Hkb) as Hnd2. split; [done..|].
    cbn [w_maxsize w_cache set_store s_bindings s_with]. rewrite Hmax, Hst.
    by rewrite plain_map_snoc.
Qed.

(** A hit: the entry decodes, its node is promoted, and the binding moves to
    the recent end of the abstract cache. *)
Lemma hit_sim w s k v e :
  lru_sim w s → w_maxsize w ≠ Some 0 → w_cache w !! k = Some e →
  s_find (s_bindings s) k = Some v →
  ∃ node_id w',
    decode_cache_entry e (bool_decide (is_Some (w_maxsize w))) = Some (v, node_id) ∧
    (match node_id with
     | Some node_id =>
         if decide (w_maxsize w = Some 1) then Ok w
         else links ← promote (w_links w) node_id; Ok (set_store w (w_cache w) links)
     | None => Ok w
     end) = Ok w' ∧
    w_maxsize w' = w_maxsize w ∧ lru_sim w' (s_with s (s_use (w_maxsize w) k v (s_bindings s))).
Proof.
  intros [Hh Hm Hnd Hst] Hnz Hk Hf.
  destruct (w_maxsize w) as [m|] eqn:Hmax; rewrite ?(bool_decide_eq_true_2 (is_Some (Some m))) by done.
  - destruct Hst as (Hr & Hle & Hnodes & t & Hb & Hrep & Hc). rewrite Hb in Hnd, Hf.
    destruct (binding_cases t.*2 k Hnd) as [[_ Hf']|(b1 & v' & b2 & Hsp & Hb1 & Hb2 & Hf')];
      [congruence|]. rewrite Hf in Hf'. injection Hf' as <-.
    apply fmap_app_inv in Hsp as (t1 & t2 & -> & Hsp & ->).
    symmetry in Hsp. apply fmap_cons_inv in Hsp as ([i [k' v']] & t2' & [= <- <-] & -> & ->).
    unfold link_seq in Hrep. rewrite fmap_app in Hrep. cbn in Hrep.
    rewrite Hc, linked_lookup_Some in Hk by done. injection Hk as <-.
    assert (Hi : Z.of_nat i < m).
    { assert (i < length (nodes (w_links w)))%nat; [|unfold vlen in *; lia].
      apply (lru_rep_position _ _ _ Hrep). left. rewrite fmap_app. apply elem_of_app. right. by left. }
    unfold decode_cache_entry. replace (0 <=? Z.of_nat i) with true by lia.
    rewrite as_u64_id by (unfold u64_range, two64; lia). rewrite Nat2Z.id.
    exists (Some i). unfold s_use. rewrite Hb, fmap_app, fmap_cons. cbn [snd].
    rewrite s_drop_split by done.
    case_decide as Hone.
    + assert (m = 1) by congruence. subst m. exists w. split; [done|]. split; [done|]. split; [done|].
      assert (t1 = [] ∧ t2' = []) as [-> ->].
      { rewrite Hb, vlen_fmap, vlen_app, vlen_cons in Hle. unfold vlen in Hle.
        destruct t1, t2'; cbn in Hle; (done || lia). }
      rewrite fmap_app in Hb. cbn in Hb. split; cbn [s_bindings s_with]; [done..| |]; cbn.
      * done.
      * rewrite Hmax. split_and!; [lia|lia|by rewrite Hb in Hle|done|]. by exists [(i, (k, v))].
    + destruct (promote_spec _ _ _ _ _ Hrep) as (l' & Hpr & Hrep' & Hlen').
      rewrite Hpr. cbn [mbind res_bind]. eexists. split; [done|]. split; [done|]. split; [done|].
      assert (Hp : t1 ++ t2' ++ [(i, (k, v))] ≡ₚ t1 ++ (i, (k, v)) :: t2') by solve_Permutation.
      assert (Hb' : (t1.*2 ++ t2'.*2) ++ [(k, v)] = (t1 ++ t2' ++ [(i, (k, v))]).*2).
      { by rewrite !fmap_app, <- app_assoc. }
      rewrite Hb'. split; [done..| |]; cbn [w_maxsize w_links w_cache set_store s_bindings s_with].
      * by rewrite Hp.
      * rewrite Hmax. rewrite Hb in Hle. unfold vlen in *. rewrite Hlen'. rewrite Hp.
        split_and!; [lia|lia|done|done|]. exists (t1 ++ t2' ++ [(i, (k, v))]). split; [done|].
        split; [unfold link_seq; by rewrite !fmap_app|]. rewrite Hc. by apply linked_map_perm.
  - rewrite bool_decide_eq_false_2 by (intros [? ?]; congruence).
    rewrite Hst, plain_lookup, Hf in Hk. injection Hk as <-. exists None, w. split; [done|].
    split; [done|]. split; [done|]. cbn [s_use]. destruct s. split; [done..|]. by rewrite Hmax.
Qed.

(** What running the wrapped function does to the wrapper. *)
Definition run_sim (m : option Z) (run : lru_wrapper → res lru_wrapper) (srun : lru_spec → lru_spec) : Prop :=
  ∀ w s, w_maxsize w = m → lru_sim w s →
    ∃ w', run w = Ok w' ∧ w_maxsize w' = m ∧ lru_sim w' (srun s).

Lemma miss_sim w s : lru_sim w s → lru_sim (bump_misses w) (s_miss s).
Proof. intros [Hh Hm Hnd Hst]. split; [done|cbn; by rewrite Hm|done|done]. Qed.

Lemma call_sim m w s key run srun result :
  w_maxsize w = m → lru_sim w s → run_sim m run srun →
  ∃ w', lru_call w key run result = Ok (w', (s_call m s key srun result).2) ∧
        w_maxsize w' = m ∧ lru_sim w' (s_call m s key srun result).1.
Proof.
  intros Hmax Hsim Hrun. unfold lru_call, s_call. rewrite Hmax.
  destruct (Hrun (bump_misses w) (s_miss s)) as (w1 & Hw1 & Hmax1 & Hsim1); [done|by apply miss_sim|].
  case_decide as Hz.
  { rewrite Hw1. cbn [mbind res_bind]. by exists w1. }
  destruct key as [k|]; [|by exists w].
  destruct (w_cache w !! k) as [e|] eqn:Hk.
  - destruct (s_find (s_bindings s) k) as [v|] eqn:Hf;
      [|apply (sim_find_None _ _ _ Hsim) in Hf; congruence].
    rewrite <- Hmax in Hz |- *.
    destruct (hit_sim w s k v e Hsim Hz Hk Hf) as (node & w' & -> & Hpr & Hmax' & Hsim').
    rewrite Hpr. cbn [mbind res_bind]. eexists. split; [done|]. split; [done|].
    destruct Hsim' as [Hh Hm Hnd Hst]. split; [cbn; by rewrite Hh|done..].
  - apply (sim_find_None _ _ _ Hsim) in Hk as ->. rewrite Hw1. cbn [mbind res_bind].
    destruct result as [v|]; [|by exists w1].
    rewrite <- Hmax1 in Hz |- *.
    destruct (insert_cache_sim w1 _ k v Hsim1 Hz) as (w2 & -> & Hmax2 & Hsim2).
    by exists w2.
Qed.

(** Induction on a use, with the uses nested in it. *)
Lemma action_ind' (P : action → Prop) :
  (∀ key body result, Forall P body → P (Call key body result)) →
  P CacheClear → P CacheInfo → ∀ a, P a.
Proof.
  intros Hcall Hclear Hinfo. fix IH 1. intros [key body result| |]; [|done..].
  apply Hcall. induction body as [|a body IHb]; [done|]. by constructor.
Qed.

Lemma sim_size w s : lru_sim w s → Z.of_nat (size (w_cache w)) = vlen (s_bindings s).
Proof.
  intros [_ _ Hnd Hst]. destruct (w_maxsize w) as [m|].
  - destruct Hst as (_ & _ & _ & t & Hb & _ & ->). rewrite Hb in *. by rewrite linked_map_size, vlen_fmap.
  - rewrite Hst. by rewrite plain_map_size.
Qed.

Definition good_maxsize (m : option Z) : Prop := match m with Some m => 0 ≤ m < 2 ^ 63 | None => True end.

Lemma start_sim w :
  good_maxsize (w_maxsize w) → w_hits w = 0 → w_misses w = 0 → w_cache w = ∅ →
  nodes (w_links w) = [] → lru_rep (w_links w) [] → lru_sim w s_start.
Proof.
  intros Hm Hh Hmi Hc Hn Hrep. split; [done|done|constructor|]. cbn [s_bindings s_start].
  destruct (w_maxsize w) as [m|]; [|done]. cbn in Hm. rewrite Hn. unfold vlen. cbn.
  split_and!; [lia..|]. by exists [].
Qed.

Lemma exec_sim m a w s :
  good_maxsize m → w_maxsize w = m → lru_sim w s →
  ∃ w', exec w a = Ok (w', (s_exec m s a).2) ∧ w_maxsize w' = m ∧ lru_sim w' (s_exec m s a).1.
Proof.
  intros Hm. revert w s. induction a as [key body result IH| |] using action_ind'; intros w s Hmax Hsim.
  - cbn [exec s_exec]. apply call_sim; [done..|]. clear w s Hmax Hsim.
    induction IH as [|a body Ha _ IHb]; intros w s Hmax Hsim; [by exists w|].
    destruct (Ha w s Hmax Hsim) as (w1 & -> & Hmax1 & Hsim1). cbn [mbind res_bind].
    by apply IHb.
  - eexists. split; [done|]. split; [done|]. apply start_sim; [cbn; by rewrite Hmax|done..|apply clear_rep].
  - exists w. unfold exec, cache_info. rewrite (sim_size _ _ Hsim), Hmax.
    destruct Hsim as [Hh Hmi Hnd Hst]. by rewrite Hh, Hmi.
Qed.

Lemma exec_all_sim m l w s :
  good_maxsize m → w_maxsize w = m → lru_sim w s →
  ∃ w', exec_all w l = Ok (w', (s_exec_all m s l).2) ∧ w_maxsize w' = m ∧
        lru_sim w' (s_exec_all m s l).1.
Proof.
  intros Hm. revert w s. induction l as [|a l IH]; intros w s Hmax Hsim; [by exists w|].
  cbn [exec_all s_exec_all].
  destruct (exec_sim m a w s Hm Hmax Hsim) as (w1 & -> & Hmax1 & Hsim1). cbn [mbind res_bind].
  destruct (s_exec m s a) as [s1 o]. cbn [fst snd] in *.
  destruct (IH w1 s1 Hmax1 Hsim1) as (w2 & -> & Hmax2 & Hsim2). cbn [mbind res_bind].
  destruct (s_exec_all m s1 l) as [s2 os]. by exists w2.
Qed.

Lemma fresh_sim m : good_maxsize m → lru_sim (make_lru_wrapper m) s_start.
Proof. intros Hm. apply start_sim; [done..|apply default_rep]. Qed.

(** ** Memoisation *)

(** The wrapped function gives [f k] whenever it is run on the arguments of
    the key [k] and returns, whatever it does to the wrapper meanwhile. *)
Fixpoint computes (f : K → V) (a : action) : Prop :=
  match a with
  | Call (Some k) body result =>
      (match result with Some v => v = f k | None => True end) ∧
      (fix all (l : list action) : Prop :=
         match l with [] => True | a :: l => computes f a ∧ all l end) body
  | Call None body _ =>
      (fix all (l : list action) : Prop :=
         match l with [] => True | a :: l => computes f a ∧ all l end) body
  | _ => True
  end.

Definition holds (f : K → V) (s : lru_spec) : Prop := ∀ k v, (k, v) ∈ s_bindings s → v = f k.

Lemma s_find_elem b k v : s_find b k = Some v → (k, v) ∈ b.
Proof. apply elem_of_list_to_map_2. Qed.

Lemma s_make_elem m k v b p : p ∈ s_make m k v b → p ∈ b ∨ p = (k, v).
Proof.
  unfold s_make. destruct (s_find b k); [by left|]. destruct m as [m|].
  - rewrite elem_of_app, list_elem_of_singleton. case_match; [|tauto].
    intros [Hp | ->]; [left; by apply subseteq_drop in Hp|by right].
  - rewrite elem_of_app, list_elem_of_singleton. tauto.
Qed.

Lemma s_use_elem m k v b p : (k, v) ∈ b → p ∈ s_use m k v b → p ∈ b.
Proof.
  intros Hkv. unfold s_use. destruct m; [|done]. rewrite elem_of_app, list_elem_of_singleton.
  intros [[_ Hp]%list_elem_of_filter | ->]; done.
Qed.

Lemma s_call_holds f m s key run result :
  holds f s → (∀ s, holds f s → holds f (run s)) →
  (∀ k v, key = Some k → result = Some v → v = f k) →
  holds f (s_call m s key run result).1.
Proof.
  intros Hs Hrun Hres. unfold s_call. case_decide; [by apply Hrun|].
  destruct key as [k|]; [|done]. destruct (s_find (s_bindings s) k) as [v|] eqn:Hf; cbn [fst].
  - intros k' v' Hin. apply Hs. eapply s_use_elem; [|exact Hin]. by apply s_find_elem.
  - specialize (Hrun (s_miss s) Hs). destruct result as [v|]; [|done].
    intros k' v' [Hin|[= -> ->]]%s_make_elem; [by apply Hrun|]. by apply Hres.
Qed.

Lemma s_exec_holds f m a s : computes f a → holds f s → holds f (s_exec m s a).1.
Proof.
  revert s. induction a as [key body result IH| |] using action_ind'; intros s Hc Hs;
    [|by intros ?? ?%elem_of_nil|done].
  cbn [s_exec]. apply s_call_holds; [done| |].
  - assert (Hbody : (fix all (l : list action) : Prop :=
      match l with [] => True | a :: l => computes f a ∧ all l end) body) by (by destruct key; cbn in Hc; [apply Hc|]).
    clear Hc s Hs. induction IH as [|a body Ha _ IHb]; intros s Hs; [done|].
    destruct Hbody as [Hca Hbody]. apply IHb; [done|]. by apply Ha.
  - intros k v -> ->. apply Hc.
Qed.

Lemma s_call_value f m s k run result v :
  holds f s → (∀ v, result = Some v → v = f k) →
  (s_call m s (Some k) run result).2 = Returned v → v = f k.
Proof.
  intros Hs Hres. unfold s_call. case_decide.
  { destruct result as [v'|]; cbn; [intros [= <-]; by apply Hres|done]. }
  destruct (s_find (s_bindings s) k) as [v'|] eqn:Hf; cbn.
  - intros [= <-]. apply Hs. by apply s_find_elem.
  - destruct result as [v'|]; cbn; [intros [= <-]; by apply Hres|done].
Qed.

Lemma s_exec_all_holds f m l s : Forall (computes f) l → holds f s → holds f (s_exec_all m s l).1.
Proof.
  intros Hl. revert s. induction Hl as [|a l Ha _ IH]; intros s Hs; [done|]. cbn [s_exec_all].
  pose proof (s_exec_holds f m a s Ha Hs) as Hs1. destruct (s_exec m s a) as [s1 o]. cbn [fst] in Hs1.
  specialize (IH s1 Hs1). by destruct (s_exec_all m s1 l).
Qed.

(** ** The replacement policy *)

(** The keys in the order of their last occurrence. *)
Definition touch (ks : list K) (k : K) : list K := filter (λ k', k' ≠ k) ks ++ [k].
Definition by_last_use (calls : list K) : list K := foldl touch [] calls.
(** The last [n] elements. *)
Definition lastn {A} (n : nat) (l : list A) : list A := drop (length l - n) l.

Lemma NoDup_touch ks k : NoDup ks → NoDup (touch ks k).
Proof.
  intros Hnd. unfold touch. apply NoDup_app. split; [by apply NoDup_filter|]. split; [|apply NoDup_singleton].
  intros k' [Hk _]%list_elem_of_filter ->%list_elem_of_singleton. done.
Qed.

Lemma filter_absent (l : list K) k : k ∉ l → filter (λ k', k' ≠ k) l = l.
Proof. intros Hk. apply filter_all. by intros k' Hin ->. Qed.

Lemma filter_present (l1 l2 : list K) k :
  NoDup (l1 ++ k :: l2) → filter (λ k', k' ≠ k) (l1 ++ k :: l2) = l1 ++ l2.
Proof.
  intros (Hnd & Hd & [Hk _]%NoDup_cons)%NoDup_app.
  rewrite filter_app, filter_cons_False by (by intros Hn).
  rewrite !filter_absent; [done|done|]. intros Hin. apply (Hd _ Hin). by left.
Qed.

Lemma lastn_app {A} n (l1 l2 : list A) : (n ≤ length l2)%nat → lastn n (l1 ++ l2) = lastn n l2.
Proof.
  intros Hn. unfold lastn. rewrite length_app, drop_app.
  rewrite drop_ge by lia. cbn. f_equal. lia.
Qed.

Lemma lastn_all {A} n (l : list A) : (length l ≤ n)%nat → lastn n l = l.
Proof. intros Hn. unfold lastn. by replace (length l - n)%nat with 0%nat by lia. Qed.

Lemma lastn_split {A} n (l : list A) :
  ∃ l1, l = l1 ++ lastn n l ∧ (length (lastn n l) ≤ n)%nat ∧ (l1 = [] ∨ length (lastn n l) = n).
Proof.
  exists (take (length l - n) l). unfold lastn. rewrite take_drop, length_drop.
  split; [done|]. split; [lia|]. destruct (decide (length l ≤ n)%nat); [left|right; lia].
  by replace (length l - n)%nat with 0%nat by lia.
Qed.

(** Keeping the last [n] keys commutes with a use. *)
Lemma lastn_touch n L k :
  NoDup L → (0 < n)%nat →
  lastn n (touch L k) =
  (if decide (k ∈ lastn n L) then touch (lastn n L) k
   else (if decide (n ≤ length (lastn n L))%nat then drop 1 (lastn n L) else lastn n L) ++ [k]).
Proof.
  intros Hnd Hn. destruct (lastn_split n L) as (L1 & HL & Hlen & Hlong).
  remember (lastn n L) as R eqn:HR. clear HR. rewrite HL in Hnd. apply NoDup_app in Hnd as (Hnd1 & Hd & Hnd2).
  case_decide as Hk.
  - apply list_elem_of_split in Hk as (S1 & S2 & ->). unfold touch.
    rewrite HL, filter_app, (filter_absent L1) by (intros Hin; apply (Hd _ Hin), elem_of_app; right; by left).
    rewrite filter_present by done. rewrite <- app_assoc. rewrite length_app in Hlen, Hlong. cbn in Hlen, Hlong.
    destruct Hlong as [-> | Hlong]; [|rewrite lastn_app by (rewrite !length_app; cbn; lia)];
      apply lastn_all; rewrite !length_app; cbn; rewrite ?length_app; cbn; lia.
  - unfold touch. rewrite HL, filter_app, (filter_absent R) by done. rewrite <- app_assoc.
    case_decide as Hfull.
    + destruct R as [|y R]; [cbn in *; lia|]. cbn in Hlen, Hfull.
      replace (filter (λ k', k' ≠ k) L1 ++ (y :: R) ++ [k])
        with ((filter (λ k', k' ≠ k) L1 ++ [y]) ++ R ++ [k]) by (by rewrite <- app_assoc).
      rewrite lastn_app by (rewrite length_app; cbn; lia).
      change (drop 1 (y :: R)) with R. apply lastn_all. rewrite length_app. cbn. lia.
    + destruct Hlong as [-> | Hlong]; [|lia].
      cbn. apply lastn_all. rewrite length_app. cbn. lia.
Qed.

(** The bindings a bounded cache holds after calls that all return: the keys
    used last, in the order of their last use. *)
Lemma s_call_keys m s k v srun :
  0 < m → NoDup (s_bindings s).*1 → (∀ s, s_bindings (srun s) = s_bindings s) →
  s_bindings (s_call (Some m) s (Some k) srun (Some v)).1 =
    match s_find (s_bindings s) k with
    | Some v' => s_drop k (s_bindings s) ++ [(k, v')]
    | None => (if m <=? vlen (s_bindings s) then drop 1 (s_bindings s) else s_bindings s) ++ [(k, v)]
    end.
Proof.
  intros Hm Hnd Hrun. unfold s_call. rewrite decide_False by (intros [= ->]; lia).
  destruct (s_find (s_bindings s) k) as [v'|] eqn:Hf; cbn; [done|].
  unfold s_make. rewrite Hrun. cbn. by rewrite Hf.
Qed.

Lemma fst_s_drop k b : (s_drop k b).*1 = filter (λ k', k' ≠ k) b.*1.
Proof.
  unfold s_drop. induction b as [|[k' v] b IH]; [done|].
  rewrite filter_cons, fmap_cons, filter_cons. cbn [fst]. repeat case_decide; try done.
  by rewrite fmap_cons, IH.
Qed.

Lemma s_call_lastn m s k v srun L :
  0 < m → NoDup L → (s_bindings s).*1 = lastn (Z.to_nat m) L → (∀ s, s_bindings (srun s) = s_bindings s) →
  (s_bindings (s_call (Some m) s (Some k) srun (Some v)).1).*1 = lastn (Z.to_nat m) (touch L k).
Proof.
  intros Hm Hnd Hb Hrun. assert (Hndb : NoDup (s_bindings s).*1).
  { rewrite Hb. eapply sublist_NoDup; [exact Hnd|apply sublist_drop]. }
  rewrite s_call_keys, lastn_touch by (done || lia). rewrite <- Hb.
  destruct (binding_cases _ k Hndb) as [[Hk Hf]|(b1 & v' & b2 & Hbs & Hk1 & Hk2 & Hf)]; rewrite Hf.
  - rewrite decide_False by done. rewrite fmap_app. f_equal. unfold vlen.
    rewrite length_fmap. case_decide; (destruct (Z.leb_spec m (Z.of_nat (length (s_bindings s)))); [|]);
      try lia; [by rewrite fmap_drop|done].
  - rewrite decide_True by (rewrite Hbs, fmap_app; apply elem_of_app; right; by left).
    unfold touch. by rewrite fmap_app, fst_s_drop.
Qed.

(** A call that makes no use of the wrapper and returns. *)
Definition plain_call (p : K * V) : action := Call (Some p.1) [] (Some p.2).

Lemma lru_keys m calls s L :
  0 < m → NoDup L → (s_bindings s).*1 = lastn (Z.to_nat m) L →
  (s_bindings (s_exec_all (Some m) s (plain_call <$> calls)).1).*1 =
    lastn (Z.to_nat m) (foldl touch L calls.*1).
Proof.
  intros Hm. revert s L. induction calls as [|[k v] calls IH]; intros s L Hnd Hb; [done|].
  rewrite !fmap_cons. cbn [s_exec_all foldl]. cbn [plain_call fst snd s_exec].
  pose proof (s_call_lastn m s k v (λ s, s) L Hm Hnd Hb (λ _, eq_refl)) as Hstep.
  destruct (s_call _ _ _ _ _) as [s1 o]. cbn [fst] in Hstep.
  specialize (IH s1 (touch L k) (NoDup_touch _ _ Hnd) Hstep).
  destruct (s_exec_all (Some m) s1 _) as [s2 os]. exact IH.
Qed.

End lru_cache.

(** What [functools.lru_cache] promises: the properties of its recency list and
    of its wrapper, each with a concrete instance. *)

#[local] Abbreviation nwrapper := (lru_wrapper (K := nat) (V := nat) (M := gmap nat)).

(** Calls of f(k) = k * k, one nested in another, a failing one and a clear. *)
Definition demo_calls : list (action (K := nat) (V := nat)) :=
  [Call (Some 1%nat) [Call (Some 2%nat) [] (Some 4%nat)] (Some 1%nat);
   Call (Some 3%nat) [CacheInfo] (Some 9%nat); Call (Some 2%nat) [] (Some 4%nat);
   Call (Some 5%nat) [] None; CacheInfo; CacheClear; Call (Some 1%nat) [] (Some 1%nat)].

(** C24: The wrapper behaves as a cache that keeps the bindings from the least
    to the most recently used: every execution, with calls the wrapped function
    makes back into the wrapper, returns without a panic and every use of the
    wrapper gives what the abstract cache gives, [cache_info] included. *)
Theorem lru_cache_refines {K V} `{FinMap K M} maxsize (uses : list (action (K := K) (V := V))) :
  good_maxsize maxsize →
  ∃ w : lru_wrapper (M := M),
    exec_all (make_lru_wrapper maxsize) uses = Ok (w, (s_exec_all (M := M) maxsize s_start uses).2).
Proof.
  intros Hm. destruct (exec_all_sim maxsize uses (make_lru_wrapper maxsize) s_start Hm eq_refl (fresh_sim maxsize Hm)) as (w & Hx & _ & _).
  by exists w.
Qed.

Lemma lru_cache_refines_witness :
  ∃ w : nwrapper,
    exec_all (make_lru_wrapper (Some 2)) demo_calls =
      Ok (w, (s_exec_all (M := gmap nat) (Some 2) s_start demo_calls).2).
Proof. apply lru_cache_refines. by cbn. Defined.

(** Neither the cache dictionary nor the vector of nodes ever outgrows
    [maxsize], and the recency list holds exactly the cached keys. *)
Theorem lru_cache_bounded {K V} `{FinMap K M} m (uses : list (action (K := K) (V := V))) :
  0 ≤ m < 2 ^ 63 →
  ∃ (w : lru_wrapper (M := M)) os links,
    exec_all (make_lru_wrapper (Some m)) uses = Ok (w, os) ∧
    Z.of_nat (size (w_cache w)) ≤ m ∧ vlen (nodes (w_links w)) ≤ m ∧
    lru_rep (w_links w) links ∧ ∀ k, k ∈ links.*2 ↔ is_Some (w_cache w !! k).
Proof.
  intros Hm.
  destruct (exec_all_sim (Some m) uses (make_lru_wrapper (Some m)) s_start Hm eq_refl (fresh_sim (Some m) Hm)) as (w & Hx & Hmax & Hsim).
  pose proof (sim_size _ _ Hsim) as Hsize.
  destruct Hsim as [_ _ Hnd Hst]. rewrite Hmax in Hst.
  destruct Hst as (_ & Hle & Hn & t & Hb & Hrep & Hc).
  eexists w, _, (link_seq t). split; [exact Hx|]. split; [lia|]. split; [done|]. split; [done|].
  intros k. assert (Hks : (link_seq t).*2 = keys_of t).
  { unfold link_seq, keys_of. rewrite <- !list_fmap_compose. done. }
  rewrite Hks, Hc. split.
  - intros Hk. destruct (linked_map t !! k) eqn:Hl; [by eexists|].
    apply not_elem_of_list_to_map_2 in Hl. by rewrite linked_fst in Hl.
  - intros [e He]. apply elem_of_list_to_map_2 in He.
    apply (list_elem_of_fmap_2 fst) in He. by rewrite linked_fst in He.
Qed.

Lemma lru_cache_bounded_witness :
  ∃ (w : nwrapper) os links,
    exec_all (make_lru_wrapper (Some 2)) demo_calls = Ok (w, os) ∧
    Z.of_nat (size (w_cache w)) ≤ 2 ∧ vlen (nodes (w_links w)) ≤ 2 ∧
    lru_rep (w_links w) links ∧ ∀ k, k ∈ links.*2 ↔ is_Some (w_cache w !! k).
Proof. by apply lru_cache_bounded. Defined.

(** Memoisation is transparent: when the wrapped function gives [f k] for
    the arguments of [k], so does every later call of the wrapper that returns,
    after any uses, cached or not. *)
Theorem lru_cache_transparent {K V} `{FinMap K M} maxsize (f : K → V)
    (uses : list (action (K := K) (V := V))) k body result :
  good_maxsize maxsize → Forall (computes f) uses → computes f (Call (Some k) body result) →
  ∃ (w w' : lru_wrapper (M := M)) os o,
    exec_all (make_lru_wrapper maxsize) uses = Ok (w, os) ∧
    exec w (Call (Some k) body result) = Ok (w', o) ∧ ∀ v, o = Returned v → v = f k.
Proof.
  intros Hm Huses Hcall.
  destruct (exec_all_sim maxsize uses (make_lru_wrapper maxsize) s_start Hm eq_refl (fresh_sim maxsize Hm)) as (w & Hx & Hmax & Hsim).
  destruct (exec_sim maxsize (Call (Some k) body result) w _ Hm Hmax Hsim) as (w' & Hw & _ & _).
  eexists w, w', _, _. split; [exact Hx|]. split; [exact Hw|]. intros v. cbn [s_exec].
  apply (s_call_value f).
  - by apply s_exec_all_holds; [|intros ?? ?%elem_of_nil].
  - intros v' ->. apply Hcall.
Qed.

Lemma lru_cache_transparent_witness :
  ∃ (w w' : nwrapper) os o,
    exec_all (make_lru_wrapper (Some 2)) demo_calls = Ok (w, os) ∧
    exec w (Call (Some 1%nat) [] (Some 1%nat)) = Ok (w', o) ∧ ∀ v, o = Returned v → v = (1 * 1)%nat.
Proof.
  apply (lru_cache_transparent (Some 2) (λ k, k * k)%nat); [by cbn| |by cbn].
  repeat constructor.
Defined.

(** The policy is least recently used: after calls that all return, a
    cache of [m] holds exactly the last [m] distinct keys, and the next one to
    be evicted is the one whose last use is the oldest. *)
Theorem lru_cache_policy {K V} `{FinMap K M} m (calls : list (K * V)) :
  0 < m < 2 ^ 63 →
  ∃ (w : lru_wrapper (M := M)) os links,
    exec_all (make_lru_wrapper (Some m)) (plain_call <$> calls) = Ok (w, os) ∧
    lru_rep (w_links w) links ∧ links.*2 = lastn (Z.to_nat m) (by_last_use calls.*1).
Proof.
  intros Hm. assert (Hg : good_maxsize (Some m)) by (cbn; lia).
  destruct (exec_all_sim (Some m) (plain_call <$> calls) (make_lru_wrapper (Some m)) s_start Hg eq_refl (fresh_sim (Some m) Hg))
    as (w & Hx & Hmax & Hsim).
  destruct Hsim as [_ _ _ Hst]. rewrite Hmax in Hst. destruct Hst as (_ & _ & _ & t & Hb & Hrep & _).
  eexists w, _, (link_seq t). split; [exact Hx|]. split; [done|].
  assert (Hks : (link_seq t).*2 = t.*2.*1).
  { unfold link_seq. rewrite <- !list_fmap_compose. done. }
  rewrite Hks, <- Hb. apply lru_keys; [lia|constructor|done].
Qed.

Lemma lru_cache_policy_witness :
  ∃ (w : nwrapper) os links,
    exec_all (make_lru_wrapper (Some 2))
      (plain_call <$> [(1, 1); (2, 4); (1, 1); (3, 9)]%nat) = Ok (w, os) ∧
    lru_rep (w_links w) links ∧ links.*2 = lastn 2 (by_last_use [1; 2; 1; 3]%nat).
Proof. by apply (lru_cache_policy 2 [(1, 1); (2, 4); (1, 1); (3, 9)]%nat). Defined.

(** The operations of the recency list are those of a sequence: a new key
    goes to the recent end, a use moves a node there, the oldest is popped
    first, and no index is ever out of bounds. *)
Theorem lru_links_refine {K} (l : LruLinks K) s1 i k s2 k' :
  lru_rep l (s1 ++ (i, k) :: s2) →
  (∃ l', promote l i = Ok l' ∧ lru_rep l' (s1 ++ s2 ++ [(i, k)])) ∧
  (∃ l', remove l i = Ok (l', Some k) ∧ lru_rep l' (s1 ++ s2)) ∧
  (∃ l' j, insert_mru l k' = Ok (l', j) ∧ (j ∉ (s1 ++ (i, k) :: s2).*1) ∧
    lru_rep l' ((s1 ++ (i, k) :: s2) ++ [(j, k')])) ∧
  (∃ l' x rest, s1 ++ (i, k) :: s2 = x :: rest ∧ pop_lru l = Ok (l', Some x.2) ∧ lru_rep l' rest).
Proof.
  intros Hr. split; [|split; [|split]].
  - destruct (promote_spec _ _ _ _ _ Hr) as (l' & ? & ? & _). by exists l'.
  - destruct (remove_spec _ _ _ _ _ Hr) as (l' & ? & ? & _). by exists l'.
  - destruct (insert_mru_spec _ _ k' Hr) as (l' & j & ? & ? & ? & _). by exists l', j.
  - destruct (s1 ++ (i, k) :: s2) as [|[j kj] rest] eqn:Hs; [by destruct s1|].
    destruct (pop_lru_spec _ _ _ _ Hr) as (l' & ? & ? & _). by exists l', (j, kj), rest.
Qed.

Lemma lru_links_refine_witness :
  ∃ l j, insert_mru default 7%nat = Ok (l, j) ∧
    (∃ l', promote l j = Ok l' ∧ lru_rep l' [(j, 7%nat)]) ∧
    (∃ l', remove l j = Ok (l', Some 7%nat) ∧ lru_rep l' []) ∧
    (∃ l' i, insert_mru l 8%nat = Ok (l', i) ∧ (i ∉ [j]) ∧ lru_rep l' [(j, 7%nat); (i, 8%nat)]) ∧
    (∃ l' x rest, [(j, 7%nat)] = x :: rest ∧ pop_lru l = Ok (l', Some x.2) ∧ lru_rep l' rest).
Proof.
  destruct (insert_mru_spec default [] 7%nat default_rep) as (l & j & Hins & _ & Hr & _).
  exists l, j. split; [exact Hins|]. apply (lru_links_refine l [] j 7%nat [] 8%nat Hr).
Defined.
