(* ===== verification/Bytecode.v ===== *)
(** The instruction set of the virtual machine
    (crates/pyrust/src/bytecode/instruction.rs), and the operands of an
    instruction that the optimizer rewrites: its jump offset and its index into
    the constant pool. *)

From S2P Require Import Prelude IntArith.

(** ** Instructions *)

(** Registers and iterator slots are unsigned, offsets and immediates signed;
    all are unbounded here, and the passes convert where the code does. *)
Abbreviation Reg := Z.

Inductive UnaryOp : Type := Neg | Not | BitNot | Pos.

Inductive DictKeyKindHint : Type := HintUnknown | HintUnicode | HintGeneral.

Record IntRangeExactGuard : Type := {
  g_slot : Z;
  g_start : Z;
  g_stop : Z;
  g_step : Z;
}.

Inductive KwCallName : Type :=
  | Callee (r : Reg)
  | Method (obj : Reg) (name_idx : Z).

Module Op.
Inductive Insn : Type :=
  | LoadConst (_ : Reg) (_ : Z)
  | LoadGlobal (_ : Reg) (_ : Z)
  | LoadClassName (_ _ : Reg) (_ : Z)
  | StoreGlobal (_ : Z) (_ : Reg)
  | LoadCell (_ : Reg) (_ : Z)
  | StoreCell (_ : Z) (_ : Reg)
  | LoadNone (_ : Reg)
  | LoadNoneRange (start : Reg) (count : Z)
  | Move (_ _ : Reg)
  | CopyReg (_ _ : Reg)
  | BinOp (_ _ : Reg) (_ : BinaryOp) (_ : Reg)
  | BinOpInPlace (_ _ : Reg) (_ : BinaryOp) (_ : Reg)
  | BinOpConst (_ _ : Reg) (_ : BinaryOp) (_ : Z) (_ : bool)
  | BinOpImm (_ _ : Reg) (_ : BinaryOp) (_ : Z) (_ : bool)
  | UnaryOp (_ : Reg) (_ : UnaryOp) (_ : Reg)
  | MatchSeqExcluded (_ _ : Reg)
  | MatchMapping (_ _ : Reg)
  | GetAttr (_ _ : Reg) (_ : Z)
  | GetAttrForWith (_ _ : Reg) (_ : Z) (_ : Z)
  | SetAttr (_ : Reg) (_ : Z) (_ : Reg)
  | DeleteAttr (_ : Reg) (_ : Z)
  | GetItem (_ _ _ : Reg)
  | GetItemSeqIntOrExit (_ _ _ : Reg) (_ : Z)
  | GetSlice (_ _ _ : Reg)
  | SetItem (_ _ _ : Reg)
  | DeleteItem (_ _ : Reg)
  | DeleteName (_ : Z)
  | PushTypeParamEnv
  | PopTypeParamEnv
  | DeleteLocal (_ : Reg) (_ : Z) (_ : bool)
  | Jump (_ : Z)
  | JumpIfFalse (_ : Reg) (_ : Z)
  | JumpIfTrue (_ : Reg) (_ : Z)
  | CmpJumpIfFalse (_ : Reg) (_ : BinaryOp) (_ : Reg) (_ : Z)
  | CmpJumpIfTrue (_ : Reg) (_ : BinaryOp) (_ : Reg) (_ : Z)
  | CmpJumpIfFalseConst (_ : Reg) (_ : BinaryOp) (_ : Z) (_ : Z)
  | CmpJumpIfTrueConst (_ : Reg) (_ : BinaryOp) (_ : Z) (_ : Z)
  | JumpIfNotInt (_ : Reg) (_ : Z)
  | CountCmpJumpTrue (_ : Reg) (_ : BinaryOp) (_ : Reg) (_ : Z) (_ : Z)
  | CountCmpJumpFalse (_ : Reg) (_ : BinaryOp) (_ : Reg) (_ : Z) (_ : Z)
  | JumpIfIterNotIntRange (_ : Z) (_ : Z)
  | JumpIfIterNotIndexedSeq (_ : Z) (_ : Z)
  | JumpIfIterNotIntRangeExact (_ : IntRangeExactGuard) (_ : Z)
  | JumpIfNotBuiltinLen (_ : Reg) (_ : Z)
  | LenSeqOrExit (_ _ : Reg) (_ : Z)
  | CallInlineBinOp (callee : Reg) (dst : Reg) (a : Reg) (op : BinaryOp) (b : Reg) (proto : Z) (skip : Z)
  | Call (_ : Reg) (_ : Z)
  | CallMemo (_ : Reg) (_ : Z)
  | CallMethod (dst : Reg) (obj : Reg) (name_idx : Z) (args_base : Reg) (nargs : Z)
  | CallMethodExpanded (dst : Reg) (obj : Reg) (name_idx : Z) (pos_list : Reg) (kw_dict : Reg)
  | CallKw (func : Reg) (total : Z) (nkw : Z) (kwnames_idx : Z)
  | CallEx (func : Reg) (npos : Z) (kwargs : Reg)
  | CallExArgs (func : Reg) (npos : Z) (nkw : Z) (kwnames_idx : Z) (args_splat : Reg) (kwargs : Reg)
  | CallMethodKw (dst : Reg) (obj : Reg) (name_idx : Z) (args_base : Reg) (total : Z) (nkw : Z) (kwnames_idx : Z)
  | Return (_ : Reg)
  | ReturnNone
  | BuildList (_ _ : Reg) (_ : Z)
  | BuildListReserve (_ _ : Reg)
  | BuildTuple (_ _ : Reg) (_ : Z)
  | BuildString (_ _ : Reg) (_ : Z)
  | FormatValue (_ _ : Reg)
  | FormatValueSpec (_ _ _ : Reg)
  | BuildSlice (_ _ : Reg)
  | BuildDict (_ _ : Reg) (_ : Z) (_ : DictKeyKindHint)
  | Unpack (_ _ : Reg) (_ : Z)
  | UnpackEx (src : Reg) (before : Z) (after : Z) (dst_base : Reg)
  | GetIter (_ : Z) (_ : Reg)
  | ForIter (_ : Reg) (_ : Z) (_ : Z)
  | CheckLocal (_ : Reg) (_ : Z)
  | RaiseAssert (_ : Reg)
  | RaiseAssertNoMsg
  | RaiseValue (_ : Reg)
  | RaiseFrom (_ _ : Reg)
  | RaiseReRaise
  | RaiseExceptStarResidual (_ : Reg)
  | MatchClassPositional (dst_base : Reg) (subj : Reg) (cls : Reg) (n : Z)
  | MakeFunction (_ : Reg) (_ : Z) (_ : Reg) (_ : Z) (_ : Reg) (_ : Z)
  | ImportModule (_ : Reg) (_ : Z)
  | ImportFromAttr (_ _ : Reg) (_ : Z)
  | ImportStar (_ : Reg)
  | SetupExcept (_ : Z)
  | PopExcept
  | LoadExc (_ : Reg)
  | LoadExcTraceback (_ _ : Reg)
  | MatchExcept (_ : Reg) (_ : Z)
  | MatchExceptStar (_ _ _ : Reg) (_ : Z)
  | EndExcept
  | PushExcContext (_ : Reg)
  | PopExcContext
  | MakeClass (_ : Reg) (_ : Z) (_ : Reg) (_ : Z) (_ : Z) (_ : Reg) (_ : Z)
  | MakeClassMeta (_ : Reg) (_ : Z) (_ : Reg) (_ : Z) (_ : Z) (_ : Reg) (_ : Z) (_ : Reg)
  | MakeTypeVar (_ : Reg) (_ : Z)
  | SetTypeVarAttr (_ : Reg) (_ : Z) (_ : Reg)
  | MakeTypeAlias (_ : Reg) (_ : Z) (_ _ : Reg)
  | PrintExpr (_ : Reg)
  | SetAdd (_ _ : Reg)
  | ListAppend (_ _ : Reg)
  | ListExtend (_ _ : Reg)
  | ListExtendCall (list : Reg) (src : Reg) (name : KwCallName)
  | DictUpdate (_ _ : Reg)
  | DictMergeKwCall (dict : Reg) (src : Reg) (name : KwCallName)
  | SetItemKwCall (dict : Reg) (key : Reg) (val : Reg) (name : KwCallName)
  | Yield (src : Reg) (dst : Reg)
  | YieldFrom (iter_reg : Reg) (sent_reg : Reg) (result_reg : Reg)
  | GetAwaitable (_ _ : Reg)
  | RecordClassStore (_ : Reg)
  | RecordClassDel (_ : Reg)
  | Concat (dst : Reg) (base : Reg) (count : Z)
  | SyncModuleGlobal (_ : Reg) (_ : Z)
  | DeleteModuleGlobal (_ : Z).
End Op.

Abbreviation Insn := Op.Insn.

(** ** Jump offsets *)

(** The offset of an instruction that has one, relative to the instruction
    after it. *)
Definition insn_jump_off (insn : Insn) : option Z :=
  match insn with
  | Op.Jump k
  | Op.JumpIfFalse _ k
  | Op.JumpIfTrue _ k
  | Op.CmpJumpIfFalse _ _ _ k
  | Op.CmpJumpIfTrue _ _ _ k
  | Op.CmpJumpIfFalseConst _ _ _ k
  | Op.CmpJumpIfTrueConst _ _ _ k
  | Op.ForIter _ _ k
  | Op.SetupExcept k
  | Op.MatchExcept _ k
  | Op.MatchExceptStar _ _ _ k
  | Op.JumpIfNotInt _ k
  | Op.JumpIfIterNotIntRange _ k
  | Op.JumpIfIterNotIndexedSeq _ k
  | Op.JumpIfIterNotIntRangeExact _ k
  | Op.GetItemSeqIntOrExit _ _ _ k
  | Op.JumpIfNotBuiltinLen _ k
  | Op.LenSeqOrExit _ _ k
  | Op.CountCmpJumpTrue _ _ _ _ k
  | Op.CountCmpJumpFalse _ _ _ _ k
  | Op.CallInlineBinOp _ _ _ _ _ _ k => Some k
  | _ => None
  end.

(** The rewriting of [rewrite_offsets_with], for any change [f] of the offset. *)
Definition map_offset (f : Z → Z) (insn : Insn) : Insn :=
  match insn with
  | Op.Jump k => Op.Jump (f k)
  | Op.JumpIfFalse r k => Op.JumpIfFalse r (f k)
  | Op.JumpIfTrue r k => Op.JumpIfTrue r (f k)
  | Op.CmpJumpIfFalse a op b k => Op.CmpJumpIfFalse a op b (f k)
  | Op.CmpJumpIfTrue a op b k => Op.CmpJumpIfTrue a op b (f k)
  | Op.CmpJumpIfFalseConst r op c k => Op.CmpJumpIfFalseConst r op c (f k)
  | Op.CmpJumpIfTrueConst r op c k => Op.CmpJumpIfTrueConst r op c (f k)
  | Op.ForIter dst slot k => Op.ForIter dst slot (f k)
  | Op.SetupExcept k => Op.SetupExcept (f k)
  | Op.MatchExcept r k => Op.MatchExcept r (f k)
  | Op.MatchExceptStar r src dst k => Op.MatchExceptStar r src dst (f k)
  | Op.JumpIfNotInt r k => Op.JumpIfNotInt r (f k)
  | Op.JumpIfIterNotIntRange s k => Op.JumpIfIterNotIntRange s (f k)
  | Op.JumpIfIterNotIndexedSeq s k => Op.JumpIfIterNotIndexedSeq s (f k)
  | Op.JumpIfIterNotIntRangeExact guard k => Op.JumpIfIterNotIntRangeExact guard (f k)
  | Op.GetItemSeqIntOrExit dst obj idx k => Op.GetItemSeqIntOrExit dst obj idx (f k)
  | Op.JumpIfNotBuiltinLen r k => Op.JumpIfNotBuiltinLen r (f k)
  | Op.LenSeqOrExit dst seq k => Op.LenSeqOrExit dst seq (f k)
  | Op.CountCmpJumpTrue v op s imm k => Op.CountCmpJumpTrue v op s imm (f k)
  | Op.CountCmpJumpFalse v op s imm k => Op.CountCmpJumpFalse v op s imm (f k)
  | Op.CallInlineBinOp callee dst a op b proto k => Op.CallInlineBinOp callee dst a op b proto (f k)
  | other => other
  end.
