(* ===== verification/Vm.v ===== *)
(** The dispatch loop of the virtual machine
    (crates/pyrust/src/interpreter/runtime/vm/execute.rs, entry.rs,
    helpers.rs): program counter, handler stack, exception table and registers
    are modelled; what an instruction does to Python objects is the class
    [Host].  A call runs inside the host, so one execution of the machine is
    one frame. *)

From S2P Require Import Outcome Prelude IntArith Bytecode.

(** ** Code objects *)

(** The fields of [FnCode] that the dispatch loop reads. *)
Record FnCode (V : Type) : Type := {
  insns : list Insn;
  consts : list V;
  num_locals : Z;
  exc_table : list Z;
}.
Arguments insns {V} _.
Arguments consts {V} _.
Arguments num_locals {V} _.
Arguments exc_table {V} _.

(** [u32::MAX]: no handler covers this instruction. *)
Definition EXC_NO_HANDLER : Z := 2 ^ 32 - 1.

(** The index of the instruction in the constant pool. *)
Definition const_index (insn : Insn) : option Z :=
  match insn with
  | Op.LoadConst _ c | Op.BinOpConst _ _ _ c _ | Op.CmpJumpIfFalseConst _ _ c _ | Op.CmpJumpIfTrueConst _ _ c _
  | Op.MakeTypeAlias _ c _ _ | Op.MakeTypeVar _ c | Op.CallKw _ _ _ c | Op.CallMethodKw _ _ _ _ _ _ c
  | Op.CallExArgs _ _ _ c _ _ => Some c
  | _ => None
  end.

(** The rewriting of [pass_compact_consts], for any change [f] of the index. *)
Definition map_const (f : Z → Z) (insn : Insn) : Insn :=
  match insn with
  | Op.LoadConst r c => Op.LoadConst r (f c)
  | Op.BinOpConst d l op c ia => Op.BinOpConst d l op (f c) ia
  | Op.CmpJumpIfFalseConst r op c k => Op.CmpJumpIfFalseConst r op (f c) k
  | Op.CmpJumpIfTrueConst r op c k => Op.CmpJumpIfTrueConst r op (f c) k
  | Op.MakeTypeAlias dst c value_reg params_reg => Op.MakeTypeAlias dst (f c) value_reg params_reg
  | Op.MakeTypeVar dst c => Op.MakeTypeVar dst (f c)
  | Op.CallKw func total nkw c => Op.CallKw func total nkw (f c)
  | Op.CallMethodKw dst obj name_idx args_base total nkw c =>
      Op.CallMethodKw dst obj name_idx args_base total nkw (f c)
  | Op.CallExArgs func npos nkw c args_splat kwargs => Op.CallExArgs func npos nkw (f c) args_splat kwargs
  | other => other
  end.

(** An instruction without the operands the dispatch loop resolves itself. *)
Definition erase (insn : Insn) : Insn := map_const (λ _, 0) (map_offset (λ _, 0) insn).

(** ** The host *)

(** The registers of the frame, an unset one being [None], and the rest: loop
    iterators, environments, the heap, the exception context. *)
Record state (V H : Type) : Type := State {
  regs : list (option V);
  rest : H;
}.
Arguments State {V H} _ _.
Arguments regs {V H} _.
Arguments rest {V H} _.

(** What a part of an instruction does: a result, a Python exception, or a
    panic. *)
Inductive eff (St E A : Type) : Type :=
  | Done (a : A) (s : St)
  | Fault (e : E) (s : St)
  | Crash.
Arguments Done {St E A} _ _.
Arguments Fault {St E A} _ _.
Arguments Crash {St E A}.

Definition eff_bind {St E A B} (m : eff St E A) (f : A → St → eff St E B) : eff St E B :=
  match m with Done a s => f a s | Fault e s => Fault e s | Crash => Crash end.

Class Host (V E H : Type) := {
  (** [Value::none] and the embedding of errors that carry no object. *)
  none_value : V;
  py_error : PyError → E;
  (** [truthy_value]; [eval_binary] followed by it. *)
  host_truthy : V → state V H → eff (state V H) E bool;
  host_compare : V → BinaryOp → V → state V H → eff (state V H) E bool;
  (** Whether an instruction with an offset that is neither a test nor a
      [SetupExcept] takes its jump. *)
  host_guard : Insn → state V H → eff (state V H) E bool;
  (** An instruction without an offset, with its constant. *)
  host_exec : Insn → option V → state V H → eff (state V H) E unit;
  (** The exception an instruction raises. *)
  host_raise : Insn → state V H → E * state V H;
  (** The value with which [Yield] or [YieldFrom] suspends the frame, if it
      does. *)
  host_yield : Insn → state V H → eff (state V H) E (option V);
  (** [handle_vm_error] once a handler is found; [escape_with_implicit_context]. *)
  host_catch : E → state V H → state V H + E * state V H;
  host_escape : E → state V H → E * state V H;
}.

(** ** Instructions, as the dispatch loop tells them apart *)

Inductive Cond : Type :=
  | Truth (r : Reg)
  | Compare (lhs : Reg) (op : BinaryOp) (rhs : Reg)
  | CompareConst (lhs : Reg) (op : BinaryOp) (const_idx : Z).

Inductive Kind : Type :=
  | KGoto (k : Z)
  | KBranch (sense : bool) (c : Cond) (k : Z)
  | KGuard (insn : Insn) (k : Z)
  | KSetup (k : Z)
  | KPop
  | KReturn (src : option Reg)
  | KRaise (insn : Insn)
  | KYield (rewind : bool) (insn : Insn)
  | KPlain (insn : Insn).

(** The arms of the dispatch loop. *)
Definition kind_of (insn : Insn) : Kind :=
  match insn with
  | Op.Jump k => KGoto k
  | Op.JumpIfFalse r k => KBranch false (Truth r) k
  | Op.JumpIfTrue r k => KBranch true (Truth r) k
  | Op.CmpJumpIfFalse lhs op rhs k => KBranch false (Compare lhs op rhs) k
  | Op.CmpJumpIfTrue lhs op rhs k => KBranch true (Compare lhs op rhs) k
  | Op.CmpJumpIfFalseConst lhs op c k => KBranch false (CompareConst lhs op c) k
  | Op.CmpJumpIfTrueConst lhs op c k => KBranch true (CompareConst lhs op c) k
  | Op.SetupExcept k => KSetup k
  | Op.PopExcept => KPop
  | Op.Return src => KReturn (Some src)
  | Op.ReturnNone => KReturn None
  | Op.RaiseAssert _ | Op.RaiseAssertNoMsg | Op.RaiseValue _ | Op.RaiseFrom _ _ | Op.RaiseReRaise
  | Op.RaiseExceptStarResidual _ => KRaise insn
  | Op.Yield _ _ => KYield false insn
  | Op.YieldFrom _ _ _ => KYield true insn
  | _ => match insn_jump_off insn with Some k => KGuard insn k | None => KPlain insn end
  end.

(** ** Configurations and results *)

Record config (V E H : Type) : Type := Config {
  pc : nat;
  (** [exc_handlers], the innermost first. *)
  handlers : list nat;
  st : state V H;
  (** [pending_inject], of a frame resumed by [throw]. *)
  inject : option E;
}.
Arguments Config {V E H} _ _ _ _.
Arguments pc {V E H} _.
Arguments handlers {V E H} _.
Arguments st {V E H} _.
Arguments inject {V E H} _.

(** How a frame ends: [FrameOutcome::Returned], an error, [Yielded] with the
    saved program counter and handlers, or the internal error of a program
    counter out of bounds; or it panics. *)
Inductive stop (V E H : Type) : Type :=
  | Returned (v : V) (s : state V H)
  | Escaped (e : E) (s : state V H)
  | Yielded (v : V) (saved_pc : nat) (saved_handlers : list nat) (s : state V H)
  | BadPc (s : state V H)
  | Crashed.
Arguments Returned {V E H} _ _.
Arguments Escaped {V E H} _ _.
Arguments Yielded {V E H} _ _ _ _.
Arguments BadPc {V E H} _.
Arguments Crashed {V E H}.

Section machine.
Context {V E H : Type} `{Host V E H}.
Abbreviation state := (state V H).
Abbreviation eff := (eff state E).
Abbreviation config := (config V E H).
Abbreviation stop := (stop V E H).
Implicit Types (code : FnCode V) (c : config) (s : state).

(** ** Registers *)

Definition unset_error code (r : Reg) : PyError :=
  if r <? num_locals code then Named "NameError" "local variable referenced before assignment"
  else Runtime "internal: temp register read before write".

Definition vm_read code (r : Reg) s : eff V :=
  match regs s !! Z.to_nat r with
  | None => Crash
  | Some None => Fault (py_error (unset_error code r)) s
  | Some (Some v) => Done v s
  end.

(** [regs[dst] = v], which panics out of range. *)
Definition write_reg (r : Reg) (v : V) s : eff unit :=
  match regs s !! Z.to_nat r with
  | None => Crash
  | Some _ => Done tt (State (<[Z.to_nat r := Some v]> (regs s)) (rest s))
  end.

Fixpoint write_nones (start : Reg) (count : nat) s : eff unit :=
  match count with
  | O => Done tt s
  | S count => eff_bind (write_reg start none_value s) (λ _, write_nones (start + 1) count)
  end.

(** ** Tests and plain instructions *)

(** [pool_get] for an index outside the pool. *)
Definition pool_error (idx pool_size : Z) : PyError :=
  Runtime ("bytecode error: const index " +:+ pretty idx +:+ " out of range (pool size " +:+ pretty pool_size +:+ ")").

Definition eval_cond code (c : Cond) s : eff bool :=
  match c with
  | Truth r => eff_bind (vm_read code r s) host_truthy
  | Compare lhs op rhs =>
      match regs s !! Z.to_nat lhs, regs s !! Z.to_nat rhs with
      | Some _, Some _ =>
          eff_bind (vm_read code lhs s) (λ l s, eff_bind (vm_read code rhs s) (λ r s, host_compare l op r s))
      | _, _ => Crash
      end
  | CompareConst lhs op c =>
      match consts code !! Z.to_nat c with
      | None => Fault (py_error (pool_error c (vlen (consts code)))) s
      | Some cv => eff_bind (vm_read code lhs s) (λ l s, host_compare l op cv s)
      end
  end.

Definition const_operand code (insn : Insn) : option V :=
  match const_index insn with Some c => consts code !! Z.to_nat c | None => None end.

Definition exec_plain code (insn : Insn) s : eff unit :=
  match insn with
  | Op.LoadNone dst => write_reg dst none_value s
  | Op.LoadNoneRange start count => write_nones start (Z.to_nat count) s
  | Op.Move dst src | Op.CopyReg dst src => eff_bind (vm_read code src s) (write_reg dst)
  | _ => host_exec (erase insn) (const_operand code insn) s
  end.

(** ** Exceptions *)

(** The choice of [handle_vm_error]: the exception table when there is one,
    the handler stack otherwise. *)
Definition find_handler code (raise_pc : nat) (hs : list nat) : option (nat * list nat) :=
  match exc_table code with
  | [] => match hs with h :: hs => Some (h, hs) | [] => None end
  | table =>
      match table !! raise_pc with
      | Some t => if t =? EXC_NO_HANDLER then None else Some (Z.to_nat t, hs)
      | None => None
      end
  end.

Definition handle_vm_error code (e : E) s (raise_pc : nat) (hs : list nat) : config + stop :=
  match find_handler code raise_pc hs with
  | None => let (e, s) := host_escape e s in inr (Escaped e s)
  | Some (h, hs) =>
      match host_catch e s with
      | inl s => inl (Config h hs s None)
      | inr (e, s) => inr (Escaped e s)
      end
  end.

(** [pc.wrapping_sub(1)] *)
Definition wrapping_pred (n : nat) : nat := match n with O => Z.to_nat usize_max | S n => n end.

(** ** One iteration of the loop *)

(** [jump_pc!], from the instruction after the jump. *)
Definition jump_pc code (next : nat) (k : Z) : option nat :=
  let new_pc := Z.of_nat next + k in
  if (new_pc <? 0) || (vlen (insns code) <? new_pc) then None else Some (Z.to_nat new_pc).

Definition jump_to code (next : nat) (k : Z) (hs : list nat) s : config + stop :=
  match jump_pc code next k with
  | None => inr (BadPc s)
  | Some new_pc => inl (Config new_pc hs s None)
  end.

(** [vm_try!] around a part of the instruction at [pc]. *)
Definition vm_try {A} code (pc : nat) (hs : list nat) (m : eff A) (k : A → state → config + stop) : config + stop :=
  match m with
  | Done a s => k a s
  | Fault e s => handle_vm_error code e s pc hs
  | Crash => inr Crashed
  end.

Definition dispatch code (pc : nat) (hs : list nat) s (insn : Insn) : config + stop :=
  let next := S pc in
  match kind_of insn with
  | KGoto k => jump_to code next k hs s
  | KBranch sense c k =>
      vm_try code pc hs (eval_cond code c s) (λ b s,
        if Bool.eqb b sense then jump_to code next k hs s else inl (Config next hs s None))
  | KGuard insn k =>
      vm_try code pc hs (host_guard (erase insn) s) (λ taken s,
        if taken : bool then jump_to code next k hs s else inl (Config next hs s None))
  | KSetup k =>
      match jump_pc code next k with
      | None => inr (BadPc s)
      | Some h => inl (Config next (h :: hs) s None)
      end
  | KPop => inl (Config next (tail hs) s None)
  | KReturn None => inr (Returned none_value s)
  | KReturn (Some src) => vm_try code pc hs (vm_read code src s) (λ v s, inr (Returned v s))
  | KRaise insn => let (e, s) := host_raise insn s in handle_vm_error code e s pc hs
  | KYield rewind insn =>
      vm_try code pc hs (host_yield insn s) (λ o s,
        match o with
        | Some v => inr (Yielded v (if rewind : bool then pc else next) hs s)
        | None => inl (Config next hs s None)
        end)
  | KPlain insn => vm_try code pc hs (exec_plain code insn s) (λ _ s, inl (Config next hs s None))
  end.

Definition step code c : config + stop :=
  match inject c with
  | Some e => handle_vm_error code e (st c) (wrapping_pred (pc c)) (handlers c)
  | None =>
      match insns code !! pc c with
      | Some insn => dispatch code (pc c) (handlers c) (st c) insn
      | None => if (pc c =? length (insns code))%nat then inr (Returned none_value (st c)) else inr (BadPc (st c))
      end
  end.
End machine.
