(* ===== verification/VmSpec.v ===== *)
(** Well-formed code, and the lemma by which two codes are run in lockstep: the
    instructions at related positions differ in their offsets only. *)

From S2P Require Import Outcome Prelude IntArith Bytecode Vm.

(** ** Kinds and offsets *)

Definition kind_off (kd : Kind) : option Z :=
  match kd with KGoto k | KBranch _ _ k | KGuard _ k | KSetup k => Some k | _ => None end.

Definition map_kind (f : Z → Z) (kd : Kind) : Kind :=
  match kd with
  | KGoto k => KGoto (f k)
  | KBranch sense c k => KBranch sense c (f k)
  | KGuard insn k => KGuard (map_offset f insn) (f k)
  | KSetup k => KSetup (f k)
  | other => other
  end.

Lemma kind_of_off insn : kind_off (kind_of insn) = insn_jump_off insn.
Proof. by destruct insn. Qed.

Lemma kind_of_map_offset f insn : kind_of (map_offset f insn) = map_kind f (kind_of insn).
Proof. by destruct insn. Qed.

Lemma map_offset_off f insn : insn_jump_off (map_offset f insn) = f <$> insn_jump_off insn.
Proof. by destruct insn. Qed.

Lemma map_offset_none f insn : insn_jump_off insn = None → map_offset f insn = insn.
Proof. by destruct insn. Qed.

Lemma map_offset_id insn k : insn_jump_off insn = Some k → map_offset (λ _, k) insn = insn.
Proof. by destruct insn; intros [= ->]. Qed.

Lemma erase_map_offset f insn : erase (map_offset f insn) = erase insn.
Proof. by destruct insn. Qed.

Lemma kind_of_plain insn i : kind_of insn = KPlain i → i = insn ∧ insn_jump_off insn = None.
Proof. by destruct insn; intros [= <-]. Qed.

Lemma kind_of_guard insn i k : kind_of insn = KGuard i k → i = insn.
Proof. by destruct insn; intros [= <- _]. Qed.

(** Whether control may pass to the next instruction with the same handlers,
    and the offset by which it may go elsewhere. *)
Definition falls_through (kd : Kind) : bool :=
  match kd with KBranch _ _ _ | KGuard _ _ | KYield _ _ | KPlain _ => true | _ => false end.

Definition goes_to (kd : Kind) : option Z :=
  match kd with KGoto k | KBranch _ _ k | KGuard _ k => Some k | _ => None end.

Lemma goes_to_off kd k : goes_to kd = Some k → kind_off kd = Some k.
Proof. by destruct kd. Qed.

(** ** Well-formed code *)

(** Every jump leads into the code or just past its end, and the length of the
    code fits the offsets. *)
Definition wf_code (insns : list Insn) : Prop :=
  vlen insns < 2 ^ 31 ∧
  ∀ i insn k, insns !! i = Some insn → insn_jump_off insn = Some k → 0 ≤ Z.of_nat i + 1 + k ≤ vlen insns.

Section lockstep.
Context {V E H : Type} `{Host V E H}.
Abbreviation config := (config V E H).
Abbreviation stop := (stop V E H).
Implicit Types (code : FnCode V) (c : config) (o : stop).

Lemma jump_pc_ok code next k :
  0 ≤ Z.of_nat next + k ≤ vlen (insns code) → jump_pc code next k = Some (Z.to_nat (Z.of_nat next + k)).
Proof.
  intros Hk. unfold jump_pc.
  destruct (Z.ltb_spec (Z.of_nat next + k) 0), (Z.ltb_spec (vlen (insns code)) (Z.of_nat next + k)); [lia..|done].
Qed.

Lemma wf_jump_pc code i insn k :
  wf_code (insns code) → insns code !! i = Some insn → insn_jump_off insn = Some k →
  jump_pc code (S i) k = Some (Z.to_nat (Z.of_nat i + 1 + k)).
Proof.
  intros [_ Hwf] Hi Hk. specialize (Hwf i insn k Hi Hk). rewrite jump_pc_ok by lia.
  do 2 f_equal. lia.
Qed.

(** *** Related configurations *)

(** How positions and handler stacks of two codes correspond. *)
Context (Rc : nat → list nat → nat → list nat → Prop).

Definition related_config c c' : Prop :=
  Rc (pc c) (handlers c) (pc c') (handlers c') ∧ st c = st c' ∧ inject c = inject c'.

(** Equal results; a suspended frame is saved at related positions. *)
Definition related_stop o o' : Prop :=
  match o, o' with
  | Returned v s, Returned v' s' => v = v' ∧ s = s'
  | Escaped e s, Escaped e' s' => e = e' ∧ s = s'
  | Yielded v p hs s, Yielded v' p' hs' s' => v = v' ∧ s = s' ∧ Rc p hs p' hs'
  | BadPc s, BadPc s' => s = s'
  | Crashed, Crashed => True
  | _, _ => False
  end.

Definition related_next (x x' : config + stop) : Prop :=
  match x, x' with
  | inl c, inl c' => related_config c c' ∧ inject c = None
  | inr o, inr o' => related_stop o o'
  | _, _ => False
  end.

Lemma related_goto s p hs p' hs' :
  Rc p hs p' hs' → related_next (inl (Config p hs s None)) (inl (Config p' hs' s None)).
Proof. done. Qed.

Definition related_handler (x x' : option (nat * list nat)) : Prop :=
  match x, x' with
  | Some (h, hs), Some (h', hs') => Rc h hs h' hs'
  | None, None => True
  | _, _ => False
  end.

Lemma handle_vm_error_related code code' e s p p' hs hs' :
  related_handler (find_handler code p hs) (find_handler code' p' hs') →
  related_next (handle_vm_error code e s p hs) (handle_vm_error code' e s p' hs').
Proof.
  unfold handle_vm_error. destruct (find_handler code p hs) as [[h hs1]|], (find_handler code' p' hs') as [[h' hs1']|];
    try done; cbn [related_handler]; intros Hh.
  - destruct (host_catch e s) as [s1|[e1 s1]]; [by apply related_goto|done].
  - by destruct (host_escape e s).
Qed.

Lemma vm_try_related {A} code code' p p' hs hs' (m : eff (state V H) E A) k k' :
  related_handler (find_handler code p hs) (find_handler code' p' hs') →
  (∀ a s, related_next (k a s) (k' a s)) →
  related_next (vm_try code p hs m k) (vm_try code' p' hs' m k').
Proof. intros Hh Hk. destruct m; cbn; [apply Hk|by apply handle_vm_error_related|done]. Qed.

(** What the positions reached from an instruction must satisfy; its offset is
    changed by [f]. *)
Record lockstep code code' (p p' : nat) (hs hs' : list nat) (kd : Kind) (f : Z → Z) : Prop := {
  ls_here : Rc p hs p' hs';
  ls_handler : related_handler (find_handler code p hs) (find_handler code' p' hs');
  ls_next : falls_through kd = true → Rc (S p) hs (S p') hs';
  ls_jump k : goes_to kd = Some k →
    ∃ t t', jump_pc code (S p) k = Some t ∧ jump_pc code' (S p') (f k) = Some t' ∧ Rc t hs t' hs';
  ls_setup k : kd = KSetup k →
    ∃ t t', jump_pc code (S p) k = Some t ∧ jump_pc code' (S p') (f k) = Some t' ∧
      Rc (S p) (t :: hs) (S p') (t' :: hs');
  ls_pop : kd = KPop → Rc (S p) (tail hs) (S p') (tail hs');
}.

Lemma eval_cond_eq code code' cd s :
  consts code' = consts code → num_locals code' = num_locals code → eval_cond code' cd s = eval_cond code cd s.
Proof. intros Hc Hl. unfold eval_cond, vm_read, unset_error. by rewrite Hc, Hl. Qed.

Lemma exec_plain_eq code code' insn s :
  consts code' = consts code → num_locals code' = num_locals code → exec_plain code' insn s = exec_plain code insn s.
Proof. intros Hc Hl. unfold exec_plain, const_operand, vm_read, unset_error. by rewrite Hc, Hl. Qed.

Lemma dispatch_lockstep code code' p p' hs hs' s insn f :
  consts code' = consts code → num_locals code' = num_locals code →
  lockstep code code' p p' hs hs' (kind_of insn) f →
  related_next (dispatch code p hs s insn) (dispatch code' p' hs' s (map_offset f insn)).
Proof.
  intros Hc Hl Hls. unfold dispatch. rewrite kind_of_map_offset.
  pose proof (kind_of_off insn) as Hoff.
  destruct (kind_of insn) as [k|sense cd k|i k|k| |[src|]|i|rewind i|i] eqn:Hk; cbn [map_kind].
  - destruct (ls_jump _ _ _ _ _ _ _ _ Hls k eq_refl) as (t & t' & Ht & Ht' & HR).
    unfold jump_to. by rewrite Ht, Ht'.
  - rewrite (eval_cond_eq code code') by done. apply vm_try_related; [apply Hls|]. intros b s1.
    destruct (Bool.eqb b sense); [|by apply related_goto, Hls].
    destruct (ls_jump _ _ _ _ _ _ _ _ Hls k eq_refl) as (t & t' & Ht & Ht' & HR).
    unfold jump_to. by rewrite Ht, Ht'.
  - rewrite erase_map_offset. apply vm_try_related; [apply Hls|]. intros b s1.
    destruct b; [|by apply related_goto, Hls].
    destruct (ls_jump _ _ _ _ _ _ _ _ Hls k eq_refl) as (t & t' & Ht & Ht' & HR).
    unfold jump_to. by rewrite Ht, Ht'.
  - destruct (ls_setup _ _ _ _ _ _ _ _ Hls k eq_refl) as (t & t' & -> & -> & HR). by apply related_goto.
  - by apply related_goto, (ls_pop _ _ _ _ _ _ _ _ Hls).
  - unfold vm_read, unset_error. rewrite Hl. apply vm_try_related; [apply Hls|]. done.
  - done.
  - destruct (host_raise i s) as [e s1]. apply handle_vm_error_related, Hls.
  - apply vm_try_related; [apply Hls|]. intros [v|] s1; [|by apply related_goto, Hls].
    cbn. split_and!; [done..|]. destruct rewind; [apply Hls|by apply Hls].
  - rewrite (exec_plain_eq code code') by done. apply vm_try_related; [apply Hls|]. intros _ s1.
    by apply related_goto, Hls.
Qed.

(** *** One step *)

Lemma related_next_matched code code' c c' measure :
  related_next (step code c) (step code' c') →
  matched (step code) (step code') related_config related_stop measure c c'.
Proof.
  unfold matched. destruct (step code c) as [c1|o] eqn:Hs, (step code' c') as [c1'|o'] eqn:Hs'; try done; cbn.
  - intros [HR _]. left. exists c1', c1'. eauto using steps.
  - intros HR. exists c', o'. eauto using steps.
Qed.

Lemma step_inject code code' c c' e :
  related_config c c' → inject c = Some e →
  related_handler (find_handler code (wrapping_pred (pc c)) (handlers c))
    (find_handler code' (wrapping_pred (pc c')) (handlers c')) →
  related_next (step code c) (step code' c').
Proof.
  intros (HR & Hst & Hinj) He Hh. unfold step. rewrite <- Hinj, He, <- Hst. by apply handle_vm_error_related.
Qed.

Lemma step_end code code' c c' :
  related_config c c' → inject c = None → pc c = length (insns code) → pc c' = length (insns code') →
  related_next (step code c) (step code' c').
Proof.
  intros (HR & Hst & Hinj) He Hp Hp'. unfold step. rewrite <- Hinj, He, Hp, Hp', <- Hst.
  rewrite !lookup_ge_None_2 by lia. by rewrite !Nat.eqb_refl.
Qed.

Lemma step_lockstep code code' c c' insn f :
  consts code' = consts code → num_locals code' = num_locals code →
  related_config c c' → inject c = None →
  insns code !! pc c = Some insn → insns code' !! pc c' = Some (map_offset f insn) →
  lockstep code code' (pc c) (pc c') (handlers c) (handlers c') (kind_of insn) f →
  related_next (step code c) (step code' c').
Proof.
  intros Hc Hl (HR & Hst & Hinj) He Hi Hi' Hls. unfold step. rewrite <- Hinj, He, Hi, Hi', <- Hst.
  by apply dispatch_lockstep.
Qed.
End lockstep.

(** ** Codes without an exception table *)

(** Before [build_exc_table] the handlers are those of the stack alone. *)
Lemma find_handler_dynamic {V} (code : FnCode V) p hs :
  exc_table code = [] → find_handler code p hs = match hs with h :: hs => Some (h, hs) | [] => None end.
Proof. intros Ht. unfold find_handler. by rewrite Ht. Qed.

(** Changing the instructions of a code. *)
Definition with_insns {V} (code : FnCode V) (insns' : list Insn) : FnCode V :=
  {| insns := insns'; consts := consts code; num_locals := num_locals code; exc_table := exc_table code |}.

(** The configuration in which a frame starts. *)
Definition start {V E H} (s : state V H) : config V E H := Config 0 [] s None.

Lemma map_offset_same insn : map_offset (λ k, k) insn = insn.
Proof. by destruct insn. Qed.

(** ** Where control goes *)

Section flow.
Context {V E H : Type} `{Host V E H}.
Implicit Types (code : FnCode V) (c : config V E H).

(** The position and handlers after the instruction [insn] at [p]. *)
Inductive flows code (p : nat) (hs : list nat) (insn : Insn) : nat → list nat → Prop :=
  | flows_jump k t :
      goes_to (kind_of insn) = Some k → jump_pc code (S p) k = Some t → flows code p hs insn t hs
  | flows_next : falls_through (kind_of insn) = true → flows code p hs insn (S p) hs
  | flows_setup k t :
      kind_of insn = KSetup k → jump_pc code (S p) k = Some t → flows code p hs insn (S p) (t :: hs)
  | flows_pop : kind_of insn = KPop → flows code p hs insn (S p) (tail hs).

(** A step handles an exception or follows the instruction at hand. *)
Lemma handle_vm_error_inl code e s p hs c' :
  handle_vm_error code e s p hs = inl c' → find_handler code p hs = Some (pc c', handlers c') ∧ inject c' = None.
Proof.
  unfold handle_vm_error. destruct (find_handler code p hs) as [[h hs1]|]; [|by destruct (host_escape e s)].
  destruct (host_catch e s) as [s1|[e1 s1]]; [|done]. by intros [= <-].
Qed.

Lemma vm_try_inl {A} code p hs (m : eff (state V H) E A) k c' (P : Prop) :
  vm_try code p hs m k = inl c' → (∀ a s, k a s = inl c' → P) →
  P ∨ find_handler code p hs = Some (pc c', handlers c') ∧ inject c' = None.
Proof. intros Ht Hk. destruct m; cbn in Ht; [left; by eapply Hk|right; by eapply handle_vm_error_inl|done]. Qed.

Lemma jump_to_inl code p k hs s c' :
  jump_to code p k hs s = inl c' → jump_pc code p k = Some (pc c') ∧ handlers c' = hs ∧ inject c' = None.
Proof. unfold jump_to. destruct (jump_pc code p k); [|done]. by intros [= <-]. Qed.

Lemma dispatch_inl code p hs s insn c' :
  dispatch code p hs s insn = inl c' →
  inject c' = None ∧
  (flows code p hs insn (pc c') (handlers c') ∨ find_handler code p hs = Some (pc c', handlers c')).
Proof.
  unfold dispatch.
  assert (Hgoto : ∀ k s, goes_to (kind_of insn) = Some k → jump_to code (S p) k hs s = inl c' →
    inject c' = None ∧ flows code p hs insn (pc c') (handlers c')).
  { intros k s1 Hk Hj. destruct (jump_to_inl _ _ _ _ _ _ Hj) as (Ht & Hhs & Hi). split; [done|].
    rewrite Hhs. by apply flows_jump with k. }
  assert (Hnext : ∀ s, falls_through (kind_of insn) = true → inl (B := stop V E H) (Config (S p) hs s None) = inl c' →
    inject c' = None ∧ flows code p hs insn (pc c') (handlers c')).
  { intros s1 Hk [= <-]. split; [done|]. by apply flows_next. }
  enough (dispatch code p hs s insn = inl c' →
      (inject c' = None ∧ flows code p hs insn (pc c') (handlers c')) ∨
      find_handler code p hs = Some (pc c', handlers c') ∧ inject c' = None)
    as Hgoal by (intros Hd; destruct (Hgoal Hd) as [[? ?]|[? ?]]; tauto).
  unfold dispatch.
  destruct (kind_of insn) as [k|sense cd k|i k|k| |[src|]|i|rewind i|i] eqn:Hkd; intros Hd.
  - left. by apply (Hgoto k s).
  - eapply vm_try_inl; [exact Hd|]. intros b s1. cbn beta. destruct (Bool.eqb b sense); [exact (Hgoto k s1 eq_refl)|exact (Hnext s1 eq_refl)].
  - eapply vm_try_inl; [exact Hd|]. intros [] s1; cbn beta iota; [exact (Hgoto k s1 eq_refl)|exact (Hnext s1 eq_refl)].
  - destruct (jump_pc code (S p) k) as [t|] eqn:Ht; [|done]. injection Hd as <-. left.
    split; [done|]. by apply flows_setup with k.
  - injection Hd as <-. left. split; [done|]. by apply flows_pop.
  - eapply vm_try_inl; [exact Hd|]. done.
  - done.
  - destruct (host_raise i s) as [e s1]. right. by eapply handle_vm_error_inl.
  - eapply vm_try_inl; [exact Hd|]. intros [v|] s1; cbn beta iota; [done|exact (Hnext s1 eq_refl)].
  - eapply vm_try_inl; [exact Hd|]. intros u s1. exact (Hnext s1 eq_refl).
Qed.

Lemma step_inl code c c' :
  step code c = inl c' →
  inject c' = None ∧
  ((∃ insn, inject c = None ∧ insns code !! pc c = Some insn ∧
      flows code (pc c) (handlers c) insn (pc c') (handlers c')) ∨
   find_handler code (match inject c with Some _ => wrapping_pred (pc c) | None => pc c end) (handlers c) =
     Some (pc c', handlers c')).
Proof.
  unfold step. destruct (inject c) as [e|].
  - intros Hh. apply handle_vm_error_inl in Hh as [? ?]. tauto.
  - destruct (insns code !! pc c) as [insn|] eqn:Hi; [|by destruct (_ =? _)%nat].
    intros Hd. apply dispatch_inl in Hd as [? [?|?]]; [|tauto]. split; [done|]. left. eauto.
Qed.
End flow.

(** Reachable configurations are an invariant. *)
Lemma steps_preserved {A X} (f : A → A + X) a : preserved f (steps f a).
Proof. intros b c Hb Hc. apply steps_trans with b; [done|]. by apply steps_one. Qed.
