(* ===== verification/Passes.v ===== *)
(** Passes of the bytecode optimizer (crates/pyrust/src/optimizer) that move
    instructions and redirect jumps: compaction, jump threading, exit-block
    inlining, loop inversion, dead code, [LoadNone] merging and constant-pool
    compaction. *)

From S2P Require Import Prelude IntArith Bytecode Vm.

(** The index a jump at [pc] leads to, converted to [usize]. *)
Definition jump_target (pc : nat) (k : Z) : nat := Z.to_nat (as_u64 (Z.of_nat pc + 1 + k)).

(** [x as i32] *)
Definition as_i32 (x : Z) : Z := (x + 2 ^ 31) mod 2 ^ 32 - 2 ^ 31.

(** ** Compaction *)

(** The index of the first kept instruction at or after each old index, with
    the end of the code last. *)
Fixpoint to_new_from (cnt : nat) (keep : list bool) : list nat :=
  match keep with
  | [] => [cnt]
  | b :: keep => cnt :: to_new_from (if b : bool then S cnt else cnt) keep
  end.

Definition to_new_map (keep : list bool) : list nat := to_new_from 0 keep.

Definition rewrite_offsets_with (insn : Insn) (old_i : nat) (placement_map jump_target_map : list nat) : res Insn :=
  match insn_jump_off insn with
  | None => Ok insn
  | Some k =>
      new_src ← vnth placement_map old_i;
      new_target ← vnth jump_target_map (jump_target old_i k);
      Ok (map_offset (λ _, as_i32 (Z.of_nat new_target - Z.of_nat new_src - 1)) insn)
  end.

Definition rewrite_offsets (insn : Insn) (old_i : nat) (to_new : list nat) : res Insn :=
  rewrite_offsets_with insn old_i to_new to_new.

Fixpoint compact_from (old_i : nat) (insns : list Insn) (keep : list bool) (to_new : list nat) : res (list Insn) :=
  match insns, keep with
  | insn :: insns, true :: keep =>
      insn ← rewrite_offsets insn old_i to_new;
      rest ← compact_from (S old_i) insns keep to_new;
      Ok (insn :: rest)
  | _ :: insns, false :: keep => compact_from (S old_i) insns keep to_new
  | _, _ => Ok []
  end.

Definition compact (insns : list Insn) (keep : list bool) : res (list Insn) :=
  _ ← rassert (length insns =? length keep)%nat;
  compact_from 0 insns keep (to_new_map keep).

(** ** Trivial instructions *)

Definition not_trivial_nop (insn : Insn) : bool :=
  match insn with
  | Op.Jump k => negb (k =? 0)
  | Op.Move dst src | Op.CopyReg dst src => negb (dst =? src)
  | _ => true
  end.

Definition pass_trivial_nop (insns : list Insn) : res (list Insn) := compact insns (not_trivial_nop <$> insns).

(** ** Jump threading *)

(** The loop of [follow], with the visited indices in [seen]. *)
Fixpoint follow_from (fuel : nat) (insns : list Insn) (pc : nat) (seen : list nat) : res nat :=
  match fuel with
  | O => Diverge
  | S fuel =>
      if (length insns <=? pc)%nat || bool_decide (pc ∈ seen) then Ok pc
      else
        match insns !! pc with
        | Some (Op.Jump k) =>
            if 0 <=? k then follow_from fuel insns (jump_target pc k) (pc :: seen) else Ok pc
        | _ => Ok pc
        end
  end.

Definition follow (insns : list Insn) (start : nat) : res nat :=
  follow_from (S (length insns)) insns start [].

(** The jumps that [pass_thread_jumps] threads. *)
Definition threaded (insn : Insn) : bool :=
  match insn with
  | Op.Jump _ | Op.JumpIfFalse _ _ | Op.JumpIfTrue _ _ | Op.CmpJumpIfFalse _ _ _ _ | Op.CmpJumpIfTrue _ _ _ _
  | Op.CmpJumpIfFalseConst _ _ _ _ | Op.CmpJumpIfTrueConst _ _ _ _ | Op.ForIter _ _ _ | Op.SetupExcept _
  | Op.MatchExcept _ _ | Op.MatchExceptStar _ _ _ _ => true
  | _ => false
  end.

(** [final_t as i64 - i as i64 - 1]: an index beyond [i64::MAX] is negative. *)
Definition thread (insns : list Insn) (i : nat) (k : Z) : res Z :=
  final_t ← follow insns (jump_target i k);
  Ok (as_i32 (as_i64 (Z.of_nat final_t) - Z.of_nat i - 1)).

Definition thread_insn (insns : list Insn) (i : nat) (insn : Insn) : res Insn :=
  match insn_jump_off insn with
  | Some k =>
      if threaded insn then k' ← thread insns i k; Ok (map_offset (λ _, k') insn) else Ok insn
  | None => Ok insn
  end.

Definition pass_thread_jumps (insns : list Insn) : res (list Insn) :=
  mapM (λ '(i, insn), thread_insn insns i insn) (enumerate insns).

(** ** Exit-block inlining *)

Definition exit_inline_insn (insns : list Insn) (i : nat) (insn : Insn) : Insn :=
  match insn with
  | Op.Jump k =>
      let target := jump_target i k in
      match insns !! target with
      | Some (Op.Return r) => if (target =? i)%nat then insn else Op.Return r
      | Some Op.ReturnNone => if (target =? i)%nat then insn else Op.ReturnNone
      | _ => insn
      end
  | _ => insn
  end.

Definition pass_exit_inline (insns : list Insn) : list Insn :=
  (λ '(i, insn), exit_inline_insn insns i insn) <$> enumerate insns.

(** ** Loop inversion *)

(** The offset of a loop header and the instruction that replaces the jump back
    to it. *)
Definition inverted_header (insn : Insn) : option (Z * Insn) :=
  match insn with
  | Op.CmpJumpIfFalseConst r op c k => Some (k, Op.CmpJumpIfTrueConst r op c (- k))
  | Op.CmpJumpIfFalse r op b k => Some (k, Op.CmpJumpIfTrue r op b (- k))
  | Op.CmpJumpIfTrueConst r op c k => Some (k, Op.CmpJumpIfFalseConst r op c (- k))
  | Op.CmpJumpIfTrue r op b k => Some (k, Op.CmpJumpIfFalse r op b (- k))
  | _ => None
  end.

Definition invert_at (out : list Insn) (j : nat) : list Insn :=
  match out !! j with
  | Some insn =>
      match inverted_header insn with
      | Some (k, replacement) =>
          if k <? 2 then out
          else
            let back := (j + Z.to_nat k)%nat in
            match out !! back with
            | Some (Op.Jump bk) => if bk =? - (k + 1) then <[back := replacement]> out else out
            | _ => out
            end
      | None => out
      end
  | None => out
  end.

Definition pass_loop_inversion (insns : list Insn) : list Insn :=
  foldl invert_at insns (seq 0 (length insns)).

(** ** Dead code *)

Definition is_late_stage_guard_insn (insn : Insn) : bool :=
  match insn with
  | Op.JumpIfNotInt _ _ | Op.JumpIfIterNotIntRange _ _ | Op.JumpIfIterNotIndexedSeq _ _
  | Op.JumpIfIterNotIntRangeExact _ _ | Op.GetItemSeqIntOrExit _ _ _ _ | Op.JumpIfNotBuiltinLen _ _
  | Op.LenSeqOrExit _ _ _ | Op.CountCmpJumpTrue _ _ _ _ _ | Op.CountCmpJumpFalse _ _ _ _ _
  | Op.CallInlineBinOp _ _ _ _ _ _ _ => true
  | _ => false
  end.

Definition debug_assert_no_late_stage_insns (insns : list Insn) : res unit :=
  rassert (negb (existsb is_late_stage_guard_insn insns)).

(** What the walk pushes, the last one first. *)
Definition dead_code_successors (pc : nat) (insn : Insn) : list nat :=
  match insn with
  | Op.Jump k => [jump_target pc k]
  | Op.Return _ | Op.ReturnNone | Op.RaiseValue _ | Op.RaiseExceptStarResidual _ | Op.RaiseReRaise
  | Op.RaiseFrom _ _ | Op.RaiseAssert _ | Op.RaiseAssertNoMsg => []
  | Op.JumpIfFalse _ k | Op.JumpIfTrue _ k | Op.CmpJumpIfFalse _ _ _ k | Op.CmpJumpIfTrue _ _ _ k
  | Op.CmpJumpIfFalseConst _ _ _ k | Op.CmpJumpIfTrueConst _ _ _ k | Op.ForIter _ _ k | Op.MatchExcept _ k
  | Op.MatchExceptStar _ _ _ k | Op.SetupExcept k => [jump_target pc k; S pc]
  | _ => [S pc]
  end.

(** The worklist, popped and pushed at its head. *)
Fixpoint reachable_loop (fuel : nat) (insns : list Insn) (reachable : list bool) (queue : list nat) : res (list bool) :=
  match fuel with
  | O => Diverge
  | S fuel =>
      match queue with
      | [] => Ok reachable
      | pc :: queue =>
          match insns !! pc, reachable !! pc with
          | Some insn, Some false =>
              reachable_loop fuel insns (<[pc := true]> reachable) (dead_code_successors pc insn ++ queue)
          | _, _ => reachable_loop fuel insns reachable queue
          end
      end
  end.

(** Each instruction is visited once and pushes at most two others. *)
Definition reachable_insns (insns : list Insn) : res (list bool) :=
  reachable_loop (2 * length insns + 2) insns (replicate (length insns) false) [0%nat].

Definition pass_dead_code (insns : list Insn) : res (list Insn) :=
  _ ← debug_assert_no_late_stage_insns insns;
  reachable ← reachable_insns insns;
  compact insns reachable.

(** ** Constant-pool compaction *)

Definition mark_used (used : list bool) (insn : Insn) : list bool :=
  match const_index insn with
  | Some c => if c <? vlen used then <[Z.to_nat c := true]> used else used
  | None => used
  end.

(** The map from old indices to new ones, and the constants that are kept. *)
Fixpoint compact_pool {V} (used : list bool) (consts : list V) (new_len : nat) : res (list (option Z) * list V) :=
  match used, consts with
  | true :: used, val :: consts =>
      _ ← rassert (Z.of_nat new_len <? 2 ^ 16);
      '(old_to_new, new_consts) ← compact_pool used consts (S new_len);
      Ok (Some (Z.of_nat new_len) :: old_to_new, val :: new_consts)
  | false :: used, _ :: consts =>
      '(old_to_new, new_consts) ← compact_pool used consts new_len;
      Ok (None :: old_to_new, new_consts)
  | _, _ => Ok ([], [])
  end.

Definition remap_insn (old_to_new : list (option Z)) (insn : Insn) : res Insn :=
  match const_index insn with
  | None => Ok insn
  | Some c =>
      slot ← vnth old_to_new (Z.to_nat c);
      new_c ← expect slot;
      Ok (map_const (λ _, new_c) insn)
  end.

Definition pass_compact_consts {V} (insns : list Insn) (consts : list V) : res (list Insn * list V) :=
  if (length consts =? 0)%nat then Ok (insns, consts)
  else
    let used := foldl mark_used (replicate (length consts) false) insns in
    if forallb (λ u, u) used then Ok (insns, consts)
    else
      '(old_to_new, new_consts) ← compact_pool used consts 0;
      new_insns ← mapM (remap_insn old_to_new) insns;
      Ok (new_insns, new_consts).
