(* ===== verification/PassesSpec.v ===== *)
(** Compaction: where the kept instructions and the targets of their jumps go,
    and that leaving out instructions that do nothing changes no execution.

    Dropping instructions that do nothing or that control never reaches changes
    no execution.

    Threading and inlining jumps and inverting loops change no execution.

    Dropping unused constants changes no step. *)

From S2P Require Import Outcome Prelude IntArith Bytecode Vm VmSpec Passes.

(** ** Indices *)

(** The number of kept instructions before [i]. *)
Fixpoint new_index (keep : list bool) (i : nat) : nat :=
  match keep, i with
  | b :: keep, S i => if b : bool then S (new_index keep i) else new_index keep i
  | _, _ => O
  end.

Lemma new_index_0 keep : new_index keep 0 = 0%nat.
Proof. by destruct keep. Qed.

Lemma new_index_cons b keep i : new_index (b :: keep) (S i) = ((if b : bool then 1 else 0) + new_index keep i)%nat.
Proof. by destruct b. Qed.

Lemma new_index_S keep i (b : bool) :
  keep !! i = Some b → new_index keep (S i) = ((if b then 1 else 0) + new_index keep i)%nat.
Proof.
  revert i. induction keep as [|b' keep IH]; intros [|i] Hi; try done.
  - injection Hi as ->. by rewrite new_index_cons, !new_index_0.
  - rewrite new_index_cons, (IH i) by done. rewrite new_index_cons. destruct b, b'; lia.
Qed.

Lemma new_index_kept keep i : keep !! i = Some true → new_index keep (S i) = S (new_index keep i).
Proof. intros Hi. by rewrite (new_index_S keep i true). Qed.

Lemma new_index_removed keep i : keep !! i = Some false → new_index keep (S i) = new_index keep i.
Proof. intros Hi. by rewrite (new_index_S keep i false). Qed.

Lemma new_index_le keep i j : (i ≤ j)%nat → (new_index keep i ≤ new_index keep j)%nat.
Proof.
  revert i j. induction keep as [|b keep IH]; intros [|i] [|j] Hij; cbn; try lia.
  specialize (IH i j). destruct b; lia.
Qed.

Lemma new_index_bound keep i : (new_index keep i ≤ i)%nat.
Proof. revert i. induction keep as [|b keep IH]; intros [|i]; cbn; try lia. specialize (IH i). destruct b; lia. Qed.

Lemma to_new_from_lookup cnt keep i :
  (i ≤ length keep)%nat → to_new_from cnt keep !! i = Some (cnt + new_index keep i)%nat.
Proof.
  revert cnt i. induction keep as [|b keep IH]; intros cnt i Hi; cbn in Hi.
  - assert (i = 0%nat) as -> by lia. cbn. by rewrite Nat.add_0_r.
  - destruct i as [|i]; cbn [to_new_from lookup list_lookup].
    + by rewrite new_index_0, Nat.add_0_r.
    + rewrite IH by lia. rewrite new_index_cons. f_equal. destruct b; lia.
Qed.

Lemma to_new_lookup keep i : (i ≤ length keep)%nat → to_new_map keep !! i = Some (new_index keep i).
Proof. apply to_new_from_lookup. Qed.

(** ** Offsets *)

Lemma as_i32_id x : - 2 ^ 31 ≤ x < 2 ^ 31 → as_i32 x = x.
Proof. intros Hx. unfold as_i32. rewrite Z.mod_small; lia. Qed.

Lemma jump_target_ok p k : 0 ≤ Z.of_nat p + 1 + k < 2 ^ 31 → jump_target p k = Z.to_nat (Z.of_nat p + 1 + k).
Proof. intros Hk. unfold jump_target. rewrite as_u64_id; [done|]. unfold u64_range, two64. lia. Qed.

Lemma wf_jump_target insns i insn k :
  wf_code insns → insns !! i = Some insn → insn_jump_off insn = Some k →
  jump_target i k = Z.to_nat (Z.of_nat i + 1 + k) ∧ (jump_target i k ≤ length insns)%nat ∧
  k = Z.of_nat (jump_target i k) - Z.of_nat i - 1.
Proof.
  intros [Hn Hwf] Hi Hk. specialize (Hwf i insn k Hi Hk). unfold vlen in *.
  rewrite jump_target_ok by lia. split; [done|]. lia.
Qed.

(** The offset, after compaction, of a jump at [i]. *)
Definition new_offset (keep : list bool) (i : nat) (k : Z) : Z :=
  Z.of_nat (new_index keep (jump_target i k)) - Z.of_nat (new_index keep i) - 1.

Definition moved (keep : list bool) (i : nat) (insn : Insn) : Insn := map_offset (new_offset keep i) insn.

Lemma map_offset_ext f g insn :
  (∀ k, insn_jump_off insn = Some k → f k = g k) → map_offset f insn = map_offset g insn.
Proof. by destruct insn; cbn; intros Hfg; rewrite ?Hfg by done. Qed.

Lemma rewrite_offsets_ok insns keep i insn :
  wf_code insns → length keep = length insns → insns !! i = Some insn →
  rewrite_offsets insn i (to_new_map keep) = Ok (moved keep i insn).
Proof.
  intros Hwf Hlen Hi. unfold rewrite_offsets, rewrite_offsets_with, moved.
  destruct (insn_jump_off insn) as [k|] eqn:Hk; [|by rewrite map_offset_none].
  destruct (wf_jump_target insns i insn k Hwf Hi Hk) as (_ & Ht & _). apply lookup_lt_Some in Hi as Hlt.
  rewrite (vnth_lookup _ i (new_index keep i)) by (apply to_new_lookup; lia). cbn.
  rewrite (vnth_lookup _ (jump_target i k) (new_index keep (jump_target i k))) by (apply to_new_lookup; lia). cbn.
  f_equal. apply map_offset_ext. intros k' [= <-]%(eq_trans (eq_sym Hk)). apply as_i32_id.
  pose proof (new_index_bound keep i). pose proof (new_index_bound keep (jump_target i k)).
  destruct Hwf as [Hn _]. unfold vlen in Hn. unfold new_offset. lia.
Qed.

(** ** The compacted code *)

Fixpoint kept_from (g : nat → Insn → Insn) (old : nat) (insns : list Insn) (keep : list bool) : list Insn :=
  match insns, keep with
  | insn :: insns, true :: keep => g old insn :: kept_from g (S old) insns keep
  | _ :: insns, false :: keep => kept_from g (S old) insns keep
  | _, _ => []
  end.

Definition compacted (keep : list bool) (insns : list Insn) : list Insn := kept_from (moved keep) 0 insns keep.

Lemma compact_from_ok g old insns keep to_new :
  (∀ i insn, insns !! i = Some insn → rewrite_offsets insn (old + i) to_new = Ok (g (old + i)%nat insn)) →
  compact_from old insns keep to_new = Ok (kept_from g old insns keep).
Proof.
  revert old keep. induction insns as [|insn insns IH]; intros old keep Hg; [done|].
  assert (Hrest : ∀ keep, compact_from (S old) insns keep to_new = Ok (kept_from g (S old) insns keep)).
  { intros keep'. apply IH. intros i insn' Hi. specialize (Hg (S i) insn' Hi).
    by rewrite Nat.add_succ_r in Hg. }
  destruct keep as [|[] keep]; cbn [compact_from kept_from]; [done| |by apply Hrest].
  specialize (Hg 0%nat insn eq_refl). rewrite Nat.add_0_r in Hg. rewrite Hg. cbn. by rewrite Hrest.
Qed.

Lemma compact_ok insns keep :
  wf_code insns → length keep = length insns → compact insns keep = Ok (compacted keep insns).
Proof.
  intros Hwf Hlen. unfold compact. rewrite rassert_true by (by rewrite Hlen, Nat.eqb_refl). cbn.
  apply compact_from_ok. intros i insn Hi. by apply rewrite_offsets_ok with insns.
Qed.

Lemma kept_from_lookup g old insns keep i insn :
  insns !! i = Some insn → keep !! i = Some true →
  kept_from g old insns keep !! new_index keep i = Some (g (old + i)%nat insn).
Proof.
  revert old keep i. induction insns as [|insn0 insns IH]; intros old [|b keep] [|i] Hi Hk; try done.
  - injection Hi as ->. injection Hk as ->. by rewrite new_index_0, Nat.add_0_r.
  - rewrite new_index_cons. replace (old + S i)%nat with (S old + i)%nat by lia.
    destruct b; cbn; by apply IH.
Qed.

Lemma kept_from_inv g old insns keep j insn' :
  kept_from g old insns keep !! j = Some insn' →
  ∃ i insn, insns !! i = Some insn ∧ keep !! i = Some true ∧ new_index keep i = j ∧ insn' = g (old + i)%nat insn.
Proof.
  revert old keep j. induction insns as [|insn0 insns IH]; intros old [|b keep] j Hj; try done.
  destruct b; cbn in Hj; [destruct j as [|j]; cbn in Hj|].
  - injection Hj as <-. exists 0%nat, insn0. by rewrite Nat.add_0_r.
  - destruct (IH _ _ _ Hj) as (i & insn & Hi & Hk & Hn & Hg). exists (S i), insn.
    rewrite new_index_cons, Hn. replace (old + S i)%nat with (S old + i)%nat by lia. done.
  - destruct (IH _ _ _ Hj) as (i & insn & Hi & Hk & Hn & Hg). exists (S i), insn.
    rewrite new_index_cons, Hn. replace (old + S i)%nat with (S old + i)%nat by lia. done.
Qed.

Lemma kept_from_length g old insns keep :
  length keep = length insns → length (kept_from g old insns keep) = new_index keep (length insns).
Proof.
  revert old keep. induction insns as [|insn insns IH]; intros old [|b keep] Hl; try done.
  cbn [length]. rewrite new_index_cons. destruct b; cbn; rewrite IH by (cbn in Hl; lia); done.
Qed.

Lemma compacted_length keep insns : length keep = length insns → length (compacted keep insns) = new_index keep (length insns).
Proof. apply kept_from_length. Qed.

Lemma compacted_lookup keep insns i insn :
  insns !! i = Some insn → keep !! i = Some true → compacted keep insns !! new_index keep i = Some (moved keep i insn).
Proof. intros Hi Hk. unfold compacted. by rewrite (kept_from_lookup _ _ _ _ i insn). Qed.

Lemma new_offset_target keep i k :
  Z.of_nat (S (new_index keep i)) + new_offset keep i k = Z.of_nat (new_index keep (jump_target i k)).
Proof. unfold new_offset. lia. Qed.

Lemma compacted_wf keep insns : length keep = length insns → wf_code insns → wf_code (compacted keep insns).
Proof.
  intros Hlen Hwf. pose proof (compacted_length keep insns Hlen) as Hl.
  pose proof (new_index_bound keep (length insns)) as Hb.
  split; [destruct Hwf as [Hn _]; unfold vlen in *; lia|].
  intros j insn' k Hj Hk. destruct (kept_from_inv _ _ _ _ _ _ Hj) as (i & insn & Hi & Hkeep & Hn & ->).
  cbn in Hk. unfold moved in Hk. rewrite map_offset_off in Hk.
  destruct (insn_jump_off insn) as [k0|] eqn:Hk0; [|done]. injection Hk as <-. subst j.
  destruct (wf_jump_target insns i insn k0 Hwf Hi Hk0) as (_ & Ht & _).
  pose proof (new_offset_target keep i k0). pose proof (new_index_le keep _ _ Ht). unfold vlen. lia.
Qed.

(** ** Simulation *)

Section simulation.
Context {V E H : Type} `{Host V E H}.
Implicit Types (code : FnCode V).

(** Positions and handlers are moved by the same map. *)
Definition compact_positions (n : nat) (keep : list bool) (p : nat) (hs : list nat) (p' : nat) (hs' : list nat) : Prop :=
  (p ≤ n)%nat ∧ Forall (λ h, (h ≤ n)%nat) hs ∧ p' = new_index keep p ∧ hs' = new_index keep <$> hs.

Context (code : FnCode V) (keep : list bool).
Hypothesis code_wf : wf_code (insns code).
Hypothesis code_dynamic : exc_table code = [].
Hypothesis keep_length : length keep = length (insns code).

Let n := length (insns code).
Let code' := with_insns code (compacted keep (insns code)).
Let Rc := compact_positions n keep.

Lemma compact_handler p hs p' hs' q q' :
  Rc p hs p' hs' → related_handler Rc (find_handler code q hs) (find_handler code' q' hs').
Proof using code_dynamic.
  intros (_ & Hhs & _ & ->). rewrite !find_handler_dynamic by done. destruct hs as [|h hs]; [done|].
  cbn. by apply Forall_cons in Hhs as [Hh Hhs].
Qed.

Lemma compact_jump_pc p insn k :
  insns code !! p = Some insn → insn_jump_off insn = Some k →
  jump_pc code (S p) k = Some (jump_target p k) ∧
  jump_pc code' (S (new_index keep p)) (new_offset keep p k) = Some (new_index keep (jump_target p k)) ∧
  (jump_target p k ≤ n)%nat.
Proof using code_wf keep_length.
  intros Hp Hk. destruct (wf_jump_target _ _ _ _ code_wf Hp Hk) as (Hj & Hle & _).
  rewrite (wf_jump_pc code p insn) by done. rewrite <- Hj. split_and!; [done| |done].
  pose proof (new_offset_target keep p k) as Ht. pose proof (new_index_le keep _ _ Hle).
  rewrite jump_pc_ok; [by rewrite Ht, Nat2Z.id|]. unfold vlen. cbn [insns code' with_insns].
  rewrite compacted_length by done. lia.
Qed.

Lemma compact_lockstep p hs p' hs' insn :
  Rc p hs p' hs' → insns code !! p = Some insn → keep !! p = Some true →
  lockstep Rc code code' p p' hs hs' (kind_of insn) (new_offset keep p).
Proof using code_wf code_dynamic keep_length.
  intros HR Hp Hkeep. pose proof HR as (Hpn & Hhs & -> & ->). apply lookup_lt_Some in Hp as Hlt.
  assert (Hnext : ∀ hs, Forall (λ h, (h ≤ n)%nat) hs → Rc (S p) hs (S (new_index keep p)) (new_index keep <$> hs)).
  { intros hs1 Hhs1. repeat split; [unfold n; lia|done|]. by rewrite new_index_kept. }
  pose proof (kind_of_off insn) as Hoff. split.
  - done.
  - by apply compact_handler with p (new_index keep p).
  - intros _. by apply Hnext.
  - intros k Hk. apply goes_to_off in Hk. rewrite Hoff in Hk.
    destruct (compact_jump_pc p insn k Hp Hk) as (Ht & Ht' & Hle). by exists (jump_target p k), (new_index keep (jump_target p k)).
  - intros k Hk. rewrite Hk in Hoff. symmetry in Hoff.
    destruct (compact_jump_pc p insn k Hp Hoff) as (Ht & Ht' & Hle).
    exists (jump_target p k), (new_index keep (jump_target p k)). split_and!; [done..|].
    apply (Hnext (jump_target p k :: hs)). by constructor.
  - intros _. rewrite <- (fmap_tail (new_index keep) hs). apply Hnext. by apply Forall_tail.
Qed.

(** Instructions are left out that, in the configurations of [I], only pass
    control to the next one. *)
Lemma compact_simulation (I : config V E H → Prop) c c' :
  preserved (step code) I →
  (∀ c, I c → inject c = None → keep !! pc c = Some false →
    step code c = inl (Config (S (pc c)) (handlers c) (st c) None)) →
  I c → related_config Rc c c' →
  same_ends (step code) (step code') (related_stop Rc) c c'.
Proof using code_wf code_dynamic keep_length.
  intros Hpres Hskip HI HR.
  apply (simulation _ _ (λ c c', I c ∧ related_config Rc c c') _ (λ c, n - pc c)%nat); [|done].
  clear c c' HI HR. intros c c' [HI HR].
  assert (Hlift : related_next Rc (step code c) (step code' c') →
    matched (step code) (step code') (λ c c', I c ∧ related_config Rc c c') (related_stop Rc) (λ c, n - pc c)%nat c c').
  { intros Hn. apply (matched_weaken _ _ (related_config Rc)); [|by apply related_next_matched].
    intros c1 b' Hs ?. split; [by apply (Hpres c)|done]. }
  destruct (inject c) as [e|] eqn:He.
  { apply Hlift, (step_inject Rc code code' c c' e); [done..|]. eapply compact_handler, HR. }
  pose proof HR as ((Hpn & Hhs & Hp' & Hhs') & Hst & Hinj).
  destruct (insns code !! pc c) as [insn|] eqn:Hi.
  - apply lookup_lt_Some in Hi as Hlt.
    destruct (lookup_lt_is_Some_2 keep (pc c)) as [b Hb]; [lia|]. destruct b.
    + apply Hlift, (step_lockstep Rc code code' c c' insn (new_offset keep (pc c))); try done.
      * rewrite Hp'. cbn [insns code' with_insns]. by rewrite (compacted_lookup _ _ _ insn).
      * by apply compact_lockstep; [apply HR|..].
    + unfold matched. pose proof (Hskip c HI He Hb) as Hs. rewrite Hs. right. cbn.
      split; [fold n in Hlt; lia|]. split; [by apply (Hpres c)|].
      split_and!; [|done|cbn; by rewrite <- Hinj, He]. cbn. split_and!; [fold n in Hlt; lia|done| |done].
      by rewrite new_index_removed.
  - apply lookup_ge_None in Hi. fold n in Hi. apply Hlift, (step_end Rc); [done..|fold n; lia|].
    rewrite Hp'. cbn [insns code' with_insns]. rewrite compacted_length by done. f_equal. fold n. lia.
Qed.
End simulation.

(** * Dead code *)


(** ** Reachability *)

Definition closed_under_successors (insns : list Insn) (reachable : list bool) (queue : list nat) : Prop :=
  ∀ p insn q, insns !! p = Some insn → reachable !! p = Some true → q ∈ dead_code_successors p insn →
    (q < length insns)%nat → reachable !! q = Some true ∨ q ∈ queue.

Fixpoint unvisited (reachable : list bool) : nat :=
  match reachable with [] => O | b :: reachable => ((if b : bool then 0 else 1) + unvisited reachable)%nat end.

Lemma unvisited_insert reachable p :
  reachable !! p = Some false → unvisited reachable = S (unvisited (<[p := true]> reachable)).
Proof.
  revert p. induction reachable as [|b reachable IH]; intros [|p] Hp; try done.
  - by injection Hp as ->.
  - cbn. rewrite (IH p Hp). by destruct b.
Qed.

Lemma dead_code_successors_length p insn : (length (dead_code_successors p insn) ≤ 2)%nat.
Proof. destruct insn; cbn; lia. Qed.

Lemma reachable_loop_ok fuel insns reachable queue :
  length reachable = length insns →
  (2 * unvisited reachable + length queue < fuel)%nat →
  closed_under_successors insns reachable queue →
  ∃ r, reachable_loop fuel insns reachable queue = Ok r ∧ length r = length insns ∧
    closed_under_successors insns r [] ∧
    (∀ p, reachable !! p = Some true → r !! p = Some true) ∧
    (∀ p, p ∈ queue → (p < length insns)%nat → r !! p = Some true).
Proof.
  revert reachable queue. induction fuel as [|fuel IH]; intros reachable queue Hlen Hfuel Hcl; [lia|].
  cbn [reachable_loop]. destruct queue as [|p queue]; [exists reachable; set_solver|]. cbn in Hfuel.
  assert (Hskip : ((p < length insns)%nat → reachable !! p = Some true) →
    ∃ r, reachable_loop fuel insns reachable queue = Ok r ∧ length r = length insns ∧
      closed_under_successors insns r [] ∧ (∀ p, reachable !! p = Some true → r !! p = Some true) ∧
      (∀ q, q ∈ p :: queue → (q < length insns)%nat → r !! q = Some true)).
  { intros Hp. destruct (IH reachable queue) as (r & Hr & Hl & Hc & Hm & Hq); [done|lia| |].
    - intros q insn t Hq Hqr Ht Hlt. destruct (Hcl q insn t Hq Hqr Ht Hlt) as [|[->|]%elem_of_cons]; auto.
    - exists r. split_and!; try done. intros q [->|Hin]%elem_of_cons Hlt; auto. }
  destruct (insns !! p) as [insn|] eqn:Hi.
  2:{ apply Hskip. intros Hlt. apply lookup_ge_None in Hi. lia. }
  destruct (reachable !! p) as [[]|] eqn:Hr; [by apply Hskip| |].
  2:{ apply lookup_ge_None in Hr. apply lookup_lt_Some in Hi. lia. }
  pose proof (unvisited_insert _ _ Hr) as Hu. pose proof (dead_code_successors_length p insn) as Hs.
  assert (Hmono : ∀ q, reachable !! q = Some true → <[p := true]> reachable !! q = Some true).
  { intros q Hq. destruct (decide (q = p)) as [->|]; [congruence|]. by rewrite list_lookup_insert_ne. }
  apply lookup_lt_Some in Hr as Hplt.
  destruct (IH (<[p := true]> reachable) (dead_code_successors p insn ++ queue)) as (r & Hloop & Hl & Hc & Hm & Hq).
  - by rewrite length_insert.
  - rewrite length_app. lia.
  - intros q insn' t Hq Hqr Ht Hlt. rewrite elem_of_app. destruct (decide (q = p)) as [->|Hne]; [set_solver|].
    rewrite list_lookup_insert_ne in Hqr by done.
    destruct (Hcl q insn' t Hq Hqr Ht Hlt) as [Hd|[->|Hd]%elem_of_cons]; auto.
    left. by apply list_lookup_insert_eq.
  - exists r. split_and!; try done; [by auto|]. intros q [->|Hin]%elem_of_cons Hlt.
    + apply Hm. by apply list_lookup_insert_eq.
    + apply Hq; [set_solver|done].
Qed.

Lemma unvisited_replicate n : unvisited (replicate n false) = n.
Proof. induction n; cbn; congruence. Qed.

(** The walk ends, and what it marks contains the entry and is closed. *)
Lemma reachable_insns_ok insns :
  ∃ r, reachable_insns insns = Ok r ∧ length r = length insns ∧ closed_under_successors insns r [] ∧
    ((0 < length insns)%nat → r !! 0%nat = Some true).
Proof.
  unfold reachable_insns.
  destruct (reachable_loop_ok (2 * length insns + 2) insns (replicate (length insns) false) [0%nat])
    as (r & Hr & Hl & Hc & _ & Hq).
  - by rewrite length_replicate.
  - rewrite unvisited_replicate. cbn. lia.
  - intros p insn q _ Hp. by apply lookup_replicate in Hp as [? _].
  - exists r. split_and!; try done. intros Hlt. apply Hq; [by left|done].
Qed.

(** The successors of the walk are where control can go. *)
Lemma dead_code_next p insn :
  is_late_stage_guard_insn insn = false →
  falls_through (kind_of insn) = true ∨ kind_of insn = KPop ∨ (∃ k, kind_of insn = KSetup k) →
  S p ∈ dead_code_successors p insn.
Proof.
  intros Hl Hk. destruct insn; cbn in Hl |- *; try done;
    try (by left); try (by right; left); destruct Hk as [Hk|[Hk|[k Hk]]]; done.
Qed.

Lemma dead_code_jump p insn k :
  is_late_stage_guard_insn insn = false → insn_jump_off insn = Some k → jump_target p k ∈ dead_code_successors p insn.
Proof. intros Hl Hk. destruct insn; cbn in Hl, Hk |- *; try done; injection Hk as ->; by left. Qed.

Section passes.
Context {V E H : Type} `{Host V E H}.
Implicit Types (code : FnCode V) (c : config V E H).

(** ** Trivial instructions *)

(** No execution from [c0] reaches a move of an unset register to itself. *)
Definition self_moves_set code c0 : Prop :=
  ∀ c r, steps (step code) c0 c → inject c = None →
    insns code !! pc c = Some (Op.Move r r) ∨ insns code !! pc c = Some (Op.CopyReg r r) →
    ∃ v, regs (st c) !! Z.to_nat r = Some (Some v).

Lemma self_move code r s v :
  regs s !! Z.to_nat r = Some (Some v) → eff_bind (vm_read code r s) (write_reg r) = Done tt s.
Proof.
  intros Hr. unfold vm_read, write_reg. rewrite Hr. cbn. rewrite Hr, list_insert_id by done. by destruct s.
Qed.

Lemma trivial_nop_step code c0 c :
  wf_code (insns code) → self_moves_set code c0 → steps (step code) c0 c → inject c = None →
  (not_trivial_nop <$> insns code) !! pc c = Some false →
  step code c = inl (Config (S (pc c)) (handlers c) (st c) None).
Proof.
  intros Hwf Hset Hc He Hk. rewrite list_lookup_fmap in Hk.
  destruct (insns code !! pc c) as [insn|] eqn:Hi; [|done]. injection Hk as Hk.
  unfold step. rewrite He, Hi.
  assert (Hmove : ∀ dst src, insn = Op.Move dst src ∨ insn = Op.CopyReg dst src → dst = src →
    dispatch code (pc c) (handlers c) (st c) insn = inl (Config (S (pc c)) (handlers c) (st c) None)).
  { intros dst src Hinsn ->. destruct (Hset c src Hc He) as [v Hv]; [by destruct Hinsn as [<-|<-]; auto|].
    unfold dispatch. destruct Hinsn as [->| ->]; cbn [kind_of insn_jump_off exec_plain];
      by rewrite (self_move code src (st c) v Hv). }
  destruct insn; try done; cbn in Hk; apply negb_false_iff, Z.eqb_eq in Hk; try (by eapply Hmove; eauto).
  subst. unfold dispatch. cbn [kind_of]. unfold jump_to.
  rewrite (wf_jump_pc code (pc c) (Op.Jump 0)) by done. do 2 f_equal. lia.
Qed.

Lemma trivial_nop_correct code c c' :
  wf_code (insns code) → exc_table code = [] → self_moves_set code c →
  related_config (compact_positions (length (insns code)) (not_trivial_nop <$> insns code)) c c' →
  ∃ insns', pass_trivial_nop (insns code) = Ok insns' ∧ wf_code insns' ∧
    same_ends (step code) (step (with_insns code insns'))
      (related_stop (compact_positions (length (insns code)) (not_trivial_nop <$> insns code))) c c'.
Proof.
  intros Hwf Hdyn Hset HR. assert (Hl : length (not_trivial_nop <$> insns code) = length (insns code))
    by by rewrite length_fmap.
  eexists. split; [by apply compact_ok|]. split; [by apply compacted_wf|].
  apply (compact_simulation code _ Hwf Hdyn Hl (steps (step code) c)); [apply steps_preserved| | |done].
  - intros c1 Hc1 He Hk. by apply trivial_nop_step with c.
  - apply steps_refl.
Qed.

(** ** Dead code *)

(** Where control is and may return by an exception is marked, or outside. *)
Definition on_reachable (n : nat) (r : list bool) c : Prop :=
  ∀ p, p = pc c ∨ p ∈ handlers c → (p < n)%nat → r !! p = Some true.

Lemma on_reachable_preserved code r :
  wf_code (insns code) → exc_table code = [] →
  existsb is_late_stage_guard_insn (insns code) = false →
  length r = length (insns code) → closed_under_successors (insns code) r [] →
  preserved (step code) (on_reachable (length (insns code)) r).
Proof.
  intros Hwf Hdyn Hlate Hlen Hcl c c' Hc Hs.
  destruct (step_inl code c c' Hs) as [_ [(insn & He & Hi & Hf)|Hh]].
  - assert (Hl : is_late_stage_guard_insn insn = false).
    { apply not_true_iff_false. intros Hl. apply not_true_iff_false in Hlate. apply Hlate.
      apply existsb_exists. exists insn. split; [|done]. apply list_elem_of_In. by eapply list_elem_of_lookup_2. }
    apply lookup_lt_Some in Hi as Hlt.
    assert (Hhere : r !! pc c = Some true) by (apply Hc; auto).
    assert (Hsucc : ∀ q, q ∈ dead_code_successors (pc c) insn → (q < length (insns code))%nat → r !! q = Some true).
    { intros q Hq Hql. destruct (Hcl _ _ _ Hi Hhere Hq Hql) as [|Hin]; [done|]. by apply elem_of_nil in Hin. }
    assert (Hjump : ∀ k t, insn_jump_off insn = Some k → jump_pc code (S (pc c)) k = Some t →
      (t < length (insns code))%nat → r !! t = Some true).
    { intros k t Hk Ht. rewrite (wf_jump_pc code (pc c) insn) in Ht by done. injection Ht as <-.
      destruct (wf_jump_target _ _ _ _ Hwf Hi Hk) as (<- & _). apply Hsucc. by apply dead_code_jump. }
    pose proof (kind_of_off insn) as Hoff.
    assert (Hold : ∀ p, p ∈ handlers c → (p < length (insns code))%nat → r !! p = Some true)
      by (intros p Hp; apply Hc; auto).
    unfold on_reachable. revert Hf. generalize (pc c'), (handlers c'). intros q hs' Hf p.
    destruct Hf as [k t Hk Ht|Hk|k t Hk Ht|Hk].
    + apply goes_to_off in Hk. rewrite Hoff in Hk. intros [->|Hp]; [by apply (Hjump k)|by apply Hold].
    + intros [->|Hp]; [apply Hsucc, dead_code_next; auto|by apply Hold].
    + rewrite Hk in Hoff. intros [->|[->|Hp]%elem_of_cons]; [|by apply (Hjump k)|by apply Hold].
      apply Hsucc, dead_code_next; eauto.
    + intros [->|Hp]; [apply Hsucc, dead_code_next; auto|]. apply Hold. by destruct (handlers c); [done|right].
  - rewrite find_handler_dynamic in Hh by done. destruct (handlers c) as [|h hs] eqn:Hhs; [done|].
    injection Hh as Hpc Hhs'. intros p Hp. rewrite <- Hpc, <- Hhs' in Hp. apply Hc. rewrite Hhs. right.
    destruct Hp as [->|]; [by left|by right].
Qed.

Lemma dead_code_correct code c c' :
  wf_code (insns code) → exc_table code = [] →
  existsb is_late_stage_guard_insn (insns code) = false →
  ∃ reachable insns', reachable_insns (insns code) = Ok reachable ∧
    pass_dead_code (insns code) = Ok insns' ∧ wf_code insns' ∧
    (on_reachable (length (insns code)) reachable c →
     related_config (compact_positions (length (insns code)) reachable) c c' →
     same_ends (step code) (step (with_insns code insns'))
       (related_stop (compact_positions (length (insns code)) reachable)) c c').
Proof.
  intros Hwf Hdyn Hlate. destruct (reachable_insns_ok (insns code)) as (r & Hr & Hl & Hcl & _).
  exists r, (compacted r (insns code)). split; [done|]. split.
  { unfold pass_dead_code, debug_assert_no_late_stage_insns. rewrite Hlate, Hr. cbn. by apply compact_ok. }
  split; [by apply compacted_wf|]. intros Hc HR.
  apply (compact_simulation code r Hwf Hdyn Hl (on_reachable (length (insns code)) r)); [by apply on_reachable_preserved| |done..].
  intros c1 Hc1 _ Hk. exfalso. rewrite (Hc1 (pc c1)) in Hk; [done|by left|].
  apply lookup_lt_Some in Hk. lia.
Qed.

Lemma on_reachable_start code reachable (s : state V H) :
  reachable_insns (insns code) = Ok reachable → on_reachable (length (insns code)) reachable (start (E := E) s).
Proof.
  intros Hr p [->|Hp] Hlt; [|by apply elem_of_nil in Hp].
  destruct (reachable_insns_ok (insns code)) as (r & Hr' & _ & _ & H0'). rewrite Hr in Hr'. injection Hr' as <-. auto.
Qed.

Lemma related_start n keep (s : state V H) :
  related_config (compact_positions n keep) (start (E := E) s) (start s).
Proof. split; [|done]. cbn. split_and!; [lia|done|by rewrite new_index_0|done]. Qed.
End passes.

(** * Jumps *)


Section passes.
Context {V E H : Type} `{Host V E H}.
Implicit Types (code : FnCode V) (c : config V E H).

(** ** Jump threading *)

(** [q] is reached from [p] by forward jumps. *)
Inductive chain (insns : list Insn) : nat → nat → Prop :=
  | chain_refl p : chain insns p p
  | chain_jump p k q :
      insns !! p = Some (Op.Jump k) → 0 ≤ k → chain insns (jump_target p k) q → chain insns p q.

Lemma follow_from_ok insns fuel p seen :
  wf_code insns → (length insns - p < fuel)%nat → (p ≤ length insns)%nat → Forall (λ q, (q < p)%nat) seen →
  ∃ q, follow_from fuel insns p seen = Ok q ∧ chain insns p q ∧ (q ≤ length insns)%nat.
Proof.
  intros Hwf. revert p seen. induction fuel as [|fuel IH]; intros p seen Hfuel Hp Hseen; [lia|].
  cbn [follow_from]. destruct (Nat.leb_spec (length insns) p); [exists p; eauto using chain|].
  rewrite bool_decide_eq_false_2; cbn [orb].
  2:{ intros Hin. rewrite Forall_forall in Hseen. specialize (Hseen p Hin). lia. }
  assert (Hstay : ∃ q, Ok p = Ok q ∧ chain insns p q ∧ (q ≤ length insns)%nat) by (exists p; eauto using chain).
  destruct (insns !! p) as [insn|] eqn:Hi; [|done]. destruct insn; try done.
  case_match eqn:Hk; [|done]. apply Z.leb_le in Hk.
  destruct (wf_jump_target insns p (Op.Jump _) _ Hwf Hi eq_refl) as (Ht & Hle & Heq).
  destruct (IH (jump_target p z) (p :: seen)) as (q & Hq & Hch & Hqn); [lia..| |].
  - constructor; [lia|]. eapply Forall_impl; [done|]. intros r Hr. cbn in *. lia.
  - exists q. eauto using chain.
Qed.

Lemma follow_ok insns p :
  wf_code insns → (p ≤ length insns)%nat →
  ∃ q, follow insns p = Ok q ∧ chain insns p q ∧ (q ≤ length insns)%nat.
Proof. intros Hwf Hp. apply follow_from_ok; [done|lia|done|done]. Qed.

(** The instruction at [p] keeps its place; its jump goes to the end of a chain
    from its old target. *)
Definition threaded_to (insns : list Insn) (p : nat) (insn insn' : Insn) : Prop :=
  ∃ k', insn' = map_offset (λ _, k') insn ∧
    ∀ k, insn_jump_off insn = Some k → ∃ q, chain insns (jump_target p k) q ∧ (q ≤ length insns)%nat ∧
      k' = Z.of_nat q - Z.of_nat p - 1.

Lemma thread_insn_ok insns p insn :
  wf_code insns → insns !! p = Some insn →
  ∃ insn', thread_insn insns p insn = Ok insn' ∧ threaded_to insns p insn insn'.
Proof.
  intros Hwf Hp. unfold thread_insn. destruct (insn_jump_off insn) as [k|] eqn:Hk.
  2:{ exists insn. split; [done|]. exists 0. rewrite map_offset_none by done. split; [done|congruence]. }
  destruct (wf_jump_target insns p insn k Hwf Hp Hk) as (_ & Hle & Heq).
  destruct (threaded insn).
  - destruct (follow_ok insns (jump_target p k) Hwf Hle) as (q & Hq & Hch & Hqn).
    unfold thread. rewrite Hq. cbn. eexists. split; [done|]. eexists. split; [done|].
    intros k1 [= <-]%(eq_trans (eq_sym Hk)). exists q. split_and!; [done..|].
    destruct Hwf as [Hn _]. unfold vlen in Hn. apply lookup_lt_Some in Hp.
    rewrite as_i64_id by (unfold i64_range; lia). apply as_i32_id. lia.
  - exists insn. split; [done|]. exists k. rewrite map_offset_id by done. split; [done|].
    intros k1 Hk1. rewrite Hk in Hk1. injection Hk1 as <-. exists (jump_target p k). eauto using chain.
Qed.

Lemma pass_thread_jumps_ok insns :
  wf_code insns →
  ∃ insns', pass_thread_jumps insns = Ok insns' ∧ length insns' = length insns ∧
    ∀ p insn, insns !! p = Some insn → ∃ insn', insns' !! p = Some insn' ∧ threaded_to insns p insn insn'.
Proof. intros Hwf. apply mapM_enumerate_ok. intros p insn. by apply thread_insn_ok. Qed.

Definition thread_positions (insns : list Insn) (p : nat) (hs : list nat) (p' : nat) (hs' : list nat) : Prop :=
  (p ≤ length insns)%nat ∧ chain insns p p' ∧ Forall2 (λ h h', (h ≤ length insns)%nat ∧ chain insns h h') hs hs'.

Lemma chain_end insns p : (length insns ≤ p)%nat → ∀ q, chain insns p q → q = p.
Proof. intros Hp q Hc. destruct Hc as [|p k q Hi _ _]; [done|]. apply lookup_lt_Some in Hi. lia. Qed.

Section threading.
Context (code : FnCode V) (insns' : list Insn).
Hypothesis code_wf : wf_code (insns code).
Hypothesis code_dynamic : exc_table code = [].
Hypothesis threaded_length : length insns' = length (insns code).
Hypothesis threaded_lookup :
  ∀ p insn, insns code !! p = Some insn → ∃ insn', insns' !! p = Some insn' ∧ threaded_to (insns code) p insn insn'.

Let code' := with_insns code insns'.
Let Rc := thread_positions (insns code).

Lemma thread_handler p hs p' hs' q q' :
  Rc p hs p' hs' → related_handler Rc (find_handler code q hs) (find_handler code' q' hs').
Proof using code_dynamic.
  intros (_ & _ & Hhs). rewrite !find_handler_dynamic by done.
  destruct Hhs as [|h h' hs hs' [Hh Hc] Hhs]; [done|]. by split_and!.
Qed.

Lemma thread_lockstep p hs hs' insn k' :
  Rc p hs p hs' → insns code !! p = Some insn →
  (∀ k, insn_jump_off insn = Some k → ∃ q, chain (insns code) (jump_target p k) q ∧ (q ≤ length (insns code))%nat ∧
      k' = Z.of_nat q - Z.of_nat p - 1) →
  lockstep Rc code code' p p hs hs' (kind_of insn) (λ _, k').
Proof using code_wf code_dynamic threaded_length.
  intros HR Hp Hk'. pose proof HR as (Hpn & _ & Hhs). apply lookup_lt_Some in Hp as Hlt.
  pose proof (kind_of_off insn) as Hoff.
  assert (Hnext : ∀ hs hs', Forall2 (λ h h', (h ≤ length (insns code))%nat ∧ chain (insns code) h h') hs hs' →
    Rc (S p) hs (S p) hs') by (intros hs1 hs1' Hf; split_and!; [lia|constructor|done]).
  assert (Hjump : ∀ k, insn_jump_off insn = Some k → ∃ t t', jump_pc code (S p) k = Some t ∧
    jump_pc code' (S p) k' = Some t' ∧ (t ≤ length (insns code))%nat ∧ chain (insns code) t t').
  { intros k Hk. destruct (Hk' k Hk) as (q & Hq & Hqn & ->).
    destruct (wf_jump_target _ _ _ _ code_wf Hp Hk) as (Ht & Hle & _).
    exists (jump_target p k), q. rewrite (wf_jump_pc code p insn), <- Ht by done. split; [done|].
    rewrite jump_pc_ok; [|unfold vlen; cbn [insns code' with_insns]; lia]. split; [|done]. f_equal. lia. }
  split.
  - done.
  - by apply thread_handler with p p.
  - intros _. by apply Hnext.
  - intros k Hk. apply goes_to_off in Hk. rewrite Hoff in Hk. destruct (Hjump k Hk) as (t & t' & Ht & Ht' & Htn & Hc).
    by exists t, t'.
  - intros k Hk. rewrite Hk in Hoff. symmetry in Hoff. destruct (Hjump k Hoff) as (t & t' & Ht & Ht' & Htn & Hc).
    exists t, t'. split_and!; [done..|]. apply Hnext. by constructor.
  - intros _. apply Hnext. by destruct Hhs.
Qed.

Lemma thread_simulation c c' :
  related_config Rc c c' → same_ends (step code) (step code') (related_stop Rc) c c'.
Proof using code_wf code_dynamic threaded_length threaded_lookup.
  apply (simulation _ _ (related_config Rc) _ (λ c, length (insns code) - pc c)%nat). clear c c'. intros c c' HR.
  destruct (inject c) as [e|] eqn:He.
  { apply related_next_matched, (step_inject Rc code code' c c' e); [done..|]. eapply thread_handler, HR. }
  pose proof HR as ((Hpn & Hch & Hhs) & Hst & Hinj).
  destruct (insns code !! pc c) as [insn|] eqn:Hi.
  - destruct (decide (pc c' = pc c)) as [Heq|Hne].
    + destruct (threaded_lookup _ _ Hi) as (insn' & Hi' & k' & -> & Hk').
      apply related_next_matched, (step_lockstep Rc code code' c c' insn (λ _, k')); try done; [by rewrite Heq|].
      rewrite Heq. apply thread_lockstep; [|done..]. destruct HR as [HR _]. by rewrite Heq in HR.
    + inversion Hch as [|p k q Hj Hk Hch']; subst; [done|]. rewrite Hi in Hj. injection Hj as ->.
      destruct (wf_jump_target _ _ _ _ code_wf Hi eq_refl) as (Ht & Hle & Htk). apply lookup_lt_Some in Hi as Hlt.
      unfold matched. assert (Hs : step code c = inl (Config (jump_target (pc c) k) (handlers c) (st c) None)).
      { unfold step. rewrite He, Hi. unfold dispatch. cbn [kind_of]. unfold jump_to.
        by rewrite (wf_jump_pc code (pc c) (Op.Jump k)), <- Ht by done. }
      rewrite Hs. right. cbn. split; [lia|]. split_and!; [|done|by rewrite <- Hinj, He]. by split_and!.
  - apply lookup_ge_None in Hi. apply chain_end in Hch; [|done].
    apply related_next_matched, (step_end Rc); [done..|lia|]. cbn [insns code' with_insns]. lia.
Qed.
End threading.

Lemma thread_jumps_correct code :
  wf_code (insns code) → exc_table code = [] →
  ∃ insns', pass_thread_jumps (insns code) = Ok insns' ∧ wf_code insns' ∧
    ∀ c c', related_config (thread_positions (insns code)) c c' →
      same_ends (step code) (step (with_insns code insns')) (related_stop (thread_positions (insns code))) c c'.
Proof.
  intros Hwf Hdyn. destruct (pass_thread_jumps_ok (insns code) Hwf) as (insns' & Hp & Hlen & Hlk).
  exists insns'. split_and!; [done| |intros c c'; by apply thread_simulation].
  split; [unfold vlen; rewrite Hlen; apply Hwf|]. intros i insn' k Hi Hk. unfold vlen. rewrite Hlen.
  apply lookup_lt_Some in Hi as Hlt. rewrite Hlen in Hlt. destruct (lookup_lt_is_Some_2 _ _ Hlt) as [insn Hold].
  destruct (Hlk i insn Hold) as (insn1 & Hi1 & k' & -> & Hk'). rewrite Hi in Hi1. injection Hi1 as ->.
  rewrite map_offset_off in Hk. destruct (insn_jump_off insn) as [k0|] eqn:Hk0; [|done]. injection Hk as <-.
  destruct (Hk' k0 eq_refl) as (q & _ & Hq & ->). lia.
Qed.

(** ** Passes that keep positions *)

(** At a position that both codes share, with the same instruction. *)
Lemma lockstep_same Rc code code' p hs insn :
  wf_code (insns code) → exc_table code = [] → exc_table code' = [] →
  length (insns code') = length (insns code) → insns code !! p = Some insn →
  (∀ p hs, Rc p hs p hs) → lockstep Rc code code' p p hs hs (kind_of insn) (λ k, k).
Proof.
  intros Hwf Hdyn Hdyn' Hlen Hi HR. pose proof (kind_of_off insn) as Hoff.
  assert (Hjump : ∀ k, insn_jump_off insn = Some k →
    ∃ t, jump_pc code (S p) k = Some t ∧ jump_pc code' (S p) k = Some t).
  { intros k Hk. unfold jump_pc, vlen. rewrite Hlen. fold (vlen (insns code)). fold (jump_pc code (S p) k).
    rewrite (wf_jump_pc code p insn) by done. eauto. }
  split; auto.
  - rewrite !find_handler_dynamic by done. destruct hs; [done|]. apply HR.
  - intros k Hk. apply goes_to_off in Hk. rewrite Hoff in Hk. destruct (Hjump k Hk) as (t & Ht & Ht'). eauto.
  - intros k Hk. rewrite Hk in Hoff. destruct (Hjump k (eq_sym Hoff)) as (t & Ht & Ht'). eauto.
Qed.

(** At the end of both codes, or beyond. *)
Lemma step_beyond Rc code code' c c' :
  related_config Rc c c' → inject c = None → pc c = pc c' → length (insns code') = length (insns code) →
  insns code !! pc c = None → related_next Rc (step code c) (step code' c').
Proof.
  intros (HR & Hst & Hinj) He Hp Hlen Hi. apply lookup_ge_None in Hi.
  unfold step. rewrite <- Hinj, He, <- Hp, <- Hst. rewrite !lookup_ge_None_2 by lia.
  rewrite Hlen. by destruct (_ =? _)%nat.
Qed.

(** ** Exit-block inlining *)

Definition is_return (insn : Insn) : Prop :=
  match insn with Op.Return _ | Op.ReturnNone => True | _ => False end.

(** The same position, or a return and a copy of it. *)
Definition exit_positions (insns insns' : list Insn) (p : nat) (hs : list nat) (p' : nat) (hs' : list nat) : Prop :=
  hs = hs' ∧ (p = p' ∨ ∃ insn, is_return insn ∧ insns !! p = Some insn ∧ insns' !! p' = Some insn).

Lemma exit_inline_lookup insns0 i :
  pass_exit_inline insns0 !! i = exit_inline_insn insns0 i <$> insns0 !! i.
Proof. unfold pass_exit_inline. rewrite list_lookup_fmap, enumerate_lookup. by destruct (insns0 !! i). Qed.

Lemma exit_inline_cases insns0 i insn :
  exit_inline_insn insns0 i insn = insn ∨
  ∃ k ret, insn = Op.Jump k ∧ is_return ret ∧ insns0 !! jump_target i k = Some ret ∧ exit_inline_insn insns0 i insn = ret.
Proof.
  destruct insn; auto. cbn. destruct (insns0 !! jump_target i _) as [insn|] eqn:Hi; [|auto].
  destruct insn; auto; destruct (_ =? i)%nat; auto; right; eexists _, _;
    (split; [done|]); (split; [|split; [exact Hi|done]]); done.
Qed.

Lemma exit_inline_simulation code c c' :
  wf_code (insns code) → exc_table code = [] →
  let code' := with_insns code (pass_exit_inline (insns code)) in
  let Rc := exit_positions (insns code) (insns code') in
  related_config Rc c c' → same_ends (step code) (step code') (related_stop Rc) c c'.
Proof.
  intros Hwf Hdyn code' Rc.
  assert (Hlen : length (insns code') = length (insns code))
    by (cbn; unfold pass_exit_inline; rewrite length_fmap; apply enumerate_length).
  assert (Hhd : ∀ p q hs hs' p' q', Rc p hs p' hs' → related_handler Rc (find_handler code q hs) (find_handler code' q' hs')).
  { intros p q hs hs' p' q' [<- _]. rewrite !find_handler_dynamic by done. destruct hs; [done|]. split; [done|by left]. }
  apply (simulation _ _ (related_config Rc) _
    (λ c, match insns code !! pc c with Some (Op.Jump _) => 1 | _ => 0 end)%nat). clear c c'. intros c c' HR.
  destruct (inject c) as [e|] eqn:He.
  { apply related_next_matched, (step_inject Rc code code' c c' e); [done..|]. eapply Hhd, HR. }
  pose proof HR as ((Hhs & Hp) & Hst & Hinj).
  destruct Hp as [Hp|(ret & Hret & Hi & Hi')].
  - destruct (insns code !! pc c) as [insn|] eqn:Hi.
    + assert (Hi' : insns code' !! pc c' = Some (exit_inline_insn (insns code) (pc c) insn))
        by (cbn [insns code' with_insns]; by rewrite exit_inline_lookup, <- Hp, Hi).
      destruct (exit_inline_cases (insns code) (pc c) insn) as [Hsame|(k & ret & -> & Hret & Ht & Hnew)].
      * rewrite Hsame in Hi'.
        apply related_next_matched, (step_lockstep Rc code code' c c' insn (λ k, k)); try done;
          [by rewrite map_offset_same|]. rewrite <- Hp, <- Hhs.
        apply lockstep_same; try done. intros. split; auto.
      * unfold matched. destruct (wf_jump_target _ _ _ _ Hwf Hi eq_refl) as (Hj & _).
        assert (Hs : step code c = inl (Config (jump_target (pc c) k) (handlers c) (st c) None)).
        { unfold step. rewrite He, Hi. unfold dispatch. cbn [kind_of]. unfold jump_to.
          by rewrite (wf_jump_pc code (pc c) (Op.Jump k)), <- Hj by done. }
        rewrite Hs. right. rewrite Hi. cbn [pc]. rewrite Ht. split; [by destruct ret; try done; cbn; lia|].
        split_and!; [|done|by cbn; rewrite <- Hinj, He]. split; [done|]. right. exists ret. by rewrite Hnew in Hi'.
    + by apply related_next_matched, step_beyond.
  - apply related_next_matched, (step_lockstep Rc code code' c c' ret (λ k, k)); try done; [by rewrite map_offset_same|].
    split; [by apply HR|eapply Hhd, HR|..]; by destruct ret.
Qed.

Lemma exit_inline_wf insns0 : wf_code insns0 → wf_code (pass_exit_inline insns0).
Proof.
  intros Hwf. unfold wf_code, vlen. unfold pass_exit_inline at 1 3. rewrite length_fmap, enumerate_length.
  split; [apply Hwf|]. intros i insn k Hi Hk. rewrite exit_inline_lookup in Hi.
  destruct (insns0 !! i) as [insn0|] eqn:Hi0; [|done]. injection Hi as <-.
  destruct (exit_inline_cases insns0 i insn0) as [Hsame|(k0 & ret & _ & Hret & _ & Hnew)].
  - rewrite Hsame in Hk. by apply (proj2 Hwf i insn0).
  - rewrite Hnew in Hk. by destruct ret.
Qed.

(** ** Loop inversion *)

(** [replacement], at [back], is the inverted header at [j], whose jump back it
    replaces. *)
Definition inverts (insns0 out : list Insn) (j back : nat) : Prop :=
  ∃ k header replacement, insns0 !! j = Some header ∧ inverted_header header = Some (k, replacement) ∧
    2 ≤ k ∧ back = (j + Z.to_nat k)%nat ∧ insns0 !! back = Some (Op.Jump (- (k + 1))) ∧ out !! back = Some replacement.

Definition inverted_code (insns0 out : list Insn) : Prop :=
  length out = length insns0 ∧
  ∀ i, out !! i = insns0 !! i ∨ ∃ j, inverts insns0 out j i.

Lemma inverted_header_kinds header k replacement :
  inverted_header header = Some (k, replacement) →
  ∃ sense cd, kind_of header = KBranch sense cd k ∧ kind_of replacement = KBranch (negb sense) cd (- k).
Proof. destruct header; intros [= <- <-]; cbn; eauto. Qed.

Lemma inverted_header_again header k replacement k' replacement' :
  inverted_header header = Some (k, replacement) → inverted_header replacement = Some (k', replacement') → k' = - k.
Proof. destruct header; intros [= <- <-]; by intros [= <- _]. Qed.

Lemma inverted_header_no_jump header k k' : inverted_header header ≠ Some (k, Op.Jump k').
Proof. by destruct header. Qed.

Lemma invert_at_ok insns0 out j : inverted_code insns0 out → inverted_code insns0 (invert_at out j).
Proof.
  intros [Hlen Hinv]. unfold invert_at. destruct (out !! j) as [header|] eqn:Hj; [|done].
  destruct (inverted_header header) as [[k replacement]|] eqn:Hh; [|done].
  destruct (Z.ltb_spec k 2) as [|Hk]; [done|]. cbn zeta.
  destruct (out !! (j + Z.to_nat k)%nat) as [insn|] eqn:Hb; [|done].
  destruct insn; try done.
  match goal with |- context [?bk =? _] => destruct (Z.eqb_spec bk (- (k + 1))) as [->|]; [|done] end.
  assert (Hj0 : insns0 !! j = Some header).
  { destruct (Hinv j) as [Heq|(j1 & k1 & header1 & repl1 & _ & Hh1 & Hk1 & _ & _ & Ho)]; [congruence|].
    rewrite Hj in Ho. injection Ho as <-. rewrite (inverted_header_again _ _ _ _ _ Hh1 Hh) in Hk. lia. }
  assert (Hb0 : insns0 !! (j + Z.to_nat k)%nat = Some (Op.Jump (- (k + 1)))).
  { destruct (Hinv (j + Z.to_nat k)%nat) as [Heq|(j1 & k1 & header1 & repl1 & _ & Hh1 & _ & _ & _ & Ho)]; [congruence|].
    rewrite Hb in Ho. injection Ho as <-. by apply inverted_header_no_jump in Hh1. }
  apply lookup_lt_Some in Hb as Hlt. split; [by rewrite length_insert|]. intros i.
  destruct (decide (i = (j + Z.to_nat k)%nat)) as [->|Hne].
  - right. exists j, k, header, replacement. split_and!; try done. by apply list_lookup_insert_eq.
  - rewrite list_lookup_insert_ne by done. destruct (Hinv i) as [|(j1 & Hi)]; [by left|right; exists j1].
    unfold inverts. by rewrite list_lookup_insert_ne.
Qed.

Lemma loop_inversion_ok insns0 : inverted_code insns0 (pass_loop_inversion insns0).
Proof.
  unfold pass_loop_inversion. assert (Hstart : inverted_code insns0 insns0) by (split; auto).
  revert Hstart. generalize insns0 at 2 4. generalize (seq 0 (length insns0)).
  intros l. induction l as [|j l IH]; intros out Hout; [done|]. cbn. by apply IH, invert_at_ok.
Qed.

Definition inversion_positions (insns0 out : list Insn) (p : nat) (hs : list nat) (p' : nat) (hs' : list nat) : Prop :=
  hs = hs' ∧ (p = p' ∨ inverts insns0 out p p').

Lemma loop_inversion_simulation code c c' :
  wf_code (insns code) → exc_table code = [] →
  let code' := with_insns code (pass_loop_inversion (insns code)) in
  let Rc := inversion_positions (insns code) (insns code') in
  related_config Rc c c' → same_ends (step code) (step code') (related_stop Rc) c c'.
Proof.
  intros Hwf Hdyn code' Rc. destruct (loop_inversion_ok (insns code)) as [Hlen Hinv].
  assert (Hhd : ∀ p q hs hs' p' q', Rc p hs p' hs' → related_handler Rc (find_handler code q hs) (find_handler code' q' hs')).
  { intros p q hs hs' p' q' [<- _]. rewrite !find_handler_dynamic by done. destruct hs; [done|]. split; [done|by left]. }
  apply (simulation _ _ (related_config Rc) _
    (λ c, match insns code !! pc c with Some (Op.Jump _) => 1 | _ => 0 end)%nat). clear c c'. intros c c' HR.
  destruct (inject c) as [e|] eqn:He.
  { apply related_next_matched, (step_inject Rc code code' c c' e); [done..|]. eapply Hhd, HR. }
  pose proof HR as ((Hhs & Hp) & Hst & Hinj).
  destruct Hp as [Hp|(k & header & repl & Hi & Hh & Hk & Hp & Hb & Hi')].
  - destruct (insns code !! pc c) as [insn|] eqn:Hi; [|by apply related_next_matched, step_beyond].
    destruct (Hinv (pc c)) as [Hsame|(j & k & header & repl & Hj & Hh & Hk & Hb & Hjump & Hnew)].
    + apply related_next_matched, (step_lockstep Rc code code' c c' insn (λ k, k)); try done.
      * rewrite <- Hp, map_offset_same. cbn. by rewrite Hsame.
      * rewrite <- Hp, <- Hhs. apply lockstep_same; try done. intros. split; auto.
    + unfold matched. rewrite Hi in Hjump. injection Hjump as ->.
      assert (Hs : step code c = inl (Config j (handlers c) (st c) None)).
      { unfold step. rewrite He, Hi. unfold dispatch. cbn [kind_of]. unfold jump_to.
        rewrite (wf_jump_pc code (pc c) (Op.Jump (- (k + 1)))) by done. do 2 f_equal. lia. }
      rewrite Hs, Hi. right. cbn [pc]. rewrite Hj. split; [by destruct header; try done; cbn; lia|].
      split_and!; [|done|by cbn; rewrite <- Hinj, He]. split; [done|]. right.
      exists k, header, repl. rewrite <- Hp. by split_and!.
  - apply related_next_matched. unfold step. rewrite <- Hinj, He, Hi, <- Hst.
    cbn [insns code' with_insns] in Hi' |- *. rewrite Hi'.
    destruct (inverted_header_kinds _ _ _ Hh) as (sense & cd & Hkd & Hkd').
    unfold dispatch. rewrite Hkd, Hkd', (eval_cond_eq code code') by done.
    apply vm_try_related; [eapply Hhd, HR|]. intros b s.
    pose proof (kind_of_off header) as Hoff. rewrite Hkd in Hoff. cbn in Hoff. symmetry in Hoff.
    pose proof (proj2 Hwf _ _ _ Hi Hoff) as Hrange. apply lookup_lt_Some in Hi as Hlt. unfold vlen in Hrange.
    assert (Hout : jump_pc code (S (pc c)) k = Some (S (pc c')))
      by (rewrite (wf_jump_pc code (pc c) header) by done; f_equal; lia).
    assert (Hin : jump_pc code' (S (pc c')) (- k) = Some (S (pc c))).
    { rewrite jump_pc_ok; [f_equal; lia|]. unfold vlen. cbn [insns code' with_insns]. lia. }
    unfold jump_to. rewrite Hout, Hin. destruct b, sense; cbn; apply related_goto; split; auto.
Qed.

Lemma loop_inversion_wf insns0 : wf_code insns0 → wf_code (pass_loop_inversion insns0).
Proof.
  intros Hwf. destruct (loop_inversion_ok insns0) as [Hlen Hinv]. unfold wf_code, vlen. rewrite Hlen.
  split; [apply Hwf|]. intros i insn k Hi Hk.
  destruct (Hinv i) as [Hsame|(j & k0 & header & repl & Hj & Hh & Hk0 & -> & Hjump & Hnew)].
  - apply (proj2 Hwf i insn); [by rewrite <- Hsame|done].
  - rewrite Hi in Hnew. injection Hnew as ->. destruct (inverted_header_kinds _ _ _ Hh) as (sense & cd & Hkd & Hkd').
    rewrite <- kind_of_off, Hkd' in Hk. injection Hk as <-. apply lookup_lt_Some in Hj. lia.
Qed.
End passes.

(** * Constants *)


(** ** Constant-pool compaction *)

(** Every index leads into the pool, which 16 bits can address. *)
Definition consts_in_range {V} (insns : list Insn) (consts : list V) : Prop :=
  vlen consts ≤ 2 ^ 16 ∧ ∀ i insn c, insns !! i = Some insn → const_index insn = Some c → 0 ≤ c < vlen consts.

Lemma mark_used_length used insn : length (mark_used used insn) = length used.
Proof. unfold mark_used. destruct (const_index insn); [|done]. destruct (_ <? _); [apply length_insert|done]. Qed.

Lemma mark_all_length used insns0 : length (foldl mark_used used insns0) = length used.
Proof. revert used. induction insns0 as [|insn l IH]; intros used; [done|]. cbn. by rewrite IH, mark_used_length. Qed.

Lemma mark_all_mono used insns0 i : used !! i = Some true → foldl mark_used used insns0 !! i = Some true.
Proof.
  revert used. induction insns0 as [|insn l IH]; intros used Hi; [done|]. cbn. apply IH. unfold mark_used.
  destruct (const_index insn) as [c|]; [|done]. destruct (_ <? _); [|done].
  destruct (decide (i = Z.to_nat c)) as [->|]; [apply list_lookup_insert_eq; by eapply lookup_lt_Some|by rewrite list_lookup_insert_ne].
Qed.

Lemma mark_all_used used insns0 i insn c :
  insns0 !! i = Some insn → const_index insn = Some c → 0 ≤ c < vlen used →
  foldl mark_used used insns0 !! Z.to_nat c = Some true.
Proof.
  revert used i. induction insns0 as [|insn0 l IH]; intros used [|i] Hi Hc Hrange; try done; cbn.
  - injection Hi as ->. apply mark_all_mono. unfold mark_used. rewrite Hc.
    destruct (Z.ltb_spec c (vlen used)); [|lia]. apply list_lookup_insert_eq. unfold vlen in *. lia.
  - apply (IH _ i); [done..|]. unfold vlen in *. by rewrite mark_used_length.
Qed.

Lemma compact_pool_ok {V} used (consts : list V) m :
  length used = length consts → Z.of_nat m + vlen consts ≤ 2 ^ 16 →
  ∃ old_to_new new_consts, compact_pool used consts m = Ok (old_to_new, new_consts) ∧
    ∀ i, used !! i = Some true → ∃ j, old_to_new !! i = Some (Some (Z.of_nat (m + j))) ∧ new_consts !! j = consts !! i.
Proof.
  revert consts m. induction used as [|u used IH]; intros [|val consts] m Hlen Hm; try done.
  { exists [], []. split; [done|]. intros i Hi. done. }
  rewrite vlen_cons in Hm. pose proof (vlen_nonneg consts). destruct u; cbn.
  - rewrite rassert_true by (apply Z.ltb_lt; lia). cbn.
    destruct (IH consts (S m)) as (o & new & -> & Hs); [by injection Hlen|lia|]. cbn. eexists _, _. split; [done|].
    intros [|i] Hi; [exists 0%nat; by rewrite Nat.add_0_r|]. destruct (Hs i Hi) as (j & Ho & Hn). exists (S j).
    split; [|exact Hn]. etrans; [exact Ho|]. do 3 f_equal. lia.
  - destruct (IH consts m) as (o & new & -> & Hs); [by injection Hlen|lia|]. cbn. eexists _, _. split; [done|].
    intros [|i] Hi; [done|]. by apply Hs.
Qed.

(** The instruction [insn'] reads the same constant from the new pool. *)
Definition same_const {V} (consts consts' : list V) (insn insn' : Insn) : Prop :=
  insn' = insn ∧ const_index insn = None ∨
  ∃ c c' v, const_index insn = Some c ∧ insn' = map_const (λ _, c') insn ∧
    consts' !! Z.to_nat c' = Some v ∧ consts !! Z.to_nat c = Some v.

Lemma map_const_id insn c : const_index insn = Some c → map_const (λ _, c) insn = insn.
Proof. by destruct insn; intros [= ->]. Qed.

Lemma pass_compact_consts_ok {V} (insns0 : list Insn) (consts : list V) :
  consts_in_range insns0 consts →
  ∃ insns' consts', pass_compact_consts insns0 consts = Ok (insns', consts') ∧ Forall2 (same_const consts consts') insns0 insns'.
Proof.
  intros [Hsmall Hrange]. unfold pass_compact_consts.
  assert (Hlook : ∀ i insn c, insns0 !! i = Some insn → const_index insn = Some c → is_Some (consts !! Z.to_nat c)).
  { intros i insn c Hi Hc. apply lookup_lt_is_Some. specialize (Hrange i insn c Hi Hc). unfold vlen in Hrange. lia. }
  assert (Hsame : Forall2 (same_const consts consts) insns0 insns0).
  { apply Forall_Forall2_diag, Forall_lookup. intros i insn Hi. destruct (const_index insn) as [c|] eqn:Hc; [right|by left].
    destruct (Hlook i insn c Hi Hc) as [v Hv]. exists c, c, v. by rewrite map_const_id. }
  destruct (Nat.eqb_spec (length consts) 0); [by exists insns0, consts|].
  set (used := foldl mark_used (replicate (length consts) false) insns0).
  destruct (forallb _ _); [by exists insns0, consts|].
  destruct (compact_pool_ok used consts 0) as (o & new & -> & Hs);
    [by unfold used; rewrite mark_all_length, length_replicate|done|]. cbn.
  enough (∃ insns', mapM (remap_insn o) insns0 = Ok insns' ∧ Forall2 (same_const consts new) insns0 insns')
    as (insns' & -> & Hf) by (by exists insns', new).
  assert (Hall : ∀ i insn, insns0 !! i = Some insn → ∃ insn', remap_insn o insn = Ok insn' ∧ same_const consts new insn insn').
  { intros i insn Hi. unfold remap_insn. destruct (const_index insn) as [c|] eqn:Hc; [|exists insn; split; [done|by left]].
    destruct (Hs (Z.to_nat c)) as (j & Ho & Hn).
    { apply (mark_all_used _ insns0 i insn); [done..|]. unfold vlen. rewrite length_replicate. by apply (Hrange i insn). }
    rewrite (vnth_lookup _ _ _ Ho). cbn. eexists. split; [done|]. right.
    destruct (Hlook i insn c Hi Hc) as [v Hv]. exists c, (Z.of_nat j), v. by rewrite Nat2Z.id, Hn. }
  clear -Hall. induction insns0 as [|insn l IH]; [by exists []|].
  destruct (Hall 0%nat insn eq_refl) as (insn' & Hi & Hsame). destruct IH as (l' & Hl & Hf); [intros i; apply (Hall (S i))|].
  exists (insn' :: l'). cbn. rewrite Hi. cbn. rewrite Hl. by split; [|constructor].
Qed.

Section constants.
Context {V E H : Type} `{Host V E H}.
Implicit Types (code : FnCode V) (c : config V E H).

Lemma erase_map_const f insn : erase (map_const f insn) = erase insn.
Proof. by destruct insn. Qed.

Lemma exec_plain_same_const code code' s insn insn' :
  num_locals code' = num_locals code → same_const (consts code) (consts code') insn insn' →
  exec_plain code' insn' s = exec_plain code insn s.
Proof.
  intros Hl [[-> Hc]|(c & c' & v & Hc & -> & Hlook' & Hlook)].
  - unfold exec_plain, const_operand, vm_read, unset_error. by rewrite Hc, Hl.
  - unfold exec_plain, const_operand. rewrite erase_map_const, Hc, Hlook, <- Hlook'. by destruct insn; intros; try discriminate Hc.
Qed.

(** Instructions that read the same constants do the same. *)
Lemma dispatch_same_const code code' p hs s insn insn' :
  num_locals code' = num_locals code → length (insns code') = length (insns code) → exc_table code' = exc_table code →
  same_const (consts code) (consts code') insn insn' →
  dispatch code' p hs s insn' = dispatch code p hs s insn.
Proof.
  intros Hl Hlen Htab Hsame. pose proof (exec_plain_same_const code code' s insn insn' Hl Hsame) as Hplain.
  assert (Herr : ∀ e s, handle_vm_error code' e s p hs = handle_vm_error code e s p hs)
    by (intros e s1; unfold handle_vm_error, find_handler; by rewrite Htab).
  assert (Hjump : ∀ k, jump_pc code' (S p) k = jump_pc code (S p) k) by (intros; unfold jump_pc, vlen; by rewrite Hlen).
  assert (Htry : ∀ A (m : eff (state V H) E A) k k', (∀ a s, k' a s = k a s) →
    vm_try code' p hs m k' = vm_try code p hs m k) by (intros A [] k k' Hk; cbn; auto).
  assert (Hgoto : ∀ k (s : state V H), jump_to (E := E) code' (S p) k hs s = jump_to code (S p) k hs s)
    by (intros; unfold jump_to; by rewrite Hjump).
  assert (Hread : ∀ r (s : state V H), vm_read code' r s = vm_read code r s) by (intros; unfold vm_read, unset_error; by rewrite Hl).
  assert (Hkind : match kind_of insn, kind_of insn' with
    | KBranch b cd k, KBranch b' cd' k' => b = b' ∧ k = k' ∧ ∀ s, eval_cond code' cd' s = eval_cond code cd s
    | KPlain i, KPlain i' => i = insn ∧ i' = insn'
    | KGuard i k, KGuard i' k' => i = i' ∧ k = k'
    | kd, kd' => kd = kd' end).
  { destruct Hsame as [[-> Hc]|(c & c' & v & Hc & -> & Hlook' & Hlook)].
    - assert (Hcond : ∀ cd s, match cd with CompareConst _ _ _ => True | _ => eval_cond code' cd s = eval_cond code cd s end).
      { intros [r|lhs op rhs|] s1; [by cbn; rewrite Hread| |done]. cbn.
        destruct (regs s1 !! _); [|done]. destruct (regs s1 !! _); [|done]. rewrite Hread.
        destruct (vm_read code lhs s1); cbn; by rewrite ?Hread. }
      destruct insn; try done; cbn; (split; [done|]); (split; [done|]); intros s1; first [apply (Hcond (Truth _))|apply (Hcond (Compare _ _ _))].
    - destruct insn; try discriminate Hc; injection Hc as ->; cbn; try done; split_and!; try done;
        intros; rewrite Hlook, Hlook'; by rewrite Hread. }
  unfold dispatch.
  destruct (kind_of insn) as [k|b cd k|i k|k| |[src|]|i|rw i|i], (kind_of insn') as [k'|b' cd' k'|i' k'|k'| |[src'|]|i'|rw' i'|i'];
    try done.
  all: first [injection Hkind as <- <-|injection Hkind as <-|idtac].
  - apply Hgoto.
  - destruct Hkind as (<- & <- & Hcd). rewrite Hcd. apply Htry. intros a s1. by destruct (Bool.eqb a b).
  - destruct Hkind as [<- <-]. apply Htry. by intros [] s1.
  - by rewrite Hjump.
  - by rewrite Hread; apply Htry.
  - by destruct (host_raise i s).
  - by apply Htry.
  - destruct Hkind as [-> ->]. rewrite Hplain. by apply Htry.
Qed.

Lemma compact_consts_correct code :
  consts_in_range (insns code) (consts code) →
  ∃ insns' consts', pass_compact_consts (insns code) (consts code) = Ok (insns', consts') ∧
    let code' := {| insns := insns'; consts := consts'; num_locals := num_locals code; exc_table := exc_table code |} in
    ∀ c, step code' c = step code c.
Proof.
  intros Hrange. destruct (pass_compact_consts_ok _ _ Hrange) as (insns' & consts' & Hp & Hsame).
  exists insns', consts'. split; [done|]. intros code' c. apply Forall2_length in Hsame as Hlen.
  assert (Herr : ∀ e s p hs, handle_vm_error code' e s p hs = handle_vm_error code e s p hs) by done.
  unfold step. destruct (inject c); [apply Herr|]. cbn [insns code'].
  destruct (insns code !! pc c) as [insn|] eqn:Hi.
  - destruct (Forall2_lookup_l _ _ _ _ _ Hsame Hi) as (insn' & -> & Hc). by apply dispatch_same_const.
  - apply lookup_ge_None in Hi. by rewrite lookup_ge_None_2, <- Hlen by lia.
Qed.
End constants.
