(* ===== verification/ExcTable.v ===== *)
(** The zero-cost exception table
    (crates/pyrust/src/optimizer/control_flow/exception_regions.rs and
    exception_table.rs): the handler stack at every instruction is computed
    ahead, and the instructions that push and pop handlers are dropped.

    The analysis of handler stacks ends with stacks that agree along every
    edge, and code run with the exception table it gives behaves as the code
    run with a stack of handlers. *)

From S2P Require Import Prelude IntArith Bytecode Vm Passes.

(** ** Active handlers *)

(** Handler stacks have the innermost handler first; the code pushes at the end
    of a vector. *)
Abbreviation stacks := (list (option (list nat))).

(** Where [analyze_active_handler_stacks] propagates from [pc], and with which
    stack. *)
Definition flow_edges (pc : nat) (insn : Insn) (current : list nat) : list (nat * list nat) :=
  match insn with
  | Op.SetupExcept k => let handler := jump_target pc k in [(S pc, handler :: current); (handler, current)]
  | Op.PopExcept => [(S pc, tail current)]
  | Op.Jump k => [(jump_target pc k, current)]
  | Op.JumpIfFalse _ k | Op.JumpIfTrue _ k | Op.JumpIfNotInt _ k | Op.JumpIfIterNotIntRange _ k
  | Op.JumpIfIterNotIndexedSeq _ k | Op.JumpIfIterNotIntRangeExact _ k | Op.GetItemSeqIntOrExit _ _ _ k
  | Op.JumpIfNotBuiltinLen _ k | Op.LenSeqOrExit _ _ k | Op.CmpJumpIfFalse _ _ _ k | Op.CmpJumpIfTrue _ _ _ k
  | Op.CmpJumpIfFalseConst _ _ _ k | Op.CmpJumpIfTrueConst _ _ _ k | Op.CountCmpJumpTrue _ _ _ _ k
  | Op.CountCmpJumpFalse _ _ _ _ k | Op.CallInlineBinOp _ _ _ _ _ _ k | Op.ForIter _ _ k | Op.MatchExcept _ k
  | Op.MatchExceptStar _ _ _ k => [(jump_target pc k, current); (S pc, current)]
  | Op.Return _ | Op.ReturnNone | Op.RaiseAssert _ | Op.RaiseAssertNoMsg | Op.RaiseValue _
  | Op.RaiseExceptStarResidual _ | Op.RaiseFrom _ _ | Op.RaiseReRaise => []
  | _ => [(S pc, current)]
  end.

(** [propagate]: the new stacks and worklist, unless the stacks disagree. *)
Definition propagate (stack_in : stacks) (work : list nat) (target : nat) (stack : list nat) : option (stacks * list nat) :=
  match stack_in !! target with
  | None => Some (stack_in, work)
  | Some None => Some (<[target := Some stack]> stack_in, target :: work)
  | Some (Some existing) => if bool_decide (existing = stack) then Some (stack_in, work) else None
  end.

Fixpoint propagate_all (stack_in : stacks) (work : list nat) (edges : list (nat * list nat)) : option (stacks * list nat) :=
  match edges with
  | [] => Some (stack_in, work)
  | (target, stack) :: edges =>
      match propagate stack_in work target stack with
      | Some (stack_in, work) => propagate_all stack_in work edges
      | None => None
      end
  end.

Fixpoint analyze_loop (fuel : nat) (insns : list Insn) (stack_in : stacks) (work : list nat) : res (option stacks) :=
  match fuel with
  | O => Diverge
  | S fuel =>
      match work with
      | [] => Ok (Some stack_in)
      | pc :: work =>
          current ← (s ← vnth stack_in pc; expect s);
          insn ← vnth insns pc;
          match propagate_all stack_in work (flow_edges pc insn current) with
          | Some (stack_in, work) => analyze_loop fuel insns stack_in work
          | None => Ok None
          end
      end
  end.

(** Each instruction is queued at most once. *)
Definition analyze_active_handler_stacks (insns : list Insn) : res (option stacks) :=
  let n := length insns in
  if (0 <? n)%nat then analyze_loop (S n) insns (<[0%nat := Some []]> (replicate n None)) [0%nat]
  else analyze_loop (S n) insns [] [].

(** ** The table *)

Definition is_setup (insn : Insn) : bool := match insn with Op.SetupExcept _ => true | _ => false end.

Definition no_block_setup (insn : Insn) : bool :=
  match insn with Op.SetupExcept _ | Op.PopExcept => false | _ => true end.

(** [x as u32] *)
Definition as_u32 (x : Z) : Z := x mod 2 ^ 32.

(** [handler_at], [None] for [usize::MAX]. *)
Definition innermost (stack : option (list nat)) : option nat :=
  match stack with Some (h :: _) => Some h | _ => None end.

Definition fill_entry (keep : list bool) (to_new : list nat) (handler_at : list (option nat)) (table : list Z)
    (old_pc : nat) : res (list Z) :=
  kept ← vnth keep old_pc;
  if kept : bool then
    new_pc ← vnth to_new old_pc;
    h ← vnth handler_at old_pc;
    entry ← match h with
            | None => Ok EXC_NO_HANDLER
            | Some h => target ← vnth to_new h; Ok (as_u32 (Z.of_nat target))
            end;
    vset table new_pc entry
  else Ok table.

Definition build_exc_table_with_source_prefix (insns : list Insn) (source_prefix_len : nat) :
    res (list Insn * list Z * nat) :=
  let n := length insns in
  _ ← rassert (source_prefix_len <=? n)%nat;
  let source_prefix_len := Nat.min source_prefix_len n in
  if negb (existsb is_setup insns) then Ok (insns, replicate n EXC_NO_HANDLER, source_prefix_len)
  else
    analysis ← analyze_active_handler_stacks insns;
    match analysis with
    | None => Ok (insns, [], source_prefix_len)
    | Some stack_in =>
        let handler_at := innermost <$> stack_in in
        let keep := no_block_setup <$> insns in
        let to_new := to_new_map keep in
        new_insns ← compact insns keep;
        table ← rfold (fill_entry keep to_new handler_at) (replicate (length new_insns) EXC_NO_HANDLER) (seq 0 n);
        new_source_prefix_len ← vnth to_new source_prefix_len;
        Ok (new_insns, table, new_source_prefix_len)
    end.

Definition has_exception_handlers (insns : list Insn) (exc_table : list Z) : bool :=
  existsb (λ target, negb (target =? EXC_NO_HANDLER)) exc_table || existsb is_setup insns.

(** * Equivalence with the stack of handlers *)

From S2P Require Import Outcome Prelude VmSpec PassesSpec.

(** ** Handler stacks *)

Fixpoint unset (stack_in : stacks) : nat :=
  match stack_in with
  | [] => O
  | None :: l => S (unset l)
  | Some _ :: l => unset l
  end.

Lemma unset_insert stack_in p s :
  stack_in !! p = Some None → unset stack_in = S (unset (<[p := Some s]> stack_in)).
Proof.
  revert p. induction stack_in as [|o l IH]; intros [|p] Hp; try done.
  - by injection Hp as ->.
  - cbn. rewrite (IH p Hp). by destruct o.
Qed.

Lemma unset_replicate n : unset (replicate n None) = n.
Proof. induction n; cbn; congruence. Qed.

(** What is set stays. *)
Definition extends (l l' : stacks) : Prop :=
  length l' = length l ∧ ∀ p s, l !! p = Some (Some s) → l' !! p = Some (Some s).

Definition edges_hold (l : stacks) (edges : list (nat * list nat)) : Prop :=
  ∀ t s, (t, s) ∈ edges → (t < length l)%nat → l !! t = Some (Some s).

(** Handlers lie in the code, or just past its end. *)
Definition stacks_in (n : nat) (l : stacks) : Prop := ∀ p s, l !! p = Some (Some s) → Forall (λ h, (h ≤ n)%nat) s.

Lemma extends_trans l1 l2 l3 : extends l1 l2 → extends l2 l3 → extends l1 l3.
Proof. intros [Hl1 H1] [Hl2 H2]. split; [congruence|auto]. Qed.

Lemma propagate_ok l work t s l' work' :
  propagate l work t s = Some (l', work') →
  extends l l' ∧ edges_hold l' [(t, s)] ∧ (unset l' + length work' = unset l + length work)%nat ∧
  (∀ p, p ∈ work → p ∈ work') ∧
  (∀ p, l' !! p ≠ l !! p → p ∈ work' ∧ l' !! p = Some (Some s) ∧ p = t) ∧
  (∀ p, p ∈ work' → p ∈ work ∨ ∃ s, l' !! p = Some (Some s)).
Proof.
  unfold propagate, edges_hold. destruct (l !! t) as [[existing|]|] eqn:Ht.
  - case_bool_decide as Heq; [|done]. intros [= <- <-]. subst. split_and!; try done; [|by auto].
    intros t1 s1 [= -> ->]%list_elem_of_singleton. done.
  - intros [= <- <-]. apply lookup_lt_Some in Ht as Hlt. pose proof (unset_insert l t s Ht) as Hu.
    assert (Hnew : <[t := Some s]> l !! t = Some (Some s)) by by apply list_lookup_insert_eq.
    split_and!.
    + split; [by rewrite length_insert|]. intros p s1 Hp. rewrite list_lookup_insert_ne; [done|]. congruence.
    + by intros t1 s1 [= -> ->]%list_elem_of_singleton.
    + cbn. lia.
    + intros p Hp. by right.
    + intros p Hp. destruct (decide (p = t)) as [->|Hne]; [split; [by left|done]|].
      by rewrite list_lookup_insert_ne in Hp.
    + intros p [->|Hp]%elem_of_cons; eauto.
  - intros [= <- <-]. split_and!; try done; [|by auto]. intros t1 s1 [= -> ->]%list_elem_of_singleton Hlt.
    apply lookup_ge_None in Ht. lia.
Qed.

Lemma propagate_all_ok edges l work l' work' :
  propagate_all l work edges = Some (l', work') →
  extends l l' ∧ edges_hold l' edges ∧ (unset l' + length work' = unset l + length work)%nat ∧
  (∀ p, p ∈ work → p ∈ work') ∧
  (∀ p, l' !! p ≠ l !! p → p ∈ work' ∧ ∃ s, l' !! p = Some (Some s) ∧ (p, s) ∈ edges) ∧
  (∀ p, p ∈ work' → p ∈ work ∨ ∃ s, l' !! p = Some (Some s)).
Proof.
  revert l work. induction edges as [|[t s] edges IH]; intros l work; cbn.
  { intros [= <- <-]. split_and!; try done; [|by auto]. by intros t s Hin%elem_of_nil. }
  destruct (propagate l work t s) as [[l1 work1]|] eqn:Hp; [|done]. intros Hall.
  destruct (propagate_ok _ _ _ _ _ _ Hp) as ([Hlen1 He1] & Hed1 & Hu1 & Hw1 & Hc1 & Hs1).
  destruct (IH _ _ Hall) as ([Hlen He] & Hed & Hu & Hw & Hc & Hs).
  split_and!; [| |lia|by auto| |].
  - split; [congruence|auto].
  - intros t1 s1 [[= -> ->]|Hin]%elem_of_cons Hlt; [|by apply Hed]. apply He, Hed1; [by left|congruence].
  - intros p Hne. destruct (decide (l1 !! p = l !! p)) as [Heq|Hne1].
    + destruct (Hc p) as [Hin (s1 & Hs1' & Hin1)]; [congruence|]. split; [done|]. exists s1. split; [done|by right].
    + destruct (Hc1 p Hne1) as (Hin & Hs1' & ->). split; [auto|]. exists s. split; [auto|by left].
  - intros p Hin. destruct (Hs p Hin) as [Hin1|]; [|by right]. destruct (Hs1 p Hin1) as [|[s1 Hs1']]; eauto.
Qed.

(** The edges out of [p] agree with the stacks. *)
Definition consistent_at (insns : list Insn) (l : stacks) (p : nat) : Prop :=
  ∀ insn current, insns !! p = Some insn → l !! p = Some (Some current) → edges_hold l (flow_edges p insn current).

Definition consistent (insns : list Insn) (l : stacks) : Prop :=
  length l = length insns ∧ (∀ p, consistent_at insns l p) ∧
  ((0 < length insns)%nat → l !! 0%nat = Some (Some [])) ∧ stacks_in (length insns) l.

Lemma flow_edges_in insns p insn current t s :
  wf_code insns → insns !! p = Some insn → Forall (λ h, (h ≤ length insns)%nat) current →
  (t, s) ∈ flow_edges p insn current → Forall (λ h, (h ≤ length insns)%nat) s.
Proof.
  intros Hwf Hi Hc Hin. enough (s = current ∨ s = tail current ∨ ∃ k, insn = Op.SetupExcept k ∧ s = jump_target p k :: current)
    as [->|[->|(k & -> & ->)]]; [done|by apply Forall_tail| |].
  - constructor; [|done]. by destruct (wf_jump_target _ _ _ _ Hwf Hi eq_refl) as (_ & Hle & _).
  - destruct insn; cbn [flow_edges] in Hin; repeat (apply elem_of_cons in Hin as [[= -> ->]|Hin]); try (by apply elem_of_nil in Hin);
      eauto.
Qed.

Lemma analyze_loop_ok insns fuel l work :
  let n := length insns in wf_code insns →
  length l = length insns → (unset l + length work < fuel)%nat →
  (∀ p, p ∈ work → ∃ s, l !! p = Some (Some s)) →
  (∀ p, p ∈ work ∨ consistent_at insns l p) → stacks_in n l →
  ∃ o, analyze_loop fuel insns l work = Ok o ∧
    ∀ l', o = Some l' → extends l l' ∧ (∀ p, consistent_at insns l' p) ∧ stacks_in n l'.
Proof.
  intros n Hwf. revert l work. induction fuel as [|fuel IH]; intros l work Hlen Hfuel Hset Hcons Hbound; [lia|].
  cbn [analyze_loop]. destruct work as [|p work].
  { eexists. split; [done|]. intros l' [= <-]. split; [done|]. split; [|done]. intros p.
    by destruct (Hcons p) as [Hin%elem_of_nil|]. }
  destruct (Hset p) as [current Hp]; [by left|]. apply lookup_lt_Some in Hp as Hlt. rewrite Hlen in Hlt.
  destruct (lookup_lt_is_Some_2 insns p Hlt) as [insn Hi].
  rewrite (vnth_lookup _ _ _ Hp). cbn [mbind res_bind expect]. rewrite (vnth_lookup _ _ _ Hi). cbn [mbind res_bind].
  destruct (propagate_all l work (flow_edges p insn current)) as [[l1 work1]|] eqn:Hall; [|by exists None].
  destruct (propagate_all_ok _ _ _ _ _ Hall) as ([Hlen1 He] & Hed & Hu & Hw & Hc & Hs). cbn in Hfuel.
  destruct (IH l1 work1) as (o & Ho & Hspec); [congruence|lia| | | |].
  - intros q Hq. destruct (Hs q Hq) as [Hin|]; [|done]. destruct (Hset q) as [s Hqs]; [by right|]. eauto.
  - intros q. destruct (decide (q ∈ work1)) as [|Hnw]; [by left|]. right. intros insn1 cur1 Hi1 Hl1.
    assert (Hold : l !! q = Some (Some cur1)).
    { destruct (decide (l1 !! q = l !! q)) as [Heq|Hne]; [congruence|]. by apply Hc in Hne as [Hne _]. }
    destruct (decide (q = p)) as [->|Hne].
    + rewrite Hp in Hold. injection Hold as <-. rewrite Hi in Hi1. by injection Hi1 as <-.
    + destruct (Hcons q) as [[->|Hin]%elem_of_cons|Hcq]; [done|by apply Hw in Hin|].
      intros t s Hts Htl. apply He, (Hcq insn1 cur1); [done..|congruence].
  - intros q s Hq. destruct (decide (l1 !! q = l !! q)) as [Heq|Hne]; [apply (Hbound q); congruence|].
    destruct (Hc q Hne) as (_ & s1 & Hs1 & Hin). rewrite Hq in Hs1. injection Hs1 as <-.
    by apply (flow_edges_in insns p insn current q s Hwf Hi (Hbound p current Hp)).
  - exists o. split; [done|]. intros l' Hl'. destruct (Hspec l' Hl') as [Hex Hc']. split; [|done].
    by apply extends_trans with l1.
Qed.

(** The analysis ends, and a result it gives agrees along every edge. *)
Lemma analyze_ok insns :
  wf_code insns →
  ∃ o, analyze_active_handler_stacks insns = Ok o ∧ ∀ l, o = Some l → consistent insns l.
Proof.
  intros Hwf. unfold analyze_active_handler_stacks. destruct (Nat.ltb_spec 0 (length insns)) as [Hlt|Hle].
  - set (l0 := <[0%nat := Some []]> (replicate (length insns) None)).
    assert (H0 : l0 !! 0%nat = Some (Some [])) by (apply list_lookup_insert_eq; by rewrite length_replicate).
    assert (Hrep : replicate (length insns) (None : option (list nat)) !! 0%nat = Some None)
      by (by apply lookup_replicate).
    pose proof (unset_insert _ 0 [] Hrep) as Hu. rewrite unset_replicate in Hu. fold l0 in Hu.
    assert (Hl0 : ∀ p s, l0 !! p = Some (Some s) → p = 0%nat ∧ s = []).
    { intros p s Hp. unfold l0 in Hp. destruct (decide (p = 0%nat)) as [->|Hne]; [fold l0 in Hp; split; congruence|].
      rewrite list_lookup_insert_ne in Hp by done. by apply lookup_replicate in Hp as [? _]. }
    destruct (analyze_loop_ok insns (S (length insns)) l0 [0%nat]) as (o & Ho & Hspec); [done|..].
    + by unfold l0; rewrite length_insert, length_replicate.
    + cbn. lia.
    + intros p [->|Hin%elem_of_nil]%elem_of_cons; [|done]. by exists [].
    + intros p. destruct (decide (p = 0%nat)) as [->|Hne]; [left; by left|]. right. intros insn cur _ Hl.
      by apply Hl0 in Hl as [? _].
    + intros p s Hp. by apply Hl0 in Hp as [_ ->].
    + exists o. split; [done|]. intros l Hl. destruct (Hspec l Hl) as ([Hlen He] & Hc & Hb). split_and!; [|done|auto|done].
      rewrite Hlen. unfold l0. by rewrite length_insert, length_replicate.
  - assert (insns = []) as -> by (apply length_zero_iff_nil; lia). eexists. split; [done|]. intros l [= <-].
    split_and!; [done| |cbn; lia|by intros p s Hp]. by intros p insn cur Hi.
Qed.

(** ** The table *)

Section table.
Context (insns0 : list Insn) (l : stacks).
Hypothesis code_wf : wf_code insns0.
Hypothesis stacks_consistent : consistent insns0 l.

Let n := length insns0.
Let keep := no_block_setup <$> insns0.

Definition table_entry (keep : list bool) (stack : option (option (list nat))) : Z :=
  match stack with Some (Some (h :: _)) => Z.of_nat (new_index keep h) | _ => EXC_NO_HANDLER end.

Lemma keep_length : length keep = length insns0.
Proof. apply length_fmap. Qed.

Lemma keep_lookup p insn : insns0 !! p = Some insn → keep !! p = Some (no_block_setup insn).
Proof. intros Hp. unfold keep. by rewrite list_lookup_fmap, Hp. Qed.

Lemma new_index_lt p : keep !! p = Some true → (new_index keep p < new_index keep n)%nat.
Proof.
  intros Hp. apply lookup_lt_Some in Hp as Hlt. rewrite keep_length in Hlt.
  pose proof (new_index_kept keep p Hp). pose proof (new_index_le keep (S p) n ltac:(unfold n; lia)). lia.
Qed.

Lemma new_index_inj p q : (q < p)%nat → keep !! q = Some true → (new_index keep q < new_index keep p)%nat.
Proof. intros Hlt Hq. pose proof (new_index_kept keep q Hq). pose proof (new_index_le keep (S q) p ltac:(lia)). lia. Qed.

Lemma fill_entry_ok table p :
  (p < n)%nat → length table = new_index keep n →
  fill_entry keep (to_new_map keep) (innermost <$> l) table p =
    Ok (if decide (keep !! p = Some true) then <[new_index keep p := table_entry keep (l !! p)]> table else table).
Proof using code_wf stacks_consistent.
  intros Hp Hlen. destruct stacks_consistent as (Hll & _ & _ & Hin). unfold fill_entry.
  destruct (lookup_lt_is_Some_2 keep p) as [b Hb]; [rewrite keep_length; done|].
  rewrite (vnth_lookup _ _ _ Hb). cbn [mbind res_bind]. destruct b; [rewrite decide_True by done|by rewrite decide_False by congruence].
  rewrite (vnth_lookup _ p (new_index keep p)) by (apply to_new_lookup; rewrite keep_length; unfold n in Hp; lia).
  cbn [mbind res_bind]. destruct (lookup_lt_is_Some_2 l p) as [stack Hs]; [rewrite Hll; done|].
  rewrite (vnth_lookup _ p (innermost stack)) by (by rewrite list_lookup_fmap, Hs). cbn [mbind res_bind]. rewrite Hs.
  pose proof (new_index_lt p Hb) as Hidx. rewrite <- Hlen in Hidx. destruct (lookup_lt_is_Some_2 _ _ Hidx) as [old Hold].
  destruct stack as [[|h hs]|]; cbn [innermost table_entry mbind res_bind]; try by apply vset_ok with old.
  specialize (Hin p _ Hs). apply Forall_cons in Hin as [Hh _].
  rewrite (vnth_lookup _ h (new_index keep h)) by (apply to_new_lookup; rewrite keep_length; done).
  cbn [mbind res_bind]. unfold as_u32. rewrite Z.mod_small; [by apply vset_ok with old|].
  pose proof (new_index_bound keep h). destruct code_wf as [Hsmall _]. unfold vlen in Hsmall. lia.
Qed.

Lemma fill_table_ok :
  ∃ table, rfold (fill_entry keep (to_new_map keep) (innermost <$> l))
      (replicate (new_index keep n) EXC_NO_HANDLER) (seq 0 n) = Ok table ∧ length table = new_index keep n ∧
    ∀ p, keep !! p = Some true → table !! new_index keep p = Some (table_entry keep (l !! p)).
Proof using code_wf stacks_consistent.
  destruct (rfold_inv (λ done table, length table = new_index keep n ∧
      ∀ p, p ∈ done → keep !! p = Some true → table !! new_index keep p = Some (table_entry keep (l !! p)))
    (fill_entry keep (to_new_map keep) (innermost <$> l)) (seq 0 n) (replicate (new_index keep n) EXC_NO_HANDLER))
    as (table & Ht & Hlen & Hp).
  - split; [by rewrite length_replicate|]. by intros p Hin%elem_of_nil.
  - intros l1 p l2 table Hsplit [Hlen Hinv].
    assert (Hpn : p ∈ seq 0 n) by (rewrite Hsplit; set_solver). apply elem_of_seq in Hpn.
    eexists. split; [apply fill_entry_ok; [lia|done]|]. destruct (decide (keep !! p = Some true)) as [Hk|Hk].
    + split; [by rewrite length_insert|]. intros q [Hq|Hq%list_elem_of_singleton]%elem_of_app Hkq.
      * assert (Hlt : (q < p)%nat).
        { apply list_elem_of_lookup in Hq as [i Hi]. apply lookup_lt_Some in Hi as Hil.
          assert (Hq : seq 0 n !! i = Some q) by (rewrite Hsplit; by apply lookup_app_l_Some).
          assert (Hpi : seq 0 n !! length l1 = Some p) by (rewrite Hsplit; by rewrite lookup_app_r, Nat.sub_diag).
          apply lookup_seq in Hq as [-> _]. apply lookup_seq in Hpi as [-> _]. lia. }
        pose proof (new_index_inj p q Hlt Hkq). rewrite list_lookup_insert_ne by lia. by apply Hinv.
      * subst q. apply list_lookup_insert_eq. rewrite Hlen. by apply new_index_lt.
    + split; [done|]. intros q [Hq|Hq%list_elem_of_singleton]%elem_of_app Hkq; [by apply Hinv|by subst q].
  - exists table. split_and!; [done..|]. intros p Hk. apply Hp; [|done]. apply lookup_lt_Some in Hk.
    rewrite keep_length in Hk. apply elem_of_seq. unfold n. lia.
Qed.
End table.

(** ** Simulation *)

(** Every handler on the stack was pushed where the analysis has the rest of
    the stack. *)
Fixpoint nested (n : nat) (l : stacks) (hs : list nat) : Prop :=
  match hs with
  | [] => True
  | h :: below => (h ≤ n)%nat ∧ ((h < n)%nat → l !! h = Some (Some below)) ∧ nested n l below
  end.

(** The stack of handlers, at [p], is the one of the analysis; the code with a
    table has none. *)
Definition exc_positions (n : nat) (keep : list bool) (l : stacks) (p : nat) (hs : list nat) (p' : nat) (hs' : list nat) : Prop :=
  (p ≤ n)%nat ∧ ((p < n)%nat → l !! p = Some (Some hs)) ∧ nested n l hs ∧ p' = new_index keep p ∧ hs' = [].

Lemma falls_through_edge p insn current : falls_through (kind_of insn) = true → (S p, current) ∈ flow_edges p insn current.
Proof. destruct insn; intros Hk; try done; cbn; try (by left); by right; left. Qed.

Lemma goes_to_edge p insn current k :
  goes_to (kind_of insn) = Some k → (jump_target p k, current) ∈ flow_edges p insn current.
Proof. destruct insn; intros [= ->]; by left. Qed.

Lemma kind_of_setup insn k : kind_of insn = KSetup k → insn = Op.SetupExcept k.
Proof. by destruct insn; intros [= ->]. Qed.

Lemma kind_of_pop insn : kind_of insn = KPop → insn = Op.PopExcept.
Proof. by destruct insn. Qed.

Section simulation.
Context {V E H : Type} `{Host V E H}.
Context (code : FnCode V) (l : stacks) (table : list Z).
Hypothesis code_wf : wf_code (insns code).
Hypothesis code_dynamic : exc_table code = [].
Hypothesis stacks_consistent : consistent (insns code) l.

Let n := length (insns code).
Let keep := no_block_setup <$> insns code.
Hypothesis table_lookup :
  ∀ p, keep !! p = Some true → table !! new_index keep p = Some (table_entry keep (l !! p)).

Let code' : FnCode V :=
  {| insns := compacted keep (insns code); consts := consts code; num_locals := num_locals code; exc_table := table |}.
Let Rc := exc_positions n keep l.

(** A frame that [throw] resumes was suspended by the instruction before, under
    the same handlers. *)
Definition throw_position (c : config V E H) : Prop :=
  ∃ y, pc c = S y ∧ keep !! y = Some true ∧ l !! y = Some (Some (handlers c)).

Lemma exc_edge p insn current t s :
  insns code !! p = Some insn → l !! p = Some (Some current) → (t, s) ∈ flow_edges p insn current →
  (t < n)%nat → l !! t = Some (Some s).
Proof using stacks_consistent.
  intros Hp Hl Hin Hlt. destruct stacks_consistent as (Hlen & Hcons & _). apply (Hcons p insn current Hp Hl t s Hin).
  by rewrite Hlen.
Qed.

Lemma exc_handler p hs :
  keep !! p = Some true → l !! p = Some (Some hs) → nested n l hs →
  related_handler Rc (find_handler code p hs) (find_handler code' (new_index keep p) []).
Proof using code_wf code_dynamic table_lookup.
  intros Hk Hl Hn. rewrite find_handler_dynamic by done. pose proof (table_lookup p Hk) as Ht. rewrite Hl in Ht.
  unfold find_handler. cbn [exc_table code']. destruct table as [|t0 ts]; [done|]. rewrite Ht.
  destruct hs as [|h hs]; cbn [table_entry]; [by rewrite Z.eqb_refl|]. destruct Hn as (Hh & Hbelow & Hn).
  pose proof (new_index_bound keep h). destruct code_wf as [Hsmall _]. unfold vlen in Hsmall. fold n in Hsmall.
  destruct (Z.eqb_spec (Z.of_nat (new_index keep h)) EXC_NO_HANDLER) as [Heq|_]; [unfold EXC_NO_HANDLER in Heq; lia|].
  cbn. by rewrite Nat2Z.id.
Qed.

Lemma keep_kind p insn : insns code !! p = Some insn → keep !! p = Some (no_block_setup insn).
Proof. apply keep_lookup. Qed.

Lemma exc_jump_pc p insn k :
  insns code !! p = Some insn → insn_jump_off insn = Some k →
  jump_pc code (S p) k = Some (jump_target p k) ∧ (jump_target p k ≤ n)%nat ∧
  jump_pc code' (S (new_index keep p)) (new_offset keep p k) = Some (new_index keep (jump_target p k)).
Proof using code_wf.
  intros Hp Hk. destruct (wf_jump_target _ _ _ _ code_wf Hp Hk) as (Hj & Hle & _).
  rewrite (wf_jump_pc code p insn) by done. rewrite <- Hj. split_and!; [done..|].
  pose proof (new_offset_target keep p k) as Ht. pose proof (new_index_le keep _ _ Hle).
  rewrite jump_pc_ok; [by rewrite Ht, Nat2Z.id|]. unfold vlen. cbn [insns code'].
  rewrite compacted_length by apply keep_length. lia.
Qed.

Lemma exc_lockstep p hs insn :
  Rc p hs (new_index keep p) [] → insns code !! p = Some insn → keep !! p = Some true →
  lockstep Rc code code' p (new_index keep p) hs [] (kind_of insn) (new_offset keep p).
Proof using code_wf code_dynamic stacks_consistent table_lookup.
  intros HR Hp Hkeep. pose proof HR as (Hpn & Hl & Hn & _ & _). apply lookup_lt_Some in Hp as Hlt. specialize (Hl Hlt).
  pose proof (keep_kind p insn Hp) as Hkind. rewrite Hkeep in Hkind. injection Hkind as Hkind.
  pose proof (kind_of_off insn) as Hoff. split.
  - done.
  - by apply exc_handler.
  - intros Hk. split_and!; [done| |done|by rewrite new_index_kept|done]. intros Hlt'.
    apply (exc_edge p insn hs); [done..|by apply falls_through_edge|done].
  - intros k Hk. pose proof Hk as Hg. apply goes_to_off in Hk. rewrite Hoff in Hk.
    destruct (exc_jump_pc p insn k Hp Hk) as (Ht & Hle & Ht'). exists (jump_target p k), (new_index keep (jump_target p k)).
    split_and!; [done..|]. split_and!; [done| |done..]. intros Hlt'. apply (exc_edge p insn hs); [done..|by apply goes_to_edge|done].
  - intros k Hk. apply kind_of_setup in Hk as ->. done.
  - intros Hk. apply kind_of_pop in Hk as ->. done.
Qed.

(** A dropped instruction pushes or pops a handler and goes on. *)
Lemma exc_skip c :
  inject c = None → keep !! pc c = Some false → Rc (pc c) (handlers c) (new_index keep (pc c)) [] →
  ∃ hs, step code c = inl (Config (S (pc c)) hs (st c) None) ∧ Rc (S (pc c)) hs (new_index keep (pc c)) [].
Proof using code_wf stacks_consistent table.
  intros He Hk (Hpn & Hl & Hn & _ & _). apply lookup_lt_Some in Hk as Hlt.
  unfold keep in Hlt. rewrite length_fmap in Hlt. specialize (Hl Hlt).
  destruct (lookup_lt_is_Some_2 _ _ Hlt) as [insn Hp]. pose proof (keep_kind _ _ Hp) as Hkind.
  rewrite Hk in Hkind. injection Hkind as Hkind. unfold step. rewrite He, Hp. unfold dispatch.
  destruct insn; try done; cbn [kind_of].
  - destruct (exc_jump_pc _ _ _ Hp eq_refl) as (Ht & Hle & _). rewrite Ht. eexists. split; [done|].
    split_and!; [done| | |by rewrite new_index_removed|done].
    + intros Hlt'. apply (exc_edge (pc c) _ (handlers c) _ _ Hp Hl); [by left|done].
    + split_and!; [done| |done]. intros Hlt'. apply (exc_edge (pc c) _ (handlers c) _ _ Hp Hl); [by right; left|done].
  - eexists. split; [done|]. split_and!; [done| |by destruct (handlers c); [|apply Hn]|by rewrite new_index_removed|done].
    intros Hlt'. apply (exc_edge (pc c) _ (handlers c) _ _ Hp Hl); [by left|done].
Qed.

Lemma exc_simulation c c' :
  related_config Rc c c' → inject c = None ∨ throw_position c →
  same_ends (step code) (step code') (related_stop Rc) c c'.
Proof using code_wf code_dynamic stacks_consistent table_lookup.
  intros HR Hinj.
  apply (simulation _ _ (λ c c', related_config Rc c c' ∧ (inject c = None ∨ throw_position c)) _ (λ c, n - pc c)%nat);
    [|done].
  clear c c' HR Hinj. intros c c' [HR Hthrow].
  assert (Hlift : related_next Rc (step code c) (step code' c') →
    matched (step code) (step code') (λ c c', related_config Rc c c' ∧ (inject c = None ∨ throw_position c))
      (related_stop Rc) (λ c, n - pc c)%nat c c').
  { intros Hnext. apply (matched_weaken _ _ (related_config Rc)); [|by apply related_next_matched].
    intros c1 b' Hs ?. split; [done|]. left. by destruct (step_inl code c c1 Hs). }
  pose proof HR as ((Hpn & Hl & Hn & Hp' & Hhs') & Hst & Hinj).
  destruct (inject c) as [e|] eqn:He.
  { destruct Hthrow as [|(y & Hy & Hky & Hly)]; [done|]. apply Hlift, (step_inject Rc code code' c c' e); [done..|].
    rewrite Hp', Hhs', Hy. rewrite new_index_kept by done. cbn [wrapping_pred]. by apply exc_handler. }
  destruct (insns code !! pc c) as [insn|] eqn:Hi.
  - apply lookup_lt_Some in Hi as Hlt. pose proof (keep_kind _ _ Hi) as Hk. destruct (no_block_setup insn).
    + apply Hlift, (step_lockstep Rc code code' c c' insn (new_offset keep (pc c))); try done.
      * rewrite Hp'. cbn [insns code']. by rewrite (compacted_lookup _ _ _ insn).
      * rewrite Hp', Hhs'. by apply exc_lockstep.
    + destruct (exc_skip c He Hk) as (hs & Hs & HRs); [done|]. unfold matched. rewrite Hs. right.
      split; [cbn; fold n in Hlt; lia|]. split; [|by left]. split_and!; [|done|by cbn; rewrite <- Hinj].
      by rewrite Hp', Hhs'.
  - apply lookup_ge_None in Hi. fold n in Hi. apply Hlift, (step_end Rc); [done..|fold n; lia|].
    rewrite Hp'. cbn [insns code']. rewrite compacted_length by apply keep_length. f_equal. fold n. lia.
Qed.
End simulation.

(** ** The pass *)

Definition with_table {V} (code : FnCode V) (insns' : list Insn) (table : list Z) : FnCode V :=
  {| insns := insns'; consts := consts code; num_locals := num_locals code; exc_table := table |}.

(** How positions correspond: the code without handlers is unchanged, and so is
    the code whose handlers the analysis cannot tell. *)
Definition table_positions (insns0 : list Insn) (p : nat) (hs : list nat) (p' : nat) (hs' : list nat) : Prop :=
  if existsb is_setup insns0 then
    match analyze_active_handler_stacks insns0 with
    | Ok (Some l) => exc_positions (length insns0) (no_block_setup <$> insns0) l p hs p' hs'
    | _ => p = p' ∧ hs = hs'
    end
  else p = p' ∧ hs = [] ∧ hs' = [].

(** Where [throw] resumes a frame, when the code has handlers. *)
Definition resumable {V E H} (insns0 : list Insn) (c : config V E H) : Prop :=
  inject c = None ∨
  ∀ l, existsb is_setup insns0 = true → analyze_active_handler_stacks insns0 = Ok (Some l) →
    ∃ y, pc c = S y ∧ no_block_setup <$> insns0 !! y = Some true ∧ l !! y = Some (Some (handlers c)).

Lemma same_ends_refl {V E H} `{Host V E H} (Rc : nat → list nat → nat → list nat → Prop) (code : FnCode V) (c c' : config V E H) :
  (∀ p hs, Rc p hs p hs) → (∀ p hs p' hs', Rc p hs p' hs' → p = p' ∧ hs = hs') → related_config Rc c c' →
  same_ends (step code) (step code) (related_stop Rc) c c'.
Proof.
  intros Hrefl Heq (HR & Hst & Hinj). apply Heq in HR as [Hp Hhs].
  assert (c = c') as <- by (destruct c, c'; cbn in *; congruence).
  assert (Hstop : ∀ o : stop V E H, related_stop Rc o o) by (intros []; cbn; auto). split; eauto.
Qed.

Section pass.
Context {V E H : Type} `{Host V E H}.
Implicit Types (code : FnCode V) (c : config V E H).

(** Code without handlers, with a table of none. *)
Lemma no_handlers_simulation code c c' :
  wf_code (insns code) → exc_table code = [] → existsb is_setup (insns code) = false →
  let code' := with_table code (insns code) (replicate (length (insns code)) EXC_NO_HANDLER) in
  let Rc := λ p hs p' hs', p = p' ∧ hs = [] ∧ hs' = [] in
  related_config Rc c c' → same_ends (step code) (step code') (related_stop Rc) c c'.
Proof.
  intros Hwf Hdyn Hno code' Rc.
  assert (Hhd : ∀ p p', related_handler Rc (find_handler code p []) (find_handler code' p' [])).
  { intros p p'. rewrite find_handler_dynamic by done. unfold find_handler. cbn [exc_table code' with_table].
    destruct (replicate _ _) as [|t ts] eqn:Hr; [done|]. rewrite <- Hr.
    destruct (replicate _ _ !! p') as [x|] eqn:Hx; [|done]. by apply lookup_replicate in Hx as [-> _]. }
  apply (simulation _ _ (related_config Rc) _ (λ _, 0%nat)). clear c c'. intros c c' HR.
  pose proof HR as ((Hp & Hhs & Hhs') & Hst & Hinj). apply related_next_matched.
  destruct (inject c) as [e|] eqn:He; [apply (step_inject Rc code code' c c' e); [done..|by rewrite Hhs, Hhs'; apply Hhd]|].
  destruct (insns code !! pc c) as [insn|] eqn:Hi; [|by apply step_beyond].
  apply (step_lockstep Rc code code' c c' insn (λ k, k)); try done; [by rewrite map_offset_same, <- Hp|].
  rewrite <- Hp, Hhs, Hhs'. assert (Hhere : ∀ p, Rc p [] p []) by done. pose proof (kind_of_off insn) as Hoff.
  split; [done|apply Hhd|done| | |done].
  - intros k Hk. apply goes_to_off in Hk. rewrite Hoff in Hk. pose proof (wf_jump_pc code _ _ _ Hwf Hi Hk) as Ht.
    eexists _, _. split_and!; [exact Ht|exact Ht|done..].
  - intros k Hk. apply kind_of_setup in Hk as ->. exfalso. apply not_true_iff_false in Hno. apply Hno, existsb_exists.
    exists (Op.SetupExcept k). split; [|done]. apply list_elem_of_In. by eapply list_elem_of_lookup_2.
Qed.

Lemma exc_table_correct code prefix :
  wf_code (insns code) → exc_table code = [] → (prefix ≤ length (insns code))%nat →
  ∃ insns' table prefix', build_exc_table_with_source_prefix (insns code) prefix = Ok (insns', table, prefix') ∧
    wf_code insns' ∧ (prefix' ≤ length insns')%nat ∧
    ∀ c c', related_config (table_positions (insns code)) c c' → resumable (insns code) c →
      same_ends (step code) (step (with_table code insns' table)) (related_stop (table_positions (insns code))) c c'.
Proof.
  intros Hwf Hdyn Hprefix. unfold build_exc_table_with_source_prefix, table_positions, resumable.
  rewrite rassert_true by by apply Nat.leb_le. cbn [mbind res_bind]. rewrite Nat.min_l by done.
  destruct (existsb is_setup (insns code)) eqn:Hsetup; cbn [negb].
  2:{ eexists _, _, _. do 3 (split; [done|]). intros c c' HR _. by apply no_handlers_simulation. }
  destruct (analyze_ok (insns code) Hwf) as (o & -> & Hcons). cbn [mbind res_bind]. destruct o as [l|].
  2:{ eexists _, _, _. do 3 (split; [done|]). intros c c' HR _.
      replace (with_table code (insns code) []) with code by (destruct code; cbn in *; by subst).
      by apply same_ends_refl. }
  specialize (Hcons l eq_refl). set (keep := no_block_setup <$> insns code).
  assert (Hlen : length keep = length (insns code)) by apply length_fmap.
  rewrite compact_ok by done. cbn [mbind res_bind]. rewrite compacted_length by done.
  destruct (fill_table_ok (insns code) l Hwf Hcons) as (table & Ht & _ & Hlook).
  fold keep in Ht, Hlook. rewrite Ht. cbn [mbind res_bind].
  rewrite (vnth_lookup _ prefix (new_index keep prefix)) by (apply to_new_lookup; lia). cbn [mbind res_bind].
  eexists _, _, _. split; [done|]. split; [by apply compacted_wf|].
  split; [rewrite compacted_length by done; by apply new_index_le|].
  intros c c' HR Hres. apply exc_simulation; try done.
  destruct Hres as [|Hres]; [by left|right]. destruct (Hres l eq_refl eq_refl) as (y & Hy & Hky & Hly).
  exists y. by rewrite list_lookup_fmap.
Qed.
End pass.
