(* ===== verification/BytecodeProps.v ===== *)
(** The theorems about the bytecode optimizer: each pass leaves every execution
    of a frame as it was, in whatever host the frame runs. *)

From S2P Require Import Outcome Prelude IntArith Bytecode Vm VmSpec Passes PassesSpec.
From S2P Require Import PassesSpec ExcTable.

Section properties.
Context {V E H : Type} `{Host V E H}.
Implicit Types (code : FnCode V) (c : config V E H) (s : state V H).

(** C2: The exception table replaces the handler stack: code with its handler
    instructions dropped and the table built for it runs, from related
    positions, to the same results as the code with the dynamic stack, and runs
    forever when that does.  A suspended frame is saved at related positions;
    so is one that [throw] resumes after the instruction that suspended it. *)
Theorem exception_table_replaces_stack code prefix :
  wf_code (insns code) → exc_table code = [] → (prefix ≤ length (insns code))%nat →
  ∃ insns' table prefix', build_exc_table_with_source_prefix (insns code) prefix = Ok (insns', table, prefix') ∧
    wf_code insns' ∧ (prefix' ≤ length insns')%nat ∧
    ∀ c c', related_config (table_positions (insns code)) c c' → resumable (insns code) c →
      same_ends (step code) (step (with_table code insns' table)) (related_stop (table_positions (insns code))) c c'.
Proof. apply exc_table_correct. Qed.

(** C9: Threading jumps through chains of forward jumps never runs out of fuel,
    keeps jumps in the code, and changes no execution. *)
Theorem jump_threading_preserves code :
  wf_code (insns code) → exc_table code = [] →
  ∃ insns', pass_thread_jumps (insns code) = Ok insns' ∧ wf_code insns' ∧
    ∀ c c', related_config (thread_positions (insns code)) c c' →
      same_ends (step code) (step (with_insns code insns')) (related_stop (thread_positions (insns code))) c c'.
Proof. apply thread_jumps_correct. Qed.

(** C11: Dead-code elimination ends within its fuel, and from the entry the code
    it leaves runs as before. *)
Theorem dead_code_elimination_preserves code s :
  wf_code (insns code) → exc_table code = [] →
  existsb is_late_stage_guard_insn (insns code) = false →
  ∃ reachable insns', reachable_insns (insns code) = Ok reachable ∧
    pass_dead_code (insns code) = Ok insns' ∧ wf_code insns' ∧
    same_ends (step code) (step (with_insns code insns'))
      (related_stop (compact_positions (length (insns code)) reachable)) (start (E := E) s) (start s).
Proof.
  intros Hwf Hdyn Hlate. destruct (dead_code_correct code (start s) (start s) Hwf Hdyn Hlate) as (r & i & Hr & Hp & Hw & Hs).
  exists r, i. split; [done|]. split; [done|]. split; [done|]. apply Hs; [by apply on_reachable_start|apply related_start].
Qed.

(** C17: Neither replacing a jump to a return by the return, nor replacing the
    jump back to a loop header by the inverted header, changes an execution. *)
Theorem exit_inlining_and_loop_inversion_preserve code c c' :
  wf_code (insns code) → exc_table code = [] →
  wf_code (pass_exit_inline (insns code)) ∧ wf_code (pass_loop_inversion (insns code)) ∧
  (related_config (exit_positions (insns code) (pass_exit_inline (insns code))) c c' →
   same_ends (step code) (step (with_insns code (pass_exit_inline (insns code))))
     (related_stop (exit_positions (insns code) (pass_exit_inline (insns code)))) c c') ∧
  (related_config (inversion_positions (insns code) (pass_loop_inversion (insns code))) c c' →
   same_ends (step code) (step (with_insns code (pass_loop_inversion (insns code))))
     (related_stop (inversion_positions (insns code) (pass_loop_inversion (insns code)))) c c').
Proof.
  intros Hwf Hdyn. split; [by apply exit_inline_wf|]. split; [by apply loop_inversion_wf|].
  split; [by apply exit_inline_simulation|by apply loop_inversion_simulation].
Qed.

(** Dropping jumps to the next instruction and moves of a register to
    itself, with all offsets rewritten, changes no execution in which these
    moves find their register set. *)
Theorem trivial_nop_removal_preserves code c c' :
  wf_code (insns code) → exc_table code = [] → self_moves_set code c →
  related_config (compact_positions (length (insns code)) (not_trivial_nop <$> insns code)) c c' →
  ∃ insns', pass_trivial_nop (insns code) = Ok insns' ∧ wf_code insns' ∧
    same_ends (step code) (step (with_insns code insns'))
      (related_stop (compact_positions (length (insns code)) (not_trivial_nop <$> insns code))) c c'.
Proof. apply trivial_nop_correct. Qed.

(** Dropping the constants that no instruction refers to, with all indices
    rewritten, leaves every step as it was. *)
Theorem constant_pool_compaction_preserves code :
  consts_in_range (insns code) (consts code) →
  ∃ insns' consts', pass_compact_consts (insns code) (consts code) = Ok (insns', consts') ∧
    let code' := {| insns := insns'; consts := consts'; num_locals := num_locals code; exc_table := exc_table code |} in
    ∀ c, step code' c = step code c.
Proof. apply compact_consts_correct. Qed.
End properties.

(** The analysis of active handlers ends, and the stacks it gives agree
    along every edge of control flow, from the empty stack at the entry. *)
Theorem handler_analysis_consistent insns0 :
  wf_code insns0 →
  ∃ o, analyze_active_handler_stacks insns0 = Ok o ∧ ∀ l, o = Some l → consistent insns0 l.
Proof. apply analyze_ok. Qed.

(** ** A host *)

(** Values are integers; instructions that only the host knows are recorded. *)
#[local] Instance toy_host : Host Z PyError (list Insn) := {
  none_value := 0;
  py_error e := e;
  host_truthy v s := Done (negb (v =? 0)) s;
  host_compare l _ r s := Done (l <? r) s;
  host_guard _ s := Done false s;
  host_exec insn k s :=
    match insn, k with
    | Op.LoadConst dst _, Some v => Done tt (State (<[Z.to_nat dst := Some v]> (regs s)) (rest s))
    | Op.Call _ _, _ => Fault (Named "ValueError" EmptyString) (State (regs s) (insn :: rest s))
    | _, _ => Done tt (State (regs s) (insn :: rest s))
    end;
  host_raise insn s := (Runtime "raised", s);
  host_yield _ s := Done (Some 0) s;
  host_catch _ s := inl s;
  host_escape e s := (e, s);
}.

(** [wf_code] of a given code. *)
Ltac wf_concrete :=
  split; [by vm_compute|];
  intros i insn k Hi Hk;
  repeat (destruct i as [|i]; [cbn in Hi; injection Hi as <-; cbn in Hk; first [discriminate Hk|injection Hk as <-; split; by vm_compute]|]);
  done.

(** [try: f() except: x = 7], then a loop. *)
Definition try_code : FnCode Z := {|
  insns := [Op.SetupExcept 3; Op.Call 0 0; Op.PopExcept; Op.Jump 2; Op.LoadConst 0 2; Op.Jump 0; Op.LoadConst 1 1;
            Op.CmpJumpIfFalse 1 OpLt 0 2; Op.Move 1 0; Op.Jump (-3); Op.Jump 1; Op.Jump 0; Op.Return 1];
  consts := [5; 0; 7];
  num_locals := 2;
  exc_table := [];
|}.

Definition try_state : state Z (list Insn) := State [Some 1; Some 2] [].

Lemma try_code_wf : wf_code (insns try_code).
Proof. wf_concrete. Qed.

(** The exception is caught by the table as by the stack. *)
Example try_code_run :
  ∃ insns' table, build_exc_table_with_source_prefix (insns try_code) 13 = Ok (insns', table, 11%nat) ∧
  run (step try_code) 40 (start try_state) = run (step (with_table try_code insns' table)) 40 (start try_state) ∧
  run (step try_code) 40 (start try_state) = Some (Returned 7 (State [Some 7; Some 7] [Op.Call 0 0])).
Proof. eexists _, _. split; [by vm_compute|]. split; by vm_compute. Qed.

Lemma exception_table_replaces_stack_witness :
  ∃ insns' table prefix', build_exc_table_with_source_prefix (insns try_code) 13 = Ok (insns', table, prefix') ∧
    wf_code insns' ∧ (prefix' ≤ length insns')%nat ∧
    ∀ c c', related_config (table_positions (insns try_code)) c c' → resumable (insns try_code) c →
      same_ends (step try_code) (step (with_table try_code insns' table)) (related_stop (table_positions (insns try_code))) c c'.
Proof. apply (exception_table_replaces_stack try_code 13); [apply try_code_wf|done|by vm_compute]. Defined.

Lemma jump_threading_preserves_witness :
  ∃ insns', pass_thread_jumps (insns try_code) = Ok insns' ∧ wf_code insns' ∧
    ∀ c c', related_config (thread_positions (insns try_code)) c c' →
      same_ends (step try_code) (step (with_insns try_code insns')) (related_stop (thread_positions (insns try_code))) c c'.
Proof. apply (jump_threading_preserves try_code); [apply try_code_wf|done]. Defined.

Lemma dead_code_elimination_preserves_witness :
  ∃ reachable insns', reachable_insns (insns try_code) = Ok reachable ∧
    pass_dead_code (insns try_code) = Ok insns' ∧ wf_code insns' ∧
    same_ends (step try_code) (step (with_insns try_code insns'))
      (related_stop (compact_positions (length (insns try_code)) reachable)) (start (E := PyError) try_state) (start try_state).
Proof. apply (dead_code_elimination_preserves try_code); [apply try_code_wf|done|by vm_compute]. Defined.

Lemma exit_inlining_and_loop_inversion_preserve_witness :
  let c := start (E := PyError) try_state in
  wf_code (pass_exit_inline (insns try_code)) ∧ wf_code (pass_loop_inversion (insns try_code)) ∧
  (related_config (exit_positions (insns try_code) (pass_exit_inline (insns try_code))) c c →
   same_ends (step try_code) (step (with_insns try_code (pass_exit_inline (insns try_code))))
     (related_stop (exit_positions (insns try_code) (pass_exit_inline (insns try_code)))) c c) ∧
  (related_config (inversion_positions (insns try_code) (pass_loop_inversion (insns try_code))) c c →
   same_ends (step try_code) (step (with_insns try_code (pass_loop_inversion (insns try_code))))
     (related_stop (inversion_positions (insns try_code) (pass_loop_inversion (insns try_code)))) c c).
Proof. intros c. apply (exit_inlining_and_loop_inversion_preserve try_code c c); [apply try_code_wf|done]. Defined.

Lemma no_self_moves {V E H} `{Host V E H} code (c : config V E H) :
  forallb (λ insn, match insn with Op.Move d r | Op.CopyReg d r => negb (d =? r) | _ => true end) (insns code) = true →
  self_moves_set code c.
Proof.
  intros Hno c1 r _ _ Hi. rewrite forallb_forall in Hno. exfalso.
  destruct Hi as [Hi|Hi]; apply list_elem_of_lookup_2, list_elem_of_In, Hno in Hi; by rewrite Z.eqb_refl in Hi.
Qed.

Lemma trivial_nop_removal_preserves_witness :
  ∃ insns', pass_trivial_nop (insns try_code) = Ok insns' ∧ wf_code insns' ∧
    same_ends (step try_code) (step (with_insns try_code insns'))
      (related_stop (compact_positions (length (insns try_code)) (not_trivial_nop <$> insns try_code)))
      (start (E := PyError) try_state) (start try_state).
Proof.
  apply (trivial_nop_removal_preserves try_code);
    [apply try_code_wf|done|by apply no_self_moves|apply related_start].
Defined.

Lemma constant_pool_compaction_preserves_witness :
  ∃ insns' consts', pass_compact_consts (insns try_code) (consts try_code) = Ok (insns', consts') ∧
    let code' := {| insns := insns'; consts := consts'; num_locals := num_locals try_code; exc_table := exc_table try_code |} in
    ∀ c, step code' c = step try_code c.
Proof.
  apply (constant_pool_compaction_preserves try_code). split; [by vm_compute|]. intros i insn k Hi Hk.
  repeat (destruct i as [|i]; [cbn in Hi; injection Hi as <-; cbn in Hk; first [discriminate Hk|injection Hk as <-; split; by vm_compute]|]).
  done.
Defined.

Lemma handler_analysis_consistent_witness :
  ∃ o, analyze_active_handler_stacks (insns try_code) = Ok o ∧ ∀ l, o = Some l → consistent (insns try_code) l.
Proof. apply handler_analysis_consistent, try_code_wf. Defined.
