(* ===== verification/Classes.v ===== *)
(** Classes: their linearization, the look-up of attributes along it, the tests
    that walk the bases, and the creation of a class
    (crates/pyrust/src/interpreter/helpers/class_lookup.rs, class_semantics.rs,
    primitive_classes/metaclasses.rs, interpreter/runtime/attributes
    /descriptor_support.rs, interpreter/runtime/classes). *)

From stdpp Require Import gmap strings.
From S2P Require Import Outcome Prelude.

(** ** Data *)

(** A class pointer, an [Rc<RefCell<PyClass>>]: a position in the table of
    classes. *)
Abbreviation ClassRef := nat.

Inductive CanonicalClassTag : Type :=
  | TagObject | TagBool | TagBytearray | TagBytes | TagComplex | TagDict | TagEllipsis | TagFloat | TagFrozenset
  | TagGenericAlias | TagInt | TagList | TagMappingProxy | TagNoneType | TagNotImplementedType | TagSet | TagStr
  | TagTuple | TagTypeVar.

Definition tag_is_primitive (tag : CanonicalClassTag) : bool :=
  match tag with TagObject | TagGenericAlias | TagTypeVar => false | _ => true end.

(** The fields of [PyClass] that the code below reads. *)
Record PyClass (V : Type) : Type := {
  name : string;
  base : option ClassRef;
  extra_bases : list ClassRef;
  attrs : gmap string V;
  subclasses : list ClassRef;
  slots : option (gset string);
  new_slot_wrapped : bool;
  canonical_tag : option CanonicalClassTag;
}.
Arguments name {V} _.
Arguments base {V} _.
Arguments extra_bases {V} _.
Arguments attrs {V} _.
Arguments subclasses {V} _.
Arguments slots {V} _.
Arguments new_slot_wrapped {V} _.
Arguments canonical_tag {V} _.

(** All classes, with the singletons [object] and [type] and the keys of
    [PRIMITIVE_CLASS_DISPATCH]. *)
Record ClassTable (V : Type) : Type := {
  classes : list (PyClass V);
  object_class : ClassRef;
  type_class : ClassRef;
  primitive_dispatch : list ClassRef;
}.
Arguments classes {V} _.
Arguments object_class {V} _.
Arguments type_class {V} _.
Arguments primitive_dispatch {V} _.

(** ** Merging *)

Definition nonempty {A} (l : list A) : bool := match l with [] => false | _ => true end.

Definition in_tails (lists : list (list ClassRef)) (head : ClassRef) : bool :=
  existsb (λ other, bool_decide (head ∈ tail other)) lists.

(** The scan for a head that is in no tail, [object] being deferred. *)
Fixpoint pick_head (obj : ClassRef) (lists scanned : list (list ClassRef)) (deferred : option ClassRef) :
    outcome (option ClassRef) :=
  match scanned with
  | [] => Return deferred
  | [] :: _ => Panicked
  | (head :: _) :: scanned =>
      if in_tails lists head then pick_head obj lists scanned deferred
      else if bool_decide (head = obj) then pick_head obj lists scanned (Some head)
      else Return (Some head)
  end.

Definition remove_head (chosen : ClassRef) (l : list ClassRef) : list ClassRef :=
  match l with
  | head :: rest => if bool_decide (head = chosen) then rest else l
  | [] => []
  end.

(** The loop of the merge; [no_head] is what the code does when every head is in
    a tail. *)
Fixpoint merge_loop (no_head : list (list ClassRef) → outcome ClassRef) (obj : ClassRef) (fuel : nat)
    (lists : list (list ClassRef)) (result : list ClassRef) : outcome (list ClassRef) :=
  match fuel with
  | O => OutOfFuel
  | S fuel =>
      let lists := List.filter nonempty lists in
      match lists with
      | [] => Return result
      | _ =>
          found ← pick_head obj lists lists None;
          chosen ← match found with Some c => Return c | None => no_head lists end;
          merge_loop no_head obj fuel (remove_head chosen <$> lists) (result ++ [chosen])
      end
  end.

(** Every turn takes a head off. *)
Definition merge_fuel (lists : list (list ClassRef)) : nat := S (length (mjoin lists)).

Section table.
Context {V : Type}.
Implicit Types (t : ClassTable V) (c : ClassRef) (cls : PyClass V).

(** [c.borrow()] *)
Definition borrow t c : outcome (PyClass V) :=
  match classes t !! c with Some cls => Return cls | None => Panicked end.

Definition all_bases cls : list ClassRef := option_list (base cls) ++ extra_bases cls.

(** Walks up the bases of a class end, since bases come before the classes
    derived from them; [object] may follow the last one. *)
Definition class_fuel t : nat := S (S (length (classes t))).

(** ** Linearization *)

Definition mro_error (base_names : list string) : PyError :=
  Named "TypeError" ("Cannot create a consistent method resolution
order (MRO) for bases " +:+ String.concat ", " base_names).

(** The error of the merge for the bases [bases]. *)
Definition inconsistent {A} t (bases : list ClassRef) : outcome A :=
  base_names ← mapM (λ b, name <$> borrow t b) (List.filter (λ b, negb (bool_decide (b = object_class t))) bases);
  Raise (mro_error base_names).

Fixpoint c3_linearize (fuel : nat) t c : outcome (list ClassRef) :=
  match fuel with
  | O => OutOfFuel
  | S fuel =>
      cls ← borrow t c;
      match all_bases cls with
      | [] => Return [c]
      | bases =>
          ls ← mapM (c3_linearize fuel t) bases;
          let lists := ls ++ [bases] in
          merge_loop (λ _, inconsistent t bases) (object_class t) (merge_fuel lists) lists [c]
      end
  end.

(** The inner function of [c3_linearize_classes], which falls back to the first
    head. *)
Fixpoint linearize (fuel : nat) t c : outcome (list ClassRef) :=
  match fuel with
  | O => OutOfFuel
  | S fuel =>
      cls ← borrow t c;
      match all_bases cls with
      | [] => Return [c]
      | bases =>
          ls ← mapM (linearize fuel t) bases;
          let lists := ls ++ [bases] in
          merge_loop (λ lists, match lists with (head :: _) :: _ => Return head | _ => Panicked end)
            (object_class t) (merge_fuel lists) lists [c]
      end
  end.

Definition append_object t (mro : list ClassRef) : list ClassRef :=
  if bool_decide (object_class t ∈ mro) then mro else mro ++ [object_class t].

Definition class_mro_items t c : outcome (list ClassRef) :=
  mro ← c3_linearize (class_fuel t) t c;
  Return (append_object t mro).

Definition c3_linearize_classes t c : outcome (list ClassRef) :=
  mro ← linearize (class_fuel t) t c;
  Return (append_object t mro).

(** ** Attributes *)

Definition is_primitive_class t c : bool := bool_decide (c ∈ primitive_dispatch t).

(** The first class of [mro] with the attribute in its own dictionary. *)
Fixpoint first_owner t (mro : list ClassRef) (attr : string) : outcome (option (ClassRef * V)) :=
  match mro with
  | [] => Return None
  | c :: mro =>
      cls ← borrow t c;
      match attrs cls !! attr with
      | Some v => Return (Some (c, v))
      | None => first_owner t mro attr
      end
  end.

Fixpoint lookup_class_attr (fuel : nat) t c (attr : string) : outcome (option V) :=
  match fuel with
  | O => OutOfFuel
  | S fuel =>
      cls ← borrow t c;
      match attrs cls !! attr with
      | Some v => Return (Some v)
      | None =>
          if nonempty (extra_bases cls) then
            mro ← c3_linearize_classes t c;
            owner ← first_owner t mro attr;
            Return (option_map snd owner)
          else
            found ← match base cls with
                    | Some b => lookup_class_attr fuel t b attr
                    | None => Return None
                    end;
            match found, base cls with
            | Some v, _ => Return (Some v)
            | None, None =>
                if negb (is_primitive_class t c) && negb (bool_decide (c = object_class t)) then
                  lookup_class_attr fuel t (object_class t) attr
                else Return None
            | None, Some _ => Return None
            end
      end
  end.

Fixpoint lookup_class_attr_owner (fuel : nat) t c (attr : string) : outcome (option ClassRef) :=
  match fuel with
  | O => OutOfFuel
  | S fuel =>
      cls ← borrow t c;
      match attrs cls !! attr with
      | Some _ => Return (Some c)
      | None =>
          if nonempty (extra_bases cls) then
            mro ← c3_linearize_classes t c;
            owner ← first_owner t mro attr;
            Return (option_map fst owner)
          else
            found ← match base cls with
                    | Some b => lookup_class_attr_owner fuel t b attr
                    | None => Return None
                    end;
            match found, base cls with
            | Some owner, _ => Return (Some owner)
            | None, None =>
                if negb (is_primitive_class t c) && negb (bool_decide (c = object_class t)) then
                  lookup_class_attr_owner fuel t (object_class t) attr
                else Return None
            | None, Some _ => Return None
            end
      end
  end.

(** Where [super()] starts in the linearization of the receiver. *)
Definition mro_search_start (mro : list ClassRef) c : nat :=
  match list_find (λ x, x = c) mro with Some (i, _) => S i | None => 0%nat end.

(** [super(c, receiver).attr], before it is bound to the receiver. *)
Definition super_lookup t c (instance_class : ClassRef) (attr : string) : outcome (option (ClassRef * V)) :=
  mro ← class_mro_items t instance_class;
  first_owner t (drop (mro_search_start mro c) mro) attr.

(** Metaclass attributes are looked up depth first. *)
Fixpoint lookup_user_metaclass_attr (fuel : nat) t (meta : ClassRef) (attr : string) : outcome (option V) :=
  match fuel with
  | O => OutOfFuel
  | S fuel =>
      if bool_decide (meta = type_class t) || bool_decide (meta = object_class t) then Return None
      else
        cls ← borrow t meta;
        match attrs cls !! attr with
        | Some v => Return (Some v)
        | None =>
            (fix search (bases : list ClassRef) : outcome (option V) :=
               match bases with
               | [] => Return None
               | b :: bases =>
                   found ← lookup_user_metaclass_attr fuel t b attr;
                   match found with Some v => Return (Some v) | None => search bases end
               end) (all_bases cls)
        end
  end.

(** ** Walks up the bases *)

(** [bases.iter().any(f)] for a fallible [f]. *)
Fixpoint any_of {A} (f : A → outcome bool) (l : list A) : outcome bool :=
  match l with
  | [] => Return false
  | x :: l => b ← f x; if b : bool then Return true else any_of f l
  end.

Fixpoint class_is_subclass_of (fuel : nat) t c (expected : ClassRef) : outcome bool :=
  match fuel with
  | O => OutOfFuel
  | S fuel =>
      if bool_decide (c = expected) then Return true
      else if bool_decide (expected = object_class t) then Return true
      else
        cls ← borrow t c;
        any_of (λ b, class_is_subclass_of fuel t b expected) (all_bases cls)
  end.

Fixpoint class_chain_new_slot_wrapped (fuel : nat) t c : outcome bool :=
  match fuel with
  | O => OutOfFuel
  | S fuel =>
      cls ← borrow t c;
      if new_slot_wrapped cls then Return true
      else any_of (class_chain_new_slot_wrapped fuel t) (all_bases cls)
  end.

(** The bases other than [object]. *)
Definition bases_below_object t cls : list ClassRef :=
  List.filter (λ b, negb (bool_decide (b = object_class t))) (all_bases cls).

Fixpoint mro_has_unslotted_ancestor (fuel : nat) t c : outcome bool :=
  match fuel with
  | O => OutOfFuel
  | S fuel =>
      cls ← borrow t c;
      match slots cls with
      | None => Return true
      | Some _ => any_of (mro_has_unslotted_ancestor fuel t) (bases_below_object t cls)
      end
  end.

Fixpoint mro_slot_allows (fuel : nat) t c (attr : string) : outcome bool :=
  match fuel with
  | O => OutOfFuel
  | S fuel =>
      cls ← borrow t c;
      if match slots cls with Some slot_set => bool_decide (attr ∈ slot_set) | None => false end then Return true
      else any_of (λ b, mro_slot_allows fuel t b attr) (bases_below_object t cls)
  end.

Definition class_suppresses_instance_dict t c : outcome bool :=
  cls ← borrow t c;
  match slots cls with
  | None => Return false
  | Some _ =>
      allows ← mro_slot_allows (class_fuel t) t c "__dict__";
      if allows : bool then Return false
      else unslotted ← mro_has_unslotted_ancestor (class_fuel t) t c; Return (negb unslotted)
  end.

(** ** Unhashable built-in classes *)

Definition is_unhashable_primitive cls : bool :=
  match canonical_tag cls with Some (TagList | TagDict | TagSet | TagBytearray) => true | _ => false end.

(** The scan of the linearization. *)
Fixpoint first_hash_is_none t (mro : list ClassRef) : outcome bool :=
  match mro with
  | [] => Return false
  | c :: mro =>
      cls ← borrow t c;
      if bool_decide (is_Some (attrs cls !! "__hash__")) then Return false
      else if is_unhashable_primitive cls then Return true
      else first_hash_is_none t mro
  end.

Fixpoint class_hash_inherits_builtin_none (fuel : nat) t c : outcome bool :=
  match fuel with
  | O => OutOfFuel
  | S fuel =>
      cls ← borrow t c;
      if bool_decide (is_Some (attrs cls !! "__hash__")) then Return false
      else if is_unhashable_primitive cls then Return true
      else if nonempty (extra_bases cls) then
        mro ← c3_linearize_classes t c;
        first_hash_is_none t mro
      else
        match base cls with
        | Some b => class_hash_inherits_builtin_none fuel t b
        | None => Return false
        end
  end.

(** ** Creation *)

Definition push_subclass c cls : PyClass V :=
  {| name := name cls; base := base cls; extra_bases := extra_bases cls; attrs := attrs cls;
     subclasses := subclasses cls ++ [c]; slots := slots cls; new_slot_wrapped := new_slot_wrapped cls;
     canonical_tag := canonical_tag cls |}.

Definition with_classes t (l : list (PyClass V)) : ClassTable V :=
  {| classes := l; object_class := object_class t; type_class := type_class t;
     primitive_dispatch := primitive_dispatch t |}.

(** A new class is registered with its bases once it has a linearization; it is
    the last of the table. *)
Definition build_class t cls : outcome (ClassTable V * ClassRef) :=
  let c := length (classes t) in
  let t' := with_classes t (classes t ++ [cls]) in
  _ ← class_mro_items t' c;
  Return (with_classes t' (foldl (λ l b, alter (push_subclass c) b l) (classes t') (all_bases cls)), c).

Definition class_direct_subclasses t c : outcome (list ClassRef) := subclasses <$> borrow t c.
End table.
