(* ===== verification/ClassSpec.v ===== *)
(** The merge of the C3 linearization: it succeeds exactly when the lists have a
    common order, and then gives one.

    The linearization of a class as an order of its ancestors, and the code that
    walks up the bases against it. *)

From stdpp Require Import gmap strings.
From S2P Require Import Outcome Prelude Classes.

(** An order of which every list is a part, and a merge of the lists. *)
Definition common_order (lists : list (list ClassRef)) (r : list ClassRef) : Prop :=
  NoDup r ∧ ∀ l, l ∈ lists → l `sublist_of` r.

Definition mergeable (lists : list (list ClassRef)) : Prop := ∃ r, common_order lists r.

Definition comes_last (x : ClassRef) (l : list ClassRef) : Prop := ∀ l1 l2, l = l1 ++ x :: l2 → l2 = [].

(** The next class of a C3 merge: the first head that is in no tail, and [obj]
    only when there is no other one. *)
Definition free (lists : list (list ClassRef)) (x : ClassRef) : Prop := ∀ l, l ∈ lists → x ∉ tail l.
Definition next_class (obj : ClassRef) (lists : list (list ClassRef)) (h : ClassRef) : Prop :=
  free lists h ∧ ∃ l1 rest l2, lists = l1 ++ (h :: rest) :: l2 ∧
    ∀ l x, (if decide (h = obj) then l ∈ lists else l ∈ l1) → head l = Some x → free lists x → x = obj.

(** The C3 merge: the next class goes to the result and off the lists, until
    these are empty. *)
Inductive c3_merge (obj : ClassRef) : list (list ClassRef) → list ClassRef → Prop :=
  | c3_end lists : (∀ l, l ∈ lists → l = []) → c3_merge obj lists []
  | c3_next lists h r : next_class obj lists h → c3_merge obj (remove_head h <$> lists) r → c3_merge obj lists (h :: r).

Record is_merge (obj : ClassRef) (lists : list (list ClassRef)) (r : list ClassRef) : Prop := {
  merge_c3 : c3_merge obj lists r;
  merge_order : common_order lists r;
  merge_elements : ∀ x, x ∈ r ↔ ∃ l, l ∈ lists ∧ x ∈ l;
  merge_last : (∀ l, l ∈ lists → comes_last obj l) → comes_last obj r;
}.

(** ** Sublists *)

Lemma sublist_elem {A} (l k : list A) x : l `sublist_of` k → x ∈ l → x ∈ k.
Proof. induction 1; rewrite ?elem_of_cons; naive_solver. Qed.

Lemma sublist_eq_length {A} (l k : list A) : l `sublist_of` k → length l = length k → l = k.
Proof.
  induction 1 as [|x l k _ IH|x l k Hs _]; cbn; [done|intros; f_equal; auto|]. apply sublist_length in Hs. lia.
Qed.

Lemma tail_sublist {A} (l : list A) : tail l `sublist_of` l.
Proof. destruct l; [done|by apply sublist_cons]. Qed.

Lemma elem_of_tail {A} (l : list A) x : x ∈ tail l → x ∈ l.
Proof. apply sublist_elem, tail_sublist. Qed.

Lemma comes_last_cons x y l : comes_last x (y :: l) ↔ (x = y → l = []) ∧ comes_last x l.
Proof.
  split.
  - intros Hl. split; [intros ->; by apply (Hl [])|]. intros l1 l2 ->. by apply (Hl (y :: l1)).
  - intros [Hy Hl] [|z l1] l2 [= -> ->]; [by apply Hy|by apply (Hl l1)].
Qed.

Lemma comes_last_tail x l : comes_last x l → comes_last x (tail l).
Proof. destruct l; [done|]. by intros [_ ?]%comes_last_cons. Qed.

(** ** Heads and tails *)

Lemma in_tails_true lists h : in_tails lists h = true ↔ ∃ l, l ∈ lists ∧ h ∈ tail l.
Proof.
  unfold in_tails. rewrite existsb_exists. split.
  - intros (l & Hl & Hh%bool_decide_eq_true). exists l. by rewrite list_elem_of_In.
  - intros (l & Hl & Hh). exists l. rewrite <- list_elem_of_In. split; [done|by apply bool_decide_eq_true].
Qed.

Lemma in_tails_false lists h : in_tails lists h = false ↔ ∀ l, l ∈ lists → h ∉ tail l.
Proof.
  rewrite <- not_true_iff_false, in_tails_true. split; [|naive_solver]. intros Hn l Hl Hh. apply Hn. by exists l.
Qed.

(** A head that may be chosen. *)
Definition valid_head (lists : list (list ClassRef)) (h : ClassRef) : Prop :=
  (∃ l, l ∈ lists ∧ head l = Some h) ∧ in_tails lists h = false.

Lemma pick_head_spec obj lists scanned d :
  (∀ l, l ∈ scanned → l ∈ lists ∧ l ≠ []) → (∀ h, d = Some h → h = obj ∧ valid_head lists h) →
  ∃ o, pick_head obj lists scanned d = Return o ∧ (∀ h, o = Some h → valid_head lists h) ∧
    (o = None → d = None ∧ ∀ l h, l ∈ scanned → head l = Some h → in_tails lists h = true) ∧
    (o = Some obj → ∀ l h, l ∈ scanned → head l = Some h → h = obj ∨ in_tails lists h = true).
Proof.
  revert d. induction scanned as [|l scanned IH]; intros d Hs Hd.
  { exists d. split; [done|]. split; [by intros h Hh; apply Hd|].
    split; intros; [split; [done|]; by intros l h ?%elem_of_nil|by apply elem_of_nil in H0]. }
  destruct (Hs l) as [Hl Hne]; [by apply elem_of_cons; left|]. destruct l as [|h l]; [done|]. cbn.
  assert (Hs' : ∀ l, l ∈ scanned → l ∈ lists ∧ l ≠ []) by (intros; apply Hs, elem_of_cons; by right).
  destruct (in_tails lists h) eqn:Ht.
  { destruct (IH d Hs' Hd) as (o & Ho & Hv & Hn & Ho'). exists o. split; [done|]. split; [done|].
    split; intros Heq.
    - destruct (Hn Heq) as [-> Hall]. split; [done|]. intros l' h' [->|?]%elem_of_cons Hh; [by injection Hh as <-|by eapply Hall].
    - intros l' h' [->|?]%elem_of_cons Hh; [injection Hh as <-; by right|by eapply Ho']. }
  assert (Hvalid : valid_head lists h) by (split; [by exists (h :: l)|done]).
  destruct (bool_decide_reflect (h = obj)) as [->|Hno].
  - destruct (IH (Some obj) Hs') as (o & Ho & Hv & Hn & Ho'); [by intros ? [= <-]|].
    exists o. split; [done|]. split; [done|]. split; intros Heq; [by destruct (Hn Heq)|].
    intros l' h' [->|?]%elem_of_cons Hh; [injection Hh as <-; by left|by eapply Ho'].
  - exists (Some h). split; [done|]. split; [by intros ? [= <-]|]. split; [done|]. by intros [= ->].
Qed.

(** The head comes before the others that may be chosen. *)
Lemma pick_head_first obj lists scanned d h :
  pick_head obj lists scanned d = Return (Some h) →
  d = Some h ∨ ∃ l1 rest l2, scanned = l1 ++ (h :: rest) :: l2 ∧
    ∀ l x, l ∈ l1 → head l = Some x → x = obj ∨ in_tails lists x = true.
Proof.
  revert d. induction scanned as [|[|x l] scanned IH]; intros d; [intros [= ->]; by left|done|]. cbn [pick_head].
  assert (Hlater : ∀ l1 rest l2, scanned = l1 ++ (h :: rest) :: l2 → (∀ l x, l ∈ l1 → head l = Some x → x = obj ∨ in_tails lists x = true) →
    x = obj ∨ in_tails lists x = true →
    ∃ l1 rest l2, (x :: l) :: scanned = l1 ++ (h :: rest) :: l2 ∧ ∀ l x, l ∈ l1 → head l = Some x → x = obj ∨ in_tails lists x = true).
  { intros l1 rest l2 -> Hl1 Hx. exists ((x :: l) :: l1), rest, l2. split; [done|].
    intros l' y [->|Hl']%elem_of_cons; [by intros [= <-]|by apply Hl1]. }
  destruct (in_tails lists x) eqn:Ht; [|case_bool_decide as Hobj].
  - intros [?|(l1 & rest & l2 & Hs & Hl1)]%IH; [by left|right]. eapply Hlater; eauto.
  - subst x. intros [[= ->]|(l1 & rest & l2 & Hs & Hl1)]%IH; right; [|eapply Hlater; eauto].
    exists [], l, scanned. split; [done|]. by intros ? ? ?%elem_of_nil.
  - intros [= ->]. right. exists [], l, scanned. split; [done|]. by intros ? ? ?%elem_of_nil.
Qed.

Lemma free_in_tails lists x : free lists x ↔ in_tails lists x = false.
Proof. by rewrite in_tails_false. Qed.

(** The code picks the next class of C3. *)
Lemma pick_head_next obj lists h :
  (∀ l, l ∈ lists → l ≠ []) → pick_head obj lists lists None = Return (Some h) → next_class obj lists h.
Proof.
  intros Hne Hp. destruct (pick_head_spec obj lists lists None) as (o & Ho & Hv & _ & Hobj); [by split; [|apply Hne]|done|].
  rewrite Hp in Ho. injection Ho as <-. destruct (Hv h eq_refl) as [_ Ht]. split; [by apply free_in_tails|].
  destruct (pick_head_first obj lists lists None h Hp) as [?|(l1 & rest & l2 & Heq & Hl1)]; [done|].
  exists l1, rest, l2. split; [done|]. intros l x Hl Hx Hfree%free_in_tails.
  assert (x = obj ∨ in_tails lists x = true) as [?|?]; [|done|congruence].
  case_decide as Hh; [subst h; by eapply Hobj|by eapply Hl1].
Qed.

(** The first class of a common order that is in a list heads one, and is in no
    tail. *)
Lemma first_valid lists r :
  common_order lists r → (∃ l, l ∈ lists ∧ l ≠ []) → ∃ h, valid_head lists h.
Proof.
  intros [Hnd Hsub]. revert Hsub. induction r as [|y r IH]; intros Hsub Hne.
  { destruct Hne as (l & Hl & Hne). by apply Hsub, sublist_nil_r in Hl. }
  apply NoDup_cons in Hnd as [Hy Hnd].
  assert (Hcases : ∀ l, l ∈ lists → (head l = Some y ∧ tail l `sublist_of` r) ∨ l `sublist_of` r).
  { intros l Hl. specialize (Hsub l Hl). inversion Hsub; subst; [by left|by right]. }
  destruct (decide (Exists (λ l, head l = Some y) lists)) as [He|He].
  - apply Exists_exists in He as (l & Hl & Hhead). exists y. split; [by exists l|]. apply in_tails_false.
    intros l' Hl' Hin. apply Hy. destruct (Hcases l' Hl') as [[_ Ht]|Ht].
    + by apply (sublist_elem (tail l')).
    + by apply (sublist_elem l'), elem_of_tail.
  - apply IH; [done| |done]. intros l Hl. destruct (Hcases l Hl) as [[Hh _]|?]; [|done].
    exfalso. apply He, Exists_exists. by exists l.
Qed.

(** ** Taking a head off *)

Lemma remove_head_cases h l :
  (head l = Some h ∧ l = h :: remove_head h l) ∨ (head l ≠ Some h ∧ remove_head h l = l).
Proof.
  destruct l as [|x l]; cbn; [by right|]. case_bool_decide as Hx; [subst; by left|right; split; [congruence|done]].
Qed.

Lemma remove_head_absent lists h :
  in_tails lists h = false → ∀ l, l ∈ lists → h ∉ remove_head h l.
Proof.
  rewrite in_tails_false. intros Ht l Hl. specialize (Ht l Hl). destruct l as [|x l]; cbn; [set_solver|].
  case_bool_decide; [done|]. intros [->|?]%elem_of_cons; [done|by apply Ht].
Qed.

Lemma remove_head_sublist h l : remove_head h l `sublist_of` l.
Proof. destruct (remove_head_cases h l) as [[_ Hl]|[_ ->]]; [|done]. rewrite Hl at 2. by apply sublist_cons. Qed.

Lemma mjoin_cons {A} (l : list A) ls : mjoin (l :: ls) = l ++ mjoin ls.
Proof. done. Qed.

Lemma remove_heads_shorter lists h l :
  l ∈ lists → head l = Some h → (length (mjoin (remove_head h <$> lists)) < length (mjoin lists))%nat.
Proof.
  assert (Hle : ∀ ls, (length (mjoin (remove_head h <$> ls)) ≤ length (mjoin ls))%nat).
  { induction ls as [|l' ls IH]; [done|]. rewrite fmap_cons, !mjoin_cons, !length_app. pose proof (sublist_length _ _ (remove_head_sublist h l')). lia. }
  induction lists as [|l' ls IH]; [set_solver|]. intros [->|Hl]%elem_of_cons Hh; rewrite fmap_cons, !mjoin_cons, !length_app.
  - destruct (remove_head_cases h l') as [[_ Heq]|[? _]]; [|done]. specialize (Hle ls). apply (f_equal length) in Heq. cbn in Heq. lia.
  - pose proof (sublist_length _ _ (remove_head_sublist h l')). specialize (IH Hl Hh). lia.
Qed.

Lemma filter_nonempty (lists : list (list ClassRef)) l : l ∈ List.filter nonempty lists ↔ l ∈ lists ∧ l ≠ [].
Proof. rewrite !list_elem_of_In, filter_In. destruct l; cbn; intuition congruence. Qed.

Lemma mjoin_filter_nonempty (lists : list (list ClassRef)) : mjoin (List.filter nonempty lists) = mjoin lists.
Proof. induction lists as [|[|x l] ls IH]; [done|done|]. cbn [List.filter nonempty]. by rewrite !mjoin_cons, IH. Qed.

Lemma common_order_filter lists r : common_order (List.filter nonempty lists) r ↔ common_order lists r.
Proof.
  split; intros [Hnd Hs]; (split; [done|]); intros l Hl.
  - destruct (decide (l = [])) as [->|]; [apply sublist_nil_l|]. apply Hs. by apply filter_nonempty.
  - apply Hs. by apply filter_nonempty in Hl as [? _].
Qed.

Lemma filter_split {A} (f : A → bool) l a x b :
  List.filter f l = a ++ x :: b → ∃ k1 k2, l = k1 ++ x :: k2 ∧ List.filter f k1 = a.
Proof.
  revert a. induction l as [|y l IH]; intros a; [by destruct a|]. cbn [List.filter]. destruct (f y) eqn:Hy.
  - destruct a as [|z a]; intros [= -> Hl]; [by exists [], l|]. destruct (IH a Hl) as (k1 & k2 & -> & Hk). exists (z :: k1), k2.
    split; [done|]. cbn [List.filter]. by rewrite Hy, Hk.
  - intros (k1 & k2 & -> & Hk)%IH. exists (y :: k1), k2. split; [done|]. cbn [List.filter]. by rewrite Hy.
Qed.

Lemma filter_remove_heads h lists :
  List.filter nonempty (remove_head h <$> lists) = List.filter nonempty (remove_head h <$> List.filter nonempty lists).
Proof.
  induction lists as [|[|x l] lists IH]; [done|done|]. cbn [List.filter nonempty]. rewrite !fmap_cons. cbn [List.filter]. by rewrite IH.
Qed.

(** Empty lists do not count. *)
Lemma c3_merge_filter obj ls r :
  c3_merge obj ls r → ∀ lists, List.filter nonempty lists = List.filter nonempty ls → c3_merge obj lists r.
Proof.
  induction 1 as [ls Hall|ls h r [Hfree (l1 & rest & l2 & Hls & Hfirst)] Hr IH]; intros lists Heq.
  - apply c3_end. intros l Hl. destruct (decide (l = [])) as [|Hne]; [done|]. apply Hall.
    assert (Hin : l ∈ List.filter nonempty lists) by (by apply filter_nonempty). rewrite Heq in Hin. by apply filter_nonempty in Hin as [? _].
  - assert (Hin : ∀ l x, l ∈ lists → x ∈ l → l ∈ ls).
    { intros l x Hl Hx. assert (Hf : l ∈ List.filter nonempty lists) by (apply filter_nonempty; split; [done|by intros ->; apply not_elem_of_nil in Hx]).
      rewrite Heq in Hf. by apply filter_nonempty in Hf as [? _]. }
    assert (Hin' : ∀ l x, l ∈ ls → x ∈ l → l ∈ lists).
    { intros l x Hl Hx. assert (Hf : l ∈ List.filter nonempty ls) by (apply filter_nonempty; split; [done|by intros ->; apply not_elem_of_nil in Hx]).
      rewrite <- Heq in Hf. by apply filter_nonempty in Hf as [? _]. }
    assert (Hfree' : ∀ x, free lists x ↔ free ls x).
    { intros x. split; intros Hx l Hl Ht; (eapply Hx; [|exact Ht]); [eapply Hin'|eapply Hin]; try done; by apply elem_of_tail. }
    apply c3_next.
    + split; [by apply Hfree'|]. destruct (filter_split nonempty lists (List.filter nonempty l1) (h :: rest) (List.filter nonempty l2)) as (k1 & k2 & Hk & Hk1).
      { rewrite Heq, Hls, List.filter_app. done. }
      exists k1, rest, k2. split; [done|]. intros l x Hl Hx Hf%Hfree'. apply (Hfirst l x); [|done|done].
      apply head_Some_elem_of in Hx as Hx'. case_decide; [by eapply Hin|].
      assert (Hl1 : l ∈ List.filter nonempty k1).
      { apply filter_nonempty. split; [done|]. by intros ->. }
      rewrite Hk1 in Hl1. by apply filter_nonempty in Hl1 as [? _].
    + apply IH. rewrite (filter_remove_heads h lists), (filter_remove_heads h ls). by rewrite Heq.
Qed.

Lemma is_merge_filter obj lists r : is_merge obj (List.filter nonempty lists) r → is_merge obj lists r.
Proof.
  intros [Hc Ho He Hl]. split.
  - apply (c3_merge_filter obj _ r Hc). clear. induction lists as [|[|x l] lists IH]; cbn; [done|done|by rewrite <- IH].
  - by apply common_order_filter.
  - intros x. rewrite He. split; intros (l & Hin & Hx).
    + exists l. by apply filter_nonempty in Hin as [? _].
    + exists l. split; [|done]. apply filter_nonempty. split; [done|]. by intros ->; apply not_elem_of_nil in Hx.
  - intros Hall. apply Hl. intros l [? _]%filter_nonempty. by apply Hall.
Qed.

Lemma common_order_remove lists r h :
  common_order lists r → common_order (remove_head h <$> lists) r.
Proof.
  intros [Hnd Hs]. split; [done|]. intros l (l' & -> & Hl')%list_elem_of_fmap.
  etrans; [apply remove_head_sublist|by apply Hs].
Qed.

(** ** The merge *)

Lemma is_merge_nil obj lists : (∀ l, l ∈ lists → l = []) → is_merge obj lists [].
Proof.
  intros Hall. split.
  - by apply c3_end.
  - split; [constructor|]. intros l ->%Hall. done.
  - intros x. split; [by intros ?%elem_of_nil|]. intros (l & ->%Hall & Hx). by apply elem_of_nil in Hx.
  - intros _ [|] ? [=].
Qed.

Lemma is_merge_cons obj lists h r :
  valid_head lists h → next_class obj lists h → is_merge obj (remove_head h <$> lists) r →
  (h = obj → (∀ l, l ∈ lists → comes_last obj l) → r = []) → is_merge obj lists (h :: r).
Proof.
  intros [(l0 & Hl0 & Hh0) Ht] Hnext [Hc [Hnd Hs] He Hl] Hobj.
  assert (Hnew : ∀ l, l ∈ lists → remove_head h l ∈ remove_head h <$> lists) by (intros; by apply list_elem_of_fmap_2).
  assert (Hout : h ∉ r).
  { rewrite He. intros (l & (l' & -> & Hl')%list_elem_of_fmap & Hin). by apply (remove_head_absent lists h Ht) in Hin. }
  split.
  - by apply c3_next.
  - split; [by constructor|]. intros l Hin. specialize (Hs _ (Hnew l Hin)).
    destruct (remove_head_cases h l) as [[_ ->]|[_ Heq]]; [by apply sublist_skip|]. rewrite Heq in Hs. by apply sublist_cons.
  - intros x. rewrite elem_of_cons, He. split.
    + intros [->|(l & (l' & -> & Hl')%list_elem_of_fmap & Hin)].
      * exists l0. split; [done|]. by apply head_Some_elem_of.
      * exists l'. split; [done|]. by apply (sublist_elem _ _ _ (remove_head_sublist h l')).
    + intros (l & Hin & Hx). destruct (remove_head_cases h l) as [[_ Heq]|[_ Heq]].
      * rewrite Heq in Hx. apply elem_of_cons in Hx as [->|Hx]; [by left|right]. exists (remove_head h l). by split; [apply Hnew|].
      * right. exists (remove_head h l). rewrite Heq at 2. by split; [apply Hnew|].
  - intros Hall. apply comes_last_cons. split; [intros Heq; by apply Hobj|]. apply Hl.
    intros l (l' & -> & Hl')%list_elem_of_fmap. destruct l' as [|x l']; [by apply Hall|]. cbn.
    case_bool_decide; [|by apply Hall]. by apply (comes_last_tail _ (x :: l')), Hall.
Qed.

(** When [object] is all that is left to choose, nothing is left after it. *)
Lemma object_ends_merge obj lists r :
  valid_head lists obj → (∀ l h, l ∈ lists → head l = Some h → h = obj ∨ in_tails lists h = true) →
  is_merge obj (remove_head obj <$> lists) r → (∀ l, l ∈ lists → comes_last obj l) → r = [].
Proof.
  intros Hv Hheads [_ Ho He _] Hlast. destruct r as [|x r]; [done|]. exfalso.
  assert (Hgone : ∀ l, l ∈ lists → head l = Some obj → remove_head obj l = []).
  { intros l Hl Hh. destruct (remove_head_cases obj l) as [[_ Heq]|[? _]]; [|done]. by apply (Hlast l Hl []). }
  destruct (first_valid _ _ Ho) as (h & (l & (l' & -> & Hl')%list_elem_of_fmap & Hh) & Ht).
  { destruct (proj1 (He x)) as (l & Hl & Hx); [by apply elem_of_cons; left|]. exists l. split; [done|]. by intros ->; apply elem_of_nil in Hx. }
  assert (Hkept : head l' ≠ Some obj) by (intros Hn; by rewrite (Hgone l' Hl' Hn) in Hh).
  destruct (remove_head_cases obj l') as [[? _]|[_ Heq]]; [done|]. rewrite Heq in Hh.
  destruct (Hheads l' h Hl' Hh) as [->|(k & Hk & Hin)%in_tails_true]; [done|].
  apply not_true_iff_false in Ht. apply Ht, in_tails_true.
  exists (remove_head obj k). split; [by apply list_elem_of_fmap_2|].
  destruct (remove_head_cases obj k) as [[Hko Hkeq]|[_ ->]]; [|done].
  rewrite Hkeq, (Hgone k Hk Hko) in Hin. by apply elem_of_nil in Hin.
Qed.

(** The merge gives a common order when there is one, and falls back on
    [no_head] when there is none. *)
Lemma merge_loop_cases obj fuel lists :
  (length (mjoin lists) < fuel)%nat →
  (∃ r, is_merge obj lists r ∧ ∀ no_head result, merge_loop no_head obj fuel lists result = Return (result ++ r)) ∨
  (¬ mergeable lists ∧ ∀ no_head e result, (∀ ls, no_head ls = Raise e) →
    merge_loop no_head obj fuel lists result = Raise e).
Proof.
  revert lists. induction fuel as [|fuel IH]; intros lists Hfuel; [lia|]. cbn [merge_loop].
  rewrite <- mjoin_filter_nonempty in Hfuel. pose proof (is_merge_filter obj lists) as Hback.
  assert (Hmb : mergeable lists → mergeable (List.filter nonempty lists)) by (intros [r ?]; exists r; by apply common_order_filter).
  assert (Hne : ∀ l, l ∈ List.filter nonempty lists → l ≠ []) by (intros l [_ ?]%filter_nonempty; done).
  generalize dependent (List.filter nonempty lists). intros ls Hfuel Hback Hmb Hne.
  destruct ls as [|l0 ls0] eqn:Hls.
  { left. exists []. split; [apply Hback, is_merge_nil; by intros l ?%elem_of_nil|]. intros. by rewrite app_nil_r. }
  assert (Hsome : ∃ l, l ∈ ls ∧ l ≠ []).
  { exists l0. rewrite Hls. split; [by apply elem_of_cons; left|]. apply Hne, elem_of_cons. by left. }
  rewrite <- Hls in *. clear Hls.
  destruct (pick_head_spec obj ls ls None) as (o & Ho & Hv & Hnone & Hobj); [by split; [|apply Hne]|done|].
  destruct o as [h|].
  - specialize (Hv h eq_refl). destruct Hv as [(l & Hl & Hh) Ht] eqn:Hveq. clear Hveq.
    pose proof (remove_heads_shorter ls h l Hl Hh) as Hlt.
    destruct (IH (remove_head h <$> ls)) as [(r & Hr & Hrun)|[Hn Hrun]]; [lia|left|right].
    + exists (h :: r). split.
      * apply Hback, is_merge_cons; [by split; [exists l|]|by apply pick_head_next|done|]. intros -> Hlast.
        apply (object_ends_merge obj ls r); [by split; [exists l|]| |done|done]. by apply Hobj.
      * intros. rewrite Ho. cbn. by rewrite Hrun, <- app_assoc.
    + split; [|intros nh e result Hnh; rewrite Ho; cbn; by apply Hrun].
      intros [r Hr]%Hmb. apply Hn. exists r. by apply common_order_remove.
  - right. destruct (Hnone eq_refl) as [_ Hall]. split.
    + intros [r Hr]%Hmb. destruct (first_valid ls r Hr Hsome) as (h & (l & Hl & Hh) & Ht).
      by rewrite (Hall l h Hl Hh) in Ht.
    + intros nh e result Hnh. rewrite Ho. cbn. by rewrite Hnh.
Qed.

(** A fall-back that chooses a head makes the merge return. *)
Lemma merge_loop_total obj no_head fuel lists result :
  (length (mjoin lists) < fuel)%nat →
  (∀ l ls, l ≠ [] → ∃ h, no_head (l :: ls) = Return h ∧ head l = Some h) →
  ∃ r, merge_loop no_head obj fuel lists result = Return r.
Proof.
  intros Hfuel Hnh. revert lists result Hfuel. induction fuel as [|fuel IH]; intros lists result Hfuel; [lia|]. cbn [merge_loop].
  rewrite <- mjoin_filter_nonempty in Hfuel.
  assert (Hne : ∀ l, l ∈ List.filter nonempty lists → l ≠ []) by (intros l [_ ?]%filter_nonempty; done).
  generalize dependent (List.filter nonempty lists). intros ls Hfuel Hne.
  destruct ls as [|l0 ls0] eqn:Hls; [by eexists|]. rewrite <- Hls in *.
  destruct (pick_head_spec obj ls ls None) as (o & -> & Hv & _); [by split; [|apply Hne]|done|].
  assert (Hchosen : ∃ h, match o with Some c => Return c | None => no_head ls end = Return h ∧ ∃ l, l ∈ ls ∧ head l = Some h).
  { destruct o as [h|]; [exists h; split; [done|]; by apply Hv|]. subst ls.
    destruct (Hnh l0 ls0) as (h & ? & ?); [by apply Hne, elem_of_cons; left|]. exists h. split; [done|]. exists l0.
    split; [by apply elem_of_cons; left|done]. }
  destruct Hchosen as (h & Hc & l & Hl & Hh). cbn [mbind outcome_bind]. rewrite Hc. apply IH. pose proof (remove_heads_shorter ls h l Hl Hh). lia.
Qed.

(** * The order of the ancestors *)


(** ** Fallible lists *)

Lemma mapM_Forall2 {A B} (f : A → outcome B) l k : Forall2 (λ x y, f x = Return y) l k → mapM f l = Return k.
Proof. induction 1 as [|x y l k Hx _ IH]; [done|]. cbn. by rewrite Hx, IH. Qed.

Lemma mapM_raise {A B} (f : A → outcome B) l1 x l2 k e :
  Forall2 (λ x y, f x = Return y) l1 k → f x = Raise e → mapM f (l1 ++ x :: l2) = Raise e.
Proof. intros Hl Hx. induction Hl as [|y z l1 k Hy _ IH]; cbn; [by rewrite Hx|]. by rewrite Hy, IH. Qed.

Lemma mapM_total {A B} (f : A → outcome B) l :
  (∀ x, x ∈ l → ∃ y, f x = Return y) → ∃ k, mapM f l = Return k ∧ Forall2 (λ x y, f x = Return y) l k.
Proof.
  induction l as [|x l IH]; intros Hl; [by exists []|].
  destruct (Hl x) as [y Hy]; [by apply elem_of_cons; left|]. destruct IH as (k & Hk & Hf); [intros; by apply Hl, elem_of_cons; right|].
  exists (y :: k). cbn. rewrite Hy, Hk. by split; [|constructor].
Qed.

Lemma mapM_inv {A B} (f : A → outcome B) l k x : mapM f l = Return k → x ∈ l → ∃ y, f x = Return y.
Proof.
  revert k. induction l as [|y l IH]; intros k; cbn; [by intros _ ?%elem_of_nil|].
  destruct (f y) as [z| | |] eqn:Hy; [|done..]. cbn. destruct (mapM f l) as [k'| | |]; [|done..].
  intros _ [->|Hx]%elem_of_cons; [by exists z|by eapply IH].
Qed.

(** Either all elements satisfy [P], or a prefix does and the next one [Q]. *)
Lemma first_failure {A B} (P : A → B → Prop) (Q : A → Prop) l :
  (∀ x, x ∈ l → (∃ y, P x y) ∨ Q x) →
  (∃ k, Forall2 P l k) ∨ ∃ l1 x l2 k, l = l1 ++ x :: l2 ∧ Forall2 P l1 k ∧ Q x.
Proof.
  induction l as [|x l IH]; intros Hl; [left; by exists []|].
  destruct (Hl x) as [[y Hy]|Hx]; [by apply elem_of_cons; left| |right; by exists [], x, l, []].
  destruct IH as [[k Hk]|(l1 & z & l2 & k & -> & Hk & Hz)]; [intros; by apply Hl, elem_of_cons; right|left|right].
  - exists (y :: k). by constructor.
  - exists (x :: l1), z, l2, (y :: k). by repeat constructor.
Qed.

Lemma any_of_spec {A} (f : A → outcome bool) (P : A → Prop) l :
  (∀ x, x ∈ l → ∃ b, f x = Return b ∧ (b = true ↔ P x)) →
  ∃ b, any_of f l = Return b ∧ (b = true ↔ ∃ x, x ∈ l ∧ P x).
Proof.
  induction l as [|x l IH]; intros Hf.
  { exists false. split; [done|]. split; [done|]. by intros (x & ?%elem_of_nil & _). }
  destruct (Hf x) as (b & Hb & HP); [by apply elem_of_cons; left|]. cbn. rewrite Hb. cbn. destruct b.
  - exists true. split; [done|]. split; [|done]. intros _. exists x. split; [by apply elem_of_cons; left|by apply HP].
  - destruct IH as (b & -> & Hl); [intros; by apply Hf, elem_of_cons; right|]. exists b. split; [done|]. rewrite Hl.
    split; intros (y & Hy & Hp).
    + exists y. split; [by apply elem_of_cons; right|done].
    + apply elem_of_cons in Hy as [->|Hy]; [by apply HP in Hp|by exists y].
Qed.

Section table.
Context {V : Type}.
Implicit Types (t : ClassTable V) (c : ClassRef) (cls : PyClass V).

(** ** Well-formed tables *)

(** Bases come before the classes derived from them, in some order. *)
Definition ranked t (rank : ClassRef → nat) : Prop :=
  ∀ c cls, classes t !! c = Some cls →
    (rank c < length (classes t))%nat ∧
    ∀ b, b ∈ all_bases cls → is_Some (classes t !! b) ∧ (rank b < rank c)%nat.

Record wf_classes t : Prop := {
  wf_ranked : ∃ rank, ranked t rank;
  wf_object : ∃ ocls, classes t !! object_class t = Some ocls ∧ all_bases ocls = [] ∧ canonical_tag ocls = Some TagObject;
}.

(** The reflexive and transitive closure of being a base. *)
Inductive ancestor t : ClassRef → ClassRef → Prop :=
  | ancestor_refl c : ancestor t c c
  | ancestor_base c cls b a : classes t !! c = Some cls → b ∈ all_bases cls → ancestor t b a → ancestor t c a.

Lemma ancestor_cases t c a cls :
  classes t !! c = Some cls → ancestor t c a ↔ a = c ∨ ∃ b, b ∈ all_bases cls ∧ ancestor t b a.
Proof.
  intros Hc. split.
  - inversion 1 as [|? ? b ? Hc' Hb Ha]; subst; [by left|right]. rewrite Hc in Hc'. injection Hc' as <-. by exists b.
  - intros [->|(b & Hb & Ha)]; [constructor|by eapply ancestor_base].
Qed.

Lemma ancestor_rank t rank c a : ranked t rank → ancestor t c a → (rank a ≤ rank c)%nat.
Proof.
  intros Hr. induction 1 as [|c cls b a Hc Hb _ IH]; [done|]. destruct (Hr c cls Hc) as [_ Hall].
  destruct (Hall b Hb). lia.
Qed.

Lemma ancestor_lookup t rank c a : ranked t rank → is_Some (classes t !! c) → ancestor t c a → is_Some (classes t !! a).
Proof. intros Hr Hc Ha. induction Ha as [|c cls b a Hc' Hb _ IH]; [done|]. destruct (Hr c cls Hc') as [_ Hall]. by apply IH, Hall. Qed.

Lemma ancestor_trans t a b c : ancestor t a b → ancestor t b c → ancestor t a c.
Proof. induction 1 as [|x cls y a Hx Hy _ IH]; [done|]. intros Hc. eapply ancestor_base; [done..|by apply IH]. Qed.

Lemma borrow_Some t c cls : classes t !! c = Some cls → borrow t c = Return cls.
Proof. unfold borrow. by intros ->. Qed.

(** [object] in the last place of the bases wherever it is one. *)
Definition object_last_base t : Prop :=
  ∀ c cls, classes t !! c = Some cls → comes_last (object_class t) (all_bases cls).

(** ** Linearizations *)

(** What [c3_linearize] promises of its result. *)
Record linear t c (l : list ClassRef) : Prop := {
  linear_first : head l = Some c;
  linear_nodup : NoDup l;
  linear_members : ∀ a, a ∈ l ↔ ancestor t c a;
  linear_order : ∀ a cls, a ∈ l → classes t !! a = Some cls → (a :: all_bases cls) `sublist_of` l;
  linear_last : object_last_base t → comes_last (object_class t) l;
}.

(** [fuel] is enough. *)
Definition linearizes t rank c l : Prop :=
  linear t c l ∧ ∀ fuel, (rank c < fuel)%nat → c3_linearize fuel t c = Return l ∧ linearize fuel t c = Return l.

(** The failure at [a]: its bases have linearizations, but no order has them all
    and the bases as parts. *)
Definition no_order t rank a (e : PyError) : Prop :=
  ∃ cls ls base_names, classes t !! a = Some cls ∧ Forall2 (linearizes t rank) (all_bases cls) ls ∧
    ¬ mergeable (ls ++ [all_bases cls]) ∧
    Forall2 (λ b n, ∃ bcls, classes t !! b = Some bcls ∧ name bcls = n)
      (List.filter (λ b, negb (bool_decide (b = object_class t))) (all_bases cls)) base_names ∧
    e = mro_error base_names.

Lemma inconsistent_raises t rank c cls A :
  ranked t rank → classes t !! c = Some cls →
  ∃ base_names, Forall2 (λ b n, ∃ bcls, classes t !! b = Some bcls ∧ name bcls = n)
      (List.filter (λ b, negb (bool_decide (b = object_class t))) (all_bases cls)) base_names ∧
    @inconsistent V A t (all_bases cls) = Raise (mro_error base_names).
Proof.
  intros Hr Hc. unfold inconsistent.
  destruct (mapM_total (λ b, name <$> borrow t b) (List.filter (λ b, negb (bool_decide (b = object_class t))) (all_bases cls)))
    as (ns & -> & Hf).
  { intros b Hb. rewrite list_elem_of_In, filter_In, <- list_elem_of_In in Hb. destruct Hb as [Hb _].
    destruct (Hr c cls Hc) as [_ Hall]. destruct (Hall b Hb) as [[bcls Hbc] _]. exists (name bcls). by rewrite (borrow_Some _ _ _ Hbc). }
  exists ns. split; [|done]. eapply Forall2_impl; [exact Hf|]. intros b n. unfold borrow.
  destruct (classes t !! b) as [bcls|]; [|done]. intros [= <-]. by exists bcls.
Qed.

(** A merge of linearizations of the bases extends to the class. *)
Lemma linear_cons t rank c cls ls r :
  ranked t rank → classes t !! c = Some cls → Forall2 (linear t) (all_bases cls) ls →
  is_merge (object_class t) (ls ++ [all_bases cls]) r → c ≠ object_class t → linear t c (c :: r).
Proof.
  intros Hr Hc Hls [_ [Hnd Hs] He Hlast] Hobj. destruct (Hr c cls Hc) as [_ Hb].
  assert (Hin : ∀ l, l ∈ ls → ∃ b, b ∈ all_bases cls ∧ linear t b l).
  { intros l [i Hi]%list_elem_of_lookup. destruct (Forall2_lookup_r _ _ _ _ _ Hls Hi) as (b & Hbi & Hl). exists b.
    split; [|done]. by eapply list_elem_of_lookup_2. }
  assert (Hof : ∀ b, b ∈ all_bases cls → ∃ l, l ∈ ls ∧ linear t b l).
  { intros b [i Hi]%list_elem_of_lookup. destruct (Forall2_lookup_l _ _ _ _ _ Hls Hi) as (l & Hli & Hl). exists l.
    split; [|done]. by eapply list_elem_of_lookup_2. }
  assert (Hmem : ∀ a, a ∈ r ↔ ∃ b, b ∈ all_bases cls ∧ ancestor t b a).
  { intros a. rewrite He. split.
    - intros (l & [Hl|Hl]%elem_of_app & Ha).
      + destruct (Hin l Hl) as (b & Hbb & Hlin). exists b. split; [done|]. by apply (linear_members _ _ _ Hlin).
      + apply list_elem_of_singleton in Hl as ->. exists a. split; [done|constructor].
    - intros (b & Hbb & Ha). destruct (Hof b Hbb) as (l & Hl & Hlin). exists l. split; [by apply elem_of_app; left|].
      by apply (linear_members _ _ _ Hlin). }
  assert (Hnot : c ∉ r).
  { intros (b & Hbb & Ha)%Hmem. apply (ancestor_rank _ _ _ _ Hr) in Ha. destruct (Hb b Hbb). lia. }
  assert (Hbases : all_bases cls `sublist_of` r) by (apply Hs, elem_of_app; right; by apply list_elem_of_singleton).
  split.
  - done.
  - by constructor.
  - intros a. rewrite elem_of_cons, Hmem. symmetry. by apply ancestor_cases.
  - intros a acls [->|Ha]%elem_of_cons Hacls; [simplify_eq; by apply sublist_skip|]. apply sublist_cons.
    apply Hmem in Ha as (b & Hbb & Ha). destruct (Hof b Hbb) as (l & Hl & Hlin). etrans.
    + apply (linear_order _ _ _ Hlin a); [by apply (linear_members _ _ _ Hlin)|done].
    + apply Hs, elem_of_app. by left.
  - intros Ho. apply comes_last_cons. split; [done|]. apply Hlast. intros l [Hl|Hl]%elem_of_app.
    + destruct (Hin l Hl) as (b & _ & Hlin). by apply (linear_last _ _ _ Hlin).
    + apply list_elem_of_singleton in Hl as ->. by eapply Ho.
Qed.

Lemma linear_no_bases t rank c cls : ranked t rank → classes t !! c = Some cls → all_bases cls = [] → linear t c [c].
Proof.
  intros Hr Hc Hb. split.
  - done.
  - apply NoDup_singleton.
  - intros a. rewrite list_elem_of_singleton, (ancestor_cases _ _ _ _ Hc), Hb. split; [by left|].
    by intros [?|(b & ?%elem_of_nil & _)].
  - intros a acls ->%list_elem_of_singleton Ha. simplify_eq. by rewrite Hb.
  - intros _. apply comes_last_cons. by split; [|intros [|] ? [=]].
Qed.

Lemma object_no_bases t c cls b : wf_classes t → classes t !! c = Some cls → b ∈ all_bases cls → c ≠ object_class t.
Proof. intros [_ (ocls & Ho & Hb & _)] Hc Hin ->. simplify_eq. rewrite Hb in Hin. by apply elem_of_nil in Hin. Qed.

(** [c3_linearize], from the linearizations of the bases. *)
Lemma linearize_class t rank c cls ls :
  wf_classes t → ranked t rank → classes t !! c = Some cls → Forall2 (linearizes t rank) (all_bases cls) ls →
  (∃ l, linearizes t rank c l) ∨
  (∃ e, no_order t rank c e ∧ ∀ fuel, (rank c < fuel)%nat → c3_linearize fuel t c = Raise e).
Proof.
  intros Hwf Hr Hc Hls.
  assert (Hmap : ∀ fuel, (rank c < S fuel)%nat →
    mapM (c3_linearize fuel t) (all_bases cls) = Return ls ∧ mapM (linearize fuel t) (all_bases cls) = Return ls).
  { intros fuel Hfuel. destruct (Hr c cls Hc) as [_ Hb].
    assert (Hall : Forall2 (λ b l, c3_linearize fuel t b = Return l ∧ linearize fuel t b = Return l) (all_bases cls) ls).
    { apply Forall2_same_length_lookup_2; [by eapply Forall2_length|]. intros i b l Hbi Hli.
      destruct (Forall2_lookup_lr _ _ _ _ _ _ Hls Hbi Hli) as [_ Hrun]. apply Hrun.
      destruct (Hb b) as [_ Hlt]; [by eapply list_elem_of_lookup_2|]. lia. }
    split; apply mapM_Forall2; (eapply Forall2_impl; [exact Hall|]); by intros ? ? []. }
  destruct (all_bases cls) as [|b0 bs] eqn:Hbases.
  { left. exists [c]. split; [by eapply linear_no_bases|]. intros [|fuel] Hfuel; [lia|]. cbn. by rewrite (borrow_Some _ _ _ Hc); cbn; rewrite Hbases. }
  destruct (merge_loop_cases (object_class t) (merge_fuel (ls ++ [b0 :: bs])) (ls ++ [b0 :: bs])) as [(r & Hr' & Hrun)|[Hn Hrun]];
    [unfold merge_fuel; lia|left|right].
  - exists (c :: r). split.
    + eapply linear_cons; [done..| |by rewrite Hbases|].
      * rewrite Hbases. eapply Forall2_impl; [exact Hls|]. by intros ? ? [].
      * eapply object_no_bases; [done..|]. rewrite Hbases. apply elem_of_cons. by left.
    + intros [|fuel] Hfuel; [lia|]. destruct (Hmap fuel Hfuel) as [H3 H4]. cbn [c3_linearize linearize].
      rewrite (borrow_Some _ _ _ Hc). cbn [mbind outcome_bind]. rewrite Hbases, H3, H4. cbn [mbind outcome_bind].
      by rewrite !Hrun.
  - destruct (inconsistent_raises t rank c cls ClassRef Hr Hc) as (ns & Hns & Hraise). rewrite Hbases in Hns, Hraise.
    exists (mro_error ns). split; [exists cls, ls, ns; by rewrite Hbases|].
    intros [|fuel] Hfuel; [lia|]. destruct (Hmap fuel Hfuel) as [H3 _]. cbn [c3_linearize].
    rewrite (borrow_Some _ _ _ Hc). cbn [mbind outcome_bind]. rewrite Hbases, H3. cbn [mbind outcome_bind]. by apply Hrun.
Qed.

Lemma c3_cases t rank c :
  wf_classes t → ranked t rank → is_Some (classes t !! c) →
  (∃ l, linearizes t rank c l) ∨
  (∃ e a, ancestor t c a ∧ no_order t rank a e ∧ ∀ fuel, (rank c < fuel)%nat → c3_linearize fuel t c = Raise e).
Proof.
  intros Hwf Hr. remember (rank c) as n eqn:Hn. revert c Hn. induction (lt_wf n) as [n _ IH]. intros c -> [cls Hc].
  destruct (Hr c cls Hc) as [_ Hb].
  destruct (first_failure (linearizes t rank)
    (λ b, ∃ e a, ancestor t b a ∧ no_order t rank a e ∧ ∀ fuel, (rank b < fuel)%nat → c3_linearize fuel t b = Raise e)
    (all_bases cls)) as [[ls Hls]|(l1 & b & l2 & k & Heq & Hk & e & a & Ha & Hno & Hrun)].
  - intros b Hin. destruct (Hb b Hin) as [Hsome Hlt]. by apply (IH (rank b)).
  - destruct (linearize_class t rank c cls ls) as [?|(e & ? & ?)]; [done..|by left|right].
    exists e, c. split; [constructor|done].
  - right. exists e, a. assert (Hin : b ∈ all_bases cls) by (rewrite Heq; apply elem_of_app; right; apply elem_of_cons; by left).
    split; [by eapply ancestor_base|]. split; [done|]. intros [|fuel] Hfuel; [lia|]. cbn [c3_linearize].
    rewrite (borrow_Some _ _ _ Hc). cbn [mbind outcome_bind]. rewrite Heq.
    assert (Hm : mapM (c3_linearize fuel t) (l1 ++ b :: l2) = Raise e).
    { apply (mapM_raise _ _ _ _ k); [|apply Hrun; destruct (Hb b Hin); lia].
      apply Forall2_same_length_lookup_2; [by eapply Forall2_length|]. intros i b' l Hbi Hli.
      destruct (Forall2_lookup_lr _ _ _ _ _ _ Hk Hbi Hli) as [_ Hrun']. apply Hrun'.
      destruct (Hb b') as [_ Hlt]; [|lia]. rewrite Heq. apply elem_of_app. left. by eapply list_elem_of_lookup_2. }
    destruct (l1 ++ b :: l2) eqn:Hl; [by destruct l1|]. by rewrite Hm.
Qed.

(** The variant that cannot fail returns in any case. *)
Lemma linearize_total t rank c fuel :
  ranked t rank → is_Some (classes t !! c) → (rank c < fuel)%nat → ∃ l, linearize fuel t c = Return l.
Proof.
  intros Hr. revert c. induction fuel as [|fuel IH]; intros c [cls Hc] Hfuel; [lia|]. cbn [linearize].
  rewrite (borrow_Some _ _ _ Hc). cbn [mbind outcome_bind]. destruct (Hr c cls Hc) as [_ Hb].
  destruct (all_bases cls) as [|b0 bs] eqn:Hbases; [by eexists|].
  destruct (mapM_total (linearize fuel t) (b0 :: bs)) as (k & -> & _).
  { intros b Hin. destruct (Hb b Hin). apply IH; [done|lia]. }
  apply merge_loop_total; [unfold merge_fuel; lia|]. intros [|h l] ls ?; [done|]. by exists h.
Qed.
End table.
