(* ===== verification/ClassWalkSpec.v ===== *)
(** Attribute look-up, the tests that walk up the bases and the creation of
    classes, against the linearization.

    Creating a class keeps the table well formed, with an order for every
    class. *)

From stdpp Require Import gmap strings.
From S2P Require Import Outcome Prelude Classes ClassSpec.

Section table.
Context {V : Type}.
Implicit Types (t : ClassTable V) (c : ClassRef) (cls : PyClass V).

(** ** From a class to its bases *)

Lemma linearizes_base t rank c cls l b :
  wf_classes t → ranked t rank → classes t !! c = Some cls → linearizes t rank c l → b ∈ all_bases cls →
  ∃ lb, linearizes t rank b lb.
Proof.
  intros Hwf Hr Hc [_ Hrun] Hb. destruct (Hr c cls Hc) as [_ Hall]. destruct (Hall b Hb) as [Hsome Hlt].
  destruct (c3_cases t rank b Hwf Hr Hsome) as [?|(e & a & _ & _ & Hraise)]; [done|]. exfalso.
  destruct (Hrun (S (rank c))) as [Hret _]; [lia|]. cbn [c3_linearize] in Hret. rewrite (borrow_Some _ _ _ Hc) in Hret.
  cbn [mbind outcome_bind] in Hret. destruct (all_bases cls) as [|b0 bs] eqn:Hbases; [by apply elem_of_nil in Hb|].
  destruct (mapM (c3_linearize (rank c) t) (b0 :: bs)) eqn:Hm; [|done..].
  destruct (mapM_inv _ _ _ _ Hm Hb) as [y Hy]. rewrite (Hraise (rank c)) in Hy by done. done.
Qed.

Lemma linearizes_bases t rank c cls l :
  wf_classes t → ranked t rank → classes t !! c = Some cls → linearizes t rank c l →
  ∃ ls, Forall2 (linearizes t rank) (all_bases cls) ls.
Proof.
  intros Hwf Hr Hc Hl. destruct (first_failure (linearizes t rank) (λ _, False) (all_bases cls)) as [?|(? & ? & ? & ? & ? & ? & ?)]; [|done..].
  intros b Hb. left. by eapply linearizes_base.
Qed.

(** The linearization of a class merges those of its bases. *)
Lemma linearizes_merge t rank c cls l ls :
  ranked t rank → classes t !! c = Some cls → linearizes t rank c l → Forall2 (linearizes t rank) (all_bases cls) ls →
  all_bases cls ≠ [] → ∃ r, l = c :: r ∧ is_merge (object_class t) (ls ++ [all_bases cls]) r.
Proof.
  intros Hr Hc [_ Hrun] Hls Hne. destruct (Hr c cls Hc) as [_ Hb].
  destruct (Hrun (S (rank c))) as [Hret _]; [lia|]. cbn [c3_linearize] in Hret. rewrite (borrow_Some _ _ _ Hc) in Hret.
  cbn [mbind outcome_bind] in Hret.
  assert (Hm : mapM (c3_linearize (rank c) t) (all_bases cls) = Return ls).
  { apply mapM_Forall2, Forall2_same_length_lookup_2; [by eapply Forall2_length|]. intros i b lb Hbi Hli.
    destruct (Forall2_lookup_lr _ _ _ _ _ _ Hls Hbi Hli) as [_ Hrunb]. apply Hrunb, Hb. by eapply list_elem_of_lookup_2. }
  destruct (all_bases cls) as [|b0 bs] eqn:Hbases; [done|]. rewrite Hm in Hret. cbn [mbind outcome_bind] in Hret.
  destruct (merge_loop_cases (object_class t) (merge_fuel (ls ++ [b0 :: bs])) (ls ++ [b0 :: bs])) as [(r & Hr' & Hmr)|[_ Hmr]];
    [unfold merge_fuel; lia| |].
  - rewrite Hmr in Hret. injection Hret as <-. by exists r.
  - destruct (inconsistent_raises t rank c cls ClassRef Hr Hc) as (ns & _ & Hraise). rewrite Hbases in Hraise.
    rewrite (Hmr _ (mro_error ns)) in Hret by done. done.
Qed.

Lemma linearizes_merges t rank c cls l ls :
  ranked t rank → classes t !! c = Some cls → linearizes t rank c l → Forall2 (linearizes t rank) (all_bases cls) ls →
  ∃ r, l = c :: r ∧ is_merge (object_class t) (ls ++ [all_bases cls]) r.
Proof.
  intros Hr Hc Hl Hls. destruct (decide (all_bases cls = [])) as [Hb|Hb]; [|by eapply linearizes_merge].
  exists []. destruct Hl as [_ Hrun]. destruct (Hrun (S (rank c))) as [Hret _]; [lia|]. cbn [c3_linearize] in Hret.
  rewrite (borrow_Some _ _ _ Hc) in Hret. cbn [mbind outcome_bind] in Hret. rewrite Hb in Hret, Hls |- *. injection Hret as <-.
  apply Forall2_nil_inv_l in Hls as ->. split; [done|]. apply is_merge_nil. by intros l ->%list_elem_of_singleton.
Qed.

(** For a chain of single bases it is the class before that of its base. *)
Lemma linearizes_chain t rank c cls l b :
  wf_classes t → ranked t rank → classes t !! c = Some cls → linearizes t rank c l → all_bases cls = [b] →
  ∃ lb, linearizes t rank b lb ∧ l = c :: lb.
Proof.
  intros Hwf Hr Hc Hl Hb. destruct (linearizes_base t rank c cls l b) as [lb Hlb]; [done..|by rewrite Hb; apply list_elem_of_singleton|].
  exists lb. split; [done|].
  destruct (linearizes_merge t rank c cls l [lb]) as (r & -> & [_ [Hnd Hs] He _]); [done..|by rewrite Hb; constructor|by rewrite Hb|].
  f_equal. destruct Hlb as [Hlin _].
  assert (Hsub : lb `sublist_of` r) by (apply Hs; by apply elem_of_cons; left).
  symmetry. apply sublist_eq_length; [done|]. apply Permutation_length, NoDup_Permutation; [by eapply linear_nodup|done|].
  intros x. rewrite He, Hb. split.
  - intros Hx. exists lb. split; [by apply elem_of_cons; left|done].
  - intros (k & [->|Hk]%elem_of_cons & Hx); [done|]. apply list_elem_of_singleton in Hk as ->.
    apply list_elem_of_singleton in Hx as ->.
    apply head_Some_elem_of. by eapply linear_first.
Qed.

(** ** The method resolution order *)

Record is_mro t c (mro : list ClassRef) : Prop := {
  mro_first : head mro = Some c;
  mro_nodup : NoDup mro;
  mro_members : ∀ a, a ∈ mro ↔ ancestor t c a ∨ a = object_class t;
  mro_order : ∀ a cls, a ∈ mro → classes t !! a = Some cls → (a :: all_bases cls) `sublist_of` mro;
  mro_last : object_last_base t → last mro = Some (object_class t);
}.

Lemma comes_last_last x l : x ∈ l → comes_last x l → last l = Some x.
Proof.
  intros (l1 & l2 & ->)%list_elem_of_split Hl. rewrite (Hl l1 l2 eq_refl). apply last_snoc.
Qed.

Lemma append_object_mro t c l : wf_classes t → linear t c l → is_mro t c (append_object t l).
Proof.
  intros [_ (ocls & Ho & Hob & _)] [Hf Hnd Hm Hord Hl]. unfold append_object. case_bool_decide as Hin.
  - split; [done..| |done|].
    + intros a. rewrite Hm. split; [by left|]. intros [?| ->]; [done|by apply Hm].
    + intros Hb. by apply comes_last_last; [|apply Hl].
  - split.
    + by destruct l.
    + apply NoDup_app. split; [done|]. split; [|apply NoDup_singleton]. by intros x Hx ->%list_elem_of_singleton.
    + intros a. by rewrite elem_of_app, Hm, list_elem_of_singleton.
    + intros a cls [Ha| ->%list_elem_of_singleton]%elem_of_app Hcls.
      * by apply sublist_inserts_r, Hord.
      * simplify_eq. rewrite Hob. by apply sublist_inserts_l.
    + intros _. apply last_snoc.
Qed.

Lemma class_fuel_enough t rank c : ranked t rank → is_Some (classes t !! c) → (S (rank c) < class_fuel t)%nat.
Proof. intros Hr [cls Hc]. destruct (Hr c cls Hc). unfold class_fuel. lia. Qed.

Lemma mro_items_linearizes t rank c mro :
  wf_classes t → ranked t rank → is_Some (classes t !! c) → class_mro_items t c = Return mro →
  ∃ l, linearizes t rank c l ∧ mro = append_object t l.
Proof.
  intros Hwf Hr Hc. unfold class_mro_items. pose proof (class_fuel_enough t rank c Hr Hc).
  destruct (c3_cases t rank c Hwf Hr Hc) as [(l & Hlin & Hrun)|(e & a & _ & _ & Hraise)].
  - destruct (Hrun (class_fuel t)) as [-> _]; [lia|]. cbn. intros [= <-]. by exists l.
  - rewrite Hraise by lia. done.
Qed.

(** ** Attributes *)

Definition own_attr t c attr : option V := cls ← classes t !! c; attrs cls !! attr.

(** The first class of [mro] with the attribute. *)
Definition first_definer t (mro : list ClassRef) attr (o : option (ClassRef * V)) : Prop :=
  match o with
  | Some (c, v) => ∃ l1 l2, mro = l1 ++ c :: l2 ∧ own_attr t c attr = Some v ∧ ∀ a, a ∈ l1 → own_attr t a attr = None
  | None => ∀ a, a ∈ mro → own_attr t a attr = None
  end.

Lemma first_owner_spec t mro attr :
  (∀ a, a ∈ mro → is_Some (classes t !! a)) → ∃ o, first_owner t mro attr = Return o ∧ first_definer t mro attr o.
Proof.
  induction mro as [|c mro IH]; intros Hs; [exists None; split; [done|]; by intros a ?%elem_of_nil|]. cbn.
  destruct (Hs c) as [cls Hc]; [by apply elem_of_cons; left|]. rewrite (borrow_Some _ _ _ Hc). cbn.
  assert (Hown : own_attr t c attr = attrs cls !! attr) by (unfold own_attr; by rewrite Hc).
  destruct (attrs cls !! attr) as [v|] eqn:Hv.
  { exists (Some (c, v)). split; [done|]. exists [], mro. split; [done|]. split; [done|]. by intros a ?%elem_of_nil. }
  destruct IH as ([[a v]|] & -> & Ho); [intros; by apply Hs, elem_of_cons; right|..].
  - exists (Some (a, v)). split; [done|]. destruct Ho as (l1 & l2 & -> & Ha & Hl). exists (c :: l1), l2. split; [done|].
    split; [done|]. by intros b [->|?]%elem_of_cons; [|apply Hl].
  - exists None. split; [done|]. by intros b [->|?]%elem_of_cons; [|apply Ho].
Qed.

(** Built-in classes name their base. *)
Definition primitives_have_base t : Prop :=
  ∀ c cls, c ∈ primitive_dispatch t → classes t !! c = Some cls → is_Some (base cls).

Lemma all_bases_single cls b : extra_bases cls = [] → base cls = Some b → all_bases cls = [b].
Proof. unfold all_bases. by intros -> ->. Qed.

Lemma all_bases_nil cls : extra_bases cls = [] → base cls = None → all_bases cls = [].
Proof. unfold all_bases. by intros -> ->. Qed.

Lemma c3_classes_linearizes t rank c l :
  ranked t rank → is_Some (classes t !! c) → linearizes t rank c l → c3_linearize_classes t c = Return (append_object t l).
Proof.
  intros Hr Hc [_ Hrun]. unfold c3_linearize_classes. pose proof (class_fuel_enough t rank c Hr Hc).
  destruct (Hrun (class_fuel t)) as [_ ->]; [lia|done].
Qed.

Lemma append_object_cons t c l : c ≠ object_class t → append_object t (c :: l) = c :: append_object t l.
Proof.
  intros Hc. unfold append_object. rewrite (bool_decide_ext _ (object_class t ∈ l)) by (rewrite elem_of_cons; naive_solver).
  by case_bool_decide.
Qed.

Lemma first_owner_miss t c cls l attr :
  classes t !! c = Some cls → attrs cls !! attr = None → first_owner t (c :: l) attr = first_owner t l attr.
Proof. intros Hc Ha. cbn. rewrite (borrow_Some _ _ _ Hc). cbn. by rewrite Ha. Qed.

Lemma first_owner_hit t c cls l attr v :
  classes t !! c = Some cls → attrs cls !! attr = Some v → first_owner t (c :: l) attr = Return (Some (c, v)).
Proof. intros Hc Ha. cbn. rewrite (borrow_Some _ _ _ Hc). cbn. by rewrite Ha. Qed.

Lemma lookup_object t attr fuel :
  wf_classes t → (0 < fuel)%nat →
  lookup_class_attr fuel t (object_class t) attr =
    (o ← first_owner t [object_class t] attr; Return (option_map snd o)) ∧
  lookup_class_attr_owner fuel t (object_class t) attr =
    (o ← first_owner t [object_class t] attr; Return (option_map fst o)).
Proof.
  intros [_ (ocls & Ho & Hb & _)] Hfuel. destruct fuel as [|fuel]; [lia|]. cbn. rewrite !(borrow_Some _ _ _ Ho). cbn.
  assert (He : extra_bases ocls = [] ∧ base ocls = None) by (unfold all_bases in Hb; destruct (base ocls), (extra_bases ocls); done).
  destruct He as [-> ->]. destruct (attrs ocls !! attr); [done|]. cbn. rewrite bool_decide_true by done. by rewrite andb_false_r.
Qed.

(** Both look-ups give the first class of the order with the attribute. *)
Lemma lookup_linearizes t rank attr fuel c l :
  wf_classes t → primitives_have_base t → ranked t rank → is_Some (classes t !! c) → linearizes t rank c l →
  (S (rank c) < fuel)%nat →
  lookup_class_attr fuel t c attr = (o ← first_owner t (append_object t l) attr; Return (option_map snd o)) ∧
  lookup_class_attr_owner fuel t c attr = (o ← first_owner t (append_object t l) attr; Return (option_map fst o)).
Proof.
  intros Hwf Hp Hr. revert c l. induction fuel as [|fuel IH]; intros c l [cls Hc] Hl Hfuel; [lia|].
  assert (Hh : ∃ r, append_object t l = c :: r).
  { destruct Hl as [Hlin _]. pose proof (mro_first _ _ _ (append_object_mro t c l Hwf Hlin)) as Hf.
    destruct (append_object t l) as [|x r]; [done|]. injection Hf as ->. by exists r. }
  cbn [lookup_class_attr lookup_class_attr_owner]. rewrite (borrow_Some _ _ _ Hc). cbn [mbind outcome_bind].
  destruct (attrs cls !! attr) as [v|] eqn:Hv.
  { destruct Hh as [r ->]. by rewrite (first_owner_hit t c cls r attr v). }
  destruct (extra_bases cls) as [|e0 es] eqn:He; cbn [nonempty].
  2: { rewrite (c3_classes_linearizes t rank c l) by (done || by exists cls). done. }
  destruct (Hr c cls Hc) as [_ Hall]. destruct (base cls) as [b|] eqn:Hb.
  - destruct (linearizes_chain t rank c cls l b) as (lb & Hlb & ->); [done..|by apply all_bases_single|].
    assert (Hin : b ∈ all_bases cls) by (rewrite (all_bases_single cls b) by done; by apply list_elem_of_singleton).
    rewrite append_object_cons by (by eapply object_no_bases). rewrite (first_owner_miss t c cls) by done.
    destruct (Hall b Hin) as [Hsome Hlt]. destruct (IH b lb Hsome Hlb) as [-> ->]; [lia|].
    by destruct (first_owner t (append_object t lb) attr) as [[[]|]| | |].
  - assert (Hl1 : l = [c]).
    { destruct Hl as [_ Hrun]. destruct (Hrun (S (rank c))) as [Hret _]; [lia|]. cbn in Hret.
      rewrite (borrow_Some _ _ _ Hc) in Hret. cbn in Hret. rewrite (all_bases_nil cls He Hb) in Hret. by injection Hret. }
    subst l. cbn [mbind outcome_bind]. unfold is_primitive_class. rewrite (bool_decide_false (c ∈ _)); cycle 1.
    { intros Hin. destruct (Hp c cls Hin Hc) as [b Hb']. congruence. }
    unfold append_object. destruct (bool_decide_reflect (c = object_class t)) as [->|Hne]; cbn [negb andb].
    + rewrite bool_decide_true by (by apply list_elem_of_singleton). by rewrite (first_owner_miss t (object_class t) cls).
    + rewrite bool_decide_false by (intros ?%list_elem_of_singleton; congruence). cbn [app].
      rewrite (first_owner_miss t c cls) by done. apply lookup_object; [done|lia].
Qed.

(** [super()] starts after its class. *)
Lemma mro_search_start_app l1 c l2 : c ∉ l1 → drop (mro_search_start (l1 ++ c :: l2) c) (l1 ++ c :: l2) = l2.
Proof.
  intros Hc. unfold mro_search_start. rewrite list_find_app_r; [|by apply list_find_None, Forall_forall; intros x Hx ->].
  cbn. rewrite decide_True by done. cbn. by rewrite drop_app_ge, (Nat.sub_succ_l _ _ (le_n _)), Nat.sub_diag by lia.
Qed.

Lemma super_lookup_spec t c instance_class attr l1 l2 :
  class_mro_items t instance_class = Return (l1 ++ c :: l2) → c ∉ l1 → (∀ a, a ∈ l2 → is_Some (classes t !! a)) →
  ∃ o, super_lookup t c instance_class attr = Return o ∧ first_definer t l2 attr o.
Proof.
  intros Hm Hc Hs. unfold super_lookup. rewrite Hm. cbn [mbind outcome_bind]. rewrite mro_search_start_app by done.
  by apply first_owner_spec.
Qed.

(** ** Unhashable classes *)

Definition owns_hash t c : Prop := is_Some (own_attr t c "__hash__").

(** A built-in class without a hash comes before any class with one. *)
Definition hash_is_none t (mro : list ClassRef) : Prop :=
  ∃ l1 a l2 acls, mro = l1 ++ a :: l2 ∧ classes t !! a = Some acls ∧ is_unhashable_primitive acls = true ∧
    ∀ x, x ∈ l1 ++ [a] → ¬ owns_hash t x.

Lemma hash_is_none_cons t c cls l :
  classes t !! c = Some cls →
  hash_is_none t (c :: l) ↔ ¬ is_Some (attrs cls !! "__hash__") ∧ (is_unhashable_primitive cls = true ∨ hash_is_none t l).
Proof.
  intros Hc. assert (Hown : owns_hash t c ↔ is_Some (attrs cls !! "__hash__")) by (unfold owns_hash, own_attr; by rewrite Hc).
  rewrite <- Hown. split.
  - intros ([|x l1] & a & l2 & acls & Heq & Ha & Hu & Hn); injection Heq as -> ->.
    + split; [by apply Hn, list_elem_of_singleton|]. left. by simplify_eq.
    + split; [apply Hn, elem_of_cons; by left|]. right. exists l1, a, l2, acls. do 3 (split; [done|]).
      intros y Hy. apply Hn, elem_of_cons. by right.
  - intros [Hn [Hu|(l1 & a & l2 & acls & -> & Ha & Hu & Hn')]].
    + exists [], c, l, cls. do 3 (split; [done|]). by intros x ->%list_elem_of_singleton.
    + exists (c :: l1), a, l2, acls. do 3 (split; [done|]). by intros x [->|Hx]%elem_of_cons; [|apply Hn'].
Qed.

Lemma hash_is_none_nil t : ¬ hash_is_none t [].
Proof. by intros ([] & a & l2 & acls & [=] & _). Qed.

Lemma first_hash_is_none_spec t mro :
  (∀ a, a ∈ mro → is_Some (classes t !! a)) → ∃ b, first_hash_is_none t mro = Return b ∧ (b = true ↔ hash_is_none t mro).
Proof.
  induction mro as [|c mro IH]; intros Hs; cbn.
  { exists false. split; [done|]. split; [done|]. by intros ?%hash_is_none_nil. }
  destruct (Hs c) as [cls Hc]; [by apply elem_of_cons; left|]. rewrite (borrow_Some _ _ _ Hc). cbn.
  destruct IH as (b & Hb & Hspec); [intros; by apply Hs, elem_of_cons; right|].
  case_bool_decide as Hh; [|destruct (is_unhashable_primitive cls) eqn:Hu].
  - exists false. split; [done|]. rewrite (hash_is_none_cons t c cls) by done. split; [done|]. by intros [].
  - exists true. split; [done|]. rewrite (hash_is_none_cons t c cls) by done. tauto.
  - exists b. split; [done|]. rewrite (hash_is_none_cons t c cls), Hspec, Hu by done. split; [tauto|]. by intros [_ []].
Qed.

Lemma hash_linearizes t rank fuel c l :
  wf_classes t → ranked t rank → is_Some (classes t !! c) → linearizes t rank c l → (rank c < fuel)%nat →
  ∃ b, class_hash_inherits_builtin_none fuel t c = Return b ∧ (b = true ↔ hash_is_none t (append_object t l)).
Proof.
  intros Hwf Hr. pose proof Hwf as [_ (ocls & Ho & Hob & Htag)]. revert c l.
  induction fuel as [|fuel IH]; intros c l [cls Hc] Hl Hfuel; [lia|].
  pose proof (append_object_mro t c l Hwf (proj1 Hl)) as Hmro.
  cbn [class_hash_inherits_builtin_none]. rewrite (borrow_Some _ _ _ Hc). cbn [mbind outcome_bind].
  assert (Hh : ∃ r, append_object t l = c :: r).
  { pose proof (mro_first _ _ _ Hmro) as Hf. destruct (append_object t l) as [|x r]; [done|]. injection Hf as ->. by exists r. }
  case_bool_decide as Hown; [|destruct (is_unhashable_primitive cls) eqn:Hu].
  { destruct Hh as [r ->]. exists false. split; [done|]. rewrite (hash_is_none_cons t c cls) by done. split; [done|]. by intros []. }
  { destruct Hh as [r ->]. exists true. split; [done|]. rewrite (hash_is_none_cons t c cls) by done. tauto. }
  destruct (extra_bases cls) as [|e0 es] eqn:He; cbn [nonempty].
  2: { rewrite (c3_classes_linearizes t rank c l) by (done || by exists cls). apply first_hash_is_none_spec.
       intros a [Ha| ->]%(mro_members _ _ _ Hmro); [|by exists ocls]. apply (ancestor_lookup t rank c); [done|by exists cls|done]. }
  destruct (Hr c cls Hc) as [_ Hall]. destruct (base cls) as [b|] eqn:Hb.
  - destruct (linearizes_chain t rank c cls l b) as (lb & Hlb & ->); [done..|by apply all_bases_single|].
    assert (Hin : b ∈ all_bases cls) by (rewrite (all_bases_single cls b) by done; by apply list_elem_of_singleton).
    destruct (Hall b Hin) as [Hsome Hlt]. destruct (IH b lb Hsome Hlb) as (x & Hx & Hspec); [lia|].
    exists x. split; [done|]. rewrite append_object_cons by (by eapply object_no_bases).
    rewrite (hash_is_none_cons t c cls), Hspec, Hu by done. split; [tauto|]. by intros [_ []].
  - exists false. split; [done|]. split; [done|].
    assert (Hl1 : l = [c]).
    { destruct Hl as [_ Hrun]. destruct (Hrun (S (rank c))) as [Hret _]; [lia|]. cbn in Hret.
      rewrite (borrow_Some _ _ _ Hc) in Hret. cbn in Hret. rewrite (all_bases_nil cls He Hb) in Hret. by injection Hret. }
    subst l. unfold append_object. case_bool_decide; cbn [app]; rewrite (hash_is_none_cons t c cls), Hu by done.
    + by intros [_ [|?%hash_is_none_nil]].
    + intros [_ [|Hn]]; [done|]. apply (hash_is_none_cons t _ ocls) in Hn as [_ [Hn|?%hash_is_none_nil]]; [|done|done].
      unfold is_unhashable_primitive in Hn. by rewrite Htag in Hn.
Qed.

(** ** Walks *)

Lemma subclass_spec t rank c e fuel :
  ranked t rank → is_Some (classes t !! c) → (rank c < fuel)%nat →
  ∃ b, class_is_subclass_of fuel t c e = Return b ∧ (b = true ↔ ancestor t c e ∨ e = object_class t).
Proof.
  intros Hr. revert c. induction fuel as [|fuel IH]; intros c [cls Hc] Hfuel; [lia|]. cbn [class_is_subclass_of].
  case_bool_decide as He; [exists true; split; [done|]; split; [left; subst; constructor|done]|].
  case_bool_decide as Ho; [exists true; split; [done|]; split; [by right|done]|].
  rewrite (borrow_Some _ _ _ Hc). cbn [mbind outcome_bind]. destruct (Hr c cls Hc) as [_ Hall].
  destruct (any_of_spec (λ b, class_is_subclass_of fuel t b e) (λ b, ancestor t b e ∨ e = object_class t) (all_bases cls))
    as (b & Hb & Hspec); [intros x Hx; destruct (Hall x Hx); apply IH; [done|lia]|].
  exists b. split; [done|]. rewrite Hspec, (ancestor_cases t c e cls Hc). split.
  - intros (x & Hx & [Ha|?]); [|done]. left. right. by exists x.
  - intros [[->|(x & Hx & Ha)]|?]; [done| |done]. exists x. by split; [|left].
Qed.

(** A walk up the bases that stops at the first class with [Q]. *)
Lemma walk_spec t rank (f : nat → ClassRef → outcome bool) (Q : PyClass V → bool) :
  ranked t rank →
  (∀ fuel c cls, classes t !! c = Some cls →
    f (S fuel) c = (if Q cls then Return true else any_of (f fuel) (all_bases cls))) →
  ∀ fuel c, is_Some (classes t !! c) → (rank c < fuel)%nat →
    ∃ b, f fuel c = Return b ∧ (b = true ↔ ∃ a acls, ancestor t c a ∧ classes t !! a = Some acls ∧ Q acls = true).
Proof.
  intros Hr Hf. induction fuel as [|fuel IH]; intros c [cls Hc] Hfuel; [lia|]. rewrite (Hf fuel c cls Hc).
  destruct (Q cls) eqn:Hq; [exists true; split; [done|]; split; [|done]; exists c, cls; split; [constructor|done]|].
  destruct (Hr c cls Hc) as [_ Hall].
  destruct (any_of_spec (f fuel) (λ b, ∃ a acls, ancestor t b a ∧ classes t !! a = Some acls ∧ Q acls = true) (all_bases cls))
    as (b & Hb & Hspec); [intros x Hx; destruct (Hall x Hx); apply IH; [done|lia]|].
  exists b. split; [done|]. rewrite Hspec. split.
  - intros (x & Hx & a & acls & Ha & ?). exists a, acls. split; [by eapply ancestor_base|done].
  - intros (a & acls & Ha & Hacls & HQ). apply (ancestor_cases t c a cls Hc) in Ha as [->|(x & Hx & Ha)]; [simplify_eq; congruence|].
    exists x. split; [done|]. by exists a, acls.
Qed.

(** The same for a walk that leaves [object] out. *)
Lemma walk_below_spec t rank (f : nat → ClassRef → outcome bool) (Q : PyClass V → bool) :
  wf_classes t → ranked t rank →
  (∀ fuel c cls, classes t !! c = Some cls →
    f (S fuel) c = (if Q cls then Return true else any_of (f fuel) (bases_below_object t cls))) →
  ∀ fuel c, is_Some (classes t !! c) → (rank c < fuel)%nat → c ≠ object_class t →
    ∃ b, f fuel c = Return b ∧
      (b = true ↔ ∃ a acls, ancestor t c a ∧ a ≠ object_class t ∧ classes t !! a = Some acls ∧ Q acls = true).
Proof.
  intros Hwf Hr Hf. induction fuel as [|fuel IH]; intros c [cls Hc] Hfuel Hno; [lia|]. rewrite (Hf fuel c cls Hc).
  destruct (Q cls) eqn:Hq; [exists true; split; [done|]; split; [|done]; exists c, cls; split; [constructor|done]|].
  destruct (Hr c cls Hc) as [_ Hall].
  assert (Hbelow : ∀ x, x ∈ bases_below_object t cls ↔ x ∈ all_bases cls ∧ x ≠ object_class t).
  { intros x. unfold bases_below_object. rewrite !list_elem_of_In, filter_In, negb_true_iff, bool_decide_eq_false. done. }
  destruct (any_of_spec (f fuel) (λ b, ∃ a acls, ancestor t b a ∧ a ≠ object_class t ∧ classes t !! a = Some acls ∧ Q acls = true)
    (bases_below_object t cls)) as (b & Hb & Hspec).
  { intros x [Hx Hxo]%Hbelow. destruct (Hall x Hx). apply IH; [done|lia|done]. }
  exists b. split; [done|]. rewrite Hspec. split.
  - intros (x & [Hx _]%Hbelow & a & acls & Ha & ?). exists a, acls. split; [by eapply ancestor_base|done].
  - intros (a & acls & Ha & Hao & Hacls & HQ).
    apply (ancestor_cases t c a cls Hc) in Ha as [->|(x & Hx & Ha)]; [simplify_eq; congruence|].
    exists x. split; [|by exists a, acls]. apply Hbelow. split; [done|]. intros ->. apply Hao.
    destruct Hwf as [_ (ocls & Ho & Hob & _)]. apply (ancestor_cases t _ a ocls Ho) in Ha as [->|(y & Hy & _)]; [done|].
    rewrite Hob in Hy. by apply elem_of_nil in Hy.
Qed.

Lemma mro_lookup t rank c l a :
  wf_classes t → ranked t rank → is_Some (classes t !! c) → linear t c l → a ∈ append_object t l → is_Some (classes t !! a).
Proof.
  intros Hwf Hr Hc Hl Ha. apply (mro_members _ _ _ (append_object_mro t c l Hwf Hl)) in Ha as [Ha| ->].
  - by apply (ancestor_lookup t rank c).
  - destruct Hwf as [_ (ocls & Ho & _)]. by exists ocls.
Qed.

Lemma new_slot_spec t rank c fuel :
  ranked t rank → is_Some (classes t !! c) → (rank c < fuel)%nat →
  ∃ b, class_chain_new_slot_wrapped fuel t c = Return b ∧
    (b = true ↔ ∃ a acls, ancestor t c a ∧ classes t !! a = Some acls ∧ new_slot_wrapped acls = true).
Proof.
  intros Hr. apply (walk_spec t rank (λ fuel, class_chain_new_slot_wrapped fuel t) new_slot_wrapped Hr).
  intros f a cls Ha. cbn. by rewrite (borrow_Some _ _ _ Ha).
Qed.

Definition has_slots cls : bool := match slots cls with Some _ => true | None => false end.

Definition names_slot (attr : string) cls : bool :=
  match slots cls with Some names => bool_decide (attr ∈ names) | None => false end.

Lemma suppresses_spec t rank c :
  wf_classes t → ranked t rank → is_Some (classes t !! c) → c ≠ object_class t →
  ∃ b, class_suppresses_instance_dict t c = Return b ∧
    (b = true ↔ ∀ a acls, ancestor t c a → a ≠ object_class t → classes t !! a = Some acls →
      ∃ names, slots acls = Some names ∧ "__dict__" ∉ names).
Proof.
  intros Hwf Hr [cls Hc] Ho. pose proof (class_fuel_enough t rank c Hr) as Hfuel. specialize (Hfuel (ex_intro _ _ Hc)).
  destruct (walk_below_spec t rank (λ fuel x, mro_slot_allows fuel t x "__dict__") (names_slot "__dict__") Hwf Hr)
    with (fuel := class_fuel t) (c := c) as (allows & Ha & Hallows); [|by exists cls|lia|done|].
  { intros f a acls Ha. cbn. by rewrite (borrow_Some _ _ _ Ha). }
  destruct (walk_below_spec t rank (λ fuel x, mro_has_unslotted_ancestor fuel t x) (λ x, negb (has_slots x)) Hwf Hr)
    with (fuel := class_fuel t) (c := c) as (unslotted & Hu & Hunslotted); [|by exists cls|lia|done|].
  { intros f a acls Ha'. cbn. rewrite (borrow_Some _ _ _ Ha'). unfold has_slots. cbn. by destruct (slots acls). }
  assert (Hiff : (∀ a acls, ancestor t c a → a ≠ object_class t → classes t !! a = Some acls →
      ∃ names, slots acls = Some names ∧ "__dict__" ∉ names) ↔ allows = false ∧ unslotted = false).
  { rewrite <- !not_true_iff_false, Hallows, Hunslotted. split.
    - intros Hall. split; intros (a & acls & Hac & Hao & Hacls & Hq); destruct (Hall a acls Hac Hao Hacls) as (names & Hs & Hn).
      + unfold names_slot in Hq. rewrite Hs in Hq. by apply bool_decide_eq_true in Hq.
      + unfold has_slots in Hq. by rewrite Hs in Hq.
    - intros [Hn Hs] a acls Hac Hao Hacls. destruct (slots acls) as [names|] eqn:Hsl.
      + exists names. split; [done|]. intros Hin. apply Hn. exists a, acls. do 3 (split; [done|]). unfold names_slot.
        rewrite Hsl. by apply bool_decide_eq_true.
      + exfalso. apply Hs. exists a, acls. do 3 (split; [done|]). unfold has_slots. by rewrite Hsl. }
  unfold class_suppresses_instance_dict. rewrite (borrow_Some _ _ _ Hc). cbn [mbind outcome_bind].
  destruct (slots cls) as [names|] eqn:Hs.
  - rewrite Ha. cbn [mbind outcome_bind]. destruct allows; [|rewrite Hu]; (eexists; split; [done|]); rewrite Hiff.
    + by split; [|intros []].
    + destruct unslotted; cbn; intuition congruence.
  - exists false. split; [done|]. split; [done|]. intros Hall.
    destruct (Hall c cls) as (names & Hsl & _); [constructor|done..|]. congruence.
Qed.
End table.

(** * Creation of classes *)


Section table.
Context {V : Type}.
Implicit Types (t : ClassTable V) (c : ClassRef) (cls : PyClass V).

(** ** Tables with the same bases *)

Definition same_bases cls cls' : Prop := name cls' = name cls ∧ all_bases cls' = all_bases cls.

Definition extends_table t t' : Prop :=
  object_class t' = object_class t ∧
  ∀ a cls, classes t !! a = Some cls → ∃ cls', classes t' !! a = Some cls' ∧ same_bases cls cls'.

Lemma merge_loop_ext nh nh' obj fuel lists result :
  (∀ ls, nh ls = nh' ls) → merge_loop nh obj fuel lists result = merge_loop nh' obj fuel lists result.
Proof.
  intros Hnh. revert lists result. induction fuel as [|fuel IH]; intros lists result; [done|]. cbn [merge_loop].
  destruct (List.filter nonempty lists) as [|l ls]; [done|]. destruct (pick_head _ _ _ _) as [[h|]| | |]; [apply IH| |done..].
  cbn [mbind outcome_bind]. rewrite Hnh. destruct (nh' _); [apply IH|done..].
Qed.

Lemma mapM_ext_in {A B} (f g : A → outcome B) l : (∀ x, x ∈ l → f x = g x) → mapM f l = mapM g l.
Proof.
  induction l as [|x l IH]; intros Hl; [done|]. cbn. rewrite Hl by (by apply elem_of_cons; left).
  by rewrite IH by (intros; by apply Hl, elem_of_cons; right).
Qed.

Lemma c3_linearize_extends t t' rank fuel c :
  ranked t rank → extends_table t t' → is_Some (classes t !! c) → c3_linearize fuel t' c = c3_linearize fuel t c.
Proof.
  intros Hr [Ho Hext]. revert c. induction fuel as [|fuel IH]; intros c [cls Hc]; [done|]. cbn [c3_linearize].
  destruct (Hext c cls Hc) as (cls' & Hc' & _ & Hb). rewrite (borrow_Some _ _ _ Hc), (borrow_Some _ _ _ Hc').
  cbn [mbind outcome_bind]. rewrite Hb. destruct (Hr c cls Hc) as [_ Hall].
  destruct (all_bases cls) as [|b0 bs] eqn:Hbases; [done|]. rewrite <- Hbases in *. clear Hbases.
  rewrite (mapM_ext_in _ (c3_linearize fuel t)) by (intros b Hin; by apply IH, Hall).
  destruct (mapM _ _) as [ls| | |]; [|done..]. cbn [mbind outcome_bind]. rewrite Ho. apply merge_loop_ext. intros _.
  unfold inconsistent. rewrite Ho. f_equal. apply mapM_ext_in. intros b Hin.
  rewrite list_elem_of_In, filter_In, <- list_elem_of_In in Hin. destruct (Hall b) as [[bcls Hbc] _]; [apply Hin|].
  destruct (Hext b bcls Hbc) as (bcls' & Hbc' & Hn & _). rewrite (borrow_Some _ _ _ Hbc), (borrow_Some _ _ _ Hbc').
  cbn. by rewrite Hn.
Qed.

(** More fuel than the rank changes nothing. *)
Lemma c3_linearize_fuel t rank fuel fuel' c :
  wf_classes t → ranked t rank → is_Some (classes t !! c) → (rank c < fuel)%nat → (rank c < fuel')%nat →
  c3_linearize fuel t c = c3_linearize fuel' t c.
Proof.
  intros Hwf Hr Hc Hf Hf'. destruct (c3_cases t rank c Hwf Hr Hc) as [(l & _ & Hrun)|(e & a & _ & _ & Hrun)].
  - destruct (Hrun fuel Hf) as [-> _]. by destruct (Hrun fuel' Hf') as [-> _].
  - by rewrite !Hrun by done.
Qed.

Lemma class_mro_items_extends t t' rank c :
  wf_classes t → ranked t rank → extends_table t t' → (length (classes t) ≤ length (classes t'))%nat →
  is_Some (classes t !! c) → class_mro_items t' c = class_mro_items t c.
Proof.
  intros Hwf Hr Hext Hlen Hc. unfold class_mro_items. rewrite (c3_linearize_extends t t' rank) by done.
  destruct Hc as [cls Hc]. destruct (Hr c cls Hc) as [Hlt _].
  rewrite (c3_linearize_fuel t rank _ (class_fuel t)); [|done|done|by exists cls|unfold class_fuel; lia..].
  unfold append_object. by rewrite (proj1 Hext).
Qed.

(** ** Registration with the bases *)

Definition register c (bases : list ClassRef) (l : list (PyClass V)) : list (PyClass V) :=
  foldl (λ l b, alter (push_subclass c) b l) l bases.

Lemma register_cons c b bases l : register c (b :: bases) l = register c bases (alter (push_subclass c) b l).
Proof. done. Qed.

Lemma register_length c bases l : length (register c bases l) = length l.
Proof. revert l. induction bases as [|b bases IH]; intros l; [done|]. by rewrite register_cons, IH, length_alter. Qed.

Lemma register_lookup c bases l a cls :
  l !! a = Some cls → ∃ cls', register c bases l !! a = Some cls' ∧ name cls' = name cls ∧ base cls' = base cls ∧
    extra_bases cls' = extra_bases cls ∧ canonical_tag cls' = canonical_tag cls ∧
    ∀ x, x ∈ subclasses cls' ↔ x ∈ subclasses cls ∨ (x = c ∧ a ∈ bases).
Proof.
  revert l cls. induction bases as [|b bases IH]; intros l cls Ha; [|rewrite register_cons].
  { exists cls. do 5 (split; [done|]). intros x. split; [by left|]. by intros [?|[_ ?%elem_of_nil]]. }
  destruct (decide (a = b)) as [<-|Hne].
  - destruct (IH (alter (push_subclass c) a l) (push_subclass c cls)) as (cls' & H1 & H2 & H3 & H4 & H5 & H6);
      [by rewrite list_lookup_alter_eq, Ha|]. exists cls'. do 5 (split; [done|]).
    intros x. rewrite H6. cbn. rewrite elem_of_app, list_elem_of_singleton, elem_of_cons. tauto.
  - destruct (IH (alter (push_subclass c) b l) cls) as (cls' & H1 & H2 & H3 & H4 & H5 & H6);
      [by rewrite list_lookup_alter_ne|]. exists cls'. do 5 (split; [done|]).
    intros x. rewrite H6, elem_of_cons. intuition congruence.
Qed.

Lemma register_lookup_inv c bases l a cls' :
  register c bases l !! a = Some cls' → is_Some (l !! a).
Proof. intros Ha%lookup_lt_Some. rewrite register_length in Ha. by apply lookup_lt_is_Some. Qed.

(** ** Valid tables *)

Record valid_table t : Prop := {
  valid_wf : wf_classes t;
  valid_mro : ∀ c, is_Some (classes t !! c) → ∃ mro, class_mro_items t c = Return mro;
  valid_subclasses : ∀ b bcls c, classes t !! b = Some bcls →
    c ∈ subclasses bcls ↔ ∃ cls, classes t !! c = Some cls ∧ b ∈ all_bases cls;
}.

(** A class that may be added: its bases are in the table. *)
Definition new_class t cls : Prop :=
  subclasses cls = [] ∧ ∀ b, b ∈ all_bases cls → is_Some (classes t !! b).

Lemma snoc_lookup t cls a acls :
  classes (with_classes t (classes t ++ [cls])) !! a = Some acls ↔
  classes t !! a = Some acls ∨ (a = length (classes t) ∧ acls = cls).
Proof.
  cbn. rewrite lookup_app_Some, list_lookup_singleton_Some. split.
  - intros [?|(? & ? & ->)]; [by left|right]. split; [lia|done].
  - intros [?|[-> ->]]; [by left|right]. by rewrite Nat.sub_diag.
Qed.

Lemma snoc_ranked t cls rank :
  ranked t rank → new_class t cls →
  ranked (with_classes t (classes t ++ [cls])) (λ c, if decide (c < length (classes t))%nat then rank c else length (classes t)).
Proof.
  intros Hr [_ Hb] a acls [Ha|[-> ->]]%snoc_lookup; cbn; rewrite length_app; cbn.
  - apply lookup_lt_Some in Ha as Hlt. rewrite decide_True by done. destruct (Hr a acls Ha) as [Hra Hall]. split; [lia|].
    intros b Hin. destruct (Hall b Hin) as [Hs Hlt']. apply lookup_lt_is_Some in Hs as Hlb. rewrite decide_True by done.
    split; [|done]. rewrite lookup_app_l by done. done.
  - rewrite decide_False by lia. split; [lia|]. intros b Hin. destruct (Hb b Hin) as [bcls Hbc].
    apply lookup_lt_Some in Hbc as Hlb. rewrite decide_True by done. rewrite lookup_app_l, Hbc by done.
    split; [done|]. by destruct (Hr b bcls Hbc).
Qed.

Lemma snoc_wf t cls : wf_classes t → new_class t cls → wf_classes (with_classes t (classes t ++ [cls])).
Proof.
  intros [[rank Hr] (ocls & Ho & ?)] Hn. split; [eexists; by apply snoc_ranked|]. exists ocls. split; [|done].
  apply snoc_lookup. by left.
Qed.

Lemma snoc_extends t cls : extends_table t (with_classes t (classes t ++ [cls])).
Proof. split; [done|]. intros a acls Ha. exists acls. split; [apply snoc_lookup; by left|done]. Qed.

Lemma register_extends t c bases : extends_table t (with_classes t (register c bases (classes t))).
Proof.
  split; [done|]. intros a cls Ha. destruct (register_lookup c bases _ _ _ Ha) as (cls' & Hc & Hn & Hb & He & _).
  exists cls'. split; [done|]. split; [done|]. unfold all_bases. by rewrite Hb, He.
Qed.

Lemma register_ranked t c bases rank : ranked t rank → ranked (with_classes t (register c bases (classes t))) rank.
Proof.
  intros Hr a cls' Ha. destruct (register_lookup_inv _ _ _ _ _ Ha) as [cls Hc].
  destruct (proj2 (register_extends t c bases) a cls Hc) as (cls'' & Ha' & _ & Hb). cbn in Ha, Ha'. simplify_eq.
  cbn. rewrite register_length, Hb. destruct (Hr a cls Hc) as [Hlt Hall]. split; [done|]. intros b Hin.
  destruct (Hall b Hin) as [[bcls Hs] Hlt']. split; [|done].
  destruct (register_lookup c bases _ _ _ Hs) as (bcls' & -> & _). done.
Qed.

Lemma register_wf t c bases : wf_classes t → wf_classes (with_classes t (register c bases (classes t))).
Proof.
  intros [[rank Hr] (ocls & Ho & Hb & Ht)]. split; [exists rank; by apply register_ranked|].
  destruct (register_lookup c bases _ _ _ Ho) as (ocls' & Ho' & _ & Hb' & He' & Ht' & _). exists ocls'.
  split; [done|]. unfold all_bases in *. by rewrite Hb', He', Ht'.
Qed.

Lemma build_registered t cls :
  valid_table t → new_class t cls →
  let c := length (classes t) in let t1 := with_classes t (classes t ++ [cls]) in
  (∃ mro, class_mro_items t1 c = Return mro) → valid_table (with_classes t1 (register c (all_bases cls) (classes t1))).
Proof.
  intros [Hwf Hmro Hsub] Hn c t1 [mro Hc]. pose proof (snoc_wf t cls Hwf Hn) as Hwf1.
  pose proof (wf_ranked _ Hwf) as [rank Hr]. pose proof (wf_ranked _ Hwf1) as [rank1 Hr1].
  assert (Hitems : ∀ a, is_Some (classes t1 !! a) →
    class_mro_items (with_classes t1 (register c (all_bases cls) (classes t1))) a = class_mro_items t1 a).
  { intros a Ha. eapply class_mro_items_extends; [done|exact Hr1|apply register_extends| |done]. cbn. by rewrite register_length. }
  split; [by apply register_wf| |].
  - intros a [acls' Ha]. destruct (register_lookup_inv _ _ _ _ _ Ha) as [acls Ha1]. rewrite Hitems by (by exists acls).
    apply snoc_lookup in Ha1 as [Ha1|[-> _]]; [|by exists mro].
    assert (Hsome : is_Some (classes t !! a)) by (by exists acls).
    rewrite (class_mro_items_extends t t1 rank a Hwf Hr (snoc_extends t cls)); [by apply Hmro|cbn; rewrite length_app; lia|done].
  - intros b bcls' a Hb. destruct (register_lookup_inv _ _ _ _ _ Hb) as [bcls Hb1]. cbn [classes with_classes] in *.
    destruct (register_lookup c (all_bases cls) _ _ _ Hb1) as (bcls'' & Hb2 & _ & _ & _ & _ & Hs). simplify_eq. rewrite Hs.
    assert (Hall : (∃ acls', register c (all_bases cls) (classes t ++ [cls]) !! a = Some acls' ∧ b ∈ all_bases acls') ↔
      ∃ acls, classes t1 !! a = Some acls ∧ b ∈ all_bases acls).
    { split.
      - intros (acls' & Ha & Hin). destruct (register_lookup_inv _ _ _ _ _ Ha) as [acls Ha1]. exists acls. split; [done|].
        destruct (proj2 (register_extends t1 c (all_bases cls)) a acls Ha1) as (? & ? & _ & Heq). cbn in *. simplify_eq.
        by rewrite <- Heq.
      - intros (acls & Ha & Hin). destruct (proj2 (register_extends t1 c (all_bases cls)) a acls Ha) as (acls' & Ha' & _ & Heq).
        exists acls'. split; [done|]. by rewrite Heq. }
    etrans; [|symmetry; exact Hall]. destruct Hn as [Hnil Hnew]. apply snoc_lookup in Hb1 as [Hb1|[-> ->]].
    + rewrite (Hsub b bcls a Hb1). split.
      * intros [(acls & Ha & Hin)|[-> Hin]]; [exists acls|exists cls]; (split; [|done]); apply snoc_lookup; [by left|by right].
      * intros (acls & [Ha|[-> ->]]%snoc_lookup & Hin); [left; by exists acls|by right].
    + rewrite Hnil. split.
      * intros [?%elem_of_nil|[_ Hin]]; [done|]. apply Hnew in Hin. apply lookup_lt_is_Some in Hin. lia.
      * intros (acls & [Ha|[-> ->]]%snoc_lookup & Hin).
        -- destruct (Hr a acls Ha) as [_ Hall']. destruct (Hall' _ Hin) as [Hs' _]. apply lookup_lt_is_Some in Hs'. lia.
        -- apply Hnew in Hin. apply lookup_lt_is_Some in Hin. lia.
Qed.

(** The linearizations of the bases, in the table without the new class. *)
Lemma bases_linearized t t1 rank rank1 cls ls :
  ranked t rank → extends_table t t1 → (∀ b, is_Some (classes t !! b) → rank1 b = rank b) →
  (∀ b, b ∈ all_bases cls → is_Some (classes t !! b)) → Forall2 (linearizes t1 rank1) (all_bases cls) ls →
  Forall2 (λ b l, c3_linearize (class_fuel t) t b = Return l) (all_bases cls) ls.
Proof.
  intros Hr Hext Hrank Hb Hls. apply Forall2_same_length_lookup_2; [by eapply Forall2_length|]. intros i b l Hbi Hli.
  destruct (Forall2_lookup_lr _ _ _ _ _ _ Hls Hbi Hli) as [_ Hrun].
  assert (Hsome : is_Some (classes t !! b)) by (by eapply Hb, list_elem_of_lookup_2).
  pose proof (class_fuel_enough t rank b Hr Hsome). rewrite <- (c3_linearize_extends t t1 rank) by done. apply Hrun. rewrite Hrank by done. lia.
Qed.

(** The new class is accepted exactly when its bases have a common order. *)
Lemma build_class_cases t cls :
  valid_table t → new_class t cls →
  let c := length (classes t) in
  ∃ ls, Forall2 (λ b l, c3_linearize (class_fuel t) t b = Return l) (all_bases cls) ls ∧
  ((∃ t' r, build_class t cls = Return (t', c) ∧ valid_table t' ∧
      c3_merge (object_class t) (ls ++ [all_bases cls]) r ∧ common_order (ls ++ [all_bases cls]) r ∧
      class_mro_items t' c = Return (append_object t (c :: r)) ∧ is_mro t' c (append_object t (c :: r)) ∧
      (∀ a, (a < c)%nat → class_mro_items t' a = class_mro_items t a)) ∨
   (∃ base_names, build_class t cls = Raise (mro_error base_names) ∧ ¬ mergeable (ls ++ [all_bases cls]) ∧
      Forall2 (λ b n, ∃ bcls, classes t !! b = Some bcls ∧ name bcls = n)
        (List.filter (λ b, negb (bool_decide (b = object_class t))) (all_bases cls)) base_names)).
Proof.
  intros Hv Hn c. pose proof Hv as [Hwf Hmro _]. set (t1 := with_classes t (classes t ++ [cls])).
  pose proof (snoc_wf t cls Hwf Hn) as Hwf1. pose proof (wf_ranked _ Hwf) as [rank Hr].
  pose proof (snoc_ranked t cls rank Hr Hn) as Hr1. fold t1 in Hwf1, Hr1.
  set (rank1 := λ c, if decide (c < length (classes t))%nat then rank c else length (classes t)) in Hr1.
  assert (Hc : classes t1 !! c = Some cls) by (apply snoc_lookup; by right).
  assert (Hfuel : (S (rank1 c) < class_fuel t1)%nat) by (apply class_fuel_enough; [done|by exists cls]).
  assert (Hold : ∀ a, is_Some (classes t !! a) → class_mro_items t1 a = class_mro_items t a).
  { intros a Ha. apply (class_mro_items_extends t t1 rank); [done|done|apply snoc_extends| |done]. cbn. rewrite length_app. lia. }
  assert (Hbases : ∀ ls, Forall2 (linearizes t1 rank1) (all_bases cls) ls →
    Forall2 (λ b l, c3_linearize (class_fuel t) t b = Return l) (all_bases cls) ls).
  { intros ls. apply (bases_linearized t t1 rank rank1); [done|apply snoc_extends| |apply (proj2 Hn)].
    intros b Hb%lookup_lt_is_Some. unfold rank1. by rewrite decide_True. }
  unfold build_class. fold c t1.
  destruct (c3_cases t1 rank1 c Hwf1 Hr1) as [(l & Hl)|(e & a & Ha & (acls & ls & ns & Ha1 & Hls & Hnm & Hns & ->) & Hrun)]; [by exists cls| |].
  - destruct (linearizes_bases t1 rank1 c cls l Hwf1 Hr1 Hc Hl) as [ls Hls]. exists ls. split; [by apply Hbases|left].
    destruct (linearizes_merges t1 rank1 c cls l ls Hr1 Hc Hl Hls) as (r & -> & [Hc3 Ho _ _]).
    destruct Hl as [Hlin Hrun].
    assert (Hitems : class_mro_items t1 c = Return (append_object t1 (c :: r))).
    { unfold class_mro_items. destruct (Hrun (class_fuel t1)) as [-> _]; [lia|done]. }
    rewrite Hitems. cbn [mbind outcome_bind]. eexists _, r. split; [done|].
    pose proof (build_registered t cls Hv Hn) as Hv'. cbn beta zeta in Hv'. specialize (Hv' (ex_intro _ _ Hitems)).
    split; [exact Hv'|]. split; [exact Hc3|]. split; [exact Ho|].
    assert (Hitems' : ∀ a, is_Some (classes t1 !! a) →
      class_mro_items (with_classes t1 (register c (all_bases cls) (classes t1))) a = class_mro_items t1 a).
    { intros a Ha. eapply class_mro_items_extends; [done|exact Hr1|apply register_extends| |done]. cbn. by rewrite register_length. }
    split; [etrans; [apply Hitems'; by exists cls|exact Hitems]|]. split.
    + change (append_object t) with (append_object t1).
      destruct (mro_items_linearizes (with_classes t1 (register c (all_bases cls) (classes t1))) rank1 c (append_object t1 (c :: r)) (valid_wf _ Hv'))
        as (l' & [Hl' _] & ->).
      * by apply register_ranked.
      * destruct (register_lookup c (all_bases cls) _ _ _ Hc) as (cls' & Hcls' & _). by exists cls'.
      * etrans; [apply Hitems'; by exists cls|exact Hitems].
      * by apply append_object_mro; [apply valid_wf|].
    + intros a Ha'. apply lookup_lt_is_Some in Ha'. rewrite Hitems'; [by apply Hold|]. destruct Ha' as [? Ha'].
      eexists. apply snoc_lookup. by left.
  - assert (a = c) as ->.
    { apply snoc_lookup in Ha1 as Ha2. destruct Ha2 as [Ha2|[? _]]; [|done]. exfalso.
      destruct (Hmro a) as [mro Hm]; [by exists acls|]. rewrite <- Hold in Hm by (by exists acls).
      apply (mro_items_linearizes t1 rank1) in Hm as (l & Hl & _); [|done|done|by exists acls].
      destruct (linearizes_merges t1 rank1 a acls l ls Hr1 Ha1 Hl Hls) as (r & _ & [_ ? _ _]). apply Hnm. by exists r. }
    rewrite Hc in Ha1. injection Ha1 as <-. exists ls. split; [by apply Hbases|right]. exists ns. split; [|split; [done|]].
    + unfold class_mro_items. by rewrite Hrun by lia.
    + apply Forall2_same_length_lookup_2; [by eapply Forall2_length|]. intros i b m Hbi Hni.
      destruct (Forall2_lookup_lr _ _ _ _ _ _ Hns Hbi Hni) as (bcls & Hb & Hm). exists bcls. split; [|done].
      apply list_elem_of_lookup_2 in Hbi. rewrite list_elem_of_In, filter_In, <- list_elem_of_In in Hbi.
      destruct (proj2 Hn b (proj1 Hbi)) as [bcls' Hb']. destruct (proj2 (snoc_extends t cls) b bcls' Hb') as (? & ? & _). 
      apply snoc_lookup in Hb as [?|[-> _]]; [done|]. apply lookup_lt_Some in Hb'. lia.
Qed.

(** ** Orders of bases and of derived classes *)

Lemma append_object_sublist t l l' :
  comes_last (object_class t) l' → l `sublist_of` l' → append_object t l `sublist_of` append_object t l'.
Proof.
  intros Hlast Hs. unfold append_object. case_bool_decide as Hl; case_bool_decide as Hl'.
  - done.
  - by apply sublist_inserts_r.
  - apply list_elem_of_split in Hl' as (l1 & l2 & ->). rewrite (Hlast l1 l2 eq_refl) in *.
    apply sublist_app_r in Hs as (k1 & k2 & -> & Hk1 & Hk2). destruct k2 as [|x k2].
    + rewrite app_nil_r. by apply sublist_app.
    + exfalso. apply Hl, elem_of_app. right. assert (Hx : x ∈ [object_class t]) by (apply (sublist_elem _ _ _ Hk2), elem_of_cons; by left).
      apply list_elem_of_singleton in Hx as ->. apply elem_of_cons. by left.
  - by apply sublist_app.
Qed.

Lemma mro_monotone t rank c cls l b :
  wf_classes t → ranked t rank → classes t !! c = Some cls → linearizes t rank c l → b ∈ all_bases cls →
  ∃ mro_b, class_mro_items t b = Return mro_b ∧ (object_last_base t → mro_b `sublist_of` append_object t l).
Proof.
  intros Hwf Hr Hc Hl Hb. destruct (linearizes_bases t rank c cls l Hwf Hr Hc Hl) as [ls Hls].
  assert (Hne : all_bases cls ≠ []) by (intros Heq; rewrite Heq in Hb; by apply elem_of_nil in Hb).
  destruct (linearizes_merge t rank c cls l ls Hr Hc Hl Hls Hne) as (r & -> & [_ [_ Hsub] _ _]).
  destruct (Hr c cls Hc) as [_ Hall]. destruct (Hall b Hb) as [Hsome _].
  apply list_elem_of_lookup in Hb as [i Hi]. destruct (Forall2_lookup_l _ _ _ _ _ Hls Hi) as (lb & Hli & Hlin & Hrun).
  exists (append_object t lb). pose proof (class_fuel_enough t rank b Hr Hsome). split.
  - unfold class_mro_items. destruct (Hrun (class_fuel t)) as [-> _]; [lia|done].
  - intros Hlast. apply append_object_sublist; [by apply linear_last with (c := c), Hlast; destruct Hl|].
    apply sublist_cons, Hsub, elem_of_app. left. by eapply list_elem_of_lookup_2.
Qed.

(** The bases of [a] have linearizations, but no order has them all, and the
    bases, as parts. *)
Definition inconsistent_bases t a (e : PyError) : Prop :=
  ∃ cls ls base_names, classes t !! a = Some cls ∧
    Forall2 (λ b l, c3_linearize (class_fuel t) t b = Return l) (all_bases cls) ls ∧
    ¬ mergeable (ls ++ [all_bases cls]) ∧ e = mro_error base_names.

Lemma no_order_inconsistent t rank a e : ranked t rank → no_order t rank a e → inconsistent_bases t a e.
Proof.
  intros Hr (cls & ls & ns & Ha & Hls & Hn & _ & ->). exists cls, ls, ns. split; [done|]. split; [|done].
  apply Forall2_same_length_lookup_2; [by eapply Forall2_length|]. intros i b l Hbi Hli.
  destruct (Forall2_lookup_lr _ _ _ _ _ _ Hls Hbi Hli) as [_ Hrun]. destruct (Hr a cls Ha) as [_ Hall].
  destruct (Hall b) as [Hsome _]; [by eapply list_elem_of_lookup_2|]. pose proof (class_fuel_enough t rank b Hr Hsome).
  apply Hrun. lia.
Qed.

Lemma class_order_cases t c cls :
  wf_classes t → classes t !! c = Some cls →
  (∃ mro, class_mro_items t c = Return mro ∧ c3_linearize_classes t c = Return mro ∧ is_mro t c mro ∧
    ∀ b, b ∈ all_bases cls →
      ∃ mro_b, class_mro_items t b = Return mro_b ∧ (object_last_base t → mro_b `sublist_of` mro)) ∨
  (∃ e, class_mro_items t c = Raise e ∧ (∃ mro, c3_linearize_classes t c = Return mro) ∧
    ∃ a, ancestor t c a ∧ inconsistent_bases t a e).
Proof.
  intros Hwf Hc. pose proof (wf_ranked _ Hwf) as [rank Hr]. assert (Hsome : is_Some (classes t !! c)) by (by exists cls).
  pose proof (class_fuel_enough t rank c Hr Hsome) as Hfuel.
  destruct (c3_cases t rank c Hwf Hr Hsome) as [(l & Hl)|(e & a & Ha & Hno & Hrun)]; [left|right].
  - exists (append_object t l). split.
    { unfold class_mro_items. destruct (proj2 Hl (class_fuel t)) as [-> _]; [lia|done]. }
    split; [by eapply c3_classes_linearizes|]. split; [by apply append_object_mro, Hl|].
    intros b Hb. by eapply mro_monotone.
  - exists e. split; [unfold class_mro_items; by rewrite Hrun by lia|]. split.
    + unfold c3_linearize_classes. destruct (linearize_total t rank c (class_fuel t)) as [l ->]; [done|done|lia|by eexists].
    + exists a. split; [done|]. by eapply no_order_inconsistent.
Qed.
End table.
