(* ===== verification/ClassProps.v ===== *)
(** The theorems about classes. *)

From stdpp Require Import gmap strings.
From S2P Require Import Outcome Prelude Classes ClassSpec ClassWalkSpec.

(** ** A table to evaluate on *)

(** [object], [type], a list-like built-in class, and a diamond whose last
    class adds slots. *)
Definition sample_class (own_attrs : list (string * nat)) (bases : list ClassRef) (derived : list ClassRef)
    (slot_names : option (list string)) (tag : option CanonicalClassTag) : PyClass nat :=
  {| name := "K"; base := head bases; extra_bases := tail bases; attrs := list_to_map own_attrs; subclasses := derived;
     slots := list_to_set <$> slot_names; new_slot_wrapped := false; canonical_tag := tag |}.

Definition sample_table : ClassTable nat :=
  {| classes := [sample_class [("__hash__", 0%nat)] [] [1%nat; 2%nat] None (Some TagObject);
                 sample_class [] [0%nat] [] None None;
                 sample_class [] [0%nat] [] None (Some TagList);
                 sample_class [("f", 3%nat)] [] [4%nat; 5%nat] (Some ["x"]) None;
                 sample_class [] [3%nat] [6%nat] (Some ["y"]) None;
                 sample_class [("f", 5%nat)] [3%nat] [6%nat] (Some []) None;
                 sample_class [] [4%nat; 5%nat] [] (Some []) None];
     object_class := 0; type_class := 1; primitive_dispatch := [2%nat] |}.

(** The cases of a look-up in a concrete list. *)
Ltac each_lookup H :=
  match type of H with
  | [] !! _ = _ => discriminate H
  | (_ :: ?l) !! S ?n = ?o => change (l !! n = o) in H; each_lookup H
  | (_ :: _) !! ?c = _ => destruct c; [injection H as <-|each_lookup H]
  end.

Ltac each_class H := cbn [classes sample_table] in H; each_lookup H.

Ltac list_cases H := cbn in H; rewrite ?elem_of_cons, ?elem_of_nil in H; destruct_or?; subst; try done.

Lemma sample_wf : wf_classes sample_table.
Proof.
  split; [|by eexists]. exists (λ c, c). intros c cls Hc. each_class Hc.
  all: split; [cbn; lia|]; intros b Hb; list_cases Hb; split; try lia; by eexists.
Qed.

Lemma sample_valid : valid_table sample_table.
Proof.
  split; [exact sample_wf| |].
  - intros c [cls Hc]. each_class Hc; vm_compute; by eexists.
  - intros b bcls c Hb. split.
    + intros Hc. each_class Hb; list_cases Hc; eexists; (split; [done|]); cbn; rewrite ?elem_of_cons; tauto.
    + intros (cls & Hc & Hin). each_class Hc; list_cases Hin; injection Hb as <-; cbn; rewrite ?elem_of_cons; tauto.
Qed.

(** ** Creation *)

(** C5: A class is created exactly when the linearizations of its bases and the
    list of its bases have a common order: it then enters a table in which every
    class has a linearization, its bases list it among their subclasses and the
    other classes keep their orders, and its own order is the C3 merge of these
    lists after the class itself, with [object] added where the merge lacks it;
    otherwise there is a TypeError with the names of the bases other than
    [object], in order. *)
Theorem class_creation_checked {V} (t : ClassTable V) (cls : PyClass V) :
  valid_table t → new_class t cls →
  let c := length (classes t) in
  ∃ ls, Forall2 (λ b l, c3_linearize (class_fuel t) t b = Return l) (all_bases cls) ls ∧
  ((∃ t' r, build_class t cls = Return (t', c) ∧ valid_table t' ∧
      c3_merge (object_class t) (ls ++ [all_bases cls]) r ∧ common_order (ls ++ [all_bases cls]) r ∧
      class_mro_items t' c = Return (append_object t (c :: r)) ∧ is_mro t' c (append_object t (c :: r)) ∧
      (∀ a, (a < c)%nat → class_mro_items t' a = class_mro_items t a)) ∨
   (∃ base_names, build_class t cls = Raise (mro_error base_names) ∧ ¬ mergeable (ls ++ [all_bases cls]) ∧
      Forall2 (λ b n, ∃ bcls, classes t !! b = Some bcls ∧ name bcls = n)
        (List.filter (λ b, negb (bool_decide (b = object_class t))) (all_bases cls)) base_names)).
Proof. apply build_class_cases. Qed.

Lemma sample_new bases : Forall (λ b, (b < 7)%nat) bases → new_class sample_table (sample_class [] bases [] None None).
Proof.
  intros Hb. split; [done|]. intros b Hin. unfold all_bases in Hin. cbn in Hin.
  assert (Hin' : b ∈ bases) by (by destruct bases). rewrite Forall_forall in Hb. apply lookup_lt_is_Some. by apply Hb.
Qed.

Lemma class_creation_checked_witness :
  let cls := sample_class [] [3%nat; 4%nat] [] None None in
  ∃ ls, Forall2 (λ b l, c3_linearize (class_fuel sample_table) sample_table b = Return l) (all_bases cls) ls ∧
  ((∃ t' r, build_class sample_table cls = Return (t', 7%nat) ∧ valid_table t' ∧
      c3_merge (object_class sample_table) (ls ++ [all_bases cls]) r ∧ common_order (ls ++ [all_bases cls]) r ∧
      class_mro_items t' 7%nat = Return (append_object sample_table (7%nat :: r)) ∧ is_mro t' 7%nat (append_object sample_table (7%nat :: r)) ∧
      (∀ a, (a < 7)%nat → class_mro_items t' a = class_mro_items sample_table a)) ∨
   (∃ base_names, build_class sample_table cls = Raise (mro_error base_names) ∧ ¬ mergeable (ls ++ [all_bases cls]) ∧
      Forall2 (λ b n, ∃ bcls, classes sample_table !! b = Some bcls ∧ name bcls = n)
        (List.filter (λ b, negb (bool_decide (b = object_class sample_table))) (all_bases cls)) base_names)).
Proof.
  apply (class_creation_checked sample_table); [exact sample_valid|]. apply sample_new. repeat constructor.
Defined.

(** A base before one of its own subclasses is refused. *)
Example base_before_derived_refused :
  build_class sample_table (sample_class [] [3%nat; 4%nat] [] None None) = Raise (mro_error ["K"; "K"]).
Proof. vm_compute. reflexivity. Qed.

(** [class C(object, X)] is accepted when [X] leaves [object] implicit, with
    [object] ahead of [X]; CPython refuses it. *)
Example object_first_base_accepted :
  match build_class sample_table (sample_class [] [0%nat; 3%nat] [] None None) with
  | Return (t, c) => class_mro_items t c = Return [7%nat; 0%nat; 3%nat]
  | _ => False
  end.
Proof. vm_compute. reflexivity. Qed.

(** ** Linearization *)

(** C13: The method resolution order starts with the class, has each of its
    ancestors and [object] once, and keeps every class before its bases and
    bases in their order; where no class of the table lists [object] before
    another of its bases, it also extends the orders of the bases.  The variant
    for existing classes gives the same one.  When there is no such order the
    former raises, for some ancestor with inconsistent bases, and the latter
    still returns. *)
Theorem class_order_correct {V} (t : ClassTable V) c cls :
  wf_classes t → classes t !! c = Some cls →
  (∃ mro, class_mro_items t c = Return mro ∧ c3_linearize_classes t c = Return mro ∧ is_mro t c mro ∧
    ∀ b, b ∈ all_bases cls →
      ∃ mro_b, class_mro_items t b = Return mro_b ∧ (object_last_base t → mro_b `sublist_of` mro)) ∨
  (∃ e, class_mro_items t c = Raise e ∧ (∃ mro, c3_linearize_classes t c = Return mro) ∧
    ∃ a, ancestor t c a ∧ inconsistent_bases t a e).
Proof. apply class_order_cases. Qed.

Lemma class_order_correct_witness :
  class_mro_items sample_table 6%nat = Return [6%nat; 4%nat; 5%nat; 3%nat; 0%nat] ∧
  ((∃ mro, class_mro_items sample_table 6%nat = Return mro ∧ c3_linearize_classes sample_table 6%nat = Return mro ∧
     is_mro sample_table 6%nat mro ∧
     ∀ b, b ∈ [4%nat; 5%nat] →
       ∃ mro_b, class_mro_items sample_table b = Return mro_b ∧ (object_last_base sample_table → mro_b `sublist_of` mro)) ∨
   (∃ e, class_mro_items sample_table 6%nat = Raise e ∧ (∃ mro, c3_linearize_classes sample_table 6%nat = Return mro) ∧
     ∃ a, ancestor sample_table 6%nat a ∧ inconsistent_bases sample_table a e)).
Proof.
  split; [vm_compute; reflexivity|].
  exact (class_order_correct sample_table 6%nat (sample_class [] [4%nat; 5%nat] [] (Some []) None) sample_wf eq_refl).
Defined.

(** ** Attributes *)

(** C23: Attribute look-up on a class, with its short cut for single
    inheritance, gives the first class of the method resolution order with the
    attribute; [super()] gives the first one after its class; and a class
    inherits the missing hash of a built-in container exactly when that comes
    first in the order. *)
Theorem attribute_lookup_follows_order {V} (t : ClassTable V) c attr mro :
  wf_classes t → primitives_have_base t → is_Some (classes t !! c) → class_mro_items t c = Return mro →
  (∃ o, first_definer t mro attr o ∧
    lookup_class_attr (class_fuel t) t c attr = Return (option_map snd o) ∧
    lookup_class_attr_owner (class_fuel t) t c attr = Return (option_map fst o)) ∧
  (∀ l1 k l2, mro = l1 ++ k :: l2 → ∃ o, super_lookup t k c attr = Return o ∧ first_definer t l2 attr o) ∧
  ∃ b, class_hash_inherits_builtin_none (class_fuel t) t c = Return b ∧ (b = true ↔ hash_is_none t mro).
Proof.
  intros Hwf Hp Hc Hm. pose proof (wf_ranked _ Hwf) as [rank Hr]. pose proof (class_fuel_enough t rank c Hr Hc) as Hfuel.
  destruct (mro_items_linearizes t rank c mro Hwf Hr Hc Hm) as (l & Hl & ->).
  pose proof (append_object_mro t c l Hwf (proj1 Hl)) as Hmro.
  assert (Hs : ∀ a, a ∈ append_object t l → is_Some (classes t !! a)) by (intros a Ha; apply (mro_lookup t rank c l a Hwf Hr Hc (proj1 Hl) Ha)).
  split; [|split].
  - destruct (first_owner_spec t (append_object t l) attr Hs) as (o & Ho & Hfirst). exists o. split; [done|].
    destruct (lookup_linearizes t rank attr (class_fuel t) c l Hwf Hp Hr Hc Hl Hfuel) as [-> ->]. by rewrite Ho.
  - intros l1 k l2 Heq. rewrite Heq in Hm, Hs, Hmro. apply (super_lookup_spec t k c attr l1 l2 Hm).
    + intros Hk. apply mro_nodup, NoDup_app in Hmro as (_ & Hn & _). by apply (Hn k Hk), elem_of_cons; left.
    + intros a Ha. apply Hs, elem_of_app. right. apply elem_of_cons. by right.
  - apply (hash_linearizes t rank); [done..|lia].
Qed.

Lemma attribute_lookup_follows_order_witness :
  let mro := [6%nat; 4%nat; 5%nat; 3%nat; 0%nat] in
  (∃ o, first_definer sample_table mro "f" o ∧
    lookup_class_attr (class_fuel sample_table) sample_table 6%nat "f" = Return (option_map snd o) ∧
    lookup_class_attr_owner (class_fuel sample_table) sample_table 6%nat "f" = Return (option_map fst o)) ∧
  (∀ l1 k l2, mro = l1 ++ k :: l2 → ∃ o, super_lookup sample_table k 6%nat "f" = Return o ∧ first_definer sample_table l2 "f" o) ∧
  ∃ b, class_hash_inherits_builtin_none (class_fuel sample_table) sample_table 6%nat = Return b ∧
    (b = true ↔ hash_is_none sample_table mro).
Proof.
  apply (attribute_lookup_follows_order sample_table 6%nat "f"); [exact sample_wf| |by eexists|vm_compute; reflexivity].
  intros c cls ->%list_elem_of_singleton [= <-]. by exists 0%nat.
Defined.

(** The look-up on metaclasses descends through the first base before it
    considers the second, and misses the override in a diamond. *)
Example metaclass_lookup_depth_first :
  lookup_user_metaclass_attr (class_fuel sample_table) sample_table 6%nat "f" = Return (Some 3%nat) ∧
  lookup_class_attr (class_fuel sample_table) sample_table 6%nat "f" = Return (Some 5%nat).
Proof. split; vm_compute; reflexivity. Qed.

(** ** Walks up the bases *)

(** The tests that walk up the bases return, and agree with the method
    resolution order: a subclass has the class in its order, a reassigned
    [__new__] is seen in every ancestor, and instances have no dictionary exactly
    when all classes below [object] have slots and none is named [__dict__]. *)
Theorem base_walks_correct {V} (t : ClassTable V) c mro :
  wf_classes t → is_Some (classes t !! c) → class_mro_items t c = Return mro →
  (∀ e, class_is_subclass_of (class_fuel t) t c e = Return (bool_decide (e ∈ mro))) ∧
  (∃ b, class_chain_new_slot_wrapped (class_fuel t) t c = Return b ∧
    (b = true ↔ ∃ a acls, ancestor t c a ∧ classes t !! a = Some acls ∧ new_slot_wrapped acls = true)) ∧
  (c ≠ object_class t →
    ∃ b, class_suppresses_instance_dict t c = Return b ∧
      (b = true ↔ ∀ a acls, a ∈ mro → a ≠ object_class t → classes t !! a = Some acls →
        ∃ names, slots acls = Some names ∧ "__dict__" ∉ names)).
Proof.
  intros Hwf Hc Hm. pose proof (wf_ranked _ Hwf) as [rank Hr]. pose proof (class_fuel_enough t rank c Hr Hc) as Hfuel.
  destruct (mro_items_linearizes t rank c mro Hwf Hr Hc Hm) as (l & Hl & ->).
  pose proof (append_object_mro t c l Hwf (proj1 Hl)) as Hmro. split; [|split].
  - intros e. destruct (subclass_spec t rank c e (class_fuel t) Hr Hc) as (b & -> & Hb); [lia|]. f_equal.
    rewrite <- (mro_members _ _ _ Hmro) in Hb. symmetry. case_bool_decide; destruct b; intuition congruence.
  - apply (new_slot_spec t rank); [done|done|lia].
  - intros Ho. destruct (suppresses_spec t rank c Hwf Hr Hc Ho) as (b & Hb & Hspec). exists b. split; [done|].
    rewrite Hspec. split; intros Hall a acls Ha; [|intros Hao Hacls].
    + intros Hao. apply Hall; [|done]. by apply (mro_members _ _ _ Hmro) in Ha as [?| ->].
    + apply (Hall a); [|done..]. apply (mro_members _ _ _ Hmro). by left.
Qed.

Lemma base_walks_correct_witness :
  let mro := [6%nat; 4%nat; 5%nat; 3%nat; 0%nat] in
  (∀ e, class_is_subclass_of (class_fuel sample_table) sample_table 6%nat e = Return (bool_decide (e ∈ mro))) ∧
  (∃ b, class_chain_new_slot_wrapped (class_fuel sample_table) sample_table 6%nat = Return b ∧
    (b = true ↔ ∃ a acls, ancestor sample_table 6%nat a ∧ classes sample_table !! a = Some acls ∧ new_slot_wrapped acls = true)) ∧
  (6%nat ≠ object_class sample_table →
    ∃ b, class_suppresses_instance_dict sample_table 6%nat = Return b ∧
      (b = true ↔ ∀ a acls, a ∈ mro → a ≠ object_class sample_table → classes sample_table !! a = Some acls →
        ∃ names, slots acls = Some names ∧ "__dict__" ∉ names)).
Proof.
  apply (base_walks_correct sample_table 6%nat); [exact sample_wf|by eexists|vm_compute; reflexivity].
Defined.
