(* ===== verification/Utf8.v ===== *)
(** Code points of UTF-8 byte strings
    (crates/pyrust-core/src/core/nanbox_strings.rs): their number, counted eight
    bytes at a time, and the byte offset of the one with a given index, by
    scanning or from sparse checkpoints.  Lone surrogates are encoded like other
    three-byte code points.

    Counting code points by words and finding their offsets, against the
    byte-by-byte definitions. *)

From S2P Require Import Outcome Prelude IntBytes.

(** ** Bytes *)

Definition STR_OFFSET_STRIDE : nat := 32.

Definition utf8_codepoint_width (first : Z) : nat :=
  if first <? 0x80 then 1 else if first <? 0xE0 then 2 else if first <? 0xF0 then 3 else 4.

(** Any byte but a continuation byte. *)
Definition is_start (byte : Z) : bool := negb (Z.land byte 0xC0 =? 0x80).

Definition utf8_codepoint_boundary (bytes : list Z) (index : nat) : bool :=
  (index =? 0)%nat || (index =? length bytes)%nat ||
  match bytes !! index with Some b => is_start b | None => false end.

(** ** Counting *)

Definition utf8_codepoint_count_scalar (bytes : list Z) : nat :=
  length (filter (λ byte, is_start byte = true) bytes).

Definition LOW_BITS : Z := 0x0101010101010101.

(** [!word] *)
Definition u64_not (word : Z) : Z := usize_max - word.

Definition utf8_start_markers (word : Z) : Z :=
  Z.land (Z.lor (Z.shiftr (u64_not word) 7) (Z.shiftr word 6)) LOW_BITS.

(** [word.count_ones()] *)
Definition count_ones (word : Z) : nat := length (filter (λ i, Z.testbit word (Z.of_nat i) = true) (seq 0 64)).

Definition utf8_starts_in_word (word : Z) : nat := count_ones (utf8_start_markers word).

Definition LOW_U16_LANES : Z := 0x0001000100010001.
Definition LOW_BYTES : Z := 0x00ff00ff00ff00ff.

Definition sum_u8_lanes (values : Z) : res Z :=
  pair_sum ← usize_add (Z.land values LOW_BYTES) (Z.land (Z.shiftr values 8) LOW_BYTES);
  Ok (Z.shiftr (wrapping_mul pair_sum LOW_U16_LANES) 48).

Definition CHUNK_WORDS : nat := 192.

(** [body.chunks(CHUNK_WORDS)] *)
Fixpoint chunks {A} (fuel size : nat) (l : list A) : list (list A) :=
  match fuel, l with
  | S fuel, _ :: _ => take size l :: chunks fuel size (drop size l)
  | _, _ => []
  end.

Definition count_chunk (total : Z) (chunk : list Z) : res Z :=
  lane_counts ← rfold (λ lane_counts word, usize_add lane_counts (utf8_start_markers word)) 0 chunk;
  lanes ← sum_u8_lanes lane_counts;
  usize_add total lanes.

(** [bytes.align_to::<u64>()]: a split that the standard library leaves open. *)
Class AlignTo := {
  align_to : list Z → list Z * list (list Z) * list Z;
}.

Class AlignToLaws `{AlignTo} : Prop := {
  align_to_split bytes head body tail :
    align_to bytes = (head, body, tail) → bytes = head ++ mjoin body ++ tail;
  align_to_words bytes head body tail :
    align_to bytes = (head, body, tail) → Forall (λ w, length w = 8%nat) body;
}.

Definition utf8_codepoint_count `{AlignTo} (bytes : list Z) : res Z :=
  let '(head, body, tail) := align_to bytes in
  total ← usize_add (Z.of_nat (utf8_codepoint_count_scalar head)) (Z.of_nat (utf8_codepoint_count_scalar tail));
  rfold count_chunk total (chunks (length body) CHUNK_WORDS (le_value <$> body)).

(** ** Offsets by scanning *)

(** The eight bytes at an offset, as a word. *)
Definition word_at (bytes : list Z) (offset : nat) : Z := le_value (take 8 (drop offset bytes)).

Fixpoint skip_words (fuel : nat) (bytes : list Z) (byte_offset remaining : nat) : res (nat * nat) :=
  match fuel with
  | O => Diverge
  | S fuel =>
      if (byte_offset + 8 <=? length bytes)%nat then
        let starts := utf8_starts_in_word (word_at bytes byte_offset) in
        if (remaining <? starts)%nat then Ok (byte_offset, remaining)
        else skip_words fuel bytes (byte_offset + 8) (remaining - starts)
      else Ok (byte_offset, remaining)
  end.

Fixpoint scan_forward (fuel : nat) (bytes : list Z) (byte_offset remaining : nat) : res nat :=
  match fuel with
  | O => Diverge
  | S fuel =>
      if (byte_offset <? length bytes)%nat then
        byte ← vnth bytes byte_offset;
        if is_start byte then
          if (remaining =? 0)%nat then Ok byte_offset else scan_forward fuel bytes (S byte_offset) (remaining - 1)
        else scan_forward fuel bytes (S byte_offset) remaining
      else
        _ ← rassert (remaining =? 0)%nat;
        Ok byte_offset
  end.

Fixpoint skip_words_back (fuel : nat) (bytes : list Z) (byte_offset remaining : nat) : res (nat * nat) :=
  match fuel with
  | O => Diverge
  | S fuel =>
      if (8 <=? byte_offset)%nat then
        let starts := utf8_starts_in_word (word_at bytes (byte_offset - 8)) in
        if (remaining <=? starts)%nat then Ok (byte_offset, remaining)
        else skip_words_back fuel bytes (byte_offset - 8) (remaining - starts)
      else Ok (byte_offset, remaining)
  end.

Fixpoint scan_back (bytes : list Z) (byte_offset remaining : nat) : res nat :=
  match remaining, byte_offset with
  | O, _ => Ok byte_offset
  | S _, O => Panic
  | S rest, S byte_offset =>
      byte ← vnth bytes byte_offset;
      scan_back bytes byte_offset (if is_start byte then rest else remaining)
  end.

Definition uncached_utf8_byte_offset (bytes : list Z) (index codepoint_len : nat) : res nat :=
  _ ← rassert (index <=? codepoint_len)%nat;
  if (index <=? codepoint_len - index)%nat then
    '(byte_offset, remaining) ← skip_words (S (length bytes)) bytes 0 index;
    scan_forward (S (length bytes)) bytes byte_offset remaining
  else
    '(byte_offset, remaining) ← skip_words_back (S (length bytes)) bytes (length bytes) (codepoint_len - index);
    scan_back bytes byte_offset remaining.

(** ** Offsets from checkpoints *)

Record StrUnicodeCache : Type := {
  codepoint_len : nat;
  checkpoints : list nat;
}.

(** [x as u32] for a [usize]. *)
Definition usize_as_u32 (x : nat) : nat := Z.to_nat (Z.of_nat x mod 2 ^ 32).

Fixpoint build_loop (fuel : nat) (bytes : list Z) (byte_offset len : nat) (points : list nat) : res StrUnicodeCache :=
  match fuel with
  | O => Diverge
  | S fuel =>
      if (byte_offset <? length bytes)%nat then
        let points := if (len mod STR_OFFSET_STRIDE =? 0)%nat then points ++ [usize_as_u32 byte_offset] else points in
        byte ← vnth bytes byte_offset;
        build_loop fuel bytes (byte_offset + utf8_codepoint_width byte) (S len) points
      else Ok {| codepoint_len := usize_as_u32 len; checkpoints := points |}
  end.

(** Each turn advances by a code point. *)
Definition cache_build (bytes : list Z) : res StrUnicodeCache := build_loop (S (length bytes)) bytes 0 0 [].

Fixpoint advance (fuel : nat) (bytes : list Z) (byte_offset codepoint index : nat) : res nat :=
  if (codepoint <? index)%nat then
    match fuel with
    | O => Diverge
    | S fuel =>
        byte ← vnth bytes byte_offset;
        advance fuel bytes (byte_offset + utf8_codepoint_width byte) (S codepoint) index
    end
  else Ok byte_offset.

Definition cache_byte_offset (self : StrUnicodeCache) (bytes : list Z) (index : nat) : res nat :=
  let len := codepoint_len self in
  _ ← rassert (index <=? len)%nat;
  if (index =? len)%nat then Ok (length bytes)
  else
    let checkpoint := (index / STR_OFFSET_STRIDE)%nat in
    byte_offset ← vnth (checkpoints self) checkpoint;
    advance STR_OFFSET_STRIDE bytes byte_offset (checkpoint * STR_OFFSET_STRIDE) index.

(** * Equivalence with the definitions by bytes *)


(** ** Words of bytes *)

Lemma byte_testbit_high b j : byte_range b → 8 ≤ j → Z.testbit b j = false.
Proof.
  intros [Hb0 Hb] Hj. rewrite <- (Z.mod_small b (2 ^ 8)) by lia. by apply Z.mod_pow2_bits_high.
Qed.

Lemma le_value_testbit_cons b bs j :
  byte_range b → 0 ≤ j → Z.testbit (le_value (b :: bs)) j = if j <? 8 then Z.testbit b j else Z.testbit (le_value bs) (j - 8).
Proof.
  intros [Hb0 Hb] Hj. cbn [le_value]. destruct (Z.ltb_spec j 8).
  - rewrite <- (Z.mod_pow2_bits_low _ 8) by lia. f_equal. change (2 ^ 8) with 256. rewrite (Z.mul_comm 256), Z.mod_add by lia.
    by apply Z.mod_small.
  - replace j with (j - 8 + 8) at 1 by lia. rewrite <- Z.div_pow2_bits by lia. f_equal. change (2 ^ 8) with 256.
    rewrite (Z.mul_comm 256), Z.div_add, (Z.div_small b) by lia. lia.
Qed.

Lemma le_value_testbit bs j :
  Forall byte_range bs → 0 ≤ j →
  Z.testbit (le_value bs) j = default false ((λ b, Z.testbit b (j mod 8)) <$> bs !! Z.to_nat (j / 8)).
Proof.
  intros Hbs. revert j. induction Hbs as [|b bs Hb _ IH]; intros j Hj; [by rewrite Z.testbit_0_l|].
  rewrite le_value_testbit_cons by done. destruct (Z.ltb_spec j 8).
  - by rewrite Z.mod_small, Z.div_small by lia.
  - rewrite IH by lia. replace (Z.to_nat (j / 8)) with (S (Z.to_nat ((j - 8) / 8))).
    + cbn [lookup list_lookup]. rewrite <- (Z.mod_add (j - 8) 1 8) by lia. by replace (j - 8 + 1 * 8) with j by lia.
    + rewrite <- Z2Nat.inj_succ by (apply Z.div_pos; lia). f_equal.
      rewrite <- (Z.add_1_r ((j - 8) / 8)), <- Z.div_add by lia. f_equal. lia.
Qed.

Lemma le_value_add xs ys : length xs = length ys → le_value xs + le_value ys = le_value (zip_with Z.add xs ys).
Proof.
  revert ys. induction xs as [|x xs IH]; intros [|y ys] Hlen; try done. injection Hlen as Hlen.
  cbn [zip_with le_value]. rewrite <- IH by done. lia.
Qed.

(** ** Markers *)

Definition mark (byte : Z) : Z := if is_start byte then 1 else 0.

Lemma mark_byte b : byte_range (mark b).
Proof. unfold mark, byte_range. destruct (is_start b); lia. Qed.

Lemma marks_bytes bs : Forall byte_range (mark <$> bs).
Proof. apply Forall_fmap, Forall_true. apply mark_byte. Qed.

Lemma is_start_bits b : byte_range b → is_start b = negb (Z.testbit b 7) || Z.testbit b 6.
Proof.
  intros Hb.
  assert (Hall : forallb (λ n : nat, let b := Z.of_nat n in
    Bool.eqb (is_start b) (negb (Z.testbit b 7) || Z.testbit b 6)) (seq 0 256) = true) by by vm_compute.
  rewrite forallb_forall in Hall. specialize (Hall (Z.to_nat b)). cbn beta zeta in Hall.
  destruct Hb. rewrite Z2Nat.id in Hall by done. apply eqb_prop, Hall, in_seq. lia.
Qed.

Lemma u64_not_testbit w j : 0 ≤ j < 64 → Z.testbit (u64_not w) j = negb (Z.testbit w j).
Proof.
  intros Hj. rewrite <- Z.lnot_spec by lia. rewrite <- (Z.mod_pow2_bits_low (Z.lnot w) 64), <- (Z.mod_pow2_bits_low (u64_not w) 64) by lia.
  f_equal. unfold u64_not, usize_max, two64, Z.lnot.
  replace (2 ^ 64 - 1 - w) with (Z.pred (- w) + 1 * 2 ^ 64) by lia. by rewrite Z.mod_add.
Qed.

Lemma low_bits_testbit j : 0 ≤ j → Z.testbit LOW_BITS j = (j mod 8 =? 0) && (j <? 64).
Proof.
  intros Hj. change LOW_BITS with (le_value (replicate 8 1)).
  rewrite le_value_testbit by (try done; repeat constructor; done).
  destruct (Z.ltb_spec j 64) as [Hlt|Hge].
  - rewrite lookup_replicate_2 by (apply Nat2Z.inj_lt; rewrite Z2Nat.id by (apply Z.div_pos; lia); apply Z.div_lt_upper_bound; lia).
    cbn. rewrite andb_true_r. pose proof (Z.mod_pos_bound j 8). destruct (Z.eqb_spec (j mod 8) 0) as [->|]; [done|].
    change 1 with (2 ^ 0). apply Z.pow2_bits_false. lia.
  - rewrite (proj1 (lookup_replicate_None 8 1 _)) by (apply Nat2Z.inj_le; rewrite Z2Nat.id by (apply Z.div_pos; lia); apply Z.div_le_lower_bound; lia).
    by rewrite andb_false_r.
Qed.

Lemma start_markers_eq bs :
  Forall byte_range bs → length bs = 8%nat → utf8_start_markers (le_value bs) = le_value (mark <$> bs).
Proof.
  intros Hbs Hlen. apply Z.bits_inj'. intros j Hj. unfold utf8_start_markers.
  rewrite Z.land_spec, Z.lor_spec, !Z.shiftr_spec, low_bits_testbit, (le_value_testbit (mark <$> bs)) by
    (done || apply marks_bytes).
  rewrite list_lookup_fmap. pose proof (Z.mod_pos_bound j 8 ltac:(lia)) as Hmod. pose proof (Z.div_mod j 8 ltac:(lia)) as Hdm.
  set (k := j / 8) in *. set (r := j mod 8) in *. assert (0 ≤ k) by (apply Z.div_pos; lia).
  destruct (Z.ltb_spec j 64) as [Hlt|Hge].
  - destruct (lookup_lt_is_Some_2 bs (Z.to_nat k)) as [b Hb]; [lia|]. pose proof (Forall_lookup_1 _ _ _ _ Hbs Hb) as Hrange.
    rewrite Hb. cbn [fmap option_fmap option_map default from_option]. rewrite andb_true_r.
    destruct (Z.eqb_spec r 0) as [Hr|Hr].
    + rewrite u64_not_testbit, !le_value_testbit by (try done; lia). rewrite Hr, andb_true_r.
      replace ((j + 7) mod 8) with 7 by (rewrite Hdm, Hr; Z.div_mod_to_equations; lia).
      replace ((j + 6) mod 8) with 6 by (rewrite Hdm, Hr; Z.div_mod_to_equations; lia).
      replace ((j + 7) / 8) with k by (rewrite Hdm, Hr; Z.div_mod_to_equations; lia).
      replace ((j + 6) / 8) with k by (rewrite Hdm, Hr; Z.div_mod_to_equations; lia).
      rewrite Hb. cbn [fmap option_fmap option_map default from_option id]. rewrite <- is_start_bits by done. unfold mark. by destruct (is_start b).
    + rewrite andb_false_r. symmetry. unfold mark. destruct (is_start b); [|apply Z.testbit_0_l].
      change 1 with (2 ^ 0). apply Z.pow2_bits_false. lia.
  - rewrite andb_false_r, andb_false_r, lookup_ge_None_2 by lia. done.
Qed.

Definition starts (bytes : list Z) : nat := utf8_codepoint_count_scalar bytes.

Lemma starts_nil : starts [] = 0%nat.
Proof. done. Qed.

Lemma starts_cons b bs : starts (b :: bs) = ((if is_start b then 1 else 0) + starts bs)%nat.
Proof. unfold starts, utf8_codepoint_count_scalar. rewrite filter_cons. destruct (is_start b); by case_decide. Qed.

Lemma starts_app bs1 bs2 : starts (bs1 ++ bs2) = (starts bs1 + starts bs2)%nat.
Proof. unfold starts, utf8_codepoint_count_scalar. by rewrite filter_app, length_app. Qed.

Lemma starts_le bs : (starts bs <= length bs)%nat.
Proof. apply length_filter. Qed.

Lemma starts_in_word_eq bs :
  Forall byte_range bs → length bs = 8%nat → utf8_starts_in_word (le_value bs) = starts bs.
Proof.
  intros Hbs Hlen. unfold utf8_starts_in_word. rewrite start_markers_eq by done.
  do 9 (destruct bs as [|? bs]; try discriminate Hlen). rewrite !starts_cons, starts_nil. cbn [fmap list_fmap]. unfold mark.
  by repeat match goal with |- context [is_start ?b] => destruct (is_start b) end; vm_compute.
Qed.

(** ** Lanes *)

Ltac solve_bytes := repeat first [apply Forall_nil_2 | apply Forall_cons_2]; unfold byte_range in *; lia.

Lemma land_byte_255 x : byte_range x → Z.land x 255 = x.
Proof. intros [Hx0 Hx]. change 255 with (Z.ones 8). rewrite Z.land_ones by lia. by apply Z.mod_small. Qed.

Lemma land_byte x y : byte_range x → byte_range (Z.land x y).
Proof.
  intros Hx. rewrite <- (land_byte_255 x), <- Z.land_assoc, (Z.land_comm 255), Z.land_assoc by done.
  change 255 with (Z.ones 8). rewrite Z.land_ones by lia. unfold byte_range. by apply Z.mod_pos_bound.
Qed.

Lemma le_value_land xs ys :
  Forall byte_range xs → Forall byte_range ys → length xs = length ys →
  Z.land (le_value xs) (le_value ys) = le_value (zip_with Z.land xs ys).
Proof.
  intros Hxs Hys Hlen.
  assert (Hzip : Forall byte_range (zip_with Z.land xs ys)).
  { apply Forall_zip_with_fst with (P := byte_range); [done|]. eapply Forall_impl; [exact Hys|].
    intros y _ x Hx. by apply land_byte. }
  apply Z.bits_inj'. intros j Hj. rewrite Z.land_spec, !le_value_testbit, lookup_zip_with by done.
  destruct (xs !! Z.to_nat (j / 8)) as [x|] eqn:Hx.
  - destruct (lookup_lt_is_Some_2 ys (Z.to_nat (j / 8))) as [y Hy].
    { rewrite <- Hlen. by apply lookup_lt_Some in Hx. }
    rewrite Hy. cbn [fmap option_fmap option_map default from_option mbind option_bind id]. by rewrite Z.land_spec.
  - done.
Qed.

Lemma le_value_shiftr b bs : byte_range b → Z.shiftr (le_value (b :: bs)) 8 = le_value bs.
Proof.
  intros [Hb0 Hb]. rewrite Z.shiftr_div_pow2 by lia. change (2 ^ 8) with 256. cbn [le_value].
  rewrite (Z.mul_comm 256), Z.div_add, (Z.div_small b) by lia. lia.
Qed.

Definition lane_sum (lanes : list Z) : Z := foldr Z.add 0 lanes.

Lemma low_bytes_land x0 x1 x2 x3 x4 x5 x6 x7 :
  Forall byte_range [x0; x1; x2; x3; x4; x5; x6; x7] →
  Z.land (le_value [x0; x1; x2; x3; x4; x5; x6; x7]) LOW_BYTES = le_value [x0; 0; x2; 0; x4; 0; x6; 0].
Proof.
  intros Hx. change LOW_BYTES with (le_value [255; 0; 255; 0; 255; 0; 255; 0]).
  rewrite le_value_land by (done || solve_bytes).
  decompose_Forall_hyps. cbn [zip_with]. by rewrite !Z.land_0_r, !land_byte_255.
Qed.

(** Multiplying by ones in every lane puts the sum of the lanes in the top one. *)
Lemma lane_product a b c d :
  0 ≤ a < 2 ^ 9 → 0 ≤ b < 2 ^ 9 → 0 ≤ c < 2 ^ 9 → 0 ≤ d < 2 ^ 9 →
  Z.shiftr (wrapping_mul (a + 2 ^ 16 * b + 2 ^ 32 * c + 2 ^ 48 * d) LOW_U16_LANES) 48 = a + b + c + d.
Proof.
  intros. unfold wrapping_mul, as_u64, two64, LOW_U16_LANES. rewrite Z.shiftr_div_pow2 by lia.
  rewrite <- (Z.mod_unique_pos _ (2 ^ 64) (b + c + d + 2 ^ 16 * (c + d) + 2 ^ 32 * d)
    (a + 2 ^ 16 * (a + b) + 2 ^ 32 * (a + b + c) + 2 ^ 48 * (a + b + c + d))) by lia.
  symmetry. apply Z.div_unique_pos with (a + 2 ^ 16 * (a + b) + 2 ^ 32 * (a + b + c)); lia.
Qed.

Lemma sum_u8_lanes_eq lanes :
  length lanes = 8%nat → Forall byte_range lanes → sum_u8_lanes (le_value lanes) = Ok (lane_sum lanes).
Proof.
  intros Hlen Hl. do 9 (destruct lanes as [|? lanes]; try discriminate Hlen). unfold sum_u8_lanes.
  rewrite low_bytes_land, le_value_shiftr by (done || by inversion Hl).
  match goal with |- context [Z.land (le_value ?l) LOW_BYTES] => change (le_value l) with (le_value (l ++ [0])) end.
  cbn [app]. rewrite low_bytes_land by (decompose_Forall_hyps; solve_bytes).
  unfold byte_range in Hl. decompose_Forall_hyps.
  rewrite usize_add_ok by (unfold two64; lia). cbn [mbind res_bind]. f_equal.
  transitivity (z + z0 + (z1 + z2) + (z3 + z4) + (z5 + z6)); [|lia]. rewrite <- lane_product by lia. do 2 f_equal. lia.
Qed.

(** ** Counting *)

Lemma lane_sum_zip xs ys : length xs = length ys → lane_sum (zip_with Z.add xs ys) = lane_sum xs + lane_sum ys.
Proof.
  unfold lane_sum. revert ys. induction xs as [|x xs IH]; intros [|y ys] Hlen; try done. injection Hlen as Hlen.
  cbn. rewrite IH by done. lia.
Qed.

Lemma lane_sum_marks bs : lane_sum (mark <$> bs) = Z.of_nat (starts bs).
Proof. unfold lane_sum. induction bs as [|b bs IH]; [done|]. rewrite starts_cons. cbn. rewrite IH. unfold mark. destruct (is_start b); lia. Qed.

(** Eight lanes that hold the starts of the words read so far. *)
Definition lanes_of (words : list (list Z)) (lanes : Z) : Prop :=
  ∃ ls, lanes = le_value ls ∧ length ls = 8%nat ∧ Forall (λ x, 0 ≤ x ≤ Z.of_nat (length words)) ls ∧
    lane_sum ls = Z.of_nat (starts (mjoin words)).

Definition words_wf (words : list (list Z)) : Prop := Forall (λ w, length w = 8%nat ∧ Forall byte_range w) words.

Lemma lanes_step words w lanes :
  (length words < 192)%nat → length w = 8%nat → Forall byte_range w → lanes_of words lanes →
  ∃ lanes', usize_add lanes (utf8_start_markers (le_value w)) = Ok lanes' ∧ lanes_of (words ++ [w]) lanes'.
Proof.
  intros Hn Hlen Hw (ls & -> & Hls & Hrange & Hsum). rewrite start_markers_eq by done.
  assert (Hrange' : Forall (λ x, 0 ≤ x ≤ Z.of_nat (length (words ++ [w]))) (zip_with Z.add ls (mark <$> w))).
  { apply Forall_zip_with_fst with (P := λ x, 0 ≤ x ≤ Z.of_nat (length words)); [done|]. apply Forall_fmap, Forall_true.
    intros b x Hx. rewrite length_app. cbn. unfold mark. destruct (is_start b); lia. }
  assert (Hzip : length ls = length (mark <$> w)) by by rewrite length_fmap, Hls.
  exists (le_value (zip_with Z.add ls (mark <$> w))). rewrite <- le_value_add by done. split.
  - apply usize_add_ok. rewrite le_value_add by done.
    eapply Z.lt_le_trans; [apply le_value_range|].
    + eapply Forall_impl; [exact Hrange'|]. rewrite length_app. cbn. unfold byte_range. lia.
    + unfold vlen. by rewrite length_zip_with_l_eq, Hls.
  - rewrite le_value_add by done. exists (zip_with Z.add ls (mark <$> w)). split_and!; try done.
    + by rewrite length_zip_with_l_eq.
    + rewrite lane_sum_zip, lane_sum_marks, join_app, starts_app by done.
      replace (mjoin [w]) with w by (cbn; by rewrite app_nil_r). rewrite Hsum. lia.
Qed.

Lemma lanes_fold words :
  words_wf words → (length words <= 192)%nat →
  ∃ lanes, rfold (λ lane_counts word, usize_add lane_counts (utf8_start_markers word)) 0 (le_value <$> words) = Ok lanes ∧
    lanes_of words lanes.
Proof.
  intros Hwf. induction words as [|w words IH] using rev_ind; intros Hlen.
  - exists 0. split; [done|]. exists (replicate 8 0). split_and!; try done. repeat constructor; done.
  - apply Forall_app in Hwf as [Hwf [[Hw Hb] _]%Forall_cons]. rewrite length_app in Hlen. cbn in Hlen.
    destruct (IH Hwf ltac:(lia)) as (lanes & Hfold & Hof).
    destruct (lanes_step words w lanes) as (lanes' & Hadd & Hof'); [lia|done..|].
    exists lanes'. split; [|done]. rewrite fmap_app, rfold_app, Hfold. cbn. by rewrite Hadd.
Qed.

Lemma count_chunk_eq total words :
  words_wf words → (length words <= 192)%nat → total + Z.of_nat (starts (mjoin words)) < two64 →
  count_chunk total (le_value <$> words) = Ok (total + Z.of_nat (starts (mjoin words))).
Proof.
  intros Hwf Hlen Htotal. unfold count_chunk. destruct (lanes_fold words Hwf Hlen) as (lanes & -> & ls & -> & Hls & Hrange & Hsum).
  cbn [mbind res_bind]. rewrite sum_u8_lanes_eq; [|done|].
  - cbn [mbind res_bind]. by rewrite Hsum, usize_add_ok.
  - eapply Forall_impl; [exact Hrange|]. unfold byte_range. cbn. lia.
Qed.

Lemma chunks_fold words total fuel :
  words_wf words → (length words <= fuel)%nat → total + Z.of_nat (starts (mjoin words)) < two64 →
  rfold count_chunk total (chunks fuel CHUNK_WORDS (le_value <$> words)) = Ok (total + Z.of_nat (starts (mjoin words))).
Proof.
  revert words total. induction fuel as [|fuel IH]; intros [|w words] total Hwf Hlen Htotal; cbn [chunks fmap list_fmap];
    [by cbn; f_equal; lia|cbn in Hlen; lia|by cbn; f_equal; lia|].
  change (le_value w :: (le_value <$> words)) with (le_value <$> (w :: words)).
  set (ws := w :: words) in *.
  assert (Hsplit : starts (mjoin ws) = (starts (mjoin (take CHUNK_WORDS ws)) + starts (mjoin (drop CHUNK_WORDS ws)))%nat)
    by by rewrite <- starts_app, <- join_app, take_drop.
  rewrite <- fmap_take, <- fmap_drop. cbn [rfold].
  rewrite count_chunk_eq; [|by apply Forall_take|rewrite length_take; unfold CHUNK_WORDS; lia|lia].
  cbn [mbind res_bind]. rewrite IH; [f_equal; lia|by apply Forall_drop| |lia].
  rewrite length_drop. unfold ws in Hlen |- *. unfold CHUNK_WORDS. cbn [length] in *. lia.
Qed.

Lemma mjoin_words_bytes words : Forall (λ w, length w = 8%nat) words → Forall byte_range (mjoin words) → words_wf words.
Proof.
  induction words as [|w words IH]; intros Hlen Hb; [by constructor|]. apply Forall_cons in Hlen as [Hw Hlen].
  cbn in Hb. apply Forall_app in Hb as [Hbw Hb]. constructor; [done|]. by apply IH.
Qed.

Lemma codepoint_count_eq `{AlignTo, !AlignToLaws} bytes :
  Forall byte_range bytes → Z.of_nat (length bytes) < two64 →
  utf8_codepoint_count bytes = Ok (Z.of_nat (utf8_codepoint_count_scalar bytes)).
Proof.
  intros Hb Hlen. unfold utf8_codepoint_count. destruct (align_to bytes) as [[head body] tail] eqn:Halign.
  pose proof (align_to_split _ _ _ _ Halign) as ->. pose proof (align_to_words _ _ _ _ Halign) as Hwords.
  rewrite !Forall_app in Hb. destruct Hb as (Hbh & Hbb & Hbt). pose proof (starts_le (head ++ mjoin body ++ tail)) as Hle.
  change utf8_codepoint_count_scalar with starts in *. rewrite !starts_app in Hle |- *.
  rewrite usize_add_ok by lia. cbn [mbind res_bind].
  rewrite chunks_fold; [f_equal; lia|by apply mjoin_words_bytes|done|lia].
Qed.

(** ** Offsets *)

(** The position of the [i]-th start byte, or the length where there are only
    [i] of them. *)
Fixpoint offset_of (bytes : list Z) (i : nat) : nat :=
  match bytes with
  | [] => 0
  | b :: bytes => if is_start b then match i with O => 0 | S i => S (offset_of bytes i) end else S (offset_of bytes i)
  end.

Lemma offset_of_le bytes i : (offset_of bytes i <= length bytes)%nat.
Proof.
  revert i. induction bytes as [|b bytes IH]; intros i; cbn; [lia|].
  pose proof (IH i). pose proof (IH (pred i)). destruct (is_start b), i; cbn in *; lia.
Qed.

Lemma offset_of_app bs1 bs2 i :
  offset_of (bs1 ++ bs2) i =
    if (i <? starts bs1)%nat then offset_of bs1 i else (length bs1 + offset_of bs2 (i - starts bs1))%nat.
Proof.
  revert i. induction bs1 as [|b bs1 IH]; intros i; [by rewrite Nat.sub_0_r|].
  rewrite starts_cons. cbn [app offset_of length].
  destruct (is_start b); [destruct i as [|i]|]; rewrite ?IH; try done.
  - change (S i <? 1 + starts bs1)%nat with (i <? starts bs1)%nat. cbn [Nat.sub Nat.add]. by destruct (i <? starts bs1)%nat.
  - cbn [Nat.add]. by destruct (i <? starts bs1)%nat.
Qed.

Lemma offset_of_split bytes off i :
  (off <= length bytes)%nat → (starts (take off bytes) <= i)%nat →
  offset_of bytes i = (off + offset_of (drop off bytes) (i - starts (take off bytes)))%nat.
Proof.
  intros Hoff Hi. rewrite <- (take_drop off bytes) at 1. rewrite offset_of_app.
  destruct (Nat.ltb_spec i (starts (take off bytes))); [lia|]. by rewrite length_take_le.
Qed.

Lemma offset_of_starts bytes : offset_of bytes (starts bytes) = length bytes.
Proof.
  induction bytes as [|b bytes IH]; [done|]. rewrite starts_cons. cbn [offset_of length].
  destruct (is_start b); cbn [Nat.add]; by rewrite IH.
Qed.

Lemma starts_take_drop off bytes : (starts (take off bytes) + starts (drop off bytes))%nat = starts bytes.
Proof. by rewrite <- starts_app, take_drop. Qed.

Lemma starts_take_word bytes off :
  Forall byte_range bytes → (off + 8 <= length bytes)%nat →
  utf8_starts_in_word (word_at bytes off) = starts (take 8 (drop off bytes)) ∧
  starts (take (off + 8) bytes) = (starts (take off bytes) + utf8_starts_in_word (word_at bytes off))%nat.
Proof.
  intros Hb Hoff. assert (Hw : utf8_starts_in_word (word_at bytes off) = starts (take 8 (drop off bytes))).
  { apply starts_in_word_eq; [by apply Forall_take, Forall_drop|]. rewrite length_take, length_drop. lia. }
  split; [done|]. rewrite Hw, <- starts_app. f_equal. by rewrite take_take_drop.
Qed.

Lemma starts_take_S bytes off b :
  bytes !! off = Some b → starts (take (S off) bytes) = (starts (take off bytes) + if is_start b then 1 else 0)%nat.
Proof. intros Hb. erewrite take_S_r by done. rewrite starts_app, starts_cons, starts_nil. lia. Qed.

(** *** Forwards *)

(** [remaining] starts lie between an offset and the one looked for. *)
Definition before (bytes : list Z) (index off remaining : nat) : Prop :=
  (off <= length bytes)%nat ∧ (starts (take off bytes) + remaining)%nat = index.

Lemma skip_words_spec fuel bytes index off remaining :
  Forall byte_range bytes → (length bytes < off + fuel)%nat → before bytes index off remaining →
  ∃ off' remaining', skip_words fuel bytes off remaining = Ok (off', remaining') ∧ before bytes index off' remaining' ∧
    (off <= off')%nat.
Proof.
  intros Hb. revert off remaining. induction fuel as [|fuel IH]; intros off remaining Hfuel [Hoff Hrem]; [lia|].
  cbn [skip_words]. destruct (Nat.leb_spec (off + 8) (length bytes)) as [Hle|]; [|by exists off, remaining].
  destruct (starts_take_word bytes off Hb Hle) as [_ Hnext].
  destruct (Nat.ltb_spec remaining (utf8_starts_in_word (word_at bytes off))); [by exists off, remaining|].
  destruct (IH (off + 8)%nat (remaining - utf8_starts_in_word (word_at bytes off))%nat) as (off' & r' & -> & Hb' & Hge);
    [lia|split; lia|]. exists off', r'. split_and!; [done..|lia].
Qed.

Lemma scan_forward_spec fuel bytes index off remaining :
  (length bytes < off + fuel)%nat → (index <= starts bytes)%nat → before bytes index off remaining →
  scan_forward fuel bytes off remaining = Ok (offset_of bytes index).
Proof.
  revert off remaining. induction fuel as [|fuel IH]; intros off remaining Hfuel Hindex [Hoff Hrem]; [lia|].
  cbn [scan_forward]. destruct (Nat.ltb_spec off (length bytes)) as [Hlt|Hge].
  - destruct (lookup_lt_is_Some_2 bytes off Hlt) as [b Hb]. rewrite (vnth_lookup _ _ _ Hb). cbn [mbind res_bind].
    pose proof (starts_take_S _ _ _ Hb) as HS.
    destruct (is_start b) eqn:Hstart; [destruct (Nat.eqb_spec remaining 0) as [->|]|].
    + rewrite (offset_of_split bytes off index) by lia. rewrite (drop_S _ _ _ Hb). cbn [offset_of]. rewrite Hstart.
      replace (index - starts (take off bytes))%nat with 0%nat by lia. f_equal. lia.
    + apply IH; [lia..|split; lia].
    + apply IH; [lia..|split; lia].
  - assert (off = length bytes) as -> by lia. rewrite firstn_all in Hrem.
    assert (remaining = 0)%nat as -> by lia. cbn [rassert Nat.eqb mbind res_bind]. f_equal.
    rewrite (offset_of_split bytes (length bytes) index) by (rewrite ?firstn_all; lia). rewrite drop_all. cbn. lia.
Qed.

(** *** Backwards *)

(** [remaining] starts lie between the one looked for and an offset. *)
Definition behind (bytes : list Z) (index off remaining : nat) : Prop :=
  (off <= length bytes)%nat ∧ (index + remaining)%nat = starts (take off bytes).

Lemma skip_words_back_spec fuel bytes index off remaining :
  Forall byte_range bytes → (off < fuel)%nat → (0 < remaining)%nat → behind bytes index off remaining →
  ∃ off' remaining', skip_words_back fuel bytes off remaining = Ok (off', remaining') ∧ behind bytes index off' remaining' ∧
    (0 < remaining')%nat.
Proof.
  intros Hb. revert off remaining. induction fuel as [|fuel IH]; intros off remaining Hfuel Hpos [Hoff Hrem]; [lia|].
  cbn [skip_words_back]. destruct (Nat.leb_spec 8 off) as [Hle|]; [|by exists off, remaining].
  destruct (starts_take_word bytes (off - 8) Hb ltac:(lia)) as [_ Hnext]. rewrite Nat.sub_add in Hnext by done.
  destruct (Nat.leb_spec remaining (utf8_starts_in_word (word_at bytes (off - 8)))); [by exists off, remaining|].
  destruct (IH (off - 8)%nat (remaining - utf8_starts_in_word (word_at bytes (off - 8)))%nat) as (off' & r' & -> & Hb' & Hge);
    [lia|lia|split; lia|]. by exists off', r'.
Qed.

Lemma scan_back_spec bytes index off remaining :
  (0 < remaining)%nat → behind bytes index off remaining → scan_back bytes off remaining = Ok (offset_of bytes index).
Proof.
  revert remaining. induction off as [|off IH]; intros remaining Hpos [Hoff Hrem]; [change (take 0 bytes) with (@nil Z) in Hrem; rewrite starts_nil in Hrem; lia|].
  destruct remaining as [|rest]; [lia|]. cbn [scan_back].
  destruct (lookup_lt_is_Some_2 bytes off Hoff) as [b Hb]. rewrite (vnth_lookup _ _ _ Hb). cbn [mbind res_bind].
  pose proof (starts_take_S _ _ _ Hb) as HS.
  destruct (is_start b) eqn:Hstart; [destruct rest as [|rest]|].
  - replace (scan_back bytes off 0) with (Ok off) by by destruct off. f_equal.
    rewrite (offset_of_split bytes off index), (drop_S _ _ _ Hb) by lia. cbn [offset_of]. rewrite Hstart.
    replace (index - starts (take off bytes))%nat with 0%nat by lia. lia.
  - apply IH; [lia|split; lia].
  - apply IH; [lia|split; lia].
Qed.

(** [uncached_utf8_byte_offset] finds the code point from either end. *)
Lemma uncached_offset_eq bytes index :
  Forall byte_range bytes → (index <= starts bytes)%nat →
  uncached_utf8_byte_offset bytes index (starts bytes) = Ok (offset_of bytes index).
Proof.
  intros Hb Hi. unfold uncached_utf8_byte_offset. rewrite rassert_true by by apply Nat.leb_le. cbn [mbind res_bind].
  destruct (Nat.leb_spec index (starts bytes - index)).
  - destruct (skip_words_spec (S (length bytes)) bytes index 0 index) as (off & r & -> & Hbefore & _); [done|lia|split; [lia|done]|].
    cbn [mbind res_bind]. apply scan_forward_spec; [lia|done|done].
  - destruct (decide (index = starts bytes)) as [->|Hne].
    { rewrite Nat.sub_diag, offset_of_starts. unfold skip_words_back. fold skip_words_back.
      destruct (8 <=? length bytes)%nat; cbn [Nat.leb mbind res_bind]; by destruct (length bytes). }
    destruct (skip_words_back_spec (S (length bytes)) bytes index (length bytes) (starts bytes - index)) as (off & r & -> & Hbehind & Hpos);
      [done|lia|lia|split; [done|rewrite firstn_all; lia]|].
    cbn [mbind res_bind]. by apply scan_back_spec.
Qed.

(** *** From checkpoints *)

(** The bytes of one code point: a start byte and as many continuation bytes as
    it announces. *)
Definition codepoint (c : list Z) : Prop :=
  ∃ b rest, c = b :: rest ∧ is_start b = true ∧ Forall (λ b, is_start b = false) rest ∧ utf8_codepoint_width b = length c.

(** A string of whole code points. *)
Definition encodes (cs : list (list Z)) (bytes : list Z) : Prop := Forall codepoint cs ∧ bytes = mjoin cs.

Definition position (cs : list (list Z)) (k : nat) : nat := length (mjoin (take k cs)).

Lemma starts_codepoint c : codepoint c → starts c = 1%nat.
Proof.
  intros (b & rest & -> & Hb & Hrest & _). rewrite starts_cons, Hb. f_equal.
  induction Hrest as [|x l Hx _ IH]; [done|]. by rewrite starts_cons, Hx.
Qed.

Lemma codepoint_nonempty c : codepoint c → (0 < length c)%nat.
Proof. intros (b & rest & -> & _). cbn. lia. Qed.

Lemma starts_codepoints cs : Forall codepoint cs → starts (mjoin cs) = length cs.
Proof. induction 1 as [|c cs Hc _ IH]; [done|]. change (mjoin (c :: cs)) with (c ++ mjoin cs). by rewrite starts_app, starts_codepoint, IH. Qed.

Lemma position_S cs k c : cs !! k = Some c → position cs (S k) = (position cs k + length c)%nat.
Proof. intros Hc. unfold position. erewrite take_S_r by done. rewrite join_app, length_app. cbn. by rewrite app_nil_r. Qed.

Lemma position_all cs k : (length cs <= k)%nat → position cs k = length (mjoin cs).
Proof. intros Hk. unfold position. by rewrite take_ge. Qed.

Lemma position_split (cs : list (list Z)) k : mjoin cs = mjoin (take k cs) ++ mjoin (drop k cs).
Proof. by rewrite <- join_app, take_drop. Qed.

Lemma position_le cs k : (position cs k <= length (mjoin cs))%nat.
Proof. unfold position. rewrite (position_split cs k), length_app. lia. Qed.

(** Where the [k]-th code point starts, there is its first byte. *)
Lemma position_lookup cs k c :
  Forall codepoint cs → cs !! k = Some c →
  ∃ b, mjoin cs !! position cs k = Some b ∧ is_start b = true ∧ utf8_codepoint_width b = length c ∧
    (position cs k < length (mjoin cs))%nat.
Proof.
  intros Hcs Hc. destruct (Forall_lookup_1 _ _ _ _ Hcs Hc) as (b & rest & Heq & Hb & _ & Hw). exists b.
  enough (mjoin cs !! position cs k = Some b) as Hl by (split_and!; [done..|by eapply lookup_lt_Some]).
  unfold position. rewrite (position_split cs k), lookup_app_r, Nat.sub_diag, (drop_S _ _ _ Hc) by done. by rewrite Heq.
Qed.

Lemma offset_of_position cs k : Forall codepoint cs → (k <= length cs)%nat → offset_of (mjoin cs) k = position cs k.
Proof.
  intros Hcs Hk. destruct (decide (k = length cs)) as [->|Hne].
  - rewrite position_all by done. rewrite <- starts_codepoints by done. apply offset_of_starts.
  - destruct (lookup_lt_is_Some_2 cs k) as [c Hc]; [lia|]. rewrite (position_split cs k).
    rewrite offset_of_app, starts_codepoints by by apply Forall_take.
    rewrite length_take, Nat.min_l, Nat.ltb_irrefl, Nat.sub_diag by lia.
    rewrite (drop_S _ _ _ Hc). destruct (Forall_lookup_1 _ _ _ _ Hcs Hc) as (b & rest & -> & Hb & _). cbn. rewrite Hb.
    unfold position. lia.
Qed.

Lemma usize_as_u32_small n : Z.of_nat n < 2 ^ 32 → usize_as_u32 n = n.
Proof. intros Hn. unfold usize_as_u32. rewrite Z.mod_small by lia. lia. Qed.

(** One checkpoint for every [STR_OFFSET_STRIDE] code points read. *)
Definition checkpoints_ok (cs : list (list Z)) (len : nat) (points : list nat) : Prop :=
  (length points * STR_OFFSET_STRIDE < len + STR_OFFSET_STRIDE)%nat ∧
  ∀ j, (j * STR_OFFSET_STRIDE < len)%nat → points !! j = Some (position cs (j * STR_OFFSET_STRIDE)).

Lemma checkpoints_step cs len points :
  Z.of_nat (position cs len) < 2 ^ 32 → checkpoints_ok cs len points →
  checkpoints_ok cs (S len)
    (if (len mod STR_OFFSET_STRIDE =? 0)%nat then points ++ [usize_as_u32 (position cs len)] else points).
Proof.
  intros Hsmall [Hlen Hpoints]. unfold checkpoints_ok, STR_OFFSET_STRIDE in *.
  pose proof (Nat.div_mod len 32 ltac:(lia)) as Hdm. pose proof (Nat.mod_upper_bound len 32 ltac:(lia)).
  destruct (Nat.eqb_spec (len mod 32) 0) as [H0|H0].
  - assert (length points = len / 32)%nat as Hn.
    { destruct (decide (len / 32 = 0)%nat) as [Hz|]; [lia|].
      pose proof (Hpoints (len / 32 - 1)%nat ltac:(lia)) as Hl%lookup_lt_Some. lia. }
    rewrite length_app, usize_as_u32_small by done. cbn [length]. split; [lia|]. intros j Hj.
    destruct (decide (j * 32 = len)%nat) as [Hjl|].
    + rewrite lookup_app_r by lia. replace (j - length points)%nat with 0%nat by lia. cbn. by rewrite Hjl.
    + rewrite lookup_app_l by lia. apply Hpoints. lia.
  - split; [lia|]. intros j Hj. apply Hpoints. enough (j * 32 ≠ len)%nat by lia. intros <-. by rewrite Nat.Div0.mod_mul in H0.
Qed.

Lemma build_loop_spec fuel cs k points :
  Forall codepoint cs → Z.of_nat (length (mjoin cs)) < 2 ^ 32 → (k <= length cs)%nat →
  (length (mjoin cs) < position cs k + fuel)%nat → checkpoints_ok cs k points →
  ∃ points', build_loop fuel (mjoin cs) (position cs k) k points =
      Ok {| codepoint_len := length cs; checkpoints := points' |} ∧
    checkpoints_ok cs (length cs) points'.
Proof.
  intros Hcs Hsmall. revert k points. induction fuel as [|fuel IH]; intros k points Hk Hfuel Hpoints; [pose proof (position_le cs k); lia|].
  cbn [build_loop]. destruct (decide (k = length cs)) as [->|Hne].
  - rewrite position_all, Nat.ltb_irrefl by done. exists points. split; [|done]. rewrite usize_as_u32_small; [done|].
    rewrite <- starts_codepoints by done. pose proof (starts_le (mjoin cs)). lia.
  - destruct (lookup_lt_is_Some_2 cs k) as [c Hc]; [lia|].
    destruct (position_lookup cs k c Hcs Hc) as (b & Hb & Hstart & Hw & Hlt).
    destruct (Nat.ltb_spec (position cs k) (length (mjoin cs))); [|lia]. rewrite (vnth_lookup _ _ _ Hb).
    cbn [mbind res_bind]. pose proof (position_S _ _ _ Hc) as HS. rewrite Hw, <- HS.
    pose proof (codepoint_nonempty c (Forall_lookup_1 _ _ _ _ Hcs Hc)).
    apply IH; [lia..|]. apply checkpoints_step; [lia|done].
Qed.

Lemma advance_spec fuel cs k index :
  Forall codepoint cs → (k <= index)%nat → (index <= length cs)%nat → (index - k <= fuel)%nat →
  advance fuel (mjoin cs) (position cs k) k index = Ok (position cs index).
Proof.
  intros Hcs. revert k. induction fuel as [|fuel IH]; intros k Hk Hindex Hfuel; cbn [advance].
  - assert (k = index) as -> by lia. by rewrite Nat.ltb_irrefl.
  - destruct (Nat.ltb_spec k index) as [Hlt|]; [|by assert (k = index) as -> by lia].
    destruct (lookup_lt_is_Some_2 cs k) as [c Hc]; [lia|].
    destruct (position_lookup cs k c Hcs Hc) as (b & Hb & _ & Hw & _). rewrite (vnth_lookup _ _ _ Hb).
    cbn [mbind res_bind]. rewrite Hw, <- (position_S _ _ _ Hc). apply IH; lia.
Qed.

(** A cache of a string answers as counting from its start would. *)
Definition cache_of (bytes : list Z) (cache : StrUnicodeCache) : Prop :=
  codepoint_len cache = starts bytes ∧
  ∀ index, (index <= starts bytes)%nat → cache_byte_offset cache bytes index = Ok (offset_of bytes index).

Lemma cache_build_spec cs bytes :
  encodes cs bytes → Z.of_nat (length bytes) < 2 ^ 32 → ∃ cache, cache_build bytes = Ok cache ∧ cache_of bytes cache.
Proof.
  intros [Hcs ->] Hsmall. destruct (build_loop_spec (S (length (mjoin cs))) cs 0 []) as (points & Hbuild & _ & Hpoints); [done|done|lia|lia| |].
  { split; [unfold STR_OFFSET_STRIDE; cbn [length]; lia|]. intros j Hj. lia. }
  eexists. split; [exact Hbuild|]. unfold cache_of. rewrite starts_codepoints by done. split; [done|]. intros index Hindex.
  unfold cache_byte_offset. cbn [codepoint_len checkpoints]. rewrite rassert_true by by apply Nat.leb_le. cbn [mbind res_bind].
  rewrite offset_of_position by done. destruct (Nat.eqb_spec index (length cs)) as [->|Hne]; [by rewrite position_all|].
  unfold STR_OFFSET_STRIDE in *.
  pose proof (Nat.div_mod index 32 ltac:(done)) as Hdm. pose proof (Nat.mod_upper_bound index 32 ltac:(done)) as Hmod.
  rewrite (vnth_lookup _ _ _ (Hpoints (index / 32)%nat ltac:(lia))). cbn [mbind res_bind].
  apply advance_spec; [done|lia..].
Qed.
