(* ===== verification/NanBox.v ===== *)
(** The one-word representation of values
    (crates/pyrust-core/src/core/nanbox_strings.rs, nanbox_pointers.rs,
    value_constructors.rs, value_access.rs, value_conversion.rs): floats as
    themselves, everything else in the payload of a negative NaN.  A value is
    its 64 bits; what a heap pointer in it leads to is in StrHeap.v.

    What the one-word representation promises: constructors and [kind] are
    inverse, so no two kinds of value share a word, and every boxed NaN is a
    word of its own. *)

From S2P Require Import Outcome Prelude Double Keys IntBytes.

(** ** Tags *)

Definition PAYLOAD_MASK : Z := 0x0000FFFFFFFFFFFF.
Definition INT_SIGN_BIT : Z := Z.shiftl 1 47.
Definition CANONICAL_NAN : Z := 0x7FF8000000000000.

Definition TAG_NONE_BITS : Z := 0xFFF9000000000000.
Definition UNSET_BITS : Z := 0x7FF800000000BAD0.
Definition NOT_IMPLEMENTED_BITS : Z := 0x7FF800000000BAD2.
Definition ELLIPSIS_BITS : Z := 0x7FF800000000BAD4.
Definition NAN_IDENTITY_BIT : Z := Z.shiftl 1 47.
Definition NAN_IDENTITY_MASK : Z := NAN_IDENTITY_BIT - 1.

Definition TAG_BOOL_BITS : Z := 0xFFFA000000000000.
Definition TAG_INT_BITS : Z := 0xFFFB000000000000.
Definition TAG_STR_BITS : Z := 0xFFFC000000000000.
Definition TAG_TUPLE_BITS : Z := 0xFFFD000000000000.
Definition TAG_LIST_BITS : Z := 0xFFFE000000000000.
Definition TAG_OPAQUE_BITS : Z := 0xFFFF000000000000.

Definition TAG_FLOAT_MAX : Z := 0xFFF8.
Definition TAG_NONE : Z := 0xFFF9.
Definition TAG_BOOL : Z := 0xFFFA.
Definition TAG_INT : Z := 0xFFFB.
Definition TAG_STR : Z := 0xFFFC.
Definition TAG_TUPLE : Z := 0xFFFD.
Definition TAG_LIST : Z := 0xFFFE.
Definition TAG_OPAQUE : Z := 0xFFFF.

Definition top16 (bits : Z) : Z := Z.shiftr bits 48.

(** ** Floats *)

(** The thread's counter of NaN identities is passed and returned; the identity
    given once its storage is torn down is left out. *)
Definition mint_nan_identity (counter : Z) : Z * Z :=
  let next := Z.land (wrapping_add counter 1) NAN_IDENTITY_MASK in
  (Z.lor (Z.lor CANONICAL_NAN NAN_IDENTITY_BIT) next, next).

Definition is_minted_nan (bits : Z) : bool :=
  Z.land bits (usize_max - NAN_IDENTITY_MASK) =? Z.lor CANONICAL_NAN NAN_IDENTITY_BIT.

(** [f.is_nan()], of the bits of an [f64]. *)
Definition bits_is_nan (bits : Z) : bool := f_is_nan (f64_val bits).

Definition value_float (counter f : Z) : Z * Z := if bits_is_nan f then mint_nan_identity counter else (f, counter).

Definition value_float_from_bits (counter bits : Z) : Z * Z :=
  if is_minted_nan bits then (bits, counter) else value_float counter bits.

(** ** Other immediates *)

Definition value_none : Z := TAG_NONE_BITS.
Definition value_unset : Z := UNSET_BITS.
Definition value_not_implemented : Z := NOT_IMPLEMENTED_BITS.
Definition value_ellipsis : Z := ELLIPSIS_BITS.
Definition value_bool (b : bool) : Z := Z.lor TAG_BOOL_BITS (bool_int b).

(** [Value::int]: the bits of an integer kept inline; [None] is one that is
    boxed as a big integer. *)
Definition value_int (n : Z) : option Z :=
  if (- Z.shiftl 1 47 <=? n) && (n <=? Z.shiftl 1 47 - 1)
  then Some (Z.lor TAG_INT_BITS (Z.land (as_u64 n) PAYLOAD_MASK))
  else None.

Definition STR_INLINE_MARK : Z := 1.
Definition STR_INLINE_MAX : nat := 5.

Definition str_is_inline_bits (bits : Z) : bool := negb (Z.land bits STR_INLINE_MARK =? 0).

(** The loop over the bytes of [make_inline_str]. *)
Fixpoint or_bytes (bits i : Z) (bytes : list Z) : Z :=
  match bytes with [] => bits | b :: bytes => or_bytes (Z.lor bits (Z.shiftl b (8 + i * 8))) (i + 1) bytes end.

Definition make_inline_str (bytes : list Z) : res Z :=
  _ ← rassert (length bytes <=? STR_INLINE_MAX)%nat;
  Ok (or_bytes (Z.lor (Z.lor TAG_STR_BITS STR_INLINE_MARK) (Z.shiftl (vlen bytes) 1)) 0 bytes).

(** ** Heap pointers *)

Definition NANBOX_HEAP_POINTER_ALIGNMENT : Z := 8.

Definition try_nanbox_heap_pointer_payload (address : Z) : option Z :=
  if negb (address =? 0) && (address <=? PAYLOAD_MASK) && (address mod NANBOX_HEAP_POINTER_ALIGNMENT =? 0)
  then Some address else None.

(** [None] is the process being aborted. *)
Definition encode_nanbox_heap_pointer (tag_bits address : Z) : option Z :=
  payload ← try_nanbox_heap_pointer_payload address; Some (Z.lor tag_bits payload).

(** ** Reading *)

Definition is_unset (bits : Z) : bool := bits =? UNSET_BITS.
Definition is_not_implemented (bits : Z) : bool := bits =? NOT_IMPLEMENTED_BITS.
Definition is_ellipsis (bits : Z) : bool := bits =? ELLIPSIS_BITS.
Definition is_none (bits : Z) : bool := bits =? TAG_NONE_BITS.
Definition is_bool (bits : Z) : bool := top16 bits =? TAG_BOOL.
Definition is_float (bits : Z) : bool :=
  if (bits =? NOT_IMPLEMENTED_BITS) || (bits =? UNSET_BITS) || (bits =? ELLIPSIS_BITS) then false
  else top16 bits <=? TAG_FLOAT_MAX.
Definition is_str (bits : Z) : bool := top16 bits =? TAG_STR.
Definition is_heap_tuple (bits : Z) : bool := top16 bits =? TAG_TUPLE.
Definition is_list (bits : Z) : bool := top16 bits =? TAG_LIST.

Definition as_bool (bits : Z) : bool := negb (Z.land bits 1 =? 0).

Definition as_int_raw (bits : Z) : Z :=
  let raw := as_i64 (Z.land bits PAYLOAD_MASK) in
  if negb (Z.land bits INT_SIGN_BIT =? 0) then Z.lor raw (as_i64 (usize_max - PAYLOAD_MASK)) else raw.

(** The bytes of an inline string: those of the word after its lowest one. *)
Definition inline_bytes (bits : Z) : list Z :=
  take (Z.to_nat (Z.land (Z.shiftr bits 1) 7)) (drop 1 (le_encode 8 bits)).

(** What [Value::kind] tells apart without following a pointer. *)
Inductive Kind : Type :=
  | KNotImplemented
  | KEllipsis
  | KFloat (bits : Z)
  | KNone
  | KBool (b : bool)
  | KInt (n : Z)
  | KStrInline (bytes : list Z)
  | KStr (address : Z)
  | KTuple (address : Z)
  | KList (address : Z)
  | KOpaque (address : Z).

Definition kind (bits : Z) : res Kind :=
  _ ← rassert (negb (is_unset bits));
  if bits =? NOT_IMPLEMENTED_BITS then Ok KNotImplemented
  else if bits =? ELLIPSIS_BITS then Ok KEllipsis
  else
    let tag := top16 bits in
    let address := Z.land bits PAYLOAD_MASK in
    if tag <=? TAG_FLOAT_MAX then Ok (KFloat bits)
    else if tag =? TAG_NONE then Ok KNone
    else if tag =? TAG_BOOL then Ok (KBool (as_bool bits))
    else if tag =? TAG_INT then Ok (KInt (as_int_raw bits))
    else if tag =? TAG_STR then
      Ok (if str_is_inline_bits bits then KStrInline (inline_bytes bits) else KStr address)
    else if tag =? TAG_TUPLE then Ok (KTuple address)
    else if tag =? TAG_LIST then Ok (KList address)
    else if tag =? TAG_OPAQUE then Ok (KOpaque address)
    else Panic.

(** * Constructors and [kind] *)


(** ** Words as a tag over a payload *)

Lemma shifted_lor hi k lo : 0 ≤ k → 0 ≤ lo < 2 ^ k → Z.lor (hi * 2 ^ k) lo = hi * 2 ^ k + lo.
Proof.
  intros Hk Hlo. symmetry. apply Z.add_nocarry_lor. apply Z.bits_inj_0. intros i. rewrite Z.land_spec.
  destruct (Z.ltb_spec i 0) as [Hi|Hi]; [by rewrite Z.testbit_neg_r|]. destruct (Z.ltb_spec i k).
  - by rewrite Z.mul_pow2_bits_low.
  - rewrite andb_false_iff. right. rewrite <- (Z.mod_small lo (2 ^ k)) by done. by apply Z.mod_pow2_bits_high.
Qed.

Definition payload (p : Z) : Prop := 0 ≤ p < 2 ^ 48.

Section tagged.
  Context (tag p : Z) (Htag : 0 ≤ tag < 2 ^ 16) (Hp : payload p).

Lemma tagged_lor : Z.lor (tag * 2 ^ 48) p = tag * 2 ^ 48 + p.
Proof using Hp. by apply shifted_lor. Qed.

Lemma tagged_top16 : top16 (tag * 2 ^ 48 + p) = tag.
Proof using Hp. unfold top16. rewrite Z.shiftr_div_pow2, Z.div_add_l, Z.div_small by (done || lia). lia. Qed.

Lemma tagged_payload : Z.land (tag * 2 ^ 48 + p) PAYLOAD_MASK = p.
Proof using Hp.
  change PAYLOAD_MASK with (Z.ones 48). rewrite Z.land_ones, Z.add_comm, Z.mod_add by lia. by apply Z.mod_small.
Qed.

Lemma tagged_range : u64_range (tag * 2 ^ 48 + p).
Proof using Htag Hp. unfold u64_range, two64, payload in *. lia. Qed.

(** A sentinel is told apart by its tag. *)
Lemma tagged_ne_sentinel s : s / 2 ^ 48 ≠ tag → (tag * 2 ^ 48 + p =? s) = false.
Proof using Hp.
  intros Hs. apply Z.eqb_neq. intros <-. apply Hs. rewrite Z.div_add_l, Z.div_small by (done || lia). lia.
Qed.
End tagged.

(** [kind] of a word under one of the tags of immediates and pointers. *)
Lemma kind_tagged tag p :
  0xFFF9 ≤ tag ≤ 0xFFFF → payload p →
  kind (tag * 2 ^ 48 + p) =
    let bits := tag * 2 ^ 48 + p in
    if tag =? TAG_NONE then Ok KNone
    else if tag =? TAG_BOOL then Ok (KBool (as_bool bits))
    else if tag =? TAG_INT then Ok (KInt (as_int_raw bits))
    else if tag =? TAG_STR then Ok (if str_is_inline_bits bits then KStrInline (inline_bytes bits) else KStr p)
    else if tag =? TAG_TUPLE then Ok (KTuple p)
    else if tag =? TAG_LIST then Ok (KList p)
    else if tag =? TAG_OPAQUE then Ok (KOpaque p)
    else Panic.
Proof.
  intros Htag Hp. unfold kind, is_unset. rewrite !tagged_ne_sentinel by (done || (vm_compute (_ / _); lia)).
  cbn [negb rassert mbind res_bind]. rewrite tagged_top16, tagged_payload by done.
  destruct (Z.leb_spec tag TAG_FLOAT_MAX) as [Hle|]; [|done]. unfold TAG_FLOAT_MAX in Hle. lia.
Qed.

(** ** Immediates *)

Lemma as_bool_tagged b : as_bool (TAG_BOOL * 2 ^ 48 + bool_int b) = b.
Proof. by destruct b. Qed.

Lemma as_int_raw_tagged n :
  - 2 ^ 47 ≤ n < 2 ^ 47 → as_int_raw (TAG_INT * 2 ^ 48 + n mod 2 ^ 48) = n.
Proof.
  intros Hn. unfold as_int_raw. pose proof (Z.mod_pos_bound n (2 ^ 48) ltac:(lia)) as Hmod.
  rewrite tagged_payload by done. rewrite (as_i64_id (n mod 2 ^ 48)) by (unfold i64_range; lia).
  assert (Hsign : negb (Z.land (TAG_INT * 2 ^ 48 + n mod 2 ^ 48) INT_SIGN_BIT =? 0) = (n <? 0)).
  { change INT_SIGN_BIT with (2 ^ 47). rewrite Z.land_comm.
    destruct (Z.ltb_spec n 0) as [Hneg|Hpos].
    - replace (n mod 2 ^ 48) with (n + 2 ^ 48) by (Z.div_mod_to_equations; lia). apply negb_true_iff, Z.eqb_neq. intros H0.
      apply (f_equal (λ x, Z.testbit x 47)) in H0. rewrite Z.land_spec, Z.bits_0, Z.pow2_bits_true in H0 by lia. cbn [andb] in H0.
      apply Z.testbit_false in H0; [|lia]. Z.div_mod_to_equations. unfold TAG_INT in *. lia.
    - rewrite Z.mod_small by lia. apply negb_false_iff, Z.eqb_eq. apply Z.bits_inj_0. intros i. rewrite Z.land_spec.
      destruct (decide (i = 47)) as [->|]; [|by rewrite Z.pow2_bits_false by lia].
      rewrite Z.pow2_bits_true by lia. cbn [andb]. apply Z.testbit_false; [lia|]. unfold TAG_INT. Z.div_mod_to_equations. lia. }
  rewrite Hsign. destruct (Z.ltb_spec n 0).
  - replace (as_i64 (usize_max - PAYLOAD_MASK)) with (-1 * 2 ^ 48) by by vm_compute.
    rewrite Z.lor_comm, shifted_lor by lia. Z.div_mod_to_equations. lia.
  - apply Z.mod_small. lia.
Qed.

(** ** Inline strings *)

Lemma or_bytes_lor x y i bytes : or_bytes (Z.lor x y) i bytes = Z.lor x (or_bytes y i bytes).
Proof. revert y i. induction bytes as [|b bytes IH]; intros y i; [done|]. cbn [or_bytes]. by rewrite <- Z.lor_assoc, IH. Qed.

Lemma or_bytes_eq x i bytes :
  0 ≤ i → 0 ≤ x < 2 ^ (8 + i * 8) → Forall byte_range bytes → or_bytes x i bytes = x + 2 ^ (8 + i * 8) * le_value bytes.
Proof.
  intros Hi Hx Hb. revert x i Hi Hx. induction Hb as [|b bytes [Hb0 Hb] _ IH]; intros x i Hi Hx; cbn [or_bytes le_value]; [lia|].
  rewrite Z.shiftl_mul_pow2, Z.lor_comm, shifted_lor by lia.
  replace (8 + (i + 1) * 8) with (8 + i * 8 + 8) in IH by lia.
  assert (Hpow : 2 ^ (8 + i * 8 + 8) = 2 ^ (8 + i * 8) * 256) by (rewrite Z.pow_add_r by lia; done).
  specialize (IH (b * 2 ^ (8 + i * 8) + x) (i + 1)).
  replace (8 + (i + 1) * 8) with (8 + i * 8 + 8) in IH by lia. rewrite Hpow in IH. rewrite IH by (lia || nia). lia.
Qed.

(** The word of a short string, and the bytes of its image in memory. *)
Definition inline_payload (bytes : list Z) : Z := 1 + 2 * vlen bytes + 256 * le_value bytes.

Lemma inline_payload_range bytes :
  (length bytes <= STR_INLINE_MAX)%nat → Forall byte_range bytes → payload (inline_payload bytes).
Proof.
  intros Hlen Hb. pose proof (le_value_range bytes Hb) as Hv. unfold payload, inline_payload, STR_INLINE_MAX, vlen in *.
  assert (256 ^ Z.of_nat (length bytes) ≤ 256 ^ 5) by (apply Z.pow_le_mono_r; lia). lia.
Qed.

Lemma make_inline_str_eq bytes :
  (length bytes <= STR_INLINE_MAX)%nat → Forall byte_range bytes →
  make_inline_str bytes = Ok (TAG_STR * 2 ^ 48 + inline_payload bytes).
Proof.
  intros Hlen Hb. unfold make_inline_str. rewrite rassert_true by by apply Nat.leb_le. cbn [mbind res_bind]. f_equal.
  pose proof (inline_payload_range bytes Hlen Hb) as Hp. unfold STR_INLINE_MAX in Hlen.
  assert (Hhead : Z.lor STR_INLINE_MARK (Z.shiftl (vlen bytes) 1) = 1 + 2 * vlen bytes).
  { unfold vlen. rewrite Z.shiftl_mul_pow2, Z.lor_comm, shifted_lor by (unfold STR_INLINE_MARK; lia). unfold STR_INLINE_MARK. lia. }
  rewrite <- Z.lor_assoc, Hhead, or_bytes_lor, or_bytes_eq by (unfold vlen; lia || done).
  change (2 ^ (8 + 0 * 8)) with 256. by apply (tagged_lor TAG_STR).
Qed.

Lemma le_encode_take k n x : (k <= n)%nat → take k (le_encode n x) = le_encode k x.
Proof.
  revert n x. induction k as [|k IH]; intros n x Hk; [by destruct (le_encode n x)|].
  destruct n as [|n]; [lia|]. cbn [le_encode take firstn]. by rewrite IH by lia.
Qed.

Lemma inline_bytes_eq bytes :
  (length bytes <= STR_INLINE_MAX)%nat → Forall byte_range bytes →
  str_is_inline_bits (TAG_STR * 2 ^ 48 + inline_payload bytes) = true ∧
  inline_bytes (TAG_STR * 2 ^ 48 + inline_payload bytes) = bytes.
Proof.
  intros Hlen Hb. pose proof (inline_payload_range bytes Hlen Hb) as Hp. unfold STR_INLINE_MAX in Hlen.
  set (bits := TAG_STR * 2 ^ 48 + inline_payload bytes).
  assert (Hbits : bits = 1 + 2 * (vlen bytes + 128 * (le_value bytes + 2 ^ 40 * TAG_STR))) by (unfold bits, inline_payload; lia).
  split.
  - unfold str_is_inline_bits. apply negb_true_iff, Z.eqb_neq. change STR_INLINE_MARK with (Z.ones 1).
    rewrite Z.land_ones, Hbits by lia. Z.div_mod_to_equations. lia.
  - unfold inline_bytes. rewrite Z.shiftr_div_pow2 by lia. change 7 with (Z.ones 3). rewrite Z.land_ones by lia.
    replace (bits / 2 ^ 1 mod 2 ^ 3) with (vlen bytes)
      by (unfold vlen in *; set (v := le_value bytes + 2 ^ 40 * TAG_STR) in *; rewrite Hbits; Z.div_mod_to_equations; lia).
    unfold vlen at 1. rewrite Nat2Z.id. change (drop 1 (le_encode 8 bits)) with (le_encode 7 (bits / 256)).
    rewrite le_encode_take by lia. apply le_encode_value; [done|].
    replace (bits / 256) with (le_value bytes + 2 ^ 40 * TAG_STR)
      by (unfold vlen in *; set (v := le_value bytes + 2 ^ 40 * TAG_STR) in *; rewrite Hbits; Z.div_mod_to_equations; lia).
    replace (2 ^ 40) with (256 ^ vlen bytes * 256 ^ (5 - vlen bytes)) by (rewrite <- Z.pow_add_r by (unfold vlen; lia); by rewrite Zplus_minus).
    rewrite <- Z.mul_assoc, (Z.mul_comm (256 ^ vlen bytes)), Z.mod_add by (apply Z.pow_nonzero; unfold vlen; lia).
    apply Z.mod_small. by apply le_value_range.
Qed.

(** ** Floats *)

Lemma is_minted_nan_spec bits : u64_range bits → is_minted_nan bits = true ↔ bits / 2 ^ 47 = 0xFFF1.
Proof.
  intros Hb. unfold is_minted_nan.
  replace (Z.land bits (usize_max - NAN_IDENTITY_MASK)) with (bits / 2 ^ 47 * 2 ^ 47).
  { change (Z.lor CANONICAL_NAN NAN_IDENTITY_BIT) with (0xFFF1 * 2 ^ 47). rewrite Z.eqb_eq. lia. }
  change (usize_max - NAN_IDENTITY_MASK) with (Z.land (Z.ones 64) (Z.lnot (Z.ones 47))).
  rewrite Z.land_assoc, Z.land_ones, <- Z.ldiff_land, Z.ldiff_ones_r by lia.
  rewrite Z.shiftl_mul_pow2, Z.shiftr_div_pow2 by lia. by rewrite Z.mod_small.
Qed.

Lemma bits_is_nan_spec bits :
  u64_range bits → bits_is_nan bits = true ↔ bits / 2 ^ 52 mod 2 ^ 11 = 0x7FF ∧ bits mod 2 ^ 52 ≠ 0.
Proof.
  intros Hb. unfold bits_is_nan, f64_val, f64_exponent, f64_mantissa.
  change 0x7ff with (Z.ones 11). change 0xfffffffffffff with (Z.ones 52). rewrite !Z.land_ones, Z.shiftr_div_pow2 by lia.
  change (Z.ones 11) with 2047.
  destruct (Z.eqb_spec (bits / 2 ^ 52 mod 2 ^ 11) 2047) as [->|Hne]; [|split; [done|intros [H _]; done]].
  destruct (Z.eqb_spec (bits mod 2 ^ 52) 0) as [->|Hne]; cbn; [split; [done|intros [_ H]; done]|done].
Qed.

(** The words that stand for a float: the numbers, and the boxed NaNs. *)
Definition float_word (bits : Z) : Prop := u64_range bits ∧ (bits_is_nan bits = false ∨ is_minted_nan bits = true).

Lemma float_word_kind bits : float_word bits → kind bits = Ok (KFloat bits) ∧ is_float bits = true ∧ is_unset bits = false.
Proof.
  intros [Hrange Hor].
  assert (Htop : top16 bits ≤ TAG_FLOAT_MAX ∧ bits ≠ UNSET_BITS ∧ bits ≠ NOT_IMPLEMENTED_BITS ∧ bits ≠ ELLIPSIS_BITS).
  { unfold top16, TAG_FLOAT_MAX, u64_range, two64 in *. rewrite Z.shiftr_div_pow2 by lia. destruct Hor as [Hnan|Hminted].
    - assert (Hn : ¬ (bits / 2 ^ 52 mod 2 ^ 11 = 0x7FF ∧ bits mod 2 ^ 52 ≠ 0)) by by rewrite <- bits_is_nan_spec, Hnan.
      split_and!; [|by intros ->; apply Hn..]. apply Z.nlt_ge. intros Hlt. apply Hn. Z.div_mod_to_equations. lia.
    - apply is_minted_nan_spec in Hminted; [|done]. split_and!; [Z.div_mod_to_equations; lia|by intros ->..]. }
  destruct Htop as (Htop & Hu & Hni & He). unfold kind, is_float, is_unset.
  rewrite (proj2 (Z.eqb_neq _ _) Hu), (proj2 (Z.eqb_neq _ _) Hni), (proj2 (Z.eqb_neq _ _) He).
  cbn [negb rassert mbind res_bind orb]. by rewrite (proj2 (Z.leb_le _ _) Htop).
Qed.

Definition counter_ok (counter : Z) : Prop := 0 ≤ counter < 2 ^ 47.

(** A minted NaN carries the next identity in its payload. *)
Lemma mint_nan_identity_eq counter :
  counter_ok counter →
  mint_nan_identity counter = (0xFFF1 * 2 ^ 47 + (counter + 1) mod 2 ^ 47, (counter + 1) mod 2 ^ 47).
Proof.
  intros Hc. unfold mint_nan_identity, wrapping_add, as_u64, counter_ok in *.
  rewrite (Z.mod_small _ two64) by (unfold two64; lia). change NAN_IDENTITY_MASK with (Z.ones 47). rewrite Z.land_ones by lia.
  change (Z.lor CANONICAL_NAN NAN_IDENTITY_BIT) with (0xFFF1 * 2 ^ 47).
  by rewrite shifted_lor by (done || by apply Z.mod_pos_bound).
Qed.

Lemma minted_float_word counter bits counter' :
  counter_ok counter → mint_nan_identity counter = (bits, counter') →
  float_word bits ∧ bits_is_nan bits = true ∧ counter_ok counter'.
Proof.
  intros Hc Hmint. rewrite mint_nan_identity_eq in Hmint by done. injection Hmint as <- <-. unfold counter_ok in *.
  pose proof (Z.mod_pos_bound (counter + 1) (2 ^ 47) ltac:(lia)) as Hmod. set (p := (counter + 1) mod 2 ^ 47) in *.
  assert (Hrange : u64_range (0xFFF1 * 2 ^ 47 + p)) by (unfold u64_range, two64; lia).
  split; [split; [done|right]|split; [|done]].
  - apply is_minted_nan_spec; [done|]. Z.div_mod_to_equations. lia.
  - apply bits_is_nan_spec; [done|]. Z.div_mod_to_equations. lia.
Qed.

(** [Value::float] keeps a number as it is and gives any NaN a word of its own. *)
Lemma value_float_word counter f bits counter' :
  u64_range f → counter_ok counter → value_float counter f = (bits, counter') →
  float_word bits ∧ bits_is_nan bits = bits_is_nan f ∧ counter_ok counter' ∧ (bits_is_nan f = false → bits = f).
Proof.
  intros Hf Hc. unfold value_float. destruct (bits_is_nan f) eqn:Hnan.
  - intros Hmint. destruct (minted_float_word _ _ _ Hc Hmint) as (? & ? & ?). done.
  - intros [= <- <-]. split; [split; [done|by left]|done].
Qed.

(** ** Constructors against [kind] *)

(** The word a constructor gives, where it gives one. *)
Definition construct (k : Kind) : option Z :=
  match k with
  | KNotImplemented => Some value_not_implemented
  | KEllipsis => Some value_ellipsis
  | KFloat bits => Some (value_float_from_bits 0 bits).1
  | KNone => Some value_none
  | KBool b => Some (value_bool b)
  | KInt n => value_int n
  | KStrInline bytes => res_to_option (make_inline_str bytes)
  | KStr address => encode_nanbox_heap_pointer TAG_STR_BITS address
  | KTuple address => encode_nanbox_heap_pointer TAG_TUPLE_BITS address
  | KList address => encode_nanbox_heap_pointer TAG_LIST_BITS address
  | KOpaque address => encode_nanbox_heap_pointer TAG_OPAQUE_BITS address
  end.

Definition kind_wf (k : Kind) : Prop :=
  match k with
  | KFloat bits => float_word bits
  | KStrInline bytes => Forall byte_range bytes
  | KStr address | KTuple address | KList address | KOpaque address => 0 ≤ address
  | _ => True
  end.

Lemma value_int_eq n : - 2 ^ 47 ≤ n < 2 ^ 47 → value_int n = Some (TAG_INT * 2 ^ 48 + n mod 2 ^ 48).
Proof.
  intros Hn. unfold value_int. change (Z.shiftl 1 47) with (2 ^ 47).
  destruct (Z.leb_spec (- 2 ^ 47) n); [|lia]. destruct (Z.leb_spec n (2 ^ 47 - 1)); [|lia]. cbn [andb]. f_equal.
  change PAYLOAD_MASK with (Z.ones 48). rewrite Z.land_ones by lia. unfold as_u64, two64.
  replace (n mod 2 ^ 64 mod 2 ^ 48) with (n mod 2 ^ 48) by (Z.div_mod_to_equations; lia).
  apply (tagged_lor TAG_INT). by apply Z.mod_pos_bound.
Qed.

Lemma value_int_Some n bits : value_int n = Some bits → - 2 ^ 47 ≤ n < 2 ^ 47.
Proof.
  unfold value_int. change (Z.shiftl 1 47) with (2 ^ 47).
  destruct (Z.leb_spec (- 2 ^ 47) n), (Z.leb_spec n (2 ^ 47 - 1)); cbn [andb]; try done. lia.
Qed.

Lemma encode_pointer_Some tag address bits :
  0 ≤ address → encode_nanbox_heap_pointer (tag * 2 ^ 48) address = Some bits →
  bits = tag * 2 ^ 48 + address ∧ payload address ∧ address mod 8 = 0 ∧ address ≠ 0.
Proof.
  intros Ha. unfold encode_nanbox_heap_pointer, try_nanbox_heap_pointer_payload, NANBOX_HEAP_POINTER_ALIGNMENT.
  destruct (Z.eqb_spec address 0); [done|]. destruct (Z.leb_spec address PAYLOAD_MASK) as [Hle|]; [|done].
  destruct (Z.eqb_spec (address mod 8) 0); [|done]. cbn. intros [= <-].
  assert (payload address) by (unfold payload, PAYLOAD_MASK in *; lia). split_and!; [by apply tagged_lor|done..].
Qed.

Lemma heap_pointer_not_inline address : address mod 8 = 0 → str_is_inline_bits (TAG_STR * 2 ^ 48 + address) = false.
Proof.
  intros Ha. unfold str_is_inline_bits. change STR_INLINE_MARK with (Z.ones 1). rewrite Z.land_ones by lia.
  apply negb_false_iff, Z.eqb_eq. unfold TAG_STR. Z.div_mod_to_equations. lia.
Qed.

Ltac pointer_kind :=
  match goal with
  | Ha : 0 ≤ ?a, H : encode_nanbox_heap_pointer _ ?a = Some _ |- _ =>
      apply encode_pointer_Some in H as (-> & Hp & Hmod & Hne); [|exact Ha]; rewrite kind_tagged by done
  end.

(** A constructed word is read as what it was constructed from. *)
Lemma construct_kind k bits : kind_wf k → construct k = Some bits → kind bits = Ok k.
Proof.
  intros Hwf. destruct k as [| |f| |b|n|bytes|a|a|a|a]; cbn [construct kind_wf] in *; intros Hbits.
  - by injection Hbits as <-.
  - by injection Hbits as <-.
  - injection Hbits as <-. unfold value_float_from_bits, value_float.
    destruct (is_minted_nan f) eqn:Hm; [by apply float_word_kind|]. destruct Hwf as [Hr [Hn|Hn]]; [|congruence].
    rewrite Hn. by apply float_word_kind; split; [|left].
  - by injection Hbits as <-.
  - injection Hbits as <-. by destruct b.
  - pose proof (value_int_Some _ _ Hbits) as Hn. rewrite value_int_eq in Hbits by done. injection Hbits as <-.
    rewrite kind_tagged by (done || by apply Z.mod_pos_bound). cbn beta zeta. by rewrite as_int_raw_tagged.
  - assert (Hlen : (length bytes <= STR_INLINE_MAX)%nat).
    { unfold make_inline_str in Hbits. destruct (Nat.leb_spec (length bytes) STR_INLINE_MAX); done. }
    rewrite make_inline_str_eq in Hbits by done. injection Hbits as <-.
    rewrite kind_tagged by (done || by apply inline_payload_range). cbn beta zeta.
    by destruct (inline_bytes_eq bytes Hlen Hwf) as [-> ->].
  - change TAG_STR_BITS with (TAG_STR * 2 ^ 48) in Hbits. pointer_kind.
    transitivity (Ok (if str_is_inline_bits (TAG_STR * 2 ^ 48 + a) then KStrInline (inline_bytes (TAG_STR * 2 ^ 48 + a)) else KStr a));
      [done|]. by rewrite heap_pointer_not_inline.
  - change TAG_TUPLE_BITS with (TAG_TUPLE * 2 ^ 48) in Hbits. by pointer_kind.
  - change TAG_LIST_BITS with (TAG_LIST * 2 ^ 48) in Hbits. by pointer_kind.
  - change TAG_OPAQUE_BITS with (TAG_OPAQUE * 2 ^ 48) in Hbits. by pointer_kind.
Qed.

(** The words of the first [n] NaNs boxed from a state of the counter. *)
Fixpoint minted_nans (counter : Z) (n : nat) : list Z :=
  match n with
  | O => []
  | S n => let '(bits, counter) := value_float counter CANONICAL_NAN in bits :: minted_nans counter n
  end.

Lemma minted_nans_lookup counter n i bits :
  counter_ok counter → minted_nans counter n !! i = Some bits → bits = 0xFFF1 * 2 ^ 47 + (counter + 1 + Z.of_nat i) mod 2 ^ 47.
Proof.
  revert counter i. induction n as [|n IH]; intros counter i Hc Hi; [done|]. cbn [minted_nans] in Hi.
  change (value_float counter CANONICAL_NAN) with (mint_nan_identity counter) in Hi. rewrite mint_nan_identity_eq in Hi by done.
  destruct i as [|i]; [injection Hi as <-; by rewrite Z.add_0_r|]. cbn [lookup list_lookup] in Hi.
  apply IH in Hi; [|by apply Z.mod_pos_bound]. rewrite Hi. f_equal.
  rewrite <- Z.add_assoc, Zplus_mod_idemp_l. f_equal. lia.
Qed.

Lemma minted_nans_distinct counter n :
  counter_ok counter → Z.of_nat n ≤ 2 ^ 47 → NoDup (minted_nans counter n).
Proof.
  intros Hc Hn. apply NoDup_alt. intros i j bits Hi Hj.
  assert (Hlen : length (minted_nans counter n) = n).
  { clear. revert counter. induction n as [|n IH]; intros counter; [done|]. cbn [minted_nans].
    destruct (value_float counter CANONICAL_NAN) as [b c]. cbn. by rewrite IH. }
  pose proof (lookup_lt_Some _ _ _ Hi). pose proof (lookup_lt_Some _ _ _ Hj). rewrite Hlen in *.
  apply minted_nans_lookup in Hi; [|done]. apply minted_nans_lookup in Hj; [|done]. rewrite Hi in Hj.
  apply Z.add_reg_l in Hj. Z.div_mod_to_equations. lia.
Qed.
