(* ===== verification/StrHeap.v ===== *)
(** String values and the memory behind them (crates/pyrust-core/src/core:
    nanbox_strings.rs, nanbox_pointers.rs, value_constructors.rs,
    value_access.rs, value_lifecycle.rs, and the slice pool of value_model.rs).

    Memory is a finite map from addresses to the blocks allocated there.  An
    access that the code's own layout does not allow, to a missing block, to a
    field of the other layout, outside of a buffer, or a deallocation with the
    wrong size, is [Undefined]; aborts carry what the code aborts for. *)

From stdpp Require Import gmap.
From S2P Require Import Outcome Prelude IntBytes NanBox Utf8.

(** ** Memory *)

(** A pointer: the address of its allocation, and the distance into it. *)
Record Pointer : Type := {
  ptr_base : Z;
  ptr_offset : Z;
}.

Definition ptr_add (p : Pointer) (n : Z) : Pointer := {| ptr_base := ptr_base p; ptr_offset := ptr_offset p + n |}.
Definition ptr_sub (p : Pointer) (n : Z) : Pointer := ptr_add p (- n).
Definition to_addr (p : Pointer) : Z := ptr_base p + ptr_offset p.
(** [address as *mut u8] *)
Definition from_addr (address : Z) : Pointer := {| ptr_base := address; ptr_offset := 0 |}.

(** The two layouts of a string, the boxed index of one, a slice block in the
    pool of free ones, and a block that nothing was written to yet. *)
Inductive block : Type :=
  | Owned (rc_type sub_len unicode_state : Z) (bytes : list Z)
  | Slice (rc_type sub_len : Z) (ref : Pointer) (offset unicode_state : Z)
  | Cache (cache : StrUnicodeCache)
  | FreeSlot (next : Z)
  | Uninit (size : Z).

Record Heap : Type := {
  memory : gmap Z block;
  pool_head : Z;
  pool_len : Z;
}.

Inductive fault : Type :=
  | Undefined
  | Panics
  | NoFuel
  | AllocError
  | BadPointer (address : Z)
  | BadLength (byte_len : Z).

(** A computation over memory. *)
Inductive step_result (A : Type) : Type :=
  | Go (a : A) (h : Heap)
  | Fault (f : fault).
Arguments Go {A} _ _.
Arguments Fault {A} _.

Definition mem (A : Type) : Type := Heap → step_result A.

#[export] Instance mem_ret : MRet mem := λ A a h, Go a h.
#[export] Instance mem_bind : MBind mem := λ A B f m h,
  match m h with Go a h' => f a h' | Fault e => Fault e end.

Definition mfault {A} (f : fault) : mem A := λ _, Fault f.
Definition massert (b : bool) : mem unit := if b then mret tt else mfault Panics.
(** Code that does not touch memory. *)
Definition pure_res {A} (m : res A) : mem A :=
  match m with Ok a => mret a | Panic => mfault Panics | Diverge => mfault NoFuel end.

Definition read_block (p : Pointer) : mem block := λ h,
  match memory h !! ptr_base p with
  | Some b => if ptr_offset p =? 0 then Go b h else Fault Undefined
  | None => Fault Undefined
  end.
Definition set_memory (f : gmap Z block → gmap Z block) : mem unit := λ h,
  Go tt {| memory := f (memory h); pool_head := pool_head h; pool_len := pool_len h |}.
Definition write_block (p : Pointer) (b : block) : mem unit := set_memory <[ptr_base p := b]>.

(** ** The allocator

    Which address a request gets is left open, by way of memory as it is; an
    address is aligned and not that of a live block. *)
Class Allocator := {
  alloc : gmap Z block → Z → option Z;
  realloc : gmap Z block → Z → Z → option Z;
}.

Definition good_address (p : Z) : Prop := 0 < p < two64 ∧ p mod 8 = 0.

Class AllocatorLaws `{Allocator} : Prop := {
  alloc_fresh m size p : alloc m size = Some p → m !! p = None ∧ good_address p;
  realloc_fresh m old size p : realloc m old size = Some p → (p = old ∨ m !! p = None) ∧ good_address p;
}.

Section strings.
  Context `{Allocator, AlignTo}.

Definition alloc_or_handle (size : Z) : mem Pointer := λ h,
  match alloc (memory h) size with
  | Some p => (_ ← write_block (from_addr p) (Uninit size); mret (from_addr p)) h
  | None => Fault AllocError
  end.

(** The size of a block's layout; a boxed index is not freed by size. *)
Definition block_size (b : block) : option Z :=
  match b with
  | Owned _ _ _ bytes => Some (16 + vlen bytes)
  | Slice _ _ _ _ _ | FreeSlot _ => Some 32
  | Cache _ => None
  | Uninit size => Some size
  end.

Definition dealloc (p : Pointer) (size : Z) : mem unit :=
  b ← read_block p;
  if bool_decide (block_size b = Some size) then set_memory (delete (ptr_base p)) else mfault Undefined.

(** [Box::into_raw(Box::new(..))] and [drop(Box::from_raw(..))]. *)
Definition box_into_raw (cache : StrUnicodeCache) : mem Z :=
  p ← alloc_or_handle 24;
  _ ← write_block p (Cache cache);
  mret (to_addr p).
Definition box_deref (address : Z) : mem StrUnicodeCache :=
  b ← read_block (from_addr address);
  match b with Cache cache => mret cache | _ => mfault Undefined end.
Definition box_drop (address : Z) : mem unit :=
  b ← read_block (from_addr address);
  match b with Cache _ => set_memory (delete address) | _ => mfault Undefined end.

(** ** Header fields *)

Definition STR_TYPE_B : Z := 1.
Definition STR_IS_ASCII : Z := 2.
Definition STR_ASCII_COMPUTED : Z := 4.
Definition STR_RC_ONE : Z := 8.
Definition STR_RC_MAX : Z := Z.shiftr (2 ^ 32 - 1) 3.
Definition STR_OWNED_HEADER_SIZE : Z := 16.
Definition STR_MAX_BYTE_LEN : Z := 2 ^ 32 - 1.
Definition STR_SLICE_LAYOUT_SIZE : Z := 32.
Definition STR_CODEPOINT_LEN_TAG : Z := 1.
Definition STR_CODEPOINT_INDEX_SEEN : Z := 2.
Definition STR_CODEPOINT_LEN_SHIFT : Z := 2.

Definition read_rc_type (header : Pointer) : mem Z :=
  b ← read_block header;
  match b with Owned rc_type _ _ _ | Slice rc_type _ _ _ _ => mret rc_type | _ => mfault Undefined end.
Definition write_rc_type (header : Pointer) (rc_type : Z) : mem unit :=
  b ← read_block header;
  match b with
  | Owned _ sub_len state bytes => write_block header (Owned rc_type sub_len state bytes)
  | Slice _ sub_len ref offset state => write_block header (Slice rc_type sub_len ref offset state)
  | _ => mfault Undefined
  end.
Definition read_sub_len (header : Pointer) : mem Z :=
  b ← read_block header;
  match b with Owned _ sub_len _ _ | Slice _ sub_len _ _ _ => mret sub_len | _ => mfault Undefined end.

(** The fields [ref] and [offset] of a slice. *)
Definition read_ref (header : Pointer) : mem Pointer :=
  b ← read_block header; match b with Slice _ _ ref _ _ => mret ref | _ => mfault Undefined end.
Definition read_offset (header : Pointer) : mem Z :=
  b ← read_block header; match b with Slice _ _ _ offset _ => mret offset | _ => mfault Undefined end.

(** The word [unicode_state], at offset 8 of an owned string and 24 of a slice. *)
Inductive StateSlot : Type :=
  | OwnedState (header : Pointer)
  | SliceState (header : Pointer).

Definition read_state (slot : StateSlot) : mem Z :=
  match slot with
  | OwnedState header => b ← read_block header; match b with Owned _ _ state _ => mret state | _ => mfault Undefined end
  | SliceState header => b ← read_block header; match b with Slice _ _ _ _ state => mret state | _ => mfault Undefined end
  end.
Definition write_state (slot : StateSlot) (state : Z) : mem unit :=
  match slot with
  | OwnedState header =>
      b ← read_block header;
      match b with
      | Owned rc_type sub_len _ bytes => write_block header (Owned rc_type sub_len state bytes)
      | _ => mfault Undefined
      end
  | SliceState header =>
      b ← read_block header;
      match b with
      | Slice rc_type sub_len ref offset _ => write_block header (Slice rc_type sub_len ref offset state)
      | _ => mfault Undefined
      end
  end.

(** The first writes to a block, over whatever it held as free memory. *)
Definition init_block (p : Pointer) (b : block) : mem unit :=
  old ← read_block p;
  match old with
  | Uninit size => if bool_decide (block_size b = Some size) then write_block p b else mfault Undefined
  | _ => mfault Undefined
  end.

(** [slice::from_raw_parts(ptr, len)]: only the bytes of an owned string are
    ever pointed into. *)
Definition from_raw_parts (p : Pointer) (len : Z) : mem (list Z) := λ h,
  match memory h !! ptr_base p with
  | Some (Owned _ _ _ bytes) =>
      let start := ptr_offset p - STR_OWNED_HEADER_SIZE in
      if (0 <=? start) && (0 <=? len) && (start + len <=? vlen bytes)
      then Go (take (Z.to_nat len) (drop (Z.to_nat start) bytes)) h
      else Fault Undefined
  | _ => Fault Undefined
  end.

(** ** Reference counts *)

Definition str_refcount_increment (header : Pointer) : mem unit :=
  current ← read_rc_type header;
  if negb (Z.shiftr current 3 =? STR_RC_MAX) then write_rc_type header (current + STR_RC_ONE) else mret tt.

Definition str_refcount_decrement (header : Pointer) : mem bool :=
  current ← read_rc_type header;
  if Z.shiftr current 3 =? STR_RC_MAX then mret false
  else
    _ ← massert (0 <? Z.shiftr current 3);
    let next := current - STR_RC_ONE in
    _ ← write_rc_type header next;
    mret (Z.shiftr next 3 =? 0).

(** ** The pool of slice blocks *)

Definition POOL_B_CAP : Z := 64.

Definition pool_set (head len : Z) : mem unit := λ h,
  Go tt {| memory := memory h; pool_head := head; pool_len := len |}.

Definition read_next (p : Pointer) : mem Z :=
  b ← read_block p; match b with FreeSlot next => mret next | _ => mfault Undefined end.

Definition pool_b_alloc : mem Pointer := λ h,
  let head := pool_head h in
  let len := pool_len h in
  (if 0 <? len then
     next ← read_next (from_addr head);
     _ ← pool_set next (len - 1);
     _ ← write_block (from_addr head) (Uninit STR_SLICE_LAYOUT_SIZE);
     mret (from_addr head)
   else alloc_or_handle STR_SLICE_LAYOUT_SIZE) h.

Definition pool_b_dealloc (p : Pointer) : mem unit := λ h,
  let head := pool_head h in
  let len := pool_len h in
  (_ ← massert (negb (to_addr p =? head) || (head =? 0));
   if len <? POOL_B_CAP then
     b ← read_block p;
     if bool_decide (block_size b = Some STR_SLICE_LAYOUT_SIZE) then
       _ ← write_block p (FreeSlot head);
       pool_set (to_addr p) (len + 1)
     else mfault Undefined
   else dealloc p STR_SLICE_LAYOUT_SIZE) h.

(** ** Constructors *)

Definition is_ascii (bytes : list Z) : bool := forallb (λ b, b <? 128) bytes.

Definition nanbox_owned_string_layout (byte_len : Z) : mem Z :=
  if STR_MAX_BYTE_LEN <? byte_len then mfault (BadLength byte_len) else mret (STR_OWNED_HEADER_SIZE + byte_len).

Definition encode_str (p : Pointer) : mem Z :=
  match encode_nanbox_heap_pointer TAG_STR_BITS (to_addr p) with
  | Some bits => mret bits
  | None => mfault (BadPointer (to_addr p))
  end.

Definition value_string (bytes : list Z) : mem Z :=
  if (length bytes <=? STR_INLINE_MAX)%nat then pure_res (make_inline_str bytes)
  else
    layout ← nanbox_owned_string_layout (vlen bytes);
    ptr ← alloc_or_handle layout;
    let ascii_flag := if is_ascii bytes then Z.lor STR_IS_ASCII STR_ASCII_COMPUTED else STR_ASCII_COMPUTED in
    _ ← init_block ptr (Owned (Z.lor STR_RC_ONE ascii_flag) (vlen bytes) 0 bytes);
    encode_str ptr.

(** [Value::string_from_fill], by what [fill] writes and returns. *)
Definition value_string_from_fill (filled : list Z) (fill_is_ascii : option bool) : mem Z :=
  if (length filled <=? STR_INLINE_MAX)%nat then pure_res (make_inline_str filled)
  else
    layout ← nanbox_owned_string_layout (vlen filled);
    ptr ← alloc_or_handle layout;
    let ascii_flag :=
      match fill_is_ascii with
      | Some true => Z.lor STR_IS_ASCII STR_ASCII_COMPUTED
      | Some false => STR_ASCII_COMPUTED
      | None => 0
      end in
    _ ← init_block ptr (Owned (Z.lor STR_RC_ONE ascii_flag) (vlen filled) 0 filled);
    encode_str ptr.

Definition str_hdr (bits : Z) : Pointer := from_addr (Z.land bits PAYLOAD_MASK).

Definition str_as_bytes (bits : Z) : mem (list Z) :=
  if str_is_inline_bits bits then mret (inline_bytes bits)
  else
    let hdr := str_hdr bits in
    sub_len ← read_sub_len hdr;
    rc_type ← read_rc_type hdr;
    ref_ptr ← (if Z.land rc_type STR_TYPE_B =? 0 then mret (ptr_add hdr 16) else read_ref hdr);
    from_raw_parts ref_ptr sub_len.

(** [&s[a..b]] *)
Definition subrange (start fin : nat) (bytes : list Z) : list Z := take (fin - start) (drop start bytes).

Definition string_slice (bits : Z) (byte_start byte_end : nat) : mem Z :=
  _ ← massert (is_str bits);
  _ ← massert (byte_start <=? byte_end)%nat;
  bytes ← str_as_bytes bits;
  _ ← massert (byte_end <=? length bytes)%nat;
  _ ← massert (utf8_codepoint_boundary bytes byte_start && utf8_codepoint_boundary bytes byte_end);
  let sub_len := (byte_end - byte_start)%nat in
  if (sub_len <=? STR_INLINE_MAX)%nat then
    s ← str_as_bytes bits;
    pure_res (make_inline_str (subrange byte_start byte_end s))
  else
    let hdr := str_hdr bits in
    rc_type ← read_rc_type hdr;
    self_ref ← (if Z.land rc_type STR_TYPE_B =? 0 then mret (ptr_add hdr STR_OWNED_HEADER_SIZE) else read_ref hdr);
    let new_ref := ptr_add self_ref (Z.of_nat byte_start) in
    '(a_ptr, new_offset) ←
      (if Z.land rc_type STR_TYPE_B =? 0 then mret (hdr, Z.of_nat byte_start)
       else
         base ← read_offset hdr;
         let root_distance := base + STR_OWNED_HEADER_SIZE in
         let a_ptr := ptr_sub self_ref root_distance in
         _ ← massert (to_addr a_ptr + STR_OWNED_HEADER_SIZE + base =? to_addr self_ref);
         let new_offset := base + Z.of_nat byte_start in
         if new_offset <=? STR_MAX_BYTE_LEN then mret (a_ptr, new_offset) else mfault (BadLength new_offset));
    _ ← str_refcount_increment a_ptr;
    let ascii_flag :=
      if Z.land rc_type (Z.lor STR_ASCII_COMPUTED STR_IS_ASCII) =? Z.lor STR_ASCII_COMPUTED STR_IS_ASCII
      then Z.lor STR_IS_ASCII STR_ASCII_COMPUTED else 0 in
    _ ← massert (Z.of_nat sub_len <=? STR_MAX_BYTE_LEN);
    _ ← massert (new_offset <=? STR_MAX_BYTE_LEN);
    ptr ← pool_b_alloc;
    _ ← init_block ptr (Slice (Z.lor (Z.lor STR_RC_ONE STR_TYPE_B) ascii_flag) (Z.of_nat sub_len) new_ref new_offset 0);
    encode_str ptr.

(** ** Clone and drop

    The arms for immediates and strings; values of the other heap kinds do not
    point into this memory. *)

Definition value_clone (bits : Z) : mem Z :=
  if top16 bits <=? TAG_INT then mret bits
  else if top16 bits =? TAG_STR then
    if str_is_inline_bits bits then mret bits
    else
      _ ← str_refcount_increment (str_hdr bits);
      mret bits
  else mfault Undefined.

(** Dropping the index a state word points to. *)
Definition drop_state (slot : StateSlot) : mem unit :=
  state ← read_state slot;
  if negb (state =? 0) && (Z.land state STR_CODEPOINT_LEN_TAG =? 0) then box_drop state else mret tt.

Definition free_owned (hdr : Pointer) : mem unit :=
  _ ← drop_state (OwnedState hdr);
  len ← read_sub_len hdr;
  layout ← nanbox_owned_string_layout len;
  dealloc hdr layout.

Definition value_drop (bits : Z) : mem unit :=
  if top16 bits <=? TAG_INT then mret tt
  else if top16 bits =? TAG_STR then
    if str_is_inline_bits bits then mret tt
    else
      let hdr := str_hdr bits in
      last ← str_refcount_decrement hdr;
      if last : bool then
        rc_type ← read_rc_type hdr;
        if Z.land rc_type STR_TYPE_B =? 0 then free_owned hdr
        else
          _ ← drop_state (SliceState hdr);
          ref_ptr ← read_ref hdr;
          offset ← read_offset hdr;
          let a_ptr := ptr_sub ref_ptr (offset + STR_OWNED_HEADER_SIZE) in
          root_last ← str_refcount_decrement a_ptr;
          _ ← (if root_last : bool then free_owned a_ptr else mret tt);
          pool_b_dealloc hdr
      else mret tt
  else mfault Undefined.

(** ** ASCII flag *)

Definition str_is_ascii (bits : Z) : mem bool :=
  _ ← massert (is_str bits);
  if str_is_inline_bits bits then s ← str_as_bytes bits; mret (is_ascii s)
  else
    let hdr := str_hdr bits in
    rc_type ← read_rc_type hdr;
    if negb (Z.land rc_type STR_ASCII_COMPUTED =? 0) then mret (negb (Z.land rc_type STR_IS_ASCII =? 0))
    else
      s ← str_as_bytes bits;
      let ascii := is_ascii s in
      let new_flag := if ascii then Z.lor STR_IS_ASCII STR_ASCII_COMPUTED else STR_ASCII_COMPUTED in
      _ ← write_rc_type hdr (Z.lor rc_type new_flag);
      mret ascii.

(** ** Lengths and offsets in code points *)

Definition str_unicode_state_slot (bits : Z) : mem StateSlot :=
  let hdr := str_hdr bits in
  rc_type ← read_rc_type hdr;
  mret (if Z.land rc_type STR_TYPE_B =? 0 then OwnedState hdr else SliceState hdr).

Definition has_len_tag (state : Z) : bool := negb (Z.land state STR_CODEPOINT_LEN_TAG =? 0).

Definition codepoints_of (bits : Z) : mem Z :=
  s ← str_as_bytes bits; pure_res (utf8_codepoint_count s).

Definition str_unicode_len (bits : Z) : mem Z :=
  _ ← massert (is_str bits && negb (str_is_inline_bits bits));
  slot ← str_unicode_state_slot bits;
  state ← read_state slot;
  if has_len_tag state then mret (Z.shiftr state STR_CODEPOINT_LEN_SHIFT)
  else if negb (state =? 0) then cache ← box_deref state; mret (Z.of_nat (codepoint_len cache))
  else
    len ← codepoints_of bits;
    _ ← write_state slot (Z.lor (Z.shiftl len STR_CODEPOINT_LEN_SHIFT) STR_CODEPOINT_LEN_TAG);
    mret len.

(** The address of the cache. *)
Definition str_unicode_cache (bits : Z) : mem Z :=
  _ ← massert (is_str bits && negb (str_is_inline_bits bits));
  slot ← str_unicode_state_slot bits;
  state ← read_state slot;
  if negb (state =? 0) && (Z.land state STR_CODEPOINT_LEN_TAG =? 0) then mret state
  else
    s ← str_as_bytes bits;
    cache ← pure_res (cache_build s);
    address ← box_into_raw cache;
    _ ← (if has_len_tag state
         then massert (Z.of_nat (codepoint_len cache) =? Z.shiftr state STR_CODEPOINT_LEN_SHIFT) else mret tt);
    _ ← write_state slot address;
    mret address.

Definition str_unicode_len_for_index (bits : Z) : mem Z :=
  _ ← massert (is_str bits && negb (str_is_inline_bits bits));
  slot ← str_unicode_state_slot bits;
  state ← read_state slot;
  if negb (state =? 0) && (Z.land state STR_CODEPOINT_LEN_TAG =? 0)
  then cache ← box_deref state; mret (Z.of_nat (codepoint_len cache))
  else if has_len_tag state then
    let len := Z.shiftr state STR_CODEPOINT_LEN_SHIFT in
    if Z.land state STR_CODEPOINT_INDEX_SEEN =? 0 then
      _ ← write_state slot (Z.lor state STR_CODEPOINT_INDEX_SEEN);
      mret len
    else
      address ← str_unicode_cache bits;
      cache ← box_deref address;
      mret (Z.of_nat (codepoint_len cache))
  else
    len ← codepoints_of bits;
    _ ← write_state slot
      (Z.lor (Z.lor (Z.shiftl len STR_CODEPOINT_LEN_SHIFT) STR_CODEPOINT_LEN_TAG) STR_CODEPOINT_INDEX_SEEN);
    mret len.

(** [str_codepoint_len] and [str_codepoint_len_for_index] differ in the length
    they ask a heap string for. *)
Definition str_codepoint_len (bits : Z) : mem Z :=
  _ ← massert (is_str bits);
  s ← str_as_bytes bits;
  if str_is_inline_bits bits then pure_res (utf8_codepoint_count s)
  else
    ascii ← str_is_ascii bits;
    if ascii : bool then mret (vlen s) else str_unicode_len bits.

Definition str_codepoint_len_for_index (bits : Z) : mem Z :=
  _ ← massert (is_str bits);
  s ← str_as_bytes bits;
  if str_is_inline_bits bits then pure_res (utf8_codepoint_count s)
  else
    ascii ← str_is_ascii bits;
    if ascii : bool then mret (vlen s) else str_unicode_len_for_index bits.

(** The code calls itself once, after it has stored a length. *)
Fixpoint byte_offset_loop (fuel : nat) (bits : Z) (index : nat) : mem nat :=
  match fuel with
  | O => mfault NoFuel
  | S fuel =>
      _ ← massert (is_str bits);
      s ← str_as_bytes bits;
      if str_is_inline_bits bits then
        len ← pure_res (utf8_codepoint_count s);
        _ ← massert (Z.of_nat index <=? len);
        pure_res (uncached_utf8_byte_offset s index (Z.to_nat len))
      else
        ascii ← str_is_ascii bits;
        if ascii : bool then
          _ ← massert (index <=? length s)%nat;
          mret index
        else
          slot ← str_unicode_state_slot bits;
          state ← read_state slot;
          if has_len_tag state then
            let len := Z.shiftr state STR_CODEPOINT_LEN_SHIFT in
            _ ← massert (Z.of_nat index <=? len);
            pure_res (uncached_utf8_byte_offset s index (Z.to_nat len))
          else if state =? 0 then
            _ ← str_unicode_len bits;
            byte_offset_loop fuel bits index
          else
            cache ← box_deref state;
            _ ← massert (index <=? codepoint_len cache)%nat;
            pure_res (cache_byte_offset cache s index)
  end.

Definition str_codepoint_byte_offset (bits : Z) (index : nat) : mem nat := byte_offset_loop 2 bits index.

Definition str_codepoint_byte_range (bits : Z) (index : nat) : mem (nat * nat) :=
  start ← str_codepoint_byte_offset bits index;
  s ← str_as_bytes bits;
  _ ← massert (start <? length s)%nat;
  first ← pure_res (vnth s start);
  mret (start, start + utf8_codepoint_width first)%nat.

(** ** Appending in place *)

(** [realloc]: a block that is not the old one in place takes its contents. *)
Definition realloc_owned (hdr : Pointer) (old_size new_size : Z) (other : list Z) : mem (option Pointer) := λ h,
  match memory h !! ptr_base hdr with
  | Some (Owned rc_type sub_len state bytes) =>
      if bool_decide (ptr_offset hdr = 0 ∧ old_size = 16 + vlen bytes ∧ new_size = 16 + vlen (bytes ++ other)) then
        match realloc (memory h) (ptr_base hdr) new_size with
        | Some p =>
            (_ ← set_memory (λ m, <[p := Owned rc_type sub_len state (bytes ++ other)]> (delete (ptr_base hdr) m));
             mret (Some (from_addr p))) h
        | None => Go None h
        end
      else Fault Undefined
  | _ => Fault Undefined
  end.

Definition write_sub_len (header : Pointer) (sub_len : Z) : mem unit :=
  b ← read_block header;
  match b with
  | Owned rc_type _ state bytes => write_block header (Owned rc_type sub_len state bytes)
  | _ => mfault Undefined
  end.

(** The flags after an append, from those before. *)
Definition appended_rc_type (old_rc_type : Z) (other : list Z) : Z :=
  let old_computed := negb (Z.land old_rc_type STR_ASCII_COMPUTED =? 0) in
  let old_ascii := old_computed && negb (Z.land old_rc_type STR_IS_ASCII =? 0) in
  let base := Z.land old_rc_type (2 ^ 32 - 1 - Z.lor STR_IS_ASCII STR_ASCII_COMPUTED) in
  let new_flag :=
    if old_computed then
      if old_ascii && is_ascii other then Z.lor STR_IS_ASCII STR_ASCII_COMPUTED else STR_ASCII_COMPUTED
    else 0 in
  Z.lor base new_flag.

(** The writes to the reallocated block, and the value for it. *)
Definition finish_append (new_ptr : Pointer) (new_len : Z) (other : list Z) : mem (Z * bool) :=
  new_bits ← encode_str new_ptr;
  _ ← write_sub_len new_ptr new_len;
  old_rc_type ← read_rc_type new_ptr;
  _ ← write_rc_type new_ptr (appended_rc_type old_rc_type other);
  _ ← drop_state (OwnedState new_ptr);
  _ ← write_state (OwnedState new_ptr) 0;
  mret (new_bits, true).

(** The value afterwards, and whether the append happened. *)
Definition str_append_in_place (bits : Z) (other : list Z) : mem (Z * bool) :=
  if negb (is_str bits) then mret (bits, false)
  else if str_is_inline_bits bits then mret (bits, false)
  else
    let hdr := str_hdr bits in
    rc_type ← read_rc_type hdr;
    if negb (Z.land rc_type STR_TYPE_B =? 0) then mret (bits, false)
    else if negb (Z.shiftr rc_type 3 =? 1) then mret (bits, false)
    else if bool_decide (other = []) then mret (bits, true)
    else
      old_len ← read_sub_len hdr;
      let new_len := old_len + vlen other in
      if 2 ^ 32 - 1 <? new_len then mret (bits, false)
      else
        old_layout ← nanbox_owned_string_layout old_len;
        reallocated ← realloc_owned hdr old_layout (STR_OWNED_HEADER_SIZE + new_len) other;
        match reallocated with
        | None => mret (bits, false)
        | Some new_ptr => finish_append new_ptr new_len other
        end.

(** ** Strings in the interpreter

    [exec_binop_in_place] of two strings, [x += y] (fast_path/binary_support.rs),
    the registers of which hold [left] and [right], or one value both. *)
Definition str_concat_in_place (left right : Z) : mem Z :=
  right ← value_clone right;
  rhs ← str_as_bytes right;
  '(left, appended) ← str_append_in_place left rhs;
  result ← (if appended : bool then mret left
            else
              s ← str_as_bytes left;
              result ← value_string (s ++ rhs);
              _ ← value_drop left;
              mret result);
  _ ← value_drop right;
  mret result.

(** [target[idx]] for an index in range (expr/indexing.rs), with the character
    of an ASCII string built on its own (expr/slicing_fast.rs). *)
Definition str_index (target : Z) (idx : nat) : mem Z :=
  ascii ← str_is_ascii target;
  if ascii : bool then
    text ← str_as_bytes target;
    b ← pure_res (vnth text idx);
    value_string [b]
  else
    _ ← str_codepoint_len_for_index target;
    '(byte_start, byte_end) ← str_codepoint_byte_range target idx;
    string_slice target byte_start byte_end.

(** [fast_slice_contiguous] of a string. *)
Definition str_slice_contiguous (target : Z) (start fin : nat) (ascii : bool) : mem Z :=
  if (fin <=? start)%nat then value_string []
  else if ascii then string_slice target start fin
  else
    byte_start ← str_codepoint_byte_offset target start;
    byte_end ← str_codepoint_byte_offset target fin;
    string_slice target byte_start byte_end.

(** [target[start:fin]] for bounds in range (expr/slicing_membership.rs). *)
Definition str_subscript_slice (target : Z) (start fin : nat) : mem Z :=
  ascii ← str_is_ascii target;
  _ ← (if ascii : bool then s ← str_as_bytes target; mret (vlen s) else str_codepoint_len_for_index target);
  str_slice_contiguous target start fin ascii.
End strings.
