(* ===== verification/StrHeapSpec.v ===== *)
(** The invariant of the memory behind strings: every reference count is the
    number of values and slices that refer to the block, every cached flag,
    length and index is that of the bytes, every index has one owner, and the
    pool links the free slice blocks.

    How one change of memory carries the invariant of StrHeapSpec.v over: a
    block rewritten in place, a block added or freed, an index attached or
    dropped. *)

From stdpp Require Import gmap.
From S2P Require Import Outcome Prelude Keys IntBytes NanBox Utf8 StrHeap.

(** ** Header words *)

Definition low_bits (layout_b : bool) (flag : option bool) : Z :=
  bool_int layout_b + match flag with None => 0 | Some false => 4 | Some true => 6 end.

(** The word of a layout, what is known of ASCII-ness, and a count. *)
Definition header_word (layout_b : bool) (flag : option bool) (rc : Z) : Z := rc * 2 ^ 3 + low_bits layout_b flag.

Lemma low_bits_range layout_b flag : 0 ≤ low_bits layout_b flag < 2 ^ 3.
Proof. by destruct layout_b, flag as [[]|]. Qed.

Lemma land_split x y k : 0 ≤ k → Z.land x y = Z.land (x / 2 ^ k) (y / 2 ^ k) * 2 ^ k + Z.land (x mod 2 ^ k) (y mod 2 ^ k).
Proof.
  intros Hk. rewrite <- !Z.shiftr_div_pow2, <- Z.shiftr_land, <- !Z.land_ones, Z.shiftr_div_pow2 by done.
  assert (Hones : Z.land (Z.land x (Z.ones k)) (Z.land y (Z.ones k)) = Z.land x y mod 2 ^ k).
  { rewrite <- Z.land_ones, (Z.land_comm y), Z.land_assoc by done.
    by rewrite <- (Z.land_assoc x), Z.land_diag, <- Z.land_assoc, (Z.land_comm (Z.ones k)), Z.land_assoc. }
  rewrite Hones, (Z.mul_comm _ (2 ^ k)). apply Z.div_mod. by apply Z.pow_nonzero.
Qed.

Section word.
  Context (layout_b : bool) (flag : option bool) (rc : Z).
  Abbreviation w := (header_word layout_b flag rc).

Lemma header_word_div : w / 2 ^ 3 = rc.
Proof. unfold header_word. pose proof (low_bits_range layout_b flag). rewrite Z.div_add_l, Z.div_small by lia. lia. Qed.

Lemma header_word_mod : w mod 2 ^ 3 = low_bits layout_b flag.
Proof. unfold header_word. pose proof (low_bits_range layout_b flag). by rewrite Z.add_comm, Z.mod_add, Z.mod_small by lia. Qed.

Lemma header_word_rc : Z.shiftr w 3 = rc.
Proof. rewrite Z.shiftr_div_pow2 by done. apply header_word_div. Qed.

Lemma header_word_land c : 0 ≤ c < 2 ^ 3 → Z.land w c = Z.land (low_bits layout_b flag) c.
Proof.
  intros Hc. rewrite (land_split _ c 3), header_word_mod by done. by rewrite (Z.div_small c), Z.land_0_r, (Z.mod_small c) by done.
Qed.

Lemma header_word_lor c : 0 ≤ c < 2 ^ 3 → Z.lor w c = rc * 2 ^ 3 + Z.lor (low_bits layout_b flag) c.
Proof.
  intros Hc. pose proof (low_bits_range layout_b flag). unfold header_word. rewrite <- shifted_lor, <- Z.lor_assoc by lia.
  apply shifted_lor; [lia|]. split; [apply Z.lor_nonneg; lia|].
  destruct (decide (Z.lor (low_bits layout_b flag) c = 0)) as [->|]; [lia|].
  apply Z.log2_lt_pow2; [pose proof (proj2 (Z.lor_nonneg (low_bits layout_b flag) c)); lia|].
  rewrite Z.log2_lor by lia. apply Z.max_lub_lt.
  - destruct (decide (low_bits layout_b flag = 0)) as [->|]; [cbn; lia|]. apply Z.log2_lt_pow2; lia.
  - destruct (decide (c = 0)) as [->|]; [cbn; lia|]. apply Z.log2_lt_pow2; lia.
Qed.

Lemma header_word_incr : w + STR_RC_ONE = header_word layout_b flag (rc + 1).
Proof. unfold header_word, STR_RC_ONE. lia. Qed.

Lemma header_word_decr : w - STR_RC_ONE = header_word layout_b flag (rc - 1).
Proof. unfold header_word, STR_RC_ONE. lia. Qed.

Lemma header_word_layout : (Z.land w STR_TYPE_B =? 0) = negb layout_b.
Proof. rewrite header_word_land by done. by destruct layout_b, flag as [[]|]. Qed.

Lemma header_word_computed : (Z.land w STR_ASCII_COMPUTED =? 0) = bool_decide (flag = None).
Proof. rewrite header_word_land by done. by destruct layout_b, flag as [[]|]. Qed.

Lemma header_word_ascii : (Z.land w STR_IS_ASCII =? 0) = negb (bool_decide (flag = Some true)).
Proof. rewrite header_word_land by done. by destruct layout_b, flag as [[]|]. Qed.

Lemma header_word_known_ascii :
  (Z.land w (Z.lor STR_ASCII_COMPUTED STR_IS_ASCII) =? Z.lor STR_ASCII_COMPUTED STR_IS_ASCII) = bool_decide (flag = Some true).
Proof. rewrite header_word_land by done. by destruct layout_b, flag as [[]|]. Qed.
End word.

Lemma header_word_set_flag (layout_b : bool) rc (ascii : bool) :
  Z.lor (header_word layout_b None rc) (if ascii then Z.lor STR_IS_ASCII STR_ASCII_COMPUTED else STR_ASCII_COMPUTED) =
    header_word layout_b (Some ascii) rc.
Proof. rewrite header_word_lor by by destruct ascii. unfold header_word. f_equal. by destruct layout_b, ascii. Qed.

(** The word a block is initialised with. *)
Lemma header_word_init (layout_b : bool) (flag : option bool) :
  Z.lor (if layout_b then Z.lor STR_RC_ONE STR_TYPE_B else STR_RC_ONE)
    match flag with None => 0 | Some false => STR_ASCII_COMPUTED | Some true => Z.lor STR_IS_ASCII STR_ASCII_COMPUTED end =
  header_word layout_b flag 1.
Proof. by destruct layout_b, flag as [[]|]. Qed.

Lemma appended_header_word flag rc other :
  0 ≤ rc < 2 ^ 29 →
  appended_rc_type (header_word false flag rc) other = header_word false ((λ ascii, ascii && is_ascii other) <$> flag) rc.
Proof.
  intros Hrc. unfold appended_rc_type. rewrite header_word_computed, header_word_ascii.
  assert (Hbase : Z.land (header_word false flag rc) (2 ^ 32 - 1 - Z.lor STR_IS_ASCII STR_ASCII_COMPUTED) = header_word false None rc).
  { rewrite (land_split _ _ 3), header_word_div, header_word_mod by lia.
    change ((2 ^ 32 - 1 - Z.lor STR_IS_ASCII STR_ASCII_COMPUTED) / 2 ^ 3) with (Z.ones 29).
    rewrite Z.land_ones, Z.mod_small by lia. unfold header_word. f_equal. by destruct flag as [[]|]. }
  rewrite Hbase. destruct flag as [[]|].
  - exact (header_word_set_flag false rc (is_ascii other)).
  - exact (header_word_set_flag false rc false).
  - exact (Z.lor_0_r _).
Qed.

(** ** Counting blocks *)

Definition ind (b : bool) : nat := if b then 1 else 0.

Definition count (P : block → bool) (m : gmap Z block) : nat := size (filter (λ kv, P kv.2 = true) m).

Lemma count_insert P m a b : m !! a = None → count P (<[a := b]> m) = (ind (P b) + count P m)%nat.
Proof.
  intros Ha. unfold count. destruct (P b) eqn:Hb.
  - rewrite map_filter_insert_True, map_size_insert_None by (done || by apply map_lookup_filter_None; left). done.
  - rewrite map_filter_insert_False, delete_id by (cbn; congruence). done.
Qed.

Lemma count_delete P m a b : m !! a = Some b → count P m = (ind (P b) + count P (delete a m))%nat.
Proof. intros Ha. rewrite <- (insert_delete_id m a b) at 1 by done. apply count_insert, lookup_delete_eq. Qed.

Lemma count_update P m a b b' :
  m !! a = Some b → (count P (<[a := b']> m) + ind (P b))%nat = (count P m + ind (P b'))%nat.
Proof.
  intros Ha. rewrite <- insert_delete_eq, count_insert, (count_delete P m a b) by (done || apply lookup_delete_eq). lia.
Qed.

Lemma count_pos P m a b : m !! a = Some b → P b = true → (0 < count P m)%nat.
Proof. intros Ha Hb. rewrite (count_delete P m a b), Hb by done. cbn. lia. Qed.

Lemma count_two P m a b a' b' :
  m !! a = Some b → P b = true → m !! a' = Some b' → P b' = true → a ≠ a' → (1 < count P m)%nat.
Proof.
  intros Ha Hb Ha' Hb' Hne. rewrite (count_delete P m a b), Hb by done.
  enough (0 < count P (delete a m))%nat by (cbn; lia). apply (count_pos P _ a' b'); [by rewrite lookup_delete_ne|done].
Qed.

Lemma count_pos_inv P m : (0 < count P m)%nat → ∃ a b, m !! a = Some b ∧ P b = true.
Proof.
  intros Hpos. unfold count in Hpos. destruct (decide (filter (λ kv, P kv.2 = true) m = ∅)) as [He|Hne].
  - rewrite He, map_size_empty in Hpos. lia.
  - apply map_choose in Hne as (a & b & [Ha Hb]%map_lookup_filter_Some). eauto.
Qed.

(** ** References *)

(** The address a string value points to. *)
Definition value_addr (bits : Z) : option Z :=
  if str_is_inline_bits bits then None else Some (Z.land bits PAYLOAD_MASK).

Definition handles (values : list Z) (a : Z) : nat := length (filter (λ v, value_addr v = Some a) values).

Definition slice_of (a : Z) (b : block) : bool :=
  match b with Slice _ _ ref _ _ => ptr_base ref =? a | _ => false end.

Definition state_word (b : block) : option Z :=
  match b with Owned _ _ state _ | Slice _ _ _ _ state => Some state | _ => None end.

Definition owner_of (c : Z) (b : block) : bool := bool_decide (state_word b = Some c).

Definition refs (values : list Z) (m : gmap Z block) (a : Z) : nat := (handles values a + count (slice_of a) m)%nat.

Lemma handles_cons v values a : handles (v :: values) a = (ind (bool_decide (value_addr v = Some a)) + handles values a)%nat.
Proof. unfold handles. rewrite filter_cons. case_bool_decide; by case_decide. Qed.

#[export] Instance handles_Permutation : Proper ((≡ₚ) ==> eq ==> eq) handles.
Proof. intros l1 l2 Hl a ? <-. unfold handles. by rewrite Hl. Qed.

(** ** Texts *)

(** The bytes of a string: whole code points. *)
Definition text_ok (t : list Z) : Prop := Forall byte_range t ∧ ∃ cs, encodes cs t.

Definition block_bytes (b : block) : option (list Z) := match b with Owned _ _ _ bytes => Some bytes | _ => None end.
Definition block_cache (b : block) : option StrUnicodeCache := match b with Cache cache => Some cache | _ => None end.
Definition root_bytes (m : gmap Z block) (a : Z) : option (list Z) := m !! a ≫= block_bytes.
Definition cache_at (m : gmap Z block) (c : Z) : option StrUnicodeCache := m !! c ≫= block_cache.

(** The text of a block: its own bytes, or a range of another's. *)
Definition block_text (m : gmap Z block) (b : block) : option (list Z) :=
  match b with
  | Owned _ _ _ bytes => Some bytes
  | Slice _ sub_len ref offset _ =>
      bytes ← root_bytes m (ptr_base ref); Some (take (Z.to_nat sub_len) (drop (Z.to_nat offset) bytes))
  | _ => None
  end.

Definition str_bits (a : Z) : Z := TAG_STR * 2 ^ 48 + a.

(** Addresses a value can hold. *)
Definition str_address (a : Z) : Prop := payload a ∧ a mod 8 = 0 ∧ a ≠ 0.

(** The text a string value stands for. *)
Definition denotes (m : gmap Z block) (bits : Z) (t : list Z) : Prop :=
  (text_ok t ∧ (length t <= STR_INLINE_MAX)%nat ∧ bits = TAG_STR * 2 ^ 48 + inline_payload t) ∨
  (∃ a b, bits = str_bits a ∧ str_address a ∧ m !! a = Some b ∧ block_text m b = Some t).

(** ** The invariant *)

Definition rc_ok (n rc : Z) (k : nat) : Prop := 1 ≤ rc ≤ n ∧ rc ≤ STR_RC_MAX ∧ (rc = Z.of_nat k ∨ rc = STR_RC_MAX).

Definition len_word (t : list Z) (seen : bool) : Z := Z.of_nat (starts t) * 2 ^ 2 + (1 + 2 * bool_int seen).

(** What a state word knows of a text. *)
Definition state_ok (m : gmap Z block) (t : list Z) (state : Z) : Prop :=
  state = 0 ∨ (∃ seen, state = len_word t seen) ∨
  (good_address state ∧ ∃ cache, cache_at m state = Some cache ∧ cache_of t cache).

(** Shorter texts are kept in the value, longer ones nowhere. *)
Definition heap_len (t : list Z) : Prop := Z.of_nat STR_INLINE_MAX < vlen t ≤ STR_MAX_BYTE_LEN.

(** The header of a string block, of [n] increments in all. *)
Definition string_ok (values : list Z) (m : gmap Z block) (n a : Z) (layout_b : bool) (rc_type sub_len state : Z)
    (t : list Z) : Prop :=
  ∃ flag rc, rc_type = header_word layout_b flag rc ∧ (∀ ascii, flag = Some ascii → ascii = is_ascii t) ∧
    rc_ok n rc (refs values m a) ∧ sub_len = vlen t ∧ heap_len t ∧ text_ok t ∧ state_ok m t state ∧
    str_address a.

Definition block_ok (values : list Z) (m : gmap Z block) (n a : Z) (b : block) : Prop :=
  good_address a ∧
  match b with
  | Owned rc_type sub_len state bytes => string_ok values m n a false rc_type sub_len state bytes
  | Slice rc_type sub_len ref offset state =>
      ptr_offset ref = STR_OWNED_HEADER_SIZE + offset ∧ 0 ≤ offset ∧
      ∃ bytes, root_bytes m (ptr_base ref) = Some bytes ∧ offset + sub_len ≤ vlen bytes ∧
        string_ok values m n a true rc_type sub_len state (take (Z.to_nat sub_len) (drop (Z.to_nat offset) bytes))
  | Cache _ => count (owner_of a) m = 1%nat
  | FreeSlot _ => True
  | Uninit _ => False
  end.

Record inv (values : list Z) (m : gmap Z block) (n : Z) : Prop := {
  inv_blocks a b : m !! a = Some b → block_ok values m n a b;
  inv_values : Forall (λ v, ∃ t, denotes m v t) values;
}.

(** The free slots, linked from the head. *)
Fixpoint chain (m : gmap Z block) (head : Z) (slots : list Z) : Prop :=
  match slots with
  | [] => head = 0
  | a :: slots => head = a ∧ ∃ next, m !! a = Some (FreeSlot next) ∧ chain m next slots
  end.

Definition pool_ok (m : gmap Z block) (head len : Z) : Prop :=
  ∃ slots, chain m head slots ∧ NoDup slots ∧ len = vlen slots ∧ len ≤ POOL_B_CAP ∧
    ∀ a next, m !! a = Some (FreeSlot next) → a ∈ slots.

Definition heap_inv (values : list Z) (h : Heap) (n : Z) : Prop :=
  inv values (memory h) n ∧ pool_ok (memory h) (pool_head h) (pool_len h).

(** Texts of values that live on. *)
Definition keeps (values : list Z) (m m' : gmap Z block) : Prop :=
  ∀ v t, v ∈ values → denotes m v t → denotes m' v t.

Lemma keeps_refl values m : keeps values m m.
Proof. by intros v t _ Hv. Qed.

Lemma keeps_trans values m m' m'' : keeps values m m' → keeps values m' m'' → keeps values m m''.
Proof. intros H1 H2 v t Hv Ht. by apply H2, H1. Qed.

Lemma keeps_sub values values' m m' : (∀ v, v ∈ values' → v ∈ values) → keeps values m m' → keeps values' m m'.
Proof. intros Hsub Hk v t Hv. by apply Hk, Hsub. Qed.

Lemma keeps_values values m m' : Forall (λ v, ∃ t, denotes m v t) values → keeps values m m' → Forall (λ v, ∃ t, denotes m' v t) values.
Proof.
  intros Hv Hk. apply Forall_forall. intros v Hin. rewrite Forall_forall in Hv. destruct (Hv v Hin) as [t Ht].
  exists t. by apply Hk.
Qed.

(** ** Words of string values *)

Lemma str_bits_facts a :
  str_address a →
  is_str (str_bits a) = true ∧ (top16 (str_bits a) <=? TAG_INT) = false ∧ str_is_inline_bits (str_bits a) = false ∧
  str_hdr (str_bits a) = from_addr a ∧ value_addr (str_bits a) = Some a.
Proof.
  intros (Hp & Hmod & _). unfold is_str, str_hdr, value_addr, str_bits.
  rewrite heap_pointer_not_inline, tagged_top16, tagged_payload by done. done.
Qed.

Lemma inline_facts t :
  text_ok t → (length t <= STR_INLINE_MAX)%nat →
  let bits := TAG_STR * 2 ^ 48 + inline_payload t in
  is_str bits = true ∧ (top16 bits <=? TAG_INT) = false ∧ str_is_inline_bits bits = true ∧ inline_bytes bits = t ∧
  value_addr bits = None.
Proof.
  intros [Hb _] Hlen bits. pose proof (inline_payload_range t Hlen Hb). destruct (inline_bytes_eq t Hlen Hb) as [Hi He].
  unfold is_str, value_addr, bits. by rewrite tagged_top16, Hi, He.
Qed.

Lemma str_bits_inj a a' : str_bits a = str_bits a' → a = a'.
Proof. unfold str_bits. lia. Qed.


Lemma str_address_good a : str_address a → good_address a.
Proof. intros (Hp & Hmod & Hne). unfold good_address, payload, two64 in *. lia. Qed.

(** * Frames *)


(** ** What a block depends on *)

Lemma block_text_frame m m' b t :
  (∀ x, slice_of x b = true → root_bytes m x ≠ None → root_bytes m' x = root_bytes m x) →
  block_text m b = Some t → block_text m' b = Some t.
Proof.
  intros Hroot. destruct b as [| rc len ref off st | | |]; cbn [block_text]; try done.
  destruct (root_bytes m (ptr_base ref)) as [bytes|] eqn:Hr; cbn [mbind option_bind]; [|done].
  intros Ht. rewrite Hroot, Hr; [done|cbn; by rewrite Z.eqb_refl|by rewrite Hr].
Qed.

Lemma state_ok_frame m m' t state :
  (∀ k, cache_at m state = Some k → cache_at m' state = Some k) → state_ok m t state → state_ok m' t state.
Proof. intros Hc [?|[?|(? & k & ? & ?)]]; [by left|by right; left|]. right. right. eauto 10. Qed.

Lemma rc_ok_mono n n' rc k : n ≤ n' → rc_ok n rc k → rc_ok n' rc k.
Proof. unfold rc_ok. intros ? (? & ? & ?). split_and!; try done; lia. Qed.

Lemma block_ok_frame values values' m m' n n' a b :
  n ≤ n' →
  refs values' m' a = refs values m a →
  (∀ x, slice_of x b = true → root_bytes m' x = root_bytes m x) →
  (∀ c k, state_word b = Some c → cache_at m c = Some k → cache_at m' c = Some k) →
  (block_cache b ≠ None → count (owner_of a) m' = count (owner_of a) m) →
  block_ok values m n a b → block_ok values' m' n' a b.
Proof.
  intros Hn Hrefs Hroot Hcache Hcount [Hgood Hb]. split; [done|].
  destruct b as [rc len st bytes|rc len ref off st|k|next|size]; cbn [state_word slice_of block_cache] in *; try done.
  - destruct Hb as (flag & r & Hh & Hflag & Hrc & Hlen & Hmax & Ht & Hst & Haddr). exists flag, r. rewrite Hrefs.
    split_and!; try done; [by eapply rc_ok_mono..|]. eapply state_ok_frame; [|done]. intros k Hk. by apply Hcache.
  - destruct Hb as (Hoff & Hpos & bytes & Hbytes & Hle & flag & r & Hh & Hflag & Hrc & Hlen & Hmax & Ht & Hst & Haddr).
    split; [done|]. split; [done|]. exists bytes. rewrite Hroot by apply Z.eqb_refl. split; [done|]. split; [done|].
    exists flag, r. rewrite Hrefs. split_and!; try done; [by eapply rc_ok_mono..|].
    eapply state_ok_frame; [|done]. intros k Hk. by apply Hcache.
  - by rewrite Hcount.
Qed.

(** A value's text is the same where its block and its root are. *)
Lemma denotes_frame m m' v t :
  (∀ a b, value_addr v = Some a → m !! a = Some b → block_text m b = Some t →
    ∃ b', m' !! a = Some b' ∧ block_text m' b' = Some t) →
  denotes m v t → denotes m' v t.
Proof.
  intros Hb [Hin|(a & b & -> & Haddr & Ha & Ht)]; [by left|]. right.
  destruct (str_bits_facts a Haddr) as (_ & _ & _ & _ & Hv). destruct (Hb a b Hv Ha Ht) as (b' & Hb' & Htext).
  by exists a, b'.
Qed.

(** ** Facts from the invariant *)

Section facts.
  Context (values : list Z) (m : gmap Z block) (n : Z) (Hinv : inv values m n).

Lemma inv_good a b : m !! a = Some b → good_address a.
Proof using Hinv. intros Ha. by destruct (inv_blocks _ _ _ Hinv a b Ha) as [? _]. Qed.

(** A slice's root is an owned block. *)
Lemma inv_slice_root a b x : m !! a = Some b → slice_of x b = true → root_bytes m x ≠ None.
Proof using Hinv.
  intros Ha Hs. destruct (inv_blocks _ _ _ Hinv a b Ha) as [_ Hb].
  destruct b as [|rc len ref off st| | |]; try done. cbn in Hs. apply Z.eqb_eq in Hs as <-.
  destruct Hb as (_ & _ & bytes & Hr & _). by rewrite Hr.
Qed.

(** Two blocks do not share an index. *)
Lemma inv_owner_unique a b a' b' c k :
  m !! a = Some b → m !! a' = Some b' → state_word b = Some c → state_word b' = Some c → cache_at m c = Some k → a = a'.
Proof using Hinv.
  intros Ha Ha' Hb Hb' Hc. destruct (decide (a = a')) as [|Hne]; [done|exfalso].
  unfold cache_at in Hc. destruct (m !! c) as [bc|] eqn:Hmc; [|done]. destruct bc; try done.
  destruct (inv_blocks _ _ _ Hinv c _ Hmc) as [_ Hcount]. cbn in Hcount.
  assert (1 < count (owner_of c) m)%nat; [|lia].
  apply (count_two (owner_of c) m a b a' b'); (done || by apply bool_decide_eq_true).
Qed.
End facts.

Lemma root_bytes_insert_ne m a b x : x ≠ a → root_bytes (<[a := b]> m) x = root_bytes m x.
Proof. intros Hne. unfold root_bytes. by rewrite lookup_insert_ne. Qed.
Lemma root_bytes_delete_ne m a x : x ≠ a → root_bytes (delete a m) x = root_bytes m x.
Proof. intros Hne. unfold root_bytes. by rewrite lookup_delete_ne. Qed.
Lemma cache_at_insert_ne m a b x : x ≠ a → cache_at (<[a := b]> m) x = cache_at m x.
Proof. intros Hne. unfold cache_at. by rewrite lookup_insert_ne. Qed.
Lemma cache_at_delete_ne m a x : x ≠ a → cache_at (delete a m) x = cache_at m x.
Proof. intros Hne. unfold cache_at. by rewrite lookup_delete_ne. Qed.

(** ** A block rewritten in place *)

(** The same bytes, the same root, the same index. *)
Definition same_shape (m : gmap Z block) (b b' : block) : Prop :=
  (∀ x, slice_of x b' = slice_of x b) ∧ block_bytes b' = block_bytes b ∧ block_cache b = None ∧ block_cache b' = None ∧
  (∀ m, block_text m b' = block_text m b) ∧ (∀ c, cache_at m c ≠ None → owner_of c b' = owner_of c b).

Section update.
  Context (m : gmap Z block) (a : Z) (b b' : block) (Ha : m !! a = Some b) (Hshape : same_shape m b b').

Lemma root_bytes_update x : root_bytes (<[a := b']> m) x = root_bytes m x.
Proof using Ha Hshape.
  destruct (decide (x = a)) as [->|]; [|by apply root_bytes_insert_ne]. unfold root_bytes.
  rewrite lookup_insert_eq, Ha. by destruct Hshape as (_ & ? & _).
Qed.

Lemma cache_at_update c : cache_at (<[a := b']> m) c = cache_at m c.
Proof using Ha Hshape.
  destruct (decide (c = a)) as [->|]; [|by apply cache_at_insert_ne]. unfold cache_at.
  rewrite lookup_insert_eq, Ha. cbn. by destruct Hshape as (_ & _ & -> & -> & _).
Qed.

Lemma slices_update x : count (slice_of x) (<[a := b']> m) = count (slice_of x) m.
Proof using Ha Hshape. pose proof (count_update (slice_of x) m a b b' Ha). destruct Hshape as [Hs _]. rewrite Hs in *. lia. Qed.

Lemma keeps_update values : keeps values m (<[a := b']> m).
Proof using Ha Hshape.
  intros v t _. apply denotes_frame. intros x bx _ Hx Htext. destruct (decide (x = a)) as [->|Hne].
  - exists b'. rewrite lookup_insert_eq. split; [done|]. rewrite Ha in Hx. injection Hx as <-.
    destruct Hshape as (Hs & _ & _ & _ & Ht & _). rewrite Ht. eapply block_text_frame; [|done].
    intros. by rewrite root_bytes_update.
  - exists bx. rewrite lookup_insert_ne by done. split; [done|]. eapply block_text_frame; [|done].
    intros. by rewrite root_bytes_update.
Qed.

Lemma inv_update values values' n n' :
  inv values m n → n ≤ n' →
  (∀ x, x ≠ a → m !! x ≠ None → handles values' x = handles values x) →
  (∀ v, v ∈ values' → v ∈ values ∨ ∃ t, denotes m v t) →
  block_ok values' (<[a := b']> m) n' a b' →
  inv values' (<[a := b']> m) n'.
Proof using Ha Hshape.
  intros Hinv Hn Hhandles Hvalues Hok. split.
  - intros x bx Hx. destruct (decide (x = a)) as [->|Hne]; [rewrite lookup_insert_eq in Hx; by injection Hx as <-|].
    rewrite lookup_insert_ne in Hx by done.
    eapply (block_ok_frame values values' m); [done| | | | |by apply (inv_blocks _ _ _ Hinv)].
    + unfold refs. by rewrite slices_update, Hhandles by (done || by rewrite Hx).
    + intros. apply root_bytes_update.
    + intros. by rewrite cache_at_update.
    + intros Hcache. pose proof (count_update (owner_of x) m a b b' Ha). destruct Hshape as (_ & _ & _ & _ & _ & Ho).
      assert (Hcx : cache_at m x ≠ None) by (unfold cache_at; by rewrite Hx). rewrite (Ho x Hcx) in *. lia.
  - apply Forall_forall. intros v Hv. destruct (Hvalues v Hv) as [Hin|[t Ht]].
    + pose proof (inv_values _ _ _ Hinv) as Hall. rewrite Forall_forall in Hall. destruct (Hall v Hin) as [t Ht].
      exists t. by apply (keeps_update values).
    + exists t. apply (keeps_update [v]); [by left|done].
Qed.
End update.

(** ** A block added *)

Section insert.
  Context (m : gmap Z block) (a : Z) (b : block) (Ha : m !! a = None).

Lemma lookup_insert_old x bx : m !! x = Some bx → <[a := b]> m !! x = Some bx.
Proof using Ha. intros Hx. rewrite lookup_insert_ne; [done|congruence]. Qed.

Lemma root_bytes_insert x : root_bytes m x ≠ None → root_bytes (<[a := b]> m) x = root_bytes m x.
Proof using Ha.
  intros Hx. apply root_bytes_insert_ne. intros ->. apply Hx. unfold root_bytes. by rewrite Ha.
Qed.

Lemma cache_at_insert c : cache_at m c ≠ None → cache_at (<[a := b]> m) c = cache_at m c.
Proof using Ha. intros Hc. apply cache_at_insert_ne. intros ->. apply Hc. unfold cache_at. by rewrite Ha. Qed.

Lemma keeps_insert values : keeps values m (<[a := b]> m).
Proof using Ha.
  intros v t _. apply denotes_frame. intros x bx _ Hx Htext. exists bx. split; [by apply lookup_insert_old|].
  eapply block_text_frame; [|done]. intros y _. apply root_bytes_insert.
Qed.

Lemma inv_insert values values' n n' :
  inv values m n → n ≤ n' →
  (∀ x, m !! x ≠ None → refs values' (<[a := b]> m) x = refs values m x) →
  (∀ c, cache_at m c ≠ None → owner_of c b = false) →
  (∀ v, v ∈ values' → v ∈ values ∨ ∃ t, denotes (<[a := b]> m) v t) →
  block_ok values' (<[a := b]> m) n' a b →
  inv values' (<[a := b]> m) n'.
Proof using Ha.
  intros Hinv Hn Hrefs Howner Hvalues Hok. split.
  - intros x bx Hx. destruct (decide (x = a)) as [->|Hne]; [rewrite lookup_insert_eq in Hx; by injection Hx as <-|].
    rewrite lookup_insert_ne in Hx by done.
    eapply (block_ok_frame values values' m); [done| | | | |by apply (inv_blocks _ _ _ Hinv)].
    + apply Hrefs. by rewrite Hx.
    + intros y Hy. apply root_bytes_insert. by eapply inv_slice_root.
    + intros c k _ Hc. rewrite cache_at_insert by by rewrite Hc. done.
    + intros Hcache. rewrite count_insert by done. rewrite Howner; [done|]. unfold cache_at. by rewrite Hx.
  - apply Forall_forall. intros v Hv. destruct (Hvalues v Hv) as [Hin|[t Ht]]; [|by exists t].
    pose proof (inv_values _ _ _ Hinv) as Hall. rewrite Forall_forall in Hall. destruct (Hall v Hin) as [t Ht].
    exists t. by apply (keeps_insert values).
Qed.
End insert.

(** ** A block freed *)

Section delete.
  Context (m : gmap Z block) (a : Z) (b : block) (Ha : m !! a = Some b).

Lemma root_bytes_delete values n x bx y :
  inv values m n → count (slice_of a) m = 0%nat → m !! x = Some bx → slice_of y bx = true →
  root_bytes (delete a m) y = root_bytes m y.
Proof using Type.
  intros Hinv Hcount Hx Hy. apply root_bytes_delete_ne. intros ->. pose proof (count_pos (slice_of a) m x bx Hx Hy). lia.
Qed.

Lemma keeps_delete values values' n :
  inv values m n → count (slice_of a) m = 0%nat → handles values' a = 0%nat → keeps values' m (delete a m).
Proof using Type.
  intros Hinv Hcount Hhandles v t Hv. apply denotes_frame. intros x bx Haddr Hx Htext.
  assert (x ≠ a).
  { intros ->. unfold handles in Hhandles. apply length_zero_iff_nil in Hhandles.
    assert (Hf : v ∈ filter (λ v, value_addr v = Some a) values') by by apply list_elem_of_filter.
    rewrite Hhandles in Hf. by apply elem_of_nil in Hf. }
  exists bx. rewrite lookup_delete_ne by done. split; [done|]. eapply block_text_frame; [|done].
  intros y Hy _. by eapply root_bytes_delete.
Qed.

Lemma inv_delete values values' n :
  inv values m n → block_cache b = None →
  (∀ c, cache_at m c ≠ None → owner_of c b = false) →
  count (slice_of a) m = 0%nat → handles values' a = 0%nat →
  (∀ x, x ≠ a → m !! x ≠ None → refs values' (delete a m) x = refs values m x) →
  (∀ v, v ∈ values' → v ∈ values ∨ ∃ t, denotes m v t) →
  inv values' (delete a m) n.
Proof using Ha.
  intros Hinv Hcache Howner Hcount Hhandles Hrefs Hvalues. split.
  - intros x bx [Hne Hx]%lookup_delete_Some.
    eapply (block_ok_frame values values' m); [done| | | | |by apply (inv_blocks _ _ _ Hinv)].
    + apply Hrefs; [done|by rewrite Hx].
    + intros y Hy. by eapply root_bytes_delete.
    + intros c k _ Hc. rewrite cache_at_delete_ne; [done|]. intros ->. unfold cache_at in Hc. rewrite Ha in Hc. cbn in Hc. congruence.
    + intros Hcx. rewrite (count_delete (owner_of x) m a b Ha), Howner; [done|]. unfold cache_at. by rewrite Hx.
  - apply Forall_forall. intros v Hv. destruct (Hvalues v Hv) as [Hin|[t Ht]].
    + pose proof (inv_values _ _ _ Hinv) as Hall. rewrite Forall_forall in Hall. destruct (Hall v Hin) as [t Ht].
      exists t. by eapply keeps_delete.
    + exists t. by eapply keeps_delete.
Qed.
End delete.

(** ** Indexes *)

Definition with_state (b : block) (state : Z) : block :=
  match b with
  | Owned rc_type sub_len _ bytes => Owned rc_type sub_len state bytes
  | Slice rc_type sub_len ref offset _ => Slice rc_type sub_len ref offset state
  | _ => b
  end.

Lemma with_state_facts b old state :
  state_word b = Some old →
  state_word (with_state b state) = Some state ∧ (∀ x, slice_of x (with_state b state) = slice_of x b) ∧
  block_bytes (with_state b state) = block_bytes b ∧ block_cache (with_state b state) = None ∧ block_cache b = None ∧
  (∀ m, block_text m (with_state b state) = block_text m b).
Proof. by destruct b. Qed.

(** Another state word for a block: what a block promises of it. *)
Lemma block_ok_state values values' m m' n a b old state t :
  block_ok values m n a b → state_word b = Some old → block_text m b = Some t →
  refs values' m' a = refs values m a →
  (∀ x, slice_of x b = true → root_bytes m' x = root_bytes m x) →
  state_ok m' t state → block_ok values' m' n a (with_state b state).
Proof.
  intros [Hgood Hb] Hw Ht Hrefs Hroot Hst. split; [done|]. destruct b as [rc len st bytes|rc len ref off st| | |]; try done; cbn [with_state].
  - injection Ht as ->. destruct Hb as (flag & r & Hh & Hflag & Hrc & Hlen & Hmax & Htx & _ & Haddr). exists flag, r. by rewrite Hrefs.
  - destruct Hb as (Hoff & Hpos & bytes & Hbytes & Hle & flag & r & Hh & Hflag & Hrc & Hlen & Hmax & Htx & _ & Haddr).
    split; [done|]. split; [done|]. exists bytes. rewrite Hroot by apply Z.eqb_refl. split; [done|]. split; [done|].
    cbn [block_text] in Ht. rewrite Hbytes in Ht. cbn in Ht. injection Ht as Ht. rewrite Ht in *.
    exists flag, r. by rewrite Hrefs.
Qed.

Lemma len_word_not_good t seen : ¬ good_address (len_word t seen).
Proof. intros [_ Hmod]. unfold len_word in Hmod. destruct seen; cbn [bool_int] in Hmod; Z.div_mod_to_equations; lia. Qed.

Lemma owner_of_word b s c : state_word b = Some s → owner_of c b = bool_decide (s = c).
Proof. intros Hs. unfold owner_of. rewrite Hs. by repeat case_bool_decide; simplify_eq. Qed.

(** A state word is zero, a length, or the address of an index. *)
Lemma inv_state values m n a b state t :
  inv values m n → m !! a = Some b → state_word b = Some state → block_text m b = Some t → state_ok m t state.
Proof.
  intros Hinv Ha Hs Ht. destruct (inv_blocks _ _ _ Hinv a b Ha) as [_ Hb]. destruct b as [| rc len ref off st| | |]; try done.
  - injection Hs as <-. injection Ht as <-. by destruct Hb as (? & ? & _ & _ & _ & _ & _ & _ & Hst & _).
  - injection Hs as <-. destruct Hb as (_ & _ & bytes & Hr & _ & ? & ? & _ & _ & _ & _ & _ & _ & Hst & _).
    cbn [block_text] in Ht. rewrite Hr in Ht. cbn in Ht. by injection Ht as <-.
Qed.

Lemma inv_text values m n a b state :
  inv values m n → m !! a = Some b → state_word b = Some state → ∃ t, block_text m b = Some t ∧ text_ok t.
Proof.
  intros Hinv Ha Hs. destruct (inv_blocks _ _ _ Hinv a b Ha) as [_ Hb]. destruct b as [| rc len ref off st| | |]; try done.
  - destruct Hb as (? & ? & _ & _ & _ & _ & _ & Ht & _). cbn. eauto.
  - destruct Hb as (_ & _ & bytes & Hr & _ & ? & ? & _ & _ & _ & _ & _ & Ht & _). cbn [block_text]. rewrite Hr. cbn. eauto.
Qed.

(** No block holds the address of one that is not an index. *)
Lemma inv_no_owner values m n c : inv values m n → good_address c → cache_at m c = None → count (owner_of c) m = 0%nat.
Proof.
  intros Hinv Hc Hnone. destruct (count (owner_of c) m) as [|k] eqn:Hk; [done|exfalso].
  destruct (count_pos_inv (owner_of c) m) as (a & b & Ha & Ho%bool_decide_eq_true); [lia|].
  destruct (inv_text _ _ _ _ _ _ Hinv Ha Ho) as (t & Ht & _).
  destruct (inv_state _ _ _ _ _ _ _ Hinv Ha Ho Ht) as [->|[[seen ->]|(_ & k' & Hk' & _)]].
  - destruct Hc. lia.
  - by apply len_word_not_good in Hc.
  - congruence.
Qed.

Section index.
  Context (values : list Z) (m : gmap Z block) (n a : Z) (b : block) (state : Z).
  Context (Hinv : inv values m n) (Ha : m !! a = Some b) (Hstate : state_word b = Some state).

Lemma string_block_ne_cache c k : cache_at m c = Some k → c ≠ a.
Proof using Ha Hstate. intros Hc ->. unfold cache_at in Hc. rewrite Ha in Hc. by destruct b. Qed.

(** A state word replaced by one that is no address. *)
Lemma same_shape_state state' : cache_at m state = None → cache_at m state' = None → same_shape m b (with_state b state').
Proof using Hstate.
  intros Hold Hnew. destruct (with_state_facts b state state' Hstate) as (Hw & Hs & Hbytes & Hc & Hc' & Ht).
  split_and!; try done. intros c Hcache. unfold owner_of. rewrite Hw, Hstate.
  rewrite !bool_decide_eq_false_2; [done|by intros [= ->]..].
Qed.

Lemma inv_set_state state' t :
  cache_at m state = None → block_text m b = Some t → (state' = 0 ∨ ∃ seen, state' = len_word t seen) →
  inv values (<[a := with_state b state']> m) n ∧ ∀ vs, keeps vs m (<[a := with_state b state']> m).
Proof using Hinv Ha Hstate.
  intros Hold Ht Hnew.
  assert (Hnone : cache_at m state' = None).
  { destruct (cache_at m state') as [k|] eqn:Hk; [|done]. exfalso. unfold cache_at in Hk.
    destruct (m !! state') as [bc|] eqn:Hbc; [|done]. pose proof (inv_good _ _ _ Hinv _ _ Hbc) as Hgood.
    destruct Hnew as [->|[seen ->]]; [destruct Hgood; lia|by eapply len_word_not_good]. }
  pose proof (same_shape_state state' Hold Hnone) as Hshape. split; [|intros vs; by apply (keeps_update m a b)].
  apply (inv_update m a b _ Ha Hshape values values n n Hinv); [done|done|by left|].
  eapply (block_ok_state values values m); [by apply (inv_blocks _ _ _ Hinv)|done|done| | |].
  - unfold refs. by rewrite (slices_update m a b).
  - intros. by rewrite (root_bytes_update m a b).
  - destruct Hnew as [->|[seen ->]]; [by left|right; left; by exists seen].
Qed.
End index.

(** An index built for a block: a new block for it, and its address there. *)
Lemma inv_attach_index values m n a b state c k t :
  inv values m n → m !! a = Some b → state_word b = Some state → cache_at m state = None → block_text m b = Some t →
  m !! c = None → good_address c → cache_of t k →
  inv values (<[a := with_state b c]> (<[c := Cache k]> m)) n ∧
  ∀ vs, keeps vs m (<[a := with_state b c]> (<[c := Cache k]> m)).
Proof.
  intros Hinv Ha Hstate Hold Ht Hc Hgood Hk. assert (Hne : a ≠ c) by congruence.
  destruct (with_state_facts b state c Hstate) as (Hw & Hs & Hbytes & Hcb' & Hcb & Htext).
  set (m1 := <[c := Cache k]> m). assert (Ha1 : m1 !! a = Some b) by (unfold m1; by rewrite lookup_insert_ne).
  assert (Hroot : ∀ x, root_bytes (<[a := with_state b c]> m1) x = root_bytes m1 x).
  { intros x. destruct (decide (x = a)) as [->|]; [|by apply root_bytes_insert_ne].
    unfold root_bytes. rewrite lookup_insert_eq, Ha1. cbn. by rewrite Hbytes. }
  assert (Hroot1 : ∀ x, root_bytes m1 x = root_bytes m x).
  { intros x. destruct (decide (x = c)) as [->|]; [|by apply root_bytes_insert_ne].
    unfold root_bytes, m1. by rewrite lookup_insert_eq, Hc. }
  assert (Hslices : ∀ x, count (slice_of x) (<[a := with_state b c]> m1) = count (slice_of x) m).
  { intros x. pose proof (count_update (slice_of x) m1 a b (with_state b c) Ha1) as Hu. rewrite Hs in Hu.
    unfold m1 in Hu at 2. rewrite (count_insert (slice_of x) m c) in Hu by done. cbn [slice_of ind] in Hu. lia. }
  assert (Hkeeps : ∀ vs, keeps vs m (<[a := with_state b c]> m1)).
  { intros vs v t' _. apply denotes_frame. intros x bx _ Hx Htx. destruct (decide (x = a)) as [->|Hxa].
    - exists (with_state b c). rewrite lookup_insert_eq. split; [done|]. rewrite Ha in Hx. injection Hx as <-.
      rewrite Htext. eapply block_text_frame; [|done]. intros. by rewrite Hroot.
    - exists bx. rewrite lookup_insert_ne by done. unfold m1. rewrite lookup_insert_ne by congruence. split; [done|].
      eapply block_text_frame; [|done]. intros. by rewrite Hroot. }
  split; [|done]. split; [|by eapply keeps_values; [apply (inv_values _ _ _ Hinv)|]].
  intros x bx Hx. destruct (decide (x = a)) as [->|Hxa]; [|destruct (decide (x = c)) as [->|Hxc]].
  - rewrite lookup_insert_eq in Hx. injection Hx as <-.
    eapply (block_ok_state values values m); [by apply (inv_blocks _ _ _ Hinv)|done|done| | |].
    + unfold refs. by rewrite Hslices.
    + intros. by rewrite Hroot.
    + right. right. split; [done|]. exists k. split; [|done]. rewrite cache_at_insert_ne by done.
      unfold cache_at, m1. by rewrite lookup_insert_eq.
  - rewrite lookup_insert_ne in Hx by done. unfold m1 in Hx. rewrite lookup_insert_eq in Hx. injection Hx as <-.
    split; [done|]. pose proof (count_update (owner_of c) m1 a b (with_state b c) Ha1) as Hu.
    assert (Hnc : cache_at m c = None) by (unfold cache_at; by rewrite Hc). unfold m1 in Hu at 2. rewrite (count_insert (owner_of c) m c) in Hu by done.
    pose proof (inv_no_owner _ _ _ _ Hinv Hgood Hnc) as H0. rewrite (owner_of_word _ _ _ Hw), bool_decide_eq_true_2 in Hu by done.
    assert (Hob : owner_of c b = false).
    { apply not_true_iff_false. intros Ho. pose proof (count_pos (owner_of c) m a b Ha Ho). lia. }
    rewrite Hob in Hu. change (owner_of c (Cache k)) with false in Hu. cbn [ind] in Hu. lia.
  - rewrite lookup_insert_ne in Hx by done. unfold m1 in Hx. rewrite lookup_insert_ne in Hx by done.
    eapply (block_ok_frame values values m); [done| | | | |by apply (inv_blocks _ _ _ Hinv)].
    + unfold refs. by rewrite Hslices.
    + intros. by rewrite Hroot.
    + intros c' k' _ Hc'. rewrite cache_at_insert_ne by by apply (string_block_ne_cache m a b state Ha Hstate c' k'). unfold m1.
      rewrite cache_at_insert_ne; [done|]. intros ->. unfold cache_at in Hc'. by rewrite Hc in Hc'.
    + intros Hcx. pose proof (count_update (owner_of x) m1 a b (with_state b c) Ha1) as Hu. unfold m1 in Hu at 2.
      rewrite (count_insert (owner_of x) m c) in Hu by done. change (owner_of x (Cache k)) with false in Hu.
      rewrite (owner_of_word _ _ _ Hw), (owner_of_word _ _ _ Hstate), !bool_decide_eq_false_2 in Hu; [cbn [ind] in Hu; lia|congruence|].
      intros ->. apply Hcx. unfold cache_at in Hold. by rewrite Hx in Hold.
Qed.

(** An index freed, with the block that owned it out of its way. *)
Lemma inv_detach_index values m n a b c k :
  inv values m n → m !! a = Some b → state_word b = Some c → cache_at m c = Some k →
  inv values (delete c (<[a := with_state b 0]> m)) n ∧ ∀ vs, keeps vs m (delete c (<[a := with_state b 0]> m)).
Proof.
  intros Hinv Ha Hstate Hk. pose proof (string_block_ne_cache m a b c Ha Hstate c k Hk) as Hne.
  destruct (with_state_facts b c 0 Hstate) as (Hw & Hs & Hbytes & Hcb' & Hcb & Htext).
  assert (Hmc : m !! c = Some (Cache k)).
  { unfold cache_at in Hk. destruct (m !! c) as [[]|]; cbn in Hk; congruence. }
  set (m1 := <[a := with_state b 0]> m). assert (Hc1 : m1 !! c = Some (Cache k)) by (unfold m1; by rewrite lookup_insert_ne).
  assert (Hroot : ∀ x, root_bytes (delete c m1) x = root_bytes m x).
  { intros x. destruct (decide (x = c)) as [->|Hxc].
    - unfold root_bytes. by rewrite lookup_delete_eq, Hmc.
    - rewrite root_bytes_delete_ne by done. destruct (decide (x = a)) as [->|]; [|by apply root_bytes_insert_ne].
      unfold root_bytes, m1. rewrite lookup_insert_eq, Ha. cbn. by rewrite Hbytes. }
  assert (Hslices : ∀ x, count (slice_of x) (delete c m1) = count (slice_of x) m).
  { intros x. pose proof (count_update (slice_of x) m a b (with_state b 0) Ha) as Hu. rewrite Hs in Hu.
    fold m1 in Hu. rewrite (count_delete (slice_of x) m1 c _ Hc1) in Hu. cbn [slice_of ind] in Hu. lia. }
  assert (Hkeeps : ∀ vs, keeps vs m (delete c m1)).
  { intros vs v t' _. apply denotes_frame. intros x bx Haddr Hx Htx. destruct (decide (x = a)) as [->|Hxa].
    - exists (with_state b 0). rewrite lookup_delete_ne by done. unfold m1. rewrite lookup_insert_eq. split; [done|].
      rewrite Ha in Hx. injection Hx as <-. rewrite Htext. eapply block_text_frame; [|done]. intros. by rewrite Hroot.
    - exists bx. rewrite lookup_delete_ne by (intros ->; rewrite Hmc in Hx; by injection Hx as <-). unfold m1.
      rewrite lookup_insert_ne by done. split; [done|]. eapply block_text_frame; [|done]. intros. by rewrite Hroot. }
  split; [|done]. split; [|by eapply keeps_values; [apply (inv_values _ _ _ Hinv)|]].
  intros x bx [Hxc Hx]%lookup_delete_Some. destruct (decide (x = a)) as [->|Hxa].
  - unfold m1 in Hx. rewrite lookup_insert_eq in Hx. injection Hx as <-.
    destruct (inv_text _ _ _ _ _ _ Hinv Ha Hstate) as (t & Ht & _).
    eapply (block_ok_state values values m); [by apply (inv_blocks _ _ _ Hinv)|done|done| | |by left].
    + unfold refs. by rewrite Hslices.
    + intros. apply Hroot.
  - unfold m1 in Hx. rewrite lookup_insert_ne in Hx by done.
    eapply (block_ok_frame values values m); [done| | | | |by apply (inv_blocks _ _ _ Hinv)].
    + unfold refs. by rewrite Hslices.
    + intros. apply Hroot.
    + intros c' k' Hbx Hc'. rewrite cache_at_delete_ne.
      * unfold m1. rewrite cache_at_insert_ne; [done|]. by apply (string_block_ne_cache m a b c Ha Hstate c' k').
      * intros ->. by pose proof (inv_owner_unique _ _ _ Hinv x bx a b c k' Hx Ha Hbx Hstate Hc').
    + intros Hcx. pose proof (count_update (owner_of x) m a b (with_state b 0) Ha) as Hu.
      fold m1 in Hu. rewrite (count_delete (owner_of x) m1 c _ Hc1) in Hu. change (owner_of x (Cache k)) with false in Hu.
      rewrite (owner_of_word _ _ _ Hw), (owner_of_word _ _ _ Hstate), !bool_decide_eq_false_2 in Hu; [cbn [ind] in Hu; lia| |congruence].
      intros <-. pose proof (inv_good _ _ _ Hinv _ _ Hx) as [? _]. lia.
Qed.

(** ** The pool *)

Definition is_free (b : option block) : bool := match b with Some (FreeSlot _) => true | _ => false end.

Lemma chain_frame m m' head slots : (∀ a, a ∈ slots → m' !! a = m !! a) → chain m head slots → chain m' head slots.
Proof.
  revert head. induction slots as [|a slots IH]; intros head Hm; [done|]. intros (-> & next & Ha & Hc). split; [done|].
  exists next. rewrite Hm by by left. split; [done|]. apply IH; [|done]. intros x Hx. apply Hm. by right.
Qed.

Lemma chain_free m head slots a : chain m head slots → a ∈ slots → is_free (m !! a) = true.
Proof.
  revert head. induction slots as [|x slots IH]; intros head Hc Ha; [by apply elem_of_nil in Ha|].
  destruct Hc as (-> & next & Hx & Hc). apply elem_of_cons in Ha as [->|Ha]; [by rewrite Hx|by eapply IH].
Qed.

(** Only free slots matter to the pool. *)
Lemma pool_frame m m' head len :
  (∀ a, is_free (m !! a) = true ∨ is_free (m' !! a) = true → m' !! a = m !! a) →
  pool_ok m head len → pool_ok m' head len.
Proof.
  intros Hm (slots & Hc & Hnd & Hlen & Hcap & Hall). exists slots. split_and!; try done.
  - eapply chain_frame; [|done]. intros a Ha. apply Hm. left. by eapply chain_free.
  - intros a next Ha. apply (Hall a next). rewrite <- Hm; [done|]. right. by rewrite Ha.
Qed.

Lemma pool_insert m a b head len :
  is_free (m !! a) = false → is_free (Some b) = false → pool_ok m head len → pool_ok (<[a := b]> m) head len.
Proof.
  intros Ha Hb. apply pool_frame. intros x Hx. destruct (decide (x = a)) as [->|]; [|by rewrite lookup_insert_ne].
  rewrite lookup_insert_eq in Hx. destruct Hx; congruence.
Qed.

Lemma pool_delete m a head len : is_free (m !! a) = false → pool_ok m head len → pool_ok (delete a m) head len.
Proof.
  intros Ha. apply pool_frame. intros x Hx. destruct (decide (x = a)) as [->|]; [|by rewrite lookup_delete_ne].
  rewrite lookup_delete_eq in Hx. destruct Hx; [congruence|done].
Qed.

Lemma pool_pop m head len :
  pool_ok m head len → 0 < len → ∃ next, m !! head = Some (FreeSlot next) ∧ pool_ok (delete head m) next (len - 1).
Proof.
  intros (slots & Hc & Hnd & -> & Hcap & Hall) Hpos. destruct slots as [|a slots]; [by cbn in Hpos|].
  destruct Hc as (-> & next & Ha & Hc). apply NoDup_cons in Hnd as [Hna Hnd]. exists next. split; [done|]. exists slots.
  rewrite vlen_cons in *. split_and!; try done; try lia.
  - eapply chain_frame; [|done]. intros x Hx. apply lookup_delete_ne. by intros ->.
  - intros x nx [Hne Hx]%lookup_delete_Some. specialize (Hall x nx Hx). apply elem_of_cons in Hall as [->|]; done.
Qed.

Lemma pool_push m head len p b :
  pool_ok m head len → len < POOL_B_CAP → m !! p = Some b → is_free (Some b) = false →
  pool_ok (<[p := FreeSlot head]> m) p (len + 1) ∧ (p =? head) && negb (head =? 0) = false.
Proof.
  intros (slots & Hc & Hnd & -> & Hcap & Hall) Hlen Hp Hb.
  assert (Hnp : p ∉ slots).
  { intros Hin. pose proof (chain_free _ _ _ _ Hc Hin) as Hf. rewrite Hp in Hf. congruence. }
  split.
  - exists (p :: slots). rewrite vlen_cons. split_and!; try lia.
    + split; [done|]. exists head. rewrite lookup_insert_eq. split; [done|]. eapply chain_frame; [|done].
      intros x Hx. apply lookup_insert_ne. by intros <-.
    + by apply NoDup_cons.
    + intros x nx. destruct (decide (x = p)) as [->|]; [by left|]. rewrite lookup_insert_ne by done.
      intros Hx. right. by eapply Hall.
  - destruct slots as [|a slots]; [cbn in Hc; subst; by rewrite andb_false_r|]. destruct Hc as (-> & _).
    destruct (Z.eqb_spec p a) as [->|]; [|done]. exfalso. apply Hnp. by left.
Qed.
