(* ===== verification/StrRefSpec.v ===== *)
(** What counting a reference up or down does to memory under the invariant of
    StrHeapSpec.v: cloning a string value, and dropping one with all that its
    last reference frees. *)

From stdpp Require Import gmap.
From S2P Require Import Outcome Prelude Keys IntBytes NanBox Utf8 StrHeap StrHeapSpec.

(** ** Computations over memory *)

Definition with_memory (h : Heap) (m : gmap Z block) : Heap :=
  {| memory := m; pool_head := pool_head h; pool_len := pool_len h |}.

Lemma bind_Go {A B} (m : mem A) (f : A → mem B) h a h' : m h = Go a h' → (m ≫= f) h = f a h'.
Proof. intros Hm. unfold mbind, mem_bind. by rewrite Hm. Qed.

Lemma bind_inv {A B} (m : mem A) (f : A → mem B) h b h' :
  (m ≫= f) h = Go b h' → ∃ a h1, m h = Go a h1 ∧ f a h1 = Go b h'.
Proof. unfold mbind, mem_bind. destruct (m h) as [a h1|]; [eauto|done]. Qed.

(** One step of a computation whose first action is known. *)
Ltac mstep H := erewrite bind_Go; [|exact H]; cbn beta zeta.

(** *** Blocks the computation does not know of

    A computation that went well goes the same way with one more block in
    memory, at an address other than [x]. *)
Definition framed_at (x : option Z) {A} (m : mem A) : Prop :=
  ∀ s d h a h', x ≠ Some s → memory h !! s = None → m h = Go a h' →
    memory h' !! s = None ∧ m (with_memory h (<[s := d]> (memory h))) = Go a (with_memory h' (<[s := d]> (memory h'))).

Abbreviation framed := (framed_at None).

Lemma framed_at_ret x {A} (a : A) : framed_at x (mret a).
Proof. intros s d h a' h' _ Hs [= <- <-]. done. Qed.

Lemma framed_at_fault x {A} f : framed_at x (@mfault A f).
Proof. by intros s d h a h'. Qed.

Lemma framed_at_bind x {A B} (m : mem A) (f : A → mem B) :
  framed_at x m → (∀ a, framed_at x (f a)) → framed_at x (m ≫= f).
Proof.
  intros Hm Hf s d h b h' Hx Hs (a & h1 & Ha & Hb)%bind_inv. destruct (Hm s d _ _ _ Hx Hs Ha) as [Hs1 Ha'].
  destruct (Hf a s d _ _ _ Hx Hs1 Hb) as [Hs' Hb']. split; [done|]. by mstep Ha'.
Qed.

Lemma framed_weaken x {A} (m : mem A) : framed m → framed_at x m.
Proof. intros Hm s d h a h' _. by apply Hm. Qed.

(** A block that was read is none but that block. *)
Lemma framed_read p {A} (k : block → mem A) : (∀ b, framed_at (Some (ptr_base p)) (k b)) → framed (b ← read_block p; k b).
Proof.
  intros Hk s d h a h' _ Hs Hrun. unfold read_block, mbind, mem_bind in *. cbn [memory with_memory].
  destruct (memory h !! ptr_base p) as [b|] eqn:Hp; [|done]. rewrite lookup_insert_ne, Hp by congruence.
  destruct (ptr_offset p =? 0); [|done]. apply (Hk b); [congruence|done|done].
Qed.

Lemma framed_set_memory x (f : gmap Z block → gmap Z block) :
  (∀ s d m, x ≠ Some s → m !! s = None → f m !! s = None ∧ f (<[s := d]> m) = <[s := d]> (f m)) → framed_at x (set_memory f).
Proof.
  intros Hf s d h a h' Hx Hs [= <- <-]. cbn [memory]. destruct (Hf s d (memory h) Hx Hs) as [Hn He].
  split; [done|]. unfold set_memory. cbn [memory with_memory]. by rewrite He.
Qed.

Lemma framed_write p b : framed_at (Some (ptr_base p)) (write_block p b).
Proof.
  apply framed_set_memory. intros s d m Hne Hs. rewrite lookup_insert_ne by congruence. split; [done|].
  apply insert_insert_ne. congruence.
Qed.

Lemma framed_delete a : framed_at (Some a) (set_memory (delete a)).
Proof.
  apply framed_set_memory. intros s d m Hne Hs. rewrite lookup_delete_ne by congruence. split; [done|].
  apply delete_insert_ne. congruence.
Qed.

#[local] Hint Resolve framed_at_ret framed_at_fault framed_write framed_delete framed_weaken : core.

Lemma framed_massert x b : framed_at x (massert b).
Proof. destruct b; [apply framed_at_ret|apply framed_at_fault]. Qed.

(** Reads and writes of fields. *)
Ltac solve_framed :=
  repeat first
    [ apply framed_at_ret | apply framed_at_fault | apply framed_massert | apply framed_write | apply framed_delete
    | match goal with
      | |- framed_at _ (match ?b with _ => _ end) => destruct b
      | |- framed_at None (read_block _ ≫= _) => apply framed_read; intros []
      | |- framed_at _ (_ ≫= _) => apply framed_at_bind; [|intros ?]
      end ].

Lemma framed_decrement p : framed (str_refcount_decrement p).
Proof. unfold str_refcount_decrement, read_rc_type, write_rc_type. solve_framed. Qed.

Lemma framed_free_owned p : framed (free_owned p).
Proof.
  unfold free_owned, drop_state, read_state, box_drop, read_sub_len, nanbox_owned_string_layout, dealloc.
  solve_framed; apply framed_delete.
Qed.

(** ** Headers and fields of a block *)

Definition rc_word (b : block) : option Z :=
  match b with Owned rc_type _ _ _ | Slice rc_type _ _ _ _ => Some rc_type | _ => None end.
Definition with_rc (b : block) (rc_type : Z) : block :=
  match b with
  | Owned _ sub_len state bytes => Owned rc_type sub_len state bytes
  | Slice _ sub_len ref offset state => Slice rc_type sub_len ref offset state
  | _ => b
  end.

Definition is_slice (b : block) : bool := match b with Slice _ _ _ _ _ => true | _ => false end.

Section fields.
  Context (h : Heap) (a : Z) (b : block) (Ha : memory h !! a = Some b).

Lemma read_block_eq : read_block (from_addr a) h = Go b h.
Proof using Ha. unfold read_block. cbn. by rewrite Ha. Qed.

Lemma read_rc_type_eq rc_type : rc_word b = Some rc_type → read_rc_type (from_addr a) h = Go rc_type h.
Proof using Ha. intros Hrc. pose proof read_block_eq as Hread. unfold read_rc_type. mstep Hread.
  destruct b; try done; by injection Hrc as ->. Qed.

Lemma write_rc_type_eq rc_type w :
  rc_word b = Some rc_type → write_rc_type (from_addr a) w h = Go tt (with_memory h (<[a := with_rc b w]> (memory h))).
Proof using Ha. intros Hrc. unfold write_rc_type. mstep read_block_eq. by destruct b. Qed.

Lemma slot_of rc_type : rc_word b = Some rc_type → ∃ slot,
  slot = (if is_slice b then SliceState (from_addr a) else OwnedState (from_addr a)) ∧
  (∀ state, state_word b = Some state → read_state slot h = Go state h) ∧
  ∀ state, write_state slot state h = Go tt (with_memory h (<[a := with_state b state]> (memory h))).
Proof using Ha.
  intros Hrc. pose proof read_block_eq as Hread. eexists. split; [done|]. split.
  - intros state Hs. destruct b; try done; cbn [is_slice read_state]; mstep Hread; by injection Hs as ->.
  - intros state. destruct b; try done; cbn [is_slice write_state]; by mstep Hread.
Qed.
End fields.

(** The header of a string block under the invariant. *)
Lemma inv_header values m n a b state :
  inv values m n → m !! a = Some b → state_word b = Some state →
  ∃ flag rc t, rc_word b = Some (header_word (is_slice b) flag rc) ∧ rc_ok n rc (refs values m a) ∧
    block_text m b = Some t ∧ text_ok t ∧ state_ok m t state ∧ str_address a ∧
    (∀ ascii, flag = Some ascii → ascii = is_ascii t) ∧ heap_len t ∧
    (∀ h, memory h = m → read_sub_len (from_addr a) h = Go (vlen t) h).
Proof.
  intros Hinv Ha Hs. destruct (inv_blocks _ _ _ Hinv a b Ha) as [_ Hb].
  destruct b as [rc len st bytes|rc len ref off st| | |]; try done; injection Hs as ->.
  - destruct Hb as (flag & r & -> & Hflag & Hrc & -> & Hmax & Ht & Hst & Haddr). exists flag, r, bytes. split_and!; try done.
    intros h <-. unfold read_sub_len. by mstep (read_block_eq h a _ Ha).
  - destruct Hb as (_ & _ & bytes & Hr & _ & flag & r & -> & Hflag & Hrc & Hlen & Hmax & Ht & Hst & Haddr).
    exists flag, r. eexists. cbn [block_text]. rewrite Hr. split_and!; try done.
    intros h <-. unfold read_sub_len. mstep (read_block_eq h a _ Ha). by rewrite <- Hlen.
Qed.

Lemma inv_string_block values m n a b rc_type :
  inv values m n → m !! a = Some b → rc_word b = Some rc_type → ∃ state, state_word b = Some state.
Proof. intros _ _ Hrc. destruct b; try done; eauto. Qed.

Lemma same_shape_rc m b w rc_type : rc_word b = Some rc_type → same_shape m b (with_rc b w).
Proof. by destruct b. Qed.

(** What a block promises, with another header word. *)
Lemma block_ok_rc values values' m m' n n' a b rc_type flag rc t :
  block_ok values m n a b → rc_word b = Some rc_type → block_text m b = Some t →
  (∀ ascii, flag = Some ascii → ascii = is_ascii t) → rc_ok n' rc (refs values' m' a) →
  (∀ x, root_bytes m' x = root_bytes m x) → (∀ c, cache_at m' c = cache_at m c) →
  block_ok values' m' n' a (with_rc b (header_word (is_slice b) flag rc)).
Proof.
  intros [Hgood Hb] Hw Ht Hflag Hrc Hroot Hcache. split; [done|].
  assert (Hst : ∀ st, state_ok m t st → state_ok m' t st).
  { intros st. apply state_ok_frame. intros k. by rewrite Hcache. }
  destruct b as [rcw len st bytes|rcw len ref off st| | |]; try done; cbn [with_rc is_slice].
  - injection Ht as ->. destruct Hb as (f & r & Hh & _ & _ & Hlen & Hmax & Htx & Hs & Haddr). exists flag, rc. split_and!; auto.
  - destruct Hb as (Hoff & Hpos & bytes & Hbytes & Hle & f & r & Hh & _ & _ & Hlen & Hmax & Htx & Hs & Haddr).
    split; [done|]. split; [done|]. exists bytes. rewrite Hroot. split; [done|]. split; [done|].
    cbn [block_text] in Ht. rewrite Hbytes in Ht. cbn in Ht. injection Ht as Ht. rewrite Ht in *. exists flag, rc. split_and!; auto.
Qed.

(** A header rewritten, with one handle more or less on its block. *)
Lemma heap_inv_rc values values' h n n' a b rc_type flag rc t :
  heap_inv values h n → memory h !! a = Some b → rc_word b = Some rc_type → block_text (memory h) b = Some t →
  (∀ ascii, flag = Some ascii → ascii = is_ascii t) → n ≤ n' →
  rc_ok n' rc (refs values' (memory h) a) →
  (∀ x, x ≠ a → handles values' x = handles values x) →
  (∀ v, v ∈ values' → v ∈ values ∨ v = str_bits a) →
  let h' := with_memory h (<[a := with_rc b (header_word (is_slice b) flag rc)]> (memory h)) in
  heap_inv values' h' n' ∧ ∀ vs, keeps vs (memory h) (memory h').
Proof.
  intros [Hinv Hpool] Ha Hw Ht Hflag Hn Hrc Hhandles Hvalues h'.
  destruct (inv_string_block _ _ _ _ _ _ Hinv Ha Hw) as [st Hst].
  destruct (inv_header _ _ _ _ _ _ Hinv Ha Hst) as (_ & _ & _ & _ & _ & _ & _ & _ & Haddr & _).
  pose proof (same_shape_rc (memory h) b (header_word (is_slice b) flag rc) rc_type Hw) as Hshape.
  split; [split|].
  - apply (inv_update (memory h) a b _ Ha Hshape values values' n n'); [done|done|auto| |].
    + intros v [Hv| ->]%Hvalues; [by left|]. right. exists t. right. by exists a, b.
    + apply (block_ok_rc values values' (memory h) _ n n' a b rc_type flag rc t); try done.
      * by apply (inv_blocks _ _ _ Hinv).
      * unfold refs. by rewrite (slices_update _ a b).
      * intros x. by apply (root_bytes_update _ a b).
      * intros x. by apply (cache_at_update _ a b).
  - cbn. apply pool_insert; [|by destruct b|done]. rewrite Ha. by destruct b.
  - intros vs. by apply (keeps_update _ a b).
Qed.

Lemma handles_str_bits values a x :
  str_address a → handles (str_bits a :: values) x = (ind (bool_decide (a = x)) + handles values x)%nat.
Proof.
  intros Ha. destruct (str_bits_facts a Ha) as (_ & _ & _ & _ & Hv). rewrite handles_cons, Hv.
  by repeat case_bool_decide; simplify_eq.
Qed.

Lemma refs_str_bits values m a : str_address a → refs (str_bits a :: values) m a = S (refs values m a).
Proof. intros Ha. unfold refs. rewrite handles_str_bits, bool_decide_eq_true_2 by done. done. Qed.

Lemma handles_str_bits_ne values a x : str_address a → x ≠ a → handles (str_bits a :: values) x = handles values x.
Proof. intros Ha Hx. by rewrite handles_str_bits, bool_decide_eq_false_2 by done. Qed.

Lemma with_memory_id h a b : memory h !! a = Some b → with_memory h (<[a := b]> (memory h)) = h.
Proof. intros Ha. unfold with_memory. rewrite insert_id by done. by destruct h. Qed.

Lemma with_rc_id b rc_type : rc_word b = Some rc_type → with_rc b rc_type = b.
Proof. destruct b; cbn; congruence. Qed.

(** One more reference. *)
Lemma increment_spec values h n a b state t :
  heap_inv values h n → memory h !! a = Some b → state_word b = Some state → block_text (memory h) b = Some t →
  ∃ w, let h' := with_memory h (<[a := with_rc b w]> (memory h)) in
    str_refcount_increment (from_addr a) h = Go tt h' ∧
    heap_inv (str_bits a :: values) h' (n + 1) ∧ (∀ vs, keeps vs (memory h) (memory h')) ∧ denotes (memory h') (str_bits a) t.
Proof.
  intros Hh Ha Hs Ht. pose proof Hh as [Hinv _].
  destruct (inv_header _ _ _ _ _ _ Hinv Ha Hs) as (flag & rc & t' & Hw & Hrc & Ht' & _ & _ & Haddr & Hflag & _).
  assert (t' = t) as -> by congruence.
  set (rc' := if rc =? STR_RC_MAX then rc else rc + 1). exists (header_word (is_slice b) flag rc'). cbn zeta.
  destruct (heap_inv_rc values (str_bits a :: values) h n (n + 1) a b _ flag rc' t Hh Ha Hw Ht Hflag) as [Hinv' Hkeeps]; [lia| | | |].
  - rewrite refs_str_bits by done. unfold rc_ok, rc' in *. destruct (Z.eqb_spec rc STR_RC_MAX); lia.
  - intros x Hx. by apply handles_str_bits_ne.
  - intros v [->|Hv]%elem_of_cons; [by right|by left].
  - split; [|split; [done|split; [done|]]].
    + unfold str_refcount_increment. mstep (read_rc_type_eq h a b Ha _ Hw). rewrite header_word_rc. unfold rc'.
      destruct (Z.eqb_spec rc STR_RC_MAX); cbn [negb].
      * by rewrite with_rc_id, with_memory_id.
      * rewrite header_word_incr. by apply (write_rc_type_eq h a b Ha _ _ Hw).
    + right. exists a, (with_rc b (header_word (is_slice b) flag rc')). split; [done|]. split; [done|].
      cbn [memory with_memory]. rewrite lookup_insert_eq. split; [done|].
      pose proof (same_shape_rc (memory h) b (header_word (is_slice b) flag rc') _ Hw) as Hshape.
      rewrite (proj1 (proj2 (proj2 (proj2 (proj2 Hshape))))). eapply block_text_frame; [|done].
      intros. by apply (root_bytes_update _ a b).
Qed.

(** One reference less: the block lives on, or nothing refers to it any more. *)
Lemma decrement_spec values h n a b state t :
  heap_inv (str_bits a :: values) h n → memory h !! a = Some b → state_word b = Some state → block_text (memory h) b = Some t →
  ∃ w (last : bool), let h' := with_memory h (<[a := with_rc b w]> (memory h)) in
    str_refcount_decrement (from_addr a) h = Go last h' ∧
    if last then refs values (memory h) a = 0%nat ∧ ∃ flag, w = header_word (is_slice b) flag 0
    else heap_inv values h' n ∧ keeps values (memory h) (memory h').
Proof.
  intros Hh Ha Hs Ht. pose proof Hh as [Hinv _].
  destruct (inv_header _ _ _ _ _ _ Hinv Ha Hs) as (flag & rc & t' & Hw & Hrc & Ht' & _ & _ & Haddr & Hflag & _).
  assert (t' = t) as -> by congruence. rewrite refs_str_bits in Hrc by done.
  assert (Hlive : ∀ rc', rc_ok n rc' (refs values (memory h) a) →
    let h' := with_memory h (<[a := with_rc b (header_word (is_slice b) flag rc')]> (memory h)) in
    heap_inv values h' n ∧ keeps values (memory h) (memory h')).
  { intros rc' Hrc'. destruct (heap_inv_rc (str_bits a :: values) values h n n a b _ flag rc' t Hh Ha Hw Ht Hflag) as [Hi Hk]; try done.
    - intros x Hx. by rewrite handles_str_bits_ne.
    - intros v Hv. left. by right. }
  unfold str_refcount_decrement. destruct (decide (rc = STR_RC_MAX)) as [->|Hne].
  - exists (header_word (is_slice b) flag STR_RC_MAX), false. cbn zeta. split.
    + mstep (read_rc_type_eq h a b Ha _ Hw). rewrite header_word_rc, Z.eqb_refl. by rewrite with_rc_id, with_memory_id.
    + apply Hlive. unfold rc_ok in *. lia.
  - exists (header_word (is_slice b) flag (rc - 1)), (rc - 1 =? 0). cbn zeta. split.
    + mstep (read_rc_type_eq h a b Ha _ Hw). rewrite header_word_rc, (proj2 (Z.eqb_neq _ _) Hne).
      unfold massert. destruct Hrc as [Hpos _]. rewrite (proj2 (Z.ltb_lt 0 rc)) by lia. rewrite header_word_decr.
      mstep (eq_refl (Go tt h)). mstep (write_rc_type_eq h a b Ha _ (header_word (is_slice b) flag (rc - 1)) Hw).
      by rewrite header_word_rc.
    + unfold rc_ok in Hrc. destruct (Z.eqb_spec (rc - 1) 0) as [H0|Hnz].
      * split; [lia|]. exists flag. by rewrite H0.
      * apply Hlive. unfold rc_ok. lia.
Qed.

(** ** Freeing a block *)

(** Memory without the index that a state word points to. *)
Definition drop_index (m : gmap Z block) (state : Z) : gmap Z block :=
  match cache_at m state with Some _ => delete state m | None => m end.

Lemma cache_at_lookup m c k : cache_at m c = Some k → m !! c = Some (Cache k).
Proof. unfold cache_at. destruct (m !! c) as [[]|]; cbn; congruence. Qed.

(** A state word as the code reads it. *)
Lemma state_word_facts values m n t state :
  inv values m n → state_ok m t state →
  (state = 0 ∧ cache_at m state = None) ∨
  (∃ seen, state = len_word t seen ∧ cache_at m state = None) ∨
  (∃ k, cache_at m state = Some k ∧ cache_of t k ∧ (state =? 0) = false ∧ (Z.land state STR_CODEPOINT_LEN_TAG =? 0) = true).
Proof.
  intros Hinv Hst.
  assert (Hnone : ¬ good_address state → cache_at m state = None).
  { intros Hbad. destruct (cache_at m state) as [k|] eqn:Hk; [|done]. exfalso.
    by apply Hbad, (inv_good _ _ _ Hinv _ _ (cache_at_lookup _ _ _ Hk)). }
  destruct Hst as [->|[[seen ->]|(Hgood & k & Hk & Hc)]].
  - left. split; [done|]. apply Hnone. intros [? _]. lia.
  - right. left. exists seen. split; [done|]. apply Hnone, len_word_not_good.
  - right. right. exists k. split_and!; try done.
    + apply Z.eqb_neq. destruct Hgood. lia.
    + change STR_CODEPOINT_LEN_TAG with (Z.ones 1). rewrite Z.land_ones by lia. apply Z.eqb_eq. destruct Hgood. Z.div_mod_to_equations. lia.
Qed.

Lemma len_word_facts t seen :
  let w := len_word t seen in
  (w =? 0) = false ∧ (Z.land w STR_CODEPOINT_LEN_TAG =? 0) = false ∧
  (Z.land w STR_CODEPOINT_INDEX_SEEN =? 0) = negb seen ∧ Z.shiftr w STR_CODEPOINT_LEN_SHIFT = Z.of_nat (starts t).
Proof.
  assert (Hmod : len_word t seen mod 2 ^ 2 = 1 + 2 * bool_int seen)
    by (unfold len_word; destruct seen; cbn [bool_int]; Z.div_mod_to_equations; lia).
  cbn zeta. split_and!.
  - apply Z.eqb_neq. unfold len_word. destruct seen; cbn [bool_int]; lia.
  - change STR_CODEPOINT_LEN_TAG with (Z.ones 1). rewrite Z.land_ones by lia. apply Z.eqb_neq.
    unfold len_word. destruct seen; cbn [bool_int]; Z.div_mod_to_equations; lia.
  - unfold STR_CODEPOINT_INDEX_SEEN. rewrite (land_split _ _ 2) by lia. rewrite (Z.div_small 2), Z.land_0_r by lia.
    rewrite Hmod. by destruct seen.
  - unfold len_word, STR_CODEPOINT_LEN_SHIFT. rewrite Z.shiftr_div_pow2, Z.div_add_l by lia. destruct seen; cbn [bool_int]; rewrite Z.div_small by lia; lia.
Qed.

Lemma drop_state_eq values m n t state slot h :
  inv values m n → state_ok m t state → read_state slot h = Go state h → cache_at (memory h) state = cache_at m state →
  drop_state slot h = Go tt (with_memory h (drop_index (memory h) state)).
Proof.
  intros Hinv Hst Hread Hsame. unfold drop_state. mstep Hread. unfold drop_index.
  assert (Hid : with_memory h (memory h) = h) by by destruct h.
  destruct (state_word_facts _ _ _ _ _ Hinv Hst) as [[-> Hn]|[(seen & -> & Hn)|(k & Hk & _ & -> & ->)]].
  - rewrite Hsame, Hn. by rewrite Hid.
  - destruct (len_word_facts t seen) as (-> & -> & _). rewrite Hsame, Hn, Hid. done.
  - rewrite Hsame, Hk. rewrite Hk in Hsame. apply cache_at_lookup in Hsame. cbn [negb andb]. unfold box_drop.
    by mstep (read_block_eq h state _ Hsame).
Qed.

Lemma inv_free values values' m n a b state :
  inv values m n → m !! a = Some b → state_word b = Some state → count (slice_of a) m = 0%nat → handles values' a = 0%nat →
  (∀ x, x ≠ a → m !! x ≠ None → refs values' (delete a m) x = refs values m x) →
  (∀ v, v ∈ values' → v ∈ values ∨ ∃ t, denotes m v t) →
  inv values' (delete a (drop_index m state)) n ∧ keeps values' m (delete a (drop_index m state)).
Proof.
  intros Hinv Ha Hs Hcount Hhandles Hrefs Hvalues. unfold drop_index.
  assert (Hcb : block_cache b = None) by by destruct b.
  destruct (cache_at m state) as [k|] eqn:Hk.
  - destruct (inv_detach_index _ _ _ _ _ _ _ Hinv Ha Hs Hk) as [Hinv1 Hkeeps1].
    pose proof (cache_at_lookup _ _ _ Hk) as Hmc. assert (Hne : state ≠ a) by (intros ->; rewrite Ha in Hmc; by injection Hmc as ->).
    destruct (with_state_facts b state 0 Hs) as (Hw & Hsl & _ & Hcb' & _ & _).
    set (m1 := delete state (<[a := with_state b 0]> m)) in *.
    assert (Ha1 : m1 !! a = Some (with_state b 0)) by (unfold m1; by rewrite lookup_delete_ne, lookup_insert_eq by done).
    assert (Heq : delete a (delete state m) = delete a m1) by (unfold m1; by rewrite !(delete_delete _ a), delete_insert_eq).
    assert (Hslices : ∀ x, count (slice_of x) m1 = count (slice_of x) m).
    { intros x. pose proof (count_update (slice_of x) m a b (with_state b 0) Ha) as Hu. rewrite Hsl in Hu.
      rewrite (count_delete (slice_of x) (<[a := with_state b 0]> m) state (Cache k)) in Hu by by rewrite lookup_insert_ne.
      cbn [slice_of ind] in Hu. fold m1 in Hu. lia. }
    rewrite Heq. split.
    + apply (inv_delete m1 a _ Ha1 values); try done; [|by rewrite Hslices| |].
      * intros c Hc. rewrite (owner_of_word _ _ _ Hw), bool_decide_eq_false_2; [done|]. intros <-.
        destruct (cache_at m1 0) as [k0|] eqn:H0; [|done]. pose proof (inv_good _ _ _ Hinv1 _ _ (cache_at_lookup _ _ _ H0)) as [? _]. lia.
      * intros x Hx Hmx. assert (Hmx0 : m !! x ≠ None).
        { intros H0. apply Hmx. unfold m1. destruct (decide (x = state)) as [->|]; [by rewrite lookup_delete_eq|].
          by rewrite lookup_delete_ne, lookup_insert_ne by done. }
        specialize (Hrefs x Hx Hmx0). unfold refs in *. rewrite Hslices.
        rewrite (count_delete (slice_of x) m a b Ha) in Hrefs |- *.
        pose proof (count_delete (slice_of x) m1 a _ Ha1) as Hd. rewrite Hsl, Hslices, (count_delete (slice_of x) m a b Ha) in Hd. lia.
      * intros v Hv. destruct (Hvalues v Hv) as [?|[t Ht]]; [by left|]. right. exists t. apply (Hkeeps1 [v]); [by left|done].
    + eapply keeps_trans; [apply Hkeeps1|]. apply (keeps_delete m1 a values values' n Hinv1); [by rewrite Hslices|done].
  - assert (Howner : ∀ c, cache_at m c ≠ None → owner_of c b = false).
    { intros c Hc. rewrite (owner_of_word _ _ _ Hs), bool_decide_eq_false_2; [done|]. by intros <-. }
    split; [by apply (inv_delete m a b Ha values)|by apply (keeps_delete m a values _ n)].
Qed.

Lemma cache_at_insert_string m a b b' state : m !! a = Some b → block_cache b = None → block_cache b' = None →
  cache_at (<[a := b']> m) state = cache_at m state.
Proof.
  intros Ha Hb Hb'. destruct (decide (state = a)) as [->|]; [|by apply cache_at_insert_ne].
  unfold cache_at. rewrite lookup_insert_eq, Ha. cbn. by rewrite Hb, Hb'.
Qed.

(** Dropping an index leaves the block that owned it. *)
Lemma drop_index_insert m a b b' state :
  m !! a = Some b → block_cache b = None → block_cache b' = None →
  drop_index (<[a := b']> m) state = <[a := b']> (delete a (drop_index m state)).
Proof.
  intros Ha Hb Hb'. unfold drop_index. rewrite (cache_at_insert_string m a b) by done.
  destruct (cache_at m state) as [k|] eqn:Hk; [|by rewrite insert_delete_eq].
  apply cache_at_lookup in Hk. rewrite insert_delete_eq. apply delete_insert_ne. intros ->. rewrite Ha in Hk. by injection Hk as ->.
Qed.

Lemma drop_index_lookup m a b state : m !! a = Some b → block_cache b = None → drop_index m state !! a = Some b.
Proof.
  intros Ha Hb. unfold drop_index. destruct (cache_at m state) as [k|] eqn:Hk; [|done]. apply cache_at_lookup in Hk.
  rewrite lookup_delete_ne; [done|]. intros ->. rewrite Ha in Hk. by injection Hk as ->.
Qed.

Lemma pool_drop_index m state head len : pool_ok m head len → pool_ok (drop_index m state) head len.
Proof.
  intros Hp. unfold drop_index. destruct (cache_at m state) as [k|] eqn:Hk; [|done]. apply pool_delete; [|done].
  by rewrite (cache_at_lookup _ _ _ Hk).
Qed.

(** Freeing an owned string that nothing refers to. *)
Lemma free_owned_spec values h n a rc_type sub_len state bytes w :
  heap_inv (str_bits a :: values) h n → memory h !! a = Some (Owned rc_type sub_len state bytes) →
  refs values (memory h) a = 0%nat →
  let h' := with_memory h (delete a (drop_index (memory h) state)) in
  free_owned (from_addr a) (with_memory h (<[a := Owned w sub_len state bytes]> (memory h))) = Go tt h' ∧
  heap_inv values h' n ∧ keeps values (memory h) (memory h').
Proof.
  intros [Hinv Hpool] Ha Hrefs h'. set (b := Owned rc_type sub_len state bytes) in *. set (b' := Owned w sub_len state bytes).
  destruct (inv_header _ _ _ _ _ _ Hinv Ha eq_refl) as (flag & rc & t & _ & _ & Ht & _ & Hst & Haddr & _ & Hmax & _).
  injection Ht as <-. assert (Hlen : sub_len = vlen bytes).
  { destruct (inv_blocks _ _ _ Hinv a b Ha) as [_ (? & ? & _ & _ & _ & Hlen & _)]. done. }
  unfold refs in Hrefs. split.
  - set (m1 := <[a := b']> (memory h)). assert (Ha1 : m1 !! a = Some b') by apply lookup_insert_eq.
    unfold free_owned.
    mstep (drop_state_eq _ (memory h) n bytes state (OwnedState (from_addr a)) (with_memory h m1) Hinv Hst
      ltac:(cbn [read_state]; by mstep (read_block_eq (with_memory h m1) a b' Ha1)) ltac:(by apply (cache_at_insert_string _ a b))).
    cbn [memory with_memory]. set (m2 := drop_index m1 state). set (h2 := with_memory (with_memory h m1) m2).
    assert (Ha2 : memory h2 !! a = Some b') by by apply (drop_index_lookup m1 a b').
    assert (Hread : read_sub_len (from_addr a) h2 = Go sub_len h2) by (unfold read_sub_len; by mstep (read_block_eq h2 a b' Ha2)).
    mstep Hread.
    assert (Hlay : nanbox_owned_string_layout sub_len h2 = Go (16 + sub_len) h2).
    { unfold nanbox_owned_string_layout. rewrite Hlen. destruct Hmax. destruct (Z.ltb_spec STR_MAX_BYTE_LEN (vlen bytes)); [lia|done]. }
    mstep Hlay. unfold dealloc. mstep (read_block_eq h2 a b' Ha2). rewrite bool_decide_eq_true_2 by (cbn [block_size]; by rewrite Hlen).
    unfold set_memory, h'. cbn [memory with_memory pool_head pool_len h2 ptr_base from_addr]. do 2 f_equal. unfold m2, m1.
    rewrite (drop_index_insert _ _ b) by done. by rewrite delete_insert_eq, delete_delete_eq.
  - destruct (inv_free (str_bits a :: values) values (memory h) n a b state Hinv Ha) as [Hi Hk]; [done|lia|lia| | |].
    + intros x Hx _. unfold refs. rewrite handles_str_bits_ne by done. by rewrite (count_delete (slice_of x) (memory h) a b Ha).
    + intros v Hv. left. by right.
    + split; [|done]. split; [done|]. cbn. apply pool_delete; [|by apply pool_drop_index].
      by rewrite (drop_index_lookup _ a b).
Qed.

Definition release (a : Z) : mem unit :=
  last ← str_refcount_decrement (from_addr a); if last : bool then free_owned (from_addr a) else mret tt.

(** Giving up one reference to an owned string. *)
Lemma release_spec values h n a rc_type sub_len state bytes :
  heap_inv (str_bits a :: values) h n → memory h !! a = Some (Owned rc_type sub_len state bytes) →
  ∃ m', release a h = Go tt (with_memory h m') ∧ heap_inv values (with_memory h m') n ∧ keeps values (memory h) m'.
Proof.
  intros Hh Ha. destruct (decrement_spec values h n a _ state bytes Hh Ha eq_refl eq_refl) as (w & last & Hrun & Hres).
  unfold release. erewrite bind_Go by exact Hrun. destruct last.
  - destruct Hres as [Hrefs _]. destruct (free_owned_spec values h n a rc_type sub_len state bytes w Hh Ha Hrefs) as (Hf & Hi & Hk). eauto.
  - destruct Hres as [Hi Hk]. eauto.
Qed.

Lemma framed_release a : framed (release a).
Proof.
  apply framed_at_bind; [apply framed_decrement|]. intros []; [apply framed_free_owned|apply framed_at_ret].
Qed.

(** Giving a slice's block back to the pool. *)
Lemma pool_b_dealloc_spec values m head len n s b :
  heap_inv values {| memory := m; pool_head := head; pool_len := len |} n → m !! s = None → good_address s → is_slice b = true →
  ∃ h', pool_b_dealloc (from_addr s) {| memory := <[s := b]> m; pool_head := head; pool_len := len |} = Go tt h' ∧
    heap_inv values h' n ∧ keeps values m (memory h').
Proof.
  intros [Hinv Hpool] Hs Hgood Hb. cbn [memory pool_head pool_len] in Hinv, Hpool.
  assert (Hfb : is_free (Some b) = false) by by destruct b.
  set (h := {| memory := <[s := b]> m; pool_head := head; pool_len := len |}).
  assert (Hsb : memory h !! s = Some b) by apply lookup_insert_eq.
  assert (Hpool1 : pool_ok (<[s := b]> m) head len) by (apply pool_insert; [by rewrite Hs|done|done]).
  assert (Haddr : to_addr (from_addr s) = s) by (unfold to_addr, from_addr; cbn; lia).
  assert (Hassert : negb (s =? head) || (head =? 0) = true).
  { destruct Hpool1 as (slots & Hc & _ & _ & _ & _). destruct slots as [|x slots]; [cbn in Hc; subst; by rewrite orb_true_r|].
    destruct Hc as (-> & next & Hx & _). destruct (Z.eqb_spec s x) as [->|]; [|done]. rewrite lookup_insert_eq in Hx.
    injection Hx as ->. done. }
  unfold pool_b_dealloc. rewrite Haddr. cbn [pool_head pool_len h]. fold h. rewrite Hassert. cbn [massert].
  mstep (eq_refl (Go tt h)). destruct (Z.ltb_spec len POOL_B_CAP) as [Hlt|Hge].
  - mstep (read_block_eq h s b Hsb). rewrite bool_decide_eq_true_2 by by destruct b.
    eexists. split; [reflexivity|]. cbn [memory with_memory h ptr_base from_addr]. rewrite insert_insert_eq.
    assert (Hroots : ∀ x, count (slice_of x) (<[s := FreeSlot head]> m) = count (slice_of x) m) by (intros; by rewrite count_insert).
    split; [split|].
    + apply (inv_insert m s _ Hs values values n n Hinv); [done| |done|by left|by split].
      intros x _. unfold refs. by rewrite Hroots.
    + cbn [memory]. destruct (pool_push _ _ _ s b Hpool1 Hlt Hsb Hfb) as [Hp _]. cbn. by rewrite insert_insert_eq in Hp.
    + by apply keeps_insert.
  - unfold dealloc. mstep (read_block_eq h s b Hsb). rewrite bool_decide_eq_true_2 by by destruct b.
    eexists. split; [reflexivity|]. cbn [memory with_memory h ptr_base from_addr]. rewrite delete_insert_id by done.
    split; [by split|apply keeps_refl].
Qed.

(** Freeing a slice that nothing refers to: its reference to the root is handed on. *)
Lemma inv_free_slice values m n s rc_type sub_len ref offset state :
  inv (str_bits s :: values) m n → m !! s = Some (Slice rc_type sub_len ref offset state) → refs values m s = 0%nat →
  let root := ptr_base ref in
  let m' := delete s (drop_index m state) in
  inv (str_bits root :: values) m' n ∧ keeps values m m' ∧
  ∃ rc len st bytes, m' !! root = Some (Owned rc len st bytes).
Proof.
  intros Hinv Hs Hrefs root m'. set (b := Slice rc_type sub_len ref offset state) in *.
  destruct (inv_header _ _ _ _ _ _ Hinv Hs eq_refl) as (flag & rc & t & _ & _ & _ & _ & _ & Haddr & _).
  pose proof (inv_slice_root _ _ _ Hinv s b root Hs (Z.eqb_refl _)) as Hroot. unfold root_bytes in Hroot.
  destruct (m !! root) as [[rrc len st bytes| | | |]|] eqn:Hr; try done.
  destruct (inv_header _ _ _ _ _ _ Hinv Hr eq_refl) as (_ & _ & _ & _ & _ & _ & _ & _ & Hraddr & _).
  assert (Hne : root ≠ s) by (intros He; rewrite He, Hs in Hr; discriminate). unfold refs in Hrefs.
  destruct (inv_free (str_bits s :: values) (str_bits root :: values) m n s b state Hinv Hs) as [Hi Hk]; [done|lia| | | |].
  - rewrite handles_str_bits_ne by (done || congruence). lia.
  - intros x Hx _. unfold refs. rewrite handles_str_bits, handles_str_bits_ne by done.
    rewrite (count_delete (slice_of x) m s b Hs). cbn [slice_of b]. fold root.
    replace (root =? x) with (bool_decide (root = x)) by (by destruct (Z.eqb_spec root x); case_bool_decide). lia.
  - intros v [->|Hv]%elem_of_cons; [right|by left; right]. exists bytes. right.
    exists root, (Owned rrc len st bytes). split_and!; done.
  - split; [done|]. split; [by eapply keeps_sub; [|exact Hk]; intros v Hv; right|].
    exists rrc, len, st, bytes. unfold m'. rewrite lookup_delete_ne by done. by apply drop_index_lookup.
Qed.

(** Inline values are in nobody's way. *)
Lemma heap_inv_inline values h n n' v :
  heap_inv values h n → n ≤ n' → value_addr v = None → (∃ t, denotes (memory h) v t) → heap_inv (v :: values) h n'.
Proof.
  intros [[Hb Hv] Hp] Hn Hva Hd. split; [|done]. split; [|by constructor].
  intros x bx Hx. eapply (block_ok_frame values _ (memory h)); [done| | | | |by apply Hb]; try done.
  unfold refs. by rewrite handles_cons, Hva.
Qed.

(** Dropping a value: every other value keeps its text, and the invariant
    holds without it. *)
Lemma value_drop_spec values h n v t :
  heap_inv (v :: values) h n → denotes (memory h) v t →
  ∃ h', value_drop v h = Go tt h' ∧ heap_inv values h' n ∧ keeps values (memory h) (memory h').
Proof.
  intros Hh [(Htext & Hlen & ->)|(a & b & -> & Haddr & Ha & Ht)].
  - destruct (inline_facts t Htext Hlen) as (His & Htop & Hin & _ & Hva). unfold value_drop. unfold is_str in His. rewrite Htop, His, Hin.
    exists h. split; [done|]. split; [|apply keeps_refl]. destruct Hh as [[Hb Hv] Hp]. split; [|done]. split.
    + intros x bx Hx. eapply (block_ok_frame _ values); [done| | | | |by apply Hb]; try done.
      unfold refs. by rewrite handles_cons, Hva.
    + by apply Forall_cons in Hv as [_ Hv].
  - destruct (str_bits_facts a Haddr) as (His & Htop & Hin & Hhdr & _). unfold value_drop. unfold is_str in His. rewrite Htop, His, Hin, Hhdr.
    assert (∃ state, state_word b = Some state) as [state Hs] by (destruct b; try done; eauto).
    destruct (decrement_spec values h n a b state t Hh Ha Hs Ht) as (w & last & Hrun & Hres). cbn zeta.
    erewrite bind_Go by exact Hrun. destruct last; [|by destruct Hres; eauto]. destruct Hres as [Hrefs [flag ->]].
    set (b' := with_rc b (header_word (is_slice b) flag 0)) in *. set (h1 := with_memory h (<[a := b']> (memory h))) in *.
    assert (Ha1 : memory h1 !! a = Some b') by apply lookup_insert_eq.
    assert (Hw1 : rc_word b' = Some (header_word (is_slice b) flag 0)) by by destruct b.
    mstep (read_rc_type_eq h1 a b' Ha1 _ Hw1). rewrite header_word_layout.
    destruct b as [rc len st bytes|rc len ref off st| | |]; try done; cbn [is_slice negb]; injection Hs as ->.
    + destruct (free_owned_spec values h n a rc len state bytes (header_word false flag 0) Hh Ha Hrefs) as (Hf & Hi & Hk). eauto.
    + destruct Hh as [Hinv Hpool]. destruct (inv_free_slice values (memory h) n a rc len ref off state Hinv Ha Hrefs)
        as (Hi1 & Hk1 & rrc & rlen & rst & bytes & Hroot).
      destruct (inv_header _ _ _ _ _ _ Hinv Ha eq_refl) as (_ & _ & t' & _ & _ & Ht' & _ & Hst & _).
      mstep (drop_state_eq _ (memory h) n t' state (SliceState (from_addr a)) h1 Hinv Hst
        ltac:(cbn [read_state]; by mstep (read_block_eq h1 a b' Ha1)) ltac:(by apply (cache_at_insert_string _ a (Slice rc len ref off state)))).
      change (memory h1) with (<[a := b']> (memory h)). rewrite (drop_index_insert _ _ (Slice rc len ref off state)) by done.
      set (m1 := delete a (drop_index (memory h) state)) in *. set (h2 := with_memory h1 (<[a := b']> m1)).
      assert (Ha2 : memory h2 !! a = Some b') by apply lookup_insert_eq.
      assert (Hr : read_ref (from_addr a) h2 = Go ref h2) by (unfold read_ref; by mstep (read_block_eq h2 a b' Ha2)).
      assert (Ho : read_offset (from_addr a) h2 = Go off h2) by (unfold read_offset; by mstep (read_block_eq h2 a b' Ha2)).
      mstep Hr. mstep Ho.
      destruct (inv_blocks _ _ _ Hinv a _ Ha) as [Hgood (Hoff & _)].
      replace (ptr_sub ref (off + STR_OWNED_HEADER_SIZE)) with (from_addr (ptr_base ref))
        by (unfold ptr_sub, ptr_add, from_addr; f_equal; lia).
      assert (Hm1a : m1 !! a = None) by apply lookup_delete_eq.
      assert (Hh1 : heap_inv (str_bits (ptr_base ref) :: values) (with_memory h m1) n).
      { split; [done|]. cbn. apply pool_delete; [|by apply pool_drop_index]. by rewrite (drop_index_lookup _ a _ _ Ha). }
      destruct (release_spec values (with_memory h m1) n (ptr_base ref) rrc rlen rst bytes Hh1 Hroot) as (m2 & Hrel & Hi2 & Hk2).
      destruct (framed_release (ptr_base ref) a b' (with_memory h m1) _ _ ltac:(done) Hm1a Hrel) as [Hm2a Hrel2].
      change (with_memory (with_memory h m1) (<[a := b']> (memory (with_memory h m1)))) with h2 in Hrel2.
      unfold release in Hrel2. apply bind_inv in Hrel2 as (last & h3 & Hdec & Hfree).
      erewrite bind_Go by exact Hdec. erewrite bind_Go by exact Hfree.
      destruct (pool_b_dealloc_spec values m2 (pool_head h) (pool_len h) n a b' Hi2 Hm2a Hgood) as (h4 & Hd & Hi4 & Hk4); [done|].
      exists h4. split; [exact Hd|]. split; [done|]. eapply keeps_trans; [exact Hk1|]. by eapply keeps_trans.
Qed.

(** Cloning a value. *)
Lemma value_clone_spec values h n v t :
  heap_inv values h n → denotes (memory h) v t →
  ∃ h', value_clone v h = Go v h' ∧ heap_inv (v :: values) h' (n + 1) ∧ (∀ vs, keeps vs (memory h) (memory h')) ∧
    denotes (memory h') v t.
Proof.
  intros Hh [(Htext & Hlen & ->)|(a & b & -> & Haddr & Ha & Ht)].
  - destruct (inline_facts t Htext Hlen) as (His & Htop & Hin & _ & Hva). unfold value_clone. unfold is_str in His. rewrite Htop, His, Hin.
    exists h. split; [done|]. assert (Hd : denotes (memory h) (TAG_STR * 2 ^ 48 + inline_payload t) t) by by left.
    split; [|split; [intros; apply keeps_refl|done]]. apply (heap_inv_inline values h n); [done|lia|done|by exists t].
  - destruct (str_bits_facts a Haddr) as (His & Htop & Hin & Hhdr & _). unfold value_clone. unfold is_str in His. rewrite Htop, His, Hin, Hhdr.
    assert (∃ state, state_word b = Some state) as [state Hs] by (destruct b; try done; eauto).
    destruct (increment_spec values h n a b state t Hh Ha Hs Ht) as (w & Hrun & Hi & Hk & Hd).
    eexists. split; [by erewrite bind_Go by exact Hrun|done].
Qed.
