(* ===== verification/StrOpsSpec.v ===== *)
(** What the operations on string values do under the invariant of
    StrHeapSpec.v: reading, the cached flag, lengths and offsets. *)

From stdpp Require Import gmap.
From S2P Require Import Outcome Prelude Keys IntBytes NanBox Utf8 StrHeap StrHeapSpec StrRefSpec.

(** ** Outcomes

    The faults a correct run may end in: an allocation that failed, an address
    a value cannot hold, a string too long for its header. *)
Definition benign (f : fault) : Prop :=
  match f with
  | AllocError => True
  | BadPointer address => PAYLOAD_MASK < address
  | BadLength byte_len => STR_MAX_BYTE_LEN < byte_len
  | _ => False
  end.

Definition yields {A} (m : mem A) (h : Heap) (Q : A → Heap → Prop) : Prop :=
  match m h with Go a h' => Q a h' | Fault f => benign f end.

Lemma yields_bind {A B} (m : mem A) (f : A → mem B) h Q :
  yields m h (λ a h', yields (f a) h' Q) → yields (m ≫= f) h Q.
Proof. unfold yields, mbind, mem_bind. by destruct (m h). Qed.

Lemma yields_mono {A} (m : mem A) h (Q Q' : A → Heap → Prop) :
  yields m h Q → (∀ a h', Q a h' → Q' a h') → yields m h Q'.
Proof. unfold yields. destruct (m h); auto. Qed.

Lemma yields_Go {A} (m : mem A) h a h' (Q : A → Heap → Prop) : m h = Go a h' → Q a h' → yields m h Q.
Proof. unfold yields. by intros ->. Qed.

(** A known first action of a computation. *)
Ltac ystep H := apply yields_bind; eapply yields_Go; [exact H|]; cbn beta zeta.

(** What a change of caches leaves: the invariant, and every text. *)
Definition refines (values : list Z) (n : Z) (h h' : Heap) : Prop :=
  heap_inv values h' n ∧ ∀ vs, keeps vs (memory h) (memory h').

Lemma refines_refl values n h : heap_inv values h n → refines values n h h.
Proof. intros Hh. split; [done|]. intros vs. apply keeps_refl. Qed.

Lemma refines_trans values n h h1 h2 : refines values n h h1 → refines values n h1 h2 → refines values n h h2.
Proof. intros [_ H1] [Hh H2]. split; [done|]. intros vs. by eapply keeps_trans. Qed.

Lemma refines_denotes values n h h' v t : refines values n h h' → denotes (memory h) v t → denotes (memory h') v t.
Proof. intros [_ Hk] Hd. apply (Hk [v]); [by left|done]. Qed.

(** ** Reading *)

(** A string value is inline, or points to a block with a header. *)
Lemma denotes_heap h v t :
  denotes (memory h) v t → str_is_inline_bits v = false →
  ∃ a b state, v = str_bits a ∧ str_address a ∧ memory h !! a = Some b ∧ state_word b = Some state ∧
    block_text (memory h) b = Some t ∧ str_hdr v = from_addr a.
Proof.
  intros [(Ht & Hlen & ->)|(a & b & -> & Haddr & Ha & Ht)] Hin.
  - destruct (inline_facts t Ht Hlen) as (_ & _ & Hi & _). congruence.
  - destruct (str_bits_facts a Haddr) as (_ & _ & _ & Hhdr & _).
    assert (∃ state, state_word b = Some state) as [state Hs] by (destruct b; try done; eauto). exists a, b, state. done.
Qed.

Lemma denotes_inline h v t :
  denotes (memory h) v t → str_is_inline_bits v = true → inline_bytes v = t ∧ text_ok t ∧ (length t <= STR_INLINE_MAX)%nat.
Proof.
  intros [(Ht & Hlen & ->)|(a & b & -> & Haddr & Ha & Ht)] Hin.
  - by destruct (inline_facts t Ht Hlen) as (_ & _ & _ & He & _).
  - destruct (str_bits_facts a Haddr) as (_ & _ & Hi & _). congruence.
Qed.

Lemma denotes_is_str h v t : denotes (memory h) v t → is_str v = true.
Proof.
  intros [(Ht & Hlen & ->)|(a & b & -> & Haddr & _)].
  - by destruct (inline_facts t Ht Hlen).
  - by destruct (str_bits_facts a Haddr).
Qed.

Lemma denotes_text_ok values h n v t :
  heap_inv values h n → denotes (memory h) v t → text_ok t ∧ Z.of_nat (length t) < 2 ^ 32.
Proof.
  intros [Hinv _] Hd. destruct (str_is_inline_bits v) eqn:Hin.
  - destruct (denotes_inline h v t Hd Hin) as (_ & Ht & Hlen). split; [done|]. unfold STR_INLINE_MAX in Hlen. lia.
  - destruct (denotes_heap h v t Hd Hin) as (a & b & state & -> & _ & Ha & Hs & Ht & _).
    destruct (inv_header _ _ _ _ _ _ Hinv Ha Hs) as (_ & _ & t' & _ & _ & Ht' & Htok & _ & _ & _ & Hmax & _).
    assert (t' = t) as -> by congruence. split; [done|]. unfold heap_len, STR_MAX_BYTE_LEN, vlen in Hmax. lia.
Qed.

Lemma from_raw_parts_eq h a rc len st bytes off sub :
  memory h !! a = Some (Owned rc len st bytes) → 0 ≤ off → 0 ≤ sub → off + sub ≤ vlen bytes →
  from_raw_parts {| ptr_base := a; ptr_offset := 16 + off |} sub h = Go (take (Z.to_nat sub) (drop (Z.to_nat off) bytes)) h.
Proof.
  intros Ha Hoff Hsub Hle. unfold from_raw_parts, STR_OWNED_HEADER_SIZE. cbn [ptr_base ptr_offset]. rewrite Ha.
  replace (16 + off - 16) with off by lia. destruct (Z.leb_spec 0 off), (Z.leb_spec 0 sub), (Z.leb_spec (off + sub) (vlen bytes)); done || lia.
Qed.

Lemma str_as_bytes_eq values h n v t : heap_inv values h n → denotes (memory h) v t → str_as_bytes v h = Go t h.
Proof.
  intros [Hinv _] Hd. unfold str_as_bytes. destruct (str_is_inline_bits v) eqn:Hin.
  - by destruct (denotes_inline h v t Hd Hin) as [-> _].
  - destruct (denotes_heap h v t Hd Hin) as (a & b & state & -> & _ & Ha & Hs & Ht & ->).
    destruct (inv_header _ _ _ _ _ _ Hinv Ha Hs) as (flag & rc & t' & Hw & _ & Ht' & _ & _ & _ & _ & _ & Hlen).
    assert (t' = t) as -> by congruence. cbn zeta. mstep (Hlen h eq_refl). mstep (read_rc_type_eq h a b Ha _ Hw).
    rewrite header_word_layout. destruct b as [rcw len st bytes|rcw len ref off st| | |]; try done; cbn [is_slice negb].
    + injection Ht as ->. mstep (eq_refl (Go (ptr_add (from_addr a) 16) h)). unfold ptr_add, from_addr. cbn [ptr_base ptr_offset].
      change (0 + 16) with (16 + 0). erewrite (from_raw_parts_eq h a _ _ _ _ 0 _ Ha) by (pose proof (vlen_nonneg t); lia).
      cbn [Z.to_nat drop]. unfold vlen. by rewrite Nat2Z.id, firstn_all.
    + assert (Hr : read_ref (from_addr a) h = Go ref h) by (unfold read_ref; by mstep (read_block_eq h a _ Ha)).
      mstep Hr. destruct (inv_blocks _ _ _ Hinv a _ Ha) as [_ (Hoff & Hpos & bytes & Hroot & Hle & flag' & rc' & _ & _ & _ & Hsub & _)].
      unfold root_bytes in Hroot. destruct (memory h !! ptr_base ref) as [[rrc rlen rst rb| | | |]|] eqn:Hr0; try done. injection Hroot as ->.
      cbn [block_text] in Ht. unfold root_bytes in Ht. rewrite Hr0 in Ht. injection Ht as Ht. rewrite Ht in Hsub. subst len.
      replace ref with {| ptr_base := ptr_base ref; ptr_offset := 16 + off |} by (destruct ref; cbn in *; by subst).
      erewrite from_raw_parts_eq by (exact Hr0 || done || apply vlen_nonneg). by rewrite Ht.
Qed.

(** ** The ASCII flag *)

(** Changes of memory that leave state words alone. *)
Definition same_states (h h' : Heap) : Prop :=
  ∀ a b', memory h' !! a = Some b' → ∃ b, memory h !! a = Some b ∧ state_word b' = state_word b.

Lemma str_is_ascii_spec values h n v t :
  heap_inv values h n → denotes (memory h) v t →
  ∃ h', str_is_ascii v h = Go (is_ascii t) h' ∧ refines values n h h' ∧ same_states h h'.
Proof.
  intros Hh Hd. unfold str_is_ascii. rewrite (denotes_is_str h v t Hd). cbn [massert]. mstep (eq_refl (Go tt h)).
  destruct (str_is_inline_bits v) eqn:Hin.
  - mstep (str_as_bytes_eq values h n v t Hh Hd). exists h. split; [done|split; [by apply refines_refl|by intros x bx; eauto]].
  - destruct (denotes_heap h v t Hd Hin) as (a & b & state & Hv & _ & Ha & Hs & Ht & Hhdr). rewrite Hhdr. cbn zeta.
    pose proof Hh as [Hinv _]. destruct (inv_header _ _ _ _ _ _ Hinv Ha Hs) as (flag & rc & t' & Hw & Hrc & Ht' & _ & _ & _ & Hflag & _ & _).
    assert (t' = t) as -> by congruence. mstep (read_rc_type_eq h a b Ha _ Hw). rewrite header_word_computed, header_word_ascii.
    destruct flag as [ascii|].
    + rewrite bool_decide_eq_false_2 by done. cbn [negb]. rewrite (Hflag ascii eq_refl). exists h.
      split; [rewrite negb_involutive; by destruct (is_ascii t)|split; [by apply refines_refl|by intros x bx; eauto]].
    + rewrite bool_decide_eq_true_2 by done. cbn [negb]. mstep (str_as_bytes_eq values h n v t Hh Hd).
      rewrite header_word_set_flag. mstep (write_rc_type_eq h a b Ha _ (header_word (is_slice b) (Some (is_ascii t)) rc) Hw).
      eexists. split; [done|]. split.
      * destruct (heap_inv_rc values values h n n a b _ (Some (is_ascii t)) rc t Hh Ha Hw Ht) as [Hi Hk]; try done;
          [by intros ascii [= <-]|by left].
      * intros x bx Hx. cbn in Hx. destruct (decide (x = a)) as [->|Hne].
        -- rewrite lookup_insert_eq in Hx. injection Hx as <-. exists b. split; [done|]. by destruct b.
        -- rewrite lookup_insert_ne in Hx by done. eauto.
Qed.

(** Bytes below 128 are code points of their own. *)
Lemma ascii_starts t i :
  Forall byte_range t → is_ascii t = true → starts t = length t ∧ ((i <= length t)%nat → offset_of t i = i).
Proof.
  intros Hb. revert i. induction Hb as [|b t Hb _ IH]; intros i Ha; [split; [done|cbn; lia]|].
  cbn [is_ascii forallb] in Ha. apply andb_true_iff in Ha as [Hlt%Z.ltb_lt Ha].
  assert (Hstart : is_start b = true).
  { rewrite is_start_bits by done. destruct Hb as [Hb0 _]. replace (Z.testbit b 7) with false; [done|].
    symmetry. rewrite <- (Z.mod_small b (2 ^ 7)) by lia. by apply Z.mod_pow2_bits_high. }
  split.
  - rewrite starts_cons, Hstart. cbn [length Nat.add]. by destruct (IH 0%nat Ha) as [-> _].
  - intros Hi. cbn [offset_of length] in *. rewrite Hstart. destruct i as [|i]; [done|]. destruct (IH i Ha) as [_ Ho].
    rewrite Ho; lia.
Qed.

(** ** State words *)

Definition state_slot (a : Z) (b : block) : StateSlot := if is_slice b then SliceState (from_addr a) else OwnedState (from_addr a).

Lemma write_state_eq h a b state old :
  memory h !! a = Some b → state_word b = Some old →
  write_state (state_slot a b) state h = Go tt (with_memory h (<[a := with_state b state]> (memory h))).
Proof.
  intros Ha Hs. assert (∃ rc, rc_word b = Some rc) as [rc Hw] by (destruct b; try done; eauto).
  destruct (slot_of h a b Ha rc Hw) as (slot & -> & _ & Hwrite). apply Hwrite.
Qed.

(** What the code of a heap string starts from. *)
Lemma heap_string values h n v t :
  heap_inv values h n → denotes (memory h) v t → str_is_inline_bits v = false →
  ∃ a b state, v = str_bits a ∧ memory h !! a = Some b ∧ state_word b = Some state ∧ block_text (memory h) b = Some t ∧
    state_ok (memory h) t state ∧ (massert (is_str v && negb (str_is_inline_bits v)) h = Go tt h) ∧
    str_unicode_state_slot v h = Go (state_slot a b) h ∧ read_state (state_slot a b) h = Go state h.
Proof.
  intros Hh Hd Hin. destruct (denotes_heap h v t Hd Hin) as (a & b & state & -> & _ & Ha & Hs & Ht & Hhdr). pose proof Hh as [Hinv _].
  destruct (inv_header _ _ _ _ _ _ Hinv Ha Hs) as (flag & rc & t' & Hw & _ & Ht' & _ & Hst & _).
  assert (t' = t) as -> by congruence. exists a, b, state. split_and!; try done.
  - by rewrite (denotes_is_str h _ t Hd), Hin.
  - unfold str_unicode_state_slot. rewrite Hhdr. cbn zeta. mstep (read_rc_type_eq h a b Ha _ Hw). rewrite header_word_layout.
    unfold state_slot. by destruct b.
  - destruct (slot_of h a b Ha _ Hw) as (slot & -> & Hread & _). by apply Hread.
Qed.

(** Storing a length. *)
Lemma store_len values h n a b t state seen :
  heap_inv values h n → memory h !! a = Some b → state_word b = Some state → block_text (memory h) b = Some t →
  cache_at (memory h) state = None →
  ∃ h', write_state (state_slot a b) (len_word t seen) h = Go tt h' ∧ refines values n h h' ∧
    h' = with_memory h (<[a := with_state b (len_word t seen)]> (memory h)).
Proof.
  intros [Hinv Hpool] Ha Hs Ht Hnone. eexists. split; [by eapply write_state_eq|]. split; [|done].
  destruct (inv_set_state _ _ _ a b state Hinv Ha Hs (len_word t seen) t Hnone Ht) as [Hi Hk]; [right; by exists seen|].
  split; [|done]. split; [done|]. cbn. apply pool_insert; [|by destruct b|done]. rewrite Ha. by destruct b.
Qed.

(** A heap string with something in its state word. *)
Definition has_state (h : Heap) (v : Z) : Prop := ∀ a b, v = str_bits a → memory h !! a = Some b → state_word b ≠ Some 0.

Section lengths.
  Context `{Allocator, AlignTo} `{!AllocatorLaws, !AlignToLaws}.

Lemma utf8_count_eq values h n v t :
  heap_inv values h n → denotes (memory h) v t → utf8_codepoint_count t = Ok (Z.of_nat (starts t)).
Proof using Type*.
  intros Hh Hd. destruct (denotes_text_ok _ _ _ _ _ Hh Hd) as [[Hb _] Hlen].
  apply codepoint_count_eq; [done|]. unfold two64. lia.
Qed.

Lemma codepoints_of_eq values h n v t :
  heap_inv values h n → denotes (memory h) v t → codepoints_of v h = Go (Z.of_nat (starts t)) h.
Proof using Type*.
  intros Hh Hd. unfold codepoints_of. mstep (str_as_bytes_eq values h n v t Hh Hd). by rewrite (utf8_count_eq values h n v t).
Qed.

(** The word a length is stored as. *)
Lemma len_word_unseen t : Z.lor (Z.shiftl (Z.of_nat (starts t)) STR_CODEPOINT_LEN_SHIFT) STR_CODEPOINT_LEN_TAG = len_word t false.
Proof using Type. unfold STR_CODEPOINT_LEN_SHIFT, STR_CODEPOINT_LEN_TAG. by rewrite Z.shiftl_mul_pow2, shifted_lor by lia. Qed.

Lemma len_word_seen t : Z.lor (len_word t false) STR_CODEPOINT_INDEX_SEEN = len_word t true.
Proof using Type.
  unfold STR_CODEPOINT_INDEX_SEEN, len_word. rewrite <- !shifted_lor by (cbn; lia). by rewrite <- Z.lor_assoc.
Qed.

Lemma box_deref_eq h c k : cache_at (memory h) c = Some k → box_deref c h = Go k h.
Proof using Type. intros Hc%cache_at_lookup. unfold box_deref. by mstep (read_block_eq h c _ Hc). Qed.

Lemma str_unicode_len_spec values h n v t :
  heap_inv values h n → denotes (memory h) v t → str_is_inline_bits v = false →
  ∃ h', str_unicode_len v h = Go (Z.of_nat (starts t)) h' ∧ refines values n h h' ∧
    has_state h' v.
Proof using Type*.
  intros Hh Hd Hin. destruct (heap_string _ _ _ _ _ Hh Hd Hin) as (a & b & state & Hv & Ha & Hs & Ht & Hst & Hassert & Hslot & Hread).
  pose proof Hh as [Hinv _]. unfold str_unicode_len. mstep Hassert. mstep Hslot. mstep Hread. unfold has_len_tag.
  destruct (state_word_facts _ _ _ _ _ Hinv Hst) as [[-> Hnone]|[(seen & -> & Hnone)|(k & Hk & [Hlen _] & Hz & Htag)]].
  - change (Z.land 0 STR_CODEPOINT_LEN_TAG =? 0) with true. cbn [negb]. rewrite Z.eqb_refl. cbn [negb]. mstep (codepoints_of_eq values h n v t Hh Hd).
    rewrite len_word_unseen. destruct (store_len values h n a b t 0 false Hh Ha Hs Ht Hnone) as (h' & Hw & Hr & Heq). mstep Hw.
    exists h'. split; [done|]. split; [done|]. intros x bx Hx Hbx. rewrite Hv in Hx. apply str_bits_inj in Hx as <-.
    rewrite Heq in Hbx. cbn in Hbx. rewrite lookup_insert_eq in Hbx. injection Hbx as <-.
    destruct (with_state_facts b 0 (len_word t false) Hs) as [-> _]. intros [= Hzero]. by destruct (len_word_facts t false) as [?%Z.eqb_neq _].
  - destruct (len_word_facts t seen) as (Hz & -> & _ & ->). cbn [negb]. exists h. split; [done|]. split; [by apply refines_refl|].
    intros x bx Hx Hbx. rewrite Hv in Hx. apply str_bits_inj in Hx as <-. apply Z.eqb_neq in Hz. congruence.
  - rewrite Htag, Hz. cbn [negb]. mstep (box_deref_eq h state k Hk). rewrite Hlen. exists h. split; [done|]. split; [by apply refines_refl|].
    intros x bx Hx Hbx. rewrite Hv in Hx. apply str_bits_inj in Hx as <-. apply Z.eqb_neq in Hz. congruence.
Qed.

(** A new block is where none was. *)
Lemma alloc_yields h size (Q : Pointer → Heap → Prop) :
  (∀ p, memory h !! p = None → good_address p → Q (from_addr p) (with_memory h (<[p := Uninit size]> (memory h)))) →
  yields (alloc_or_handle size) h Q.
Proof using Type*.
  intros HQ. unfold yields, alloc_or_handle. destruct (alloc (memory h) size) as [p|] eqn:Halloc; [|done].
  destruct (alloc_fresh _ _ _ Halloc) as [Hp Hgood]. by apply (HQ p).
Qed.

Lemma box_into_raw_yields h k (Q : Z → Heap → Prop) :
  (∀ p, memory h !! p = None → good_address p → Q p (with_memory h (<[p := Cache k]> (memory h)))) →
  yields (box_into_raw k) h Q.
Proof using Type*.
  intros HQ. unfold box_into_raw. apply yields_bind, alloc_yields. intros p Hp Hgood. unfold yields.
  change (write_block (from_addr p) (Cache k)) with (set_memory <[p := Cache k]>). unfold set_memory at 1, mbind, mem_bind.
  cbn [memory with_memory pool_head pool_len]. rewrite insert_insert_eq. replace (to_addr (from_addr p)) with p; [by apply HQ|].
  unfold to_addr, from_addr. cbn. lia.
Qed.

(** The index of a heap string: the one it has, or a new one. *)
Lemma str_unicode_cache_yields values h n v t :
  heap_inv values h n → denotes (memory h) v t → str_is_inline_bits v = false →
  yields (str_unicode_cache v) h (λ address h', refines values n h h' ∧ ∃ k, cache_at (memory h') address = Some k ∧ cache_of t k).
Proof using Type*.
  intros Hh Hd Hin. destruct (heap_string _ _ _ _ _ Hh Hd Hin) as (a & b & state & Hv & Ha & Hs & Ht & Hst & Hassert & Hslot & Hread).
  pose proof Hh as [Hinv Hpool]. unfold str_unicode_cache. ystep Hassert. ystep Hslot. ystep Hread.
  assert (Hbuild : cache_at (memory h) state = None →
    (has_len_tag state = true → Z.shiftr state STR_CODEPOINT_LEN_SHIFT = Z.of_nat (starts t)) →
    yields (s ← str_as_bytes v; cache ← pure_res (cache_build s); address ← box_into_raw cache;
      _ ← (if has_len_tag state then massert (Z.of_nat (codepoint_len cache) =? Z.shiftr state STR_CODEPOINT_LEN_SHIFT) else mret tt);
      _ ← write_state (state_slot a b) address; mret address) h
    (λ address h', refines values n h h' ∧ ∃ k, cache_at (memory h') address = Some k ∧ cache_of t k)).
  { intros Hnone Htag. ystep (str_as_bytes_eq values h n v t Hh Hd).
    destruct (denotes_text_ok _ _ _ _ _ Hh Hd) as [[_ [cs Hcs]] Hlen]. destruct (cache_build_spec cs t Hcs Hlen) as (k & -> & Hk).
    ystep (eq_refl (Go k h)). apply yields_bind, box_into_raw_yields. intros p Hp Hgood.
    set (h1 := with_memory h (<[p := Cache k]> (memory h))).
    assert (Ha1 : memory h1 !! a = Some b) by (cbn; rewrite lookup_insert_ne; [done|congruence]).
    assert (Hok : (if has_len_tag state then massert (Z.of_nat (codepoint_len k) =? Z.shiftr state STR_CODEPOINT_LEN_SHIFT) else mret tt) h1 = Go tt h1).
    { destruct (has_len_tag state); [|done]. destruct Hk as [-> _]. by rewrite Htag, Z.eqb_refl. }
    ystep Hok. ystep (write_state_eq h1 a b p state Ha1 Hs). unfold yields. cbn [memory with_memory h1].
    destruct (inv_attach_index _ _ _ a b state p k t Hinv Ha Hs Hnone Ht Hp Hgood Hk) as [Hi Hkeeps].
    split; [split; [split; [done|]|done]|].
    - cbn. apply pool_insert; [|by destruct b|apply pool_insert; [by rewrite Hp|done|done]].
      rewrite lookup_insert_ne, Ha by congruence. by destruct b.
    - exists k. split; [|done]. cbn. rewrite cache_at_insert_ne by congruence. unfold cache_at. by rewrite lookup_insert_eq. }
  destruct (state_word_facts _ _ _ _ _ Hinv Hst) as [[-> Hnone]|[(seen & -> & Hnone)|(k & Hk & Hc & Hz & Htag)]].
  - rewrite Z.eqb_refl. cbn [negb andb]. by apply Hbuild.
  - destruct (len_word_facts t seen) as (Hz & Htag & _ & Hlen). rewrite Hz, Htag. cbn [negb andb]. by apply Hbuild.
  - rewrite Hz, Htag. cbn [negb andb]. unfold yields. cbn. split; [by apply refines_refl|]. by exists k.
Qed.

Lemma str_unicode_len_for_index_yields values h n v t :
  heap_inv values h n → denotes (memory h) v t → str_is_inline_bits v = false →
  yields (str_unicode_len_for_index v) h (λ len h', len = Z.of_nat (starts t) ∧ refines values n h h').
Proof using Type*.
  intros Hh Hd Hin. destruct (heap_string _ _ _ _ _ Hh Hd Hin) as (a & b & state & Hv & Ha & Hs & Ht & Hst & Hassert & Hslot & Hread).
  pose proof Hh as [Hinv Hpool]. unfold str_unicode_len_for_index. ystep Hassert. ystep Hslot. ystep Hread. unfold has_len_tag.
  destruct (state_word_facts _ _ _ _ _ Hinv Hst) as [[-> Hnone]|[(seen & -> & Hnone)|(k & Hk & [Hlen _] & Hz & Htag)]].
  - rewrite Z.eqb_refl. change (Z.land 0 STR_CODEPOINT_LEN_TAG =? 0) with true. cbn [negb andb].
    ystep (codepoints_of_eq values h n v t Hh Hd). rewrite len_word_unseen, len_word_seen.
    destruct (store_len values h n a b t 0 true Hh Ha Hs Ht Hnone) as (h' & Hw & Hr & _). ystep Hw. by split.
  - destruct (len_word_facts t seen) as (Hz & Htag & Hseen & Hlen). rewrite Hz, Htag, Hseen, Hlen. cbn [negb andb].
    destruct seen; cbn [negb].
    + apply yields_bind. eapply yields_mono; [by eapply str_unicode_cache_yields|]. intros address h' (Hr & k & Hk & [Hl _]).
      ystep (box_deref_eq h' address k Hk). by rewrite Hl.
    + rewrite len_word_seen. destruct (store_len values h n a b t (len_word t false) true Hh Ha Hs Ht Hnone) as (h' & Hw & Hr & _).
      ystep Hw. by split.
  - rewrite Hz, Htag. cbn [negb andb]. ystep (box_deref_eq h state k Hk). rewrite Hlen. split; [done|by apply refines_refl].
Qed.

(** *** The public lengths *)

(** The length of a string value, by whatever asks a heap string for it. *)
Lemma codepoint_len_yields values h n v t (ask : mem Z) :
  heap_inv values h n → denotes (memory h) v t →
  (∀ h, heap_inv values h n → denotes (memory h) v t → str_is_inline_bits v = false →
    yields ask h (λ len h', len = Z.of_nat (starts t) ∧ refines values n h h')) →
  yields (_ ← massert (is_str v); s ← str_as_bytes v;
    if str_is_inline_bits v then pure_res (utf8_codepoint_count s)
    else ascii ← str_is_ascii v; if ascii : bool then mret (vlen s) else ask) h
    (λ len h', len = Z.of_nat (starts t) ∧ refines values n h h').
Proof using Type*.
  intros Hh Hd Hask. rewrite (denotes_is_str h v t Hd). ystep (eq_refl (Go tt h)). ystep (str_as_bytes_eq values h n v t Hh Hd).
  destruct (str_is_inline_bits v) eqn:Hin.
  - rewrite (utf8_count_eq values h n v t Hh Hd). split; [done|by apply refines_refl].
  - destruct (str_is_ascii_spec values h n v t Hh Hd) as (h1 & Hascii & Hr & _). ystep Hascii. destruct (is_ascii t) eqn:Ha.
    + unfold yields. cbn. split; [|done]. destruct (denotes_text_ok _ _ _ _ _ Hh Hd) as [[Hb _] _].
      unfold vlen. f_equal. symmetry. by apply (ascii_starts t 0).
    + eapply yields_mono; [apply Hask; [by destruct Hr|by eapply refines_denotes|done]|].
      intros len h' [-> Hr']. split; [done|by eapply refines_trans].
Qed.

Lemma str_codepoint_len_yields values h n v t :
  heap_inv values h n → denotes (memory h) v t →
  yields (str_codepoint_len v) h (λ len h', len = Z.of_nat (starts t) ∧ refines values n h h').
Proof using Type*.
  intros Hh Hd. apply codepoint_len_yields; [done|done|]. intros h1 Hh1 Hd1 Hin.
  destruct (str_unicode_len_spec values h1 n v t Hh1 Hd1 Hin) as (h' & Hrun & Hr & _). by eapply yields_Go.
Qed.

Lemma str_codepoint_len_for_index_yields values h n v t :
  heap_inv values h n → denotes (memory h) v t →
  yields (str_codepoint_len_for_index v) h (λ len h', len = Z.of_nat (starts t) ∧ refines values n h h').
Proof using Type*.
  intros Hh Hd. apply codepoint_len_yields; [done|done|]. intros h1 Hh1 Hd1 Hin. by apply str_unicode_len_for_index_yields.
Qed.

(** *** Offsets *)

(** An offset, or the panic of an index past the end. *)
Definition offset_outcome (values : list Z) (n : Z) (h : Heap) (t : list Z) (index : nat) (r : step_result nat) : Prop :=
  if (index <=? starts t)%nat then ∃ h', r = Go (offset_of t index) h' ∧ refines values n h h' else r = Fault Panics.

(** The last step of every path: an assertion on the index, then a search. *)
Lemma offset_outcome_intro values n h h' t index (b : bool) (m : mem nat) :
  refines values n h h' → b = (index <=? starts t)%nat → ((index <= starts t)%nat → m h' = Go (offset_of t index) h') →
  offset_outcome values n h t index ((_ ← massert b; m) h').
Proof using Type.
  intros Hr -> Hm. unfold offset_outcome. destruct (Nat.leb_spec index (starts t)); [|done].
  mstep (eq_refl (Go tt h')). exists h'. split; [by apply Hm|done].
Qed.

Lemma byte_offset_step values h n v t index fuel :
  heap_inv values h n → denotes (memory h) v t →
  has_state h v ∨ (∀ h', heap_inv values h' n → denotes (memory h') v t → has_state h' v →
    offset_outcome values n h' t index (byte_offset_loop fuel v index h')) →
  offset_outcome values n h t index (byte_offset_loop (S fuel) v index h).
Proof using Type*.
  intros Hh Hd Hcase. cbn [byte_offset_loop]. rewrite (denotes_is_str h v t Hd). mstep (eq_refl (Go tt h)).
  mstep (str_as_bytes_eq values h n v t Hh Hd). destruct (denotes_text_ok _ _ _ _ _ Hh Hd) as [[Hb Hcs] Hlen].
  destruct (str_is_inline_bits v) eqn:Hin.
  { rewrite (utf8_count_eq values h n v t Hh Hd). mstep (eq_refl (Go (Z.of_nat (starts t)) h)).
    apply offset_outcome_intro; [by apply refines_refl|by destruct (Nat.leb_spec index (starts t)), (Z.leb_spec (Z.of_nat index) (Z.of_nat (starts t))); lia|].
    intros Hi. rewrite Nat2Z.id, uncached_offset_eq by done. done. }
  destruct (str_is_ascii_spec values h n v t Hh Hd) as (h1 & Hascii & Hr & Hsame). mstep Hascii. destruct (is_ascii t) eqn:Ha.
  { destruct (ascii_starts t index Hb Ha) as [Hst Ho]. apply offset_outcome_intro; [done|by rewrite Hst|].
    intros Hi. rewrite Ho by lia. done. }
  pose proof Hr as [Hh1 _]. pose proof (refines_denotes _ _ _ _ _ _ Hr Hd) as Hd1.
  destruct (heap_string _ _ _ _ _ Hh1 Hd1 Hin) as (a & b & state & Hv & Ha1 & Hs & Ht & Hst & _ & Hslot & Hread).
  mstep Hslot. mstep Hread. unfold has_len_tag. pose proof Hh1 as [Hinv _].
  destruct (state_word_facts _ _ _ _ _ Hinv Hst) as [[-> Hnone]|[(seen & -> & Hnone)|(k & Hk & [Hkl Hko] & Hz & Htag)]].
  - change (Z.land 0 STR_CODEPOINT_LEN_TAG =? 0) with true. cbn [negb]. rewrite Z.eqb_refl.
    destruct (str_unicode_len_spec values h1 n v t Hh1 Hd1 Hin) as (h2 & Hrun & Hr2 & Hnz). mstep Hrun.
    destruct Hcase as [Hnz0|Hloop].
    + exfalso. destruct (Hsame a b Ha1) as (b0 & Hb0 & Hw0). apply (Hnz0 a b0 Hv Hb0). congruence.
    + assert (Hr02 : refines values n h h2) by by eapply refines_trans.
      pose proof (Hloop h2 (proj1 Hr02) (refines_denotes _ _ _ _ _ _ Hr02 Hd) Hnz) as Hout. unfold offset_outcome in *.
      destruct (index <=? starts t)%nat; [|done]. destruct Hout as (h3 & Hrun3 & Hr3). exists h3. split; [done|]. by eapply refines_trans.
  - destruct (len_word_facts t seen) as (Hz & Htag & _ & ->). rewrite Htag. cbn [negb].
    apply offset_outcome_intro; [done|by destruct (Nat.leb_spec index (starts t)), (Z.leb_spec (Z.of_nat index) (Z.of_nat (starts t))); lia|].
    intros Hi. rewrite Nat2Z.id, uncached_offset_eq by done. done.
  - rewrite Htag, Hz. cbn [negb]. mstep (box_deref_eq h1 state k Hk).
    apply offset_outcome_intro; [done|by rewrite Hkl|]. intros Hi. rewrite Hko by done. done.
Qed.

Lemma str_codepoint_byte_offset_spec values h n v t index :
  heap_inv values h n → denotes (memory h) v t →
  offset_outcome values n h t index (str_codepoint_byte_offset v index h).
Proof using Type*.
  intros Hh Hd. apply byte_offset_step; [done|done|]. right. intros h' Hh' Hd' Hs. apply byte_offset_step; [done|done|by left].
Qed.

(** The width of a code point, and where the next one starts. *)
Lemma codepoint_at t i :
  text_ok t → (i < starts t)%nat →
  ∃ b, t !! offset_of t i = Some b ∧ (offset_of t i < length t)%nat ∧
    offset_of t (S i) = (offset_of t i + utf8_codepoint_width b)%nat.
Proof using Type.
  intros [_ [cs [Hcs ->]]] Hi. rewrite starts_codepoints in Hi by done. rewrite !offset_of_position by (done || lia).
  destruct (lookup_lt_is_Some_2 cs i Hi) as [c Hc]. destruct (position_lookup cs i c Hcs Hc) as (b & Hb & _ & Hw & Hlt).
  exists b. split_and!; try done. by rewrite (position_S _ _ _ Hc), Hw.
Qed.

Lemma str_codepoint_byte_range_spec values h n v t index :
  heap_inv values h n → denotes (memory h) v t →
  if (index <? starts t)%nat
  then ∃ h', str_codepoint_byte_range v index h = Go (offset_of t index, offset_of t (S index)) h' ∧ refines values n h h'
  else str_codepoint_byte_range v index h = Fault Panics.
Proof using Type*.
  intros Hh Hd. pose proof (str_codepoint_byte_offset_spec values h n v t index Hh Hd) as Ho. unfold offset_outcome in Ho.
  unfold str_codepoint_byte_range. destruct (Nat.leb_spec index (starts t)) as [Hle|Hgt].
  - destruct Ho as (h' & Ho & Hr). mstep Ho. pose proof Hr as [Hh' _].
    mstep (str_as_bytes_eq values h' n v t Hh' (refines_denotes _ _ _ _ _ _ Hr Hd)).
    destruct (denotes_text_ok _ _ _ _ _ Hh Hd) as [Htext _]. destruct (Nat.ltb_spec index (starts t)) as [Hlt|Hge].
    + destruct (codepoint_at t index Htext Hlt) as (b & Hb & Hoff & Hnext). rewrite (proj2 (Nat.ltb_lt _ _) Hoff).
      mstep (eq_refl (Go tt h')). rewrite (vnth_lookup _ _ _ Hb). mstep (eq_refl (Go b h')). exists h'. split; [by rewrite Hnext|done].
    + assert (index = starts t) as -> by lia. by rewrite offset_of_starts, Nat.ltb_irrefl.
  - destruct (Nat.ltb_spec index (starts t)); [lia|]. unfold mbind, mem_bind. by rewrite Ho.
Qed.
End lengths.
