(* ===== verification/StrBuildSpec.v ===== *)
(** What making strings does under the invariant of StrHeapSpec.v: from bytes,
    as slices of others, and by appending in place.

    Appending to strings in place, and the interpreter's uses of string values:
    [x += y], subscripts and slices. *)

From stdpp Require Import gmap.
From S2P Require Import Outcome Prelude Keys IntBytes NanBox Utf8 StrHeap StrHeapSpec StrRefSpec StrOpsSpec.

(** ** Ranges of a text *)

Lemma boundary_position cs i :
  Forall codepoint cs → (i <= length (mjoin cs))%nat → utf8_codepoint_boundary (mjoin cs) i = true →
  ∃ k, (k <= length cs)%nat ∧ i = position cs k.
Proof.
  intros Hcs. revert i. induction Hcs as [|c cs Hc Hcs IH]; intros i Hi Hb; [exists 0%nat; split; [done|cbn in *; lia]|].
  destruct (decide (i = 0)%nat) as [->|Hi0]; [by exists 0%nat; split; [lia|]|].
  change (mjoin (c :: cs)) with (c ++ mjoin cs) in *. rewrite length_app in Hi.
  destruct (decide (i < length c)%nat) as [Hlt|Hge].
  - exfalso. destruct Hc as (b & rest & -> & _ & Hrest & _). destruct i as [|i]; [lia|]. cbn [length] in Hlt.
    destruct (lookup_lt_is_Some_2 rest i) as [x Hx]; [lia|]. unfold utf8_codepoint_boundary in Hb.
    rewrite lookup_app_l in Hb by (cbn; lia). change ((b :: rest) !! S i) with (rest !! i) in Hb. rewrite Hx in Hb.
    rewrite (Forall_lookup_1 _ _ _ _ Hrest Hx), orb_false_r in Hb. apply orb_true_iff in Hb as [Hb%Nat.eqb_eq|Hb%Nat.eqb_eq]; [lia|].
    rewrite length_app in Hb. cbn [length] in Hb. lia.
  - destruct (IH (i - length c)%nat) as (k & Hk & Heq); [lia| |].
    + unfold utf8_codepoint_boundary in *. rewrite lookup_app_r, length_app in Hb by lia.
      rewrite !orb_true_iff, !Nat.eqb_eq in *. destruct Hb as [[?|?]|?]; [lia|left; right; lia|by right].
    + exists (S k). split; [cbn; lia|]. unfold position in *. cbn [take]. change (mjoin (c :: take k cs)) with (c ++ mjoin (take k cs)).
      rewrite length_app. lia.
Qed.

Lemma subrange_positions cs k1 k2 :
  (k1 <= k2)%nat → subrange (position cs k1) (position cs k2) (mjoin cs) = mjoin (take (k2 - k1) (drop k1 cs)).
Proof.
  intros Hk. unfold subrange.
  assert (Hd : drop (position cs k1) (mjoin cs) = mjoin (drop k1 cs)).
  { unfold position. by rewrite (position_split cs k1), drop_app_length. }
  rewrite Hd. assert (Hlen : (position cs k2 - position cs k1)%nat = length (mjoin (take (k2 - k1) (drop k1 cs)))).
  { unfold position. replace (take k2 cs) with (take k1 cs ++ take (k2 - k1) (drop k1 cs)) by (rewrite take_take_drop; f_equal; lia).
    rewrite join_app, length_app. lia. }
  rewrite Hlen, (position_split (drop k1 cs) (k2 - k1)). by rewrite take_app_length.
Qed.

(** A range between two boundaries is a text. *)
Lemma text_ok_subrange t i j :
  text_ok t → (i <= j)%nat → (j <= length t)%nat → utf8_codepoint_boundary t i = true → utf8_codepoint_boundary t j = true →
  text_ok (subrange i j t).
Proof.
  intros [Hb [cs [Hcs ->]]] Hij Hj Hbi Hbj. split; [by apply Forall_take, Forall_drop|].
  destruct (boundary_position cs i Hcs ltac:(lia) Hbi) as (k1 & Hk1 & ->).
  destruct (boundary_position cs j Hcs Hj Hbj) as (k2 & Hk2 & ->).
  destruct (decide (k1 <= k2)%nat) as [Hk|Hk].
  - rewrite subrange_positions by done. eexists. split; [|done]. by apply Forall_take, Forall_drop.
  - exists []. split; [constructor|]. assert (position cs k2 <= position cs k1)%nat.
    { unfold position. rewrite (position_split (take k1 cs) k2), length_app, take_take, Nat.min_l by lia. lia. }
    unfold subrange. by replace (position cs k2 - position cs k1)%nat with 0%nat by lia.
Qed.

Lemma text_ok_app t1 t2 : text_ok t1 → text_ok t2 → text_ok (t1 ++ t2).
Proof.
  intros [Hb1 [cs1 [Hc1 ->]]] [Hb2 [cs2 [Hc2 ->]]]. split; [by apply Forall_app|]. exists (cs1 ++ cs2).
  split; [by apply Forall_app|by rewrite join_app].
Qed.

Lemma text_ok_nil : text_ok [].
Proof. split; [constructor|]. exists []. by split; [constructor|]. Qed.

(** The bytes of one code point lie between boundaries. *)
Lemma offset_boundary t i : text_ok t → (i <= starts t)%nat → utf8_codepoint_boundary t (offset_of t i) = true.
Proof.
  intros Ht Hi. destruct (decide (i = starts t)) as [->|Hne].
  - rewrite offset_of_starts. unfold utf8_codepoint_boundary. by rewrite Nat.eqb_refl, orb_true_r.
  - destruct Ht as [_ [cs [Hcs ->]]]. rewrite starts_codepoints in * by done. rewrite offset_of_position by (done || lia).
    destruct (lookup_lt_is_Some_2 cs i) as [c Hc]; [lia|]. destruct (position_lookup cs i c Hcs Hc) as (b & Hb & Hs & _).
    unfold utf8_codepoint_boundary. by rewrite Hb, Hs, orb_true_r.
Qed.

Lemma offset_of_mono t i j : (i <= j)%nat → (offset_of t i <= offset_of t j)%nat.
Proof.
  revert i j. induction t as [|b t IH]; intros i j Hij; [done|]. cbn [offset_of].
  destruct (is_start b), i, j; try lia; cbn; apply le_n_S || lia; apply IH; lia.
Qed.

Lemma is_ascii_app t1 t2 : is_ascii (t1 ++ t2) = is_ascii t1 && is_ascii t2.
Proof. apply forallb_app. Qed.

Lemma is_ascii_Forall t : is_ascii t = true ↔ Forall (λ b, (b <? 128) = true) t.
Proof. unfold is_ascii. rewrite forallb_forall, Forall_forall. by setoid_rewrite list_elem_of_In. Qed.

Lemma is_ascii_subrange t i j : is_ascii t = true → is_ascii (subrange i j t) = true.
Proof. rewrite !is_ascii_Forall. intros Ht. by apply Forall_take, Forall_drop. Qed.

(** ** New blocks *)

Definition with_pool (m : gmap Z block) (head len : Z) : Heap := {| memory := m; pool_head := head; pool_len := len |}.

(** A new value, of a text, beside those there were. *)
Definition creates (values : list Z) (h : Heap) (n : Z) (t : list Z) (v : Z) (h' : Heap) : Prop :=
  heap_inv (v :: values) h' n ∧ keeps values (memory h) (memory h') ∧ denotes (memory h') v t.

(** Nothing refers to where there is no block. *)
Lemma inv_fresh_refs values m n p : inv values m n → m !! p = None → refs values m p = 0%nat.
Proof.
  intros Hinv Hp. unfold refs.
  assert (Hc : count (slice_of p) m = 0%nat).
  { destruct (count (slice_of p) m) as [|k] eqn:Hk; [done|exfalso]. destruct (count_pos_inv (slice_of p) m) as (a & b & Ha & Hs); [lia|].
    apply (inv_slice_root _ _ _ Hinv a b p Ha Hs). unfold root_bytes. by rewrite Hp. }
  rewrite Hc, Nat.add_0_r. unfold handles. apply length_zero_iff_nil.
  destruct (filter _ values) as [|v l] eqn:Hf; [done|exfalso].
  assert (Hv : v ∈ filter (λ v, value_addr v = Some p) values) by (rewrite Hf; by left).
  apply list_elem_of_filter in Hv as [Hv Hin]. pose proof (inv_values _ _ _ Hinv) as Hall. rewrite Forall_forall in Hall.
  destruct (Hall v Hin) as (t & [(Ht & Hlen & ->)|(a & b & -> & Haddr & Ha & _)]).
  - destruct (inline_facts t Ht Hlen) as (_ & _ & _ & _ & Hn). congruence.
  - destruct (str_bits_facts a Haddr) as (_ & _ & _ & _ & Hn). congruence.
Qed.

Lemma init_block_eq h p b size :
  memory h !! p = Some (Uninit size) → block_size b = Some size →
  init_block (from_addr p) b h = Go tt (with_memory h (<[p := b]> (memory h))).
Proof. intros Hp Hb. unfold init_block. mstep (read_block_eq h p _ Hp). cbn beta iota. by rewrite bool_decide_eq_true_2. Qed.

(** An address that gets this far fits into a value, or the process aborts. *)
Lemma encode_str_yields h p (Q : Z → Heap → Prop) :
  good_address p → (str_address p → Q (str_bits p) h) → yields (encode_str (from_addr p)) h Q.
Proof.
  intros [Hp Hmod] HQ. unfold encode_str. replace (to_addr (from_addr p)) with p by (unfold to_addr, from_addr; cbn; lia).
  destruct (encode_nanbox_heap_pointer TAG_STR_BITS p) as [bits|] eqn:He.
  - change TAG_STR_BITS with (TAG_STR * 2 ^ 48) in He. apply encode_pointer_Some in He as (-> & Hpay & Hm & Hne); [|lia].
    unfold yields. cbn. by apply HQ.
  - unfold yields. cbn. unfold encode_nanbox_heap_pointer, try_nanbox_heap_pointer_payload, NANBOX_HEAP_POINTER_ALIGNMENT in He.
    rewrite Hmod, (proj2 (Z.eqb_neq p 0)) in He by lia. cbn [negb andb Z.eqb] in He. rewrite andb_true_r in He.
    destruct (Z.leb_spec p PAYLOAD_MASK); [done|lia].
Qed.

(** A string block for a new value: [values0] may hold one more reference to
    the root of a slice. *)
Lemma insert_string values0 values m head len n n' p b t :
  heap_inv values0 (with_pool m head len) n → n ≤ n' → m !! p = None →
  (∀ x, x ≠ p → refs (str_bits p :: values) (<[p := b]> m) x = refs values0 m x) →
  handles values p = 0%nat → (∀ v, v ∈ values → v ∈ values0) →
  str_address p → state_word b = Some 0 → block_text (<[p := b]> m) b = Some t →
  block_ok (str_bits p :: values) (<[p := b]> m) n' p b →
  creates values (with_pool m head len) n' t (str_bits p) (with_pool (<[p := b]> m) head len).
Proof.
  intros [Hinv Hpool] Hn Hp Hrefs Hhandles Hvalues Haddr Hs Ht Hok. cbn [memory with_pool] in *.
  assert (Hd : denotes (<[p := b]> m) (str_bits p) t) by (right; exists p, b; split_and!; try done; apply lookup_insert_eq).
  split; [split|split; [by apply keeps_insert|done]]; cbn [memory with_pool].
  - apply (inv_insert m p b Hp values0 _ n n' Hinv Hn); [| | |done].
    + intros x Hx. apply Hrefs. by intros ->.
    + intros c Hc. rewrite (owner_of_word _ _ _ Hs), bool_decide_eq_false_2; [done|]. intros <-.
      destruct (cache_at m 0) as [k|] eqn:H0; [|done]. pose proof (inv_good _ _ _ Hinv _ _ (cache_at_lookup _ _ _ H0)) as [? _]. lia.
    + intros v [->|Hv]%elem_of_cons; [right; by exists t|left; auto].
  - apply pool_insert; [by rewrite Hp|by destruct b|done].
Qed.

Section build.
  Context `{Allocator, AlignTo} `{!AllocatorLaws, !AlignToLaws}.

(** A new owned string of some text. *)
Lemma new_owned_yields values h n t flag :
  heap_inv values h n → 0 ≤ n → text_ok t → (∀ ascii, flag = Some ascii → ascii = is_ascii t) → heap_len t →
  yields (ptr ← alloc_or_handle (16 + vlen t); _ ← init_block ptr (Owned (header_word false flag 1) (vlen t) 0 t); encode_str ptr) h
    (creates values h (n + 1) t).
Proof using Type*.
  intros Hh Hn Ht Hflag Hmax. apply yields_bind, alloc_yields. intros p Hp Hgood.
  set (b := Owned (header_word false flag 1) (vlen t) 0 t). set (h1 := with_memory h (<[p := Uninit (16 + vlen t)]> (memory h))).
  assert (Hp1 : memory h1 !! p = Some (Uninit (16 + vlen t))) by apply lookup_insert_eq.
  ystep (init_block_eq h1 p b _ Hp1 eq_refl). apply encode_str_yields; [done|]. intros Haddr.
  cbn [memory with_memory h1]. rewrite insert_insert_eq.
  pose proof Hh as [Hinv _]. pose proof (inv_fresh_refs _ _ _ p Hinv Hp) as Hfresh.
  apply (insert_string values values (memory h) (pool_head h) (pool_len h) n (n + 1) p b t); try done; try lia.
  - intros x Hx. unfold refs. by rewrite handles_str_bits_ne, count_insert.
  - unfold refs in Hfresh. lia.
  - split; [done|]. exists flag, 1. split_and!; try done; [|by left].
    assert (Hrefs : refs (str_bits p :: values) (<[p := b]> (memory h)) p = 1%nat).
    { unfold refs in *. rewrite handles_str_bits, bool_decide_eq_true_2, count_insert by done. cbn [slice_of b ind]. lia. }
    rewrite Hrefs. unfold rc_ok, STR_RC_MAX. rewrite Z.shiftr_div_pow2 by lia. split_and!; [lia|lia|done|by left].
Qed.

Lemma long_heap_len t : (STR_INLINE_MAX < length t)%nat → vlen t ≤ STR_MAX_BYTE_LEN → heap_len t.
Proof using Type. unfold heap_len, vlen. lia. Qed.

(** A short string, inline. *)
Lemma new_inline_eq values h n t :
  heap_inv values h n → text_ok t → (length t <= STR_INLINE_MAX)%nat →
  ∃ v, pure_res (make_inline_str t) h = Go v h ∧ creates values h (n + 1) t v h.
Proof using Type.
  intros Hh Ht Hlen. pose proof Ht as [Hb _]. rewrite make_inline_str_eq by done. eexists. split; [done|].
  destruct (inline_facts t Ht Hlen) as (_ & _ & _ & _ & Hva).
  assert (Hd : denotes (memory h) (TAG_STR * 2 ^ 48 + inline_payload t) t) by by left.
  split; [|split; [apply keeps_refl|done]]. apply (heap_inv_inline values h n); [done|lia|done|by exists t].
Qed.

Lemma layout_yields (t : list Z) h (Q : Z → Heap → Prop) :
  (vlen t ≤ STR_MAX_BYTE_LEN → Q (16 + vlen t) h) → yields (nanbox_owned_string_layout (vlen t)) h Q.
Proof using Type.
  intros HQ. unfold nanbox_owned_string_layout, yields. destruct (Z.ltb_spec STR_MAX_BYTE_LEN (vlen t)); [done|]. by apply HQ.
Qed.

Lemma value_string_yields values h n t :
  heap_inv values h n → 0 ≤ n → text_ok t → yields (value_string t) h (creates values h (n + 1) t).
Proof using Type*.
  intros Hh Hn Ht. unfold value_string. destruct (Nat.leb_spec (length t) STR_INLINE_MAX) as [Hlen|Hlen].
  - destruct (new_inline_eq values h n t Hh Ht Hlen) as (v & Hrun & Hc). by eapply yields_Go.
  - apply yields_bind, layout_yields. intros Hmax.
    pose proof (new_owned_yields values h n t (Some (is_ascii t)) Hh Hn Ht) as Hnew.
    rewrite <- (header_word_init false (Some (is_ascii t))) in Hnew.
    replace (if is_ascii t then Z.lor STR_IS_ASCII STR_ASCII_COMPUTED else STR_ASCII_COMPUTED)
      with (match Some (is_ascii t) with None => 0 | Some false => STR_ASCII_COMPUTED | Some true => Z.lor STR_IS_ASCII STR_ASCII_COMPUTED end)
      by by destruct (is_ascii t).
    apply Hnew; [by intros ascii [= <-]|by apply long_heap_len].
Qed.

(** [fill] is trusted to report the ASCII-ness of what it wrote. *)
Lemma value_string_from_fill_yields values h n t flag :
  heap_inv values h n → 0 ≤ n → text_ok t → (∀ ascii, flag = Some ascii → ascii = is_ascii t) →
  yields (value_string_from_fill t flag) h (creates values h (n + 1) t).
Proof using Type*.
  intros Hh Hn Ht Hflag. unfold value_string_from_fill. destruct (Nat.leb_spec (length t) STR_INLINE_MAX) as [Hlen|Hlen].
  - destruct (new_inline_eq values h n t Hh Ht Hlen) as (v & Hrun & Hc). by eapply yields_Go.
  - apply yields_bind, layout_yields. intros Hmax.
    pose proof (new_owned_yields values h n t flag Hh Hn Ht Hflag (long_heap_len t Hlen Hmax)) as Hnew. rewrite <- (header_word_init false flag) in Hnew.
    by destruct flag as [[]|].
Qed.

(** ** Slices *)

(** A free slot taken out of memory. *)
Lemma inv_take_slot values m n p next :
  inv values m n → m !! p = Some (FreeSlot next) → inv values (delete p m) n ∧ ∀ vs, keeps vs m (delete p m).
Proof using Type.
  intros Hinv Hp.
  assert (Hc : count (slice_of p) m = 0%nat).
  { destruct (count (slice_of p) m) as [|k] eqn:Hk; [done|exfalso]. destruct (count_pos_inv (slice_of p) m) as (a & b & Ha & Hs); [lia|].
    apply (inv_slice_root _ _ _ Hinv a b p Ha Hs). unfold root_bytes. by rewrite Hp. }
  assert (Hroot : ∀ x, root_bytes m x ≠ None → root_bytes (delete p m) x = root_bytes m x).
  { intros x Hx. apply root_bytes_delete_ne. intros ->. apply Hx. unfold root_bytes. by rewrite Hp. }
  assert (Hkeeps : ∀ vs, keeps vs m (delete p m)).
  { intros vs v t _. apply denotes_frame. intros a b _ Ha Ht. exists b. split.
    - apply lookup_delete_Some. split; [|done]. intros <-. rewrite Hp in Ha. by injection Ha as <-.
    - eapply block_text_frame; [|done]. intros x _. apply Hroot. }
  split; [|done]. split; [|by eapply keeps_values; [apply (inv_values _ _ _ Hinv)|]].
  intros x bx [Hne Hx]%lookup_delete_Some. eapply (block_ok_frame values values m); [done| | | | |by apply (inv_blocks _ _ _ Hinv)].
  - unfold refs. by rewrite (count_delete (slice_of x) m p _ Hp).
  - intros y Hy. apply Hroot. by eapply inv_slice_root.
  - intros c k _ Hk. rewrite cache_at_delete_ne; [done|]. intros ->. apply cache_at_lookup in Hk. congruence.
  - intros _. by rewrite (count_delete (owner_of x) m p _ Hp).
Qed.

(** A block for a slice, from the pool or new. *)
Lemma pool_b_alloc_yields values h n (Q : Pointer → Heap → Prop) :
  heap_inv values h n →
  (∀ p m head len, m !! p = None → good_address p → heap_inv values (with_pool m head len) n → (∀ vs, keeps vs (memory h) m) →
    (∀ a b, memory h !! a = Some b → is_free (Some b) = false → m !! a = Some b) →
    Q (from_addr p) (with_pool (<[p := Uninit 32]> m) head len)) →
  yields pool_b_alloc h Q.
Proof using Type*.
  intros [Hinv Hpool] HQ. unfold yields, pool_b_alloc. destruct (Z.ltb_spec 0 (pool_len h)) as [Hpos|Hzero].
  - destruct (pool_pop _ _ _ Hpool Hpos) as (next & Hhead & Hpool'). destruct (inv_take_slot _ _ _ _ _ Hinv Hhead) as [Hi Hk].
    assert (Hnext : read_next (from_addr (pool_head h)) h = Go next h) by (unfold read_next; by mstep (read_block_eq h _ _ Hhead)).
    mstep Hnext. unfold pool_set, write_block, set_memory, mbind, mem_bind. cbn [memory pool_head pool_len ptr_base from_addr].
    rewrite <- (insert_delete_eq (memory h)). apply HQ; try done.
    + apply lookup_delete_eq.
    + by apply (inv_good _ _ _ Hinv _ _ Hhead).
    + intros a b Ha Hb. apply lookup_delete_Some. split; [|done]. intros <-. rewrite Hhead in Ha. injection Ha as <-. done.
  - pose proof (alloc_yields h 32 Q) as Halloc. unfold yields in Halloc. apply Halloc. intros p Hp Hgood.
    apply HQ; [done|done|by destruct h|intros; apply keeps_refl|done].
Qed.

Lemma subrange_of_range (i j : nat) (off sub : Z) (bytes : list Z) :
  0 ≤ off → 0 ≤ sub → (i <= j)%nat → Z.of_nat j ≤ sub →
  subrange i j (take (Z.to_nat sub) (drop (Z.to_nat off) bytes)) =
    take (Z.to_nat (Z.of_nat (j - i))) (drop (Z.to_nat (off + Z.of_nat i)) bytes).
Proof using Type.
  intros Hoff Hsub Hij Hj. unfold subrange. rewrite skipn_firstn_comm, drop_drop, take_take. f_equal; [lia|]. f_equal. lia.
Qed.

(** Where the bytes of a heap string are: a range of an owned block. *)
Lemma string_root values h n a b state t :
  heap_inv values h n → memory h !! a = Some b → state_word b = Some state → block_text (memory h) b = Some t →
  ∃ root rc len st bytes off, memory h !! root = Some (Owned rc len st bytes) ∧ 0 ≤ off ∧ off + vlen t ≤ vlen bytes ∧
    vlen bytes ≤ STR_MAX_BYTE_LEN ∧ str_address root ∧ t = take (Z.to_nat (vlen t)) (drop (Z.to_nat off) bytes) ∧
    (if is_slice b
     then read_ref (from_addr a) h = Go {| ptr_base := root; ptr_offset := 16 + off |} h ∧ read_offset (from_addr a) h = Go off h
     else root = a ∧ off = 0).
Proof using Type.
  intros [Hinv _] Ha Hs Ht. destruct (inv_header _ _ _ _ _ _ Hinv Ha Hs) as (_ & _ & t' & _ & _ & Ht' & _ & _ & Haddr & _ & [_ Hmax] & _).
  assert (t' = t) as -> by congruence. destruct b as [rcw len st bytes|rcw len ref off st| | |]; try done.
  - injection Ht as ->. exists a, rcw, len, st, t, 0. split_and!; try done; try lia.
    unfold vlen. by rewrite Nat2Z.id, drop_0, firstn_all.
  - destruct (inv_blocks _ _ _ Hinv a _ Ha) as [_ (Hoff & Hpos & bytes & Hroot & Hle & flag & rc & _ & _ & _ & Hsub & _)].
    cbn [block_text] in Ht. rewrite Hroot in Ht. cbn in Ht. injection Ht as Ht. rewrite Ht in Hsub. subst len.
    unfold root_bytes in Hroot. destruct (memory h !! ptr_base ref) as [[rrc rlen rst rb| | | |]|] eqn:Hr; try done. injection Hroot as ->.
    destruct (inv_header _ _ _ _ _ _ Hinv Hr eq_refl) as (_ & _ & tr & _ & _ & Htr & _ & _ & Hraddr & _ & [_ Hrmax] & _). injection Htr as <-.
    exists (ptr_base ref), rrc, rlen, rst, bytes, off. split_and!; try done. cbn [is_slice]. unfold read_ref, read_offset. split.
    + mstep (read_block_eq h a _ Ha). destruct ref as [pb po]. cbn in *. by rewrite Hoff.
    + by mstep (read_block_eq h a _ Ha).
Qed.

(** The reference and the offset of a new slice. *)
Lemma slice_source values h n a b state t rc_type i :
  heap_inv values h n → memory h !! a = Some b → state_word b = Some state → block_text (memory h) b = Some t →
  rc_word b = Some rc_type → (i <= length t)%nat →
  ∃ root rc len st bytes off, memory h !! root = Some (Owned rc len st bytes) ∧ 0 ≤ off ∧ off + vlen t ≤ vlen bytes ∧
    vlen bytes ≤ STR_MAX_BYTE_LEN ∧ str_address root ∧ t = take (Z.to_nat (vlen t)) (drop (Z.to_nat off) bytes) ∧
    let self_ref := {| ptr_base := root; ptr_offset := 16 + off |} in
    (if Z.land rc_type STR_TYPE_B =? 0 then mret (ptr_add (from_addr a) STR_OWNED_HEADER_SIZE) else read_ref (from_addr a)) h = Go self_ref h ∧
    (if Z.land rc_type STR_TYPE_B =? 0 then mret (from_addr a, Z.of_nat i)
     else
       base ← read_offset (from_addr a);
       _ ← massert (to_addr (ptr_sub self_ref (base + STR_OWNED_HEADER_SIZE)) + STR_OWNED_HEADER_SIZE + base =? to_addr self_ref);
       if base + Z.of_nat i <=? STR_MAX_BYTE_LEN then mret (ptr_sub self_ref (base + STR_OWNED_HEADER_SIZE), base + Z.of_nat i)
       else mfault (BadLength (base + Z.of_nat i))) h = Go (from_addr root, off + Z.of_nat i) h.
Proof using Type.
  intros Hh Ha Hs Ht Hw Hi. destruct (string_root _ _ _ _ _ _ _ Hh Ha Hs Ht)
    as (root & rc & len & st & bytes & off & Hr & Hoff & Hle & Hmax & Haddr & Heq & Hcase).
  exists root, rc, len, st, bytes, off. split_and!; try done; cbn zeta.
  all: pose proof Hh as [Hinv _]; destruct (inv_header _ _ _ _ _ _ Hinv Ha Hs) as (flag & r & _ & Hw' & _);
    assert (rc_type = header_word (is_slice b) flag r) as -> by congruence; rewrite header_word_layout; destruct (is_slice b); cbn [negb].
  - destruct Hcase as [Hrf Hro]. split; [done|]. mstep Hro.
    assert (Hp : ptr_sub {| ptr_base := root; ptr_offset := 16 + off |} (off + STR_OWNED_HEADER_SIZE) = from_addr root)
      by (unfold ptr_sub, ptr_add, from_addr, STR_OWNED_HEADER_SIZE; cbn; f_equal; lia).
    assert (Hto : (to_addr (from_addr root) + STR_OWNED_HEADER_SIZE + off =? to_addr {| ptr_base := root; ptr_offset := 16 + off |}) = true)
      by (apply Z.eqb_eq; unfold to_addr, from_addr, STR_OWNED_HEADER_SIZE; cbn; lia).
    rewrite Hp, Hto. mstep (eq_refl (Go tt h)). unfold vlen in *.
    destruct (Z.leb_spec (off + Z.of_nat i) STR_MAX_BYTE_LEN); [done|lia].
  - destruct Hcase as [-> ->]. done.
Qed.

(** The header and text of a new slice, under a reference to its root that it takes over. *)
Lemma insert_slice values m head len n root rc rlen rst bytes off (i j : nat) flag p :
  heap_inv (str_bits root :: values) (with_pool m head len) n → 1 ≤ n → m !! root = Some (Owned rc rlen rst bytes) → m !! p = None →
  str_address root → str_address p → good_address p → 0 ≤ off → (i <= j)%nat → off + Z.of_nat j ≤ vlen bytes → vlen bytes ≤ STR_MAX_BYTE_LEN →
  (STR_INLINE_MAX < j - i)%nat →
  let t := take (Z.to_nat (Z.of_nat (j - i))) (drop (Z.to_nat (off + Z.of_nat i)) bytes) in
  text_ok t → (∀ ascii, flag = Some ascii → ascii = is_ascii t) →
  let b := Slice (header_word true flag 1) (Z.of_nat (j - i)) {| ptr_base := root; ptr_offset := 16 + (off + Z.of_nat i) |}
    (off + Z.of_nat i) 0 in
  creates values (with_pool m head len) n t (str_bits p) (with_pool (<[p := b]> m) head len).
Proof using Type.
  intros Hh Hn Hroot Hp Hraddr Haddr Hgood Hoff Hij Hj Hmax Hlong t Htext Hflag b.
  assert (Hne : root ≠ p) by congruence. pose proof Hh as [Hinv _]. cbn [memory with_pool] in Hinv.
  pose proof (inv_fresh_refs _ _ _ p Hinv Hp) as Hfresh. unfold refs in Hfresh.
  rewrite handles_str_bits_ne in Hfresh by (done || congruence).
  assert (Hlen : vlen t = Z.of_nat (j - i)).
  { unfold t, vlen in *. rewrite length_take, length_drop. lia. }
  assert (Hrb : root_bytes (<[p := b]> m) root = Some bytes).
  { unfold root_bytes. rewrite lookup_insert_ne by done. by rewrite Hroot. }
  apply (insert_string (str_bits root :: values) values m head len n n p b t); try done; try lia.
  - intros x Hx. unfold refs. rewrite !handles_str_bits, (count_insert (slice_of x)) by done. cbn [slice_of b ptr_base].
    rewrite (bool_decide_eq_false_2 (p = x)) by congruence.
    replace (root =? x) with (bool_decide (root = x)) by (by destruct (Z.eqb_spec root x); case_bool_decide). cbn [ind]. lia.
  - intros v Hv. by right.
  - cbn [block_text b ptr_base]. by rewrite Hrb.
  - split; [done|]. split; [done|]. split; [lia|]. exists bytes. cbn [ptr_base]. split; [done|]. split; [lia|].
    exists flag, 1. fold t. assert (heap_len t) by (unfold heap_len; lia). split_and!; try done; [|by left].
    assert (Hrefs : refs (str_bits p :: values) (<[p := b]> m) p = 1%nat).
    { unfold refs. rewrite handles_str_bits, bool_decide_eq_true_2, count_insert by done. cbn [slice_of b ptr_base].
      rewrite (proj2 (Z.eqb_neq root p) Hne). cbn [ind]. lia. }
    rewrite Hrefs. unfold rc_ok, STR_RC_MAX. rewrite Z.shiftr_div_pow2 by lia. split_and!; [lia|lia|done|by left].
Qed.

(** Whether a range is one of whole code points. *)
Definition valid_range (t : list Z) (i j : nat) : bool :=
  (i <=? j)%nat && (j <=? length t)%nat && (utf8_codepoint_boundary t i && utf8_codepoint_boundary t j).

Lemma string_slice_yields values h n v t i j :
  heap_inv values h n → 0 ≤ n → denotes (memory h) v t →
  if valid_range t i j then yields (string_slice v i j) h (creates values h (n + 1) (subrange i j t))
  else string_slice v i j h = Fault Panics.
Proof using Type*.
  intros Hh Hn Hd. unfold valid_range, string_slice. rewrite (denotes_is_str h v t Hd).
  destruct (Nat.leb_spec i j) as [Hij|]; [|done]. cbn [andb massert].
  assert (Hbytes := str_as_bytes_eq values h n v t Hh Hd).
  destruct (Nat.leb_spec j (length t)) as [Hj|Hj]; cbn [andb].
  2: { mstep (eq_refl (Go tt h)). mstep (eq_refl (Go tt h)). mstep Hbytes. destruct (Nat.leb_spec j (length t)); [lia|done]. }
  destruct (utf8_codepoint_boundary t i && utf8_codepoint_boundary t j) eqn:Hbd.
  2: { mstep (eq_refl (Go tt h)). mstep (eq_refl (Go tt h)). mstep Hbytes. rewrite (proj2 (Nat.leb_le _ _) Hj).
    mstep (eq_refl (Go tt h)). by rewrite Hbd. }
  ystep (eq_refl (Go tt h)). ystep (eq_refl (Go tt h)). ystep Hbytes. rewrite (proj2 (Nat.leb_le _ _) Hj). ystep (eq_refl (Go tt h)).
  rewrite Hbd. ystep (eq_refl (Go tt h)). apply andb_true_iff in Hbd as [Hbi Hbj].
  destruct (denotes_text_ok _ _ _ _ _ Hh Hd) as [Htext _].
  pose proof (text_ok_subrange t i j Htext Hij Hj Hbi Hbj) as Hsub.
  destruct (Nat.leb_spec (j - i) STR_INLINE_MAX) as [Hshort|Hlong].
  { ystep Hbytes. destruct (new_inline_eq values h n _ Hh Hsub) as (r & Hrun & Hc); [|by eapply yields_Go].
    unfold subrange. rewrite length_take. lia. }
  destruct (str_is_inline_bits v) eqn:Hin.
  { destruct (denotes_inline h v t Hd Hin) as (_ & _ & Hlen). lia. }
  destruct (denotes_heap h v t Hd Hin) as (a & b & state & -> & _ & Ha & Hs & Ht & Hhdr). rewrite Hhdr.
  pose proof Hh as [Hinv _]. destruct (inv_header _ _ _ _ _ _ Hinv Ha Hs) as (flag & rcount & t' & Hw & _ & Ht' & _ & _ & _ & Hflag & _).
  assert (t' = t) as -> by congruence. ystep (read_rc_type_eq h a b Ha _ Hw).
  destruct (slice_source values h n a b state t _ i Hh Ha Hs Ht Hw ltac:(lia))
    as (root & rc & len & st & bytes & off & Hroot & Hoff & Hle & Hmax & Hraddr & Heq & Hself & Hsrc).
  ystep Hself. cbn zeta in Hsrc. ystep Hsrc. rewrite header_word_known_ascii.
  destruct (increment_spec values h n root _ st bytes Hh Hroot eq_refl eq_refl) as (w & Hincr & Hh1 & Hk1 & _).
  ystep Hincr. set (h1 := with_memory h (<[root := with_rc (Owned rc len st bytes) w]> (memory h))) in *. unfold vlen in Hle.
  rewrite (proj2 (Z.leb_le (Z.of_nat (j - i)) STR_MAX_BYTE_LEN)) by (unfold vlen in *; lia). ystep (eq_refl (Go tt h1)).
  rewrite (proj2 (Z.leb_le (off + Z.of_nat i) STR_MAX_BYTE_LEN)) by (unfold vlen in *; lia). ystep (eq_refl (Go tt h1)).
  apply yields_bind, (pool_b_alloc_yields (str_bits root :: values) h1 (n + 1)); [done|]. intros p m head ln Hp Hgood Hh2 Hk2 Hblocks.
  assert (Hrange := subrange_of_range i j off (vlen t) bytes Hoff (vlen_nonneg t) Hij ltac:(unfold vlen; lia)).
  rewrite <- Heq in Hrange. rewrite Hrange in Hsub |- *.
  set (flag' := if bool_decide (flag = Some true) then Some true else None).
  replace (if bool_decide (flag = Some true) then Z.lor STR_IS_ASCII STR_ASCII_COMPUTED else 0)
    with (match flag' with None => 0 | Some false => STR_ASCII_COMPUTED | Some true => Z.lor STR_IS_ASCII STR_ASCII_COMPUTED end)
    by (unfold flag'; by case_bool_decide).
  rewrite (header_word_init true flag').
  replace (ptr_add {| ptr_base := root; ptr_offset := 16 + off |} (Z.of_nat i))
    with {| ptr_base := root; ptr_offset := 16 + (off + Z.of_nat i) |} by (unfold ptr_add; cbn; f_equal; lia).
  set (b1 := Slice _ _ _ _ _). set (h2 := with_pool (<[p := Uninit 32]> m) head ln).
  ystep (init_block_eq h2 p b1 32 ltac:(apply lookup_insert_eq) eq_refl). cbn [memory with_pool with_memory h2]. rewrite insert_insert_eq.
  apply encode_str_yields; [done|]. intros Haddr.
  destruct (insert_slice values m head ln (n + 1) root w len st bytes off i j flag' p) as (Hi & Hk & Hd'); try done; try lia.
  - apply Hblocks; [apply lookup_insert_eq|done].
  - unfold vlen in *. lia.
  - intros ascii. unfold flag'. case_bool_decide as Hf; [|done]. intros [= <-]. rewrite <- Hrange. symmetry.
    apply is_ascii_subrange. symmetry. by apply Hflag.
  - split; [exact Hi|]. split; [|exact Hd']. eapply keeps_trans; [apply Hk1|]. eapply keeps_trans; [apply Hk2|exact Hk].
Qed.
End build.

(** * Concatenation, subscripts and slices *)


Section concat.
  Context `{Allocator, AlignTo} `{!AllocatorLaws, !AlignToLaws}.

(** The block an append leaves, over memory without the old one. *)
Lemma insert_appended values m head len n p flag t other :
  heap_inv values (with_pool m head len) n → 1 ≤ n → m !! p = None → str_address p →
  text_ok (t ++ other) → heap_len (t ++ other) → (∀ ascii, flag = Some ascii → ascii = is_ascii t) →
  let b := Owned (header_word false ((λ ascii, ascii && is_ascii other) <$> flag) 1) (vlen (t ++ other)) 0 (t ++ other) in
  creates values (with_pool m head len) n (t ++ other) (str_bits p) (with_pool (<[p := b]> m) head len).
Proof using Type.
  intros Hh Hn Hp Haddr Htext Hmax Hflag b. pose proof Hh as [Hinv _]. cbn [memory with_pool] in Hinv.
  pose proof (inv_fresh_refs _ _ _ p Hinv Hp) as Hfresh. unfold refs in Hfresh.
  apply (insert_string values values m head len n n p b); try done; try lia.
  - intros x Hx. unfold refs. by rewrite handles_str_bits_ne, count_insert.
  - split; [by apply str_address_good|]. eexists _, 1. split_and!; [done| | |done|done|done|by left|done].
    + intros ascii. destruct flag as [f|]; [|done]. cbn. intros [= <-]. by rewrite is_ascii_app, (Hflag f eq_refl).
    + assert (Hrefs : refs (str_bits p :: values) (<[p := b]> m) p = 1%nat).
      { unfold refs. rewrite handles_str_bits, bool_decide_eq_true_2, count_insert by done. cbn [slice_of b ind]. lia. }
      rewrite Hrefs. unfold rc_ok, STR_RC_MAX. rewrite Z.shiftr_div_pow2 by lia. split_and!; [lia|lia|done|by left].
Qed.

Lemma finish_append_yields values0 m0 values n m head len p flag rc_len state t other :
  inv values0 m0 n → state_ok m0 t state →
  heap_inv values (with_pool (drop_index m state) head len) n → 1 ≤ n →
  m !! p = None → cache_at m state = cache_at m0 state →
  text_ok (t ++ other) → heap_len (t ++ other) → (∀ ascii, flag = Some ascii → ascii = is_ascii t) → good_address p →
  yields (finish_append (from_addr p) (vlen (t ++ other)) other)
    (with_pool (<[p := Owned (header_word false flag 1) rc_len state (t ++ other)]> m) head len)
    (λ r h', r.2 = true ∧ creates values (with_pool (drop_index m state) head len) n (t ++ other) r.1 h').
Proof using Type.
  intros Hinv0 Hst Hh Hn Hp Hcache Htext Hmax Hflag Hgood. unfold finish_append. apply yields_bind, encode_str_yields; [done|]. intros Haddr.
  set (b0 := Owned (header_word false flag 1) rc_len state (t ++ other)). set (h0 := with_pool (<[p := b0]> m) head len).
  assert (Hb0 : memory h0 !! p = Some b0) by apply lookup_insert_eq.
  set (b1 := Owned (header_word false flag 1) (vlen (t ++ other)) state (t ++ other)). set (h1 := with_pool (<[p := b1]> m) head len).
  assert (Hlen : write_sub_len (from_addr p) (vlen (t ++ other)) h0 = Go tt h1).
  { unfold write_sub_len. mstep (read_block_eq h0 p b0 Hb0). unfold write_block, set_memory, h1, with_pool. cbn. by rewrite insert_insert_eq. }
  ystep Hlen. assert (Hb1 : memory h1 !! p = Some b1) by apply lookup_insert_eq. ystep (read_rc_type_eq h1 p b1 Hb1 _ eq_refl).
  rewrite appended_header_word by lia. set (flag' := (λ ascii, ascii && is_ascii other) <$> flag).
  set (b2 := Owned (header_word false flag' 1) (vlen (t ++ other)) state (t ++ other)). set (h2 := with_pool (<[p := b2]> m) head len).
  assert (Hw : write_rc_type (from_addr p) (header_word false flag' 1) h1 = Go tt h2).
  { rewrite (write_rc_type_eq h1 p b1 Hb1 _ _ eq_refl). unfold h2, with_pool, with_memory. cbn. by rewrite insert_insert_eq. }
  ystep Hw. assert (Hb2 : memory h2 !! p = Some b2) by apply lookup_insert_eq.
  assert (Hc2 : cache_at (memory h2) state = cache_at m0 state).
  { cbn. rewrite <- Hcache. destruct (decide (state = p)) as [->|]; [|by apply cache_at_insert_ne].
    unfold cache_at. by rewrite lookup_insert_eq, Hp. }
  ystep (drop_state_eq _ _ _ _ _ (OwnedState (from_addr p)) h2 Hinv0 Hst ltac:(cbn [read_state]; by mstep (read_block_eq h2 p b2 Hb2)) Hc2).
  assert (Hdrop : drop_index (memory h2) state = <[p := b2]> (drop_index m state)).
  { cbn. unfold drop_index. destruct (decide (state = p)) as [->|Hne].
    - unfold cache_at. by rewrite lookup_insert_eq, Hp.
    - rewrite cache_at_insert_ne by done. destruct (cache_at m state); [by apply delete_insert_ne|done]. }
  rewrite Hdrop. set (h3 := with_memory h2 (<[p := b2]> (drop_index m state))).
  assert (Hb3 : memory h3 !! p = Some b2) by apply lookup_insert_eq.
  ystep (write_state_eq h3 p b2 0 state Hb3 eq_refl). cbn [memory with_memory h3 with_state b2]. rewrite insert_insert_eq.
  unfold yields. cbn. split; [done|].
  assert (Hp' : drop_index m state !! p = None).
  { unfold drop_index. destruct (cache_at m state); [|done]. apply lookup_delete_None. by right. }
  exact (insert_appended values (drop_index m state) head len n p flag t other Hh Hn Hp' Haddr Htext Hmax Hflag).
Qed.

Lemma realloc_owned_yields h a rc len st bytes other (Q : option Pointer → Heap → Prop) :
  memory h !! a = Some (Owned rc len st bytes) → Q None h →
  (∀ p, p = a ∨ memory h !! p = None → good_address p →
    Q (Some (from_addr p)) (with_memory h (<[p := Owned rc len st (bytes ++ other)]> (delete a (memory h))))) →
  yields (realloc_owned (from_addr a) (16 + vlen bytes) (16 + vlen (bytes ++ other)) other) h Q.
Proof using Type*.
  intros Ha HN HS. unfold yields, realloc_owned. cbn [ptr_base ptr_offset from_addr]. rewrite Ha, bool_decide_eq_true_2 by done.
  destruct (realloc (memory h) a (16 + vlen (bytes ++ other))) as [p|] eqn:Hre; [|done].
  destruct (realloc_fresh _ _ _ _ Hre) as [Hp Hgood]. by apply (HS p).
Qed.

(** What an append leaves: a value of the longer text, or the old one as it was. *)
Definition appends (values : list Z) (h : Heap) (n : Z) (v : Z) (t other : list Z) (r : Z * bool) (h' : Heap) : Prop :=
  if r.2 then creates values h n (t ++ other) r.1 h' else r.1 = v ∧ h' = h.

Lemma str_append_in_place_yields values h n v t other :
  heap_inv (v :: values) h n → 1 ≤ n → denotes (memory h) v t → text_ok other →
  yields (str_append_in_place v other) h (appends values h n v t other).
Proof using Type*.
  intros Hh Hn Hd Hother. unfold str_append_in_place. rewrite (denotes_is_str h v t Hd). cbn [negb].
  destruct (str_is_inline_bits v) eqn:Hin; [done|].
  destruct (denotes_heap h v t Hd Hin) as (a & b & state & -> & _ & Ha & Hs & Ht & Hhdr). rewrite Hhdr.
  pose proof Hh as [Hinv Hpool]. destruct (inv_header _ _ _ _ _ _ Hinv Ha Hs) as (flag & rc & t' & Hw & Hrc & Ht' & Htext & Hst & Haddr & Hflag & Hmax & Hlen).
  assert (t' = t) as -> by congruence. ystep (read_rc_type_eq h a b Ha _ Hw). rewrite header_word_layout, header_word_rc.
  destruct (is_slice b) eqn:Hsl; cbn [negb]; [done|]. destruct (Z.eqb_spec rc 1) as [->|]; cbn [negb]; [|done].
  destruct b as [rcw len st bytes| | | |]; try done. injection Hs as ->. injection Ht as ->. injection Hw as ->.
  case_bool_decide as Hnil.
  { subst other. unfold yields. cbn. rewrite app_nil_r. split; [done|]. split; [apply keeps_refl|done]. }
  ystep (Hlen h eq_refl). destruct (Z.ltb_spec (2 ^ 32 - 1) (vlen t + vlen other)) as [|Hfit]; [done|].
  apply yields_bind, layout_yields. intros _.
  assert (Hsub : len = vlen t) by (destruct (inv_blocks _ _ _ Hinv a _ Ha) as [_ (? & ? & _ & _ & _ & ? & _)]; done).
  assert (Happ : vlen (t ++ other) = vlen t + vlen other) by (unfold vlen; rewrite length_app; lia).
  unfold STR_OWNED_HEADER_SIZE. rewrite <- Happ in *. apply yields_bind, (realloc_owned_yields h a _ _ _ _ _ _ Ha); [done|].
  intros p Hp Hgood. rewrite refs_str_bits in Hrc by done. unfold rc_ok in Hrc. change STR_RC_MAX with 536870911 in Hrc. unfold refs in Hrc.
  destruct (inv_free (str_bits a :: values) values (memory h) n a _ state Hinv Ha eq_refl) as [Hi Hk]; [lia|lia| |by intros v Hv; left; right|].
  { intros x Hx _. unfold refs. rewrite handles_str_bits_ne by done. by rewrite (count_delete (slice_of x) (memory h) a _ Ha). }
  set (m := delete a (memory h)).
  assert (Hcache : cache_at m state = cache_at (memory h) state).
  { apply cache_at_delete_ne. intros ->. destruct Hst as [->|[[seen ->]|(_ & k & Hk' & _)]].
    - destruct (inv_good _ _ _ Hinv _ _ Ha). lia.
    - by apply (len_word_not_good t seen), (inv_good _ _ _ Hinv _ _ Ha).
    - apply cache_at_lookup in Hk'. congruence. }
  assert (Hm : delete a (drop_index (memory h) state) = drop_index m state).
  { unfold drop_index. rewrite Hcache. destruct (cache_at (memory h) state); [by rewrite delete_delete|done]. }
  rewrite Hm in Hi, Hk.
  eapply yields_mono.
  - apply (finish_append_yields (str_bits a :: values) (memory h) values n m (pool_head h) (pool_len h) p flag len state t other Hinv Hst);
      try done.
    + split; [done|]. cbn [memory pool_head pool_len with_pool]. rewrite <- Hm. apply pool_delete; [|by apply pool_drop_index].
      by rewrite (drop_index_lookup _ a _ _ Ha).
    + destruct Hp as [->|Hp]; [apply lookup_delete_eq|]. apply lookup_delete_None. by right.
    + by apply text_ok_app.
    + destruct Hmax. unfold heap_len. pose proof (vlen_nonneg other). rewrite Happ. unfold STR_MAX_BYTE_LEN. lia.
  - intros [v' ok] h' [Hok (Hi' & Hk' & Hd')]. cbn in Hok, Hi', Hk', Hd'. subst ok. unfold appends. cbn. split; [done|]. split; [|done].
    by eapply keeps_trans.
Qed.

(** ** Uses in the interpreter *)

Lemma heap_inv_swap v w values h n : heap_inv (v :: w :: values) h n → heap_inv (w :: v :: values) h n.
Proof using Type.
  intros [[Hb Hv] Hp]. split; [|done]. split.
  - intros x b Hx. eapply (block_ok_frame (v :: w :: values)); [done| | | | |by apply Hb]; try done.
    unfold refs. f_equal. apply handles_Permutation; [apply Permutation_swap|done].
  - apply Forall_cons in Hv as [Hv1 [Hv2 Hv]%Forall_cons]. by repeat constructor.
Qed.

Lemma heap_inv_mono values h n n' : heap_inv values h n → n ≤ n' → heap_inv values h n'.
Proof using Type.
  intros [[Hb Hv] Hp] Hn. split; [|done]. split; [|done].
  intros x b Hx. by eapply (block_ok_frame values); [|..|by apply Hb].
Qed.

(** [x += y]: the value for [x] is replaced, the one for [y] is borrowed. *)
Lemma str_concat_in_place_yields values h n v w t u :
  heap_inv (v :: values) h n → 0 ≤ n → denotes (memory h) v t → denotes (memory h) w u →
  yields (str_concat_in_place v w) h (creates values h (n + 2) (t ++ u)).
Proof using Type*.
  intros Hh Hn Hd Hdw. unfold str_concat_in_place.
  destruct (value_clone_spec _ h n w u Hh Hdw) as (h1 & Hclone & Hh1 & Hk1 & Hdw1). ystep Hclone.
  ystep (str_as_bytes_eq _ h1 _ w u Hh1 Hdw1). assert (Hd1 : denotes (memory h1) v t) by (apply (Hk1 [v]); [by left|done]).
  destruct (denotes_text_ok _ _ _ _ _ Hh1 Hdw1) as [Hu _]. destruct (denotes_text_ok _ _ _ _ _ Hh1 Hd1) as [Ht _].
  apply heap_inv_swap in Hh1. apply yields_bind.
  eapply yields_mono; [apply (str_append_in_place_yields (w :: values) h1 (n + 1) v t u); [done|lia|done|done]|].
  intros [v' ok] h2 Happ. unfold appends in Happ. cbn [fst snd] in Happ. destruct ok.
  - destruct Happ as (Hh2 & Hk2 & Hd2). ystep (eq_refl (Go v' h2)). assert (Hdw2 : denotes (memory h2) w u) by (apply Hk2; [by left|done]).
    apply heap_inv_swap in Hh2. destruct (value_drop_spec (v' :: values) h2 (n + 1) w u Hh2 Hdw2) as (h3 & Hdrop & Hh3 & Hk3).
    ystep Hdrop. unfold yields. cbn. split; [apply (heap_inv_mono (v' :: values) h3 (n + 1)); [done|lia]|]. split; [|by apply Hk3; [left|]].
    eapply keeps_trans; [apply Hk1|]. eapply keeps_trans; [by eapply keeps_sub; [|exact Hk2]; intros x Hx; right|].
    eapply keeps_sub; [|exact Hk3]. intros x Hx. by right.
  - destruct Happ as [-> ->]. apply yields_bind. ystep (str_as_bytes_eq _ h1 _ v t Hh1 Hd1). apply yields_bind.
    eapply yields_mono; [apply (value_string_yields (v :: w :: values) h1 (n + 1)); [done|lia|by apply text_ok_app]|].
    intros r h2 (Hh2 & Hk2 & Hd2). assert (Hd2v : denotes (memory h2) v t) by (apply Hk2; [by left|done]).
    apply heap_inv_swap in Hh2. destruct (value_drop_spec (r :: w :: values) h2 _ v t Hh2 Hd2v) as (h3 & Hdrop & Hh3 & Hk3).
    ystep Hdrop. unfold yields at 1. cbn.
    assert (Hdw3 : denotes (memory h3) w u) by (apply Hk3; [right; by left|apply Hk2; [right; by left|done]]).
    apply heap_inv_swap in Hh3. destruct (value_drop_spec (r :: values) h3 _ w u Hh3 Hdw3) as (h4 & Hdrop4 & Hh4 & Hk4).
    ystep Hdrop4. unfold yields. cbn. replace (n + 1 + 1) with (n + 2) in Hh4 by lia. split; [done|]. split.
    + eapply keeps_trans; [apply Hk1|]. eapply keeps_trans; [by eapply keeps_sub; [|exact Hk2]; intros x Hx; right; right|].
      eapply keeps_trans; [by eapply keeps_sub; [|exact Hk3]; intros x Hx; right; right|].
      eapply keeps_sub; [|exact Hk4]. intros x Hx. by right.
    + apply Hk4; [by left|]. apply Hk3; [by left|done].
Qed.

(** *** Subscripts *)

(** The code points from one index to another. *)
Definition substring (t : list Z) (i j : nat) : list Z := subrange (offset_of t i) (offset_of t j) t.

Lemma valid_substring t i j : text_ok t → (i <= j)%nat → (j <= starts t)%nat → valid_range t (offset_of t i) (offset_of t j) = true.
Proof using Type.
  intros Ht Hij Hj. unfold valid_range. rewrite !offset_boundary by (done || lia).
  rewrite (proj2 (Nat.leb_le _ _) (offset_of_mono t i j Hij)), (proj2 (Nat.leb_le _ _) (offset_of_le t j)). done.
Qed.

Lemma ascii_substring t i j :
  Forall byte_range t → is_ascii t = true → (i <= length t)%nat → (j <= length t)%nat → substring t i j = subrange i j t.
Proof using Type.
  intros Hb Ha Hi Hj. unfold substring. destruct (ascii_starts t i Hb Ha) as [_ ->]; [|done].
  by destruct (ascii_starts t j Hb Ha) as [_ ->].
Qed.

(** A computation that succeeds under a condition and panics otherwise, unless it aborts. *)
Definition yields_if {A} (c : bool) (m : mem A) (h : Heap) (Q : A → Heap → Prop) : Prop :=
  match m h with Go a h' => c = true ∧ Q a h' | Fault f => benign f ∨ (c = false ∧ f = Panics) end.

Lemma yields_if_true {A} (m : mem A) h Q : yields m h Q → yields_if true m h Q.
Proof using Type. unfold yields, yields_if. destruct (m h); auto. Qed.

Lemma yields_if_bind {A B} c (m : mem A) (f : A → mem B) h Q :
  yields m h (λ a h', yields_if c (f a) h' Q) → yields_if c (m ≫= f) h Q.
Proof using Type. unfold yields, yields_if, mbind, mem_bind. destruct (m h); auto. Qed.

Lemma yields_if_panic {A} (m : mem A) h Q : m h = Fault Panics → yields_if false m h Q.
Proof using Type. unfold yields_if. intros ->. by right. Qed.

Lemma bind_fault {A B} (m : mem A) (f : A → mem B) h e : m h = Fault e → (m ≫= f) h = Fault e.
Proof using Type. unfold mbind, mem_bind. by intros ->. Qed.

Lemma creates_refines values h h1 n n' t v h' : refines values n h h1 → creates values h1 n' t v h' → creates values h n' t v h'.
Proof using Type. intros [_ Hk1] (Hh & Hk & Hd). split; [done|]. split; [by eapply keeps_trans|done]. Qed.

Lemma str_index_yields values h n v t idx :
  heap_inv values h n → 0 ≤ n → denotes (memory h) v t →
  yields_if (idx <? starts t)%nat (str_index v idx) h (creates values h (n + 1) (substring t idx (S idx))).
Proof using Type*.
  intros Hh Hn Hd. destruct (denotes_text_ok _ _ _ _ _ Hh Hd) as [Htext _].
  destruct (str_is_ascii_spec values h n v t Hh Hd) as (h1 & Hascii & Hr & _). pose proof Hr as [Hh1 _].
  pose proof (refines_denotes _ _ _ _ _ _ Hr Hd) as Hd1. unfold str_index. apply yields_if_bind. eapply yields_Go; [exact Hascii|].
  destruct (is_ascii t) eqn:Ha.
  - apply yields_if_bind. eapply yields_Go; [exact (str_as_bytes_eq _ _ _ _ _ Hh1 Hd1)|]. destruct Htext as [Hb _].
    destruct (ascii_starts t 0 Hb Ha) as [-> _]. destruct (Nat.ltb_spec idx (length t)) as [Hlt|Hge].
    + destruct (lookup_lt_is_Some_2 t idx Hlt) as [b Hb0]. rewrite (vnth_lookup _ _ _ Hb0). apply yields_if_bind.
      apply (yields_Go _ _ b h1); [done|]. apply yields_if_true.
      assert (Hsub : substring t idx (S idx) = [b]).
      { rewrite ascii_substring by (done || lia). unfold subrange. rewrite (drop_S _ _ _ Hb0). by replace (S idx - idx)%nat with 1%nat by lia. }
      rewrite Hsub. eapply yields_mono; [apply (value_string_yields values h1 n); [done|done|]|intros r h' Hc; by eapply creates_refines].
      rewrite is_ascii_Forall in Ha. pose proof (Forall_lookup_1 _ _ _ _ Ha Hb0) as Hlow. cbn beta in Hlow.
      pose proof (Forall_lookup_1 _ _ _ _ Hb Hb0) as Hrange. split; [by constructor|]. exists [[b]]. split; [|done].
      constructor; [|constructor]. exists b, []. split_and!; [done| |constructor|].
      * destruct (ascii_starts [b] 0 ltac:(by constructor) ltac:(cbn; by rewrite Hlow)) as [Hs _]. rewrite starts_cons, starts_nil in Hs.
        by destruct (is_start b).
      * unfold utf8_codepoint_width. change 0x80 with 128. by rewrite Hlow.
    + apply yields_if_panic. apply bind_fault. unfold vnth. by rewrite lookup_ge_None_2.
  - apply yields_if_bind. eapply yields_mono; [by apply str_codepoint_len_for_index_yields|]. intros len h2 [_ Hr2].
    pose proof Hr2 as [Hh2 _]. pose proof (refines_denotes _ _ _ _ _ _ Hr2 Hd1) as Hd2.
    pose proof (str_codepoint_byte_range_spec values h2 n v t idx Hh2 Hd2) as Hrange.
    destruct (Nat.ltb_spec idx (starts t)) as [Hlt|Hge]; [|by apply yields_if_panic, bind_fault].
    destruct Hrange as (h3 & Hrun & Hr3). apply yields_if_true. apply yields_bind. eapply yields_Go; [exact Hrun|]. cbn beta iota.
    pose proof Hr3 as [Hh3 _]. pose proof (string_slice_yields values h3 n v t (offset_of t idx) (offset_of t (S idx)) Hh3 Hn
      (refines_denotes _ _ _ _ _ _ Hr3 Hd2)) as Hslice. rewrite valid_substring in Hslice by (done || lia).
    eapply yields_mono; [exact Hslice|]. intros r h' Hc. eapply creates_refines; [|exact Hc].
    eapply refines_trans; [exact Hr|]. by eapply refines_trans.
Qed.

Lemma str_slice_contiguous_yields values h n v t i j :
  heap_inv values h n → 0 ≤ n → denotes (memory h) v t →
  yields_if ((j <=? i) || (j <=? starts t))%nat (str_slice_contiguous v i j (is_ascii t)) h
    (creates values h (n + 1) (if (j <=? i)%nat then [] else substring t i j)).
Proof using Type*.
  intros Hh Hn Hd. destruct (denotes_text_ok _ _ _ _ _ Hh Hd) as [Htext _]. unfold str_slice_contiguous.
  destruct (Nat.leb_spec j i) as [|Hij]; cbn [orb];
    [apply yields_if_true; exact (value_string_yields values h n [] Hh Hn text_ok_nil)|].
  destruct (is_ascii t) eqn:Ha.
  - pose proof Htext as [Hb _]. destruct (ascii_starts t 0 Hb Ha) as [Hst _].
    pose proof (string_slice_yields values h n v t i j Hh Hn Hd) as Hslice.
    destruct (Nat.leb_spec j (starts t)) as [Hj|Hj].
    + assert (Hv : valid_range t i j = true).
      { pose proof (valid_substring t i j Htext ltac:(lia) Hj) as Hv. destruct (ascii_starts t i Hb Ha) as [_ Hi].
        destruct (ascii_starts t j Hb Ha) as [_ Hj']. rewrite Hi, Hj' in Hv by lia. done. }
      rewrite Hv in Hslice. rewrite (ascii_substring t i j Hb Ha) by lia. apply yields_if_true. exact Hslice.
    + assert (Hv : valid_range t i j = false).
      { unfold valid_range. destruct (Nat.leb_spec j (length t)); [lia|]. by rewrite andb_false_r. }
      rewrite Hv in Hslice. by apply yields_if_panic.
  - pose proof (str_codepoint_byte_offset_spec values h n v t i Hh Hd) as Hoi. unfold offset_outcome in Hoi.
    destruct (Nat.leb_spec i (starts t)) as [Hi|Hi].
    2: { destruct (Nat.leb_spec j (starts t)); [lia|]. by apply yields_if_panic, bind_fault. }
    destruct Hoi as (h1 & Hrun1 & Hr1). pose proof Hr1 as [Hh1 _]. pose proof (refines_denotes _ _ _ _ _ _ Hr1 Hd) as Hd1.
    apply yields_if_bind. eapply yields_Go; [exact Hrun1|].
    pose proof (str_codepoint_byte_offset_spec values h1 n v t j Hh1 Hd1) as Hoj. unfold offset_outcome in Hoj.
    destruct (Nat.leb_spec j (starts t)) as [Hj|Hj]; [|by apply yields_if_panic, bind_fault].
    destruct Hoj as (h2 & Hrun2 & Hr2). pose proof Hr2 as [Hh2 _]. apply yields_if_true, yields_bind. eapply yields_Go; [exact Hrun2|].
    pose proof (string_slice_yields values h2 n v t (offset_of t i) (offset_of t j) Hh2 Hn (refines_denotes _ _ _ _ _ _ Hr2 Hd1)) as Hslice.
    rewrite valid_substring in Hslice by (done || lia). eapply yields_mono; [exact Hslice|]. intros r h' Hc.
    eapply creates_refines; [|exact Hc]. by eapply refines_trans.
Qed.

Lemma str_subscript_slice_yields values h n v t i j :
  heap_inv values h n → 0 ≤ n → denotes (memory h) v t →
  yields_if ((j <=? i) || (j <=? starts t))%nat (str_subscript_slice v i j) h
    (creates values h (n + 1) (if (j <=? i)%nat then [] else substring t i j)).
Proof using Type*.
  intros Hh Hn Hd. unfold str_subscript_slice. destruct (str_is_ascii_spec values h n v t Hh Hd) as (h1 & Hascii & Hr1 & _).
  pose proof Hr1 as [Hh1 _]. pose proof (refines_denotes _ _ _ _ _ _ Hr1 Hd) as Hd1.
  apply yields_if_bind. eapply yields_Go; [exact Hascii|]. apply yields_if_bind.
  assert (Hlen : yields (if is_ascii t then s ← str_as_bytes v; mret (vlen s) else str_codepoint_len_for_index v) h1 (λ _ h', refines values n h1 h')).
  { destruct (is_ascii t).
    - ystep (str_as_bytes_eq _ _ _ _ _ Hh1 Hd1). by apply refines_refl.
    - eapply yields_mono; [by apply str_codepoint_len_for_index_yields|]. by intros len h' [_ Hr]. }
  eapply yields_mono; [exact Hlen|]. intros len h2 Hr2. pose proof Hr2 as [Hh2 _].
  pose proof (str_slice_contiguous_yields values h2 n v t i j Hh2 Hn (refines_denotes _ _ _ _ _ _ Hr2 Hd1)) as Hs.
  unfold yields_if in *. destruct (str_slice_contiguous v i j (is_ascii t) h2) as [r h'|]; [|done]. destruct Hs as [Hc Hs]. split; [done|].
  eapply creates_refines; [|exact Hs]. by eapply refines_trans.
Qed.
End concat.
