(* ===== verification/StringProps.v ===== *)
(** Runs of operations on string values, against strings that are just byte
    lists: what the values denote, what the operations answer, and what is left
    in memory. *)

From stdpp Require Import gmap.
From S2P Require Import Outcome Prelude Keys IntBytes NanBox Utf8 StrHeap StrHeapSpec StrRefSpec StrOpsSpec StrBuildSpec.

(** ** Operations

    Values are named by their position, the newest first. *)
Inductive str_op : Type :=
  | OString (bytes : list Z)
  | OFill (bytes : list Z) (flag : option bool)
  | OClone (i : nat)
  | ODrop (i : nat)
  | OSlice (i byte_start byte_end : nat)
  | OConcat (i j : nat)
  | OIndex (i index : nat)
  | OSubstring (i start fin : nat)
  | OIsAscii (i : nat)
  | OLen (i : nat)
  | OLenForIndex (i : nat)
  | OByteOffset (i index : nat)
  | OByteRange (i index : nat)
  | OBytes (i : nat).

Inductive answer : Type :=
  | Nothing
  | Flag (b : bool)
  | Length (n : Z)
  | Offset (o : nat)
  | Range (r : nat * nat)
  | Text (t : list Z).

(** What callers owe: whole code points, and the truth about them. *)
Definition op_ok (o : str_op) : Prop :=
  match o with
  | OString bytes => text_ok bytes
  | OFill bytes flag => text_ok bytes ∧ ∀ ascii, flag = Some ascii → ascii = is_ascii bytes
  | _ => True
  end.

Section runs.
  Context `{Allocator, AlignTo}.

(** A new value goes in front; an operation on a value that is not there does nothing. *)
Definition push (values : list Z) (m : mem Z) : mem (list Z * answer) := v ← m; mret (v :: values, Nothing).
Definition ask {A} (values : list Z) (f : A → answer) (m : mem A) : mem (list Z * answer) := a ← m; mret (values, f a).
Definition at_value (values : list Z) (i : nat) (f : Z → mem (list Z * answer)) : mem (list Z * answer) :=
  match values !! i with Some v => f v | None => mret (values, Nothing) end.

Definition run_op (o : str_op) (values : list Z) : mem (list Z * answer) :=
  match o with
  | OString bytes => push values (value_string bytes)
  | OFill bytes flag => push values (value_string_from_fill bytes flag)
  | OClone i => at_value values i (λ v, push values (value_clone v))
  | ODrop i => at_value values i (λ v, _ ← value_drop v; mret (delete i values, Nothing))
  | OSlice i a b => at_value values i (λ v, push values (string_slice v a b))
  | OConcat i j =>
      at_value values i (λ v, at_value values j (λ w, r ← str_concat_in_place v w; mret (<[i := r]> values, Nothing)))
  | OIndex i k => at_value values i (λ v, push values (str_index v k))
  | OSubstring i a b => at_value values i (λ v, push values (str_subscript_slice v a b))
  | OIsAscii i => at_value values i (λ v, ask values Flag (str_is_ascii v))
  | OLen i => at_value values i (λ v, ask values Length (str_codepoint_len v))
  | OLenForIndex i => at_value values i (λ v, ask values Length (str_codepoint_len_for_index v))
  | OByteOffset i k => at_value values i (λ v, ask values Offset (str_codepoint_byte_offset v k))
  | OByteRange i k => at_value values i (λ v, ask values Range (str_codepoint_byte_range v k))
  | OBytes i => at_value values i (λ v, ask values Text (str_as_bytes v))
  end.

Fixpoint run_ops (ops : list str_op) (values : list Z) : mem (list Z * list answer) :=
  match ops with
  | [] => mret (values, [])
  | o :: ops =>
      '(values, a) ← run_op o values;
      '(values, answers) ← run_ops ops values;
      mret (values, a :: answers)
  end.
End runs.

(** ** The same on byte lists: [None] is a panic. *)

Definition at_text (ts : list (list Z)) (i : nat) (f : list Z → option (list (list Z) * answer)) : option (list (list Z) * answer) :=
  match ts !! i with Some t => f t | None => Some (ts, Nothing) end.
Definition given {A} (b : bool) (a : A) : option A := if b then Some a else None.

Definition text_op (o : str_op) (ts : list (list Z)) : option (list (list Z) * answer) :=
  match o with
  | OString bytes | OFill bytes _ => Some (bytes :: ts, Nothing)
  | OClone i => at_text ts i (λ t, Some (t :: ts, Nothing))
  | ODrop i => at_text ts i (λ t, Some (delete i ts, Nothing))
  | OSlice i a b => at_text ts i (λ t, given (valid_range t a b) (subrange a b t :: ts, Nothing))
  | OConcat i j => at_text ts i (λ t, at_text ts j (λ u, Some (<[i := t ++ u]> ts, Nothing)))
  | OIndex i k => at_text ts i (λ t, given (k <? starts t)%nat (substring t k (S k) :: ts, Nothing))
  | OSubstring i a b =>
      at_text ts i (λ t, given ((b <=? a) || (b <=? starts t))%nat ((if (b <=? a)%nat then [] else substring t a b) :: ts, Nothing))
  | OIsAscii i => at_text ts i (λ t, Some (ts, Flag (is_ascii t)))
  | OLen i | OLenForIndex i => at_text ts i (λ t, Some (ts, Length (Z.of_nat (starts t))))
  | OByteOffset i k => at_text ts i (λ t, given (k <=? starts t)%nat (ts, Offset (offset_of t k)))
  | OByteRange i k => at_text ts i (λ t, given (k <? starts t)%nat (ts, Range (offset_of t k, offset_of t (S k))))
  | OBytes i => at_text ts i (λ t, Some (ts, Text t))
  end.

Fixpoint text_ops (ops : list str_op) (ts : list (list Z)) : option (list (list Z) * list answer) :=
  match ops with
  | [] => Some (ts, [])
  | o :: ops =>
      '(ts, a) ← text_op o ts;
      '(ts, answers) ← text_ops ops ts;
      Some (ts, a :: answers)
  end.

(** ** Refinement *)

(** Values that stand for texts, in a memory in order. *)
Definition state_rel (n : Z) (values : list Z) (h : Heap) (ts : list (list Z)) : Prop :=
  heap_inv values h n ∧ 0 ≤ n ∧ Forall2 (denotes (memory h)) values ts.

(** A run agrees with its text: the same answers, a panic where there is none,
    or a fault that is nobody's. *)
Definition agrees {A} (n : Z) (r : step_result (list Z * A)) (s : option (list (list Z) * A)) : Prop :=
  match r with
  | Go (values, a) h => ∃ ts, s = Some (ts, a) ∧ state_rel n values h ts
  | Fault f => benign f ∨ (s = None ∧ f = Panics)
  end.

Lemma agrees_mono {A} n n' (r : step_result (list Z * A)) s : n ≤ n' → agrees n r s → agrees n' r s.
Proof.
  intros Hn. unfold agrees. destruct r as [[values a] h|f]; [|done]. intros (ts & Hs & Hinv & Hpos & Hd).
  exists ts. split; [done|]. split; [by eapply heap_inv_mono|]. split; [lia|done].
Qed.

Lemma denotes_keeps values m m' ts : keeps values m m' → Forall2 (denotes m) values ts → Forall2 (denotes m') values ts.
Proof.
  intros Hk Hd. apply Forall2_same_length_lookup_2; [by eapply Forall2_length|]. intros i v t Hv Ht.
  apply Hk; [by eapply list_elem_of_lookup_2|]. by eapply Forall2_lookup_lr.
Qed.

Section refinement.
  Context `{Allocator, AlignTo} `{!AllocatorLaws, !AlignToLaws}.

Lemma push_agrees n values h ts t c (m : mem Z) :
  state_rel n values h ts → yields_if c m h (creates values h (n + 1) t) → agrees (n + 2) (push values m h) (given c (t :: ts, Nothing)).
Proof using Type.
  intros (Hinv & Hn & Hd) Hm. unfold agrees, push, mbind, mem_bind, yields_if in *. destruct (m h) as [v h'|f].
  - cbn. destruct Hm as (-> & Hinv' & Hk & Hv). exists (t :: ts). split; [done|]. split; [apply (heap_inv_mono _ h' (n + 1)); [done|lia]|].
    split; [lia|]. constructor; [done|]. by eapply denotes_keeps.
  - destruct Hm as [?|[-> ->]]; [by left|by right].
Qed.

Lemma ask_agrees {A} n values h ts c (m : mem A) f a :
  state_rel n values h ts → yields_if c m h (λ a' h', a' = a ∧ refines values n h h') →
  agrees (n + 2) (ask values f m h) (given c (ts, f a)).
Proof using Type.
  intros (Hinv & Hn & Hd) Hm. unfold agrees, ask, mbind, mem_bind, yields_if in *. destruct (m h) as [a' h'|e].
  - cbn. destruct Hm as (-> & -> & Hinv' & Hk). exists ts. split; [done|]. split; [apply (heap_inv_mono _ h' n); [done|lia]|].
    split; [lia|]. by eapply denotes_keeps.
  - destruct Hm as [?|[-> ->]]; [by left|by right].
Qed.

Lemma at_agrees n values h ts i f g :
  state_rel n values h ts →
  (∀ v t, values !! i = Some v → ts !! i = Some t → denotes (memory h) v t → agrees (n + 2) (f v h) (g t)) →
  agrees (n + 2) (at_value values i f h) (at_text ts i g).
Proof using Type.
  intros (Hinv & Hn & Hd) Hf. unfold at_value, at_text. destruct (values !! i) as [v|] eqn:Hv.
  - destruct (Forall2_lookup_l _ _ _ _ _ Hd Hv) as (t & Ht & Hden). rewrite Ht. by apply Hf.
  - assert (ts !! i = None) as ->.
    { apply lookup_ge_None_2. rewrite <- (Forall2_length _ _ _ Hd). by apply lookup_ge_None_1. }
    exists ts. split; [done|]. split; [apply (heap_inv_mono _ h n); [done|lia]|]. split; [lia|done].
Qed.

Lemma refines_of_Go {A} (m : mem A) values n h a h' :
  m h = Go a h' → refines values n h h' → yields_if true m h (λ a' h', a' = a ∧ refines values n h h').
Proof using Type. intros Hm Hr. unfold yields_if. by rewrite Hm. Qed.

Lemma heap_inv_Permutation values values' h n : values ≡ₚ values' → heap_inv values h n → heap_inv values' h n.
Proof using Type.
  intros Hp [[Hb Hv] Hpool]. split; [|done]. split; [|by rewrite <- Hp].
  intros x b Hx. eapply (block_ok_frame values); [done| | | | |by apply Hb]; try done. unfold refs. f_equal. by apply handles_Permutation.
Qed.

Lemma drop_agrees n values h ts i v t :
  state_rel n values h ts → values !! i = Some v → ts !! i = Some t → denotes (memory h) v t →
  agrees (n + 2) ((_ ← value_drop v; mret (delete i values, Nothing)) h) (Some (delete i ts, Nothing)).
Proof using Type.
  intros (Hinv & Hn & Hd) Hv Ht Hden. apply (heap_inv_Permutation _ (v :: delete i values)) in Hinv; [|by apply delete_Permutation].
  destruct (value_drop_spec _ h n v t Hinv Hden) as (h' & Hrun & Hinv' & Hk). mstep Hrun. exists (delete i ts). split; [done|].
  split; [apply (heap_inv_mono _ h' n); [done|lia]|]. split; [lia|]. eapply denotes_keeps; [done|]. by apply Forall2_delete.
Qed.

Lemma delete_list_insert {A} (l : list A) i x : delete i (<[i := x]> l) = delete i l.
Proof using Type. revert i. induction l as [|y l IH]; intros [|i]; cbn; [done..|]. f_equal. apply IH. Qed.

Lemma concat_agrees n values h ts i v t w u :
  state_rel n values h ts → values !! i = Some v → ts !! i = Some t → denotes (memory h) v t → denotes (memory h) w u →
  agrees (n + 2) ((r ← str_concat_in_place v w; mret (<[i := r]> values, Nothing)) h) (Some (<[i := t ++ u]> ts, Nothing)).
Proof using Type*.
  intros (Hinv & Hn & Hd) Hv Ht Hdv Hdw. apply (heap_inv_Permutation _ (v :: delete i values)) in Hinv; [|by apply delete_Permutation].
  pose proof (str_concat_in_place_yields (delete i values) h n v w t u Hinv Hn Hdv Hdw) as Hrun.
  unfold yields in Hrun. unfold agrees, mbind, mem_bind. destruct (str_concat_in_place v w h) as [r h'|f]; [|by left].
  destruct Hrun as (Hinv' & Hk & Hr). cbn. exists (<[i := t ++ u]> ts). split; [done|].
  assert (Hi : (i < length values)%nat) by by eapply lookup_lt_Some.
  assert (Hperm : <[i := r]> values ≡ₚ r :: delete i values).
  { rewrite (delete_Permutation (<[i := r]> values) i r) by by apply list_lookup_insert_eq.
    by rewrite delete_list_insert. }
  split; [by apply (heap_inv_Permutation (r :: delete i values)); [symmetry|]|]. split; [lia|].
  apply Forall2_same_length_lookup_2; [rewrite !length_insert; by eapply Forall2_length|].
  intros k x s Hx Hs. destruct (decide (k = i)) as [->|Hne].
  - rewrite list_lookup_insert_eq in Hx by done. injection Hx as <-.
    rewrite list_lookup_insert_eq in Hs by (rewrite <- (Forall2_length _ _ _ Hd); done). by injection Hs as <-.
  - rewrite list_lookup_insert_ne in Hx by done. rewrite list_lookup_insert_ne in Hs by done. apply Hk; [|by eapply Forall2_lookup_lr].
    apply list_elem_of_lookup. destruct (decide (k < i)%nat).
    + exists k. by rewrite list_lookup_delete_lt.
    + exists (k - 1)%nat. rewrite list_lookup_delete_ge by lia. by replace (S (k - 1)) with k by lia.
Qed.
Lemma clone_agrees n values h ts v t :
  state_rel n values h ts → denotes (memory h) v t → agrees (n + 2) (push values (value_clone v) h) (Some (t :: ts, Nothing)).
Proof using Type*.
  intros Hs Hd. apply (push_agrees _ _ _ _ _ true); [done|]. destruct Hs as (Hinv & Hn & _).
  destruct (value_clone_spec values h n v t Hinv Hd) as (h' & Hrun & Hinv' & Hk & Hv). unfold yields_if. by rewrite Hrun.
Qed.

Lemma slice_agrees n values h ts v t i j :
  state_rel n values h ts → denotes (memory h) v t →
  agrees (n + 2) (push values (string_slice v i j) h) (given (valid_range t i j) (subrange i j t :: ts, Nothing)).
Proof using Type*.
  intros Hs Hd. apply push_agrees; [done|]. destruct Hs as (Hinv & Hn & _).
  pose proof (string_slice_yields values h n v t i j Hinv Hn Hd) as Hrun. destruct (valid_range t i j).
  - by apply yields_if_true.
  - by apply yields_if_panic.
Qed.

Lemma offset_agrees n values h ts v t i :
  state_rel n values h ts → denotes (memory h) v t →
  agrees (n + 2) (ask values Offset (str_codepoint_byte_offset v i) h) (given (i <=? starts t)%nat (ts, Offset (offset_of t i))).
Proof using Type*.
  intros Hs Hd. apply (ask_agrees _ _ _ _ (i <=? starts t)%nat _ Offset); [done|]. destruct Hs as (Hinv & Hn & _).
  pose proof (str_codepoint_byte_offset_spec values h n v t i Hinv Hd) as Hrun. unfold offset_outcome in Hrun.
  destruct (i <=? starts t)%nat; [destruct Hrun as (h' & Hrun & Hr); by eapply refines_of_Go|by apply yields_if_panic].
Qed.

Lemma range_agrees n values h ts v t i :
  state_rel n values h ts → denotes (memory h) v t →
  agrees (n + 2) (ask values Range (str_codepoint_byte_range v i) h)
    (given (i <? starts t)%nat (ts, Range (offset_of t i, offset_of t (S i)))).
Proof using Type*.
  intros Hs Hd. apply (ask_agrees _ _ _ _ (i <? starts t)%nat _ Range); [done|]. destruct Hs as (Hinv & Hn & _).
  pose proof (str_codepoint_byte_range_spec values h n v t i Hinv Hd) as Hrun.
  destruct (i <? starts t)%nat; [destruct Hrun as (h' & Hrun & Hr); by eapply refines_of_Go|by apply yields_if_panic].
Qed.

Lemma run_op_agrees n values h ts o :
  state_rel n values h ts → op_ok o → agrees (n + 2) (run_op o values h) (text_op o ts).
Proof using Type*.
  intros Hs Ho. pose proof Hs as (Hinv & Hn & _).
  destruct o as [t|t flag|i|i|i a b|i j|i k|i a b|i|i|i|i k|i k|i]; cbn [run_op text_op op_ok] in *.
  1: { apply (push_agrees _ _ _ _ _ true); [done|]. apply yields_if_true. by apply value_string_yields. }
  1: { destruct Ho as [Ht Hf]. apply (push_agrees _ _ _ _ _ true); [done|]. apply yields_if_true. by apply value_string_from_fill_yields. }
  all: apply at_agrees; [done|]; intros v t Hv Ht Hd.
  - by apply clone_agrees.
  - by eapply drop_agrees.
  - by apply slice_agrees.
  - apply at_agrees; [done|]. intros w u Hw Hu Hdw. by eapply concat_agrees.
  - apply push_agrees; [done|]. by apply str_index_yields.
  - apply push_agrees; [done|]. by apply str_subscript_slice_yields.
  - apply (ask_agrees _ _ _ _ true); [done|]. destruct (str_is_ascii_spec values h n v t Hinv Hd) as (h' & Hrun & Hr & _).
    by eapply refines_of_Go.
  - apply (ask_agrees _ _ _ _ true); [done|]. apply yields_if_true. by apply str_codepoint_len_yields.
  - apply (ask_agrees _ _ _ _ true); [done|]. apply yields_if_true. by apply str_codepoint_len_for_index_yields.
  - by apply offset_agrees.
  - by apply range_agrees.
  - apply (ask_agrees _ _ _ _ true); [done|]. eapply refines_of_Go; [by eapply str_as_bytes_eq|by apply refines_refl].
Qed.

Lemma run_ops_agrees n values h ts ops :
  state_rel n values h ts → Forall op_ok ops →
  agrees (n + 2 * Z.of_nat (length ops)) (run_ops ops values h) (text_ops ops ts).
Proof using Type*.
  intros Hs Ho. revert n values h ts Hs. induction Ho as [|o ops Ho _ IH]; intros n values h ts Hs; cbn [run_ops text_ops length].
  { exists ts. by replace (n + 2 * Z.of_nat 0) with n by lia. }
  pose proof (run_op_agrees n values h ts o Hs Ho) as Hrun. unfold mbind, mem_bind, option_bind.
  destruct (run_op o values h) as [[values1 a] h1|f].
  - destruct Hrun as (ts1 & -> & Hs1). specialize (IH _ _ _ _ Hs1).
    replace (n + 2 * Z.of_nat (S (length ops))) with (n + 2 + 2 * Z.of_nat (length ops)) by lia. unfold agrees in *.
    destruct (run_ops ops values1 h1) as [[values2 answers] h2|f].
    + destruct IH as (ts2 & -> & Hs2). by exists ts2.
    + destruct IH as [Hf|[-> ->]]; [by left|by right].
  - destruct Hrun as [Hf|[-> ->]]; [by left|by right].
Qed.
End refinement.

(** The theorems about words and strings, with an allocator and a split into
    words to evaluate on. *)


(** ** An instance *)

(** Blocks are given out above those there are, in the lower half of the
    addresses a value can hold. *)
Definition next_address (m : gmap Z block) : Z := 8 * (1 + foldr (λ kb acc, Z.max (kb.1 `div` 8) acc) 0 (map_to_list m)).

Definition bump (m : gmap Z block) : option Z := let p := next_address m in if p <? 2 ^ 47 then Some p else None.

#[export] Instance bump_allocator : Allocator := { alloc m _ := bump m; realloc m _ _ := bump m }.

Lemma next_address_above m a b : m !! a = Some b → a < next_address m.
Proof.
  intros Ha%elem_of_map_to_list. unfold next_address.
  enough (a `div` 8 ≤ foldr (λ kb acc, Z.max (kb.1 `div` 8) acc) 0 (map_to_list m)) by (Z.div_mod_to_equations; lia).
  induction (map_to_list m) as [|[k x] l IH]; [by apply elem_of_nil in Ha|].
  apply elem_of_cons in Ha as [[= <- <-]|Ha]; cbn; [lia|]. specialize (IH Ha). lia.
Qed.

Lemma bump_fresh m p : bump m = Some p → m !! p = None ∧ good_address p.
Proof.
  unfold bump. intros Hp. destruct (Z.ltb_spec (next_address m) (2 ^ 47)); [|done]. injection Hp as <-. split.
  - destruct (m !! next_address m) eqn:Hm; [|done]. apply next_address_above in Hm. lia.
  - assert (0 ≤ foldr (λ kb acc, Z.max (kb.1 `div` 8) acc) 0 (map_to_list m)).
    { induction (map_to_list m) as [|[k x] l IH]; cbn; lia. }
    unfold next_address, good_address, two64 in *. split; [lia|]. rewrite Z.mul_comm. by apply Z.mod_mul.
Qed.

#[export] Instance bump_laws : AllocatorLaws.
Proof.
  split; [intros m size p|intros m old size p]; intros Hp%bump_fresh; [done|]. destruct Hp as [? ?]. split; [by right|done].
Qed.

(** Words from the start of the bytes on, wherever they are. *)
Definition whole_words (bytes : list Z) : nat := (length bytes / 8)%nat.

Fixpoint words (n : nat) (bytes : list Z) : list (list Z) :=
  match n with O => [] | S n => take 8 bytes :: words n (drop 8 bytes) end.

#[export] Instance align_at_start : AlignTo :=
  { align_to bytes := ([], words (whole_words bytes) bytes, drop (whole_words bytes * 8) bytes) }.

Lemma words_split n bytes :
  (n * 8 <= length bytes)%nat → bytes = mjoin (words n bytes) ++ drop (n * 8) bytes ∧ Forall (λ w, length w = 8%nat) (words n bytes).
Proof.
  revert bytes. induction n as [|n IH]; intros bytes Hn; [done|].
  destruct (IH (drop 8 bytes)) as [Hs Hw]; [rewrite length_drop; lia|]. split.
  - cbn [words]. change (mjoin (?w :: ?ws)) with (w ++ mjoin ws). rewrite <- app_assoc.
    rewrite drop_drop in Hs. replace (S n * 8)%nat with (8 + n * 8)%nat by lia. by rewrite <- Hs, take_drop.
  - constructor; [rewrite length_take; lia|done].
Qed.

#[export] Instance align_at_start_laws : AlignToLaws.
Proof.
  assert (Hle : ∀ bytes, (whole_words bytes * 8 <= length bytes)%nat).
  { intros bytes. unfold whole_words. pose proof (Nat.Div0.mul_div_le (length bytes) 8). lia. }
  split; intros bytes head body tail [= <- <- <-]; by apply words_split.
Qed.

(** ** The empty memory *)

Definition no_memory : Heap := {| memory := ∅; pool_head := 0; pool_len := 0 |}.

Lemma no_memory_ok : state_rel 0 [] no_memory [].
Proof.
  split; [|by split]. split; [split; [|constructor]|].
  - intros a b Ha. change (memory no_memory) with (∅ : gmap Z block) in Ha. by rewrite lookup_empty in Ha.
  - exists []. split; [done|]. split; [by apply NoDup_nil|]. split; [done|]. split; [done|]. intros a next Ha. change (memory no_memory) with (∅ : gmap Z block) in Ha. by rewrite lookup_empty in Ha.
Qed.

(** Without values, and with counts too small to be saturated, only free slots
    are left. *)
Lemma no_values_no_blocks m n :
  inv [] m n → n < STR_RC_MAX → ∀ a b, m !! a = Some b → ∃ next, b = FreeSlot next.
Proof.
  intros Hinv Hn.
  assert (Hcount : ∀ a rc, rc_ok n rc (refs [] m a) → ∃ x s, m !! x = Some s ∧ slice_of a s = true).
  { intros a rc (Hrc & _ & Heq). apply count_pos_inv. change (refs [] m a) with (count (slice_of a) m) in Heq. lia. }
  assert (Hslice : ∀ a rc len ref off st, m !! a ≠ Some (Slice rc len ref off st)).
  { intros a rc len ref off st Ha. destruct (inv_blocks _ _ _ Hinv a _ Ha) as (_ & _ & _ & _ & _ & _ & flag & k & _ & _ & Hrc & _).
    apply Hcount in Hrc as (x & s & Hx & Hs). destruct s; try done. cbn in Hs. apply Z.eqb_eq in Hs.
    destruct (inv_blocks _ _ _ Hinv x _ Hx) as (_ & _ & _ & bytes & Hroot & _). rewrite Hs in Hroot. unfold root_bytes in Hroot.
    by rewrite Ha in Hroot. }
  assert (Howned : ∀ a rc len st bytes, m !! a ≠ Some (Owned rc len st bytes)).
  { intros a rc len st bytes Ha. destruct (inv_blocks _ _ _ Hinv a _ Ha) as (_ & flag & k & _ & _ & Hrc & _).
    apply Hcount in Hrc as (x & s & Hx & Hs). destruct s; try done. by eapply Hslice. }
  intros a b Ha. destruct b as [rc len st bytes|rc len ref off st|k|next|size]; [by destruct (Howned _ _ _ _ _ Ha)| | |by eexists|].
  - by destruct (Hslice _ _ _ _ _ _ Ha).
  - destruct (inv_blocks _ _ _ Hinv a _ Ha) as [_ Hone]. destruct (count_pos_inv (owner_of a) m) as (x & s & Hx & Hs); [lia|].
    destruct s; unfold owner_of in Hs; cbn in Hs; try done; exfalso; [by eapply Howned|by eapply Hslice].
  - by destruct (inv_blocks _ _ _ Hinv a _ Ha).
Qed.

Lemma pool_only_size m head len :
  pool_ok m head len → (∀ a b, m !! a = Some b → ∃ next, b = FreeSlot next) → Z.of_nat (size m) ≤ POOL_B_CAP.
Proof.
  intros (slots & _ & Hdup & -> & Hcap & Hin) Hfree. etrans; [|exact Hcap]. unfold vlen. apply Nat2Z.inj_le.
  rewrite <- size_dom. transitivity (size (list_to_set slots : gset Z)); [|by rewrite size_list_to_set].
  apply subseteq_size. intros a [b Ha]%elem_of_dom. destruct (Hfree a b Ha) as [next ->]. apply elem_of_list_to_set. by eapply Hin.
Qed.

(** A text of six code points and eight bytes, and a run that makes, cuts,
    extends, searches and drops strings. *)
Definition sample_points : list (list Z) := [[110]; [97]; [0xC3; 0xAF]; [118]; [0xC3; 0xA9]; [33]].
Definition sample_text : list Z := mjoin sample_points.
Definition sample_ops : list str_op :=
  [OString (sample_text ++ sample_text); OClone 0; OSlice 1 1 9; OClone 0; OConcat 2 1; OLenForIndex 2; OLenForIndex 2;
   OByteOffset 2 11; OByteRange 2 2; OIndex 2 4; OSubstring 3 1 8; ODrop 0; ODrop 3; OIsAscii 1; OBytes 0; OConcat 1 0;
   ODrop 0; ODrop 0; ODrop 0; OFill sample_text (Some false); OLen 0; ODrop 0; ODrop 0].

Lemma sample_points_ok : Forall codepoint sample_points.
Proof. repeat apply Forall_cons_2; [..|by apply Forall_nil_2]; eexists _, _; (split; [done|]); repeat constructor. Qed.

Lemma sample_text_ok : text_ok sample_text ∧ text_ok (sample_text ++ sample_text).
Proof.
  assert (Ht : text_ok sample_text).
  { split; [repeat constructor; unfold byte_range; lia|]. exists sample_points. split; [apply sample_points_ok|done]. }
  split; [done|by apply text_ok_app].
Qed.

Lemma sample_ops_ok : Forall op_ok sample_ops.
Proof.
  destruct sample_text_ok. unfold sample_ops. repeat apply Forall_cons_2; try done. split; [done|]. by intros ascii [= <-].
Qed.

Definition answers_of {A} (r : step_result (list Z * A)) : option (list Z * A) := match r with Go a _ => Some a | Fault _ => None end.

Example sample_run : snd <$> answers_of (run_ops sample_ops [] no_memory) = snd <$> text_ops sample_ops [].
Proof. by vm_compute. Qed.

(** ** Theorems *)

(** C20: A value is one word, and the word tells what it was made from: floats
    as their own bits, the singletons, booleans, integers of 48 bits, strings
    of at most five bytes, and addresses of the heap kinds, each apart from
    the others. Words are made exactly when the payload fits: for integers of
    48 bits, for addresses that are multiples of 8 below 2^48 and not null, for
    texts of at most five bytes. *)
Theorem words_round_trip k :
  kind_wf k →
  (∀ bits, construct k = Some bits → kind bits = Ok k) ∧
  (is_Some (construct k) ↔ match k with
    | KInt n => - 2 ^ 47 ≤ n < 2 ^ 47
    | KStrInline bytes => (length bytes <= STR_INLINE_MAX)%nat
    | KStr address | KTuple address | KList address | KOpaque address => str_address address
    | _ => True
    end).
Proof.
  intros Hwf. split; [by intros bits; apply construct_kind|].
  assert (Hptr : ∀ tag address, 0 ≤ address → is_Some (encode_nanbox_heap_pointer tag address) ↔ str_address address).
  { intros tag address Ha. unfold encode_nanbox_heap_pointer, try_nanbox_heap_pointer_payload, str_address, payload,
      NANBOX_HEAP_POINTER_ALIGNMENT. change PAYLOAD_MASK with (2 ^ 48 - 1).
    destruct (Z.eqb_spec address 0), (Z.leb_spec address (2 ^ 48 - 1)), (Z.eqb_spec (address mod 8) 0); cbn.
    all: split; [intros [? ?]; try done; lia|intros ((? & ?) & ? & ?); try lia; try by eexists]. }
  destruct k as [| |f| |b|n|bytes|a|a|a|a]; cbn [construct kind_wf] in *; try by (split; [done|by eexists]).
  - unfold value_int. change (Z.shiftl 1 47) with (2 ^ 47). destruct (Z.leb_spec (- 2 ^ 47) n), (Z.leb_spec n (2 ^ 47 - 1)); cbn [andb].
    all: split; [intros [? ?]; try done; lia|intros; try lia; by eexists].
  - unfold make_inline_str, rassert. destruct (Nat.leb_spec (length bytes) STR_INLINE_MAX); cbn.
    all: split; [intros [? ?]; try done|intros; try lia; by eexists].
  - by apply Hptr.
  - by apply Hptr.
  - by apply Hptr.
  - by apply Hptr.
Qed.

Lemma words_round_trip_witness :
  ∃ bits, construct (KInt (- 5)) = Some bits ∧ kind bits = Ok (KInt (- 5)) ∧ construct (KStr 12) = None ∧
    ¬ str_address 12.
Proof.
  destruct (words_round_trip (KInt (- 5)) I) as [Hk Hs].
  destruct (proj2 Hs) as [bits Hb]; [lia|]. exists bits. split; [done|]. split; [by apply Hk|]. split; [done|].
  intros Ha. destruct (words_round_trip (KStr 12) ltac:(cbn; lia)) as [_ [_ H2]]. by destruct (H2 Ha).
Defined.

(** The identities of NaNs repeat only after 2^47 of them. *)
Theorem nan_identities_distinct counter n :
  counter_ok counter → Z.of_nat n ≤ 2 ^ 47 →
  NoDup (minted_nans counter n) ∧ Forall float_word (minted_nans counter n).
Proof.
  intros Hc Hn. split; [by apply minted_nans_distinct|]. clear Hn. revert counter Hc.
  induction n as [|n IH]; intros counter Hc; cbn [minted_nans]; [constructor|].
  destruct (value_float counter CANONICAL_NAN) as [bits counter'] eqn:Hv.
  destruct (value_float_word counter CANONICAL_NAN bits counter') as (Hf & _ & Hc' & _); [by vm_compute|done|done|].
  constructor; [done|by apply IH].
Qed.

(** C36: In a string of whole code points, counting by words, scanning from
    either end and searching through the sparse index agree with the sequence
    of code points: there are as many as were counted, each offset is where
    the code point starts, and the index is built without a panic for every
    string shorter than 2^32 bytes. *)
Theorem codepoint_searches_agree `{AlignTo, !AlignToLaws} cs bytes :
  encodes cs bytes → Forall byte_range bytes → Z.of_nat (length bytes) < 2 ^ 32 →
  utf8_codepoint_count bytes = Ok (Z.of_nat (length cs)) ∧
  (∀ index, (index <= length cs)%nat → uncached_utf8_byte_offset bytes index (length cs) = Ok (position cs index)) ∧
  ∃ cache, cache_build bytes = Ok cache ∧ codepoint_len cache = length cs ∧
    ∀ index, (index <= length cs)%nat → cache_byte_offset cache bytes index = Ok (position cs index).
Proof.
  intros Hcs Hb Hlen. pose proof Hcs as [Hall ->]. pose proof (starts_codepoints cs Hall) as Hst. split_and!.
  - rewrite codepoint_count_eq by (done || unfold two64; lia). by rewrite <- Hst.
  - intros index Hi. rewrite <- Hst, uncached_offset_eq, offset_of_position by (done || by rewrite Hst). done.
  - destruct (cache_build_spec cs (mjoin cs) Hcs Hlen) as (cache & Hbuild & Hl & Ho). exists cache. split; [done|].
    split; [by rewrite Hl|]. intros index Hi. by rewrite Ho, offset_of_position by (done || by rewrite Hst).
Qed.

Lemma codepoint_searches_agree_witness :
  utf8_codepoint_count sample_text = Ok 6 ∧ uncached_utf8_byte_offset sample_text 4 6 = Ok 5%nat ∧
  position sample_points 4 = 5%nat.
Proof.
  destruct (codepoint_searches_agree sample_points sample_text) as (Hc & Ho & _).
  - split; [apply sample_points_ok|done].
  - apply sample_text_ok.
  - done.
  - split; [exact Hc|]. split; [apply Ho; cbn; lia|done].
Defined.

(** C14: Every run of operations on strings, from a memory in order, agrees
    with the run on byte lists: it never does what is undefined (a read of
    freed memory, a write out of bounds, a wrong free), gives the same
    answers, leaves values that denote the same texts, and panics exactly
    where an index is out of range or a cut is not at a code point. The other
    ways to end are an allocation that fails, an address beyond 48 bits, and
    a text longer than a header can say. *)
Theorem string_runs_refine `{Allocator, AlignTo, !AllocatorLaws, !AlignToLaws} n values h ts ops :
  state_rel n values h ts → Forall op_ok ops →
  match run_ops ops values h with
  | Go (values, answers) h => ∃ ts', text_ops ops ts = Some (ts', answers) ∧ state_rel (n + 2 * Z.of_nat (length ops)) values h ts'
  | Fault Panics => text_ops ops ts = None
  | Fault f => benign f
  end.
Proof.
  intros Hs Ho. pose proof (run_ops_agrees n values h ts ops Hs Ho) as Hrun. unfold agrees in Hrun.
  destruct (run_ops ops values h) as [[values' answers] h'|f]; [exact Hrun|]. destruct Hrun as [Hf|[Hn ->]]; [|exact Hn].
  by destruct f.
Qed.

Lemma string_runs_refine_witness :
  ∃ answers h, run_ops sample_ops [] no_memory = Go ([], answers) h ∧ text_ops sample_ops [] = Some ([], answers).
Proof.
  pose proof (string_runs_refine 0 [] no_memory [] sample_ops no_memory_ok sample_ops_ok) as Hrun.
  destruct (run_ops sample_ops [] no_memory) as [[values answers] h|f] eqn:Hr.
  - destruct Hrun as (ts & Ht & _). exists answers, h.
    assert (Hv : fst <$> answers_of (run_ops sample_ops [] no_memory) = Some []) by by vm_compute.
    assert (Hts : fst <$> text_ops sample_ops [] = Some []) by by vm_compute. rewrite Hr in Hv. rewrite Ht in Hts. cbn in Hv, Hts.
    injection Hv as ->. injection Hts as ->. split; [reflexivity|exact Ht].
  - exfalso. assert (Hv : fst <$> answers_of (run_ops sample_ops [] no_memory) = Some []) by by vm_compute. by rewrite Hr in Hv.
Defined.

(** C32: Nothing leaks: after a run from the empty memory whose values were
    all dropped, and too short to saturate a reference count, only the free
    slots of the pool are left, at most 64 of them. *)
Theorem string_memory_is_freed `{Allocator, AlignTo, !AllocatorLaws, !AlignToLaws} ops answers h :
  Forall op_ok ops → 2 * Z.of_nat (length ops) < STR_RC_MAX → run_ops ops [] no_memory = Go ([], answers) h →
  (∀ a b, memory h !! a = Some b → ∃ next, b = FreeSlot next) ∧ Z.of_nat (size (memory h)) ≤ POOL_B_CAP.
Proof.
  intros Ho Hn Hrun. pose proof (run_ops_agrees 0 [] no_memory [] ops no_memory_ok Ho) as Hag. rewrite Hrun in Hag.
  destruct Hag as (ts & _ & [Hinv Hpool] & _). assert (Hfree := no_values_no_blocks _ _ Hinv Hn).
  split; [exact Hfree|]. by eapply pool_only_size.
Qed.

Lemma string_memory_is_freed_witness :
  ∃ answers h, run_ops sample_ops [] no_memory = Go ([], answers) h ∧ (∀ a b, memory h !! a = Some b → ∃ next, b = FreeSlot next).
Proof.
  destruct (run_ops sample_ops [] no_memory) as [[values answers] h|f] eqn:Hr.
  - assert (Hv : fst <$> answers_of (run_ops sample_ops [] no_memory) = Some []) by by vm_compute. rewrite Hr in Hv. injection Hv as ->.
    exists answers, h. split; [reflexivity|]. apply (string_memory_is_freed sample_ops answers h sample_ops_ok); [by vm_compute|exact Hr].
  - exfalso. assert (Hv : fst <$> answers_of (run_ops sample_ops [] no_memory) = Some []) by by vm_compute. by rewrite Hr in Hv.
Defined.

(** Texts are kept inline exactly when they are short, so that equal short
    texts are equal words. *)
Theorem short_texts_are_inline values h n v w t :
  heap_inv values h n → denotes (memory h) v t → denotes (memory h) w t →
  str_is_inline_bits v = (length t <=? STR_INLINE_MAX)%nat ∧ ((length t <= STR_INLINE_MAX)%nat → v = w).
Proof.
  intros [Hinv _] Hv Hw.
  assert (Hden : ∀ v, denotes (memory h) v t →
    (length t <= STR_INLINE_MAX)%nat ∧ v = TAG_STR * 2 ^ 48 + inline_payload t ∧ str_is_inline_bits v = true ∨
    (STR_INLINE_MAX < length t)%nat ∧ str_is_inline_bits v = false).
  { clear v w Hv Hw. intros v [(Ht & Hlen & ->)|(a & b & -> & Haddr & Ha & Ht)].
    - left. by destruct (inline_facts t Ht Hlen) as (_ & _ & ? & _).
    - right. destruct (str_bits_facts a Haddr) as (_ & _ & ? & _). split; [|done].
      assert (∃ state, state_word b = Some state) as [state Hs] by (destruct b; try done; eauto).
      destruct (inv_header _ _ _ _ _ _ Hinv Ha Hs) as (_ & _ & t' & _ & _ & Ht' & _ & _ & _ & _ & Hl & _).
      rewrite Ht in Ht'. injection Ht' as <-. destruct Hl as [Hl _]. unfold vlen in Hl. lia. }
  destruct (Hden v Hv) as [(Hl & -> & ->)|[Hl ->]], (Hden w Hw) as [(Hl' & -> & _)|[Hl' _]]; try lia.
  - by rewrite (proj2 (Nat.leb_le _ _)).
  - rewrite (proj2 (Nat.leb_gt _ _)) by done. split; [done|lia].
Qed.
