(* ===== verification/ObjectIdentity.v ===== *)
(** Object identity (crates/pyrust-core/src/core/object_identity.rs, and
    [object_identity], [is_identical_to], [object_id] of value_access.rs): the
    typed keys that [is] compares and that [id()] maps to integers.

    The theorems about object identity. *)

From stdpp Require Import gmap.
From S2P Require Import Outcome Prelude Keys IntBytes NanBox.

(** ** Keys *)

Inductive ObjectIdentity : Type :=
  | Allocation (address : Z)
  | Counter (id : Z)
  | RawValue (bits : Z)
  | Float (bits : Z)
  | Complex (real imag : Z)
  | Builtin (type_id payload : Z).

#[export] Instance ObjectIdentity_eq_dec : EqDecision ObjectIdentity.
Proof. solve_decision. Defined.

#[export] Instance ObjectIdentity_countable : Countable ObjectIdentity.
Proof.
  refine (inj_countable'
    (λ k, match k with
      | Allocation a => (0, a, 0) | Counter i => (1, i, 0) | RawValue b => (2, b, 0) | Float b => (3, b, 0)
      | Complex re im => (4, re, im) | Builtin t p => (5, t, p)
      end : Z * Z * Z)
    (λ '(tag, x, y),
      if tag =? 0 then Allocation x else if tag =? 1 then Counter x else if tag =? 2 then RawValue x
      else if tag =? 3 then Float x else if tag =? 4 then Complex x y else Builtin x y) _).
  by intros [].
Defined.

(** ** Counters *)

(** The next identity, and the counter after it: [None] is exhausted. *)
Definition take_next_obj_id (counter : option Z) : res (Z * option Z) :=
  match counter with
  | Some id => Ok (id, if id + 1 <=? usize_max then Some (id + 1) else None)
  | None => Panic
  end.

Definition MAX_INLINE_OBJECT_ID : Z := Z.shiftl 1 47 - 1.
Definition FIRST_SYNTHETIC_OBJECT_ID : Z := 1.

(** ** The side table *)

Record BoundedObjectIds : Type := {
  ids : gmap ObjectIdentity Z;
  next_id : option Z;
}.

Definition ids_new : BoundedObjectIds := {| ids := ∅; next_id := Some FIRST_SYNTHETIC_OBJECT_ID |}.

(** [id.checked_add(2).filter(|next| *next <= MAX_INLINE_OBJECT_ID)] *)
Definition following_id (id : Z) : option Z :=
  if id + 2 <=? usize_max then if id + 2 <=? MAX_INLINE_OBJECT_ID then Some (id + 2) else None else None.

Definition id_for (self : BoundedObjectIds) (identity : ObjectIdentity) : res (Z * BoundedObjectIds) :=
  match ids self !! identity with
  | Some id => Ok (id, self)
  | None =>
      match next_id self with
      | Some id => Ok (id, {| ids := <[identity := id]> (ids self); next_id := following_id id |})
      | None => Panic
      end
  end.

Definition encode (self : ObjectIdentity) (registry : BoundedObjectIds) : res (Z * BoundedObjectIds) :=
  match self with
  | Allocation address =>
      _ ← rassert (negb (address =? 0) && (address mod 2 =? 0));
      if address <=? MAX_INLINE_OBJECT_ID then Ok (address, registry) else id_for registry self
  | _ => id_for registry self
  end.

(** ** Identities of values *)

(** What an opaque value holds of its identity: the address of the [Rc] it
    shares, its own counter, its components, or what its built-in type says. *)
Inductive Opaque : Type :=
  | OPyBigInt (rc : Z)
  | ODict (rc : Z)
  | OSet (obj_id : Z)
  | ORange
  | OBigRange (rc : Z)
  | OUserFunction (rc : Z)
  | OPyClass (rc : Z)
  | OPyInstance (rc : Z)
  | OPyModule (rc : Z)
  | OBoundMethod (obj_id : Z)
  | OClassBoundMethod (obj_id : Z)
  | OSuperProxy (obj_id : Z)
  | OSuperProxyClass (obj_id : Z)
  | OSuperProxyUnbound (obj_id : Z)
  | OGenerator (rc : Z)
  | OBytes (rc : Z)
  | OComplex (re im : Z)
  | OSmallTuple2 (obj_id : Z)
  | OSmallTuple3 (obj_id : Z)
  | OBuiltinObject (type_id : Z) (identity_payload : option Z) (state : Z).

(** What the addresses in values lead to. *)
Record Objects : Type := {
  tuple_obj_id : Z → Z;
  list_obj_id : Z → Z;
  opaque_at : Z → Opaque;
}.

Definition allocation_from_ptr (address : Z) : res ObjectIdentity :=
  _ ← rassert (negb (address =? 0)); Ok (Allocation address).

Definition allocation_from_nanbox (address : Z) : res ObjectIdentity :=
  _ ← rassert (negb (address =? 0) && (address mod 2 =? 0)); Ok (Allocation address).

Definition opaque_identity (slot : Z) (o : Opaque) : res ObjectIdentity :=
  match o with
  | OPyBigInt rc | ODict rc | OBigRange rc | OUserFunction rc | OPyClass rc | OPyInstance rc | OPyModule rc
  | OGenerator rc | OBytes rc => allocation_from_ptr rc
  | OSet obj_id => Ok (Counter obj_id)
  | ORange => allocation_from_ptr slot
  | OBoundMethod obj_id | OClassBoundMethod obj_id | OSuperProxy obj_id | OSuperProxyClass obj_id
  | OSuperProxyUnbound obj_id | OSmallTuple2 obj_id | OSmallTuple3 obj_id => Ok (Counter obj_id)
  | OComplex re im => Ok (Complex re im)
  | OBuiltinObject type_id (Some payload) _ => Ok (Builtin type_id payload)
  | OBuiltinObject _ None state => allocation_from_ptr state
  end.

Definition object_identity (objects : Objects) (bits : Z) : res ObjectIdentity :=
  _ ← rassert (negb (is_unset bits));
  if is_float bits then Ok (Float bits)
  else if is_not_implemented bits || is_ellipsis bits then Ok (RawValue bits)
  else
    let tag := top16 bits in
    let address := Z.land bits PAYLOAD_MASK in
    if (tag =? TAG_NONE) || (tag =? TAG_BOOL) || (tag =? TAG_INT) then Ok (RawValue bits)
    else if tag =? TAG_STR then if str_is_inline_bits bits then Ok (RawValue bits) else allocation_from_nanbox address
    else if tag =? TAG_TUPLE then Ok (Counter (tuple_obj_id objects address))
    else if tag =? TAG_LIST then Ok (Counter (list_obj_id objects address))
    else if tag =? TAG_OPAQUE then opaque_identity address (opaque_at objects address)
    else Panic.

Definition is_identical_to (objects : Objects) (self other : Z) : res bool :=
  x ← object_identity objects self;
  y ← object_identity objects other;
  Ok (bool_decide (x = y)).

(** The word of [id(self)], when it is one. *)
Definition object_id (objects : Objects) (self : Z) (registry : BoundedObjectIds) : res (option Z * BoundedObjectIds) :=
  identity ← object_identity objects self;
  '(id, registry) ← encode identity registry;
  Ok (value_int (as_i64 id), registry).

(** * Theorems *)


(** ** Identities of well-formed values *)

(** Addresses are those of aligned, live allocations. *)
Definition allocation_ok (address : Z) : Prop := 0 < address < two64 ∧ address mod 2 = 0.

Definition key_ok (k : ObjectIdentity) : Prop := match k with Allocation address => allocation_ok address | _ => True end.

Definition opaque_ok (o : Opaque) : Prop :=
  match o with
  | OPyBigInt rc | ODict rc | OBigRange rc | OUserFunction rc | OPyClass rc | OPyInstance rc | OPyModule rc
  | OGenerator rc | OBytes rc | OBuiltinObject _ None rc => allocation_ok rc
  | _ => True
  end.

Definition objects_ok (objects : Objects) : Prop := ∀ address, opaque_ok (opaque_at objects address).

Definition word_ok (bits : Z) : Prop := ∃ k, kind_wf k ∧ construct k = Some bits.

(** The identity of a word is that of what it stands for. *)
Definition identity_of_kind (objects : Objects) (bits : Z) (k : Kind) : res ObjectIdentity :=
  match k with
  | KFloat _ => Ok (Float bits)
  | KStr address => allocation_from_nanbox address
  | KTuple address => Ok (Counter (tuple_obj_id objects address))
  | KList address => Ok (Counter (list_obj_id objects address))
  | KOpaque address => opaque_identity address (opaque_at objects address)
  | _ => Ok (RawValue bits)
  end.

Lemma object_identity_kind objects bits k : kind bits = Ok k → object_identity objects bits = identity_of_kind objects bits k.
Proof.
  unfold kind, object_identity, is_float, is_not_implemented, is_ellipsis. destruct (is_unset bits) eqn:Hu; [done|].
  unfold is_unset in Hu. rewrite Hu. cbn [negb rassert mbind res_bind orb]. rewrite orb_false_r.
  destruct (bits =? NOT_IMPLEMENTED_BITS); [by intros [= <-]|]. cbn [orb].
  destruct (bits =? ELLIPSIS_BITS); [by intros [= <-]|]. cbn [orb].
  destruct (top16 bits <=? TAG_FLOAT_MAX); [by intros [= <-]|]. cbn zeta.
  destruct (top16 bits =? TAG_NONE); [by intros [= <-]|]. destruct (top16 bits =? TAG_BOOL); [by intros [= <-]|].
  destruct (top16 bits =? TAG_INT); [by intros [= <-]|]. cbn [orb].
  destruct (top16 bits =? TAG_STR); [intros [= <-]; by destruct (str_is_inline_bits bits)|].
  destruct (top16 bits =? TAG_TUPLE); [by intros [= <-]|]. destruct (top16 bits =? TAG_LIST); [by intros [= <-]|].
  by destruct (top16 bits =? TAG_OPAQUE); [intros [= <-]|].
Qed.

Lemma allocation_ok_ptr address : allocation_ok address → allocation_from_ptr address = Ok (Allocation address).
Proof. intros [Ha _]. unfold allocation_from_ptr. by rewrite (proj2 (Z.eqb_neq address 0)) by lia. Qed.

Lemma opaque_identity_ok slot o : allocation_ok slot → opaque_ok o → ∃ k, opaque_identity slot o = Ok k ∧ key_ok k.
Proof.
  intros Hs Ho. destruct o as [| | | | | | | | | | | | | | | | | | |t [p|] rc]; cbn [opaque_identity opaque_ok] in *;
    rewrite ?allocation_ok_ptr by done; by eexists.
Qed.

Lemma pointer_ok address : payload address → address mod 8 = 0 → address ≠ 0 → allocation_ok address.
Proof. intros [Ha0 Ha] Hmod Hne. unfold allocation_ok, two64. Z.div_mod_to_equations. lia. Qed.

Lemma object_identity_ok objects bits :
  objects_ok objects → word_ok bits → ∃ k, object_identity objects bits = Ok k ∧ key_ok k.
Proof.
  intros Ho (k & Hwf & Hc). rewrite (object_identity_kind _ _ _ (construct_kind k bits Hwf Hc)).
  assert (Hptr : ∀ tag a, construct k = encode_nanbox_heap_pointer (tag * 2 ^ 48) a → 0 ≤ a → allocation_ok a).
  { intros tag a He Ha. rewrite He in Hc. apply encode_pointer_Some in Hc as (_ & Hp & Hm & Hne); [|done]. by apply pointer_ok. }
  destruct k as [| |f| |b|n|bytes|a|a|a|a]; cbn [identity_of_kind]; try by eexists.
  - pose proof (Hptr TAG_STR a eq_refl Hwf) as [Ha Hm]. unfold allocation_from_nanbox.
    rewrite (proj2 (Z.eqb_neq a 0)), (proj2 (Z.eqb_eq _ _) Hm) by lia. by eexists.
  - apply opaque_identity_ok; [|apply Ho]. by apply (Hptr TAG_OPAQUE).
Qed.

(** ** The side table *)

Definition id_count (registry : BoundedObjectIds) : Z := Z.of_nat (size (ids registry)).

(** Ids are given out in order, the odd ones below 2^47. *)
Record ids_ok (registry : BoundedObjectIds) : Prop := {
  ids_odd k id : ids registry !! k = Some id → ∃ c, id = 2 * c + 1 ∧ 0 ≤ c < id_count registry;
  ids_inj k k' id : ids registry !! k = Some id → ids registry !! k' = Some id → k = k';
  ids_next : next_id registry = if id_count registry <? 2 ^ 46 then Some (2 * id_count registry + 1) else None;
  ids_cap : id_count registry ≤ 2 ^ 46;
}.

Lemma ids_new_ok : ids_ok ids_new.
Proof.
  assert (Hnone : ∀ k, ids ids_new !! k = None) by (intros k; apply lookup_empty).
  split; [| |done|done]; intros *; by rewrite Hnone.
Qed.

Definition direct (k : ObjectIdentity) : bool :=
  match k with Allocation address => address <=? MAX_INLINE_OBJECT_ID | _ => false end.

(** The id of a key. *)
Definition has_id (registry : BoundedObjectIds) (k : ObjectIdentity) (id : Z) : Prop :=
  if direct k then k = Allocation id else ids registry !! k = Some id.

Lemma has_id_mono registry registry' k id : ids registry ⊆ ids registry' → has_id registry k id → has_id registry' k id.
Proof. intros Hsub. unfold has_id. destruct (direct k); [done|]. intros Hk. by eapply lookup_weaken. Qed.

Lemma has_id_fun registry k id id' : has_id registry k id → has_id registry k id' → id = id'.
Proof. unfold has_id. destruct (direct k); congruence. Qed.

Lemma has_id_range registry k id : ids_ok registry → key_ok k → has_id registry k id → 1 ≤ id < 2 ^ 47 ∧ (direct k = true ↔ id mod 2 = 0).
Proof.
  intros Hr Hk. unfold has_id. destruct (direct k) eqn:Hd.
  - intros ->. destruct Hk as [Ha Hm]. cbn in Hd. apply Z.leb_le in Hd. change MAX_INLINE_OBJECT_ID with (2 ^ 47 - 1) in Hd. split; [lia|done].
  - intros Hid. destruct (ids_odd _ Hr _ _ Hid) as (c & -> & Hc). pose proof (ids_cap _ Hr). split; [lia|].
    split; [done|]. Z.div_mod_to_equations. lia.
Qed.

Lemma has_id_inj registry k k' id :
  ids_ok registry → key_ok k → key_ok k' → has_id registry k id → has_id registry k' id → k = k'.
Proof.
  intros Hr Hk Hk' H H'. destruct (has_id_range _ _ _ Hr Hk H) as [_ Hd], (has_id_range _ _ _ Hr Hk' H') as [_ Hd'].
  assert (Heq : direct k = direct k') by (destruct (direct k), (direct k'); try done; [symmetry; by apply Hd', Hd|by apply Hd, Hd']).
  unfold has_id in *. rewrite <- Heq in H'. destruct (direct k); [congruence|]. by eapply ids_inj.
Qed.

Lemma following_id_eq c :
  0 ≤ c < 2 ^ 46 → following_id (2 * c + 1) = if c + 1 <? 2 ^ 46 then Some (2 * (c + 1) + 1) else None.
Proof.
  intros Hc. unfold following_id, usize_max, two64. change MAX_INLINE_OBJECT_ID with (2 ^ 47 - 1).
  rewrite (proj2 (Z.leb_le _ _)) by lia. destruct (Z.leb_spec (2 * c + 1 + 2) (2 ^ 47 - 1)), (Z.ltb_spec (c + 1) (2 ^ 46)); try lia; [|done].
  f_equal. lia.
Qed.

(** The table serves a key, or is out of ids. *)
Lemma id_for_spec registry k :
  ids_ok registry →
  match id_for registry k with
  | Ok (id, registry') => ids registry' !! k = Some id ∧ ids_ok registry' ∧ ids registry ⊆ ids registry' ∧
      dom (ids registry') ⊆ {[k]} ∪ dom (ids registry)
  | Panic => id_count registry = 2 ^ 46 ∧ k ∉ dom (ids registry)
  | Diverge => False
  end.
Proof.
  intros Hr. unfold id_for. destruct (ids registry !! k) as [id|] eqn:Hk; [split_and!; set_solver|].
  rewrite (ids_next _ Hr). pose proof (ids_cap _ Hr) as Hcap. destruct (Z.ltb_spec (id_count registry) (2 ^ 46)) as [Hlt|]; cycle 1.
  { split; [lia|]. by apply not_elem_of_dom. }
  set (registry' := {| ids := _; next_id := _ |}).
  assert (Hcount : id_count registry' = id_count registry + 1).
  { unfold id_count. cbn. rewrite map_size_insert_None by done. lia. }
  assert (0 ≤ id_count registry) by (unfold id_count; lia). split; [apply lookup_insert_eq|]. split; [split|split].
  - intros k' id. cbn. rewrite lookup_insert_Some, Hcount. intros [[-> <-]|[_ Hid]]; [exists (id_count registry); lia|].
    destruct (ids_odd _ Hr _ _ Hid) as (c & -> & Hc). exists c. lia.
  - intros k1 k2 id. cbn. rewrite !lookup_insert_Some.
    intros [[-> <-]|[Hne1 H1]] [[Heq2 H2]|[Hne2 H2]]; subst; try done.
    + destruct (ids_odd _ Hr _ _ H2) as (c & ? & ?). lia.
    + destruct (ids_odd _ Hr _ _ H1) as (c & ? & ?). lia.
    + by eapply ids_inj.
  - rewrite Hcount. cbn. by apply following_id_eq.
  - rewrite Hcount. lia.
  - by apply insert_subseteq.
  - cbn. rewrite dom_insert_L. done.
Qed.

Lemma encode_spec registry k :
  ids_ok registry → key_ok k →
  match encode k registry with
  | Ok (id, registry') => has_id registry' k id ∧ ids_ok registry' ∧ ids registry ⊆ ids registry' ∧
      dom (ids registry') ⊆ {[k]} ∪ dom (ids registry)
  | Panic => id_count registry = 2 ^ 46 ∧ k ∉ dom (ids registry)
  | Diverge => False
  end.
Proof.
  intros Hr Hk. pose proof (id_for_spec registry k Hr) as Hid.
  assert (Hindirect : direct k = false → encode k registry = id_for registry k →
    match encode k registry with
    | Ok (id, registry') => has_id registry' k id ∧ ids_ok registry' ∧ ids registry ⊆ ids registry' ∧
        dom (ids registry') ⊆ {[k]} ∪ dom (ids registry)
    | Panic => id_count registry = 2 ^ 46 ∧ k ∉ dom (ids registry)
    | Diverge => False
    end).
  { intros Hd ->. destruct (id_for registry k) as [[id registry']| |]; [|done..]. unfold has_id. by rewrite Hd. }
  destruct k as [a|i|b|b|re im|t p]; try by apply Hindirect.
  destruct Hk as [Ha Hm]. assert (He : encode (Allocation a) registry =
    if a <=? MAX_INLINE_OBJECT_ID then Ok (a, registry) else id_for registry (Allocation a)).
  { unfold encode. by rewrite (proj2 (Z.eqb_neq a 0)), (proj2 (Z.eqb_eq _ _) Hm) by lia. }
  destruct (direct (Allocation a)) eqn:Hd; cbn in Hd; rewrite Hd in He; [|by apply Hindirect].
  rewrite He. unfold has_id. cbn. rewrite Hd. split_and!; set_solver.
Qed.

(** ** Calls of [id()] *)

(** Each with the objects as they are at that time. *)
Fixpoint object_ids (calls : list (Objects * Z)) (registry : BoundedObjectIds) : res (list (option Z) * BoundedObjectIds) :=
  match calls with
  | [] => Ok ([], registry)
  | (objects, bits) :: calls =>
      '(id, registry) ← object_id objects bits registry;
      '(rest, registry) ← object_ids calls registry;
      Ok (id :: rest, registry)
  end.

Definition call_identity (call : Objects * Z) : option ObjectIdentity := res_to_option (object_identity call.1 call.2).
Definition identities (calls : list (Objects * Z)) : gset ObjectIdentity := list_to_set (omap call_identity calls).

(** The integer of a call is the id its identity has at the end. *)
Definition answer_ok (registry : BoundedObjectIds) (call : Objects * Z) (word : option Z) : Prop :=
  ∃ k id, object_identity call.1 call.2 = Ok k ∧ key_ok k ∧ has_id registry k id ∧ word = value_int id.

Lemma answer_ok_mono registry registry' call word :
  ids registry ⊆ ids registry' → answer_ok registry call word → answer_ok registry' call word.
Proof. intros Hsub (k & id & ? & ? & Hid & ?). exists k, id. split_and!; try done. by eapply has_id_mono. Qed.

Lemma object_ids_spec calls registry (seen : gset ObjectIdentity) :
  Forall (λ call, objects_ok call.1 ∧ word_ok call.2) calls → ids_ok registry → dom (ids registry) ⊆ seen →
  match object_ids calls registry with
  | Ok (words, registry') => ids_ok registry' ∧ ids registry ⊆ ids registry' ∧ Forall2 (answer_ok registry') calls words
  | Panic => 2 ^ 46 < Z.of_nat (size (identities calls ∪ seen))
  | Diverge => False
  end.
Proof.
  intros Hcalls. revert registry seen. induction Hcalls as [|[objects bits] calls [Ho Hw] _ IH]; intros registry seen Hr Hseen.
  { split_and!; done. }
  destruct (object_identity_ok objects bits Ho Hw) as (k & Hk & Hok). cbn [object_ids]. unfold object_id. rewrite Hk. cbn [mbind res_bind].
  assert (Hids : identities ((objects, bits) :: calls) = {[k]} ∪ identities calls).
  { unfold identities. cbn [omap list_omap]. unfold call_identity at 1. cbn [fst snd]. rewrite Hk. cbn. done. }
  pose proof (encode_spec registry k Hr Hok) as Henc. rewrite Hids.
  destruct (encode k registry) as [[id registry1]| |]; [|cbn [mbind res_bind]|done].
  - destruct Henc as (Hid & Hr1 & Hsub & Hdom). cbn [mbind res_bind].
    specialize (IH registry1 ({[k]} ∪ seen) Hr1 ltac:(set_solver)).
    destruct (object_ids calls registry1) as [[words registry2]| |]; cbn [mbind res_bind]; [|by replace ({[k]} ∪ identities calls ∪ seen) with (identities calls ∪ ({[k]} ∪ seen)) by set_solver|done].
    destruct IH as (Hr2 & Hsub2 & Hall). split; [done|]. split; [by transitivity (ids registry1)|]. constructor; [|done].
    assert (Hid2 := has_id_mono _ _ _ _ Hsub2 Hid). exists k, id. split_and!; try done.
    destruct (has_id_range _ _ _ Hr2 Hok Hid2) as [Hrange _]. rewrite as_i64_id; [done|]. unfold i64_range. lia.
  - destruct Henc as [Hfull Hnew]. unfold id_count in Hfull. rewrite <- size_dom in Hfull.
    assert (size ({[k]} ∪ dom (ids registry)) ≤ size ({[k]} ∪ identities calls ∪ seen))%nat by (apply subseteq_size; set_solver).
    rewrite size_union, size_singleton in H by set_solver. lia.
Qed.

(** C29: The integers [id()] returns are the identities [is] compares: over any
    sequence of calls, whatever happens to the objects between them, two calls
    return the same integer exactly when the objects had the same identity, so
    that for values compared at one time [id(a) == id(b)] is [a is b]. Each is
    a positive integer kept inline, below 2^47. Only after 2^46 identities
    have been handed out does a call panic, and none ever repeats one. *)
Theorem object_ids_are_identities calls :
  Forall (λ call, objects_ok call.1 ∧ word_ok call.2) calls →
  match object_ids calls ids_new with
  | Ok (words, _) =>
      length words = length calls ∧
      (∀ i word, words !! i = Some word → ∃ w id, word = Some w ∧ kind w = Ok (KInt id) ∧ 1 ≤ id < 2 ^ 47) ∧
      (∀ i j c c' word word', calls !! i = Some c → calls !! j = Some c' → words !! i = Some word → words !! j = Some word' →
        (word = word' ↔ object_identity c.1 c.2 = object_identity c'.1 c'.2) ∧
        (c.1 = c'.1 → is_identical_to c.1 c.2 c'.2 = Ok (bool_decide (word = word'))))
  | Panic => 2 ^ 46 < Z.of_nat (size (identities calls))
  | Diverge => False
  end.
Proof.
  intros Hcalls. pose proof (object_ids_spec calls ids_new ∅ Hcalls ids_new_ok ltac:(set_solver)) as Hspec.
  destruct (object_ids calls ids_new) as [[words registry]| |]; [|by rewrite union_empty_r_L in Hspec|done].
  destruct Hspec as (Hr & _ & Hall). split; [symmetry; by eapply Forall2_length|].
  assert (Hword : ∀ k id, key_ok k → has_id registry k id → 1 ≤ id < 2 ^ 47 ∧ is_Some (value_int id) ∧ kind (default 0 (value_int id)) = Ok (KInt id)).
  { intros k id Hk Hid. destruct (has_id_range _ _ _ Hr Hk Hid) as [Hrange _]. split; [done|].
    assert (Hi := value_int_eq id ltac:(lia)). rewrite Hi. split; [by eexists|]. by apply construct_kind. }
  split.
  - intros i word Hi. destruct (Forall2_lookup_r _ _ _ _ _ Hall Hi) as (c & _ & k & id & _ & Hk & Hid & ->).
    destruct (Hword k id Hk Hid) as (Hrange & [w Hw] & Hkind). rewrite Hw in *. by exists w, id.
  - intros i j c c' word word' Hc Hc' Hi Hj.
    destruct (Forall2_lookup_lr _ _ _ _ _ _ Hall Hc Hi) as (k & id & Hck & Hk & Hid & ->).
    destruct (Forall2_lookup_lr _ _ _ _ _ _ Hall Hc' Hj) as (k' & id' & Hck' & Hk' & Hid' & ->).
    assert (Hiff : value_int id = value_int id' ↔ k = k').
    { destruct (Hword k id Hk Hid) as (_ & _ & Hkind), (Hword k' id' Hk' Hid') as (_ & _ & Hkind'). split; [|intros ->; f_equal; by eapply has_id_fun].
      intros Heq. rewrite Heq in Hkind. rewrite Hkind in Hkind'. injection Hkind' as <-. by eapply has_id_inj. }
    rewrite Hck, Hck'. split; [rewrite Hiff; split; congruence|]. intros Hsame. unfold is_identical_to. rewrite Hck, Hsame, Hck'. cbn [mbind res_bind].
    f_equal. by apply bool_decide_ext.
Qed.

Definition sample_objects : Objects :=
  {| tuple_obj_id := λ _, 7; list_obj_id := λ _, 8; opaque_at := λ a, if a =? 64 then OPyInstance 128 else OSmallTuple2 7 |}.
Definition sample_calls : list (Objects * Z) :=
  (λ k, (sample_objects, default 0 (construct k))) <$> [KInt 1; KOpaque 64; KTuple 8; KOpaque 72; KInt 1; KNone; KStr 80].

Lemma object_ids_are_identities_witness :
  fst <$> res_to_option (object_ids sample_calls ids_new) = Some (value_int <$> [1; 128; 3; 3; 1; 5; 80]) ∧
  is_identical_to sample_objects (default 0 (construct (KTuple 8))) (default 0 (construct (KOpaque 72))) = Ok true.
Proof.
  assert (Hok : Forall (λ call, objects_ok call.1 ∧ word_ok call.2) sample_calls).
  { assert (Ho : objects_ok sample_objects) by (intros a; unfold sample_objects; cbn; by destruct (a =? 64)).
    unfold sample_calls. apply Forall_fmap. repeat apply Forall_cons_2; try apply Forall_nil_2.
    all: match goal with |- _ ?k => split; [exact Ho|]; exists k end; (split; [exact I || (cbn; lia)|reflexivity]). }
  pose proof (object_ids_are_identities sample_calls Hok) as Hrun.
  assert (Hgo : fst <$> res_to_option (object_ids sample_calls ids_new) = Some (value_int <$> [1; 128; 3; 3; 1; 5; 80])) by by vm_compute.
  split; [exact Hgo|]. destruct (object_ids sample_calls ids_new) as [[words registry]| |]; [|done..]. cbn in Hgo. injection Hgo as ->.
  destruct Hrun as (_ & _ & Hrun). destruct (Hrun 2%nat 3%nat _ _ _ _ eq_refl eq_refl eq_refl eq_refl) as [_ Hsame].
  exact (Hsame eq_refl).
Defined.
