(* ===== verification/Chars.v ===== *)
(** Characters and what the lexer uses of Rust's [char], [str] and integer and
    float parsing.  A [char] is its code point, a [&[char]] a list of them; a
    [String] that may hold lone surrogates is its bytes.

    Tokens (crates/pyrust/src/token.rs). *)

From Stdlib Require Floats.SpecFloat.
From Stdlib Require Export Ascii.
From S2P Require Import Outcome Prelude IntBytes Double.

(** ** Characters *)

Definition ch (a : ascii) : Z := Z.of_N (N_of_ascii a).
Definition chars_of (s : string) : list Z := ch <$> String.list_ascii_of_string s.

(** A letter of the source alphabet that is not in ASCII is not written down. *)
Definition QUOTE : Z := 34.
Definition APOSTROPHE : Z := 39.
Definition BACKSLASH : Z := 92.
Definition LF : Z := 10.
Definition CR : Z := 13.
Definition TAB : Z := 9.

Definition in_range (lo hi : ascii) (c : Z) : bool := (ch lo <=? c) && (c <=? ch hi).
Definition is_ascii_digit (c : Z) : bool := in_range "0" "9" c.
Definition is_ascii_letter (c : Z) : bool := in_range "a" "z" c || in_range "A" "Z" c.

(** [char::is_alphabetic], [char::is_whitespace] and the [Debug] form of a
    character go by tables of Unicode; names of characters come from the crate
    unicode_names2. *)
Class Unicode := {
  alphabetic : Z → bool;
  whitespace : Z → bool;
  debug_char : Z → string;
  character_named : list Z → option Z;
}.

(** [char::from_u32] *)
Definition is_scalar (c : Z) : bool := ((0 <=? c) && (c <? 0xD800)) || ((0xDFFF <? c) && (c <=? 0x10FFFF)).
Definition char_from_u32 (c : Z) : option Z := if is_scalar c then Some c else None.

Class UnicodeLaws `{Unicode} : Prop := {
  alphabetic_ascii c : 0 ≤ c < 128 → alphabetic c = is_ascii_letter c;
  whitespace_ascii c : 0 ≤ c < 128 → whitespace c = bool_decide (c ∈ [9; 10; 11; 12; 13; 32]);
  character_named_scalar name c : character_named name = Some c → is_scalar c = true;
}.

(** ** UTF-8 *)

(** The bytes of a character, [char::encode_utf8]. *)
Definition encode_utf8 (c : Z) : list Z :=
  if c <? 0x80 then [c]
  else if c <? 0x800 then [Z.lor 0xC0 (Z.shiftr c 6); Z.lor 0x80 (Z.land c 0x3F)]
  else if c <? 0x10000 then
    [Z.lor 0xE0 (Z.shiftr c 12); Z.lor 0x80 (Z.land (Z.shiftr c 6) 0x3F); Z.lor 0x80 (Z.land c 0x3F)]
  else
    [Z.lor 0xF0 (Z.shiftr c 18); Z.lor 0x80 (Z.land (Z.shiftr c 12) 0x3F); Z.lor 0x80 (Z.land (Z.shiftr c 6) 0x3F);
     Z.lor 0x80 (Z.land c 0x3F)].
Definition len_utf8 (c : Z) : nat := length (encode_utf8 c).
Definition utf8 (cs : list Z) : list Z := mjoin (encode_utf8 <$> cs).
Definition utf8_len (cs : list Z) : nat := length (utf8 cs).

(** A message with characters of the source in it. *)
Definition show (cs : list Z) : string := String.string_of_list_ascii ((λ b, ascii_of_N (Z.to_N b)) <$> utf8 cs).

(** ** Slices and strings of characters *)

(** [matches!(chars.get(pos), Some(c) if p(c))] *)
Definition at_pos (p : Z → bool) (chars : list Z) (pos : nat) : bool :=
  match chars !! pos with Some c => p c | None => false end.
Definition has_char (c : Z) (chars : list Z) (pos : nat) : bool := at_pos (Z.eqb c) chars pos.

(** [while pos < chars.len() && p(chars[pos]) { pos += 1 }] *)
Fixpoint prefix_len (p : Z → bool) (cs : list Z) : nat :=
  match cs with c :: cs => if p c then S (prefix_len p cs) else 0 | [] => 0 end.
Definition skip_while (p : Z → bool) (chars : list Z) (pos : nat) : nat := pos + prefix_len p (drop pos chars).

(** [&chars[a..b]] and [a - b] on indices. *)
Definition char_slice (chars : list Z) (a b : nat) : outcome (list Z) :=
  if ((a <=? b) && (b <=? length chars))%nat then Return (take (b - a) (drop a chars)) else Panicked.
Definition index_sub (a b : nat) : outcome nat := if (b <=? a)%nat then Return (a - b)%nat else Panicked.
Definition char_at (chars : list Z) (pos : nat) : outcome Z := lift (vnth chars pos).

(** [chars.get(pos).copied().ok_or_else(..)] *)
Definition char_or (chars : list Z) (pos : nat) (e : PyError) : outcome Z :=
  match chars !! pos with Some c => Return c | None => Raise e end.

Section trim.
  Context `{Unicode}.

Definition trim_start_matches (p : Z → bool) (cs : list Z) : list Z := drop (prefix_len p cs) cs.
Definition trim_end_matches (p : Z → bool) (cs : list Z) : list Z := reverse (trim_start_matches p (reverse cs)).
Definition trim_start (cs : list Z) : list Z := trim_start_matches whitespace cs.
Definition trim (cs : list Z) : list Z := trim_end_matches whitespace (trim_start cs).
End trim.

(** ** Numbers *)

Definition digit_value (c : Z) : option Z :=
  if is_ascii_digit c then Some (c - ch "0")
  else if in_range "a" "z" c then Some (c - ch "a" + 10)
  else if in_range "A" "Z" c then Some (c - ch "A" + 10)
  else None.

(** The digits of a base, the most significant first. *)
Fixpoint digits_value (radix acc : Z) (cs : list Z) : option Z :=
  match cs with
  | [] => Some acc
  | c :: cs => d ← digit_value c; if d <? radix then digits_value radix (acc * radix + d) cs else None
  end.

(** [from_str_radix] and [parse] of an integer type: a sign is allowed, a minus
    sign for signed types only. *)
Definition from_str_radix (lo hi radix : Z) (cs : list Z) : option Z :=
  let checked := λ v, if (lo <=? v) && (v <=? hi) then Some v else None in
  match cs with
  | [] => None
  | c :: rest =>
      if c =? ch "+" then if bool_decide (rest = []) then None else digits_value radix 0 rest ≫= checked
      else if (c =? ch "-") && (lo <? 0) then
        if bool_decide (rest = []) then None else v ← digits_value radix 0 rest; checked (- v)
      else digits_value radix 0 cs ≫= checked
  end.

Definition u8_from_str_radix (radix : Z) (cs : list Z) : option Z := from_str_radix 0 255 radix cs.
Definition u32_from_str_radix (radix : Z) (cs : list Z) : option Z := from_str_radix 0 (2 ^ 32 - 1) radix cs.
Definition i64_from_str_radix (radix : Z) (cs : list Z) : option Z := from_str_radix (- 2 ^ 63) (2 ^ 63 - 1) radix cs.

(** The nearest [f64] to [num / den], ties to even. *)
Definition f64_of_ratio (num den : positive) : f64 :=
  let '(m, e, loc) := SpecFloat.SFdiv_core_binary f64_prec f64_emax (Z.pos num) 0 (Z.pos den) 0 in
  SpecFloat.binary_round_aux f64_prec f64_emax false m e loc.

(** [mantissa * 10 ^ exponent] *)
Definition f64_of_decimal (mantissa exponent : Z) : f64 :=
  if 0 <=? exponent then d_round (mantissa * 10 ^ exponent) 0 false
  else match mantissa with
       | Z.pos m => f64_of_ratio m (Z.to_pos (10 ^ (- exponent)))
       | _ => d_zero false
       end.

(** [text.parse::<f64>()] of a text without a sign and without letters but
    those of an exponent. *)
Definition parse_f64 (cs : list Z) : option f64 :=
  let int_len := prefix_len is_ascii_digit cs in
  let int := take int_len cs in
  let rest := drop int_len cs in
  let '(frac, rest) :=
    match rest with
    | c :: more =>
        if c =? ch "." then
          let n := prefix_len is_ascii_digit more in
          (take n more, drop n more)
        else ([], rest)
    | [] => ([], [])
    end in
  if bool_decide (int ++ frac = []) then None
  else
    mantissa ← digits_value 10 0 (int ++ frac);
    exponent ←
      match rest with
      | [] => Some 0
      | c :: more =>
          if (c =? ch "e") || (c =? ch "E") then
            match more with
            | s :: ds =>
                if (s =? ch "+") || (s =? ch "-") then
                  if bool_decide (ds = []) then None else v ← digits_value 10 0 ds; Some (if s =? ch "-" then - v else v)
                else digits_value 10 0 more
            | [] => None
            end
          else None
      end;
    Some (f64_of_decimal mantissa (exponent - vlen frac)).

(** Decimal strings of big integers, by the crate num-bigint. *)
Class BigIntText (B : Type) := {
  big_parse : Z → list Z → option B;      (* [parse_bytes] in a radix, and [parse] in base 10 *)
  big_to_string : B → list Z;
}.

(** * Tokens *)


Module FStringPart.

(** The text of an expression is kept as characters, literal text as bytes. *)
Inductive FStringPart : Type :=
  | Literal (text : list Z)
  | Expr (src : list Z) (conversion : option Z) (format_spec : option (list FStringPart)) (debug_text : option (list Z))
      (field_cols : option (Z * Z)) (line_offset : Z).

End FStringPart.

Module Token.

Inductive Token : Type :=
  | Int (n : Z)
  | BigInt (text : list Z)
  | Float (x : f64)
  | Imag (x : f64)
  | Str (text : list Z)
  | Bytes (bytes : list Z)
  | FString (parts : list FStringPart.FStringPart)
  | Ident (name : list Z)
  | Plus | Minus | Star | StarStar | Slash | SlashSlash | Percent | At
  | PlusAssign | MinusAssign | StarAssign | StarStarAssign | SlashAssign | SlashSlashAssign | PercentAssign | AtAssign
  | AmpersandAssign | PipeAssign | CaretAssign | LShiftAssign | RShiftAssign
  | Ampersand | Pipe | Caret | Tilde | LShift | RShift
  | LParen | RParen | LBracket | RBracket | LBrace | RBrace | Comma | Colon | Walrus | Semicolon | Dot | Ellipsis | Arrow
  | Assign | Eq | Ne | Lt | Le | Gt | Ge
  | And | Or | Not | If | Elif | Else | While | For | In | Def | Class_ | With | Try | Except | Finally | Raise | As
  | Import_ | From_ | Global | Nonlocal | Return | Yield | Break | Continue | Pass | Del | Assert | Lambda | Is
  | True | False | None
  | Newline | Indent | Dedent | Eof.

End Token.
