(* ===== verification/LexLiterals.v ===== *)
(** Numeric literals (crates/pyrust/src/lexer/numbers.rs).

    String and bytes literals (crates/pyrust/src/lexer: escapes.rs, strings.rs,
    bytes.rs). *)

From stdpp Require Import strings.
From S2P Require Import Outcome Prelude Double Chars.

Definition lex_err {A} (message : string) : outcome A := Raise (Lex message).

(** [check_int_parse_digits] of crates/pyrust-core/src/core/int_string_limits.rs
    under the limit of the running interpreter, 0 for none. *)
Definition INT_MAX_STR_DIGITS_MIN : Z := 640.
Definition int_str_base_is_exempt (base : Z) : bool := bool_decide (base ∈ [2; 4; 8; 16; 32]).

Definition check_int_parse_digits (limit : Z) (digit_str : list Z) (base : Z) : outcome unit :=
  if (limit =? 0) || int_str_base_is_exempt base then Return tt
  else
    let digits := vlen (filter (λ b, b ≠ ch "_") (utf8 digit_str)) in
    if limit <? digits then
      Raise (Named "ValueError" ("Exceeds the limit (" +:+ pretty limit +:+ " digits) for integer string conversion: value has "
        +:+ pretty digits +:+ " digits; use sys.set_int_max_str_digits() to increase the limit"))
    else Return tt.

Definition without_underscores (raw : list Z) : list Z := filter (λ c, c ≠ ch "_") raw.

Fixpoint underscores_ok (prev_was_under : bool) (raw : list Z) : bool :=
  match raw with
  | [] => negb prev_was_under
  | c :: raw => if c =? ch "_" then negb prev_was_under && underscores_ok true raw else underscores_ok false raw
  end.

Definition validate_underscores (raw : list Z) (kind : string) : outcome unit :=
  if underscores_ok false raw then Return tt else lex_err ("invalid " +:+ kind +:+ " literal").

(** Every underscore is between two digits. *)
Definition underscore_between (raw : list Z) (i : nat) : bool :=
  negb (has_char (ch "_") raw i)
  || ((0 <? i)%nat && at_pos is_ascii_digit raw (i - 1) && at_pos is_ascii_digit raw (i + 1)).

Definition validate_decimal_underscores (raw : list Z) : outcome unit :=
  if forallb (underscore_between raw) (seq 0 (length raw)) then Return tt else lex_err "invalid decimal literal".

Definition check_leading_zero (raw : list Z) : outcome unit :=
  if has_char (ch "0") raw 0 && existsb (λ c, is_ascii_digit c && negb (c =? ch "0")) raw then
    lex_err "leading zeros in decimal integer literals are not permitted; use an 0o prefix for octal integers"
  else Return tt.

Definition digit_or_underscore (c : Z) : bool := is_ascii_digit c || (c =? ch "_").
Definition is_e (c : Z) : bool := (c =? ch "e") || (c =? ch "E").
Definition is_j (c : Z) : bool := (c =? ch "j") || (c =? ch "J").
Definition is_sign (c : Z) : bool := (c =? ch "+") || (c =? ch "-").

(** An exponent at [pos], if there is one: the position after it. *)
Definition skip_exponent (chars : list Z) (pos : nat) : nat :=
  if at_pos is_e chars pos then
    let pos := (pos + 1)%nat in
    let pos := if at_pos is_sign chars pos then (pos + 1)%nat else pos in
    skip_while digit_or_underscore chars pos
  else pos.

(** The value of a float literal at [start..pos], with its imaginary suffix. *)
Definition float_token (chars : list Z) (start pos : nat) : outcome (Token.Token * nat) :=
  raw ← char_slice chars start pos;
  _ ← validate_decimal_underscores raw;
  let text := without_underscores raw in
  match parse_f64 text with
  | None => lex_err ("invalid float '" +:+ show text +:+ "'")
  | Some val => if at_pos is_j chars pos then Return (Token.Imag val, (pos + 1)%nat) else Return (Token.Float val, pos)
  end.

Definition lex_leading_dot_float (chars : list Z) (start : nat) : outcome (Token.Token * nat) :=
  let pos := skip_while digit_or_underscore chars (start + 1) in
  float_token chars start (skip_exponent chars pos).

Section numbers.
  Context {B : Type} `{BigIntText B} (limit : Z).

(** The three prefixed forms, by their radix, digits and name. *)
Definition lex_radix (chars : list Z) (pos : nat) (radix : Z) (is_digit : Z → bool) (kind : string) : outcome (Token.Token * nat) :=
  let start := pos in
  let pos := skip_while (λ c, is_digit c || (c =? ch "_")) chars pos in
  raw ← char_slice chars start pos;
  if bool_decide (raw = []) || forallb (λ c, c =? ch "_") raw then lex_err ("invalid " +:+ kind +:+ " literal")
  else
    _ ← validate_underscores raw kind;
    let text := without_underscores raw in
    match i64_from_str_radix radix text with
    | Some val => Return (Token.Int val, pos)
    | None =>
        match big_parse radix text with
        | Some big => Return (Token.BigInt (big_to_string big), pos)
        | None => lex_err ("invalid " +:+ kind +:+ " literal")
        end
    end.

Definition is_hex_digit (c : Z) : bool := is_ascii_digit c || in_range "a" "f" c || in_range "A" "F" c.
Definition is_octal_digit (c : Z) : bool := in_range "0" "7" c.
Definition is_binary_digit (c : Z) : bool := in_range "0" "1" c.

(** The last step: a decimal integer. *)
Definition lex_decimal (chars : list Z) (start int_end pos : nat) : outcome (Token.Token * nat) :=
  raw_dec ← char_slice chars start int_end;
  _ ← validate_decimal_underscores raw_dec;
  _ ← check_leading_zero raw_dec;
  let text := without_underscores raw_dec in
  match i64_from_str_radix 10 text with
  | Some val => Return (Token.Int val, pos)
  | None =>
      _ ← match check_int_parse_digits limit text 10 with
          | Raise (Named _ message) =>
              lex_err (message +:+ " - Consider hexadecimal for huge integer literals to avoid decimal conversion limits.")
          | r => r
          end;
      match big_parse 10 text with
      | Some big => Return (Token.BigInt (big_to_string big), pos)
      | None => lex_err ("invalid integer '" +:+ show text +:+ "'")
      end
  end.

Definition has_prefix (chars : list Z) (start : nat) (lower upper : ascii) : bool :=
  has_char (ch "0") chars start && at_pos (λ c, (c =? ch lower) || (c =? ch upper)) chars (start + 1).

Definition lex_number (chars : list Z) (start : nat) : outcome (Token.Token * nat) :=
  if has_prefix chars start "x" "X" then lex_radix chars (start + 2) 16 is_hex_digit "hexadecimal"
  else if has_prefix chars start "o" "O" then lex_radix chars (start + 2) 8 is_octal_digit "octal"
  else if has_prefix chars start "b" "B" then lex_radix chars (start + 2) 2 is_binary_digit "binary"
  else
    let pos := skip_while digit_or_underscore chars start in
    let int_end := pos in
    if has_char (ch ".") chars pos then
      let pos := skip_while digit_or_underscore chars (pos + 1) in
      float_token chars start (skip_exponent chars pos)
    else
      (* An exponent without digits is not undone. *)
      let exp_start :=
        if at_pos is_e chars pos then (if at_pos is_sign chars (pos + 1) then pos + 2 else pos + 1)%nat else pos in
      let exp_end := if at_pos is_e chars pos then skip_while digit_or_underscore chars exp_start else pos in
      if at_pos is_e chars pos && (exp_start <? exp_end)%nat then float_token chars start exp_end
      else if at_pos is_j chars exp_end then
        raw_imag ← char_slice chars start exp_end;
        _ ← validate_decimal_underscores raw_imag;
        let text := without_underscores raw_imag in
        match parse_f64 text with
        | Some val => Return (Token.Imag val, (exp_end + 1)%nat)
        | None => lex_err ("invalid imaginary literal '" +:+ show text +:+ "j'")
        end
      else lex_decimal chars start int_end exp_end.
End numbers.

(** * Strings and bytes *)


(** ** Escapes *)

(** Lone surrogates have the three bytes that UTF-8 would give them. *)
Definition codepoint_to_string_fragment (cp : Z) : option (list Z) :=
  if (0xD800 <=? cp) && (cp <=? 0xDFFF) then
    Some [Z.lor 0xE0 (Z.shiftr cp 12 mod 256); Z.lor 0x80 (Z.land (Z.shiftr cp 6) 0x3F); Z.lor 0x80 (Z.land cp 0x3F)]
  else encode_utf8 <$> char_from_u32 cp.

(** The bytes of the escapes that stand for one character. *)
Definition simple_escape (c : Z) : option Z :=
  if c =? ch "n" then Some 10 else if c =? ch "t" then Some 9 else if c =? ch "r" then Some 13
  else if c =? BACKSLASH then Some 92 else if c =? APOSTROPHE then Some 39 else if c =? QUOTE then Some 34
  else if c =? ch "a" then Some 7 else if c =? ch "b" then Some 8 else if c =? ch "f" then Some 12
  else if c =? ch "v" then Some 11 else None.

Definition is_octal (c : Z) : bool := in_range "0" "7" c.

(** One to three octal digits at [pos], the first of which is there: the value,
    and the position after them. *)
Definition octal_escape (chars : list Z) (c : Z) (pos : nat) : Z * nat :=
  let val := c - ch "0" in
  match chars !! (pos + 1)%nat with
  | Some d =>
      if is_octal d then
        let val := val * 8 + (d - ch "0") in
        match chars !! (pos + 2)%nat with
        | Some d2 => if is_octal d2 then (val * 8 + (d2 - ch "0"), (pos + 3)%nat) else (val, (pos + 2)%nat)
        | None => (val, (pos + 2)%nat)
        end
      else (val, (pos + 1)%nat)
  | None => (val, (pos + 1)%nat)
  end.

(** [n] in a base, with capital letters and at least [width] digits. *)
Fixpoint radix_digits (fuel : nat) (base n : Z) (acc : string) : string :=
  match fuel with
  | O => acc
  | S fuel =>
      let d := n mod base in
      let c := ascii_of_N (Z.to_N (if d <? 10 then ch "0" + d else ch "A" + d - 10)) in
      let acc := String.String c acc in
      if n <? base then acc else radix_digits fuel base (n / base) acc
  end.
Definition pad_zeros (width : nat) (s : string) : string :=
  String.string_of_list_ascii (replicate (width - String.length s) "0"%char) +:+ s.
Definition octal_digits (n : Z) : string := radix_digits 64 8 n "".
Definition hex_digits (width : nat) (n : Z) : string := pad_zeros width (radix_digits 64 16 n "").

Definition escape_codec_error {A} (first last : nat) (problem : string) : outcome A :=
  lex_err ("(unicode error) 'unicodeescape' codec can't decode bytes in position " +:+ pretty first +:+ "-" +:+ pretty last
    +:+ ": " +:+ problem).

(** [(1..=n).map(|i| chars.get(pos + i)..).collect()] *)
Fixpoint collect_chars (chars : list Z) (pos n : nat) (e : PyError) : outcome (list Z) :=
  match n with
  | O => Return []
  | S n => c ← char_or chars (pos + 1) e; cs ← collect_chars chars (pos + 1) n e; Return (c :: cs)
  end.

Section strings.
  Context `{Unicode}.

Definition hex_escape (chars : list Z) (pos : nat) (incomplete : string) (invalid : list Z → string) : outcome Z :=
  hi ← char_or chars (pos + 1) (Lex incomplete);
  lo ← char_or chars (pos + 2) (Lex incomplete);
  match u8_from_str_radix 16 [hi; lo] with Some v => Return v | None => lex_err (invalid [hi; lo]) end.

Definition name_end (c : Z) : bool :=
  (c =? ch "}") || (c =? APOSTROPHE) || (c =? QUOTE) || (c =? LF) || (c =? CR).

(** [\N{name}], with [pos] at the N. *)
Definition named_escape (chars : list Z) (pos content_start : nat) : outcome (list Z * nat) :=
  before ← index_sub pos 1;
  head ← char_slice chars content_start before;
  let bs_byte := utf8_len head in
  let malformed := "malformed \N character escape" in
  if negb (has_char (ch "{") chars (pos + 1)) then escape_codec_error bs_byte (bs_byte + 1) malformed
  else
    let fin := skip_while (λ c, negb (c =? ch "}")) chars (pos + 2) in
    if (length chars <=? fin)%nat then
      rest ← char_slice chars (pos + 2) (length chars);
      let name_bytes := utf8_len (take (prefix_len (λ c, negb (name_end c)) rest) rest) in
      escape_codec_error bs_byte (bs_byte + 2 + name_bytes) malformed
    else
      name ← char_slice chars (pos + 2) fin;
      if bool_decide (name = []) then escape_codec_error bs_byte (bs_byte + 2) malformed
      else
        upto ← char_slice chars content_start fin;
        match character_named name with
        | Some c => Return (encode_utf8 c, (fin + 1)%nat)
        | None => escape_codec_error bs_byte (utf8_len upto) "unknown Unicode character name"
        end.

Definition parse_escape (chars : list Z) (pos content_start : nat) : outcome (list Z * nat) :=
  c ← char_or chars pos (Lex "unterminated escape sequence");
  match simple_escape c with
  | Some b => Return ([b], (pos + 1)%nat)
  | None =>
      if is_octal c then
        let '(val, fin) := octal_escape chars c pos in
        match char_from_u32 val with
        | Some v => Return (encode_utf8 v, fin)
        | None => lex_err ("octal escape value out of range: \" +:+ octal_digits val)
        end
      else if c =? ch "x" then
        v ← hex_escape chars pos "incomplete \x escape (need 2 hex digits)" (λ digits, "invalid \x escape: \x" +:+ show digits);
        Return (encode_utf8 v, (pos + 3)%nat)
      else if c =? ch "u" then
        digits ← collect_chars chars pos 4 (Lex "incomplete \u escape (need 4 hex digits)");
        match u32_from_str_radix 16 digits with
        | None => lex_err ("invalid \u escape: \u" +:+ show digits)
        | Some codepoint =>
            match codepoint_to_string_fragment codepoint with
            | Some frag => Return (frag, (pos + 5)%nat)
            | None => lex_err ("invalid \u escape: U+" +:+ hex_digits 4 codepoint)
            end
        end
      else if c =? ch "U" then
        digits ← collect_chars chars pos 8 (Lex "incomplete \U escape (need 8 hex digits)");
        match u32_from_str_radix 16 digits with
        | None => lex_err ("invalid \U escape: \U" +:+ show digits)
        | Some codepoint =>
            if 0x10FFFF <? codepoint then
              lex_err ("invalid \U escape: codepoint U+" +:+ hex_digits 8 codepoint +:+ " out of range")
            else
              match codepoint_to_string_fragment codepoint with
              | Some frag => Return (frag, (pos + 9)%nat)
              | None => lex_err ("invalid \U escape: U+" +:+ hex_digits 8 codepoint)
              end
        end
      else if c =? ch "N" then named_escape chars pos content_start
      else Return (BACKSLASH :: encode_utf8 c, (pos + 1)%nat)
  end.

(** ** Strings *)

(** After a backslash: a line continuation, or an escape. *)
Definition escaped_text (chars : list Z) (pos content_start : nat) (escaped : Z) : outcome (list Z * nat) :=
  if escaped =? LF then Return ([], (pos + 1)%nat)
  else if escaped =? CR then
    Return ([], if has_char LF chars (pos + 1) then (pos + 2)%nat else (pos + 1)%nat)
  else parse_escape chars pos content_start.

Definition closes_triple (chars : list Z) (quote : Z) (pos : nat) : bool :=
  (pos + 2 <? length chars)%nat && has_char quote chars pos && has_char quote chars (pos + 1) && has_char quote chars (pos + 2).

Definition raw_string_error : PyError :=
  Lex "EOL while scanning string literal (trailing backslash in raw string)".

Fixpoint triple_string_loop (fuel : nat) (chars : list Z) (quote : Z) (raw : bool) (content_start pos : nat) (out : list Z) :
    outcome (Token.Token * nat) :=
  match fuel with
  | O => OutOfFuel
  | S fuel =>
      if closes_triple chars quote pos then Return (Token.Str out, (pos + 3)%nat)
      else
        match chars !! pos with
        | None => lex_err "unterminated triple-quoted string"
        | Some c =>
            if c =? BACKSLASH then
              if raw then
                next ← char_or chars (pos + 1) raw_string_error;
                triple_string_loop fuel chars quote raw content_start (pos + 2) (out ++ [BACKSLASH] ++ encode_utf8 next)
              else
                escaped ← char_or chars (pos + 1) (Lex "unterminated escape");
                '(s, next_pos) ← escaped_text chars (pos + 1) content_start escaped;
                triple_string_loop fuel chars quote raw content_start next_pos (out ++ s)
            else if c =? CR then
              let next_pos := if has_char LF chars (pos + 1) then (pos + 2)%nat else (pos + 1)%nat in
              triple_string_loop fuel chars quote raw content_start next_pos (out ++ [LF])
            else triple_string_loop fuel chars quote raw content_start (pos + 1) (out ++ encode_utf8 c)
        end
  end.

Fixpoint string_loop (fuel : nat) (chars : list Z) (quote : Z) (raw : bool) (content_start pos : nat) (out : list Z) :
    outcome (Token.Token * nat) :=
  match fuel with
  | O => OutOfFuel
  | S fuel =>
      match chars !! pos with
      | None => lex_err "unterminated string literal"
      | Some c =>
          if c =? quote then Return (Token.Str out, (pos + 1)%nat)
          else if c =? BACKSLASH then
            if raw then
              next ← char_or chars (pos + 1) raw_string_error;
              string_loop fuel chars quote raw content_start (pos + 2) (out ++ [BACKSLASH] ++ encode_utf8 next)
            else
              escaped ← char_or chars (pos + 1) (Lex "EOL while scanning string literal");
              '(s, next_pos) ← escaped_text chars (pos + 1) content_start escaped;
              string_loop fuel chars quote raw content_start next_pos (out ++ s)
          else string_loop fuel chars quote raw content_start (pos + 1) (out ++ encode_utf8 c)
      end
  end.

(** Every step moves on, so that the characters left are fuel enough. *)
Definition scan_fuel (chars : list Z) (pos : nat) : nat := S (length chars - pos).

Definition opens_triple (chars : list Z) (quote : Z) (start : nat) : bool :=
  has_char quote chars (start + 1) && has_char quote chars (start + 2).

Definition lex_string (chars : list Z) (start : nat) (raw : bool) : outcome (Token.Token * nat) :=
  quote ← char_at chars start;
  if opens_triple chars quote start
  then triple_string_loop (scan_fuel chars (start + 3)) chars quote raw (start + 3) (start + 3) []
  else string_loop (scan_fuel chars (start + 1)) chars quote raw (start + 1) (start + 1) [].

(** ** Bytes *)

Definition not_ascii_error (c : Z) : PyError :=
  Lex ("bytes can only contain ASCII literal characters (got " +:+ debug_char c +:+ ")").
Definition ascii_byte (c : Z) : outcome Z := if 0x7f <? c then Raise (not_ascii_error c) else Return c.

(** The escape [esc] at [pos]: its bytes, and the position after it. *)
Definition bytes_escape (chars : list Z) (pos : nat) (esc : Z) : outcome (list Z * nat) :=
  match simple_escape esc with
  | Some b => Return ([b], (pos + 1)%nat)
  | None =>
      if is_octal esc then
        let '(val, fin) := octal_escape chars esc pos in
        Return ([Z.land val 0xFF], fin)
      else if esc =? ch "x" then
        v ← hex_escape chars pos "incomplete \x escape" (λ _, "invalid \x escape");
        Return ([v], (pos + 3)%nat)
      else if esc =? LF then Return ([], (pos + 1)%nat)
      else if esc =? CR then Return ([], if has_char LF chars (pos + 1) then (pos + 2)%nat else (pos + 1)%nat)
      else
        b ← ascii_byte esc;
        Return ([BACKSLASH; b], (pos + 1)%nat)
  end.

Definition raw_bytes_error : PyError :=
  Lex "EOL while scanning bytes literal (trailing backslash in raw bytes)".

Fixpoint triple_bytes_loop (fuel : nat) (chars : list Z) (quote : Z) (raw : bool) (pos : nat) (out : list Z) :
    outcome (Token.Token * nat) :=
  match fuel with
  | O => OutOfFuel
  | S fuel =>
      if closes_triple chars quote pos then Return (Token.Bytes out, (pos + 3)%nat)
      else
        match chars !! pos with
        | None => lex_err "unterminated triple-quoted bytes literal"
        | Some c =>
            if c =? BACKSLASH then
              if raw then
                next ← char_or chars (pos + 1) raw_bytes_error;
                b ← ascii_byte next;
                triple_bytes_loop fuel chars quote raw (pos + 2) (out ++ [BACKSLASH; b])
              else
                esc ← char_or chars (pos + 1) (Lex "unterminated bytes escape");
                '(bs, next_pos) ← bytes_escape chars (pos + 1) esc;
                triple_bytes_loop fuel chars quote raw next_pos (out ++ bs)
            else if c =? CR then
              let next_pos := if has_char LF chars (pos + 1) then (pos + 2)%nat else (pos + 1)%nat in
              triple_bytes_loop fuel chars quote raw next_pos (out ++ [LF])
            else
              b ← ascii_byte c;
              triple_bytes_loop fuel chars quote raw (pos + 1) (out ++ [b])
        end
  end.

Fixpoint bytes_loop (fuel : nat) (chars : list Z) (quote : Z) (raw : bool) (pos : nat) (out : list Z) :
    outcome (Token.Token * nat) :=
  match fuel with
  | O => OutOfFuel
  | S fuel =>
      match chars !! pos with
      | None => lex_err "unterminated bytes literal"
      | Some c =>
          if c =? quote then Return (Token.Bytes out, (pos + 1)%nat)
          else if c =? BACKSLASH then
            if raw then
              next ← char_or chars (pos + 1) raw_bytes_error;
              b ← ascii_byte next;
              bytes_loop fuel chars quote raw (pos + 2) (out ++ [BACKSLASH; b])
            else
              esc ← char_or chars (pos + 1) (Lex "unterminated bytes escape");
              '(bs, next_pos) ← bytes_escape chars (pos + 1) esc;
              bytes_loop fuel chars quote raw next_pos (out ++ bs)
          else
            b ← ascii_byte c;
            bytes_loop fuel chars quote raw (pos + 1) (out ++ [b])
      end
  end.

Definition lex_bytes (chars : list Z) (start : nat) (raw : bool) : outcome (Token.Token * nat) :=
  quote ← char_at chars start;
  if opens_triple chars quote start
  then triple_bytes_loop (scan_fuel chars (start + 3)) chars quote raw (start + 3) []
  else bytes_loop (scan_fuel chars (start + 1)) chars quote raw (start + 1) [].
End strings.
