(* ===== verification/LexFStrings.v ===== *)
(** F-string literals (crates/pyrust/src/lexer/fstrings.rs). *)

From stdpp Require Import strings.
From S2P Require Import Outcome Prelude Double Chars LexLiterals.

Definition as_u32 (n : nat) : Z := Z.of_nat n mod 2 ^ 32.

Definition count_newlines (chars : list Z) (from to : nat) : outcome Z :=
  span ← char_slice chars from (to `min` length chars);
  Return (as_u32 (length (filter (λ c, c = LF) span))).

(** ** Quoted strings inside a replacement field *)

Fixpoint consume_triple (fuel : nat) (chars : list Z) (q : Z) (pos : nat) (src : list Z) : outcome (nat * list Z) :=
  match fuel with
  | O => OutOfFuel
  | S fuel =>
      match chars !! pos with
      | None => Return (pos, src)
      | Some sc =>
          if (sc =? q) && has_char q chars (pos + 1) && has_char q chars (pos + 2) then Return ((pos + 3)%nat, src ++ [q; q; q])
          else if sc =? BACKSLASH then
            match chars !! (pos + 1)%nat with
            | Some esc => consume_triple fuel chars q (pos + 2) (src ++ [BACKSLASH; esc])
            | None => consume_triple fuel chars q (pos + 1) (src ++ [BACKSLASH])
            end
          else consume_triple fuel chars q (pos + 1) (src ++ [sc])
      end
  end.

Fixpoint consume_single (fuel : nat) (chars : list Z) (q : Z) (pos : nat) (src : list Z) : outcome (nat * list Z) :=
  match fuel with
  | O => OutOfFuel
  | S fuel =>
      match chars !! pos with
      | None => Return (pos, src)
      | Some sc =>
          let pos := (pos + 1)%nat in
          if sc =? q then Return (pos, src ++ [sc])
          else if sc =? BACKSLASH then
            match chars !! pos with
            | Some esc => consume_single fuel chars q (pos + 1) (src ++ [BACKSLASH; esc])
            | None => consume_single fuel chars q pos (src ++ [BACKSLASH])
            end
          else consume_single fuel chars q pos (src ++ [sc])
      end
  end.

Definition consume_string_literal (chars : list Z) (pos : nat) (src : list Z) (q : Z) : outcome (nat * list Z) :=
  if opens_triple chars q pos then consume_triple (scan_fuel chars (pos + 3)) chars q (pos + 3) (src ++ [q; q; q])
  else consume_single (scan_fuel chars (pos + 1)) chars q (pos + 1) (src ++ [q]).

Definition is_quote (c : Z) : bool := (c =? QUOTE) || (c =? APOSTROPHE).
Definition is_opening (c : Z) : bool := (c =? ch "(") || (c =? ch "[").
Definition is_closing (c : Z) : bool := (c =? ch ")") || (c =? ch "]").
Definition is_blank (c : Z) : bool := (c =? ch " ") || (c =? TAB).

Section fstrings.
  Context `{Unicode}.

(** ** Conversions *)

Definition ident_start (c : Z) : bool := alphabetic c || (c =? ch "_").
Definition ident_continue (c : Z) : bool := alphabetic c || is_ascii_digit c || (c =? ch "_").

Definition lex_conversion_segment (chars : list Z) (pos : nat) : list Z :=
  match chars !! pos with
  | Some c =>
      if ident_start c then
        let rest := drop (pos + 1) chars in c :: take (prefix_len ident_continue rest) rest
      else []
  | None => []
  end.

Definition fstring_conversion_error (chars : list Z) (pos : nat) (segment : list Z) : PyError :=
  match segment with
  | [] =>
      match chars !! pos with
      | Some c =>
          if (c =? ch "}") || (c =? ch ":") || whitespace c then Lex "f-string: missing conversion character"
          else Lex "f-string: invalid conversion character"
      | None => Lex "f-string: missing conversion character"
      end
  | _ => Lex ("f-string: invalid conversion character '" +:+ show segment +:+ "': expected 's', 'r', or 'a'")
  end.

(** The conversion at [pos], after the exclamation mark. *)
Definition lex_conversion (chars : list Z) (pos : nat) : outcome (Z * nat) :=
  let segment := lex_conversion_segment chars pos in
  match segment with
  | [c] => if (c =? ch "s") || (c =? ch "r") || (c =? ch "a") then Return (c, (pos + 1)%nat)
           else Raise (fstring_conversion_error chars pos segment)
  | _ => Raise (fstring_conversion_error chars pos segment)
  end.

(** ** Format specifications *)

(** A nested field, from after its brace: its text, conversion and end. *)
Fixpoint nested_field (fuel : nat) (chars : list Z) (pos : nat) (src : list Z) (paren_depth brace_depth : nat) :
    outcome (list Z * option Z * nat) :=
  match fuel with
  | O => OutOfFuel
  | S fuel =>
      match chars !! pos with
      | None => lex_err "unterminated nested expression in f-string format spec"
      | Some c =>
          if (c =? ch "}") && (paren_depth =? 0)%nat && (brace_depth =? 0)%nat then Return (src, None, (pos + 1)%nat)
          else if c =? ch "{" then nested_field fuel chars (pos + 1) (src ++ [c]) paren_depth (brace_depth + 1)
          else if c =? ch "}" then nested_field fuel chars (pos + 1) (src ++ [c]) paren_depth (brace_depth - 1)
          else if is_opening c then nested_field fuel chars (pos + 1) (src ++ [c]) (paren_depth + 1) brace_depth
          else if is_closing c then nested_field fuel chars (pos + 1) (src ++ [c]) (paren_depth - 1) brace_depth
          else if is_quote c then
            '(pos, src) ← consume_string_literal chars pos src c;
            nested_field fuel chars pos src paren_depth brace_depth
          else if (c =? ch "!") && (paren_depth =? 0)%nat && (brace_depth =? 0)%nat && negb (has_char (ch "=") chars (pos + 1)) then
            '(conv, pos) ← lex_conversion chars (pos + 1);
            if has_char (ch "}") chars pos then Return (src, Some conv, (pos + 1)%nat)
            else lex_err "expected '}' to close nested f-string expression"
          else nested_field fuel chars (pos + 1) (src ++ [c]) paren_depth brace_depth
      end
  end.

Definition push_literal (parts : list FStringPart.FStringPart) (literal : list Z) : list FStringPart.FStringPart :=
  if bool_decide (literal = []) then parts else parts ++ [FStringPart.Literal literal].

Fixpoint format_spec_loop (fuel : nat) (chars : list Z) (base pos : nat) (parts : list FStringPart.FStringPart) (literal : list Z) :
    outcome (list FStringPart.FStringPart * nat) :=
  match fuel with
  | O => OutOfFuel
  | S fuel =>
      match chars !! pos with
      | None => lex_err "unterminated f-string format spec"
      | Some c =>
          if c =? ch "}" then Return (push_literal parts literal, pos)
          else if c =? ch "{" then
            let parts := push_literal parts literal in
            line_offset ← count_newlines chars base pos;
            '(src, conversion, next) ← nested_field (scan_fuel chars (pos + 1)) chars (pos + 1) [] 0 0;
            let part := FStringPart.Expr (trim src) conversion None None None line_offset in
            format_spec_loop fuel chars base next (parts ++ [part]) []
          else format_spec_loop fuel chars base (pos + 1) parts (literal ++ encode_utf8 c)
      end
  end.

Definition lex_format_spec (chars : list Z) (pos base : nat) : outcome (list FStringPart.FStringPart * nat) :=
  format_spec_loop (scan_fuel chars pos) chars base pos [] [].

(** ** Replacement fields *)

Record FStringExpr : Type := {
  fe_src : list Z;
  fe_conversion : option Z;
  fe_format_spec : option (list FStringPart.FStringPart);
  fe_debug_text : option (list Z);
  fe_next : nat;
}.

(** The end of a field, at its colon or its closing brace. *)
Definition field_end (chars : list Z) (pos base : nat) (expr_src : list Z) (conversion : option Z) (debug_text : option (list Z)) :
    outcome FStringExpr :=
  '(format_spec, pos) ←
    (if has_char (ch ":") chars pos then
       '(spec, pos) ← lex_format_spec chars (pos + 1) base; Return (Some spec, pos)
     else Return (None, pos));
  if has_char (ch "}") chars pos then
    Return {| fe_src := expr_src; fe_conversion := conversion; fe_format_spec := format_spec; fe_debug_text := debug_text;
              fe_next := pos + 1 |}
  else lex_err "expected '}' to close f-string expression".

(** [src.trim_end_matches([' ', '\t']).ends_with(['!', '<', '>', '='])] *)
Definition ends_in_comparison (src : list Z) : bool :=
  match last (trim_end_matches is_blank src) with
  | Some c => (c =? ch "!") || (c =? ch "<") || (c =? ch ">") || (c =? ch "=")
  | None => false
  end.

Definition debug_marker (chars : list Z) (pos : nat) (src : list Z) : bool :=
  negb (has_char (ch "=") chars (pos + 1)) && negb (bool_decide (src = [])) && negb (ends_in_comparison src).

Fixpoint fstring_expr_loop (fuel : nat) (chars : list Z) (base pos : nat) (depth paren_depth : nat) (src : list Z) :
    outcome FStringExpr :=
  match fuel with
  | O => OutOfFuel
  | S fuel =>
      match chars !! pos with
      | None => lex_err "unterminated f-string expression"
      | Some c =>
          let top := (depth =? 0)%nat && (paren_depth =? 0)%nat in
          if (c =? ch "}") && top then
            Return {| fe_src := trim src; fe_conversion := None; fe_format_spec := None; fe_debug_text := None; fe_next := pos + 1 |}
          else if c =? ch "{" then fstring_expr_loop fuel chars base (pos + 1) (depth + 1) paren_depth (src ++ [c])
          else if c =? ch "}" then
            depth ← index_sub depth 1;
            fstring_expr_loop fuel chars base (pos + 1) depth paren_depth (src ++ [c])
          else if is_opening c then fstring_expr_loop fuel chars base (pos + 1) depth (paren_depth + 1) (src ++ [c])
          else if is_closing c then fstring_expr_loop fuel chars base (pos + 1) depth (paren_depth - 1) (src ++ [c])
          else if (c =? ch "=") && top && debug_marker chars pos src then
            let label_end := skip_while is_blank chars (pos + 1) in
            blanks ← char_slice chars (pos + 1) label_end;
            let debug_text := src ++ [ch "="] ++ blanks in
            '(conversion, pos) ←
              (if has_char (ch "!") chars label_end then
                 '(conv, pos) ← lex_conversion chars (label_end + 1); Return (Some conv, pos)
               else Return (None, label_end));
            field_end chars pos base (trim src) conversion (Some debug_text)
          else if (c =? ch "!") && top && negb (has_char (ch "=") chars (pos + 1)) then
            '(conv, pos) ← lex_conversion chars (pos + 1);
            field_end chars pos base (trim src) (Some conv) None
          else if (c =? ch ":") && top then field_end chars pos base (trim src) None None
          else if is_quote c then
            '(pos, src) ← consume_string_literal chars pos src c;
            fstring_expr_loop fuel chars base pos depth paren_depth src
          else fstring_expr_loop fuel chars base (pos + 1) depth paren_depth (src ++ [c])
      end
  end.

Definition lex_fstring_expr (chars : list Z) (start base : nat) : outcome FStringExpr :=
  fstring_expr_loop (scan_fuel chars start) chars base start 0 0 [].

(** ** F-strings *)

(** The columns of the field [open_idx..next), when it is on the line that
    starts at [line_start_pos]. *)
Definition field_columns (chars : list Z) (line_start_pos open_idx next : nat) : outcome (option (Z * Z)) :=
  let close_idx := (next - 1)%nat in
  if (line_start_pos <=? open_idx)%nat then
    span ← char_slice chars line_start_pos (close_idx `min` (length chars - 1) + 1);
    if bool_decide (LF ∈ span) then Return None
    else
      open_col ← index_sub open_idx line_start_pos;
      close_col ← index_sub (close_idx + 1) line_start_pos;
      Return (Some (as_u32 open_col, as_u32 close_col))
  else Return None.

(** After a backslash in literal text. *)
Definition fstring_escape (chars : list Z) (pos content_start : nat) (raw : bool) (next_ch : Z) : outcome (list Z * nat) :=
  if raw then Return (BACKSLASH :: encode_utf8 next_ch, (pos + 1)%nat) else escaped_text chars pos content_start next_ch.

Fixpoint fstring_loop (fuel : nat) (chars : list Z) (quote : Z) (raw triple : bool) (line_start_pos content_start pos : nat)
    (parts : list FStringPart.FStringPart) (literal : list Z) : outcome (Token.Token * nat) :=
  match fuel with
  | O => OutOfFuel
  | S fuel =>
      match chars !! pos with
      | None => lex_err "unterminated f-string"
      | Some c =>
          let continue := fstring_loop fuel chars quote raw triple line_start_pos content_start in
          if c =? quote then
            if triple then
              if has_char quote chars (pos + 1) && has_char quote chars (pos + 2)
              then Return (Token.FString (push_literal parts literal), (pos + 3)%nat)
              else continue (pos + 1)%nat parts (literal ++ encode_utf8 c)
            else Return (Token.FString (push_literal parts literal), (pos + 1)%nat)
          else if c =? ch "{" then
            if has_char (ch "{") chars (pos + 1) then continue (pos + 2)%nat parts (literal ++ [c])
            else
              let parts := push_literal parts literal in
              line_offset ← count_newlines chars content_start pos;
              field ← lex_fstring_expr chars (pos + 1) content_start;
              field_cols ← field_columns chars line_start_pos pos (fe_next field);
              let part := FStringPart.Expr (fe_src field) (fe_conversion field) (fe_format_spec field) (fe_debug_text field)
                field_cols line_offset in
              continue (fe_next field) (parts ++ [part]) []
          else if c =? ch "}" then
            if has_char (ch "}") chars (pos + 1) then continue (pos + 2)%nat parts (literal ++ [c])
            else lex_err "single '}' in f-string"
          else if c =? BACKSLASH then
            next_ch ← char_or chars (pos + 1) (Lex "unterminated escape in f-string");
            '(s, next_pos) ← fstring_escape chars (pos + 1) content_start raw next_ch;
            continue next_pos parts (literal ++ s)
          else continue (pos + 1)%nat parts (literal ++ encode_utf8 c)
      end
  end.

Definition lex_fstring (chars : list Z) (start : nat) (quote : Z) (raw : bool) (line_start_pos : nat) :
    outcome (Token.Token * nat) :=
  let triple := has_char quote chars start && has_char quote chars (start + 1) in
  let content_start := if triple then (start + 2)%nat else start in
  fstring_loop (scan_fuel chars content_start) chars quote raw triple line_start_pos content_start content_start [] [].
End fstrings.
