(* ===== verification/Lexer.v ===== *)
(** The lexer (crates/pyrust/src/lexer: scanner.rs, indentation.rs,
    identifiers.rs). *)

From stdpp Require Import strings.
From S2P Require Import Outcome Prelude Double Chars LexLiterals LexFStrings.

(** ** Identifiers *)

Definition keywords : list (string * Token.Token) :=
  [("and", Token.And); ("or", Token.Or); ("not", Token.Not); ("if", Token.If); ("elif", Token.Elif); ("else", Token.Else);
   ("while", Token.While); ("for", Token.For); ("in", Token.In); ("def", Token.Def); ("class", Token.Class_);
   ("try", Token.Try); ("except", Token.Except); ("finally", Token.Finally); ("raise", Token.Raise); ("as", Token.As);
   ("import", Token.Import_); ("from", Token.From_); ("global", Token.Global); ("nonlocal", Token.Nonlocal);
   ("return", Token.Return); ("yield", Token.Yield); ("break", Token.Break); ("continue", Token.Continue);
   ("pass", Token.Pass); ("del", Token.Del); ("assert", Token.Assert); ("lambda", Token.Lambda); ("with", Token.With);
   ("is", Token.Is); ("True", Token.True); ("False", Token.False); ("None", Token.None)].

Fixpoint find_keyword (text : list Z) (table : list (string * Token.Token)) : option Token.Token :=
  match table with
  | [] => None
  | (k, t) :: table => if bool_decide (chars_of k = text) then Some t else find_keyword text table
  end.

(** ** Operators

    The tokens made of punctuation, by their first character and the two after
    it: the token and its length. *)
Definition next_is (c : option Z) (a : ascii) : bool := bool_decide (c = Some (ch a)).

Definition operator (c : Z) (c1 c2 : option Z) : option (Token.Token * nat) :=
  let one t := Some (t, 1%nat) in
  let two t := Some (t, 2%nat) in
  let three t := Some (t, 3%nat) in
  let or_assign t assign := if next_is c1 "=" then two assign else one t in
  if c =? ch "+" then or_assign Token.Plus Token.PlusAssign
  else if c =? ch "-" then
    if next_is c1 "=" then two Token.MinusAssign else if next_is c1 ">" then two Token.Arrow else one Token.Minus
  else if c =? ch "@" then or_assign Token.At Token.AtAssign
  else if c =? ch ";" then one Token.Semicolon
  else if c =? ch "*" then
    if next_is c1 "*" then if next_is c2 "=" then three Token.StarStarAssign else two Token.StarStar
    else or_assign Token.Star Token.StarAssign
  else if c =? ch "/" then
    if next_is c1 "/" then if next_is c2 "=" then three Token.SlashSlashAssign else two Token.SlashSlash
    else or_assign Token.Slash Token.SlashAssign
  else if c =? ch "%" then or_assign Token.Percent Token.PercentAssign
  else if c =? ch "&" then or_assign Token.Ampersand Token.AmpersandAssign
  else if c =? ch "|" then or_assign Token.Pipe Token.PipeAssign
  else if c =? ch "^" then or_assign Token.Caret Token.CaretAssign
  else if c =? ch "~" then one Token.Tilde
  else if c =? ch "<" then
    if next_is c1 "<" then if next_is c2 "=" then three Token.LShiftAssign else two Token.LShift
    else or_assign Token.Lt Token.Le
  else if c =? ch ">" then
    if next_is c1 ">" then if next_is c2 "=" then three Token.RShiftAssign else two Token.RShift
    else or_assign Token.Gt Token.Ge
  else if c =? ch "(" then one Token.LParen
  else if c =? ch ")" then one Token.RParen
  else if c =? ch "[" then one Token.LBracket
  else if c =? ch "]" then one Token.RBracket
  else if c =? ch "{" then one Token.LBrace
  else if c =? ch "}" then one Token.RBrace
  else if c =? ch "," then one Token.Comma
  else if c =? ch ":" then or_assign Token.Colon Token.Walrus
  else if c =? ch "=" then or_assign Token.Assign Token.Eq
  else None.

(** What a token does to the depth of brackets. *)
Definition depth_after (t : Token.Token) (paren_depth : nat) : nat :=
  match t with
  | Token.LParen | Token.LBracket | Token.LBrace => (paren_depth + 1)%nat
  | Token.RParen | Token.RBracket | Token.RBrace => (paren_depth - 1)%nat
  | _ => paren_depth
  end.

(** ** The state of the lexer *)

Record Lexer : Type := {
  tokens : list Token.Token;
  line_nos : list Z;
  cols : list Z;
  cols_end : list Z;
  line : Z;
  line_start_pos : nat;
  cur_col : Z;
}.

Definition lexer_new : Lexer :=
  {| tokens := []; line_nos := []; cols := []; cols_end := []; line := 1; line_start_pos := 0; cur_col := 0 |}.

Definition emit (self : Lexer) (tok : Token.Token) : Lexer :=
  {| tokens := tokens self ++ [tok]; line_nos := line_nos self ++ [line self]; cols := cols self ++ [cur_col self];
     cols_end := cols_end self ++ [0]; line := line self; line_start_pos := line_start_pos self; cur_col := cur_col self |}.

Definition set_line (self : Lexer) (l : Z) (start : nat) : Lexer :=
  {| tokens := tokens self; line_nos := line_nos self; cols := cols self; cols_end := cols_end self; line := l;
     line_start_pos := start; cur_col := cur_col self |}.
Definition set_cur_col (self : Lexer) (col : Z) : Lexer :=
  {| tokens := tokens self; line_nos := line_nos self; cols := cols self; cols_end := cols_end self; line := line self;
     line_start_pos := line_start_pos self; cur_col := col |}.
Definition set_last_end (self : Lexer) (col : Z) : Lexer :=
  {| tokens := tokens self; line_nos := line_nos self; cols := cols self;
     cols_end := <[(length (cols_end self) - 1)%nat := col]> (cols_end self); line := line self;
     line_start_pos := line_start_pos self; cur_col := cur_col self |}.

(** [self.line += 1] *)
Definition next_line (l : Z) : outcome Z := if l + 1 <? 2 ^ 32 then Return (l + 1) else Panicked.

(** The loop of [advance_line_over], from index [i] of [chars]. *)
Fixpoint advance_lines (self : Lexer) (i : nat) (span : list Z) : outcome Lexer :=
  match span with
  | [] => Return self
  | c :: span =>
      if c =? LF then l ← next_line (line self); advance_lines (set_line self l (i + 1)) (i + 1) span
      else advance_lines self (i + 1) span
  end.

Definition advance_line_over (self : Lexer) (chars : list Z) (from to : nat) : outcome Lexer :=
  span ← char_slice chars from to; advance_lines self from span.

Definition into_tokens_with_pos (self : Lexer) : outcome (list Token.Token * list Z * list Z * list Z) :=
  _ ← lift (rassert (length (tokens self) =? length (line_nos self))%nat);
  _ ← lift (rassert (length (tokens self) =? length (cols self))%nat);
  _ ← lift (rassert (length (tokens self) =? length (cols_end self))%nat);
  Return (tokens self, line_nos self, cols self, cols_end self).

(** ** Indentation *)

Definition MAX_INDENT_LEVELS : nat := 100.

Definition count_indent_chars (chars : list Z) (start : nat) : outcome nat :=
  let pos := skip_while (Z.eqb (ch " ")) chars start in
  if has_char TAB chars pos then lex_err "tabs are not supported; use spaces" else Return (pos - start)%nat.

(** The stack is kept with its top first; it is never empty. *)
Fixpoint dedent (self : Lexer) (indent : nat) (stack : list nat) : outcome (Lexer * list nat) :=
  match stack with
  | [] => Panicked
  | top :: rest => if (indent <? top)%nat then dedent (emit self Token.Dedent) indent rest else Return (self, stack)
  end.

Definition handle_indent (self : Lexer) (indent : nat) (stack : list nat) : outcome (Lexer * list nat) :=
  match stack with
  | [] => Panicked
  | current :: _ =>
      if (current <? indent)%nat then
        if (MAX_INDENT_LEVELS <=? length stack)%nat then lex_err "too many levels of indentation"
        else Return (emit self Token.Indent, indent :: stack)
      else if (indent <? current)%nat then
        '(self, stack) ← dedent self indent stack;
        match stack with
        | [] => Panicked
        | after :: _ => if (indent =? after)%nat then Return (self, stack) else lex_err "inconsistent indentation"
        end
      else Return (self, stack)
  end.

(** [while indent_stack.len() > 1] *)
Fixpoint close_indents (self : Lexer) (stack : list nat) : Lexer :=
  match stack with
  | _ :: (_ :: _) as rest => close_indents (emit self Token.Dedent) rest
  | _ => self
  end.

Section lexer.
  Context {B : Type} `{BigIntText B, Unicode} (int_limit : Z).

Definition lex_ident_or_keyword (chars : list Z) (start : nat) : Token.Token * nat :=
  let pos := skip_while ident_continue chars start in
  let text := take (pos - start) (drop start chars) in
  (default (Token.Ident text) (find_keyword text keywords), pos).

(** A quote at [pos]; a letter, of either case, there. *)
Definition quote_at (chars : list Z) (pos : nat) : bool := at_pos is_quote chars pos.
Definition letter_at (lower upper : ascii) (chars : list Z) (pos : nat) : bool :=
  at_pos (λ c, (c =? ch lower) || (c =? ch upper)) chars pos.

(** A token that starts with a letter: a prefixed literal or a name. *)
Definition lex_word (chars : list Z) (pos line_start_pos : nat) : outcome (Token.Token * nat) :=
  if (letter_at "r" "R" chars pos && letter_at "f" "F" chars (pos + 1) && quote_at chars (pos + 2))
     || (letter_at "f" "F" chars pos && letter_at "r" "R" chars (pos + 1) && quote_at chars (pos + 2)) then
    quote ← char_at chars (pos + 2); lex_fstring chars (pos + 3) quote true line_start_pos
  else if letter_at "f" "F" chars pos && quote_at chars (pos + 1) then
    quote ← char_at chars (pos + 1); lex_fstring chars (pos + 2) quote false line_start_pos
  else if letter_at "b" "B" chars pos && quote_at chars (pos + 1) then lex_bytes chars (pos + 1) false
  else if letter_at "b" "B" chars pos && letter_at "r" "R" chars (pos + 1) && quote_at chars (pos + 2) then
    lex_bytes chars (pos + 2) true
  else if letter_at "r" "R" chars pos && quote_at chars (pos + 1) then lex_string chars (pos + 1) true
  else if letter_at "r" "R" chars pos && letter_at "b" "B" chars (pos + 1) && quote_at chars (pos + 2) then
    lex_bytes chars (pos + 2) true
  else if letter_at "u" "U" chars pos && quote_at chars (pos + 1) then lex_string chars (pos + 1) false
  else Return (lex_ident_or_keyword chars pos).

(** The token at [pos], whose first character is [c]; layout, comments and
    backslashes are not tokens. *)
Definition lex_token (chars : list Z) (pos line_start_pos : nat) (c : Z) : outcome (Token.Token * nat) :=
  if is_ascii_digit c then lex_number int_limit chars pos
  else if is_ascii_letter c || (c =? ch "_") then lex_word chars pos line_start_pos
  else if is_quote c then lex_string chars pos false
  else if c =? ch "." then
    if has_char (ch ".") chars (pos + 1) && has_char (ch ".") chars (pos + 2) then Return (Token.Ellipsis, (pos + 3)%nat)
    else if at_pos is_ascii_digit chars (pos + 1) then lex_leading_dot_float chars pos
    else Return (Token.Dot, (pos + 1)%nat)
  else if c =? ch "!" then
    if has_char (ch "=") chars (pos + 1) then Return (Token.Ne, (pos + 2)%nat) else lex_err "expected '=' after '!'"
  else
    match operator c (chars !! (pos + 1)%nat) (chars !! (pos + 2)%nat) with
    | Some (t, width) => Return (t, (pos + width)%nat)
    | None => if alphabetic c then Return (lex_ident_or_keyword chars pos) else lex_err "invalid syntax"
    end.
(** ** Lines *)

(** The end of an iteration: the end column of the token emitted in it, and
    the lines it crossed. *)
Definition finish_token (self : Lexer) (chars : list Z) (tok_start pos tokens_before : nat) (line_before : Z) : outcome Lexer :=
  self ←
    (if (tokens_before <? length (tokens self))%nat && (line_before =? line self) then
       span ← char_slice chars tok_start pos;
       if bool_decide (LF ∈ span) then Return self
       else Return (set_last_end self (as_u32 (pos - line_start_pos self)))
     else Return self);
  if (tok_start <? pos)%nat then advance_line_over self chars tok_start pos else Return self.

Fixpoint line_loop (fuel : nat) (self : Lexer) (chars : list Z) (pos paren_depth : nat) (line_continued : bool) :
    outcome (Lexer * nat * nat) :=
  match fuel with
  | O => OutOfFuel
  | S fuel =>
      let tok_start := pos in
      let self := set_cur_col self (as_u32 (tok_start - line_start_pos self)) in
      let tokens_before := length (tokens self) in
      let line_before := line self in
      (* What follows the match of an iteration. *)
      let finish self pos paren_depth line_continued :=
        self ← finish_token self chars tok_start pos tokens_before line_before;
        line_loop fuel self chars pos paren_depth line_continued in
      match chars !! pos with
      | None =>
          let self := if (paren_depth =? 0)%nat && negb line_continued then emit self Token.Newline else self in
          Return (self, (length chars + 1)%nat, paren_depth)
      | Some c =>
          if c =? LF then
            if line_continued : bool then
              l ← next_line (line self);
              line_loop fuel (set_line self l (pos + 1)) chars (skip_while is_blank chars (pos + 1)) paren_depth false
            else
              let self := if (paren_depth =? 0)%nat then emit self Token.Newline else self in
              l ← next_line (line self);
              Return (set_line self l (line_start_pos self), (pos + 1)%nat, paren_depth)
          else if (c =? CR) || is_blank c then finish self (pos + 1)%nat paren_depth line_continued
          else if c =? ch "#" then finish self (skip_while (λ c, negb (c =? LF)) chars pos) paren_depth line_continued
          else if c =? BACKSLASH then finish self (pos + 1)%nat paren_depth true
          else
            '(tok, next) ← lex_token chars pos (line_start_pos self) c;
            finish (emit self tok) next (depth_after tok paren_depth) line_continued
      end
  end.

Definition lex_line_tokens (self : Lexer) (chars : list Z) (start paren_depth : nat) : outcome (Lexer * nat * nat) :=
  line_loop (scan_fuel chars start) self chars start paren_depth false.

Fixpoint source_loop (fuel : nat) (self : Lexer) (chars : list Z) (pos : nat) (indent_stack : list nat) (paren_depth : nat) :
    outcome (Lexer * list nat) :=
  match fuel with
  | O => OutOfFuel
  | S fuel =>
      if (pos <=? length chars)%nat then
        let self := set_line self (line self) pos in
        indent ← count_indent_chars chars pos;
        let content_start := (pos + indent)%nat in
        let eol := skip_while (λ c, negb (c =? LF)) chars content_start in
        line_end ←
          (if (0 <? eol)%nat then
             before ← char_at chars (eol - 1);
             Return (if before =? CR then (eol - 1)%nat else eol)
           else Return eol);
        visible ← char_slice chars content_start line_end;
        if bool_decide (trim visible = []) || has_char (ch "#") (trim_start visible) 0 then
          let self := if (paren_depth =? 0)%nat then emit self Token.Newline else self in
          if (eol <? length chars)%nat then
            l ← next_line (line self);
            source_loop fuel (set_line self l (line_start_pos self)) chars (eol + 1) indent_stack paren_depth
          else source_loop fuel self chars (length chars + 1) indent_stack paren_depth
        else
          '(self, indent_stack) ←
            (if (paren_depth =? 0)%nat then handle_indent self indent indent_stack else Return (self, indent_stack));
          '(self, pos, paren_depth) ← lex_line_tokens self chars content_start paren_depth;
          source_loop fuel self chars pos indent_stack paren_depth
      else Return (self, indent_stack)
  end.

(** Each iteration takes at least the line feed of its line, and the last one
    the end of the source. *)
Definition lex_source (self : Lexer) (chars : list Z) : outcome Lexer :=
  '(self, indent_stack) ← source_loop (length chars + 2) self chars 0 [0%nat] 0;
  Return (emit (close_indents self indent_stack) Token.Eof).

Definition lexer (chars : list Z) : outcome Lexer := lex_source lexer_new chars.
End lexer.
