(* ===== verification/LexBounds.v ===== *)
(** What the sub-lexers return: a position further on and within the source, an
    error, or, where a brace inside a replacement field is unbalanced, a
    panic; and that the fuel of every loop is enough. *)

From stdpp Require Import strings.
From S2P Require Import Outcome Prelude Double Chars LexLiterals LexFStrings Lexer.

(** ** Outcomes *)

(** A result with a property, a lexical error, or a panic that is accounted for. *)
Definition ends {A} (panics : Prop) (m : outcome A) (Q : A → Prop) : Prop :=
  match m with
  | Return a => Q a
  | Raise e => ∃ message, e = Lex message
  | Panicked => panics
  | OutOfFuel => False
  end.

Lemma bind_Return {A B} (a : A) (f : A → outcome B) : mbind f (Return a) = f a.
Proof. done. Qed.

Section ends.
  Context (panics : Prop).

Lemma ends_Return {A} (a : A) (Q : A → Prop) : Q a → ends panics (Return a) Q.
Proof. done. Qed.

Lemma ends_err {A} message (Q : A → Prop) : ends panics (lex_err message) Q.
Proof. by exists message. Qed.

Lemma ends_bind {A B} (m : outcome A) (f : A → outcome B) Q :
  ends panics m (λ a, ends panics (f a) Q) → ends panics (m ≫= f) Q.
Proof. by destruct m. Qed.

Lemma ends_mono {A} (m : outcome A) (Q Q' : A → Prop) : ends panics m Q → (∀ a, Q a → Q' a) → ends panics m Q'.
Proof. destruct m; cbn; auto. Qed.

(** The property of a result, with the fact that it is the result. *)
Lemma ends_run {A} (m : outcome A) (Q Q' : A → Prop) :
  ends panics m Q → (∀ a, m = Return a → Q a → Q' a) → ends panics m Q'.
Proof. destruct m; cbn; auto. Qed.

Lemma ends_if {A} (b : bool) (m m' : outcome A) Q :
  (b = true → ends panics m Q) → (b = false → ends panics m' Q) → ends panics (if b then m else m') Q.
Proof. destruct b; auto. Qed.
End ends.

Lemma ends_panics {A} (P P' : Prop) (m : outcome A) Q : (P → P') → ends P m Q → ends P' m Q.
Proof. destruct m; cbn; auto. Qed.

(** ** Positions *)

Section positions.
  Context (chars : list Z).
  Abbreviation len := (length chars).

Lemma at_pos_lt p pos : at_pos p chars pos = true → (pos < len)%nat.
Proof. unfold at_pos. destruct (chars !! pos) eqn:Hc; [|done]. intros _. by eapply lookup_lt_Some. Qed.

Lemma has_char_eq c pos : has_char c chars pos = true ↔ chars !! pos = Some c.
Proof.
  unfold has_char, at_pos. destruct (chars !! pos) as [d|]; [|done]. rewrite Z.eqb_eq. split; [by intros ->|by intros [= ->]].
Qed.

Lemma has_char_lt c pos : has_char c chars pos = true → (pos < len)%nat.
Proof. apply at_pos_lt. Qed.

Lemma prefix_len_le p cs : (prefix_len p cs <= length cs)%nat.
Proof. induction cs as [|c cs IH]; cbn; [lia|]. destruct (p c); lia. Qed.

Lemma skip_while_le p pos : (pos <= len)%nat → (pos <= skip_while p chars pos <= len)%nat.
Proof. intros Hp. unfold skip_while. pose proof (prefix_len_le p (drop pos chars)) as H. rewrite length_drop in H. lia. Qed.

Lemma skip_while_gt p pos : at_pos p chars pos = true → (pos < skip_while p chars pos)%nat.
Proof.
  unfold at_pos, skip_while. destruct (chars !! pos) as [c|] eqn:Hc; [|done]. intros Hp. rewrite (drop_S _ _ _ Hc). cbn. rewrite Hp. lia.
Qed.

Lemma prefix_len_lookup p cs i : (i < prefix_len p cs)%nat → ∃ c, cs !! i = Some c ∧ p c = true.
Proof.
  revert i. induction cs as [|c cs IH]; intros i Hi; cbn in *; [lia|]. destruct (p c) eqn:Hp; [|lia].
  destruct i as [|i]; [by exists c|]. apply IH. lia.
Qed.

Lemma prefix_len_stop p cs c : cs !! prefix_len p cs = Some c → p c = false.
Proof.
  induction cs as [|d cs IH]; cbn; [done|]. destruct (p d) eqn:Hp; [apply IH|]. by intros [= <-].
Qed.

Lemma skip_while_between p pos i : (pos <= i < skip_while p chars pos)%nat → ∃ c, chars !! i = Some c ∧ p c = true.
Proof.
  unfold skip_while. intros Hi. destruct (prefix_len_lookup p (drop pos chars) (i - pos)) as (c & Hc & Hp); [lia|].
  rewrite lookup_drop in Hc. exists c. by replace (pos + (i - pos))%nat with i in Hc by lia.
Qed.

Lemma skip_while_stop p pos : at_pos p chars (skip_while p chars pos) = false.
Proof.
  unfold at_pos, skip_while. destruct (chars !! _) eqn:Hc; [|done]. rewrite <- lookup_drop in Hc. by eapply prefix_len_stop.
Qed.

Lemma char_slice_eq a b : (a <= b)%nat → (b <= len)%nat → char_slice chars a b = Return (take (b - a) (drop a chars)).
Proof. intros Ha Hb. unfold char_slice. by rewrite (proj2 (Nat.leb_le a b) Ha), (proj2 (Nat.leb_le b _) Hb). Qed.

Lemma char_at_eq pos c : chars !! pos = Some c → char_at chars pos = Return c.
Proof. intros Hc. unfold char_at, vnth. by rewrite Hc. Qed.

Lemma index_sub_eq a b : (b <= a)%nat → index_sub a b = Return (a - b)%nat.
Proof. intros Hb. unfold index_sub. by rewrite (proj2 (Nat.leb_le b a) Hb). Qed.

Lemma char_or_ends P pos message (Q : Z → Prop) :
  (∀ c, chars !! pos = Some c → (pos < len)%nat → Q c) → ends P (char_or chars pos (Lex message)) Q.
Proof.
  intros HQ. unfold char_or. destruct (chars !! pos) as [c|] eqn:Hc; [apply HQ; [done|by eapply lookup_lt_Some]|by exists message].
Qed.

(** A position after [start], in the source. *)
Definition after {A} (start : nat) (r : A * nat) : Prop := (start < r.2 <= len)%nat.
End positions.

(** The next step of a goal [ends]. *)
Ltac estep :=
  match goal with
  | |- ends _ (Return _) _ => cbn
  | |- ends _ (lex_err _) _ => apply ends_err
  | |- ends _ (Raise (Lex _)) _ => by eexists
  | |- ends _ (mbind _ (mbind _ _)) _ => apply ends_bind
  | |- ends _ (mbind _ (Return _)) _ => rewrite bind_Return; cbn beta
  | |- ends _ (mbind _ (char_or _ _ (Lex _))) _ => apply ends_bind, char_or_ends; intros ???
  | |- ends _ (mbind _ (char_slice ?cs ?a ?b)) _ => rewrite (char_slice_eq cs a b) by lia; rewrite bind_Return; cbn beta
  | |- ends _ (if ?b then _ else _) _ => destruct b eqn:?
  | |- ends _ (match ?x with Some _ => _ | None => _ end) _ => destruct x eqn:?
  | |- ends _ (let '(_, _) := ?x in _) _ => destruct x eqn:?
  end.

(** Bounds from tests that held. *)
Ltac pos_facts :=
  repeat match goal with
  | H : _ && _ = true |- _ => apply andb_prop in H as [? ?]
  | H : has_char _ _ _ = true |- _ => apply has_char_lt in H
  | H : at_pos _ _ _ = true |- _ => apply at_pos_lt in H
  | H : (_ <? _)%nat = true |- _ => apply Nat.ltb_lt in H
  | H : (_ <=? _)%nat = true |- _ => apply Nat.leb_le in H
  | H : (_ <=? _)%nat = false |- _ => apply Nat.leb_gt in H
  | H : (_ <? _)%nat = false |- _ => apply Nat.ltb_ge in H
  | H : ?chars !! ?pos = Some _ |- _ =>
      lazymatch goal with
      | _ : (pos < length chars)%nat |- _ => fail
      | _ => assert (pos < length chars)%nat by (by eapply lookup_lt_Some)
      end
  end.

(** ** Numbers *)

Section numbers.
  Context {B : Type} `{BigIntText B} (limit : Z) (P : Prop) (chars : list Z).
  Abbreviation len := (length chars).

Lemma skip_exponent_le pos : (pos <= len)%nat → (pos <= skip_exponent chars pos <= len)%nat.
Proof.
  intros Hp. unfold skip_exponent. destruct (at_pos is_e chars pos) eqn:He; [|lia]. apply at_pos_lt in He.
  destruct (at_pos is_sign chars (pos + 1)) eqn:Hs.
  - apply at_pos_lt in Hs. pose proof (skip_while_le chars digit_or_underscore (pos + 1 + 1)). lia.
  - pose proof (skip_while_le chars digit_or_underscore (pos + 1)). lia.
Qed.

Lemma float_token_ends start pos : (start < pos <= len)%nat → ends P (float_token chars start pos) (after chars start).
Proof.
  intros Hp. unfold float_token. estep. apply ends_bind. unfold validate_decimal_underscores. estep; [estep|by estep].
  estep; [|estep]. estep; unfold after; cbn; pos_facts; lia.
Qed.

Lemma lex_leading_dot_float_ends start :
  (start < len)%nat → ends P (lex_leading_dot_float chars start) (after chars start).
Proof.
  intros Hs. unfold lex_leading_dot_float. apply float_token_ends.
  pose proof (skip_while_le chars digit_or_underscore (start + 1)).
  pose proof (skip_exponent_le (skip_while digit_or_underscore chars (start + 1))). lia.
Qed.

Lemma lex_radix_ends start pos radix is_digit kind :
  (start < pos <= len)%nat → ends P (lex_radix chars pos radix is_digit kind) (after chars start).
Proof.
  intros Hp. unfold lex_radix. pose proof (skip_while_le chars (λ c, is_digit c || (c =? ch "_")) pos). estep. estep; [estep|].
  apply ends_bind. unfold validate_underscores. estep; [estep|by estep].
  estep; [estep; unfold after; cbn; lia|]. estep; [estep; unfold after; cbn; lia|estep].
Qed.

Lemma lex_decimal_ends start int_end pos :
  (start <= int_end)%nat → (int_end <= len)%nat → (start < pos <= len)%nat → ends P (lex_decimal limit chars start int_end pos) (after chars start).
Proof.
  intros H1 H2 Hp. unfold lex_decimal. estep. apply ends_bind. unfold validate_decimal_underscores. estep; [estep|by estep].
  apply ends_bind. unfold check_leading_zero. estep; [by estep|estep]. estep; [estep; unfold after; cbn; lia|].
  apply ends_bind. unfold check_int_parse_digits. destruct (_ || _); [cbn|].
  - estep; [estep; unfold after; cbn; lia|estep].
  - destruct (limit <? _); [apply ends_err|]. cbn. estep; [estep; unfold after; cbn; lia|estep].
Qed.

Lemma lex_number_ends start : at_pos is_ascii_digit chars start = true → ends P (lex_number limit chars start) (after chars start).
Proof.
  intros Hd. assert (Hlt := at_pos_lt _ _ _ Hd). unfold lex_number, has_prefix.
  do 3 (estep; [pos_facts; apply lex_radix_ends; lia|]).
  assert (Hgt : (start < skip_while digit_or_underscore chars start)%nat).
  { apply skip_while_gt. unfold at_pos in *. destruct (chars !! start); [|done]. unfold digit_or_underscore. by rewrite Hd. }
  pose proof (skip_while_le chars digit_or_underscore start ltac:(lia)) as Hle.
  set (pos := skip_while digit_or_underscore chars start) in *. cbn zeta.
  destruct (has_char (ch ".") chars pos) eqn:Hdot.
  - apply has_char_lt in Hdot. apply float_token_ends. pose proof (skip_while_le chars digit_or_underscore (pos + 1)).
    pose proof (skip_exponent_le (skip_while digit_or_underscore chars (pos + 1))). lia.
  - set (exp_start := if at_pos is_e chars pos then _ else pos). set (exp_end := if at_pos is_e chars pos then _ else pos).
    assert (Hexp : (pos <= exp_start <= len)%nat ∧ (exp_start <= exp_end <= len)%nat).
    { unfold exp_start, exp_end. destruct (at_pos is_e chars pos) eqn:He; [|lia]. apply at_pos_lt in He. unfold exp_start.
      destruct (at_pos is_sign chars (pos + 1)) eqn:Hsg; pos_facts.
      - pose proof (skip_while_le chars digit_or_underscore (pos + 2)). lia.
      - pose proof (skip_while_le chars digit_or_underscore (pos + 1)). lia. }
    destruct (at_pos is_e chars pos && _); [apply float_token_ends; lia|].
    destruct (at_pos is_j chars exp_end) eqn:Hj; [|apply lex_decimal_ends; lia]. apply at_pos_lt in Hj.
    estep. apply ends_bind. unfold validate_decimal_underscores. estep; [estep|by estep].
    estep; [estep; unfold after; cbn; lia|estep].
Qed.
End numbers.

(** ** Strings and bytes *)

Section strings.
  Context `{Unicode} (P : Prop) (chars : list Z).
  Abbreviation len := (length chars).

Lemma collect_chars_ends pos n message :
  ends P (collect_chars chars pos n (Lex message)) (λ cs, length cs = n ∧ (n = 0 ∨ pos + n < len)%nat).
Proof.
  revert pos. induction n as [|n IH]; intros pos; cbn [collect_chars]; [cbn; lia|]. estep. apply ends_bind.
  eapply ends_mono; [apply IH|]. intros cs [Hlen Hn]. cbn. lia.
Qed.

Lemma octal_escape_bounds c pos : (pos < len)%nat → after chars pos (octal_escape chars c pos).
Proof.
  intros Hp. unfold octal_escape. unfold after. destruct (chars !! (pos + 1)%nat) eqn:H1; [|cbn; lia].
  destruct (is_octal z); [|cbn; lia]. destruct (chars !! (pos + 2)%nat) eqn:H2; [destruct (is_octal z0)|]; pos_facts; cbn; lia.
Qed.

Lemma hex_escape_ends pos incomplete invalid :
  ends P (hex_escape chars pos incomplete invalid) (λ _, (pos + 2 < len)%nat).
Proof. unfold hex_escape. estep. estep. estep; [estep; lia|estep]. Qed.

Lemma named_escape_ends pos content_start :
  (content_start < pos)%nat → (pos < len)%nat → ends P (named_escape chars pos content_start) (after chars pos).
Proof.
  intros Hs Hp. unfold named_escape. rewrite index_sub_eq by lia. rewrite bind_Return. cbn beta. estep.
  destruct (has_char (ch "{") chars (pos + 1)) eqn:Hb; cbn [negb]; [|apply ends_err]. apply has_char_lt in Hb.
  pose proof (skip_while_le chars (λ c, negb (c =? ch "}")) (pos + 2) ltac:(lia)) as Hle.
  set (fin := skip_while _ chars (pos + 2)) in *. destruct (Nat.leb_spec len fin) as [Hf|Hf].
  - estep. apply ends_err.
  - estep. estep; [apply ends_err|]. estep. estep; [estep; unfold after; cbn; lia|apply ends_err].
Qed.

Lemma parse_escape_ends pos content_start :
  (content_start < pos)%nat → ends P (parse_escape chars pos content_start) (after chars pos).
Proof.
  intros Hs. unfold parse_escape. apply ends_bind, char_or_ends. intros c Hc Hlt. unfold after.
  estep; [cbn; lia|]. estep.
  { pose proof (octal_escape_bounds c pos ltac:(lia)) as Ho. unfold after in Ho. destruct (octal_escape chars c pos) as [val fin]. cbn in Ho.
    estep; [cbn; lia|estep]. }
  estep. { apply ends_bind. eapply ends_mono; [apply hex_escape_ends|]. cbn. lia. }
  estep. { apply ends_bind. eapply ends_mono; [apply collect_chars_ends|]. intros cs [_ Hl]. cbn beta. estep; [|estep]. estep; [cbn; lia|estep]. }
  estep. { apply ends_bind. eapply ends_mono; [apply collect_chars_ends|]. intros cs [_ Hl]. cbn beta.
    estep; [|estep]. estep; [estep|]. estep; [cbn; lia|estep]. }
  estep; [by apply named_escape_ends|]. cbn. lia.
Qed.

Lemma escaped_text_ends pos content_start escaped :
  (content_start < pos)%nat → (pos < len)%nat → ends P (escaped_text chars pos content_start escaped) (after chars pos).
Proof.
  intros Hs Hp. unfold escaped_text, after. estep; [cbn; lia|]. estep; [|by apply parse_escape_ends].
  cbn. destruct (has_char LF chars (pos + 1)) eqn:Hl; pos_facts; lia.
Qed.

Lemma bytes_escape_ends pos esc : (pos < len)%nat → ends P (bytes_escape chars pos esc) (after chars pos).
Proof.
  intros Hp. unfold bytes_escape, after. estep; [cbn; lia|]. estep.
  { pose proof (octal_escape_bounds esc pos Hp) as Ho. unfold after in Ho. destruct (octal_escape chars esc pos). cbn in *. lia. }
  estep. { apply ends_bind. eapply ends_mono; [apply hex_escape_ends|]. cbn. lia. }
  estep; [cbn; lia|]. estep; [cbn; destruct (has_char LF chars (pos + 1)) eqn:Hl; pos_facts; lia|].
  apply ends_bind. unfold ascii_byte, not_ascii_error. estep; [by estep|]. cbn. lia.
Qed.

Lemma ascii_byte_ends c (Q : Z → Prop) : (c ≤ 127 → Q c) → ends P (ascii_byte c) Q.
Proof. intros HQ. unfold ascii_byte, not_ascii_error. destruct (Z.ltb_spec 127 c); [by eexists|]. by apply HQ. Qed.

Lemma closes_triple_lt quote pos : closes_triple chars quote pos = true → (pos + 2 < len)%nat.
Proof. unfold closes_triple. intros Hc. pos_facts. lia. Qed.

(** The invariant of the four loops: still in the source, with fuel for what is left. *)
Definition scanning (fuel content_start pos : nat) : Prop := (content_start <= pos <= len)%nat ∧ (len - pos < fuel)%nat.

Lemma scanning_start pos : (pos <= len)%nat → scanning (scan_fuel chars pos) pos pos.
Proof. unfold scanning, scan_fuel. lia. Qed.

Ltac next_char := eapply ends_mono; [match goal with IH : _ |- _ => apply IH end; unfold scanning, after in *; cbn in *; lia|];
  unfold after in *; intros [??]; cbn in *; lia.

Lemma triple_string_loop_ends fuel quote raw content_start pos out :
  scanning fuel content_start pos → ends P (triple_string_loop fuel chars quote raw content_start pos out) (after chars pos).
Proof.
  revert pos out. induction fuel as [|fuel IH]; intros pos out [Hpos Hfuel]; [lia|]. cbn [triple_string_loop].
  destruct (closes_triple chars quote pos) eqn:Hc; [apply closes_triple_lt in Hc; unfold after; cbn; lia|].
  estep; [|estep]. pos_facts. estep; [destruct raw|].
  - unfold raw_string_error. estep. next_char.
  - estep. apply ends_bind. eapply ends_mono; [apply escaped_text_ends; lia|]. intros [s next] Hn. cbn beta iota. next_char.
  - estep; [|next_char]. cbn zeta. destruct (has_char LF chars (pos + 1)) eqn:Hl; pos_facts; next_char.
Qed.

Lemma string_loop_ends fuel quote raw content_start pos out :
  scanning fuel content_start pos → ends P (string_loop fuel chars quote raw content_start pos out) (after chars pos).
Proof.
  revert pos out. induction fuel as [|fuel IH]; intros pos out [Hpos Hfuel]; [lia|]. cbn [string_loop].
  estep; [|estep]. pos_facts. estep; [unfold after; cbn; lia|]. estep; [destruct raw|next_char].
  - unfold raw_string_error. estep. next_char.
  - estep. apply ends_bind. eapply ends_mono; [apply escaped_text_ends; lia|]. intros [s next] Hn. cbn beta iota. next_char.
Qed.

Lemma triple_bytes_loop_ends fuel quote raw pos out :
  scanning fuel 0 pos → ends P (triple_bytes_loop fuel chars quote raw pos out) (after chars pos).
Proof.
  revert pos out. induction fuel as [|fuel IH]; intros pos out [Hpos Hfuel]; [lia|]. cbn [triple_bytes_loop].
  destruct (closes_triple chars quote pos) eqn:Hc; [apply closes_triple_lt in Hc; unfold after; cbn; lia|].
  estep; [|estep]. pos_facts. estep; [destruct raw|].
  - unfold raw_bytes_error. estep. apply ends_bind, ascii_byte_ends. intros _. next_char.
  - estep. apply ends_bind. eapply ends_mono; [apply bytes_escape_ends; lia|]. intros [s next] Hn. cbn beta iota. next_char.
  - estep; [cbn zeta; destruct (has_char LF chars (pos + 1)) eqn:Hl; pos_facts; next_char|].
    apply ends_bind, ascii_byte_ends. intros _. next_char.
Qed.

Lemma bytes_loop_ends fuel quote raw pos out :
  scanning fuel 0 pos → ends P (bytes_loop fuel chars quote raw pos out) (after chars pos).
Proof.
  revert pos out. induction fuel as [|fuel IH]; intros pos out [Hpos Hfuel]; [lia|]. cbn [bytes_loop].
  estep; [|estep]. pos_facts. estep; [unfold after; cbn; lia|]. estep; [destruct raw|].
  - unfold raw_bytes_error. estep. apply ends_bind, ascii_byte_ends. intros _. next_char.
  - estep. apply ends_bind. eapply ends_mono; [apply bytes_escape_ends; lia|]. intros [s next] Hn. cbn beta iota. next_char.
  - apply ends_bind, ascii_byte_ends. intros _. next_char.
Qed.

Lemma opens_triple_lt quote start : opens_triple chars quote start = true → (start + 2 < len)%nat.
Proof. unfold opens_triple. intros Ho. pos_facts. lia. Qed.

Lemma lex_string_ends start raw : (start < len)%nat → ends P (lex_string chars start raw) (after chars start).
Proof.
  intros Hs. destruct (lookup_lt_is_Some_2 chars start Hs) as [q Hq]. unfold lex_string. rewrite (char_at_eq _ _ _ Hq), bind_Return. cbn beta.
  estep.
  - apply opens_triple_lt in Heqb. eapply ends_mono; [apply triple_string_loop_ends, scanning_start; lia|]. unfold after. intros [??]. cbn. lia.
  - eapply ends_mono; [apply string_loop_ends, scanning_start; lia|]. unfold after. intros [??]. cbn. lia.
Qed.

Lemma lex_bytes_ends start raw : (start < len)%nat → ends P (lex_bytes chars start raw) (after chars start).
Proof.
  intros Hs. destruct (lookup_lt_is_Some_2 chars start Hs) as [q Hq]. unfold lex_bytes. rewrite (char_at_eq _ _ _ Hq), bind_Return. cbn beta.
  assert (Hfuel : ∀ p, (p <= len)%nat → scanning (scan_fuel chars p) 0 p) by (unfold scanning, scan_fuel; lia).
  estep.
  - apply opens_triple_lt in Heqb. eapply ends_mono; [apply triple_bytes_loop_ends, Hfuel; lia|]. unfold after. intros [??]. cbn. lia.
  - eapply ends_mono; [apply bytes_loop_ends, Hfuel; lia|]. unfold after. intros [??]. cbn. lia.
Qed.
End strings.

(** ** F-strings *)

(** The one way to panic: in debug builds the depth of braces is checked, and a
    brace closes a field in which a parenthesis or bracket is still open. *)
Definition unbalanced_field (chars : list Z) : Prop :=
  ∃ i j k, (i < j < k)%nat ∧ chars !! i = Some (ch "{") ∧ at_pos is_opening chars j = true ∧ chars !! k = Some (ch "}").

Section fstrings.
  Context `{Unicode} (P : Prop) (chars : list Z) (HP : unbalanced_field chars → P).
  Abbreviation len := (length chars).

Ltac next_loop := eapply ends_mono; [match goal with IH : _ |- _ => apply IH end; unfold scanning, after in *; cbn in *; lia|];
  unfold after in *; intros [??]; cbn in *; lia.

Lemma count_newlines_ends from to (Q : Z → Prop) :
  (from <= to)%nat → (from <= len)%nat → (∀ n, Q n) → ends P (count_newlines chars from to) Q.
Proof using Type. intros Hf Hl HQ. unfold count_newlines. rewrite char_slice_eq by lia. cbn. auto. Qed.

Lemma consume_triple_ends fuel q pos src :
  scanning chars fuel 0 pos → ends P (consume_triple fuel chars q pos src) (λ r, (pos <= r.1 <= len)%nat).
Proof using Type.
  revert pos src. induction fuel as [|fuel IH]; intros pos src [Hpos Hfuel]; [lia|]. cbn [consume_triple].
  estep; [|estep; lia]. pos_facts. estep; [estep; pos_facts; lia|]. estep; [estep; pos_facts|]; next_loop.
Qed.

Lemma consume_single_ends fuel q pos src :
  scanning chars fuel 0 pos → ends P (consume_single fuel chars q pos src) (λ r, (pos <= r.1 <= len)%nat).
Proof using Type.
  revert pos src. induction fuel as [|fuel IH]; intros pos src [Hpos Hfuel]; [lia|]. cbn [consume_single]. cbn zeta.
  estep; [|estep; lia]. pos_facts. estep; [estep; lia|]. estep; [estep; pos_facts|]; next_loop.
Qed.

Lemma consume_string_literal_ends pos src q :
  (pos < len)%nat → ends P (consume_string_literal chars pos src q) (λ r, (pos < r.1 <= len)%nat).
Proof using Type.
  intros Hp. unfold consume_string_literal. destruct (opens_triple chars q pos) eqn:Ho.
  - apply opens_triple_lt in Ho. eapply ends_mono; [apply consume_triple_ends; unfold scanning, scan_fuel; lia|]. intros [??]. cbn. lia.
  - eapply ends_mono; [apply consume_single_ends; unfold scanning, scan_fuel; lia|]. intros [??]. cbn. lia.
Qed.

Lemma lex_conversion_ends pos : ends P (lex_conversion chars pos) (after chars pos).
Proof using Type.
  assert (Herr : ∀ segment, ends P (Raise (fstring_conversion_error chars pos segment) : outcome (Z * nat)) (after chars pos)).
  { intros segment. unfold fstring_conversion_error. destruct segment; [|by eexists]. destruct (chars !! pos); [|by eexists].
    destruct (_ || _); by eexists. }
  unfold lex_conversion. destruct (lex_conversion_segment chars pos) as [|c [|d l]] eqn:Hs; try apply Herr.
  destruct (_ || _); [|apply Herr]. unfold after. cbn. unfold lex_conversion_segment in Hs.
  destruct (chars !! pos) eqn:Hc; [|done]. pos_facts. lia.
Qed.

Lemma nested_field_ends fuel pos src paren_depth brace_depth :
  scanning chars fuel 0 pos → ends P (nested_field fuel chars pos src paren_depth brace_depth) (after chars pos).
Proof using Type.
  revert pos src paren_depth brace_depth. induction fuel as [|fuel IH]; intros pos src pd bd [Hpos Hfuel]; [lia|].
  cbn [nested_field]. estep; [|estep]. pos_facts. estep; [unfold after; cbn; lia|]. do 4 (estep; [next_loop|]).
  estep. { apply ends_bind. eapply ends_mono; [by apply consume_string_literal_ends|]. intros [p s] Hp. cbn beta iota in *. next_loop. }
  estep; [|next_loop]. apply ends_bind. eapply ends_mono; [apply lex_conversion_ends|]. unfold after. intros [c p] Hp. cbn in Hp. cbn beta iota.
  estep; [|estep]. pos_facts. estep; cbn; lia.
Qed.

Lemma format_spec_loop_ends fuel base pos parts literal :
  scanning chars fuel base pos → ends P (format_spec_loop fuel chars base pos parts literal) (λ r, (pos <= r.2 < len)%nat).
Proof using Type.
  revert pos parts literal. induction fuel as [|fuel IH]; intros pos parts literal [Hpos Hfuel]; [lia|]. cbn [format_spec_loop].
  estep; [|estep]. pos_facts. estep; [cbn; lia|]. estep.
  - cbn zeta. apply ends_bind, count_newlines_ends; [lia..|]. intros n. apply ends_bind.
    eapply ends_mono; [apply nested_field_ends; unfold scanning, scan_fuel; lia|]. intros [[s c] p] Hp. cbn beta iota. next_loop.
  - eapply ends_mono; [apply IH; unfold scanning; lia|]. intros [??]. cbn. lia.
Qed.

Lemma field_end_ends pos base expr_src conversion debug_text :
  (base <= pos)%nat → ends P (field_end chars pos base expr_src conversion debug_text) (λ f, (pos < fe_next f <= len)%nat).
Proof using Type.
  intros Hb. unfold field_end. apply ends_bind. estep.
  - pos_facts. apply ends_bind. unfold lex_format_spec. eapply ends_mono; [apply format_spec_loop_ends; unfold scanning, scan_fuel; lia|].
    intros [spec p] Hp. cbn in Hp. cbn. estep; [|estep]. estep. cbn. pos_facts. lia.
  - cbn. estep; [|estep]. estep. cbn. pos_facts. lia.
Qed.

(** An open parenthesis or bracket is behind. *)
Definition opened (start pos paren_depth : nat) : Prop :=
  paren_depth = 0%nat ∨ ∃ j, (start <= j < pos)%nat ∧ at_pos is_opening chars j = true.

Lemma opened_mono start pos pos' depth depth' :
  opened start pos depth → (pos <= pos')%nat → (depth' <= depth)%nat → opened start pos' depth'.
Proof using Type. intros [->|(j & Hj & Ho)] Hp Hd; [left; lia|]. right. exists j. split; [lia|done]. Qed.

Lemma fstring_expr_loop_ends fuel base start pos depth paren_depth src :
  (0 < start)%nat → chars !! (start - 1)%nat = Some (ch "{") → (base <= start)%nat → opened start pos paren_depth →
  scanning chars fuel start pos →
  ends P (fstring_expr_loop fuel chars base pos depth paren_depth src) (λ f, (pos < fe_next f <= len)%nat).
Proof using Type*.
  intros Hs Hbrace Hbase. revert pos depth paren_depth src. induction fuel as [|fuel IH]; intros pos depth pd src Hop [Hpos Hfuel]; [lia|].
  assert (Hloop : ∀ pos' depth pd' src, (pos < pos' <= len)%nat → opened start pos' pd' →
    ends P (fstring_expr_loop fuel chars base pos' depth pd' src) (λ f, (pos < fe_next f <= len)%nat)).
  { intros pos' d' pd' src' Hp' Ho'. eapply ends_mono; [apply IH; [done|unfold scanning; lia]|]. cbn. lia. }
  assert (Hkeep : opened start (pos + 1) pd) by (by eapply opened_mono; [exact Hop|lia..]).
  cbn [fstring_expr_loop]. destruct (chars !! pos) as [c|] eqn:Hc; [|estep]. pos_facts. cbn zeta.
  destruct (c =? ch "}") eqn:Hclose; cbn [andb].
  - assert (He : (c =? ch "{") = false) by (apply Z.eqb_eq in Hclose as ->; done).
    destruct (Nat.eqb_spec depth 0) as [->|Hd]; [destruct (Nat.eqb_spec pd 0) as [->|Hpd]; cbn [andb]|cbn [andb]].
    + cbn. lia.
    + rewrite He. change (index_sub 0 1) with (Panicked : outcome nat). cbn. apply HP.
      destruct Hop as [?|(j & Hj & Ho)]; [done|]. apply Z.eqb_eq in Hclose as ->. exists (start - 1)%nat, j, pos. split_and!; try done; lia.
    + rewrite He, index_sub_eq by lia. apply Hloop; [lia|done].
  - estep; [apply Hloop; [lia|done]|]. clear Heqb.
    estep; [apply Hloop; [lia|]; right; exists pos; split; [lia|]; unfold at_pos; by rewrite Hc|].
    estep; [apply Hloop; [lia|]; eapply opened_mono; [exact Hkeep|lia..]|].
    assert (Hfield : ∀ p e conv dbg, (pos <= p)%nat →
      ends P (field_end chars p base e conv dbg) (λ f, (pos < fe_next f <= len)%nat)).
    { intros p e conv dbg Hp. eapply ends_mono; [apply field_end_ends; lia|]. cbn. lia. }
    estep.
    { pose proof (skip_while_le chars is_blank (pos + 1) ltac:(lia)). estep. apply ends_bind. estep.
      - apply ends_bind. eapply ends_mono; [apply lex_conversion_ends|]. unfold after. intros [cv p] Hp. cbn in *. apply Hfield. lia.
      - cbn. apply Hfield. lia. }
    estep. { apply ends_bind. eapply ends_mono; [apply lex_conversion_ends|]. unfold after. intros [cv p] Hp. cbn in *. apply Hfield. lia. }
    estep; [apply Hfield; lia|]. estep; [|apply Hloop; [lia|done]].
    apply ends_bind. eapply ends_mono; [by apply consume_string_literal_ends|]. intros [p s] Hp. cbn in *.
    apply Hloop; [lia|]. eapply opened_mono; [exact Hop|lia..].
Qed.

Lemma field_columns_ends line_start_pos open_idx next (Q : option (Z * Z) → Prop) :
  (open_idx < next <= len)%nat → (∀ r, Q r) → ends P (field_columns chars line_start_pos open_idx next) Q.
Proof using Type.
  intros Hn HQ. unfold field_columns. cbn zeta. destruct (Nat.leb_spec line_start_pos open_idx); [|apply HQ].
  estep. estep; [apply HQ|]. rewrite (index_sub_eq open_idx line_start_pos) by lia. estep.
  rewrite (index_sub_eq _ line_start_pos) by lia. apply HQ.
Qed.

Lemma fstring_loop_ends fuel quote raw triple line_start_pos content_start pos parts literal :
  (0 < content_start)%nat → scanning chars fuel content_start pos →
  ends P (fstring_loop fuel chars quote raw triple line_start_pos content_start pos parts literal) (after chars pos).
Proof using Type*.
  intros Hs. revert pos parts literal. induction fuel as [|fuel IH]; intros pos parts literal [Hpos Hfuel]; [lia|].
  cbn [fstring_loop]. destruct (chars !! pos) as [c|] eqn:Hc; [|estep]. pos_facts. cbn zeta.
  estep. { destruct triple; [|unfold after; cbn; lia]. estep; [pos_facts; unfold after; cbn; lia|next_loop]. }
  estep.
  { estep; [pos_facts; next_loop|]. apply Z.eqb_eq in Heqb0 as ->. apply ends_bind, count_newlines_ends; [lia..|]. intros n. apply ends_bind.
    unfold lex_fstring_expr. eapply ends_mono.
    { apply (fstring_expr_loop_ends _ _ (pos + 1)); [lia|by replace (pos + 1 - 1)%nat with pos by lia|lia|by left|unfold scanning, scan_fuel; lia]. }
    intros f Hf. cbn beta in *. apply ends_bind, field_columns_ends; [lia|]. intros r. next_loop. }
  estep; [estep; [pos_facts; next_loop|estep]|]. estep; [|next_loop]. estep. apply ends_bind. eapply ends_mono.
  { unfold fstring_escape. instantiate (1 := after chars (pos + 1)). destruct raw; [unfold after; cbn; lia|]. apply escaped_text_ends; lia. }
  intros [s p] Hp. cbn beta iota. next_loop.
Qed.

Lemma lex_fstring_ends start quote raw line_start_pos :
  (0 < start <= len)%nat → ends P (lex_fstring chars start quote raw line_start_pos) (after chars start).
Proof using Type*.
  intros Hs. unfold lex_fstring. cbn zeta. destruct (has_char quote chars start && _) eqn:Ht; pos_facts.
  - eapply ends_mono; [apply fstring_loop_ends, scanning_start; lia|]. unfold after. intros [??]. cbn. lia.
  - apply fstring_loop_ends, scanning_start; lia.
Qed.
End fstrings.

(** ** Tokens *)

Section tokens.
  Context {B : Type} `{BigIntText B, !Unicode, !UnicodeLaws} (int_limit : Z) (P : Prop) (chars : list Z).
  Context (HP : unbalanced_field chars → P).
  Abbreviation len := (length chars).

Lemma next_is_Some c1 a : next_is c1 a = true → is_Some c1.
Proof using Type. unfold next_is. by intros ->%bool_decide_eq_true. Qed.

Lemma operator_width c c1 c2 t width :
  operator c c1 c2 = Some (t, width) → width = 1%nat ∨ (width = 2%nat ∧ is_Some c1) ∨ (width = 3%nat ∧ is_Some c2).
Proof using Type.
  unfold operator. intros Ho. repeat case_match; simplify_eq;
    repeat match goal with Hn : next_is _ _ = true |- _ => apply next_is_Some in Hn end; auto.
Qed.

Lemma ident_ends pos c :
  chars !! pos = Some c → ident_continue c = true → after chars pos (lex_ident_or_keyword chars pos).
Proof using Type.
  intros Hc Hi. pos_facts. unfold after. cbn.
  assert (pos < skip_while ident_continue chars pos)%nat by (apply skip_while_gt; unfold at_pos; by rewrite Hc).
  pose proof (skip_while_le chars ident_continue pos). lia.
Qed.

Lemma ascii_letter_continues c : is_ascii_letter c || (c =? ch "_") = true → ident_continue c = true.
Proof using Type*.
  unfold ident_continue. intros [Hl| ->]%orb_true_iff; [|by rewrite !orb_true_r]. rewrite alphabetic_ascii; [by rewrite Hl|].
  unfold is_ascii_letter, in_range in Hl. rewrite orb_true_iff, !andb_true_iff, !Z.leb_le in Hl.
  change (ch "a") with 97 in Hl. change (ch "z") with 122 in Hl. change (ch "A") with 65 in Hl. change (ch "Z") with 90 in Hl. lia.
Qed.

Lemma quote_at_lookup pos : quote_at chars pos = true → (pos < len)%nat ∧ ∃ q, char_at chars pos = Return q.
Proof using Type.
  unfold quote_at. intros Hq. split; [by eapply at_pos_lt|]. unfold at_pos in Hq. destruct (chars !! pos) as [q|] eqn:Hc; [|done].
  exists q. by apply char_at_eq.
Qed.

Ltac quoted :=
  match goal with Hq : quote_at _ _ = true |- _ => apply quote_at_lookup in Hq as [? [? Hq]]; try (rewrite Hq; estep) end.

Lemma lex_word_ends pos line_start_pos c :
  chars !! pos = Some c → is_ascii_letter c || (c =? ch "_") = true →
  ends P (lex_word chars pos line_start_pos) (after chars pos).
Proof using Type*.
  intros Hc Hl. assert (Hafter : ∀ (m : outcome (Token.Token * nat)) k, (pos <= k)%nat →
    ends P m (after chars k) → ends P m (after chars pos)).
  { intros m k Hk Hm. eapply ends_mono; [exact Hm|]. unfold after. intros [t p]. cbn. lia. }
  unfold lex_word. repeat (estep; [|]).
  1: assert (Hq : quote_at chars (pos + 2) = true) by (apply orb_prop in Heqb as [[_ ?]%andb_prop|[_ ?]%andb_prop]; done).
  all: repeat match goal with Hb : _ && quote_at _ _ = true |- _ => apply andb_prop in Hb as [_ Hb] end.
  all: try (quoted; eapply Hafter; [|first [apply lex_fstring_ends; [done|]|apply lex_bytes_ends|apply lex_string_ends]]; lia).
  apply (ident_ends _ c); [done|by apply ascii_letter_continues].
Qed.

Lemma lex_token_ends pos line_start_pos c :
  chars !! pos = Some c → ends P (lex_token int_limit chars pos line_start_pos c) (after chars pos).
Proof using Type*.
  intros Hc. pos_facts. unfold lex_token. estep; [apply lex_number_ends; unfold at_pos; by rewrite Hc|].
  estep; [by eapply lex_word_ends|]. estep; [by apply lex_string_ends|].
  estep. { estep; [pos_facts; estep; unfold after; cbn; lia|]. estep; [by apply lex_leading_dot_float_ends|]. estep. unfold after. cbn. lia. }
  estep. { estep; [pos_facts; estep; unfold after; cbn; lia|estep]. }
  destruct (operator c _ _) as [[t width]|] eqn:Ho.
  - estep. unfold after. cbn. apply operator_width in Ho as [->|[[-> Hw]|[-> Hw]]]; [lia|apply lookup_lt_is_Some in Hw; lia..].
  - estep; [|estep]. apply (ident_ends _ c); [done|]. unfold ident_continue. match goal with Ha : alphabetic c = true |- _ => by rewrite Ha end.
Qed.
End tokens.
