(* ===== verification/LexLayout.v ===== *)
(** Where the tokens of the lexer come from: the lines and columns it records,
    the newlines it makes tokens of, and the indentation it keeps.

    The tokens of indentation: levels are closed in the order they were opened,
    and there are at most 99 of them. *)

From stdpp Require Import strings.
From S2P Require Import Outcome Prelude Double Chars LexLiterals LexFStrings Lexer LexBounds.

(** ** Places in the source *)

Definition line_of (chars : list Z) (p : nat) : Z := 1 + vlen (filter (λ c, c = LF) (take p chars)).
Definition col_of (chars : list Z) (p : nat) : nat := prefix_len (λ c, negb (c =? LF)) (reverse (take p chars)).

(** A token with the numbers recorded for it. *)
Record Placed : Type := { p_token : Token.Token; p_line : Z; p_col : Z; p_col_end : Z }.

(** The token [t] of the characters [p..next). *)
Definition placed (chars : list Z) (p next : nat) (t : Token.Token) : Placed :=
  {| p_token := t; p_line := line_of chars p; p_col := Z.of_nat (col_of chars p);
     p_col_end := if line_of chars next =? line_of chars p then Z.of_nat (col_of chars next) else 0 |}.

(** A token of the layout, at [p]; its column [c] means nothing. *)
Definition layout (chars : list Z) (p : nat) (c : Z) (t : Token.Token) : Placed :=
  {| p_token := t; p_line := line_of chars p; p_col := c; p_col_end := 0 |}.

Definition is_layout (t : Token.Token) : bool :=
  match t with Token.Newline | Token.Indent | Token.Dedent | Token.Eof => true | _ => false end.

(** ** The scanner as an automaton *)

Record Scan : Type := {
  s_pos : nat;
  s_depth : nat;             (* open brackets *)
  s_stack : list nat;        (* open indentations, the innermost first *)
  s_fresh : bool;            (* at the beginning of a logical line *)
  s_continued : bool;        (* after a backslash *)
}.

(** The indentation of a logical line, and the tokens it makes. *)
Inductive indents (n : nat) : list nat → list nat → list Token.Token → Prop :=
  | indents_same rest : indents n (n :: rest) (n :: rest) []
  | indents_more top rest :
      (top < n)%nat → (length (top :: rest) < MAX_INDENT_LEVELS)%nat → indents n (top :: rest) (n :: top :: rest) [Token.Indent]
  | indents_less closed rest :
      closed ≠ [] → Forall (λ k, n < k)%nat closed → indents n (closed ++ n :: rest) (n :: rest) (replicate (length closed) Token.Dedent).

Section automaton.
  Context {B : Type} `{BigIntText B, Unicode} (int_limit : Z) (chars : list Z).

(** [..p) ends in the spaces that indent its line. *)
Definition indented (p : nat) : Prop := ∀ i, (p - col_of chars p <= i < p)%nat → chars !! i = Some (ch " ").

(** [p..q) has no line feed in it. *)
Definition on_one_line (p q : nat) : Prop := (p <= q)%nat ∧ ∀ i, (p <= i < q)%nat → ∃ c, chars !! i = Some c ∧ c ≠ LF.
Definition at_eol (p : nat) : Prop := p = length chars ∨ chars !! p = Some LF.

Inductive step : Scan → list Placed → Scan → Prop :=
  | step_white p d k f b c : chars !! p = Some c → whitespace c = true → c ≠ LF →
      step (Build_Scan p d k f b) [] (Build_Scan (p + 1) d k f b)
  | step_comment p q d k f b : chars !! p = Some (ch "#") → on_one_line p q → at_eol q →
      step (Build_Scan p d k f b) [] (Build_Scan q d k f b)
  | step_backslash p d k b : chars !! p = Some BACKSLASH →
      step (Build_Scan p d k false b) [] (Build_Scan (p + 1) d k false true)
  | step_newline p k f col : chars !! p = Some LF →
      step (Build_Scan p 0 k f false) [layout chars p col Token.Newline] (Build_Scan (p + 1) 0 k true false)
  | step_join p d k b : chars !! p = Some LF → (0 < d)%nat ∨ b = true →
      step (Build_Scan p d k false b) [] (Build_Scan (p + 1) d k false false)
  | step_indent p k k' ts col : indented p → indents (col_of chars p) k k' ts →
      step (Build_Scan p 0 k true false) (layout chars p col <$> ts) (Build_Scan p 0 k' false false)
  | step_token p next d k b c t : chars !! p = Some c →
      lex_token int_limit chars p (p - col_of chars p) c = Return (t, next) →
      step (Build_Scan p d k false b) [placed chars p next t] (Build_Scan next (depth_after t d) k false b).

Inductive steps : Scan → list Placed → Scan → Prop :=
  | steps_nil s : steps s [] s
  | steps_cons s es s' es' s'' : step s es s' → steps s' es' s'' → steps s (es ++ es') s''.

Lemma steps_single s es s' : step s es s' → steps s es s'.
Proof using Type. intros Hs. rewrite <- (app_nil_r es). eapply steps_cons; [done|constructor]. Qed.

Lemma steps_app s es s' es' s'' : steps s es s' → steps s' es' s'' → steps s (es ++ es') s''.
Proof using Type.
  induction 1 as [|s es1 s1 es2 s2 Hs _ IH]; [done|]. intros Hs'. rewrite <- app_assoc. eapply steps_cons; [done|by apply IH].
Qed.

Definition scan_start : Scan := Build_Scan 0 0 [0%nat] true false.

(** The end of the source, with the tokens that close what is open. *)
Definition end_newline (s : Scan) : list Token.Token :=
  if (s_depth s =? 0)%nat && negb (s_continued s) then [Token.Newline] else [].
Definition end_tokens (s : Scan) : list Token.Token :=
  end_newline s ++ replicate (length (s_stack s) - 1) Token.Dedent ++ [Token.Eof].
End automaton.

(** ** Lines and columns *)

Section places.
  Context (chars : list Z).
  Abbreviation len := (length chars).

Lemma line_of_S p c : chars !! p = Some c → line_of chars (p + 1) = line_of chars p + (if c =? LF then 1 else 0).
Proof.
  intros Hc. unfold line_of, vlen. rewrite Nat.add_1_r, (take_S_r _ _ _ Hc), filter_app, length_app, filter_cons, filter_nil.
  destruct (Z.eqb_spec c LF); case_decide; cbn; lia.
Qed.

Lemma col_of_S p c : chars !! p = Some c → col_of chars (p + 1) = if c =? LF then 0%nat else (col_of chars p + 1)%nat.
Proof.
  intros Hc. unfold col_of. rewrite Nat.add_1_r, (take_S_r _ _ _ Hc), reverse_snoc. cbn. destruct (c =? LF); cbn; [done|lia].
Qed.

Lemma line_of_bounds p : 1 ≤ line_of chars p ≤ 1 + Z.of_nat len.
Proof.
  unfold line_of, vlen. pose proof (length_filter (λ c, c = LF) (take p chars)). rewrite length_take in *. lia.
Qed.

Lemma col_of_le p : (col_of chars p <= p)%nat.
Proof.
  unfold col_of. pose proof (prefix_len_le (λ c, negb (c =? LF)) (reverse (take p chars))) as Hle.
  rewrite length_reverse, length_take in Hle. lia.
Qed.

Lemma line_of_0 : line_of chars 0 = 1.
Proof. done. Qed.
Lemma col_of_0 : col_of chars 0 = 0%nat.
Proof. done. Qed.

Lemma one_line_places p q :
  on_one_line chars p q → line_of chars q = line_of chars p ∧ col_of chars q = (col_of chars p + (q - p))%nat.
Proof.
  intros [Hpq Hl]. remember (q - p)%nat as n eqn:Hn. revert q Hpq Hl Hn. induction n as [|n IH]; intros q Hpq Hl Hn.
  - replace q with p by lia. split; [done|lia].
  - destruct (Hl (q - 1)%nat) as (c & Hc & Hne); [lia|]. destruct (IH (q - 1)%nat) as [Hline Hcol]; [lia|intros i Hi; apply Hl; lia|lia|].
    replace q with (q - 1 + 1)%nat by lia. rewrite (line_of_S _ _ Hc), (col_of_S _ _ Hc), (proj2 (Z.eqb_neq _ _) Hne). lia.
Qed.

Lemma line_of_mono p q : (p <= q)%nat → (q <= len)%nat → line_of chars p ≤ line_of chars q.
Proof.
  intros Hpq Hq. remember (q - p)%nat as n eqn:Hn. revert q Hpq Hq Hn. induction n as [|n IH]; intros q Hpq Hq Hn.
  - replace q with p by lia. lia.
  - destruct (lookup_lt_is_Some_2 chars (q - 1)) as [c Hc]; [lia|]. specialize (IH (q - 1)%nat ltac:(lia) ltac:(lia) ltac:(lia)).
    replace q with (q - 1 + 1)%nat by lia. rewrite (line_of_S _ _ Hc). destruct (c =? LF); lia.
Qed.

Lemma lookup_slice a b k : (a + k < b)%nat → take (b - a) (drop a chars) !! k = chars !! (a + k)%nat.
Proof. intros Hk. rewrite lookup_take_lt by lia. by rewrite lookup_drop. Qed.

Lemma one_line_slice p q :
  (p <= q)%nat → (q <= len)%nat → LF ∉ take (q - p) (drop p chars) → on_one_line chars p q.
Proof.
  intros Hpq Hq Hn. split; [done|]. intros i Hi. destruct (lookup_lt_is_Some_2 chars i) as [c Hc]; [lia|]. exists c. split; [done|].
  intros ->. apply Hn, list_elem_of_lookup. exists (i - p)%nat. rewrite lookup_slice by lia. by replace (p + (i - p))%nat with i by lia.
Qed.

Lemma newline_slice p q :
  (p <= q)%nat → (q <= len)%nat → LF ∈ take (q - p) (drop p chars) → line_of chars q ≠ line_of chars p.
Proof.
  intros Hpq Hq [k Hk]%list_elem_of_lookup. assert (p + k < q)%nat.
  { apply lookup_lt_Some in Hk. rewrite length_take in Hk. lia. }
  rewrite lookup_slice in Hk by lia. pose proof (line_of_mono p (p + k) ltac:(lia) ltac:(lia)).
  pose proof (line_of_mono (p + k + 1) q ltac:(lia) ltac:(lia)) as Hm. rewrite (line_of_S _ _ Hk) in Hm. cbn in Hm. lia.
Qed.

Lemma to_eol p : (p <= len)%nat →
  let q := skip_while (λ c, negb (c =? LF)) chars p in on_one_line chars p q ∧ at_eol chars q.
Proof.
  intros Hp. cbn zeta. pose proof (skip_while_le chars (λ c, negb (c =? LF)) p Hp) as Hle. split; [split; [lia|]|].
  - intros i Hi. apply skip_while_between in Hi as (c & Hc & Hn). exists c. split; [done|].
    by apply negb_true_iff, Z.eqb_neq in Hn.
  - pose proof (skip_while_stop chars (λ c, negb (c =? LF)) p) as Hstop. unfold at_pos in Hstop. unfold at_eol.
    destruct (chars !! _) as [c|] eqn:Hc; [right|left].
    + apply negb_false_iff, Z.eqb_eq in Hstop. by subst.
    + apply lookup_ge_None in Hc. lia.
Qed.
End places.

(** ** The state of the lexer *)

(** The four vectors are parallel. *)
Record vectors (self : Lexer) (es : list Placed) : Prop := {
  vectors_tokens : tokens self = p_token <$> es;
  vectors_lines : line_nos self = p_line <$> es;
  vectors_cols : cols self = p_col <$> es;
  vectors_ends : cols_end self = p_col_end <$> es;
}.

Section state.
  Context (chars : list Z).
  Abbreviation len := (length chars).

(** The counters are those of position [p]. *)
Definition at_place (self : Lexer) (p : nat) : Prop :=
  line self = line_of chars p ∧ line_start_pos self = (p - col_of chars p)%nat.

Lemma vectors_new : vectors lexer_new [].
Proof. done. Qed.

Lemma vectors_set_line self es l start : vectors self es → vectors (set_line self l start) es.
Proof. by intros []. Qed.
Lemma vectors_set_cur_col self es c : vectors self es → vectors (set_cur_col self c) es.
Proof. by intros []. Qed.

Lemma vectors_emit self es t :
  vectors self es →
  vectors (emit self t) (es ++ [{| p_token := t; p_line := line self; p_col := cur_col self; p_col_end := 0 |}]).
Proof. intros [Ht Hl Hc He]. split; cbn; by rewrite fmap_app, ?Ht, ?Hl, ?Hc, ?He. Qed.

Lemma vectors_layout self es t p :
  vectors self es → line self = line_of chars p → vectors (emit self t) (es ++ [layout chars p (cur_col self) t]).
Proof. intros Hv Hl. unfold layout. rewrite <- Hl. by apply vectors_emit. Qed.

Lemma vectors_set_last_end self es t l c e e' :
  vectors self (es ++ [Build_Placed t l c e]) → vectors (set_last_end self e') (es ++ [Build_Placed t l c e']).
Proof.
  intros [Ht Hl Hc He]. split; cbn; [by rewrite ?Ht, ?Hl, ?Hc, !fmap_app..|].
  rewrite He, !fmap_app, length_app, length_fmap. cbn. rewrite insert_app_r_alt by (rewrite length_fmap; lia).
  rewrite length_fmap. by replace (length es + 1 - 1 - length es)%nat with 0%nat by lia.
Qed.

Lemma vectors_length self es : vectors self es → length (tokens self) = length es.
Proof. intros []. by rewrite vectors_tokens0, length_fmap. Qed.

Lemma vectors_returned self es :
  vectors self es → into_tokens_with_pos self = Return (p_token <$> es, p_line <$> es, p_col <$> es, p_col_end <$> es).
Proof.
  intros [Ht Hl Hc He]. unfold into_tokens_with_pos. rewrite Ht, Hl, Hc, He, !length_fmap, Nat.eqb_refl. done.
Qed.

Context (Hlen : Z.of_nat len + 1 < 2 ^ 32).

Lemma next_line_place (p : nat) :
  chars !! p = Some LF → next_line (line_of chars p) = Return (line_of chars (p + 1)).
Proof using Hlen.
  intros Hc. unfold next_line. pose proof (line_of_bounds chars (p + 1)) as Hb. rewrite (line_of_S _ _ _ Hc) in *. cbn in *.
  by rewrite (proj2 (Z.ltb_lt _ _)) by lia.
Qed.

Lemma as_u32_small n : (n <= len)%nat → as_u32 n = Z.of_nat n.
Proof using Hlen. intros Hn. unfold as_u32. apply Z.mod_small. lia. Qed.

Lemma advance_lines_place P self i span :
  at_place self i → (∀ k c, span !! k = Some c → chars !! (i + k)%nat = Some c) →
  ends P (advance_lines self i span) (λ self', at_place self' (i + length span) ∧ ∀ es, vectors self es → vectors self' es).
Proof using Hlen.
  revert self i. induction span as [|c span IH]; intros self i [Hline Hstart] Hspan; cbn [advance_lines length].
  - cbn. rewrite Nat.add_0_r. done.
  - assert (Hc : chars !! i = Some c) by (rewrite <- (Nat.add_0_r i); by apply Hspan).
    assert (Hrest : ∀ k d, span !! k = Some d → chars !! (i + 1 + k)%nat = Some d).
    { intros k d Hk. rewrite <- (Hspan (S k) d Hk). f_equal. lia. }
    replace (i + S (length span))%nat with (i + 1 + length span)%nat by lia.
    pose proof (line_of_S chars _ _ Hc) as Hl1. pose proof (col_of_S chars _ _ Hc) as Hc1. pose proof (col_of_le chars i).
    destruct (Z.eqb_spec c LF) as [->|Hne].
    + rewrite Hline, next_line_place, bind_Return by done. eapply ends_mono; [apply IH; [|exact Hrest]|].
      * split; [done|]. cbn. rewrite Hc1. lia.
      * cbn beta. intros self' [Hp Hv]. split; [done|]. intros es He. by apply Hv, vectors_set_line.
    + eapply ends_mono; [apply IH; [|exact Hrest]|done]. split; [rewrite Hl1; lia|rewrite Hc1; lia].
Qed.

Lemma advance_line_over_place P self p q :
  at_place self p → (p <= q <= len)%nat →
  ends P (advance_line_over self chars p q) (λ self', at_place self' q ∧ ∀ es, vectors self es → vectors self' es).
Proof using Hlen.
  intros Hp Hq. unfold advance_line_over. estep. eapply ends_mono; [apply advance_lines_place; [done|]|].
  - intros k c Hk. assert (p + k < q)%nat by (apply lookup_lt_Some in Hk; rewrite length_take in Hk; lia). by rewrite lookup_slice in Hk.
  - cbn beta. rewrite length_take, length_drop. by replace (p + (q - p) `min` (len - p))%nat with q by lia.
Qed.

(** The end of an iteration that made no token. *)
Lemma finish_trivia P self es p q n l :
  vectors self es → n = length es → at_place self p → (p < q <= len)%nat →
  ends P (finish_token self chars p q n l) (λ self', vectors self' es ∧ at_place self' q).
Proof using Hlen.
  intros Hv -> Hp Hq. unfold finish_token. rewrite (vectors_length _ _ Hv), Nat.ltb_irrefl. cbn [andb]. estep.
  rewrite (proj2 (Nat.ltb_lt p q)) by lia. eapply ends_mono; [apply advance_line_over_place; [done|lia]|].
  cbn beta. intros self' [? Hself]. auto.
Qed.

(** The end of an iteration that emitted the token [t] for [p..q). *)
Lemma finish_emitted P self es p q t :
  vectors self es → at_place self p → cur_col self = Z.of_nat (col_of chars p) → (p < q <= len)%nat →
  ends P (finish_token (emit self t) chars p q (length es) (line self))
    (λ self', vectors self' (es ++ [placed chars p q t]) ∧ at_place self' q).
Proof using Hlen.
  intros Hv [Hline Hstart] Hcur Hq. unfold finish_token.
  pose proof (vectors_emit _ _ t Hv) as He. rewrite (vectors_length _ _ He), length_app.
  rewrite (proj2 (Nat.ltb_lt (length es) _)), (proj2 (Nat.ltb_lt p q)) by (cbn; lia).
  cbn [andb emit line line_start_pos]. rewrite Z.eqb_refl. cbn [andb].
  rewrite Hline, Hcur in He. apply ends_bind. estep.
  assert (Hlast : ∀ self', vectors self' (es ++ [placed chars p q t]) → line self' = line self → line_start_pos self' = line_start_pos self →
    ends P (advance_line_over self' chars p q) (λ self'', vectors self'' (es ++ [placed chars p q t]) ∧ at_place self'' q)).
  { intros self' Hv' Hl' Hs'. eapply ends_mono; [apply advance_line_over_place; [|lia]|].
    - split; congruence.
    - cbn beta. intros self'' [? Hself]. auto. }
  case_bool_decide as Hlf; cbn; apply Hlast; try done.
  - unfold placed. rewrite (proj2 (Z.eqb_neq _ _)); [done|]. apply newline_slice; [lia..|done].
  - unfold placed. pose proof (one_line_slice chars p q ltac:(lia) ltac:(lia) Hlf) as Hone.
    apply one_line_places in Hone as [-> Hcol]. rewrite Z.eqb_refl. rewrite Hstart.
    pose proof (col_of_le chars p). replace (q - (p - col_of chars p))%nat with (col_of chars q) by lia.
    rewrite as_u32_small by (pose proof (col_of_le chars q); lia). by eapply vectors_set_last_end.
Qed.
End state.

(** ** Lines *)

Section lines.
  Context {B : Type} `{BigIntText B, !Unicode, !UnicodeLaws} (int_limit : Z) (chars : list Z).
  Context (Hlen : Z.of_nat (length chars) + 1 < 2 ^ 32).
  Abbreviation len := (length chars).
  Abbreviation steps := (steps int_limit chars).
  Abbreviation P := (unbalanced_field chars).

(** What the lexer has done when it is at [pos'] with [depth'] open brackets:
    it is at the start of a line, or it has seen the end of the source. *)
Definition reached (s : Scan) (self' : Lexer) (es : list Placed) (s' : Scan) (depth' : nat) : Prop :=
  steps s es s' ∧ s_depth s' = depth' ∧ line self' = line_of chars (s_pos s').

Definition at_line (es0 es : list Placed) (self' : Lexer) (s' : Scan) (pos' depth' : nat) : Prop :=
  s_pos s' = pos' ∧ (pos' <= len)%nat ∧ col_of chars pos' = 0%nat ∧ s_fresh s' = (depth' =? 0)%nat ∧ s_continued s' = false ∧
  vectors self' (es0 ++ es).

Definition at_end (es0 es : list Placed) (self' : Lexer) (s' : Scan) (pos' : nat) : Prop :=
  s_pos s' = len ∧ pos' = (len + 1)%nat ∧ ∃ c, vectors self' (es0 ++ es ++ (layout chars len c <$> end_newline s')).

Definition line_done (s : Scan) (es0 : list Placed) (self' : Lexer) (pos' depth' : nat) : Prop :=
  (s_pos s < pos')%nat ∧ ∃ es s', reached s self' es s' depth' ∧ s_stack s' = s_stack s ∧
    (at_line es0 es self' s' pos' depth' ∨ at_end es0 es self' s' pos').

Lemma line_done_steps s es1 s1 es0 self' pos' depth' :
  steps s es1 s1 → (s_pos s <= s_pos s1)%nat → s_stack s1 = s_stack s →
  line_done s1 (es0 ++ es1) self' pos' depth' → line_done s es0 self' pos' depth'.
Proof using Type.
  intros Hs Hp Hk (Hlt & es & s' & (Hs' & Hd & Hl) & Hk' & Hend). split; [lia|]. exists (es1 ++ es), s'.
  split; [split; [by eapply steps_app|done]|]. split; [congruence|]. 
  unfold at_line, at_end in *. destruct Hend as [Hend|(? & ? & c & Hv)].
  - left. by rewrite app_assoc.
  - right. split; [done|]. split; [done|]. exists c. by rewrite <- app_assoc, app_assoc, app_assoc, <- (app_assoc _ es1) in *.
Qed.

Lemma white_steps p q d k f b :
  (p <= q)%nat → (∀ i, (p <= i < q)%nat → ∃ c, chars !! i = Some c ∧ whitespace c = true ∧ c ≠ LF) →
  steps (Build_Scan p d k f b) [] (Build_Scan q d k f b).
Proof using Type.
  intros Hpq Hw. remember (q - p)%nat as n eqn:Hn. revert p Hpq Hw Hn. induction n as [|n IH]; intros p Hpq Hw Hn.
  - replace q with p by lia. constructor.
  - destruct (Hw p) as (c & Hc & Hcw & Hne); [lia|]. change (@nil Placed) with (@nil Placed ++ []).
    eapply steps_cons; [by eapply step_white|]. apply IH; [lia|intros i Hi; apply Hw; lia|lia].
Qed.

Lemma blank_whitespace c : is_blank c || (c =? CR) = true → whitespace c = true ∧ c ≠ LF.
Proof using Type*.
  unfold is_blank. rewrite !orb_true_iff, !Z.eqb_eq. intros Hc. rewrite whitespace_ascii.
  - destruct Hc as [[->| ->]| ->]; split; done.
  - destruct Hc as [[->| ->]| ->]; done.
Qed.

Lemma at_place_col self p :
  at_place chars self p → (p <= len)%nat → as_u32 (p - line_start_pos self) = Z.of_nat (col_of chars p).
Proof using Hlen.
  intros [_ Hs] Hp. rewrite Hs. pose proof (col_of_le chars p). rewrite (as_u32_small chars) by (done || lia). f_equal. lia.
Qed.

Lemma at_place_line self p q : at_place chars self p → on_one_line chars p q → at_place chars self q.
Proof using Type.
  intros [Hl Hs] Hone. pose proof (one_line_places _ _ _ Hone) as [Hl' Hc]. destruct Hone as [Hpq _].
  pose proof (col_of_le chars p). split; [congruence|]. rewrite Hs. lia.
Qed.

(** The end of the source in a line. *)
Lemma end_of_source self pos d k f b es0 :
  (pos <= len)%nat → chars !! pos = None → vectors self es0 → line self = line_of chars pos →
  line_done (Build_Scan pos d k f b) es0
    (if (d =? 0)%nat && negb b then emit self Token.Newline else self) (len + 1) d.
Proof using Type.
  intros Hpos Hc%lookup_ge_None Hv Hl. assert (pos = len) as -> by lia. split; [cbn; lia|].
  exists [], (Build_Scan len d k f b). split; [split; [constructor|]; split; [done|]; by case_match|]. split; [done|].
  right. split; [done|]. split; [done|]. unfold end_newline. cbn. destruct (_ && _).
  - exists (cur_col self). by apply vectors_layout.
  - exists 0. cbn. by rewrite app_nil_r.
Qed.

(** A line feed that ends a line. *)
Lemma line_feed self pos d k f es0 start :
  chars !! pos = Some LF → vectors self es0 → line self = line_of chars pos → (f = true → d = 0%nat) →
  line_done (Build_Scan pos d k f false) es0
    (set_line (if (d =? 0)%nat then emit self Token.Newline else self) (line_of chars (pos + 1)) start) (pos + 1) d.
Proof using Type.
  intros Hc Hv Hl Hf. split; [cbn; lia|]. pos_facts. pose proof (col_of_S _ _ _ Hc) as Hcol. destruct (Nat.eqb_spec d 0) as [->|Hd].
  - pose proof (vectors_layout chars _ _ Token.Newline _ Hv Hl) as Hc'. eexists _, _.
    split; [split; [apply steps_single, (step_newline _ _ _ _ _ (cur_col self) Hc)|done]|]. split; [done|].
    left. split; [done|]. split; [lia|]. split; [done|]. split; [done|]. split; [done|]. by apply vectors_set_line.
  - destruct f; [by specialize (Hf eq_refl)|].
    eexists [], _. split; [split; [apply steps_single, step_join; [done|left; lia]|done]|]. split; [done|].
    left. split; [done|]. split; [lia|]. split; [done|]. split; [by apply Nat.eqb_neq in Hd as ->|]. split; [done|].
    rewrite app_nil_r. by apply vectors_set_line.
Qed.

Lemma line_loop_ends fuel self pos d k b es0 :
  scanning chars fuel 0 pos → vectors self es0 → at_place chars self pos →
  ends P (line_loop int_limit fuel self chars pos d b)
    (λ '(self', pos', d'), line_done (Build_Scan pos d k false b) es0 self' pos' d').
Proof using Type*.
  revert self pos d b es0. induction fuel as [|fuel IH]; intros self pos d b es0 [Hpos Hfuel] Hv Hp; [lia|].
  cbn [line_loop]. cbn zeta. rewrite (at_place_col self pos) by (done || lia).
  set (self1 := set_cur_col self _). assert (Hv1 : vectors self1 es0) by by apply vectors_set_cur_col.
  assert (Hp1 : at_place chars self1 pos) by done. rewrite (vectors_length _ _ Hv1).
  (* The rest of the line, from a later position. *)
  assert (Hnext : ∀ m es1 pos1 d1 b1, (pos < pos1 <= len)%nat →
    steps (Build_Scan pos d k false b) es1 (Build_Scan pos1 d1 k false b1) →
    ends P m (λ self', vectors self' (es0 ++ es1) ∧ at_place chars self' pos1) →
    ends P (m ≫= λ self', line_loop int_limit fuel self' chars pos1 d1 b1)
      (λ '(self', pos', d'), line_done (Build_Scan pos d k false b) es0 self' pos' d')).
  { intros m es1 pos1 d1 b1 Hpos1 Hs Hm. apply ends_bind. eapply ends_mono; [exact Hm|]. cbn beta. intros self' [Hv' Hp'].
    eapply ends_mono; [apply IH; [unfold scanning; lia|exact Hv'|exact Hp']|]. intros [[self'' pos'] d'] Hdone.
    eapply line_done_steps; [exact Hs|cbn; lia|done|exact Hdone]. }
  destruct (chars !! pos) as [c|] eqn:Hc; [|apply ends_Return, end_of_source; [lia|done|done|apply Hp1]].
  pos_facts. destruct (Z.eqb_spec c LF) as [->|Hne].
  { cbn [line self1 set_cur_col]. destruct Hp as [Hline _]. destruct b.
    - rewrite Hline, (next_line_place chars Hlen pos Hc), bind_Return. cbn beta.
      pose proof (skip_while_le chars is_blank (pos + 1)). rewrite <- (bind_Return (set_line self1 _ _) (λ self', line_loop _ _ self' _ _ _ _)).
      assert (Hblank : ∀ i, (pos + 1 <= i < skip_while is_blank chars (pos + 1))%nat →
        ∃ c, chars !! i = Some c ∧ whitespace c = true ∧ c ≠ LF).
      { intros i Hi. apply skip_while_between in Hi as (c & Hci & Hb). exists c. split; [done|]. apply blank_whitespace. by rewrite Hb. }
      eapply (Hnext _ []); [lia| |].
      + change (@nil Placed) with (@nil Placed ++ []). eapply steps_cons; [apply step_join; [done|by right]|]. apply white_steps; [lia|done].
      + cbn. rewrite app_nil_r. split; [by apply vectors_set_line|].
        apply (at_place_line _ (pos + 1)); [|split; [lia|]; intros i Hi; destruct (Hblank i Hi) as (c & ? & _ & ?); eauto].
        split; [done|]. cbn. rewrite (col_of_S _ _ _ Hc). cbn. lia.
    - assert (Hline' : line (if (d =? 0)%nat then emit self1 Token.Newline else self1) = line_of chars pos) by (by destruct (d =? 0)%nat).
      rewrite Hline', (next_line_place chars Hlen pos Hc), bind_Return. by apply ends_Return, line_feed. }
  destruct ((c =? CR) || is_blank c) eqn:Hblank.
  { apply (Hnext _ []); [lia| |rewrite app_nil_r; by apply finish_trivia; try lia].
    apply steps_single. eapply step_white; [exact Hc|..]; apply blank_whitespace; by rewrite orb_comm. }
  destruct (Z.eqb_spec c (ch "#")) as [->|_].
  { destruct (to_eol chars pos) as [Hone Heol]; [lia|]. pose proof (skip_while_le chars (λ c, negb (c =? LF)) pos).
    assert (pos < skip_while (λ c, negb (c =? LF)%Z) chars pos)%nat by (apply skip_while_gt; unfold at_pos; by rewrite Hc).
    apply (Hnext _ []); [lia|apply steps_single; by eapply step_comment|rewrite app_nil_r; by apply finish_trivia; try lia]. }
  destruct (Z.eqb_spec c BACKSLASH) as [->|_].
  { apply (Hnext _ []); [lia|apply steps_single; by eapply step_backslash|rewrite app_nil_r; by apply finish_trivia; try lia]. }
  apply ends_bind. eapply ends_run; [by apply (lex_token_ends int_limit)|]. intros [t next] Hr Hn.
  cbn beta iota. apply (Hnext _ [placed chars pos next t]); [done| |].
  - apply steps_single. eapply step_token; [exact Hc|]. rewrite <- Hr. f_equal. cbn. symmetry. apply Hp.
  - by apply finish_emitted.
Qed.
End lines.

(** ** Indentation *)

Lemma indents_last n stack stack' ts : indents n stack stack' ts → last stack = Some 0%nat → last stack' = Some 0%nat.
Proof. intros [|top rest|closed rest]; [done|by destruct rest|]. rewrite last_app_cons. done. Qed.

Section indentation.
  Context (P : Prop) (chars : list Z) (p : nat) (n : nat).

Lemma dedent_ends self stack es :
  vectors self es → line self = line_of chars p → last stack = Some 0%nat →
  ends P (dedent self n stack) (λ '(self', stack'), ∃ closed top rest, stack = closed ++ stack' ∧ stack' = top :: rest ∧
    Forall (λ k, n < k)%nat closed ∧ (top <= n)%nat ∧ at_place chars self' = at_place chars self ∧ cur_col self' = cur_col self ∧
    vectors self' (es ++ (layout chars p (cur_col self) <$> replicate (length closed) Token.Dedent))).
Proof using Type.
  revert self es. induction stack as [|top rest IH]; intros self es Hv Hl Hlast; [done|]. cbn [dedent].
  destruct (Nat.ltb_spec n top) as [Hlt|Hge].
  - assert (Hrest : last rest = Some 0%nat) by (destruct rest; [injection Hlast; lia|done]).
    eapply ends_mono; [apply IH; [by apply vectors_layout|done|done]|]. intros [self' stack'].
    intros (closed & top' & rest' & -> & -> & Hc & Ht & Hp & Hcur & Hv'). exists (top :: closed), top', rest'.
    split; [done|]. split; [done|]. split; [by constructor|]. split; [done|]. split; [done|]. split; [done|].
    cbn. by rewrite <- app_assoc in Hv'.
  - cbn. exists [], top, rest. split_and!; try done. cbn. by rewrite app_nil_r.
Qed.

Lemma handle_indent_ends self stack es :
  vectors self es → line self = line_of chars p → last stack = Some 0%nat →
  ends P (handle_indent self n stack) (λ '(self', stack'), ∃ ts, indents n stack stack' ts ∧ at_place chars self' = at_place chars self ∧
    vectors self' (es ++ (layout chars p (cur_col self) <$> ts))).
Proof using Type.
  intros Hv Hl Hlast. unfold handle_indent. destruct stack as [|top rest]; [done|]. destruct (Nat.ltb_spec top n) as [Hlt|Hge].
  { estep; [estep|]. estep. exists [Token.Indent]. pos_facts. split; [by constructor|]. split; [done|]. by apply vectors_layout. }
  destruct (Nat.ltb_spec n top) as [Hlt|Hge'].
  - apply ends_bind. eapply ends_mono; [by apply dedent_ends|]. intros [self' stack'].
    intros (closed & top' & rest' & Hs & -> & Hc & Ht & Hp & Hcur & Hv'). cbn beta iota.
    destruct (Nat.eqb_spec n top') as [<-|]; [|estep]. estep. exists (replicate (length closed) Token.Dedent). split; [|done].
    rewrite Hs. apply indents_less; [|done]. intros ->. cbn in Hs. injection Hs. lia.
  - estep. exists []. assert (n = top) as -> by lia. split; [constructor|]. split; [done|]. cbn. by rewrite app_nil_r.
Qed.

Lemma close_indents_spec self stack es :
  vectors self es → line self = line_of chars p →
  vectors (close_indents self stack) (es ++ (layout chars p (cur_col self) <$> replicate (length stack - 1) Token.Dedent)) ∧
  line (close_indents self stack) = line_of chars p ∧ cur_col (close_indents self stack) = cur_col self.
Proof using Type.
  revert self es. induction stack as [|top rest IH]; intros self es Hv Hl; [cbn; by rewrite app_nil_r|].
  destruct rest as [|top' rest]; [cbn; by rewrite app_nil_r|]. cbn [close_indents].
  destruct (IH (emit self Token.Dedent) _ (vectors_layout _ _ _ _ _ Hv Hl) Hl) as (Hv' & Hl' & Hc'). split; [|done].
  cbn in *. rewrite Nat.sub_0_r in Hv'. by rewrite <- app_assoc in Hv'.
Qed.
End indentation.

(** ** Blank lines *)

Section trim.
  Context `{Unicode}.

Lemma prefix_len_all p cs c : prefix_len p cs = length cs → c ∈ cs → p c = true.
Proof using Type.
  induction cs as [|d cs IH]; [intros _ Hc; by apply not_elem_of_nil in Hc|]. cbn. destruct (p d) eqn:Hd; [|done].
  intros [= Hl] [->|Hc]%elem_of_cons; auto.
Qed.

Lemma trim_nil cs c : trim cs = [] → c ∈ cs → whitespace c = true.
Proof using Type.
  intros Ht Hc. rewrite <- (take_drop (prefix_len whitespace cs) cs) in Hc. apply elem_of_app in Hc as [Hc|Hc].
  - apply list_elem_of_lookup in Hc as [i Hi]. pose proof (lookup_lt_Some _ _ _ Hi) as Hlt. rewrite length_take in Hlt.
    rewrite lookup_take_lt in Hi by lia. destruct (prefix_len_lookup whitespace cs i) as (c' & Hi' & Hw); [lia|]. congruence.
  - assert (Hn : length (trim cs) = 0%nat) by by rewrite Ht.
    unfold trim, trim_end_matches, trim_start, trim_start_matches in Hn. rewrite length_reverse, length_drop in Hn.
    apply (prefix_len_all whitespace (reverse (drop (prefix_len whitespace cs) cs))); [|by apply elem_of_reverse].
    pose proof (prefix_len_le whitespace (reverse (drop (prefix_len whitespace cs) cs))). lia.
Qed.
End trim.

(** ** The source *)

Section source.
  Context {B : Type} `{BigIntText B, !Unicode, !UnicodeLaws} (int_limit : Z) (chars : list Z).
  Context (Hlen : Z.of_nat (length chars) + 1 < 2 ^ 32).
  Abbreviation len := (length chars).
  Abbreviation steps := (steps int_limit chars).
  Abbreviation P := (unbalanced_field chars).

Lemma space_white : whitespace (ch " ") = true ∧ ch " " ≠ LF.
Proof using Type*. by rewrite whitespace_ascii. Qed.

(** The spaces, the visible text and the end of a line. *)
Definition line_text (pos content_start line_end eol : nat) : Prop :=
  (pos <= content_start <= line_end)%nat ∧ (line_end <= eol <= len)%nat ∧
  (∀ i, (pos <= i < content_start)%nat → chars !! i = Some (ch " ")) ∧
  (∀ i, (line_end <= i < eol)%nat → chars !! i = Some CR) ∧ on_one_line chars pos eol ∧ at_eol chars eol.

Lemma blank_line_steps pos content_start line_end eol d k f b :
  line_text pos content_start line_end eol →
  let visible := take (line_end - content_start) (drop content_start chars) in
  trim visible = [] ∨ has_char (ch "#") (trim_start visible) 0 = true →
  steps (Build_Scan pos d k f b) [] (Build_Scan eol d k f b).
Proof using Type*.
  intros (Hpos & Heol & Hsp & Hcr & [_ Hone] & Hend) visible Hv.
  assert (Hlv : length visible = (line_end - content_start)%nat) by (unfold visible; rewrite length_take, length_drop; lia).
  assert (Hvis : ∀ i c, (content_start <= i < line_end)%nat → chars !! i = Some c → visible !! (i - content_start)%nat = Some c).
  { intros i c Hi Hc. unfold visible. rewrite lookup_slice by lia. by replace (content_start + (i - content_start))%nat with i by lia. }
  assert (Hspace : ∀ i, (pos <= i < content_start)%nat → ∃ c, chars !! i = Some c ∧ whitespace c = true ∧ c ≠ LF).
  { intros i Hi. exists (ch " "). split; [by apply Hsp|apply space_white]. }
  destruct Hv as [Hblank|Hcomment].
  - apply white_steps; [lia|]. intros i Hi. destruct (Hone i Hi) as (c & Hc & Hne). exists c. split; [done|]. split; [|done].
    destruct (decide (i < content_start)%nat); [destruct (Hspace i) as (c' & ? & ? & _); [lia|congruence]|].
    destruct (decide (i < line_end)%nat) as [Hi'|].
    + eapply trim_nil; [exact Hblank|]. apply (list_elem_of_lookup_2 _ (i - content_start)), (Hvis i); [lia|done].
    + specialize (Hcr i ltac:(lia)). assert (c = CR) as -> by congruence. by rewrite whitespace_ascii.
  - set (n := prefix_len whitespace visible). assert (Hsharp : visible !! n = Some (ch "#")).
    { unfold has_char, at_pos, trim_start, trim_start_matches in Hcomment. rewrite lookup_drop, Nat.add_0_r in Hcomment. fold n in Hcomment.
      destruct (visible !! n); [|done]. by apply Z.eqb_eq in Hcomment as <-. }
    pose proof (lookup_lt_Some _ _ _ Hsharp) as Hn. rewrite Hlv in Hn.
    unfold visible in Hsharp. rewrite lookup_slice in Hsharp by lia.
    rewrite <- (app_nil_l []). apply (steps_app _ _ _ _ (Build_Scan (content_start + n) d k f b)).
    + apply white_steps; [lia|]. intros i Hi. destruct (Hone i ltac:(lia)) as (c & Hc & Hne).
      destruct (decide (i < content_start)%nat); [apply Hspace; lia|]. exists c. split; [done|]. split; [|done].
      destruct (prefix_len_lookup whitespace visible (i - content_start)) as (c' & Hc' & Hw); [fold n; lia|].
      rewrite (Hvis i c) in Hc' by (done || lia). congruence.
    + apply steps_single, step_comment; [done| |done]. split; [lia|]. intros i Hi. apply Hone. lia.
Qed.

(** What [source_loop] has done, from [s] and the tokens [es0]. *)
Definition source_done (s : Scan) (es0 : list Placed) (self' : Lexer) (stack' : list nat) : Prop :=
  ∃ es s', steps s es s' ∧ s_pos s' = len ∧ s_stack s' = stack' ∧ line self' = line_of chars len ∧
    ∃ c, vectors self' (es0 ++ es ++ (layout chars len c <$> end_newline s')).

Lemma source_done_steps s es1 s1 es0 self' stack' :
  steps s es1 s1 → source_done s1 (es0 ++ es1) self' stack' → source_done s es0 self' stack'.
Proof using Type.
  intros Hs (es & s' & Hs' & Hp & Hk & Hl & c & Hv). exists (es1 ++ es), s'. split; [by eapply steps_app|].
  split; [done|]. split; [done|]. split; [done|]. exists c. by rewrite <- !app_assoc in *.
Qed.

Definition line_start (self : Lexer) (pos : nat) : Prop := (pos <= len)%nat ∧ col_of chars pos = 0%nat ∧ line self = line_of chars pos.
Definition outer_fuel (fuel pos : nat) : Prop := (len + 1 - pos < fuel)%nat.

(** After a line, given what the loop does from the next one. *)
Lemma after_line fuel s es0 self pos k d :
  outer_fuel fuel pos → line_done int_limit chars s es0 self pos d → s_stack s = k →
  (∀ es1, line_start self pos → vectors self es1 →
     ends P (source_loop int_limit fuel self chars pos k d)
       (λ '(self', stack'), source_done (Build_Scan pos d k (d =? 0)%nat false) es1 self' stack')) →
  ends P (source_loop int_limit fuel self chars pos k d) (λ '(self', stack'), source_done s es0 self' stack').
Proof using Type.
  intros Hfuel (_ & es & s' & (Hs & Hd & Hl) & Hk & Hend) Hsk IH. destruct Hend as [(Hp & Hle & Hcol & Hf & Hc & Hv)|(Hp & -> & Hv)].
  - eapply ends_mono; [apply (IH (es0 ++ es)); [|done]|].
    + split; [done|]. split; [done|]. by rewrite Hl, Hp.
    + intros [self' stack'] Hdone. eapply source_done_steps; [exact Hs|]. destruct s'. cbn in *. by subst.
  - unfold outer_fuel in Hfuel. destruct fuel as [|fuel]; [lia|]. cbn [source_loop].
    rewrite (proj2 (Nat.leb_gt (len + 1) len)) by lia. apply ends_Return. exists es, s'. split; [done|]. split; [done|]. split; [congruence|].
    split; [congruence|done].
Qed.

Lemma count_indent_ends pos (Q : nat → Prop) :
  Q (skip_while (Z.eqb (ch " ")) chars pos - pos)%nat → ends P (count_indent_chars chars pos) Q.
Proof using Type. intros HQ. unfold count_indent_chars. cbn zeta. estep; [estep|by estep]. Qed.

(** The line at [pos], as the loop measures it. *)
Lemma measure_line pos (Q : nat → Prop) :
  (pos <= len)%nat → col_of chars pos = 0%nat →
  let content_start := skip_while (Z.eqb (ch " ")) chars pos in
  let eol := skip_while (λ c, negb (c =? LF)) chars content_start in
  (∀ line_end, line_text pos content_start line_end eol → Q line_end) →
  ends P (if (0 <? eol)%nat then
            before ← char_at chars (eol - 1); Return (if before =? CR then (eol - 1)%nat else eol)
          else Return eol) Q.
Proof using Type*.
  intros Hpos Hcol content_start eol HQ. pose proof (skip_while_le chars (Z.eqb (ch " ")) pos Hpos) as Hcs. fold content_start in Hcs.
  assert (Hsp : ∀ i, (pos <= i < content_start)%nat → chars !! i = Some (ch " ")).
  { intros i Hi. apply skip_while_between in Hi as (c & Hc & Heq). by apply Z.eqb_eq in Heq as ->. }
  destruct (to_eol chars content_start) as [[Hle Hone] Hend]; [lia|]. fold eol in Hle, Hone, Hend.
  assert (eol <= len)%nat by (apply skip_while_le; lia).
  assert (Hline : on_one_line chars pos eol).
  { split; [lia|]. intros i Hi. destruct (decide (i < content_start)%nat); [|apply Hone; lia]. exists (ch " "). split; [apply Hsp; lia|done]. }
  assert (Hkeep : line_text pos content_start eol eol).
  { split; [lia|]. split; [lia|]. split; [done|]. split; [intros; lia|done]. }
  estep; [|by estep; apply HQ]. pos_facts. destruct (lookup_lt_is_Some_2 chars (eol - 1)) as [c Hc]; [lia|].
  rewrite (char_at_eq _ _ _ Hc), bind_Return. destruct (Z.eqb_spec c CR) as [->|_]; apply ends_Return, HQ; [|done].
  assert (content_start ≠ eol).
  { intros Heq. destruct (decide (pos < eol)%nat).
    - rewrite (Hsp (eol - 1)%nat) in Hc by lia. done.
    - pose proof (col_of_S chars _ _ Hc) as Hc0. replace (eol - 1 + 1)%nat with pos in Hc0 by lia. cbn in Hc0. lia. }
  split; [lia|]. split; [lia|]. split; [done|]. split; [|done]. intros i Hi. by replace i with (eol - 1)%nat by lia.
Qed.

Lemma source_loop_ends fuel self pos k d es0 :
  outer_fuel fuel pos → line_start self pos → vectors self es0 → last k = Some 0%nat →
  ends P (source_loop int_limit fuel self chars pos k d)
    (λ '(self', stack'), source_done (Build_Scan pos d k (d =? 0)%nat false) es0 self' stack').
Proof using Type*.
  revert self pos k d es0. induction fuel as [|fuel IH]; intros self pos k d es0 Hfuel (Hpos & Hcol & Hline) Hv Hlast; [unfold outer_fuel in Hfuel; lia|].
  cbn [source_loop]. rewrite (proj2 (Nat.leb_le pos len)) by done. cbn zeta. apply ends_bind, count_indent_ends.
  set (content_start := skip_while (Z.eqb (ch " ")) chars pos).
  pose proof (skip_while_le chars (Z.eqb (ch " ")) pos Hpos) as Hcs. fold content_start in Hcs.
  replace (pos + (content_start - pos))%nat with content_start by lia. apply ends_bind, measure_line; [done..|].
  fold content_start. set (eol := skip_while (λ c, negb (c =? LF)) chars content_start). intros line_end Htext.
  assert (Hp : at_place chars (set_line self (line self) pos) pos) by (split; [done|cbn; lia]).
  apply (vectors_set_line _ _ (line self) pos) in Hv. revert Hp Hv. generalize (set_line self (line self) pos).
  clear self Hline. intros self Hp Hv. destruct Htext as (Htext1 & Htext2 & Hsp & Hcr & Hone & Heol) eqn:Ht. clear Ht.
  rewrite (char_slice_eq chars content_start line_end), bind_Return by lia.
  assert (Hline : line self = line_of chars eol) by (rewrite (proj1 (one_line_places _ _ _ Hone)); apply Hp).
  destruct (bool_decide _ || _) eqn:Hblank.
  - assert (Hsteps : steps (Build_Scan pos d k (d =? 0)%nat false) [] (Build_Scan eol d k (d =? 0)%nat false)).
    { eapply blank_line_steps; [exact Htext|]. apply orb_prop in Hblank as [?%bool_decide_eq_true|?]; auto. }
    cbn zeta. destruct (Nat.ltb_spec eol len) as [Hlt|Hge].
    + destruct Heol as [?|Hlf]; [lia|].
      assert (Hline' : line (if (d =? 0)%nat then emit self Token.Newline else self) = line_of chars eol) by (by destruct (d =? 0)%nat).
      rewrite Hline', (next_line_place chars Hlen eol Hlf), bind_Return. eapply after_line; [unfold outer_fuel in *; lia| |done|].
      * eapply line_done_steps; [exact Hsteps|cbn; lia|done|]. rewrite app_nil_r. apply line_feed; try done. by destruct (Nat.eqb_spec d 0).
      * intros es1 Hs1 Hv1. apply IH; [unfold outer_fuel in *; lia|done..].
    + assert (eol = len) as Hend by lia. eapply after_line; [unfold outer_fuel in *; lia| |done|].
      * eapply line_done_steps; [exact Hsteps|cbn; lia|done|]. rewrite app_nil_r.
        pose proof (end_of_source int_limit chars self eol d k (d =? 0)%nat false es0) as Hle. rewrite andb_true_r in Hle.
        apply Hle; [lia|by apply lookup_ge_None; lia|done|done].
      * intros es1 [Hs1 _]. lia.
  - assert (Hcs1 : on_one_line chars pos content_start) by (split; [lia|intros i Hi; apply Hone; lia]).
    assert (Hp1 : at_place chars self content_start) by (by eapply at_place_line).
    assert (Hwhite : steps (Build_Scan pos d k (d =? 0)%nat false) [] (Build_Scan content_start d k (d =? 0)%nat false)).
    { apply white_steps; [lia|]. intros i Hi. exists (ch " "). split; [by apply Hsp|apply space_white]. }
    apply ends_bind. apply (ends_mono _ _ (λ '(self2, k2), ∃ es1,
      steps (Build_Scan pos d k (d =? 0)%nat false) es1 (Build_Scan content_start d k2 false false) ∧
      vectors self2 (es0 ++ es1) ∧ at_place chars self2 content_start ∧ last k2 = Some 0%nat)).
    + destruct (Nat.eqb_spec d 0) as [->|Hd]; [|estep; exists []; by rewrite app_nil_r].
      eapply ends_mono; [apply (handle_indent_ends P chars content_start); [exact Hv|apply Hp1|done]|].
      intros [self2 k2] (ts & Hi & Hp2 & Hv2). exists (layout chars content_start (cur_col self) <$> ts). split; [|split; [done|]].
      * rewrite <- (app_nil_l (_ <$> ts)). eapply steps_app; [exact Hwhite|]. apply steps_single, step_indent.
        -- intros i Hi'. apply Hsp. pose proof (proj2 (one_line_places _ _ _ Hcs1)). lia.
        -- rewrite (proj2 (one_line_places _ _ _ Hcs1)), Hcol. done.
      * rewrite Hp2. split; [done|]. by eapply indents_last.
    + intros [self2 k2] (es1 & Hs1 & Hv2 & Hp2 & Hl2). apply ends_bind. unfold lex_line_tokens.
      eapply ends_mono; [apply (line_loop_ends int_limit chars Hlen _ _ _ d k2 false (es0 ++ es1));
        [unfold scanning, scan_fuel; lia|done|done]|].
      intros [[self3 pos3] d3] Hdone. pose proof (proj1 Hdone) as Hlt. cbn in Hlt. cbn beta iota.
      eapply ends_mono; [eapply after_line; [|exact Hdone|done|]|].
      * unfold outer_fuel in *. lia.
      * intros es2 Hs2 Hv3. apply IH; [unfold outer_fuel in *; lia|done..].
      * intros [self' stack'] Hsd. by eapply source_done_steps.
Qed.
End source.

(** ** The whole source *)

(** The tokens [closing] are those that the end of the source makes in [s]. *)
Definition closes (chars : list Z) (s : Scan) (closing : list Placed) : Prop :=
  s_pos s = length chars ∧ p_token <$> closing = end_tokens s ∧ Forall (λ e, p_line e = line_of chars (length chars)) closing.

Lemma layouts_closing chars p c (ts : list Token.Token) :
  p_token <$> (layout chars p c <$> ts) = ts ∧ Forall (λ e, p_line e = line_of chars p) (layout chars p c <$> ts).
Proof. induction ts as [|t ts [IH1 IH2]]; cbn; [done|]. split; [by f_equal|]. by constructor. Qed.

Lemma lexer_ends {B} `{BigIntText B, !Unicode, !UnicodeLaws} int_limit chars :
  Z.of_nat (length chars) + 1 < 2 ^ 32 →
  ends (unbalanced_field chars) (lexer int_limit chars) (λ self, ∃ es s closing,
    steps int_limit chars scan_start es s ∧ closes chars s closing ∧ vectors self (es ++ closing)).
Proof.
  intros Hlen. unfold lexer, lex_source. apply ends_bind. eapply ends_mono.
  { apply (source_loop_ends int_limit chars Hlen _ lexer_new 0 [0%nat] 0 []); [unfold outer_fuel; lia| |apply vectors_new|done].
    split; [lia|done]. }
  intros [self stack] (es & s & Hs & Hp & Hk & Hl & c & Hv). cbn [app] in Hv. apply ends_Return.
  destruct (close_indents_spec chars (length chars) self stack _ Hv Hl) as (Hv' & Hl' & _).
  pose proof (vectors_layout chars _ _ Token.Eof _ Hv' Hl') as Hv''. rewrite <- !app_assoc in Hv''.
  eexists es, s, _. split; [exact Hs|]. split; [|exact Hv'']. split; [done|]. unfold end_tokens. rewrite Hk.
  destruct (layouts_closing chars (length chars) c (end_newline s)) as [Ht1 Hl1].
  destruct (layouts_closing chars (length chars) (cur_col self) (replicate (length stack - 1) Token.Dedent)) as [Ht2 Hl2]. split.
  - by rewrite !fmap_app, Ht1, Ht2.
  - rewrite !Forall_app. split; [done|]. split; [done|]. by repeat constructor.
Qed.

(** * Levels of indentation *)


(** ** Levels *)

Definition level_change (t : Token.Token) : Z :=
  match t with Token.Indent => 1 | Token.Dedent => -1 | _ => 0 end.
Definition level_after (n : Z) (ts : list Token.Token) : Z := foldl (λ n t, n + level_change t) n ts.

(** From level [n], the levels stay in range and end at [m]. *)
Definition levels (n : Z) (ts : list Token.Token) (m : Z) : Prop :=
  level_after n ts = m ∧ ∀ k, 0 ≤ level_after n (take k ts) ≤ 99.

Lemma level_after_app n ts1 ts2 : level_after n (ts1 ++ ts2) = level_after (level_after n ts1) ts2.
Proof. apply foldl_app. Qed.

Lemma levels_nil n : 0 ≤ n ≤ 99 → levels n [] n.
Proof. intros Hn. split; [done|]. intros k. by rewrite take_nil. Qed.

Lemma levels_cons n t ts m : 0 ≤ n ≤ 99 → levels (n + level_change t) ts m → levels n (t :: ts) m.
Proof. intros Hn [Hl Hk]. split; [done|]. intros [|k]; [done|]. apply Hk. Qed.

Lemma levels_app n ts1 m ts2 k : levels n ts1 m → levels m ts2 k → levels n (ts1 ++ ts2) k.
Proof.
  intros [<- H1] [Hl H2]. split; [by rewrite level_after_app|]. intros i. rewrite take_app, level_after_app.
  destruct (decide (i <= length ts1)%nat).
  - replace (i - length ts1)%nat with 0%nat by lia. rewrite take_0. apply H1.
  - rewrite take_ge by lia. apply H2.
Qed.

Lemma levels_flat n t : 0 ≤ n ≤ 99 → level_change t = 0 → levels n [t] n.
Proof. intros Hn Ht. apply levels_cons; [done|]. rewrite Ht, Z.add_0_r. by apply levels_nil. Qed.

Lemma levels_dedents n k : (k <= n)%nat → Z.of_nat n ≤ 99 → levels (Z.of_nat n) (replicate k Token.Dedent) (Z.of_nat (n - k)).
Proof.
  revert n. induction k as [|k IH]; intros n Hk Hn; cbn [replicate].
  - rewrite Nat.sub_0_r. apply levels_nil. lia.
  - apply levels_cons; [lia|]. cbn. replace (Z.of_nat n + -1) with (Z.of_nat (n - 1)) by lia.
    replace (n - S k)%nat with (n - 1 - k)%nat by lia. apply IH; lia.
Qed.

(** ** Tokens that are not of the layout *)

Definition is_fstring (t : Token.Token) : bool := match t with Token.FString _ => true | _ => false end.

(** Every result is a token that is not one of [bad]. *)
Definition makes_no (bad : Token.Token → bool) (m : outcome (Token.Token * nat)) : Prop := ∀ t next, m = Return (t, next) → bad t = false.
Abbreviation solid := (makes_no is_layout).
Abbreviation plain := (makes_no (λ t, is_layout t || is_fstring t)).

Lemma plain_solid m : plain m → solid m.
Proof. intros Hm t next Hr. specialize (Hm t next Hr). by apply orb_false_iff in Hm as [? ?]. Qed.

Lemma makes_no_bind {A} bad (m : outcome A) f : (∀ a, makes_no bad (f a)) → makes_no bad (m ≫= f).
Proof. destruct m; cbn; try by intros ????. auto. Qed.
Lemma makes_no_Return bad t next : bad t = false → makes_no bad (Return (t, next)).
Proof. by intros ??? [= <- <-]. Qed.

Ltac solid_step :=
  match goal with
  | |- makes_no _ (Return _) => by apply makes_no_Return
  | |- makes_no _ (lex_err _) => by intros ??
  | |- makes_no _ (Raise _) => by intros ??
  | |- makes_no _ OutOfFuel => by intros ??
  | |- makes_no _ (_ ≫= _) => apply makes_no_bind; intros
  | |- makes_no _ (if ?b then _ else _) => destruct b
  | |- makes_no _ (match ?x with _ => _ end) => destruct x
  | IH : context [makes_no] |- makes_no _ _ => apply IH
  end.
Ltac solid_tac := repeat solid_step.

Section solid.
  Context {B : Type} `{BigIntText B, Unicode} (int_limit : Z) (chars : list Z).

Lemma string_loops_plain fuel quote raw content_start pos out :
  plain (string_loop fuel chars quote raw content_start pos out) ∧
  plain (triple_string_loop fuel chars quote raw content_start pos out) ∧
  plain (bytes_loop fuel chars quote raw pos out) ∧ plain (triple_bytes_loop fuel chars quote raw pos out).
Proof using Type.
  revert pos out. induction fuel as [|fuel IH]; intros pos out; [split; [|split; [|split]]; by intros ??|].
  cbn [string_loop triple_string_loop bytes_loop triple_bytes_loop]. split; [|split; [|split]]; solid_tac.
Qed.

Lemma lex_string_plain start raw : plain (lex_string chars start raw).
Proof using Type. unfold lex_string. solid_tac; apply string_loops_plain. Qed.
Lemma lex_bytes_plain start raw : plain (lex_bytes chars start raw).
Proof using Type. unfold lex_bytes. solid_tac; apply string_loops_plain; exact 0%nat. Qed.

Lemma fstring_loop_solid fuel quote raw triple line_start_pos content_start pos parts literal :
  solid (fstring_loop fuel chars quote raw triple line_start_pos content_start pos parts literal).
Proof using Type. revert pos parts literal. induction fuel as [|fuel IH]; intros pos parts literal; cbn [fstring_loop]; solid_tac. Qed.

Lemma float_token_plain start pos : plain (float_token chars start pos).
Proof using Type. unfold float_token. solid_tac. Qed.

Lemma lex_number_plain start : plain (lex_number int_limit chars start).
Proof using Type.
  unfold lex_number, lex_radix, lex_decimal. solid_tac; try apply float_token_plain.
Qed.

Lemma ident_plain pos : is_layout (lex_ident_or_keyword chars pos).1 || is_fstring (lex_ident_or_keyword chars pos).1 = false.
Proof using Type.
  unfold lex_ident_or_keyword. cbn [fst]. generalize (take (skip_while ident_continue chars pos - pos) (drop pos chars)). intros text.
  unfold keywords. cbn [find_keyword]. by repeat case_match.
Qed.

Lemma operator_plain c c1 c2 t width : operator c c1 c2 = Some (t, width) → is_layout t || is_fstring t = false.
Proof using Type. unfold operator. intros Ho. by repeat case_match; simplify_eq. Qed.

Lemma lex_token_solid pos line_start_pos c : solid (lex_token int_limit chars pos line_start_pos c).
Proof using Type.
  assert (Hident : solid (Return (lex_ident_or_keyword chars pos))).
  { rewrite (surjective_pairing (lex_ident_or_keyword _ _)). apply plain_solid, makes_no_Return, ident_plain. }
  unfold lex_token, lex_word, lex_leading_dot_float, lex_fstring. cbn zeta.
  destruct (operator c _ _) as [[t width]|] eqn:Ho; [apply operator_plain, orb_false_iff in Ho as [Ho _]|]; solid_tac; try done;
    first [apply fstring_loop_solid|apply plain_solid; first [apply lex_number_plain|apply lex_string_plain|apply lex_bytes_plain|apply float_token_plain]].
Qed.
End solid.

(** ** The levels of a scan *)

Section scan.
  Context {B : Type} `{BigIntText B, Unicode} (int_limit : Z) (chars : list Z).

Definition level (k : list nat) : Z := Z.of_nat (length k) - 1.
Definition stack_ok (k : list nat) : Prop := 0 ≤ level k ≤ 99.

Lemma indents_levels n k k' ts : indents n k k' ts → stack_ok k → stack_ok k' ∧ levels (level k) ts (level k').
Proof using Type.
  unfold stack_ok, level. intros [rest|top rest _ Hmax|closed rest _ _] Hk.
  - split; [done|by apply levels_nil].
  - unfold MAX_INDENT_LEVELS in Hmax. cbn [length] in *. split; [lia|]. apply levels_cons; [lia|]. cbn.
    replace (Z.of_nat (S (length rest)) - 1 + 1) with (Z.of_nat (S (S (length rest))) - 1) by lia. apply levels_nil. lia.
  - rewrite length_app in *. cbn [length] in *. split; [lia|].
    replace (Z.of_nat (length closed + S (length rest)) - 1) with (Z.of_nat (length closed + length rest)) by lia.
    replace (Z.of_nat (S (length rest)) - 1) with (Z.of_nat (length closed + length rest - length closed)) by lia.
    apply levels_dedents; lia.
Qed.

Lemma fmap_layout p col (ts : list Token.Token) : p_token <$> (layout chars p col <$> ts) = ts.
Proof using Type. induction ts as [|t ts IH]; cbn; [done|by f_equal]. Qed.

Lemma step_levels s es s' :
  step int_limit chars s es s' → stack_ok (s_stack s) →
  stack_ok (s_stack s') ∧ levels (level (s_stack s)) (p_token <$> es) (level (s_stack s')).
Proof using Type.
  intros Hs Hk. destruct Hs as [| | | | |p k k' ts col _ Hi|p next d k b c t _ Ht]; cbn [s_stack fmap list_fmap] in *;
    try (split; [done|by apply levels_nil]).
  - split; [done|by apply levels_flat].
  - change (stack_ok k' ∧ levels (level k) (p_token <$> (layout chars p col <$> ts)) (level k')). rewrite fmap_layout. by eapply indents_levels.
  - split; [done|]. apply levels_flat; [done|]. cbn. apply lex_token_solid in Ht. by destruct t.
Qed.

Lemma steps_levels s es s' :
  steps int_limit chars s es s' → stack_ok (s_stack s) →
  stack_ok (s_stack s') ∧ levels (level (s_stack s)) (p_token <$> es) (level (s_stack s')).
Proof using Type.
  induction 1 as [|s es s' es' s'' Hs _ IH]; intros Hk; [split; [done|by apply levels_nil]|].
  destruct (step_levels _ _ _ Hs Hk) as [Hk' Hl]. destruct (IH Hk') as [Hk'' Hl']. split; [done|].
  rewrite fmap_app. by eapply levels_app.
Qed.

Lemma step_no_eof s es s' : step int_limit chars s es s' → Token.Eof ∉ p_token <$> es.
Proof using Type.
  intros [| | | | |p k k' ts col _ Hi|p next d k b c t _ Ht]; cbn [fmap list_fmap]; try (by apply not_elem_of_nil).
  - by apply not_elem_of_cons; split; [|apply not_elem_of_nil].
  - change (Token.Eof ∉ p_token <$> (layout chars p col <$> ts)). rewrite fmap_layout.
    destruct Hi as [| |closed]; [apply not_elem_of_nil|by apply not_elem_of_cons; split; [|apply not_elem_of_nil]|].
    by intros [? _]%elem_of_replicate.
  - apply not_elem_of_cons. split; [|apply not_elem_of_nil]. apply lex_token_solid in Ht. cbn. by intros <-.
Qed.

Lemma steps_no_eof s es s' : steps int_limit chars s es s' → Token.Eof ∉ p_token <$> es.
Proof using Type.
  induction 1 as [|s es s' es' s'' Hs _ IH]; [apply not_elem_of_nil|]. rewrite fmap_app, not_elem_of_app. split; [by eapply step_no_eof|done].
Qed.

Lemma end_levels s : stack_ok (s_stack s) → levels (level (s_stack s)) (end_tokens s) 0.
Proof using Type.
  intros Hk. unfold end_tokens. eapply levels_app.
  { unfold end_newline. case_match; [by apply levels_flat|by apply levels_nil]. }
  unfold stack_ok, level in *. eapply levels_app; [|by apply levels_flat].
  replace (Z.of_nat (length (s_stack s)) - 1) with (Z.of_nat (length (s_stack s) - 1)) by lia.
  replace 0 with (Z.of_nat (length (s_stack s) - 1 - (length (s_stack s) - 1))) by lia. apply levels_dedents; lia.
Qed.
End scan.
