(* ===== verification/LexProps.v ===== *)
(** What the lexer guarantees, with a concrete table of characters. *)

From stdpp Require Import strings.
From S2P Require Import Outcome Prelude Double Chars LexLiterals LexFStrings Lexer LexBounds LexLayout.

(** ** Concrete instances: characters of ASCII, and integers for big integers *)

#[export] Instance ascii_unicode : Unicode :=
  {| alphabetic := is_ascii_letter; whitespace c := bool_decide (c ∈ [9; 10; 11; 12; 13; 32]); debug_char _ := "";
     character_named _ := None |}.

#[export] Instance ascii_unicode_laws : UnicodeLaws.
Proof. by split. Qed.

(** The decimal digits of [n], the least significant computed first. *)
Fixpoint decimal (fuel : nat) (n : Z) (acc : list Z) : list Z :=
  match fuel with
  | O => acc
  | S fuel =>
      let acc := (ch "0" + n mod 10) :: acc in
      if n <? 10 then acc else decimal fuel (n / 10) acc
  end.

#[export] Instance Z_text : BigIntText Z :=
  {| big_parse radix text := digits_value radix 0 text; big_to_string n := decimal 100 n [] |}.

(** The source [if x:], an indented line that continues in brackets, and a comment. *)
Definition sample_source : list Z :=
  chars_of "if x:" ++ [LF] ++ chars_of "  y = [0x_ff," ++ [LF] ++ chars_of " 1.5]  # two" ++ [LF] ++ chars_of "z" ++ [LF].

Definition run (source : list Z) : option (list Token.Token) :=
  match lexer 4300 source with Return self => Some (tokens self) | _ => None end.

Section properties.
  Context {B : Type} `{BigIntText B, !Unicode, !UnicodeLaws} (int_limit : Z) (chars : list Z).
  Abbreviation lexer := (lexer int_limit chars).

(** C7: The tokens that the lexer returns are those of a left-to-right scan of
    the source: every one is made by [lex_token] at a position outside comments,
    white space and other tokens, or is a token of the layout (a newline outside
    brackets that no backslash precedes, the indentation of a logical line as
    compared with the levels that are open, or the end of the source); the four
    vectors returned are parallel, lines count the line feeds before a token,
    columns the characters since the last of them, and the end column is given
    where the token is on one line. *)
Theorem tokens_follow_the_scan self :
  Z.of_nat (length chars) + 1 < 2 ^ 32 → lexer = Return self →
  ∃ es s closing, steps int_limit chars scan_start es s ∧ closes chars s closing ∧
    into_tokens_with_pos self = Return (p_token <$> es ++ closing, p_line <$> es ++ closing, p_col <$> es ++ closing,
      p_col_end <$> es ++ closing).
Proof.
  intros Hlen Hr. pose proof (lexer_ends int_limit chars Hlen) as He. rewrite Hr in He. destruct He as (es & s & closing & Hs & Hc & Hv).
  exists es, s, closing. split; [done|]. split; [done|]. by apply vectors_returned.
Qed.

(** C15: Lexing a source of less than four gigabytes of characters ends, with
    tokens or with a lexical error, whatever the source; the one exception is a
    panic, and then the source has a brace, an opening bracket and a closing
    brace in this order. *)
Theorem lexing_ends :
  Z.of_nat (length chars) + 1 < 2 ^ 32 →
  (∃ self, lexer = Return self) ∨ (∃ message, lexer = Raise (Lex message)) ∨ (lexer = Panicked ∧ unbalanced_field chars).
Proof.
  intros Hlen. pose proof (lexer_ends int_limit chars Hlen) as He.
  destruct lexer as [self|e| |]; cbn in He; [by left; eexists| |by right; right|done].
  destruct He as [message ->]. right; left. by eexists.
Qed.

(** C25: In the tokens of a source, the levels of indentation never go below
    zero nor above 99, all of them are closed at the end, and the last token,
    and no other, is that of the end. *)
Theorem indentation_is_bounded self :
  Z.of_nat (length chars) + 1 < 2 ^ 32 → lexer = Return self →
  levels 0 (tokens self) 0 ∧ ∃ ts, tokens self = ts ++ [Token.Eof] ∧ Token.Eof ∉ ts.
Proof.
  intros Hlen Hr. pose proof (lexer_ends int_limit chars Hlen) as He. rewrite Hr in He. destruct He as (es & s & closing & Hs & (_ & Hc & _) & Hv).
  rewrite (vectors_tokens _ _ Hv), fmap_app, Hc. destruct (steps_levels _ _ _ _ _ Hs) as [Hk Hl]; [done|]. split.
  - eapply levels_app; [exact Hl|by apply end_levels].
  - unfold end_tokens. rewrite !app_assoc. eexists. split; [done|]. rewrite !not_elem_of_app. split; [split|].
    + by eapply steps_no_eof.
    + unfold end_newline. case_match; [|apply not_elem_of_nil]. by apply not_elem_of_cons; split; [|apply not_elem_of_nil].
    + by intros [? _]%elem_of_replicate.
Qed.
End properties.

(** ** Witnesses *)

Lemma tokens_follow_the_scan_witness :
  ∃ self es s closing, lexer 4300 sample_source = Return self ∧ steps 4300 sample_source scan_start es s ∧ closes sample_source s closing ∧
    into_tokens_with_pos self = Return (p_token <$> es ++ closing, p_line <$> es ++ closing, p_col <$> es ++ closing,
      p_col_end <$> es ++ closing).
Proof.
  eexists. destruct (tokens_follow_the_scan 4300 sample_source _ ltac:(vm_compute; reflexivity) ltac:(vm_compute; reflexivity))
    as (es & s & closing & H1 & H2 & H3).
  exists es, s, closing. split; [vm_compute; reflexivity|]. split; [exact H1|]. split; [exact H2|exact H3].
Defined.

Lemma lexing_ends_witness :
  Z.of_nat (length sample_source) + 1 < 2 ^ 32 ∧
  ((∃ self, lexer 4300 sample_source = Return self) ∨ (∃ message, lexer 4300 sample_source = Raise (Lex message)) ∨
   (lexer 4300 sample_source = Panicked ∧ unbalanced_field sample_source)).
Proof. split; [vm_compute; reflexivity|]. apply (lexing_ends 4300 sample_source). vm_compute. reflexivity. Defined.

Lemma indentation_is_bounded_witness :
  ∃ self, lexer 4300 sample_source = Return self ∧ levels 0 (tokens self) 0 ∧
    ∃ ts, tokens self = ts ++ [Token.Eof] ∧ Token.Eof ∉ ts.
Proof.
  eexists. split; [vm_compute; reflexivity|].
  apply (indentation_is_bounded 4300 sample_source); [vm_compute; reflexivity|vm_compute; reflexivity].
Defined.

(** ** Where the lexer differs from Python

    An exponent without digits is not undone: the letter, and a sign after it,
    are lost. *)
Example bare_exponent_is_dropped :
  run (chars_of "1e+") = Some [Token.Int 1; Token.Newline; Token.Eof] ∧
  run (chars_of "1else") = Some [Token.Int 1; Token.Ident (chars_of "lse"); Token.Newline; Token.Eof].
Proof. split; vm_compute; reflexivity. Qed.

(** The digits of an escape may begin with a plus sign. *)
Example escapes_take_a_sign :
  run ([QUOTE; BACKSLASH] ++ chars_of "x+5" ++ [QUOTE]) = Some [Token.Str [5]; Token.Newline; Token.Eof].
Proof. vm_compute. reflexivity. Qed.

(** A closing brace in brackets inside a replacement field is a panic. *)
Example unbalanced_field_panics : lexer 4300 (chars_of "f" ++ [QUOTE] ++ chars_of "{(}" ++ [QUOTE]) = Panicked.
Proof. vm_compute. reflexivity. Qed.

(** A string in single quotes may go on in the next line. *)
Example strings_cross_lines : run ([QUOTE; ch "a"; LF; ch "b"; QUOTE]) = Some [Token.Str [97; 10; 98]; Token.Newline; Token.Eof].
Proof. vm_compute. reflexivity. Qed.

(** A backslash joins lines wherever it is in the line. *)
Example backslash_anywhere_joins_lines :
  run ([ch "a"; BACKSLASH; ch "b"; LF; ch "c"]) =
    Some [Token.Ident [97]; Token.Ident [98]; Token.Ident [99]; Token.Newline; Token.Eof].
Proof. vm_compute. reflexivity. Qed.
