(* ===== verification/Repr.v ===== *)
(** The texts of strings, bytes and integers as literals
    (crates/pyrust-core/src/core/value_helpers: string_escape.rs and
    primitive_repr.rs; [repr_raw] of value_conversion.rs; [py_repr_str] of
    crates/pyrust/src/compiler/model/expression_text.rs; [ascii_escape_str] of
    crates/pyrust/src/interpreter/runtime/exceptions/render.rs).  A string is its
    bytes, in which lone surrogates may be encoded; its text is characters.

    Integers and their texts: [hex], [oct] and [bin], [chr], and what [int] does
    with a string (crates/pyrust/src/builtin_modules/bodies/builtins:
    parsing_bytes.rs, constructor_support.rs, int_constructor.rs;
    crates/pyrust/src/interpreter/runtime/formatting/value_repr.rs). *)

From stdpp Require Import strings.
From S2P Require Import Outcome Prelude Double Chars LexLiterals.

(** ** Code points *)

(** The code point at [byte_offset], and the offset after it. *)
Definition cesu8_next_codepoint (bytes : list Z) (byte_offset : nat) : option (Z * nat) :=
  b0 ← bytes !! byte_offset;
  '(cp, width) ←
    (if b0 <? 0x80 then Some (b0, 1%nat)
     else if b0 <? 0xE0 then
       b1 ← bytes !! (byte_offset + 1)%nat;
       Some (Z.lor (Z.shiftl (Z.land b0 0x1F) 6) (Z.land b1 0x3F), 2%nat)
     else if b0 <? 0xF0 then
       b1 ← bytes !! (byte_offset + 1)%nat;
       b2 ← bytes !! (byte_offset + 2)%nat;
       Some (Z.lor (Z.lor (Z.shiftl (Z.land b0 0x0F) 12) (Z.shiftl (Z.land b1 0x3F) 6)) (Z.land b2 0x3F), 3%nat)
     else
       b1 ← bytes !! (byte_offset + 1)%nat;
       b2 ← bytes !! (byte_offset + 2)%nat;
       b3 ← bytes !! (byte_offset + 3)%nat;
       Some (Z.lor (Z.lor (Z.lor (Z.shiftl (Z.land b0 0x07) 18) (Z.shiftl (Z.land b1 0x3F) 12)) (Z.shiftl (Z.land b2 0x3F) 6))
               (Z.land b3 0x3F), 4%nat));
  Some (cp, (byte_offset + width)%nat).

(** Each step moves on by a byte at least. *)
Fixpoint codepoints_from (fuel : nat) (bytes : list Z) (byte_offset : nat) : list Z :=
  match fuel with
  | O => []
  | S fuel =>
      match cesu8_next_codepoint bytes byte_offset with
      | Some (codepoint, next_offset) => codepoint :: codepoints_from fuel bytes next_offset
      | None => []
      end
  end.
Definition cesu8_codepoints (bytes : list Z) : list Z := codepoints_from (length bytes) bytes 0.

Definition is_surrogate (cp : Z) : bool := (0xD800 <=? cp) && (cp <=? 0xDFFF).

Definition cesu8_encode_codepoint (cp : Z) : outcome (list Z) :=
  if is_surrogate cp then
    Return [Z.lor 0xE0 (Z.shiftr cp 12 mod 256); Z.lor 0x80 (Z.land (Z.shiftr cp 6) 0x3F); Z.lor 0x80 (Z.land cp 0x3F)]
  else match char_from_u32 cp with Some c => Return (encode_utf8 c) | None => Panicked end.

(** [std::str::from_utf8]: the bytes of scalar values. *)
Definition from_utf8 (bytes : list Z) : option (list Z) :=
  let cs := cesu8_codepoints bytes in
  if forallb is_scalar cs && bool_decide (utf8 cs = bytes) then Some cs else None.

(** ** Formatting of numbers *)

Definition digit_char (d : Z) : Z := if d <? 10 then ch "0" + d else ch "a" + (d - 10).

(** The digits of [n], the least significant computed first. *)
Fixpoint format_radix (fuel : nat) (base n : Z) (acc : list Z) : list Z :=
  match fuel with
  | O => acc
  | S fuel =>
      let acc := digit_char (n mod base) :: acc in
      if n <? base then acc else format_radix fuel base (n / base) acc
  end.

(** [format!("{n:0widthx}")] of an unsigned number, and [n.to_string()] of one
    of 64 bits. *)
Definition padded (width : nat) (cs : list Z) : list Z := replicate (width - length cs) (ch "0") ++ cs.
Definition hex_format (width : nat) (n : Z) : list Z := padded width (format_radix 64 16 n []).
Definition int_to_string (n : Z) : list Z :=
  if n <? 0 then ch "-" :: format_radix 64 10 (- n) [] else format_radix 64 10 n [].

(** ** Strings *)

(** Categories of characters, by the crate unicode_general_category. *)
Inductive GeneralCategory : Type :=
  | Control | Format | Surrogate | PrivateUse | Unassigned | SpaceSeparator | LineSeparator | ParagraphSeparator
  | OtherCategory.

Class Categories := general_category : Z → GeneralCategory.

Section strings.
  Context `{Categories}.

Definition cp_is_printable (n : Z) : bool :=
  if n =? 0x20 then true
  else if is_surrogate n then false
  else
    match char_from_u32 n with
    | None => false
    | Some c => match general_category c with OtherCategory => true | _ => false end
    end.

Definition repr_quote (s : list Z) : Z :=
  if bool_decide (APOSTROPHE ∈ s) && negb (bool_decide (QUOTE ∈ s)) then QUOTE else APOSTROPHE.

Definition escape_codepoint (quote n : Z) : list Z :=
  if n =? 0x5C then [BACKSLASH; BACKSLASH]
  else if n =? 0x0A then [BACKSLASH; ch "n"]
  else if n =? 0x09 then [BACKSLASH; ch "t"]
  else if n =? 0x0D then [BACKSLASH; ch "r"]
  else if n =? quote then [BACKSLASH; quote]
  else if negb (cp_is_printable n) then
    if n <=? 0xFF then BACKSLASH :: ch "x" :: hex_format 2 n
    else if n <=? 0xFFFF then BACKSLASH :: ch "u" :: hex_format 4 n
    else BACKSLASH :: ch "U" :: hex_format 8 n
  else match char_from_u32 n with Some c => [c] | None => BACKSLASH :: ch "u" :: hex_format 4 n end.

Definition escape_str (s : list Z) (quote : Z) : list Z := mjoin (escape_codepoint quote <$> cesu8_codepoints s).

(** [repr_raw] of a string. *)
Definition str_repr (s : list Z) : list Z := let q := repr_quote s in [q] ++ escape_str s q ++ [q].

(** What [ascii()] does to a text. *)
Definition ascii_escape_char (c : Z) : list Z :=
  if c <? 0x80 then [c]
  else if c <=? 0xFF then BACKSLASH :: ch "x" :: hex_format 2 c
  else if c <=? 0xFFFF then BACKSLASH :: ch "u" :: hex_format 4 c
  else BACKSLASH :: ch "U" :: hex_format 8 c.
Definition ascii_escape_str (s : list Z) : list Z := mjoin (ascii_escape_char <$> s).
End strings.

(** ** The compiler's own text of a string constant *)

(** The text of a [char], which is a scalar value. *)
Definition py_repr_char (quote c : Z) : list Z :=
  if c =? BACKSLASH then [BACKSLASH; BACKSLASH]
  else if c =? 10 then [BACKSLASH; ch "n"]
  else if c =? 13 then [BACKSLASH; ch "r"]
  else if c =? 9 then [BACKSLASH; ch "t"]
  else if c =? 7 then [BACKSLASH; ch "a"]
  else if c =? 8 then [BACKSLASH; ch "b"]
  else if c =? 12 then [BACKSLASH; ch "f"]
  else if c =? 11 then [BACKSLASH; ch "v"]
  else if (c =? APOSTROPHE) && (quote =? APOSTROPHE) then [BACKSLASH; APOSTROPHE]
  else if (c =? QUOTE) && (quote =? QUOTE) then [BACKSLASH; QUOTE]
  else if (c <? 0x20) || (c =? 0x7F) then BACKSLASH :: ch "x" :: hex_format 2 c
  else [c].

(** [s.chars()] is defined for UTF-8 only: on the bytes of a lone surrogate,
    which strings may hold, the behaviour of the function is undefined. *)
Definition py_repr_str (s : list Z) : option (list Z) :=
  let has_single := bool_decide (APOSTROPHE ∈ s) in
  let has_double := bool_decide (QUOTE ∈ s) in
  let quote := if has_single && negb has_double then QUOTE else APOSTROPHE in
  chars ← from_utf8 s;
  Some ([quote] ++ mjoin (py_repr_char quote <$> chars) ++ [quote]).

(** ** Bytes *)

Definition bytes_repr_byte (q b : Z) : list Z :=
  if b =? 0x09 then [BACKSLASH; ch "t"]
  else if b =? 0x0A then [BACKSLASH; ch "n"]
  else if b =? 0x0D then [BACKSLASH; ch "r"]
  else if b =? 0x5C then [BACKSLASH; BACKSLASH]
  else if (b =? APOSTROPHE) && (q =? APOSTROPHE) then [BACKSLASH; APOSTROPHE]
  else if (b =? QUOTE) && (q =? QUOTE) then [BACKSLASH; QUOTE]
  else if (0x20 <=? b) && (b <=? 0x7E) then [b]
  else BACKSLASH :: ch "x" :: hex_format 2 b.

Definition bytes_repr (bytes : list Z) : list Z :=
  let has_single := bool_decide (APOSTROPHE ∈ bytes) in
  let has_double := bool_decide (QUOTE ∈ bytes) in
  let q := if has_single && negb has_double then QUOTE else APOSTROPHE in
  [ch "b"; q] ++ mjoin (bytes_repr_byte q <$> bytes) ++ [q].

(** * Integers and their texts *)


(** ** Texts of integers *)

(** The three formats of an [i64], by their prefix and radix. *)
Definition format_i64 (prefix : list Z) (radix v : Z) : list Z :=
  if v <? 0 then ch "-" :: prefix ++ format_radix 64 radix (- v) []
  else prefix ++ format_radix 64 radix v [].
Definition format_hex_i64 (v : Z) : list Z := format_i64 (chars_of "0x") 16 v.
Definition format_oct_i64 (v : Z) : list Z := format_i64 (chars_of "0o") 8 v.
Definition format_bin_i64 (v : Z) : list Z := format_i64 (chars_of "0b") 2 v.

Definition i32_min : Z := - 2 ^ 31.
Definition i32_max : Z := 2 ^ 31 - 1.

Definition chr_from_code_point (code_point : Z) : outcome (list Z) :=
  if negb ((i32_min <=? code_point) && (code_point <=? i32_max)) then
    Raise (Named "OverflowError" "Python int too large to convert to C int")
  else if negb ((0 <=? code_point) && (code_point <=? 1114111)) then
    Raise (Named "ValueError" "chr() arg not in range(0x110000)")
  else cesu8_encode_codepoint (code_point mod 2 ^ 32).

(** ** Underscores *)

(** The test of an underscore at index [i]. *)
Definition underscore_placed (allow_leading : bool) (digits : list Z) (i : nat) : bool :=
  negb (has_char (ch "_") digits i)
  || (negb (has_char (ch "_") digits (i + 1)) && negb (i + 1 =? length digits)%nat && negb ((i =? 0)%nat && negb allow_leading)).

Definition pep515_strip_int (digits : list Z) (allow_leading : bool) : option (list Z) :=
  if bool_decide (digits = []) then Some []
  else if forallb (underscore_placed allow_leading digits) (seq 0 (length digits)) then Some (without_underscores digits)
  else None.

Definition pep515_strip_float (s : list Z) : option (list Z) :=
  if forallb (underscore_between s) (seq 0 (length s)) then Some (without_underscores s) else None.

(** ** Signs and prefixes *)

(** The sign to put back, and what follows the sign. *)
Definition split_sign (s : list Z) : list Z * list Z :=
  match s with
  | c :: rest => if c =? ch "-" then ([c], rest) else if c =? ch "+" then ([], rest) else ([], s)
  | [] => ([], s)
  end.

(** [s.strip_prefix("0x").or_else(|| s.strip_prefix("0X"))] and the like. *)
Definition strip_base_prefix (lower upper : ascii) (s : list Z) : option (list Z) :=
  match s with
  | z :: c :: rest => if (z =? ch "0") && ((c =? ch lower) || (c =? ch upper)) then Some rest else None
  | _ => None
  end.

Definition prefixed_digits (base : Z) (sign rest : list Z) : option (Z * list Z) :=
  if bool_decide (rest = []) then None
  else
    digits ← pep515_strip_int rest true;
    if bool_decide (digits = []) then None else Some (base, sign ++ digits).

Definition int_parse_base_zero (s : list Z) : option (Z * list Z) :=
  let '(sign, after_sign) := split_sign s in
  match strip_base_prefix "x" "X" after_sign with
  | Some rest => prefixed_digits 16 sign rest
  | None =>
      match strip_base_prefix "b" "B" after_sign with
      | Some rest => prefixed_digits 2 sign rest
      | None =>
          match strip_base_prefix "o" "O" after_sign with
          | Some rest => prefixed_digits 8 sign rest
          | None =>
              after_sign ← pep515_strip_int after_sign false;
              if has_char (ch "0") after_sign 0 && (1 <? utf8_len after_sign)%nat then
                if forallb (Z.eqb (ch "0")) after_sign then Some (10, sign ++ after_sign) else None
              else Some (10, sign ++ after_sign)
          end
      end
  end.

Definition int_strip_explicit_base (trimmed : list Z) (base : Z) : option (list Z) :=
  let '(sign, after_sign) := split_sign trimmed in
  let '(digits_part, has_prefix) :=
    match (if base =? 16 then strip_base_prefix "x" "X" after_sign
           else if base =? 2 then strip_base_prefix "b" "B" after_sign
           else if base =? 8 then strip_base_prefix "o" "O" after_sign
           else None) with
    | Some rest => (rest, true)
    | None => (after_sign, false)
    end in
  stripped ← pep515_strip_int digits_part has_prefix;
  Some (sign ++ stripped).

(** ** [int] of a string *)

Section int.
  Context {B : Type} `{BigIntText B, Unicode} (limit : Z).

(** A small or a big integer. *)
Definition parse_digits (digits : list Z) (base : Z) (e : PyError) : outcome (Z + B) :=
  _ ← check_int_parse_digits limit digits base;
  match i64_from_str_radix base digits with
  | Some v => Return (inl v)
  | None => match big_parse base digits with Some big => Return (inr big) | None => Raise e end
  end.

Definition int_literal_error (base_arg : Z) (repr : list Z) : PyError :=
  Named "ValueError" ("invalid literal for int() with base " +:+ pretty base_arg +:+ ": " +:+ show repr).

(** The parse of a text in [base_arg], whose form in messages is [repr]. *)
Definition int_parse (base_arg : Z) (s repr : list Z) : outcome (Z + B) :=
  let err := int_literal_error base_arg repr in
  let trimmed := trim s in
  if base_arg =? 0 then
    match int_parse_base_zero trimmed with
    | Some (base, digits) => parse_digits digits base err
    | None => Raise err
    end
  else
    match int_strip_explicit_base trimmed base_arg with
    | Some stripped => parse_digits stripped base_arg err
    | None => Raise err
    end.

(** [int(s)] and [int(s, base_arg)]. *)
Definition int_of_str (s : list Z) : outcome (Z + B) := int_parse 10 s ([APOSTROPHE] ++ s ++ [APOSTROPHE]).

Definition int_of_str_base (s : list Z) (base_arg : Z) : outcome (Z + B) :=
  if negb (base_arg =? 0) && negb ((2 <=? base_arg) && (base_arg <=? 36)) then
    Raise (Named "ValueError" "int() base must be >= 2 and <= 36, or 0")
  else int_parse base_arg s ([APOSTROPHE] ++ s ++ [APOSTROPHE]).

Definition int_parse_bytes_like (bytes repr : list Z) (base_arg : Z) : outcome (Z + B) :=
  match from_utf8 bytes with
  | None => Raise (int_literal_error base_arg repr)
  | Some s => int_parse base_arg s repr
  end.
End int.
