(* ===== verification/ReprSpec.v ===== *)
(** Code points and their bytes, digits and their values, and that the lexer
    reads every piece of a literal as what it was written for.

    What [int] does with the texts of integers, and that it reads a literal as
    the lexer does. *)

From stdpp Require Import strings.
From S2P Require Import Outcome Prelude Double Chars LexLiterals LexFStrings Lexer LexBounds Repr.

(** ** Bits as arithmetic *)

Lemma lor_high a k x : 0 ≤ k → 0 ≤ x < 2 ^ k → Z.lor (a * 2 ^ k) x = a * 2 ^ k + x.
Proof.
  intros Hk Hx. assert (Hl : Z.land (a * 2 ^ k) x = 0).
  { apply Z.bits_inj'. intros n Hn. rewrite Z.land_spec, Z.bits_0. destruct (Z.ltb_spec n k).
    - by rewrite Z.mul_pow2_bits_low.
    - rewrite <- (Z.mod_small x (2 ^ k)), (Z.mod_pow2_bits_high x) by lia. by rewrite andb_false_r. }
  by rewrite Z.add_nocarry_lxor, Z.lxor_lor.
Qed.

Lemma land_low x k : 0 ≤ k → Z.land x (2 ^ k - 1) = x mod 2 ^ k.
Proof. intros Hk. rewrite <- Z.land_ones by done. f_equal. rewrite Z.ones_equiv. lia. Qed.

Lemma land_3F x : Z.land x 0x3F = x mod 64.
Proof. exact (land_low x 6 ltac:(lia)). Qed.
Lemma land_1F x : Z.land x 0x1F = x mod 32.
Proof. exact (land_low x 5 ltac:(lia)). Qed.
Lemma land_0F x : Z.land x 0x0F = x mod 16.
Proof. exact (land_low x 4 ltac:(lia)). Qed.
Lemma land_07 x : Z.land x 0x07 = x mod 8.
Proof. exact (land_low x 3 ltac:(lia)). Qed.
Lemma lor_80 x : 0 ≤ x < 64 → Z.lor 0x80 x = 128 + x.
Proof. intros Hx. by apply (lor_high 2 6). Qed.
Lemma lor_C0 x : 0 ≤ x < 64 → Z.lor 0xC0 x = 192 + x.
Proof. intros Hx. by apply (lor_high 3 6). Qed.
Lemma lor_E0 x : 0 ≤ x < 32 → Z.lor 0xE0 x = 224 + x.
Proof. intros Hx. by apply (lor_high 7 5). Qed.
Lemma lor_F0 x : 0 ≤ x < 16 → Z.lor 0xF0 x = 240 + x.
Proof. intros Hx. by apply (lor_high 15 4). Qed.

Lemma lor_2 a b : 0 ≤ b < 64 → Z.lor (Z.shiftl a 6) b = a * 64 + b.
Proof. intros Hb. rewrite Z.shiftl_mul_pow2 by lia. by apply lor_high. Qed.
Lemma lor_3 a b c : 0 ≤ b < 64 → 0 ≤ c < 64 → Z.lor (Z.lor (Z.shiftl a 12) (Z.shiftl b 6)) c = a * 4096 + b * 64 + c.
Proof.
  intros Hb Hc. rewrite !Z.shiftl_mul_pow2, (lor_high a 12) by lia.
  replace (a * 2 ^ 12 + b * 2 ^ 6) with ((a * 64 + b) * 2 ^ 6) by lia. rewrite lor_high by lia. lia.
Qed.
Lemma lor_4 a b c d :
  0 ≤ b < 64 → 0 ≤ c < 64 → 0 ≤ d < 64 →
  Z.lor (Z.lor (Z.lor (Z.shiftl a 18) (Z.shiftl b 12)) (Z.shiftl c 6)) d = a * 262144 + b * 4096 + c * 64 + d.
Proof.
  intros Hb Hc Hd. rewrite !Z.shiftl_mul_pow2, (lor_high a 18) by lia.
  replace (a * 2 ^ 18 + b * 2 ^ 12) with ((a * 64 + b) * 2 ^ 12) by lia. rewrite (lor_high _ 12) by lia.
  replace ((a * 64 + b) * 2 ^ 12 + c * 2 ^ 6) with ((a * 4096 + b * 64 + c) * 2 ^ 6) by lia. rewrite lor_high by lia. lia.
Qed.

(** ** Code points *)

Definition codepoint (cp : Z) : Prop := 0 ≤ cp ≤ 0x10FFFF.

Ltac divs := Z.div_mod_to_equations; lia.

Lemma encode_utf8_eq cp : codepoint cp → encode_utf8 cp =
  if cp <? 0x80 then [cp]
  else if cp <? 0x800 then [192 + cp / 64; 128 + cp mod 64]
  else if cp <? 0x10000 then [224 + cp / 4096; 128 + cp / 64 mod 64; 128 + cp mod 64]
  else [240 + cp / 262144; 128 + cp / 4096 mod 64; 128 + cp / 64 mod 64; 128 + cp mod 64].
Proof.
  intros Hcp. unfold codepoint in Hcp. unfold encode_utf8. rewrite !Z.shiftr_div_pow2 by lia. rewrite !land_3F.
  change (2 ^ 6) with 64. change (2 ^ 12) with 4096. change (2 ^ 18) with 262144.
  destruct (Z.ltb_spec cp 0x80); [done|]. destruct (Z.ltb_spec cp 0x800); [by rewrite lor_C0, lor_80 by divs|].
  destruct (Z.ltb_spec cp 0x10000); [by rewrite lor_E0, !lor_80 by divs|]. by rewrite lor_F0, !lor_80 by divs.
Qed.

Lemma fragment_eq cp : codepoint cp → codepoint_to_string_fragment cp = Some (encode_utf8 cp).
Proof.
  intros Hcp. unfold codepoint in Hcp. unfold codepoint_to_string_fragment, char_from_u32, is_scalar.
  destruct (Z.leb_spec 0xD800 cp); destruct (Z.leb_spec cp 0xDFFF); cbn [andb].
  - rewrite encode_utf8_eq by done. repeat (rewrite (proj2 (Z.ltb_ge cp _)) by lia). rewrite (proj2 (Z.ltb_lt cp 0x10000)) by lia.
    rewrite !Z.shiftr_div_pow2, !land_3F by lia. change (2 ^ 6) with 64. change (2 ^ 12) with 4096. repeat f_equal.
    + rewrite Z.mod_small by divs. apply lor_E0. divs.
    + apply lor_80. divs.
    + apply lor_80. divs.
  - rewrite (proj2 (Z.ltb_lt 0xDFFF cp)), (proj2 (Z.leb_le cp 0x10FFFF)) by lia. by rewrite orb_true_r.
  - rewrite (proj2 (Z.leb_le 0 cp)), (proj2 (Z.ltb_lt cp 0xD800)) by lia. done.
  - lia.
Qed.

Lemma cesu8_encode_eq cp : codepoint cp → cesu8_encode_codepoint cp = Return (encode_utf8 cp).
Proof.
  intros Hcp. pose proof (fragment_eq cp Hcp) as Hf. unfold codepoint_to_string_fragment in Hf. unfold cesu8_encode_codepoint, is_surrogate.
  destruct (_ && _); [by injection Hf as ->|]. destruct (char_from_u32 cp); [|done]. by injection Hf as ->.
Qed.

(** Decoding is the inverse of encoding. *)
Lemma next_codepoint pre cp post :
  codepoint cp →
  cesu8_next_codepoint (pre ++ encode_utf8 cp ++ post) (length pre) = Some (cp, (length pre + len_utf8 cp)%nat).
Proof.
  intros Hcp. unfold cesu8_next_codepoint, len_utf8.
  assert (Hat : ∀ k, (pre ++ encode_utf8 cp ++ post) !! (length pre + k)%nat = (encode_utf8 cp ++ post) !! k).
  { intros k. rewrite lookup_app_r by lia. f_equal. lia. }
  rewrite <- (Nat.add_0_r (length pre)) at 1. rewrite !Hat, encode_utf8_eq by done. unfold codepoint in Hcp.
  destruct (Z.ltb_spec cp 0x80) as [|H1]; [|destruct (Z.ltb_spec cp 0x800) as [|H2]; [|destruct (Z.ltb_spec cp 0x10000) as [|H3]]];
    cbn [lookup list_lookup app mbind option_bind length].
  - by rewrite (proj2 (Z.ltb_lt cp 0x80)).
  - rewrite (proj2 (Z.ltb_ge _ 0x80)), (proj2 (Z.ltb_lt _ 0xE0)) by divs. cbn. rewrite land_1F, land_3F, lor_2 by divs. repeat f_equal. divs.
  - do 2 rewrite (proj2 (Z.ltb_ge _ _)) by divs. rewrite (proj2 (Z.ltb_lt _ 0xF0)) by divs. cbn.
    rewrite land_0F, !land_3F, lor_3 by divs. repeat f_equal. divs.
  - do 3 rewrite (proj2 (Z.ltb_ge _ _)) by divs. cbn. rewrite land_07, !land_3F, lor_4 by divs. repeat f_equal. divs.
Qed.

Lemma encode_utf8_pos cp : (0 < len_utf8 cp)%nat.
Proof. unfold len_utf8, encode_utf8. repeat case_match; cbn; lia. Qed.

Lemma utf8_cons c cs : utf8 (c :: cs) = encode_utf8 c ++ utf8 cs.
Proof. done. Qed.

Lemma utf8_length cs : (length cs <= length (utf8 cs))%nat.
Proof.
  induction cs as [|c cs IH]; [done|]. rewrite utf8_cons, length_app. pose proof (encode_utf8_pos c). unfold len_utf8 in *. cbn. lia.
Qed.

Lemma codepoints_from_utf8 fuel pre cps :
  Forall codepoint cps → (length cps <= fuel)%nat → codepoints_from fuel (pre ++ utf8 cps) (length pre) = cps.
Proof.
  intros Hcps. revert fuel pre. induction Hcps as [|c cps Hc _ IH]; intros fuel pre Hfuel.
  - destruct fuel as [|fuel]; [done|]. cbn. unfold cesu8_next_codepoint. by rewrite app_nil_r, (lookup_ge_None_2 pre (length pre)) by lia.
  - destruct fuel as [|fuel]; [cbn in Hfuel; lia|]. cbn [codepoints_from]. rewrite utf8_cons, next_codepoint by done. f_equal.
    rewrite app_assoc. unfold len_utf8. rewrite <- length_app. apply IH. cbn in Hfuel. lia.
Qed.

Lemma codepoints_utf8 cps : Forall codepoint cps → cesu8_codepoints (utf8 cps) = cps.
Proof. intros Hc. apply (codepoints_from_utf8 _ []); [done|apply utf8_length]. Qed.

(** ** Digits *)

Lemma digit_char_value d : 0 ≤ d < 36 → digit_value (digit_char d) = Some d.
Proof.
  intros Hd. unfold digit_char, digit_value, is_ascii_digit, in_range.
  change (ch "0") with 48. change (ch "9") with 57. change (ch "a") with 97. change (ch "z") with 122.
  destruct (Z.ltb_spec d 10).
  - rewrite (proj2 (Z.leb_le 48 _)), (proj2 (Z.leb_le _ 57)) by lia. cbn [andb]. f_equal. lia.
  - rewrite (proj2 (Z.leb_gt _ 57)), andb_false_r by lia.
    rewrite (proj2 (Z.leb_le 97 _)), (proj2 (Z.leb_le _ 122)) by lia. cbn [andb]. f_equal. lia.
Qed.

Lemma format_radix_value fuel base n acc :
  2 ≤ base ≤ 36 → 0 ≤ n < 2 ^ Z.of_nat fuel → digits_value base 0 (format_radix fuel base n acc) = digits_value base n acc.
Proof.
  intros Hb. revert n acc. induction fuel as [|fuel IH]; intros n acc Hn.
  { change (2 ^ Z.of_nat 0) with 1 in Hn. by assert (n = 0) as -> by lia. }
  cbn [format_radix]. cbn zeta. pose proof (Z.mod_pos_bound n base ltac:(lia)).
  assert (Hstep : ∀ a, digits_value base a (digit_char (n mod base) :: acc) = digits_value base (a * base + n mod base) acc).
  { intros a. cbn [digits_value]. rewrite digit_char_value by lia. cbn [mbind option_bind]. by rewrite (proj2 (Z.ltb_lt _ base)) by lia. }
  destruct (Z.ltb_spec n base).
  - rewrite Hstep, Z.mod_small by lia. done.
  - rewrite IH, Hstep; [|split; [apply Z.div_pos; lia|]].
    + f_equal. divs.
    + apply Z.div_lt_upper_bound; [lia|]. rewrite Nat2Z.inj_succ, Z.pow_succ_r in Hn by lia. nia.
Qed.

Lemma format_radix_length fuel base n acc w :
  2 ≤ base → 0 ≤ n < base ^ Z.of_nat w → (0 < w)%nat → (length (format_radix fuel base n acc) <= w + length acc)%nat.
Proof.
  intros Hb. revert n acc w. induction fuel as [|fuel IH]; intros n acc w Hn Hw; [cbn; lia|]. cbn [format_radix]. cbn zeta.
  destruct (Z.ltb_spec n base); [cbn; lia|].
  destruct w as [|[|w]]; [lia|change (base ^ Z.of_nat 1) with (base ^ 1) in Hn; rewrite Z.pow_1_r in Hn; lia|].
  specialize (IH (n / base) (digit_char (n mod base) :: acc) (S w)). cbn [length] in IH. rewrite Nat2Z.inj_succ, Z.pow_succ_r in Hn by lia.
  assert (0 ≤ n / base < base ^ Z.of_nat (S w)); [|lia]. split; [apply Z.div_pos; lia|]. apply Z.div_lt_upper_bound; lia.
Qed.

Lemma format_radix_app fuel base n acc : format_radix fuel base n acc = format_radix fuel base n [] ++ acc.
Proof.
  revert n acc. induction fuel as [|fuel IH]; intros n acc; [done|]. cbn [format_radix]. cbn zeta. destruct (n <? base); [done|].
  rewrite IH, (IH _ [_]), <- app_assoc. done.
Qed.

Lemma padded_value base w cs : 2 ≤ base → digits_value base 0 (padded w cs) = digits_value base 0 cs.
Proof.
  intros Hb. unfold padded. induction (w - length cs)%nat as [|k IH]; [done|]. cbn [replicate app digits_value].
  change (digit_value (ch "0")) with (Some 0). cbn [mbind option_bind]. by rewrite (proj2 (Z.ltb_lt 0 base)) by lia.
Qed.

Definition is_digit_char (c : Z) : Prop := ∃ d, 0 ≤ d < 36 ∧ c = digit_char d.

Lemma format_radix_digits fuel base n acc :
  2 ≤ base ≤ 36 → Forall is_digit_char acc → Forall is_digit_char (format_radix fuel base n acc).
Proof.
  intros Hb. revert n acc. induction fuel as [|fuel IH]; intros n acc Hacc; [done|]. cbn [format_radix]. cbn zeta.
  assert (Forall is_digit_char (digit_char (n mod base) :: acc)).
  { constructor; [|done]. exists (n mod base). pose proof (Z.mod_pos_bound n base). split; [lia|done]. }
  destruct (n <? base); auto.
Qed.

Lemma hex_format_spec w n :
  0 ≤ n < 16 ^ Z.of_nat w → (0 < w)%nat → (w <= 15)%nat →
  length (hex_format w n) = w ∧ Forall is_digit_char (hex_format w n) ∧ digits_value 16 0 (hex_format w n) = Some n.
Proof.
  intros Hn Hw Hw'. unfold hex_format. split; [|split].
  - unfold padded. rewrite length_app, length_replicate.
    pose proof (format_radix_length 64 16 n [] w ltac:(lia) Hn Hw) as Hl. cbn [length] in Hl. lia.
  - unfold padded. apply Forall_app. split; [|by apply format_radix_digits].
    apply Forall_replicate. exists 0. split; [lia|done].
  - rewrite padded_value, format_radix_value by (try lia; assert (16 ^ Z.of_nat w ≤ 16 ^ 15) by (apply Z.pow_le_mono_r; lia); lia). done.
Qed.

Lemma is_digit_char_not_sign c : is_digit_char c → c ≠ ch "+" ∧ c ≠ ch "-".
Proof.
  intros (d & Hd & ->). unfold digit_char. change (ch "0") with 48. change (ch "a") with 97. change (ch "+") with 43. change (ch "-") with 45.
  destruct (Z.ltb_spec d 10); lia.
Qed.

Lemma from_str_radix_digits lo hi radix cs v :
  cs ≠ [] → Forall is_digit_char cs → digits_value radix 0 cs = Some v → lo ≤ v ≤ hi → from_str_radix lo hi radix cs = Some v.
Proof.
  intros Hne Hd Hv Hr. destruct Hd as [|c cs Hc Hd]; [done|]. apply is_digit_char_not_sign in Hc as [Hp Hm]. unfold from_str_radix.
  rewrite (proj2 (Z.eqb_neq c (ch "+"))), (proj2 (Z.eqb_neq c (ch "-"))), Hv by done. cbn [andb mbind option_bind].
  by rewrite (proj2 (Z.leb_le lo v)), (proj2 (Z.leb_le v hi)) by lia.
Qed.

(** ** Pieces of a literal *)

(** The characters from [pos] on begin with [text]. *)
Definition occurs (chars : list Z) (pos : nat) (text : list Z) : Prop :=
  ∀ k c, text !! k = Some c → chars !! (pos + k)%nat = Some c.

Lemma occurs_app chars pos text1 text2 :
  occurs chars pos (text1 ++ text2) → occurs chars pos text1 ∧ occurs chars (pos + length text1) text2.
Proof.
  intros Ho. split; intros k c Hk; [apply Ho; by apply lookup_app_l_Some|].
  rewrite <- Nat.add_assoc. apply Ho. rewrite lookup_app_r by lia. by replace (length text1 + k - length text1)%nat with k by lia.
Qed.

Lemma occurs_cons chars pos c text : occurs chars pos (c :: text) → chars !! pos = Some c ∧ occurs chars (pos + 1) text.
Proof. intros Ho. apply (occurs_app _ _ [c]) in Ho as [Hc Ho]. split; [|done]. rewrite <- (Nat.add_0_r pos). by apply Hc. Qed.

Lemma occurs_here pre text post : occurs (pre ++ text ++ post) (length pre) text.
Proof.
  intros k c Hk. rewrite lookup_app_r by lia. replace (length pre + k - length pre)%nat with k by lia. by apply lookup_app_l_Some.
Qed.

Lemma occurs_le chars pos text : occurs chars pos text → text ≠ [] → (pos + length text <= length chars)%nat.
Proof.
  intros Ho Hne. destruct text as [|c text] using rev_ind; [done|]. rewrite length_app. cbn.
  assert (Hc : chars !! (pos + length text)%nat = Some c) by (apply Ho; by apply list_lookup_middle).
  apply lookup_lt_Some in Hc. lia.
Qed.

Lemma simple_escape_spec e b : simple_escape e = Some b → e ≠ LF ∧ e ≠ CR ∧ 0 ≤ e < 0x80 ∧ 0 ≤ b < 0x80.
Proof.
  unfold simple_escape. intros He.
  repeat (case_match; [match goal with Hc : (e =? _) = true |- _ => apply Z.eqb_eq in Hc as ->; injection He as <-; by vm_compute end|]).
  done.
Qed.

(** The text of a piece of a literal in [quote]s, with its code point. *)
Inductive piece (quote : Z) : list Z → Z → Prop :=
  | piece_char c : c ≠ quote → c ≠ BACKSLASH → piece quote [c] c
  | piece_simple e b : simple_escape e = Some b → piece quote [BACKSLASH; e] b
  | piece_x h n :
      length h = 2%nat → Forall is_digit_char h → digits_value 16 0 h = Some n → 0 ≤ n ≤ 255 → piece quote (BACKSLASH :: ch "x" :: h) n
  | piece_u h n : length h = 4%nat → Forall is_digit_char h → digits_value 16 0 h = Some n → piece quote (BACKSLASH :: ch "u" :: h) n
  | piece_U h n : length h = 8%nat → Forall is_digit_char h → digits_value 16 0 h = Some n → piece quote (BACKSLASH :: ch "U" :: h) n.

Lemma piece_head quote text n : quote ≠ BACKSLASH → piece quote text n → ∃ c rest, text = c :: rest ∧ c ≠ quote.
Proof. intros Hq []; eexists _, _; split; done. Qed.

Section pieces.
  Context `{Unicode} (chars : list Z).

Lemma collect_chars_eq pos e h : occurs chars (pos + 1) h → collect_chars chars pos (length h) e = Return h.
Proof using Type.
  revert pos. induction h as [|c h IH]; intros pos Ho; [done|]. apply occurs_cons in Ho as [Hc Ho]. cbn [length collect_chars].
  unfold char_or. rewrite Hc, bind_Return, IH by done. done.
Qed.

Lemma hex_escape_eq pos incomplete invalid h n :
  occurs chars (pos + 1) h → length h = 2%nat → Forall is_digit_char h → digits_value 16 0 h = Some n → 0 ≤ n ≤ 255 →
  hex_escape chars pos incomplete invalid = Return n.
Proof using Type.
  intros Ho Hl Hd Hn Hr. destruct h as [|hi [|lo [|]]]; try done. apply occurs_cons in Ho as [Hhi Ho]. apply occurs_cons in Ho as [Hlo _].
  replace (pos + 1 + 1)%nat with (pos + 2)%nat in Hlo by lia. unfold hex_escape, char_or. rewrite Hhi, bind_Return, Hlo, bind_Return.
  unfold u8_from_str_radix. by rewrite (from_str_radix_digits _ _ _ _ n) by done.
Qed.

Lemma encode_utf8_ascii b : b < 0x80 → encode_utf8 b = [b].
Proof using Type. intros Hb. unfold encode_utf8. by rewrite (proj2 (Z.ltb_lt b 0x80)). Qed.

Lemma parse_escape_x pos content_start :
  chars !! pos = Some (ch "x") →
  ∃ incomplete invalid, escaped_text chars pos content_start (ch "x") =
    (v ← hex_escape chars pos incomplete invalid; Return (encode_utf8 v, (pos + 3)%nat)).
Proof using Type. intros Hc. eexists _, _. unfold escaped_text, parse_escape, char_or. rewrite Hc. reflexivity. Qed.

Lemma parse_escape_u pos content_start h n :
  chars !! pos = Some (ch "u") → occurs chars (pos + 1) h → length h = 4%nat → Forall is_digit_char h →
  digits_value 16 0 h = Some n → codepoint n →
  escaped_text chars pos content_start (ch "u") = Return (encode_utf8 n, (pos + 5)%nat).
Proof using Type.
  intros Hc Ho Hl Hd Hv Hn. unfold escaped_text, parse_escape, char_or. rewrite Hc.
  transitivity (digits ← collect_chars chars pos 4 (Lex "incomplete \u escape (need 4 hex digits)");
    match u32_from_str_radix 16 digits with
    | None => lex_err ("invalid \u escape: \u" +:+ show digits)
    | Some codepoint =>
        match codepoint_to_string_fragment codepoint with
        | Some frag => Return (frag, (pos + 5)%nat)
        | None => lex_err ("invalid \u escape: U+" +:+ hex_digits 4 codepoint)
        end
    end); [reflexivity|].
  rewrite <- Hl, collect_chars_eq, bind_Return by done. unfold u32_from_str_radix. unfold codepoint in Hn.
  rewrite (from_str_radix_digits _ _ _ _ n), fragment_eq by (done || lia || by intros ->). done.
Qed.

Lemma parse_escape_U pos content_start h n :
  chars !! pos = Some (ch "U") → occurs chars (pos + 1) h → length h = 8%nat → Forall is_digit_char h →
  digits_value 16 0 h = Some n → codepoint n →
  escaped_text chars pos content_start (ch "U") = Return (encode_utf8 n, (pos + 9)%nat).
Proof using Type.
  intros Hc Ho Hl Hd Hv Hn. unfold escaped_text, parse_escape, char_or. rewrite Hc.
  transitivity (digits ← collect_chars chars pos 8 (Lex "incomplete \U escape (need 8 hex digits)");
    match u32_from_str_radix 16 digits with
    | None => lex_err ("invalid \U escape: \U" +:+ show digits)
    | Some codepoint =>
        if 0x10FFFF <? codepoint then lex_err ("invalid \U escape: codepoint U+" +:+ hex_digits 8 codepoint +:+ " out of range")
        else
          match codepoint_to_string_fragment codepoint with
          | Some frag => Return (frag, (pos + 9)%nat)
          | None => lex_err ("invalid \U escape: U+" +:+ hex_digits 8 codepoint)
          end
    end); [reflexivity|].
  rewrite <- Hl, collect_chars_eq, bind_Return by done. unfold u32_from_str_radix. unfold codepoint in Hn.
  rewrite (from_str_radix_digits _ _ _ _ n), (proj2 (Z.ltb_ge 0x10FFFF n)), fragment_eq by (done || lia || by intros ->). done.
Qed.

(** A piece is one step of the loop. *)
Lemma piece_step fuel quote content_start pos out text n :
  piece quote text n → quote ≠ BACKSLASH → codepoint n → occurs chars pos text →
  string_loop (S fuel) chars quote false content_start pos out =
  string_loop fuel chars quote false content_start (pos + length text) (out ++ encode_utf8 n).
Proof using Type.
  intros Hp Hq Hn Ho. cbn [string_loop].
  assert (Hback : (BACKSLASH =? quote) = false) by (apply Z.eqb_neq; congruence).
  destruct Hp as [c Hc Hb|e b He|h n Hl Hd Hv Hr|h n Hl Hd Hv|h n Hl Hd Hv]; apply occurs_cons in Ho as [Hc1 Ho]; rewrite Hc1.
  - rewrite (proj2 (Z.eqb_neq c quote)), (proj2 (Z.eqb_neq c BACKSLASH)) by done. done.
  - rewrite Hback, Z.eqb_refl. apply occurs_cons in Ho as [He1 _]. apply simple_escape_spec in He as Hs. destruct Hs as (H1 & H2 & _ & H3).
    unfold char_or. rewrite He1, bind_Return. unfold escaped_text. rewrite (proj2 (Z.eqb_neq e LF)), (proj2 (Z.eqb_neq e CR)) by done.
    unfold parse_escape, char_or. rewrite He1, bind_Return, He, bind_Return. cbn beta iota. rewrite encode_utf8_ascii by lia.
    by replace (pos + 1 + 1)%nat with (pos + 2)%nat by lia.
  - rewrite Hback, Z.eqb_refl. apply occurs_cons in Ho as [He1 Ho]. unfold char_or. rewrite He1, bind_Return.
    destruct (parse_escape_x (pos + 1) content_start He1) as (incomplete & invalid & ->).
    rewrite (hex_escape_eq _ _ _ h n), !bind_Return by done. cbn beta iota. cbn [length]. rewrite Hl.
    by replace (pos + 1 + 3)%nat with (pos + 4)%nat by lia.
  - rewrite Hback, Z.eqb_refl. apply occurs_cons in Ho as [He1 Ho]. unfold char_or. rewrite He1, bind_Return.
    rewrite (parse_escape_u _ _ h n), bind_Return by done. cbn beta iota. cbn [length]. rewrite Hl.
    by replace (pos + 1 + 5)%nat with (pos + 6)%nat by lia.
  - rewrite Hback, Z.eqb_refl. apply occurs_cons in Ho as [He1 Ho]. unfold char_or. rewrite He1, bind_Return.
    rewrite (parse_escape_U _ _ h n), bind_Return by done. cbn beta iota. cbn [length]. rewrite Hl.
    by replace (pos + 1 + 9)%nat with (pos + 10)%nat by lia.
Qed.
End pieces.

(** ** Literals made of pieces *)

Section literals.
  Context `{Unicode} (chars : list Z).
  Abbreviation len := (length chars).

Lemma pieces_loop quote content_start texts cps pos out fuel :
  Forall2 (piece quote) texts cps → Forall codepoint cps → quote ≠ BACKSLASH → occurs chars pos (mjoin texts) →
  string_loop (length cps + fuel) chars quote false content_start pos out =
  string_loop fuel chars quote false content_start (pos + length (mjoin texts)) (out ++ utf8 cps).
Proof using Type.
  intros Ht Hc Hq. revert pos out. induction Ht as [|text n texts cps Hp Ht IH]; intros pos out Ho.
  - by rewrite app_nil_r, Nat.add_0_r.
  - apply Forall_cons in Hc as [Hn Hc]. change (mjoin (text :: texts)) with (text ++ mjoin texts) in *. apply occurs_app in Ho as [Ho Ho'].
    cbn [length Nat.add]. rewrite (piece_step chars _ _ _ _ _ text n), IH by done. by rewrite length_app, utf8_cons, app_assoc, Nat.add_assoc.
Qed.

Lemma pieces_length quote texts cps : Forall2 (piece quote) texts cps → (length cps <= length (mjoin texts))%nat.
Proof using Type.
  induction 1 as [|text n texts cps Hp _ IH]; [done|]. change (mjoin (text :: texts)) with (text ++ mjoin texts). rewrite length_app.
  assert (0 < length text)%nat by (destruct Hp; cbn; lia). cbn. lia.
Qed.

(** A quoted literal is read as its code points; after an empty one, a third
    quote would open a triple-quoted string. *)
Lemma lex_pieces quote texts cps start :
  Forall2 (piece quote) texts cps → Forall codepoint cps → quote ≠ BACKSLASH →
  occurs chars start ([quote] ++ mjoin texts ++ [quote]) → (cps = [] → chars !! (start + 2)%nat ≠ Some quote) →
  lex_string chars start false = Return (Token.Str (utf8 cps), (start + length ([quote] ++ mjoin texts ++ [quote]))%nat).
Proof using Type.
  intros Ht Hc Hq Ho Hempty. cbn [app] in Ho. apply occurs_cons in Ho as [Hquote Ho]. apply occurs_app in Ho as [Htexts Hend].
  apply occurs_cons in Hend as [Hend _]. unfold lex_string. rewrite (char_at_eq _ _ _ Hquote), bind_Return.
  assert (Hopen : opens_triple chars quote start = false).
  { unfold opens_triple. apply andb_false_iff. destruct Ht as [|text n texts cps Hp Ht].
    - right. specialize (Hempty eq_refl). apply not_true_iff_false. by rewrite has_char_eq.
    - left. apply (piece_head _ _ _ Hq) in Hp as (c & rest & -> & Hne). apply not_true_iff_false. rewrite has_char_eq.
      apply occurs_cons in Htexts as [Hc1 _]. rewrite Hc1. by intros [= ->]. }
  rewrite Hopen. pose proof (pieces_length _ _ _ Ht). pose proof (lookup_lt_Some _ _ _ Hend).
  assert (Hfuel : ∃ fuel, scan_fuel chars (start + 1) = (length cps + S fuel)%nat).
  { exists (len - (start + 1) - length cps)%nat. unfold scan_fuel. lia. }
  destruct Hfuel as [fuel ->]. rewrite (pieces_loop _ _ texts) by done. cbn [string_loop]. rewrite Hend, Z.eqb_refl. cbn [app length].
  rewrite length_app. cbn. do 2 f_equal. lia.
Qed.
End literals.

(** ** The texts of strings *)

Definition is_quote_char (q : Z) : Prop := q = APOSTROPHE ∨ q = QUOTE.

Lemma hex_piece_x quote n : 0 ≤ n ≤ 255 → piece quote (BACKSLASH :: ch "x" :: hex_format 2 n) n.
Proof. intros Hn. destruct (hex_format_spec 2 n) as (Hl & Hd & Hv); [change (16 ^ Z.of_nat 2) with 256; lia|lia..|]. by apply piece_x. Qed.
Lemma hex_piece_u quote n : 0 ≤ n ≤ 0xFFFF → piece quote (BACKSLASH :: ch "u" :: hex_format 4 n) n.
Proof. intros Hn. destruct (hex_format_spec 4 n) as (Hl & Hd & Hv); [change (16 ^ Z.of_nat 4) with 65536; lia|lia..|]. by apply piece_u. Qed.
Lemma hex_piece_U quote n : codepoint n → piece quote (BACKSLASH :: ch "U" :: hex_format 8 n) n.
Proof.
  unfold codepoint. intros Hn. destruct (hex_format_spec 8 n) as (Hl & Hd & Hv); [change (16 ^ Z.of_nat 8) with 4294967296; lia|lia..|].
  by apply piece_U.
Qed.

Lemma escape_codepoint_piece `{Categories} quote n :
  is_quote_char quote → codepoint n → piece quote (escape_codepoint quote n) n.
Proof.
  intros Hq Hn. unfold codepoint in Hn. unfold escape_codepoint.
  destruct (Z.eqb_spec n 0x5C) as [->|H1]; [by apply piece_simple|]. destruct (Z.eqb_spec n 0x0A) as [->|_]; [by apply piece_simple|].
  destruct (Z.eqb_spec n 0x09) as [->|_]; [by apply piece_simple|]. destruct (Z.eqb_spec n 0x0D) as [->|_]; [by apply piece_simple|].
  destruct (Z.eqb_spec n quote) as [->|H2]; [destruct Hq as [->| ->]; by apply piece_simple|].
  destruct (cp_is_printable n) eqn:Hp; cbn [negb].
  - unfold cp_is_printable in Hp. unfold char_from_u32 in *. destruct (is_scalar n) eqn:Hs; [by apply piece_char|].
    destruct (Z.eqb_spec n 0x20) as [->|]; [done|]. by destruct (is_surrogate n).
  - destruct (Z.leb_spec n 0xFF); [apply hex_piece_x; lia|]. destruct (Z.leb_spec n 0xFFFF); [apply hex_piece_u; lia|by apply hex_piece_U].
Qed.

Lemma repr_quote_char s : is_quote_char (repr_quote s).
Proof. unfold repr_quote. case_match; [by right|by left]. Qed.

Lemma is_quote_char_not_backslash q : is_quote_char q → q ≠ BACKSLASH.
Proof. by intros [->| ->]. Qed.

Lemma digit_char_ascii c : is_digit_char c → ascii_escape_char c = [c].
Proof.
  intros (d & Hd & ->). unfold ascii_escape_char, digit_char. change (ch "0") with 48. change (ch "a") with 97.
  destruct (Z.ltb_spec d 10); rewrite (proj2 (Z.ltb_lt _ 0x80)) by lia; done.
Qed.

Lemma ascii_digits h : Forall is_digit_char h → ascii_escape_str h = h.
Proof.
  induction 1 as [|c h Hc _ IH]; [done|]. change (ascii_escape_str (c :: h)) with (ascii_escape_char c ++ ascii_escape_str h).
  by rewrite digit_char_ascii, IH.
Qed.

(** Escaping what is not in ASCII keeps the meaning of a piece. *)
Lemma ascii_piece quote text n : codepoint n → piece quote text n → piece quote (ascii_escape_str text) n.
Proof.
  intros Hn Hp. destruct Hp as [c Hc Hb|e b He|h m Hl Hd Hv Hr|h m Hl Hd Hv|h m Hl Hd Hv].
  - unfold ascii_escape_str. cbn. rewrite app_nil_r. unfold ascii_escape_char. unfold codepoint in Hn.
    destruct (Z.ltb_spec c 0x80); [by apply piece_char|]. destruct (Z.leb_spec c 0xFF); [apply hex_piece_x; lia|].
    destruct (Z.leb_spec c 0xFFFF); [apply hex_piece_u; lia|by apply hex_piece_U].
  - apply simple_escape_spec in He as Hs. replace (ascii_escape_str [BACKSLASH; e]) with [BACKSLASH; e]; [by apply piece_simple|].
    unfold ascii_escape_str. cbn. unfold ascii_escape_char at 1. by rewrite (proj2 (Z.ltb_lt e 0x80)) by lia.
  - change (ascii_escape_str (BACKSLASH :: ch "x" :: h)) with (BACKSLASH :: ch "x" :: ascii_escape_str h). rewrite ascii_digits by done.
    by apply piece_x.
  - change (ascii_escape_str (BACKSLASH :: ch "u" :: h)) with (BACKSLASH :: ch "u" :: ascii_escape_str h). rewrite ascii_digits by done.
    by apply piece_u.
  - change (ascii_escape_str (BACKSLASH :: ch "U" :: h)) with (BACKSLASH :: ch "U" :: ascii_escape_str h). rewrite ascii_digits by done.
    by apply piece_U.
Qed.

Lemma py_repr_char_piece quote c : is_quote_char quote → codepoint c → piece quote (py_repr_char quote c) c.
Proof.
  intros Hq Hc. unfold codepoint in Hc. unfold py_repr_char.
  do 8 (match goal with |- context [if (c =? ?k) then _ else _] => destruct (Z.eqb_spec c k) as [->|?]; [by apply piece_simple|] end).
  assert (Hquoted : (c =? APOSTROPHE) && (quote =? APOSTROPHE) = false → (c =? QUOTE) && (quote =? QUOTE) = false → c ≠ quote).
  { intros H1 H2 ->. by destruct Hq as [->| ->]. }
  destruct (_ && _) eqn:H1; [apply andb_prop in H1 as [->%Z.eqb_eq _]; by apply piece_simple|].
  destruct ((c =? QUOTE) && _) eqn:H2; [apply andb_prop in H2 as [->%Z.eqb_eq _]; by apply piece_simple|].
  destruct (_ || _) eqn:H3; [|apply piece_char; auto]. apply hex_piece_x.
  apply orb_prop in H3 as [H3%Z.ltb_lt|H3%Z.eqb_eq]; lia.
Qed.

(** ** Bytes *)

Inductive bytes_piece (quote : Z) : list Z → Z → Prop :=
  | bytes_piece_char b : b ≠ quote → b ≠ BACKSLASH → b ≤ 0x7F → bytes_piece quote [b] b
  | bytes_piece_simple e b : simple_escape e = Some b → bytes_piece quote [BACKSLASH; e] b
  | bytes_piece_x h n :
      length h = 2%nat → Forall is_digit_char h → digits_value 16 0 h = Some n → 0 ≤ n ≤ 255 →
      bytes_piece quote (BACKSLASH :: ch "x" :: h) n.

Section bytes.
  Context `{Unicode} (chars : list Z).
  Abbreviation len := (length chars).

Lemma bytes_piece_step fuel quote pos out text b :
  bytes_piece quote text b → quote ≠ BACKSLASH → occurs chars pos text →
  bytes_loop (S fuel) chars quote false pos out = bytes_loop fuel chars quote false (pos + length text) (out ++ [b]).
Proof using Type.
  intros Hp Hq Ho. cbn [bytes_loop].
  assert (Hback : (BACKSLASH =? quote) = false) by (apply Z.eqb_neq; congruence).
  destruct Hp as [b Hb1 Hb2 Hb3|e b He|h n Hl Hd Hv Hr]; apply occurs_cons in Ho as [Hc1 Ho]; rewrite Hc1.
  - rewrite (proj2 (Z.eqb_neq b quote)), (proj2 (Z.eqb_neq b BACKSLASH)) by done. unfold ascii_byte.
    by rewrite (proj2 (Z.ltb_ge 0x7F b)) by lia.
  - rewrite Hback, Z.eqb_refl. apply occurs_cons in Ho as [He1 _]. unfold char_or. rewrite He1, bind_Return.
    unfold bytes_escape. rewrite He, bind_Return. cbn beta iota. by replace (pos + 1 + 1)%nat with (pos + 2)%nat by lia.
  - rewrite Hback, Z.eqb_refl. apply occurs_cons in Ho as [He1 Ho]. unfold char_or. rewrite He1, bind_Return.
    assert (Hx : ∃ incomplete invalid, bytes_escape chars (pos + 1) (ch "x") =
      (v ← hex_escape chars (pos + 1) incomplete invalid; Return ([v], (pos + 1 + 3)%nat))) by (eexists _, _; reflexivity).
    destruct Hx as (incomplete & invalid & ->). rewrite (hex_escape_eq chars _ _ _ h n), !bind_Return by done. cbn beta iota. cbn [length].
    rewrite Hl. by replace (pos + 1 + 3)%nat with (pos + 4)%nat by lia.
Qed.

Lemma bytes_pieces_loop quote texts bytes pos out fuel :
  Forall2 (bytes_piece quote) texts bytes → quote ≠ BACKSLASH → occurs chars pos (mjoin texts) →
  bytes_loop (length bytes + fuel) chars quote false pos out =
  bytes_loop fuel chars quote false (pos + length (mjoin texts)) (out ++ bytes).
Proof using Type.
  intros Ht Hq. revert pos out. induction Ht as [|text b texts bytes Hp Ht IH]; intros pos out Ho.
  - by rewrite app_nil_r, Nat.add_0_r.
  - change (mjoin (text :: texts)) with (text ++ mjoin texts) in *. apply occurs_app in Ho as [Ho Ho'].
    cbn [length Nat.add]. rewrite (bytes_piece_step _ _ _ _ text b), IH by done. by rewrite length_app, <- app_assoc, Nat.add_assoc.
Qed.

Lemma bytes_pieces_length quote texts bytes : Forall2 (bytes_piece quote) texts bytes → (length bytes <= length (mjoin texts))%nat.
Proof using Type.
  induction 1 as [|text n texts cps Hp _ IH]; [done|]. change (mjoin (text :: texts)) with (text ++ mjoin texts). rewrite length_app.
  assert (0 < length text)%nat by (destruct Hp; cbn; lia). cbn. lia.
Qed.

Lemma bytes_piece_head quote text n : quote ≠ BACKSLASH → bytes_piece quote text n → ∃ c rest, text = c :: rest ∧ c ≠ quote.
Proof using Type. intros Hq []; eexists _, _; split; done. Qed.

Lemma lex_bytes_pieces quote texts bytes start :
  Forall2 (bytes_piece quote) texts bytes → quote ≠ BACKSLASH →
  occurs chars start ([quote] ++ mjoin texts ++ [quote]) → (bytes = [] → chars !! (start + 2)%nat ≠ Some quote) →
  lex_bytes chars start false = Return (Token.Bytes bytes, (start + length ([quote] ++ mjoin texts ++ [quote]))%nat).
Proof using Type.
  intros Ht Hq Ho Hempty. cbn [app] in Ho. apply occurs_cons in Ho as [Hquote Ho]. apply occurs_app in Ho as [Htexts Hend].
  apply occurs_cons in Hend as [Hend _]. unfold lex_bytes. rewrite (char_at_eq _ _ _ Hquote), bind_Return.
  assert (Hopen : opens_triple chars quote start = false).
  { unfold opens_triple. apply andb_false_iff. destruct Ht as [|text n texts bytes Hp Ht].
    - right. specialize (Hempty eq_refl). apply not_true_iff_false. by rewrite has_char_eq.
    - left. apply (bytes_piece_head _ _ _ Hq) in Hp as (c & rest & -> & Hne). apply not_true_iff_false. rewrite has_char_eq.
      apply occurs_cons in Htexts as [Hc1 _]. rewrite Hc1. by intros [= ->]. }
  rewrite Hopen. pose proof (bytes_pieces_length _ _ _ Ht). pose proof (lookup_lt_Some _ _ _ Hend).
  assert (Hfuel : ∃ fuel, scan_fuel chars (start + 1) = (length bytes + S fuel)%nat).
  { exists (len - (start + 1) - length bytes)%nat. unfold scan_fuel. lia. }
  destruct Hfuel as [fuel ->]. rewrite (bytes_pieces_loop _ texts) by done. cbn [bytes_loop]. rewrite Hend, Z.eqb_refl. cbn [app length].
  rewrite length_app. cbn. do 2 f_equal. lia.
Qed.
End bytes.

Lemma bytes_repr_byte_piece quote b : is_quote_char quote → byte_range b → bytes_piece quote (bytes_repr_byte quote b) b.
Proof.
  intros Hq Hb. unfold byte_range in Hb. unfold bytes_repr_byte.
  do 4 (match goal with |- context [if (b =? ?k) then _ else _] => destruct (Z.eqb_spec b k) as [->|?]; [by apply bytes_piece_simple|] end).
  assert (Hquoted : (b =? APOSTROPHE) && (quote =? APOSTROPHE) = false → (b =? QUOTE) && (quote =? QUOTE) = false → b ≠ quote).
  { intros H1 H2 ->. by destruct Hq as [->| ->]. }
  destruct (_ && _) eqn:H1; [apply andb_prop in H1 as [->%Z.eqb_eq _]; by apply bytes_piece_simple|].
  destruct ((b =? QUOTE) && _) eqn:H2; [apply andb_prop in H2 as [->%Z.eqb_eq _]; by apply bytes_piece_simple|].
  destruct ((0x20 <=? b) && _) eqn:H3; [apply andb_prop in H3 as [_ H3%Z.leb_le]; apply bytes_piece_char; auto; lia|].
  destruct (hex_format_spec 2 b) as (Hl & Hd & Hv); [change (16 ^ Z.of_nat 2) with 256; lia|lia..|]. apply bytes_piece_x; (done || lia).
Qed.

(** ** Tokens *)

Section tokens.
  Context {B : Type} `{BigIntText B, Unicode} (int_limit : Z) (chars : list Z) (line_start_pos : nat).

Lemma lex_token_quote pos quote :
  is_quote_char quote → lex_token int_limit chars pos line_start_pos quote = lex_string chars pos false.
Proof using Type. by intros [->| ->]. Qed.

Lemma lex_token_bytes pos quote :
  is_quote_char quote → chars !! pos = Some (ch "b") → chars !! (pos + 1)%nat = Some quote →
  lex_token int_limit chars pos line_start_pos (ch "b") = lex_bytes chars (pos + 1) false.
Proof using Type.
  intros Hq Hb Hc. change (lex_token int_limit chars pos line_start_pos (ch "b")) with (lex_word chars pos line_start_pos).
  assert (Hquote : quote_at chars (pos + 1) = true) by (unfold quote_at, at_pos; rewrite Hc; by destruct Hq as [->| ->]).
  unfold lex_word. rewrite Hquote. unfold letter_at, at_pos. by rewrite Hb.
Qed.
End tokens.

(** * Integers and [int] *)


(** ** Underscores *)

Definition UNDERSCORE : Z := ch "_".

(** The underscore at [i], if there is one, has something else after it. *)
Definition placed_at (raw : list Z) (i : nat) : Prop :=
  raw !! i = Some UNDERSCORE → ∃ c, raw !! (i + 1)%nat = Some c ∧ c ≠ UNDERSCORE.

Lemma has_underscore raw i : has_char (ch "_") raw i = bool_decide (raw !! i = Some UNDERSCORE).
Proof.
  apply eq_true_iff_eq. by rewrite has_char_eq, bool_decide_eq_true.
Qed.

Lemma underscore_placed_spec allow raw i :
  (i < length raw)%nat →
  underscore_placed allow raw i = true ↔ placed_at raw i ∧ (raw !! i = Some UNDERSCORE → i = 0%nat → allow = true).
Proof.
  intros Hi. unfold underscore_placed, placed_at. rewrite !has_underscore. case_bool_decide as Hu; cbn [negb orb].
  - rewrite !andb_true_iff, !negb_true_iff, bool_decide_eq_false, Nat.eqb_neq. split.
    + intros [[H1 H2] H3]. split; [|intros _ ->; by destruct allow]. intros _.
      destruct (lookup_lt_is_Some_2 raw (i + 1)) as [c Hc]; [lia|]. exists c. split; [done|]. congruence.
    + intros [H1 H2]. destruct (H1 Hu) as (c & Hc & Hne). split; [split|].
      * rewrite Hc. by intros [= ->].
      * apply lookup_lt_Some in Hc. lia.
      * destruct (Nat.eqb_spec i 0); [|done]. by rewrite H2.
  - split; [|done]. intros _. by split; intros ?.
Qed.

Lemma forallb_indices (f : nat → bool) n : forallb f (seq 0 n) = true ↔ ∀ i, (i < n)%nat → f i = true.
Proof.
  rewrite forallb_forall. split; intros Hf i Hi; apply Hf; [apply in_seq; lia|]. apply in_seq in Hi. lia.
Qed.

Lemma pep515_strip_int_Some raw allow :
  raw ≠ [] → (∀ i, placed_at raw i) → (raw !! 0%nat = Some UNDERSCORE → allow = true) →
  pep515_strip_int raw allow = Some (without_underscores raw).
Proof.
  intros Hne Hp Ha. unfold pep515_strip_int. rewrite bool_decide_eq_false_2 by done.
  rewrite (proj2 (forallb_indices _ _)); [done|]. intros i Hi. apply underscore_placed_spec; [done|]. split; [done|]. intros Hu ->. auto.
Qed.

Lemma pep515_strip_int_None raw allow :
  raw ≠ [] → ¬ ((∀ i, placed_at raw i) ∧ (raw !! 0%nat = Some UNDERSCORE → allow = true)) → pep515_strip_int raw allow = None.
Proof.
  intros Hne Hp. unfold pep515_strip_int. rewrite bool_decide_eq_false_2 by done.
  destruct (forallb _ _) eqn:Hf; [|done]. destruct Hp. rewrite forallb_indices in Hf. split.
  - intros i Hu. pose proof (lookup_lt_Some _ _ _ Hu) as Hi. by apply (proj1 (underscore_placed_spec allow raw i Hi)); [apply Hf|].
  - intros Hu. pose proof (lookup_lt_Some _ _ _ Hu) as Hi. by apply (proj1 (underscore_placed_spec allow raw 0 Hi)); [apply Hf| |].
Qed.

Lemma no_underscores raw : UNDERSCORE ∉ raw → without_underscores raw = raw ∧ ∀ i, placed_at raw i.
Proof.
  intros Hu. split.
  - unfold without_underscores. induction raw as [|c raw IH]; [done|]. apply not_elem_of_cons in Hu as [Hc Hu].
    rewrite filter_cons, decide_True by (unfold UNDERSCORE in *; congruence). f_equal. auto.
  - intros i Hi. destruct Hu. by eapply list_elem_of_lookup_2.
Qed.

(** The lexer's test for literals with a prefix. *)
Lemma underscores_ok_spec prev raw :
  underscores_ok prev raw = true ↔
  (∀ i, placed_at raw i) ∧ (prev = true → ∃ c, raw !! 0%nat = Some c ∧ c ≠ UNDERSCORE).
Proof.
  revert prev. induction raw as [|c raw IH]; intros prev; cbn [underscores_ok].
  - split; [by destruct prev; [|split]|]. intros [_ Hp]. destruct prev; [|done]. by destruct (Hp eq_refl) as (c & ? & _).
  - assert (Hplaced : (∀ i, placed_at (c :: raw) i) ↔ placed_at (c :: raw) 0 ∧ ∀ i, placed_at raw i).
    { split; [intros Hp; split; [apply Hp|intros i; apply (Hp (S i))]|]. intros [H0 Hs] [|i]; [done|apply Hs]. }
    rewrite Hplaced. fold UNDERSCORE. destruct (Z.eqb_spec c UNDERSCORE) as [->|Hne].
    + rewrite andb_true_iff, negb_true_iff, IH. unfold placed_at at 2. cbn. split.
      * intros [-> [Hi Hn]]. split; [|done]. split; [|done]. auto.
      * intros [[H0 Hi] Hp]. split; [|split; auto]. destruct prev; [|done]. by destruct (Hp eq_refl) as (? & [= <-] & ?).
    + rewrite IH. unfold placed_at at 2. cbn. split.
      * intros [Hi _]. split; [split; [congruence|done]|]. intros _. by exists c.
      * by intros [[_ Hi] _].
Qed.

(** The lexer's test for decimal literals. *)
Lemma underscore_between_spec raw :
  Forall (λ c, digit_or_underscore c = true) raw →
  validate_decimal_underscores raw = Return tt ↔ (∀ i, placed_at raw i) ∧ raw !! 0%nat ≠ Some UNDERSCORE.
Proof.
  intros Hraw.
  assert (Hdigit : ∀ i c, raw !! i = Some c → at_pos is_ascii_digit raw i = true ↔ c ≠ UNDERSCORE).
  { intros i c Hc. unfold at_pos. rewrite Hc. pose proof (Forall_lookup_1 _ _ _ _ Hraw Hc) as Hd. unfold digit_or_underscore in Hd.
    fold UNDERSCORE in Hd. split; [by intros H1 ->|]. intros Hne. by rewrite (proj2 (Z.eqb_neq _ _) Hne), orb_false_r in Hd. }
  transitivity (∀ i, raw !! i = Some UNDERSCORE → (0 < i)%nat ∧ at_pos is_ascii_digit raw (i - 1) = true ∧ at_pos is_ascii_digit raw (i + 1) = true).
  { unfold validate_decimal_underscores. split.
    - destruct (forallb _ _) eqn:Hf; [|done]. intros _ i Hi. rewrite forallb_indices in Hf.
      specialize (Hf i (lookup_lt_Some _ _ _ Hi)). unfold underscore_between in Hf. rewrite has_underscore, bool_decide_eq_true_2 in Hf by done.
      cbn [negb orb] in Hf. rewrite !andb_true_iff, Nat.ltb_lt in Hf. tauto.
    - intros Hb. rewrite (proj2 (forallb_indices _ _)); [done|]. intros i Hi. unfold underscore_between. rewrite has_underscore.
      case_bool_decide as Hu; [|done]. cbn [negb orb]. rewrite !andb_true_iff, Nat.ltb_lt. by destruct (Hb i Hu) as (? & ? & ?). }
  split.
  - intros Hb. split; [|by intros [? _]%Hb; lia]. intros i Hi. destruct (Hb i Hi) as (_ & _ & Hn). unfold at_pos in Hn.
    destruct (raw !! (i + 1)%nat) as [c|] eqn:Hc; [|done]. exists c. split; [done|]. apply (Hdigit _ _ Hc). unfold at_pos. by rewrite Hc.
  - intros [Hp H0] i Hi. destruct (Hp i Hi) as (c & Hc & Hne). assert (0 < i)%nat by (destruct i; [done|lia]). split; [done|]. split.
    + destruct (lookup_lt_is_Some_2 raw (i - 1)) as [d Hd]; [apply lookup_lt_Some in Hi; lia|]. apply (Hdigit _ _ Hd). intros ->.
      destruct (Hp _ Hd) as (e & He & Hne'). replace (i - 1 + 1)%nat with i in He by lia. congruence.
    + by apply (Hdigit _ _ Hc).
Qed.

(** ** Trimming *)

Lemma trim_id `{Unicode} s : Forall (λ c, whitespace c = false) s → trim s = s.
Proof.
  assert (Hpre : ∀ s, Forall (λ c, whitespace c = false) s → trim_start_matches whitespace s = s).
  { intros s' Hs. unfold trim_start_matches. destruct Hs as [|c s' Hc _]; [done|]. cbn. by rewrite Hc. }
  intros Hs. unfold trim, trim_start, trim_end_matches. rewrite !Hpre by (rewrite ?Forall_reverse; done || by rewrite Hpre). by rewrite reverse_involutive.
Qed.

(** ** The digits of an integer *)

Lemma digit_char_facts d : 0 ≤ d < 36 →
  digit_char d ≠ UNDERSCORE ∧ digit_char d ≠ ch "-" ∧ digit_char d ≠ ch "+" ∧
  (48 ≤ digit_char d ≤ 57 ∧ d < 10 ∨ 97 ≤ digit_char d ≤ 122 ∧ 10 ≤ d).
Proof.
  intros Hd. unfold digit_char. change UNDERSCORE with 95. change (ch "-") with 45. change (ch "+") with 43.
  change (ch "0") with 48. change (ch "a") with 97. destruct (Z.ltb_spec d 10); lia.
Qed.

Lemma is_digit_char_facts c : is_digit_char c → c ≠ UNDERSCORE ∧ c ≠ ch "-" ∧ c ≠ ch "+" ∧ (48 ≤ c ≤ 57 ∨ 97 ≤ c ≤ 122).
Proof. intros (d & Hd & ->). destruct (digit_char_facts d Hd) as (H1 & H2 & H3 & H4). tauto. Qed.

Lemma digit_char_not_space `{Unicode, !UnicodeLaws} c : is_digit_char c → whitespace c = false.
Proof.
  intros Hc. apply is_digit_char_facts in Hc as (_ & _ & _ & Hr). rewrite whitespace_ascii by lia.
  apply bool_decide_eq_false_2. rewrite !elem_of_cons, elem_of_nil. lia.
Qed.

Lemma digits_no_underscore ds : Forall is_digit_char ds → UNDERSCORE ∉ ds.
Proof. rewrite Forall_forall. intros Hd Hu. by destruct (is_digit_char_facts _ (Hd _ Hu)). Qed.

Lemma format_radix_pos fuel base n acc : (0 < fuel)%nat → format_radix fuel base n acc ≠ [].
Proof.
  revert n acc. induction fuel as [|fuel IH]; intros n acc Hf; [lia|]. cbn [format_radix]. cbn zeta.
  destruct (n <? base); [done|]. rewrite format_radix_app. by destruct (format_radix fuel base _ []).
Qed.

(** The first digit of a number other than zero is not zero. *)
Lemma format_radix_first fuel base n acc :
  2 ≤ base ≤ 36 → 0 < n < 2 ^ Z.of_nat fuel → ∃ d rest, format_radix fuel base n acc = digit_char d :: rest ∧ 0 < d < base.
Proof.
  intros Hb. revert n acc. induction fuel as [|fuel IH]; intros n acc Hn.
  { change (2 ^ Z.of_nat 0) with 1 in Hn. lia. }
  cbn [format_radix]. cbn zeta. destruct (Z.ltb_spec n base).
  - exists n, acc. rewrite Z.mod_small by lia. split; [done|lia].
  - apply IH. split; [apply Z.div_str_pos; lia|]. apply Z.div_lt_upper_bound; [lia|].
    rewrite Nat2Z.inj_succ, Z.pow_succ_r in Hn by lia. nia.
Qed.

Definition is_base_digit (base c : Z) : Prop := ∃ d, 0 ≤ d < base ∧ c = digit_char d.

Lemma format_radix_base fuel base n acc :
  2 ≤ base → Forall (is_base_digit base) acc → Forall (is_base_digit base) (format_radix fuel base n acc).
Proof.
  intros Hb. revert n acc. induction fuel as [|fuel IH]; intros n acc Hacc; [done|]. cbn [format_radix]. cbn zeta.
  assert (Forall (is_base_digit base) (digit_char (n mod base) :: acc)).
  { constructor; [|done]. exists (n mod base). pose proof (Z.mod_pos_bound n base). split; [lia|done]. }
  destruct (n <? base); auto.
Qed.

(** The digits of an [i64] without its sign, and the sign. *)
Definition magnitude (base n : Z) : list Z := format_radix 64 base (Z.abs n) [].
Definition sign_of (n : Z) : list Z := if n <? 0 then [ch "-"] else [].
Definition is_i64 (n : Z) : Prop := - 2 ^ 63 ≤ n < 2 ^ 63.

Lemma int_to_string_eq n : int_to_string n = sign_of n ++ magnitude 10 n.
Proof. unfold int_to_string, sign_of, magnitude. destruct (Z.ltb_spec n 0); cbn [app]; [by rewrite Z.abs_neq by lia|by rewrite Z.abs_eq by lia]. Qed.

Lemma format_i64_eq prefix radix n : format_i64 prefix radix n = sign_of n ++ prefix ++ magnitude radix n.
Proof. unfold format_i64, sign_of, magnitude. destruct (Z.ltb_spec n 0); cbn [app]; [by rewrite Z.abs_neq by lia|by rewrite Z.abs_eq by lia]. Qed.

Lemma magnitude_digits base n : 2 ≤ base ≤ 36 → Forall is_digit_char (magnitude base n).
Proof. intros Hb. by apply format_radix_digits. Qed.

Lemma magnitude_value base n : 2 ≤ base ≤ 36 → is_i64 n → digits_value base 0 (magnitude base n) = Some (Z.abs n).
Proof.
  intros Hb Hn. unfold is_i64 in Hn. unfold magnitude. rewrite format_radix_value; [done|done|]. change (2 ^ Z.of_nat 64) with (2 ^ 64). lia.
Qed.

Lemma magnitude_i64 base n : 2 ≤ base ≤ 36 → is_i64 n → i64_from_str_radix base (sign_of n ++ magnitude base n) = Some n.
Proof.
  intros Hb Hn. pose proof (magnitude_value base n Hb Hn) as Hv. unfold is_i64 in Hn. unfold i64_from_str_radix, sign_of.
  assert (Hne : magnitude base n ≠ []) by (apply format_radix_pos; lia).
  destruct (Z.ltb_spec n 0).
  - unfold from_str_radix. cbn [app]. change (ch "-" =? ch "+") with false. change ((ch "-" =? ch "-") && (- 2 ^ 63 <? 0)) with true. cbn iota.
    rewrite bool_decide_eq_false_2, Hv by done. cbn [mbind option_bind]. rewrite Z.abs_neq, Z.opp_involutive by lia.
    by rewrite (proj2 (Z.leb_le _ n)), (proj2 (Z.leb_le n _)) by lia.
  - cbn [app]. apply from_str_radix_digits; [done|by apply magnitude_digits|by rewrite Hv, Z.abs_eq by lia|lia].
Qed.

Lemma magnitude_length base n : 2 ≤ base ≤ 36 → is_i64 n → (length (magnitude base n) <= 64)%nat.
Proof.
  intros Hb Hn. unfold is_i64 in Hn. unfold magnitude.
  assert (2 ^ 64 ≤ base ^ 64) by (apply Z.pow_le_mono_l; lia).
  pose proof (format_radix_length 64 base (Z.abs n) [] 64 ltac:(lia) ltac:(change (Z.of_nat 64) with 64; lia) ltac:(lia)) as Hl.
  cbn [length] in Hl. lia.
Qed.

Lemma strip_magnitude base n allow : 2 ≤ base ≤ 36 → pep515_strip_int (magnitude base n) allow = Some (magnitude base n).
Proof.
  intros Hb. destruct (no_underscores (magnitude base n)) as [Hw Hp]; [by apply digits_no_underscore, magnitude_digits|].
  rewrite pep515_strip_int_Some, Hw; [done|apply format_radix_pos; lia|done|].
  intros Hu. destruct (digits_no_underscore (magnitude base n)); [by apply magnitude_digits|by eapply list_elem_of_lookup_2].
Qed.

Lemma split_sign_eq n s : (∀ c rest, s = c :: rest → c ≠ ch "-" ∧ c ≠ ch "+") → split_sign (sign_of n ++ s) = (sign_of n, s).
Proof.
  intros Hs. unfold sign_of. destruct (n <? 0); [done|]. cbn [app]. unfold split_sign. destruct s as [|c rest]; [done|].
  destruct (Hs c rest eq_refl) as [H1 H2]. by rewrite (proj2 (Z.eqb_neq _ _) H1), (proj2 (Z.eqb_neq _ _) H2).
Qed.

Lemma magnitude_no_sign base n c rest : 2 ≤ base ≤ 36 → magnitude base n = c :: rest → c ≠ ch "-" ∧ c ≠ ch "+".
Proof.
  intros Hb Hm. pose proof (magnitude_digits base n Hb) as Hd. rewrite Hm in Hd. apply Forall_cons in Hd as [Hc _].
  by apply is_digit_char_facts in Hc as (_ & ? & ? & _).
Qed.

(** Decimal digits are not a base prefix. *)
Lemma decimal_no_prefix n lower upper :
  ¬ (48 ≤ ch lower ≤ 57) → ¬ (48 ≤ ch upper ≤ 57) → strip_base_prefix lower upper (magnitude 10 n) = None.
Proof.
  intros Hl Hu. pose proof (format_radix_base 64 10 (Z.abs n) [] ltac:(lia) (Forall_nil_2 _)) as Hd. fold (magnitude 10 n) in Hd.
  unfold strip_base_prefix. destruct Hd as [|z ds Hz Hd]; [done|]. destruct Hd as [|c ds Hc _]; [done|].
  destruct Hc as (d & Hd & ->). destruct (digit_char_facts d ltac:(lia)) as (_ & _ & _ & Hr).
  rewrite (proj2 (Z.eqb_neq _ (ch lower))), (proj2 (Z.eqb_neq _ (ch upper))) by lia. by rewrite andb_false_r.
Qed.

Lemma utf8_ascii cs : Forall (λ c, c < 0x80) cs → utf8 cs = cs.
Proof. induction 1 as [|c cs Hc _ IH]; [done|]. by rewrite utf8_cons, IH, encode_utf8_ascii. Qed.

Lemma is_digit_char_ascii c : is_digit_char c → c < 0x80.
Proof. intros Hc. apply is_digit_char_facts in Hc as (_ & _ & _ & ?). lia. Qed.

Section parse.
  Context {B : Type} `{BigIntText B, !Unicode, !UnicodeLaws} (limit : Z).

(** The limit has no effect on a text. *)
Definition unlimited (text : list Z) : Prop := limit = 0 ∨ Z.of_nat (length (utf8 text)) ≤ limit.

Lemma check_unlimited text base : unlimited text → check_int_parse_digits limit text base = Return tt.
Proof using Type.
  intros Hu. unfold check_int_parse_digits. destruct Hu as [->|Hu]; [done|]. destruct (_ || _); [done|].
  rewrite (proj2 (Z.ltb_ge limit _)); [done|]. unfold vlen. pose proof (length_filter (λ b, b ≠ ch "_") (utf8 text)). lia.
Qed.

Lemma sign_ascii n : Forall (λ c, c < 0x80) (sign_of n).
Proof using Type. unfold sign_of. destruct (n <? 0); [by apply Forall_cons|done]. Qed.

Lemma parse_magnitude base n e :
  2 ≤ base ≤ 36 → is_i64 n → limit = 0 ∨ INT_MAX_STR_DIGITS_MIN ≤ limit →
  parse_digits limit (sign_of n ++ magnitude base n) base e = Return (inl n).
Proof using Type.
  intros Hb Hn Hl. unfold parse_digits. rewrite check_unlimited, bind_Return, magnitude_i64; try done.
  destruct Hl as [->|Hl]; [by left|right]. rewrite utf8_ascii.
  - rewrite length_app. pose proof (magnitude_length base n Hb Hn). unfold INT_MAX_STR_DIGITS_MIN in Hl.
    assert (length (sign_of n) <= 1)%nat by (unfold sign_of; destruct (n <? 0); cbn; lia). lia.
  - apply Forall_app. split; [apply sign_ascii|]. eapply Forall_impl; [by apply magnitude_digits|]. apply is_digit_char_ascii.
Qed.

Lemma sign_not_space n : Forall (λ c, whitespace c = false) (sign_of n).
Proof using Type*.
  unfold sign_of. destruct (n <? 0); [|done]. apply Forall_cons. split; [|done]. by rewrite whitespace_ascii.
Qed.

Lemma magnitude_not_space base n : 2 ≤ base ≤ 36 → Forall (λ c, whitespace c = false) (magnitude base n).
Proof using Type*. intros Hb. eapply Forall_impl; [by apply magnitude_digits|]. intros c Hc. by apply digit_char_not_space. Qed.

(** The decimal text of an integer. *)
Lemma parse_decimal n base_arg repr :
  base_arg = 10 ∨ base_arg = 0 → is_i64 n → limit = 0 ∨ INT_MAX_STR_DIGITS_MIN ≤ limit →
  int_parse limit base_arg (int_to_string n) repr = Return (inl n).
Proof using Type*.
  intros Hb Hn Hl. unfold int_parse. rewrite int_to_string_eq, trim_id
    by (apply Forall_app; split; [apply sign_not_space|by apply magnitude_not_space]).
  assert (Hsign : split_sign (sign_of n ++ magnitude 10 n) = (sign_of n, magnitude 10 n)).
  { apply split_sign_eq. intros c rest Hm. by eapply (magnitude_no_sign 10 n). }
  destruct Hb as [->| ->].
  - unfold int_strip_explicit_base. rewrite Hsign. cbn [Z.eqb Pos.eqb]. rewrite strip_magnitude by done. cbn [mbind option_bind].
    by apply parse_magnitude.
  - unfold int_parse_base_zero. rewrite Hsign. cbn [Z.eqb]. rewrite !decimal_no_prefix by (vm_compute; intuition congruence).
    rewrite strip_magnitude by done. cbn [mbind option_bind].
    assert (Hzero : has_char (ch "0") (magnitude 10 n) 0 && (1 <? utf8_len (magnitude 10 n))%nat = false).
    { destruct (Z.eq_dec n 0) as [->|Hne]; [done|]. unfold is_i64 in Hn.
      destruct (format_radix_first 64 10 (Z.abs n) [] ltac:(lia)) as (d & rest & Hm & Hd); [change (2 ^ Z.of_nat 64) with (2 ^ 64); lia|].
      unfold magnitude at 1. rewrite Hm. apply andb_false_iff. left. apply not_true_iff_false. rewrite has_char_eq. intros [= Hc].
      revert Hc. unfold digit_char. rewrite (proj2 (Z.ltb_lt d 10)) by lia. lia. }
    rewrite Hzero. by apply parse_magnitude.
Qed.

Lemma strip_base_prefix_here lower upper rest : strip_base_prefix lower upper (ch "0" :: ch lower :: rest) = Some rest.
Proof using Type. unfold strip_base_prefix. by rewrite !Z.eqb_refl. Qed.

(** The text of an integer with a prefix. *)
Lemma parse_prefixed n radix letter base_arg repr :
  (radix, letter) ∈ [(16, "x"%char); (8, "o"%char); (2, "b"%char)] → base_arg = radix ∨ base_arg = 0 → is_i64 n →
  limit = 0 ∨ INT_MAX_STR_DIGITS_MIN ≤ limit →
  int_parse limit base_arg (format_i64 [ch "0"; ch letter] radix n) repr = Return (inl n).
Proof using Type*.
  intros Hr Hb Hn Hl. assert (Hradix : 2 ≤ radix ≤ 36).
  { rewrite !elem_of_cons in Hr. destruct Hr as [[= -> ->]|[[= -> ->]|[[= -> ->]|Hr]]]; [lia..|by apply elem_of_nil in Hr]. }
  assert (Hne : magnitude radix n ≠ []) by (apply format_radix_pos; lia).
  unfold int_parse. rewrite format_i64_eq, trim_id; cycle 1.
  { apply Forall_app; split; [apply sign_not_space|]. apply Forall_app; split; [|by apply magnitude_not_space].
    rewrite !elem_of_cons in Hr. repeat (apply Forall_cons; split; [|]); [..|done]; rewrite whitespace_ascii; try done;
      destruct Hr as [[= _ ->]|[[= _ ->]|[[= _ ->]|Hr]]]; done || by apply elem_of_nil in Hr. }
  assert (Hsign : split_sign (sign_of n ++ [ch "0"; ch letter] ++ magnitude radix n) = (sign_of n, [ch "0"; ch letter] ++ magnitude radix n)).
  { apply split_sign_eq. by intros c rest [= <- _]. }
  assert (Hdigits : prefixed_digits radix (sign_of n) (magnitude radix n) = Some (radix, sign_of n ++ magnitude radix n)).
  { unfold prefixed_digits. rewrite bool_decide_eq_false_2, strip_magnitude by done. cbn. by rewrite bool_decide_eq_false_2. }
  destruct Hb as [->| ->].
  - unfold int_strip_explicit_base. rewrite Hsign. cbn [app].
    rewrite !elem_of_cons in Hr. destruct Hr as [[= -> ->]|[[= -> ->]|[[= -> ->]|Hr]]]; [..|by apply elem_of_nil in Hr];
      cbn [Z.eqb Pos.eqb]; rewrite strip_base_prefix_here; cbn iota beta; rewrite strip_magnitude by done; by apply parse_magnitude.
  - unfold int_parse_base_zero. rewrite Hsign. cbn [app Z.eqb].
    rewrite !elem_of_cons in Hr. destruct Hr as [[= -> ->]|[[= -> ->]|[[= -> ->]|Hr]]]; [..|by apply elem_of_nil in Hr].
    + rewrite strip_base_prefix_here, Hdigits. by apply parse_magnitude.
    + change (strip_base_prefix "x" "X" (ch "0" :: ch "o" :: magnitude 8 n)) with (@None (list Z)).
      change (strip_base_prefix "b" "B" (ch "0" :: ch "o" :: magnitude 8 n)) with (@None (list Z)). cbn iota.
      rewrite strip_base_prefix_here, Hdigits. by apply parse_magnitude.
    + change (strip_base_prefix "x" "X" (ch "0" :: ch "b" :: magnitude 2 n)) with (@None (list Z)). cbn iota.
      rewrite strip_base_prefix_here, Hdigits. by apply parse_magnitude.
Qed.
End parse.

(** ** Literals of the lexer *)

Definition hex_or_underscore (c : Z) : bool := is_hex_digit c || (c =? ch "_").

Lemma hex_or_underscore_facts c : hex_or_underscore c = true → 48 ≤ c ≤ 102 ∧ c ≠ ch "-" ∧ c ≠ ch "+".
Proof.
  unfold hex_or_underscore, is_hex_digit, is_ascii_digit, in_range. rewrite !orb_true_iff, !andb_true_iff, !Z.leb_le, Z.eqb_eq.
  change (ch "0") with 48. change (ch "9") with 57. change (ch "a") with 97. change (ch "f") with 102. change (ch "A") with 65.
  change (ch "F") with 70. change (ch "_") with 95. change (ch "-") with 45. change (ch "+") with 43. lia.
Qed.

Section literals.
  Context {B : Type} `{BigIntText B, !Unicode, !UnicodeLaws} (limit : Z).

(** The number of a literal that is the whole of [s], and that of a result of
    [int]; a big integer is told by its digits. *)
Definition literal_value (s : list Z) (r : outcome (Token.Token * nat)) : option (Z + list Z) :=
  match r with
  | Return (Token.Int n, next) => if (next =? length s)%nat then Some (inl n) else None
  | Return (Token.BigInt text, next) => if (next =? length s)%nat then Some (inr text) else None
  | _ => None
  end.
Definition int_value (r : outcome (Z + B)) : option (Z + list Z) :=
  match r with Return (inl n) => Some (inl n) | Return (inr big) => Some (inr (big_to_string big)) | _ => None end.

(** The texts that the lexer takes for one number without a point or an exponent. *)
Inductive literal_text : list Z → Prop :=
  | decimal_text s : Forall (λ c, digit_or_underscore c = true) s → at_pos is_ascii_digit s 0 = true → literal_text s
  | hex_text c s : c = ch "x" ∨ c = ch "X" → Forall (λ c, is_hex_digit c || (c =? ch "_") = true) s → literal_text (ch "0" :: c :: s)
  | octal_text c s : c = ch "o" ∨ c = ch "O" → Forall (λ c, is_octal_digit c || (c =? ch "_") = true) s → literal_text (ch "0" :: c :: s)
  | binary_text c s : c = ch "b" ∨ c = ch "B" → Forall (λ c, is_binary_digit c || (c =? ch "_") = true) s → literal_text (ch "0" :: c :: s).

Lemma plain_text s : Forall (λ c, hex_or_underscore c = true) s → Forall (λ c, whitespace c = false) s ∧ Forall (λ c, c < 0x80) s.
Proof using Type*.
  intros Hs. split; (eapply Forall_impl; [exact Hs|]); intros c Hc%hex_or_underscore_facts; [|lia].
  rewrite whitespace_ascii by lia. apply bool_decide_eq_false_2. rewrite !elem_of_cons, elem_of_nil. lia.
Qed.

Lemma unlimited_stripped s : Forall (λ c, c < 0x80) s → unlimited limit s → unlimited limit (without_underscores s).
Proof using Type.
  intros Hs [->|Hu]; [by left|right]. rewrite (utf8_ascii s) in Hu by done.
  unfold without_underscores. rewrite utf8_ascii; cycle 1.
  { rewrite Forall_forall in *. intros c [_ Hc]%list_elem_of_filter. by apply Hs. }
  pose proof (length_filter (λ c, c ≠ ch "_") s). lia.
Qed.

Lemma skip_all p s start : Forall (λ c, p c = true) (drop start s) → (start <= length s)%nat → skip_while p s start = length s.
Proof using Type.
  intros Hp Hs. unfold skip_while. replace (prefix_len p (drop start s)) with (length (drop start s)); [rewrite length_drop; lia|].
  induction Hp as [|c cs Hc _ IH]; [done|]. cbn. by rewrite Hc, IH.
Qed.

Lemma all_underscores raw : raw ≠ [] → forallb (λ c, c =? ch "_") raw = true → ¬ ∀ i, placed_at raw i.
Proof using Type.
  intros Hne Hall Hp. rewrite forallb_forall in Hall.
  destruct (lookup_lt_is_Some_2 raw (length raw - 1)) as [c Hc]; [destruct raw; [done|cbn; lia]|].
  assert (c = UNDERSCORE) as -> by (apply Z.eqb_eq, Hall, list_elem_of_In; by eapply list_elem_of_lookup_2).
  destruct (Hp _ Hc) as (d & Hd & _). apply lookup_lt_Some in Hd. lia.
Qed.

Lemma some_digit raw : forallb (λ c, c =? ch "_") raw = false → without_underscores raw ≠ [].
Proof using Type.
  intros Hf He. apply not_true_iff_false in Hf. apply Hf, forallb_forall. intros c Hc%list_elem_of_In.
  destruct (Z.eqb_spec c (ch "_")); [done|]. assert (Hin : c ∈ without_underscores raw) by by apply list_elem_of_filter.
  rewrite He in Hin. by apply elem_of_nil in Hin.
Qed.

(** The digits after a prefix. *)
Lemma radix_agrees z c body radix is_digit kind e :
  Forall (λ c, is_digit c || (c =? ch "_") = true) body → Forall (λ c, c < 0x80) body → unlimited limit body →
  literal_value (z :: c :: body) (lex_radix (z :: c :: body) 2 radix is_digit kind) =
  int_value (match prefixed_digits radix [] body with Some (base, digits) => parse_digits limit digits base e | None => Raise e end).
Proof using Type.
  intros Hb Hascii Hu. unfold lex_radix. rewrite (skip_all _ _ 2) by (done || cbn; lia).
  rewrite (char_slice_eq (z :: c :: body) 2) by (cbn; lia). rewrite bind_Return.
  replace (take (length (z :: c :: body) - 2) (drop 2 (z :: c :: body))) with body by (cbn; rewrite drop_0, take_ge by lia; done).
  cbn [length].
  unfold prefixed_digits. case_bool_decide as Hnil; [done|]. cbn [orb]. destruct (forallb _ body) eqn:Hall.
  { rewrite (pep515_strip_int_None body true); [done|done|]. intros [Hp _]. by eapply all_underscores. }
  unfold validate_underscores. destruct (underscores_ok false body) eqn:Hok.
  - apply underscores_ok_spec in Hok as [Hp _]. rewrite pep515_strip_int_Some by done. cbn [mbind option_bind].
    rewrite bool_decide_eq_false_2 by by apply some_digit. unfold parse_digits. cbn [app]. rewrite check_unlimited by by apply unlimited_stripped.
    rewrite !bind_Return. destruct (i64_from_str_radix radix (without_underscores body)) as [v|]; cbn; [by rewrite Nat.eqb_refl|].
    destruct (big_parse radix (without_underscores body)) as [big|]; cbn; [by rewrite Nat.eqb_refl|done].
  - rewrite pep515_strip_int_None; [done|done|]. intros [Hp _]. apply not_true_iff_false in Hok. apply Hok, underscores_ok_spec. by split.
Qed.

Lemma digit_or_underscore_hex s :
  Forall (λ c, digit_or_underscore c = true) s → Forall (λ c, hex_or_underscore c = true) s.
Proof using Type.
  intros Hs. eapply Forall_impl; [exact Hs|]. intros c. unfold digit_or_underscore, hex_or_underscore, is_hex_digit.
  by intros [->| ->]%orb_true_iff; rewrite ?orb_true_r.
Qed.

Lemma small_digit_or_underscore_hex is_digit s :
  (∀ c, is_digit c = true → is_hex_digit c = true) → Forall (λ c, is_digit c || (c =? ch "_") = true) s →
  Forall (λ c, hex_or_underscore c = true) s.
Proof using Type.
  intros Hd Hs. eapply Forall_impl; [exact Hs|]. intros c Hc. unfold hex_or_underscore. apply orb_true_iff. apply orb_prop in Hc as [Hc|Hc]; auto.
Qed.

Lemma octal_hex c : is_octal_digit c = true → is_hex_digit c = true.
Proof using Type.
  unfold is_octal_digit, is_hex_digit, is_ascii_digit, in_range. rewrite !orb_true_iff, !andb_true_iff, !Z.leb_le.
  change (ch "0") with 48. change (ch "7") with 55. change (ch "9") with 57. lia.
Qed.
Lemma binary_hex c : is_binary_digit c = true → is_hex_digit c = true.
Proof using Type.
  unfold is_binary_digit, is_hex_digit, is_ascii_digit, in_range. rewrite !orb_true_iff, !andb_true_iff, !Z.leb_le.
  change (ch "0") with 48. change (ch "1") with 49. change (ch "9") with 57. lia.
Qed.

Lemma unlimited_body z c s : unlimited limit (z :: c :: s) → unlimited limit s.
Proof using Type. intros [?|Hu]; [by left|right]. rewrite !utf8_cons, !length_app in Hu. lia. Qed.

(** Leading zeros: the lexer's test and that of [int]. *)
Lemma leading_zeros_agree raw :
  Forall (λ c, digit_or_underscore c = true) raw → raw !! 0%nat ≠ Some UNDERSCORE →
  let digits := without_underscores raw in
  has_char (ch "0") raw 0 && existsb (λ c, is_ascii_digit c && negb (c =? ch "0")) raw =
  has_char (ch "0") digits 0 && (1 <? length digits)%nat && negb (forallb (Z.eqb (ch "0")) digits).
Proof using Type.
  intros Hraw Hz0. destruct Hraw as [|c raw Hc Hraw]; [done|]. cbn in Hz0. unfold without_underscores.
  rewrite filter_cons, decide_True by (unfold UNDERSCORE in Hz0; congruence). cbn zeta.
  assert (Hex : existsb (λ c, is_ascii_digit c && negb (c =? ch "0")) raw =
    negb (forallb (Z.eqb (ch "0")) (filter (λ c, c ≠ ch "_") raw))).
  { clear Hz0 Hc c. induction Hraw as [|c raw Hc _ IH]; [done|]. cbn [existsb]. rewrite IH, filter_cons.
    unfold digit_or_underscore in Hc. case_decide as Hu.
    - rewrite (proj2 (Z.eqb_neq c (ch "_"))), orb_false_r in Hc by done. rewrite Hc. cbn [forallb andb]. by rewrite negb_andb, (Z.eqb_sym c).
    - assert (c = ch "_") as -> by (destruct (Z.eq_dec c (ch "_")); [done|]; by destruct Hu). done. }
  cbn [existsb forallb]. rewrite Hex. unfold has_char, at_pos. cbn [lookup list_lookup length]. destruct (ch "0" =? c) eqn:Hz; [|done].
  rewrite Z.eqb_sym, Hz. cbn [negb andb]. rewrite andb_false_r. cbn [orb].
  destruct (filter (λ c, c ≠ ch "_") raw); done.
Qed.

Lemma stripped_ascii s : Forall (λ c, c < 0x80) s → Forall (λ c, c < 0x80) (without_underscores s).
Proof using Type. unfold without_underscores. rewrite !Forall_forall. intros Hs c [_ Hc]%list_elem_of_filter. by apply Hs. Qed.

Lemma digits_split_sign s : Forall (λ c, digit_or_underscore c = true) s → split_sign s = ([], s).
Proof using Type.
  intros Hs%digit_or_underscore_hex. destruct Hs as [|c rest Hc _]; [done|]. apply hex_or_underscore_facts in Hc as (_ & H2 & H3).
  unfold split_sign. by rewrite (proj2 (Z.eqb_neq _ _) H2), (proj2 (Z.eqb_neq _ _) H3).
Qed.

(** Digits and underscores do not begin with a prefix. *)
Lemma not_prefix_letter c lower upper :
  digit_or_underscore c = true → digit_or_underscore (ch lower) = false → digit_or_underscore (ch upper) = false →
  (c =? ch lower) || (c =? ch upper) = false.
Proof using Type. intros Hc Hl Hu. apply orb_false_iff. split; apply Z.eqb_neq; intros ->; congruence. Qed.

Lemma no_lex_prefix s lower upper :
  Forall (λ c, digit_or_underscore c = true) s → digit_or_underscore (ch lower) = false → digit_or_underscore (ch upper) = false →
  has_prefix s 0 lower upper = false.
Proof using Type.
  intros Hs Hl Hu. unfold has_prefix. apply andb_false_iff. right. unfold at_pos. destruct (s !! (0 + 1)%nat) as [c|] eqn:Hc; [|done].
  apply not_prefix_letter; [|done..]. by eapply (Forall_lookup_1 (λ c, digit_or_underscore c = true)).
Qed.

Lemma no_int_prefix s lower upper :
  Forall (λ c, digit_or_underscore c = true) s → digit_or_underscore (ch lower) = false → digit_or_underscore (ch upper) = false →
  strip_base_prefix lower upper s = None.
Proof using Type.
  intros Hs Hl Hu. unfold strip_base_prefix. destruct Hs as [|z s _ Hs]; [done|]. destruct Hs as [|c s Hc _]; [done|].
  by rewrite not_prefix_letter, andb_false_r.
Qed.

Lemma decimal_agrees s e :
  Forall (λ c, digit_or_underscore c = true) s → at_pos is_ascii_digit s 0 = true → unlimited limit s →
  literal_value s (lex_number limit s 0) =
  int_value (match int_parse_base_zero (trim s) with Some (base, digits) => parse_digits limit digits base e | None => Raise e end).
Proof using Type*.
  intros Hs Hfirst Hu. pose proof (digit_or_underscore_hex s Hs) as Hh. destruct (plain_text s Hh) as [Hw Ha]. rewrite trim_id by done.
  assert (Hne : s ≠ []) by by destruct s.
  assert (Hend : ∀ p, at_pos p s (length s) = false) by (intros p; unfold at_pos; by rewrite lookup_ge_None_2).
  unfold lex_number. rewrite !no_lex_prefix, skip_all by (done || lia). unfold has_char at 1. rewrite !Hend. cbn [andb]. unfold lex_decimal.
  rewrite (char_slice_eq s 0) by lia. rewrite bind_Return, Nat.sub_0_r, drop_0, take_ge by lia.
  unfold int_parse_base_zero. rewrite digits_split_sign by done. rewrite !no_int_prefix by done.
  destruct (validate_decimal_underscores s) as [[]|e'| |] eqn:Hv; cycle 1.
  { rewrite pep515_strip_int_None; [done|done|]. intros [Hp Hz]. enough (validate_decimal_underscores s = Return tt) by congruence.
    apply underscore_between_spec; [done|]. split; [done|]. by intros ?%Hz. }
  1,2: unfold validate_decimal_underscores in Hv; by destruct (forallb _ _).
  apply underscore_between_spec in Hv as [Hp Hz]; [|done]. rewrite bind_Return.
  rewrite pep515_strip_int_Some by (done || by intros ?%Hz).
  cbn [mbind option_bind]. unfold check_leading_zero. rewrite leading_zeros_agree by done. cbn zeta.
  unfold utf8_len. rewrite (utf8_ascii (without_underscores s)) by by apply stripped_ascii.
  destruct (has_char (ch "0") (without_underscores s) 0 && _) eqn:Hlead; cbn [andb]; [destruct (forallb _ (without_underscores s)); cbn [negb]|]; try done.
  all: rewrite bind_Return; unfold parse_digits; cbn [app]; rewrite check_unlimited by by apply unlimited_stripped.
  all: destruct (i64_from_str_radix 10 (without_underscores s)) as [v|]; cbn; [by rewrite Nat.eqb_refl|].
  all: destruct (big_parse 10 (without_underscores s)) as [big|]; cbn; [by rewrite Nat.eqb_refl|done].
Qed.

Lemma int_literals_agree s :
  literal_text s → unlimited limit s → literal_value s (lex_number limit s 0) = int_value (int_of_str_base limit s 0).
Proof using Type*.
  intros Hs Hu.
  unfold int_of_str_base. cbn [negb andb Z.eqb]. unfold int_parse. cbn [Z.eqb].
  generalize (int_literal_error 0 ([APOSTROPHE] ++ s ++ [APOSTROPHE])). intros e.
  assert (Hprefix : ∀ c body, Forall (λ c, hex_or_underscore c = true) body →
    c ∈ [ch "x"; ch "X"; ch "o"; ch "O"; ch "b"; ch "B"] →
    trim (ch "0" :: c :: body) = ch "0" :: c :: body ∧ Forall (λ c, c < 0x80) body).
  { intros c body Hh Hc. destruct (plain_text body Hh) as [Hw Ha]. split; [|done]. apply trim_id.
    apply Forall_cons; split; [by rewrite whitespace_ascii|]. apply Forall_cons; split; [|done].
    rewrite !elem_of_cons, elem_of_nil in Hc. rewrite whitespace_ascii;
      destruct Hc as [->|[->|[->|[->|[->|[->|[]]]]]]]; done. }
  destruct Hs as [s Hs Hfirst|c s Hc Hs|c s Hc Hs|c s Hc Hs].
  - by apply decimal_agrees.
  - destruct (Hprefix c s) as [-> Ha]; [done|rewrite !elem_of_cons; tauto|]. apply unlimited_body in Hu.
    destruct Hc as [->| ->]; by apply (radix_agrees (ch "0") _ s 16 is_hex_digit "hexadecimal" e).
  - destruct (Hprefix c s) as [-> Ha]; [eapply small_digit_or_underscore_hex, Hs; apply octal_hex|rewrite !elem_of_cons; tauto|].
    apply unlimited_body in Hu. destruct Hc as [->| ->]; by apply (radix_agrees (ch "0") _ s 8 is_octal_digit "octal" e).
  - destruct (Hprefix c s) as [-> Ha]; [eapply small_digit_or_underscore_hex, Hs; apply binary_hex|rewrite !elem_of_cons; tauto|].
    apply unlimited_body in Hu. destruct Hc as [->| ->]; by apply (radix_agrees (ch "0") _ s 2 is_binary_digit "binary" e).
Qed.
End literals.
