(* ===== verification/TextProps.v ===== *)
(** Texts that are read back as what they were made from: strings, bytes and
    integers, by the lexer and by [int]. *)

From stdpp Require Import strings.
From S2P Require Import Outcome Prelude Double Chars LexLiterals LexFStrings Lexer LexBounds LexProps Repr ReprSpec.

(** Characters of ASCII but controls are printable. *)
#[export] Instance ascii_categories : Categories :=
  λ c, if (c <? 32) || (127 <=? c) then Control else OtherCategory.

(** ** Strings *)

Section strings.
  Context {B : Type} `{BigIntText B, !Unicode, !Categories} (int_limit : Z).

Lemma repr_quote_nil : repr_quote [] = APOSTROPHE.
Proof using Type. done. Qed.

(** A literal of pieces, within a text. *)
Lemma pieces_token quote texts cps pre post line_start_pos :
  is_quote_char quote → Forall2 (piece quote) texts cps → Forall codepoint cps → (cps = [] → post !! 0%nat ≠ Some quote) →
  let text := [quote] ++ mjoin texts ++ [quote] in
  lex_token int_limit (pre ++ text ++ post) (length pre) line_start_pos quote =
    Return (Token.Str (utf8 cps), (length pre + length text)%nat).
Proof using Type.
  intros Hq Ht Hc Hpost text. rewrite lex_token_quote by done.
  apply lex_pieces; [done|done|by apply is_quote_char_not_backslash|apply occurs_here|].
  intros Hnil. specialize (Hpost Hnil). subst cps. apply Forall2_nil_inv_r in Ht as ->.
  rewrite lookup_app_r by lia. replace (length pre + 2 - length pre)%nat with 2%nat by lia. exact Hpost.
Qed.

Lemma ascii_escape_app s1 s2 : ascii_escape_str (s1 ++ s2) = ascii_escape_str s1 ++ ascii_escape_str s2.
Proof using Type. unfold ascii_escape_str. by rewrite fmap_app, join_app. Qed.

Lemma ascii_escape_join ss : ascii_escape_str (mjoin ss) = mjoin (ascii_escape_str <$> ss).
Proof using Type. induction ss as [|s ss IH]; [done|]. cbn [fmap list_fmap]. change (mjoin (s :: ss)) with (s ++ mjoin ss). by rewrite ascii_escape_app, IH. Qed.

Lemma ascii_escape_ascii s : Forall (λ c, 0 ≤ c < 0x80) s → ascii_escape_str s = s.
Proof using Type.
  induction 1 as [|c s Hc _ IH]; [done|]. change (ascii_escape_str (c :: s)) with (ascii_escape_char c ++ ascii_escape_str s).
  rewrite IH. unfold ascii_escape_char. by rewrite (proj2 (Z.ltb_lt c 0x80)) by lia.
Qed.

(** ASCII characters in the bytes of a text are its characters. *)
Lemma ascii_in_utf8 c cps : c < 0x80 → Forall codepoint cps → c ∈ utf8 cps ↔ c ∈ cps.
Proof using Type.
  intros Hc Hcps. induction Hcps as [|cp cps Hcp _ IH]; [done|]. rewrite utf8_cons, elem_of_app, elem_of_cons, IH.
  assert (Hin : c ∈ encode_utf8 cp ↔ c = cp); [|tauto]. rewrite encode_utf8_eq by done. unfold codepoint in Hcp.
  destruct (Z.ltb_spec cp 0x80); [by rewrite list_elem_of_singleton|].
  repeat (case_match; [rewrite !elem_of_cons, elem_of_nil; split; [|lia]; intros Hin; exfalso; divs|]).
  rewrite !elem_of_cons, elem_of_nil. split; [|lia]. intros Hin. exfalso. divs.
Qed.

(** The three texts of a string, as pieces. *)
Lemma str_repr_pieces cps :
  Forall codepoint cps →
  let q := repr_quote (utf8 cps) in
  let texts := escape_codepoint q <$> cps in
  str_repr (utf8 cps) = [q] ++ mjoin texts ++ [q] ∧ Forall2 (piece q) texts cps.
Proof using Type.
  intros Hc. cbn zeta. split; [unfold str_repr, escape_str; by rewrite codepoints_utf8|].
  apply Forall2_fmap_l, Forall_Forall2_diag. eapply Forall_impl; [exact Hc|].
  intros cp Hcp. cbn. apply escape_codepoint_piece; [apply repr_quote_char|done].
Qed.

Lemma ascii_repr_pieces cps :
  Forall codepoint cps →
  let q := repr_quote (utf8 cps) in
  let texts := (λ cp, ascii_escape_str (escape_codepoint q cp)) <$> cps in
  ascii_escape_str (str_repr (utf8 cps)) = [q] ++ mjoin texts ++ [q] ∧ Forall2 (piece q) texts cps.
Proof using Type.
  intros Hc. cbn zeta. pose proof (repr_quote_char (utf8 cps)) as Hq. split.
  - rewrite (proj1 (str_repr_pieces cps Hc)), !ascii_escape_app, ascii_escape_join, <- list_fmap_compose.
    assert (Hquote : ascii_escape_str [repr_quote (utf8 cps)] = [repr_quote (utf8 cps)]) by by destruct Hq as [->| ->].
    by rewrite Hquote.
  - apply Forall2_fmap_l, Forall_Forall2_diag. eapply Forall_impl; [exact Hc|].
    intros cp Hcp. cbn. by apply ascii_piece, escape_codepoint_piece.
Qed.

Lemma from_utf8_utf8 cps : Forall codepoint cps → from_utf8 (utf8 cps) = if forallb is_scalar cps then Some cps else None.
Proof using Type. intros Hc. unfold from_utf8. cbn zeta. by rewrite codepoints_utf8, bool_decide_eq_true_2, andb_true_r. Qed.

Lemma py_repr_pieces cps :
  Forall codepoint cps →
  let q := repr_quote (utf8 cps) in
  let texts := py_repr_char q <$> cps in
  py_repr_str (utf8 cps) = (if forallb is_scalar cps then Some ([q] ++ mjoin texts ++ [q]) else None) ∧ Forall2 (piece q) texts cps.
Proof using Type.
  intros Hc. cbn zeta. split.
  - unfold py_repr_str. cbn zeta. rewrite from_utf8_utf8 by done. by destruct (forallb is_scalar cps).
  - apply Forall2_fmap_l, Forall_Forall2_diag. eapply Forall_impl; [exact Hc|].
    intros cp Hcp. cbn. apply py_repr_char_piece; [apply repr_quote_char|done].
Qed.

(** Every character that [ascii] writes is in ASCII. *)
Lemma ascii_escape_range s : Forall (λ c, 0 ≤ c ≤ 0x10FFFF) s → Forall (λ c, c < 0x80) (ascii_escape_str s).
Proof using Type.
  induction 1 as [|c s Hc _ IH]; [done|]. change (ascii_escape_str (c :: s)) with (ascii_escape_char c ++ ascii_escape_str s).
  apply Forall_app. split; [|done]. unfold ascii_escape_char. destruct (Z.ltb_spec c 0x80); [by apply Forall_cons|].
  assert (Hhex : ∀ l w, ch l < 0x80 → Forall (λ c, c < 0x80) (BACKSLASH :: ch l :: hex_format w c)).
  { intros l w Hl. apply Forall_cons; split; [done|]. apply Forall_cons; split; [done|]. eapply Forall_impl; [|apply is_digit_char_ascii].
    unfold hex_format, padded. apply Forall_app. split; [|by apply format_radix_digits].
    apply Forall_replicate. exists 0. split; [lia|done]. }
  destruct (c <=? 0xFF); [by apply Hhex|]. destruct (c <=? 0xFFFF); by apply Hhex.
Qed.

Lemma piece_range quote text n : codepoint n → piece quote text n → Forall codepoint text.
Proof using Type.
  assert (Hdigit : ∀ h, Forall is_digit_char h → Forall codepoint h).
  { intros h Hh. eapply Forall_impl; [exact Hh|]. intros c Hc%is_digit_char_facts. unfold codepoint. lia. }
  intros Hn Hp. destruct Hp as [c _ _|e b He|h m _ Hd _ _|h m _ Hd _|h m _ Hd _]; repeat (apply Forall_cons; split); try done; auto.
  apply simple_escape_spec in He. unfold codepoint. lia.
Qed.

Lemma repr_range quote texts cps :
  is_quote_char quote → Forall codepoint cps → Forall2 (piece quote) texts cps → Forall codepoint ([quote] ++ mjoin texts ++ [quote]).
Proof using Type.
  intros Hq Hc Ht. assert (Hquote : codepoint quote) by by destruct Hq as [->| ->].
  rewrite !Forall_app, !Forall_singleton. split; [done|]. split; [|done].
  induction Ht as [|text n texts cps Hp _ IH]; [done|]. apply Forall_cons in Hc as [Hn Hc].
  change (mjoin (text :: texts)) with (text ++ mjoin texts). apply Forall_app. split; [by apply (piece_range quote text n)|auto].
Qed.

(** C21: The [repr] of a string, whatever its code points, lone surrogates
    included, is a literal that the lexer reads back as the same string wherever
    it stands; so is the [ascii] of the string, whose characters are all in
    ASCII.  The text that the compiler writes for a string constant is such a
    literal too where the string has no lone surrogate; where it has one, what
    the compiler does is undefined, though its comment says that it escapes
    surrogates.  Only the literal of the empty string must not be followed by a
    third quote. *)
Theorem string_literals_round_trip cps pre post line_start_pos :
  Forall codepoint cps → (cps = [] → post !! 0%nat ≠ Some APOSTROPHE) →
  let s := utf8 cps in
  let reads text := lex_token int_limit (pre ++ text ++ post) (length pre) line_start_pos (repr_quote s) =
    Return (Token.Str s, (length pre + length text)%nat) in
  reads (str_repr s) ∧ reads (ascii_escape_str (str_repr s)) ∧ Forall (λ c, c < 0x80) (ascii_escape_str (str_repr s)) ∧
  (if forallb is_scalar cps then ∃ text, py_repr_str s = Some text ∧ reads text else py_repr_str s = None).
Proof using Type.
  intros Hc Hpost s reads.
  assert (Hreads : ∀ text texts, text = [repr_quote s] ++ mjoin texts ++ [repr_quote s] ∧ Forall2 (piece (repr_quote s)) texts cps → reads text).
  { intros text texts [-> Ht]. apply pieces_token; [apply repr_quote_char|done|done|]. intros Hnil. subst cps. by apply Hpost. }
  split; [by eapply Hreads, str_repr_pieces|]. split; [by eapply Hreads, ascii_repr_pieces|]. split.
  - destruct (str_repr_pieces cps Hc) as [Heq Ht]. apply ascii_escape_range. unfold s. rewrite Heq.
    eapply repr_range; [apply repr_quote_char|exact Hc|exact Ht].
  - destruct (py_repr_pieces cps Hc) as [Heq Ht]. unfold s. rewrite Heq. destruct (forallb is_scalar cps); [|done]. eauto.
Qed.

(** ** Bytes *)

(** The [repr] of bytes is a literal that the lexer reads back as the same
    bytes wherever it stands; that of no bytes must not be followed by a third
    quote. *)
Theorem bytes_literals_round_trip bytes pre post line_start_pos :
  Forall byte_range bytes → (bytes = [] → post !! 0%nat ≠ Some APOSTROPHE) →
  lex_token int_limit (pre ++ bytes_repr bytes ++ post) (length pre) line_start_pos (ch "b") =
    Return (Token.Bytes bytes, (length pre + length (bytes_repr bytes))%nat).
Proof using Type.
  intros Hb Hpost. unfold bytes_repr. cbn zeta.
  match goal with |- context [if ?b then QUOTE else APOSTROPHE] => set (q := if b then QUOTE else APOSTROPHE) end.
  assert (Hq : is_quote_char q) by (unfold q, is_quote_char; case_match; auto).
  assert (Hnil : bytes = [] → q = APOSTROPHE) by by intros ->. clearbody q.
  set (texts := bytes_repr_byte q <$> bytes). set (chars := pre ++ ([ch "b"; q] ++ mjoin texts ++ [q]) ++ post).
  assert (Ho : occurs chars (length pre) ([ch "b"; q] ++ mjoin texts ++ [q])) by apply occurs_here.
  cbn [app] in Ho. apply occurs_cons in Ho as [Hc0 Ho]. pose proof (occurs_cons _ _ _ _ Ho) as [Hc1 _].
  rewrite (lex_token_bytes _ _ _ _ q) by done. rewrite (lex_bytes_pieces _ q texts bytes).
  - cbn [app length]. do 2 f_equal. rewrite !length_app. cbn. lia.
  - apply Forall2_fmap_l, Forall_Forall2_diag. eapply Forall_impl; [exact Hb|]. intros b Hbyte. by apply bytes_repr_byte_piece.
  - by apply is_quote_char_not_backslash.
  - exact Ho.
  - intros ->. rewrite (Hnil eq_refl) in *. unfold chars. rewrite lookup_app_r by lia.
    replace (length pre + 1 + 2 - length pre)%nat with 3%nat by lia. by apply Hpost.
Qed.
End strings.

(** ** Integers *)

Section integers.
  Context {B : Type} `{BigIntText B, !Unicode, !UnicodeLaws} (limit : Z).

(** C27: The texts that [str], [hex], [oct] and [bin] make of a machine integer,
    whatever its sign, are read back by [int] as the same integer, in the base
    of the text and with the base left to the prefix. *)
Theorem integer_texts_round_trip n :
  is_i64 n → limit = 0 ∨ INT_MAX_STR_DIGITS_MIN ≤ limit →
  int_of_str limit (int_to_string n) = Return (inl n) ∧
  ∀ text base, (text, base) ∈ [(int_to_string n, 10); (format_hex_i64 n, 16); (format_oct_i64 n, 8); (format_bin_i64 n, 2)] →
    int_of_str_base limit text base = Return (inl n) ∧ int_of_str_base limit text 0 = Return (inl n).
Proof using Type*.
  intros Hn Hl. split; [by apply parse_decimal; [left| |]|]. intros text base Ht. rewrite !elem_of_cons in Ht.
  destruct Ht as [[= -> ->]|[[= -> ->]|[[= -> ->]|[[= -> ->]|Ht]]]]; [..|by apply elem_of_nil in Ht].
  - split; by apply parse_decimal; [auto| |].
  - split; by apply (parse_prefixed limit n 16 "x"); [rewrite !elem_of_cons; auto|auto| |].
  - split; by apply (parse_prefixed limit n 8 "o"); [rewrite !elem_of_cons; auto|auto| |].
  - split; by apply (parse_prefixed limit n 2 "b"); [rewrite !elem_of_cons; auto|auto| |].
Qed.

(** [int] with the base left to the prefix and the lexer agree on the
    literals of integers: on every text that the lexer takes for one number
    without a point or an exponent, and that is not too long for the limit on
    digits, either both give the same number, small or big, or both refuse the
    text, for misplaced underscores, leading zeros or missing digits. *)
Theorem int_reads_literals_as_the_lexer s :
  literal_text s → unlimited limit s → literal_value s (lex_number limit s 0) = int_value (int_of_str_base limit s 0).
Proof using Type*. apply int_literals_agree. Qed.
End integers.

(** ** Witnesses *)

(** A lone surrogate, letters, both quotes, an emoji, a line feed and an accent. *)
Definition sample_text : list Z := [0xD83D; 0x41; 0x27; 0x22; 0x1F600; 10; 0xE9].

Lemma sample_codepoints : Forall codepoint sample_text.
Proof. unfold sample_text. repeat (apply Forall_cons; split; [unfold codepoint; lia|]). done. Qed.

Lemma string_literals_round_trip_witness :
  (∀ cps, cps ∈ [sample_text; tail sample_text] →
    let s := utf8 cps in
    let reads text := lex_token 4300 (chars_of "x = " ++ text ++ []) 4 0 (repr_quote s) = Return (Token.Str s, (4 + length text)%nat) in
    reads (str_repr s) ∧ reads (ascii_escape_str (str_repr s)) ∧ Forall (λ c, c < 0x80) (ascii_escape_str (str_repr s)) ∧
    (if forallb is_scalar cps then ∃ text, py_repr_str s = Some text ∧ reads text else py_repr_str s = None)) ∧
  forallb is_scalar sample_text = false ∧ forallb is_scalar (tail sample_text) = true.
Proof.
  split; [|by vm_compute]. intros cps Hcps. apply (string_literals_round_trip 4300 cps (chars_of "x = ") [] 0); [|by intros _ [=]].
  pose proof sample_codepoints as Hs. apply elem_of_cons in Hcps as [->|Hcps]; [done|]. apply list_elem_of_singleton in Hcps as ->.
  by apply Forall_tail in Hs.
Defined.

Lemma bytes_literals_round_trip_witness :
  let text := bytes_repr [0; 0x27; 0x5C; 255] in
  lex_token 4300 (chars_of "x = " ++ text ++ [ch ")"]) 4 0 (ch "b") = Return (Token.Bytes [0; 0x27; 0x5C; 255], (4 + length text)%nat).
Proof.
  apply (bytes_literals_round_trip 4300 [0; 0x27; 0x5C; 255] (chars_of "x = ") [ch ")"] 0); [|discriminate].
  repeat (apply Forall_cons; split; [unfold byte_range; lia|]). done.
Defined.

Lemma integer_texts_round_trip_witness :
  int_of_str 4300 (int_to_string (- 2 ^ 63)) = Return (inl (- 2 ^ 63)) ∧
  ∀ text base, (text, base) ∈ [(int_to_string (- 2 ^ 63), 10); (format_hex_i64 (- 2 ^ 63), 16); (format_oct_i64 (- 2 ^ 63), 8);
      (format_bin_i64 (- 2 ^ 63), 2)] →
    int_of_str_base 4300 text base = Return (inl (- 2 ^ 63)) ∧ int_of_str_base 4300 text 0 = Return (inl (- 2 ^ 63)).
Proof. apply (integer_texts_round_trip 4300 (- 2 ^ 63)); [unfold is_i64; lia|right; unfold INT_MAX_STR_DIGITS_MIN; lia]. Defined.

Lemma int_reads_literals_as_the_lexer_witness :
  literal_value (chars_of "0x_fF") (lex_number 4300 (chars_of "0x_fF") 0) = int_value (int_of_str_base 4300 (chars_of "0x_fF") 0).
Proof.
  apply (int_reads_literals_as_the_lexer 4300 (chars_of "0x_fF")).
  - apply (hex_text (ch "x") (chars_of "_fF")); [by left|]. repeat (apply Forall_cons; split; [done|]). done.
  - right. vm_compute. discriminate.
Defined.

(** ** Where the code differs from Python *)

(** The compiler's text of an annotation with a lone surrogate is undefined. *)
Example surrogate_has_no_compiler_text : py_repr_str (utf8 [0xD800]) = None.
Proof. vm_compute. reflexivity. Qed.

(** A second sign is accepted after a plus sign, and after a prefix. *)
Example int_takes_two_signs :
  int_of_str 4300 (chars_of "+-5") = Return (inl (-5)) ∧ int_of_str 4300 (chars_of "++5") = Return (inl 5) ∧
  int_of_str_base 4300 (chars_of "0x-5") 16 = Return (inl (-5)) ∧ int_of_str_base 4300 (chars_of "0x+5") 0 = Return (inl 5).
Proof. split; [|split; [|split]]; vm_compute; reflexivity. Qed.

(** The limit counts the minus sign as a digit. *)
Example limit_counts_the_sign :
  int_of_str 640 (replicate 640 (ch "0")) = Return (inl 0) ∧
  ∃ message, int_of_str 640 (ch "-" :: replicate 640 (ch "0")) = Raise (Named "ValueError" message).
Proof. split; [|eexists]; vm_compute; reflexivity. Qed.
