(* ===== verification/Combinatorics.v ===== *)
(** The positional iterators of itertools
    (crates/pyrust/src/builtin_modules/bodies/itertools/combinatoric_cursors.rs,
    combinatoric_adapters.inc.rs and the classes of itertools.rs that use them):
    a cursor holds the pools and a vector of indices, and every call of
    [__next__] moves the indices on. *)

From S2P Require Import Prelude Outcome.

(** ** Methods: code that changes its receiver and may raise *)

(** What a method does to its receiver stays done when it raises. *)
Definition prog (S A : Type) : Type := S → outcome A * S.

#[export] Instance prog_ret {S} : MRet (prog S) := λ A a s, (Return a, s).
#[export] Instance prog_bind {S} : MBind (prog S) := λ A B f m s,
  match m s with
  | (Return a, s') => f a s'
  | (Raise e, s') => (Raise e, s')
  | (Panicked, s') => (Panicked, s')
  | (OutOfFuel, s') => (OutOfFuel, s')
  end.

Definition get_self {S} : prog S S := λ s, (Return s, s).
Definition modify {S} (f : S → S) : prog S unit := λ s, (Return tt, f s).
(** Code that leaves the receiver alone. *)
Definition pure {S A} (m : outcome A) : prog S A := λ s, (m, s).
(** A method of a part of the receiver. *)
Definition on_part {S T A} (part : S → T) (with_part : T → S → S) (m : prog T A) : prog S A :=
  λ s, let '(r, t) := m (part s) in (r, with_part t s).

(** [for x in l] *)
Fixpoint for_each {S A} (l : list A) (f : A → prog S unit) : prog S unit :=
  match l with
  | [] => mret tt
  | x :: l => _ ← f x; for_each l f
  end.

Definition stop_iteration : PyError := Named "StopIteration" "".
(** The class itself; its subclasses are classes of the program. *)
Definition is_stop_iteration (e : PyError) : bool :=
  match e with Named "StopIteration" _ => true | _ => false end.

Definition internal (fn_name : string) : PyError :=
  Runtime ("internal: " +:+ fn_name +:+ "() instance state corrupted").

(** ** Vectors of indices *)

(** [a - b] on [usize]. *)
Definition minus_usize (a b : nat) : outcome nat := if (b <=? a)%nat then Return (a - b)%nat else Panicked.

Definition at_index (i : nat) : prog (list nat) nat := λ v, (lift (vnth v i), v).
Definition set_index (i x : nat) : prog (list nat) unit := λ v,
  match v !! i with
  | Some _ => (Return tt, <[i := x]> v)
  | None => (Panicked, v)
  end.
(** [v[i..].rotate_left(1)] *)
Definition rotate_from (i : nat) : prog (list nat) unit := λ v,
  match drop i v with
  | x :: rest => (Return tt, take i v ++ rest ++ [x])
  | [] => (Panicked, v)
  end.
(** [v.swap(i, j)] *)
Definition swap_indices (i j : nat) : prog (list nat) unit :=
  x ← at_index i; y ← at_index j; _ ← set_index i y; set_index j x.

Section cursors.
  (** Values, and which capacities the allocator grants. *)
  Context {V : Type} (try_reserve_exact : nat → bool).

Definition memory_error : PyError := Named "MemoryError" "".
Definition repeat_too_large : PyError := OverflowError "repeat argument too large".

(** [try_value_vec] and [try_usize_vec]: an empty vector, when there is room. *)
Definition try_vec (capacity : nat) : outcome unit :=
  if try_reserve_exact capacity then Return tt else Raise memory_error.

(** The pools are lists; the code tests that they are. *)
Inductive pool : Type :=
  | PoolList (items : list V)
  | PoolOther.

Definition reserve_product_pools (distinct_pool_count repeat : nat) : outcome unit :=
  match checked_mul (Z.of_nat distinct_pool_count) (Z.of_nat repeat) with
  | None => Raise repeat_too_large
  | Some total => if ((2 ^ 63 - 1) / 8 <? total)%Z then Raise repeat_too_large else try_vec (Z.to_nat total)
  end.

Definition reserve_distinct_pools (distinct_pool_count : nat) : outcome unit := try_vec distinct_pool_count.

Fixpoint tuple_from_pool_loop (pool : list V) (fn_name : string) (indices : list nat) : outcome (list V) :=
  match indices with
  | [] => Return []
  | index :: indices =>
      match pool !! index with
      | Some v => tuple ← tuple_from_pool_loop pool fn_name indices; Return (v :: tuple)
      | None => Raise (internal fn_name)
      end
  end.
Definition tuple_from_pool (pool : list V) (indices : list nat) (fn_name : string) : outcome (list V) :=
  _ ← try_vec (length indices); tuple_from_pool_loop pool fn_name indices.

(** ** product *)

Record ProductCursor := {
  pc_pools : list pool;
  pc_indices : list nat;
  pc_started : bool;
  pc_exhausted : bool;
}.

Definition pool_is_empty (p : pool) : bool :=
  match p with PoolList items => (length items =? 0)%nat | PoolOther => false end.

Definition product_try_new (pools : list pool) : outcome ProductCursor :=
  let exhausted := existsb pool_is_empty pools in
  indices ← (if exhausted then Return [] else _ ← try_vec (length pools); Return (replicate (length pools) 0%nat));
  Return {| pc_pools := pools; pc_indices := indices; pc_started := false; pc_exhausted := exhausted |}.

Definition pool_len (pools : list pool) (position : nat) (fn_name : string) : outcome nat :=
  match pools !! position with
  | Some (PoolList items) => Return (length items)
  | Some PoolOther => Raise (internal fn_name)
  | None => Panicked
  end.

(** Move the indices on from [position] leftwards; [false] when all wrapped. *)
Fixpoint product_loop (pools : list pool) (fn_name : string) (position : nat) : prog (list nat) bool :=
  match position with
  | O => mret false
  | S position =>
      pool_len ← pure (pool_len pools position fn_name);
      index ← at_index position;
      _ ← set_index position (index + 1)%nat;
      if (index + 1 <? pool_len)%nat then mret true
      else _ ← set_index position 0%nat; product_loop pools fn_name position
  end.

Fixpoint product_tuple (fn_name : string) (dimensions : list (pool * nat)) : outcome (list V) :=
  match dimensions with
  | [] => Return []
  | (PoolOther, _) :: _ => Raise (internal fn_name)
  | (PoolList items, index) :: dimensions =>
      match items !! index with
      | Some v => tuple ← product_tuple fn_name dimensions; Return (v :: tuple)
      | None => Raise (internal fn_name)
      end
  end.

Definition pc_with_indices (indices : list nat) (c : ProductCursor) : ProductCursor :=
  {| pc_pools := pc_pools c; pc_indices := indices; pc_started := pc_started c; pc_exhausted := pc_exhausted c |}.
Definition pc_start (c : ProductCursor) : ProductCursor :=
  {| pc_pools := pc_pools c; pc_indices := pc_indices c; pc_started := true; pc_exhausted := pc_exhausted c |}.
Definition pc_exhaust (c : ProductCursor) : ProductCursor :=
  {| pc_pools := pc_pools c; pc_indices := pc_indices c; pc_started := pc_started c; pc_exhausted := true |}.

Definition product_next_tuple (fn_name : string) : prog ProductCursor (option (list V)) :=
  self ← get_self;
  if pc_exhausted self then mret None
  else
    moved ← (if pc_started self then on_part pc_indices pc_with_indices (product_loop (pc_pools self) fn_name (length (pc_pools self)))
             else _ ← modify pc_start; mret true);
    if (moved : bool) then
      self ← get_self;
      _ ← pure (try_vec (length (pc_indices self)));
      tuple ← pure (product_tuple fn_name (zip (pc_pools self) (pc_indices self)));
      mret (Some tuple)
    else _ ← modify pc_exhaust; mret None.

(** ** combinations and combinations_with_replacement *)

Record CombinationsCursor := {
  cc_pool : list V;
  cc_indices : list nat;
  cc_with_replacement : bool;
  cc_started : bool;
  cc_exhausted : bool;
}.

Definition combinations_try_new (pool : list V) (r : nat) (with_replacement : bool) : outcome CombinationsCursor :=
  let pool_len := length pool in
  let exhausted := if with_replacement then (pool_len =? 0)%nat && (0 <? r)%nat else (pool_len <? r)%nat in
  _ ← (if exhausted || (r =? 0)%nat then Return tt else try_vec r);
  let indices :=
    if negb exhausted && (0 <? r)%nat then if with_replacement then replicate r 0%nat else seq 0 r else [] in
  Return {| cc_pool := pool; cc_indices := indices; cc_with_replacement := with_replacement;
            cc_started := false; cc_exhausted := exhausted |}.

(** The indices after the one at [position] that was moved on. *)
Definition fill_after (with_replacement : bool) (position r : nat) : prog (list nat) unit :=
  for_each (seq (position + 1) (r - (position + 1))) (λ index,
    x ← (if with_replacement then at_index position
         else i ← pure (minus_usize index 1); x ← at_index i; mret (x + 1)%nat);
    set_index index x).

Fixpoint combinations_loop (with_replacement : bool) (n r position : nat) : prog (list nat) bool :=
  match position with
  | O => mret false
  | S position =>
      max_value ← pure (if with_replacement then minus_usize n 1
                        else m ← minus_usize n r; Return (m + position)%nat);
      index ← at_index position;
      if (index <? max_value)%nat then
        _ ← set_index position (index + 1)%nat;
        _ ← fill_after with_replacement position r;
        mret true
      else combinations_loop with_replacement n r position
  end.

Definition cc_with_indices (indices : list nat) (c : CombinationsCursor) : CombinationsCursor :=
  {| cc_pool := cc_pool c; cc_indices := indices; cc_with_replacement := cc_with_replacement c;
     cc_started := cc_started c; cc_exhausted := cc_exhausted c |}.
Definition cc_start (c : CombinationsCursor) : CombinationsCursor :=
  {| cc_pool := cc_pool c; cc_indices := cc_indices c; cc_with_replacement := cc_with_replacement c;
     cc_started := true; cc_exhausted := cc_exhausted c |}.
Definition cc_exhaust (c : CombinationsCursor) : CombinationsCursor :=
  {| cc_pool := cc_pool c; cc_indices := cc_indices c; cc_with_replacement := cc_with_replacement c;
     cc_started := cc_started c; cc_exhausted := true |}.

Definition combinations_next_tuple (fn_name : string) : prog CombinationsCursor (option (list V)) :=
  self ← get_self;
  if cc_exhausted self then mret None
  else
    let r := length (cc_indices self) in
    moved ← (if cc_started self then
               if (r =? 0)%nat then mret false
               else on_part cc_indices cc_with_indices (combinations_loop (cc_with_replacement self) (length (cc_pool self)) r r)
             else _ ← modify cc_start; mret true);
    if (moved : bool) then
      self ← get_self;
      tuple ← pure (tuple_from_pool (cc_pool self) (cc_indices self) fn_name);
      mret (Some tuple)
    else _ ← modify cc_exhaust; mret None.

(** ** permutations *)

Record PermutationsCursor := {
  pm_pool : list V;
  pm_r : nat;
  pm_indices : list nat;
  pm_cycles : list nat;
  pm_started : bool;
  pm_exhausted : bool;
}.

Definition permutations_try_new (pool : list V) (r : nat) : outcome PermutationsCursor :=
  let exhausted := (length pool <? r)%nat in
  _ ← (if exhausted || (r =? 0)%nat then Return tt else _ ← try_vec (length pool); try_vec r);
  let '(indices, cycles) :=
    if negb exhausted && (0 <? r)%nat then (seq 0 (length pool), (λ index, (length pool - index)%nat) <$> seq 0 r)
    else ([], []) in
  Return {| pm_pool := pool; pm_r := r; pm_indices := indices; pm_cycles := cycles;
            pm_started := false; pm_exhausted := exhausted |}.

(** The receiver of the loop: the indices and the cycles. *)
Definition with_fst {A B} (a : A) (s : A * B) : A * B := (a, snd s).
Definition with_snd {A B} (b : B) (s : A * B) : A * B := (fst s, b).

Fixpoint permutations_loop (n : nat) (positions : list nat) : prog (list nat * list nat) bool :=
  match positions with
  | [] => mret false
  | position :: positions =>
      cycle ← on_part snd with_snd (at_index position);
      cycle ← pure (minus_usize cycle 1);
      _ ← on_part snd with_snd (set_index position cycle);
      if (cycle =? 0)%nat then
        _ ← on_part fst with_fst (rotate_from position);
        whole ← pure (minus_usize n position);
        _ ← on_part snd with_snd (set_index position whole);
        permutations_loop n positions
      else
        swap_index ← pure (minus_usize n cycle);
        _ ← on_part fst with_fst (swap_indices position swap_index);
        mret true
  end.

Definition pm_state (c : PermutationsCursor) : list nat * list nat := (pm_indices c, pm_cycles c).
Definition pm_with_state (s : list nat * list nat) (c : PermutationsCursor) : PermutationsCursor :=
  {| pm_pool := pm_pool c; pm_r := pm_r c; pm_indices := fst s; pm_cycles := snd s;
     pm_started := pm_started c; pm_exhausted := pm_exhausted c |}.
Definition pm_start (c : PermutationsCursor) : PermutationsCursor :=
  {| pm_pool := pm_pool c; pm_r := pm_r c; pm_indices := pm_indices c; pm_cycles := pm_cycles c;
     pm_started := true; pm_exhausted := pm_exhausted c |}.
Definition pm_exhaust (c : PermutationsCursor) : PermutationsCursor :=
  {| pm_pool := pm_pool c; pm_r := pm_r c; pm_indices := pm_indices c; pm_cycles := pm_cycles c;
     pm_started := pm_started c; pm_exhausted := true |}.

(** [&indices[..r]] *)
Definition leading (r : nat) (indices : list nat) : outcome (list nat) :=
  if (r <=? length indices)%nat then Return (take r indices) else Panicked.

Definition permutations_next_tuple (fn_name : string) : prog PermutationsCursor (option (list V)) :=
  self ← get_self;
  if pm_exhausted self then mret None
  else
    moved ← (if pm_started self then
               on_part pm_state pm_with_state (permutations_loop (length (pm_pool self)) (rev (seq 0 (pm_r self))))
             else _ ← modify pm_start; mret true);
    if (moved : bool) then
      self ← get_self;
      indices ← pure (leading (pm_r self) (pm_indices self));
      tuple ← pure (tuple_from_pool (pm_pool self) indices fn_name);
      mret (Some tuple)
    else _ ← modify pm_exhaust; mret None.

(** ** The cursor behind an iterator *)

Inductive Cursor : Type :=
  | Product (cursor : ProductCursor)
  | Combinations (cursor : CombinationsCursor)
  | Permutations (cursor : PermutationsCursor).

Definition stopped (self : Cursor) : bool :=
  match self with
  | Product cursor => pc_started cursor && pc_exhausted cursor
  | Combinations cursor => cc_started cursor && cc_exhausted cursor
  | Permutations cursor => pm_started cursor && pm_exhausted cursor
  end.

(** What [deepcopy] recurses into: pools for [product], elements otherwise. *)
Definition pool_elements (self : Cursor) : list pool + list V :=
  match self with
  | Product cursor => inl (if stopped self then [] else pc_pools cursor)
  | Combinations cursor => inr (if stopped self then [] else cc_pool cursor)
  | Permutations cursor => inr (if stopped self then [] else pm_pool cursor)
  end.

(** The cursor that [copy.copy] makes. *)
Definition reduced_clone (self : Cursor) : Cursor :=
  if negb (stopped self) then self
  else
    match self with
    | Product _ => Product {| pc_pools := []; pc_indices := []; pc_started := false; pc_exhausted := true |}
    | Combinations cursor =>
        Combinations {| cc_pool := []; cc_indices := []; cc_with_replacement := cc_with_replacement cursor;
                        cc_started := false; cc_exhausted := negb (length (cc_indices cursor) =? 0)%nat |}
    | Permutations cursor =>
        Permutations {| pm_pool := []; pm_r := pm_r cursor; pm_indices := []; pm_cycles := [];
                        pm_started := false; pm_exhausted := (0 <? pm_r cursor)%nat |}
    end.

(** [set_pool_elements], on elements of the kind that [pool_elements] gave. *)
Definition set_pool_elements (elements : list pool + list V) (self : Cursor) : bool * Cursor :=
  match self, elements with
  | Product c, inl pools =>
      if (length (pc_pools c) =? length pools)%nat
      then (true, Product {| pc_pools := pools; pc_indices := pc_indices c; pc_started := pc_started c; pc_exhausted := pc_exhausted c |})
      else (false, self)
  | Combinations c, inr pool =>
      if (length (cc_pool c) =? length pool)%nat
      then (true, Combinations {| cc_pool := pool; cc_indices := cc_indices c; cc_with_replacement := cc_with_replacement c;
                                  cc_started := cc_started c; cc_exhausted := cc_exhausted c |})
      else (false, self)
  | Permutations c, inr pool =>
      if (length (pm_pool c) =? length pool)%nat
      then (true, Permutations {| pm_pool := pool; pm_r := pm_r c; pm_indices := pm_indices c; pm_cycles := pm_cycles c;
                                  pm_started := pm_started c; pm_exhausted := pm_exhausted c |})
      else (false, self)
  | _, _ => (false, self)
  end.

Definition next_product (fn_name : string) : prog Cursor (option (list V)) := λ self,
  match self with
  | Product cursor => let '(r, cursor) := product_next_tuple fn_name cursor in (r, Product cursor)
  | _ => (Raise (internal fn_name), self)
  end.
Definition next_combinations (fn_name : string) (with_replacement : bool) : prog Cursor (option (list V)) := λ self,
  match self with
  | Combinations cursor =>
      if Bool.eqb (cc_with_replacement cursor) with_replacement
      then let '(r, cursor) := combinations_next_tuple fn_name cursor in (r, Combinations cursor)
      else (Raise (internal fn_name), self)
  | _ => (Raise (internal fn_name), self)
  end.
Definition next_permutations (fn_name : string) : prog Cursor (option (list V)) := λ self,
  match self with
  | Permutations cursor => let '(r, cursor) := permutations_next_tuple fn_name cursor in (r, Permutations cursor)
  | _ => (Raise (internal fn_name), self)
  end.

(** [__next__] of the four classes. *)
Definition or_stop {S A} (m : prog S (option A)) : prog S A :=
  next ← m; match next with Some tuple => mret tuple | None => pure (Raise stop_iteration) end.

Definition product_next : prog Cursor (list V) := or_stop (next_product "product").
Definition advance_combinations (with_replacement : bool) : prog Cursor (list V) :=
  or_stop (next_combinations (if with_replacement then "combinations_with_replacement" else "combinations") with_replacement).
Definition permutations_next : prog Cursor (list V) := or_stop (next_permutations "permutations").

(** [__init__], given the contents of the iterables and the numbers that the
    arguments convert to.  The pools of [product] are repeated. *)
Definition product_init (iterables : list (list V)) (repeat : Z) : outcome Cursor :=
  if (repeat <? 0)%Z then Raise (ValueError "repeat argument cannot be negative")
  else
    let repeat := Z.to_nat repeat in
    _ ← reserve_product_pools (length iterables) repeat;
    single_pass ← (if (repeat =? 0)%nat || (length iterables =? 0)%nat then Return []
                   else _ ← reserve_distinct_pools (length iterables); Return (PoolList <$> iterables));
    cursor ← product_try_new (mjoin (replicate repeat single_pass));
    Return (Product cursor).

Definition init_combo_state (pool : list V) (r : Z) (with_replacement : bool) : outcome Cursor :=
  if (r <? 0)%Z then Raise (ValueError "r must be non-negative")
  else cursor ← combinations_try_new pool (Z.to_nat r) with_replacement; Return (Combinations cursor).

(** [r] is [None], or an integer. *)
Definition permutations_init (pool : list V) (r : option Z) : outcome Cursor :=
  match r with
  | Some r => if (r <? 0)%Z then Raise (ValueError "r must be non-negative")
              else cursor ← permutations_try_new pool (Z.to_nat r); Return (Permutations cursor)
  | None => cursor ← permutations_try_new pool (length pool); Return (Permutations cursor)
  end.
End cursors.

Arguments PoolList {V} _.
Arguments PoolOther {V}.
