(* ===== verification/CombinatoricsSpec.v ===== *)
(** The tuples that the positional iterators of itertools run through, as
    lists, and the proof that their cursors move from each to the next. *)

From S2P Require Import Prelude Outcome Combinatorics.

(** ** Sequences of calls *)

(** What [n] calls of a method return, and the receiver after them. *)
Fixpoint calls {S A} (n : nat) (next : prog S A) (s : S) : list (outcome A) * S :=
  match n with
  | O => ([], s)
  | S n => let '(r, s) := next s in let '(rs, s) := calls n next s in (r :: rs, s)
  end.

(** The answers to [n] calls of an iterator over [l]. *)
Definition results {A} (n : nat) (l : list A) : list (outcome A) :=
  take n (Return <$> l) ++ replicate (n - length l) (Raise stop_iteration).

Lemma results_cons {A} n (x : A) l : results (S n) (x :: l) = Return x :: results n l.
Proof. done. Qed.

(** An iterator, by what its state says of the values to come: [rest l s] when
    it has [l] to give, [over s] once it has said that there are no more. *)
Lemma calls_results {S A} (next : prog S A) (rest : list A → S → Prop) (over : S → Prop) :
  (∀ x l s, rest (x :: l) s → ∃ s', next s = (Return x, s') ∧ rest l s') →
  (∀ s, rest [] s ∨ over s → ∃ s', next s = (Raise stop_iteration, s') ∧ over s') →
  ∀ n l s, rest l s → ∃ s', calls n next s = (results n l, s') ∧
    (n ≤ length l → rest (drop n l) s')%nat ∧ (length l < n → over s')%nat.
Proof.
  intros Hstep Hend.
  assert (Hover : ∀ n s, over s → ∃ s', calls n next s = (replicate n (Raise stop_iteration), s') ∧ over s').
  { induction n as [|n IH]; intros s Hs; [by exists s|]. cbn.
    destruct (Hend s) as (s' & -> & Hs'); [by right|]. destruct (IH s' Hs') as (s'' & -> & ?). by exists s''. }
  induction n as [|n IH]; intros l s Hs.
  { exists s. rewrite drop_0. split; [done|]. split; [done|lia]. }
  destruct l as [|x l]; cbn [calls].
  - destruct (Hend s) as (s' & -> & Hs'); [by left|]. destruct (Hover n s' Hs') as (s'' & -> & ?).
    exists s''. split; [done|]. split; [cbn; lia|done].
  - destruct (Hstep x l s Hs) as (s' & -> & Hs'). destruct (IH l s' Hs') as (s'' & -> & Hr & Ho).
    exists s''. split; [done|]. cbn [length drop]. split; [intros; apply Hr; lia|intros; apply Ho; lia].
Qed.

(** ** Vectors of indices *)

Lemma at_index_app v w x : at_index (length v) (v ++ x :: w) = (Return x, v ++ x :: w).
Proof. unfold at_index, vnth. by rewrite list_lookup_middle. Qed.

Lemma set_index_app v w x y : set_index (length v) y (v ++ x :: w) = (Return tt, v ++ y :: w).
Proof.
  unfold set_index. rewrite list_lookup_middle by done. f_equal.
  replace (length v) with (length v + 0)%nat by lia. by rewrite insert_app_r.
Qed.

(** ** Products *)

Section cartesian.
  Context {A : Type}.

(** All tuples with one element of every list, the last one varying fastest. *)
Fixpoint cartesian (pools : list (list A)) : list (list A) :=
  match pools with
  | [] => [[]]
  | items :: pools => x ← items; cons x <$> cartesian pools
  end.

(** The tuple at a vector of indices, those after it, and the next vector. *)
Fixpoint tuple_at (pools : list (list A)) (indices : list nat) : option (list A) :=
  match pools, indices with
  | items :: pools, i :: indices => x ← items !! i; t ← tuple_at pools indices; Some (x :: t)
  | _, _ => Some []
  end.
Fixpoint after (pools : list (list A)) (indices : list nat) : list (list A) :=
  match pools, indices with
  | items :: pools, i :: indices =>
      match items !! i with Some x => cons x <$> after pools indices | None => [] end
      ++ (x ← drop (S i) items; cons x <$> cartesian pools)
  | _, _ => []
  end.
Fixpoint next_indices (pools : list (list A)) (indices : list nat) : option (list nat) :=
  match pools, indices with
  | items :: pools, i :: indices =>
      match next_indices pools indices with
      | Some indices => Some (i :: indices)
      | None => if (i + 1 <? length items)%nat then Some ((i + 1)%nat :: replicate (length pools) 0%nat) else None
      end
  | _, _ => None
  end.

Definition within (pools : list (list A)) (indices : list nat) : Prop :=
  Forall2 (λ items i, i < length items)%nat pools indices.

Lemma within_zeros pools : Forall (λ items, items ≠ []) pools → within pools (replicate (length pools) 0%nat).
Proof. induction 1 as [|items pools Hi _ IH]; constructor; [destruct items; [done|cbn; lia]|done]. Qed.

Lemma within_tuple pools indices : within pools indices → ∃ t, tuple_at pools indices = Some t.
Proof.
  induction 1 as [|items i pools indices Hi _ [t IH]]; [by eexists|]. cbn.
  destruct (lookup_lt_is_Some_2 items i Hi) as [x ->]. cbn. rewrite IH. by eexists.
Qed.

Lemma cartesian_zeros pools :
  Forall (λ items, items ≠ []) pools →
  ∃ t, tuple_at pools (replicate (length pools) 0%nat) = Some t ∧ cartesian pools = t :: after pools (replicate (length pools) 0%nat).
Proof.
  induction 1 as [|items pools Hi _ (t & Ht & IH)]; [by eexists|].
  destruct items as [|x items]; [done|]. cbn. rewrite Ht. cbn. eexists. split; [done|].
  cbn [tail drop]. by rewrite IH at 1.
Qed.

Lemma cartesian_empty pools : Exists (λ items, items = []) pools → cartesian pools = [].
Proof.
  induction 1 as [items pools ->|items pools _ IH]; [done|]. cbn. rewrite IH.
  induction items as [|x items IHi]; [done|]. cbn. apply IHi.
Qed.

Lemma after_next pools indices :
  Forall (λ items, items ≠ []) pools → within pools indices →
  match next_indices pools indices with
  | Some indices' => within pools indices' ∧ ∃ t, tuple_at pools indices' = Some t ∧ after pools indices = t :: after pools indices'
  | None => after pools indices = []
  end.
Proof.
  intros Hne Hw. induction Hw as [|items i pools indices Hi Hw IH]; [done|].
  apply Forall_cons in Hne as [Hitems Hne]. specialize (IH Hne). cbn [next_indices after tuple_at].
  destruct (lookup_lt_is_Some_2 items i Hi) as [x Hx]. rewrite Hx.
  destruct (next_indices pools indices) as [indices'|].
  { destruct IH as (Hw' & t & Ht & ->). split; [by constructor|]. cbn. rewrite Hx. cbn. rewrite Ht. by eexists. }
  rewrite IH. cbn [fmap list_fmap app]. destruct (Nat.ltb_spec (i + 1) (length items)) as [Hlt|Hge].
  - split; [constructor; [done|by apply within_zeros]|]. cbn. rewrite Nat.add_1_r in *.
    destruct (lookup_lt_is_Some_2 items (S i) Hlt) as [y Hy]. rewrite Hy. cbn.
    destruct (cartesian_zeros pools Hne) as (t & Ht & Hc). rewrite Ht. cbn. eexists. split; [done|].
    rewrite (drop_S _ _ _ Hy). cbn. by rewrite Hc at 1.
  - by rewrite drop_ge by lia.
Qed.

Lemma next_indices_app pools1 pools2 v w w' :
  length pools1 = length v → next_indices pools2 w = Some w' → next_indices (pools1 ++ pools2) (v ++ w) = Some (v ++ w').
Proof.
  revert v. induction pools1 as [|items pools1 IH]; intros [|i v] Hlen Hw; try done. cbn. by rewrite (IH v) by (auto; cbn in Hlen; lia).
Qed.

Lemma product_loop_next fn_name pools1 pools2 v w :
  length pools1 = length v → length pools2 = length w → next_indices pools2 w = None →
  product_loop (PoolList <$> pools1 ++ pools2) fn_name (length v) (v ++ replicate (length w) 0%nat) =
    match next_indices (pools1 ++ pools2) (v ++ w) with
    | Some indices => (Return true, indices)
    | None => (Return false, replicate (length (v ++ w)) 0%nat)
    end.
Proof.
  revert v pools2 w. induction pools1 as [|items pools1 IH] using rev_ind; intros v pools2 w H1 H2 Hw.
  { destruct v; [|done]. cbn. by rewrite Hw. }
  destruct v as [|i v _] using rev_ind; [by rewrite length_app in H1; cbn in H1; lia|].
  rewrite !length_app in H1. cbn in H1. rewrite <- !app_assoc, length_app, Nat.add_1_r. cbn [app product_loop].
  assert (Hl : pool_len (PoolList <$> pools1 ++ items :: pools2) (length v) fn_name = Return (length items)).
  { unfold pool_len. by rewrite list_lookup_fmap, list_lookup_middle by lia. }
  unfold mbind, prog_bind, pure. rewrite Hl, at_index_app, set_index_app.
  assert (Hs : next_indices (items :: pools2) (i :: w) =
    if (i + 1 <? length items)%nat then Some ((i + 1)%nat :: replicate (length w) 0%nat) else None) by (cbn; by rewrite Hw, H2).
  destruct (Nat.ltb_spec (i + 1) (length items)) as [Hlt|Hge].
  { erewrite next_indices_app by (eassumption || lia). done. }
  rewrite set_index_app. specialize (IH v (items :: pools2) (i :: w)). cbn [replicate length] in IH. rewrite IH; [done|lia|lia|done].
Qed.
End cartesian.

(** ** Cursors *)

Section enumerates.
  Context {V : Type}.
  Implicit Types (c : Cursor (V := V)) (l : list (list V)).

(** An iterator over [l]: its calls give [l] and then stop, and a copy that is
    made on the way gives the rest of [l]; one that is made after the end gives
    [restart], what a new iterator without elements would. *)
Definition enumerates (next : prog (Cursor (V := V)) (list V)) l (restart : list (list V)) c : Prop :=
  ∀ k, ∃ c', calls k next c = (results k l, c') ∧
    ∀ n, (calls n next (reduced_clone c')).1 = results n (if (k <=? length l)%nat then drop k l else restart).

Lemma enumerates_intro next (rest : list (list V) → Cursor → Prop) (over : Cursor → Prop) l restart c :
  (∀ t l c, rest (t :: l) c → ∃ c', next c = (Return t, c') ∧ rest l c') →
  (∀ c, rest [] c ∨ over c → ∃ c', next c = (Raise stop_iteration, c') ∧ over c') →
  (∀ l c, rest l c → reduced_clone c = c) →
  (∀ c, over c → rest restart (reduced_clone c)) →
  rest l c → enumerates next l restart c.
Proof.
  intros Hstep Hend Hclone Hover Hc k. pose proof (calls_results next rest over Hstep Hend) as Hcalls.
  destruct (Hcalls k l c Hc) as (c' & Hk & Hr & Ho). exists c'. split; [done|]. intros n.
  destruct (Nat.leb_spec k (length l)) as [Hle|Hgt].
  - specialize (Hr Hle). rewrite (Hclone _ _ Hr). by destruct (Hcalls n _ _ Hr) as (? & -> & _).
  - by destruct (Hcalls n _ _ (Hover _ (Ho Hgt))) as (? & -> & _).
Qed.
End enumerates.

Section products.
  Context {V : Type} (try_reserve_exact : nat → bool) (Hmem : ∀ n, try_reserve_exact n = true).

Lemma try_vec_ok n : try_vec try_reserve_exact n = Return tt.
Proof using Hmem. unfold try_vec. by rewrite Hmem. Qed.

Lemma product_tuple_at fn_name (lists : list (list V)) indices t :
  within lists indices → tuple_at lists indices = Some t →
  product_tuple fn_name (zip (PoolList <$> lists) indices) = Return t.
Proof.
  intros Hw. revert t. induction Hw as [|items i lists indices Hi Hw IH]; intros t Ht; [by simplify_eq/=|].
  cbn in Ht |- *. destruct (items !! i) as [x|]; [|done]. cbn in Ht.
  destruct (tuple_at lists indices) as [t'|]; [|done]. simplify_eq/=. by rewrite (IH t').
Qed.

Inductive product_rest (lists : list (list V)) : list (list V) → Cursor → Prop :=
  | product_rest_fresh :
      Forall (λ items, items ≠ []) lists →
      product_rest lists (cartesian lists)
        (Product {| pc_pools := PoolList <$> lists; pc_indices := replicate (length lists) 0%nat; pc_started := false; pc_exhausted := false |})
  | product_rest_moving indices :
      Forall (λ items, items ≠ []) lists → within lists indices →
      product_rest lists (after lists indices)
        (Product {| pc_pools := PoolList <$> lists; pc_indices := indices; pc_started := true; pc_exhausted := false |})
  | product_rest_none pools indices :
      product_rest lists [] (Product {| pc_pools := pools; pc_indices := indices; pc_started := false; pc_exhausted := true |}).
Definition product_over (c : Cursor (V := V)) : Prop :=
  match c with Product c => pc_exhausted c = true | _ => False end.

Lemma product_fresh_next (lists : list (list V)) t :
  tuple_at lists (replicate (length lists) 0%nat) = Some t → Forall (λ items, items ≠ []) lists →
  ∃ c', product_next try_reserve_exact
    (Product {| pc_pools := PoolList <$> lists; pc_indices := replicate (length lists) 0%nat; pc_started := false; pc_exhausted := false |}) = (Return t, c')
    ∧ product_rest lists (after lists (replicate (length lists) 0%nat)) c'.
Proof using Hmem.
  intros Ht Hne. unfold product_next, or_stop, next_product, product_next_tuple. unfold mbind, prog_bind, mret, prog_ret, get_self, modify, pure. cbn.
  rewrite try_vec_ok. erewrite product_tuple_at by (done || by apply within_zeros). eexists. split; [done|].
  apply (product_rest_moving lists); [done|by apply within_zeros].
Qed.

Lemma product_moving_next (lists : list (list V)) indices :
  Forall (λ items, items ≠ []) lists → within lists indices →
  product_next try_reserve_exact
    (Product {| pc_pools := PoolList <$> lists; pc_indices := indices; pc_started := true; pc_exhausted := false |}) =
  match next_indices lists indices with
  | Some indices =>
      (match tuple_at lists indices with Some t => Return t | None => Panicked end,
       Product {| pc_pools := PoolList <$> lists; pc_indices := indices; pc_started := true; pc_exhausted := false |})
  | None => (Raise stop_iteration,
       Product {| pc_pools := PoolList <$> lists; pc_indices := replicate (length lists) 0%nat; pc_started := true; pc_exhausted := true |})
  end.
Proof using Hmem.
  intros Hne Hw. pose proof (Forall2_length _ _ _ Hw) as Hlen. pose proof (after_next lists indices Hne Hw) as Hn.
  pose proof (product_loop_next "product" lists [] indices [] Hlen eq_refl eq_refl) as Hloop.
  cbn [length replicate] in Hloop. rewrite !app_nil_r in Hloop.
  unfold product_next, or_stop, next_product, product_next_tuple.
  unfold mbind, prog_bind, mret, prog_ret, get_self, modify, pure, on_part. cbn -[product_loop].
  rewrite length_fmap, Hlen, Hloop. destruct (next_indices lists indices) as [indices'|]; cbn; [|done].
  destruct Hn as (Hw' & t & Ht & _). rewrite try_vec_ok, Ht. by erewrite product_tuple_at.
Qed.

Lemma product_enumerates (lists : list (list V)) c :
  product_try_new try_reserve_exact (PoolList <$> lists) = Return c →
  enumerates (product_next try_reserve_exact) (cartesian lists) [] (Product c).
Proof using Hmem.
  intros Hc. apply (enumerates_intro _ (product_rest lists) product_over).
  - intros t l c' Hr. inversion Hr as [Hne Hl|indices Hne Hw Hl|]; subst.
    + destruct (cartesian_zeros lists Hne) as (t' & Ht & Hca). rewrite Hca in Hl. simplify_eq. by apply product_fresh_next.
    + pose proof (after_next lists indices Hne Hw) as Hn. rewrite product_moving_next by done.
      destruct (next_indices lists indices) as [indices'|]; [|by rewrite Hn in Hl].
      destruct Hn as (Hw' & t' & Ht & Ha). rewrite Hl in Ha. simplify_eq. rewrite Ht. eexists. split; [done|]. by constructor.
  - intros c' [Hr|Ho].
    + inversion Hr as [Hne Hl|indices Hne Hw Hl|]; subst.
      * destruct (cartesian_zeros lists Hne) as (t' & Ht & Hca). by rewrite Hca in Hl.
      * pose proof (after_next lists indices Hne Hw) as Hn. rewrite product_moving_next by done.
        destruct (next_indices lists indices) as [indices'|]; [|by eexists].
        destruct Hn as (Hw' & t' & Ht & Ha). by rewrite Hl in Ha.
      * by eexists.
    + destruct c' as [c'| |]; [|done..]. destruct c'; cbn in Ho; subst. by eexists.
  - intros l c' Hr. by inversion Hr; subst.
  - intros [c'| |] Ho; [|done..]. destruct c' as [pools indices started exhausted]. cbn in Ho; subst.
    destruct started; constructor.
  - unfold product_try_new in Hc. destruct (existsb pool_is_empty (PoolList <$> lists)) eqn:He; cbn in Hc.
    + simplify_eq. rewrite cartesian_empty; [constructor|]. apply existsb_exists in He as (p & Hp & Hpe).
      apply list_elem_of_In in Hp. apply list_elem_of_fmap in Hp as (items & -> & Hitems). apply Exists_exists. exists items. split; [done|].
      destruct items; done.
    + rewrite try_vec_ok in Hc. cbn in Hc. simplify_eq. rewrite length_fmap. constructor. apply Forall_forall. intros items Hitems ->.
      assert (existsb pool_is_empty (PoolList <$> lists) = true); [|congruence].
      apply existsb_exists. exists (PoolList []). split; [|done]. apply list_elem_of_In, list_elem_of_fmap. by eexists.
Qed.
End products.

(** ** Combinations *)

Section combinations.
  Context (wr : bool) (n : nat).

(** The least index after [v], and the least vector of [k] indices from [v]. *)
Definition following (v : nat) : nat := if wr then v else S v.
Definition least (v k : nat) : list nat := if wr then replicate k v else seq v k.
(** How many indices larger than its own an index must leave to those after it. *)
Definition room (k : nat) : nat := if wr then 0%nat else k.

(** The vectors of [k] indices from [lo], and those after a given vector. *)
Fixpoint choices (lo k : nat) : list (list nat) :=
  match k with
  | O => [[]]
  | S k => v ← seq lo (n - lo); cons v <$> choices (following v) k
  end.
Fixpoint choices_after (indices : list nat) : list (list nat) :=
  match indices with
  | [] => []
  | v :: indices =>
      (cons v <$> choices_after indices) ++ (v ← seq (S v) (n - S v); cons v <$> choices (following v) (length indices))
  end.
Fixpoint next_choice (indices : list nat) : option (list nat) :=
  match indices with
  | [] => None
  | v :: indices =>
      match next_choice indices with
      | Some indices => Some (v :: indices)
      | None => if (v + room (length indices) + 1 <? n)%nat
                then Some (S v :: least (following (S v)) (length indices)) else None
      end
  end.
Fixpoint choice_ok (lo : nat) (indices : list nat) : Prop :=
  match indices with
  | [] => True
  | v :: indices => (lo ≤ v ∧ v + room (length indices) < n)%nat ∧ choice_ok (following v) indices
  end.

Lemma least_S v k : least v (S k) = v :: least (following v) k.
Proof using Type. unfold least, following. by destruct wr. Qed.
Lemma length_least v k : length (least v k) = k.
Proof using Type. unfold least. destruct wr; [apply length_replicate|apply length_seq]. Qed.
Lemma room_S k v : (following v + room k = v + room (S k))%nat.
Proof using Type. unfold room, following. destruct wr; lia. Qed.

Lemma least_ok k lo : (k = 0 ∨ lo + room (k - 1) < n)%nat → choice_ok lo (least lo k).
Proof using Type.
  revert lo. induction k as [|k IH]; intros lo Hk; [unfold least; by destruct wr|]. rewrite least_S. cbn [choice_ok]. rewrite length_least.
  replace (S k - 1)%nat with k in Hk by lia. split; [lia|]. apply IH. destruct k as [|k]; [by left|right].
  rewrite Nat.sub_1_r. cbn [pred]. rewrite room_S. lia.
Qed.

Lemma choices_none lo k : (0 < k → n ≤ lo + room (k - 1) → choices lo k = [])%nat.
Proof using Type.
  destruct k as [|k]; [lia|]. intros _ Hn. revert lo Hn. rewrite Nat.sub_1_r. cbn [pred]. induction k as [|k IH]; intros lo Hn.
  - cbn. replace (n - lo)%nat with 0%nat by (unfold room in Hn; destruct wr; lia). done.
  - cbn [choices]. apply elem_of_nil_inv. intros t Ht. apply list_elem_of_bind in Ht as (v & Ht & Hv). apply elem_of_seq in Hv.
    change (t ∈ cons v <$> choices (following v) (S k)) in Ht. rewrite (IH (following v)) in Ht; [by apply elem_of_nil in Ht|]. rewrite room_S. lia.
Qed.

Lemma choices_least lo k : (k = 0 ∨ lo + room (k - 1) < n)%nat → choices lo k = least lo k :: choices_after (least lo k).
Proof using Type.
  revert lo. induction k as [|k IH]; intros lo Hk; [unfold least; by destruct wr|].
  replace (S k - 1)%nat with k in Hk by lia. rewrite least_S. cbn [choices choices_after].
  replace (n - lo)%nat with (S (n - S lo)) by (destruct Hk; [lia|]; unfold room in *; destruct wr; lia).
  cbn [seq mbind list_bind]. rewrite length_least, IH; [done|]. destruct k as [|k]; [by left|right].
  rewrite Nat.sub_1_r. cbn [pred]. rewrite room_S. lia.
Qed.

Lemma choices_after_next lo indices :
  choice_ok lo indices →
  match next_choice indices with
  | Some indices' => choice_ok lo indices' ∧ length indices' = length indices ∧ choices_after indices = indices' :: choices_after indices'
  | None => choices_after indices = []
  end.
Proof using Type.
  revert lo. induction indices as [|v indices IH]; intros lo Hok; [done|]. destruct Hok as [[Hlo Hv] Hok].
  specialize (IH _ Hok). cbn [next_choice choices_after].
  destruct (next_choice indices) as [indices'|].
  { destruct IH as (Hok' & Hlen & ->). cbn [choice_ok length choices_after]. rewrite Hlen. split; [done|]. by split. }
  rewrite IH. cbn [fmap list_fmap app]. set (k := length indices).
  destruct (Nat.ltb_spec (v + room k + 1) n) as [Hlt|Hge].
  - assert (Hk : (k = 0 ∨ following (S v) + room (k - 1) < n)%nat).
    { destruct k as [|k]; [by left|right]. rewrite Nat.sub_1_r. cbn [pred]. rewrite room_S. lia. }
    cbn [choice_ok length choices_after]. rewrite length_least. split; [split; [lia|by apply least_ok]|]. split; [done|].
    replace (n - S v)%nat with (S (n - S (S v))) by (unfold room in *; destruct wr; lia).
    cbn [seq mbind list_bind]. by rewrite (choices_least (following (S v)) k) at 1.
  - apply elem_of_nil_inv. intros t Ht. apply list_elem_of_bind in Ht as (v' & Ht & Hv'). apply elem_of_seq in Hv'.
    destruct (decide (k = 0)%nat) as [H0|H0]; [rewrite H0 in *; unfold room in *; destruct wr; lia|].
    rewrite choices_none in Ht; [by apply elem_of_nil in Ht|lia|]. destruct k as [|k]; [done|].
    rewrite Nat.sub_1_r. cbn [pred]. rewrite room_S. lia.
Qed.

Lemma next_choice_app v w w' : next_choice w = Some w' → next_choice (v ++ w) = Some (v ++ w').
Proof using Type. induction v as [|i v IH]; intros Hw; [done|]. cbn. by rewrite IH. Qed.

(** The loop that refills the indices after one that was moved on. *)
Lemma fill_after_eq v x w : fill_after wr (length v) (length v + 1 + length w) (v ++ x :: w) =
  (Return tt, v ++ x :: least (following x) (length w)).
Proof using Type.
  unfold fill_after. replace (length v + 1 + length w - (length v + 1))%nat with (length w) by lia.
  assert (Hgo : ∀ w a y, (last (x :: a) = Some y) → (wr = true → y = x) →
    for_each (seq (length v + 1 + length a) (length w)) (λ index,
      x0 ← (if wr then at_index (length v) else i ← pure (minus_usize index 1); x1 ← at_index i; mret (x1 + 1)%nat);
      set_index index x0) (v ++ x :: a ++ w) = (Return tt, v ++ x :: a ++ least (following y) (length w))).
  { clear w. induction w as [|z w IH]; intros a y Hlast Hy; [by unfold least; destruct wr|].
    cbn [length seq for_each]. rewrite least_S.
    assert (Hread : (if wr then at_index (length v) else i ← pure (minus_usize (length v + 1 + length a) 1); x1 ← at_index i; mret (x1 + 1)%nat)
      (v ++ x :: a ++ z :: w) = (Return (following y), v ++ x :: a ++ z :: w)).
    { unfold following. destruct wr; [rewrite at_index_app; by rewrite Hy|]. unfold minus_usize.
      destruct (Nat.leb_spec 1 (length v + 1 + length a)) as [_|]; [|lia]. unfold mbind, prog_bind, pure, mret, prog_ret.
      unfold at_index, vnth. rewrite lookup_app_r by lia.
      replace (length v + 1 + length a - 1 - length v)%nat with (length a) by lia.
      rewrite last_lookup in Hlast. cbn [length pred] in Hlast. rewrite app_comm_cons, lookup_app_l by (cbn; lia). rewrite Hlast. cbn.
      by rewrite Nat.add_1_r. }
    unfold mbind at 1, prog_bind at 1. unfold mbind at 1, prog_bind at 1. rewrite Hread.
    assert (Hset : set_index (length v + 1 + length a) (following y) (v ++ x :: a ++ z :: w) = (Return tt, v ++ x :: (a ++ [following y]) ++ w)).
    { pose proof (set_index_app (v ++ x :: a) w z (following y)) as Hs. rewrite length_app in Hs. cbn [length] in Hs.
      rewrite <- !app_assoc in Hs |- *. cbn [app] in Hs |- *.
      replace (length v + 1 + length a)%nat with (length v + S (length a))%nat by lia. by rewrite Hs, <- (app_assoc v). }
    rewrite Hset. specialize (IH (a ++ [following y]) (following y)).
    rewrite length_app in IH. cbn [length] in IH. replace (length v + 1 + (length a + 1))%nat with (S (length v + 1 + length a)) in IH by lia.
    rewrite IH.
    - by rewrite <- !app_assoc.
    - by rewrite app_comm_cons, last_snoc.
    - intros Hwr. rewrite (Hy Hwr). unfold following. by rewrite Hwr. }
  specialize (Hgo w [] x eq_refl (λ _, eq_refl)). cbn [app length] in Hgo. rewrite Nat.add_0_r in Hgo. exact Hgo.
Qed.

Lemma combinations_loop_next v w r :
  r = length (v ++ w) → next_choice w = None → (r ≤ n ∨ wr = true ∧ 0 < n)%nat →
  combinations_loop wr n r (length v) (v ++ w) =
    match next_choice (v ++ w) with
    | Some indices => (Return true, indices)
    | None => (Return false, v ++ w)
    end.
Proof using Type.
  intros -> . revert w. induction v as [|i v IH] using rev_ind; intros w Hw Hn; [cbn; by rewrite Hw|].
  rewrite <- !app_assoc in Hn |- *. cbn [app] in Hn |- *. rewrite (length_app v [i]), Nat.add_1_r. cbn [combinations_loop].
  rewrite !length_app in Hn. cbn [length] in Hn.
  assert (Hmax : (if wr then minus_usize n 1 else m ← minus_usize n (length (v ++ i :: w)); Return (m + length v)%nat) = Return (n - 1 - room (length w))%nat).
  { unfold minus_usize, room. rewrite length_app. cbn [length]. destruct wr.
    - destruct (Nat.leb_spec 1 n); [f_equal; lia|lia].
    - destruct (Nat.leb_spec (length v + S (length w)) n); [cbn; f_equal; lia|]. destruct Hn as [|[]]; [lia|done]. }
  unfold mbind at 1, prog_bind at 1. unfold pure at 1. rewrite Hmax.
  unfold mbind at 1, prog_bind at 1. rewrite at_index_app.
  assert (Hs : next_choice (i :: w) = if (i + room (length w) + 1 <? n)%nat then Some (S i :: least (following (S i)) (length w)) else None) by (cbn; by rewrite Hw).
  replace (i <? n - 1 - room (length w))%nat with (i + room (length w) + 1 <? n)%nat
    by (destruct (Nat.ltb_spec (i + room (length w) + 1) n), (Nat.ltb_spec i (n - 1 - room (length w))); lia).
  destruct (i + room (length w) + 1 <? n)%nat.
  - erewrite next_choice_app by done. unfold mbind at 1, prog_bind at 1. rewrite set_index_app, Nat.add_1_r.
    unfold mbind, prog_bind. rewrite length_app. cbn [length]. replace (length v + S (length w))%nat with (length v + 1 + length w)%nat by lia.
    by rewrite fill_after_eq.
  - apply IH; [done|]. rewrite length_app. cbn [length]. destruct Hn; [left; lia|by right].
Qed.
End combinations.

(** The elements of a pool at a vector of indices. *)
Definition picked {V} (pool : list V) (indices : list nat) : list V := omap (λ i, pool !! i) indices.

Lemma tuple_from_pool_picked {V} try_reserve_exact (pool : list V) indices fn_name :
  (∀ n, try_reserve_exact n = true) → Forall (λ i, i < length pool)%nat indices →
  tuple_from_pool try_reserve_exact pool indices fn_name = Return (picked pool indices).
Proof.
  intros Hmem Hi. unfold tuple_from_pool. rewrite try_vec_ok by done. cbn.
  induction Hi as [|i indices Hi _ IH]; [done|]. cbn. destruct (lookup_lt_is_Some_2 pool i Hi) as [x Hx]. by rewrite Hx, IH.
Qed.

Lemma choice_ok_lt wr n lo indices : choice_ok wr n lo indices → Forall (λ i, i < n)%nat indices.
Proof. revert lo. induction indices as [|i indices IH]; intros lo Hok; [done|]. destruct Hok as [? Hok]. constructor; [lia|by eapply IH]. Qed.

(** What a copy made after the end goes through: the one choice of no elements. *)
Definition restart {V} (r : nat) : list (list V) := if (r =? 0)%nat then [[]] else [].

Section combinations_cursor.
  Context {V : Type} (try_reserve_exact : nat → bool) (Hmem : ∀ n, try_reserve_exact n = true).
  Context (wr : bool) (r : nat).

Inductive combinations_rest : list (list V) → Cursor → Prop :=
  | combinations_rest_fresh pool :
      (r = 0 ∨ room wr (r - 1) < length pool)%nat →
      combinations_rest (picked pool <$> choices wr (length pool) 0 r)
        (Combinations {| cc_pool := pool; cc_indices := least wr 0 r; cc_with_replacement := wr; cc_started := false; cc_exhausted := false |})
  | combinations_rest_moving (pool : list V) indices :
      choice_ok wr (length pool) 0 indices → length indices = r →
      combinations_rest (picked pool <$> choices_after wr (length pool) indices)
        (Combinations {| cc_pool := pool; cc_indices := indices; cc_with_replacement := wr; cc_started := true; cc_exhausted := false |})
  | combinations_rest_none pool indices :
      (0 < r)%nat →
      combinations_rest [] (Combinations {| cc_pool := pool; cc_indices := indices; cc_with_replacement := wr; cc_started := false; cc_exhausted := true |}).
Definition combinations_over (c : Cursor (V := V)) : Prop :=
  match c with
  | Combinations c => cc_exhausted c = true ∧ cc_with_replacement c = wr ∧ if cc_started c then length (cc_indices c) = r else (0 < r)%nat
  | _ => False
  end.

Lemma combinations_fresh_next (pool : list V) :
  (r = 0 ∨ room wr (r - 1) < length pool)%nat →
  advance_combinations try_reserve_exact wr
    (Combinations {| cc_pool := pool; cc_indices := least wr 0 r; cc_with_replacement := wr; cc_started := false; cc_exhausted := false |}) =
  (Return (picked pool (least wr 0 r)),
   Combinations {| cc_pool := pool; cc_indices := least wr 0 r; cc_with_replacement := wr; cc_started := true; cc_exhausted := false |}).
Proof using Hmem.
  intros Hr. unfold advance_combinations, or_stop, next_combinations, combinations_next_tuple.
  unfold mbind, prog_bind, mret, prog_ret, get_self, modify, pure. cbn. rewrite Bool.eqb_reflx. cbn.
  rewrite tuple_from_pool_picked; [done|done|]. eapply choice_ok_lt, (least_ok wr (length pool) r 0). lia.
Qed.

Lemma combinations_moving_next (pool : list V) indices :
  choice_ok wr (length pool) 0 indices → length indices = r →
  advance_combinations try_reserve_exact wr
    (Combinations {| cc_pool := pool; cc_indices := indices; cc_with_replacement := wr; cc_started := true; cc_exhausted := false |}) =
  match next_choice wr (length pool) indices with
  | Some indices => (Return (picked pool indices),
      Combinations {| cc_pool := pool; cc_indices := indices; cc_with_replacement := wr; cc_started := true; cc_exhausted := false |})
  | None => (Raise stop_iteration,
      Combinations {| cc_pool := pool; cc_indices := indices; cc_with_replacement := wr; cc_started := true; cc_exhausted := true |})
  end.
Proof using Hmem.
  intros Hok Hr. pose proof (choices_after_next wr _ _ _ Hok) as Hn.
  unfold advance_combinations, or_stop, next_combinations, combinations_next_tuple.
  unfold mbind, prog_bind, mret, prog_ret, get_self, modify, pure, on_part. cbn -[combinations_loop]. rewrite Bool.eqb_reflx. cbn -[combinations_loop].
  rewrite Hr. destruct (Nat.eqb_spec r 0) as [H0|H0].
  { destruct indices; [|cbn in Hr; lia]. done. }
  assert (Hloop : combinations_loop wr (length pool) r r indices =
    match next_choice wr (length pool) indices with Some i => (Return true, i) | None => (Return false, indices) end).
  { pose proof (combinations_loop_next wr (length pool) indices [] r) as Hl. rewrite app_nil_r, Hr in Hl. apply Hl; [done|done|].
    destruct indices as [|v indices]; [cbn in Hr; lia|]. destruct Hok as [[_ Hv] _]. cbn [length] in Hr. unfold room in Hv.
    destruct wr; [right; split; [done|lia]|left; lia]. }
  cbn -[combinations_loop]. rewrite Hloop. destruct (next_choice wr (length pool) indices) as [indices'|]; cbn; [|done].
  destruct Hn as (Hok' & _ & _). rewrite tuple_from_pool_picked; [done|done|by eapply choice_ok_lt].
Qed.

Lemma combinations_enumerate (pool : list V) c :
  combinations_try_new try_reserve_exact pool r wr = Return c →
  enumerates (advance_combinations try_reserve_exact wr) (picked pool <$> choices wr (length pool) 0 r) (restart r) (Combinations c).
Proof using Hmem.
  intros Hc. apply (enumerates_intro _ combinations_rest combinations_over).
  - intros t l c' Hr. inversion Hr as [pool' Hle Hl|pool' indices Hok Hlen Hl|]; subst.
    + rewrite choices_least in Hl by lia. cbn in Hl. simplify_eq. rewrite combinations_fresh_next by done. eexists. split; [done|].
      apply (combinations_rest_moving pool'); [|by rewrite length_least]. apply least_ok. lia.
    + pose proof (choices_after_next wr _ _ _ Hok) as Hn. rewrite combinations_moving_next by done.
      destruct (next_choice wr (length pool') indices) as [indices'|]; [|by rewrite Hn in Hl].
      destruct Hn as (Hok' & Hlen' & Ha). rewrite Ha in Hl. cbn in Hl. simplify_eq. eexists. split; [done|]. apply combinations_rest_moving; [done|lia].
  - intros c' [Hr|Ho].
    + inversion Hr as [pool' Hle Hl|pool' indices Hok Hlen Hl|]; subst.
      * by rewrite choices_least in Hl by lia.
      * pose proof (choices_after_next wr _ _ _ Hok) as Hn. rewrite combinations_moving_next by done.
        destruct (next_choice wr (length pool') indices) as [indices'|]; [|by eexists].
        destruct Hn as (Hok' & Hlen' & Ha). by rewrite Ha in Hl.
      * eexists. split; [cbn; unfold advance_combinations, or_stop, next_combinations; unfold mbind, prog_bind; cbn; by rewrite Bool.eqb_reflx|done].
    + destruct c' as [|[pool' indices wr' started exhausted]|]; [done| |done]. cbn in Ho. destruct Ho as (-> & -> & Ho).
      eexists. split; [unfold advance_combinations, or_stop, next_combinations; unfold mbind, prog_bind; cbn; by rewrite Bool.eqb_reflx|done].
  - intros l c' Hr. by inversion Hr; subst.
  - intros [|[pool' indices wr' started exhausted]|] Ho; [done| |done]. cbn in Ho. destruct Ho as (-> & -> & Ho). cbn.
    unfold restart. destruct started; cbn; rewrite ?Ho.
    + destruct (Nat.eqb_spec r 0) as [->|Hr0]; cbn; [|constructor; lia].
      change [[]] with (picked ([] : list V) <$> choices wr (length ([] : list V)) 0 0).
      replace ([] : list nat) with (least wr 0 0) by (unfold least; by destruct wr). pose proof (combinations_rest_fresh [] (or_introl e)) as Hf. rewrite e in Hf. exact Hf.
    + destruct (Nat.eqb_spec r 0); [lia|]. by constructor.
  - unfold combinations_try_new in Hc. destruct (if wr then _ else _) eqn:He in Hc; cbn in Hc.
    + simplify_eq. assert (Hr : (0 < r)%nat) by (destruct wr; [apply andb_true_iff in He as [_ He]|]; apply Nat.ltb_lt in He; lia).
      rewrite choices_none; [by constructor|done|]. unfold room. destruct wr.
      * apply andb_true_iff in He as [He _]. apply Nat.eqb_eq in He. lia.
      * apply Nat.ltb_lt in He. lia.
    + assert (Hle : (r = 0 ∨ room wr (r - 1) < length pool)%nat).
      { unfold room. destruct wr; [apply andb_false_iff in He as [He|He]; [apply Nat.eqb_neq in He|apply Nat.ltb_ge in He]|apply Nat.ltb_ge in He]; lia. }
      rewrite try_vec_ok in Hc by done.
      assert (Hcc : c = {| cc_pool := pool; cc_indices := least wr 0 r; cc_with_replacement := wr; cc_started := false; cc_exhausted := false |}).
      { clear He. unfold least. destruct r; destruct wr; injection Hc as <-; done. }
      rewrite Hcc. by constructor.
Qed.
End combinations_cursor.

(** ** Permutations *)

(** The arrangements of [k] of the available indices, by the position [j] of
    the first of them; the vector of all indices lists the chosen ones and then
    the others in ascending order, and a cycle counts the choices left. *)
Fixpoint arrangements (k : nat) (avail : list nat) : list (list nat) :=
  match k with
  | O => [[]]
  | S k => j ← seq 0 (length avail); match avail !! j with Some x => cons x <$> arrangements k (delete j avail) | None => [] end
  end.
Definition starting_at (k : nat) (avail : list nat) (j : nat) : list (list nat) :=
  match avail !! j with Some x => cons x <$> arrangements k (delete j avail) | None => [] end.
Fixpoint arrangements_after (avail cycles : list nat) : list (list nat) :=
  match cycles with
  | [] => []
  | c :: cycles =>
      let j := (length avail - c)%nat in
      match avail !! j with Some x => cons x <$> arrangements_after (delete j avail) cycles | None => [] end
      ++ (seq (S j) (length avail - S j) ≫= starting_at (length cycles) avail)
  end.
Fixpoint arranged (avail cycles indices : list nat) : Prop :=
  match cycles with
  | [] => indices = avail
  | c :: cycles => ∃ j x rest, avail !! j = Some x ∧ c = (length avail - j)%nat ∧ indices = x :: rest ∧ arranged (delete j avail) cycles rest
  end.
Definition full_cycles (n k : nat) : list nat := (λ i, n - i)%nat <$> seq 0 k.

Lemma full_cycles_S n k : full_cycles n (S k) = n :: full_cycles (n - 1) k.
Proof.
  unfold full_cycles. cbn. f_equal; [lia|]. rewrite <- fmap_S_seq, <- list_fmap_compose. apply list_fmap_ext. intros i x _. cbn. lia.
Qed.

Lemma length_full_cycles n k : length (full_cycles n k) = k.
Proof. unfold full_cycles. by rewrite length_fmap, length_seq. Qed.

Lemma length_delete_lt {A} (l : list A) j x : l !! j = Some x → S (length (delete j l)) = length l.
Proof. intros Hj. pose proof (lookup_lt_Some _ _ _ Hj). rewrite length_delete by done. lia. Qed.

Lemma arranged_length avail cycles indices : arranged avail cycles indices → (length cycles ≤ length avail)%nat ∧ length indices = length avail.
Proof.
  revert avail indices. induction cycles as [|c cycles IH]; intros avail indices; [by intros ->; cbn; split; lia|].
  intros (j & x & rest & Hj & -> & -> & Ha). destruct (IH _ _ Ha). pose proof (length_delete_lt _ _ _ Hj). cbn. lia.
Qed.

Lemma arranged_cycles avail cycles indices : arranged avail cycles indices → Forall (λ c, c ≤ length avail)%nat cycles.
Proof.
  revert avail indices. induction cycles as [|c cycles IH]; intros avail indices; [done|].
  intros (j & x & rest & Hj & -> & -> & Ha). pose proof (length_delete_lt _ _ _ Hj). constructor; [lia|].
  eapply Forall_impl; [by eapply IH|]. cbn. lia.
Qed.

Lemma arrangements_first k avail :
  (k ≤ length avail)%nat →
  arranged avail (full_cycles (length avail) k) avail ∧
  arrangements k avail = take k avail :: arrangements_after avail (full_cycles (length avail) k).
Proof.
  revert avail. induction k as [|k IH]; intros avail Hk; [done|]. destruct avail as [|x avail]; [cbn in Hk; lia|].
  cbn [length] in Hk. destruct (IH avail ltac:(lia)) as [Ha He]. rewrite full_cycles_S. cbn [length]. rewrite Nat.sub_succ, Nat.sub_0_r. split.
  - exists 0%nat, x, avail. split_and!; [done|cbn; lia|done|done].
  - cbn [arrangements arrangements_after length]. rewrite Nat.sub_diag. cbn [lookup list_lookup delete list_delete seq mbind list_bind].
    rewrite He. cbn [fmap list_fmap take app]. f_equal. f_equal. rewrite length_full_cycles.
    by rewrite Nat.sub_succ, Nat.sub_0_r.
Qed.

Lemma permutations_loop_app n ps1 ps2 s :
  permutations_loop n (ps1 ++ ps2) s =
    match permutations_loop n ps1 s with (Return false, s') => permutations_loop n ps2 s' | other => other end.
Proof.
  revert s. induction ps1 as [|p ps1 IH]; intros s; [done|]. cbn [app permutations_loop].
  unfold mbind, prog_bind. repeat (case_match; simplify_eq; try done); by rewrite IH.
Qed.

Lemma at_index_S i x v : at_index (S i) (x :: v) = let '(r, v) := at_index i v in (r, x :: v).
Proof. done. Qed.
Lemma set_index_S i y x v : set_index (S i) y (x :: v) = let '(r, v) := set_index i y v in (r, x :: v).
Proof. unfold set_index. cbn. by destruct (v !! i). Qed.
Lemma rotate_from_S i x v : rotate_from (S i) (x :: v) = let '(r, v) := rotate_from i v in (r, x :: v).
Proof. unfold rotate_from. cbn. by destruct (drop i v). Qed.
Lemma swap_indices_S i j x v : swap_indices (S i) (S j) (x :: v) = let '(r, v) := swap_indices i j v in (r, x :: v).
Proof.
  unfold swap_indices, mbind, prog_bind. rewrite !at_index_S. unfold at_index at 1 3. destruct (lift (vnth v i)) as [a| | |]; [|done..].
  rewrite at_index_S. unfold at_index. destruct (lift (vnth v j)) as [b| | |]; [|done..]. rewrite set_index_S.
  destruct (set_index i b v) as [[] v']; [|done..]. by rewrite set_index_S.
Qed.

(** Positions further right do not look at what is left of them. *)
Lemma permutations_loop_shift n ps x c indices cycles :
  Forall (λ c, c ≤ n)%nat cycles →
  permutations_loop (S n) (S <$> ps) (x :: indices, c :: cycles) =
    let '(r, (indices, cycles)) := permutations_loop n ps (indices, cycles) in (r, (x :: indices, c :: cycles)).
Proof.
  revert indices cycles. induction ps as [|p ps IH]; intros indices cycles Hc; [done|].
  cbn [fmap list_fmap permutations_loop]. unfold mbind, prog_bind, pure, on_part, with_fst, with_snd, mret, prog_ret. cbn [fst snd].
  rewrite at_index_S. unfold at_index. destruct (lift (vnth cycles p)) as [y| | |] eqn:Hy; [|done..].
  assert (Hyn : (y ≤ n)%nat).
  { unfold vnth in Hy. destruct (cycles !! p) as [y'|] eqn:Hp; [|done]. cbn in Hy. simplify_eq. by eapply Forall_lookup_1 in Hc. }
  unfold minus_usize. destruct (Nat.leb_spec 1 y) as [Hy1|]; [|done]. cbn [fst snd]. rewrite set_index_S.
  destruct (set_index p (y - 1)%nat cycles) as [rs cycles1] eqn:Hset. destruct rs as [[]| | |]; [|done..].
  assert (Hc1 : Forall (λ c, c ≤ n)%nat cycles1).
  { unfold set_index in Hset. destruct (cycles !! p); simplify_eq. apply Forall_insert; [done|lia]. }
  destruct (Nat.eqb_spec (y - 1) 0) as [H0|H0].
  - cbn [fst snd]. rewrite rotate_from_S. destruct (rotate_from p indices) as [rr indices1]. destruct rr as [[]| | |]; [|done..].
    destruct (Nat.leb_spec p n), (Nat.leb_spec (S p) (S n)); try lia; [|done]. cbn [fst snd]. rewrite set_index_S, Nat.sub_succ.
    destruct (set_index p (n - p)%nat cycles1) as [rs cycles2] eqn:Hset2. destruct rs as [[]| | |]; [|done..].
    rewrite IH; [done|]. unfold set_index in Hset2. destruct (cycles1 !! p); simplify_eq. apply Forall_insert; [done|lia].
  - destruct (Nat.leb_spec (y - 1) n), (Nat.leb_spec (y - 1) (S n)); try lia.
    replace (S n - (y - 1))%nat with (S (n - (y - 1))) by lia. cbn [fst snd]. rewrite swap_indices_S.
    by destruct (swap_indices p (n - (y - 1))%nat indices) as [[[]| | |] ?].
Qed.

Lemma delete_insert_next {A} (l : list A) j x y :
  l !! j = Some x → l !! S j = Some y → <[j := x]> (delete j l) = delete (S j) l ∧ delete j l !! j = Some y.
Proof.
  revert j. induction l as [|z l IH]; intros j Hx Hy; [done|]. destruct j as [|j]; cbn in *.
  - destruct l as [|y' l]; [done|]. cbn in *. by simplify_eq.
  - destruct (IH j Hx Hy) as [E1 E2]. split; [f_equal; exact E1|exact E2].
Qed.

Lemma swap_with_first (j x y : nat) (v : list nat) : v !! j = Some y → swap_indices 0 (S j) (x :: v) = (Return tt, y :: <[j := x]> v).
Proof.
  intros Hj. unfold swap_indices, mbind, prog_bind. change (at_index 0 (x :: v)) with (Return x, x :: v). cbn beta iota. rewrite at_index_S.
  unfold at_index, vnth. rewrite Hj. cbn [expect lift]. change (set_index 0 y (x :: v)) with (Return tt, y :: v). cbn beta iota.
  rewrite set_index_S. unfold set_index. by rewrite Hj.
Qed.

Lemma delete_last_app {A} (l : list A) j x : l !! j = Some x → length l = S j → delete j l ++ [x] = l.
Proof.
  revert j. induction l as [|z l IH]; intros j Hx Hl; [done|]. destruct j as [|j]; cbn in *.
  - destruct l; [by simplify_eq|done]. 
  - f_equal. apply IH; [done|lia].
Qed.

(** One call of the loop moves to the next arrangement, or comes round to the
    first one. *)
Lemma permutations_loop_next avail cycles indices :
  arranged avail cycles indices →
  (∃ indices' cycles', permutations_loop (length avail) (rev (seq 0 (length cycles))) (indices, cycles) = (Return true, (indices', cycles')) ∧
    arranged avail cycles' indices' ∧ length cycles' = length cycles ∧
    arrangements_after avail cycles = take (length cycles) indices' :: arrangements_after avail cycles') ∨
  (permutations_loop (length avail) (rev (seq 0 (length cycles))) (indices, cycles) =
     (Return false, (avail, full_cycles (length avail) (length cycles))) ∧ arrangements_after avail cycles = []).
Proof.
  revert avail indices. induction cycles as [|c cycles IH]; intros avail indices; [intros ->; by right|].
  intros (j & x & rest & Hj & -> & -> & Ha). set (k := length cycles) in *. set (n := length (delete j avail)).
  assert (Hn : length avail = S n) by (symmetry; by apply (length_delete_lt _ _ x)). apply lookup_lt_Some in Hj as Hjn. rewrite Hn in Hjn.
  assert (Hrev : rev (seq 0 (length ((length avail - j)%nat :: cycles))) = (S <$> rev (seq 0 k)) ++ [0%nat]).
  { cbn [length seq rev]. fold k. rewrite <- fmap_S_seq. f_equal. symmetry. apply map_rev. }
  assert (Hcs : Forall (λ c, c ≤ n)%nat cycles) by (eapply arranged_cycles; exact Ha).
  rewrite Hrev, permutations_loop_app, Hn, permutations_loop_shift by done. clear Hrev Hcs.
  cbn [arrangements_after]. rewrite Hn. fold k. replace (S n - (S n - j))%nat with j by lia. rewrite Hj.
  specialize (IH _ _ Ha). fold n k in IH. destruct IH as [(indices' & cycles' & -> & Ha' & Hlen & ->)|[-> ->]].
  { left. eexists _, _. split; [done|]. cbn [length]. fold k. split; [|split; [by f_equal|]].
    - exists j, x, indices'. by rewrite Hn.
    - cbn [take fmap list_fmap app]. f_equal. cbn [arrangements_after]. rewrite Hn, Hlen. replace (S n - (S n - j))%nat with j by lia. by rewrite Hj. }
  assert (Hstep : permutations_loop (S n) [0%nat] (x :: delete j avail, (S n - j)%nat :: full_cycles n k) =
    if (n - j =? 0)%nat then (Return false, (avail, S n :: full_cycles n k))
    else (Return true, (match avail !! S j with Some y => y :: delete (S j) avail | None => [] end, (n - j)%nat :: full_cycles n k))).
  { cbn [permutations_loop]. unfold mbind, prog_bind, pure, on_part, with_fst, with_snd, mret, prog_ret. cbn [fst snd].
    unfold at_index, vnth, minus_usize. cbn [lookup list_lookup expect lift]. destruct (Nat.leb_spec 1 (S n - j)); [|lia].
    unfold set_index. cbn [lookup list_lookup insert list_insert]. replace (S n - j - 1)%nat with (n - j)%nat by lia.
    destruct (Nat.eqb_spec (n - j) 0) as [H0|H0].
    - unfold rotate_from. cbn -[Nat.sub delete]. rewrite delete_last_app; [by rewrite Nat.sub_0_r|done|lia].
    - destruct (Nat.leb_spec (n - j) (S n)); [|lia]. replace (S n - (n - j))%nat with (S j) by lia.
      destruct (lookup_lt_is_Some_2 avail (S j)) as [y Hy]; [lia|]. destruct (delete_insert_next _ _ _ _ Hj Hy) as [Hi Hd].
      cbn -[Nat.sub delete swap_indices]. rewrite (swap_with_first _ _ _ _ Hd). by rewrite Hi, Hy. }
  rewrite Hstep. clear Hstep. cbn [fmap list_fmap app]. destruct (Nat.eqb_spec (n - j) 0) as [H0|H0].
  { right. cbn [length]. fold k. rewrite full_cycles_S, Nat.sub_succ, Nat.sub_0_r. split; [done|]. by replace (S n - S j)%nat with 0%nat by lia. }
  left. destruct (lookup_lt_is_Some_2 avail (S j)) as [y Hy]; [lia|]. rewrite Hy. eexists _, _. split; [done|].
  assert (Hn' : length (delete (S j) avail) = n) by (apply length_delete_lt in Hy; lia).
  destruct (arranged_length _ _ _ Ha) as [Hk _]. fold n k in Hk.
  destruct (arrangements_first k (delete (S j) avail)) as [Hf He]; [lia|]. rewrite Hn' in Hf, He.
  cbn [length]. rewrite length_full_cycles. fold k. split; [|split; [done|]].
  - exists (S j), y, (delete (S j) avail). rewrite Hn. by split_and!; [|lia|..].
  - replace (S n - S j)%nat with (S (n - S j)) by lia. cbn [seq mbind list_bind]. unfold starting_at at 1. rewrite Hy, He.
    cbn [fmap list_fmap app take]. f_equal. cbn [arrangements_after]. rewrite Hn. replace (S n - (n - j))%nat with (S j) by lia.
    rewrite Hy, length_full_cycles. by replace (n - S j)%nat with (S n - S (S j))%nat by lia.
Qed.

Section permutations_cursor.
  Context {V : Type} (try_reserve_exact : nat → bool) (Hmem : ∀ n, try_reserve_exact n = true).
  Context (r : nat).

(** The state of a cursor that has begun; without indices when [r] is zero. *)
Definition permuting (n : nat) (indices cycles : list nat) : Prop :=
  length cycles = r ∧ if (r =? 0)%nat then indices = [] else arranged (seq 0 n) cycles indices.

Inductive permutations_rest : list (list V) → Cursor → Prop :=
  | permutations_rest_fresh pool indices :
      (r ≤ length pool)%nat → indices = (if (r =? 0)%nat then [] else seq 0 (length pool)) →
      permutations_rest (picked pool <$> arrangements r (seq 0 (length pool)))
        (Permutations {| pm_pool := pool; pm_r := r; pm_indices := indices; pm_cycles := full_cycles (length pool) r; pm_started := false; pm_exhausted := false |})
  | permutations_rest_moving (pool : list V) indices cycles :
      (r ≤ length pool)%nat → permuting (length pool) indices cycles →
      permutations_rest (picked pool <$> arrangements_after (seq 0 (length pool)) cycles)
        (Permutations {| pm_pool := pool; pm_r := r; pm_indices := indices; pm_cycles := cycles; pm_started := true; pm_exhausted := false |})
  | permutations_rest_none pool indices cycles :
      (0 < r)%nat →
      permutations_rest [] (Permutations {| pm_pool := pool; pm_r := r; pm_indices := indices; pm_cycles := cycles; pm_started := false; pm_exhausted := true |}).
Definition permutations_over (c : Cursor (V := V)) : Prop :=
  match c with
  | Permutations c => pm_exhausted c = true ∧ pm_r c = r ∧ (pm_started c = false → (0 < r)%nat)
  | _ => False
  end.

Lemma arranged_lt n cycles indices : arranged (seq 0 n) cycles indices → Forall (λ i, i < n)%nat indices.
Proof using Type.
  assert (Hgen : ∀ cycles avail indices, arranged avail cycles indices → ∀ i, i ∈ indices → i ∈ avail).
  { clear. induction cycles as [|c cycles IH]; intros avail indices; [by intros ->|].
    intros (j & x & rest & Hj & -> & -> & Ha) i [->|Hi]%elem_of_cons; [by eapply list_elem_of_lookup_2|].
    apply (IH _ _ Ha) in Hi. rewrite <- (take_drop_middle avail j x Hj). apply elem_of_app.
    rewrite delete_take_drop in Hi. apply elem_of_app in Hi as [Hi|Hi]; [by left|right; by right]. }
  intros Ha. apply Forall_forall. intros i Hi. apply (Hgen _ _ _ Ha), elem_of_seq in Hi. lia.
Qed.

(** The first call, and those in between, give the leading indices. *)
Lemma permutations_leading (pool : list V) indices cycles :
  (r ≤ length pool)%nat → permuting (length pool) indices cycles →
  leading r indices = Return (take r indices) ∧
  tuple_from_pool try_reserve_exact pool (take r indices) "permutations" = Return (picked pool (take r indices)).
Proof using Hmem.
  intros Hr [Hlen Hp]. destruct (Nat.eqb_spec r 0) as [->|Hr0]; [subst; by rewrite (tuple_from_pool_picked _ pool [])|].
  destruct (arranged_length _ _ _ Hp) as [_ Hl]. rewrite length_seq in Hl. split.
  - unfold leading. by destruct (Nat.leb_spec r (length indices)); [|lia].
  - apply tuple_from_pool_picked; [done|]. apply Forall_take. by eapply arranged_lt.
Qed.

Lemma permuting_first n : (r ≤ n)%nat → permuting n (if (r =? 0)%nat then [] else seq 0 n) (full_cycles n r).
Proof using Type.
  intros Hr. split; [apply length_full_cycles|]. destruct (r =? 0)%nat; [done|].
  destruct (arrangements_first r (seq 0 n)) as [Ha _]; [by rewrite length_seq|]. by rewrite length_seq in Ha.
Qed.

Lemma permutations_first_list n :
  (r ≤ n)%nat → arrangements r (seq 0 n) = take r (if (r =? 0)%nat then [] else seq 0 n) :: arrangements_after (seq 0 n) (full_cycles n r).
Proof using Type.
  intros Hr. destruct (arrangements_first r (seq 0 n)) as [_ He]; [by rewrite length_seq|]. rewrite length_seq in He. rewrite He.
  by destruct (Nat.eqb_spec r 0) as [->|].
Qed.

Lemma permutations_fresh_next (pool : list V) indices cycles :
  (r ≤ length pool)%nat → permuting (length pool) indices cycles →
  permutations_next try_reserve_exact
    (Permutations {| pm_pool := pool; pm_r := r; pm_indices := indices; pm_cycles := cycles; pm_started := false; pm_exhausted := false |}) =
  (Return (picked pool (take r indices)),
   Permutations {| pm_pool := pool; pm_r := r; pm_indices := indices; pm_cycles := cycles; pm_started := true; pm_exhausted := false |}).
Proof using Hmem.
  intros Hr Hp. destruct (permutations_leading pool indices cycles Hr Hp) as [Hl Ht].
  unfold permutations_next, or_stop, next_permutations, permutations_next_tuple.
  unfold mbind, prog_bind, mret, prog_ret, get_self, modify, pure. cbn. rewrite Hl. by rewrite Ht.
Qed.

Lemma permutations_moving_next (pool : list V) indices cycles :
  (r ≤ length pool)%nat → permuting (length pool) indices cycles →
  (∃ indices' cycles', permutations_next try_reserve_exact
      (Permutations {| pm_pool := pool; pm_r := r; pm_indices := indices; pm_cycles := cycles; pm_started := true; pm_exhausted := false |}) =
    (Return (picked pool (take r indices')),
     Permutations {| pm_pool := pool; pm_r := r; pm_indices := indices'; pm_cycles := cycles'; pm_started := true; pm_exhausted := false |}) ∧
    permuting (length pool) indices' cycles' ∧
    arrangements_after (seq 0 (length pool)) cycles = take r indices' :: arrangements_after (seq 0 (length pool)) cycles') ∨
  (∃ c', permutations_next try_reserve_exact
      (Permutations {| pm_pool := pool; pm_r := r; pm_indices := indices; pm_cycles := cycles; pm_started := true; pm_exhausted := false |}) =
    (Raise stop_iteration, c') ∧ permutations_over c' ∧ arrangements_after (seq 0 (length pool)) cycles = []).
Proof using Hmem.
  intros Hr Hp. pose proof Hp as [Hlen Ha].
  unfold permutations_next, or_stop, next_permutations, permutations_next_tuple.
  unfold mbind, prog_bind, mret, prog_ret, get_self, modify, pure, on_part. cbn -[permutations_loop rev seq]. unfold pm_state. cbn -[permutations_loop rev seq].
  destruct (Nat.eqb_spec r 0) as [H0|H0].
  { right. destruct cycles; [|cbn in Hlen; lia]. rewrite H0. cbn. by eexists. }
  pose proof (permutations_loop_next _ _ _ Ha) as Hloop. rewrite length_seq, Hlen in Hloop.
  destruct Hloop as [(indices' & cycles' & -> & Ha' & Hlen' & Hafter)|[-> Hafter]]; [left|right].
  - assert (Hp' : permuting (length pool) indices' cycles') by (split; [done|]; by destruct (Nat.eqb_spec r 0)).
    destruct (permutations_leading pool indices' cycles' Hr Hp') as [Hl Ht]. cbn. rewrite Hl. rewrite Ht. by exists indices', cycles'.
  - cbn. by eexists.
Qed.

Lemma permutations_enumerate (pool : list V) c :
  permutations_try_new try_reserve_exact pool r = Return c →
  enumerates (permutations_next try_reserve_exact) (picked pool <$> arrangements r (seq 0 (length pool))) (restart r) (Permutations c).
Proof using Hmem.
  intros Hc. apply (enumerates_intro _ permutations_rest permutations_over).
  - intros t l c' Hr. inversion Hr as [pool' indices Hle Hi Hl|pool' indices cycles Hle Hp Hl|]; subst.
    + rewrite permutations_first_list in Hl by done. cbn in Hl. simplify_eq.
      rewrite permutations_fresh_next by (done || by apply permuting_first). eexists. split; [done|].
      apply (permutations_rest_moving pool'); [done|by apply permuting_first].
    + destruct (permutations_moving_next pool' indices cycles Hle Hp) as [(indices' & cycles' & -> & Hp' & Ha)|(c' & _ & _ & Ha)].
      * rewrite Ha in Hl. cbn in Hl. simplify_eq. eexists. split; [done|]. by constructor.
      * by rewrite Ha in Hl.
  - intros c' [Hr|Ho].
    + inversion Hr as [pool' indices Hle Hi Hl|pool' indices cycles Hle Hp Hl|pool' indices cycles H0]; subst.
      * by rewrite permutations_first_list in Hl by done.
      * destruct (permutations_moving_next pool' indices cycles Hle Hp) as [(indices' & cycles' & -> & Hp' & Ha)|(c' & -> & Ho & Ha)].
        { by rewrite Ha in Hl. } { by eexists. }
      * eexists. split; [done|]. by split.
    + destruct c' as [| |[pool' r' indices cycles started exhausted]]; [done..|]. cbn in Ho. destruct Ho as (-> & -> & Ho). eexists. split; [done|]. by split.
  - intros l c' Hr. by inversion Hr; subst.
  - intros [| |[pool' r' indices cycles started exhausted]] Ho; [done..|]. cbn in Ho. destruct Ho as (-> & -> & Ho). cbn -[Nat.ltb]. destruct started; cbn -[Nat.ltb].
    + unfold restart. destruct (Nat.eqb_spec r 0) as [e|H0].
      * pose proof (permutations_rest_fresh [] [] ltac:(lia) ltac:(by destruct (Nat.eqb_spec r 0))) as Hf. rewrite e in Hf |- *. exact Hf.
      * replace (0 <? r)%nat with true by (symmetry; apply Nat.ltb_lt; lia). constructor. lia.
    + unfold restart. specialize (Ho eq_refl). destruct (Nat.eqb_spec r 0); [lia|]. by constructor.
  - unfold permutations_try_new in Hc. destruct (Nat.ltb_spec (length pool) r) as [Hlt|Hge]; cbn in Hc.
    + simplify_eq. assert (Hnone : arrangements r (seq 0 (length pool)) = []); [|rewrite Hnone; constructor; lia].
      assert (Hgen : ∀ r avail, (length avail < r)%nat → arrangements r avail = []).
      { clear. induction r as [|r IH]; intros avail Hr; [lia|]. cbn [arrangements]. apply elem_of_nil_inv. intros t Ht.
        apply list_elem_of_bind in Ht as (j & Ht & Hj). destruct (avail !! j) as [x|] eqn:Hx; [|by apply elem_of_nil in Ht].
        pose proof (length_delete_lt _ _ _ Hx). rewrite IH in Ht by lia. by apply elem_of_nil in Ht. }
      apply Hgen. by rewrite length_seq.
    + assert (Hcc : c = {| pm_pool := pool; pm_r := r; pm_indices := if (r =? 0)%nat then [] else seq 0 (length pool);
                           pm_cycles := full_cycles (length pool) r; pm_started := false; pm_exhausted := false |}).
      { rewrite !try_vec_ok in Hc by done. destruct r; cbn in Hc; by simplify_eq. }
      rewrite Hcc. by apply (permutations_rest_fresh pool).
Qed.
End permutations_cursor.

(** ** The tuples as a selection of all tuples

    The vectors of [combinations] are the ascending ones among all vectors, in
    the same order, and those of [permutations] the ones without repetition. *)

Lemma filter_bind {A B} (P : B → Prop) `{!∀ x, Decision (P x)} (f : A → list B) l :
  filter P (l ≫= f) = l ≫= λ x, filter P (f x).
Proof. induction l as [|x l IH]; [done|]. cbn [mbind list_bind]. rewrite filter_app. f_equal. exact IH. Qed.

Lemma filter_fmap_cons {A} (P Q : list A → Prop) `{!∀ t, Decision (P t), !∀ t, Decision (Q t)} x (l : list (list A)) :
  (∀ t, P (x :: t) ↔ Q t) → filter P (cons x <$> l) = cons x <$> filter Q l.
Proof.
  intros Hpq. induction l as [|t l IH]; [done|]. cbn [fmap list_fmap]. rewrite !filter_cons, IH.
  destruct (decide (P (x :: t))), (decide (Q t)); naive_solver.
Qed.

Lemma filter_none {A} (P : A → Prop) `{!∀ x, Decision (P x)} l : (∀ x, x ∈ l → ¬ P x) → filter P l = [].
Proof. intros Hl. apply elem_of_nil_inv. intros x [Hp Hx]%list_elem_of_filter. by apply (Hl x). Qed.

Lemma bind_nil {A B} (f : A → list B) l : (∀ x, x ∈ l → f x = []) → l ≫= f = [].
Proof. induction l as [|x l IH]; intros H; [done|]. cbn [mbind list_bind]. rewrite (H x) by (by left). apply IH. intros y Hy. apply H. by right. Qed.

(** Each index is followed by larger ones, or with replacement by no smaller. *)
Fixpoint ascending (with_replacement : bool) (t : list nat) : bool :=
  match t with
  | x :: t => match t with y :: _ => if with_replacement then (x <=? y)%nat else (x <? y)%nat | [] => true end && ascending with_replacement t
  | [] => true
  end.

Definition from (lo : nat) (t : list nat) : bool := match t with x :: _ => (lo <=? x)%nat | [] => true end.

Lemma choices_ascending wr n r :
  choices wr n 0 r = filter (λ t, ascending wr t = true) (cartesian (replicate r (seq 0 n))).
Proof.
  assert (Hgen : ∀ k lo, choices wr n lo k = filter (λ t, from lo t && ascending wr t = true) (cartesian (replicate k (seq 0 n)))).
  { induction k as [|k IH]; intros lo; [done|]. cbn [replicate cartesian choices]. rewrite filter_bind.
    assert (Hone : ∀ x, filter (λ t, from lo t && ascending wr t = true) (cons x <$> cartesian (replicate k (seq 0 n))) =
      if (lo <=? x)%nat then cons x <$> choices wr n (following wr x) k else []).
    { intros x. destruct (Nat.leb_spec lo x) as [Hle|Hlt].
      - rewrite IH. apply filter_fmap_cons. intros t. cbn [from ascending]. destruct (Nat.leb_spec lo x); [|lia]. cbn [andb].
        unfold following. destruct wr, t; done.
      - apply filter_none. intros t (t' & -> & _)%list_elem_of_fmap. cbn [from]. by destruct (Nat.leb_spec lo x); [lia|]. }
    rewrite (list_bind_ext _ _ _ _ Hone eq_refl).
    destruct (decide (lo ≤ n)%nat) as [Hle|Hgt].
    - replace (seq 0 n) with (seq 0 lo ++ seq lo (n - lo)) by (rewrite <- seq_app; f_equal; lia). rewrite bind_app, (bind_nil _ (seq 0 lo)).
      + cbn [app]. apply Forall_bind_ext, Forall_forall. intros x Hx. apply elem_of_seq in Hx. by destruct (Nat.leb_spec lo x); [|lia].
      + intros x Hx. apply elem_of_seq in Hx. by destruct (Nat.leb_spec lo x); [lia|].
    - replace (n - lo)%nat with 0%nat by lia. symmetry. apply bind_nil. intros x Hx. apply elem_of_seq in Hx. by destruct (Nat.leb_spec lo x); [lia|]. }
  rewrite Hgen. apply list_filter_iff. intros t. by destruct t.
Qed.

Lemma bind_positions {A B} (f : A → list B) l :
  l ≫= f = j ← seq 0 (length l); match l !! j with Some x => f x | None => [] end.
Proof.
  induction l as [|x l IH]; [done|]. cbn [length seq mbind list_bind lookup list_lookup]. f_equal.
  rewrite <- fmap_S_seq, list_fmap_bind. exact IH.
Qed.

Lemma delete_filter (l : list nat) j x : NoDup l → l !! j = Some x → delete j l = filter (λ y, y ≠ x) l.
Proof.
  intros Hnd. revert j. induction Hnd as [|y l Hy Hnd IH]; intros j Hj; [done|]. rewrite filter_cons.
  destruct j as [|j]; cbn in Hj.
  - simplify_eq. rewrite decide_False by auto. clear IH. symmetry. apply filter_all. intros z Hz ->. done.
  - rewrite decide_True; [cbn; f_equal; by apply IH|]. intros ->. by apply Hy, list_elem_of_lookup_2 with j.
Qed.

Lemma cartesian_without (l : list nat) x r :
  filter (λ t, x ∉ t) (cartesian (replicate r l)) = cartesian (replicate r (filter (λ y, y ≠ x) l)).
Proof.
  induction r as [|r IH]; [done|]. cbn [replicate cartesian]. rewrite filter_bind. generalize (cartesian (replicate r (filter (λ y, y ≠ x) l))), (cartesian (replicate r l)), IH.
  clear IH. intros C' C IH. induction l as [|y l IHl]; [done|]. rewrite filter_cons. cbn [mbind list_bind]. destruct (decide (y ≠ x)) as [Hy|Hy].
  - cbn [mbind list_bind]. f_equal; [|exact IHl]. rewrite <- IH. apply filter_fmap_cons. intros t. rewrite not_elem_of_cons. naive_solver.
  - rewrite filter_none; [exact IHl|]. intros t (t' & -> & _)%list_elem_of_fmap Hx. apply Hx. apply elem_of_cons. left. by apply dec_stable in Hy.
Qed.

Lemma arrangements_distinct r avail :
  NoDup avail → arrangements r avail = filter NoDup (cartesian (replicate r avail)).
Proof.
  revert avail. induction r as [|r IH]; intros avail Hnd; [done|]. cbn [replicate cartesian arrangements].
  rewrite filter_bind, (bind_positions _ avail). apply list_bind_ext; [|done]. intros j. destruct (avail !! j) as [x|] eqn:Hx; [|done].
  rewrite (filter_fmap_cons NoDup (λ t, NoDup t ∧ x ∉ t)) by (intros t; rewrite NoDup_cons; naive_solver). f_equal.
  rewrite <- list_filter_filter, cartesian_without, <- (delete_filter _ _ _ Hnd Hx). apply IH.
  rewrite (delete_filter _ _ _ Hnd Hx). by apply NoDup_filter.
Qed.

(** ** Making the iterators *)

Section making.
  Context {V : Type} (try_reserve_exact : nat → bool) (Hmem : ∀ n, try_reserve_exact n = true).

Lemma product_init_ok (iterables : list (list V)) repeat :
  (0 ≤ repeat)%Z → (vlen iterables * repeat < 2 ^ 60)%Z →
  ∃ c, product_init try_reserve_exact iterables repeat = Return c ∧
    enumerates (product_next try_reserve_exact) (cartesian (mjoin (replicate (Z.to_nat repeat) iterables))) [] c.
Proof using Hmem.
  intros Hr Hsize. unfold product_init. destruct (Z.ltb_spec repeat 0); [lia|]. unfold reserve_product_pools, checked_mul. unfold vlen in Hsize.
  rewrite Z2Nat.id by lia. destruct (Z.leb_spec (Z.of_nat (length iterables) * repeat) usize_max); [|unfold usize_max, two64 in *; lia].
  destruct (Z.ltb_spec ((2 ^ 63 - 1) / 8) (Z.of_nat (length iterables) * repeat)) as [Hlt|_]; [change ((2 ^ 63 - 1) / 8)%Z with (2 ^ 60 - 1)%Z in Hlt; lia|].
  rewrite (try_vec_ok _ Hmem (Z.to_nat (Z.of_nat (length iterables) * repeat))). cbn [mbind outcome_bind].
  assert (Hpools : ∃ single_pass, (if (Z.to_nat repeat =? 0)%nat || (length iterables =? 0)%nat then Return []
      else _ ← reserve_distinct_pools try_reserve_exact (length iterables); Return (PoolList <$> iterables)) = Return single_pass ∧
      mjoin (replicate (Z.to_nat repeat) single_pass) = PoolList <$> mjoin (replicate (Z.to_nat repeat) iterables)).
  { destruct (Nat.eqb_spec (Z.to_nat repeat) 0) as [->|]; [by eexists|]. destruct (Nat.eqb_spec (length iterables) 0) as [Hnil|].
    - apply nil_length_inv in Hnil as ->. eexists. split; [done|]. clear. by induction (Z.to_nat repeat).
    - unfold reserve_distinct_pools. rewrite try_vec_ok by done. eexists. split; [done|]. clear. induction (Z.to_nat repeat) as [|k IH]; [done|].
      cbn [replicate]. change (mjoin ((PoolList <$> iterables) :: ?l)) with ((PoolList <$> iterables) ++ mjoin l).
      change (mjoin (iterables :: ?l)) with (iterables ++ mjoin l). by rewrite fmap_app, IH. }
  destruct Hpools as (single_pass & -> & Hjoin). cbn [mbind outcome_bind]. rewrite Hjoin.
  destruct (product_try_new try_reserve_exact (PoolList <$> mjoin (replicate (Z.to_nat repeat) iterables))) as [c| | |] eqn:Hc.
  { eexists. split; [done|]. by apply product_enumerates. }
  all: unfold product_try_new in Hc; rewrite try_vec_ok in Hc by done; by destruct (existsb _ _) in Hc.
Qed.

Lemma init_combo_ok (pool : list V) r wr :
  ∃ c, init_combo_state try_reserve_exact pool (Z.of_nat r) wr = Return (Combinations c) ∧ combinations_try_new try_reserve_exact pool r wr = Return c.
Proof using Hmem.
  unfold init_combo_state. destruct (Z.ltb_spec (Z.of_nat r) 0); [lia|]. rewrite Nat2Z.id. unfold combinations_try_new. rewrite try_vec_ok by done.
  destruct (_ || _); by eexists.
Qed.

Lemma permutations_init_ok (pool : list V) (r : option nat) :
  ∃ c, permutations_init try_reserve_exact pool (Z.of_nat <$> r) = Return (Permutations c) ∧
    permutations_try_new try_reserve_exact pool (default (length pool) r) = Return c.
Proof using Hmem.
  assert (Hnew : ∀ k, ∃ c, permutations_try_new try_reserve_exact pool k = Return c).
  { intros k. unfold permutations_try_new. rewrite !try_vec_ok by done. destruct (_ || _), (_ && _); by eexists. }
  unfold permutations_init. destruct r as [r|]; cbn [fmap option_fmap option_map default].
  - destruct (Z.ltb_spec (Z.of_nat r) 0); [lia|]. rewrite Nat2Z.id. destruct (Hnew r) as [c Hc]. eexists. by rewrite Hc.
  - destruct (Hnew (length pool)) as [c Hc]. eexists. by rewrite Hc.
Qed.
End making.
