(* ===== verification/Itertools.v ===== *)
(** The lazy iterators of itertools
    (crates/pyrust/src/builtin_modules/bodies/itertools.rs and, in itertools/,
    native_iterators.rs, islice_helpers.inc.rs, groupby_helpers.inc.rs,
    support.inc.rs): the state of an instance is a record of its attributes.

    Iterators that the program passes in are numbered, so that one of them may
    be passed in more than one place; what the calls of [__next__] of each give,
    values or exceptions, is a sequence, and the world counts how many of them
    were made.  The functions of the program are functions that may raise. *)

From stdpp Require Import functions.
From S2P Require Import Prelude Outcome Combinatorics.

(** ** Calling other iterators *)

Abbreviation World := (nat → nat).

Section adaptors.
  Context {V : Type} (streams : nat → nat → V + PyError) (iter_of : V → outcome nat).

Definition call_next (it : nat) : prog World V := λ w,
  (match streams it (w it) with inl v => Return v | inr e => Raise e end, <[it := S (w it)]> w).

(** The methods of a class, with the world outside of the instance. *)
Definition pull {S} (it : nat) : prog (S * World) V := on_part snd with_snd (call_next it).
(** [match interp.call_next(..)], which looks at the error. *)
Definition attempt {S A} (m : prog S A) : prog S (outcome A) := λ s, let '(r, s) := m s in (Return r, s).
Definition self_of {S} : prog (S * World) S := λ s, (Return (fst s), s).
Definition modify_self {S} (f : S → S) : prog (S * World) unit := modify (λ s, (f (fst s), snd s)).
Definition raise {S A} (e : PyError) : prog S A := pure (Raise e).
Definition no_fuel {S A} : prog S A := pure OutOfFuel.

(** ** chain *)

Record Chain := { ch_sources : list V; ch_src_idx : nat; ch_cur_iter : option nat }.

Definition chain_init (sources : list V) : Chain := {| ch_sources := sources; ch_src_idx := 0; ch_cur_iter := None |}.

Fixpoint chain_next (fuel : nat) : prog (Chain * World) V :=
  match fuel with
  | O => no_fuel
  | S fuel =>
      self ← self_of;
      match ch_cur_iter self with
      | None =>
          match ch_sources self !! ch_src_idx self with
          | None => raise stop_iteration
          | Some source =>
              iter ← pure (iter_of source);
              _ ← modify_self (λ self, {| ch_sources := ch_sources self; ch_src_idx := ch_src_idx self; ch_cur_iter := Some iter |});
              chain_next fuel
          end
      | Some cur_iter =>
          next ← attempt (pull cur_iter);
          match next with
          | Raise e =>
              if is_stop_iteration e then
                _ ← modify_self (λ self, {| ch_sources := ch_sources self; ch_src_idx := ch_src_idx self + 1; ch_cur_iter := None |});
                chain_next fuel
              else raise e
          | other => pure other
          end
      end
  end.

(** ** chain.from_iterable *)

Record ChainFromIterableState := { cf_outer : nat; cf_inner : option nat; cf_done : bool }.

Definition chain_from_outer (outer : nat) : ChainFromIterableState := {| cf_outer := outer; cf_inner := None; cf_done := false |}.
Definition cf_with_inner (inner : option nat) (self : ChainFromIterableState) : ChainFromIterableState :=
  {| cf_outer := cf_outer self; cf_inner := inner; cf_done := cf_done self |}.
Definition cf_finish (self : ChainFromIterableState) : ChainFromIterableState :=
  {| cf_outer := cf_outer self; cf_inner := cf_inner self; cf_done := true |}.

Fixpoint advance_chain_from_iterable (fuel : nat) : prog (ChainFromIterableState * World) (option V) :=
  match fuel with
  | O => no_fuel
  | S fuel =>
      self ← self_of;
      if cf_done self then mret None
      else
        match cf_inner self with
        | Some inner =>
            next ← attempt (pull inner);
            match next with
            | Return value => mret (Some value)
            | Raise e =>
                if is_stop_iteration e then _ ← modify_self (cf_with_inner None); advance_chain_from_iterable fuel
                else raise e
            | Panicked => pure Panicked
            | OutOfFuel => pure OutOfFuel
            end
        | None =>
            next ← attempt (pull (cf_outer self));
            match next with
            | Return next_iterable =>
                iter ← pure (iter_of next_iterable);
                _ ← modify_self (cf_with_inner (Some iter));
                advance_chain_from_iterable fuel
            | Raise e =>
                _ ← modify_self cf_finish;
                if is_stop_iteration e then mret None else raise e
            | Panicked => pure Panicked
            | OutOfFuel => pure OutOfFuel
            end
        end
  end.

(** ** islice *)

Record Islice := {
  is_iter : nat;
  is_skip : Z;
  is_initial_skip : bool;
  is_exhausted : bool;
  is_remaining_stop : option Z;
  is_step : Z;
}.

(** What [__index__] gives for an argument: nothing, a machine integer, a big
    integer, or an exception. *)
Inductive slot_value : Type :=
  | SlotNone
  | SlotInt (n : Z)
  | SlotBigInt
  | SlotError.

Definition slot_error (slot : string) (coerced_negative_in_range : bool) : PyError :=
  ValueError
    (if (slot =? "step")%string then "Step for islice() must be a positive integer or None."
     else if (slot =? "stop")%string && negb coerced_negative_in_range
     then "Stop argument for islice() must be None or an integer: 0 <= x <= sys.maxsize."
     else "Indices for islice() must be None or an integer: 0 <= x <= sys.maxsize.").

Definition slice_arg (value : slot_value) (slot : string) : outcome (option Z) :=
  match value with
  | SlotNone => Return None
  | SlotInt number => if (0 <=? number)%Z then Return (Some number) else Raise (slot_error slot (number <=? -2)%Z)
  | SlotBigInt => Raise (slot_error slot false)
  | SlotError => Raise (slot_error slot false)
  end.

Definition islice_init (iter : nat) (args : list slot_value) : outcome Islice :=
  '(start, stop, step) ←
    match args with
    | [stop] => stop ← slice_arg stop "stop"; Return (0%Z, stop, 1%Z)
    | [start; stop] => start ← slice_arg start "start"; stop ← slice_arg stop "stop"; Return (default 0%Z start, stop, 1%Z)
    | [start; stop; step] =>
        start ← slice_arg start "start"; stop ← slice_arg stop "stop"; step ← slice_arg step "step";
        Return (default 0%Z start, stop, default 1%Z step)
    | [] => Raise (TypeError "islice expected at least 2 arguments, got 1")
    | _ => Raise (TypeError ("islice expected at most 4 arguments, got " +:+ pretty (length args + 1)%nat))
    end;
  if match stop with Some s => (s <? 0)%Z | None => false end || (start <? 0)%Z
  then Raise (ValueError "Indices for islice() must be None or an integer: 0 <= x <= sys.maxsize.")
  else if (step <=? 0)%Z then Raise (ValueError "Step for islice() must be a positive integer or None.")
  else
    remaining ←
      match stop with
      | Some s => difference ← lift (i64_exact (s - start)); Return (Some (Z.max difference 0))
      | None => Return None
      end;
    Return {| is_iter := iter; is_skip := start; is_initial_skip := true; is_exhausted := false;
              is_remaining_stop := remaining; is_step := step |}.

Definition is_exhaust (self : Islice) : Islice :=
  {| is_iter := is_iter self; is_skip := is_skip self; is_initial_skip := is_initial_skip self; is_exhausted := true;
     is_remaining_stop := is_remaining_stop self; is_step := is_step self |}.
Definition is_skipped (self : Islice) : Islice :=
  {| is_iter := is_iter self; is_skip := 0; is_initial_skip := false; is_exhausted := is_exhausted self;
     is_remaining_stop := is_remaining_stop self; is_step := is_step self |}.
Definition is_yielded (skip : Z) (remaining : option Z) (self : Islice) : Islice :=
  {| is_iter := is_iter self; is_skip := skip; is_initial_skip := is_initial_skip self; is_exhausted := is_exhausted self;
     is_remaining_stop := remaining; is_step := is_step self |}.

(** The next item, or the end of the slice for any exception. *)
Definition islice_pull (iter : nat) : prog (Islice * World) V :=
  next ← attempt (pull iter);
  match next with
  | Raise e => _ ← modify_self is_exhaust; raise e
  | other => pure other
  end.

(** [while skip > target_skip] *)
Fixpoint islice_discard (n : nat) (iter : nat) (initial_skip : bool) (remaining : option Z) : prog (Islice * World) (option Z) :=
  match n with
  | O => mret remaining
  | S n =>
      _ ← islice_pull iter;
      islice_discard n iter initial_skip (if initial_skip then remaining else (λ r, (r - 1)%Z) <$> remaining)
  end.

Definition islice_next : prog (Islice * World) V :=
  self ← self_of;
  if is_exhausted self then raise stop_iteration
  else
    let skip := is_skip self in
    let skip_now :=
      if is_initial_skip self then skip
      else match is_remaining_stop self with Some r => Z.min skip r | None => skip end in
    remaining ← islice_discard (Z.to_nat skip_now) (is_iter self) (is_initial_skip self) (is_remaining_stop self);
    _ ← modify_self is_skipped;
    if match remaining with Some r => (r <=? 0)%Z | None => false end
    then _ ← modify_self is_exhaust; raise stop_iteration
    else
      item ← islice_pull (is_iter self);
      _ ← modify_self (is_yielded (is_step self - 1) ((λ r, (r - 1)%Z) <$> remaining));
      mret item.

(** ** count

    The numbers are values of the program, and so is their addition. *)

Record Count := { co_cur : V; co_step : V }.

Definition count_next (add : V → V → outcome V) : prog (Count * World) V :=
  self ← self_of;
  next ← pure (add (co_cur self) (co_step self));
  _ ← modify_self (λ self, {| co_cur := next; co_step := co_step self |});
  mret (co_cur self).

(** ** repeat *)

Record Repeat := { rp_object : V; rp_remaining : option Z }.

Definition repeat_init (object : V) (times : option Z) : Repeat :=
  {| rp_object := object; rp_remaining := (λ t, Z.max t 0) <$> times |}.

Definition repeat_next : prog (Repeat * World) V :=
  self ← self_of;
  match rp_remaining self with
  | None => mret (rp_object self)
  | Some n =>
      if (0 <? n)%Z then
        _ ← modify_self (λ self, {| rp_object := rp_object self; rp_remaining := Some (n - 1)%Z |});
        mret (rp_object self)
      else raise stop_iteration
  end.

(** ** cycle *)

Record Cycle := { cy_iter : nat; cy_cache : list V; cy_pos : nat; cy_first_pass : bool }.

Definition cycle_init (iter : nat) : Cycle := {| cy_iter := iter; cy_cache := []; cy_pos := 0; cy_first_pass := true |}.

Definition cycle_cached : prog (Cycle * World) V :=
  self ← self_of;
  if (length (cy_cache self) =? 0)%nat then raise stop_iteration
  else
    item ← pure (lift (vnth (cy_cache self) (cy_pos self mod length (cy_cache self))));
    _ ← modify_self (λ self', {| cy_iter := cy_iter self'; cy_cache := cy_cache self';
                                 cy_pos := (cy_pos self + 1) mod length (cy_cache self); cy_first_pass := cy_first_pass self' |});
    mret item.

Definition cycle_next : prog (Cycle * World) V :=
  self ← self_of;
  if cy_first_pass self then
    next ← attempt (pull (cy_iter self));
    match next with
    | Return v =>
        _ ← modify_self (λ self, {| cy_iter := cy_iter self; cy_cache := cy_cache self ++ [v]; cy_pos := cy_pos self; cy_first_pass := cy_first_pass self |});
        mret v
    | Raise e =>
        if is_stop_iteration e then
          _ ← modify_self (λ self, {| cy_iter := cy_iter self; cy_cache := cy_cache self; cy_pos := cy_pos self; cy_first_pass := false |});
          cycle_cached
        else raise e
    | Panicked => pure Panicked
    | OutOfFuel => pure OutOfFuel
    end
  else cycle_cached.

(** ** takewhile, dropwhile, filterfalse, compress

    [test] is the predicate followed by the test for truth, or that test alone
    where [filterfalse] has no predicate. *)

Record Takewhile := { tw_iter : nat; tw_done : bool }.

Definition takewhile_next (test : V → outcome bool) : prog (Takewhile * World) V :=
  self ← self_of;
  if tw_done self then raise stop_iteration
  else
    item ← pull (tw_iter self);
    verdict ← pure (test item);
    if (verdict : bool) then mret item
    else _ ← modify_self (λ self, {| tw_iter := tw_iter self; tw_done := true |}); raise stop_iteration.

Record Dropwhile := { dw_iter : nat; dw_started : bool }.

Fixpoint dropwhile_loop (test : V → outcome bool) (iter : nat) (fuel : nat) : prog (Dropwhile * World) V :=
  match fuel with
  | O => no_fuel
  | S fuel =>
      item ← pull iter;
      verdict ← pure (test item);
      if (verdict : bool) then dropwhile_loop test iter fuel
      else _ ← modify_self (λ self, {| dw_iter := dw_iter self; dw_started := true |}); mret item
  end.
Definition dropwhile_next (test : V → outcome bool) (fuel : nat) : prog (Dropwhile * World) V :=
  self ← self_of;
  if dw_started self then pull (dw_iter self) else dropwhile_loop test (dw_iter self) fuel.

Record Filterfalse := { ff_iter : nat }.

Fixpoint filterfalse_loop (test : V → outcome bool) (iter : nat) (fuel : nat) : prog (Filterfalse * World) V :=
  match fuel with
  | O => no_fuel
  | S fuel =>
      item ← pull iter;
      verdict ← pure (test item);
      if negb verdict then mret item else filterfalse_loop test iter fuel
  end.
Definition filterfalse_next (test : V → outcome bool) (fuel : nat) : prog (Filterfalse * World) V :=
  self ← self_of; filterfalse_loop test (ff_iter self) fuel.

Record Compress := { cm_data : nat; cm_selectors : nat }.

Fixpoint compress_loop (truthy_value : V → outcome bool) (data_iter sel_iter : nat) (fuel : nat) : prog (Compress * World) V :=
  match fuel with
  | O => no_fuel
  | S fuel =>
      item ← pull data_iter;
      selector ← pull sel_iter;
      selected ← pure (truthy_value selector);
      if (selected : bool) then mret item else compress_loop truthy_value data_iter sel_iter fuel
  end.
Definition compress_next (truthy_value : V → outcome bool) (fuel : nat) : prog (Compress * World) V :=
  self ← self_of; compress_loop truthy_value (cm_data self) (cm_selectors self) fuel.

(** ** starmap *)

Record Starmap := { st_iter : nat }.

Definition starmap_next (collect_iterable : V → outcome (list V)) (func : list V → outcome V) : prog (Starmap * World) V :=
  self ← self_of;
  pack ← pull (st_iter self);
  unpacked ← pure (collect_iterable pack);
  pure (func unpacked).

(** ** accumulate

    [func] is the function passed in, or addition; [acc] starts as [None]. *)

Record Accumulate := { ac_iter : nat; ac_acc : V; ac_use_initial : bool; ac_started : bool }.

Definition accumulate_init (none : V) (iter : nat) (initial : option V) : Accumulate :=
  {| ac_iter := iter; ac_acc := default none initial; ac_use_initial := bool_decide (is_Some initial); ac_started := false |}.

Definition ac_with_acc (acc : V) (self : Accumulate) : Accumulate :=
  {| ac_iter := ac_iter self; ac_acc := acc; ac_use_initial := ac_use_initial self; ac_started := ac_started self |}.
Definition ac_start (self : Accumulate) : Accumulate :=
  {| ac_iter := ac_iter self; ac_acc := ac_acc self; ac_use_initial := ac_use_initial self; ac_started := true |}.

Definition accumulate_next (func : V → V → outcome V) : prog (Accumulate * World) V :=
  self ← self_of;
  if negb (ac_started self) then
    _ ← modify_self ac_start;
    if ac_use_initial self then mret (ac_acc self)
    else first ← pull (ac_iter self); _ ← modify_self (ac_with_acc first); mret first
  else
    nxt ← pull (ac_iter self);
    new_acc ← pure (func (ac_acc self) nxt);
    _ ← modify_self (ac_with_acc new_acc);
    mret new_acc.

(** ** zip_longest *)

Record ZipLongest := { zl_iters : list nat; zl_fillvalue : V; zl_active : Z; zl_done : list bool }.

Definition zip_longest_init (iters : list nat) (fillvalue : V) : ZipLongest :=
  {| zl_iters := iters; zl_fillvalue := fillvalue; zl_active := Z.of_nat (length iters); zl_done := replicate (length iters) false |}.

(** The loop over the iterators and their flags: the tuple, the flags and the
    number of active iterators. *)
Fixpoint zip_longest_row (fillvalue : V) (columns : list (nat * bool)) (active : Z) : prog (ZipLongest * World) (list V * list bool * Z) :=
  match columns with
  | [] => mret ([], [], active)
  | (iter, true) :: columns =>
      '(tuple, done, active) ← zip_longest_row fillvalue columns active;
      mret (fillvalue :: tuple, true :: done, active)
  | (iter, false) :: columns =>
      next ← attempt (pull iter);
      match next with
      | Return v =>
          '(tuple, done, active) ← zip_longest_row fillvalue columns active;
          mret (v :: tuple, false :: done, active)
      | Raise e =>
          if is_stop_iteration e then
            '(tuple, done, active) ← zip_longest_row fillvalue columns (active - 1)%Z;
            mret (fillvalue :: tuple, true :: done, active)
          else raise e
      | Panicked => pure Panicked
      | OutOfFuel => pure OutOfFuel
      end
  end.

Definition zip_longest_next : prog (ZipLongest * World) (list V) :=
  self ← self_of;
  if (zl_active self =? 0)%Z then raise stop_iteration
  else if negb (length (zl_done self) =? length (zl_iters self))%nat then raise (internal "zip_longest")
  else
    '(tuple, new_done, new_active) ← zip_longest_row (zl_fillvalue self) (zip (zl_iters self) (zl_done self)) (zl_active self);
    _ ← modify_self (λ self, {| zl_iters := zl_iters self; zl_fillvalue := zl_fillvalue self; zl_active := new_active; zl_done := new_done |});
    if (new_active =? 0)%Z then raise stop_iteration else mret tuple.

(** ** pairwise *)

Record Pairwise := { pw_iter : nat; pw_prev : V; pw_started : bool; pw_exhausted : bool }.

Definition pairwise_init (none : V) (iter : nat) : Pairwise :=
  {| pw_iter := iter; pw_prev := none; pw_started := false; pw_exhausted := false |}.
Definition pw_exhaust (self : Pairwise) : Pairwise :=
  {| pw_iter := pw_iter self; pw_prev := pw_prev self; pw_started := pw_started self; pw_exhausted := true |}.
Definition pw_with_prev (prev : V) (self : Pairwise) : Pairwise :=
  {| pw_iter := pw_iter self; pw_prev := prev; pw_started := true; pw_exhausted := pw_exhausted self |}.

(** A pull that exhausts the instance when the source stops. *)
Definition pairwise_pull (iter : nat) : prog (Pairwise * World) V :=
  next ← attempt (pull iter);
  match next with
  | Raise e => if is_stop_iteration e then _ ← modify_self pw_exhaust; raise e else raise e
  | other => pure other
  end.

Definition pairwise_next : prog (Pairwise * World) (V * V) :=
  self ← self_of;
  if pw_exhausted self then raise stop_iteration
  else
    prev ← (if pw_started self then mret (pw_prev self)
            else prev ← pairwise_pull (pw_iter self); _ ← modify_self (pw_with_prev prev); mret prev);
    next ← attempt (pull (pw_iter self));
    match next with
    | Return next => _ ← modify_self (pw_with_prev next); mret (prev, next)
    | Raise e => if is_stop_iteration e then _ ← modify_self pw_exhaust; raise stop_iteration else raise e
    | Panicked => pure Panicked
    | OutOfFuel => pure OutOfFuel
    end.

(** ** batched *)

Record Batched := { ba_iter : nat; ba_n : Z; ba_exhausted : bool }.

Definition batched_init (iter : nat) (n : Z) : outcome Batched :=
  if (n <? 1)%Z then Raise (ValueError "n must be at least one") else Return {| ba_iter := iter; ba_n := n; ba_exhausted := false |}.

(** [for _ in 0..n], given what [batch] holds so far. *)
Fixpoint batched_loop (n : nat) (iter : nat) (batch : list V) : prog (Batched * World) (list V) :=
  match n with
  | O => mret batch
  | S n =>
      next ← attempt (pull iter);
      match next with
      | Return v => batched_loop n iter (batch ++ [v])
      | Raise e =>
          if is_stop_iteration e then
            _ ← modify_self (λ self, {| ba_iter := ba_iter self; ba_n := ba_n self; ba_exhausted := true |}); mret batch
          else raise e
      | Panicked => pure Panicked
      | OutOfFuel => pure OutOfFuel
      end
  end.

(** [Vec::with_capacity] panics for more bytes than an [isize] counts. *)
Definition with_capacity (n : Z) : outcome unit := if (n * 8 <? 2 ^ 63)%Z then Return tt else Panicked.

Definition batched_next : prog (Batched * World) (list V) :=
  self ← self_of;
  if ba_exhausted self then raise stop_iteration
  else
    _ ← pure (with_capacity (ba_n self));
    batch ← batched_loop (Z.to_nat (ba_n self)) (ba_iter self) [];
    if (length batch =? 0)%nat then raise stop_iteration else mret batch.

(** ** groupby

    The instance looks one element ahead; its groups share that look-ahead and
    carry the number of the group they were made for. *)

Record Groupby := {
  gb_iter : nat;
  gb_currkey : V;
  gb_currvalue : V;
  gb_has_curr : bool;
  gb_tgtkey : V;
  gb_has_tgt : bool;
  gb_id : Z;
  gb_exhausted : bool;
}.
Record Grouper := { gr_tgtkey : V; gr_id : Z }.

Definition groupby_init (none : V) (iter : nat) : Groupby :=
  {| gb_iter := iter; gb_currkey := none; gb_currvalue := none; gb_has_curr := false; gb_tgtkey := none; gb_has_tgt := false;
     gb_id := 0; gb_exhausted := false |}.

Definition gb_with_curr (key value : V) (self : Groupby) : Groupby :=
  {| gb_iter := gb_iter self; gb_currkey := key; gb_currvalue := value; gb_has_curr := true; gb_tgtkey := gb_tgtkey self;
     gb_has_tgt := gb_has_tgt self; gb_id := gb_id self; gb_exhausted := gb_exhausted self |}.
Definition gb_without_curr (exhausted : bool) (self : Groupby) : Groupby :=
  {| gb_iter := gb_iter self; gb_currkey := gb_currkey self; gb_currvalue := gb_currvalue self; gb_has_curr := false; gb_tgtkey := gb_tgtkey self;
     gb_has_tgt := gb_has_tgt self; gb_id := gb_id self; gb_exhausted := exhausted |}.
Definition gb_with_tgt (key : V) (self : Groupby) : Groupby :=
  {| gb_iter := gb_iter self; gb_currkey := gb_currkey self; gb_currvalue := gb_currvalue self; gb_has_curr := gb_has_curr self; gb_tgtkey := key;
     gb_has_tgt := true; gb_id := gb_id self; gb_exhausted := gb_exhausted self |}.
Definition gb_with_id (id : Z) (self : Groupby) : Groupby :=
  {| gb_iter := gb_iter self; gb_currkey := gb_currkey self; gb_currvalue := gb_currvalue self; gb_has_curr := gb_has_curr self; gb_tgtkey := gb_tgtkey self;
     gb_has_tgt := gb_has_tgt self; gb_id := id; gb_exhausted := gb_exhausted self |}.

Definition groupby_clear_curr (self : Groupby) : Groupby := gb_without_curr (gb_exhausted self) self.

Definition groupby_ensure_curr (compute_key : V → outcome V) : prog (Groupby * World) bool :=
  self ← self_of;
  if gb_has_curr self then mret true
  else
    next ← attempt (pull (gb_iter self));
    match next with
    | Return item =>
        key ← pure (compute_key item);
        _ ← modify_self (gb_with_curr key item);
        mret true
    | Raise e => if is_stop_iteration e then _ ← modify_self (gb_without_curr true); mret false else raise e
    | Panicked => pure Panicked
    | OutOfFuel => pure OutOfFuel
    end.

(** Skip what is left of the group handed out last; [false] at the end. *)
Fixpoint groupby_skip (compute_key : V → outcome V) (keys_equal : V → V → outcome bool) (fuel : nat) : prog (Groupby * World) bool :=
  match fuel with
  | O => no_fuel
  | S fuel =>
      loaded ← groupby_ensure_curr compute_key;
      if negb loaded then mret false
      else
        self ← self_of;
        same ← (if negb (gb_has_tgt self) then mret false else pure (keys_equal (gb_currkey self) (gb_tgtkey self)));
        if (same : bool) then _ ← modify_self groupby_clear_curr; groupby_skip compute_key keys_equal fuel
        else mret true
  end.

Definition groupby_next (compute_key : V → outcome V) (keys_equal : V → V → outcome bool) (fuel : nat) : prog (Groupby * World) (V * Grouper) :=
  self ← self_of;
  new_id ← pure (lift (i64_exact (gb_id self + 1)));
  _ ← modify_self (gb_with_id new_id);
  found ← groupby_skip compute_key keys_equal fuel;
  if negb found then raise stop_iteration
  else
    self ← self_of;
    _ ← modify_self (gb_with_tgt (gb_currkey self));
    mret (gb_currkey self, {| gr_tgtkey := gb_currkey self; gr_id := new_id |}).

(** [__next__] of a group, whose parent is the receiver here. *)
Definition grouper_next (compute_key : V → outcome V) (keys_equal : V → V → outcome bool) (group : Grouper) : prog (Groupby * World) V :=
  parent ← self_of;
  if negb (gb_id parent =? gr_id group)%Z then raise stop_iteration
  else
    loaded ← groupby_ensure_curr compute_key;
    if negb loaded then raise stop_iteration
    else
      parent ← self_of;
      same ← pure (keys_equal (gb_currkey parent) (gr_tgtkey group));
      if negb same then raise stop_iteration
      else _ ← modify_self groupby_clear_curr; mret (gb_currvalue parent).
End adaptors.

(** ** tee

    The iterators of one [tee] share the values between the slowest of them and
    the source.  The source is code of the program: while it runs, it may use
    the other iterators of the same [tee], or drop the last reference to one. *)

Section tee.
  Context {V : Type}.

Inductive tee_action : Type :=
  | TNext (slot : nat)
  | TDrop (slot : nat).

(** The source by the number of the call: what it does with the iterators, then
    its value or its exception. *)
Context (source : nat → list tee_action * (V + PyError)).

(** The shared state, and what the program around it has seen: how often its
    source was called, and what the calls of the iterators gave. *)
Record TeeSharedState := {
  te_buffer : list V;
  te_base : Z;
  te_positions : list (option Z);
  te_exhausted : bool;
  te_advancing : bool;
  te_calls : nat;
  te_seen : list (nat * outcome (option V));
}.

Definition tee_new (count : nat) : TeeSharedState :=
  {| te_buffer := []; te_base := 0; te_positions := replicate count (Some 0%Z); te_exhausted := false; te_advancing := false;
     te_calls := 0; te_seen := [] |}.

Definition te_with_buffer (buffer : list V) (base : Z) (self : TeeSharedState) : TeeSharedState :=
  {| te_buffer := buffer; te_base := base; te_positions := te_positions self; te_exhausted := te_exhausted self; te_advancing := te_advancing self;
     te_calls := te_calls self; te_seen := te_seen self |}.
Definition te_set_position (slot : nat) (position : option Z) (self : TeeSharedState) : TeeSharedState :=
  {| te_buffer := te_buffer self; te_base := te_base self; te_positions := <[slot := position]> (te_positions self); te_exhausted := te_exhausted self;
     te_advancing := te_advancing self; te_calls := te_calls self; te_seen := te_seen self |}.
Definition te_with_advancing (advancing : bool) (self : TeeSharedState) : TeeSharedState :=
  {| te_buffer := te_buffer self; te_base := te_base self; te_positions := te_positions self; te_exhausted := te_exhausted self; te_advancing := advancing;
     te_calls := te_calls self; te_seen := te_seen self |}.
Definition te_exhaust (self : TeeSharedState) : TeeSharedState :=
  {| te_buffer := te_buffer self; te_base := te_base self; te_positions := te_positions self; te_exhausted := true; te_advancing := te_advancing self;
     te_calls := te_calls self; te_seen := te_seen self |}.
Definition te_called (self : TeeSharedState) : TeeSharedState :=
  {| te_buffer := te_buffer self; te_base := te_base self; te_positions := te_positions self; te_exhausted := te_exhausted self; te_advancing := te_advancing self;
     te_calls := S (te_calls self); te_seen := te_seen self |}.
Definition te_see (slot : nat) (r : outcome (option V)) (self : TeeSharedState) : TeeSharedState :=
  {| te_buffer := te_buffer self; te_base := te_base self; te_positions := te_positions self; te_exhausted := te_exhausted self; te_advancing := te_advancing self;
     te_calls := te_calls self; te_seen := te_seen self ++ [(slot, r)] |}.

(** [iter().flatten().copied().min()] *)
Fixpoint least_position (positions : list (option Z)) : option Z :=
  match positions with
  | [] => None
  | None :: positions => least_position positions
  | Some p :: positions => Some (match least_position positions with Some q => Z.min p q | None => p end)
  end.

Definition reclaim_consumed_prefix (self : TeeSharedState) : TeeSharedState :=
  let next_base := default (saturating_add (te_base self) (vlen (te_buffer self))) (least_position (te_positions self)) in
  let discard := Z.min (saturating_sub next_base (te_base self)) (vlen (te_buffer self)) in
  te_with_buffer (drop (Z.to_nat discard) (te_buffer self)) next_base self.

(** [Drop for TeeCursor].  The buffer is borrowed only while an iterator looks
    at it, never while the source runs, so that [try_borrow_mut] fails only for a
    cursor that is dropped with the values of the buffer itself, when they are
    reclaimed; values own no cursors here. *)
Definition tee_drop (slot : nat) (self : TeeSharedState) : TeeSharedState :=
  reclaim_consumed_prefix (te_set_position slot None self).

Definition position_of (slot : nat) : prog TeeSharedState Z := λ self,
  (match te_positions self !! slot with Some (Some position) => Return position | _ => Raise (Runtime "inactive tee iterator") end, self).

(** Before the source is called: a value of the buffer, the end, or the source
    has to be called. *)
Definition tee_buffered (slot : nat) : prog TeeSharedState (option (option V)) :=
  position ← position_of slot;
  self ← get_self;
  let buffered_end := saturating_add (te_base self) (vlen (te_buffer self)) in
  if (position <? buffered_end)%Z then
    offset ← pure (lift (usize_sub position (te_base self)));
    value ← pure (lift (vnth (te_buffer self) (Z.to_nat offset)));
    _ ← modify (te_set_position slot (Some (saturating_add position 1)));
    _ ← modify reclaim_consumed_prefix;
    mret (Some (Some value))
  else if te_exhausted self then mret (Some None)
  else if te_advancing self then pure (Raise (Runtime "cannot re-enter the tee iterator"))
  else _ ← modify (te_with_advancing true); mret None.

(** After the source has returned. *)
Definition tee_received (slot : nat) (next : V + PyError) : prog TeeSharedState (option V) :=
  _ ← modify (te_with_advancing false);
  match next with
  | inl value =>
      position ← position_of slot;
      self ← get_self;
      _ ← modify (te_with_buffer (te_buffer self ++ [value]) (te_base self));
      _ ← modify (te_set_position slot (Some (saturating_add position 1)));
      _ ← modify reclaim_consumed_prefix;
      mret (Some value)
  | inr e => if is_stop_iteration e then _ ← modify te_exhaust; mret None else pure (Raise e)
  end.

(** What the source does with an iterator while the one at [busy] is waiting for
    it; its caller holds a reference to that one. *)
Definition during (busy : nat) (advance : nat → prog TeeSharedState (option V)) (action : tee_action) : prog TeeSharedState unit :=
  match action with
  | TDrop slot => if (slot =? busy)%nat then mret tt else modify (tee_drop slot)
  | TNext slot => λ self, let '(r, self) := advance slot self in (Return tt, te_see slot r self)
  end.

Fixpoint advance_tee (fuel : nat) (slot : nat) : prog TeeSharedState (option V) :=
  match fuel with
  | O => pure OutOfFuel
  | S fuel =>
      buffered ← tee_buffered slot;
      match buffered with
      | Some value => mret value
      | None =>
          self ← get_self;
          let '(actions, next) := source (te_calls self) in
          _ ← modify te_called;
          _ ← for_each actions (during slot (advance_tee fuel));
          tee_received slot next
      end
  end.

(** The program outside of the source: it calls and drops the iterators. *)
Definition tee_perform (fuel : nat) (action : tee_action) : prog TeeSharedState unit :=
  match action with
  | TDrop slot => modify (tee_drop slot)
  | TNext slot => λ self, let '(r, self) := advance_tee fuel slot self in (Return tt, te_see slot r self)
  end.
Definition tee_run (fuel : nat) (actions : list tee_action) : prog TeeSharedState unit := for_each actions (tee_perform fuel).
End tee.
