(* ===== verification/ItertoolsSpec.v ===== *)
(** What the lazy iterators of itertools do with the values of their sources,
    and what all its iterators promise, with an evaluation of each promise. *)

From stdpp Require Import functions.
From S2P Require Import Prelude Outcome Combinatorics CombinatoricsSpec Itertools.

#[local] Open Scope Z_scope.

(** ** tee *)

Lemma least_position_spec positions :
  match least_position positions with
  | Some p => (∃ i, positions !! i = Some (Some p)) ∧ ∀ i q, positions !! i = Some (Some q) → p ≤ q
  | None => ∀ i q, positions !! i ≠ Some (Some q)
  end.
Proof.
  induction positions as [|[p|] positions IH]; [done| |]; cbn [least_position].
  - destruct (least_position positions) as [q|].
    + destruct IH as [[i Hi] Hle]. split.
      * destruct (Z.min_spec p q) as [[_ ->]|[_ ->]]; [by exists 0%nat|by exists (S i)].
      * intros [|j] r Hr; [cbn in Hr; simplify_eq; lia|]. specialize (Hle j r Hr). lia.
    + split; [by exists 0%nat|]. intros [|j] r Hr; [cbn in Hr; simplify_eq; lia|]. by destruct (IH j r).
  - destruct (least_position positions) as [q|].
    + destruct IH as [[i Hi] Hle]. split; [by exists (S i)|]. intros [|j] r Hr; [done|]. by apply (Hle j).
    + intros [|j] r Hr; [done|]. by apply (IH j r).
Qed.

Section tee.
  Context {V : Type} (source : nat → list tee_action * (V + PyError)).
  Implicit Types (s : TeeSharedState (V := V)) (h : list V).

(** The values that the source gave in its first calls, and those that an
    iterator gave. *)
Definition pulled (calls : nat) : list V := omap (λ k, match (source k).2 with inl v => Some v | inr _ => None end) (seq 0 calls).
Definition received (slot : nat) (seen : list (nat * outcome (option V))) : list V :=
  omap (λ '(slot', r), if (slot' =? slot)%nat then match r with Return (Some v) => Some v | _ => None end else None) seen.

Lemma received_see slot seen slot' r :
  received slot (seen ++ [(slot', r)]) =
    received slot seen ++ (if (slot' =? slot)%nat then match r with Return (Some v) => [v] | _ => [] end else []).
Proof using Type. unfold received. rewrite omap_app. f_equal. cbn. destruct (slot' =? slot)%nat; [|done]. by destruct r as [[v|]| | |]. Qed.

(** What an iterator answers. *)
Definition answered h (exhausted : bool) seen (slot : nat) (r : outcome (option V)) : Prop :=
  match r with
  | Return (Some _) | Raise _ => True
  | Return None => exhausted = true ∧ received slot seen = h
  | _ => False
  end.

(** The shared state when the source has given [h], with values kept from
    [te_base] on that every live iterator may still need. *)
Record tee_keeps h s : Prop := {
  keeps_position slot p : te_positions s !! slot = Some (Some p) → te_base s ≤ p ≤ vlen h ∧ received slot (te_seen s) = take (Z.to_nat p) h;
  keeps_prefix slot : received slot (te_seen s) `prefix_of` h;
  keeps_base : 0 ≤ te_base s ≤ vlen h;
  keeps_buffer : te_buffer s = drop (Z.to_nat (te_base s)) h;
  keeps_seen slot r : (slot, r) ∈ te_seen s → answered h (te_exhausted s) (te_seen s) slot r;
}.
(** Nothing is kept that no live iterator needs. *)
Definition tee_ok h s : Prop := tee_keeps h s ∧ te_base s = default (vlen h) (least_position (te_positions s)).

Lemma vlen_drop {A} (l : list A) z : 0 ≤ z ≤ vlen l → vlen (drop (Z.to_nat z) l) = vlen l - z.
Proof using Type. unfold vlen. rewrite length_drop. lia. Qed.

Lemma keeps_end h s : tee_keeps h s → vlen h ≤ usize_max → saturating_add (te_base s) (vlen (te_buffer s)) = vlen h.
Proof using Type. intros Hk Hh. destruct (keeps_base _ _ Hk). rewrite (keeps_buffer _ _ Hk), vlen_drop by done. unfold saturating_add. lia. Qed.

Lemma reclaim_ok h s : tee_keeps h s → vlen h ≤ usize_max → tee_ok h (reclaim_consumed_prefix s).
Proof using Type.
  intros Hk Hh. unfold reclaim_consumed_prefix. rewrite (keeps_end h s Hk Hh).
  set (next_base := default (vlen h) (least_position (te_positions s))).
  assert (Hb : te_base s ≤ next_base ≤ vlen h ∧ ∀ slot p, te_positions s !! slot = Some (Some p) → next_base ≤ p).
  { unfold next_base. pose proof (least_position_spec (te_positions s)) as Hl. destruct (least_position (te_positions s)) as [q|]; cbn.
    - destruct Hl as [[i Hi] Hle]. destruct (keeps_position _ _ Hk _ _ Hi). split; [lia|]. intros slot p Hp. by eapply Hle.
    - pose proof (keeps_base _ _ Hk). split; [lia|]. intros slot p Hp. by destruct (Hl slot p). }
  destruct Hb as [Hb Hmin]. pose proof (keeps_base _ _ Hk) as Hb0.
  assert (Hv : vlen (te_buffer s) = vlen h - te_base s) by (rewrite (keeps_buffer _ _ Hk); by apply vlen_drop).
  unfold saturating_sub. replace (Z.min (Z.max 0 (next_base - te_base s)) (vlen (te_buffer s))) with (next_base - te_base s) by lia.
  split; [|done]. constructor; cbn.
  - intros slot p Hp. destruct (keeps_position _ _ Hk _ _ Hp) as [? Hr]. split; [|exact Hr]. split; [by eapply Hmin|lia].
  - apply (keeps_prefix _ _ Hk).
  - lia.
  - rewrite (keeps_buffer _ _ Hk), drop_drop. f_equal. lia.
  - apply (keeps_seen _ _ Hk).
Qed.

(** A live iterator takes the value it is at. *)
Lemma take_value h s slot p v :
  tee_keeps h s → vlen h ≤ usize_max → te_positions s !! slot = Some (Some p) → h !! Z.to_nat p = Some v →
  tee_ok h (te_see slot (Return (Some v)) (reclaim_consumed_prefix (te_set_position slot (Some (saturating_add p 1)) s))).
Proof using Type.
  intros Hk Hh Hp Hv. destruct (keeps_position _ _ Hk _ _ Hp) as [Hpb Hr].
  assert (Hlt : p < vlen h) by (apply lookup_lt_Some in Hv; unfold vlen; pose proof (keeps_base _ _ Hk); lia).
  pose proof (keeps_base _ _ Hk) as Hb. unfold saturating_add. rewrite Z.min_r by lia.
  apply (reclaim_ok h (te_see slot (Return (Some v)) (te_set_position slot (Some (p + 1)) s))); [|done].
  assert (Hrec : received slot (te_seen s ++ [(slot, Return (Some v))]) = take (Z.to_nat (p + 1)) h).
  { rewrite received_see, Nat.eqb_refl, Hr. replace (Z.to_nat (p + 1)) with (S (Z.to_nat p)) by lia. by rewrite (take_S_r _ _ v). }
  constructor; cbn -[received].
  - intros slot' q Hq. destruct (decide (slot' = slot)) as [->|Hne].
    + rewrite list_lookup_insert_eq in Hq by (by eapply lookup_lt_Some). simplify_eq. split; [lia|done].
    + rewrite list_lookup_insert_ne in Hq by done. destruct (keeps_position _ _ Hk _ _ Hq) as [? Hr']. split; [done|].
      rewrite received_see. destruct (Nat.eqb_spec slot slot'); [done|]. by rewrite app_nil_r.
  - intros slot'. destruct (decide (slot' = slot)) as [->|Hne]; [rewrite Hrec; apply prefix_take|].
    rewrite received_see. destruct (Nat.eqb_spec slot slot'); [done|]. rewrite app_nil_r. apply (keeps_prefix _ _ Hk).
  - done.
  - apply (keeps_buffer _ _ Hk).
  - intros slot' r [Hin|Hin]%elem_of_app; [|apply list_elem_of_singleton in Hin; by simplify_eq].
    pose proof (keeps_seen _ _ Hk _ _ Hin) as Ha. destruct r as [[v'|]| | |]; try done. destruct Ha as [He Ha]. split; [done|].
    rewrite received_see. destruct (Nat.eqb_spec slot slot') as [->|]; [|by rewrite app_nil_r].
    rewrite Hr in Ha. apply (f_equal length) in Ha. rewrite length_take in Ha. unfold vlen in Hlt. lia.
Qed.

Lemma see_other h s slot r :
  tee_ok h s → answered h (te_exhausted s) (te_seen s) slot r → (∀ v, r ≠ Return (Some v)) → tee_ok h (te_see slot r s).
Proof using Type.
  intros [Hk Hb] Ha Hr. split; [|done].
  assert (Hsame : ∀ slot', received slot' (te_seen s ++ [(slot, r)]) = received slot' (te_seen s)).
  { intros slot'. rewrite received_see. destruct (slot =? slot')%nat; [|by rewrite app_nil_r]. destruct r as [[v|]| | |]; rewrite ?app_nil_r; [by destruct (Hr v)|done..]. }
  constructor; cbn -[received]; try setoid_rewrite Hsame; try apply Hk.
  intros slot' r' [Hin|Hin]%elem_of_app.
  - pose proof (keeps_seen _ _ Hk _ _ Hin) as Ha'. unfold answered in *. destruct r' as [[?|]| | |]; [done| |done..]. by rewrite Hsame.
  - apply list_elem_of_singleton in Hin. simplify_eq. unfold answered in *. destruct r as [[?|]| | |]; [done| |done..]. by rewrite Hsame.
Qed.

Lemma drop_ok h s slot : tee_ok h s → vlen h ≤ usize_max → tee_ok h (tee_drop slot s).
Proof using Type.
  intros [Hk _] Hh. apply reclaim_ok; [|done]. constructor; cbn -[received]; try apply Hk.
  intros slot' p Hp. apply list_lookup_insert_Some in Hp as [(_ & [=] & _)|[_ Hp]]. by apply (keeps_position _ _ Hk).
Qed.

Lemma push_ok h s v :
  tee_ok h s → te_exhausted s = false → tee_keeps (h ++ [v]) (te_with_buffer (te_buffer s ++ [v]) (te_base s) s).
Proof using Type.
  intros [Hk _] He. pose proof (keeps_base _ _ Hk). constructor; cbn -[received].
  - intros slot p Hp. destruct (keeps_position _ _ Hk _ _ Hp) as [? ->]. rewrite vlen_app. unfold vlen in *. cbn. split; [lia|].
    rewrite take_app_le by lia. done.
  - intros slot. apply prefix_app_r, (keeps_prefix _ _ Hk).
  - rewrite vlen_app. unfold vlen in *. cbn. lia.
  - rewrite (keeps_buffer _ _ Hk), drop_app_le by (unfold vlen in *; lia). done.
  - intros slot r Hin. pose proof (keeps_seen _ _ Hk _ _ Hin) as Ha. unfold answered in *. rewrite He in *. by destruct r as [[?|]| | |]; [|destruct Ha|..].
Qed.

(** Before the source is called. *)
Lemma tee_buffered_spec h s slot :
  tee_ok h s → vlen h ≤ usize_max →
  match te_positions s !! slot with
  | Some (Some p) =>
      match h !! Z.to_nat p with
      | Some v => ∃ s', tee_buffered slot s = (Return (Some (Some v)), s') ∧ tee_ok h (te_see slot (Return (Some v)) s') ∧
          te_positions s' = <[slot := Some (p + 1)]> (te_positions s) ∧
          te_calls s' = te_calls s ∧ te_advancing s' = te_advancing s ∧ te_exhausted s' = te_exhausted s
      | None => p = vlen h ∧ received slot (te_seen s) = h ∧
          tee_buffered slot s = if te_exhausted s then (Return (Some None), s)
                                else if te_advancing s then (Raise (Runtime "cannot re-enter the tee iterator"), s)
                                else (Return None, te_with_advancing true s)
      end
  | _ => tee_buffered slot s = (Raise (Runtime "inactive tee iterator"), s)
  end.
Proof using Type.
  intros [Hk Hb] Hh. unfold tee_buffered, mbind, prog_bind, position_of, get_self, modify, pure, mret, prog_ret.
  destruct (te_positions s !! slot) as [[p|]|] eqn:Hp; [|done..]. destruct (keeps_position _ _ Hk _ _ Hp) as [Hpb Hr].
  pose proof (keeps_base _ _ Hk) as Hbase. rewrite (keeps_end h s Hk Hh).
  destruct (h !! Z.to_nat p) as [v|] eqn:Hv.
  - assert (Hlt : p < vlen h) by (apply lookup_lt_Some in Hv; unfold vlen; lia).
    destruct (Z.ltb_spec p (vlen h)); [|lia]. unfold usize_sub. destruct (Z.leb_spec (te_base s) p); [|lia]. cbn [lift].
    rewrite (vnth_lookup _ _ v); [|rewrite (keeps_buffer _ _ Hk), lookup_drop; rewrite <- Hv; f_equal; lia]. cbn [lift].
    eexists. split; [done|]. split; [by apply take_value|]. unfold saturating_add. rewrite Z.min_r by lia. done.
  - assert (Hge : p = vlen h) by (apply lookup_ge_None in Hv; unfold vlen in *; lia).
    destruct (Z.ltb_spec p (vlen h)); [lia|]. split; [done|]. split; [|by destruct (te_exhausted s), (te_advancing s)].
    rewrite Hr. apply take_ge. unfold vlen in *. lia.
Qed.

(** While the source runs, the other iterators give what is left of [h]. *)
Lemma advance_busy fuel h s slot busy :
  tee_ok h s → vlen h ≤ usize_max → te_advancing s = true → te_exhausted s = false → te_positions s !! busy = Some (Some (vlen h)) →
  ∃ r s', advance_tee source (S fuel) slot s = (r, s') ∧ tee_ok h (te_see slot r s') ∧ te_positions s' !! busy = Some (Some (vlen h)) ∧
    te_calls s' = te_calls s ∧ te_advancing s' = true ∧ te_exhausted s' = false.
Proof using Type.
  intros Hok Hh Ha He Hb. pose proof (tee_buffered_spec h s slot Hok Hh) as Hs. cbn [advance_tee]. unfold mbind, prog_bind.
  destruct (te_positions s !! slot) as [[p|]|] eqn:Hp.
  2-3: rewrite Hs; eexists _, s; split_and!; try done; by apply see_other.
  destruct (h !! Z.to_nat p) as [v|] eqn:Hv.
  - destruct Hs as (s' & -> & Hok' & Hpos & Hc & Ha' & He'). eexists _, s'. split; [done|]. rewrite Ha', He', Hpos. split_and!; try done.
    destruct (decide (slot = busy)) as [->|Hne]; [|by rewrite list_lookup_insert_ne].
    rewrite Hb in Hp. simplify_eq. apply lookup_lt_Some in Hv. unfold vlen in Hv. lia.
  - destruct Hs as (-> & Hr & ->). rewrite He, Ha. eexists _, s. split_and!; try done. by apply see_other.
Qed.

Lemma during_ok fuel h busy actions s :
  tee_ok h s → vlen h ≤ usize_max → te_advancing s = true → te_exhausted s = false → te_positions s !! busy = Some (Some (vlen h)) →
  ∃ s', for_each actions (during busy (advance_tee source (S fuel))) s = (Return tt, s') ∧ tee_ok h s' ∧
    te_positions s' !! busy = Some (Some (vlen h)) ∧ te_calls s' = te_calls s ∧ te_advancing s' = true ∧ te_exhausted s' = false.
Proof using Type.
  revert s. induction actions as [|action actions IH]; intros s Hok Hh Ha He Hb; [by exists s|].
  cbn [for_each]. unfold mbind, prog_bind. destruct action as [slot|slot]; cbn [during].
  - destruct (advance_busy fuel h s slot busy Hok Hh Ha He Hb) as (r & s' & -> & Hok' & Hb' & Hc & Ha' & He').
    destruct (IH _ Hok' Hh Ha' He' Hb') as (s'' & -> & ? & ? & Hc'' & ? & ?). exists s''. split_and!; try done. by rewrite Hc''.
  - destruct (Nat.eqb_spec slot busy) as [->|Hne]; [by apply IH|]. unfold modify.
    destruct (IH (tee_drop slot s)) as (s'' & -> & ? & ? & ? & ? & ?); [by apply drop_ok|done|done|done| |by exists s''].
    cbn. by rewrite list_lookup_insert_ne.
Qed.

Lemma vlen_pulled n : vlen (pulled n) ≤ Z.of_nat n.
Proof using Type.
  unfold pulled, vlen. assert (Hlen : ∀ l : list nat, (length (omap (λ k, match (source k).2 with inl v => Some v | inr _ => None end) l) ≤ length l)%nat).
  { induction l as [|k l IH]; [done|]. cbn. destruct (source k).2; cbn in *; lia. }
  specialize (Hlen (seq 0 n)). rewrite length_seq in Hlen. lia.
Qed.

Lemma pulled_S n : pulled (S n) = pulled n ++ match (source n).2 with inl v => [v] | inr _ => [] end.
Proof using Type. unfold pulled. rewrite seq_S, omap_app. cbn. by destruct (source n).2. Qed.

(** A call from outside of the source. *)
Lemma advance_idle fuel s slot :
  tee_ok (pulled (te_calls s)) s → Z.of_nat (te_calls s) < usize_max → te_advancing s = false →
  ∃ r s', advance_tee source (S (S fuel)) slot s = (r, s') ∧ tee_ok (pulled (te_calls s')) (te_see slot r s') ∧ te_advancing s' = false ∧
    (te_calls s' ≤ S (te_calls s))%nat ∧
    ∀ p v, te_positions s !! slot = Some (Some p) → pulled (te_calls s) !! Z.to_nat p = Some v → r = Return (Some v) ∧ te_calls s' = te_calls s.
Proof using Type.
  intros Hok Hn Ha. pose proof (vlen_pulled (te_calls s)) as Hv. set (h := pulled (te_calls s)) in *.
  assert (Hh : vlen h ≤ usize_max) by lia. pose proof (tee_buffered_spec h s slot Hok Hh) as Hs.
  change (advance_tee source (S (S fuel)) slot s) with ((buffered ← tee_buffered slot;
    match buffered with
    | Some value => mret value
    | None => self ← get_self; let '(actions, next) := source (te_calls self) in
        _ ← modify te_called; _ ← for_each actions (during slot (advance_tee source (S fuel))); tee_received slot next
    end) s). unfold mbind at 1, prog_bind at 1.
  destruct (te_positions s !! slot) as [[p|]|] eqn:Hp.
  2-3: rewrite Hs; eexists _, s; split_and!; try done; [by apply see_other|lia].
  destruct (h !! Z.to_nat p) as [v|] eqn:Hpv.
  { destruct Hs as (s' & -> & Hok' & _ & Hc & Ha' & _). eexists _, s'. split; [done|]. rewrite Hc, Ha'. split_and!; try done; [lia|].
    intros q w Hq Hw. by simplify_eq. }
  destruct Hs as (-> & Hr & ->). rewrite Ha. destruct (te_exhausted s) eqn:He.
  { eexists _, s. split; [done|]. split_and!; try done; [|lia|intros; by simplify_eq]. apply see_other; [done| |done]. by rewrite He. }
  unfold mbind at 1, prog_bind at 1. cbn [get_self te_calls te_with_advancing].
  destruct (source (te_calls s)) as [actions next] eqn:Hsrc. unfold mbind, prog_bind. cbn [modify].
  destruct (during_ok fuel h slot actions (te_called (te_with_advancing true s))) as (s1 & -> & Hok1 & Hp1 & Hc1 & _ & He1); [|done..|].
  { destruct Hok as [Hk Hb]. split; [|exact Hb]. destruct Hk. by constructor. }
  assert (Hnext : pulled (S (te_calls s)) = h ++ match next with inl v => [v] | inr _ => [] end) by (rewrite pulled_S, Hsrc; done).
  change (te_calls (te_called (te_with_advancing true s))) with (S (te_calls s)) in Hc1.
  unfold tee_received, mbind, prog_bind, modify, position_of, get_self, mret, prog_ret, pure.
  destruct next as [v|e].
  - cbn [te_with_advancing te_positions]. rewrite Hp1. eexists _, _. split; [done|]. cbn [te_calls te_advancing te_see reclaim_consumed_prefix te_with_buffer te_set_position te_with_advancing].
    rewrite Hc1, Hnext. split_and!; [|done|done|intros; by simplify_eq].
    apply (take_value (h ++ [v]) (te_with_buffer (te_buffer s1 ++ [v]) (te_base s1) (te_with_advancing false s1)) slot (vlen h) v).
    + apply (push_ok h (te_with_advancing false s1)); [|done]. destruct Hok1 as [Hk Hb]. split; [|exact Hb]. destruct Hk. by constructor.
    + rewrite vlen_app. unfold vlen in *. cbn. lia.
    + done.
    + unfold vlen. rewrite Nat2Z.id. by rewrite list_lookup_middle.
  - rewrite app_nil_r in Hnext.
    assert (Hr1 : received slot (te_seen s1) = h).
    { destruct Hok1 as [Hk _]. destruct (keeps_position _ _ Hk _ _ Hp1) as [_ ->]. apply take_ge. unfold vlen. lia. }
    assert (Hok2 : ∀ b, tee_ok h (te_with_advancing b s1)) by (intros b; destruct Hok1 as [Hk Hb]; split; [destruct Hk; by constructor|exact Hb]).
    destruct (is_stop_iteration e).
    + eexists _, _. split; [done|]. cbn [te_calls te_exhaust te_see te_with_advancing te_advancing]. rewrite Hc1, Hnext.
      split_and!; [|done|done|intros; by simplify_eq]. apply see_other; [|done|done].
      destruct (Hok2 false) as [Hk Hb]. split; [|exact Hb]. destruct Hk as [? ? ? ? Hseen]. constructor; [done..|].
      intros slot' r Hin. specialize (Hseen _ _ Hin). unfold answered in *. cbn in *. rewrite He1 in Hseen. by destruct r as [[?|]| | |]; [|destruct Hseen|..].
    + eexists _, _. split; [done|]. cbn [te_calls te_see te_with_advancing te_advancing]. rewrite Hc1, Hnext.
      split_and!; [|done|done|intros; by simplify_eq]. by apply see_other.
Qed.

Lemma tee_new_ok count : tee_ok [] (tee_new (V := V) count).
Proof using Type.
  split.
  - constructor; cbn -[received]; [|done|by unfold vlen|done|intros slot r Hin; by apply elem_of_nil in Hin].
    intros slot p [[= ->] _]%lookup_replicate. split; [by unfold vlen|done].
  - cbn. destruct count; [done|]. cbn. clear. induction count; [done|]. cbn. destruct (least_position _); cbn in *; lia.
Qed.

Lemma tee_run_ok fuel actions s :
  tee_ok (pulled (te_calls s)) s → te_advancing s = false → Z.of_nat (te_calls s) + vlen actions < usize_max →
  ∃ s', tee_run source (S (S fuel)) actions s = (Return tt, s') ∧ tee_ok (pulled (te_calls s')) s' ∧ te_advancing s' = false ∧
    Z.of_nat (te_calls s') ≤ Z.of_nat (te_calls s) + vlen actions.
Proof using Type.
  revert s. induction actions as [|action actions IH]; intros s Hok Ha Hn; [exists s; split_and!; [done..|]; unfold vlen; lia|].
  rewrite vlen_cons in Hn |- *. pose proof (vlen_nonneg actions). unfold tee_run. cbn [for_each]. unfold mbind, prog_bind.
  destruct action as [slot|slot]; cbn [tee_perform].
  - destruct (advance_idle fuel s slot Hok ltac:(lia) Ha) as (r & s' & -> & Hok' & Ha' & Hc & _).
    destruct (IH (te_see slot r s') Hok' Ha') as (s'' & Hrun & ? & ? & Hc''); [change (te_calls (te_see slot r s')) with (te_calls s'); lia|].
    exists s''. split; [exact Hrun|]. split_and!; try done. change (te_calls (te_see slot r s')) with (te_calls s') in Hc''. lia.
  - unfold modify. destruct (IH (tee_drop slot s)) as (s'' & Hrun & ? & ? & Hc'').
    + apply drop_ok; [done|]. pose proof (vlen_pulled (te_calls s)). change (te_calls (tee_drop slot s)) with (te_calls s). lia.
    + done.
    + change (te_calls (tee_drop slot s)) with (te_calls s). lia.
    + exists s''. split; [exact Hrun|]. split_and!; try done. change (te_calls (tee_drop slot s)) with (te_calls s) in Hc''. lia.
Qed.
End tee.

(** ** Iterators over lists *)

Definition list_stream {V} (l : list V) (k : nat) : V + PyError := match l !! k with Some v => inl v | None => inr stop_iteration end.

(** The calls that are left of a list after [c] of them. *)
Lemma drop_cons {A} (l : list A) c x rest : drop c l = x :: rest → l !! c = Some x ∧ drop (S c) l = rest.
Proof.
  intros Hd. assert (Hx : l !! c = Some x) by (rewrite <- (Nat.add_0_r c), <- lookup_drop, Hd; done).
  split; [done|]. rewrite (drop_S _ _ _ Hx) in Hd. by simplify_eq.
Qed.

Lemma drop_nil_lookup {A} (l : list A) c : drop c l = [] → l !! c = None.
Proof. intros Hd. rewrite <- (Nat.add_0_r c), <- lookup_drop, Hd. done. Qed.

Section adaptors.
  Context {V : Type} (streams : nat → nat → V + PyError).

Lemma pull_eq {S} it l (s : S) (w : World) :
  streams it = list_stream l →
  pull streams it (s, w) = (match l !! w it with Some v => Return v | None => Raise stop_iteration end, (s, <[it := Datatypes.S (w it)]> w)).
Proof. intros Hs. unfold pull, on_part, with_snd, call_next. cbn. rewrite Hs. unfold list_stream. by destruct (l !! w it). Qed.

(** *** islice *)

Section islice.
  Context (it : nat) (l : list V) (Hit : streams it = list_stream l).
  Context (start : nat) (stop : option nat) (step : nat) (Hstep : (0 < step)%nat).

(** The index of the item with number [k], and the items from it on. *)
Definition slice_index (k : nat) : nat := start + k * step.
Definition before_stop (i : nat) : bool := match stop with Some s => (i <? s)%nat | None => true end.
Definition slice_item (k : nat) : option V := if before_stop (slice_index k) then l !! slice_index k else None.
Definition slice_items (k : nat) : list V := omap slice_item (seq k (length l - k)).

Lemma slice_items_unfold k : slice_items k = match slice_item k with Some v => v :: slice_items (S k) | None => [] end.
Proof using Hstep.
  unfold slice_items. destruct (decide (k < length l)%nat) as [Hlt|Hge].
  - replace (length l - k)%nat with (S (length l - S k)) by lia. cbn [seq omap list_omap]. destruct (slice_item k) as [v|] eqn:Hk; [done|].
    apply elem_of_nil_inv. intros v Hv. apply list_elem_of_omap in Hv as (j & Hj & Hv). apply elem_of_seq in Hj.
    unfold slice_item, before_stop, slice_index in *. assert (start + k * step ≤ start + j * step)%nat by nia.
    destruct stop as [s|].
    + destruct (Nat.ltb_spec (start + j * step) s); [|done]. destruct (Nat.ltb_spec (start + k * step) s); [|lia].
      apply lookup_lt_Some in Hv. apply lookup_ge_None in Hk. lia.
    + apply lookup_lt_Some in Hv. apply lookup_ge_None in Hk. lia.
  - replace (length l - k)%nat with 0%nat by lia. unfold slice_item, slice_index. rewrite lookup_ge_None_2 by nia. by destruct (before_stop _).
Qed.

(** How far the source was read before the item with number [k] is asked for. *)
Definition read_to (k : nat) : nat := match k with O => 0 | S k => slice_index k + 1 end.

Definition islice_state (k : nat) : Islice :=
  {| is_iter := it;
     is_skip := match k with O => Z.of_nat start | S _ => Z.of_nat step - 1 end;
     is_initial_skip := match k with O => true | S _ => false end;
     is_exhausted := false;
     is_remaining_stop := (λ s, match k with O => Z.max (Z.of_nat s - Z.of_nat start) 0 | S _ => Z.of_nat s - Z.of_nat (read_to k) end) <$> stop;
     is_step := Z.of_nat step |}.

Lemma islice_pull_eq self (w : World) :
  islice_pull streams it (self, w) =
    (match l !! w it with Some v => Return v | None => Raise stop_iteration end,
     (match l !! w it with Some _ => self | None => is_exhaust self end, <[it := S (w it)]> w)).
Proof using Hit.
  unfold islice_pull, mbind, prog_bind, attempt. rewrite (pull_eq _ l) by done. by destruct (l !! w it).
Qed.

Lemma islice_discard_eq n initial remaining self (w : World) :
  (w it ≤ length l)%nat →
  ∃ w', islice_discard streams n it initial remaining (self, w) =
    (if (w it + n <=? length l)%nat
     then (Return (if initial then remaining else (λ r, r - Z.of_nat n) <$> remaining), (self, w'))
     else (Raise stop_iteration, (is_exhaust self, w'))) ∧
  w' it = (if (w it + n <=? length l)%nat then w it + n else length l + 1)%nat.
Proof using Hit Hstep.
  revert remaining w. induction n as [|n IH]; intros remaining w Hw.
  { exists w. cbn [islice_discard]. rewrite Nat.add_0_r. destruct (Nat.leb_spec (w it) (length l)); [|lia]. split; [|done].
    destruct initial; [done|]. destruct remaining as [r|]; [|done]. cbn. by rewrite Z.sub_0_r. }
  cbn [islice_discard]. unfold mbind at 1, prog_bind at 1. rewrite islice_pull_eq. destruct (l !! w it) as [v|] eqn:Hv.
  - apply lookup_lt_Some in Hv.
    destruct (IH (if initial then remaining else (λ r, r - 1) <$> remaining) (<[it := S (w it)]> w)) as (w' & -> & Hw'); rewrite fn_lookup_insert in *; [lia|].
    exists w'. replace (S (w it) + n)%nat with (w it + S n)%nat in * by lia. destruct (Nat.leb_spec (w it + S n) (length l)); split; try done.
    destruct initial; [done|]. destruct remaining as [r|]; [|done]. cbn [fmap option_fmap option_map]. by replace (r - 1 - Z.of_nat n) with (r - Z.of_nat (S n)) by lia.
  - apply lookup_ge_None in Hv. eexists. destruct (Nat.leb_spec (w it + S n) (length l)); [lia|]. split; [done|]. rewrite fn_lookup_insert. lia.
Qed.

(** One call, by how many items it skips. *)
Lemma islice_next_cases self (w : World) now remaining :
  is_iter self = it → is_exhausted self = false → (w it ≤ length l)%nat →
  (if is_initial_skip self then is_skip self
   else match is_remaining_stop self with Some r => Z.min (is_skip self) r | None => is_skip self end) = Z.of_nat now →
  remaining = (if is_initial_skip self then is_remaining_stop self else (λ r, r - Z.of_nat now) <$> is_remaining_stop self) →
  ∃ r self' w', islice_next streams (self, w) = (r, (self', w')) ∧
    ((length l < w it + now ∧ r = Raise stop_iteration ∧ self' = is_exhaust self ∧ w' it = length l + 1)%nat ∨
     (w it + now ≤ length l)%nat ∧
       ((∃ z, remaining = Some z ∧ z ≤ 0) ∧ r = Raise stop_iteration ∧ self' = is_exhaust (is_skipped self) ∧ w' it = (w it + now)%nat ∨
        (∀ z, remaining = Some z → 0 < z) ∧ w' it = (w it + now + 1)%nat ∧
          match l !! (w it + now)%nat with
          | Some v => r = Return v ∧ self' = is_yielded (is_step self - 1) ((λ r, r - 1) <$> remaining) (is_skipped self)
          | None => r = Raise stop_iteration ∧ self' = is_exhaust (is_skipped self)
          end)).
Proof using Hit Hstep.
  intros Hi He Hw Hnow Hrem. unfold islice_next. unfold mbind at 1, prog_bind at 1. cbn [self_of fst]. rewrite He.
  unfold mbind at 1, prog_bind at 1. rewrite Hnow, Hi, Nat2Z.id.
  destruct (islice_discard_eq now (is_initial_skip self) (is_remaining_stop self) self w Hw) as (w1 & -> & Hw1). rewrite <- Hrem.
  destruct (Nat.leb_spec (w it + now) (length l)) as [Hle|Hgt]; [|by eexists _, _, w1; split; [done|left]].
  unfold mbind at 1, prog_bind at 1. cbn [modify_self modify fst snd].
  destruct (match remaining with Some r => (r <=? 0)%Z | None => false end) eqn:Hr.
  { eexists _, _, w1. split; [done|]. right. split; [done|]. left. split; [|done]. destruct remaining as [z|]; [|done]. exists z. split; [done|]. by apply Z.leb_le. }
  unfold mbind at 1, prog_bind at 1. rewrite islice_pull_eq, Hw1.
  assert (Hpos : ∀ z, remaining = Some z → 0 < z) by (intros z ->; by apply Z.leb_gt).
  destruct (l !! (w it + now)%nat) as [v|] eqn:Hv; eexists _, _, (<[it := S (w it + now)%nat]> w1); (split; [done|]); right; (split; [done|]); right;
    (split; [done|]); rewrite fn_lookup_insert; (split; [lia|done]).
Qed.

(** The state before the item with number [k] is asked for. *)
Definition islice_at (k : nat) (s : Islice * World) : Prop :=
  s.1 = islice_state k ∧ s.2 it = read_to k ∧ (read_to k ≤ length l)%nat ∧ ∀ e, stop = Some e → k ≠ 0%nat → (read_to k ≤ e)%nat.
Definition islice_over (s : Islice * World) : Prop :=
  is_exhausted s.1 = true ∧ ∀ e, stop = Some e → (s.2 it ≤ start `max` e)%nat.

Lemma islice_next_eq k s :
  islice_at k s →
  match slice_item k with
  | Some v => ∃ s', islice_next streams s = (Return v, s') ∧ islice_at (S k) s'
  | None => ∃ s', islice_next streams s = (Raise stop_iteration, s') ∧ islice_over s'
  end.
Proof using Hit Hstep.
  destruct s as [self w]. intros (Hs & Hw & Hl & Hstop). cbn in Hs, Hw. subst self.
  set (now := match k with O => start | S _ => match stop with Some e => ((step - 1) `min` (e - read_to k))%nat | None => (step - 1)%nat end end).
  destruct (islice_next_cases (islice_state k) w now (match stop with Some e => Some (match k with O => Z.max (Z.of_nat e - Z.of_nat start) 0 | S _ => Z.of_nat e - Z.of_nat (read_to k) - Z.of_nat now end) | None => None end))
    as (r & self' & w' & -> & Hcases); [done|done|by rewrite Hw| | |].
  { unfold now. destruct k as [|k]; [done|]. cbn [islice_state is_initial_skip is_skip is_remaining_stop]. destruct stop as [e|]; cbn [fmap option_fmap option_map]; [|lia].
    specialize (Hstop e eq_refl ltac:(done)). lia. }
  { unfold islice_state. cbn. by destruct k, stop. }
  rewrite Hw in Hcases. unfold slice_item.
  assert (Hidx : slice_index k = match k with O => start | S _ => (read_to k + (step - 1))%nat end) by (destruct k; cbn; unfold slice_index; lia).
  destruct Hcases as [(Hgt & -> & -> & Hw')|[Hle [((z & Hz & Hz0) & -> & -> & Hw')|(Hpos & Hw' & Hv)]]].
  - assert (Hnone : l !! slice_index k = None).
    { apply lookup_ge_None. unfold now in Hgt. destruct k as [|k]; [cbn in *; lia|]. destruct stop; lia. }
    assert (Ho : islice_over (is_exhaust (islice_state k), w')).
    { split; [done|]. cbn [fst snd]. intros e He. rewrite Hw'. unfold now in Hgt. destruct k as [|k]; [cbn in *; lia|].
      rewrite He in Hgt. specialize (Hstop e He ltac:(done)). lia. }
    rewrite Hnone. destruct (before_stop (slice_index k)); by eexists.
  - destruct stop as [e|] eqn:Hstopeq; [|done]. simplify_eq.
    assert (Hbs : before_stop (slice_index k) = false).
    { unfold before_stop. rewrite Hstopeq. apply Nat.ltb_ge. unfold now in Hz0. destruct k as [|k]; [lia|]. specialize (Hstop e eq_refl ltac:(done)). lia. }
    rewrite Hbs. eexists. split; [done|]. split; [done|]. cbn [fst snd]. intros e' He'. rewrite Hstopeq in He'. simplify_eq. rewrite Hw'. unfold now.
    destruct k as [|k]; [cbn; lia|]. specialize (Hstop e' eq_refl ltac:(done)). lia.
  - assert (Hnow : (read_to k + now)%nat = slice_index k).
    { unfold now in *. destruct k as [|k]; [done|]. rewrite Hidx. destruct stop as [e|]; [|done]. specialize (Hpos _ eq_refl). lia. }
    assert (Hbs : before_stop (slice_index k) = true).
    { unfold before_stop. destruct stop as [e|]; [|done]. apply Nat.ltb_lt. specialize (Hpos _ eq_refl). unfold now in *. destruct k as [|k]; [lia|].
      specialize (Hstop e eq_refl ltac:(done)). lia. }
    rewrite Hbs. rewrite Hnow in Hv, Hw'. destruct (l !! slice_index k) as [v|] eqn:Hlv; destruct Hv as [-> ->].
    + eexists. split; [done|]. apply lookup_lt_Some in Hlv. split; [|split; [exact Hw'|split; [cbn; lia|]]].
      * unfold islice_state, is_yielded, is_skipped. cbn [fst is_iter is_skip is_initial_skip is_exhausted is_remaining_stop is_step]. f_equal.
        destruct stop as [e|]; [|done]. cbn [fmap option_fmap option_map]. f_equal. specialize (Hpos _ eq_refl). cbn [read_to]. rewrite <- Hnow. unfold now in *.
        destruct k as [|k]; [cbn [read_to] in *; lia|lia].
      * intros e He _. cbn [read_to]. unfold before_stop in Hbs. rewrite He in Hbs. apply Nat.ltb_lt in Hbs. lia.
    + eexists. split; [done|]. split; [done|]. cbn [fst snd]. intros e He. rewrite Hw'. unfold before_stop in Hbs. rewrite He in Hbs. apply Nat.ltb_lt in Hbs. lia.
Qed.

(** The items come in order, the source is read to the last item that was
    given and no further, and never past the end of the slice. *)
Lemma islice_results n (w : World) :
  w it = 0%nat →
  ∃ self' w', calls n (islice_next streams) (islice_state 0, w) = (results n (slice_items 0), (self', w')) ∧
    ((n ≤ length (slice_items 0))%nat → w' it = read_to n) ∧ (∀ e, stop = Some e → (w' it ≤ start `max` e)%nat).
Proof using Hit Hstep.
  intros Hw. set (N := length (slice_items 0)).
  set (rest := λ l' s, ∃ k, l' = slice_items k ∧ (k + length l' = N)%nat ∧ islice_at k s).
  destruct (calls_results (islice_next streams) rest islice_over) with (n := n) (l := slice_items 0) (s := (islice_state 0, w)) as ([self' w'] & Hc & Hr & Ho).
  - intros v l' s (k & Hl' & Hk & Hat). pose proof (islice_next_eq k s Hat) as Hn. rewrite slice_items_unfold in Hl'.
    destruct (slice_item k) as [v'|]; [|done]. simplify_eq. destruct Hn as (s' & -> & Hat'). exists s'. split; [done|]. exists (S k). cbn in Hk. split; [done|]. by split; [lia|].
  - intros s [(k & Hl' & Hk & Hat)|[He Hb]].
    + pose proof (islice_next_eq k s Hat) as Hn. rewrite slice_items_unfold in Hl'. by destruct (slice_item k).
    + exists s. destruct s as [self w0]. unfold islice_next, mbind, prog_bind. cbn [self_of fst] in *. by rewrite He.
  - exists 0%nat. split; [done|]. split; [done|]. split; [done|]. split; [done|]. split; [cbn; lia|done].
  - exists self', w'. split; [done|]. destruct (decide (n ≤ N)%nat) as [Hle|Hgt].
    + destruct (Hr Hle) as (k & Hl' & Hk & Hs & Hw' & Hl & Hstop). rewrite length_drop in Hk. fold N in Hk. assert (k = n) as -> by lia. cbn in Hs, Hw'.
      split; [done|]. intros e He. rewrite Hw'. destruct n as [|n]; [cbn; lia|]. specialize (Hstop e He ltac:(done)). lia.
    + destruct Ho as [_ Hb]; [lia|]. split; [lia|exact Hb].
Qed.
End islice.

(** *** groupby *)

Section groupby.
  Context (it : nat) (l : list V) (Hit : streams it = list_stream l).
  Context (key : V → V) (same : V → V → bool).
  Context (Hrefl : ∀ k, same k k = true) (Hsym : ∀ k k', same k k' = same k' k)
    (Htrans : ∀ k1 k2 k3, same k1 k2 = true → same k2 k3 = true → same k1 k3 = true).

(** The maximal runs of elements with the same key. *)
Fixpoint runs (l : list V) : list (list V) :=
  match l with
  | [] => []
  | x :: l =>
      match runs l with
      | (y :: g) :: gs => if same (key x) (key y) then (x :: y :: g) :: gs else [x] :: (y :: g) :: gs
      | _ => [[x]]
      end
  end.

Definition head_differs (k : V) (gs : list (list V)) : Prop :=
  match gs with (y :: _) :: _ => same (key y) k = false | _ => True end.
Fixpoint are_runs (gs : list (list V)) : Prop :=
  match gs with
  | [] => True
  | [] :: _ => False
  | (x :: g) :: gs => Forall (λ y, same (key y) (key x) = true) g ∧ head_differs (key x) gs ∧ are_runs gs
  end.

Lemma runs_are_runs (l' : list V) : are_runs (runs l') ∧ mjoin (runs l') = l'.
Proof using Hsym Htrans.
  induction l' as [|x l' [Hr Hj]]; [done|]. cbn. destruct (runs l') as [|[|y g] gs]; [by subst l'|done|].
  destruct Hr as (Hg & Hd & Hr). destruct (same (key x) (key y)) eqn:Hxy.
  - cbn in Hj |- *. split; [split; [|split]|by rewrite <- Hj].
    + constructor; [by rewrite Hsym|]. eapply Forall_impl; [exact Hg|]. cbn. intros z Hz. apply (Htrans _ (key y)); [done|by rewrite Hsym].
    + destruct gs as [|[|z g'] gs]; [done..|]. cbn in *. destruct (same (key z) (key x)) eqn:Hzx; [|done].
      rewrite (Htrans _ _ _ Hzx Hxy) in Hd. done.
    + done.
  - cbn in Hj |- *. split; [|by rewrite <- Hj]. split; [done|]. split; [by rewrite Hsym|done].
Qed.

(** The elements that the instance has still to give: the one it looks ahead to
    and those of the source. *)
Definition ahead (s : Groupby * World) : list V := (if gb_has_curr s.1 then [gb_currvalue s.1] else []) ++ drop (s.2 it) l.
Definition gb_ok (rem : list V) (s : Groupby * World) : Prop :=
  gb_iter s.1 = it ∧ (gb_has_curr s.1 = true → gb_currkey s.1 = key (gb_currvalue s.1)) ∧ rem = ahead s.
Definition gb_target (s : Groupby * World) : option V := if gb_has_tgt s.1 then Some (gb_tgtkey s.1) else None.

Abbreviation compute_key := (λ v, Return (key v)).
Abbreviation keys_equal := (λ k k', Return (same k k')).

Lemma ensure_curr_eq rem s :
  gb_ok rem s →
  ∃ s', groupby_ensure_curr streams compute_key s = (Return (match rem with [] => false | _ => true end), s') ∧ gb_ok rem s' ∧
    gb_target s' = gb_target s ∧ gb_id s'.1 = gb_id s.1 ∧
    match rem with [] => True | x :: _ => gb_has_curr s'.1 = true ∧ gb_currkey s'.1 = key x ∧ gb_currvalue s'.1 = x end.
Proof using Hit.
  destruct s as [self w]. intros (Hi & Hk & Hrem). unfold groupby_ensure_curr, mbind, prog_bind. cbn [self_of fst snd] in *.
  unfold ahead in Hrem. cbn [fst snd] in Hrem. destruct (gb_has_curr self) eqn:Hc.
  - exists (self, w). subst rem. split; [done|]. split; [|split; [done|split; [done|]]].
    + split; [done|]. split; [by intros _; apply Hk|]. unfold ahead. cbn. by rewrite Hc.
    + cbn. split; [done|]. split; [by apply Hk|done].
  - cbn [app] in Hrem. unfold attempt. rewrite Hi, (pull_eq it l) by done. destruct rem as [|x rem].
    + rewrite (drop_nil_lookup l (w it)) by done. cbn [is_stop_iteration stop_iteration]. eexists. split; [done|]. split; [|done].
      split; [done|]. split; [done|]. unfold ahead. cbn [fst snd gb_without_curr gb_has_curr app]. rewrite fn_lookup_insert.
      symmetry. apply drop_ge. symmetry in Hrem. apply (f_equal length) in Hrem. rewrite length_drop in Hrem. cbn in Hrem. lia.
    + symmetry in Hrem. apply drop_cons in Hrem as [-> Hd]. eexists. split; [done|]. split; [|done].
      split; [done|]. split; [done|]. unfold ahead. cbn [fst snd gb_with_curr gb_has_curr gb_currvalue app]. by rewrite fn_lookup_insert, Hd.
Qed.

Lemma clear_curr_ok x rem s :
  gb_ok (x :: rem) s → gb_has_curr s.1 = true → gb_ok rem (groupby_clear_curr s.1, s.2).
Proof using Type. intros (Hi & Hk & Hrem) Hc. unfold ahead in Hrem. rewrite Hc in Hrem. cbn in Hrem. by simplify_eq. Qed.

(** Skipping ends at the first element that is not of the group handed out. *)
Lemma groupby_skip_eq fuel old rem s :
  gb_ok (old ++ rem) s → (length old < fuel)%nat →
  match gb_target s with
  | Some t => Forall (λ x, same (key x) t = true) old ∧ match rem with x :: _ => same (key x) t = false | [] => True end
  | None => old = []
  end →
  ∃ s', groupby_skip streams compute_key keys_equal fuel s = (Return (match rem with [] => false | _ => true end), s') ∧ gb_ok rem s' ∧
    gb_id s'.1 = gb_id s.1 ∧ gb_target s' = gb_target s ∧ match rem with [] => True | x :: _ => gb_currkey s'.1 = key x end.
Proof using Hit.
  revert fuel s. induction old as [|y old IH]; intros fuel s Hok Hf Ht; (destruct fuel as [|fuel]; [cbn in Hf; lia|]); cbn [groupby_skip]; unfold mbind at 1, prog_bind at 1.
  - destruct (ensure_curr_eq _ _ Hok) as (s' & -> & Hok' & Htgt & Hid & Hcur). cbn [app] in *. destruct rem as [|x rem]; cbn [negb].
    { exists s'. split; [done|]. by split_and!. }
    destruct Hcur as (Hc & Hck & Hcv). unfold mbind, prog_bind, self_of, pure, mret, prog_ret. rewrite <- Htgt in Ht. unfold gb_target in Ht.
    destruct (gb_has_tgt s'.1) eqn:Hht; cbn [negb].
    + rewrite Hck. destruct Ht as [_ ->]. exists s'. by split_and!.
    + exists s'. by split_and!.
  - destruct (ensure_curr_eq _ _ Hok) as (s' & -> & Hok' & Htgt & Hid & Hcur). cbn [app negb] in *. destruct Hcur as (Hc & Hck & Hcv).
    unfold mbind at 1, prog_bind at 1, self_of. unfold mbind at 1, prog_bind at 1. rewrite <- Htgt in Ht. unfold gb_target in Ht.
    destruct (gb_has_tgt s'.1) eqn:Hht; [|done]. destruct Ht as [Hold Hrem]. apply Forall_cons in Hold as [Hy Hold]. cbn [negb pure]. rewrite Hck, Hy.
    unfold mbind at 1, prog_bind at 1. cbn [modify_self modify].
    destruct (IH fuel (groupby_clear_curr s'.1, s'.2)) as (s'' & -> & Hok'' & Hid'' & Htgt'' & Hcur''); [by eapply clear_curr_ok|cbn in Hf; lia| |].
    { unfold gb_target, groupby_clear_curr, gb_without_curr. cbn. by rewrite Hht. }
    exists s''. split; [done|]. split_and!; try done; [by rewrite Hid''|by rewrite Htgt''].
Qed.

Lemma groupby_next_eq fuel old rem s :
  gb_ok (old ++ rem) s → (length old < fuel)%nat → - 2 ^ 63 ≤ gb_id s.1 < 2 ^ 63 - 1 →
  match gb_target s with
  | Some t => Forall (λ x, same (key x) t = true) old ∧ match rem with x :: _ => same (key x) t = false | [] => True end
  | None => old = []
  end →
  ∃ s', groupby_next streams compute_key keys_equal fuel s =
      (match rem with x :: _ => Return (key x, {| gr_tgtkey := key x; gr_id := gb_id s.1 + 1 |}) | [] => Raise stop_iteration end, s') ∧
    gb_ok rem s' ∧ gb_id s'.1 = gb_id s.1 + 1 ∧ match rem with x :: _ => gb_target s' = Some (key x) | [] => True end.
Proof using Hit.
  intros Hok Hf Hid Ht. unfold groupby_next. unfold mbind at 1, prog_bind at 1. cbn [self_of]. unfold mbind at 1, prog_bind at 1.
  unfold pure at 1, i64_exact, i64_in. destruct (Z.leb_spec (- 2 ^ 63) (gb_id s.1 + 1)); [|lia]. destruct (Z.ltb_spec (gb_id s.1 + 1) (2 ^ 63)); [|lia].
  cbn [andb lift]. unfold mbind at 1, prog_bind at 1. cbn [modify_self modify]. unfold mbind at 1, prog_bind at 1.
  destruct (groupby_skip_eq fuel old rem (gb_with_id (gb_id s.1 + 1) s.1, s.2)) as (s' & -> & Hok' & Hid' & Ht' & Hcur); [exact Hok|done|exact Ht|].
  destruct rem as [|x rem]; cbn [negb].
  - exists s'. split; [done|]. by split_and!.
  - unfold mbind, prog_bind. cbn [self_of modify_self modify mret prog_ret]. rewrite Hcur. eexists. split; [done|]. split_and!; try done.
Qed.

Lemma grouper_next_eq x rem s :
  gb_ok (x :: rem) s → same (key x) (default (key x) (gb_target s)) = true → is_Some (gb_target s) →
  ∃ s', grouper_next streams compute_key keys_equal {| gr_tgtkey := default (key x) (gb_target s); gr_id := gb_id s.1 |} s = (Return x, s') ∧
    gb_ok rem s' ∧ gb_id s'.1 = gb_id s.1 ∧ gb_target s' = gb_target s.
Proof using Hit.
  intros Hok Hsame [t Ht]. rewrite Ht in *. cbn [default] in *. unfold grouper_next. unfold mbind at 1, prog_bind at 1. cbn [self_of gr_id]. rewrite Z.eqb_refl. cbn [negb].
  unfold mbind at 1, prog_bind at 1. destruct (ensure_curr_eq _ _ Hok) as (s' & -> & Hok' & Htgt & Hid & (Hc & Hck & Hcv)). cbn [negb].
  unfold mbind, prog_bind. cbn [self_of pure gr_tgtkey]. rewrite Hck, Hsame, Hcv. cbn [negb modify_self modify mret prog_ret]. eexists. split; [done|].
  split; [by eapply clear_curr_ok|]. split; [done|]. by rewrite <- Ht, <- Htgt.
Qed.

Lemma grouper_stops t rem s :
  gb_ok rem s → match rem with x :: _ => same (key x) t = false | [] => True end →
  ∃ s', grouper_next streams compute_key keys_equal {| gr_tgtkey := t; gr_id := gb_id s.1 |} s = (Raise stop_iteration, s') ∧
    gb_ok rem s' ∧ gb_id s'.1 = gb_id s.1 ∧ gb_target s' = gb_target s.
Proof using Hit.
  intros Hok Hd. unfold grouper_next. unfold mbind at 1, prog_bind at 1. cbn [self_of gr_id]. rewrite Z.eqb_refl. cbn [negb].
  unfold mbind at 1, prog_bind at 1. destruct (ensure_curr_eq _ _ Hok) as (s' & -> & Hok' & Htgt & Hid & Hcur). destruct rem as [|x rem]; cbn [negb].
  - by exists s'.
  - destruct Hcur as (Hc & Hck & Hcv). unfold mbind, prog_bind. cbn [self_of pure gr_tgtkey]. rewrite Hck, Hd. by exists s'.
Qed.

(** A group that the instance has moved on from gives nothing. *)
Lemma grouper_stale group s :
  gr_id group ≠ gb_id s.1 → grouper_next streams compute_key keys_equal group s = (Raise stop_iteration, s).
Proof using Type.
  intros Hne. unfold grouper_next, mbind, prog_bind. cbn [self_of]. by destruct (Z.eqb_spec (gb_id s.1) (gr_id group)).
Qed.

(** The calls of one group. *)
Lemma grouper_results j g rem t s :
  gb_ok (g ++ rem) s → gb_target s = Some t → Forall (λ y, same (key y) t = true) g →
  match rem with x :: _ => same (key x) t = false | [] => True end →
  ∃ s', calls j (grouper_next streams compute_key keys_equal {| gr_tgtkey := t; gr_id := gb_id s.1 |}) s = (results j g, s') ∧
    gb_ok (drop j g ++ rem) s' ∧ gb_id s'.1 = gb_id s.1 ∧ gb_target s' = Some t.
Proof using Hit.
  intros Hok Ht Hg Hrem. set (id := gb_id s.1).
  set (keeps := λ l' s, ∃ k, l' = drop k g ∧ (k + length l' = length g)%nat ∧ gb_ok (l' ++ rem) s ∧ gb_id s.1 = id ∧ gb_target s = Some t).
  set (over := λ s, gb_ok rem s ∧ gb_id s.1 = id ∧ gb_target s = Some t).
  destruct (calls_results (grouper_next streams compute_key keys_equal {| gr_tgtkey := t; gr_id := id |}) keeps over) with (n := j) (l := g) (s := s) as (s' & Hc & Hr & Ho).
  - intros y l' s0 (k & Hl & Hk & Hok0 & Hid0 & Ht0).
    assert (Hy : same (key y) t = true) by (symmetry in Hl; apply drop_cons in Hl as [Hl _]; by eapply Forall_lookup_1 in Hg).
    destruct (grouper_next_eq y (l' ++ rem) s0 Hok0) as (s1 & Hn & Hok1 & Hid1 & Ht1); [by rewrite Ht0|by rewrite Ht0|]. rewrite Ht0, Hid0 in Hn. cbn in Hn.
    exists s1. split; [done|]. exists (S k). symmetry in Hl. apply drop_cons in Hl as [_ Hl]. cbn in Hk. split_and!; try done; [lia|by rewrite Hid1|by rewrite Ht1].
  - intros s0 [(k & _ & _ & Hok0 & Hid0 & Ht0)|(Hok0 & Hid0 & Ht0)];
      (destruct (grouper_stops t rem s0 Hok0 Hrem) as (s1 & Hn & Hok1 & Hid1 & Ht1); rewrite Hid0 in Hn; exists s1; split; [done|]; split_and!; [done|by rewrite Hid1|by rewrite Ht1]).
  - exists 0%nat. by split_and!.
  - exists s'. split; [done|]. destruct (decide (j ≤ length g)%nat) as [Hle|Hgt].
    + destruct (Hr Hle) as (k & Hl & Hk & Hok' & Hid' & Ht'). by split_and!.
    + destruct Ho as (Hok' & Hid' & Ht'); [lia|]. rewrite drop_ge by lia. by split_and!.
Qed.

(** A program that takes [j] items of every group, for the [j]s of a list. *)
Fixpoint take_groups (fuel : nat) (js : list nat) : prog (Groupby * World) (list (V * list (outcome V))) :=
  match js with
  | [] => mret []
  | j :: js =>
      '(k, group) ← groupby_next streams compute_key keys_equal fuel;
      items ← (λ s, let '(items, s) := calls j (grouper_next streams compute_key keys_equal group) s in (Return items, s));
      rest ← take_groups fuel js;
      mret ((k, items) :: rest)
  end.

Definition group_answer (j : nat) (g : list V) : list (V * list (outcome V)) :=
  match g with x :: _ => [(key x, results j g)] | [] => [] end.

Lemma take_groups_eq fuel js gs old s :
  are_runs gs → gb_ok (old ++ mjoin gs) s → (length (old ++ mjoin gs) < fuel)%nat → (length js ≤ length gs)%nat →
  - 2 ^ 63 ≤ gb_id s.1 → gb_id s.1 + vlen js < 2 ^ 63 - 1 →
  match gb_target s with Some t => Forall (λ x, same (key x) t = true) old ∧ head_differs t gs | None => old = [] end →
  ∃ s', take_groups fuel js s = (Return (mjoin (zip_with group_answer js gs)), s') ∧
    (length js = length gs → ∃ s'', groupby_next streams compute_key keys_equal fuel s' = (Raise stop_iteration, s'')).
Proof using Hit Hrefl.
  revert js old s. induction gs as [|g gs IH]; intros js old s Hr Hok Hf Hj Hid Hid' Ht; destruct js as [|j js]; cbn in Hj; try lia.
  - exists s. split; [done|]. intros _. cbn [mjoin list_join] in *. rewrite app_nil_r in Hok, Hf.
    destruct (groupby_next_eq fuel old [] s) as (s' & -> & _); [by rewrite app_nil_r|done| | |by exists s'].
    + rewrite (eq_refl : vlen [] = 0) in Hid'. lia.
    + destruct (gb_target s); naive_solver.
  - exists s. split; [done|]. cbn. lia.
  - rewrite vlen_cons in Hid'. pose proof (vlen_nonneg js).
    destruct g as [|x g]; [done|]. destruct Hr as (Hg & Hd & Hr).
    change (mjoin ((x :: g) :: gs)) with ((x :: g) ++ mjoin gs) in Hok, Hf. cbn [take_groups]. unfold mbind at 1, prog_bind at 1.
    rewrite length_app in Hf.
    destruct (groupby_next_eq fuel old ((x :: g) ++ mjoin gs) s) as (s1 & -> & Hok1 & Hid1 & Ht1); [done|lia|lia|by destruct (gb_target s)|]. cbn [app] in *.
    unfold mbind at 1, prog_bind at 1. rewrite <- Hid1.
    assert (Hnext : match mjoin gs with y :: _ => same (key y) (key x) = false | [] => True end).
    { destruct gs as [|[|y g'] gs]; [done..|]. exact Hd. }
    destruct (grouper_results j (x :: g) (mjoin gs) (key x) s1) as (s2 & -> & Hok2 & Hid2 & Ht2); [done|done|by constructor|done|].
    unfold mbind at 1, prog_bind at 1.
    destruct (IH js (drop j (x :: g)) s2) as (s3 & -> & Hend); [done|done| |lia|lia|lia| |].
    + rewrite length_app, length_drop. cbn [length app] in *. rewrite length_app in Hf. lia.
    + rewrite Ht2. split; [|done]. apply Forall_drop. by constructor.
    + exists s3. split; [done|]. intros Hl. apply Hend. cbn in Hl. lia.
Qed.
End groupby.

(** *** Iterators that pass values on *)

(** An iterator over [l]: its calls give the elements of [l] and then stop. *)
Definition iterates {S A} (next : prog S A) (l : list A) (s : S) : Prop := ∀ n, (calls n next s).1 = results n l.

(** The answer of an iterator that has [l] to give. *)
Definition first_of {A} (l : list A) : outcome A := match l with x :: _ => Return x | [] => Raise stop_iteration end.

Lemma iterates_intro {S A} (next : prog S A) (rest : list A → S → Prop) l s :
  (∀ l s, rest l s → ∃ s', next s = (first_of l, s') ∧ rest (tail l) s') → rest l s → iterates next l s.
Proof using Type.
  intros Hnext Hs n. destruct (calls_results next rest (rest [])) with (n := n) (l := l) (s := s) as (s' & -> & _); [..|done].
  - intros x l' s' Hr. apply (Hnext _ _ Hr).
  - intros s' [Hr|Hr]; apply (Hnext _ _ Hr).
  - done.
Qed.

Lemma drop_S_tail {A} (l : list A) c : drop (S c) l = tail (drop c l).
Proof using Type. revert l. induction c as [|c IH]; intros [|x l]; try done. apply IH. Qed.

Section passing.
  Context (it : nat) (l : list V) (Hit : streams it = list_stream l).

(** The values a source has still to give. *)
Definition left_of (w : World) : list V := drop (w it) l.

Lemma pull_left {S} (s : S) (w : World) :
  ∃ w', pull streams it (s, w) = (first_of (left_of w), (s, w')) ∧ left_of w' = tail (left_of w).
Proof using Hit.
  rewrite (pull_eq it l) by done. unfold left_of. eexists. split; [|by rewrite fn_lookup_insert, (drop_S_tail l (w it))].
  destruct (drop (w it) l) as [|x l'] eqn:Hd; [by rewrite (drop_nil_lookup _ _ Hd)|]. by apply drop_cons in Hd as [-> _].
Qed.

Fixpoint take_while (p : V → bool) (l : list V) : list V := match l with x :: l => if p x then x :: take_while p l else [] | [] => [] end.
Fixpoint drop_while (p : V → bool) (l : list V) : list V := match l with x :: l' => if p x then drop_while p l' else l | [] => [] end.

(** Read one value of the source, by cases on whether there is one. *)
Ltac read_source self w :=
  let w2 := fresh "w2" in let Hw2 := fresh "Hw2" in let Hl := fresh "Hl" in let x := fresh "x" in
  let rest := fresh "rest" in destruct (pull_left self w) as (w2 & -> & Hw2); destruct (left_of w) as [|x rest] eqn:Hl; cbn [tail] in Hw2; cbn [first_of].

Lemma takewhile_iterates p w :
  iterates (takewhile_next streams (λ v, Return (p v))) (take_while p (left_of w)) ({| tw_iter := it; tw_done := false |}, w).
Proof using Hit.
  apply (iterates_intro _ (λ l' s, tw_iter s.1 = it ∧ l' = if tw_done s.1 then [] else take_while p (left_of s.2))); [|done].
  intros l' [self w'] [Hi ->]. cbn -[left_of] in *. unfold takewhile_next, mbind, prog_bind. cbn [self_of fst]. destruct (tw_done self) eqn:Hd.
  { eexists. split; [done|]. cbn -[left_of]. by rewrite Hd. }
  rewrite Hi. read_source self w'.
  - eexists. split; [done|]. cbn -[left_of]. by rewrite Hd, Hw2.
  - cbn [pure take_while]. destruct (p x); (eexists; split; [done|]); cbn -[left_of]; by rewrite ?Hd, ?Hw2.
Qed.

Lemma dropwhile_loop_eq p f self (w : World) :
  (length (left_of w) < f)%nat → dw_started self = false → dw_iter self = it →
  ∃ s', dropwhile_loop streams (λ v, Return (p v)) it f (self, w) = (first_of (drop_while p (left_of w)), s') ∧ dw_iter s'.1 = it ∧
    (length (left_of s'.2) ≤ length (left_of w))%nat ∧
    tail (drop_while p (left_of w)) = (if dw_started s'.1 then left_of s'.2 else drop_while p (left_of s'.2)).
Proof using Hit.
  revert w. induction f as [|f IH]; intros w Hf Hs Hi; [lia|]. cbn [dropwhile_loop]. unfold mbind, prog_bind. read_source self w.
  - eexists. split; [done|]. cbn -[left_of]. by rewrite Hs, Hw2.
  - cbn [pure drop_while length] in *. destruct (p x).
    + destruct (IH w2) as (s' & -> & ? & ? & ?); [rewrite Hw2; lia|done|done|]. exists s'. rewrite Hw2 in *. split_and!; try done. lia.
    + eexists. split; [done|]. cbn -[left_of]. rewrite Hw2. split_and!; [done|lia|done].
Qed.

Lemma dropwhile_iterates p w fuel :
  (length (left_of w) < fuel)%nat →
  iterates (dropwhile_next streams (λ v, Return (p v)) fuel) (drop_while p (left_of w)) ({| dw_iter := it; dw_started := false |}, w).
Proof using Hit.
  intros Hf. apply (iterates_intro _ (λ l' s, dw_iter s.1 = it ∧ (length (left_of s.2) < fuel)%nat ∧ l' = (if dw_started s.1 then left_of s.2 else drop_while p (left_of s.2)))); [|done].
  intros l' [self w'] (Hi & Hlen & ->). cbn [fst snd] in *. unfold dropwhile_next, mbind, prog_bind. cbn [self_of fst]. rewrite Hi. destruct (dw_started self) eqn:Hd.
  - read_source self w'; (eexists; split; [done|]); cbn [fst snd]; rewrite Hd, Hw2; (split; [done|]); (split; [cbn in *; lia|done]).
  - destruct (dropwhile_loop_eq p fuel self w' Hlen Hd Hi) as (s' & -> & ? & ? & ->). eexists. split; [done|]. split; [done|]. split; [lia|done].
Qed.

Lemma filterfalse_loop_eq p f self (w : World) :
  (length (left_of w) < f)%nat →
  ∃ w', filterfalse_loop streams (λ v, Return (p v)) it f (self, w) = (first_of (filter (λ v, p v = false) (left_of w)), (self, w')) ∧
    (length (left_of w') ≤ length (left_of w))%nat ∧ tail (filter (λ v, p v = false) (left_of w)) = filter (λ v, p v = false) (left_of w').
Proof using Hit.
  revert w. induction f as [|f IH]; intros w Hf; [lia|]. cbn [filterfalse_loop]. unfold mbind, prog_bind. read_source self w.
  - eexists. split; [done|]. rewrite Hw2. done.
  - rewrite filter_cons. cbn [pure length] in *. destruct (p x) eqn:Hpx; cbn [negb].
    + rewrite decide_False by done. destruct (IH w2) as (w' & -> & ? & ?); [rewrite Hw2; lia|]. exists w'. rewrite Hw2 in *. split_and!; try done. lia.
    + rewrite decide_True by done. eexists. split; [done|]. rewrite Hw2. split; [lia|done].
Qed.

Lemma filterfalse_iterates p w fuel :
  (length (left_of w) < fuel)%nat →
  iterates (filterfalse_next streams (λ v, Return (p v)) fuel) (filter (λ v, p v = false) (left_of w)) ({| ff_iter := it |}, w).
Proof using Hit.
  intros Hf. apply (iterates_intro _ (λ l' s, ff_iter s.1 = it ∧ (length (left_of s.2) < fuel)%nat ∧ l' = filter (λ v, p v = false) (left_of s.2))); [|done].
  intros l' [self w'] (Hi & Hlen & ->). cbn [fst snd] in *. unfold filterfalse_next, mbind, prog_bind. cbn [self_of fst]. rewrite Hi.
  destruct (filterfalse_loop_eq p fuel self w' Hlen) as (w2 & -> & ? & ->). eexists. split; [done|]. cbn [fst snd]. split; [done|]. split; [lia|done].
Qed.

(** Running results: each is made from the one before and the next value. *)
Fixpoint scan (f : V → V → V) (acc : V) (l : list V) : list V := match l with x :: l => f acc x :: scan f (f acc x) l | [] => [] end.
Definition running (f : V → V → V) (initial : option V) (l : list V) : list V :=
  match initial, l with
  | Some acc, _ => acc :: scan f acc l
  | None, x :: l => x :: scan f x l
  | None, [] => []
  end.

Lemma accumulate_iterates f none initial w :
  iterates (accumulate_next streams (λ a b, Return (f a b))) (running f initial (left_of w)) (accumulate_init none it initial, w).
Proof using Hit.
  apply (iterates_intro _ (λ l' s, ac_iter s.1 = it ∧ l' = if ac_started s.1 then scan f (ac_acc s.1) (left_of s.2)
    else running f (if ac_use_initial s.1 then Some (ac_acc s.1) else None) (left_of s.2))).
  - intros l' [self w'] [Hi ->]. cbn [fst snd] in *. unfold accumulate_next, mbind, prog_bind. cbn [self_of fst]. destruct (ac_started self) eqn:Hs; cbn [negb].
    + rewrite Hi. read_source self w'; (eexists; split; [done|]); cbn -[left_of]; by rewrite Hs, Hw2.
    + cbn [modify_self modify fst snd]. destruct (ac_use_initial self) eqn:Hu; [by eexists|]. rewrite Hi.
      read_source (ac_start self) w'; (eexists; split; [done|]); cbn -[left_of]; by rewrite Hw2.
  - split; [done|]. by destruct initial as [acc|].
Qed.

Lemma pairwise_iterates none w :
  iterates (pairwise_next streams) (zip (left_of w) (tail (left_of w))) (pairwise_init none it, w).
Proof using Hit.
  apply (iterates_intro _ (λ l' s, pw_iter s.1 = it ∧ l' = if pw_exhausted s.1 then []
    else if pw_started s.1 then zip (pw_prev s.1 :: left_of s.2) (left_of s.2) else zip (left_of s.2) (tail (left_of s.2)))); [|done].
  intros l' [self w'] [Hi ->]. cbn [fst snd] in *. unfold pairwise_next, pairwise_pull, attempt, mbind, prog_bind. cbn [self_of fst]. destruct (pw_exhausted self) eqn:He.
  { exists (self, w'). cbn. by rewrite He. }
  rewrite Hi. destruct (pw_started self) eqn:Hs.
  - cbn [mret prog_ret]. read_source self w'; (eexists; split; [done|]); cbn -[left_of]; by rewrite ?He, ?Hw2.
  - read_source self w'; [by eexists|]. cbn [pure modify_self modify mret prog_ret fst snd].
    subst rest. read_source (pw_with_prev x self) w2; (eexists; split; [done|]); cbn -[left_of]; by rewrite ?He, ?Hw2.
Qed.

(** Batches of [n], the last one shorter. *)
Fixpoint chunks (fuel n : nat) (l : list V) : list (list V) :=
  match fuel, l with
  | S fuel, _ :: _ => take n l :: chunks fuel n (drop n l)
  | _, _ => []
  end.

Lemma batched_loop_eq m batch self (w : World) :
  ∃ self' w', batched_loop streams m it batch (self, w) = (Return (batch ++ take m (left_of w)), (self', w')) ∧
    left_of w' = drop m (left_of w) ∧ ba_iter self' = ba_iter self ∧ ba_n self' = ba_n self ∧
    ba_exhausted self' = (if (m <=? length (left_of w))%nat then ba_exhausted self else true).
Proof using Hit.
  revert batch self w. induction m as [|m IH]; intros batch self w.
  { exists self, w. cbn. by rewrite drop_0, app_nil_r. }
  cbn [batched_loop]. unfold attempt, mbind, prog_bind. read_source self w.
  - eexists _, _. split; [cbn; by rewrite app_nil_r|]. by cbn -[left_of].
  - destruct (IH (batch ++ [x]) self w2) as (self' & w' & -> & ? & ? & ? & ?). exists self', w'. rewrite Hw2 in *. by rewrite <- app_assoc.
Qed.

Lemma batched_iterates n w :
  1 ≤ n → n * 8 < 2 ^ 63 →
  iterates (batched_next streams) (chunks (length (left_of w)) (Z.to_nat n) (left_of w)) ({| ba_iter := it; ba_n := n; ba_exhausted := false |}, w).
Proof using Hit.
  intros Hn1 Hn. apply (iterates_intro _ (λ l' s, ba_iter s.1 = it ∧ ba_n s.1 = n ∧
    if ba_exhausted s.1 then l' = [] else ∃ fuel, (length (left_of s.2) ≤ fuel)%nat ∧ l' = chunks fuel (Z.to_nat n) (left_of s.2))).
  2:{ split; [done|]. split; [done|]. cbn -[left_of]. by eexists. }
  intros l' [self w'] (Hi & Hbn & Hl). cbn [fst snd] in *. unfold batched_next. unfold mbind at 1, prog_bind at 1. cbn [self_of fst]. destruct (ba_exhausted self) eqn:He.
  { subst l'. eexists. split; [done|]. cbn -[left_of]. by rewrite He. }
  destruct Hl as (fuel & Hf & ->). unfold mbind at 1, prog_bind at 1. unfold pure at 1, with_capacity. rewrite Hbn, Hi.
  destruct (Z.ltb_spec (n * 8) (2 ^ 63)); [|lia]. unfold mbind at 1, prog_bind at 1.
  destruct (batched_loop_eq (Z.to_nat n) [] self w') as (self' & w2 & -> & Hw2 & Hi' & Hn' & He'). cbn [app].
  destruct (left_of w') as [|x rest] eqn:Hl; destruct fuel as [|fuel]; cbn [length] in Hf; try lia.
  1-2: rewrite take_nil; eexists; (split; [done|]); cbn [fst snd]; rewrite Hi', Hn', Hi, Hbn, He'; (split; [done|]); (split; [done|]);
    (destruct (Z.to_nat n) eqn:Hz; [lia|done]).
  destruct (Z.to_nat n) as [|m] eqn:Hz; [lia|]. cbn [chunks take length Nat.eqb first_of tail]. eexists. split; [done|]. cbn [fst snd]. rewrite Hi', Hn', Hi, Hbn, He'.
  split; [done|]. split; [done|]. cbn [length Nat.leb drop] in *. rewrite He. destruct (Nat.leb_spec m (length rest)).
  - exists fuel. rewrite Hw2, length_drop. split; [lia|done].
  - by rewrite drop_ge by lia; destruct fuel.
Qed.

(** The elements over and over. *)
Definition cycled (l : list V) (i : nat) : outcome V :=
  match l !! (i mod length l)%nat with Some v => Return v | None => Raise stop_iteration end.

Lemma calls_numbered {S A} (next : prog S A) (answer : nat → outcome A) (state : nat → S → Prop) :
  (∀ i s, state i s → ∃ s', next s = (answer i, s') ∧ state (Datatypes.S i) s') →
  ∀ n i s, state i s → (calls n next s).1 = answer <$> seq i n.
Proof using Type.
  intros Hnext. induction n as [|n IH]; intros i s Hs; [done|]. cbn [calls seq]. destruct (Hnext i s Hs) as (s' & -> & Hs').
  specialize (IH _ _ Hs'). destruct (calls n next s') as [rs s'']. cbn in *. by rewrite IH.
Qed.

Definition cycle_at (l' : list V) (i : nat) (s : Cycle * World) : Prop :=
  cy_iter s.1 = it ∧
  if cy_first_pass s.1 then cy_cache s.1 = take i l' ∧ (i ≤ length l')%nat ∧ left_of s.2 = drop i l' ∧ cy_pos s.1 = 0%nat
  else cy_cache s.1 = l' ∧ (l' ≠ [] → cy_pos s.1 = (i mod length l')%nat).

Lemma cycle_cached_eq l' i self (w : World) :
  cy_cache self = l' → (l' ≠ [] → cy_pos self = (i mod length l')%nat) → cy_iter self = it → cy_first_pass self = false →
  ∃ s', cycle_cached (self, w) = (cycled l' i, s') ∧ cycle_at l' (S i) s'.
Proof using Type.
  intros <- Hp Hi Hf. unfold cycle_cached, mbind, prog_bind, cycled. cbn [self_of fst]. destruct (Nat.eqb_spec (length (cy_cache self)) 0) as [H0|H0].
  - apply nil_length_inv in H0. rewrite H0. exists (self, w). split; [done|]. unfold cycle_at. cbn -[left_of]. by rewrite Hf.
  - assert (Hne : cy_cache self ≠ []) by (intros Hn; by rewrite Hn in H0). rewrite (Hp Hne), Nat.Div0.mod_mod. unfold pure at 1, vnth.
    destruct (lookup_lt_is_Some_2 (cy_cache self) (i mod length (cy_cache self))) as [v Hv]; [by apply Nat.mod_upper_bound|]. rewrite Hv.
    cbn -[Nat.modulo left_of]. eexists. split; [done|]. unfold cycle_at. cbn -[Nat.modulo left_of]. rewrite Hf. split; [done|]. split; [done|]. intros _.
    by rewrite Nat.Div0.add_mod_idemp_l, Nat.add_1_r.
Qed.

Lemma cycle_answers w n :
  (calls n (cycle_next streams) (cycle_init it, w)).1 = cycled (left_of w) <$> seq 0 n.
Proof using Hit.
  apply (calls_numbered _ _ (cycle_at (left_of w))).
  2:{ split; [done|]. cbn -[left_of]. rewrite drop_0. split_and!; [done|lia|done|done]. }
  set (l' := left_of w). intros i [self w'] [Hi Hs]. cbn [fst snd] in *. unfold cycle_next. unfold mbind at 1, prog_bind at 1. cbn [self_of fst].
  destruct (cy_first_pass self) eqn:Hf; [|destruct Hs as [Hc Hp]; by apply cycle_cached_eq].
  destruct Hs as (Hc & Hle & Hl & Hp). rewrite Hi. unfold attempt, mbind, prog_bind. read_source self w'; symmetry in Hl.
  - assert (Hge : i = length l') by (apply (f_equal length) in Hl; rewrite length_drop in Hl; cbn in Hl; lia). cbn [is_stop_iteration stop_iteration modify_self modify fst snd].
    apply cycle_cached_eq; cbn -[left_of]; [by rewrite Hc, Hge, firstn_all| |done|done]. intros Hne. rewrite Hp, Hge, Nat.Div0.mod_same. done.
  - apply drop_cons in Hl as [Hx Hrest]. pose proof (lookup_lt_Some _ _ _ Hx) as Hlt. unfold cycled. rewrite Nat.mod_small, Hx by done.
    eexists. split; [done|]. unfold cycle_at. cbn -[left_of]. rewrite Hf, Hc, Hw2. split; [done|]. rewrite (take_S_r _ _ _ Hx). split_and!; [done|lia|done|done].
Qed.

Lemma repeat_iterates v times w :
  match times with
  | Some t => iterates (repeat_next (V := V)) (replicate (Z.to_nat t) v) (repeat_init v times, w)
  | None => ∀ n, (calls n (repeat_next (V := V)) (repeat_init v times, w)).1 = (λ _, Return v) <$> seq 0 n
  end.
Proof using Type.
  destruct times as [t|].
  - apply (iterates_intro _ (λ l' s, rp_object s.1 = v ∧ ∃ m, rp_remaining s.1 = Some (Z.of_nat m) ∧ l' = replicate m v)).
    + intros l' [self w'] (Hv & m & Hm & ->). cbn [fst snd] in *. unfold repeat_next, mbind, prog_bind. cbn [self_of fst]. rewrite Hm.
      destruct m as [|m]; cbn -[Z.of_nat]; (eexists; split; [cbn; by rewrite ?Hv|]); (split; [done|]); [by exists 0%nat|].
      exists m. split; [cbn -[Z.of_nat]; f_equal; lia|done].
    + split; [done|]. exists (Z.to_nat t). split; [cbn; f_equal; lia|done].
  - intros n. apply (calls_numbered _ (λ _, Return v) (λ _ s, s.1 = {| rp_object := v; rp_remaining := None |})); [|done].
    intros i [self w'] Hs. cbn in Hs. subst self. eexists. by split.
Qed.

Lemma count_answers add start step w n :
  (calls n (count_next (λ a b, Return (add a b))) ({| co_cur := start; co_step := step |}, w)).1 =
    (λ i, Return (A := V) (Nat.iter i (λ x, add x step) start)) <$> seq 0 n.
Proof using Type.
  apply (calls_numbered _ (λ i, Return (A := V) (Nat.iter i (λ x, add x step) start)) (λ i s, s.1 = {| co_cur := Nat.iter i (λ x, add x step) start; co_step := step |})); [|done].
  intros i [self w'] Hs. cbn in Hs. subst self. eexists. by split.
Qed.

Lemma starmap_iterates unpack f w :
  iterates (starmap_next streams (λ v, Return (unpack v)) (λ args, Return (f args))) (f ∘ unpack <$> left_of w) ({| st_iter := it |}, w).
Proof using Hit.
  apply (iterates_intro _ (λ l' s, st_iter s.1 = it ∧ l' = f ∘ unpack <$> left_of s.2)); [|done].
  intros l' [self w'] [Hi ->]. cbn [fst snd] in *. unfold starmap_next, mbind, prog_bind. cbn [self_of fst]. rewrite Hi.
  read_source self w'; (eexists; split; [done|]); cbn [fst snd]; by rewrite Hw2.
Qed.

End passing.

(** The sources of a [chain], their iterators and their values. *)
Section chain.
  Context (iter_of : V → outcome nat) (sources : list V) (iters : list nat) (lists : list (list V)).
  Context (Hiters : Forall2 (λ source it, iter_of source = Return it) sources iters)
    (Hlists : Forall2 (λ it l, streams it = list_stream l) iters lists) (Hdistinct : NoDup iters).

Definition unread_from (j : nat) (w : World) : Prop := ∀ k it, (j ≤ k)%nat → iters !! k = Some it → w it = 0%nat.
Definition chain_at (l' : list V) (s : Chain * World) : Prop :=
  ch_sources s.1 = sources ∧
  match ch_cur_iter s.1 with
  | None => l' = mjoin (drop (ch_src_idx s.1) lists) ∧ unread_from (ch_src_idx s.1) s.2
  | Some it => ∃ l, iters !! ch_src_idx s.1 = Some it ∧ lists !! ch_src_idx s.1 = Some l ∧
      l' = drop (s.2 it) l ++ mjoin (drop (S (ch_src_idx s.1)) lists) ∧ unread_from (S (ch_src_idx s.1)) s.2
  end.

Lemma chain_next_eq fuel l' self (w : World) :
  chain_at l' (self, w) → (2 * (length sources - ch_src_idx self) + (if ch_cur_iter self is Some _ then 0 else 1) < fuel)%nat →
  ∃ s', chain_next streams iter_of fuel (self, w) = (first_of l', s') ∧ chain_at (tail l') s'.
Proof using Hiters Hlists Hdistinct.
  revert l' self w. induction fuel as [|fuel IH]; intros l' self w [Hsrc Hat] Hf; [lia|]. cbn [chain_next]. unfold mbind at 1, prog_bind at 1. cbn [self_of fst snd] in *.
  pose proof (Forall2_length _ _ _ Hiters) as Hl1. pose proof (Forall2_length _ _ _ Hlists) as Hl2. set (idx := ch_src_idx self) in *.
  destruct (ch_cur_iter self) as [it|] eqn:Hcur.
  - destruct Hat as (l & Hit & Hl & -> & Hun). assert (Hs : streams it = list_stream l) by by eapply Forall2_lookup_lr in Hlists.
    pose proof (lookup_lt_Some _ _ _ Hit) as Hlt. unfold attempt, mbind, prog_bind. rewrite (pull_eq it l) by done.
    assert (Hun' : unread_from (S idx) (<[it := S (w it)]> w)).
    { intros k it' Hk Hk'. rewrite fn_lookup_insert_ne; [by apply (Hun k)|]. intros <-. assert (idx = k) by (by eapply NoDup_lookup). lia. }
    destruct (drop (w it) l) as [|x rest] eqn:Hd.
    + rewrite (drop_nil_lookup _ _ Hd). cbn [is_stop_iteration stop_iteration modify_self modify fst snd]. apply IH; cbn [ch_src_idx ch_cur_iter ch_sources fst snd]; fold idx; [|rewrite Hl1 in *; lia].
      split; [done|]. cbn. fold idx. rewrite Nat.add_1_r. by split.
    + apply drop_cons in Hd as [-> Hd]. eexists. split; [done|]. split; [done|]. cbn -[drop mjoin]. fold idx. rewrite Hcur. exists l. rewrite fn_lookup_insert, Hd. by split_and!.
  - destruct Hat as [-> Hun]. rewrite Hsrc. destruct (sources !! idx) as [source|] eqn:Hsource.
    + destruct (Forall2_lookup_l _ _ _ _ _ Hiters Hsource) as (it & Hit & Hiter). destruct (Forall2_lookup_l _ _ _ _ _ Hlists Hit) as (l & Hl & Hs).
      unfold mbind, prog_bind. unfold pure at 1. rewrite Hiter. cbn [modify_self modify fst snd].
      rewrite (drop_S _ _ _ Hl). change (mjoin (l :: drop (S idx) lists)) with (l ++ mjoin (drop (S idx) lists)).
      apply IH; cbn [ch_src_idx ch_cur_iter ch_sources]; fold idx; [|lia]. split; [done|]. cbn [fst snd ch_cur_iter ch_src_idx]. fold idx. exists l.
      split; [done|]. split; [done|]. rewrite (Hun idx it) by done. split; [done|]. intros k it' Hk. apply (Hun k). lia.
    + apply lookup_ge_None in Hsource. rewrite drop_ge by lia. exists (self, w). split; [done|]. split; [done|]. cbn [fst snd]. rewrite Hcur. fold idx. rewrite drop_ge by lia. done.
Qed.

Lemma chain_iterates fuel w :
  unread_from 0 w → (2 * length sources + 1 < fuel)%nat →
  iterates (chain_next streams iter_of fuel) (mjoin lists) (chain_init sources, w).
Proof using Hiters Hlists Hdistinct.
  intros Hun Hf. apply (iterates_intro _ chain_at); [|split; [done|]; cbn -[mjoin]; by rewrite drop_0].
  intros l' [self w'] Hat. apply chain_next_eq; [done|]. destruct (ch_cur_iter self); lia.
Qed.

(** [chain.from_iterable], whose sources come from another iterator. *)
Context (outer : nat) (Houter : streams outer = list_stream sources) (Hfresh : outer ∉ iters).

Definition from_iterable_at (l' : list V) (s : ChainFromIterableState * World) : Prop :=
  cf_outer s.1 = outer ∧
  if cf_done s.1 then l' = []
  else match cf_inner s.1 with
  | None => l' = mjoin (drop (s.2 outer) lists) ∧ unread_from (s.2 outer) s.2
  | Some it => ∃ j l, s.2 outer = S j ∧ iters !! j = Some it ∧ lists !! j = Some l ∧
      l' = drop (s.2 it) l ++ mjoin (drop (S j) lists) ∧ unread_from (S j) s.2
  end.

Lemma unread_after j it n (w : World) :
  iters !! j = Some it → unread_from (S j) w → unread_from (S j) (<[it := n]> w).
Proof using Hdistinct.
  intros Hit Hun k it' Hk Hk'. rewrite fn_lookup_insert_ne; [by apply (Hun k)|]. intros <-. assert (j = k) by (by eapply NoDup_lookup). lia.
Qed.

Lemma from_iterable_next_eq fuel l' self (w : World) :
  from_iterable_at l' (self, w) → (2 * (length sources - w outer) + (if cf_inner self is Some _ then 1 else 0) < fuel)%nat →
  ∃ s', or_stop (advance_chain_from_iterable streams iter_of fuel) (self, w) = (first_of l', s') ∧ from_iterable_at (tail l') s'.
Proof using Hiters Hlists Hdistinct Houter Hfresh.
  revert l' self w. induction fuel as [|fuel IH]; intros l' self w [Ho Hat] Hf; [lia|].
  cbn [fst snd] in *. unfold or_stop. unfold mbind at 1, prog_bind at 1. cbn [advance_chain_from_iterable]. unfold mbind at 1, prog_bind at 1. cbn [self_of fst].
  pose proof (Forall2_length _ _ _ Hiters) as Hl1. pose proof (Forall2_length _ _ _ Hlists) as Hl2.
  destruct (cf_done self) eqn:Hdone.
  { subst l'. exists (self, w). split; [done|]. split; [done|]. cbn. by rewrite Hdone. }
  destruct (cf_inner self) as [it|] eqn:Hcur.
  - destruct Hat as (j & l & Hj & Hit & Hl & -> & Hun). assert (Hs : streams it = list_stream l) by by eapply Forall2_lookup_lr in Hlists.
    assert (Hne : it ≠ outer) by (intros ->; by apply list_elem_of_lookup_2 in Hit).
    unfold attempt at 1, mbind at 1, prog_bind at 1. rewrite (pull_eq it l) by done.
    destruct (drop (w it) l) as [|x rest] eqn:Hd.
    + rewrite (drop_nil_lookup _ _ Hd). cbn [is_stop_iteration stop_iteration]. unfold mbind at 1, prog_bind at 1. cbn [modify_self modify fst snd].
      apply (IH _ (cf_with_inner None self)); cbn [cf_inner cf_with_inner]; [|rewrite fn_lookup_insert_ne by done; rewrite Hj in *; lia].
      split; [done|]. cbn -[mjoin]. rewrite Hdone, fn_lookup_insert_ne, Hj by done. split; [done|]. by apply unread_after.
    + apply drop_cons in Hd as [-> Hd]. eexists. split; [done|]. split; [done|]. cbn -[drop mjoin]. rewrite Hdone, Hcur, fn_lookup_insert_ne by done.
      exists j, l. rewrite fn_lookup_insert, Hd. split_and!; try done. by apply unread_after.
  - destruct Hat as [-> Hun]. unfold attempt at 1, mbind at 1, prog_bind at 1. rewrite Ho, (pull_eq outer sources) by done.
    destruct (sources !! w outer) as [source|] eqn:Hsource.
    + pose proof (lookup_lt_Some _ _ _ Hsource) as Hlt.
      destruct (Forall2_lookup_l _ _ _ _ _ Hiters Hsource) as (it & Hit & Hiter). destruct (Forall2_lookup_l _ _ _ _ _ Hlists Hit) as (l & Hl & Hs).
      assert (Hne : it ≠ outer) by (intros ->; by apply list_elem_of_lookup_2 in Hit).
      unfold mbind at 1, prog_bind at 1. unfold pure at 1. rewrite Hiter. unfold mbind at 1, prog_bind at 1. cbn [modify_self modify fst snd].
      rewrite (drop_S _ _ _ Hl). change (mjoin (l :: drop (S (w outer)) lists)) with (l ++ mjoin (drop (S (w outer)) lists)).
      apply (IH _ (cf_with_inner (Some it) self)); cbn [cf_inner cf_with_inner]; [|rewrite fn_lookup_insert; lia].
      split; [done|]. cbn -[mjoin drop]. rewrite Hdone, fn_lookup_insert. exists (w outer), l. split; [done|]. split; [done|]. split; [done|].
      rewrite fn_lookup_insert_ne, (Hun (w outer) it) by done. split; [done|].
      intros k it' Hk Hk'. rewrite fn_lookup_insert_ne; [apply (Hun k); [lia|done]|]. intros <-. by apply list_elem_of_lookup_2 in Hk'.
    + apply lookup_ge_None in Hsource. rewrite drop_ge by lia. cbn [is_stop_iteration stop_iteration]. unfold mbind at 1, prog_bind at 1. cbn [modify_self modify fst snd].
      eexists. split; [done|]. split; [done|]. done.
Qed.

Lemma from_iterable_iterates fuel w :
  w outer = 0%nat → unread_from 0 w → (2 * length sources + 1 < fuel)%nat →
  iterates (or_stop (advance_chain_from_iterable streams iter_of fuel)) (mjoin lists) (chain_from_outer outer, w).
Proof using Hiters Hlists Hdistinct Houter Hfresh.
  intros Hw Hun Hf. apply (iterates_intro _ from_iterable_at); [|split; [done|]; cbn -[mjoin]; rewrite Hw; by rewrite drop_0].
  intros l' [self w'] Hat. apply from_iterable_next_eq; [done|].
  destruct Hat as [Ho Hat]. cbn [fst snd] in *. destruct (cf_inner self) eqn:Hi; lia.
Qed.
End chain.

(** The items at which the selectors are true. *)
Fixpoint selected (truth : V → bool) (items selectors : list V) : list V :=
  match items, selectors with
  | x :: items, s :: selectors => if truth s then x :: selected truth items selectors else selected truth items selectors
  | _, _ => []
  end.

Section compress.
  Context (data selectors : nat) (items flags : list V) (Hdata : streams data = list_stream items)
    (Hflags : streams selectors = list_stream flags) (Hne : data ≠ selectors).

Lemma compress_loop_eq truth fuel self (w : World) :
  (length (left_of data items w) < fuel)%nat →
  ∃ w', compress_loop streams (λ v, Return (truth v)) data selectors fuel (self, w) =
      (first_of (selected truth (left_of data items w) (left_of selectors flags w)), (self, w')) ∧
    (length (left_of data items w') ≤ length (left_of data items w))%nat ∧
    tail (selected truth (left_of data items w) (left_of selectors flags w)) = selected truth (left_of data items w') (left_of selectors flags w').
Proof using Hdata Hflags Hne.
  revert w. induction fuel as [|fuel IH]; intros w Hf; [lia|]. cbn [compress_loop]. unfold mbind, prog_bind. rewrite (pull_eq data items) by done.
  assert (Hkeep : ∀ n, left_of selectors flags (<[data := n]> w) = left_of selectors flags w).
  { intros n. unfold left_of. by rewrite fn_lookup_insert_ne. }
  assert (Hnext : left_of data items (<[data := S (w data)]> w) = tail (left_of data items w)).
  { unfold left_of. by rewrite fn_lookup_insert, drop_S_tail. }
  destruct (left_of data items w) as [|x rest] eqn:Hd; unfold left_of in Hd.
  { rewrite (drop_nil_lookup _ _ Hd). eexists. split; [done|]. rewrite Hnext. done. }
  apply drop_cons in Hd as [-> _]. cbn [tail length] in *.
  destruct (pull_left selectors flags Hflags self (<[data := S (w data)]> w)) as (w2 & Hpull & Hw2). rewrite Hkeep in Hpull, Hw2. rewrite Hpull.
  assert (Hd2 : left_of data items w2 = rest).
  { rewrite (pull_eq selectors flags) in Hpull by done. assert (w2 = <[selectors := S (w selectors)]> (<[data := S (w data)]> w)) as ->.
    { injection Hpull as _ <-. by rewrite fn_lookup_insert_ne. }
    rewrite <- Hnext. unfold left_of. by rewrite (fn_lookup_insert_ne _ selectors data) by done. }
  destruct (left_of selectors flags w) as [|s srest]; cbn [first_of tail selected] in *.
  - eexists. split; [done|]. rewrite Hd2, Hw2. split; [lia|]. by destruct rest.
  - unfold pure. destruct (truth s).
    + eexists. split; [done|]. rewrite Hd2, Hw2. split; [lia|done].
    + destruct (IH w2) as (w' & -> & Hle & Ht); rewrite Hd2 in *; [lia|]. exists w'. rewrite Hw2 in *. split; [done|]. split; [lia|done].
Qed.

Lemma compress_iterates truth fuel w :
  (length (left_of data items w) < fuel)%nat →
  iterates (compress_next streams (λ v, Return (truth v)) fuel) (selected truth (left_of data items w) (left_of selectors flags w))
    ({| cm_data := data; cm_selectors := selectors |}, w).
Proof using Hdata Hflags Hne.
  intros Hf. apply (iterates_intro _ (λ l' s, s.1 = {| cm_data := data; cm_selectors := selectors |} ∧ (length (left_of data items s.2) < fuel)%nat ∧
    l' = selected truth (left_of data items s.2) (left_of selectors flags s.2))); [|done].
  intros l' [self w'] (Hs & Hlen & ->). cbn [fst snd] in *. subst self. unfold compress_next, mbind, prog_bind. cbn [self_of fst cm_data cm_selectors].
  destruct (compress_loop_eq truth fuel {| cm_data := data; cm_selectors := selectors |} w' Hlen) as (w2 & -> & ? & ->). eexists. split; [done|]. cbn [fst snd].
  split; [done|]. split; [lia|done].
Qed.
End compress.

(** The rows of [zip_longest]: the longest list says how many there are. *)
Definition row (fill : V) (lists : list (list V)) (k : nat) : list V := (λ l, default fill (l !! k)) <$> lists.
Definition rows_from (fill : V) (lists : list (list V)) (k : nat) : list (list V) :=
  row fill lists <$> seq k (max_list (length <$> lists) - k).

Section zip_longest.
  Context (fill : V).

(** The sources that have not stopped before row [k]. *)
Definition stopped_before (k : nat) (lists : list (list V)) : list bool := (λ l, (length l <? k)%nat) <$> lists.
Definition active_at (k : nat) (lists : list (list V)) : Z := vlen (filter (λ l, k ≤ length l)%nat lists).

Lemma zip_longest_row_eq k iters lists active self (w : World) :
  Forall2 (λ it l, streams it = list_stream l) iters lists → NoDup iters →
  Forall2 (λ it l, (length l <? k)%nat = false → w it = k) iters lists →
  ∃ w', zip_longest_row streams fill (zip iters (stopped_before k lists)) active (self, w) =
      (Return (row fill lists k, stopped_before (S k) lists, active - active_at k lists + active_at (S k) lists), (self, w')) ∧
    Forall2 (λ it l, (length l <? S k)%nat = false → w' it = S k) iters lists ∧ ∀ it, it ∉ iters → w' it = w it.
Proof using Type.
  intros Hs. revert active w. induction Hs as [|it' l iters lists Hit Hs IH]; intros active w Hnd Hw.
  { exists w. split; [|done]. by replace (active - active_at k [] + active_at (S k) []) with active by (unfold active_at, vlen; cbn; lia). }
  apply NoDup_cons in Hnd as [Hnotin Hnd]. apply Forall2_cons in Hw as [Hwit Hw].
  unfold stopped_before, row, active_at. rewrite !fmap_cons. fold (stopped_before k lists) (stopped_before (S k) lists). cbn [zip zip_with]. fold (row fill lists k).
  rewrite !filter_cons.
  destruct (Nat.ltb_spec (length l) k) as [Hk|Hk].
  - cbn [zip_longest_row]. unfold mbind, prog_bind. destruct (IH active w Hnd Hw) as (w' & -> & Hw' & Hout).
    rewrite (lookup_ge_None_2 l k) by lia. destruct (Nat.ltb_spec (length l) (S k)); [|lia]. rewrite !decide_False by lia.
    exists w'. split; [done|]. split; [constructor; [rewrite Nat.ltb_ge; lia|done]|]. intros it Hin. apply Hout. set_solver.
  - cbn [zip_longest_row]. unfold attempt, mbind, prog_bind. rewrite (pull_eq it' l), Hwit by first [done|by apply Nat.ltb_ge].
    assert (Hw2 : Forall2 (λ it l, (length l <? k)%nat = false → <[it' := S k]> w it = k) iters lists).
    { destruct (proj1 (Forall2_same_length_lookup _ _ _) Hw) as [Hlen Hw']. apply Forall2_same_length_lookup. split; [done|]. intros i it l' Hi Hl Hfresh.
      rewrite fn_lookup_insert_ne; [by apply (Hw' i _ l')|]. intros ->. by apply list_elem_of_lookup_2 in Hi. }
    assert (Hw3 : ∀ w', (∀ it, it ∉ iters → w' it = <[it' := S k]> w it) → w' it' = S k ∧ ∀ it, it ∉ it' :: iters → w' it = w it).
    { intros w' Hout. split; [rewrite Hout by done; apply fn_lookup_insert|]. intros it Hin. rewrite Hout by set_solver. rewrite fn_lookup_insert_ne; [done|set_solver]. }
    rewrite decide_True by done. destruct (Nat.ltb_spec (length l) (S k)) as [Hk'|Hk'].
    + rewrite (lookup_ge_None_2 l k) by lia. rewrite decide_False by lia. cbn [is_stop_iteration stop_iteration].
      destruct (IH (active - 1) _ Hnd Hw2) as (w' & -> & Hw' & Hout). destruct (Hw3 w' Hout) as [Hat Hout'].
      exists w'. split; [|by split; [constructor|]]. unfold mret, prog_ret, active_at, vlen. cbn [length]. do 3 f_equal. lia.
    + destruct (lookup_lt_is_Some_2 l k) as [v Hv]; [lia|]. rewrite Hv. rewrite decide_True by lia.
      destruct (IH active _ Hnd Hw2) as (w' & -> & Hw' & Hout). destruct (Hw3 w' Hout) as [Hat Hout'].
      exists w'. split; [|by split; [constructor|]]. unfold mret, prog_ret, active_at, vlen. cbn [length]. do 3 f_equal. lia.
Qed.

Lemma active_zero k lists : active_at (S k) lists = 0 ↔ (max_list (length <$> lists) ≤ k)%nat.
Proof using Type.
  unfold active_at, vlen. induction lists as [|l lists IH]; [cbn; split; lia|]. rewrite filter_cons. change (max_list (length <$> l :: lists)) with (length l `max` max_list (length <$> lists))%nat.
  destruct (decide (S k ≤ length l)%nat); [cbn [length]; split; lia|]. split; [intros ?%IH; lia|intros ?; apply IH; lia].
Qed.

Lemma active_decreases k lists : active_at (S k) lists ≤ active_at k lists.
Proof using Type.
  unfold active_at, vlen. induction lists as [|l lists IH]; [done|]. rewrite !filter_cons.
  destruct (decide (S k ≤ length l)%nat), (decide (k ≤ length l)%nat); cbn [length]; lia.
Qed.

Definition zip_longest_state (iters : list nat) (lists : list (list V)) (k : nat) : ZipLongest :=
  {| zl_iters := iters; zl_fillvalue := fill; zl_active := active_at k lists; zl_done := stopped_before k lists |}.

Lemma zip_longest_iterates iters lists w :
  Forall2 (λ it l, streams it = list_stream l) iters lists → NoDup iters → Forall (λ it, w it = 0%nat) iters →
  iterates (zip_longest_next streams) (rows_from fill lists 0) (zip_longest_init iters fill, w).
Proof using Type.
  intros Hs Hnd Hw. pose proof (Forall2_length _ _ _ Hs) as Hlen.
  apply (iterates_intro _ (λ l' s, ∃ k, s.1 = zip_longest_state iters lists k ∧ l' = rows_from fill lists k ∧
    Forall2 (λ it l, (length l <? k)%nat = false → s.2 it = k) iters lists)).
  - intros l' [self w'] (k & Hself & -> & Hat). cbn [fst snd] in *. subst self. unfold zip_longest_next. unfold mbind at 1, prog_bind at 1. cbn [self_of fst zip_longest_state zl_active zl_done zl_iters zl_fillvalue].
    pose proof (active_zero k lists) as Hz. pose proof (active_decreases k lists) as Hd.
    destruct (Z.eqb_spec (active_at k lists) 0) as [H0|H0].
    { assert (Hm : (max_list (length <$> lists) ≤ k)%nat) by (apply Hz; unfold active_at, vlen in *; lia).
      unfold rows_from. replace (max_list (length <$> lists) - k)%nat with 0%nat by lia. eexists. split; [done|]. exists k. split; [done|]. split; [|done].
      unfold rows_from. by replace (max_list (length <$> lists) - k)%nat with 0%nat by lia. }
    replace (length (stopped_before k lists) =? length iters)%nat with true by (unfold stopped_before; rewrite length_fmap, Hlen; symmetry; apply Nat.eqb_refl). cbn [negb].
    unfold mbind at 1, prog_bind at 1.
    destruct (zip_longest_row_eq k iters lists (active_at k lists) (zip_longest_state iters lists k) w' Hs Hnd Hat) as (w2 & -> & Hat2 & _).
    unfold mbind at 1, prog_bind at 1. cbn [modify_self modify fst snd zl_iters zl_fillvalue zip_longest_state].
    replace (active_at k lists - active_at k lists + active_at (S k) lists) with (active_at (S k) lists) by lia. unfold rows_from.
    destruct (Z.eqb_spec (active_at (S k) lists) 0) as [H1|H1].
    + apply Hz in H1 as Hm. replace (max_list (length <$> lists) - k)%nat with 0%nat by lia. eexists. split; [done|]. exists (S k). split; [done|]. split; [|done].
      by replace (max_list (length <$> lists) - S k)%nat with 0%nat by lia.
    + assert (k < max_list (length <$> lists))%nat by (destruct (decide (max_list (length <$> lists) ≤ k)%nat) as [Hle|]; [by apply Hz in Hle|lia]).
      replace (max_list (length <$> lists) - k)%nat with (S (max_list (length <$> lists) - S k)) by lia. eexists. split; [done|]. by exists (S k).
  - exists 0%nat. split; [|split; [done|]].
    + unfold zip_longest_init, zip_longest_state, active_at, stopped_before, vlen. cbn [fst]. f_equal; [|].
      * rewrite Hlen. f_equal. f_equal. clear. induction lists as [|l lists IH]; [done|]. rewrite filter_cons, decide_True by lia. by f_equal.
      * rewrite Hlen. clear. induction lists as [|l lists IH]; [done|]. cbn. by f_equal.
    + apply Forall2_same_length_lookup. split; [done|]. intros i it l Hi _ _. by eapply Forall_lookup_1 in Hw.
Qed.
End zip_longest.
End adaptors.

(** [islice] with its three arguments. *)
Lemma islice_init_eq it start stop step :
  Z.of_nat start < 2 ^ 63 → Z.of_nat (default 0%nat stop) < 2 ^ 63 → (0 < step)%nat →
  islice_init it [SlotInt (Z.of_nat start); match stop with Some e => SlotInt (Z.of_nat e) | None => SlotNone end; SlotInt (Z.of_nat step)] =
    Return (islice_state it start stop step 0).
Proof.
  intros Hs He Hstep. unfold islice_init, slice_arg. destruct (Z.leb_spec 0 (Z.of_nat start)); [|lia]. destruct (Z.leb_spec 0 (Z.of_nat step)); [|lia].
  destruct stop as [e|]; cbn -[i64_exact] in *; [destruct (Z.leb_spec 0 (Z.of_nat e)); [|lia]|]; cbn -[i64_exact];
    (destruct (Z.leb_spec (Z.of_nat step) 0); [lia|]).
  - destruct (Z.ltb_spec (Z.of_nat e) 0); [lia|]. destruct (Z.ltb_spec (Z.of_nat start) 0); [lia|]. cbn -[i64_exact].
    rewrite i64_exact_ok; [done|]. unfold i64_range. lia.
  - by destruct (Z.ltb_spec (Z.of_nat start) 0); [lia|].
Qed.

(** ** What the iterators promise *)


(** C6: When memory suffices, [product] gives the tuples of the Cartesian
    product of its repeated iterables in lexicographic order; [combinations],
    with and without replacement, those of positions that ascend, and
    [permutations] those of positions that are all different, again in
    lexicographic order, and then they stop.  A copy made at any time goes on as
    its original does; made after the end it starts anew without elements. *)
Theorem combinatoric_iterators_enumerate {V} (try_reserve_exact : nat → bool) :
  (∀ n, try_reserve_exact n = true) →
  (∀ (iterables : list (list V)) repeat, 0 ≤ repeat → vlen iterables * repeat < 2 ^ 60 →
    ∃ c, product_init try_reserve_exact iterables repeat = Return c ∧
      enumerates (product_next try_reserve_exact) (cartesian (mjoin (replicate (Z.to_nat repeat) iterables))) [] c) ∧
  (∀ wr (pool : list V) r,
    ∃ c, init_combo_state try_reserve_exact pool (Z.of_nat r) wr = Return c ∧
      enumerates (advance_combinations try_reserve_exact wr)
        (picked pool <$> filter (λ t, ascending wr t = true) (cartesian (replicate r (seq 0 (length pool))))) (restart r) c) ∧
  (∀ (pool : list V) (r : option nat), let k := default (length pool) r in
    ∃ c, permutations_init try_reserve_exact pool (Z.of_nat <$> r) = Return c ∧
      enumerates (permutations_next try_reserve_exact)
        (picked pool <$> filter NoDup (cartesian (replicate k (seq 0 (length pool))))) (restart k) c).
Proof.
  intros Hmem. split; [|split].
  - intros iterables repeat Hr Hsize. destruct (product_init_ok try_reserve_exact Hmem iterables repeat Hr Hsize) as (c & -> & Hc). by eexists.
  - intros wr pool r. destruct (init_combo_ok try_reserve_exact Hmem pool r wr) as (c & -> & Hc). eexists. split; [done|].
    rewrite <- choices_ascending. by apply combinations_enumerate.
  - intros pool r k. destruct (permutations_init_ok try_reserve_exact Hmem pool r) as (c & -> & Hc). eexists. split; [done|].
    rewrite <- arrangements_distinct by apply NoDup_seq. by apply permutations_enumerate.
Qed.

(** C22: However a program interleaves the calls of the iterators of one [tee]
    and drops them, and whatever its source does with them meanwhile, every
    iterator gives the values of the source from the first on, each once; it
    stops only when it has given them all; the buffer holds the values that the
    slowest iterator has not given yet and nothing else; and one that is behind
    takes its next value without calling the source. *)
Theorem tee_iterators_agree {V} (source : nat → list tee_action * (V + PyError)) count actions :
  vlen actions < usize_max - 1 →
  ∃ s, tee_run source 2 actions (tee_new count) = (Return tt, s) ∧
    let h := pulled source (te_calls s) in
    (∀ slot, received slot (te_seen s) `prefix_of` h) ∧
    (∀ slot r, (slot, r) ∈ te_seen s →
      match r with
      | Return (Some _) | Raise _ => True
      | Return None => received slot (te_seen s) = h
      | _ => False
      end) ∧
    te_buffer s = drop (Z.to_nat (default (vlen h) (least_position (te_positions s)))) h ∧
    (∀ slot p, te_positions s !! slot = Some (Some p) →
      received slot (te_seen s) = take (Z.to_nat p) h ∧
      ∀ v, h !! Z.to_nat p = Some v → ∃ s', advance_tee source 2 slot s = (Return (Some v), s') ∧ te_calls s' = te_calls s).
Proof.
  intros Hn. destruct (tee_run_ok source 0 actions (tee_new count)) as (s & Hrun & [Hk Hb] & Ha & Hc); [apply tee_new_ok|done|cbn; lia|].
  exists s. split; [exact Hrun|]. intros h. split; [apply (keeps_prefix _ _ Hk)|]. split.
  { intros slot r Hin. pose proof (keeps_seen _ _ Hk _ _ Hin) as Hans. destruct r as [[v|]| | |]; [done|by destruct Hans|done..]. }
  split; [unfold h; rewrite <- Hb; apply (keeps_buffer _ _ Hk)|]. intros slot p Hp. split; [by apply (keeps_position _ _ Hk)|]. intros v Hv.
  destruct (advance_idle source 0 s slot) as (r & s' & Hadv & _ & _ & _ & Hlive); [done|cbn in Hc; lia|done|].
  destruct (Hlive p v Hp Hv) as [-> ?]. by exists s'.
Qed.

(** C28: [islice] gives the items at the positions from [start] on by [step]
    that lie before [stop], in order; when it has given some of them, its source
    has been read up to the last one given and no further, and it is never read
    past the end of the slice. *)
Theorem islice_is_lazy {V} (streams : nat → nat → V + PyError) it (l : list V) (w : World) start (stop : option nat) step n :
  streams it = list_stream l → w it = 0%nat → (0 < step)%nat → Z.of_nat start < 2 ^ 63 → Z.of_nat (default 0%nat stop) < 2 ^ 63 →
  let items := omap (λ k, let i := (start + k * step)%nat in
    if match stop with Some e => (i <? e)%nat | None => true end then l !! i else None) (seq 0 (length l)) in
  ∃ self self' w',
    islice_init it [SlotInt (Z.of_nat start); match stop with Some e => SlotInt (Z.of_nat e) | None => SlotNone end; SlotInt (Z.of_nat step)] = Return self ∧
    calls n (islice_next streams) (self, w) = (results n items, (self', w')) ∧
    ((n ≤ length items)%nat → w' it = match n with O => 0 | S k => start + k * step + 1 end%nat) ∧
    (∀ e, stop = Some e → (w' it ≤ start `max` e)%nat).
Proof.
  intros Hit Hw Hstep Hstart Hstop items. rewrite (islice_init_eq it start stop step) by done.
  destruct (islice_results streams it l Hit start stop step Hstep n w Hw) as (self' & w' & Hc & Hr & Hb).
  assert (Hitems : items = slice_items l start stop step 0) by (unfold slice_items; by rewrite Nat.sub_0_r).
  rewrite Hitems. eexists _, self', w'. split; [done|]. split; [exact Hc|]. split; [|exact Hb]. intros Hle. rewrite (Hr Hle). by destruct n.
Qed.

(** C31: Where equality of keys is reflexive, symmetric and transitive,
    [groupby] cuts its source into the maximal runs of elements with the same
    key, and hands them out in order: when the program takes any number of items
    of each group before it asks for the next group, the groups have the keys of
    the runs and give their elements, and then there is no group left.  A group
    that the program has moved on from gives nothing.  A key that is not equal to
    itself, such as a NaN, is excluded: [groupby_unequal_key_never_ends]. *)
Theorem groupby_hands_out_runs {V} (streams : nat → nat → V + PyError) it (l : list V) (w : World) none key (same : V → V → bool) js :
  streams it = list_stream l → w it = 0%nat →
  (∀ k, same k k = true) → (∀ k k', same k k' = same k' k) → (∀ k1 k2 k3, same k1 k2 = true → same k2 k3 = true → same k1 k3 = true) →
  Z.of_nat (length js) < 2 ^ 63 - 1 →
  let groups := runs key same l in
  let next := groupby_next streams (λ v, Return (key v)) (λ k k', Return (same k k')) (S (length l)) in
  (mjoin groups = l ∧ are_runs key same groups) ∧
  ((length js ≤ length groups)%nat →
    ∃ s, take_groups streams key same (S (length l)) js (groupby_init none it, w) = (Return (mjoin (zip_with (group_answer key) js groups)), s) ∧
      (length js = length groups → ∃ s', next s = (Raise stop_iteration, s'))) ∧
  (∀ group s, gr_id group ≠ gb_id s.1 →
    grouper_next streams (λ v, Return (key v)) (λ k k', Return (same k k')) group s = (Raise stop_iteration, s)).
Proof.
  intros Hit Hw Hrefl Hsym Htrans Hjs groups next. destruct (runs_are_runs key same Hsym Htrans l) as [Hr Hj]. split; [by split|]. split; [intros Hlen|intros group s; apply grouper_stale].
  assert (Hok : gb_ok it l key ([] ++ mjoin groups) (groupby_init none it, w)).
  { split; [done|]. split; [done|]. unfold ahead. cbn. unfold groups. by rewrite Hj, Hw. }
  apply (take_groups_eq streams it l Hit key same Hrefl (S (length l)) js groups [] (groupby_init none it, w)); try done.
  - cbn [app]. unfold groups. rewrite Hj. lia.
Qed.

(** C39: The other lazy iterators compute the list functions they are named
    for, value by value: [chain] and [chain.from_iterable] the concatenation of
    their sources, [takewhile], [dropwhile], [filterfalse] and [compress] the
    part of the source they select, [starmap] the results of the function,
    [accumulate] the running results, [pairwise] the neighbours, [batched] the
    batches, [zip_longest] the rows with the missing values filled in, and
    [cycle], [repeat] and [count] their endless or counted sequences. *)
Theorem lazy_iterators_compute {V} (streams : nat → nat → V + PyError) it (l : list V) (w : World) none :
  streams it = list_stream l → w it = 0%nat →
  (∀ iter_of sources iters lists fuel,
    Forall2 (λ source i, iter_of source = Return i) sources iters → Forall2 (λ i l, streams i = list_stream l) iters lists → NoDup iters →
    Forall (λ i, w i = 0%nat) iters → (2 * length sources + 1 < fuel)%nat →
    iterates (chain_next streams iter_of fuel) (mjoin lists) (chain_init sources, w) ∧
    (l = sources → it ∉ iters → iterates (or_stop (advance_chain_from_iterable streams iter_of fuel)) (mjoin lists) (chain_from_outer it, w)) ∧
    ∀ fillvalue, iterates (zip_longest_next streams)
      ((λ k, (λ l, default fillvalue (l !! k)) <$> lists) <$> seq 0 (max_list (length <$> lists))) (zip_longest_init iters fillvalue, w)) ∧
  (∀ p fuel, (length l < fuel)%nat →
    iterates (takewhile_next streams (λ v, Return (p v))) (take_while p l) ({| tw_iter := it; tw_done := false |}, w) ∧
    iterates (dropwhile_next streams (λ v, Return (p v)) fuel) (drop_while p l) ({| dw_iter := it; dw_started := false |}, w) ∧
    iterates (filterfalse_next streams (λ v, Return (p v)) fuel) (filter (λ v, p v = false) l) ({| ff_iter := it |}, w) ∧
    ∀ selectors flags, streams selectors = list_stream flags → w selectors = 0%nat → it ≠ selectors →
      iterates (compress_next streams (λ v, Return (p v)) fuel) (selected p l flags) ({| cm_data := it; cm_selectors := selectors |}, w)) ∧
  (∀ unpack f, iterates (starmap_next streams (λ v, Return (unpack v)) (λ args, Return (f args))) (f ∘ unpack <$> l) ({| st_iter := it |}, w)) ∧
  (∀ f initial, iterates (accumulate_next streams (λ a b, Return (f a b))) (running f initial l) (accumulate_init none it initial, w)) ∧
  iterates (pairwise_next streams) (zip l (tail l)) (pairwise_init none it, w) ∧
  (∀ n, 1 ≤ n → n * 8 < 2 ^ 63 → ∃ self, batched_init it n = Return self ∧
    iterates (batched_next streams) (chunks (length l) (Z.to_nat n) l) (self, w)) ∧
  (∀ n, (calls n (cycle_next streams) (cycle_init it, w)).1 = cycled l <$> seq 0 n) ∧
  (∀ v times, match times with
    | Some t => iterates (repeat_next (V := V)) (replicate (Z.to_nat t) v) (repeat_init v times, w)
    | None => ∀ n, (calls n (repeat_next (V := V)) (repeat_init v times, w)).1 = (λ _, Return v) <$> seq 0 n
    end) ∧
  (∀ add start step n, (calls n (count_next (λ a b, Return (add a b))) ({| co_cur := start; co_step := step |}, w)).1 =
    (λ i, Return (A := V) (Nat.iter i (λ x, add x step) start)) <$> seq 0 n).
Proof.
  intros Hit Hw. assert (Hl : left_of it l w = l) by (unfold left_of; by rewrite Hw, drop_0). split; [|split; [|split; [|split; [|split; [|split; [|split; [|split]]]]]]].
  - intros iter_of sources iters lists fuel Hi Hls Hnd H0 Hf.
    assert (Hun : unread_from iters 0 w) by (intros k i _ Hk; by eapply Forall_lookup_1 in H0).
    split; [by eapply chain_iterates|]. split; [intros -> Hout; by eapply from_iterable_iterates|]. intros fillvalue.
    pose proof (zip_longest_iterates streams fillvalue iters lists w Hls Hnd H0) as Hzip. unfold rows_from in Hzip. by rewrite Nat.sub_0_r in Hzip.
  - intros p fuel Hf. rewrite <- Hl in Hf |- * at 1 2 3. split; [by apply takewhile_iterates|]. split; [by apply dropwhile_iterates|].
    split; [by apply filterfalse_iterates|]. intros selectors flags Hs H0 Hne.
    pose proof (compress_iterates streams it selectors l flags Hit Hs Hne p fuel w Hf) as Hc. unfold left_of in Hc. by rewrite Hw, H0, !drop_0 in Hc.
  - intros unpack f. rewrite <- Hl. by apply starmap_iterates.
  - intros f initial. rewrite <- Hl at 1. by apply accumulate_iterates.
  - rewrite <- Hl at 1 2. by apply pairwise_iterates.
  - intros n Hn1 Hn. unfold batched_init. destruct (Z.ltb_spec n 1); [lia|]. eexists. split; [done|]. rewrite <- Hl at 1 2. by apply batched_iterates.
  - intros n. rewrite <- Hl at 1. by apply cycle_answers.
  - intros v times. apply repeat_iterates.
  - intros add start step n. apply count_answers.
Qed.

(** ** Evaluations *)

Lemma combinatoric_iterators_enumerate_witness :
  ∃ c, permutations_init (λ _, true) [1; 2; 3]%nat (Some 2) = Return c ∧
  ∃ c', calls 7 (permutations_next (λ _, true)) c = (results 7 [[1; 2]; [1; 3]; [2; 1]; [2; 3]; [3; 1]; [3; 2]]%nat, c').
Proof.
  destruct (combinatoric_iterators_enumerate (V := nat) (λ _, true) (λ _, eq_refl)) as (_ & _ & Hp).
  destruct (Hp [1; 2; 3]%nat (Some 2%nat)) as (c & Hc & He). exists c. split; [exact Hc|].
  destruct (He 7%nat) as (c' & Hcalls & _). exists c'. exact Hcalls.
Defined.

(** A source that lets the second iterator run while the first one waits. *)
Definition sample_source (k : nat) : list tee_action * (nat + PyError) :=
  match k with
  | O => ([], inl 10%nat)
  | 1%nat => ([TNext 1; TNext 0], inl 20%nat)
  | _ => ([], inr stop_iteration)
  end.
Definition sample_actions : list tee_action := [TNext 0; TNext 0; TNext 1; TNext 0; TDrop 0; TNext 1].

Lemma tee_iterators_agree_witness :
  vlen sample_actions < usize_max - 1 ∧
  ∃ s, tee_run sample_source 2 sample_actions (tee_new 2) = (Return tt, s) ∧
    te_buffer s = [] ∧ received 0 (te_seen s) `prefix_of` [10; 20]%nat ∧ received 1 (te_seen s) = [10; 20]%nat.
Proof.
  split; [reflexivity|]. destruct (tee_iterators_agree sample_source 2 sample_actions eq_refl) as (s & Hrun & Hp & _ & Hb & Hl).
  exists s. split; [exact Hrun|].
  assert (Hs : s = (tee_run sample_source 2 sample_actions (tee_new 2)).2) by (rewrite Hrun; reflexivity). rewrite Hs in *.
  split; [exact Hb|]. split; [exact (Hp 0%nat)|]. exact (proj1 (Hl 1%nat 2 eq_refl)).
Defined.

Definition letters : list nat := [10; 11; 12; 13; 14; 15]%nat.
Definition sample_streams (it : nat) : nat → nat + PyError := list_stream letters.

Lemma islice_is_lazy_witness :
  list_stream letters = sample_streams 0 ∧ ∃ self self' w',
    islice_init 0 [SlotInt 1; SlotInt 6; SlotInt 2] = Return self ∧
    calls 2 (islice_next sample_streams) (self, λ _, 0%nat) = (results 2 [11; 13; 15]%nat, (self', w')) ∧ w' 0%nat = 4%nat.
Proof.
  split; [reflexivity|].
  destruct (islice_is_lazy sample_streams 0 letters (λ _, 0%nat) 1 (Some 6%nat) 2 2) as (self & self' & w' & Hi & Hc & Hr & _);
    [reflexivity|reflexivity|lia|reflexivity|reflexivity|].
  exists self, self', w'. split; [exact Hi|]. split; [exact Hc|]. apply Hr. cbn. lia.
Defined.

(** Groups of numbers by their tens. *)
Definition tens (n : nat) : nat := (n / 10)%nat.

Lemma groupby_hands_out_runs_witness :
  let streams := λ _ : nat, list_stream [11; 12; 25; 31; 32; 33]%nat in
  ∃ s, take_groups streams tens Nat.eqb 7 [2; 0; 5]%nat (groupby_init 0%nat 0, λ _, 0%nat) =
    (Return [(1%nat, results 2 [11; 12]%nat); (2%nat, results 0 [25]%nat); (3%nat, results 5 [31; 32; 33]%nat)], s).
Proof.
  intros streams.
  destruct (groupby_hands_out_runs streams 0 [11; 12; 25; 31; 32; 33]%nat (λ _, 0%nat) 0%nat tens Nat.eqb [2; 0; 5]%nat) as (_ & Hg & _);
    [reflexivity|reflexivity|apply Nat.eqb_refl|apply Nat.eqb_sym| |reflexivity|].
  - intros k1 k2 k3 H12 H23. apply Nat.eqb_eq in H12, H23. apply Nat.eqb_eq. congruence.
  - destruct Hg as (s & Hs & _); [cbn; lia|]. exists s. exact Hs.
Defined.

Lemma lazy_iterators_compute_witness :
  (calls 8 (cycle_next sample_streams) (cycle_init 0, λ _, 0%nat)).1 = Return <$> letters ++ [10; 11]%nat ∧
  ∃ self, batched_init 0 4 = Return self ∧ iterates (batched_next sample_streams) [[10; 11; 12; 13]; [14; 15]]%nat (self, λ _, 0%nat).
Proof.
  destruct (lazy_iterators_compute sample_streams 0 letters (λ _, 0%nat) 0%nat eq_refl eq_refl) as (_ & _ & _ & _ & _ & Hb & Hc & _).
  split; [exact (Hc 8%nat)|]. destruct (Hb 4) as (self & Hi & He); [lia|lia|]. exists self. split; [exact Hi|exact He].
Defined.

(** ** Divergences *)

(** A key that is not equal to itself, such as a NaN: every call of [groupby]
    hands out another group of the same element, none of the groups has an
    element, and the source never comes to its end. *)
Example groupby_unequal_key_never_ends :
  let next := groupby_next sample_streams (λ v, Return v) (λ _ _, Return false) 7 in
  let r := calls 3 next (groupby_init 0%nat 0, λ _, 0%nat) in
  r.1 = [Return (10%nat, {| gr_tgtkey := 10%nat; gr_id := 1 |}); Return (10%nat, {| gr_tgtkey := 10%nat; gr_id := 2 |});
         Return (10%nat, {| gr_tgtkey := 10%nat; gr_id := 3 |})] ∧
  (grouper_next sample_streams (λ v, Return v) (λ _ _, Return false) {| gr_tgtkey := 10%nat; gr_id := 3 |} r.2).1 = Raise stop_iteration.
Proof. by split. Qed.

(** After an exception of its source, [accumulate] adds the first value to
    [None]; it has not begun. *)
Example accumulate_starts_from_none :
  let streams := λ _ k : nat, match k with O => inr (ValueError "") | _ => inl 5%nat end in
  (calls 2 (accumulate_next streams (λ a b, Return (100 * a + b)%nat)) (accumulate_init 7%nat 0 None, λ _, 0%nat)).1 =
    [Raise (ValueError ""); Return 705%nat].
Proof. reflexivity. Qed.

(** An exception of one source makes [zip_longest] forget that another has
    stopped in the same step, and call it again. *)
Example zip_longest_forgets_a_stop :
  let streams := λ it k : nat, match it, k with O, O => inr stop_iteration | _, O => inr (ValueError "") | it, _ => inl it end in
  (calls 2 (zip_longest_next streams) (zip_longest_init [0; 1]%nat 9%nat, λ _, 0%nat)).1 = [Raise (ValueError ""); Return [0; 1]%nat].
Proof. reflexivity. Qed.

(** A batch size that no vector can have is a panic when the first batch is
    asked for. *)
Example batched_capacity_panics :
  (batched_next sample_streams ({| ba_iter := 0; ba_n := 2 ^ 62; ba_exhausted := false |}, λ _, 0%nat)).1 = Panicked.
Proof. reflexivity. Qed.
