(* ===== verification/Parser.v ===== *)
(** The parser of expressions (crates/pyrust/src/parser: model.rs,
    expressions.rs, operators.rs, postfix.rs, primaries.rs, fstrings.rs and the
    parts of assignment.rs and control_flow.rs that expressions use), and the
    syntax trees it makes (ast.rs). *)

From stdpp Require Import strings.
From S2P Require Import Outcome Prelude Double IntArith Bytecode Chars LexLiterals Lexer Combinatorics.

(** ** Syntax trees *)

Module CmpOp.
Inductive CmpOp : Type := Eq | Ne | Lt | Le | Gt | Ge | In | NotIn | Is | IsNot.
End CmpOp.

Definition CaretSpan : Type := Z * Z * Z * Z.
Definition MULTILINE_FULL_END : Z := 2 ^ 32 - 1.

Module Ast.
Inductive Expr : Type :=
  | Int (n : Z)
  | BigInt (text : list Z)
  | Float (x : f64)
  | Complex (re im : f64)
  | Str (text : list Z)
  | Bytes (bytes : list Z)
  | Bool (b : bool)
  | None
  | Ellipsis
  | FString (parts : list FStringPart)
  | Var (name : list Z) (span : option (Z * Z * Z))
  | List (items : list Expr)
  | Tuple (items : list Expr)
  | Dict (items : list DictItem)
  | Set_ (items : list Expr)
  | Starred (expr : Expr)
  | ListComp (elt : Expr) (clauses : list CompClause)
  | DictComp (key val : Expr) (clauses : list CompClause)
  | SetComp (elt : Expr) (clauses : list CompClause)
  | GenExp (elt : Expr) (clauses : list CompClause)
  | Unary (op : UnaryOp) (expr : Expr) (span : option CaretSpan)
  | Binary (left : Expr) (op : BinaryOp) (right : Expr) (span : option CaretSpan)
  | Compare (left : Expr) (ops : list (CmpOp.CmpOp * Expr))
  | Ternary (cond then_ else_ : Expr)
  | Lambda (params : list FunctionParam) (body : Expr)
  | Call (func : Expr) (args : list CallArg) (span : option CaretSpan)
  | Attr (target : Expr) (name : list Z) (span : option CaretSpan)
  | Index (target index : Expr) (span : option CaretSpan)
  | Slice (target : Expr) (lower upper step : option Expr)
  | Named (target : list Z) (value : Expr)
  | Yield (expr : option Expr)
  | YieldFrom (expr : Expr)
  | Await (expr : Expr)
with FStringPart : Type :=
  | Literal (text : list Z)
  | Field (expr : Expr) (conversion : option Z) (format_spec : option (list FStringPart)) (debug_text : option (list Z))
      (span : option CaretSpan) (line : Z)
with DictItem : Type :=
  | Pair (key value : Expr)
  | DoubleSplat (expr : Expr)
with CompClause : Type :=
  | Clause (target : AssignTarget) (iter : Expr) (cond : option Expr) (is_async : bool)
with CallArg : Type :=
  | Arg (name : option (list Z)) (value : Expr) (splat double_splat : bool)
with FunctionParam : Type :=
  | Param (name : list Z) (default annotation : option Expr) (is_args is_kwargs is_keyword_only is_positional_only : bool)
with AssignTarget : Type :=
  | TName (name : list Z)
  | TAttr (target : Expr) (name : list Z) (span : option CaretSpan)
  | TIndex (target index : Expr)
  | TSlice (target : Expr) (lower upper step : option Expr)
  | TTuple (targets : list AssignTarget)
  | TStarred (target : AssignTarget).
End Ast.

(** [From<CmpOp> for BinaryOp] *)
Definition cmp_binary_op (op : CmpOp.CmpOp) : BinaryOp :=
  match op with
  | CmpOp.Eq => OpEq | CmpOp.Ne => Ne | CmpOp.Lt => OpLt | CmpOp.Le => Le | CmpOp.Gt => OpGt | CmpOp.Ge => Ge
  | CmpOp.In => In | CmpOp.NotIn => NotIn | CmpOp.Is => Is | CmpOp.IsNot => IsNot
  end.

(** ** The state of the parser *)

Record Parser : Type := {
  ps_tokens : list Token.Token;
  ps_pos : nat;
  ps_line_nos : list Z;
  ps_cols : list Z;
  ps_cols_end : list Z;
  ps_expr_depth : nat;
}.

Definition MAX_EXPR_DEPTH : nat := 201.

Definition parser_new_with_pos (tokens : list Token.Token) (line_nos cols cols_end : list Z) : Parser :=
  {| ps_tokens := tokens; ps_pos := 0; ps_line_nos := line_nos; ps_cols := cols; ps_cols_end := cols_end; ps_expr_depth := 0 |}.
Definition parser_new_with_lines (tokens : list Token.Token) (line_nos : list Z) : Parser := parser_new_with_pos tokens line_nos [] [].
Definition parser_new (tokens : list Token.Token) : Parser := parser_new_with_pos tokens [] [] [].

Definition with_pos (pos : nat) (self : Parser) : Parser :=
  {| ps_tokens := ps_tokens self; ps_pos := pos; ps_line_nos := ps_line_nos self; ps_cols := ps_cols self;
     ps_cols_end := ps_cols_end self; ps_expr_depth := ps_expr_depth self |}.
Definition with_expr_depth (depth : nat) (self : Parser) : Parser :=
  {| ps_tokens := ps_tokens self; ps_pos := ps_pos self; ps_line_nos := ps_line_nos self; ps_cols := ps_cols self;
     ps_cols_end := ps_cols_end self; ps_expr_depth := depth |}.

Abbreviation parser := (prog Parser).

(** The [Debug] form of a token is derived. *)
Class TokenDebug := debug_token : Token.Token → string.

(** Tokens without a payload are compared by their kind. *)
Definition token_kind (t : Token.Token) : nat :=
  match t with
  | Token.Int _ => 0 | Token.BigInt _ => 1 | Token.Float _ => 2 | Token.Imag _ => 3 | Token.Str _ => 4 | Token.Bytes _ => 5
  | Token.FString _ => 6 | Token.Ident _ => 7
  | Token.Plus => 8 | Token.Minus => 9 | Token.Star => 10 | Token.StarStar => 11 | Token.Slash => 12 | Token.SlashSlash => 13
  | Token.Percent => 14 | Token.At => 15
  | Token.PlusAssign => 16 | Token.MinusAssign => 17 | Token.StarAssign => 18 | Token.StarStarAssign => 19 | Token.SlashAssign => 20
  | Token.SlashSlashAssign => 21 | Token.PercentAssign => 22 | Token.AtAssign => 23
  | Token.AmpersandAssign => 24 | Token.PipeAssign => 25 | Token.CaretAssign => 26 | Token.LShiftAssign => 27 | Token.RShiftAssign => 28
  | Token.Ampersand => 29 | Token.Pipe => 30 | Token.Caret => 31 | Token.Tilde => 32 | Token.LShift => 33 | Token.RShift => 34
  | Token.LParen => 35 | Token.RParen => 36 | Token.LBracket => 37 | Token.RBracket => 38 | Token.LBrace => 39 | Token.RBrace => 40
  | Token.Comma => 41 | Token.Colon => 42 | Token.Walrus => 43 | Token.Semicolon => 44 | Token.Dot => 45 | Token.Ellipsis => 46
  | Token.Arrow => 47
  | Token.Assign => 48 | Token.Eq => 49 | Token.Ne => 50 | Token.Lt => 51 | Token.Le => 52 | Token.Gt => 53 | Token.Ge => 54
  | Token.And => 55 | Token.Or => 56 | Token.Not => 57 | Token.If => 58 | Token.Elif => 59 | Token.Else => 60 | Token.While => 61
  | Token.For => 62 | Token.In => 63 | Token.Def => 64 | Token.Class_ => 65 | Token.With => 66 | Token.Try => 67 | Token.Except => 68
  | Token.Finally => 69 | Token.Raise => 70 | Token.As => 71
  | Token.Import_ => 72 | Token.From_ => 73 | Token.Global => 74 | Token.Nonlocal => 75 | Token.Return => 76 | Token.Yield => 77
  | Token.Break => 78 | Token.Continue => 79 | Token.Pass => 80 | Token.Del => 81 | Token.Assert => 82 | Token.Lambda => 83 | Token.Is => 84
  | Token.True => 85 | Token.False => 86 | Token.None => 87
  | Token.Newline => 88 | Token.Indent => 89 | Token.Dedent => 90 | Token.Eof => 91
  end.

Definition current : parser (option Token.Token) := λ self, (Return (ps_tokens self !! ps_pos self), self).
Definition peek : parser (option Token.Token) := λ self, (Return (ps_tokens self !! (ps_pos self + 1)%nat), self).
Definition token_is (token : Token.Token) (o : option Token.Token) : bool :=
  match o with Some t => (token_kind t =? token_kind token)%nat | None => false end.
Definition is_at (token : Token.Token) : parser bool := t ← current; mret (token_is token t).
Definition bump : parser unit := modify (λ self, with_pos (ps_pos self + 1) self).

Definition parse_err {A} (message : string) : parser A := pure (Raise (Parse message)).

(** The innermost delimiter that the tokens before [pos] leave open. *)
Fixpoint open_delimiters (tokens : list Token.Token) (delimiters : list (ascii * ascii)) : list (ascii * ascii) :=
  let closed (close : ascii) := match delimiters with (_, c) :: rest => if (c =? close)%char then rest else delimiters | [] => [] end in
  match tokens with
  | [] => delimiters
  | t :: tokens =>
      open_delimiters tokens
        match t with
        | Token.LParen => ("("%char, ")"%char) :: delimiters
        | Token.LBracket => ("["%char, "]"%char) :: delimiters
        | Token.LBrace => ("{"%char, "}"%char) :: delimiters
        | Token.RParen => closed ")"%char
        | Token.RBracket => closed "]"%char
        | Token.RBrace => closed "}"%char
        | _ => delimiters
        end
  end.
Definition unclosed_delimiter : parser (option ascii) := λ self,
  (if (ps_pos self <=? length (ps_tokens self))%nat
   then Return (fst <$> head (open_delimiters (take (ps_pos self) (ps_tokens self)) []))
   else Panicked, self).

Definition never_closed {A} (delimiter : ascii) : parser A := parse_err ("'" +:+ String delimiter "" +:+ "' was never closed").

(** ** Positions *)

Definition current_lineno : parser Z := λ self, (Return (default 0 (ps_line_nos self !! ps_pos self)), self).
Definition prev_lineno : parser Z := λ self,
  (Return (match ps_pos self with O => 0 | S p => default 0 (ps_line_nos self !! p) end), self).
Definition current_col : parser (option Z) := λ self, (Return (ps_cols self !! ps_pos self), self).
Definition col_end (cols_end : list Z) (pos : nat) : option Z := c ← cols_end !! pos; if c =? 0 then None else Some c.
Definition end_col_at_pos : parser (option Z) := λ self, (Return (col_end (ps_cols_end self) (ps_pos self)), self).
Definition prev_end_col : parser (option Z) := λ self,
  (Return (match ps_pos self with O => None | S p => col_end (ps_cols_end self) p end), self).

Definition make_binary_span (left_start : option Z) (left_lineno : Z) (op_col op_end : option Z) : parser (option CaretSpan) :=
  full_end ← prev_end_col;
  end_lineno ← prev_lineno;
  mret (full_start ← left_start; prim_start ← op_col; prim_end ← op_end; full_end ← full_end;
        if negb (left_lineno =? 0) && negb (end_lineno =? 0) && negb (left_lineno =? end_lineno)
        then Some (full_start, full_start, MULTILINE_FULL_END, MULTILINE_FULL_END)
        else if (full_start <=? prim_start) && (prim_start <? prim_end) && (prim_end <=? full_end)
        then Some (full_start, prim_start, prim_end, full_end)
        else None).

(** The span of a form that is underlined as a whole. *)
Definition whole_span (start fin : option Z) : option CaretSpan :=
  s ← start; e ← fin; if s <? e then Some (s, s, e, e) else None.
Definition make_unary_span (op_start : option Z) : parser (option CaretSpan) := e ← prev_end_col; mret (whole_span op_start e).

(** ** Loops *)

(** [body] says whether the loop goes on. *)
Fixpoint repeat_while {A} (fuel : nat) (body : A → parser (A * bool)) (acc : A) : parser A :=
  match fuel with
  | O => pure OutOfFuel
  | S fuel => '(acc, more) ← body acc; if (more : bool) then repeat_while fuel body acc else mret acc
  end.

(** ** The grammar *)

(** The functions that the grammar enters again, on the tokens that are left;
    [p_fuel] bounds the loops. *)
Record Parsers : Type := {
  p_fuel : nat;
  p_expr : parser Ast.Expr;
  p_or : parser Ast.Expr;
  p_not : parser Ast.Expr;
  p_unary : parser Ast.Expr;
  p_for_target : parser Ast.AssignTarget;
  p_expr_str : list Z → Z → outcome Ast.Expr;
}.

Section grammar.
  Context `{TokenDebug} (r : Parsers).

Definition debug_option (t : option Token.Token) : string :=
  match t with Some t => "Some(" +:+ debug_token t +:+ ")" | None => "None" end.

Definition expect (token : Token.Token) : parser unit :=
  found ← is_at token;
  if (found : bool) then bump
  else
    eof ← is_at Token.Eof;
    delimiter ← (if (eof : bool) then unclosed_delimiter else mret None);
    match delimiter with
    | Some delimiter => never_closed delimiter
    | None => t ← current; parse_err ("expected " +:+ debug_token token +:+ ", found " +:+ debug_option t)
    end.

Definition expect_ident (ctx : string) : parser (list Z) :=
  t ← current;
  match t with
  | Some (Token.Ident name) => _ ← bump; mret name
  | other => parse_err ("expected " +:+ ctx +:+ ", found " +:+ debug_option other)
  end.

Definition at_stmt_end : parser bool :=
  t ← current;
  mret match t with
       | Some (Token.Newline | Token.Semicolon | Token.Dedent | Token.Eof) | None => true
       | _ => false
       end.

Definition ident_is (name : string) (t : option Token.Token) : bool :=
  match t with Some (Token.Ident kw) => bool_decide (kw = chars_of name) | _ => false end.

Definition is_async_for : parser bool :=
  t ← current; t' ← peek; mret (ident_is "async" t && token_is Token.For t').
Definition at_for : parser bool := b ← is_at Token.For; b' ← is_async_for; mret (b || b').

Definition parse_seq_item : parser Ast.Expr :=
  star ← is_at Token.Star;
  if (star : bool) then _ ← bump; inner ← p_or r; mret (Ast.Starred inner) else p_expr r.

(** [while self.is(Comma)], up to a token that ends the list after a comma. *)
Definition comma_items {A} (closes : parser bool) (item : parser A) (items : list A) : parser (list A) :=
  repeat_while (p_fuel r) (λ items,
    comma ← is_at Token.Comma;
    if negb comma then mret (items, false)
    else
      _ ← bump;
      closed ← closes;
      if (closed : bool) then mret (items, false) else item ← item; mret (items ++ [item], true)) items.

Definition parse_expr_or_tuple : parser Ast.Expr :=
  first ← parse_seq_item;
  comma ← is_at Token.Comma;
  if negb comma then mret first
  else items ← comma_items at_stmt_end parse_seq_item [first]; mret (Ast.Tuple items).

(** *** Targets and comprehensions *)

Definition parse_for_target_item : parser (Ast.AssignTarget * bool) :=
  star ← is_at Token.Star;
  if (star : bool) then _ ← bump; name ← expect_ident "for loop starred variable"; mret (Ast.TName name, true)
  else
    paren ← is_at Token.LParen;
    if (paren : bool) then
      _ ← bump;
      empty ← is_at Token.RParen;
      if (empty : bool) then _ ← bump; mret (Ast.TTuple [], false)
      else target ← p_for_target r; _ ← expect Token.RParen; mret (target, false)
    else name ← expect_ident "for loop variable"; mret (Ast.TName name, false).

Definition starred_target (item : Ast.AssignTarget * bool) : Ast.AssignTarget :=
  if item.2 then Ast.TStarred item.1 else item.1.

(** The items so far and how many of them are starred. *)
Definition for_target_items : list Ast.AssignTarget * nat → parser (list Ast.AssignTarget * nat) :=
  repeat_while (p_fuel r) (λ '(items, star_count),
    comma ← is_at Token.Comma;
    if negb comma then mret ((items, star_count), false)
    else
      _ ← bump;
      at_in ← is_at Token.In;
      at_paren ← is_at Token.RParen;
      if (at_in || at_paren : bool) then mret ((items, star_count), false)
      else
        item ← parse_for_target_item;
        if (item.2 : bool) then
          if (1 <? star_count + 1)%nat then parse_err "multiple starred expressions in assignment"
          else mret ((items ++ [starred_target item], (star_count + 1)%nat), true)
        else mret ((items ++ [starred_target item], star_count), true)).

Definition parse_for_target : parser Ast.AssignTarget :=
  first ← parse_for_target_item;
  comma ← is_at Token.Comma;
  if negb comma then
    if (first.2 : bool) then parse_err "starred assignment target must be in a list or tuple" else mret first.1
  else
    '(items, _) ← for_target_items ([starred_target first], if first.2 then 1%nat else 0%nat);
    mret (Ast.TTuple items).

(** [while self.is(If)]: the filters, joined by [and]. *)
Definition comp_filters : option Ast.Expr → parser (option Ast.Expr) :=
  repeat_while (p_fuel r) (λ cond,
    at_if ← is_at Token.If;
    if negb at_if then mret (cond, false)
    else
      _ ← bump;
      filter ← p_or r;
      mret (Some match cond with None => filter | Some prev => Ast.Binary prev And filter None end, true)).

Definition parse_comp_clauses : parser (list Ast.CompClause) :=
  repeat_while (p_fuel r) (λ clauses,
    more ← at_for;
    if negb more then mret (clauses, false)
    else
      is_async ← is_async_for;
      _ ← (if (is_async : bool) then bump else mret tt);
      _ ← bump;
      target ← parse_for_target;
      _ ← expect Token.In;
      iter ← p_or r;
      cond ← comp_filters None;
      mret (clauses ++ [Ast.Clause target iter cond is_async], true)) [].

(** *** Displays *)

Definition comprehension (make : list Ast.CompClause → Ast.Expr) (close : Token.Token) : parser Ast.Expr :=
  clauses ← parse_comp_clauses; _ ← expect close; mret (make clauses).

Definition parse_list_literal : parser Ast.Expr :=
  _ ← expect Token.LBracket;
  empty ← is_at Token.RBracket;
  if (empty : bool) then _ ← bump; mret (Ast.List [])
  else
    first ← parse_seq_item;
    comp ← at_for;
    if (comp : bool) then
      match first with
      | Ast.Starred _ => parse_err "iterable unpacking cannot be used in comprehension"
      | _ => comprehension (Ast.ListComp first) Token.RBracket
      end
    else
      items ← comma_items (is_at Token.RBracket) parse_seq_item [first];
      _ ← expect Token.RBracket;
      mret (Ast.List items).

Definition parse_dict_item : parser Ast.DictItem :=
  splat ← is_at Token.StarStar;
  if (splat : bool) then _ ← bump; val ← p_or r; mret (Ast.DoubleSplat val)
  else k ← p_expr r; _ ← expect Token.Colon; v ← p_expr r; mret (Ast.Pair k v).

(** The rest of a dict and of a set, after their first item. *)
Definition rest_of_dict (first : Ast.DictItem) : parser Ast.Expr :=
  items ← comma_items (is_at Token.RBrace) parse_dict_item [first]; _ ← expect Token.RBrace; mret (Ast.Dict items).
Definition rest_of_set (first : Ast.Expr) : parser Ast.Expr :=
  items ← comma_items (is_at Token.RBrace) parse_seq_item [first]; _ ← expect Token.RBrace; mret (Ast.Set_ items).

Definition parse_dict_or_set_literal : parser Ast.Expr :=
  _ ← expect Token.LBrace;
  empty ← is_at Token.RBrace;
  if (empty : bool) then _ ← bump; mret (Ast.Dict [])
  else
    double_splat ← is_at Token.StarStar;
    if (double_splat : bool) then _ ← bump; first_splat ← p_or r; rest_of_dict (Ast.DoubleSplat first_splat)
    else
      splat ← is_at Token.Star;
      if (splat : bool) then _ ← bump; first_splat ← p_or r; rest_of_set (Ast.Starred first_splat)
      else
        first ← p_expr r;
        colon ← is_at Token.Colon;
        if (colon : bool) then
          _ ← bump;
          val ← p_expr r;
          comp ← at_for;
          if (comp : bool) then comprehension (Ast.DictComp first val) Token.RBrace else rest_of_dict (Ast.Pair first val)
        else
          comp ← at_for;
          if (comp : bool) then comprehension (Ast.SetComp first) Token.RBrace else rest_of_set first.

(** After an opening parenthesis. *)
Definition parse_parenthesized : parser Ast.Expr :=
  empty ← is_at Token.RParen;
  if (empty : bool) then _ ← bump; mret (Ast.Tuple [])
  else
    splat ← is_at Token.Star;
    if (splat : bool) then
      first ← parse_seq_item;
      comma ← is_at Token.Comma;
      if negb comma then parse_err "cannot use starred expression here"
      else items ← comma_items (is_at Token.RParen) parse_seq_item [first]; _ ← expect Token.RParen; mret (Ast.Tuple items)
    else
      first ← p_expr r;
      comp ← at_for;
      if (comp : bool) then comprehension (Ast.GenExp first) Token.RParen
      else
        comma ← is_at Token.Comma;
        if (comma : bool) then
          items ← comma_items (is_at Token.RParen) parse_seq_item [first]; _ ← expect Token.RParen; mret (Ast.Tuple items)
        else _ ← expect Token.RParen; mret first.

(** *** Literals *)

Fixpoint parse_fstring_part (token_line : Z) (part : FStringPart.FStringPart) : outcome Ast.FStringPart :=
  match part with
  | FStringPart.Literal s => Return (Ast.Literal s)
  | FStringPart.Expr src conversion format_spec debug_text field_cols line_offset =>
      let line := if token_line =? 0 then 0 else token_line + line_offset in
      expr ← p_expr_str r src line;
      format_spec ←
        match format_spec with
        | None => Return None
        | Some parts =>
            parts ← (fix go parts :=
              match parts with
              | [] => Return []
              | part :: parts => part ← parse_fstring_part token_line part; parts ← go parts; Return (part :: parts)
              end) parts;
            Return (Some parts)
        end;
      Return (Ast.Field expr conversion format_spec debug_text (field_cols ≫= λ '(open, close), whole_span (Some open) (Some close)) line)
  end.
Fixpoint parse_fstring_parts (token_line : Z) (parts : list FStringPart.FStringPart) : outcome (list Ast.FStringPart) :=
  match parts with
  | [] => Return []
  | part :: parts => part ← parse_fstring_part token_line part; parts ← parse_fstring_parts token_line parts; Return (part :: parts)
  end.

(** Text after the parts so far: into the last one if that is text. *)
Definition push_text (text : list Z) (parts : list Ast.FStringPart) : list Ast.FStringPart :=
  match last parts with
  | Some (Ast.Literal s) => take (length parts - 1) parts ++ [Ast.Literal (s ++ text)]
  | _ => parts ++ [Ast.Literal text]
  end.

(** The literals after a string: plain text until the first f-string. *)
Definition adjacent_strings : list Z * option (list Ast.FStringPart) → parser (list Z * option (list Ast.FStringPart)) :=
  repeat_while (p_fuel r) (λ '(plain, fstring_parts),
    t ← current;
    match t with
    | Some (Token.Str next) =>
        _ ← bump;
        mret (match fstring_parts with None => (plain ++ next, None) | Some parts => (plain, Some (push_text next parts)) end, true)
    | Some (Token.FString lex_parts) =>
        token_line ← current_lineno;
        _ ← bump;
        let parts := default [] fstring_parts in
        let parts := if bool_decide (plain = []) then parts else push_text plain parts in
        more ← pure (parse_fstring_parts token_line lex_parts);
        mret (([], Some (parts ++ more)), true)
    | Some (Token.Bytes _) => parse_err "cannot mix bytes and nonbytes literals"
    | _ => mret ((plain, fstring_parts), false)
    end).

Definition adjacent_bytes : list Z → parser (list Z) :=
  repeat_while (p_fuel r) (λ bs,
    t ← current;
    match t with
    | Some (Token.Bytes next) => _ ← bump; mret (bs ++ next, true)
    | Some (Token.Str _) | Some (Token.FString _) => parse_err "cannot mix bytes and nonbytes literals"
    | _ => mret (bs, false)
    end).

Definition adjacent_fstrings : list Ast.FStringPart → parser (list Ast.FStringPart) :=
  repeat_while (p_fuel r) (λ parts,
    t ← current;
    match t with
    | Some (Token.FString next_lex) =>
        next_line ← current_lineno;
        _ ← bump;
        more ← pure (parse_fstring_parts next_line next_lex);
        mret (parts ++ more, true)
    | Some (Token.Str next) => _ ← bump; mret (push_text next parts, true)
    | Some (Token.Bytes _) => parse_err "cannot mix bytes and nonbytes literals"
    | _ => mret (parts, false)
    end).

Definition parse_primary : parser Ast.Expr :=
  t ← current;
  match t with
  | Some (Token.Int v) => _ ← bump; mret (Ast.Int v)
  | Some (Token.BigInt s) => _ ← bump; mret (Ast.BigInt s)
  | Some (Token.Float v) => _ ← bump; mret (Ast.Float v)
  | Some (Token.Imag v) => _ ← bump; mret (Ast.Complex (d_zero false) v)
  | Some (Token.Str v) =>
      _ ← bump;
      '(plain, fstring_parts) ← adjacent_strings (v, None);
      mret match fstring_parts with
           | None => Ast.Str plain
           | Some parts => Ast.FString (if bool_decide (plain = []) then parts else push_text plain parts)
           end
  | Some (Token.Bytes v) => _ ← bump; bs ← adjacent_bytes v; mret (Ast.Bytes bs)
  | Some (Token.FString lex_parts) =>
      token_line ← current_lineno;
      _ ← bump;
      parts ← pure (parse_fstring_parts token_line lex_parts);
      parts ← adjacent_fstrings parts;
      mret (Ast.FString parts)
  | Some Token.True => _ ← bump; mret (Ast.Bool true)
  | Some Token.False => _ ← bump; mret (Ast.Bool false)
  | Some Token.None => _ ← bump; mret Ast.None
  | Some Token.Ellipsis => _ ← bump; mret Ast.Ellipsis
  | Some (Token.Ident name) =>
      lineno ← current_lineno;
      col ← current_col;
      _ ← bump;
      mret (Ast.Var name ((λ col, (col, col + Z.of_nat (length name), lineno)) <$> col))
  | Some Token.LParen => _ ← bump; parse_parenthesized
  | Some Token.LBracket => parse_list_literal
  | Some Token.LBrace => parse_dict_or_set_literal
  | Some Token.Eof =>
      delimiter ← unclosed_delimiter;
      match delimiter with
      | Some delimiter => never_closed delimiter
      | None => parse_err "unexpected token in expression: Some(Eof)"
      end
  | other => parse_err ("unexpected token in expression: " +:+ debug_option other)
  end.

(** *** Calls, subscripts and attributes *)

Definition positional_after_keyword : string := "positional argument follows keyword argument".

(** A positional argument, or a generator expression as the only one, which
    ends the list. *)
Definition parse_positional (args : list Ast.CallArg) : parser (list Ast.CallArg * bool) :=
  val ← p_expr r;
  comp ← at_for;
  if (comp && (length args =? 0)%nat : bool) then
    clauses ← parse_comp_clauses; mret (args ++ [Ast.Arg None (Ast.GenExp val clauses) false false], false)
  else mret (args ++ [Ast.Arg None val false false], true).

(** One argument; the flags say whether a keyword has been seen, and whether
    more arguments may follow. *)
Definition parse_call_arg (args : list Ast.CallArg) (seen_keyword : bool) : parser (list Ast.CallArg * bool * bool) :=
  double_splat ← is_at Token.StarStar;
  if (double_splat : bool) then _ ← bump; value ← p_expr r; mret (args ++ [Ast.Arg None value false true], true, true)
  else
    splat ← is_at Token.Star;
    if (splat : bool) then
      _ ← bump;
      if (seen_keyword : bool) then parse_err positional_after_keyword
      else value ← p_expr r; mret (args ++ [Ast.Arg None value true false], seen_keyword, true)
    else
      t ← current;
      t' ← peek;
      match t with
      | Some (Token.Ident name) =>
          if token_is Token.Assign t' then
            _ ← bump; _ ← bump; value ← p_expr r; mret (args ++ [Ast.Arg (Some name) value false false], true, true)
          else if (seen_keyword : bool) then parse_err positional_after_keyword
          else '(args, more) ← parse_positional args; mret (args, seen_keyword, more)
      | _ =>
          if (seen_keyword : bool) then parse_err positional_after_keyword
          else '(args, more) ← parse_positional args; mret (args, seen_keyword, more)
      end.

Fixpoint check_repeated_keywords (seen_kw : list (list Z)) (args : list Ast.CallArg) : outcome unit :=
  match args with
  | [] => Return tt
  | Ast.Arg (Some name) _ _ _ :: args =>
      if bool_decide (name ∈ seen_kw) then Raise (Parse ("keyword argument repeated: " +:+ show name))
      else check_repeated_keywords (name :: seen_kw) args
  | _ :: args => check_repeated_keywords seen_kw args
  end.

Definition call_args : list Ast.CallArg * bool → parser (list Ast.CallArg * bool) :=
  repeat_while (p_fuel r) (λ '(args, seen_keyword),
    '(args, seen_keyword, more) ← parse_call_arg args seen_keyword;
    if negb more then mret ((args, seen_keyword), false)
    else
      closed ← is_at Token.RParen;
      if (closed : bool) then mret ((args, seen_keyword), false)
      else
        _ ← expect Token.Comma;
        closed ← is_at Token.RParen;
        mret ((args, seen_keyword), negb closed)).

Definition parse_call_args : parser (list Ast.CallArg) :=
  empty ← is_at Token.RParen;
  if (empty : bool) then mret []
  else '(args, _) ← call_args ([], false); _ ← pure (check_repeated_keywords [] args); mret args.

(** A bound of a slice, absent before one of the tokens that end it. *)
Definition slice_bound (absent : bool) : parser (option Ast.Expr) :=
  if absent then mret None else e ← p_expr r; mret (Some e).

Definition parse_slice (target : Ast.Expr) (lower : option Ast.Expr) : parser Ast.Expr :=
  _ ← bump;
  at_bracket ← is_at Token.RBracket;
  at_colon ← is_at Token.Colon;
  upper ← slice_bound (at_bracket || at_colon);
  at_colon ← is_at Token.Colon;
  step ← (if (at_colon : bool) then _ ← bump; at_bracket ← is_at Token.RBracket; slice_bound at_bracket else mret None);
  _ ← expect Token.RBracket;
  mret (Ast.Slice target lower upper step).

Definition parse_index (target first : Ast.Expr) (saw_star : bool) (object_start bracket_col : option Z) : parser Ast.Expr :=
  comma ← is_at Token.Comma;
  index ← (if (comma : bool) then items ← comma_items (is_at Token.RBracket) parse_seq_item [first]; mret (Ast.Tuple items)
           else mret (if saw_star then Ast.Tuple [first] else first));
  _ ← expect Token.RBracket;
  fin ← prev_end_col;
  mret (Ast.Index target index
    (obj ← object_start; br ← bracket_col; fin ← fin; if (obj <=? br) && (br <? fin) then Some (obj, br, fin, fin) else None)).

Definition parse_subscript (target : Ast.Expr) (object_start bracket_col : option Z) : parser Ast.Expr :=
  at_colon ← is_at Token.Colon;
  saw_star ← is_at Token.Star;
  first ← (if (at_colon : bool) then mret None else e ← parse_seq_item; mret (Some e));
  at_colon ← is_at Token.Colon;
  if (at_colon : bool) then parse_slice target first
  else
    match first with
    | Some first => parse_index target first saw_star object_start bracket_col
    | None => parse_err "empty subscript"
    end.

Definition postfixes (primary_start : option Z) : Ast.Expr → parser Ast.Expr :=
  repeat_while (p_fuel r) (λ expr,
    paren ← is_at Token.LParen;
    if (paren : bool) then
      _ ← bump;
      args ← parse_call_args;
      _ ← expect Token.RParen;
      fin ← prev_end_col;
      mret (Ast.Call expr args (whole_span primary_start fin), true)
    else
      bracket ← is_at Token.LBracket;
      if (bracket : bool) then
        bracket_col ← current_col;
        _ ← bump;
        expr ← parse_subscript expr primary_start bracket_col;
        mret (expr, true)
      else
        dot ← is_at Token.Dot;
        if (dot : bool) then
          _ ← bump;
          t ← current;
          match t with
          | Some (Token.Ident name) =>
              _ ← bump;
              fin ← prev_end_col;
              mret (Ast.Attr expr name (whole_span primary_start fin), true)
          | other => parse_err ("expected attribute name after '.', found " +:+ debug_option other)
          end
        else mret (expr, false)).

Definition parse_postfix : parser Ast.Expr :=
  primary_start ← current_col;
  expr ← parse_primary;
  postfixes primary_start expr.

(** *** Operators *)

Definition parse_power : parser Ast.Expr :=
  left_start ← current_col;
  left_lineno ← current_lineno;
  base ← parse_postfix;
  star_star ← is_at Token.StarStar;
  if (star_star : bool) then
    op_col ← current_col;
    op_end ← end_col_at_pos;
    _ ← bump;
    exp ← p_unary r;
    span ← make_binary_span left_start left_lineno op_col op_end;
    mret (Ast.Binary base Pow exp span)
  else mret base.

Definition unary_operator (t : option Token.Token) : option UnaryOp :=
  match t with
  | Some Token.Minus => Some Neg
  | Some Token.Tilde => Some BitNot
  | Some Token.Plus => Some Pos
  | _ => None
  end.

Definition parse_unary : parser Ast.Expr :=
  t ← current;
  match unary_operator t with
  | Some op =>
      op_start ← current_col;
      _ ← bump;
      expr ← p_unary r;
      span ← make_unary_span op_start;
      mret (Ast.Unary op expr span)
  | None =>
      if ident_is "await" t then _ ← bump; expr ← p_unary r; mret (Ast.Await expr)
      else parse_power
  end.

(** A left-associative level: its operators, and the level above it. *)
Definition parse_binary (operator : option Token.Token → option BinaryOp) (next : parser Ast.Expr) : parser Ast.Expr :=
  left_start ← current_col;
  left_lineno ← current_lineno;
  expr ← next;
  repeat_while (p_fuel r) (λ expr,
    t ← current;
    match operator t with
    | Some op =>
        op_col ← current_col;
        op_end ← end_col_at_pos;
        _ ← bump;
        rhs ← next;
        span ← make_binary_span left_start left_lineno op_col op_end;
        mret (Ast.Binary expr op rhs span, true)
    | None => mret (expr, false)
    end) expr.

Definition factor_operator (t : option Token.Token) : option BinaryOp :=
  match t with
  | Some Token.Star => Some Mul | Some Token.At => Some MatMul | Some Token.Slash => Some Div
  | Some Token.SlashSlash => Some FloorDiv | Some Token.Percent => Some Mod
  | _ => None
  end.
Definition term_operator (t : option Token.Token) : option BinaryOp :=
  match t with Some Token.Plus => Some Add | Some Token.Minus => Some Sub | _ => None end.
Definition shift_operator (t : option Token.Token) : option BinaryOp :=
  match t with Some Token.LShift => Some LShift | Some Token.RShift => Some RShift | _ => None end.
Definition bitand_operator (t : option Token.Token) : option BinaryOp :=
  match t with Some Token.Ampersand => Some BitAnd | _ => None end.
Definition bitxor_operator (t : option Token.Token) : option BinaryOp :=
  match t with Some Token.Caret => Some BitXor | _ => None end.
Definition bitor_operator (t : option Token.Token) : option BinaryOp :=
  match t with Some Token.Pipe => Some BitOr | _ => None end.

Definition parse_factor : parser Ast.Expr := parse_binary factor_operator parse_unary.
Definition parse_term : parser Ast.Expr := parse_binary term_operator parse_factor.
Definition parse_shift : parser Ast.Expr := parse_binary shift_operator parse_term.
Definition parse_bitand : parser Ast.Expr := parse_binary bitand_operator parse_shift.
Definition parse_bitxor : parser Ast.Expr := parse_binary bitxor_operator parse_bitand.
Definition parse_bitor : parser Ast.Expr := parse_binary bitor_operator parse_bitxor.

(** The comparison operator at the current token, with its tokens consumed. *)
Definition comparison_operator : parser (option CmpOp.CmpOp) :=
  t ← current;
  match t with
  | Some Token.Eq => _ ← bump; mret (Some CmpOp.Eq)
  | Some Token.Ne => _ ← bump; mret (Some CmpOp.Ne)
  | Some Token.Lt => _ ← bump; mret (Some CmpOp.Lt)
  | Some Token.Le => _ ← bump; mret (Some CmpOp.Le)
  | Some Token.Gt => _ ← bump; mret (Some CmpOp.Gt)
  | Some Token.Ge => _ ← bump; mret (Some CmpOp.Ge)
  | Some Token.In => _ ← bump; mret (Some CmpOp.In)
  | Some Token.Not => t' ← peek; if token_is Token.In t' then _ ← bump; _ ← bump; mret (Some CmpOp.NotIn) else mret None
  | Some Token.Is =>
      _ ← bump;
      negated ← is_at Token.Not;
      if (negated : bool) then _ ← bump; mret (Some CmpOp.IsNot) else mret (Some CmpOp.Is)
  | _ => mret None
  end.

Definition comparisons : list (CmpOp.CmpOp * Ast.Expr) → parser (list (CmpOp.CmpOp * Ast.Expr)) :=
  repeat_while (p_fuel r) (λ ops,
    op ← comparison_operator;
    match op with
    | Some op => rhs ← parse_bitor; mret (ops ++ [(op, rhs)], true)
    | None => mret (ops, false)
    end).

Definition parse_comparison : parser Ast.Expr :=
  lhs ← parse_bitor;
  ops ← comparisons [];
  mret match ops with
       | [] => lhs
       | [(op, rhs)] => Ast.Binary lhs (cmp_binary_op op) rhs None
       | _ => Ast.Compare lhs ops
       end.

Definition parse_not : parser Ast.Expr :=
  not ← is_at Token.Not;
  if (not : bool) then
    op_start ← current_col;
    _ ← bump;
    expr ← p_not r;
    span ← make_unary_span op_start;
    mret (Ast.Unary Not expr span)
  else parse_comparison.

(** [and] and [or], whose operators have no span. *)
Definition parse_boolean (token : Token.Token) (op : BinaryOp) (next : parser Ast.Expr) : parser Ast.Expr :=
  expr ← next;
  repeat_while (p_fuel r) (λ expr,
    more ← is_at token;
    if (more : bool) then _ ← bump; rhs ← next; mret (Ast.Binary expr op rhs None, true)
    else mret (expr, false)) expr.

Definition parse_and : parser Ast.Expr := parse_boolean Token.And And parse_not.
Definition parse_or : parser Ast.Expr := parse_boolean Token.Or Or parse_and.

(** *** Lambda *)

Record LambdaParams : Type := {
  lp_params : list Ast.FunctionParam;
  lp_seen_default : bool;
  lp_seen_star : bool;
  lp_seen_kwargs : bool;
  lp_bare_star_needs_kwonly : bool;
}.

Definition lambda_kwargs (s : LambdaParams) : parser LambdaParams :=
  _ ← bump;
  name ← expect_ident "kwargs parameter name";
  mret {| lp_params := lp_params s ++ [Ast.Param name None None false true false false]; lp_seen_default := lp_seen_default s;
          lp_seen_star := lp_seen_star s; lp_seen_kwargs := true; lp_bare_star_needs_kwonly := lp_bare_star_needs_kwonly s |}.

Definition lambda_args (s : LambdaParams) : parser LambdaParams :=
  if lp_seen_star s then parse_err "* argument may appear only once"
  else
    _ ← bump;
    comma ← is_at Token.Comma;
    colon ← is_at Token.Colon;
    if (comma || colon : bool) then
      mret {| lp_params := lp_params s; lp_seen_default := lp_seen_default s; lp_seen_star := true;
              lp_seen_kwargs := lp_seen_kwargs s; lp_bare_star_needs_kwonly := true |}
    else
      name ← expect_ident "args parameter name";
      mret {| lp_params := lp_params s ++ [Ast.Param name None None true false false false]; lp_seen_default := lp_seen_default s;
              lp_seen_star := true; lp_seen_kwargs := lp_seen_kwargs s; lp_bare_star_needs_kwonly := lp_bare_star_needs_kwonly s |}.

Definition lambda_param (s : LambdaParams) : parser LambdaParams :=
  t ← current;
  match t with
  | Some (Token.Ident name) =>
      _ ← bump;
      assign ← is_at Token.Assign;
      default ← (if (assign : bool) then _ ← bump; e ← p_expr r; mret (Some e)
                 else if lp_seen_default s && negb (lp_seen_star s) then parse_err "non-default argument follows default argument"
                 else mret None);
      mret {| lp_params := lp_params s ++ [Ast.Param name default None false false (lp_seen_star s) false];
              lp_seen_default := assign || lp_seen_default s; lp_seen_star := lp_seen_star s; lp_seen_kwargs := lp_seen_kwargs s;
              lp_bare_star_needs_kwonly := if lp_seen_star s then false else lp_bare_star_needs_kwonly s |}
  | other => parse_err ("expected lambda parameter, found " +:+ debug_option other)
  end.

(** Whether the list ends here, where a bare star may not be the last one. *)
Definition lambda_colon (s : LambdaParams) : parser bool :=
  colon ← is_at Token.Colon;
  if (colon && lp_bare_star_needs_kwonly s : bool) then parse_err "named arguments must follow bare *" else mret colon.

Definition lambda_params : LambdaParams → parser LambdaParams :=
  repeat_while (p_fuel r) (λ s,
    if lp_seen_kwargs s then parse_err "parameter after **kwargs"
    else
      double_star ← is_at Token.StarStar;
      star ← is_at Token.Star;
      s ← (if (double_star : bool) then lambda_kwargs s else if (star : bool) then lambda_args s else lambda_param s);
      ends ← lambda_colon s;
      if (ends : bool) then mret (s, false)
      else _ ← expect Token.Comma; ends ← lambda_colon s; mret (s, negb ends)).

Definition param_name (p : Ast.FunctionParam) : list Z := match p with Ast.Param name _ _ _ _ _ _ => name end.

Fixpoint check_duplicates (seen : list (list Z)) (params : list Ast.FunctionParam) : outcome unit :=
  match params with
  | [] => Return tt
  | p :: params =>
      if bool_decide (param_name p ∈ seen)
      then Raise (Parse ("duplicate argument '" +:+ show (param_name p) +:+ "' in function definition"))
      else check_duplicates (param_name p :: seen) params
  end.
Definition check_duplicate_params (params : list Ast.FunctionParam) : outcome unit :=
  _ ← check_duplicates [] params;
  if existsb (λ p, bool_decide (param_name p = chars_of "__debug__")) params
  then Raise (Parse "cannot assign to __debug__") else Return tt.

Definition parse_lambda_params : parser (list Ast.FunctionParam) :=
  s ← lambda_params {| lp_params := []; lp_seen_default := false; lp_seen_star := false; lp_seen_kwargs := false;
                       lp_bare_star_needs_kwonly := false |};
  _ ← pure (check_duplicate_params (lp_params s));
  mret (lp_params s).

Definition parse_lambda : parser Ast.Expr :=
  _ ← expect Token.Lambda;
  colon ← is_at Token.Colon;
  params ← (if (colon : bool) then mret [] else parse_lambda_params);
  _ ← expect Token.Colon;
  body ← p_expr r;
  mret (Ast.Lambda params body).

(** *** Expressions *)

Definition parse_yield : parser Ast.Expr :=
  _ ← bump;
  from ← is_at Token.From_;
  if (from : bool) then _ ← bump; iter ← p_expr r; mret (Ast.YieldFrom iter)
  else
    bare ← at_stmt_end;
    if (bare : bool) then mret (Ast.Yield None)
    else
      val ← parse_expr_or_tuple;
      match val with
      | Ast.Starred _ => parse_err "can't use starred expression here"
      | _ => mret (Ast.Yield (Some val))
      end.

Definition parse_walrus (expr : Ast.Expr) : parser Ast.Expr :=
  match expr with
  | Ast.Var name _ =>
      if bool_decide (name = chars_of "__debug__") then parse_err "cannot assign to __debug__"
      else _ ← bump; value ← p_expr r; mret (Ast.Named name value)
  | _ => parse_err "walrus operator ':=' requires a name on the left-hand side"
  end.

Definition parse_ternary (then_ : Ast.Expr) : parser Ast.Expr :=
  _ ← bump;
  cond ← p_or r;
  _ ← expect Token.Else;
  else_ ← p_expr r;
  mret (Ast.Ternary cond then_ else_).

Definition parse_expr_inner : parser Ast.Expr :=
  yield ← is_at Token.Yield;
  lambda ← is_at Token.Lambda;
  if (yield : bool) then parse_yield
  else if (lambda : bool) then parse_lambda
  else
    expr ← parse_or;
    walrus ← is_at Token.Walrus;
    ternary ← is_at Token.If;
    if (walrus : bool) then parse_walrus expr
    else if (ternary : bool) then parse_ternary expr
    else mret expr.

(** The depth is counted down again whether the expression parses or not. *)
Definition parse_expr : parser Ast.Expr := λ self,
  let self := with_expr_depth (ps_expr_depth self + 1) self in
  if (MAX_EXPR_DEPTH <? ps_expr_depth self)%nat
  then (Raise (Parse "too many nested parentheses"), with_expr_depth (ps_expr_depth self - 1) self)
  else let '(result, self) := parse_expr_inner self in (result, with_expr_depth (ps_expr_depth self - 1) self).
End grammar.

(** ** The whole parser *)

Section whole.
  Context {B : Type} `{BigIntText B, Unicode, TokenDebug} (int_limit : Z).

(** [parse_expr_str], given the parser of expressions. *)
Definition parse_expr_str (expr : parser Ast.Expr) (src : list Z) (base_line : Z) : outcome Ast.Expr :=
  lexed ← lexer (B := B) int_limit src;
  let p :=
    if base_line =? 0 then parser_new (tokens lexed)
    else parser_new_with_lines (tokens lexed) ((λ ln, if ln =? 0 then 0 else ln + base_line - 1) <$> line_nos lexed) in
  fst (expr p).

Fixpoint parsers (fuel : nat) : Parsers :=
  match fuel with
  | O => {| p_fuel := 1; p_expr := pure OutOfFuel; p_or := pure OutOfFuel; p_not := pure OutOfFuel; p_unary := pure OutOfFuel;
            p_for_target := pure OutOfFuel; p_expr_str := λ _ _, OutOfFuel |}
  | S fuel =>
      let r := parsers fuel in
      {| p_fuel := S (S fuel); p_expr := parse_expr r; p_or := parse_or r; p_not := parse_not r; p_unary := parse_unary r;
         p_for_target := parse_for_target r; p_expr_str := parse_expr_str (parse_expr r) |}
  end.
End whole.
