(* ===== verification/ParserEnds.v ===== *)
(** How many tokens a source makes, those of the fields of its f-strings
    included: at most two for each of its characters, and two at its end; and
    how far the functions of the parser read: each ends, with fuel for the work
    of the tokens that are left, behind where it started. *)

From stdpp Require Import strings.
From S2P Require Import Outcome Prelude Double Chars LexLiterals LexFStrings Lexer LexBounds LexLayout.

#[local] Open Scope nat_scope.

(** ** Work: tokens, and the sources inside f-strings *)

(** A bound for the tokens of a source of so many characters. *)
Definition source_work (length : nat) : nat := 2 * length + 3.

Fixpoint part_work (part : FStringPart.FStringPart) : nat :=
  match part with
  | FStringPart.Literal _ => 0
  | FStringPart.Expr src _ spec _ _ _ =>
      source_work (length src) + match spec with Some parts => list_sum (map part_work parts) | None => 0 end
  end.
Definition token_work (t : Token.Token) : nat :=
  1 + match t with Token.FString parts => list_sum (map part_work parts) | _ => 0 end.
Fixpoint work (tokens : list Token.Token) : nat :=
  match tokens with [] => 0 | t :: tokens => token_work t + work tokens end.

Lemma parts_work_cons part parts : list_sum (map part_work (part :: parts)) = part_work part + list_sum (map part_work parts).
Proof. done. Qed.
Lemma parts_work_snoc part parts : list_sum (map part_work (parts ++ [part])) = list_sum (map part_work parts) + part_work part.
Proof. rewrite map_app, list_sum_app. cbn. lia. Qed.

Lemma work_app ts1 ts2 : work (ts1 ++ ts2) = work ts1 + work ts2.
Proof. induction ts1 as [|t ts1 IH]; [done|]. cbn. lia. Qed.

Lemma work_length tokens : length tokens ≤ work tokens.
Proof. induction tokens as [|t tokens IH]; [done|]. cbn [length work]. unfold token_work at 1. lia. Qed.

Lemma work_replicate k t : token_work t = 1 → work (replicate k t) = k.
Proof. intros Ht. induction k as [|k IH]; [done|]. cbn [replicate work]. lia. Qed.

(** ** Results *)

Definition yields {A} (m : outcome A) (Q : A → Prop) : Prop := ∀ a, m = Return a → Q a.

Lemma yields_Return {A} (a : A) (Q : A → Prop) : Q a → yields (Return a) Q.
Proof. by intros HQ ? [= <-]. Qed.
Lemma yields_err {A} e (Q : A → Prop) : yields (Raise e) Q.
Proof. by intros ??. Qed.
Lemma moves_yields_bind {A B} (m : outcome A) (f : A → outcome B) Q : yields m (λ a, yields (f a) Q) → yields (m ≫= f) Q.
Proof. intros Hm b. destruct m as [a| | |]; try done. cbn. by apply Hm. Qed.
Lemma moves_yields_mono {A} (m : outcome A) (Q Q' : A → Prop) : yields m Q → (∀ a, Q a → Q' a) → yields m Q'.
Proof. intros Hm HQ a Ha. by apply HQ, Hm. Qed.
Lemma ends_yields {A} P (m : outcome A) Q : ends P m Q → yields m Q.
Proof. intros Hm a ->. exact Hm. Qed.
Lemma yields_any {A} (m : outcome A) (Q : A → Prop) : (∀ a, Q a) → yields m Q.
Proof. intros HQ a _. apply HQ. Qed.

Ltac ystep :=
  match goal with
  | |- yields (Return _) _ => apply yields_Return; cbn
  | |- yields (lex_err _) _ => apply yields_err
  | |- yields (Raise _) _ => apply yields_err
  | |- yields OutOfFuel _ => by intros ??
  | |- yields Panicked _ => by intros ??
  | |- yields (mbind _ (mbind _ _)) _ => apply moves_yields_bind
  | |- yields (mbind _ (Return _)) _ => apply moves_yields_bind, yields_Return; cbn beta iota
  | |- yields (if ?b then _ else _) _ => destruct b eqn:?
  | |- yields (match ?x with Some _ => _ | None => _ end) _ => destruct x eqn:?
  end.
(** The rest of a loop, by induction. *)
Ltac yloop IH := eapply moves_yields_mono; [apply IH; lia|]; intros; cbn in *; rewrite ?length_app in *; cbn in *; lia.

Section trim.
  Context `{Unicode}.

Lemma trimmed_length cs : length (trim cs) ≤ length cs.
Proof.
  unfold trim, trim_end_matches, trim_start, trim_start_matches. rewrite length_reverse, length_drop, length_reverse, length_drop. lia.
Qed.
End trim.

(** ** Fields *)

Section fields.
  Context `{Unicode} (chars : list Z).

(** The characters of a text come from those that were read. *)
Lemma consume_triple_work fuel q pos src :
  yields (consume_triple fuel chars q pos src) (λ r, pos ≤ r.1 ∧ length r.2 + pos ≤ length src + r.1).
Proof using Type.
  revert pos src. induction fuel as [|fuel IH]; intros pos src; cbn [consume_triple]; [ystep|].
  repeat ystep; rewrite ?length_app; cbn; try lia; yloop IH.
Qed.

Lemma consume_single_work fuel q pos src :
  yields (consume_single fuel chars q pos src) (λ r, pos ≤ r.1 ∧ length r.2 + pos ≤ length src + r.1).
Proof using Type.
  revert pos src. induction fuel as [|fuel IH]; intros pos src; cbn [consume_single]; cbn zeta; [ystep|].
  repeat ystep; rewrite ?length_app; cbn; try lia; yloop IH.
Qed.

Lemma consume_string_literal_work q pos src :
  yields (consume_string_literal chars pos src q) (λ r, pos ≤ r.1 ∧ length r.2 + pos ≤ length src + r.1).
Proof using Type.
  unfold consume_string_literal. ystep; (eapply moves_yields_mono; [first [apply consume_triple_work|apply consume_single_work]|]);
    intros [p s]; rewrite length_app; cbn; lia.
Qed.

Lemma conversion_after pos : yields (lex_conversion chars pos) (λ r, pos < r.2).
Proof using Type. eapply moves_yields_mono; [apply (ends_yields True), lex_conversion_ends|]. unfold after. intros [c p]. cbn. lia. Qed.

Lemma nested_field_work fuel pos src paren_depth brace_depth :
  yields (nested_field fuel chars pos src paren_depth brace_depth) (λ r, pos < r.2 ∧ length r.1.1 + 1 + pos ≤ length src + r.2).
Proof using Type.
  revert pos src paren_depth brace_depth. induction fuel as [|fuel IH]; intros pos src pd bd; cbn [nested_field]; [ystep|].
  ystep; [|ystep]. ystep; [ystep; lia|]. do 4 (ystep; [yloop IH|]). ystep.
  { apply moves_yields_bind. eapply moves_yields_mono; [apply consume_string_literal_work|]. intros [p s] Hp. cbn in *. yloop IH. }
  ystep; [|yloop IH]. apply moves_yields_bind. eapply moves_yields_mono; [apply conversion_after|]. intros [cv p] Hp. cbn in *.
  ystep; ystep. lia.
Qed.

Lemma push_literal_work parts literal : list_sum (map part_work (push_literal parts literal)) = list_sum (map part_work parts).
Proof using Type. unfold push_literal. case_bool_decide; [done|]. rewrite parts_work_snoc. cbn. lia. Qed.

Lemma format_spec_work fuel base pos parts literal :
  yields (format_spec_loop fuel chars base pos parts literal)
    (λ r, pos ≤ r.2 ∧ list_sum (map part_work r.1) + 2 * pos ≤ list_sum (map part_work parts) + 2 * r.2).
Proof using Type.
  revert pos parts literal. induction fuel as [|fuel IH]; intros pos parts literal; cbn [format_spec_loop]; [ystep|].
  ystep; [|ystep]. ystep; [ystep; rewrite push_literal_work; lia|]. ystep; [|yloop IH].
  apply moves_yields_bind, yields_any. intros offset. apply moves_yields_bind. eapply moves_yields_mono; [apply nested_field_work|].
  intros [[src cv] p] Hp. cbn in Hp. cbn beta iota. eapply moves_yields_mono; [apply IH|]. intros [ps p'].
  rewrite parts_work_snoc, push_literal_work. cbn [part_work fst snd]. unfold source_work. pose proof (trimmed_length src). lia.
Qed.

(** The text of a field, and its format specification, come from its characters. *)
Definition field_work (f : FStringExpr) : nat :=
  2 * length (fe_src f) + match fe_format_spec f with Some parts => list_sum (map part_work parts) | None => 0 end.

Lemma field_end_work pos base expr_src conversion debug_text :
  yields (field_end chars pos base expr_src conversion debug_text)
    (λ f, pos < fe_next f ∧ field_work f + 2 * pos + 2 ≤ 2 * length expr_src + 2 * fe_next f).
Proof using Type.
  unfold field_end, lex_format_spec. apply moves_yields_bind. destruct (has_char (ch ":") chars pos).
  - apply moves_yields_bind. eapply moves_yields_mono; [apply format_spec_work|]. intros [spec p] Hp. change (list_sum (map part_work [])) with 0 in Hp. cbn [fst snd] in Hp.
    apply yields_Return. cbn beta iota. destruct (has_char (ch "}") chars p); [|ystep]. apply yields_Return.
    unfold field_work. cbn [fe_next fe_src fe_format_spec]. lia.
  - apply yields_Return. cbn beta iota. destruct (has_char (ch "}") chars pos); [|ystep]. apply yields_Return.
    unfold field_work. cbn [fe_next fe_src fe_format_spec]. lia.
Qed.

Lemma fstring_expr_work fuel base pos depth paren_depth src :
  yields (fstring_expr_loop fuel chars base pos depth paren_depth src)
    (λ f, pos < fe_next f ∧ field_work f + 2 * pos + 2 ≤ 2 * length src + 2 * fe_next f).
Proof using Type.
  revert pos depth paren_depth src. induction fuel as [|fuel IH]; intros pos depth pd src; cbn [fstring_expr_loop]; [ystep|].
  pose proof (trimmed_length src) as Ht.
  assert (Hfield : ∀ p cv dbg, pos ≤ p → yields (field_end chars p base (trim src) cv dbg)
    (λ f, pos < fe_next f ∧ field_work f + 2 * pos + 2 ≤ 2 * length src + 2 * fe_next f)).
  { intros p cv dbg Hp. eapply moves_yields_mono; [apply field_end_work|]. cbn. lia. }
  ystep; [|ystep]. cbn zeta. ystep; [ystep; unfold field_work; cbn; lia|]. ystep; [yloop IH|].
  ystep. { apply moves_yields_bind, yields_any. intros d. yloop IH. }
  do 2 (ystep; [yloop IH|]). ystep.
  { apply moves_yields_bind, yields_any. intros blanks.
    assert (Hle : pos + 1 ≤ skip_while is_blank chars (pos + 1)) by (unfold skip_while; lia). apply moves_yields_bind. ystep.
    - apply moves_yields_bind. eapply moves_yields_mono; [apply conversion_after|]. intros [cv p] Hp. cbn in Hp. ystep. apply Hfield. lia.
    - ystep. apply Hfield. lia. }
  ystep. { apply moves_yields_bind. eapply moves_yields_mono; [apply conversion_after|]. intros [cv p] Hp. cbn in Hp. cbn beta iota. apply Hfield. lia. }
  ystep; [apply Hfield; lia|]. ystep; [|yloop IH].
  apply moves_yields_bind. eapply moves_yields_mono; [apply consume_string_literal_work|]. intros [p s] Hp. cbn in Hp. cbn beta iota. yloop IH.
Qed.
End fields.

(** ** Tokens *)

Section tokens.
  Context {B : Type} `{BigIntText B, !Unicode, !UnicodeLaws} (int_limit : Z) (chars : list Z).

Lemma escape_after pos content_start raw c :
  content_start ≤ pos → pos + 1 < length chars → yields (fstring_escape chars (pos + 1) content_start raw c) (λ r, pos < r.2).
Proof using Type.
  intros Hs Hp. unfold fstring_escape. destruct raw; [ystep; lia|].
  eapply moves_yields_mono; [apply (ends_yields True), escaped_text_ends; lia|]. unfold after. intros [s p]. cbn. lia.
Qed.

Lemma fstring_work fuel quote raw triple line_start_pos content_start pos parts literal : content_start ≤ pos →
  yields (fstring_loop fuel chars quote raw triple line_start_pos content_start pos parts literal)
    (λ r, token_work r.1 + 2 * pos + 1 ≤ list_sum (map part_work parts) + 2 * r.2).
Proof using Type.
  revert pos parts literal. induction fuel as [|fuel IH]; intros pos parts literal Hpos; cbn [fstring_loop]; [ystep|].
  assert (Hnext : ∀ p literal, pos ≤ p → yields
    (fstring_loop fuel chars quote raw triple line_start_pos content_start p parts literal)
    (λ r, token_work r.1 + 2 * pos + 1 ≤ list_sum (map part_work parts) + 2 * r.2)).
  { intros p l Hp. eapply moves_yields_mono; [apply IH; lia|]. cbn. lia. }
  assert (Hend : ∀ k, 1 ≤ k → yields (Return (Token.FString (push_literal parts literal), pos + k))
    (λ r, token_work r.1 + 2 * pos + 1 ≤ list_sum (map part_work parts) + 2 * r.2)).
  { intros k Hk. apply yields_Return. cbn [fst snd token_work]. unfold token_work. rewrite push_literal_work. lia. }
  destruct (chars !! pos) as [c|] eqn:Hc; [|ystep]. cbn zeta.
  ystep. { destruct triple; [|apply Hend; lia]. ystep; [apply Hend; lia|apply Hnext; lia]. }
  ystep.
  { ystep; [apply Hnext; lia|]. apply moves_yields_bind, yields_any. intros offset. apply moves_yields_bind.
    eapply moves_yields_mono; [apply fstring_expr_work|]. intros f [Hf1 Hf2]. apply moves_yields_bind, yields_any. intros columns.
    eapply moves_yields_mono; [apply IH; lia|]. intros r. rewrite parts_work_snoc, push_literal_work. cbn [part_work].
    unfold source_work, field_work in *. change (length []) with 0 in Hf2. lia. }
  ystep; [ystep; [apply Hnext; lia|ystep]|]. ystep; [|apply Hnext; lia].
  unfold char_or. destruct (chars !! (pos + 1)) as [d|] eqn:Hd; [|by intros ??]. apply lookup_lt_Some in Hd. apply moves_yields_bind, yields_Return.
  apply moves_yields_bind. eapply moves_yields_mono; [by apply escape_after|]. intros [s p] Hp. cbn [snd] in Hp. apply Hnext. lia.
Qed.

Definition fstring_fits (pos : nat) (r : Token.Token * nat) : Prop :=
  is_fstring r.1 = true → token_work r.1 + 2 * pos + 1 ≤ 2 * r.2.

Lemma plain_fits m pos : plain m → yields m (fstring_fits pos).
Proof using Type. intros Hm [t next] Hr Hf. apply Hm, orb_false_iff in Hr as [_ Hn]. cbn in Hf. by rewrite Hf in Hn. Qed.

Lemma lex_fstring_fits start pos quote raw line_start_pos : pos ≤ start →
  yields (lex_fstring chars start quote raw line_start_pos) (fstring_fits pos).
Proof using Type.
  intros Hs. unfold lex_fstring. cbn zeta.
  eapply moves_yields_mono; [by apply fstring_work|]. intros r Hr _. change (list_sum (map part_work [])) with 0 in Hr.
  destruct (has_char quote chars start && _); lia.
Qed.

Lemma quoted_fits start pos q raw line_start_pos : pos ≤ start →
  yields (quote ← char_at chars q; lex_fstring chars start quote raw line_start_pos) (fstring_fits pos).
Proof using Type. intros Hs. apply moves_yields_bind, yields_any. intros quote. by apply lex_fstring_fits. Qed.

Lemma lex_word_fits pos line_start_pos : yields (lex_word chars pos line_start_pos) (fstring_fits pos).
Proof using Type.
  assert (Hident : plain (Return (lex_ident_or_keyword chars pos))).
  { rewrite (surjective_pairing (lex_ident_or_keyword _ _)). apply makes_no_Return, ident_plain. }
  unfold lex_word. repeat (match goal with |- yields (if _ then _ else _) _ => ystep end); try (apply quoted_fits; lia);
    apply plain_fits; first [apply lex_bytes_plain|apply lex_string_plain|exact Hident].
Qed.

(** A token is worth less than two for each of its characters. *)
Lemma lex_token_work pos line_start_pos c : chars !! pos = Some c →
  yields (lex_token int_limit chars pos line_start_pos c) (λ r, token_work r.1 + 2 * pos + 1 ≤ 2 * r.2).
Proof using Type*.
  intros Hc. pose proof (ends_yields True _ _ (lex_token_ends int_limit True chars (λ _, I) pos line_start_pos c Hc)) as Hafter.
  assert (Hfits : yields (lex_token int_limit chars pos line_start_pos c) (fstring_fits pos)).
  { assert (Hident : plain (Return (lex_ident_or_keyword chars pos))).
    { rewrite (surjective_pairing (lex_ident_or_keyword _ _)). apply makes_no_Return, ident_plain. }
    unfold lex_token. destruct (is_ascii_digit c); [apply plain_fits, lex_number_plain|].
    destruct (is_ascii_letter c || _); [apply lex_word_fits|]. apply plain_fits. unfold lex_leading_dot_float.
    destruct (operator c _ _) as [[t width]|] eqn:Ho; [apply operator_plain in Ho|]; solid_tac; try done;
      first [apply lex_string_plain|apply float_token_plain]. }
  intros [t next] Hr. specialize (Hafter _ Hr). specialize (Hfits _ Hr). unfold after, fstring_fits in *. cbn [fst snd] in *.
  destruct (is_fstring t) eqn:Hf; [by apply Hfits|]. assert (token_work t = 1) as -> by (by destruct t). lia.
Qed.

(** ** The scan *)

(** The characters so far are worth two each: what the tokens so far and the
    levels that are open leave of that, at the beginning of a logical line its
    white space too. *)
Definition paid (n : nat) (s : Scan) : Prop :=
  n + length (s_stack s) + (if s_fresh s then 2 * col_of chars (s_pos s) else 0) ≤ 2 * s_pos s + 1 ∧ s_stack s ≠ [].

Lemma work_layouts p col ts : work (p_token <$> (layout chars p col <$> ts)) = work ts.
Proof using Type. by rewrite fmap_layout. Qed.

Lemma step_paid n s es s' : step int_limit chars s es s' → paid n s → paid (n + work (p_token <$> es)) s'.
Proof using Type*.
  unfold paid. intros Hs [Hn Hk].
  destruct Hs as [p d k f b c Hc Hw Hne|p q d k f b Hc Hone _|p d k b Hc|p k f col Hc|p d k b Hc _|p k k' ts col Hin Hind|p next d k b c t Hc Hl];
    cbn [s_stack s_fresh s_pos] in *.
  - rewrite (col_of_S _ _ _ Hc), (proj2 (Z.eqb_neq _ _) Hne). cbn. destruct f; (split; [lia|done]).
  - destruct (one_line_places _ _ _ Hone) as [_ Hcol]. destruct Hone as [Hpq _]. rewrite Hcol. cbn. destruct f; (split; [lia|done]).
  - cbn. split; [lia|done].
  - rewrite (col_of_S _ _ _ Hc). cbn. destruct f; (split; [lia|done]).
  - cbn. split; [lia|done].
  - rewrite work_layouts. destruct Hind as [rest|top rest Htop _|closed rest _ _]; cbn [work length] in *.
    + split; [lia|done].
    + change (token_work Token.Indent) with 1. split; [lia|done].
    + rewrite work_replicate by done. rewrite length_app in Hn. cbn [length] in Hn. split; [lia|done].
  - pose proof (lex_token_work _ _ _ Hc _ Hl) as Hw. cbn [fst snd] in Hw.
    change (work _) with (token_work t + 0). split; [lia|done].
Qed.

Lemma steps_paid n s es s' : steps int_limit chars s es s' → paid n s → paid (n + work (p_token <$> es)) s'.
Proof using Type*.
  intros Hs. revert n. induction Hs as [s|s es1 s1 es2 s2 Hs _ IH]; intros n Hn; [cbn; by rewrite Nat.add_0_r|].
  rewrite fmap_app, work_app, Nat.add_assoc. by eapply IH, step_paid.
Qed.

Lemma lexer_work self : (Z.of_nat (length chars) + 1 < 2 ^ 32)%Z → lexer int_limit chars = Return self →
  work (tokens self) < source_work (length chars).
Proof using Type*.
  intros Hlen Hr. pose proof (lexer_ends int_limit chars Hlen) as He. rewrite Hr in He.
  destruct He as (es & s & closing & Hs & (Hp & Hc & _) & Hv). rewrite (vectors_tokens _ _ Hv), fmap_app, Hc, work_app.
  destruct (steps_paid 0 _ _ _ Hs) as [Hn Hk]; [by split|]. unfold end_tokens, end_newline. rewrite !work_app, work_replicate by done.
  assert (0 < length (s_stack s)) by (destruct (s_stack s); [done|cbn; lia]). rewrite Hp in Hn.
  change (work [Token.Eof]) with 1. unfold source_work. destruct (_ && _); [change (work [Token.Newline]) with 1|change (work []) with 0];
    destruct (s_fresh s); lia.
Qed.
End tokens.

(** The parser ends: it reads every token at most once, so that its loops and
    its recursion are bounded by the tokens that are left. *)

From S2P Require Import IntArith Bytecode Combinatorics Parser.

#[local] Open Scope nat_scope.

(** ** The fields of f-strings *)

Definition is_field (part : FStringPart.FStringPart) : Prop := match part with FStringPart.Expr _ _ _ _ _ _ => True | _ => False end.
Definition has_fields (tokens : list Token.Token) : Prop := ∃ parts, Token.FString parts ∈ tokens ∧ Exists is_field parts.

Definition syntax_error (e : PyError) : Prop := ∃ message, e = Parse message ∨ e = Lex message.

(** What the parsing of fields may come to. *)
Definition field_result {A} (fields : Prop) (m : outcome A) : Prop :=
  match m with OutOfFuel => False | Panicked => fields | Raise e => syntax_error e | Return _ => True end.

Lemma work_drop tokens p q : p ≤ q ≤ length tokens → work (drop q tokens) + (q - p) ≤ work (drop p tokens).
Proof.
  intros [Hpq Hq]. rewrite <- (take_drop (q - p) (drop p tokens)), work_app, drop_drop. replace (p + (q - p)) with q by lia.
  pose proof (work_length (take (q - p) (drop p tokens))) as Hlen. rewrite length_take, length_drop in Hlen. lia.
Qed.

Lemma work_head tokens p t : tokens !! p = Some t → token_work t + work (drop (S p) tokens) = work (drop p tokens).
Proof. intros Ht. by rewrite (drop_S _ _ _ Ht). Qed.

(** ** What a parser does with its tokens *)

Section moves.
  Context (toks : list Token.Token).

(** From a place with [c] tokens ahead at least, and with work [n] ahead at
    most, [m] does not run out of fuel, raises only syntax errors, panics only
    on the fields of f-strings, and returns a value and a number of tokens read that [Q] allows; it moves
    the position by that number, and changes nothing else. *)
Definition moves {A} (c n : nat) (m : parser A) (Q : A → nat → Prop) : Prop :=
  ∀ st, ps_tokens st = toks → ps_pos st + c ≤ length toks → work (drop (ps_pos st) toks) ≤ n →
  match m st with
  | (Return a, st') => ∃ d, st' = with_pos (ps_pos st + d) st ∧ ps_pos st + d ≤ length toks ∧ Q a d
  | (Raise e, _) => syntax_error e
  | (Panicked, _) => has_fields toks
  | (OutOfFuel, _) => False
  end.

Lemma with_pos_same st : with_pos (ps_pos st + 0) st = st.
Proof. rewrite Nat.add_0_r. by destruct st. Qed.

Lemma moves_weaken {A} c c' n n' (m : parser A) (Q Q' : A → nat → Prop) :
  moves c n m Q → c ≤ c' → n' ≤ n → (∀ a d, Q a d → Q' a d) → moves c' n' m Q'.
Proof.
  intros Hm Hc Hn HQ st Ht Hp Hw. specialize (Hm st Ht ltac:(lia) ltac:(lia)).
  destruct (m st) as [[a| | |] st']; try done. destruct Hm as (d & ? & ? & ?). exists d. split_and!; auto.
Qed.

Lemma moves_bind {A B} c n (m : parser A) (f : A → parser B) (Q1 : A → nat → Prop) (Q : B → nat → Prop) :
  moves c n m Q1 → (∀ a d, Q1 a d → d ≤ n → moves 0 (n - d) (f a) (λ b d', Q b (d + d'))) → moves c n (m ≫= f) Q.
Proof.
  intros Hm Hf st Ht Hp Hw. specialize (Hm st Ht Hp Hw). unfold mbind, prog_bind. destruct (m st) as [[a| | |] st']; try done.
  destruct Hm as (d & -> & Hd & HQ). pose proof (work_drop toks (ps_pos st) (ps_pos st + d) ltac:(lia)) as Hwd.
  specialize (Hf a d HQ ltac:(lia) (with_pos (ps_pos st + d) st) Ht). cbn [ps_pos with_pos] in Hf. specialize (Hf ltac:(lia) ltac:(lia)).
  destruct (f a (with_pos (ps_pos st + d) st)) as [[b| | |] st']; try done. destruct Hf as (d' & -> & Hd' & HQ').
  exists (d + d'). cbn [ps_pos with_pos] in *. rewrite Nat.add_assoc. by split_and!.
Qed.

Lemma moves_ret {A} c n (a : A) (Q : A → nat → Prop) : Q a 0 → moves c n (mret a) Q.
Proof. intros HQ st Ht Hp Hw. cbn. exists 0. rewrite with_pos_same. split_and!; [done|lia|done]. Qed.

Lemma moves_err {A} c n message (Q : A → nat → Prop) : moves c n (parse_err message) Q.
Proof. intros st ???. exists message. by left. Qed.

Lemma moves_pure {A} c n (m : outcome A) (Q : A → nat → Prop) :
  match m with Return a => Q a 0 | Raise e => syntax_error e | Panicked => has_fields toks | OutOfFuel => False end → moves c n (pure m) Q.
Proof. intros HQ st Ht Hp Hw. cbn. destruct m; try done. exists 0. rewrite with_pos_same. split_and!; [done|lia|done]. Qed.

(** Reading the state leaves what is known of the place. *)
Lemma moves_read {A B} c n (m : parser A) (f : A → parser B) (Q : B → nat → Prop) (known : A → Prop) :
  (∀ st, ps_tokens st = toks → ps_pos st + c ≤ length toks → ∃ a, m st = (Return a, st) ∧ known a) →
  (∀ a, known a → moves c n (f a) Q) → moves c n (m ≫= f) Q.
Proof.
  intros Hm Hf st Ht Hp Hw. unfold mbind, prog_bind. destruct (Hm st Ht Hp) as (a & -> & Ha). by apply (Hf a Ha).
Qed.

Lemma moves_peek_at {A} k c n (f : option Token.Token → parser A) (Q : A → nat → Prop) :
  moves c n (f None) Q → (∀ t, t ∈ toks → token_work t + k ≤ n → moves (max c (S k)) n (f (Some t)) Q) →
  moves c n (λ st, f (ps_tokens st !! (ps_pos st + k)) st) Q.
Proof.
  intros HN HS st Ht Hp Hw. rewrite Ht. destruct (toks !! (ps_pos st + k)) as [t|] eqn:Hk; [|by apply HN].
  pose proof (lookup_lt_Some _ _ _ Hk) as Hlt. apply HS; try done; [by apply list_elem_of_lookup_2 in Hk| |lia].
  pose proof (work_head _ _ _ Hk). pose proof (work_drop toks (ps_pos st) (ps_pos st + k) ltac:(lia)). lia.
Qed.

Lemma moves_current {A} c n (f : option Token.Token → parser A) (Q : A → nat → Prop) :
  moves c n (f None) Q → (∀ t, t ∈ toks → token_work t ≤ n → moves (max c 1) n (f (Some t)) Q) → moves c n (current ≫= f) Q.
Proof.
  intros HN HS st. assert (Hm : moves c n (λ st, f (ps_tokens st !! (ps_pos st + 0)) st) Q).
  { apply moves_peek_at; [done|]. intros t Hin Hw. apply HS; [done|lia]. }
  specialize (Hm st). cbv beta in Hm. by rewrite Nat.add_0_r in Hm.
Qed.

Lemma moves_peek {A} c n (f : option Token.Token → parser A) (Q : A → nat → Prop) :
  moves c n (f None) Q → (∀ t, t ∈ toks → moves (max c 2) n (f (Some t)) Q) → moves c n (peek ≫= f) Q.
Proof. intros HN HS. apply (moves_peek_at 1 c n f Q); [done|]. intros t Hin _. by apply HS. Qed.

Lemma moves_is_at {A} token c n (f : bool → parser A) (Q : A → nat → Prop) :
  moves c n (f false) Q → moves (max c 1) n (f true) Q → moves c n (is_at token ≫= f) Q.
Proof.
  intros Hf Ht. apply (moves_current c n (λ t, f (token_is token t)) Q); [done|]. intros t _ _. cbn [token_is].
  destruct (token_kind t =? token_kind token); [done|]. eapply moves_weaken; [exact Hf|lia|done|done].
Qed.

Lemma moves_bump {A} c n (f : unit → parser A) (Q : A → nat → Prop) :
  (1 ≤ n → moves c (n - 1) (f tt) (λ a d, Q a (S d))) → moves (S c) n (bump ≫= f) Q.
Proof.
  intros Hf st Ht Hp Hw. pose proof (work_length (drop (ps_pos st) toks)) as Hlen. rewrite length_drop in Hlen.
  pose proof (work_drop toks (ps_pos st) (ps_pos st + 1) ltac:(lia)). unfold mbind, prog_bind. cbn [bump modify].
  specialize (Hf ltac:(lia) (with_pos (ps_pos st + 1) st) Ht). cbn [ps_pos with_pos] in Hf. specialize (Hf ltac:(lia) ltac:(lia)).
  destruct (f tt _) as [[a| | |] st']; try done. destruct Hf as (d & -> & Hd & HQ). exists (S d). split; [|split; [lia|done]].
  cbn. unfold with_pos. cbn. f_equal. lia.
Qed.

Lemma moves_bump_last c n (Q : unit → nat → Prop) : (1 ≤ n → Q tt 1) → moves (S c) n bump Q.
Proof.
  intros HQ st Ht Hp Hw. pose proof (work_length (drop (ps_pos st) toks)) as Hlen. rewrite length_drop in Hlen. cbn. exists 1. split_and!; [done|lia|].
  apply HQ. lia.
Qed.

(** Positions. *)
Lemma moves_position {A B} c n (m : parser A) (f : A → parser B) (Q : B → nat → Prop) :
  (∀ st, (m st).2 = st ∧ ∃ a, (m st).1 = Return a) → (∀ a, moves c n (f a) Q) → moves c n (m ≫= f) Q.
Proof.
  intros Hm Hf. apply (moves_read c n m f Q (λ _, True)); [|by auto]. intros st _ _. destruct (Hm st) as [H2 [a H1]]. exists a.
  destruct (m st). cbn in *. by subst.
Qed.

Lemma moves_loop {A} c n fuel (body : A → parser (A * bool)) (inv : A → Prop) (Q : A → nat → Prop) (acc : A) :
  (∀ acc n', inv acc → n' ≤ n → moves 0 n' (body acc) (λ r d, inv r.1 ∧ (r.2 = true → 1 ≤ d))) →
  inv acc → n < fuel → (∀ acc d, inv acc → Q acc d) → moves c n (repeat_while fuel body acc) Q.
Proof.
  intros Hbody. revert c n Hbody acc Q. induction fuel as [|fuel IH]; intros c n Hbody acc Q Hinv Hn HQ; [lia|]. cbn [repeat_while].
  eapply moves_bind; [eapply moves_weaken; [apply (Hbody acc n Hinv); lia|lia|lia|done]|]. intros [acc' more] d [Hinv' Hd] Hdn. cbn in *.
  destruct more; [|by apply moves_ret, HQ]. specialize (Hd eq_refl). apply IH; [intros; apply Hbody; [done|lia]|done|lia|auto].
Qed.
End moves.

Section steps.
  Context (toks : list Token.Token).
  Local Abbreviation moves := (moves toks).

Lemma moves_call {A B} k c n (m : parser A) (f : A → parser B) (Q : B → nat → Prop) :
  moves 0 n m (λ _ d, k ≤ d) → (∀ a d, k ≤ d → d ≤ n → moves 0 (n - d) (f a) (λ b d', Q b (d + d'))) → moves c n (m ≫= f) Q.
Proof.
  intros Hm Hf. eapply moves_bind; [eapply (moves_weaken _ 0 c n n); [exact Hm|lia|done|]; intros a d Hd; exact Hd|]. done.
Qed.

Lemma moves_call_at {A B} k c n (m : parser A) (f : A → parser B) (Q : B → nat → Prop) :
  moves c n m (λ _ d, k ≤ d) → (∀ a d, k ≤ d → d ≤ n → moves 0 (n - d) (f a) (λ b d', Q b (d + d'))) → moves c n (m ≫= f) Q.
Proof. intros Hm Hf. by eapply moves_bind. Qed.

Lemma moves_tail {A} k c n (m : parser A) (Q : A → nat → Prop) :
  moves 0 n m (λ _ d, k ≤ d) → (∀ a d, k ≤ d → Q a d) → moves c n m Q.
Proof. intros Hm HQ. eapply (moves_weaken _ 0 c n n); [exact Hm|lia|done|]. auto. Qed.

Lemma moves_tail_at {A} k c n (m : parser A) (Q : A → nat → Prop) :
  moves c n m (λ _ d, k ≤ d) → (∀ a d, k ≤ d → Q a d) → moves c n m Q.
Proof. intros Hm HQ. eapply (moves_weaken _ c c n n); [exact Hm|done|done|]. auto. Qed.

Lemma moves_ret_bind {A B} c n (a : A) (f : A → parser B) (Q : B → nat → Prop) : moves c n (f a) Q → moves c n (mret a ≫= f) Q.
Proof. intros Hf st. apply Hf. Qed.

Lemma moves_assoc {A B C} c n (m : parser A) (g : A → parser B) (f : B → parser C) (Q : C → nat → Prop) :
  moves c n (m ≫= λ a, g a ≫= f) Q → moves c n ((m ≫= g) ≫= f) Q.
Proof. intros Hm st Ht Hp Hw. specialize (Hm st Ht Hp Hw). unfold mbind, prog_bind in *. by destruct (m st) as [[a| | |] st']. Qed.

Lemma moves_err_bind {A B} c n message (f : A → parser B) (Q : B → nat → Prop) : moves c n (parse_err message ≫= f) Q.
Proof. intros st ???. exists message. by left. Qed.

Lemma moves_is_async_for {A} c n (f : bool → parser A) (Q : A → nat → Prop) :
  moves c n (f false) Q → moves (max c 2) n (f true) Q → moves c n (is_async_for ≫= f) Q.
Proof.
  intros Hf Ht. change (is_async_for ≫= f) with (current ≫= λ t, peek ≫= λ t', f (ident_is "async" t && token_is Token.For t')).
  apply moves_current; [|intros t _ _]; (apply moves_peek; [|intros t' _]).
  - exact Hf.
  - eapply moves_weaken; [exact Hf|lia|done|done].
  - rewrite andb_false_r. eapply moves_weaken; [exact Hf|lia|done|done].
  - destruct (ident_is _ _ && _); [eapply moves_weaken; [exact Ht|lia|done|done]|eapply moves_weaken; [exact Hf|lia|done|done]].
Qed.

Lemma moves_at_for {A} c n (f : bool → parser A) (Q : A → nat → Prop) :
  moves c n (f false) Q → moves (max c 1) n (f true) Q → moves c n (at_for ≫= f) Q.
Proof.
  intros Hf Ht. change (at_for ≫= f) with (is_at Token.For ≫= λ b, is_async_for ≫= λ b', f (b || b')).
  apply moves_is_at; apply moves_is_async_for; cbn [orb]; try done.
  all: eapply moves_weaken; [exact Ht|lia|done|done].
Qed.

Lemma unclosed_position st : ps_tokens st = toks → ps_pos st ≤ length toks → ∃ d, unclosed_delimiter st = (Return d, st).
Proof. intros Ht Hp. unfold unclosed_delimiter. rewrite Ht. destruct (Nat.leb_spec (ps_pos st) (length toks)); [by eexists|lia]. Qed.

Lemma moves_unclosed {A} c n (f : option ascii → parser A) (Q : A → nat → Prop) :
  (∀ d, moves c n (f d) Q) → moves c n (unclosed_delimiter ≫= f) Q.
Proof.
  intros Hf. apply (moves_read toks c n _ f Q (λ _, True)); [|auto]. intros st Ht Hp.
  destruct (unclosed_position st Ht ltac:(lia)) as [d Hd]. by exists d.
Qed.
End steps.

Create HintDb moves_db.

(** One step of a parser that is made of known steps. *)
Ltac known_position := intros st; split; [done|by eexists].
Ltac moves_step :=
  lazymatch goal with
  | |- moves _ _ _ (match ?x with _ => _ end) _ => destruct x
  | |- moves _ _ _ ((match ?x with _ => _ end) ≫= _) _ => destruct x
  | |- moves _ _ _ ((_ ≫= _) ≫= _) _ => apply moves_assoc
  | |- moves _ _ _ (current ≫= _) _ => apply moves_current; [|intros ? ? ?; cbn [Nat.max]]
  | |- moves _ _ _ (peek ≫= _) _ => apply moves_peek; [cbn [token_is]|intros ? _; cbn [Nat.max]]
  | |- moves _ _ _ (_ ≫= _) _ =>
      first
        [ apply moves_err_bind
        | apply moves_ret_bind
        | apply moves_is_at; cbn [Nat.max]
        | apply moves_at_for; cbn [Nat.max]
        | apply moves_is_async_for; cbn [Nat.max]
        | apply moves_bump; intros ?
        | apply moves_unclosed; intros ?
        | apply moves_position; [known_position|intros ?]
        | eapply moves_call; [solve [eauto with moves_db lia]|]; intros ? ? ? ?
        | eapply moves_call_at; [solve [eauto with moves_db lia]|]; intros ? ? ? ? ]
  | |- moves _ _ _ (mret _) _ => apply moves_ret
  | |- moves _ _ _ (pair (Return _)) _ => apply moves_ret
  | |- moves _ _ _ (parse_err _) _ => apply moves_err
  | |- moves _ _ _ (never_closed _) _ => apply moves_err
  | |- moves _ _ _ bump _ => apply moves_bump_last; intros ?
  | |- moves _ _ _ _ _ => 
      first [eapply moves_tail; [solve [eauto with moves_db lia]|]|eapply moves_tail_at; [solve [eauto with moves_db lia]|]]; intros ? ? ?
  end.
Ltac moves_go := repeat (moves_step; cbn [negb andb orb]); try (cbn in *; lia).

(** ** The functions of the grammar *)

Section grammar.
  Context `{TokenDebug} (toks : list Token.Token) (r : Parsers) (F : nat).
  Local Abbreviation moves := (moves toks).
  Local Abbreviation consumes n m := (moves 0 n m (λ _ d, 1 ≤ d)).
  Context (Hfuel : F < p_fuel r).
  Context (Hexpr : ∀ n, n < F → consumes n (p_expr r)) (Hor : ∀ n, n < F → consumes n (p_or r)) (Hnot : ∀ n, n < F → consumes n (p_not r))
    (Hunary : ∀ n, n < F → consumes n (p_unary r)) (Htarget : ∀ n, n < F → consumes n (p_for_target r)).
  Context (Hstr : ∀ src line, source_work (length src) ≤ F → field_result True (p_expr_str r src line)).
  #[local] Hint Resolve Hexpr Hor Hnot Hunary Htarget : moves_db.

Lemma moves_expect n token : consumes n (expect token).
Proof using All. unfold expect. moves_go. Qed.
#[local] Hint Resolve moves_expect : moves_db.

Lemma moves_expect_ident n ctx : consumes n (expect_ident ctx).
Proof using All. unfold expect_ident. apply moves_current; [moves_go|]. intros t _ _. destruct t; moves_go. Qed.
#[local] Hint Resolve moves_expect_ident : moves_db.

Lemma moves_seq_item n : n < F → consumes n (parse_seq_item r).
Proof using All. intros Hn. unfold parse_seq_item. moves_go. Qed.
#[local] Hint Resolve moves_seq_item : moves_db.

Lemma moves_at_stmt_end {A} c n (f : bool → parser A) Q : (∀ b, moves c n (f b) Q) → moves c n (at_stmt_end ≫= f) Q.
Proof using All. intros Hf. apply moves_position; [known_position|done]. Qed.

Lemma moves_comma_items {A} n closes (item : parser A) items :
  (∀ c n (f : bool → parser (list A * bool)) Q, (∀ b, moves c n (f b) Q) → moves c n (closes ≫= f) Q) →
  n ≤ F → (∀ n', n' < n → consumes n' item) → moves 0 n (comma_items r closes item items) (λ _ d, 0 ≤ d).
Proof using All.
  intros Hcl Hn Hitem. unfold comma_items. apply (moves_loop _ _ _ _ _ (λ _, True)); [|done|lia|lia]. intros acc n' _ Hn'.
  apply moves_is_at; cbn [Nat.max negb]; [by apply moves_ret|]. apply moves_bump. intros Hn1. apply Hcl. intros b. destruct b; [by apply moves_ret|].
  eapply moves_call; [apply Hitem; lia|]. intros x d Hd _. apply moves_ret. split; [done|]. cbn. lia.
Qed.

Lemma closes_is_at token {A} c n (f : bool → parser A) Q : (∀ b, moves c n (f b) Q) → moves c n (is_at token ≫= f) Q.
Proof using All. intros Hf. apply moves_position; [known_position|done]. Qed.

#[local] Hint Resolve moves_at_stmt_end moves_comma_items closes_is_at : moves_db.

Lemma moves_expr_or_tuple n : n < F → consumes n (parse_expr_or_tuple r).
Proof using All. intros Hn. unfold parse_expr_or_tuple. moves_go. Qed.
#[local] Hint Resolve moves_expr_or_tuple : moves_db.

(** A loop whose body goes on only after it has read a token. *)
Ltac loop_body := apply (moves_loop _ _ _ _ _ (λ _, True)); [|done|lia|lia]; intros ? ? _ ?.
Ltac loop_go := loop_body; moves_go; try (split; [done|cbn in *; try lia; done]).

Lemma moves_for_target_item n : n ≤ F → consumes n (parse_for_target_item r).
Proof using All. intros Hn. unfold parse_for_target_item. moves_go. Qed.
#[local] Hint Resolve moves_for_target_item : moves_db.

Lemma moves_for_target_items n s : n ≤ F → moves 0 n (for_target_items r s) (λ _ d, 0 ≤ d).
Proof using All. intros Hn. unfold for_target_items. loop_go. Qed.
#[local] Hint Resolve moves_for_target_items : moves_db.

Lemma moves_for_target n : n ≤ F → consumes n (parse_for_target r).
Proof using All. intros Hn. unfold parse_for_target. moves_go. Qed.
#[local] Hint Resolve moves_for_target : moves_db.

Lemma moves_comp_filters n cond : n ≤ F → moves 0 n (comp_filters r cond) (λ _ d, 0 ≤ d).
Proof using All. intros Hn. unfold comp_filters. loop_go. Qed.
#[local] Hint Resolve moves_comp_filters : moves_db.

Lemma moves_comp_clauses n : n ≤ F → moves 0 n (parse_comp_clauses r) (λ _ d, 0 ≤ d).
Proof using All. intros Hn. unfold parse_comp_clauses. loop_go. Qed.
#[local] Hint Resolve moves_comp_clauses : moves_db.

Lemma moves_comprehension n make close : n ≤ F → consumes n (comprehension r make close).
Proof using All. intros Hn. unfold comprehension. moves_go. Qed.
#[local] Hint Resolve moves_comprehension : moves_db.

Lemma moves_list_literal n : n ≤ F → consumes n (parse_list_literal r).
Proof using All. intros Hn. unfold parse_list_literal. moves_go. Qed.
#[local] Hint Resolve moves_list_literal : moves_db.

Lemma moves_dict_item n : n < F → consumes n (parse_dict_item r).
Proof using All. intros Hn. unfold parse_dict_item. moves_go. Qed.
#[local] Hint Resolve moves_dict_item : moves_db.

Lemma moves_rest_of_dict n first : n ≤ F → consumes n (rest_of_dict r first).
Proof using All. intros Hn. unfold rest_of_dict. moves_go. Qed.
Lemma moves_rest_of_set n first : n ≤ F → consumes n (rest_of_set r first).
Proof using All. intros Hn. unfold rest_of_set. moves_go. Qed.
#[local] Hint Resolve moves_rest_of_dict moves_rest_of_set : moves_db.

Lemma moves_dict_or_set_literal n : n ≤ F → consumes n (parse_dict_or_set_literal r).
Proof using All. intros Hn. unfold parse_dict_or_set_literal. moves_go. Qed.
#[local] Hint Resolve moves_dict_or_set_literal : moves_db.

Lemma moves_parenthesized n : n < F → consumes n (parse_parenthesized r).
Proof using All. intros Hn. unfold parse_parenthesized. moves_go. Qed.
#[local] Hint Resolve moves_parenthesized : moves_db.

(** *** F-strings *)

Lemma field_result_bind {A B} P (m : outcome A) (f : A → outcome B) :
  field_result P m → (∀ a, field_result P (f a)) → field_result P (m ≫= f).
Proof using Type. intros Hm Hf. destruct m; try done. apply Hf. Qed.

Lemma field_result_weaken {A} (P P' : Prop) (m : outcome A) : field_result P m → (P → P') → field_result P' m.
Proof using Type. intros Hm HP. destruct m; cbn in *; auto. Qed.

Lemma fstring_part_ends line part : part_work part ≤ F → field_result (is_field part) (parse_fstring_part r line part).
Proof using All.
  revert part. fix IH 1. intros [text|src conversion spec debug cols offset] Hw; [done|]. cbn [parse_fstring_part part_work is_field] in *.
  apply field_result_bind; [apply Hstr; lia|]. intros expr. apply field_result_bind; [|done]. destruct spec as [parts|]; [|done].
  apply field_result_bind; [|done]. assert (Hws : list_sum (map part_work parts) ≤ F) by (cbv beta iota in Hw; lia). clear Hw. revert parts Hws.
  fix IHl 1. intros [|part parts] Hws; [done|]. rewrite parts_work_cons in Hws.
  apply field_result_bind; [eapply field_result_weaken; [apply IH; lia|done]|]. intros part'. apply field_result_bind; [|done]. apply IHl. lia.
Qed.

Lemma fstring_parts_end line parts : list_sum (map part_work parts) ≤ F → field_result (Exists is_field parts) (parse_fstring_parts r line parts).
Proof using All.
  induction parts as [|part parts IH]; intros Hw; [done|]. rewrite parts_work_cons in Hw.
  cbn [parse_fstring_parts]. apply field_result_bind; [eapply field_result_weaken; [apply fstring_part_ends; lia|by constructor]|].
  intros part'. apply field_result_bind; [|done]. eapply field_result_weaken; [apply IH; lia|by constructor].
Qed.

Lemma moves_fstring_parts {A} c n line parts (f : list Ast.FStringPart → parser A) Q :
  Token.FString parts ∈ toks → list_sum (map part_work parts) ≤ F → (∀ parts', moves c n (f parts') Q) →
  moves c n (pure (parse_fstring_parts r line parts) ≫= f) Q.
Proof using All.
  intros Hin Hw Hf st Ht Hp Hwork. unfold mbind, prog_bind, pure. pose proof (fstring_parts_end line parts Hw) as Hr.
  destruct (parse_fstring_parts r line parts); try done; [by apply Hf|]. exists parts. split; [done|]. exact Hr.
Qed.

Ltac fstring_step :=
  match goal with
  | Hin : Token.FString ?parts ∈ toks |- _ =>
      apply (moves_fstring_parts _ _ _ _ _ _ Hin); [cbn [token_work] in *; unfold token_work in *; lia|intros ?]
  end.
Ltac current_step := apply moves_current; [|intros ? ? ?].
Ltac adjacent_go :=
  loop_body; try (match goal with |- moves _ _ (match ?p with _ => _ end) _ => destruct p end);
  current_step; [moves_go|]; repeat first [progress (moves_go)|fstring_step]; try (split; [done|cbn in *; try lia; done]).

Lemma moves_adjacent_strings n s : n ≤ F → moves 0 n (adjacent_strings r s) (λ _ d, 0 ≤ d).
Proof using All. intros Hn. unfold adjacent_strings. adjacent_go. Qed.
Lemma moves_adjacent_bytes n s : n ≤ F → moves 0 n (adjacent_bytes r s) (λ _ d, 0 ≤ d).
Proof using All. intros Hn. unfold adjacent_bytes. adjacent_go. Qed.
Lemma moves_adjacent_fstrings n s : n ≤ F → moves 0 n (adjacent_fstrings r s) (λ _ d, 0 ≤ d).
Proof using All. intros Hn. unfold adjacent_fstrings. adjacent_go. Qed.
#[local] Hint Resolve moves_adjacent_strings moves_adjacent_bytes moves_adjacent_fstrings : moves_db.

Lemma moves_primary n : n ≤ F → consumes n (parse_primary r).
Proof using All. intros Hn. unfold parse_primary. current_step; [moves_go|]. repeat first [progress moves_go|fstring_step]. Qed.
#[local] Hint Resolve moves_primary : moves_db.

(** *** Calls, subscripts and attributes *)

Lemma moves_positional n args : n < F → consumes n (parse_positional r args).
Proof using All. intros Hn. unfold parse_positional. moves_go. Qed.
#[local] Hint Resolve moves_positional : moves_db.

Lemma moves_call_arg n args seen : n < F → consumes n (parse_call_arg r args seen).
Proof using All.
  intros Hn. unfold parse_call_arg. moves_go.
Qed.
#[local] Hint Resolve moves_call_arg : moves_db.

Lemma moves_call_args_loop n s : n < F → moves 0 n (call_args r s) (λ _ d, 0 ≤ d).
Proof using All. intros Hn. unfold call_args. loop_go. Qed.
#[local] Hint Resolve moves_call_args_loop : moves_db.

Lemma check_repeated_ends seen args : field_result False (check_repeated_keywords seen args).
Proof using Type. revert seen. induction args as [|[[name|] value splat double_splat] args IH]; intros seen; cbn; [done| |done].
  case_bool_decide; [eexists; by left|done].
Qed.

Lemma moves_check {A B} c n (m : outcome A) (f : A → parser B) Q :
  field_result False m → (∀ a, moves c n (f a) Q) → moves c n (pure m ≫= f) Q.
Proof using Type. intros Hm Hf st. destruct m; try done. apply Hf. Qed.

Lemma moves_call_args n : n < F → moves 0 n (parse_call_args r) (λ _ d, 0 ≤ d).
Proof using All. intros Hn. unfold parse_call_args. moves_go. apply moves_check; [apply check_repeated_ends|intros ?]. moves_go. Qed.
#[local] Hint Resolve moves_call_args : moves_db.

Lemma moves_slice_bound n absent : n < F → moves 0 n (slice_bound r absent) (λ _ d, 0 ≤ d).
Proof using All. intros Hn. unfold slice_bound. moves_go. Qed.
#[local] Hint Resolve moves_slice_bound : moves_db.

Lemma moves_index n target first star object_start bracket_col : n < F → consumes n (parse_index r target first star object_start bracket_col).
Proof using All. intros Hn. unfold parse_index. moves_go. Qed.
#[local] Hint Resolve moves_index : moves_db.

Lemma moves_slice n target lower : n < F → moves 1 n (parse_slice r target lower) (λ _ d, 1 ≤ d).
Proof using All. intros Hn. unfold parse_slice. moves_go. Qed.

#[local] Hint Resolve moves_slice : moves_db.

Lemma moves_subscript n target object_start bracket_col : n < F → consumes n (parse_subscript r target object_start bracket_col).
Proof using All.
  intros Hn. unfold parse_subscript. moves_go.
Qed.
#[local] Hint Resolve moves_subscript : moves_db.

Lemma moves_postfixes n primary_start expr : n ≤ F → moves 0 n (postfixes r primary_start expr) (λ _ d, 0 ≤ d).
Proof using All.
  intros Hn. unfold postfixes. loop_go.
Qed.
#[local] Hint Resolve moves_postfixes : moves_db.

Lemma moves_postfix n : n ≤ F → consumes n (parse_postfix r).
Proof using All. intros Hn. unfold parse_postfix. moves_go. Qed.
#[local] Hint Resolve moves_postfix : moves_db.

(** *** Operators *)

Lemma moves_power n : n ≤ F → consumes n (parse_power r).
Proof using All. intros Hn. unfold parse_power. moves_go. Qed.
#[local] Hint Resolve moves_power : moves_db.

Lemma moves_parse_unary n : n ≤ F → consumes n (parse_unary r).
Proof using All. intros Hn. unfold parse_unary. current_step; cbn [unary_operator ident_is]; moves_go. Qed.
#[local] Hint Resolve moves_parse_unary : moves_db.

Lemma moves_binary operator next n :
  operator None = None → (∀ n, n ≤ F → consumes n next) → n ≤ F → consumes n (parse_binary r operator next).
Proof using All.
  intros Ho Hnext Hn. unfold parse_binary. do 3 moves_step. eapply (moves_tail _ 0); [|cbn; lia].
  loop_body. current_step; [rewrite Ho; moves_go; done|]. moves_go; (split; [done|cbn in *; try lia; done]).
Qed.

Lemma moves_factor n : n ≤ F → consumes n (parse_factor r).
Proof using All. by apply moves_binary, moves_parse_unary. Qed.
Lemma moves_term n : n ≤ F → consumes n (parse_term r).
Proof using All. by apply moves_binary, moves_factor. Qed.
Lemma moves_shift n : n ≤ F → consumes n (parse_shift r).
Proof using All. by apply moves_binary, moves_term. Qed.
Lemma moves_bitand n : n ≤ F → consumes n (parse_bitand r).
Proof using All. by apply moves_binary, moves_shift. Qed.
Lemma moves_bitxor n : n ≤ F → consumes n (parse_bitxor r).
Proof using All. by apply moves_binary, moves_bitand. Qed.
Lemma moves_bitor n : n ≤ F → consumes n (parse_bitor r).
Proof using All. by apply moves_binary, moves_bitxor. Qed.
#[local] Hint Resolve moves_bitor : moves_db.

Lemma moves_comparison_operator n : moves 0 n comparison_operator (λ op d, op = None ∨ 1 ≤ d).
Proof using All.
  unfold comparison_operator. apply moves_current; [moves_step; by left|]. intros t _ _.
  destruct t; moves_go; first [by left|right; lia].
Qed.

Lemma moves_comparisons n ops : n ≤ F → moves 0 n (comparisons r ops) (λ _ d, 0 ≤ d).
Proof using All.
  intros Hn. unfold comparisons. loop_body. eapply moves_bind; [apply moves_comparison_operator|].
  intros [op|] d Hd ?; [destruct Hd as [[=]|Hd]|]; moves_go; (split; [done|cbn in *; try lia; done]).
Qed.
#[local] Hint Resolve moves_comparisons : moves_db.

Lemma moves_comparison n : n ≤ F → consumes n (parse_comparison r).
Proof using All. intros Hn. unfold parse_comparison. moves_go. Qed.
#[local] Hint Resolve moves_comparison : moves_db.

Lemma moves_parse_not n : n ≤ F → consumes n (parse_not r).
Proof using All. intros Hn. unfold parse_not. moves_go. Qed.

Lemma moves_boolean token op next n : (∀ n, n ≤ F → consumes n next) → n ≤ F → consumes n (parse_boolean r token op next).
Proof using All. intros Hnext Hn. unfold parse_boolean. moves_step. eapply (moves_tail _ 0); [loop_go|cbn; lia]. Qed.

Lemma moves_and n : n ≤ F → consumes n (parse_and r).
Proof using All. by apply moves_boolean, moves_parse_not. Qed.
Lemma moves_parse_or n : n ≤ F → consumes n (parse_or r).
Proof using All. by apply moves_boolean, moves_and. Qed.
#[local] Hint Resolve moves_parse_not moves_parse_or : moves_db.

(** *** Lambda *)

Lemma moves_lambda_kwargs n s : n ≤ F → moves 1 n (lambda_kwargs s) (λ _ d, 1 ≤ d).
Proof using All. intros Hn. unfold lambda_kwargs. moves_go. Qed.
Lemma moves_lambda_args n s : n ≤ F → moves 1 n (lambda_args s) (λ _ d, 1 ≤ d).
Proof using All. intros Hn. unfold lambda_args. moves_go. Qed.
Lemma moves_lambda_param n s : n ≤ F → moves 0 n (lambda_param r s) (λ _ d, 1 ≤ d).
Proof using All. intros Hn. unfold lambda_param. moves_go. Qed.
Lemma moves_lambda_colon n s : n ≤ F → moves 0 n (lambda_colon s) (λ _ d, 0 ≤ d).
Proof using All. intros Hn. unfold lambda_colon. moves_go. Qed.
#[local] Hint Resolve moves_lambda_kwargs moves_lambda_args moves_lambda_param moves_lambda_colon : moves_db.

Lemma moves_lambda_params_loop n s : n ≤ F → moves 0 n (lambda_params r s) (λ _ d, 0 ≤ d).
Proof using All.
  intros Hn. unfold lambda_params. loop_go.
Qed.
#[local] Hint Resolve moves_lambda_params_loop : moves_db.

Lemma check_duplicates_ends seen params : field_result False (check_duplicates seen params).
Proof using Type. revert seen. induction params as [|p params IH]; intros seen; cbn; [done|].
  case_bool_decide; [eexists; by left|done].
Qed.

Lemma check_duplicate_params_ends params : field_result False (check_duplicate_params params).
Proof using Type.
  apply field_result_bind; [apply check_duplicates_ends|]. intros _. destruct (existsb _ _); [eexists; by left|done].
Qed.

Lemma moves_parse_lambda_params n : n ≤ F → moves 0 n (parse_lambda_params r) (λ _ d, 0 ≤ d).
Proof using All.
  intros Hn. unfold parse_lambda_params. moves_step. apply moves_check; [apply check_duplicate_params_ends|intros ?]. moves_go.
Qed.
#[local] Hint Resolve moves_parse_lambda_params : moves_db.

Lemma moves_parse_lambda n : n ≤ F → consumes n (parse_lambda r).
Proof using All. intros Hn. unfold parse_lambda. moves_go. Qed.
#[local] Hint Resolve moves_parse_lambda : moves_db.

(** *** Expressions *)

Lemma moves_parse_yield n : n ≤ F → moves 1 n (parse_yield r) (λ _ d, 1 ≤ d).
Proof using All. intros Hn. unfold parse_yield. moves_go. Qed.
Lemma moves_parse_walrus n e : n ≤ F → moves 1 n (parse_walrus r e) (λ _ d, 1 ≤ d).
Proof using All. intros Hn. unfold parse_walrus. moves_go. Qed.
Lemma moves_parse_ternary n e : n ≤ F → moves 1 n (parse_ternary r e) (λ _ d, 1 ≤ d).
Proof using All. intros Hn. unfold parse_ternary. moves_go. Qed.
#[local] Hint Resolve moves_parse_yield moves_parse_walrus moves_parse_ternary : moves_db.

Lemma moves_expr_inner n : n ≤ F → consumes n (parse_expr_inner r).
Proof using All. intros Hn. unfold parse_expr_inner. moves_go. Qed.

Lemma moves_parse_expr n : n ≤ F → consumes n (parse_expr r).
Proof using All.
  intros Hn st Ht Hp Hw. unfold parse_expr. destruct (MAX_EXPR_DEPTH <? _); [eexists; by left|].
  pose proof (moves_expr_inner n Hn (with_expr_depth (ps_expr_depth st + 1) st) Ht Hp Hw) as Hm.
  destruct (parse_expr_inner r _) as [[e|e| |] st']; try done. destruct Hm as (d & -> & Hd & HQ). exists d. split; [|done].
  unfold with_expr_depth, with_pos. cbn. by rewrite Nat.add_sub.
Qed.
End grammar.

(** ** The parser *)

Section whole.
  Context {B : Type} `{BigIntText B, !Unicode, !UnicodeLaws, TokenDebug} (int_limit : Z).
  Abbreviation parsers := (parsers (B := B) int_limit).
  Local Abbreviation consumes toks n m := (moves toks 0 n m (λ _ d, 1 ≤ d)).

(** What the functions of the grammar do with less work than their fuel. *)
Definition ends_within (F : nat) (r : Parsers) : Prop :=
  (∀ toks n, n < F → consumes toks n (p_expr r) ∧ consumes toks n (p_or r) ∧ consumes toks n (p_not r) ∧ consumes toks n (p_unary r) ∧
    consumes toks n (p_for_target r)) ∧
  ∀ src line, source_work (length src) ≤ F → field_result True (p_expr_str r src line).

Lemma ends_grammar F r : F < p_fuel r → ends_within F r →
  ∀ toks n, n ≤ F → consumes toks n (parse_expr r) ∧ consumes toks n (parse_or r) ∧ consumes toks n (parse_not r) ∧
    consumes toks n (parse_unary r) ∧ consumes toks n (parse_for_target r).
Proof using Type.
  intros HF [Hr Hs] toks n Hn. assert (Hr' := λ n Hn, Hr toks n Hn).
  split_and!; [eapply (moves_parse_expr toks r F)|eapply (moves_parse_or toks r F)|eapply (moves_parse_not toks r F)|
    eapply (moves_parse_unary toks r F)|eapply (moves_for_target toks r F)]; try done; try (intros; by apply Hr').
Qed.

Lemma parse_expr_str_ends F expr src line :
  (∀ toks, consumes toks F expr) → (Z.of_nat (length src) + 1 < 2 ^ 32)%Z → source_work (length src) ≤ S F →
  field_result True (parse_expr_str (B := B) int_limit expr src line).
Proof using Type*.
  intros Hexpr Hlen Hsrc. unfold parse_expr_str. pose proof (lexer_ends int_limit src Hlen) as Hends.
  pose proof (lexer_work int_limit src) as Hwork. destruct (lexer int_limit src) as [lexed|e| |]; try done; cbn.
  2: { destruct Hends as [message ->]. exists message. by right. }
  specialize (Hwork lexed Hlen eq_refl). match goal with |- context [expr ?p] => set (st := p) end.
  assert (Hst : ps_tokens st = tokens lexed ∧ ps_pos st = 0) by (subst st; by destruct (line =? 0)%Z). destruct Hst as [Ht Hp].
  specialize (Hexpr (tokens lexed) st Ht). rewrite Hp in Hexpr. specialize (Hexpr ltac:(lia) ltac:(change (drop 0 ?l) with l; lia)).
  by destruct (expr st) as [[e|e| |] st'].
Qed.

Lemma parsers_fuel F : F < p_fuel (parsers F).
Proof using Type. destruct F; cbn; lia. Qed.

Lemma parsers_end F : (Z.of_nat F < 2 ^ 32)%Z → ends_within F (parsers F).
Proof using Type*.
  induction F as [|F IH]; intros HF; [split; [lia|unfold source_work; lia]|].
  pose proof (ends_grammar F (parsers F) (parsers_fuel F) (IH ltac:(lia))) as Hg. split.
  - intros toks n Hn. apply Hg. lia.
  - intros src line Hsrc. cbn [parsers p_expr_str]. apply (parse_expr_str_ends F); [intros toks; by apply Hg| |done].
    unfold source_work in Hsrc. lia.
Qed.
End whole.
