(* ===== verification/Grammar.v ===== *)
(** The grammar of expressions: which tokens are an expression, and of which
    tree, with the precedence and the associativity of the operators. *)

From stdpp Require Import strings.
From S2P Require Import Outcome Prelude Double IntArith Bytecode Chars LexLiterals Lexer Parser.

#[local] Open Scope nat_scope.

(** ** Shared forms *)

(** What follows the first of some items: each after a comma, and where
    [trailing] a comma may end the list; the last item may be of another kind. *)
Inductive commas {A} (trailing : bool) (item last : list Token.Token → A → Prop) : list Token.Token → list A → Prop :=
  | commas_end : commas trailing item last [] []
  | commas_trailing : trailing = true → commas trailing item last [Token.Comma] []
  | commas_last ts a : last ts a → commas trailing item last (Token.Comma :: ts) [a]
  | commas_more ts a ts' l : item ts a → commas trailing item last ts' l → ts' ≠ [] → commas trailing item last (Token.Comma :: ts ++ ts') (a :: l).

Inductive optional {A} (item : list Token.Token → A → Prop) : list Token.Token → option A → Prop :=
  | optional_none : optional item [] None
  | optional_some ts a : item ts a → optional item ts (Some a).

(** The tokens of a comparison operator. *)
Definition comparison_tokens (op : CmpOp.CmpOp) : list Token.Token :=
  match op with
  | CmpOp.Eq => [Token.Eq] | CmpOp.Ne => [Token.Ne] | CmpOp.Lt => [Token.Lt] | CmpOp.Le => [Token.Le] | CmpOp.Gt => [Token.Gt]
  | CmpOp.Ge => [Token.Ge] | CmpOp.In => [Token.In] | CmpOp.NotIn => [Token.Not; Token.In] | CmpOp.Is => [Token.Is]
  | CmpOp.IsNot => [Token.Is; Token.Not]
  end.

Definition comparison_tree (lhs : Ast.Expr) (ops : list (CmpOp.CmpOp * Ast.Expr)) : Ast.Expr :=
  match ops with
  | [] => lhs
  | [(op, rhs)] => Ast.Binary lhs (cmp_binary_op op) rhs None
  | _ => Ast.Compare lhs ops
  end.

(** The left-associative operators, from the tightest. *)
Definition level_operator (k : nat) : option Token.Token → option BinaryOp :=
  match k with
  | 0 => factor_operator | 1 => term_operator | 2 => shift_operator | 3 => bitand_operator | 4 => bitxor_operator
  | _ => bitor_operator
  end.

Definition is_starred (e : Ast.Expr) : bool := match e with Ast.Starred _ => true | _ => false end.

Definition for_tokens (is_async : bool) : list Token.Token :=
  if is_async then [Token.Ident (chars_of "async"); Token.For] else [Token.For].

Definition join_filter (cond : option Ast.Expr) (filter : Ast.Expr) : option Ast.Expr :=
  Some match cond with None => filter | Some prev => Ast.Binary prev And filter None end.

(** ** Targets of comprehensions *)

(** A target, and whether it is starred. *)
Inductive target_item : list Token.Token → Ast.AssignTarget * bool → Prop :=
  | target_star name : target_item [Token.Star; Token.Ident name] (Ast.TName name, true)
  | target_name name : target_item [Token.Ident name] (Ast.TName name, false)
  | target_empty : target_item [Token.LParen; Token.RParen] (Ast.TTuple [], false)
  | target_paren ts t : target ts t → target_item (Token.LParen :: ts ++ [Token.RParen]) (t, false)
with target : list Token.Token → Ast.AssignTarget → Prop :=
  | target_one ts t : target_item ts (t, false) → target ts t
  | target_tuple ts item ts' items :
      target_item ts item → commas true target_item target_item ts' items → ts' ≠ [] → length (filter (λ i, i.2 = true) (item :: items)) ≤ 1 →
      target (ts ++ ts') (Ast.TTuple (map starred_target (item :: items))).

(** ** Parameters of lambda *)

Definition no_params : LambdaParams :=
  {| lp_params := []; lp_seen_default := false; lp_seen_star := false; lp_seen_kwargs := false; lp_bare_star_needs_kwonly := false |}.
Definition add_kwargs (name : list Z) (s : LambdaParams) : LambdaParams :=
  {| lp_params := lp_params s ++ [Ast.Param name None None false true false false]; lp_seen_default := lp_seen_default s;
     lp_seen_star := lp_seen_star s; lp_seen_kwargs := true; lp_bare_star_needs_kwonly := lp_bare_star_needs_kwonly s |}.
Definition add_bare_star (s : LambdaParams) : LambdaParams :=
  {| lp_params := lp_params s; lp_seen_default := lp_seen_default s; lp_seen_star := true; lp_seen_kwargs := lp_seen_kwargs s;
     lp_bare_star_needs_kwonly := true |}.
Definition add_args (name : list Z) (s : LambdaParams) : LambdaParams :=
  {| lp_params := lp_params s ++ [Ast.Param name None None true false false false]; lp_seen_default := lp_seen_default s;
     lp_seen_star := true; lp_seen_kwargs := lp_seen_kwargs s; lp_bare_star_needs_kwonly := lp_bare_star_needs_kwonly s |}.
Definition add_param (name : list Z) (default : option Ast.Expr) (s : LambdaParams) : LambdaParams :=
  {| lp_params := lp_params s ++ [Ast.Param name default None false false (lp_seen_star s) false];
     lp_seen_default := bool_decide (is_Some default) || lp_seen_default s; lp_seen_star := lp_seen_star s;
     lp_seen_kwargs := lp_seen_kwargs s; lp_bare_star_needs_kwonly := if lp_seen_star s then false else lp_bare_star_needs_kwonly s |}.

(** ** Expressions *)

(** What the tokens after an expression may begin with: a [yield] takes the
    commas after its value, and only the end of a statement may follow one
    without a value. *)
Inductive Following : Type := AnyToken | NotComma | StatementEnd.
Definition before (ts : list Token.Token) : Following := match ts with [] => NotComma | _ => AnyToken end.
Definition at_statement_end (b : Following) : bool := match b with StatementEnd => true | _ => false end.

Section grammar.
  (** Whether trees have spans. *)
  Context (spans : bool).

Definition allowed {A} (span : option A) : Prop := spans = false → span = None.

(** An expression of [n] nested expressions at most, before what [b] says. *)
Inductive expr : Following → nat → list Token.Token → Ast.Expr → Prop :=
  | expr_inner b n ts e : inner b n ts e → expr b (S n) ts e
with inner : Following → nat → list Token.Token → Ast.Expr → Prop :=
  | inner_or b n ts e : or_test n ts e → inner b n ts e
  | inner_walrus b n ts name span ts' e :
      or_test n ts (Ast.Var name span) → name ≠ chars_of "__debug__" → expr b n ts' e →
      inner b n (ts ++ Token.Walrus :: ts') (Ast.Named name e)
  | inner_ternary b n ts e ts1 c ts2 e' :
      or_test n ts e → or_test n ts1 c → expr b n ts2 e' → inner b n (ts ++ Token.If :: ts1 ++ Token.Else :: ts2) (Ast.Ternary c e e')
  | inner_lambda b n ts params ts' e :
      lambda_list n ts params → expr b n ts' e → inner b n (Token.Lambda :: ts ++ Token.Colon :: ts') (Ast.Lambda params e)
  | inner_yield_from b n ts e : expr b n ts e → inner b n (Token.Yield :: Token.From_ :: ts) (Ast.YieldFrom e)
  | inner_yield_none n : inner StatementEnd n [Token.Yield] (Ast.Yield None)
  | inner_yield b n ts e : b ≠ AnyToken → expr_or_tuple b n ts e → is_starred e = false → inner b n (Token.Yield :: ts) (Ast.Yield (Some e))
(** Items of tuples, lists and sets. *)
with item : Following → nat → list Token.Token → Ast.Expr → Prop :=
  | item_expr b n ts e : expr b n ts e → item b n ts e
  | item_star b n ts e : or_test n ts e → item b n (Token.Star :: ts) (Ast.Starred e)
with expr_or_tuple : Following → nat → list Token.Token → Ast.Expr → Prop :=
  | expr_or_tuple_item b n ts e : item b n ts e → expr_or_tuple b n ts e
  | expr_or_tuple_tuple b n ts e ts' es :
      item AnyToken n ts e → commas (at_statement_end b) (item AnyToken n) (item b n) ts' es → ts' ≠ [] → expr_or_tuple b n (ts ++ ts') (Ast.Tuple (e :: es))
(** Operators. *)
with or_test : nat → list Token.Token → Ast.Expr → Prop :=
  | or_and n ts e : and_test n ts e → or_test n ts e
  | or_or n ts e ts' e' : or_test n ts e → and_test n ts' e' → or_test n (ts ++ Token.Or :: ts') (Ast.Binary e Or e' None)
with and_test : nat → list Token.Token → Ast.Expr → Prop :=
  | and_not n ts e : not_test n ts e → and_test n ts e
  | and_and n ts e ts' e' : and_test n ts e → not_test n ts' e' → and_test n (ts ++ Token.And :: ts') (Ast.Binary e And e' None)
with not_test : nat → list Token.Token → Ast.Expr → Prop :=
  | not_comparison n ts e ts' ops : binary n 6 ts e → comparisons n ts' ops → not_test n (ts ++ ts') (comparison_tree e ops)
  | not_not n ts e span : not_test n ts e → allowed span → not_test n (Token.Not :: ts) (Ast.Unary Not e span)
with comparisons : nat → list Token.Token → list (CmpOp.CmpOp * Ast.Expr) → Prop :=
  | comparisons_none n : comparisons n [] []
  | comparisons_more n op ts e ts' ops :
      binary n 6 ts e → comparisons n ts' ops → comparisons n (comparison_tokens op ++ ts ++ ts') ((op, e) :: ops)
(** The levels below [k] of the left-associative operators. *)
with binary : nat → nat → list Token.Token → Ast.Expr → Prop :=
  | binary_unary n ts e : unary n ts e → binary n 0 ts e
  | binary_tighter n k ts e : binary n k ts e → binary n (S k) ts e
  | binary_operator n k ts e t op ts' e' span :
      binary n (S k) ts e → level_operator k (Some t) = Some op → binary n k ts' e' → allowed span →
      binary n (S k) (ts ++ t :: ts') (Ast.Binary e op e' span)
with unary : nat → list Token.Token → Ast.Expr → Prop :=
  | unary_operation n t op ts e span :
      unary_operator (Some t) = Some op → unary n ts e → allowed span → unary n (t :: ts) (Ast.Unary op e span)
  | unary_await n ts e : unary n ts e → unary n (Token.Ident (chars_of "await") :: ts) (Ast.Await e)
  | unary_postfix n ts e : postfix n ts e → head ts ≠ Some (Token.Ident (chars_of "await")) → unary n ts e
  | unary_power n ts e ts' e' span :
      postfix n ts e → head ts ≠ Some (Token.Ident (chars_of "await")) → unary n ts' e' → allowed span →
      unary n (ts ++ Token.StarStar :: ts') (Ast.Binary e Pow e' span)
(** Calls, attributes and subscripts. *)
with postfix : nat → list Token.Token → Ast.Expr → Prop :=
  | postfix_primary n ts e : primary n ts e → postfix n ts e
  | postfix_call n ts e ts' args span :
      postfix n ts e → arguments n ts' args → allowed span → postfix n (ts ++ Token.LParen :: ts' ++ [Token.RParen]) (Ast.Call e args span)
  | postfix_attr n ts e name span :
      postfix n ts e → allowed span → postfix n (ts ++ [Token.Dot; Token.Ident name]) (Ast.Attr e name span)
  | postfix_index n ts e ts' index span :
      postfix n ts e → subscript n ts' index → allowed span →
      postfix n (ts ++ Token.LBracket :: ts' ++ [Token.RBracket]) (Ast.Index e index span)
  | postfix_slice n ts e ts1 lower ts2 upper ts3 step :
      postfix n ts e → optional (item NotComma n) ts1 lower → optional (expr NotComma n) ts2 upper → slice_step n ts3 step →
      postfix n (ts ++ Token.LBracket :: ts1 ++ Token.Colon :: ts2 ++ ts3 ++ [Token.RBracket]) (Ast.Slice e lower upper step)
with subscript : nat → list Token.Token → Ast.Expr → Prop :=
  | subscript_one n ts e : item NotComma n ts e → subscript n ts (if is_starred e then Ast.Tuple [e] else e)
  | subscript_tuple n ts e ts' es :
      item AnyToken n ts e → commas true (item AnyToken n) (item NotComma n) ts' es → ts' ≠ [] → subscript n (ts ++ ts') (Ast.Tuple (e :: es))
with slice_step : nat → list Token.Token → option Ast.Expr → Prop :=
  | slice_step_none n : slice_step n [] None
  | slice_step_some n ts step : optional (expr NotComma n) ts step → slice_step n (Token.Colon :: ts) step
with arguments : nat → list Token.Token → list Ast.CallArg → Prop :=
  | arguments_none n : arguments n [] []
  | arguments_generator n ts e ts' cs :
      expr NotComma n ts e → clauses n ts' cs → arguments n (ts ++ ts') [Ast.Arg None (Ast.GenExp e cs) false false]
  | arguments_list n ts args : argument_list n false ts args → check_repeated_keywords [] args = Return tt → arguments n ts args
(** Arguments, after a keyword or not. *)
with argument_list : nat → bool → list Token.Token → list Ast.CallArg → Prop :=
  | argument_last n seen ts arg seen' : argument NotComma n seen ts arg seen' → argument_list n seen ts [arg]
  | argument_trailing n seen ts arg seen' : argument AnyToken n seen ts arg seen' → argument_list n seen (ts ++ [Token.Comma]) [arg]
  | argument_more n seen ts arg seen' ts' args :
      argument AnyToken n seen ts arg seen' → argument_list n seen' ts' args → argument_list n seen (ts ++ Token.Comma :: ts') (arg :: args)
with argument : Following → nat → bool → list Token.Token → Ast.CallArg → bool → Prop :=
  | argument_positional b n ts e : expr b n ts e → argument b n false ts (Ast.Arg None e false false) false
  | argument_splat b n ts e : expr b n ts e → argument b n false (Token.Star :: ts) (Ast.Arg None e true false) false
  | argument_double_splat b n seen ts e : expr b n ts e → argument b n seen (Token.StarStar :: ts) (Ast.Arg None e false true) true
  | argument_keyword b n seen name ts e :
      expr b n ts e → argument b n seen (Token.Ident name :: Token.Assign :: ts) (Ast.Arg (Some name) e false false) true
(** Atoms and displays. *)
with primary : nat → list Token.Token → Ast.Expr → Prop :=
  | primary_int n v : primary n [Token.Int v] (Ast.Int v)
  | primary_bigint n s : primary n [Token.BigInt s] (Ast.BigInt s)
  | primary_float n v : primary n [Token.Float v] (Ast.Float v)
  | primary_imag n v : primary n [Token.Imag v] (Ast.Complex (d_zero false) v)
  | primary_str n v vs : primary n (map Token.Str (v :: vs)) (Ast.Str (concat (v :: vs)))
  | primary_bytes n v vs : primary n (map Token.Bytes (v :: vs)) (Ast.Bytes (concat (v :: vs)))
  | primary_true n : primary n [Token.True] (Ast.Bool true)
  | primary_false n : primary n [Token.False] (Ast.Bool false)
  | primary_none n : primary n [Token.None] Ast.None
  | primary_ellipsis n : primary n [Token.Ellipsis] Ast.Ellipsis
  | primary_var n name span : allowed span → primary n [Token.Ident name] (Ast.Var name span)
  | primary_paren n ts e : expr NotComma n ts e → primary n (Token.LParen :: ts ++ [Token.RParen]) e
  | primary_tuple_empty n : primary n [Token.LParen; Token.RParen] (Ast.Tuple [])
  | primary_tuple n ts e ts' es :
      item AnyToken n ts e → commas true (item AnyToken n) (item NotComma n) ts' es → ts' ≠ [] →
      primary n (Token.LParen :: ts ++ ts' ++ [Token.RParen]) (Ast.Tuple (e :: es))
  | primary_generator n ts e ts' cs :
      expr NotComma n ts e → clauses n ts' cs → primary n (Token.LParen :: ts ++ ts' ++ [Token.RParen]) (Ast.GenExp e cs)
  | primary_list_empty n : primary n [Token.LBracket; Token.RBracket] (Ast.List [])
  | primary_list n ts e ts' es :
      item (before ts') n ts e → commas true (item AnyToken n) (item NotComma n) ts' es →
      primary n (Token.LBracket :: ts ++ ts' ++ [Token.RBracket]) (Ast.List (e :: es))
  | primary_list_comp n ts e ts' cs :
      expr NotComma n ts e → clauses n ts' cs → primary n (Token.LBracket :: ts ++ ts' ++ [Token.RBracket]) (Ast.ListComp e cs)
  | primary_dict_empty n : primary n [Token.LBrace; Token.RBrace] (Ast.Dict [])
  | primary_dict n ts i ts' items :
      dict_item (before ts') n ts i → commas true (dict_item AnyToken n) (dict_item NotComma n) ts' items →
      primary n (Token.LBrace :: ts ++ ts' ++ [Token.RBrace]) (Ast.Dict (i :: items))
  | primary_set n ts e ts' es :
      item (before ts') n ts e → commas true (item AnyToken n) (item NotComma n) ts' es →
      primary n (Token.LBrace :: ts ++ ts' ++ [Token.RBrace]) (Ast.Set_ (e :: es))
  | primary_dict_comp n ts k ts1 v ts' cs :
      expr NotComma n ts k → expr NotComma n ts1 v → clauses n ts' cs →
      primary n (Token.LBrace :: ts ++ Token.Colon :: ts1 ++ ts' ++ [Token.RBrace]) (Ast.DictComp k v cs)
  | primary_set_comp n ts e ts' cs :
      expr NotComma n ts e → clauses n ts' cs → primary n (Token.LBrace :: ts ++ ts' ++ [Token.RBrace]) (Ast.SetComp e cs)
with dict_item : Following → nat → list Token.Token → Ast.DictItem → Prop :=
  | dict_pair b n ts k ts' v : expr NotComma n ts k → expr b n ts' v → dict_item b n (ts ++ Token.Colon :: ts') (Ast.Pair k v)
  | dict_splat b n ts e : or_test n ts e → dict_item b n (Token.StarStar :: ts) (Ast.DoubleSplat e)
(** Comprehensions. *)
with clauses : nat → list Token.Token → list Ast.CompClause → Prop :=
  | clauses_one n ts c : clause n ts c → clauses n ts [c]
  | clauses_more n ts c ts' cs : clause n ts c → clauses n ts' cs → clauses n (ts ++ ts') (c :: cs)
with clause : nat → list Token.Token → Ast.CompClause → Prop :=
  | clause_for n is_async ts t ts1 iter ts2 cond :
      target ts t → or_test n ts1 iter → filters n None ts2 cond →
      clause n (for_tokens is_async ++ ts ++ Token.In :: ts1 ++ ts2) (Ast.Clause t iter cond is_async)
with filters : nat → option Ast.Expr → list Token.Token → option Ast.Expr → Prop :=
  | filters_none n cond : filters n cond [] cond
  | filters_more n cond ts e ts' cond' :
      or_test n ts e → filters n (join_filter cond e) ts' cond' → filters n cond (Token.If :: ts ++ ts') cond'
(** Lambda. *)
with lambda_list : nat → list Token.Token → list Ast.FunctionParam → Prop :=
  | lambda_list_none n : lambda_list n [] []
  | lambda_list_some n ts s : lambda_items n no_params ts s → check_duplicate_params (lp_params s) = Return tt →
      lambda_list n ts (lp_params s)
with lambda_items : nat → LambdaParams → list Token.Token → LambdaParams → Prop :=
  | lambda_last n s ts s' : lambda_item NotComma n s ts s' → lp_bare_star_needs_kwonly s' = false → lambda_items n s ts s'
  | lambda_trailing n s ts s' : lambda_item AnyToken n s ts s' → lp_bare_star_needs_kwonly s' = false → lambda_items n s (ts ++ [Token.Comma]) s'
  | lambda_more n s ts s' ts' s'' :
      lambda_item AnyToken n s ts s' → lambda_items n s' ts' s'' → lambda_items n s (ts ++ Token.Comma :: ts') s''
with lambda_item : Following → nat → LambdaParams → list Token.Token → LambdaParams → Prop :=
  | lambda_item_kwargs b n s name :
      lp_seen_kwargs s = false → lambda_item b n s [Token.StarStar; Token.Ident name] (add_kwargs name s)
  | lambda_item_bare_star b n s :
      lp_seen_kwargs s = false → lp_seen_star s = false → lambda_item b n s [Token.Star] (add_bare_star s)
  | lambda_item_args b n s name :
      lp_seen_kwargs s = false → lp_seen_star s = false → lambda_item b n s [Token.Star; Token.Ident name] (add_args name s)
  | lambda_item_param b n s name :
      lp_seen_kwargs s = false → lp_seen_default s = false ∨ lp_seen_star s = true →
      lambda_item b n s [Token.Ident name] (add_param name None s)
  | lambda_item_default b n s name ts e :
      lp_seen_kwargs s = false → expr b n ts e →
      lambda_item b n s (Token.Ident name :: Token.Assign :: ts) (add_param name (Some e) s).
End grammar.
