(* ===== verification/ParserReads.v ===== *)
(** Which tokens may start an expression and which may not follow one, and what
    it means that a parser reads some tokens as a tree, with its rules. *)

From stdpp Require Import strings.
From S2P Require Import Outcome Prelude Double IntArith Bytecode Chars LexLiterals Lexer Combinatorics Parser Grammar.

#[local] Open Scope nat_scope.

(** ** What may start an expression, and what may not follow one *)

(** Tokens are told apart by their kinds. *)
Definition one_of (ts : list Token.Token) (t : Token.Token) : bool := existsb (λ t', token_is t' (Some t)) ts.

(** The tightest level that starts with the token: 1 for whole expressions, 2
    for [not], 3 for operands of [**] and unary operators, 4 for primaries. *)
Definition opens (t : Token.Token) : nat :=
  if one_of [Token.Yield; Token.Lambda] t then 1
  else if one_of [Token.Not] t then 2
  else if one_of [Token.Minus; Token.Plus; Token.Tilde] t then 3
  else if one_of [Token.Int 0; Token.BigInt []; Token.Float (d_zero false); Token.Imag (d_zero false); Token.Str []; Token.Bytes [];
         Token.FString []; Token.Ident []; Token.True; Token.False; Token.None; Token.Ellipsis; Token.LParen; Token.LBracket; Token.LBrace] t
  then 4
  else 0.

(** The tightest level that the token continues. *)
Definition continues (t : Token.Token) : nat :=
  if one_of [Token.Walrus; Token.If] t then 1
  else if one_of [Token.Or] t then 2
  else if one_of [Token.And] t then 3
  else if one_of [Token.Eq; Token.Ne; Token.Lt; Token.Le; Token.Gt; Token.Ge; Token.In; Token.Not; Token.Is] t then 5
  else if one_of [Token.Pipe] t then 6
  else if one_of [Token.Caret] t then 7
  else if one_of [Token.Ampersand] t then 8
  else if one_of [Token.LShift; Token.RShift] t then 9
  else if one_of [Token.Plus; Token.Minus] t then 10
  else if one_of [Token.Star; Token.At; Token.Slash; Token.SlashSlash; Token.Percent] t then 11
  else if one_of [Token.StarStar] t then 13
  else if one_of [Token.LParen; Token.LBracket; Token.Dot] t then 14
  else if one_of [Token.Str []; Token.Bytes []; Token.FString []] t then 15
  else 0.

Lemma one_of_kind ts t t' : token_kind t = token_kind t' → one_of ts t = one_of ts t'.
Proof. intros Hk. unfold one_of, token_is. by rewrite Hk. Qed.

Lemma token_is_opens token t : token_is token (Some t) = true → opens t = opens token.
Proof. cbn. intros Hk%Nat.eqb_eq. unfold opens. by rewrite !(one_of_kind _ _ _ Hk). Qed.
Lemma token_is_continues token t : token_is token (Some t) = true → continues t = continues token.
Proof. cbn. intros Hk%Nat.eqb_eq. unfold continues. by rewrite !(one_of_kind _ _ _ Hk). Qed.

(** [ts] starts an expression of level [k], and not a keyword argument. *)
Definition opening (k : nat) (ts : list Token.Token) : bool :=
  match ts with
  | [] => false
  | t :: ts' => (k <=? opens t) && negb (one_of [Token.Ident []] t && token_is Token.Assign (head ts'))
  end.

(** No expression of level [k] goes on with [rest]. *)
Definition stops (k : nat) (rest : list Token.Token) : bool :=
  match rest with [] => true | t :: _ => continues t <? k end.

(** What [at_stmt_end] tests. *)
Definition stmt_end (rest : list Token.Token) : bool :=
  match rest with [] => true | t :: _ => one_of [Token.Newline; Token.Semicolon; Token.Dedent; Token.Eof] t end.

(** What [b] says of the tokens after an expression. *)
Definition follows (b : Following) (rest : list Token.Token) : bool :=
  match b with AnyToken => true | NotComma => negb (token_is Token.Comma (head rest)) | StatementEnd => stmt_end rest end.

Lemma follows_comma b rest : b ≠ AnyToken → follows b rest = true → token_is Token.Comma (head rest) = false.
Proof. destruct b; [done|by intros _ ?%negb_true_iff|]. intros _. destruct rest as [|t rest]; [done|]. by destruct t. Qed.

Lemma opening_weaken k k' ts : opening k ts = true → k' ≤ k → opening k' ts = true.
Proof.
  destruct ts as [|t ts]; [done|]. cbn [opening]. intros [Hk Hn]%andb_prop Hle. rewrite Hn. apply Nat.leb_le in Hk. rewrite (proj2 (Nat.leb_le _ _)); [done|lia].
Qed.

Lemma opening_app k ts t ts' : opening k ts = true → token_is Token.Assign (Some t) = false → opening k (ts ++ t :: ts') = true.
Proof. destruct ts as [|u [|u' ts]]; [done| |done]. cbn -[opens one_of]. intros [Hk Hn]%andb_prop ->. by rewrite Hk, andb_false_r. Qed.

Lemma opening_app_r k ts ts' : opening k ts = true → (∀ t, head ts' = Some t → token_is Token.Assign (Some t) = false) → opening k (ts ++ ts') = true.
Proof. destruct ts' as [|t ts']; [by rewrite app_nil_r|]. intros Ho Ht. apply opening_app; [done|by apply Ht]. Qed.

Lemma opening_not k token ts rest : opening k ts = true → opens token < k → token_is token (head (ts ++ rest)) = false.
Proof.
  destruct ts as [|t ts]; [done|]. cbn [opening head app]. intros [Hk _]%andb_prop Ho. apply Nat.leb_le in Hk.
  destruct (token_is token (Some t)) eqn:Ht; [|done]. apply token_is_opens in Ht. lia.
Qed.

Lemma opening_stmt_end k ts rest : opening k ts = true → 1 ≤ k → stmt_end (ts ++ rest) = false.
Proof.
  destruct ts as [|t ts]; [done|]. cbn [opening stmt_end app one_of existsb]. intros [Hk _]%andb_prop Ho. apply Nat.leb_le in Hk.
  repeat match goal with |- context [token_is ?u (Some t)] =>
    let H := fresh in destruct (token_is u (Some t)) eqn:H; [apply token_is_opens in H; cbn in H; lia|] end. done.
Qed.

Lemma opening_nil k ts : opening k ts = true → ts ≠ [].
Proof. by destruct ts. Qed.

Lemma stops_weaken k k' rest : stops k rest = true → k ≤ k' → stops k' rest = true.
Proof. destruct rest as [|t rest]; [done|]. cbn [stops]. rewrite !Nat.ltb_lt. lia. Qed.

Lemma stops_not k token rest : stops k rest = true → k ≤ continues token → token_is token (head rest) = false.
Proof.
  destruct rest as [|t rest]; [done|]. cbn [stops head]. rewrite Nat.ltb_lt. intros Hk Ho.
  destruct (token_is token (Some t)) eqn:Ht; [|done]. apply token_is_continues in Ht. lia.
Qed.

(** *** The first tokens of the sentences of the grammar *)

Section opening.
  Context (spans : bool).

Ltac opens_go := try done; try (apply opening_app; done).

Lemma primary_opening n ts e : primary spans n ts e → opening 4 ts = true.
Proof. destruct 1; try done; try (by destruct vs). Qed.

Lemma postfix_opening n ts e : postfix spans n ts e → opening 4 ts = true.
Proof. induction 1; opens_go. by eapply primary_opening. Qed.

Lemma unary_opening n ts e : unary spans n ts e → opening 3 ts = true.
Proof.
  induction 1 as [n t op ts e span Ht _ IH _|n ts e _ IH|n ts e Hp _|n ts e ts' e' span Hp _ _ _ _].
  - destruct t; try done.
  - cbn. destruct ts as [|t ts]; [done|]. cbn. destruct (token_kind t =? 48) eqn:Ht; [|done].
    pose proof (opening_not 3 Token.Assign (t :: ts) [] IH ltac:(cbn; lia)) as Hn. cbn in Hn. by rewrite Hn in Ht.
  - eapply opening_weaken; [by eapply postfix_opening|lia].
  - apply opening_app; [|done]. eapply opening_weaken; [by eapply postfix_opening|lia].
Qed.

Lemma binary_opening n k ts e : binary spans n k ts e → opening 3 ts = true.
Proof.
  induction 1 as [n ts e Hu|n k ts e _ IH|n k ts e t op ts' e' span _ IH Hop _ _ _]; [by eapply unary_opening|done|].
  apply opening_app; [done|]. destruct t; try done; destruct k as [|[|[|[|[|k]]]]]; done.
Qed.

Lemma comparisons_head n ts ops : comparisons spans n ts ops → ts = [] ∨ ∃ op ts', ts = comparison_tokens op ++ ts'.
Proof. destruct 1; [by left|]. right. eauto. Qed.

Lemma not_opening n ts e : not_test spans n ts e → opening 2 ts = true.
Proof.
  induction 1 as [n ts e ts' ops Hb Hc|n ts e span _ IH _]; [|done]. apply opening_app_r.
  - eapply opening_weaken; [by eapply binary_opening|lia].
  - intros t Ht. apply comparisons_head in Hc as [->|(op & ts2 & ->)]; [done|]. by destruct op; injection Ht as <-.
Qed.

Lemma and_opening n ts e : and_test spans n ts e → opening 2 ts = true.
Proof. induction 1; opens_go. by eapply not_opening. Qed.
Lemma or_opening n ts e : or_test spans n ts e → opening 2 ts = true.
Proof. induction 1; opens_go. by eapply and_opening. Qed.

Lemma inner_opening b n ts e : inner spans b n ts e → opening 1 ts = true.
Proof.
  destruct 1; try done; try apply opening_app; try done; (eapply opening_weaken; [by eapply or_opening|lia]).
Qed.
Lemma expr_opening b n ts e : expr spans b n ts e → opening 1 ts = true.
Proof. destruct 1. by eapply inner_opening. Qed.

(** *** Only items are starred *)

Lemma primary_not_starred n ts e :
  (∀ b ts e, expr spans b n ts e → is_starred e = false) → primary spans n ts e → is_starred e = false.
Proof. intros Hn Hp. destruct Hp; try done. by eapply Hn. Qed.

Lemma postfix_not_starred n ts e :
  (∀ b ts e, expr spans b n ts e → is_starred e = false) → postfix spans n ts e → is_starred e = false.
Proof. intros Hn Hp. destruct Hp; try done. by eapply primary_not_starred. Qed.

Lemma unary_not_starred n ts e :
  (∀ b ts e, expr spans b n ts e → is_starred e = false) → unary spans n ts e → is_starred e = false.
Proof. intros Hn Hp. destruct Hp; try done. by eapply postfix_not_starred. Qed.

Lemma binary_not_starred n k ts e :
  (∀ b ts e, expr spans b n ts e → is_starred e = false) → binary spans n k ts e → is_starred e = false.
Proof. intros Hn Hp. induction Hp; try done; eauto using unary_not_starred. Qed.

Lemma not_not_starred n ts e :
  (∀ b ts e, expr spans b n ts e → is_starred e = false) → not_test spans n ts e → is_starred e = false.
Proof.
  intros Hn Hp. destruct Hp as [n ts e ts' ops Hb Hc|]; [|done]. apply binary_not_starred in Hb; [|done].
  by destruct ops as [|[op rhs] [|[op' rhs'] ops]].
Qed.

Lemma or_not_starred n ts e :
  (∀ b ts e, expr spans b n ts e → is_starred e = false) → or_test spans n ts e → is_starred e = false.
Proof.
  intros Hn Hp. destruct Hp as [n ts e Hp|]; [|done]. destruct Hp as [n ts e Hp|]; [|done]. by eapply not_not_starred.
Qed.

Lemma expr_not_starred b n ts e : expr spans b n ts e → is_starred e = false.
Proof.
  revert b ts e. induction n as [|n IH]; intros b ts e He; inversion He as [b' n' ts' e' Hi]; subst.
  inversion Hi; subst; try done. by eapply or_not_starred.
Qed.

Lemma target_item_opens ts i : target_item ts i → ∃ t ts', ts = t :: ts' ∧ one_of [Token.Star; Token.Ident []; Token.LParen] t = true.
Proof. destruct 1; eauto. Qed.
End opening.

(** ** Reading tokens *)

(** The parser after the tokens [pre], at depth [d], without columns. *)
Definition place (lines : list Z) (d : nat) (pre rest : list Token.Token) : Parser :=
  {| ps_tokens := pre ++ rest; ps_pos := length pre; ps_line_nos := lines; ps_cols := []; ps_cols_end := []; ps_expr_depth := d |}.

Section reads.
  Context (lines : list Z).
  Local Abbreviation place := (place lines).

(** [m] reads the tokens [ts] as [a] where [rest] follows. *)
Definition reads {A} (d : nat) (m : parser A) (ts : list Token.Token) (a : A) (rest : list Token.Token) : Prop :=
  ∀ pre, m (place d pre (ts ++ rest)) = (Return a, place d (pre ++ ts) rest).

Lemma reads_bind {A B} d (m : parser A) (f : A → parser B) ts1 a ts2 b rest :
  reads d m ts1 a (ts2 ++ rest) → reads d (f a) ts2 b rest → reads d (m ≫= f) (ts1 ++ ts2) b rest.
Proof.
  intros Hm Hf pre. unfold mbind, prog_bind. rewrite <- app_assoc, Hm, Hf. by rewrite <- app_assoc.
Qed.

Lemma reads_bind_last {A B} d (m : parser A) (f : A → parser B) ts a b rest :
  reads d m ts a rest → reads d (f a) [] b rest → reads d (m ≫= f) ts b rest.
Proof. intros Hm Hf. rewrite <- (app_nil_r ts). by apply (reads_bind _ _ _ _ a). Qed.

Lemma reads_ret {A} d (a : A) rest : reads d (mret a) [] a rest.
Proof. intros pre. by rewrite app_nil_r. Qed.

Lemma reads_eq {A} d (m : parser A) ts a a' rest : reads d m ts a rest → a = a' → reads d m ts a' rest.
Proof. by intros ? <-. Qed.

(** A read of the state. *)
Lemma reads_state {A B} d (m : parser A) (f : A → parser B) ts a b rest :
  (∀ pre, m (place d pre (ts ++ rest)) = (Return a, place d pre (ts ++ rest))) → reads d (f a) ts b rest → reads d (m ≫= f) ts b rest.
Proof. intros Hm Hf pre. unfold mbind, prog_bind. by rewrite Hm, Hf. Qed.

Lemma lookup_place (pre ts : list Token.Token) k : (pre ++ ts) !! (length pre + k) = ts !! k.
Proof. rewrite lookup_app_r by lia. f_equal. lia. Qed.

Lemma reads_current {A} d (f : option Token.Token → parser A) ts b rest :
  reads d (f (head (ts ++ rest))) ts b rest → reads d (current ≫= f) ts b rest.
Proof.
  apply reads_state. intros pre. unfold current. cbn [ps_tokens ps_pos place ParserReads.place].
  rewrite <- (Nat.add_0_r (length pre)), lookup_place. by destruct (ts ++ rest).
Qed.

Lemma reads_peek {A} d (f : option Token.Token → parser A) ts b rest :
  reads d (f (head (tail (ts ++ rest)))) ts b rest → reads d (peek ≫= f) ts b rest.
Proof.
  apply reads_state. intros pre. unfold peek. cbn [ps_tokens ps_pos place ParserReads.place]. rewrite lookup_place.
  by destruct (ts ++ rest) as [|? [|? ?]].
Qed.

Lemma reads_is_at {A} d token (f : bool → parser A) ts b rest :
  reads d (f (token_is token (head (ts ++ rest)))) ts b rest → reads d (is_at token ≫= f) ts b rest.
Proof. intros Hf. by apply (reads_current d (λ t, f (token_is token t))). Qed.

Lemma reads_bump {A} d (f : unit → parser A) t ts b rest : reads d (f tt) ts b rest → reads d (bump ≫= f) (t :: ts) b rest.
Proof.
  intros Hf pre. change ((t :: ts) ++ rest) with ([t] ++ (ts ++ rest)). unfold mbind, prog_bind.
  assert (bump (place d pre ([t] ++ ts ++ rest)) = (Return tt, place d (pre ++ [t]) (ts ++ rest))) as ->.
  { cbn. unfold place, ParserReads.place, with_pos. cbn. f_equal. rewrite length_app, <- app_assoc. done. }
  rewrite Hf. by rewrite <- app_assoc.
Qed.

Lemma reads_bump_last d t rest : reads d bump [t] tt rest.
Proof. intros pre. cbn. unfold place, ParserReads.place, with_pos. cbn. f_equal. rewrite length_app, <- app_assoc. done. Qed.

Lemma reads_tokens {A} d (m : parser A) ts ts' a rest : reads d m ts a rest → ts = ts' → reads d m ts' a rest.
Proof. by intros ? <-. Qed.

(** Positions: without columns there are no spans. *)
Lemma reads_lineno {A} d (f : Z → parser A) ts b rest : (∀ n, reads d (f n) ts b rest) → reads d (current_lineno ≫= f) ts b rest.
Proof. intros Hf pre. unfold mbind, prog_bind, current_lineno. apply Hf. Qed.

Lemma reads_col {A} d (f : option Z → parser A) ts b rest : reads d (f None) ts b rest → reads d (current_col ≫= f) ts b rest.
Proof. by apply reads_state. Qed.
Lemma reads_end_col {A} d (f : option Z → parser A) ts b rest : reads d (f None) ts b rest → reads d (end_col_at_pos ≫= f) ts b rest.
Proof. by apply reads_state. Qed.
Lemma reads_prev_end_col {A} d (f : option Z → parser A) ts b rest : reads d (f None) ts b rest → reads d (prev_end_col ≫= f) ts b rest.
Proof. apply reads_state. intros pre. unfold prev_end_col. cbn. by destruct (length pre). Qed.
Lemma reads_binary_span {A} d line op_col op_end (f : option CaretSpan → parser A) ts b rest :
  reads d (f None) ts b rest → reads d (make_binary_span None line op_col op_end ≫= f) ts b rest.
Proof. apply reads_state. intros pre. unfold make_binary_span, mbind, prog_bind, prev_end_col, prev_lineno. cbn. by destruct (length pre). Qed.
Lemma reads_unary_span {A} d (f : option CaretSpan → parser A) ts b rest :
  reads d (f None) ts b rest → reads d (make_unary_span None ≫= f) ts b rest.
Proof. apply reads_state. intros pre. unfold make_unary_span, mbind, prog_bind, prev_end_col. cbn. by destruct (length pre). Qed.

Lemma reads_at_stmt_end {A} d (f : bool → parser A) ts b rest :
  reads d (f (stmt_end (ts ++ rest))) ts b rest → reads d (at_stmt_end ≫= f) ts b rest.
Proof.
  apply reads_state. intros pre. unfold at_stmt_end, mbind, prog_bind, current. cbn [ps_tokens ps_pos place ParserReads.place].
  rewrite <- (Nat.add_0_r (length pre)), lookup_place. destruct (ts ++ rest) as [|t l]; [done|]. by destruct t.
Qed.

Definition for_follows (ts : list Token.Token) : bool :=
  token_is Token.For (head ts) || (ident_is "async" (head ts) && token_is Token.For (head (tail ts))).

Lemma reads_at_for {A} d (f : bool → parser A) ts b rest : reads d (f (for_follows (ts ++ rest))) ts b rest → reads d (at_for ≫= f) ts b rest.
Proof.
  intros Hf. change (at_for ≫= f) with (is_at Token.For ≫= λ b, current ≫= λ t, peek ≫= λ t', f (b || ident_is "async" t && token_is Token.For t')).
  apply reads_is_at, reads_current, reads_peek, Hf.
Qed.
Lemma reads_is_async_for {A} d (f : bool → parser A) ts b rest :
  reads d (f (ident_is "async" (head (ts ++ rest)) && token_is Token.For (head (tail (ts ++ rest))))) ts b rest →
  reads d (is_async_for ≫= f) ts b rest.
Proof.
  intros Hf. change (is_async_for ≫= f) with (current ≫= λ t, peek ≫= λ t', f (ident_is "async" t && token_is Token.For t')).
  apply reads_current, reads_peek, Hf.
Qed.

Section tokens.
  Context `{TokenDebug}.

Lemma reads_expect {A} d token (f : unit → parser A) t ts b rest :
  token_is token (Some t) = true → reads d (f tt) ts b rest → reads d (expect token ≫= f) (t :: ts) b rest.
Proof.
  intros Ht Hf. change (t :: ts) with ([t] ++ ts). apply (reads_bind _ _ _ _ tt); [|done]. unfold expect.
  apply reads_is_at. cbn [app head]. rewrite Ht. apply reads_bump_last.
Qed.

Lemma reads_expect_ident {A} d ctx name (f : list Z → parser A) ts b rest :
  reads d (f name) ts b rest → reads d (expect_ident ctx ≫= f) (Token.Ident name :: ts) b rest.
Proof.
  intros Hf. change (Token.Ident name :: ts) with ([Token.Ident name] ++ ts). apply (reads_bind _ _ _ _ name); [|done].
  unfold expect_ident. apply reads_current. cbn [app head]. apply reads_bump, reads_ret.
Qed.
End tokens.

(** Loops. *)
Lemma reads_more {A} d fuel (body : A → parser (A * bool)) acc acc' ts1 ts2 a rest :
  reads d (body acc) ts1 (acc', true) (ts2 ++ rest) → reads d (repeat_while fuel body acc') ts2 a rest →
  reads d (repeat_while (S fuel) body acc) (ts1 ++ ts2) a rest.
Proof. intros Hb Hl. cbn [repeat_while]. by apply (reads_bind _ _ _ _ (acc', true)). Qed.

Lemma reads_stop {A} d fuel (body : A → parser (A * bool)) acc ts a rest :
  0 < fuel → reads d (body acc) ts (a, false) rest → reads d (repeat_while fuel body acc) ts a rest.
Proof. intros Hf Hb. destruct fuel; [lia|]. cbn [repeat_while]. apply (reads_bind_last _ _ _ _ (a, false)); [done|apply reads_ret]. Qed.

(** The loop reads [ts1], in [k] rounds that take [e0] to [e], before what it
    reads from [e], if [C] holds of that. *)
Definition unrolls {A} d (body : A → parser (A * bool)) (C : list Token.Token → Prop) (k : nat) (e0 : A) (ts1 : list Token.Token) (e : A) :
    Prop :=
  ∀ fuel ts2 a rest, C (ts2 ++ rest) → reads d (repeat_while fuel body e) ts2 a rest →
  reads d (repeat_while (k + fuel) body e0) (ts1 ++ ts2) a rest.

Lemma unrolls_nil {A} d (body : A → parser (A * bool)) C e : unrolls d body C 0 e [] e.
Proof. intros fuel ts2 a rest _ Hr. exact Hr. Qed.

Lemma unrolls_snoc {A} d (body : A → parser (A * bool)) (C : list Token.Token → Prop) k e0 ts1 e ts e' :
  unrolls d body C k e0 ts1 e → (∀ x, C x → reads d (body e) ts (e', true) x) → (∀ x, C (ts ++ x)) →
  unrolls d body C (S k) e0 (ts1 ++ ts) e'.
Proof.
  intros Hu Hb HC fuel ts2 a rest Hc Hr. rewrite <- app_assoc. replace (S k + fuel) with (k + S fuel) by lia. apply Hu.
  - rewrite <- app_assoc. apply HC.
  - eapply reads_more; [by apply Hb|done].
Qed.
End reads.
