(* ===== verification/ParserComplete.v ===== *)
(** The parser reads every sentence of the grammar as its tree. *)

From stdpp Require Import strings.
From S2P Require Import Outcome Prelude Double IntArith Bytecode Chars LexLiterals Lexer Combinatorics Parser Grammar ParserReads.

#[local] Open Scope nat_scope.

(** The next step of a parser whose next tokens are known. *)
Ltac known_tokens := cbn [app head tail token_is token_kind Nat.eqb negb andb orb fst snd map].
Ltac read_step :=
  lazymatch goal with
  | |- reads _ _ (mret _) [] _ _ => apply reads_ret
  | |- reads _ _ (is_at _ ≫= _) _ _ _ => apply reads_is_at
  | |- reads _ _ (current ≫= _) _ _ _ => apply reads_current
  | |- reads _ _ (peek ≫= _) _ _ _ => apply reads_peek
  | |- reads _ _ (bump ≫= _) (_ :: _) _ _ => apply reads_bump
  | |- reads _ _ (expect _ ≫= _) (_ :: _) _ _ => apply reads_expect; [done|]
  | |- reads _ _ (expect_ident _ ≫= _) (Token.Ident _ :: _) _ _ => apply reads_expect_ident
  | |- reads _ _ (at_for ≫= _) _ _ _ => apply reads_at_for
  | |- reads _ _ (is_async_for ≫= _) _ _ _ => apply reads_is_async_for
  | |- reads _ _ (at_stmt_end ≫= _) _ _ _ => apply reads_at_stmt_end
  | |- reads _ _ (current_col ≫= _) _ _ _ => apply reads_col
  | |- reads _ _ (end_col_at_pos ≫= _) _ _ _ => apply reads_end_col
  | |- reads _ _ (prev_end_col ≫= _) _ _ _ => apply reads_prev_end_col
  | |- reads _ _ (current_lineno ≫= _) _ _ _ => apply reads_lineno; intros ?
  | |- reads _ _ (make_binary_span None _ _ _ ≫= _) _ _ _ => apply reads_binary_span
  | |- reads _ _ (make_unary_span None ≫= _) _ _ _ => apply reads_unary_span
  end.
(** A function of the grammar that reads the next tokens. *)
Ltac reads_by H := first [eapply reads_bind; [solve [H]|]|eapply reads_bind_last; [solve [H]|]].
Ltac read_go := repeat (read_step; known_tokens).

(** [rest] stops the level of a function where it stops a looser one. *)
Ltac stop := solve [done|eapply stops_weaken; [eassumption|lia]].

Section complete.
  Context `{TokenDebug} (lines : list Z) (r : Parsers) (F d n : nat).
  Local Abbreviation reads m := (reads lines d m).
  Context (Hfuel : F < p_fuel r).
  Context (Hexpr : ∀ b ts e rest, expr false b n ts e → length ts < F → stops 1 rest = true → follows b rest = true →
    reads (p_expr r) ts e rest).
  Context (Hor : ∀ ts e rest, or_test false n ts e → length ts < F → stops 2 rest = true → reads (p_or r) ts e rest).
  Context (Hnot : ∀ ts e rest, not_test false n ts e → length ts < F → stops 5 rest = true → reads (p_not r) ts e rest).
  Context (Hunary : ∀ ts e rest, unary false n ts e → length ts < F → stops 12 rest = true → reads (p_unary r) ts e rest).
  Context (Htarget : ∀ ts t rest, target ts t → length ts < F → token_is Token.RParen (head rest) = true → reads (p_for_target r) ts t rest).

(** *** Lists *)

Lemma reads_commas {A} (closes : parser bool) (c : list Token.Token → bool) trailing (item : parser A) P Pl acc ts l rest :
  (∀ B (f : bool → parser B) ts b rest, reads (f (c (ts ++ rest))) ts b rest → reads (closes ≫= f) ts b rest) →
  (∀ ts a x, P ts a ∨ Pl ts a → c (ts ++ x) = false) →
  (∀ ts a x, P ts a → length ts < F → reads item ts a (Token.Comma :: x)) →
  (∀ ts a, Pl ts a → length ts < F → reads item ts a rest) →
  commas trailing P Pl ts l → length ts ≤ F → token_is Token.Comma (head rest) = false → (trailing = true → c rest = true) →
  reads (comma_items r closes item acc) ts (acc ++ l) rest.
Proof using All.
  intros Hcl Hc HP HPl Hts Hlen Hrest Htr. unfold comma_items.
  assert (Hf : length ts < p_fuel r) by lia. revert Hf. generalize (p_fuel r). intros fuel Hf.
  revert acc fuel Hf. induction Hts as [|Ht|ts a Ha|ts a ts' l Ha Hts IH Hne]; intros acc fuel Hf; cbn [length] in *; rewrite ?length_app in *.
  - apply reads_stop; [lia|]. apply reads_is_at. cbn [app]. rewrite Hrest. cbn [negb]. rewrite app_nil_r. apply reads_ret.
  - apply reads_stop; [lia|]. read_go. apply Hcl. cbn [app]. rewrite Htr by done. rewrite app_nil_r. apply reads_ret.
  - destruct fuel as [|fuel]; [lia|]. rewrite <- (app_nil_r (Token.Comma :: ts)). eapply reads_more.
    + read_go. apply Hcl. rewrite (Hc _ a) by auto. reads_by ltac:(apply HPl; [done|lia]). apply reads_ret.
    + apply reads_stop; [lia|]. apply reads_is_at. cbn [app]. rewrite Hrest. cbn [negb]. apply reads_ret.
  - destruct fuel as [|fuel]; [lia|]. change (Token.Comma :: ts ++ ts') with ((Token.Comma :: ts) ++ ts').
    assert (Hcomma : ∃ x, ts' ++ rest = Token.Comma :: x) by (destruct Hts; eauto; done). destruct Hcomma as [x Hx]. eapply reads_more.
    + read_go. apply Hcl. rewrite (Hc _ a) by auto. rewrite Hx. reads_by ltac:(apply HP; [done|lia]). apply reads_ret.
    + replace (acc ++ a :: l) with ((acc ++ [a]) ++ l) by (by rewrite <- app_assoc). apply IH; lia.
Qed.

Lemma item_not b ts e token x :
  item false b n ts e → opens token = 0 → token_is token (Some Token.Star) = false → token_is token (head (ts ++ x)) = false.
Proof using All.
  intros Hi Ho Hs. inversion Hi as [b' n' ts' e' He|b' n' ts' e' He]; subst; [|done].
  apply (opening_not 1); [by eapply expr_opening|rewrite Ho; lia].
Qed.

Lemma item_stmt_end b ts e x : item false b n ts e → stmt_end (ts ++ x) = false.
Proof using All.
  intros Hi. inversion Hi as [b' n' ts' e' He|b' n' ts' e' He]; subst; [|done]. apply (opening_stmt_end 1); [by eapply expr_opening|lia].
Qed.

Lemma reads_seq_item b ts e rest :
  item false b n ts e → length ts < F → stops 1 rest = true → follows b rest = true → reads (parse_seq_item r) ts e rest.
Proof using All.
  intros Hi Hlen Hs Hb. unfold parse_seq_item. inversion Hi as [b' n' ts' e' He|b' n' ts' e' He]; subst.
  - read_step. rewrite (opening_not 1) by (first [by eapply expr_opening|cbn; lia]). by apply (Hexpr b).
  - read_go. cbn [length] in Hlen. reads_by ltac:(apply Hor; [done|lia|stop]). apply reads_ret.
Qed.

(** The items up to a bracket. *)
Lemma reads_items close acc ts l rest :
  opens close = 0 → token_is close (Some Token.Star) = false → token_is Token.Comma (Some close) = false → continues close = 0 →
  token_is close (Some close) = true →
  commas true (item false AnyToken n) (item false NotComma n) ts l → length ts ≤ F →
  reads (comma_items r (is_at close) (parse_seq_item r) acc) ts (acc ++ l) (close :: rest).
Proof using All.
  intros Ho Hstar Hcomma Hcont Hself Hts Hlen.
  apply (reads_commas _ (λ x, token_is close (head x)) true _ (item false AnyToken n) (item false NotComma n)); try done.
  - intros B f ts' b' rest'. apply reads_is_at.
  - intros ts' a x [Hi|Hi]; by eapply item_not.
  - intros ts' a x Hi Hl. by apply (reads_seq_item AnyToken).
  - intros ts' a Hi Hl. apply (reads_seq_item NotComma); try done; [cbn [stops]; by rewrite Hcont|].
    unfold follows. cbn [head]. by rewrite Hcomma.
Qed.

Lemma commas_cons {A} trailing (P Pl : list Token.Token → A → Prop) ts l : commas trailing P Pl ts l → ts ≠ [] → ∃ ts', ts = Token.Comma :: ts'.
Proof using All. intros Hc Hne. destruct Hc; eauto; done. Qed.

Lemma reads_expr_or_tuple b ts e rest :
  expr_or_tuple false b n ts e → length ts < F → stops 1 rest = true → follows b rest = true →
  token_is Token.Comma (head rest) = false → reads (parse_expr_or_tuple r) ts e rest.
Proof using All.
  intros He Hlen Hs Hb Hcomma. unfold parse_expr_or_tuple. inversion He as [b' n' ts' e' Hi|b' n' ts1 e1 ts' es Hi Hc Hne]; subst.
  - reads_by ltac:(by apply (reads_seq_item b)). read_step. cbn [app]. rewrite Hcomma. apply reads_ret.
  - destruct (commas_cons _ _ _ _ _ Hc Hne) as [ts2 ->]. rewrite length_app in Hlen.
    reads_by ltac:(apply (reads_seq_item AnyToken); [done|lia|done|done]). read_go.
    apply (reads_bind_last lines d _ _ _ ([e1] ++ es)); [|apply reads_ret].
    apply (reads_commas at_stmt_end stmt_end (at_statement_end b) _ (item false AnyToken n) (item false b n)); try done; try lia.
    + intros B f ts' b' rest'. apply reads_at_stmt_end.
    + intros ts' a x [Hi'|Hi']; by eapply item_stmt_end.
    + intros ts' a x Hi' Hl. by apply (reads_seq_item AnyToken).
    + intros ts' a Hi' Hl. by apply (reads_seq_item b).
    + intros Hend. by destruct b.
Qed.

(** *** Targets and comprehensions *)

Lemma target_item_not ts i token x : target_item ts i → one_of [Token.Star; Token.Ident []; Token.LParen] token = false →
  token_is token (head (ts ++ x)) = false.
Proof using All.
  intros Hi Ht. destruct (target_item_opens _ _ Hi) as (t & ts' & -> & Ho). cbn [head app].
  destruct (token_is token (Some t)) eqn:Hk; [|done]. apply Nat.eqb_eq in Hk. rewrite (one_of_kind _ _ _ Hk) in Ho. congruence.
Qed.

Lemma target_not ts t token x : target ts t → one_of [Token.Star; Token.Ident []; Token.LParen] token = false →
  token_is token (head (ts ++ x)) = false.
Proof using All. intros Ht Hk. destruct Ht; [|rewrite <- app_assoc]; by eapply target_item_not. Qed.

Lemma reads_target_item ts i rest : target_item ts i → length ts ≤ F → reads (parse_for_target_item r) ts i rest.
Proof using All.
  intros Hi Hlen. unfold parse_for_target_item. destruct Hi as [name|name| |ts t Ht]; read_go.
  rewrite <- app_assoc, (target_not _ _ _ _ Ht) by done. cbn [length] in Hlen. rewrite length_app in Hlen.
  reads_by ltac:(apply Htarget; [done|cbn in Hlen; lia|done]). read_go.
Qed.

(** What follows a target. *)
Definition target_end (rest : list Token.Token) : bool := token_is Token.In (head rest) || token_is Token.RParen (head rest).

Lemma target_end_comma rest : target_end rest = true → token_is Token.Comma (head rest) = false.
Proof using All. destruct rest as [|t rest]; [done|]. by destruct t. Qed.

Definition stars (items : list (Ast.AssignTarget * bool)) : nat := length (filter (λ i, i.2 = true) items).

Lemma stars_cons i items : stars (i :: items) = (if i.2 then 1 else 0) + stars items.
Proof using All. unfold stars. rewrite filter_cons. destruct i as [t []]; cbn; by case_decide. Qed.

Lemma reads_target_items acc k ts items rest :
  commas true target_item target_item ts items → length ts ≤ F → target_end rest = true → k + stars items ≤ 1 →
  reads (for_target_items r (acc, k)) ts (acc ++ map starred_target items, k + stars items) rest.
Proof using All.
  intros Hts Hlen Hrest. unfold for_target_items. assert (Hf : length ts < p_fuel r) by lia. revert Hf. generalize (p_fuel r). intros fuel Hf.
  assert (Hbody : ∀ acc k ts i x, target_item ts i → length ts < F → k + (if i.2 then 1 else 0) ≤ 1 → reads
    (at_in ← is_at Token.In; at_paren ← is_at Token.RParen;
     if (at_in || at_paren : bool) then mret ((acc, k), false)
     else
       item ← parse_for_target_item r;
       if (item.2 : bool) then
         if (1 <? k + 1)%nat then parse_err "multiple starred expressions in assignment"
         else mret ((acc ++ [starred_target item], (k + 1)%nat), true)
       else mret ((acc ++ [starred_target item], k), true)) ts ((acc ++ [starred_target i], k + (if i.2 then 1 else 0)), true) x).
  { clear acc k ts items Hts Hlen Hf. intros acc k ts i x Hi Hl Hk. do 2 (read_step; rewrite (target_item_not _ _ _ _ Hi) by done). cbn [orb].
    reads_by ltac:(apply reads_target_item; [done|lia]). destruct (i.2) eqn:Hs; [|rewrite Nat.add_0_r; apply reads_ret].
    replace k with 0 by lia. apply reads_ret. }
  revert acc k fuel Hf. induction Hts as [|_|ts i Hi|ts i ts' items Hi Hts IH Hne]; intros acc k fuel Hf Hk; cbn [length] in *;
    rewrite ?length_app in *; rewrite ?stars_cons in *; change (stars []) with 0 in *; cbn [map]; rewrite ?Nat.add_0_r in *.
  - apply reads_stop; [lia|]. apply reads_is_at. cbn [app]. rewrite (target_end_comma _ Hrest). cbn [negb]. rewrite app_nil_r. apply reads_ret.
  - apply reads_stop; [lia|]. read_go. unfold target_end in Hrest. rewrite Hrest, app_nil_r. apply reads_ret.
  - destruct fuel as [|fuel]; [lia|]. rewrite <- (app_nil_r (Token.Comma :: ts)). eapply reads_more.
    + do 2 (read_step; known_tokens). apply Hbody; [done|lia|done].
    + apply reads_stop; [lia|]. apply reads_is_at. cbn [app]. rewrite (target_end_comma _ Hrest). apply reads_ret.
  - destruct fuel as [|fuel]; [lia|]. change (Token.Comma :: ts ++ ts') with ((Token.Comma :: ts) ++ ts'). eapply reads_more.
    + do 2 (read_step; known_tokens). apply Hbody; [done|lia|lia].
    + rewrite Nat.add_assoc. replace (acc ++ starred_target i :: map starred_target items)
        with ((acc ++ [starred_target i]) ++ map starred_target items) by (by rewrite <- app_assoc).
      apply IH; lia.
Qed.

Lemma reads_for_target ts t rest : target ts t → length ts ≤ F → target_end rest = true → reads (parse_for_target r) ts t rest.
Proof using All.
  intros Ht Hlen Hrest. unfold parse_for_target. destruct Ht as [ts t Hi|ts i ts' items Hi Hts Hne Hstars].
  - reads_by ltac:(by apply reads_target_item). read_step. cbn [app]. rewrite (target_end_comma _ Hrest). apply reads_ret.
  - rewrite length_app in Hlen. reads_by ltac:(apply reads_target_item; [done|lia]). read_step.
    destruct (commas_cons _ _ _ _ _ Hts Hne) as [ts2 ->]. known_tokens. fold (stars (i :: items)) in Hstars. rewrite stars_cons in Hstars.
    reads_by ltac:(apply reads_target_items; [done|lia|done|done]). apply reads_ret.
Qed.

Lemma filters_stops k cond ts cond' rest : filters false n cond ts cond' → stops 1 rest = true → 2 ≤ k → stops k (ts ++ rest) = true.
Proof using All. intros Hf Hs Hk. destruct Hf; [eapply stops_weaken; [exact Hs|lia]|]. by apply Nat.ltb_lt. Qed.

Lemma reads_filters cond ts cond' rest :
  filters false n cond ts cond' → length ts ≤ F → stops 1 rest = true → reads (comp_filters r cond) ts cond' rest.
Proof using All.
  intros Hts Hlen Hs. unfold comp_filters. assert (Hf : length ts < p_fuel r) by lia. revert Hf. generalize (p_fuel r). intros fuel Hf.
  remember n as n' eqn:Hn in Hts. revert fuel Hf.
  induction Hts as [n' cond|n' cond ts e ts' cond' He Hts IH]; intros fuel Hf; subst; cbn [length] in *; rewrite ?length_app in *.
  - apply reads_stop; [lia|]. read_step. cbn [app]. rewrite (stops_not 1) by (first [done|cbn; lia]). apply reads_ret.
  - destruct fuel as [|fuel]; [lia|]. change (Token.If :: ts ++ ts') with ((Token.If :: ts) ++ ts'). eapply reads_more.
    + read_go. reads_by ltac:(apply Hor; [done|lia|eapply filters_stops; [done|done|lia]]). apply reads_ret.
    + apply IH; [done|lia|lia].
Qed.

Lemma clause_for ts c x : clause false n ts c → for_follows (ts ++ x) = true.
Proof using All. intros Hc. destruct Hc as [n' is_async]. by destruct is_async. Qed.

Lemma clauses_for ts cs x : clauses false n ts cs → for_follows (ts ++ x) = true.
Proof using All. intros Hc. inversion Hc; subst; [|rewrite <- app_assoc]; by eapply clause_for. Qed.

Lemma clauses_stop k ts cs x : clauses false n ts cs → 1 ≤ k → stops k (ts ++ x) = true.
Proof using All.
  intros Hcs Hk. assert (Hfor := clauses_for ts cs x Hcs). unfold for_follows in Hfor. destruct (ts ++ x) as [|t l]; [done|].
  cbn [head stops] in *. apply Nat.ltb_lt. apply orb_prop in Hfor as [Hf|[Ha _]%andb_prop].
  - apply token_is_continues in Hf. rewrite Hf. cbn. lia.
  - destruct t; try done; cbn; lia.
Qed.

Lemma clauses_not_colon ts cs x : clauses false n ts cs → token_is Token.Colon (head (ts ++ x)) = false.
Proof using All.
  intros Hcs. assert (Hfor := clauses_for ts cs x Hcs). unfold for_follows in Hfor. destruct (ts ++ x) as [|t l]; [done|].
  by destruct t.
Qed.

Lemma clauses_not_assign ts cs x : clauses false n ts cs → token_is Token.Assign (head (ts ++ x)) = false.
Proof using All.
  intros Hcs. assert (Hfor := clauses_for ts cs x Hcs). unfold for_follows in Hfor. destruct (ts ++ x) as [|t l]; [done|].
  by destruct t.
Qed.

Lemma reads_clauses ts cs rest :
  clauses false n ts cs → length ts ≤ F → stops 1 rest = true → for_follows rest = false → reads (parse_comp_clauses r) ts cs rest.
Proof using All.
  intros Hts Hlen Hs Hfor. unfold parse_comp_clauses. assert (Hf : length ts < p_fuel r) by lia. revert Hf. generalize (p_fuel r). intros fuel Hf.
  match goal with |- reads (repeat_while _ ?body _) _ _ _ => set (loop := body) end.
  assert (Hbody : ∀ acc ts c x, clause false n ts c → length ts ≤ F → stops 1 x = true →
    reads (loop acc) ts (acc ++ [c], true) x).
  { clear fuel ts cs Hts Hlen Hf Hs Hfor. intros acc ts c x Hc Hlen Hx. subst loop. cbv beta. read_step. rewrite (clause_for _ _ _ Hc). cbn [negb].
    inversion Hc as [n' is_async ts1 t ts2 iter ts3 cond Ht Hi Hcond]; subst. read_step.
    rewrite !length_app in Hlen. cbn [length] in Hlen. rewrite length_app in Hlen.
    assert (Htail : reads
      (target ← parse_for_target r; _ ← expect Token.In; iter ← p_or r; cond ← comp_filters r None;
       mret (acc ++ [Ast.Clause target iter cond is_async], true)) (ts1 ++ Token.In :: ts2 ++ ts3) (acc ++ [Ast.Clause t iter cond is_async], true) x).
    { reads_by ltac:(apply reads_for_target; [done|lia|done]). read_go.
      reads_by ltac:(apply Hor; [done|lia|eapply filters_stops; [done|done|lia]]).
      reads_by ltac:(apply reads_filters; [done|lia|done]). apply reads_ret. }
    destruct is_async; cbn [for_tokens app head tail ident_is].
    - rewrite bool_decide_eq_true_2 by done. known_tokens. apply (reads_bind _ _ _ _ [Token.Ident (chars_of "async")] tt).
      + intros pre. apply reads_bump_last.
      + read_go. exact Htail.
    - known_tokens. apply (reads_bind _ _ _ _ [] tt); [apply reads_ret|]. read_go. exact Htail. }
  assert (Hstop : ∀ acc, reads (loop acc) [] (acc, false) rest).
  { intros acc. subst loop. cbv beta. read_step. cbn [app]. rewrite Hfor. apply reads_ret. }
  assert (Hloop : ∀ acc, reads (repeat_while fuel loop acc) ts (acc ++ cs) rest); [|by apply Hloop].
  clearbody loop. revert fuel Hf. remember n as n' eqn:Hn in Hts.
  induction Hts as [n' ts c Hc|n' ts c ts' cs Hc Hts IH]; intros fuel Hf acc; subst; rewrite ?length_app in *;
    (destruct fuel as [|fuel]; [lia|]).
  - rewrite <- (app_nil_r ts). assert (0 < length ts) by (by destruct Hc as [? []]; cbn; lia). eapply reads_more; [by apply Hbody|].
    apply reads_stop; [lia|apply Hstop].
  - assert (0 < length ts) by (by destruct Hc as [? []]; cbn; lia). eapply reads_more; [apply Hbody; [done|lia|]|].
    + eapply clauses_stop; [done|lia].
    + replace (acc ++ c :: cs) with ((acc ++ [c]) ++ cs) by (by rewrite <- app_assoc). apply IH; try done; lia.
Qed.

Lemma reads_comprehension make close ts cs rest :
  clauses false n ts cs → length ts < F → token_is close (Some close) = true → continues close = 0 → for_follows (close :: rest) = false →
  reads (comprehension r make close) (ts ++ [close]) (make cs) rest.
Proof using All.
  intros Hts Hlen Hself Hcont Hfor. unfold comprehension. reads_by ltac:(apply reads_clauses; [done|lia|cbn; by rewrite Hcont|done]).
  apply reads_expect; [done|]. apply reads_ret.
Qed.

(** *** Displays *)

Lemma commas_stop {A} trailing (P Pl : list Token.Token → A → Prop) ts l k close x :
  commas trailing P Pl ts l → continues close = 0 → 1 ≤ k → stops k (ts ++ close :: x) = true.
Proof using All. intros Hc Ho Hk. apply (stops_weaken 1); [|done]. destruct Hc; try done. cbn [app stops]. by rewrite Ho. Qed.

Lemma commas_follow {A} trailing (P Pl : list Token.Token → A → Prop) ts l close x :
  commas trailing P Pl ts l → token_is Token.Comma (Some close) = false → follows (before ts) (ts ++ close :: x) = true.
Proof using All. intros Hc Ho. destruct Hc; try done. unfold follows. cbn [app head before]. by rewrite Ho. Qed.

Lemma clauses_follow b ts cs x : clauses false n ts cs → b ≠ StatementEnd → follows b (ts ++ x) = true.
Proof using All.
  intros Hcs Hb. destruct b; try done. assert (Hfor := clauses_for ts cs x Hcs). unfold for_follows in Hfor. unfold follows.
  destruct (ts ++ x) as [|t l]; [done|]. by destruct t.
Qed.

Lemma commas_for {A} trailing (P Pl : list Token.Token → A → Prop) ts l close x :
  commas trailing P Pl ts l → for_follows (close :: x) = false → for_follows (ts ++ close :: x) = false.
Proof using All. by destruct 1. Qed.

Ltac lengths := repeat progress (cbn [length] in *; rewrite ?length_app in * ).
Ltac flat := repeat progress (rewrite <- ?app_assoc; cbn [app]).

(** The side conditions of the functions above. *)
Ltac side :=
  first
  [ done | lia | (cbn [length]; lia) | stop | progress flat; side | by (eapply commas_stop; [eassumption|done|lia]) | by eapply commas_for | by (eapply commas_follow; [eassumption|done]) | by (eapply clauses_follow; [eassumption|done]) | by eapply item_not
  | by (eapply clauses_stop; [eassumption|lia]) | by eapply clauses_for
  | by (eapply opening_not; [by eapply expr_opening|cbn; lia]) ].

Lemma match_starred {A} e (x y : A) : is_starred e = false → match e with Ast.Starred _ => x | _ => y end = y.
Proof using Type. by destruct e. Qed.

Lemma reads_list_literal ts e rest :
  primary false n (Token.LBracket :: ts) e → length (Token.LBracket :: ts) ≤ F → reads (parse_list_literal r) (Token.LBracket :: ts) e rest.
Proof using All.
  intros Hp Hlen. unfold parse_list_literal.
  inversion Hp as [| | | | | | | | | | | | | | | |n' ts1 e' ts2 es Hi Hc|n' ts1 e' ts2 cs He Hcs| | | | |]; subst; [by read_go|..]; lengths; read_go; flat.
  - rewrite (item_not _ _ _ _ _ Hi) by done. reads_by ltac:(eapply reads_seq_item; [eassumption|side..]).
    read_step; flat. rewrite (commas_for _ _ _ _ _ _ _ Hc) by done.
    reads_by ltac:(apply (reads_items _ [e']); side). read_go.
  - rewrite (opening_not 1) by first [by eapply expr_opening|cbn; lia].
    reads_by ltac:(eapply reads_seq_item; [by apply item_expr|side..]).
    read_step; flat. rewrite (clauses_for _ _ _ Hcs), match_starred by (by eapply expr_not_starred). apply reads_comprehension; side.
Qed.

Lemma for_follows_cons t x :
  for_follows (t :: x) = token_is Token.For (Some t) || (ident_is "async" (Some t) && token_is Token.For (head x)).
Proof using Type. done. Qed.

Ltac no_for := rewrite for_follows_cons; cbn [token_is token_kind Nat.eqb ident_is andb orb].
Ltac no_open := rewrite (opening_not 1) by first [by eapply expr_opening|cbn; lia].
Ltac expr_by := reads_by ltac:(eapply Hexpr; [eassumption|side..]).

Lemma dict_item_not b ts i x : dict_item false b n ts i → token_is Token.RBrace (head (ts ++ x)) = false.
Proof using All.
  intros Hi. inversion Hi as [b' n' ts1 k ts2 v Hk Hv|]; subst; [|done]. flat. apply (opening_not 1); [by eapply expr_opening|cbn; lia].
Qed.

Lemma reads_dict_item b ts i rest : dict_item false b n ts i → length ts < F → stops 1 rest = true → follows b rest = true → reads (parse_dict_item r) ts i rest.
Proof using All.
  intros Hi Hlen Hs Hb. unfold parse_dict_item. inversion Hi as [b' n' ts1 k ts2 v Hk Hv|b' n' ts1 e He]; subst; lengths.
  - read_step. flat. no_open. expr_by. read_go. expr_by. apply reads_ret.
  - read_go. reads_by ltac:(apply Hor; side). apply reads_ret.
Qed.

Lemma reads_rest_of_dict i ts items rest :
  commas true (dict_item false AnyToken n) (dict_item false NotComma n) ts items → length ts ≤ F →
  reads (rest_of_dict r i) (ts ++ [Token.RBrace]) (Ast.Dict (i :: items)) rest.
Proof using All.
  intros Hc Hlen. unfold rest_of_dict. apply (reads_bind _ _ _ _ _ ([i] ++ items)); [|by read_go].
  apply (reads_commas _ (λ x, token_is Token.RBrace (head x)) true _ (dict_item false AnyToken n) (dict_item false NotComma n)); try done.
  - intros B f ts' b' rest'. apply reads_is_at.
  - intros ts' a x [Hi|Hi]; by eapply dict_item_not.
  - intros ts' a x Hi Hl. by apply (reads_dict_item AnyToken).
  - intros ts' a Hi Hl. by apply (reads_dict_item NotComma).
Qed.

Lemma reads_rest_of_set e ts es rest :
  commas true (item false AnyToken n) (item false NotComma n) ts es → length ts ≤ F →
  reads (rest_of_set r e) (ts ++ [Token.RBrace]) (Ast.Set_ (e :: es)) rest.
Proof using All. intros Hc Hlen. unfold rest_of_set. reads_by ltac:(apply (reads_items _ [e]); side). read_go. Qed.

Lemma reads_dict_or_set ts e rest :
  primary false n (Token.LBrace :: ts) e → length (Token.LBrace :: ts) ≤ F → reads (parse_dict_or_set_literal r) (Token.LBrace :: ts) e rest.
Proof using All.
  intros Hp Hlen. unfold parse_dict_or_set_literal.
  inversion Hp as [| | | | | | | | | | | | | | | | | | |n' ts1 i ts2 items Hi Hc|n' ts1 e' ts2 es Hi Hc|n' ts1 k ts2 v ts3 cs Hk Hv Hcs|n' ts1 e' ts2 cs He Hcs];
    subst; [by read_go|..]; lengths; read_go; flat.
  - rewrite (dict_item_not _ _ _ _ Hi). inversion Hi as [b' n' ts3 k ts4 v Hk Hv|b' n' ts3 e' He]; subst; lengths.
    + flat. read_step. flat. no_open. read_step. flat. no_open. expr_by. read_go. expr_by. read_step. flat.
      rewrite (commas_for _ _ _ _ _ _ _ Hc) by done. apply reads_rest_of_dict; [done|lia].
    + read_go. reads_by ltac:(apply Hor; side). apply reads_rest_of_dict; [done|lia].
  - rewrite (item_not _ _ _ _ _ Hi) by done. inversion Hi as [b n' ts3 e He|b n' ts3 e He]; subst; lengths.
    + do 2 (read_step; flat; no_open). expr_by. read_step. flat.
      assert (Hcolon : token_is Token.Colon (head (ts2 ++ Token.RBrace :: rest)) = false) by (by destruct Hc). rewrite Hcolon.
      read_step. flat. rewrite (commas_for _ _ _ _ _ _ _ Hc) by done. apply reads_rest_of_set; [done|lia].
    + read_go. reads_by ltac:(apply Hor; side). apply reads_rest_of_set; [done|lia].
  - no_open. do 2 (read_step; flat; no_open). expr_by. read_go. expr_by. read_step. flat. rewrite (clauses_for _ _ _ Hcs).
    apply (reads_comprehension _ _ _ _ _ Hcs); side.
  - no_open. do 2 (read_step; flat; no_open). expr_by. read_step. flat. rewrite (clauses_not_colon _ _ _ Hcs). read_step. flat.
    rewrite (clauses_for _ _ _ Hcs). apply reads_comprehension; side.
Qed.

Lemma reads_parenthesized ts e rest :
  primary false n (Token.LParen :: ts) e → length (Token.LParen :: ts) ≤ F → reads (parse_parenthesized r) ts e rest.
Proof using All.
  intros Hp Hlen. unfold parse_parenthesized.
  inversion Hp as [| | | | | | | | | | |n' ts1 e' He| |n' ts1 e' ts2 es Hi Hc Hne|n' ts1 e' ts2 cs He Hcs| | | | | | | |];
    subst; lengths; [|by read_go|..]; read_step; flat.
  - no_open. read_step. flat. no_open. expr_by. read_go. no_for. read_go.
  - rewrite (item_not _ _ _ _ _ Hi) by done. destruct (commas_cons _ _ _ _ _ Hc Hne) as [ts3 ->].
    inversion Hi as [b n' ts4 e He|b n' ts4 e He]; subst; lengths.
    + read_step. flat. no_open. expr_by. read_go. no_for. read_go. rewrite (app_comm_cons ts3).
      reads_by ltac:(apply (reads_items _ [e']); side). read_go.
    + read_step. known_tokens. rewrite (app_comm_cons ts4). reads_by ltac:(eapply reads_seq_item; [eassumption|side..]). read_step. known_tokens.
      rewrite (app_comm_cons ts3).
      reads_by ltac:(apply (reads_items _ [Ast.Starred e]); side). read_go.
  - no_open. read_step. flat. no_open. expr_by. read_step. flat. rewrite (clauses_for _ _ _ Hcs). apply reads_comprehension; side.
Qed.

(** *** Literals *)

Lemma reads_adjacent_strings plain vs rest :
  length vs ≤ F → stops 15 rest = true → reads (adjacent_strings r (plain, None)) (map Token.Str vs) (plain ++ concat vs, None) rest.
Proof using All.
  intros Hlen Hs. unfold adjacent_strings. assert (Hf : length vs < p_fuel r) by lia. revert Hf. generalize (p_fuel r). intros fuel Hf.
  revert plain fuel Hf Hlen. induction vs as [|v vs IH]; intros plain fuel Hf Hlen; cbn [length map concat] in *.
  - apply reads_stop; [lia|]. read_step. rewrite app_nil_r. destruct rest as [|t rest]; [apply reads_ret|]. destruct t; try done; apply reads_ret.
  - destruct fuel as [|fuel]; [lia|]. rewrite app_assoc. change (Token.Str v :: map Token.Str vs) with ([Token.Str v] ++ map Token.Str vs).
    eapply reads_more; [by read_go|]. apply IH; lia.
Qed.

Lemma reads_adjacent_bytes bs vs rest :
  length vs ≤ F → stops 15 rest = true → reads (adjacent_bytes r bs) (map Token.Bytes vs) (bs ++ concat vs) rest.
Proof using All.
  intros Hlen Hs. unfold adjacent_bytes. assert (Hf : length vs < p_fuel r) by lia. revert Hf. generalize (p_fuel r). intros fuel Hf.
  revert bs fuel Hf Hlen. induction vs as [|v vs IH]; intros bs fuel Hf Hlen; cbn [length map concat] in *.
  - apply reads_stop; [lia|]. read_step. rewrite app_nil_r. destruct rest as [|t rest]; [apply reads_ret|]. destruct t; try done; apply reads_ret.
  - destruct fuel as [|fuel]; [lia|]. rewrite app_assoc. change (Token.Bytes v :: map Token.Bytes vs) with ([Token.Bytes v] ++ map Token.Bytes vs).
    eapply reads_more; [by read_go|]. apply IH; lia.
Qed.

Lemma reads_primary ts e rest : primary false n ts e → length ts ≤ F → stops 15 rest = true → reads (parse_primary r) ts e rest.
Proof using All.
  intros Hp Hlen Hs. unfold parse_primary. read_step.
  assert (Hp' := Hp). inversion Hp' as [| | | |n' v vs|n' v vs| | | | |n' name span Hspan| | | | | | | | | | | |]; subst; known_tokens;
    try (apply reads_bump; by apply reads_parenthesized); try (by apply reads_list_literal); try (by apply reads_dict_or_set); read_go.
  - cbn [map length] in Hlen. rewrite length_map in Hlen. reads_by ltac:(apply reads_adjacent_strings; [lia|done]). apply reads_ret.
  - cbn [map length] in Hlen. rewrite length_map in Hlen. reads_by ltac:(apply reads_adjacent_bytes; [lia|done]). apply reads_ret.
  - rewrite (Hspan eq_refl). apply reads_ret.
Qed.

(** *** Calls, subscripts and attributes *)

Lemma opening_keyword k name ts rest : opening k (Token.Ident name :: ts) = true → token_is Token.Assign (head rest) = false →
  token_is Token.Assign (head (ts ++ rest)) = false.
Proof using Type.
  destruct ts as [|t ts]; [done|]. intros Ho _. cbn [opening] in Ho. apply andb_prop in Ho as [_ Ho]. by apply negb_true_iff in Ho.
Qed.

Lemma reads_argument b seen ts arg seen' args rest :
  argument false b n seen ts arg seen' → length ts < F → stops 1 rest = true → follows b rest = true → token_is Token.Assign (head rest) = false →
  for_follows rest = false → reads (parse_call_arg r args seen) ts (args ++ [arg], seen', true) rest.
Proof using All.
  intros Ha Hlen Hs Hb Hassign Hfor. unfold parse_call_arg.
  inversion Ha as [b' n' ts' e He|b' n' ts' e He|b' n' seen1 ts' e He|b' n' seen1 name ts' e He]; subst; lengths.
  2: { read_go. expr_by. apply reads_ret. }
  2: { read_go. expr_by. apply reads_ret. }
  2: { read_go. expr_by. apply reads_ret. }
  do 2 (read_step; no_open). do 2 read_step.
  assert (Hpos : reads (parse_positional r args) ts (args ++ [Ast.Arg None e false false], true) rest).
  { unfold parse_positional. expr_by. read_step. cbn [app]. rewrite Hfor. apply reads_ret. }
  assert (Hgo : reads ('(args, more) ← parse_positional r args; mret (args, false, more)) ts (args ++ [Ast.Arg None e false false], false, true) rest).
  { reads_by ltac:(exact Hpos). apply reads_ret. }
  pose proof (expr_opening _ _ _ _ _ He) as Ho. destruct ts as [|t ts]; [done|]. cbn [app head tail].
  destruct t; try exact Hgo. rewrite (opening_keyword _ _ _ _ Ho Hassign). exact Hgo.
Qed.

Lemma argument_not b seen ts arg seen' x : argument false b n seen ts arg seen' → token_is Token.RParen (head (ts ++ x)) = false.
Proof using All.
  intros Ha. inversion Ha; subst; try done. apply (opening_not 1); [by eapply expr_opening|cbn; lia].
Qed.

Lemma argument_list_not seen ts args x : argument_list false n seen ts args → token_is Token.RParen (head (ts ++ x)) = false.
Proof using All. intros Hl. inversion Hl; subst; flat; by eapply argument_not. Qed.

(** After a list of arguments. *)
Lemma reads_argument_list seen ts args acc rest :
  argument_list false n seen ts args → length ts < F →
  ∃ seen', reads (call_args r (acc, seen)) ts (acc ++ args, seen') (Token.RParen :: rest).
Proof using All.
  intros Hts Hlen. unfold call_args. assert (Hf : length ts < p_fuel r) by lia. revert Hf. generalize (p_fuel r). intros fuel Hf.
  match goal with |- ∃ _, reads (repeat_while _ ?body _) _ _ _ => set (loop := body) end.
  revert acc fuel Hf. remember n as n' eqn:Hn in Hts.
  induction Hts as [n' seen ts arg seen' Ha|n' seen ts arg seen' Ha|n' seen ts arg seen' ts' args Ha Hts IH]; subst; intros acc fuel Hf; lengths.
  - exists seen'. apply reads_stop; [lia|]. subst loop. cbv beta iota.
    reads_by ltac:(eapply reads_argument; [exact Ha|side..]). known_tokens. read_go.
  - exists seen'. apply reads_stop; [lia|]. subst loop. cbv beta iota.
    reads_by ltac:(eapply reads_argument; [exact Ha|side..]). known_tokens. read_go.
  - destruct fuel as [|fuel]; [lia|]. destruct (IH eq_refl ltac:(lia) (acc ++ [arg]) fuel ltac:(lia)) as [seen2 IH'].
    exists seen2. rewrite <- app_assoc in IH'. cbn [app] in IH'.
    change (Token.Comma :: ts') with ([Token.Comma] ++ ts'). rewrite app_assoc. eapply reads_more; [|exact IH'].
    subst loop. cbv beta iota.
    reads_by ltac:(eapply reads_argument; [exact Ha|side..]). known_tokens. read_go. rewrite (argument_list_not _ _ _ _ Hts). apply reads_ret.
Qed.

Lemma reads_call_args ts args rest : arguments false n ts args → length ts < F → reads (parse_call_args r) ts args (Token.RParen :: rest).
Proof using All.
  intros Ha Hlen. unfold parse_call_args. read_step. inversion Ha as [n'|n' ts1 e ts2 cs He Hcs|n' ts' args' Hl Hcheck]; subst; lengths.
  - known_tokens. read_go.
  - flat. no_open. rewrite <- (app_nil_r (ts1 ++ ts2)). apply (reads_bind _ _ _ _ _ ([Ast.Arg None (Ast.GenExp e cs) false false], false)).
    + unfold call_args. apply reads_stop; [lia|]. cbv beta iota.
      apply (reads_bind_last _ _ _ _ _ ([Ast.Arg None (Ast.GenExp e cs) false false], false, false)); [|cbn; apply reads_ret].
      unfold parse_call_arg. do 2 (read_step; flat; no_open). do 2 read_step.
      assert (Hpos : reads (parse_positional r []) (ts1 ++ ts2) ([Ast.Arg None (Ast.GenExp e cs) false false], false) (Token.RParen :: rest)).
      { unfold parse_positional. expr_by. read_step. rewrite (clauses_for _ _ _ Hcs). cbn [andb length Nat.eqb].
        reads_by ltac:(apply reads_clauses; side). apply reads_ret. }
      assert (Hgo : reads ('(args, more) ← parse_positional r []; mret (args, false, more)) (ts1 ++ ts2)
        ([Ast.Arg None (Ast.GenExp e cs) false false], false, false) (Token.RParen :: rest)).
      { reads_by ltac:(exact Hpos). apply reads_ret. }
      pose proof (expr_opening _ _ _ _ _ He) as Ho. flat. destruct ts1 as [|t ts1]; [done|]. cbn [app head tail] in *.
      destruct t; try exact Hgo. rewrite (opening_keyword _ _ _ (ts2 ++ Token.RParen :: rest) Ho); [exact Hgo|].
      by eapply clauses_not_assign.
    + cbn. apply (reads_bind_last _ _ _ _ [] tt); [|apply reads_ret]. intros pre. by rewrite app_nil_r.
  - rewrite (argument_list_not _ _ _ _ Hl). destruct (reads_argument_list _ _ _ [] rest Hl Hlen) as [seen' Hr].
    reads_by ltac:(exact Hr). cbn [app]. apply (reads_bind_last _ _ _ _ [] tt); [|apply reads_ret]. intros pre. rewrite app_nil_r.
    unfold pure. by rewrite Hcheck.
Qed.

Lemma item_starred b ts e x : item false b n ts e → token_is Token.Star (head (ts ++ x)) = is_starred e.
Proof using All.
  intros Hi. inversion Hi as [b' n' ts' e' He|b' n' ts' e' He]; subst; [|done]. rewrite (expr_not_starred _ _ _ _ _ He).
  apply (opening_not 1); [by eapply expr_opening|cbn; lia].
Qed.

Lemma reads_index target ts e rest :
  subscript false n ts e → length ts < F → reads (parse_subscript r target None None) (ts ++ [Token.RBracket]) (Ast.Index target e None) rest.
Proof using All.
  intros Hsub Hlen. unfold parse_subscript. inversion Hsub as [n' ts' e' Hi|n' ts1 e' ts2 es Hi Hc Hne]; subst; lengths; flat.
  - read_step. flat. rewrite (item_not _ _ _ _ _ Hi) by done. read_step. flat. rewrite (item_starred _ _ _ _ Hi).
    apply (reads_bind _ _ _ _ _ (Some e')); [reads_by ltac:(eapply reads_seq_item; [eassumption|side..]); apply reads_ret|].
    unfold parse_index. read_go. apply (reads_bind _ _ _ _ [] (if is_starred e' then Ast.Tuple [e'] else e')); [apply reads_ret|]. read_go.
  - destruct (commas_cons _ _ _ _ _ Hc Hne) as [ts3 ->]. read_step. flat. rewrite (item_not _ _ _ _ _ Hi) by done.
    read_step. flat. rewrite (item_starred _ _ _ _ Hi).
    apply (reads_bind _ _ _ _ _ (Some e')); [reads_by ltac:(eapply reads_seq_item; [eassumption|side..]); apply reads_ret|].
    unfold parse_index. read_go. rewrite (app_comm_cons ts3).
    apply (reads_bind _ _ _ _ _ (Ast.Tuple (e' :: es))).
    + reads_by ltac:(apply (reads_items _ [e']); side). apply reads_ret.
    + read_go.
Qed.

Lemma reads_bound ts e x y : optional (expr false NotComma n) ts e → length ts < F → stops 1 x = true → follows NotComma x = true → head y = head x →
  (e = None → token_is Token.RBracket (head x) || token_is Token.Colon (head x) = true) →
  reads (slice_bound r (token_is Token.RBracket (head (ts ++ y)) || token_is Token.Colon (head (ts ++ y)))) ts e x.
Proof using All.
  intros He Hlen Hs Hb Hy Hnone. unfold slice_bound. destruct He as [|ts e He]; [cbn [app]; rewrite Hy, Hnone by done; apply reads_ret|].
  do 2 no_open. cbn [orb]. expr_by. apply reads_ret.
Qed.

Lemma reads_slice target ts1 lower ts2 upper ts3 step rest :
  optional (item false NotComma n) ts1 lower → optional (expr false NotComma n) ts2 upper → slice_step false n ts3 step →
  length (ts1 ++ ts2 ++ ts3) < F →
  reads (parse_subscript r target None None) (ts1 ++ Token.Colon :: ts2 ++ ts3 ++ [Token.RBracket]) (Ast.Slice target lower upper step) rest.
Proof using All.
  intros Hlower Hupper Hstep Hlen. lengths. unfold parse_subscript.
  assert (Htail : reads (parse_slice r target lower) (Token.Colon :: ts2 ++ ts3 ++ [Token.RBracket]) (Ast.Slice target lower upper step) rest).
  { unfold parse_slice. read_go. flat. inversion Hstep as [n'|n' ts4 step' Hs]; subst; lengths; flat.
    - apply (reads_bind _ _ _ _ _ upper); [apply reads_bound; (done || lia)|]. read_go.
      apply (reads_bind _ _ _ _ [] None); [apply reads_ret|]. read_go.
    - apply (reads_bind _ _ _ _ _ upper); [apply reads_bound; (done || lia)|]. read_go. rewrite app_comm_cons.
      apply (reads_bind _ _ _ _ _ step); [|by read_go]. read_go. flat.
      destruct Hs as [|ts4 e He]; [cbn; apply reads_ret|]. no_open. unfold slice_bound. expr_by. apply reads_ret. }
  destruct Hlower as [|ts1 e Hi].
  - cbn [app]. do 2 (read_step; known_tokens). apply (reads_bind _ _ _ _ [] None); [apply reads_ret|]. read_step. exact Htail.
  - read_step. flat. rewrite (item_not _ _ _ _ _ Hi) by done. read_step. flat.
    apply (reads_bind _ _ _ _ _ (Some e)); [reads_by ltac:(eapply reads_seq_item; [eassumption|side..]); apply reads_ret|].
    read_step. exact Htail.
Qed.

(** The rounds of [postfixes] on its trailers. *)
Definition postfix_body (expr : Ast.Expr) : parser (Ast.Expr * bool) :=
  paren ← is_at Token.LParen;
  if (paren : bool) then
    _ ← bump; args ← parse_call_args r; _ ← expect Token.RParen; fin ← prev_end_col;
    mret (Ast.Call expr args (whole_span None fin), true)
  else
    bracket ← is_at Token.LBracket;
    if (bracket : bool) then
      bracket_col ← current_col; _ ← bump; expr ← parse_subscript r expr None bracket_col; mret (expr, true)
    else
      dot ← is_at Token.Dot;
      if (dot : bool) then
        _ ← bump;
        t ← current;
        match t with
        | Some (Token.Ident name) => _ ← bump; fin ← prev_end_col; mret (Ast.Attr expr name (whole_span None fin), true)
        | other => parse_err ("expected attribute name after '.', found " +:+ debug_option other)
        end
      else mret (expr, false).

(** A primary, and trailers that the loop reads in [k] rounds. *)
Definition trailed (ts : list Token.Token) (e : Ast.Expr) : Prop :=
  ∃ ts0 e0 ts1 k, primary false n ts0 e0 ∧ ts = ts0 ++ ts1 ∧ k ≤ length ts1 ∧ (∀ x, stops 15 x = true → stops 15 (ts1 ++ x) = true) ∧
    unrolls lines d postfix_body (λ _, True) k e0 ts1 e.

Lemma trailed_snoc ts e trailer e' :
  trailed ts e → trailer ≠ [] → (∀ x, stops 15 (trailer ++ x) = true) → (∀ x, reads (postfix_body e) trailer (e', true) x) →
  trailed (ts ++ trailer) e'.
Proof using All.
  intros (ts0 & e0 & ts1 & k & Hp & -> & Hk & Hst & Hu) Hne Htr Hbody. exists ts0, e0, (ts1 ++ trailer), (S k).
  split; [done|]. split; [by rewrite app_assoc|]. split; [|split].
  - rewrite length_app. destruct trailer; [done|]. cbn. lia.
  - intros x _. rewrite <- app_assoc. by apply Hst.
  - eapply unrolls_snoc; [exact Hu|auto|done].
Qed.

Lemma postfix_trailed ts e : postfix false n ts e → length ts ≤ F → trailed ts e.
Proof using All.
  intros Hp Hlen. remember n as n' eqn:Hn in Hp.
  induction Hp as [n' ts e Hp|n' ts e ts' args span Hp IH Ha Hspan|n' ts e name span Hp IH Hspan|n' ts e ts' index span Hp IH Hi Hspan
    |n' ts e ts1 lower ts2 upper ts3 step Hp IH Hlower Hupper Hstep]; subst; lengths.
  { exists ts, e, [], 0. rewrite app_nil_r. split_and!; try done. apply unrolls_nil. }
  all: eapply trailed_snoc; [apply IH; [done|lia]|done|done|]; intros x; unfold postfix_body; try rewrite (Hspan eq_refl); read_go.
  - reads_by ltac:(apply reads_call_args; [done|lia]). read_go.
  - eapply reads_bind_last; [apply reads_index; [done|lia]|]. read_go.
  - eapply reads_bind_last; [apply reads_slice; [done|done|done|lengths; lia]|]. read_go.
Qed.

Lemma reads_postfix ts e rest : postfix false n ts e → length ts ≤ F → stops 14 rest = true → reads (parse_postfix r) ts e rest.
Proof using All.
  intros Hp Hlen Hs. destruct (postfix_trailed _ _ Hp Hlen) as (ts0 & e0 & ts1 & k & Hprim & -> & Hk & Hst & Hu). lengths.
  unfold parse_postfix. read_step. reads_by ltac:(apply reads_primary; [done|lia|apply Hst; stop]).
  change (postfixes r None e0) with (repeat_while (p_fuel r) postfix_body e0). replace (p_fuel r) with (k + (p_fuel r - k)) by lia.
  rewrite <- (app_nil_r ts1). apply Hu; [done|]. apply reads_stop; [lia|]. unfold postfix_body.
  do 3 (read_step; rewrite (stops_not 14) by first [done|cbn; lia]). apply reads_ret.
Qed.

(** *** Operators *)

Lemma no_unary_operator {A} ts e x (f : UnaryOp → A) (a b : A) :
  postfix false n ts e → head ts ≠ Some (Token.Ident (chars_of "await")) →
  match unary_operator (head (ts ++ x)) with Some op => f op | None => if ident_is "await" (head (ts ++ x)) then a else b end = b.
Proof using All.
  intros Hp Hhead. apply postfix_opening in Hp. destruct ts as [|t ts]; [done|]. cbn [app head] in *.
  destruct t as [| | | | | | |name| | | | | | | | | | | | | | | | | | | | | | | | | | | | | | | | | | | | | | | | | | | | | | | | | | | | | | | | | | | | | | | | | | | | | | | | | | | | | | | | | | | |]; try done.
  cbn [unary_operator ident_is]. rewrite bool_decide_eq_false_2; [done|]. intros ->. done.
Qed.

Lemma reads_parse_unary ts e rest : unary false n ts e → length ts ≤ F → stops 12 rest = true → reads (parse_unary r) ts e rest.
Proof using All.
  intros Hu Hlen Hs. unfold parse_unary. read_step.
  inversion Hu as [n' t op ts' e' span Ht He Hspan|n' ts' e' He|n' ts' e' Hp Hhead|n' ts1 e1 ts2 e2 span Hp Hhead He Hspan]; subst; lengths.
  - cbn [app head]. rewrite Ht. read_go. reads_by ltac:(apply Hunary; [done|lia|done]). rewrite (Hspan eq_refl). read_go.
  - cbn [app head unary_operator ident_is]. rewrite bool_decide_eq_true_2 by done. read_go.
    reads_by ltac:(apply Hunary; [done|lia|done]). read_go.
  - rewrite (no_unary_operator _ _ _ _ _ _ Hp Hhead). unfold parse_power. read_go.
    reads_by ltac:(apply reads_postfix; [done|lia|stop]). read_step. cbn [app].
    rewrite (stops_not 12) by first [done|cbn; lia]. apply reads_ret.
  - flat. rewrite (no_unary_operator _ _ _ _ _ _ Hp Hhead). unfold parse_power. read_go.
    reads_by ltac:(apply reads_postfix; [done|lia|done]). read_go.
    reads_by ltac:(apply Hunary; [done|lia|done]). rewrite (Hspan eq_refl). read_go.
Qed.

(** The functions of the left-associative levels, from [parse_unary]. *)
Fixpoint parse_level (k : nat) : parser Ast.Expr :=
  match k with O => parse_unary r | S k => parse_binary r (level_operator k) (parse_level k) end.

Definition binary_body (k : nat) (lineno : Z) (expr : Ast.Expr) : parser (Ast.Expr * bool) :=
  t ← current;
  match level_operator k t with
  | Some op =>
      op_col ← current_col; op_end ← end_col_at_pos; _ ← bump; rhs ← parse_level k;
      span ← make_binary_span None lineno op_col op_end; mret (Ast.Binary expr op rhs span, true)
  | None => mret (expr, false)
  end.

Lemma operator_continues k t op : k < 6 → level_operator k (Some t) = Some op → continues t = 11 - k.
Proof using All. intros Hk. destruct k as [|[|[|[|[|[|k]]]]]]; [..|lia]; destruct t; (discriminate || reflexivity). Qed.

Lemma operator_stops k rest : k < 6 → stops (11 - k) rest = true → level_operator k (head rest) = None.
Proof using All.
  intros Hk Hs. destruct rest as [|t rest]; [by destruct k as [|[|[|[|[|k]]]]]|]. cbn [head stops] in *.
  destruct (level_operator k (Some t)) as [op|] eqn:Ht; [|done]. apply operator_continues in Ht; [|done]. apply Nat.ltb_lt in Hs. lia.
Qed.

(** An operand, and operators with operands that the loop reads in [m] rounds. *)
Definition chained (k : nat) (lineno : Z) (ts : list Token.Token) (e : Ast.Expr) : Prop :=
  ∃ ts0 e0 ts1 m, binary false n k ts0 e0 ∧ ts = ts0 ++ ts1 ∧ m ≤ length ts1 ∧
    (∀ x, stops (12 - k) x = true → stops (12 - k) (ts1 ++ x) = true) ∧
    unrolls lines d (binary_body k lineno) (λ x, stops (12 - k) x = true) m e0 ts1 e.

Lemma binary_chained k lineno ts e :
  k < 6 → (∀ ts e rest, binary false n k ts e → length ts ≤ F → stops (12 - k) rest = true → reads (parse_level k) ts e rest) →
  binary false n (S k) ts e → length ts ≤ F → chained k lineno ts e.
Proof using All.
  intros Hk Hnext Hb Hlen. remember n as n' eqn:Hn in Hb. remember (S k) as k' eqn:Hk' in Hb.
  induction Hb as [n' ts e Hu|n' k' ts e Hb IH|n' k' ts e t op ts' e' span Hb IH Hop Hr _ Hspan]; [done| |]; simplify_eq.
  - exists ts, e, [], 0. rewrite app_nil_r. split_and!; try done. apply unrolls_nil.
  - lengths. destruct IH as (ts0 & e0 & ts1 & m & Hb0 & -> & Hm & Hst & Hu); [done|done|lia|]. lengths.
    assert (Hstop : ∀ x, stops (12 - k) ((t :: ts') ++ x) = true).
    { intros x. cbn [app stops]. rewrite (operator_continues _ _ _ Hk Hop). apply Nat.ltb_lt. lia. }
    exists ts0, e0, (ts1 ++ t :: ts'), (S m). split; [done|]. split; [by rewrite app_assoc|]. lengths. split; [lia|]. split.
    + intros x _. rewrite <- app_assoc. by apply Hst.
    + eapply unrolls_snoc; [exact Hu| |done]. intros x Hx. unfold binary_body. read_step. cbn [app head]. rewrite Hop. read_go.
      reads_by ltac:(apply Hnext; [done|lia|done]). rewrite (Hspan eq_refl). read_go.
Qed.

Lemma reads_level k ts e rest :
  k ≤ 6 → binary false n k ts e → length ts ≤ F → stops (12 - k) rest = true → reads (parse_level k) ts e rest.
Proof using All.
  revert ts e rest. induction k as [|k IH]; intros ts e rest Hk Hb Hlen Hs.
  { inversion Hb; subst. by apply reads_parse_unary. }
  cbn [parse_level]. unfold parse_binary. read_step. apply reads_lineno. intros lineno.
  assert (Hnext : ∀ ts e rest, binary false n k ts e → length ts ≤ F → stops (12 - k) rest = true → reads (parse_level k) ts e rest)
    by (intros; apply IH; [lia|done..]).
  destruct (binary_chained k lineno ts e ltac:(lia) Hnext Hb Hlen) as (ts0 & e0 & ts1 & m & Hb0 & -> & Hm & Hst & Hu). lengths.
  reads_by ltac:(apply Hnext; [done|lia|apply Hst; eapply stops_weaken; [exact Hs|lia]]).
  change (reads (repeat_while (p_fuel r) (binary_body k lineno) e0) ts1 e rest). replace (p_fuel r) with (m + (p_fuel r - m)) by lia.
  rewrite <- (app_nil_r ts1). apply Hu; [eapply stops_weaken; [exact Hs|lia]|]. apply reads_stop; [lia|]. unfold binary_body.
  read_step. cbn [app]. rewrite operator_stops; [apply reads_ret|lia|]. eapply stops_weaken; [exact Hs|lia].
Qed.

Lemma reads_bitor ts e rest : binary false n 6 ts e → length ts ≤ F → stops 6 rest = true → reads (parse_bitor r) ts e rest.
Proof using All. intros Hb Hlen Hs. change (parse_bitor r) with (parse_level 6). by apply reads_level. Qed.

Lemma reads_comparison_operator {A} op (f : option CmpOp.CmpOp → parser A) ts a rest :
  (op = CmpOp.Is → token_is Token.Not (head (ts ++ rest)) = false) → reads (f (Some op)) ts a rest →
  reads (comparison_operator ≫= f) (comparison_tokens op ++ ts) a rest.
Proof using Type.
  intros His Hf. eapply reads_bind; [|exact Hf]. unfold comparison_operator. destruct op; cbn [comparison_tokens]; read_go.
  rewrite His by done. apply reads_ret.
Qed.

Lemma reads_no_comparison {A} (f : option CmpOp.CmpOp → parser A) a rest :
  stops 5 rest = true → reads (f None) [] a rest → reads (comparison_operator ≫= f) [] a rest.
Proof using Type.
  intros Hs Hf. apply (reads_bind_last _ _ _ _ [] None); [|done]. unfold comparison_operator. read_step. cbn [app].
  destruct rest as [|t rest]; [apply reads_ret|]. destruct t; try done; apply reads_ret.
Qed.

Lemma comparisons_stop ts ops x : comparisons false n ts ops → stops 5 x = true → stops 6 (ts ++ x) = true.
Proof using All.
  intros Hc Hs. destruct (comparisons_head _ _ _ _ Hc) as [->|(op & ts' & ->)]; [by eapply stops_weaken; [exact Hs|lia]|]. by destruct op.
Qed.

Lemma reads_comparisons acc ts ops rest :
  comparisons false n ts ops → length ts ≤ F → stops 5 rest = true → reads (Parser.comparisons r acc) ts (acc ++ ops) rest.
Proof using All.
  intros Hts Hlen Hs. unfold Parser.comparisons. assert (Hf : length ts < p_fuel r) by lia. revert Hf. generalize (p_fuel r). intros fuel Hf.
  revert acc fuel Hf. remember n as n' eqn:Hn in Hts.
  induction Hts as [n'|n' op ts e ts' ops He Hts IH]; subst; intros acc fuel Hf; lengths.
  - apply reads_stop; [lia|]. apply reads_no_comparison; [done|]. rewrite app_nil_r. apply reads_ret.
  - destruct fuel as [|fuel]; [lia|]. assert (0 < length (comparison_tokens op)) by (destruct op; cbn; lia).
    rewrite app_assoc. eapply reads_more.
    + apply reads_comparison_operator.
      * intros _. apply (opening_not 3); [by eapply binary_opening|cbn; lia].
      * reads_by ltac:(apply reads_bitor; [done|lia|by eapply comparisons_stop]). apply reads_ret.
    + replace (acc ++ (op, e) :: ops) with ((acc ++ [(op, e)]) ++ ops) by (by rewrite <- app_assoc). apply IH; [done|lia|lia].
Qed.

Lemma reads_parse_not ts e rest : not_test false n ts e → length ts ≤ F → stops 5 rest = true → reads (parse_not r) ts e rest.
Proof using All.
  intros Hn Hlen Hs. unfold parse_not. inversion Hn as [n' ts1 e1 ts2 ops Hb Hc|n' ts1 e1 span He Hspan]; subst; lengths.
  - read_step. flat. rewrite (opening_not 3) by first [by eapply binary_opening|cbn; lia]. unfold parse_comparison.
    reads_by ltac:(apply reads_bitor; [done|lia|by eapply comparisons_stop]).
    reads_by ltac:(apply reads_comparisons; [done|lia|done]). apply reads_ret.
  - read_go. reads_by ltac:(apply Hnot; [done|lia|done]). rewrite (Hspan eq_refl). read_go.
Qed.

(** Operands of [N] that the operator [op] of [token] joins. *)
Definition boolean_body (token : Token.Token) (op : BinaryOp) (next : parser Ast.Expr) (expr : Ast.Expr) : parser (Ast.Expr * bool) :=
  more ← is_at token;
  if (more : bool) then _ ← bump; rhs ← next; mret (Ast.Binary expr op rhs None, true) else mret (expr, false).

Section joined.
  Context (token : Token.Token) (op : BinaryOp) (next : parser Ast.Expr) (N : list Token.Token → Ast.Expr → Prop) (k : nat).
  Context (Hself : token_is token (Some token) = true) (Htoken : continues token = k).
  Context (Hnext : ∀ ts e rest, N ts e → length ts ≤ F → stops (S k) rest = true → reads next ts e rest).

Definition joined (ts : list Token.Token) (e : Ast.Expr) : Prop :=
  ∃ ts0 e0 ts1 m, N ts0 e0 ∧ ts = ts0 ++ ts1 ∧ m ≤ length ts1 ∧ (∀ x, stops (S k) x = true → stops (S k) (ts1 ++ x) = true) ∧
    unrolls lines d (boolean_body token op next) (λ x, stops (S k) x = true) m e0 ts1 e.

Lemma joined_one ts e : N ts e → joined ts e.
Proof using Type. intros HN. exists ts, e, [], 0. rewrite app_nil_r. split_and!; try done. apply unrolls_nil. Qed.

Lemma joined_snoc ts e ts' e' : joined ts e → N ts' e' → length ts' ≤ F → joined (ts ++ token :: ts') (Ast.Binary e op e' None).
Proof using All.
  intros (ts0 & e0 & ts1 & m & HN & -> & Hm & Hst & Hu) Hr Hlen.
  assert (Hstop : ∀ x, stops (S k) ((token :: ts') ++ x) = true).
  { intros x. cbn [app stops]. rewrite Htoken. apply Nat.ltb_lt. lia. }
  exists ts0, e0, (ts1 ++ token :: ts'), (S m). split; [done|]. split; [by rewrite app_assoc|]. lengths. split; [lia|]. split.
  - intros x _. rewrite <- app_assoc. by apply Hst.
  - eapply unrolls_snoc; [exact Hu| |done]. intros x Hx. unfold boolean_body. read_step. cbn [app head]. rewrite Hself. read_go.
    reads_by ltac:(apply Hnext; [done|lia|done]). read_go.
Qed.

Lemma reads_joined ts e rest : joined ts e → length ts ≤ F → stops k rest = true → reads (parse_boolean r token op next) ts e rest.
Proof using All.
  intros (ts0 & e0 & ts1 & m & HN & -> & Hm & Hst & Hu) Hlen Hs. lengths. unfold parse_boolean.
  assert (Hs' : stops (S k) rest = true) by (eapply stops_weaken; [exact Hs|lia]).
  reads_by ltac:(apply Hnext; [done|lia|by apply Hst]).
  change (reads (repeat_while (p_fuel r) (boolean_body token op next) e0) ts1 e rest).
  replace (p_fuel r) with (m + (p_fuel r - m)) by lia.
  rewrite <- (app_nil_r ts1). apply Hu; [done|]. apply reads_stop; [lia|]. unfold boolean_body. read_step. cbn [app].
  rewrite (stops_not k) by (first [done|lia]). apply reads_ret.
Qed.
End joined.

Lemma reads_parse_and ts e rest : and_test false n ts e → length ts ≤ F → stops 3 rest = true → reads (parse_and r) ts e rest.
Proof using All.
  intros Ha Hlen Hs.
  assert (Hnext : ∀ ts e rest, not_test false n ts e → length ts ≤ F → stops 4 rest = true → reads (parse_not r) ts e rest).
  { intros ts' e' rest' He Hl Hs'. apply reads_parse_not; [done..|]. eapply stops_weaken; [exact Hs'|lia]. }
  eapply reads_joined; [done|done|exact Hnext| |done|done]. clear Hs. remember n as n' eqn:Hn in Ha.
  induction Ha as [n' ts e He|n' ts e ts' e' He IH He']; subst; lengths; [by apply joined_one|].
  apply joined_snoc; try done; [apply IH; [done|lia]|lia].
Qed.

Lemma reads_parse_or ts e rest : or_test false n ts e → length ts ≤ F → stops 2 rest = true → reads (parse_or r) ts e rest.
Proof using All.
  intros Ha Hlen Hs.
  eapply (reads_joined _ _ _ (and_test false n) 2); [done|done|by apply reads_parse_and| |done|done]. clear Hs. remember n as n' eqn:Hn in Ha.
  induction Ha as [n' ts e He|n' ts e ts' e' He IH He']; subst; lengths; [by apply joined_one|].
  apply joined_snoc; try done; [apply reads_parse_and|apply IH; [done|lia]|lia].
Qed.

(** *** Lambda *)

Lemma reads_lambda_item b s ts s' x :
  lambda_item false b n s ts s' → length ts < F → follows b x = true → x = Token.Comma :: tail x ∨ x = Token.Colon :: tail x →
  reads (if token_is Token.StarStar (head (ts ++ x)) then lambda_kwargs s
         else if token_is Token.Star (head (ts ++ x)) then lambda_args s else lambda_param r s) ts s' x.
Proof using All.
  intros Hi Hlen Hb Hx. inversion Hi as [b' n' s1 name Hkw|b' n' s1 Hkw Hstar|b' n' s1 name Hkw Hstar|b' n' s1 name Hkw Hdef|b' n' s1 name ts' e Hkw He]; subst; lengths;
    known_tokens; unfold lambda_kwargs, lambda_args, lambda_param.
  - read_go.
  - rewrite Hstar. read_go. by destruct Hx as [->| ->]; known_tokens; apply reads_ret.
  - rewrite Hstar. read_go.
  - assert (Hassign : token_is Token.Assign (head x) = false) by (by destruct Hx as [->| ->]). read_go. rewrite Hassign.
    apply (reads_bind _ _ _ _ [] None); [|apply reads_ret].
    assert (lp_seen_default s && negb (lp_seen_star s) = false) as -> by (destruct Hdef as [-> | ->]; [done|by rewrite andb_false_r]).
    apply reads_ret.
  - read_go. apply (reads_bind_last _ _ _ _ _ (Some e)); [|apply reads_ret]. read_go.
    reads_by ltac:(apply (Hexpr b); [done|lia|by destruct Hx as [->| ->]|done]). apply reads_ret.
Qed.

Lemma lambda_item_colon b s ts s' x : lambda_item false b n s ts s' → token_is Token.Colon (head (ts ++ x)) = false.
Proof using All. intros Hi. by inversion Hi. Qed.
Lemma lambda_items_colon s ts s' x : lambda_items false n s ts s' → token_is Token.Colon (head (ts ++ x)) = false.
Proof using All. intros Hi. inversion Hi; subst; flat; by eapply lambda_item_colon. Qed.

Lemma lambda_item_kwargs_first b s ts s' : lambda_item false b n s ts s' → lp_seen_kwargs s = false.
Proof using All. intros Hi. by inversion Hi. Qed.

Definition lambda_body (s : LambdaParams) : parser (LambdaParams * bool) :=
  if lp_seen_kwargs s then parse_err "parameter after **kwargs"
  else
    double_star ← is_at Token.StarStar;
    star ← is_at Token.Star;
    s ← (if (double_star : bool) then lambda_kwargs s else if (star : bool) then lambda_args s else lambda_param r s);
    ends ← lambda_colon s;
    if (ends : bool) then mret (s, false)
    else _ ← expect Token.Comma; ends ← lambda_colon s; mret (s, negb ends).

Lemma reads_lambda_colon {A} s (f : bool → parser A) ts a rest :
  token_is Token.Colon (head (ts ++ rest)) = false ∨ lp_bare_star_needs_kwonly s = false →
  reads (f (token_is Token.Colon (head (ts ++ rest)))) ts a rest → reads (lambda_colon s ≫= f) ts a rest.
Proof using All.
  intros Hs Hf. apply (reads_bind _ _ _ _ [] (token_is Token.Colon (head (ts ++ rest)))); [|done]. unfold lambda_colon. read_step.
  cbn [app]. destruct Hs as [Hs|Hs]; rewrite Hs; [apply reads_ret|]. rewrite andb_false_r. apply reads_ret.
Qed.

(** A parameter that the body of the loop reads. *)
Lemma reads_lambda_body b s ts s' ts' more x :
  lambda_item false b n s ts s' → length ts < F → follows b (ts' ++ x) = true → ts' ++ x = Token.Comma :: tail (ts' ++ x) ∨ ts' ++ x = Token.Colon :: tail (ts' ++ x) →
  reads (ends ← lambda_colon s'; if (ends : bool) then mret (s', false)
         else _ ← expect Token.Comma; ends ← lambda_colon s'; mret (s', negb ends)) ts' (s', more) x →
  reads (lambda_body s) (ts ++ ts') (s', more) x.
Proof using All.
  intros Hi Hlen Hb Hx Hrest. unfold lambda_body. rewrite (lambda_item_kwargs_first _ _ _ _ Hi). do 2 read_step. flat.
  apply (reads_bind _ _ _ _ _ s'); [by eapply reads_lambda_item|exact Hrest].
Qed.

Lemma reads_lambda_items s ts s' rest :
  lambda_items false n s ts s' → length ts < F → reads (lambda_params r s) ts s' (Token.Colon :: rest).
Proof using All.
  intros Hts Hlen. assert (Hf : length ts < p_fuel r) by lia. change (lambda_params r s) with (repeat_while (p_fuel r) lambda_body s).
  revert Hf. generalize (p_fuel r). intros fuel Hf. revert fuel Hf. remember n as n' eqn:Hn in Hts.
  induction Hts as [n' s ts s' Hi Hbare|n' s ts s' Hi Hbare|n' s ts s' ts' s'' Hi Hts IH]; subst; intros fuel Hf; lengths.
  - apply reads_stop; [lia|]. rewrite <- (app_nil_r ts). eapply reads_lambda_body; [exact Hi|lia|done|by right|].
    apply reads_lambda_colon; [by right|]. known_tokens. apply reads_ret.
  - apply reads_stop; [lia|]. eapply reads_lambda_body; [exact Hi|lia|done|by left|].
    apply reads_lambda_colon; [by left|]. known_tokens. read_go. apply reads_lambda_colon; [by right|]. known_tokens. apply reads_ret.
  - destruct fuel as [|fuel]; [lia|]. change (Token.Comma :: ts') with ([Token.Comma] ++ ts'). rewrite app_assoc. eapply reads_more; [|apply IH; [done|lia|lia]].
    eapply reads_lambda_body; [exact Hi|lia|done|by left|]. apply reads_lambda_colon; [by left|]. known_tokens. read_go.
    assert (Hcolon := lambda_items_colon _ _ _ (Token.Colon :: rest) Hts).
    apply reads_lambda_colon; [by left|]. cbn [app]. rewrite Hcolon. apply reads_ret.
Qed.

Lemma reads_parse_lambda b ts params ts' e rest :
  lambda_list false n ts params → expr false b n ts' e → length (ts ++ ts') < F → stops 1 rest = true → follows b rest = true →
  reads (parse_lambda r) (Token.Lambda :: ts ++ Token.Colon :: ts') (Ast.Lambda params e) rest.
Proof using All.
  intros Hp He Hlen Hs Hb. lengths. unfold parse_lambda. read_step. read_step. flat.
  apply (reads_bind _ _ _ _ _ params).
  - inversion Hp as [n'|n' ts1 s Hi Hcheck]; subst; [known_tokens; apply reads_ret|]. rewrite (lambda_items_colon _ _ _ _ Hi).
    unfold parse_lambda_params. reads_by ltac:(apply reads_lambda_items; [exact Hi|lia]).
    apply (reads_bind_last _ _ _ _ [] tt); [|apply reads_ret]. intros pre. rewrite app_nil_r. unfold pure. by rewrite Hcheck.
  - read_step. reads_by ltac:(apply (Hexpr b); [done|lia|done|done]). apply reads_ret.
Qed.

(** *** Expressions *)

Lemma reads_inner b ts e rest :
  inner false b n ts e → length ts ≤ F → stops 1 rest = true → follows b rest = true → reads (parse_expr_inner r) ts e rest.
Proof using All.
  intros Hi Hlen Hs Hb. unfold parse_expr_inner. do 2 read_step.
  assert (Hor' : ∀ ts e x, or_test false n ts e → token_is Token.Yield (head (ts ++ x)) = false ∧ token_is Token.Lambda (head (ts ++ x)) = false).
  { intros ts' e' x Ho. apply or_opening in Ho. by split; apply (opening_not 2); [|cbn; lia| |cbn; lia]. }
  inversion Hi as [b' n' ts1 e1 He|b' n' ts1 name span ts2 e1 Hname Hdebug He|b' n' ts1 e1 ts2 c ts3 e2 H1 Hc H2|b' n' ts1 params ts2 e1 Hp He
    |b' n' ts1 e1 He|n'|b' n' ts1 e1 Hne He Hstar]; subst; lengths; flat.
  - destruct (Hor' _ _ rest He) as [-> ->]. reads_by ltac:(apply reads_parse_or; [done|lia|stop]). do 2 read_step. cbn [app].
    do 2 rewrite (stops_not 1) by first [done|cbn; lia]. apply reads_ret.
  - destruct (Hor' _ _ (Token.Walrus :: ts2 ++ rest) Hname) as [-> ->]. reads_by ltac:(apply reads_parse_or; [done|lia|done]). read_go.
    unfold parse_walrus. rewrite bool_decide_eq_false_2 by done. read_go.
    reads_by ltac:(apply (Hexpr b); [done|lia|done|done]). apply reads_ret.
  - destruct (Hor' _ _ (Token.If :: ts2 ++ Token.Else :: ts3 ++ rest) H1) as [-> ->].
    reads_by ltac:(apply reads_parse_or; [done|lia|done]). read_go. unfold parse_ternary. read_go.
    reads_by ltac:(apply Hor; [done|lia|done]). read_go.
    reads_by ltac:(apply (Hexpr b); [done|lia|done|done]). apply reads_ret.
  - known_tokens. apply (reads_parse_lambda b); try done. lengths. lia.
  - known_tokens. unfold parse_yield. read_go. reads_by ltac:(apply (Hexpr b); [done|lia|done|done]). apply reads_ret.
  - known_tokens. unfold parse_yield. read_step. read_step. cbn [app].
    unfold follows in Hb. assert (token_is Token.From_ (head rest) = false) as -> by (destruct rest as [|t rest]; [done|by destruct t]).
    read_step. cbn [app]. rewrite Hb. apply reads_ret.
  - known_tokens. unfold parse_yield. read_step. read_step.
    assert (Hfirst : token_is Token.From_ (head (ts1 ++ rest)) = false ∧ stmt_end (ts1 ++ rest) = false).
    { inversion He as [b' n' ts2 e2 Hit|b' n' ts2 e2 ts3 es Hit Hc Hne']; subst; flat; (split; [by eapply item_not|by eapply item_stmt_end]). }
    destruct Hfirst as [-> Hend]. read_step. rewrite Hend. cbv beta iota.
    reads_by ltac:(apply (reads_expr_or_tuple b); [done|lia|done|done|by eapply follows_comma]).
    rewrite match_starred by done. apply reads_ret.
Qed.
End complete.

(** ** The parser *)

Section whole.
  Context {B : Type} `{BigIntText B, Unicode, TokenDebug} (int_limit : Z) (lines : list Z).
  Abbreviation parsers := (parsers (B := B) int_limit).

(** What the functions of the grammar read with less tokens than their fuel. *)
Definition complete_within (F : nat) (r : Parsers) : Prop := ∀ d n, d + n ≤ MAX_EXPR_DEPTH →
  (∀ b ts e rest, expr false b n ts e → length ts < F → stops 1 rest = true → follows b rest = true → reads lines d (p_expr r) ts e rest) ∧
  (∀ ts e rest, or_test false n ts e → length ts < F → stops 2 rest = true → reads lines d (p_or r) ts e rest) ∧
  (∀ ts e rest, not_test false n ts e → length ts < F → stops 5 rest = true → reads lines d (p_not r) ts e rest) ∧
  (∀ ts e rest, unary false n ts e → length ts < F → stops 12 rest = true → reads lines d (p_unary r) ts e rest) ∧
  (∀ ts t rest, target ts t → length ts < F → token_is Token.RParen (head rest) = true → reads lines d (p_for_target r) ts t rest).

Lemma reads_parse_expr F r d b n ts e rest :
  F < p_fuel r → complete_within F r → d + n ≤ MAX_EXPR_DEPTH →
  expr false b n ts e → length ts ≤ F → stops 1 rest = true → follows b rest = true → reads lines d (parse_expr r) ts e rest.
Proof using Type.
  intros HF Hr Hn He Hlen Hs Hb pre. inversion He as [b' n' ts' e' Hi]; subst. destruct (Hr (d + 1) n' ltac:(lia)) as (Hr1 & Hr2 & Hr3 & Hr4 & Hr5).
  unfold parse_expr. cbn [ps_expr_depth place with_expr_depth]. rewrite (proj2 (Nat.ltb_ge _ _)) by lia.
  change (with_expr_depth (d + 1) (place lines d pre (ts ++ rest))) with (place lines (d + 1) pre (ts ++ rest)).
  rewrite (reads_inner lines r F (d + 1) n' HF Hr1 Hr2 Hr3 Hr4 Hr5 b ts e rest Hi Hlen Hs Hb). unfold with_expr_depth, place. cbn.
  by rewrite Nat.add_sub.
Qed.

Lemma complete_parsers F : complete_within F (parsers F).
Proof using Type.
  induction F as [|F IH]; intros d n Hn; [split_and!; intros; lia|]. cbn [parsers p_expr p_or p_not p_unary p_for_target].
  assert (HF : F < p_fuel (parsers F)) by (destruct F; cbn; lia). destruct (IH d n Hn) as (Hr1 & Hr2 & Hr3 & Hr4 & Hr5).
  split_and!; intros.
  - eapply (reads_parse_expr F); try done. lia.
  - eapply (reads_parse_or lines (parsers F) F d n); try done. lia.
  - eapply (reads_parse_not lines (parsers F) F d n); try done. lia.
  - eapply (reads_parse_unary lines (parsers F) F d n); try done. lia.
  - eapply (reads_for_target lines (parsers F) F d n); try done; [lia|]. unfold target_end. match goal with Hx : _ = true |- _ => by rewrite Hx, orb_true_r end.
Qed.
End whole.
