(* ===== verification/ParserSound.v ===== *)
(** What the parser reads is a sentence of the grammar: the tokens it moves over
    are those of the tree that it returns. *)

From stdpp Require Import strings.
From S2P Require Import Outcome Prelude Double IntArith Bytecode Chars LexLiterals Lexer Combinatorics Parser Grammar ParserReads.

#[local] Open Scope nat_scope.

(** ** Tokens that are left *)

Definition unread (st : Parser) : list Token.Token := drop (ps_pos st) (ps_tokens st).

Definition is_fstring (t : Token.Token) : bool := match t with Token.FString _ => true | _ => false end.
Definition fstring_free (u : list Token.Token) : Prop := Forall (λ t, is_fstring t = false) u.

(** What the tokens [u] let be said of an expression before them. *)
Definition following (u : list Token.Token) : Following :=
  if stmt_end u then StatementEnd else if token_is Token.Comma (head u) then AnyToken else NotComma.

Lemma following_any u : token_is Token.Comma (head u) = true → following u = AnyToken.
Proof. destruct u as [|t u]; [done|]. by destruct t. Qed.

Lemma following_not_any u : token_is Token.Comma (head u) = false → following u ≠ AnyToken.
Proof. unfold following. intros ->. by destruct (stmt_end u). Qed.

Lemma follows_following u : follows (following u) u = true.
Proof.
  unfold following. destruct (stmt_end u) eqn:Hs; [done|]. destruct (token_is Token.Comma (head u)) eqn:Hc; [done|]. cbn. by rewrite Hc.
Qed.

(** The tokens without a payload, by their kinds. *)
Definition plain_tokens : list Token.Token :=
  [Token.Plus; Token.Minus; Token.Star; Token.StarStar; Token.Slash; Token.SlashSlash; Token.Percent; Token.At;
   Token.PlusAssign; Token.MinusAssign; Token.StarAssign; Token.StarStarAssign; Token.SlashAssign; Token.SlashSlashAssign;
   Token.PercentAssign; Token.AtAssign; Token.AmpersandAssign; Token.PipeAssign; Token.CaretAssign; Token.LShiftAssign; Token.RShiftAssign;
   Token.Ampersand; Token.Pipe; Token.Caret; Token.Tilde; Token.LShift; Token.RShift;
   Token.LParen; Token.RParen; Token.LBracket; Token.RBracket; Token.LBrace; Token.RBrace;
   Token.Comma; Token.Colon; Token.Walrus; Token.Semicolon; Token.Dot; Token.Ellipsis; Token.Arrow;
   Token.Assign; Token.Eq; Token.Ne; Token.Lt; Token.Le; Token.Gt; Token.Ge;
   Token.And; Token.Or; Token.Not; Token.If; Token.Elif; Token.Else; Token.While; Token.For; Token.In; Token.Def; Token.Class_;
   Token.With; Token.Try; Token.Except; Token.Finally; Token.Raise; Token.As; Token.Import_; Token.From_; Token.Global; Token.Nonlocal;
   Token.Return; Token.Yield; Token.Break; Token.Continue; Token.Pass; Token.Del; Token.Assert; Token.Lambda; Token.Is;
   Token.True; Token.False; Token.None; Token.Newline; Token.Indent; Token.Dedent; Token.Eof].

Lemma plain_token t : 8 ≤ token_kind t → plain_tokens !! (token_kind t - 8) = Some t.
Proof. destruct t; cbn; intros; first [done|lia]. Qed.

Lemma token_is_plain token u : token_is token (head u) = true → 8 ≤ token_kind token → ∃ u', u = token :: u'.
Proof.
  destruct u as [|t u]; [done|]. cbn. intros Hk%Nat.eqb_eq Hp. exists u. f_equal.
  pose proof (plain_token t ltac:(lia)) as Ht. rewrite Hk in Ht. pose proof (plain_token token Hp). congruence.
Qed.

Lemma ident_is_head name u : ident_is name (head u) = true → ∃ u', u = Token.Ident (chars_of name) :: u'.
Proof. destruct u as [|t u]; [done|]. destruct t; try done. cbn. intros ->%bool_decide_eq_true. eauto. Qed.

(** ** What a parser makes of its tokens *)

Section makes.
  Context (spans : bool) (d : nat).

(** At depth [d], without f-strings, and without columns unless [spans]. *)
Definition proper (st : Parser) : Prop :=
  ps_expr_depth st = d ∧ (spans = false → ps_cols st = []) ∧ fstring_free (unread st).

(** Where the tokens [u] are left, what [m] returns and the tokens that it
    leaves are as [Q] says, and it changes nothing but the position. *)
Definition makes {A} (u : list Token.Token) (m : parser A) (Q : A → list Token.Token → Prop) : Prop :=
  ∀ st, proper st → unread st = u →
  match m st with
  | (Return a, st') => ∃ k, st' = with_pos (ps_pos st + k) st ∧ k ≤ length u ∧ Q a (drop k u)
  | _ => True
  end.

(** [m] returns the trees of [P], before what follows them, with their tokens. *)
Definition returns {A} (m : parser A) (P : Following → list Token.Token → A → Prop) : Prop :=
  ∀ u, makes u m (λ a u', ∃ ts, u = ts ++ u' ∧ P (following u') ts a).

Lemma proper_with_pos st k : proper st → proper (with_pos (ps_pos st + k) st).
Proof.
  intros (Hd & Hs & Hf). split; [done|]. split; [done|]. unfold unread. cbn. unfold fstring_free, unread in Hf.
  rewrite <- drop_drop. by apply Forall_drop.
Qed.

Lemma unread_with_pos st k : unread (with_pos (ps_pos st + k) st) = drop k (unread st).
Proof. unfold unread. cbn. by rewrite drop_drop. Qed.

Lemma with_pos_twice st k k' : with_pos (ps_pos (with_pos (ps_pos st + k) st) + k') (with_pos (ps_pos st + k) st) = with_pos (ps_pos st + (k + k')) st.
Proof. cbn. by rewrite Nat.add_assoc. Qed.

Lemma makes_weaken {A} u (m : parser A) (Q Q' : A → list Token.Token → Prop) :
  makes u m Q → (∀ a u', Q a u' → Q' a u') → makes u m Q'.
Proof.
  intros Hm HQ st Hst Hu. specialize (Hm st Hst Hu). destruct (m st) as [[a| | |] st']; try done.
  destruct Hm as (k & ? & ? & ?). eauto.
Qed.

Lemma makes_bind {A B} u (m : parser A) (f : A → parser B) (Q1 : A → list Token.Token → Prop) (Q : B → list Token.Token → Prop) :
  makes u m Q1 → (∀ a u', Q1 a u' → makes u' (f a) Q) → makes u (m ≫= f) Q.
Proof.
  intros Hm Hf st Hst Hu. specialize (Hm st Hst Hu). unfold mbind, prog_bind. destruct (m st) as [[a| | |] st']; try done.
  destruct Hm as (k & -> & Hk & HQ). specialize (Hf a _ HQ _ (proper_with_pos st k Hst)). rewrite unread_with_pos, Hu in Hf. specialize (Hf eq_refl).
  destruct (f a _) as [[b| | |] st']; try done. destruct Hf as (k' & -> & Hk' & HQ'). exists (k + k'). rewrite length_drop in Hk'.
  rewrite with_pos_twice. split; [done|]. split; [lia|]. by rewrite <- drop_drop.
Qed.

Lemma makes_call {A B} u (m : parser A) (f : A → parser B) P (Q : B → list Token.Token → Prop) :
  returns m P → (∀ a ts u', u = ts ++ u' → P (following u') ts a → makes u' (f a) Q) → makes u (m ≫= f) Q.
Proof. intros Hm Hf. eapply makes_bind; [apply Hm|]. intros a u' (ts & Hu & HP). eauto. Qed.

Lemma makes_tail {A} u (m : parser A) P (Q : A → list Token.Token → Prop) :
  returns m P → (∀ a ts u', u = ts ++ u' → P (following u') ts a → Q a u') → makes u m Q.
Proof. intros Hm Hf. eapply makes_weaken; [apply Hm|]. intros a u' (ts & Hu & HP). eauto. Qed.

Lemma makes_ret {A} u (a : A) (Q : A → list Token.Token → Prop) : Q a u → makes u (mret a) Q.
Proof.
  intros HQ st Hst Hu. exists 0. split; [|split; [lia|done]]. rewrite Nat.add_0_r. by destruct st.
Qed.

Lemma makes_ret_bind {A B} u (a : A) (f : A → parser B) (Q : B → list Token.Token → Prop) : makes u (f a) Q → makes u (mret a ≫= f) Q.
Proof. intros Hf st. apply Hf. Qed.

Lemma makes_assoc {A B C} u (m : parser A) (g : A → parser B) (f : B → parser C) (Q : C → list Token.Token → Prop) :
  makes u (m ≫= λ a, g a ≫= f) Q → makes u ((m ≫= g) ≫= f) Q.
Proof. intros Hm st Hst Hu. specialize (Hm st Hst Hu). unfold mbind, prog_bind in *. by destruct (m st) as [[a| | |] st']. Qed.

(** Two tests before a choice of a parser. *)
Lemma makes_assoc_2 {A B C D} u (m1 : parser A) (m2 : parser B) (g : A → B → parser C) (f : C → parser D) (Q : D → list Token.Token → Prop) :
  makes u ((m1 ≫= λ a, m2 ≫= g a) ≫= f) Q → makes u (m1 ≫= λ a, m2 ≫= λ b, g a b ≫= f) Q.
Proof.
  intros Hm st Hst Hu. specialize (Hm st Hst Hu). unfold mbind, prog_bind in *. destruct (m1 st) as [[a| | |] st1]; try done.
  by destruct (m2 st1) as [[b| | |] st2].
Qed.

Lemma makes_err {A} u message (Q : A → list Token.Token → Prop) : makes u (parse_err message) Q.
Proof. by intros st ??. Qed.
Lemma makes_err_bind {A B} u message (f : A → parser B) (Q : B → list Token.Token → Prop) : makes u (parse_err message ≫= f) Q.
Proof. by intros st ??. Qed.

Lemma makes_pure {A B} u (m : outcome A) (f : A → parser B) (Q : B → list Token.Token → Prop) :
  (∀ a, m = Return a → makes u (f a) Q) → makes u (pure m ≫= f) Q.
Proof. intros Hf st. unfold mbind, prog_bind, pure. destruct m; [by apply Hf|done..]. Qed.

(** *** Looking at tokens *)

Lemma unread_head st : ps_tokens st !! ps_pos st = head (unread st).
Proof. unfold unread. rewrite head_lookup, lookup_drop. by rewrite Nat.add_0_r. Qed.

Lemma makes_current {A} u (f : option Token.Token → parser A) (Q : A → list Token.Token → Prop) :
  makes u (f (head u)) Q → makes u (current ≫= f) Q.
Proof. intros Hf st Hst Hu. unfold mbind, prog_bind, current. rewrite unread_head, Hu. by apply Hf. Qed.

Lemma makes_peek {A} u (f : option Token.Token → parser A) (Q : A → list Token.Token → Prop) :
  makes u (f (head (tail u))) Q → makes u (peek ≫= f) Q.
Proof.
  intros Hf st Hst Hu. unfold mbind, prog_bind, peek. replace (ps_tokens st !! (ps_pos st + 1)) with (head (tail u)); [by apply Hf|].
  rewrite <- Hu. unfold unread. rewrite head_lookup. rewrite <- (lookup_drop _ (ps_pos st)).
  destruct (drop (ps_pos st) (ps_tokens st)) as [|? [|? ?]]; done.
Qed.

(** A test for a token without a payload. *)
Lemma makes_is_at {A} u token (f : bool → parser A) (Q : A → list Token.Token → Prop) :
  8 ≤ token_kind token → (∀ u', u = token :: u' → makes u (f true) Q) → (token_is token (head u) = false → makes u (f false) Q) →
  makes u (is_at token ≫= f) Q.
Proof.
  intros Hp Ht Hf. apply (makes_current u (λ t, f (token_is token t))). destruct (token_is token (head u)) eqn:Hu; [|by apply Hf].
  apply token_is_plain in Hu as [u' Hu]; [|done]. by apply (Ht u').
Qed.

Lemma makes_bump {A} t u (f : unit → parser A) (Q : A → list Token.Token → Prop) : makes u (f tt) Q → makes (t :: u) (bump ≫= f) Q.
Proof.
  intros Hf. apply (makes_bind _ _ _ (λ _ u', u' = u)); [|by intros [] u' ->].
  intros st Hst Hu. exists 1. split; [done|]. split; [cbn; lia|done].
Qed.

Lemma makes_position {A B} u (m : parser A) (f : A → parser B) (Q : B → list Token.Token → Prop) :
  (∀ st, (m st).2 = st) → (∀ a, makes u (f a) Q) → makes u (m ≫= f) Q.
Proof.
  intros Hm Hf st Hst Hu. unfold mbind, prog_bind. specialize (Hm st). destruct (m st) as [[a| | |] st']; try done. cbn in Hm. subst. by apply Hf.
Qed.

Lemma makes_col {A} u (f : option Z → parser A) (Q : A → list Token.Token → Prop) :
  (∀ col : option Z, (spans = false → col = None) → makes u (f col) Q) → makes u (current_col ≫= f) Q.
Proof.
  intros Hf st Hst Hu. unfold mbind, prog_bind, current_col. apply Hf; [|done..]. destruct Hst as (_ & Hs & _). by intros ->%Hs.
Qed.

Lemma makes_binary_span {A} u left_start line op_col op_end (f : option CaretSpan → parser A) (Q : A → list Token.Token → Prop) :
  (spans = false → left_start = None) → (∀ span, allowed spans span → makes u (f span) Q) →
  makes u (make_binary_span left_start line op_col op_end ≫= f) Q.
Proof.
  intros Hl Hf st Hst Hu. unfold mbind, prog_bind, make_binary_span, mbind, prog_bind, prev_end_col, prev_lineno.
  cbn. apply Hf; [|done..]. intros Hs. by rewrite (Hl Hs).
Qed.

Lemma makes_unary_span {A} u op_start (f : option CaretSpan → parser A) (Q : A → list Token.Token → Prop) :
  (spans = false → op_start = None) → (∀ span, allowed spans span → makes u (f span) Q) → makes u (make_unary_span op_start ≫= f) Q.
Proof.
  intros Hl Hf st Hst Hu. unfold mbind, prog_bind, make_unary_span, mbind, prog_bind, prev_end_col.
  cbn. apply Hf; [|done..]. intros Hs. by rewrite (Hl Hs).
Qed.

Lemma whole_span_allowed start fin : (spans = false → start = None) → allowed spans (whole_span start fin).
Proof. intros Hs H. by rewrite (Hs H). Qed.

Lemma makes_at_stmt_end {A} u (f : bool → parser A) (Q : A → list Token.Token → Prop) :
  makes u (f (stmt_end u)) Q → makes u (at_stmt_end ≫= f) Q.
Proof.
  intros Hf. apply (makes_current u (λ t, f (match t with Some (Token.Newline | Token.Semicolon | Token.Dedent | Token.Eof) | None => true | _ => false end))).
  destruct u as [|t u]; [done|]. by destruct t.
Qed.

Lemma makes_is_async_for {A} u (f : bool → parser A) (Q : A → list Token.Token → Prop) :
  (∀ u', u = Token.Ident (chars_of "async") :: Token.For :: u' → makes u (f true) Q) →
  (ident_is "async" (head u) && token_is Token.For (head (tail u)) = false → makes u (f false) Q) →
  makes u (is_async_for ≫= f) Q.
Proof.
  intros Ht Hf. change (is_async_for ≫= f) with (current ≫= λ t, peek ≫= λ t', f (ident_is "async" t && token_is Token.For t')).
  apply makes_current, makes_peek. destruct (ident_is _ _ && _) eqn:Hu; [|by apply Hf]. apply andb_prop in Hu as [Ha Hfor].
  apply ident_is_head in Ha as [u1 ->]. apply token_is_plain in Hfor as [u2 Hu2]; [|cbn; lia]. cbn in Hu2. subst. by eapply Ht.
Qed.

Lemma makes_at_for {A} u (f : bool → parser A) (Q : A → list Token.Token → Prop) :
  makes u (f (for_follows u)) Q → makes u (at_for ≫= f) Q.
Proof.
  intros Hf. change (at_for ≫= f) with (is_at Token.For ≫= λ b, current ≫= λ t, peek ≫= λ t', f (b || ident_is "async" t && token_is Token.For t')).
  apply (makes_current u (λ t, current ≫= λ t1, peek ≫= λ t2, f (token_is Token.For t || ident_is "async" t1 && token_is Token.For t2))).
  apply makes_current, makes_peek, Hf.
Qed.

Lemma makes_fstring_free {A} u (m : parser A) (Q : A → list Token.Token → Prop) : (fstring_free u → makes u m Q) → makes u m Q.
Proof. intros Hm st Hst Hu. apply Hm; [|done..]. rewrite <- Hu. apply Hst. Qed.

(** A loop keeps [Inv] while it goes on. *)
Lemma makes_loop {A} fuel (body : A → parser (A * bool)) (Inv : A → list Token.Token → Prop) (Q : A → list Token.Token → Prop) acc u :
  (∀ acc u, Inv acc u → makes u (body acc) (λ r u', if r.2 then Inv r.1 u' else Q r.1 u')) → Inv acc u →
  makes u (repeat_while fuel body acc) Q.
Proof.
  intros Hbody. revert acc u. induction fuel as [|fuel IH]; intros acc u Hinv; [by intros st ??|]. cbn [repeat_while].
  eapply makes_bind; [by apply Hbody|]. intros [acc' more] u' Hr. destruct more; [by apply IH|]. by apply makes_ret.
Qed.

Section tokens.
  Context `{TokenDebug}.

Lemma makes_expect {A} u token (f : unit → parser A) (Q : A → list Token.Token → Prop) :
  8 ≤ token_kind token → (∀ u', u = token :: u' → makes u' (f tt) Q) → makes u (expect token ≫= f) Q.
Proof.
  intros Hp Hf. unfold expect. apply makes_assoc, makes_is_at; [done| |intros _].
  - intros u' ->. by apply makes_bump, Hf.
  - apply makes_assoc, makes_position; [done|]. intros eof. apply makes_assoc, makes_position; [by destruct eof|].
    intros [delimiter|]; [apply makes_err_bind|]. apply makes_assoc, makes_current, makes_err_bind.
Qed.

Lemma makes_expect_ident {A} u ctx (f : list Z → parser A) (Q : A → list Token.Token → Prop) :
  (∀ name u', u = Token.Ident name :: u' → makes u' (f name) Q) → makes u (expect_ident ctx ≫= f) Q.
Proof.
  intros Hf. unfold expect_ident. apply makes_assoc, makes_current. destruct u as [|t u]; [by apply makes_err_bind|].
  destruct t; cbn [head]; try apply makes_err_bind. apply makes_assoc, makes_bump, makes_ret_bind. by apply Hf.
Qed.
End tokens.
End makes.

(** One step of a parser that is made of known steps. *)
Ltac left_tokens :=
  let Hu := fresh "Hu" in intros Hu;
  try first [discriminate Hu|match type of Hu with ?u = _ => is_var u; subst u end|progress simplify_eq/=].
Ltac makes_step :=
  lazymatch goal with
  | |- makes _ _ _ ((_ ≫= _) ≫= _) _ => apply makes_assoc
  | |- makes _ _ _ (mret _ ≫= _) _ => apply makes_ret_bind
  | |- makes _ _ _ (parse_err _ ≫= _) _ => apply makes_err_bind
  | |- makes _ _ _ (pure _ ≫= _) _ => apply makes_pure; intros ? ?
  | |- makes _ _ _ (current ≫= _) _ => apply makes_current; cbn [head]
  | |- makes _ _ _ (peek ≫= _) _ => apply makes_peek; cbn [head tail]
  | |- makes _ _ _ (is_at _ ≫= _) _ => apply makes_is_at; [cbn; lia|intros ?; left_tokens; cbn [negb andb orb]|intros ?; cbn [negb andb orb]]
  | |- makes _ _ _ (expect _ ≫= _) _ => apply makes_expect; [cbn; lia|intros ?; left_tokens]
  | |- makes _ _ _ (expect_ident _ ≫= _) _ => apply makes_expect_ident; intros ? ?; left_tokens
  | |- makes _ _ _ (at_for ≫= _) _ => apply makes_at_for
  | |- makes _ _ _ (at_stmt_end ≫= _) _ => apply makes_at_stmt_end
  | |- makes _ _ (_ :: _) (bump ≫= _) _ => apply makes_bump
  | |- makes _ _ _ (current_col ≫= _) _ => apply makes_col; intros ? ?
  | |- makes _ _ _ (current_lineno ≫= _) _ => apply makes_position; [done|intros ?]
  | |- makes _ _ _ (prev_end_col ≫= _) _ => apply makes_position; [done|intros ?]
  | |- makes _ _ _ (end_col_at_pos ≫= _) _ => apply makes_position; [done|intros ?]
  | |- makes _ _ _ (make_binary_span _ _ _ _ ≫= _) _ => apply makes_binary_span; [done|intros ? ?]
  | |- makes _ _ _ (make_unary_span _ ≫= _) _ => apply makes_unary_span; [done|intros ? ?]
  | |- makes _ _ _ (mret _) _ => apply makes_ret
  | |- makes _ _ _ (parse_err _) _ => apply makes_err
  | |- makes _ _ _ ((match ?x with _ => _ end) ≫= _) _ => destruct x eqn:?
  | |- makes _ _ _ (match ?x with _ => _ end) _ => destruct x eqn:?
  | |- makes _ _ _ (_ ≫= _) _ => eapply makes_call; [solve [eauto with sound_db]|]; intros ? ? ?; left_tokens; intros ?; cbv beta in *
  | |- makes _ _ _ _ _ => eapply makes_tail; [solve [eauto with sound_db]|]; intros ? ? ?; left_tokens; intros ?; cbv beta in *
  end.
Ltac makes_go := repeat makes_step.

(** The tokens of a sentence, one after the other. *)
Ltac same_tokens := solve [repeat first [reflexivity|progress cbn [app]|rewrite <- app_assoc|rewrite app_nil_r]].
Ltac sentence_by tac := eexists; split; [|solve [tac]]; same_tokens.
Tactic Notation "sentence" uconstr(rule) := eexists; split; [|eapply rule; eauto]; same_tokens.

Section lists.
  Context {A : Type}.
  Implicit Types (P J : list Token.Token → A → Prop).

Lemma commas_weaken trailing P J ts l : commas false P J ts l → commas trailing P J ts l.
Proof. induction 1; [constructor|done|by constructor|by econstructor]. Qed.

Lemma commas_snoc trailing P J ts l ts' a :
  commas false P P ts l → J ts' a → commas trailing P J (ts ++ Token.Comma :: ts') (l ++ [a]).
Proof.
  intros Hc HJ. remember false as f. induction Hc as [|?|ts1 a1 Ha|ts1 a1 ts2 l Ha Hc IH Hne]; [by apply commas_last|congruence| |].
  - apply commas_more; [done|by apply commas_last|done].
  - cbn [app]. rewrite <- app_assoc. apply commas_more; [done|by apply IH|]. by destruct ts2.
Qed.

Lemma commas_end_comma P J ts l : commas false P P ts l → commas true P J (ts ++ [Token.Comma]) l.
Proof.
  intros Hc. remember false as f. induction Hc as [|?|ts1 a1 Ha|ts1 a1 ts2 l Ha Hc IH Hne]; [by apply commas_trailing|congruence| |].
  - apply (commas_more _ _ _ _ _ [Token.Comma] []); [done|by apply commas_trailing|done].
  - cbn [app]. rewrite <- app_assoc. apply commas_more; [done|by apply IH|]. by destruct ts2.
Qed.

Lemma commas_head trailing P J ts l x : commas trailing P J ts l → ts = [] ∨ token_is Token.Comma (head (ts ++ x)) = true.
Proof. destruct 1; auto. Qed.

(** What may be said of the item before the rest of a list. *)
Lemma following_commas trailing P J ts l close x :
  commas trailing P J ts l → close ∈ [Token.RParen; Token.RBracket; Token.RBrace] → following (ts ++ close :: x) = before ts.
Proof.
  intros Hc Hin. destruct ts as [|t ts].
  - by repeat (apply elem_of_cons in Hin as [->|Hin]; [done|]); apply elem_of_nil in Hin.
  - apply (commas_head _ _ _ _ _ (close :: x)) in Hc as [?|Hc]; [done|]. by rewrite following_any.
Qed.
End lists.

(** Sequences whose sentences begin with their first part, and are read from it. *)
Lemma filters_snoc spans n cond ts cond' ts' e :
  filters spans n cond ts cond' → or_test spans n ts' e → filters spans n cond (ts ++ Token.If :: ts') (join_filter cond' e).
Proof.
  intros Hf He. induction Hf as [n' cond|n' cond ts e1 ts1 cond' He1 Hf IH].
  - cbn [app]. rewrite <- (app_nil_r ts'). apply (filters_more _ _ _ _ e); [done|constructor].
  - cbn [app]. rewrite <- app_assoc. apply (filters_more _ _ _ _ e1); [done|]. by apply IH.
Qed.

Lemma clauses_snoc spans n ts cs ts' c : clauses spans n ts cs → clause spans n ts' c → clauses spans n (ts ++ ts') (cs ++ [c]).
Proof.
  intros Hcs Hc. induction Hcs as [n' ts c1 Hc1|n' ts c1 ts1 cs Hc1 Hcs IH].
  - apply clauses_more; [done|by constructor].
  - rewrite <- app_assoc. apply clauses_more; [done|by apply IH].
Qed.

Lemma comparisons_snoc spans n ts ops op ts' e :
  comparisons spans n ts ops → binary spans n 6 ts' e → comparisons spans n (ts ++ comparison_tokens op ++ ts') (ops ++ [(op, e)]).
Proof.
  intros Hc He. induction Hc as [n'|n' op1 ts1 e1 ts2 ops He1 Hc IH].
  - cbn [app]. rewrite <- (app_nil_r ts'). apply comparisons_more; [done|constructor].
  - rewrite <- !app_assoc. cbn [app]. apply comparisons_more; [done|]. by apply IH.
Qed.

Lemma head_app {A} (ts u : list A) t : head (ts ++ u) ≠ Some t → head ts ≠ Some t.
Proof. by destruct ts. Qed.

Lemma level_operator_none k : level_operator k None = None.
Proof. by do 6 (destruct k as [|k]; [done|]). Qed.

Create HintDb sound_db.

Lemma item_starred_head spans b n ts e x : item spans b n ts e → is_starred e = token_is Token.Star (head (ts ++ x)).
Proof.
  destruct 1 as [b n' ts e He|]; [|done]. rewrite (expr_not_starred _ _ _ _ _ He). symmetry.
  eapply opening_not; [by eapply expr_opening|cbn; lia].
Qed.

Lemma item_plain spans b n ts e : item spans b n ts e → is_starred e = false → expr spans b n ts e.
Proof. by destruct 1. Qed.

Lemma following_for u : for_follows u = true → following u = NotComma.
Proof.
  unfold for_follows. intros [Hu|[Hu _]%andb_prop]%orb_prop.
  - by apply token_is_plain in Hu as [u' ->]; [|cbn; lia].
  - by apply ident_is_head in Hu as [u' ->].
Qed.

Lemma makes_not_starred {A} spans d e message (m : parser A) u (Q : A → list Token.Token → Prop) :
  (is_starred e = false → makes spans d u m Q) → makes spans d u (match e with Ast.Starred _ => parse_err message | _ => m end) Q.
Proof. intros Hm. destruct e; first [apply makes_err|by apply Hm]. Qed.


Section sound.
  Context `{TokenDebug} (spans : bool) (r : Parsers) (d n : nat).
  Local Abbreviation makes := (makes spans d).
  Local Abbreviation returns := (returns spans d).
  Context (Hexpr : returns (p_expr r) (λ b, expr spans b n)) (Hor : returns (p_or r) (λ _, or_test spans n))
    (Hnot : returns (p_not r) (λ _, not_test spans n)) (Hunary : returns (p_unary r) (λ _, unary spans n))
    (Htarget : returns (p_for_target r) (λ _, target)).
  #[local] Hint Resolve Hexpr Hor Hnot Hunary Htarget : sound_db.

Lemma sound_seq_item : returns (parse_seq_item r) (λ b, item spans b n).
Proof using All.
  intros u. unfold parse_seq_item. makes_go.
  - sentence item_star.
  - sentence item_expr.
Qed.
#[local] Hint Resolve sound_seq_item : sound_db.

Lemma sound_comma_items {A} (closes : parser bool) (c : list Token.Token → bool) trailing (item : parser A) P acc u :
  (∀ B (f : bool → parser B) u Q, makes u (f (c u)) Q → makes u (closes ≫= f) Q) →
  (∀ u, c u = true → trailing (following u) = true ∧ token_is Token.Comma (head u) = false) → returns item P →
  makes u (comma_items r closes item acc)
    (λ l u', ∃ ts l', u = ts ++ u' ∧ l = acc ++ l' ∧ commas (trailing (following u')) (P AnyToken) (P (following u')) ts l' ∧
      token_is Token.Comma (head u') = false).
Proof using All.
  intros Hcl Htr Hitem. unfold comma_items.
  apply (makes_loop _ _ _ _ (λ l u', ∃ ts l', u = ts ++ u' ∧ l = acc ++ l' ∧ commas false (P AnyToken) (P (following u')) ts l')).
  - intros l u1 (ts & l' & -> & -> & Hc). makes_step.
    + rewrite following_any in Hc by done. makes_step. apply Hcl. destruct (c u') eqn:Hend; makes_step; cbn.
      * destruct (Htr _ Hend) as [-> Hn]. exists (ts ++ [Token.Comma]), l'. split_and!; [same_tokens|done|by apply commas_end_comma|done].
      * makes_step. cbn. eexists (ts ++ Token.Comma :: _), (l' ++ [_]). split; [same_tokens|]. split; [same_tokens|].
        by apply commas_snoc.
    + makes_step. cbn. exists ts, l'. split_and!; [done..|by apply commas_weaken|done].
  - exists [], []. rewrite app_nil_r. split_and!; [done..|constructor].
Qed.

Lemma sound_closed_items {A} close (item : parser A) P acc u :
  close ∈ [Token.RParen; Token.RBracket; Token.RBrace] → returns item P →
  makes u (comma_items r (is_at close) item acc)
    (λ l u', ∃ ts l', u = ts ++ u' ∧ l = acc ++ l' ∧ commas true (P AnyToken) (P (following u')) ts l' ∧ token_is Token.Comma (head u') = false).
Proof using All.
  intros Hclose Hitem. apply (sound_comma_items (is_at close) (λ u, token_is close (head u)) (λ _, true) item P); [|intros u' Hu|done].
  - intros B f u1 Q Hf. by apply (makes_current spans d u1 (λ t, f (token_is close t))).
  - split; [done|]. destruct u' as [|t u']; [done|].
    by repeat (apply elem_of_cons in Hclose as [->|Hclose]; [by destruct t|]); apply elem_of_nil in Hclose.
Qed.

Lemma makes_items {A B} close (item : parser A) P first (g : list A → parser B) u Q :
  close ∈ [Token.RParen; Token.RBracket; Token.RBrace] → returns item P →
  (∀ ts l u', u = ts ++ u' → commas true (P AnyToken) (P (following u')) ts l → makes u' (g (first :: l)) Q) →
  makes u (comma_items r (is_at close) item [first] ≫= g) Q.
Proof using All.
  intros Hclose Hitem Hg. eapply makes_bind; [by apply (sound_closed_items close item P)|]. intros l u' (ts & l' & -> & -> & Hc & _). by eapply Hg.
Qed.

Lemma makes_more_items {A B} close (item : parser A) P first (g : list A → parser B) u Q :
  close ∈ [Token.RParen; Token.RBracket; Token.RBrace] → returns item P →
  (∀ ts l u', u = ts ++ u' → commas true (P AnyToken) (P (following u')) (Token.Comma :: ts) l → makes u' (g (first :: l)) Q) →
  makes (Token.Comma :: u) (comma_items r (is_at close) item [first] ≫= g) Q.
Proof using All.
  intros Hclose Hitem Hg. eapply makes_bind; [by apply (sound_closed_items close item P)|]. intros l u' (ts & l' & Hu & -> & Hc & Hn).
  destruct ts as [|t ts]; [by cbn in Hu; subst u'|]. injection Hu as <- ->. by eapply Hg.
Qed.

Lemma sound_expr_or_tuple : returns (parse_expr_or_tuple r) (λ b ts e, b ≠ AnyToken ∧ expr_or_tuple spans b n ts e).
Proof using All.
  intros u. unfold parse_expr_or_tuple. do 2 makes_step.
  2: makes_step.
  2: { eexists. split; [reflexivity|]. split; [by apply following_not_any|by apply expr_or_tuple_item]. }
  eapply makes_bind; [apply (sound_comma_items at_stmt_end stmt_end at_statement_end (parse_seq_item r) (λ b, item spans b n))|].
  - intros B f u1 Q Hf. by apply makes_at_stmt_end.
  - intros u1 Hu. unfold following. rewrite Hu. destruct u1 as [|t u1]; [done|]. by destruct t.
  - apply sound_seq_item.
  - intros l u1 (ts' & l' & Hu & -> & Hc & Hn). makes_step. rewrite Hu. eexists. split; [apply app_assoc|]. split; [by apply following_not_any|].
    apply expr_or_tuple_tuple; [done|done|]. by intros ->; cbn in Hu; subst u1.
Qed.
#[local] Hint Resolve sound_expr_or_tuple : sound_db.

(** *** Targets and comprehensions *)

Lemma sound_target_item : returns (parse_for_target_item r) (λ _, target_item).
Proof using All.
  intros u. unfold parse_for_target_item. makes_go.
  - sentence target_star.
  - sentence target_empty.
  - sentence target_paren.
  - sentence target_name.
Qed.
#[local] Hint Resolve sound_target_item : sound_db.

Local Abbreviation stars items := (length (filter (λ i, snd i = true) items)).

Lemma stars_snoc (items : list (Ast.AssignTarget * bool)) i : stars (items ++ [i]) = stars items + (if i.2 then 1 else 0).
Proof using Type. rewrite filter_app, length_app. f_equal. destruct i as [t []]; done. Qed.

Lemma sound_target_items first u :
  makes u (for_target_items r ([starred_target first], if first.2 then 1 else 0))
    (λ p u', ∃ ts items, u = ts ++ u' ∧ p.1 = map starred_target (first :: items) ∧ commas true target_item target_item ts items ∧
      stars (first :: items) ≤ 1 ∧ token_is Token.Comma (head u') = false).
Proof using All.
  unfold for_target_items.
  apply (makes_loop _ _ _ _ (λ p u', ∃ ts items, u = ts ++ u' ∧ p.1 = map starred_target (first :: items) ∧
    commas false target_item target_item ts items ∧ p.2 = stars (first :: items) ∧ p.2 ≤ 1)).
  - intros [items k] u1 (ts & its & Hu & Hi & Hc & Hk & Hle). cbn [fst snd] in *. subst u items k. makes_step.
    + makes_step. do 2 makes_step; cbn [orb]; [makes_step..|]; cbn [fst snd].
      all: try (exists (ts ++ [Token.Comma]), its; split_and!; [same_tokens|done|by apply commas_end_comma|done|done]).
      makes_step. destruct a as [t []]; cbn [fst snd]; makes_go; cbn [fst snd].
      * match goal with Hlt : (1 <? _) = false |- _ => apply Nat.ltb_ge in Hlt end.
        eexists (ts ++ Token.Comma :: _), (its ++ [(t, true)]). split_and!; [same_tokens|by rewrite app_comm_cons, map_app|by apply commas_snoc| |done].
        by rewrite app_comm_cons, stars_snoc.
      * eexists (ts ++ Token.Comma :: _), (its ++ [(t, false)]). split_and!; [same_tokens|by rewrite app_comm_cons, map_app|by apply commas_snoc| |done].
        by rewrite app_comm_cons, stars_snoc, Nat.add_0_r.
    + makes_step. cbn [fst snd]. exists ts, its. split_and!; try done. by apply commas_weaken.
  - exists [], []. cbn [fst snd]. split_and!; try done; [constructor|by destruct first as [t []]|destruct first as [t []]; cbn; lia].
Qed.

Lemma sound_for_target : returns (parse_for_target r) (λ _, target).
Proof using All.
  intros u. unfold parse_for_target. do 2 makes_step.
  - eapply makes_bind; [apply sound_target_items|]. intros [items k] u1 (ts' & its & Hu & Hi & Hc & Hs & Hn). cbn [fst snd] in *. subst items.
    makes_step. rewrite Hu. eexists. split; [apply app_assoc|]. apply target_tuple; [done|done| |done]. by intros ->; cbn in Hu; subst u1.
  - destruct a as [t []]; cbn [fst snd]; makes_go. sentence target_one.
Qed.
#[local] Hint Resolve sound_for_target : sound_db.

Lemma sound_comp_filters cond : returns (comp_filters r cond) (λ _ ts cond', filters spans n cond ts cond').
Proof using All.
  intros u. unfold comp_filters. apply (makes_loop _ _ _ _ (λ cond' u', ∃ ts, u = ts ++ u' ∧ filters spans n cond ts cond')).
  - intros cond' u1 (ts & -> & Hf). makes_go; cbn.
    + eexists (ts ++ Token.If :: _). split; [same_tokens|]. by apply (filters_snoc _ _ _ _ cond').
    + by exists ts.
  - exists []. split; [done|constructor].
Qed.
#[local] Hint Resolve sound_comp_filters : sound_db.

Lemma sound_comp_clauses u :
  for_follows u = true → makes u (parse_comp_clauses r) (λ cs u', ∃ ts, u = ts ++ u' ∧ clauses spans n ts cs).
Proof using All.
  intros Hfor. unfold parse_comp_clauses.
  apply (makes_loop _ _ _ _ (λ cs u', (cs = [] ∧ u' = u) ∨ ∃ ts, u = ts ++ u' ∧ clauses spans n ts cs)); [|by left].
  intros cs u1 Hinv. makes_step. destruct (for_follows u1) eqn:Hu1; cbn [negb].
  2: { makes_step. cbn. destruct Hinv as [[-> ->]|?]; [congruence|done]. }
  assert (Hmore : ∀ (is_async : bool) u2, u1 = for_tokens is_async ++ u2 →
    makes u2 (target ← parse_for_target r; _ ← expect Token.In; iter ← p_or r; cond ← comp_filters r None;
      mret (cs ++ [Ast.Clause target iter cond is_async], true))
      (λ p u', if p.2 then (p.1 = [] ∧ u' = u) ∨ ∃ ts, u = ts ++ u' ∧ clauses spans n ts p.1 else ∃ ts, u = ts ++ u' ∧ clauses spans n ts p.1)).
  { intros is_async u2 ->. makes_go. cbn. right. destruct Hinv as [[-> Hu]|(ts' & -> & Hcs)].
    - rewrite <- Hu. eexists. split; [|apply clauses_one, clause_for; eauto]. same_tokens.
    - eexists. split; [|apply clauses_snoc; [eauto|apply clause_for; eauto]]. same_tokens. }
  apply makes_is_async_for.
  - intros u2 ->. do 2 makes_step. by apply (Hmore true).
  - intros Hn. unfold for_follows in Hu1. rewrite Hn, orb_false_r in Hu1. apply token_is_plain in Hu1 as [u2 ->]; [|cbn; lia].
    do 2 makes_step. by apply (Hmore false).
Qed.

Lemma makes_comprehension make close u (Q : Ast.Expr → list Token.Token → Prop) :
  8 ≤ token_kind close → for_follows u = true → (∀ ts cs u', u = ts ++ close :: u' → clauses spans n ts cs → Q (make cs) u') →
  makes u (comprehension r make close) Q.
Proof using All.
  intros Hk Hfor HQ. unfold comprehension. eapply makes_bind; [by apply sound_comp_clauses|]. intros cs u1 (ts & -> & Hcs).
  apply makes_expect; [done|]. intros u2 ->. apply makes_ret. by eapply HQ.
Qed.

(** *** Displays *)

Ltac items_step :=
  first
    [ eapply makes_more_items; [set_solver|eauto with sound_db|]
    | eapply makes_items; [set_solver|eauto with sound_db|] ]; intros ? ? ?; left_tokens; intros ?; cbv beta in *.
Ltac commas_before :=
  match goal with
  | Hc : commas _ _ _ ?ts _, Hi : context [following (?ts ++ ?close :: ?x)] |- _ =>
      rewrite (following_commas _ _ _ _ _ close x Hc) in Hi by set_solver
  end.
Ltac display_go := repeat first [makes_step|items_step].

Lemma sound_list_literal : returns (parse_list_literal r) (λ _, primary spans n).
Proof using All.
  intros u. unfold parse_list_literal. do 2 makes_step.
  { makes_go. sentence primary_list_empty. }
  do 2 makes_step. destruct (for_follows u'0) eqn:Hfor.
  - rewrite following_for in * by done. apply makes_not_starred. intros Ha. apply makes_comprehension; [cbn; lia|done|].
    intros ts' cs u2 -> Hcs. match goal with Hi : item _ _ _ _ _ |- _ => apply item_plain in Hi; [|done] end. sentence primary_list_comp.
  - display_go. commas_before. sentence primary_list.
Qed.

Lemma sound_dict_item : returns (parse_dict_item r) (λ b, dict_item spans b n).
Proof using All.
  intros u. unfold parse_dict_item. makes_go.
  - sentence dict_splat.
  - sentence dict_pair.
Qed.
#[local] Hint Resolve sound_dict_item : sound_db.

Lemma makes_rest_of_dict i u Q :
  (∀ ts l u', u = ts ++ Token.RBrace :: u' → commas true (dict_item spans AnyToken n) (dict_item spans NotComma n) ts l → Q (Ast.Dict (i :: l)) u') →
  makes u (rest_of_dict r i) Q.
Proof using All. intros HQ. unfold rest_of_dict. display_go. by eapply HQ. Qed.

Lemma makes_rest_of_set e u Q :
  (∀ ts l u', u = ts ++ Token.RBrace :: u' → commas true (item spans AnyToken n) (item spans NotComma n) ts l → Q (Ast.Set_ (e :: l)) u') →
  makes u (rest_of_set r e) Q.
Proof using All. intros HQ. unfold rest_of_set. display_go. by eapply HQ. Qed.

Ltac rest_step :=
  lazymatch goal with
  | |- makes _ (rest_of_dict _ _) _ => apply makes_rest_of_dict; intros ? ? ? ? ?; subst; try commas_before
  | |- makes _ (rest_of_set _ _) _ => apply makes_rest_of_set; intros ? ? ? ? ?; subst; try commas_before
  | Hfor : for_follows _ = true |- makes _ (comprehension _ _ _) _ =>
      rewrite (following_for _ Hfor) in *; apply makes_comprehension; [cbn; lia|done|intros ? ? ? -> ?]
  | _ => makes_step
  end.

Lemma sound_dict_or_set : returns (parse_dict_or_set_literal r) (λ _, primary spans n).
Proof using All.
  intros u. unfold parse_dict_or_set_literal. repeat rest_step.
  - sentence primary_dict_empty.
  - sentence_by ltac:(eapply primary_dict; [by apply dict_splat|done]).
  - sentence_by ltac:(eapply primary_set; [by apply item_star|done]).
  - sentence primary_dict_comp.
  - sentence_by ltac:(eapply primary_dict; [by apply dict_pair|done]).
  - sentence primary_set_comp.
  - sentence_by ltac:(eapply primary_set; [by apply item_expr|done]).
Qed.

Lemma sound_parenthesized u :
  makes u (parse_parenthesized r) (λ e u', ∃ ts, Token.LParen :: u = ts ++ u' ∧ primary spans n ts e).
Proof using All.
  unfold parse_parenthesized. repeat first [rest_step|items_step].
  - sentence primary_tuple_empty.
  - rewrite Hu. sentence_by ltac:(eapply (primary_tuple _ _ _ _ (Token.Comma :: _)); eauto).
  - sentence primary_generator.
  - sentence_by ltac:(eapply (primary_tuple _ _ _ _ (Token.Comma :: _)); [by apply item_expr|done|done]).
  - sentence primary_paren.
Qed.

(** *** Literals *)

Lemma sound_adjacent_strings v u :
  makes u (adjacent_strings r (v, None)) (λ p u', ∃ vs, u = map Token.Str vs ++ u' ∧ p = (concat (v :: vs), None)).
Proof using All.
  unfold adjacent_strings. apply (makes_loop _ _ _ _ (λ p u', ∃ vs, u = map Token.Str vs ++ u' ∧ p = (concat (v :: vs), None))).
  - intros p u1 (vs & -> & ->). apply makes_fstring_free. intros Hf. makes_step. destruct u1 as [|t u1]; [|destruct t]; cbn [head]; makes_go; cbn.
    all: try (exists vs; done).
    + eexists (vs ++ [_]). rewrite map_app, concat_app. cbn. rewrite app_nil_r, app_assoc. split; [same_tokens|done].
    + by apply Forall_cons in Hf as [Hf _].
  - exists []. cbn. by rewrite app_nil_r.
Qed.

Lemma sound_adjacent_bytes v u :
  makes u (adjacent_bytes r v) (λ bs u', ∃ vs, u = map Token.Bytes vs ++ u' ∧ bs = concat (v :: vs)).
Proof using All.
  unfold adjacent_bytes. apply (makes_loop _ _ _ _ (λ bs u', ∃ vs, u = map Token.Bytes vs ++ u' ∧ bs = concat (v :: vs))).
  - intros bs u1 (vs & -> & ->). makes_step. destruct u1 as [|t u1]; [|destruct t]; cbn [head]; makes_go; cbn.
    all: try (exists vs; done).
    eexists (vs ++ [_]). rewrite map_app, concat_app. cbn. rewrite app_nil_r, app_assoc. split; [same_tokens|done].
  - exists []. cbn. by rewrite app_nil_r.
Qed.

Lemma sound_primary : returns (parse_primary r) (λ _, primary spans n).
Proof using All.
  intros u. unfold parse_primary. apply makes_fstring_free. intros Hf. makes_step.
  destruct u as [|t u]; [apply makes_err|]. destruct t; cbn [head]; makes_go; try (eexists [_]; split; [done|by constructor]).
  - eapply makes_bind; [apply sound_adjacent_strings|]. intros p u1 (vs & -> & ->). cbn beta iota. makes_go.
    eexists (map Token.Str (_ :: vs)). split; [done|apply primary_str].
  - eapply makes_bind; [apply sound_adjacent_bytes|]. intros bs u1 (vs & -> & ->). makes_go.
    eexists (map Token.Bytes (_ :: vs)). split; [done|apply primary_bytes].
  - by apply Forall_cons in Hf as [Hf _].
  - eexists [_]. split; [done|]. apply primary_var. intros Hs. by rewrite H0 by done.
  - apply sound_parenthesized.
  - apply sound_list_literal.
  - apply sound_dict_or_set.
  - apply makes_position; [done|]. intros [delimiter|]; apply makes_err.
Qed.
#[local] Hint Resolve sound_primary : sound_db.

(** *** Calls *)

(** An argument after others, after which more may follow, or a lone generator. *)
Definition argument_read (args : list Ast.CallArg) (seen : bool) (u : list Token.Token) (p : list Ast.CallArg * bool * bool) (u' : list Token.Token) : Prop :=
  ∃ ts, u = ts ++ u' ∧
    if p.2 then ∃ arg, p.1.1 = args ++ [arg] ∧ argument spans (following u') n seen ts arg p.1.2
    else args = [] ∧ arguments spans n ts p.1.1.

Lemma sound_positional args u :
  makes u (parse_positional r args) (λ p u', argument_read args false u (p.1, false, p.2) u').
Proof using All.
  unfold parse_positional. do 2 makes_step. destruct (for_follows u' && _) eqn:Hfor.
  - apply andb_prop in Hfor as [Hfor Hlen]. rewrite (following_for _ Hfor) in *. eapply makes_bind; [by apply sound_comp_clauses|].
    intros cs u1 (ts' & -> & Hcs). makes_go. exists (ts ++ ts'). destruct args; [|done]. cbn.
    split; [same_tokens|]. split; [done|by apply arguments_generator].
  - makes_go. exists ts. cbn. split; [done|]. eexists. split; [done|by apply argument_positional].
Qed.

Lemma sound_call_arg args seen u : makes u (parse_call_arg r args seen) (argument_read args seen u).
Proof using All.
  assert (Hpos : makes u (if seen then parse_err positional_after_keyword else '(args', more) ← parse_positional r args; mret (args', seen, more))
    (argument_read args seen u)).
  { destruct seen; [apply makes_err|]. eapply makes_bind; [apply sound_positional|]. intros [args' more] u' Hread. by apply makes_ret. }
  unfold parse_call_arg. makes_step; [|makes_step].
  - makes_go. eexists (_ :: ts). cbn. split; [done|]. eexists. split; [done|by apply argument_double_splat].
  - makes_go. eexists (_ :: ts). cbn. split; [done|]. eexists. split; [done|by apply argument_splat].
  - do 2 makes_step. destruct u as [|t u]; [done|]. destruct t; try done. cbn [head tail].
    destruct (token_is Token.Assign (head u)) eqn:Ha; [|done]. apply token_is_plain in Ha as [u2 ->]; [|cbn; lia].
    makes_go. eexists (_ :: _ :: ts). cbn. split; [done|]. eexists. split; [done|by apply argument_keyword].
Qed.

Lemma sound_call_args u : makes u (parse_call_args r) (λ args u', ∃ ts, u = ts ++ u' ∧ arguments spans n ts args).
Proof using All.
  unfold parse_call_args. makes_step.
  { makes_go. exists []. split; [done|constructor]. }
  eapply makes_bind.
  { apply (makes_loop _ _ _ _ (λ p u', ∃ ts, u = ts ++ u' ∧ (p.1 = [] → ts = []) ∧
        ∀ ts' args', argument_list spans n p.2 ts' args' → argument_list spans n false (ts ++ ts') (p.1 ++ args'))
      (λ p u', ∃ ts, u = ts ++ u' ∧ (arguments spans n ts p.1 ∨ argument_list spans n false ts p.1))).
    - intros [args seen] u1 (ts & -> & Hnil & Hlist). cbn [fst snd] in *.
      eapply makes_bind; [apply sound_call_arg|]. intros [[args' seen'] more] u2 (ts' & -> & Harg). cbn [fst snd] in Harg.
      destruct more; cbn [negb].
      + destruct Harg as (arg & -> & Harg). makes_step; [|makes_step].
        * makes_go. cbn [fst snd]. exists (ts ++ ts'). split; [same_tokens|]. right. eapply Hlist, argument_last. exact Harg.
        * rewrite following_any in Harg by done. makes_step; makes_go; cbn [fst snd]; exists (ts ++ ts' ++ [Token.Comma]); (split; [same_tokens|]).
          { right. eapply Hlist, argument_trailing. exact Harg. }
          split; [by destruct args|]. intros ts1 args1 Hl. rewrite <- !app_assoc. cbn [app]. eapply Hlist, argument_more; [exact Harg|done].
      + destruct Harg as (-> & Hargs). makes_go. cbn [fst snd]. rewrite (Hnil eq_refl). exists ts'. split; [done|by left].
    - exists []. by cbn. }
  intros [args seen] u1 (ts & -> & Hargs). cbn [fst snd] in Hargs. makes_go. exists ts. split; [done|].
  destruct Hargs as [Hargs|Hargs]; [done|]. apply arguments_list; [done|]. match goal with Hc : check_repeated_keywords _ _ = Return ?x |- _ => by destruct x end.
Qed.

(** *** Subscripts *)

Lemma sound_slice_bound absent : returns (slice_bound r absent) (λ b, optional (expr spans b n)).
Proof using All.
  intros u. destruct absent; cbn; makes_go.
  - exists []. split; [done|constructor].
  - eexists. split; [done|by apply optional_some].
Qed.
#[local] Hint Resolve sound_slice_bound : sound_db.

Lemma sound_slice target ts1 lower ts u :
  postfix spans n ts target → optional (item spans NotComma n) ts1 lower →
  makes (Token.Colon :: u) (parse_slice r target lower)
    (λ e u', ∃ ts', u = ts' ++ u' ∧ postfix spans n (ts ++ Token.LBracket :: ts1 ++ Token.Colon :: ts') e).
Proof using All.
  intros Ht Hl. unfold parse_slice. makes_step. do 2 (apply makes_position; [done|intros ?]). makes_step. makes_step.
  - do 3 makes_step. apply makes_position; [done|intros ?]. makes_go.
    sentence_by ltac:(eapply postfix_slice; [done..|by apply slice_step_some]).
  - makes_go. sentence_by ltac:(eapply postfix_slice; [done..|by apply slice_step_none]).
Qed.

Lemma sound_index target first ts1 start col ts u :
  (spans = false → start = None) → postfix spans n ts target → item spans (following u) n ts1 first →
  makes u (parse_index r target first (is_starred first) start col)
    (λ e u', ∃ ts', u = ts' ++ u' ∧ postfix spans n (ts ++ Token.LBracket :: ts1 ++ ts') e).
Proof using All.
  intros Hs Ht Hi. unfold parse_index. 
  assert (Hspan : ∀ fin, allowed spans (obj ← start; br ← col; fin ← fin; if ((obj <=? br)%Z && (br <? fin)%Z) then Some (obj, br, fin, fin) else None)).
  { intros fin Hsp. by rewrite Hs. }
  makes_step; [makes_step; items_step|]; makes_go; cbn in Hspan.
  - exists ((Token.Comma :: ts0) ++ [Token.RBracket]). split; [same_tokens|]. rewrite (app_assoc ts1). apply postfix_index; [done| |done].
    by apply subscript_tuple; [apply Hi| |].
  - exists [Token.RBracket]. split; [done|]. by apply postfix_index; [|apply subscript_one|].
Qed.

Lemma sound_subscript target start col ts u :
  (spans = false → start = None) → postfix spans n ts target →
  makes u (parse_subscript r target start col) (λ e u', ∃ ts', u = ts' ++ u' ∧ postfix spans n (ts ++ Token.LBracket :: ts') e).
Proof using All.
  intros Hs Ht. unfold parse_subscript. makes_step.
  - apply makes_position; [done|intros ?]. makes_step. makes_step; [|done]. eapply makes_weaken; [eapply (sound_slice _ []); [done|constructor]|].
    intros e u1 (ts' & -> & He). by exists (Token.Colon :: ts').
  - apply (makes_current _ _ _ (λ t, (first ← (e ← parse_seq_item r; mret (Some e)); at_colon ← is_at Token.Colon;
      if (at_colon : bool) then parse_slice r target first
      else match first with Some first => parse_index r target first (token_is Token.Star t) start col | None => parse_err "empty subscript" end))).
    do 2 makes_step. rewrite <- (item_starred_head _ _ _ _ _ u') by done. makes_step. makes_step.
    + eapply makes_weaken; [by eapply sound_slice; [|apply optional_some]|]. intros e u1 (ts' & -> & He).
      exists (ts0 ++ Token.Colon :: ts'). split; [same_tokens|done].
    + eapply makes_weaken; [by eapply sound_index|]. intros e u1 (ts' & -> & He). exists (ts0 ++ ts'). split; [same_tokens|done].
Qed.

Lemma sound_postfixes start e ts u :
  (spans = false → start = None) → postfix spans n ts e →
  makes u (postfixes r start e) (λ e' u', ∃ ts', u = ts' ++ u' ∧ postfix spans n (ts ++ ts') e').
Proof using All.
  intros Hs He. unfold postfixes. apply (makes_loop _ _ _ _ (λ e' u', ∃ ts', u = ts' ++ u' ∧ postfix spans n (ts ++ ts') e')).
  2: { exists []. by rewrite app_nil_r. }
  intros e1 u1 (ts' & -> & He1). makes_step; [|makes_step; [|makes_step]].
  - makes_step. eapply makes_bind; [apply sound_call_args|]. intros args u2 (ts1 & -> & Hargs). makes_go. cbn.
    exists (ts' ++ Token.LParen :: ts1 ++ [Token.RParen]). split; [same_tokens|]. rewrite app_assoc. by apply postfix_call, whole_span_allowed.
  - do 2 makes_step. eapply makes_bind; [by eapply sound_subscript|]. intros e2 u2 (ts1 & -> & He2). makes_go. cbn.
    exists (ts' ++ Token.LBracket :: ts1). split; [same_tokens|]. by rewrite app_assoc.
  - do 2 makes_step. destruct u' as [|t u']; [apply makes_err|]. destruct t; try apply makes_err. cbn [head]. makes_go. cbn.
    exists (ts' ++ [Token.Dot; Token.Ident name]). split; [same_tokens|]. rewrite app_assoc. by apply postfix_attr, whole_span_allowed.
  - makes_go. cbn. by exists ts'.
Qed.

Lemma sound_postfix : returns (parse_postfix r) (λ _, postfix spans n).
Proof using All.
  intros u. unfold parse_postfix. do 2 makes_step. eapply makes_weaken; [by eapply sound_postfixes; [|apply postfix_primary]|].
  intros e u1 (ts' & -> & He). exists (ts ++ ts'). split; [same_tokens|done].
Qed.
#[local] Hint Resolve sound_postfix : sound_db.

(** *** Operators *)

Lemma sound_power u :
  head u ≠ Some (Token.Ident (chars_of "await")) → makes u (parse_power r) (λ e u', ∃ ts, u = ts ++ u' ∧ unary spans n ts e).
Proof using All.
  intros Ha. unfold parse_power. makes_go; apply head_app in Ha.
  - sentence unary_power.
  - sentence unary_postfix.
Qed.

Lemma sound_unary : returns (parse_unary r) (λ _, unary spans n).
Proof using All.
  intros u. unfold parse_unary. makes_step. destruct (unary_operator (head u)) eqn:Hop.
  - destruct u as [|t u]; [done|]. makes_go. sentence unary_operation.
  - destruct (ident_is "await" (head u)) eqn:Ha.
    + apply ident_is_head in Ha as [u' ->]. makes_go. sentence unary_await.
    + apply sound_power. intros Hu. by rewrite Hu in Ha.
Qed.
#[local] Hint Resolve sound_unary : sound_db.

Lemma sound_binary k next :
  returns next (λ _, binary spans n k) → returns (parse_binary r (level_operator k) next) (λ _, binary spans n (S k)).
Proof using All.
  intros Hnext u. unfold parse_binary. makes_step. makes_step. eapply makes_call; [apply Hnext|]. intros e ts u' -> He.
  apply (makes_loop _ _ _ _ (λ e' u1, ∃ ts', ts ++ u' = ts' ++ u1 ∧ binary spans n (S k) ts' e')).
  2: { exists ts. split; [done|by apply binary_tighter]. }
  intros e1 u1 (ts1 & -> & He1). makes_step. destruct (level_operator k (head u1)) as [op|] eqn:Hop; [|makes_go; by exists ts1].
  destruct u1 as [|t u1]; [by rewrite level_operator_none in Hop|]. do 3 makes_step. eapply makes_call; [apply Hnext|]. intros e2 ts2 u2 -> He2. makes_go.
  exists (ts1 ++ t :: ts2). split; [same_tokens|by apply binary_operator].
Qed.

Lemma sound_bitor : returns (parse_bitor r) (λ _, binary spans n 6).
Proof using All.
  apply (sound_binary 5), (sound_binary 4), (sound_binary 3), (sound_binary 2), (sound_binary 1), (sound_binary 0).
  intros u. makes_step. eexists. split; [done|by apply binary_unary].
Qed.
#[local] Hint Resolve sound_bitor : sound_db.

Lemma sound_comparison_operator u :
  makes u comparison_operator (λ o u', match o with Some op => u = comparison_tokens op ++ u' | None => u' = u end).
Proof using All.
  unfold comparison_operator. makes_step. destruct u as [|t u]; [by makes_go|]. destruct t; cbn [head]; makes_go; try done.
  match goal with Hin : token_is Token.In _ = true |- _ => apply token_is_plain in Hin as [u' ->]; [|cbn; lia] end. by makes_go.
Qed.

Lemma sound_comparisons u : makes u (Parser.comparisons r []) (λ ops u', ∃ ts, u = ts ++ u' ∧ Grammar.comparisons spans n ts ops).
Proof using All.
  unfold Parser.comparisons. apply (makes_loop _ _ _ _ (λ ops u', ∃ ts, u = ts ++ u' ∧ Grammar.comparisons spans n ts ops)).
  2: { exists []. split; [done|constructor]. }
  intros ops u1 (ts & -> & Hops). eapply makes_bind; [apply sound_comparison_operator|]. intros [op|] u2 Hu; [subst u1|subst u2]; makes_go; cbn.
  - eexists (ts ++ comparison_tokens op ++ _). split; [same_tokens|by apply comparisons_snoc].
  - by exists ts.
Qed.

Lemma sound_comparison : returns (parse_comparison r) (λ _, not_test spans n).
Proof using All.
  intros u. unfold parse_comparison. makes_step. eapply makes_bind; [apply sound_comparisons|]. intros ops u1 (ts' & -> & Hops).
  apply makes_ret. exists (ts ++ ts'). split; [same_tokens|by apply not_comparison].
Qed.
#[local] Hint Resolve sound_comparison : sound_db.

Lemma sound_not : returns (parse_not r) (λ _, not_test spans n).
Proof using All. intros u. unfold parse_not. makes_go; [sentence not_not|by eexists]. Qed.
#[local] Hint Resolve sound_not : sound_db.

(** Operands [N] joined by [op], which are trees of [J]. *)
Lemma sound_boolean token op next (N J : list Token.Token → Ast.Expr → Prop) :
  8 ≤ token_kind token → returns next (λ _, N) → (∀ ts e, N ts e → J ts e) →
  (∀ ts e ts' e', J ts e → N ts' e' → J (ts ++ token :: ts') (Ast.Binary e op e' None)) → returns (parse_boolean r token op next) (λ _, J).
Proof using All.
  intros Hk Hnext HN HJ u. unfold parse_boolean. eapply makes_call; [apply Hnext|]. intros e ts u' -> He.
  apply (makes_loop _ _ _ _ (λ e' u1, ∃ ts', ts ++ u' = ts' ++ u1 ∧ J ts' e')); [|by eauto].
  intros e1 u1 (ts1 & -> & He1). apply makes_is_at; [done| |intros _; makes_go; by exists ts1].
  intros u2 ->. makes_step. eapply makes_call; [apply Hnext|]. intros e2 ts2 u3 -> He2. makes_go. exists (ts1 ++ token :: ts2). split; [same_tokens|by apply HJ].
Qed.

Lemma sound_and : returns (parse_and r) (λ _, and_test spans n).
Proof using All.
  eapply sound_boolean; [cbn; lia|apply sound_not|apply and_not|]. intros. by apply and_and.
Qed.

Lemma sound_or : returns (parse_or r) (λ _, or_test spans n).
Proof using All.
  eapply sound_boolean; [cbn; lia|apply sound_and|apply or_and|]. intros. by apply or_or.
Qed.
#[local] Hint Resolve sound_or : sound_db.

(** *** Lambda *)

Lemma sound_lambda_item s : lp_seen_kwargs s = false → returns (double_star ← is_at Token.StarStar; star ← is_at Token.Star;
    if (double_star : bool) then lambda_kwargs s else if (star : bool) then lambda_args s else lambda_param r s)
  (λ b ts s', lambda_item spans b n s ts s').
Proof using All.
  intros Hk u. makes_step; [|makes_step].
  - apply makes_position; [done|intros _]. unfold lambda_kwargs. makes_go. sentence lambda_item_kwargs.
  - unfold lambda_args. destruct (lp_seen_star s) eqn:Hs; makes_go.
    + exists [Token.Star]. split; [done|by apply lambda_item_bare_star].
    + exists [Token.Star]. split; [done|by apply lambda_item_bare_star].
    + exists [Token.Star; Token.Ident name]. split; [done|by apply lambda_item_args].
  - unfold lambda_param. makes_step. destruct u as [|t u]; [apply makes_err|]. destruct t; try apply makes_err. cbn [head]. makes_go.
    + eexists (_ :: _ :: _). split; [same_tokens|by apply lambda_item_default].
    + exists [Token.Ident name]. split; [done|]. apply lambda_item_param; [done|]. destruct (lp_seen_default s), (lp_seen_star s); naive_solver.
Qed.

Lemma makes_lambda_colon {A} s (f : bool → parser A) u Q :
  (∀ u', u = Token.Colon :: u' → lp_bare_star_needs_kwonly s = false → makes u (f true) Q) → makes u (f false) Q → makes u (lambda_colon s ≫= f) Q.
Proof using All.
  intros Ht Hf. unfold lambda_colon. makes_step. makes_step.
  - destruct (lp_bare_star_needs_kwonly s) eqn:Hb; makes_go. by eapply Ht.
  - by makes_go.
Qed.

Lemma sound_lambda_params u :
  makes u (lambda_params r no_params) (λ s u', ∃ ts, u = ts ++ u' ∧ lambda_items spans n no_params ts s).
Proof using All.
  unfold lambda_params. apply (makes_loop _ _ _ _ (λ s u', ∃ ts, u = ts ++ u' ∧ ∀ ts' s', lambda_items spans n s ts' s' → lambda_items spans n no_params (ts ++ ts') s')
    (λ s u', ∃ ts, u = ts ++ u' ∧ lambda_items spans n no_params ts s)).
  2: { by exists []. }
  intros s u1 (ts & -> & Hs). destruct (lp_seen_kwargs s) eqn:Hk; [apply makes_err|].
  apply makes_assoc_2. eapply makes_call; [by apply sound_lambda_item|]. intros s1 ts1 u2 -> Hi. apply makes_lambda_colon; [intros u' -> Hb|].
  - makes_go. cbn [fst snd]. exists (ts ++ ts1). split; [same_tokens|]. by apply Hs, lambda_last.
  - makes_step. rewrite following_any in Hi by done. apply makes_lambda_colon; [intros u3 Hu Hb|].
    + makes_go. cbn [fst snd negb]. exists (ts ++ ts1 ++ [Token.Comma]). split; [same_tokens|]. by apply Hs, lambda_trailing.
    + makes_go. cbn [fst snd negb]. exists (ts ++ ts1 ++ [Token.Comma]). split; [same_tokens|]. intros ts' s' Hl.
      rewrite <- !app_assoc. by eapply Hs, lambda_more.
Qed.

Lemma sound_lambda : returns (parse_lambda r) (λ b, inner spans b n).
Proof using All.
  intros u. unfold parse_lambda. do 2 makes_step.
  - makes_go. sentence_by ltac:(by apply (inner_lambda _ _ _ []); [constructor|]).
  - unfold parse_lambda_params. makes_step. eapply makes_bind; [apply sound_lambda_params|]. intros s u1 (ts & -> & Hs). makes_go.
    sentence_by ltac:(apply inner_lambda; [apply lambda_list_some; [done|]|done]; by match goal with Hc : check_duplicate_params _ = Return ?x |- _ => destruct x end).
Qed.
#[local] Hint Resolve sound_lambda : sound_db.

(** *** Expressions *)

Lemma sound_yield u : makes (Token.Yield :: u) (parse_yield r) (λ e u', ∃ ts, u = ts ++ u' ∧ inner spans (following u') n (Token.Yield :: ts) e).
Proof using All.
  unfold parse_yield. makes_step. makes_step; [|makes_step; destruct (stmt_end u) eqn:Hu].
  - makes_go. sentence inner_yield_from.
  - makes_go. exists []. split; [done|]. unfold following. rewrite Hu. apply inner_yield_none.
  - makes_step. apply makes_not_starred. intros Hs. makes_go. eexists. split; [done|].
    match goal with Ha : _ ∧ _ |- _ => destruct Ha end. by apply inner_yield.
Qed.

Lemma sound_walrus e ts u :
  or_test spans n ts e →
  makes (Token.Walrus :: u) (parse_walrus r e) (λ e' u', ∃ ts', u = ts' ++ u' ∧ inner spans (following u') n (ts ++ Token.Walrus :: ts') e').
Proof using All.
  intros He. unfold parse_walrus. destruct e; try apply makes_err. case_bool_decide; [apply makes_err|]. makes_go.
  eexists. split; [done|]. by eapply inner_walrus.
Qed.

Lemma sound_ternary e ts u :
  or_test spans n ts e →
  makes (Token.If :: u) (parse_ternary r e) (λ e' u', ∃ ts', u = ts' ++ u' ∧ inner spans (following u') n (ts ++ Token.If :: ts') e').
Proof using All.
  intros He. unfold parse_ternary. makes_go. eexists. split; [|by eapply inner_ternary]. same_tokens.
Qed.

Lemma sound_inner : returns (parse_expr_inner r) (λ b, inner spans b n).
Proof using All.
  intros u. unfold parse_expr_inner. makes_step; [apply makes_position; [done|intros _]|makes_step].
  - eapply makes_weaken; [apply sound_yield|]. intros e u1 (ts & -> & He). by exists (Token.Yield :: ts).
  - apply sound_lambda.
  - makes_step. makes_step; [apply makes_position; [done|intros _]|makes_step].
    + eapply makes_weaken; [by apply sound_walrus|]. intros e u1 (ts1 & -> & He). eexists. split; [|done]. same_tokens.
    + eapply makes_weaken; [by apply sound_ternary|]. intros e u1 (ts1 & -> & He). eexists. split; [|done]. same_tokens.
    + makes_go. sentence inner_or.
Qed.
End sound.

(** ** The whole parser *)

(** The parsers of [r] return sentences, at depth [d]. *)
Definition sound_at `{TokenDebug} (spans : bool) (r : Parsers) (d : nat) : Prop :=
  let n := MAX_EXPR_DEPTH - d in
  returns spans d (p_expr r) (λ b, expr spans b n) ∧ returns spans d (p_or r) (λ _, or_test spans n) ∧
  returns spans d (p_not r) (λ _, not_test spans n) ∧ returns spans d (p_unary r) (λ _, unary spans n) ∧
  returns spans d (p_for_target r) (λ _, target).

Lemma sound_expr `{TokenDebug} spans r d n :
  returns spans (d + 1) (parse_expr_inner r) (λ b, inner spans b n) → returns spans d (parse_expr r) (λ b, expr spans b (S n)).
Proof.
  intros Hi u st (Hd & Hs & Hf) Hu. unfold parse_expr. destruct (_ <? _); [done|].
  specialize (Hi u (with_expr_depth (ps_expr_depth st + 1) st)). destruct (parse_expr_inner _ _) as [[e| | |] st']; try done.
  destruct Hi as (k & -> & Hk & ts & Hts & He); [by rewrite <- Hd|done|]. exists k. split; [|split; [done|]].
  - cbn. rewrite Nat.add_sub. by destruct st.
  - exists ts. split; [done|by apply expr_inner].
Qed.

Lemma sound_parse_expr `{TokenDebug} spans r d :
  sound_at spans r (d + 1) → returns spans d (parse_expr r) (λ b, expr spans b (MAX_EXPR_DEPTH - d)).
Proof.
  intros (? & ? & ? & ? & ?). destruct (decide (d < MAX_EXPR_DEPTH)) as [Hd|Hd].
  - replace (MAX_EXPR_DEPTH - d) with (S (MAX_EXPR_DEPTH - (d + 1))) by lia. apply sound_expr. by apply sound_inner.
  - intros u st (Hst & _) _. unfold parse_expr. cbn [ps_expr_depth with_expr_depth]. by rewrite (proj2 (Nat.ltb_lt _ _)) by (rewrite Hst; lia).
Qed.

Lemma sound_parsers {B} `{BigIntText B, Unicode, TokenDebug} int_limit spans fuel d : sound_at spans (parsers (B := B) int_limit fuel) d.
Proof.
  revert d. induction fuel as [|fuel IH]; intros d; [by split_and!; intros u st|].
  destruct (IH d) as (? & ? & ? & ? & ?). split_and!; cbn [parsers p_expr p_or p_not p_unary p_for_target].
  - by apply sound_parse_expr.
  - by eapply sound_or.
  - by eapply sound_not.
  - by eapply sound_unary.
  - by eapply sound_for_target.
Qed.
