(* ===== verification/ParserProps.v ===== *)
(** What the parser of expressions guarantees. *)

From stdpp Require Import strings.
From S2P Require Import Outcome Prelude Double IntArith Bytecode Chars LexLiterals LexFStrings Lexer LexBounds LexLayout LexProps Combinatorics.
From S2P Require Import Parser ParserEnds Grammar ParserReads ParserComplete ParserSound.

#[local] Open Scope nat_scope.

(** ** Concrete parsers *)

#[export] Instance plain_debug : TokenDebug := λ _, "a token"%string.

Definition sample_parsers : Parsers := parsers (B := Z) 4300 60.
Definition parse_tokens (ts : list Token.Token) : outcome Ast.Expr := fst (parse_expr sample_parsers (parser_new ts)).
Definition parse_text (text : string) : outcome Ast.Expr :=
  lexed ← lexer (B := Z) 4300 (chars_of text); parse_tokens (tokens lexed).

(** [a - b * c <= a] *)
Definition name (s : string) : Token.Token := Token.Ident (chars_of s).
Definition var (s : string) : Ast.Expr := Ast.Var (chars_of s) None.
Definition sample_tokens : list Token.Token :=
  [name "a"; Token.Minus; name "b"; Token.Star; name "c"; Token.Le; name "a"].
Definition sample_tree : Ast.Expr :=
  Ast.Binary (Ast.Binary (var "a") Sub (Ast.Binary (var "b") Mul (var "c") None) None) Le (var "a") None.

Lemma var_binary k s : chars_of s ≠ chars_of "await" → binary false 0 k [name s] (var s).
Proof.
  intros Hs. induction k as [|k IH]; [|by apply binary_tighter]. apply binary_unary, unary_postfix.
  - by apply postfix_primary, primary_var.
  - intros [= Heq]. by apply Hs.
Qed.

(** The grammar is unambiguous, within the limit on depth. *)
Lemma sentence_unique b n n' ts e e' :
  expr false b n ts e → expr false b n' ts e' → n ≤ MAX_EXPR_DEPTH → n' ≤ MAX_EXPR_DEPTH → e = e'.
Proof.
  intros He He' Hn Hn'. assert (Hb : follows b [] = true) by (by destruct b).
  assert (Hread : ∀ n e, expr false b n ts e → n ≤ MAX_EXPR_DEPTH →
    reads [] 0 (parse_expr (parsers (B := Z) 4300 (length ts))) ts e []).
  { intros m t Ht Hm. eapply (reads_parse_expr [] (length ts) _ 0 b m); try done; [apply parsers_fuel|apply complete_parsers]. }
  specialize (Hread n e He Hn []) as Hr. specialize (Hread n' e' He' Hn' []) as Hr'. congruence.
Qed.

Section properties.
  Context {B : Type} `{BigIntText B, !Unicode, !UnicodeLaws, TokenDebug} (int_limit : Z).
  Abbreviation parsers := (parsers (B := B) int_limit).

(** C8: A sentence of the grammar of expressions is read as its tree: with
    fuel for its tokens, before tokens that do not continue it, and where its
    nested expressions stay within the limit on depth, the parser reads the
    tokens of the sentence and no others, and returns the tree that the
    precedence and the associativity of the operators give it. *)
Theorem sentences_are_read fuel lines d b n ts e pre rest :
  expr false b n ts e → d + n ≤ MAX_EXPR_DEPTH → stops 1 rest = true → follows b rest = true → length ts ≤ fuel →
  parse_expr (parsers fuel) (place lines d pre (ts ++ rest)) = (Return e, place lines d (pre ++ ts) rest).
Proof.
  intros He Hn Hs Hb Hlen.
  by apply (reads_parse_expr lines fuel (parsers fuel) d b n); [apply parsers_fuel|apply complete_parsers|..].
Qed.

(** C16: Parsing an expression ends, wherever it starts: with fuel for the
    work of the tokens that are left, it returns a tree, after at least one
    token and at most all of them, leaving everything but the position as it
    was, or raises a syntax error; the one exception is a panic, and then an
    f-string among the tokens has a replacement field. *)
Theorem expression_parsing_ends st fuel :
  ps_pos st ≤ length (ps_tokens st) → work (drop (ps_pos st) (ps_tokens st)) ≤ fuel → (Z.of_nat fuel < 2 ^ 32)%Z →
  match parse_expr (parsers fuel) st with
  | (Return _, st') => ps_pos st < ps_pos st' ≤ length (ps_tokens st) ∧ st' = with_pos (ps_pos st') st
  | (Raise e, _) => syntax_error e
  | (Panicked, _) => has_fields (ps_tokens st)
  | (OutOfFuel, _) => False
  end.
Proof.
  intros Hp Hw HF. pose proof (ends_grammar fuel (parsers fuel) (parsers_fuel int_limit fuel) (parsers_end int_limit fuel HF)) as Hg.
  destruct (Hg (ps_tokens st) fuel) as [Hm _]; [done|]. specialize (Hm st eq_refl ltac:(lia) Hw).
  destruct (parse_expr (parsers fuel) st) as [[e|e| |] st']; try done. destruct Hm as (d & -> & Hd & HQ). cbn. split; [lia|done].
Qed.

(** C26: What the parser reads is a sentence of the grammar, and what it
    returns is the sentence's tree: where it returns a tree, with any fuel and
    wherever it starts, before tokens without f-strings, the tokens that it
    has moved over are a sentence with that tree, in the place that the next
    token leaves for it and with no more nested expressions than the limit on
    depth allows; no tokens are skipped or read twice, and nothing but the
    position changes. For tokens without columns the tree has no spans, and
    no other tree of the grammar has the same tokens. *)
Theorem parsed_trees_are_sentences spans st fuel e st' :
  fstring_free (unread st) → (spans = false → ps_cols st = []) → parse_expr (parsers fuel) st = (Return e, st') →
  ∃ ts, unread st = ts ++ unread st' ∧ st' = with_pos (ps_pos st + length ts) st ∧
    expr spans (following (unread st')) (MAX_EXPR_DEPTH - ps_expr_depth st) ts e ∧
    (spans = false → ∀ n e', n ≤ MAX_EXPR_DEPTH → expr spans (following (unread st')) n ts e' → e' = e).
Proof.
  intros Hf Hs Hp. destruct (sound_parsers (B := B) int_limit spans (S fuel) (ps_expr_depth st)) as [Hexpr _].
  specialize (Hexpr (unread st) st (conj eq_refl (conj Hs Hf)) eq_refl). cbn [parsers p_expr] in Hexpr. rewrite Hp in Hexpr.
  destruct Hexpr as (k & -> & Hk & ts & Hts & He). rewrite unread_with_pos. exists ts.
  assert (Hlen : k = length ts).
  { apply (f_equal length) in Hts. rewrite length_app, length_drop in Hts. lia. }
  rewrite <- Hlen. split_and!; [done..|]. intros -> m e' Hm He'. eapply sentence_unique; [done..|lia].
Qed.
End properties.

(** ** Witnesses *)

Lemma sentences_are_read_witness :
  parse_expr (parsers (B := Z) 4300 7) (place [] 0 [] (sample_tokens ++ [Token.Newline; Token.Eof])) =
    (Return sample_tree, place [] 0 sample_tokens [Token.Newline; Token.Eof]).
Proof.
  apply (sentences_are_read 4300 7 [] 0 StatementEnd 1 sample_tokens sample_tree []); try reflexivity; [|vm_compute; lia].
  apply expr_inner, inner_or, or_and, and_not.
  apply (not_comparison _ _ [name "a"; Token.Minus; name "b"; Token.Star; name "c"] _ [Token.Le; name "a"] [(CmpOp.Le, var "a")]).
  - do 4 apply binary_tighter.
    apply (binary_operator _ _ 1 [name "a"] _ Token.Minus _ [name "b"; Token.Star; name "c"]); try done; [by apply var_binary|].
    apply (binary_operator _ _ 0 [name "b"] _ Token.Star _ [name "c"]); try done; by apply var_binary.
  - apply (comparisons_more _ _ CmpOp.Le [name "a"] _ []); [by apply var_binary|constructor].
Defined.

Lemma expression_parsing_ends_witness :
  match parse_expr (parsers (B := Z) 4300 9) (parser_new (sample_tokens ++ [Token.Newline; Token.Eof])) with
  | (Return _, st') => 0 < ps_pos st' ≤ 9 ∧ st' = with_pos (ps_pos st') (parser_new (sample_tokens ++ [Token.Newline; Token.Eof]))
  | (Raise e, _) => syntax_error e
  | (Panicked, _) => has_fields (sample_tokens ++ [Token.Newline; Token.Eof])
  | (OutOfFuel, _) => False
  end.
Proof.
  apply (expression_parsing_ends (B := Z) 4300 (parser_new (sample_tokens ++ [Token.Newline; Token.Eof])) 9); vm_compute; (lia || reflexivity).
Defined.

Lemma parsed_trees_are_sentences_witness :
  let st := parser_new (sample_tokens ++ [Token.Newline; Token.Eof]) in let st' := with_pos 7 st in
  ∃ ts, unread st = ts ++ unread st' ∧ st' = with_pos (ps_pos st + length ts) st ∧
    expr false (following (unread st')) (MAX_EXPR_DEPTH - ps_expr_depth st) ts sample_tree ∧
    (false = false → ∀ n e', n ≤ MAX_EXPR_DEPTH → expr false (following (unread st')) n ts e' → e' = sample_tree).
Proof.
  apply (parsed_trees_are_sentences (B := Z) 4300 false (parser_new (sample_tokens ++ [Token.Newline; Token.Eof])) 9); [|done|vm_compute; reflexivity].
  by repeat constructor.
Defined.

(** ** Where the parser differs from Python *)

Definition is_syntax_error (r : outcome Ast.Expr) : bool := match r with Raise (Parse _) => true | _ => false end.

Example unpacking_after_a_keyword_is_rejected : is_syntax_error (parse_text "f(x=1, *a)") = true.
Proof. vm_compute. reflexivity. Qed.
Example bare_yield_in_parentheses_is_rejected : is_syntax_error (parse_text "(yield)") = true.
Proof. vm_compute. reflexivity. Qed.
Example positional_only_parameters_are_rejected : is_syntax_error (parse_text "lambda a, /, b: a") = true.
Proof. vm_compute. reflexivity. Qed.
Example slices_in_tuples_are_rejected : is_syntax_error (parse_text "a[1:2, 3]") = true.
Proof. vm_compute. reflexivity. Qed.
Example subscripts_are_no_targets : is_syntax_error (parse_text "[x for x[0] in y]") = true.
Proof. vm_compute. reflexivity. Qed.
Example await_is_looser_than_power :
  parse_text "await x ** 2" = Return (Ast.Await (Ast.Binary (var "x") Pow (Ast.Int 2) None)).
Proof. vm_compute. reflexivity. Qed.
Example parenthesized_names_are_walrus_targets : parse_text "((x) := 1)" = Return (Ast.Named (chars_of "x") (Ast.Int 1)).
Proof. vm_compute. reflexivity. Qed.
Example fields_stop_at_their_first_expression :
  parse_text "f'{a, b}{c d}'" = Return (Ast.FString [
    Ast.Field (var "a") None None None (Some (2, 2, 8, 8)%Z) 0; Ast.Field (var "c") None None None (Some (8, 8, 13, 13)%Z) 0]).
Proof. vm_compute. reflexivity. Qed.
